(* ===== verification/_CoqProject ===== *)
-Q . S2P
Prelude.v
Ctype.v
Sort.v
Stack.v
Queue.v
LinkedList.v
Tree.v
Time.v
Crc.v
Memory.v
Bignum.v
BigSub.v
BigMul.v
BigDiv.v
Kmp.v
MemOps.v
TextNum.v
BigText.v
Sha.v
File.v
Codec.v
Rle.v
Numbers.v
Cache.v
Malloc.v
Arena.v
Pipe.v
BlockCache.v
Fifo.v
FileCache.v
Text.v
CString.v
Calculator.v
Path.v
Ecc.v
Regex.v
Thread.v
Timer.v
Huffman.v
HuffmanFile.v
HuffmanOptimal.v
