(* ===== verification/Prelude.v ===== *)
(** * The C library of cavan

    src/lib/ is a library of general C code (sorts, containers, big numbers,
    strings, digests, compression, caches, an allocator) under a large set of
    network, device and image programs.  This development models the general
    code and proves what its users rely on.  This file holds what the models
    share: results of a C computation, programs over a store and their rules,
    arrays, machine integers, tactics.

    ** How C is read

    - A computation gives [Ok a], [Undef] (an access outside its object, a use
      after [free], a signed overflow, a lock taken twice) or [NoFuel] (a bound
      of a loop is used up).  [wp] and [wpp] ask for [Ok]: every theorem that
      uses them, or ends in [= Ok ...], says that the code returns and never
      leaves its objects.
    - Unsigned arithmetic wraps where it can ([wrap], [u8] to [u64]); where the
      code computes in [int], either the model is undefined on overflow or the
      theorem has the bound as a hypothesis.
    - Pure array code (Sort, Kmp, Sha, Codec, Rle, Cache, Fifo) takes lists with
      checked accesses.  Code with aliasing or address arithmetic (Memory,
      Bignum and the files on it, TextNum, Text, CString, Calculator, Path) runs over
      a store of bytes, [Memory.mem], in which blocks may overlap; linked
      structures (LinkedList, Tree, BlockCache, Timer) run over a store of nodes;
      Malloc over a store of words.
    - A loop becomes [loop], [ploop] or [while] with its body as the code has
      it.  The bound is a number no run reaches: the length of the array or of
      the range that shrinks, the number of cells of the store for a scan to a
      terminator or along a list, the width of the integer for a loop that
      shifts.  The theorems prove that it is not reached; where the code can
      loop for ever the theorem is about every bound
      ([Numbers.gcd_single_terminates], [Text.text_cat4_never_returns]).
    - System calls, [malloc], callbacks and function pointers are arguments or
      the methods of a class; the laws of the class are documented behaviour
      and instances of them run in the witnesses.  Locks are modelled where a
      list takes them (LinkedList) and where threads wait (Pipe, Thread, Timer:
      the code between two places where the lock is free is one step); elsewhere
      a call takes its lock once and releases it, and the model leaves it out.
      Messages printed on the way are left out.

    ** The files

    - Ctype: lib/ctype.c, include/cavan/ctype.h.  The table of character
      classes and the tests on it, as sets of characters.
    - Sort: lib/sort.c.  Quick, selection, insertion, shell and heap sort;
      quick sort and shell sort sort, selection sort does, and for the others
      the file has the inputs on which they do not.
    - Stack: lib/stack.c.  Four disciplines of array stacks behind the class
      [stack_ops]; all refine one bounded list; typed and block stacks.
    - Queue: lib/queue.c.  Rings of pointers and of bytes with peek and commit,
      against a bounded first-in-first-out list.
    - LinkedList: lib/list.c.  The three intrusive lists with their locks;
      every operation refines one on lists, and emptying a list frees its nodes.
    - Tree: lib/tree.c.  Search trees with a cache of nodes; insertion keeps the
      order, the iterative traversals are the recursive ones (they use the
      stacks and queues through their laws).
    - Time: lib/time.c.  Dates to and from day numbers and seconds.
    - Crc: lib/crc.c.  The tables compute the shift register; burst errors are
      detected.
    - Memory, MemOps, Kmp: lib/memory.c.  The byte store, block copies with
      their word loops, fills, scans, reversals, checksums; the searches.
    - Bignum, BigSub, BigMul, BigDiv: lib/math.c.  Numbers in blocks of bytes:
      addition and complement, subtraction and comparison, shifts and products,
      quotients and remainders.  Numbers: bit searches, gcd and lcm.
    - TextNum, BigText: lib/text.c, lib/math.c.  Numbers of a machine word and of
      any length, to and from text in every base.
    - Text: lib/text.c.  The scans, comparisons, copies, replacements, cuts and
      joins of strings.  CString: the strings that own a heap block.
      Calculator: lib/calculator.c, with the decimal fractions of lib/text.c;
      formulas over the typed stacks and any floating-point arithmetic.
    - Sha: lib/sha.c.  MD5 and SHA-1 behind the streaming code they share.
    - File: lib/file.c.  Files of the system as a class and the retrying reads
      and writes over them.  Codec: lib/codec.c (LZ77) and Rle: lib/rle.c use it.
    - Cache, Pipe, BlockCache, Fifo, FileCache: lib/cache.c.  The byte ring, the
      pipe between two threads, the queue of blocks, the buffered device, and
      files through caches.
    - Malloc, Arena: lib/malloc.c.  The allocator with its boundary tags and
      free list in the arena it hands out; what it promises.
    - Path: lib/path.c.  Cutting, joining and normalising paths.
    - Ecc: lib/ecc.c.  The parities of a block of 256 bytes.
    - Regex: lib/regex.c.  The compiler of patterns and the backtracking matcher,
      with the languages of the patterns.
    - Thread: lib/thread.c.  The states of a worker thread, as steps of itself
      and of the threads that suspend, resume and stop it.
    - Timer: lib/timer.c.  The arithmetic of times, the queue of timers over
      LinkedList that a Thread serves, the flasher.
    - Huffman: lib/codec.c.  The Huffman tree in the arrays of the code against
      trees of an inductive type.  HuffmanFile: packing and unpacking files over
      the class of File.  HuffmanOptimal: no prefix code is shorter.

    A file of the development is named after what it models; a definition has
    the name of the C function, and pieces of a function (a round of its loop)
    are definitions of their own that the function is made of.

    ** What the theorems show

    - Invariants and safety: [Arena.malloc_and_free_keep_the_arena] (blocks stay
      disjoint and cover the arena, whatever the calls),
      [Pipe.cavan_cache_is_a_fifo] (in every interleaving),
      [Timer.timer_service_refines_a_queue] (whoever inserts and removes timers,
      the thread sleeps for the first one),
      [Memory.mem_move_is_memmove],
      [Crc.cavan_crc_detects_bursts], [Ecc.cavan_ecc_check_locates_the_bit].
    - Refinement of an abstract data type: [Stack.general_stacks_refine_bounded_list],
      [Queue.cavan_mem_queue_refines_fifo], [LinkedList.links_refine_lists],
      [LinkedList.double_links_refine_lists],
      [BlockCache.cavan_block_cache_is_a_queue], [Fifo.cavan_fifo_delivers_the_stream],
      [Sha.cavan_sha_streams], [CString.cavan_string_is_a_text].
    - Equivalence with a reference: [Tree.iterative_traversals_match],
      [Kmp.mem_kmp_finds_as_naive_search], [Crc.cavan_crc_is_the_shift_register],
      [Sha.cavan_sha1_transform_is_fips],
      [Text.text_replace_is_naive_replacement],
      [Regex.cavan_regex_matches_its_language] (pattern compiled and matched).
    - Round trips: the two of Time, [TextNum.value2text_text2value],
      [BigText.big_number_text_round_trip], [Codec.cavan_lz77_round_trip],
      [HuffmanFile.cavan_huffman_round_trip], [Rle.rle_round_trip],
      [Text.text_split_join_round_trip].
    - Functional correctness: sorting, search trees, big-number arithmetic, the
      calculator ([Calculator.simple_calculation_evaluates]), paths
      ([Path.cavan_path_prettify_base_normalises]), the codes of the Huffman tree
      ([HuffmanOptimal.cavan_huffman_codes_are_shortest]).
    - Termination and liveness: [Pipe.cavan_cache_transfer_completes] (every run
      of the writer and the reader ends with all bytes delivered),
      [Thread.resume_is_not_lost], [Numbers.gcd_single_terminates].
    - Where the code does not do what it means to, a closed [Example] runs it on
      an input that shows so; these are the findings of the manifest.

    ** Not modelled

    In the files above: threads that hand list nodes on
    ([cavan_data_queue]), printing, [math_memory_calculator], floating-point
    numbers as text, value2text_base and the arrays of numbers, units of sizes,
    times and frequencies, [cavan_cache_read_line], the calculator with the functions of libm, the
    epoll wrappers of lib/thread.c, the cursor of lib/timer.c.  The rest
    of src/lib/ is input and output around system calls (network.c, http.c, file.c,
    device.c, tcp_dd.c, input.c, window.c, the file systems, the device protocols),
    third-party code (bcrypt.c) or parsers into trees of nodes with owners
    (json.c, xml.c).  src/driver/ is code of the Linux kernel, src/app/ the main
    functions of programs over the library, and the other directories are in other
    languages. *)
From Stdlib Require Export ZArith Lia.
From stdpp Require Export base tactics option list list_numbers numbers sorting fin_maps gmap.
#[global] Open Scope Z_scope.


(** ** Results of a C computation *)

(** What running a piece of C gives: a value, undefined behaviour (an access
    outside its object, a dereference of NULL, a failed contract of the
    environment), or an exhausted loop bound.  Keeping the last two apart lets
    a theorem say which of them happens. *)
Inductive cres (A : Type) : Type :=
| Ok (a : A)
| Undef
| NoFuel.
Arguments Ok {A} a.
Arguments Undef {A}.
Arguments NoFuel {A}.

#[export] Instance cres_ret : MRet cres := λ A a, Ok a.
#[export] Instance cres_bind : MBind cres := λ A B k m,
  match m with Ok a => k a | Undef => Undef | NoFuel => NoFuel end.
#[export] Instance cres_fmap : FMap cres := λ A B f m,
  match m with Ok a => Ok (f a) | Undef => Undef | NoFuel => NoFuel end.

#[export] Instance cres_eq_dec {A} `{EqDecision A} : EqDecision (cres A).
Proof. solve_decision. Defined.

(** Total correctness: the computation returns, and the value satisfies [Q]. *)
Definition wp {A} (m : cres A) (Q : A → Prop) : Prop :=
  match m with Ok a => Q a | _ => False end.

Lemma wp_ok {A} (m : cres A) Q : wp m Q ↔ ∃ a, m = Ok a ∧ Q a.
Proof. destruct m; naive_solver. Qed.

Lemma wp_bind {A B} (m : cres A) (k : A → cres B) Q :
  wp m (λ a, wp (k a) Q) → wp (m ≫= k) Q.
Proof. by destruct m. Qed.

Lemma wp_mono {A} (m : cres A) (P Q : A → Prop) :
  wp m P → (∀ a, P a → Q a) → wp m Q.
Proof. destruct m; naive_solver. Qed.

Lemma wp_eq {A} (m : cres A) a (Q : A → Prop) : m = Ok a → Q a → wp m Q.
Proof. by intros ->. Qed.

Lemma wp_ret {A} (a : A) (Q : A → Prop) : Q a → wp (mret a) Q.
Proof. done. Qed.

(** ** Loops *)

(** [while]-style loops: the body either asks for another iteration ([inl]) or
    leaves the loop with a result ([inr]). *)
Fixpoint loop {St R} (fuel : nat) (body : St → cres (St + R)) (s : St) : cres R :=
  match fuel with
  | O => NoFuel
  | S n =>
    r ← body s;
    match r with inl s' => loop n body s' | inr x => Ok x end
  end.

(** The rule for loops: an invariant, a measure that every iteration
    decreases, and enough fuel give a result that satisfies [Q]. *)
Lemma wp_loop {St R} (I : St → Prop) (Q : R → Prop) (μ : St → nat)
    (body : St → cres (St + R)) :
  (∀ s, I s →
    wp (body s) (λ r, match r with inl s' => I s' ∧ (μ s' < μ s)%nat | inr x => Q x end)) →
  ∀ fuel s, I s → (μ s < fuel)%nat → wp (loop fuel body s) Q.
Proof.
  intros Hb fuel. induction fuel as [|n IH]; intros s HI Hf; [lia|].
  simpl. apply wp_bind. eapply wp_mono; [by apply Hb|].
  intros [s'|x]; [|done]. intros [HI' Hμ]. apply IH; [done|lia].
Qed.

(** The same with a bound on the iterations left that the state does not
    determine. *)
Lemma wp_loop_n {St R} (I : nat → St → Prop) (Q : R → Prop) (body : St → cres (St + R)) :
  (∀ n s, I n s →
    wp (body s) (λ r, match r with inl s' => ∃ m, (m < n)%nat ∧ I m s' | inr x => Q x end)) →
  ∀ fuel n s, I n s → (n < fuel)%nat → wp (loop fuel body s) Q.
Proof.
  intros Hb fuel. induction fuel as [|k IH]; intros n s HI Hf; [lia|].
  simpl. apply wp_bind. eapply wp_mono; [by apply Hb|].
  intros [s'|x]; [|done]. intros (m & Hm & HI'). apply (IH m); [done|lia].
Qed.

(** More fuel never changes a result that was reached. *)
Lemma loop_fuel_mono {St R} (body : St → cres (St + R)) n k s x :
  loop n body s = Ok x → loop (n + k) body s = Ok x.
Proof.
  revert s. induction n as [|n IH]; intros s; [done|]. simpl.
  destruct (body s) as [[s'|y]| |]; simpl; auto.
Qed.

Lemma loop_S {St R} n (body : St → cres (St + R)) s :
  loop (S n) body s = body s ≫= λ r, match r with inl s' => loop n body s' | inr x => Ok x end.
Proof. done. Qed.
#[global] Arguments loop : simpl never.

(** ** Programs over a store *)

(** Code that works on a shared store of type [S]: state passing over [cres]. *)
Definition prog (S A : Type) : Type := S → cres (A * S).

#[export] Instance prog_ret {S} : MRet (prog S) := λ A a s, Ok (a, s).
#[export] Instance prog_bind {S} : MBind (prog S) := λ A B k m s,
  match m s with Ok (a, s') => k a s' | Undef => Undef | NoFuel => NoFuel end.

Definition reads {S A} (f : S → A) : prog S A := λ s, Ok (f s, s).
Definition undefined {S A} : prog S A := λ _, Undef.

(** Total correctness from a store. *)
Definition wpp {S A} (m : prog S A) (s : S) (Q : A → S → Prop) : Prop :=
  wp (m s) (λ r, Q r.1 r.2).

Lemma wpp_bind {S A B} (m : prog S A) (k : A → prog S B) s Q :
  wpp m s (λ a s', wpp (k a) s' Q) → wpp (m ≫= k) s Q.
Proof. unfold wpp, mbind, prog_bind. by destruct (m s) as [[a s']| |]. Qed.

Lemma wpp_mono {S A} (m : prog S A) s (P Q : A → S → Prop) :
  wpp m s P → (∀ a s', P a s' → Q a s') → wpp m s Q.
Proof. intros H HPQ. eapply wp_mono; [exact H|]. auto. Qed.

Lemma wpp_ret {S A} (a : A) (s : S) (Q : A → S → Prop) : Q a s → wpp (mret a) s Q.
Proof. done. Qed.

Lemma wpp_reads {S A} (f : S → A) s (Q : A → S → Prop) : Q (f s) s → wpp (reads f) s Q.
Proof. done. Qed.

Lemma wpp_eq {S A} (m : prog S A) s a s' (Q : A → S → Prop) :
  m s = Ok (a, s') → Q a s' → wpp m s Q.
Proof. unfold wpp. by intros ->. Qed.

Lemma wpp_ok {S A} (m : prog S A) s Q : wpp m s Q ↔ ∃ a s', m s = Ok (a, s') ∧ Q a s'.
Proof. unfold wpp. rewrite wp_ok. split; [intros ([a s'] & ? & ?)|intros (a & s' & ? & ?)]; eauto. Qed.

(** From the rule for a call to its result. *)
Lemma wpp_result {S A} (m : prog S A) (s : S) (a : A) (Q : S → Prop) :
  wpp m s (λ x s', x = a ∧ Q s') → ∃ s', m s = Ok (a, s') ∧ Q s'.
Proof. intros (x & s' & E & -> & H)%wpp_ok. by exists s'. Qed.

(** A computation that does not use the store. *)
Definition lift {S A} (m : cres A) : prog S A := λ s, a ← m; Ok (a, s).
Lemma wpp_lift {S A} (m : cres A) (s : S) (Q : A → S → Prop) a : m = Ok a → Q a s → wpp (lift m) s Q.
Proof. intros -> HQ. done. Qed.

(** [while] over the store: the body asks for another round or leaves. *)
Definition ploop {S X R} (fuel : nat) (body : X → prog S (X + R)) (x : X) : prog S R := λ s,
  loop fuel (λ '(x, s),
    r ← body x s;
    mret (match r with (inl x', s') => inl (x', s') | (inr y, s') => inr (y, s') end)) (x, s).

Definition while {S X} (fuel : nat) (c : X → bool) (body : X → prog S X) (x : X) : prog S X :=
  ploop fuel (λ x, if c x then x' ← body x; mret (inl x') else mret (inr x)) x.

Lemma wpp_ploop {S X R} (I : nat → X → S → Prop) (Q : R → S → Prop) (body : X → prog S (X + R)) :
  (∀ n x s, I n x s → wpp (body x) s (λ r s',
    match r with inl x' => ∃ m, (m < n)%nat ∧ I m x' s' | inr y => Q y s' end)) →
  ∀ fuel n x s, I n x s → (n < fuel)%nat → wpp (ploop fuel body x) s Q.
Proof.
  intros Hb fuel n x s HI Hn. unfold wpp, ploop.
  apply (wp_loop_n (λ n y, I n y.1 y.2) (λ r, Q r.1 r.2)) with (n := n); [|done|done].
  clear n x s HI Hn. intros n [x s] HI. apply wp_bind. specialize (Hb n x s HI). unfold wpp in Hb.
  eapply wp_mono; [exact Hb|]. intros [[x'|y] s'] H; exact H.
Qed.

(** A loop that runs [N] rounds and then stops. *)
Lemma wpp_count {S X} (I : Z → X → S → Prop) (N : Z) c (body : X → prog S X) (Q : X → S → Prop) :
  (∀ k x s, 0 ≤ k < N → I k x s → c x = true ∧ wpp (body x) s (I (k + 1))) →
  (∀ x s, I N x s → c x = false ∧ Q x s) →
  ∀ fuel x s, I 0 x s → 0 ≤ N → N < Z.of_nat fuel → wpp (while fuel c body x) s Q.
Proof.
  intros Hb Hq fuel x s H0 HN Hf.
  apply (wpp_ploop (λ n x s, Z.of_nat n ≤ N ∧ I (N - Z.of_nat n) x s)) with (n := Z.to_nat N); [| |lia].
  - clear x s H0. intros n x s [Hn HI]. destruct (decide (n = 0%nat)) as [->|Hn0].
    + rewrite Z.sub_0_r in HI. destruct (Hq x s HI) as [-> HQ]. by apply wpp_ret.
    + destruct (Hb (N - Z.of_nat n) x s) as [-> Hw]; [lia|done|]. apply wpp_bind.
      eapply wpp_mono; [exact Hw|]. intros x' s' HI'. apply wpp_ret. exists (n - 1)%nat.
      split; [lia|]. split; [lia|]. replace (N - Z.of_nat (n - 1)) with (N - Z.of_nat n + 1) by lia. done.
  - split; [lia|]. replace (N - Z.of_nat (Z.to_nat N)) with 0 by lia. done.
Qed.

(** A loop of at most [N] rounds. *)
Lemma wpp_while {S X} (I : Z → X → S → Prop) (N : Z) (c : X → bool) (body : X → prog S X) (Q : X → S → Prop) :
  (∀ k x s, 0 ≤ k → I k x s →
     if c x then k < N ∧ wpp (body x) s (I (k + 1)) else Q x s) →
  ∀ fuel x s, I 0 x s → N < Z.of_nat fuel → 0 ≤ N → wpp (while fuel c body x) s Q.
Proof.
  intros Hb fuel x s H0 Hf HN.
  apply (wpp_ploop (λ n x s, Z.of_nat n ≤ N ∧ I (N - Z.of_nat n) x s)) with (n := Z.to_nat N); [| |lia].
  - clear x s H0. intros n x s [Hn HI]. specialize (Hb (N - Z.of_nat n) x s ltac:(lia) HI).
    destruct (c x); [destruct Hb as [Hk Hw]|by apply wpp_ret]. apply wpp_bind.
    eapply wpp_mono; [exact Hw|]. intros x' s' HI'. apply wpp_ret. exists (n - 1)%nat.
    split; [lia|]. split; [lia|]. replace (N - Z.of_nat (n - 1)) with (N - Z.of_nat n + 1) by lia. done.
  - split; [lia|]. replace (N - Z.of_nat (Z.to_nat N)) with 0 by lia. done.
Qed.

(** ** Arrays *)

(** A C array object of element type [A] is a list; a pointer into it is an
    index of type [Z].  [load] and [store] are the accesses of the program and
    are undefined outside the object; [get] and [upd] are the total functions
    the specifications use. *)
Definition zlen {A} (m : list A) : Z := Z.of_nat (length m).
Definition get {A} `{Inhabited A} (m : list A) (i : Z) : A := m !!! Z.to_nat i.
Definition upd {A} (m : list A) (i : Z) (v : A) : list A := <[Z.to_nat i := v]> m.
Definition inb {A} (m : list A) (i : Z) : bool := (0 <=? i) && (i <? zlen m).
Definition load {A} `{Inhabited A} (m : list A) (i : Z) : cres A :=
  if inb m i then Ok (get m i) else Undef.
Definition store {A} (m : list A) (i : Z) (v : A) : cres (list A) :=
  if inb m i then Ok (upd m i v) else Undef.
(** [slice m i n]: the [n] elements from index [i] on. *)
Definition slice {A} (m : list A) (i n : Z) : list A :=
  take (Z.to_nat n) (drop (Z.to_nat i) m).

#[global] Arguments zlen : simpl never.
#[global] Arguments get : simpl never.
#[global] Arguments upd : simpl never.
#[global] Arguments slice : simpl never.

Section arrays.
Context {A : Type} `{Inhabited A}.
Implicit Types (m : list A) (i j n : Z) (v : A).

Lemma inb_spec m i : inb m i = true ↔ 0 ≤ i < zlen m.
Proof. unfold inb. rewrite andb_true_iff, Z.leb_le, Z.ltb_lt. done. Qed.

Lemma load_in m i : 0 ≤ i < zlen m → load m i = Ok (get m i).
Proof. intros Hi. unfold load. by rewrite (proj2 (inb_spec m i) Hi). Qed.
Lemma load_out m i : ¬ (0 ≤ i < zlen m) → load m i = Undef.
Proof. intros Hi. unfold load. destruct (inb m i) eqn:E; [|done]. by apply inb_spec in E. Qed.
Lemma store_in m i v : 0 ≤ i < zlen m → store m i v = Ok (upd m i v).
Proof. intros Hi. unfold store. by rewrite (proj2 (inb_spec m i) Hi). Qed.

Lemma wp_load m i (Q : A → Prop) : 0 ≤ i < zlen m → Q (get m i) → wp (load m i) Q.
Proof. intros Hi HQ. by rewrite load_in. Qed.
Lemma wp_store m i v (Q : list A → Prop) :
  0 ≤ i < zlen m → Q (upd m i v) → wp (store m i v) Q.
Proof. intros Hi HQ. by rewrite store_in. Qed.

Lemma zlen_upd m i v : zlen (upd m i v) = zlen m.
Proof. unfold zlen, upd. by rewrite length_insert. Qed.
Lemma zlen_nonneg m : 0 ≤ zlen m.
Proof. unfold zlen. lia. Qed.
Lemma get_upd_eq m i v : 0 ≤ i < zlen m → get (upd m i v) i = v.
Proof.
  intros Hi. unfold get, upd, zlen in *. apply list_lookup_total_insert_eq. lia.
Qed.
Lemma get_upd_ne m i j v : 0 ≤ i → 0 ≤ j → i ≠ j → get (upd m i v) j = get m j.
Proof. intros Hi Hj Hne. unfold get, upd. apply list_lookup_total_insert_ne. lia. Qed.
Lemma get_upd m i j v :
  0 ≤ i < zlen m → 0 ≤ j → get (upd m i v) j = if decide (i = j) then v else get m j.
Proof.
  intros Hi Hj. case_decide as E; [subst; by apply get_upd_eq|].
  apply get_upd_ne; lia.
Qed.
Lemma upd_upd_eq m i v v' : upd (upd m i v) i v' = upd m i v'.
Proof. apply list_insert_insert_eq. Qed.
Lemma upd_get m i : 0 ≤ i < zlen m → upd m i (get m i) = m.
Proof.
  intros Hi. unfold upd, get, zlen in *. apply list_insert_id.
  apply list_lookup_lookup_total_lt. lia.
Qed.
Lemma array_ext m1 m2 :
  zlen m1 = zlen m2 → (∀ i, 0 ≤ i < zlen m1 → get m1 i = get m2 i) → m1 = m2.
Proof.
  unfold zlen, get. intros Hl Hg. apply list_eq. intros k.
  destruct (decide (k < length m1)%nat) as [Hk|Hk].
  - rewrite !list_lookup_lookup_total_lt by lia. f_equal.
    specialize (Hg (Z.of_nat k)). rewrite Nat2Z.id in Hg. apply Hg. lia.
  - rewrite !lookup_ge_None_2 by lia. done.
Qed.

Lemma zlen_nil : zlen ([] : list A) = 0.
Proof. done. Qed.
Lemma zlen_cons v m : zlen (v :: m) = zlen m + 1.
Proof. unfold zlen. simpl. lia. Qed.
Lemma zlen_app m1 m2 : zlen (m1 ++ m2) = zlen m1 + zlen m2.
Proof. unfold zlen. rewrite length_app. lia. Qed.
Lemma get_cons_0 v m : get (v :: m) 0 = v.
Proof. done. Qed.
Lemma get_cons_pos v m i : 0 < i → get (v :: m) i = get m (i - 1).
Proof.
  intros Hi. unfold get. replace (Z.to_nat i) with (S (Z.to_nat (i - 1))) by lia. done.
Qed.
Lemma get_app_l m1 m2 i : 0 ≤ i < zlen m1 → get (m1 ++ m2) i = get m1 i.
Proof. unfold get, zlen. intros Hi. apply lookup_total_app_l. lia. Qed.
Lemma get_app_r m1 m2 i : zlen m1 ≤ i → get (m1 ++ m2) i = get m2 (i - zlen m1).
Proof.
  unfold get, zlen. intros Hi. rewrite lookup_total_app_r by lia. f_equal. lia.
Qed.
End arrays.
Create Rewrite HintDb arr.
#[export] Hint Rewrite @zlen_upd @upd_upd_eq @zlen_nil @zlen_cons @zlen_app @get_cons_0 : arr.

Declare Scope cavan_scope.
Delimit Scope cavan_scope with C.
Notation "m ⟦ i ⟧" := (get m i) (at level 1, i at level 200, format "m ⟦ i ⟧") : cavan_scope.
Notation "m ⟦ i := v ⟧" := (upd m i v)
  (at level 1, i at level 200, v at level 200, format "m ⟦ i  :=  v ⟧") : cavan_scope.
#[global] Open Scope cavan_scope.

(** [memcpy (dst + i, src + j, n)] between two objects. *)
Definition blit {A} (dst : list A) (i : Z) (src : list A) (j n : Z) : list A :=
  take (Z.to_nat i) dst ++ slice src j n ++ drop (Z.to_nat (i + n)) dst.
Definition memcpy {A} (dst : list A) (i : Z) (src : list A) (j n : Z) : cres (list A) :=
  if (0 <=? i) && (0 <=? j) && (0 <=? n) && (i + n <=? zlen dst) && (j + n <=? zlen src)
  then Ok (blit dst i src j n) else Undef.

(** A pointer into a buffer handed to a function that reads [n] bytes there. *)
Definition window {A} (data : list A) (i n : Z) : cres (list A) :=
  if (0 <=? i) && (i + n <=? zlen data) then Ok (slice data i n) else Undef.
Lemma window_in {A} (data : list A) i n : 0 ≤ i → i + n ≤ zlen data → window data i n = Ok (slice data i n).
Proof. intros. unfold window. by rewrite !(proj2 (Z.leb_le _ _)) by lia. Qed.

Section memcpy.
Context {A : Type} `{Inhabited A}.
Implicit Types (src dst : list A).

Lemma zlen_slice src j n : 0 ≤ j → 0 ≤ n → j + n ≤ zlen src → zlen (slice src j n) = n.
Proof. unfold zlen, slice. intros ???. rewrite length_take, length_drop. lia. Qed.
Lemma get_slice src j n k : 0 ≤ j → 0 ≤ k < n → j + n ≤ zlen src → get (slice src j n) k = get src (j + k).
Proof.
  unfold get, slice, zlen. intros ???. rewrite !list_lookup_total_alt.
  rewrite lookup_take_lt, lookup_drop by lia. do 2 f_equal. lia.
Qed.
Lemma zlen_blit dst i src j n :
  0 ≤ i → 0 ≤ j → 0 ≤ n → i + n ≤ zlen dst → j + n ≤ zlen src → zlen (blit dst i src j n) = zlen dst.
Proof.
  intros. unfold blit. rewrite !zlen_app, zlen_slice by lia.
  unfold zlen in *. rewrite length_take, length_drop. lia.
Qed.
Lemma get_blit dst i src j n k :
  0 ≤ i → 0 ≤ j → 0 ≤ n → i + n ≤ zlen dst → j + n ≤ zlen src → 0 ≤ k < zlen dst →
  get (blit dst i src j n) k =
  if decide (i ≤ k < i + n) then get src (j + (k - i)) else get dst k.
Proof.
  intros Hi Hj Hn Hd Hs Hk. unfold blit.
  assert (zlen (take (Z.to_nat i) dst) = i) as Ht by (unfold zlen in *; rewrite length_take; lia).
  case_decide as Hc; [|destruct (decide (k < i))].
  - rewrite get_app_r, get_app_l by (rewrite ?zlen_slice; lia).
    rewrite get_slice by lia. f_equal. lia.
  - rewrite get_app_l by lia. unfold get. rewrite !list_lookup_total_alt.
    by rewrite lookup_take_lt by lia.
  - rewrite !get_app_r by (rewrite ?zlen_slice; lia). rewrite zlen_slice by lia. rewrite Ht.
    unfold get. rewrite !list_lookup_total_alt, lookup_drop. do 2 f_equal. lia.
Qed.
Lemma wp_memcpy dst i src j n (Q : list A → Prop) :
  0 ≤ i → 0 ≤ j → 0 ≤ n → i + n ≤ zlen dst → j + n ≤ zlen src →
  Q (blit dst i src j n) → wp (memcpy dst i src j n) Q.
Proof.
  intros ????? HQ. unfold memcpy.
  repeat match goal with |- context [?a <=? ?b] => rewrite (proj2 (Z.leb_le a b)) by lia end. done.
Qed.
End memcpy.

Lemma slice_app {A} (m : list A) i n k : 0 ≤ i → 0 ≤ n → 0 ≤ k → slice m i (n + k) = slice m i n ++ slice m (i + n) k.
Proof.
  intros Hi Hn Hk. unfold slice. rewrite !Z2Nat.inj_add by lia. rewrite <-drop_drop.
  rewrite <-(take_drop (Z.to_nat n) (take (Z.to_nat n + Z.to_nat k) (drop (Z.to_nat i) m))).
  rewrite take_take, Nat.min_l by lia. f_equal. rewrite <-firstn_skipn_comm. done.
Qed.
Lemma slice_0 {A} (m : list A) i : slice m i 0 = [].
Proof. done. Qed.
Lemma slice_all {A} (m : list A) n : zlen m = n → slice m 0 n = m.
Proof. unfold zlen, slice. intros <-. rewrite Nat2Z.id, drop_0. by apply take_ge. Qed.
Lemma length_slice {A} (m : list A) i n : 0 ≤ i → 0 ≤ n → i + n ≤ zlen m → length (slice m i n) = Z.to_nat n.
Proof. intros. pose proof (zlen_slice m i n). unfold zlen in *. lia. Qed.

Lemma memcpy_in {A} (dst : list A) i src j n :
  0 ≤ i → 0 ≤ j → 0 ≤ n → i + n ≤ zlen dst → j + n ≤ zlen src → memcpy dst i src j n = Ok (blit dst i src j n).
Proof.
  intros. unfold memcpy. rewrite !(proj2 (Z.leb_le _ _)) by lia. done.
Qed.

(** [for (p = m + i; p < m + n; p++) s = f(s, *p);] *)
Definition each {A St} `{Inhabited A} (f : St → A → St) (m : list A) (i n : Z) (s : St) : cres St :=
  loop (S (Z.to_nat (n - i))) (λ '(k, s),
    if k <? n then x ← load m k; mret (inl (k + 1, f s x)) else mret (inr s)) (i, s).

Lemma slice_nil {A} (m : list A) i : slice m i 0 = [].
Proof. done. Qed.
Lemma slice_cons {A} `{Inhabited A} (m : list A) i n :
  0 ≤ i → 0 < n → i + n ≤ zlen m → slice m i n = get m i :: slice m (i + 1) (n - 1).
Proof.
  intros Hi Hn Hm. unfold slice, get, zlen in *.
  replace (Z.to_nat n) with (S (Z.to_nat (n - 1))) by lia.
  rewrite (drop_S m (m !!! Z.to_nat i) (Z.to_nat i)) by (apply list_lookup_lookup_total_lt; lia).
  simpl. do 3 f_equal. lia.
Qed.

Lemma each_ok {A St} `{Inhabited A} (f : St → A → St) (m : list A) (n : nat) : ∀ i s,
  0 ≤ i → i + Z.of_nat n ≤ zlen m → each f m i (i + Z.of_nat n) s = Ok (foldl f s (slice m i (Z.of_nat n))).
Proof.
  unfold each. induction n as [|n IH]; intros i s Hi Hm.
  - rewrite Z.add_0_r, Z.sub_diag. rewrite loop_S. destruct (Z.ltb_spec i i); [lia|]. done.
  - rewrite loop_S. destruct (Z.ltb_spec i (i + Z.of_nat (S n))); [|lia]. rewrite load_in by lia. cbn [mbind cres_bind mret cres_ret].
    specialize (IH (i + 1) (f s (get m i)) ltac:(lia) ltac:(lia)).
    replace (i + 1 + Z.of_nat n) with (i + Z.of_nat (S n)) in IH by lia.
    replace (Z.to_nat (i + Z.of_nat (S n) - i)) with (S (Z.to_nat (i + Z.of_nat (S n) - (i + 1)))) by lia.
    rewrite IH. rewrite (slice_cons m i (Z.of_nat (S n))) by lia. simpl. do 3 f_equal. lia.
Qed.

(** A list of different keys is no longer than the map. *)
Lemma nodup_le_size {V} (m : gmap Z V) (l : list Z) : NoDup l → (∀ x, x ∈ l → is_Some (m !! x)) → (length l ≤ size m)%nat.
Proof.
  intros Hn HL. rewrite <-size_dom, <-(size_list_to_set (C := gset Z)) by done.
  apply subseteq_size. intros x Hx%elem_of_list_to_set. by apply elem_of_dom, HL.
Qed.

(** ** Machine integers *)

(** [wrap w z]: conversion to an unsigned type of [w] bits; [swrap w z]:
    conversion to a signed one (two's complement). *)
Definition wrap (w z : Z) : Z := z mod 2 ^ w.
Definition swrap (w z : Z) : Z :=
  let y := wrap w z in if y <? 2 ^ (w - 1) then y else y - 2 ^ w.
Abbreviation u8 := (wrap 8).
Abbreviation u16 := (wrap 16).
Abbreviation u32 := (wrap 32).
Abbreviation u64 := (wrap 64).
Abbreviation s32 := (swrap 32).
Abbreviation s64 := (swrap 64).

Lemma wrap_range w z : 0 ≤ w → 0 ≤ wrap w z < 2 ^ w.
Proof. intros Hw. unfold wrap. apply Z.mod_pos_bound. lia. Qed.
Lemma wrap_small w z : 0 ≤ z < 2 ^ w → wrap w z = z.
Proof. apply Z.mod_small. Qed.
Lemma wrap_idem w z : 0 ≤ w → wrap w (wrap w z) = wrap w z.
Proof. intros Hw. unfold wrap. apply Z.mod_mod. lia. Qed.
Lemma swrap_small w z : 0 < w → - 2 ^ (w - 1) ≤ z < 2 ^ (w - 1) → swrap w z = z.
Proof.
  intros Hw Hz. unfold swrap, wrap.
  assert (2 ^ w = 2 * 2 ^ (w - 1)) as E.
  { rewrite <-Z.pow_succ_r by lia. f_equal. lia. }
  rewrite E. destruct (Z.le_gt_cases 0 z) as [H0|H0].
  - rewrite Z.mod_small by lia. destruct (Z.ltb_spec z (2 ^ (w - 1))); lia.
  - replace (z mod (2 * 2 ^ (w - 1))) with (z + 2 * 2 ^ (w - 1)).
    + destruct (Z.ltb_spec (z + 2 * 2 ^ (w - 1)) (2 ^ (w - 1))); lia.
    + apply (Z.mod_unique_pos _ _ (-1)); lia.
Qed.

(** *** Bits *)

Lemma swrap_wrap w z : 0 < w → - 2 ^ (w - 1) ≤ z < 2 ^ (w - 1) → swrap w (wrap w z) = z.
Proof.
  intros Hw Hz. rewrite <-(swrap_small w z) at 2 by done. unfold swrap. by rewrite wrap_idem by lia.
Qed.
Lemma wrap_land w z : 0 ≤ w → wrap w z = Z.land z (Z.ones w).
Proof. intros Hw. unfold wrap. by rewrite Z.land_ones. Qed.
Lemma testbit_wrap w z i : 0 ≤ w → 0 ≤ i → Z.testbit (wrap w z) i = (i <? w) && Z.testbit z i.
Proof.
  intros Hw Hi. unfold wrap. destruct (Z.ltb_spec i w).
  - by rewrite Z.mod_pow2_bits_low by lia.
  - by rewrite Z.mod_pow2_bits_high by lia.
Qed.
Lemma lxor_range w x y : 0 ≤ w → 0 ≤ x < 2 ^ w → 0 ≤ y < 2 ^ w → 0 ≤ Z.lxor x y < 2 ^ w.
Proof.
  intros Hw Hx Hy. assert (0 ≤ Z.lxor x y) by (apply Z.lxor_nonneg; lia). split; [done|].
  apply Z.bounded_iff_bits_nonneg; [done|done|]. intros l Hl. rewrite Z.lxor_spec.
  rewrite (proj1 (Z.bounded_iff_bits_nonneg w x Hw ltac:(lia)) ltac:(lia)) by done.
  by rewrite (proj1 (Z.bounded_iff_bits_nonneg w y Hw ltac:(lia)) ltac:(lia)) by done.
Qed.

(** A property of the first [n] numbers, by computation. *)
Definition check_below (n : nat) (p : Z → bool) : bool := forallb p (Z.of_nat <$> seq 0 n).
Lemma check_below_ok n p i : check_below n p = true → 0 ≤ i < Z.of_nat n → p i = true.
Proof.
  unfold check_below. rewrite forallb_forall. intros Hp Hi. apply Hp.
  apply list_elem_of_In. apply list_elem_of_fmap. exists (Z.to_nat i).
  split; [lia|]. apply elem_of_seq. lia.
Qed.

(** Putting bits above the low [k] ones adds. *)
Lemma lor_shiftl_add a x k : 0 ≤ k → 0 ≤ a < 2 ^ k → Z.lor a (Z.shiftl x k) = a + 2 ^ k * x.
Proof.
  intros Hk Ha. rewrite <-Z.lxor_lor, <-Z.add_nocarry_lxor; [rewrite Z.shiftl_mul_pow2 by lia; lia|..].
  all: apply Z.bits_inj'; intros i Hi; rewrite Z.land_spec, Z.bits_0, Z.shiftl_spec by done;
    destruct (Z.lt_ge_cases i k); [by rewrite (Z.testbit_neg_r x (i - k)), andb_false_r by lia|];
    rewrite <-(Z.mod_small a (2 ^ k)), Z.mod_pow2_bits_high by lia; done.
Qed.

(** The bytes of a number, the low one first. *)
Fixpoint le_bytes (n : nat) (v : Z) : list Z :=
  match n with O => [] | S n => u8 v :: le_bytes n (Z.shiftr v 8) end.
Fixpoint le_word (l : list Z) : Z :=
  match l with [] => 0 | b :: l => b + 256 * le_word l end.
Lemma length_le_bytes n v : length (le_bytes n v) = n.
Proof. revert v. induction n as [|n IH]; intros v; [done|]. simpl. by rewrite IH. Qed.
Lemma le_word_bytes n : ∀ v, 0 ≤ v < 2 ^ (8 * Z.of_nat n) → le_word (le_bytes n v) = v.
Proof.
  induction n as [|n IH]; intros v Hv; [simpl in *; lia|]. cbn [le_bytes le_word]. rewrite IH.
  - unfold wrap. rewrite Z.shiftr_div_pow2 by lia. change (2 ^ 8) with 256. pose proof (Z.div_mod v 256). lia.
  - rewrite Z.shiftr_div_pow2 by lia. split; [apply Z.div_pos; lia|]. apply Z.div_lt_upper_bound; [lia|]. rewrite <-Z.pow_add_r by lia. replace (8 + 8 * Z.of_nat n) with (8 * Z.of_nat (S n)) by lia. lia.
Qed.

(** Error codes of errno.h that the program returns negated. *)
Definition ENOMEM : Z := 12.
Definition EINVAL : Z := 22.
Definition EFAULT : Z := 14.
Definition ENODATA : Z := 61.

(** ** Tactics *)

(** Case analysis on a comparison of the program. *)
Ltac zcase_on c :=
  match c with
  | context [?a <? ?b] => destruct (Z.ltb_spec a b)
  | context [?a <=? ?b] => destruct (Z.leb_spec a b)
  | context [?a =? ?b] => destruct (Z.eqb_spec a b)
  end.
Ltac zcase :=
  match goal with
  | |- context [if ?c then _ else _] => zcase_on c
  end; cbn [negb andb orb].
Tactic Notation "zcase" "as" simple_intropattern(H) :=
  let E := fresh "E" in
  match goal with
  | |- context [if ?c then _ else _] =>
    match c with
    | context [?a <? ?b] => destruct (Z.ltb_spec a b) as [E|E]
    | context [?a <=? ?b] => destruct (Z.leb_spec a b) as [E|E]
    | context [?a =? ?b] => destruct (Z.eqb_spec a b) as [E|E]
    end
  end; revert E; intros H; cbn [negb andb orb].

(** Linear arithmetic with division and remainder by constants. *)
Ltac dlia := Z.to_euclidean_division_equations; lia.

(** The same for programs over a store. *)
Ltac wpp_step :=
  match goal with
  | |- wpp (_ ≫= _) _ _ => apply wpp_bind
  | |- wpp (mret _) _ _ => apply wpp_ret
  | |- wpp (reads _) _ _ => apply wpp_reads
  end.
Ltac wpp_go := cbv beta zeta; repeat (wpp_step; cbv beta zeta).

(** Index side conditions. *)
Ltac idx := autorewrite with arr; lia.

(** One step of symbolic execution of a computation under [wp]. *)
Ltac wp_step :=
  match goal with
  | |- wp (_ ≫= _) _ => apply wp_bind
  | |- wp (mret _) _ => apply wp_ret
  | |- wp (Ok _) _ => apply wp_ret
  | |- wp (load _ _) _ => apply wp_load; [by idx|]
  | |- wp (store _ _ _) _ => apply wp_store; [by idx|]
  end.
Ltac wp_go := cbv beta zeta; repeat (wp_step; cbv beta zeta).
