(* ===== verification/Ctype.v ===== *)
(** Ctype: the character classes of src/lib/ctype.c and
    src/include/cavan/ctype.h.

    A [char] is kept as the byte that holds it; [schar] is the value it has
    when the code computes with it.  The classes come from a table of 256 words
    of flags; the theorems give them as sets of characters. *)
From S2P Require Import Prelude.

(** ** The table *)

Definition CT_NONE : Z := 0.
Definition CT_U : Z := 2 ^ 0.
Definition CT_L : Z := 2 ^ 1.
Definition CT_D : Z := 2 ^ 2.
Definition CT_C : Z := 2 ^ 3.
Definition CT_P : Z := 2 ^ 4.
Definition CT_S : Z := 2 ^ 5.
Definition CT_X : Z := 2 ^ 6.
Definition CT_SP : Z := 2 ^ 7.
Definition CT_O : Z := 2 ^ 8.
Definition CT_LF : Z := 2 ^ 9.
Definition CT_NM : Z := 2 ^ 10.
Definition CT_B : Z := 2 ^ 11.
Definition CT_BL : Z := 2 ^ 12.
Definition CT_BR : Z := 2 ^ 13.
Definition CT_ZERO : Z := 2 ^ 14.
Definition CT_DOT : Z := 2 ^ 15.
Definition CT_Q : Z := 2 ^ 16.

(** The constants of an entry have no bit in common, so [+] is the [|] of the
    source. *)
Definition cavan_ctype : list Z := [
  CT_C + CT_ZERO; CT_C; CT_C; CT_C; CT_C; CT_C; CT_C; CT_C; CT_C; CT_C + CT_S; CT_C + CT_LF; CT_C + CT_S;
  CT_C + CT_S; CT_C + CT_LF; CT_C; CT_C; CT_C; CT_C; CT_C; CT_C; CT_C; CT_C; CT_C; CT_C; CT_C; CT_C; CT_C;
  CT_C; CT_C; CT_C; CT_C; CT_C; CT_S + CT_SP; CT_P; CT_P + CT_Q; CT_P; CT_P; CT_P; CT_P; CT_P + CT_Q;
  CT_P + CT_B + CT_BL; CT_P + CT_B + CT_BR; CT_P; CT_P; CT_P; CT_P + CT_NM; CT_P + CT_DOT; CT_P;
  CT_D + CT_NM + CT_X + CT_O; CT_D + CT_NM + CT_X + CT_O; CT_D + CT_NM + CT_X + CT_O;
  CT_D + CT_NM + CT_X + CT_O; CT_D + CT_NM + CT_X + CT_O; CT_D + CT_NM + CT_X + CT_O;
  CT_D + CT_NM + CT_X + CT_O; CT_D + CT_NM + CT_X + CT_O; CT_D + CT_NM + CT_X; CT_D + CT_NM + CT_X; CT_P;
  CT_P; CT_P; CT_P; CT_P; CT_P; CT_P; CT_U + CT_NM + CT_X; CT_U + CT_NM + CT_X; CT_U + CT_NM + CT_X;
  CT_U + CT_NM + CT_X; CT_U + CT_NM + CT_X; CT_U + CT_NM + CT_X; CT_U + CT_NM; CT_U + CT_NM; CT_U + CT_NM;
  CT_U + CT_NM; CT_U + CT_NM; CT_U + CT_NM; CT_U + CT_NM; CT_U + CT_NM; CT_U + CT_NM; CT_U + CT_NM;
  CT_U + CT_NM; CT_U + CT_NM; CT_U + CT_NM; CT_U + CT_NM; CT_U + CT_NM; CT_U + CT_NM; CT_U + CT_NM;
  CT_U + CT_NM; CT_U + CT_NM; CT_U + CT_NM; CT_P + CT_B + CT_BL; CT_P; CT_P + CT_B + CT_BR; CT_P;
  CT_P + CT_NM; CT_P; CT_L + CT_NM + CT_X; CT_L + CT_NM + CT_X; CT_L + CT_NM + CT_X; CT_L + CT_NM + CT_X;
  CT_L + CT_NM + CT_X; CT_L + CT_NM + CT_X; CT_L + CT_NM; CT_L + CT_NM; CT_L + CT_NM; CT_L + CT_NM;
  CT_L + CT_NM; CT_L + CT_NM; CT_L + CT_NM; CT_L + CT_NM; CT_L + CT_NM; CT_L + CT_NM; CT_L + CT_NM;
  CT_L + CT_NM; CT_L + CT_NM; CT_L + CT_NM; CT_L + CT_NM; CT_L + CT_NM; CT_L + CT_NM; CT_L + CT_NM;
  CT_L + CT_NM; CT_L + CT_NM; CT_P + CT_B + CT_BL; CT_P; CT_P + CT_B + CT_BR; CT_P; CT_C; CT_NONE; CT_NONE;
  CT_NONE; CT_NONE; CT_NONE; CT_NONE; CT_NONE; CT_NONE; CT_NONE; CT_NONE; CT_NONE; CT_NONE; CT_NONE; CT_NONE;
  CT_NONE; CT_NONE; CT_NONE; CT_NONE; CT_NONE; CT_NONE; CT_NONE; CT_NONE; CT_NONE; CT_NONE; CT_NONE; CT_NONE;
  CT_NONE; CT_NONE; CT_NONE; CT_NONE; CT_NONE; CT_NONE; CT_S + CT_SP; CT_P; CT_P; CT_P; CT_P; CT_P; CT_P;
  CT_P; CT_P; CT_P; CT_P; CT_P; CT_P; CT_P; CT_P; CT_P; CT_P; CT_P; CT_P; CT_P; CT_P; CT_P; CT_P; CT_P; CT_P;
  CT_P; CT_P; CT_P; CT_P; CT_P; CT_P; CT_P; CT_U; CT_U; CT_U; CT_U; CT_U; CT_U; CT_U; CT_U; CT_U; CT_U; CT_U;
  CT_U; CT_U; CT_U; CT_U; CT_U; CT_U; CT_U; CT_U; CT_U; CT_U; CT_U; CT_U; CT_P; CT_U; CT_U; CT_U; CT_U; CT_U;
  CT_U; CT_U; CT_L; CT_L; CT_L; CT_L; CT_L; CT_L; CT_L; CT_L; CT_L; CT_L; CT_L; CT_L; CT_L; CT_L; CT_L; CT_L;
  CT_L; CT_L; CT_L; CT_L; CT_L; CT_L; CT_L; CT_L; CT_P; CT_L; CT_L; CT_L; CT_L; CT_L; CT_L; CT_L; CT_L].

(** The argument is converted to [u8]. *)
Definition cavan_ctype_get (c : Z) : Z := get cavan_ctype (u8 c).
Definition has_type (c mask : Z) : bool := negb (Z.land (cavan_ctype_get c) mask =? 0).

Definition cavan_isalnum (c : Z) : bool := has_type c (CT_U + CT_L + CT_D).
Definition cavan_isalpha (c : Z) : bool := has_type c (CT_U + CT_L).
Definition cavan_iscntrl (c : Z) : bool := has_type c CT_C.
Definition cavan_isdigit (c : Z) : bool := has_type c CT_D.
Definition cavan_isfloat (c : Z) : bool := has_type c (CT_D + CT_DOT).
Definition cavan_isgraph (c : Z) : bool := has_type c (CT_P + CT_U + CT_L + CT_D).
Definition cavan_islower (c : Z) : bool := has_type c CT_L.
Definition cavan_isprint (c : Z) : bool := has_type c (CT_P + CT_U + CT_L + CT_D + CT_SP).
Definition cavan_ispunct (c : Z) : bool := has_type c CT_P.
Definition cavan_isspace (c : Z) : bool := has_type c CT_S.
Definition cavan_islf (c : Z) : bool := has_type c CT_LF.
Definition cavan_isspace_lf (c : Z) : bool := has_type c (CT_S + CT_LF).
Definition cavan_isspace_zero (c : Z) : bool := has_type c (CT_S + CT_ZERO).
Definition cavan_notspace_zero (c : Z) : bool := negb (has_type c (CT_S + CT_ZERO)).
Definition cavan_isupper (c : Z) : bool := has_type c CT_U.
Definition cavan_isletter (c : Z) : bool := has_type c (CT_U + CT_L).
Definition isodigit (c : Z) : bool := has_type c CT_O.
Definition cavan_isxdigit (c : Z) : bool := has_type c (CT_D + CT_X).
Definition cavan_isnameable (c : Z) : bool := has_type c CT_NM.
Definition cavan_isbracket (c : Z) : bool := has_type c CT_B.
Definition cavan_isbracket_left (c : Z) : bool := has_type c CT_BL.
Definition cavan_isbracket_right (c : Z) : bool := has_type c CT_BR.
Definition cavan_isquote (c : Z) : bool := has_type c CT_Q.

(** ** Case *)

Definition cavan_lowercase_simple (c : Z) : Z := Z.lor c 0x20.
Definition cavan_lowercase (c : Z) : Z := if cavan_isupper c then cavan_lowercase_simple c else c.
Definition cavan_uppercase_simple (c : Z) : Z := Z.land c 0xDF.
Definition cavan_uppercase (c : Z) : Z := if cavan_islower c then cavan_uppercase_simple c else c.

(** The value of a [char], which is signed. *)
Definition schar (c : Z) : Z := swrap 8 c.

(** ** Facts *)

Definition between (a b c : Z) : bool := (a <=? c) && (c <=? b).
(** The letters of ISO 8859-1. *)
Definition latin1_upper (c : Z) : bool := between 65 90 c || (between 192 222 c && negb (c =? 215)).
Definition latin1_lower (c : Z) : bool := between 97 122 c || (between 223 255 c && negb (c =? 247)).

(** A claim about every byte, by evaluation. *)
Ltac every_byte c p Hc :=
  pose proof (check_below_ok 256 p c) as Hc; cbv beta in Hc; apply Hc; [vm_compute; reflexivity|assumption].

Lemma schar_inj a b : 0 ≤ a < 256 → 0 ≤ b < 256 → schar a = schar b → a = b.
Proof.
  unfold schar, swrap. intros Ha Hb. cbv zeta. rewrite !wrap_small by done. change (2 ^ (8 - 1)) with 128. change (2 ^ 8) with 256.
  destruct (Z.ltb_spec a 128), (Z.ltb_spec b 128); lia.
Qed.
Lemma schar_0 c : 0 ≤ c < 256 → schar c = 0 ↔ c = 0.
Proof. intros Hc. split; [|by intros ->]. intros E. apply schar_inj; [done|lia|exact E]. Qed.

Lemma isupper_latin1 c : 0 ≤ c < 256 → cavan_isupper c = latin1_upper c.
Proof. intros Hc. apply eqb_true_iff. every_byte c (λ c, eqb (cavan_isupper c) (latin1_upper c)) H. Qed.
Lemma islower_latin1 c : 0 ≤ c < 256 → cavan_islower c = latin1_lower c.
Proof. intros Hc. apply eqb_true_iff. every_byte c (λ c, eqb (cavan_islower c) (latin1_lower c)) H. Qed.
Lemma isdigit_range c : 0 ≤ c < 256 → cavan_isdigit c = between 48 57 c.
Proof. intros Hc. apply eqb_true_iff. every_byte c (λ c, eqb (cavan_isdigit c) (between 48 57 c)) H. Qed.
Lemma isspace_lf_range c : 0 ≤ c < 256 → cavan_isspace_lf c = between 9 13 c || (c =? 32) || (c =? 160).
Proof. intros Hc. apply eqb_true_iff. every_byte c (λ c, eqb (cavan_isspace_lf c) (between 9 13 c || (c =? 32) || (c =? 160))) H. Qed.
Lemma zero_is_nothing : cavan_isspace 0 = false ∧ cavan_isspace_lf 0 = false ∧ cavan_isdigit 0 = false.
Proof. done. Qed.
