(* ===== verification/Sort.v ===== *)
(** Sort: the in-place integer sorts of src/lib/sort.c.

    A pointer is an index into the allocation [m] the array lives in, so a read
    before the first element or past the last one of the allocation is
    undefined behaviour of the model as it is of the code.  The loops carry the
    length of the allocation as their bound. *)
From S2P Require Import Prelude.

(** ** The code *)

Section code.
Implicit Types (m : list Z) (a p q start endp size : Z).

Definition array_fuel m : nat := S (length m).

(** [for (; *end > middle && start < end; end--);] *)
Definition scan_down m (middle start : Z) (endp : Z) : cres (Z + Z) :=
  v ← load m endp;
  if (middle <? v) && (start <? endp) then mret (inl (endp - 1)) else mret (inr endp).

(** [for (; *start < middle && start < end; start++);] *)
Definition scan_up m (middle endp : Z) (start : Z) : cres (Z + Z) :=
  v ← load m start;
  if (v <? middle) && (start <? endp) then mret (inl (start + 1)) else mret (inr start).

(** One round of the [while (1)] of the partition. *)
Definition partition_round (middle : Z) (st : list Z * Z * Z)
    : cres ((list Z * Z * Z) + (list Z * Z * Z)) :=
  let '(m, start, endp) := st in
  endp ← loop (array_fuel m) (scan_down m middle start) endp;
  if start <? endp then
    v ← load m endp;
    m ← store m start v;
    let start := start + 1 in
    start ← loop (array_fuel m) (scan_up m middle endp) start;
    if start <? endp then
      v ← load m start;
      m ← store m endp v;
      mret (inl (m, start, endp - 1))
    else mret (inr (m, start, endp))
  else mret (inr (m, start, endp)).

Fixpoint cavan_quick_sort_body (fuel : nat) m start endp : cres (list Z) :=
  match fuel with
  | O => NoFuel
  | S n =>
    middle ← load m start;
    let start_bak := start in
    let end_bak := endp in
    '(m, start, endp) ← loop (array_fuel m) (partition_round middle) (m, start, endp);
    m ← store m start middle;
    m ← (if 1 <? start - start_bak
         then cavan_quick_sort_body n m start_bak (start - 1) else mret m);
    if 1 <? end_bak - endp
    then cavan_quick_sort_body n m (endp + 1) end_bak else mret m
  end.

Definition cavan_quick_sort m a size : cres (list Z) :=
  if 1 <? size then cavan_quick_sort_body (array_fuel m) m a (a + size - 1) else mret m.

(** [for (max = p, q = a; q < p; q++) if ( *q > *max) max = q;] *)
Definition select_max_round m p (st : Z * Z) : cres ((Z * Z) + Z) :=
  let '(max, q) := st in
  if q <? p then
    vq ← load m q; vmax ← load m max;
    mret (inl (if vmax <? vq then q else max, q + 1))
  else mret (inr max).

Definition select_round a (st : list Z * Z) : cres ((list Z * Z) + list Z) :=
  let '(m, p) := st in
  if a <? p then
    max ← loop (array_fuel m) (select_max_round m p) (p, a);
    if p =? max then mret (inl (m, p - 1))
    else
      tmp ← load m max;
      v ← load m p;
      m ← store m max v;
      m ← store m p tmp;
      mret (inl (m, p - 1))
  else mret (inr m).

Definition cavan_select_sort m a size : cres (list Z) :=
  if size <? 2 then mret m
  else loop (array_fuel m) (select_round a) (m, a + size - 1).

(** [for (q = p - step; *q > tmp && q >= a; q -= step) *(q + step) = *q;]
    (the insertion sort is the case [step = 1]).  The element is read before
    the bound is tested. *)
Definition shift_round a (tmp step : Z) (st : list Z * Z) : cres ((list Z * Z) + (list Z * Z)) :=
  let '(m, q) := st in
  v ← load m q;
  if (tmp <? v) && (a <=? q) then
    m ← store m (q + step) v;
    mret (inl (m, q - step))
  else mret (inr (m, q)).

Definition insert_round a endp (st : list Z * Z) : cres ((list Z * Z) + list Z) :=
  let '(m, p) := st in
  if p <? endp then
    tmp ← load m p;
    '(m, q) ← loop (array_fuel m) (shift_round a tmp 1) (m, p - 1);
    m ← store m (q + 1) tmp;
    mret (inl (m, p + 1))
  else mret (inr m).

Definition cavan_insert_sort m a size : cres (list Z) :=
  if size <? 2 then mret m
  else loop (array_fuel m) (insert_round a (a + size)) (m, a + 1).

Definition shell_insert_round a endp step (st : list Z * Z) : cres ((list Z * Z) + list Z) :=
  let '(m, p) := st in
  if p <? endp then
    tmp ← load m p;
    '(m, q) ← loop (array_fuel m) (shift_round a tmp step) (m, p - step);
    m ← store m (q + step) tmp;
    mret (inl (m, p + step))
  else mret (inr m).

Definition cavan_shell_insert m a endp step : cres (list Z) :=
  loop (array_fuel m) (shell_insert_round a endp step) (m, a + step).

(** [for (i = 0; i < step; i++) cavan_shell_insert(a + i, end, step);] *)
Definition shell_pass_round a endp step (st : list Z * Z) : cres ((list Z * Z) + list Z) :=
  let '(m, i) := st in
  if i <? step then
    m ← cavan_shell_insert m (a + i) endp (s32 step);
    mret (inl (m, i + 1))
  else mret (inr m).

Definition shell_pass m a endp step : cres (list Z) :=
  loop (S (Z.to_nat step)) (shell_pass_round a endp step) (m, 0).

Definition shell_halving_round a endp (st : list Z * Z) : cres ((list Z * Z) + list Z) :=
  let '(m, step) := st in
  if 0 <? step then
    m ← shell_pass m a endp step;
    mret (inl (m, step - 1))
  else mret (inr m).

Fixpoint shell_steps m a endp (steps : list Z) : cres (list Z) :=
  match steps with
  | [] => mret m
  | step :: steps => m ← shell_pass m a endp (u64 step); shell_steps m a endp steps
  end.

(** [steps = NULL] is [None]; [step_size] is the length of the list. *)
Definition cavan_shell_short m a size (steps : option (list Z)) : cres (list Z) :=
  if size <? 2 then mret m
  else
    match steps with
    | Some (step :: steps) => shell_steps m a (a + size) (step :: steps)
    | _ => loop (array_fuel m) (shell_halving_round a (a + size)) (m, Z.quot size 2)
    end.

Definition build_heap_round a (st : list Z * Z) : cres ((list Z * Z) + list Z) :=
  let '(m, i) := st in
  if 0 <? i then
    let root := a + Z.shiftr (i - 1) 1 in
    let p := a + i in
    vr ← load m root; vp ← load m p;
    if vr <? vp then
      m ← store m p vr;
      m ← store m root vp;
      mret (inl (m, i - 1))
    else mret (inl (m, i - 1))
  else mret (inr m).

Definition cavan_build_heap m a size : cres (list Z) :=
  loop (array_fuel m) (build_heap_round a) (m, size - 1).

(** Pull the larger child up until the path leaves the heap of size [i]. *)
Definition sift_round a i (st : list Z * Z) : cres ((list Z * Z) + (list Z * Z)) :=
  let '(m, j) := st in
  let k := Z.shiftl j 1 + 1 in
  if i <=? k then mret (inr (m, j))
  else
    vk ← load m (a + k);
    right ← (if k + 1 <? i then vr ← load m (a + k + 1); mret (vk <? vr) else mret false);
    if (right : bool) then
      v ← load m (a + k + 1);
      m ← store m (a + j) v;
      mret (inl (m, k + 1))
    else
      m ← store m (a + j) vk;
      mret (inl (m, k)).

Definition heap_round a (st : list Z * Z) : cres ((list Z * Z) + list Z) :=
  let '(m, i) := st in
  if 0 <? i then
    tmp ← load m a;
    '(m, j) ← loop (array_fuel m) (sift_round a i) (m, 0);
    v ← load m (a + i);
    m ← store m (a + j) v;
    m ← store m (a + i) tmp;
    mret (inl (m, i - 1))
  else mret (inr m).

Definition cavan_heap_sort m a size : cres (list Z) :=
  if size <? 2 then mret m
  else
    m ← cavan_build_heap m a size;
    loop (array_fuel m) (heap_round a) (m, size - 1).
End code.

(** ** Specification *)

(** [m'] is [m] with the elements of the range [lo .. hi] rearranged. *)
Record rearranged (m m' : list Z) (lo hi : Z) : Prop := {
  re_perm : m' ≡ₚ m;
  re_outside : ∀ i, 0 ≤ i < zlen m → i < lo ∨ hi < i → m'⟦i⟧ = m⟦i⟧ }.

Definition sorted_range (m : list Z) (lo hi : Z) : Prop :=
  ∀ i j, lo ≤ i → i ≤ j → j ≤ hi → m⟦i⟧ ≤ m⟦j⟧.

(** What a sorting routine promises of [size] elements at [a]. *)
Definition sorts (m : list Z) (a size : Z) (r : cres (list Z)) : Prop :=
  wp r (λ m', rearranged m m' a (a + size - 1) ∧ sorted_range m' a (a + size - 1)).

Lemma re_zlen m m' lo hi : rearranged m m' lo hi → zlen m' = zlen m.
Proof. intros [Hp _]. unfold zlen. by rewrite Hp. Qed.

Lemma rearranged_refl m lo hi : rearranged m m lo hi.
Proof. by split. Qed.

Lemma rearranged_trans m1 m2 m3 lo hi :
  rearranged m1 m2 lo hi → rearranged m2 m3 lo hi → rearranged m1 m3 lo hi.
Proof.
  intros H1 H2. split.
  - etrans; [apply H2|apply H1].
  - intros i Hi Ho. rewrite (re_outside _ _ _ _ H2), (re_outside _ _ _ _ H1); auto.
    by rewrite (re_zlen _ _ _ _ H1).
Qed.

Lemma rearranged_mono m1 m2 lo hi lo' hi' :
  rearranged m1 m2 lo' hi' → lo ≤ lo' → hi' ≤ hi → rearranged m1 m2 lo hi.
Proof. intros [Hp Ho] ??. split; [done|]. intros i Hi Hr. apply Ho; lia. Qed.

(** A rearranged range holds the elements it held. *)
Lemma rearranged_slice m m' lo hi :
  rearranged m m' lo hi → 0 ≤ lo → lo - 1 ≤ hi → hi < zlen m →
  slice m' lo (hi - lo + 1) ≡ₚ slice m lo (hi - lo + 1).
Proof.
  intros Hr Hlo Hh Hhi. pose proof (re_zlen _ _ _ _ Hr) as Hl. destruct Hr as [Hp Ho].
  unfold slice, zlen in *.
  set (p := Z.to_nat lo) in *. set (n := Z.to_nat (hi - lo + 1)) in *.
  assert (take p m' = take p m) as Ht.
  { apply list_eq. intros k. destruct (decide (k < p)%nat) as [Hk|Hk].
    - rewrite !lookup_take_lt by done.
      rewrite !list_lookup_lookup_total_lt by lia. f_equal.
      specialize (Ho (Z.of_nat k)). unfold get in Ho. rewrite Nat2Z.id in Ho. apply Ho; lia.
    - by rewrite !lookup_take_ge by lia. }
  assert (drop n (drop p m') = drop n (drop p m)) as Hd.
  { apply list_eq. intros k. rewrite !drop_drop, !lookup_drop.
    destruct (decide (p + n + k < length m)%nat) as [Hk|Hk].
    - rewrite !list_lookup_lookup_total_lt by lia. f_equal.
      specialize (Ho (Z.of_nat (p + n + k))). unfold get in Ho. rewrite Nat2Z.id in Ho.
      apply Ho; lia.
    - by rewrite !lookup_ge_None_2 by lia. }
  rewrite <-(take_drop p m), <-(take_drop p m') in Hp.
  rewrite <-(take_drop n (drop p m)), <-(take_drop n (drop p m')) in Hp.
  rewrite Ht, Hd in Hp. apply Permutation_app_inv_l in Hp.
  by apply Permutation_app_inv_r in Hp.
Qed.

Lemma slice_lookup (m : list Z) lo n x :
  0 ≤ lo → lo + n ≤ zlen m → x ∈ slice m lo n ↔ ∃ i, lo ≤ i < lo + n ∧ m⟦i⟧ = x.
Proof.
  unfold slice, zlen. intros Hlo Hn. rewrite list_elem_of_lookup. split.
  - intros [k Hk]. apply lookup_take_Some in Hk as [Hk Hkn]. rewrite lookup_drop in Hk.
    exists (lo + Z.of_nat k). split; [lia|].
    unfold get. apply list_lookup_total_correct. rewrite <-Hk. f_equal. lia.
  - intros (i & Hi & Hx). exists (Z.to_nat (i - lo)). rewrite lookup_take_lt by lia.
    rewrite lookup_drop. replace (Z.to_nat lo + Z.to_nat (i - lo))%nat with (Z.to_nat i) by lia.
    rewrite list_lookup_lookup_total_lt by lia. by f_equal.
Qed.

Lemma rearranged_forall (P : Z → Prop) m m' lo hi :
  rearranged m m' lo hi → 0 ≤ lo → hi < zlen m →
  (∀ i, lo ≤ i ≤ hi → P m⟦i⟧) → ∀ i, lo ≤ i ≤ hi → P m'⟦i⟧.
Proof.
  intros Hr Hlo Hhi HP i Hi. pose proof (re_zlen _ _ _ _ Hr).
  assert (m'⟦i⟧ ∈ slice m' lo (hi - lo + 1)) as Hin.
  { apply slice_lookup; [lia..|]. exists i. split; [lia|done]. }
  rewrite (rearranged_slice _ _ _ _ Hr) in Hin by lia.
  apply slice_lookup in Hin as (j & Hj & Hx); [|lia..]. rewrite <-Hx. apply HP. lia.
Qed.

(** Exchanging two elements of a list. *)
Lemma swap_perm_lt (m : list Z) i j :
  (i < j)%nat → (j < length m)%nat → <[i:=m !!! j]> (<[j:=m !!! i]> m) ≡ₚ m.
Proof.
  intros Hij Hj.
  destruct (lookup_lt_is_Some_2 m i) as [x Hx]; [lia|].
  destruct (lookup_lt_is_Some_2 m j) as [y Hy]; [lia|].
  rewrite (list_lookup_total_correct _ _ _ Hx), (list_lookup_total_correct _ _ _ Hy).
  apply list_elem_of_split_length in Hx as (l1 & l2 & -> & Hl).
  rewrite lookup_app_r in Hy by lia.
  replace (j - length l1)%nat with (S (j - length l1 - 1)) in Hy by lia. simpl in Hy.
  apply list_elem_of_split_length in Hy as (l3 & l4 & -> & Hl'). subst i.
  replace j with (length l1 + S (length l3))%nat by lia.
  rewrite insert_app_r, insert_app_r_alt by lia.
  rewrite Nat.sub_diag. simpl. rewrite insert_app_r_alt, Nat.sub_diag by lia. simpl.
  solve_Permutation.
Qed.

Lemma swap_perm (m : list Z) i j :
  0 ≤ i < zlen m → 0 ≤ j < zlen m → m⟦i := m⟦j⟧⟧⟦j := m⟦i⟧⟧ ≡ₚ m.
Proof.
  unfold zlen, get, upd. intros Hi Hj.
  destruct (Z.lt_trichotomy i j) as [Hij|[->|Hij]].
  - rewrite list_insert_insert_ne by lia. apply swap_perm_lt; lia.
  - rewrite list_insert_insert_eq, list_insert_id; [done|].
    apply list_lookup_lookup_total_lt. lia.
  - apply swap_perm_lt; lia.
Qed.

(** Moving the hole of a list from [h] to [k]. *)
Lemma hole_move (m : list Z) h k x :
  0 ≤ h < zlen m → 0 ≤ k < zlen m → m⟦h := m⟦k⟧⟧⟦k := x⟧ ≡ₚ m⟦h := x⟧.
Proof.
  intros Hh Hk. destruct (decide (h = k)) as [->|Hne].
  { by rewrite upd_upd_eq. }
  rewrite <-(swap_perm (m⟦h := x⟧) h k) by idx.
  rewrite get_upd_eq, get_upd_ne, upd_upd_eq by (done || lia). done.
Qed.

(** ** Partition and quick sort *)

(** While the partition runs, [start] is the hole the pivot left. *)
Record part_inv (m0 : list Z) (s0 e0 middle : Z) (st : list Z * Z * Z) : Prop := {
  pi_bounds : s0 ≤ st.1.2 ∧ st.1.2 ≤ st.2 ∧ st.2 ≤ e0;
  pi_re : rearranged m0 (st.1.1⟦st.1.2 := middle⟧) s0 e0;
  pi_low : ∀ i, s0 ≤ i < st.1.2 → st.1.1⟦i⟧ ≤ middle;
  pi_high : ∀ i, st.2 < i ≤ e0 → middle ≤ st.1.1⟦i⟧ }.

Lemma pi_zlen m0 s0 e0 middle st : part_inv m0 s0 e0 middle st → zlen st.1.1 = zlen m0.
Proof. intros [_ Hr _ _]. apply re_zlen in Hr. by rewrite zlen_upd in Hr. Qed.

Lemma array_fuel_lt m n : n ≤ zlen m → (Z.to_nat n < array_fuel m)%nat.
Proof. unfold array_fuel, zlen. lia. Qed.

Lemma scan_down_ok m middle s e :
  0 ≤ s ≤ e → e < zlen m →
  wp (loop (array_fuel m) (scan_down m middle s) e) (λ e',
    s ≤ e' ≤ e ∧ (∀ i, e' < i ≤ e → middle ≤ m⟦i⟧) ∧ (s < e' → m⟦e'⟧ ≤ middle)).
Proof.
  intros Hs He.
  apply (wp_loop (λ e', s ≤ e' ≤ e ∧ ∀ i, e' < i ≤ e → middle ≤ m⟦i⟧) _
           (λ e', Z.to_nat (e' - s))); [|split; lia|apply array_fuel_lt; lia].
  intros e' [He' Hhi]. unfold scan_down. wp_go.
  destruct (Z.ltb_spec middle m⟦e'⟧), (Z.ltb_spec s e'); simpl; try (repeat split; lia || done).
  repeat split; try lia. intros i Hi.
  destruct (decide (i = e')) as [->|]; [lia|apply Hhi; lia].
Qed.

Lemma scan_up_ok m middle s e :
  0 ≤ s ≤ e → e < zlen m →
  wp (loop (array_fuel m) (scan_up m middle e) s) (λ s',
    s ≤ s' ≤ e ∧ (∀ i, s ≤ i < s' → m⟦i⟧ ≤ middle) ∧ (s' < e → middle ≤ m⟦s'⟧)).
Proof.
  intros Hs He.
  apply (wp_loop (λ s', s ≤ s' ≤ e ∧ ∀ i, s ≤ i < s' → m⟦i⟧ ≤ middle) _
           (λ s', Z.to_nat (e - s'))); [|split; lia|apply array_fuel_lt; lia].
  intros s' [Hs' Hlo]. unfold scan_up. wp_go.
  destruct (Z.ltb_spec m⟦s'⟧ middle), (Z.ltb_spec s' e); simpl; try (repeat split; lia || done).
  repeat split; try lia. intros i Hi.
  destruct (decide (i = s')) as [->|]; [lia|apply Hlo; lia].
Qed.

(** Filling the hole at [h] from [k] keeps the range rearranged, the hole now at [k]. *)
Lemma rearranged_hole m0 m h k x lo hi :
  rearranged m0 m⟦h := x⟧ lo hi → 0 ≤ h < zlen m → 0 ≤ k < zlen m →
  lo ≤ h ≤ hi → lo ≤ k ≤ hi →
  rearranged m0 m⟦h := m⟦k⟧⟧⟦k := x⟧ lo hi.
Proof.
  intros Hr Hh Hk ??. pose proof (re_zlen _ _ _ _ Hr) as Hl. rewrite zlen_upd in Hl.
  split; [rewrite hole_move by done; apply Hr|].
  intros i Hi Ho. rewrite !get_upd_ne by lia.
  rewrite <-(re_outside _ _ _ _ Hr) by done. by rewrite get_upd_ne by lia.
Qed.

Lemma partition_round_ok m0 s0 e0 middle st :
  0 ≤ s0 → e0 < zlen m0 → part_inv m0 s0 e0 middle st →
  wp (partition_round middle st) (λ r, match r with
    | inl st' => part_inv m0 s0 e0 middle st' ∧
                 (Z.to_nat (st'.2 - st'.1.2 + 1) < Z.to_nat (st.2 - st.1.2 + 1))%nat
    | inr st' => part_inv m0 s0 e0 middle st' ∧ st'.1.2 = st'.2
    end).
Proof.
  intros Hs0 He0 Hinv. pose proof (pi_zlen _ _ _ _ _ Hinv) as Hl.
  destruct st as [[m s] e]. destruct Hinv as [Hb Hre Hlo Hhi]. simpl in *.
  apply wp_bind. eapply wp_mono; [apply scan_down_ok; lia|].
  intros e1 (He1 & Hhi1 & Hle1). zcase.
  2:{ wp_go. assert (s = e1) as -> by lia. split; [|done].
      split; simpl; auto; [lia|]. intros i Hi.
      destruct (decide (i ≤ e)); [apply Hhi1|apply Hhi]; lia. }
  wp_go. eapply wp_mono; [apply scan_up_ok; idx|].
  intros s2 (Hs2 & Hlo2 & Hge2).
  set (m1 := m⟦s := m⟦e1⟧⟧) in *.
  assert (zlen m1 = zlen m0) as Hl1 by (unfold m1; idx).
  assert (rearranged m0 m1⟦e1 := middle⟧ s0 e0) as Hre1 by (apply rearranged_hole; auto; lia).
  assert (∀ i, s0 ≤ i < s2 → m1⟦i⟧ ≤ middle) as Hlo1.
  { intros i Hi. destruct (Z.lt_trichotomy i s) as [?|[->|?]].
    - unfold m1. rewrite get_upd_ne by lia. apply Hlo. lia.
    - unfold m1. rewrite get_upd_eq by lia. apply Hle1. lia.
    - apply Hlo2. lia. }
  assert (∀ i, e1 < i ≤ e0 → middle ≤ m1⟦i⟧) as Hhi2.
  { intros i Hi. unfold m1. rewrite get_upd_ne by lia.
    destruct (decide (i ≤ e)); [apply Hhi1|apply Hhi]; lia. }
  zcase.
  - wp_go. split; [|simpl; lia]. split; simpl.
    + lia.
    + apply rearranged_hole; auto; lia.
    + intros i Hi. rewrite get_upd_ne by lia. apply Hlo1. lia.
    + intros i Hi. destruct (decide (i = e1)) as [->|].
      * rewrite get_upd_eq by lia. apply Hge2. lia.
      * rewrite get_upd_ne by lia. apply Hhi2. lia.
  - wp_go. assert (s2 = e1) as -> by lia. split; [|done]. split; simpl; auto. lia.
Qed.

(** The partition leaves the pivot at [start = end] with smaller elements
    before it and larger ones after it. *)
Lemma partition_ok m s e :
  0 ≤ s ≤ e → e < zlen m →
  wp (loop (array_fuel m) (partition_round m⟦s⟧) (m, s, e)) (λ st,
    part_inv m s e m⟦s⟧ st ∧ st.1.2 = st.2).
Proof.
  intros Hs He.
  apply (wp_loop (part_inv m s e m⟦s⟧) _ (λ st, Z.to_nat (st.2 - st.1.2 + 1))).
  - intros st Hst. by apply partition_round_ok; [lia..|].
  - split; simpl; [lia| |lia..]. rewrite upd_get by lia. apply rearranged_refl.
  - simpl. apply array_fuel_lt. lia.
Qed.

(** Sorting the two sides of a partitioned range sorts the range. *)
Lemma sorted_range_join m s p e :
  (∀ i, s ≤ i < p → m⟦i⟧ ≤ m⟦p⟧) → (∀ i, p < i ≤ e → m⟦p⟧ ≤ m⟦i⟧) →
  sorted_range m s (p - 1) → sorted_range m (p + 1) e → sorted_range m s e.
Proof.
  intros Hlo Hhi Hs1 Hs2 i j Hi Hij Hj.
  destruct (Z.lt_trichotomy i p) as [?|[->|?]], (Z.lt_trichotomy j p) as [?|[->|?]]; try lia.
  - apply Hs1; lia.
  - apply Hlo; lia.
  - trans m⟦p⟧; [apply Hlo|apply Hhi]; lia.
  - apply Hhi; lia.
  - apply Hs2; lia.
Qed.

Lemma sorted_range_short m s e : e ≤ s → sorted_range m s e.
Proof. intros He i j ???. replace j with i by lia. done. Qed.

(** Ranges that an operation on a disjoint range leaves alone. *)
Lemma sorted_range_frame m m' lo hi s e :
  rearranged m m' lo hi → 0 ≤ s → e < zlen m → e < lo ∨ hi < s →
  sorted_range m s e → sorted_range m' s e.
Proof.
  intros Hr Hs0 He0 Hd Hs i j ???.
  rewrite !(re_outside _ _ _ _ Hr) by lia. by apply Hs.
Qed.

(** A recursive call made only on ranges of two or more elements. *)
Lemma quick_sub_call n m s e :
  (∀ m s e, 0 ≤ s ≤ e → e < zlen m → (Z.to_nat (e - s) < n)%nat →
     wp (cavan_quick_sort_body n m s e) (λ m', rearranged m m' s e ∧ sorted_range m' s e)) →
  0 ≤ s → e < zlen m → ∀ c : bool,
  (c = false → e ≤ s) → (c = true → s ≤ e ∧ (Z.to_nat (e - s) < n)%nat) →
  wp (if c then cavan_quick_sort_body n m s e else mret m)
     (λ m', rearranged m m' s e ∧ sorted_range m' s e).
Proof.
  intros IH Hs He [] Hf Ht; [destruct (Ht eq_refl); apply IH; lia|].
  split; [apply rearranged_refl|apply sorted_range_short; auto].
Qed.

Lemma quick_sort_body_ok n : ∀ m s e,
  0 ≤ s ≤ e → e < zlen m → (Z.to_nat (e - s) < n)%nat →
  wp (cavan_quick_sort_body n m s e) (λ m', rearranged m m' s e ∧ sorted_range m' s e).
Proof.
  induction n as [|n IH]; intros m s e Hs He Hn; [lia|]. simpl.
  wp_go. eapply wp_mono; [by apply partition_ok|].
  intros [[m1 p] p'] [Hinv Hp]. pose proof (pi_zlen _ _ _ _ _ Hinv) as Hl.
  destruct Hinv as [Hb Hre Hlo Hhi]. simpl in *. subst p'.
  set (x := m⟦s⟧) in *. wp_go. set (m2 := m1⟦p := x⟧) in *.
  assert (zlen m2 = zlen m) as Hl2 by (unfold m2; idx).
  assert (m2⟦p⟧ = x) as Hx by (unfold m2; rewrite get_upd_eq; lia).
  eapply wp_mono; [apply (quick_sub_call n m2 s (p - 1)); auto; lia|].
  intros m3 [Hr3 Hs3]. pose proof (re_zlen _ _ _ _ Hr3) as Hl3.
  eapply wp_mono; [apply (quick_sub_call n m3 (p + 1) e); auto; lia|].
  intros m4 [Hr4 Hs4]. split.
  - eapply rearranged_trans; [apply Hre|].
    eapply rearranged_trans; eapply rearranged_mono; [apply Hr3| | |apply Hr4| |]; lia.
  - assert (m4⟦p⟧ = x) as Hx4.
    { rewrite (re_outside _ _ _ _ Hr4), (re_outside _ _ _ _ Hr3); auto; lia. }
    apply (sorted_range_join _ _ p); [..|done]; rewrite ?Hx4.
    + intros i Hi. rewrite (re_outside _ _ _ _ Hr4) by lia.
      apply (rearranged_forall (λ z, z ≤ x) m2 m3 s (p - 1)); [done|lia..| |lia].
      intros k Hk. unfold m2. rewrite get_upd_ne by lia. apply Hlo. lia.
    + intros i Hi.
      apply (rearranged_forall (λ z, x ≤ z) m3 m4 (p + 1) e); [done|lia..| |lia].
      intros k Hk. rewrite (re_outside _ _ _ _ Hr3) by lia.
      unfold m2. rewrite get_upd_ne by lia. apply Hhi. lia.
    + apply (sorted_range_frame m3 m4 (p + 1) e); auto; lia.
Qed.

(** ** Selection sort *)

Record select_inv (m0 : list Z) (a e : Z) (st : list Z * Z) : Prop := {
  sel_bounds : a ≤ st.2 ≤ e;
  sel_re : rearranged m0 st.1 a e;
  sel_sorted : sorted_range st.1 (st.2 + 1) e;
  sel_split : ∀ i j, a ≤ i ≤ st.2 → st.2 < j ≤ e → st.1⟦i⟧ ≤ st.1⟦j⟧ }.

(** The scan finds a maximum of [a .. p]. *)
Lemma select_max_ok m a p :
  0 ≤ a ≤ p → p < zlen m →
  wp (loop (array_fuel m) (select_max_round m p) (p, a)) (λ max,
    a ≤ max ≤ p ∧ ∀ i, a ≤ i ≤ p → m⟦i⟧ ≤ m⟦max⟧).
Proof.
  intros Ha Hp.
  apply (wp_loop (λ st : Z * Z, a ≤ st.1 ≤ p ∧ a ≤ st.2 ≤ p ∧ m⟦p⟧ ≤ m⟦st.1⟧ ∧
            ∀ i, a ≤ i < st.2 → m⟦i⟧ ≤ m⟦st.1⟧) _ (λ st, Z.to_nat (p - st.2)));
    [|simpl; repeat split; lia|apply array_fuel_lt; simpl; lia].
  intros [max q] (Hmax & Hq & Hpm & Hall). simpl in *. zcase.
  - wp_go. destruct (Z.ltb_spec m⟦max⟧ m⟦q⟧); simpl; (split; [|lia]); repeat split; try lia.
    all: intros i Hi; destruct (decide (i = q)) as [->|]; [lia|].
    all: specialize (Hall i ltac:(lia)); lia.
  - wp_go. split; [lia|]. intros i Hi. destruct (decide (i = p)) as [->|]; [lia|apply Hall; lia].
Qed.

(** Exchanging the maximum [max] of [a .. p] with [p]. *)
Lemma select_swap m0 m a e p max :
  0 ≤ a → e < zlen m0 → select_inv m0 a e (m, p) → a < p → a ≤ max ≤ p →
  (∀ i, a ≤ i ≤ p → m⟦i⟧ ≤ m⟦max⟧) →
  select_inv m0 a e (m⟦max := m⟦p⟧⟧⟦p := m⟦max⟧⟧, p - 1).
Proof.
  intros Ha He [Hb Hre Hs Hsp] Hp Hmax Hall. simpl in *.
  pose proof (re_zlen _ _ _ _ Hre) as Hl. set (m' := m⟦max := m⟦p⟧⟧⟦p := m⟦max⟧⟧).
  assert (m'⟦p⟧ = m⟦max⟧) as Hp' by (unfold m'; rewrite get_upd_eq; idx).
  assert (∀ i, p < i ≤ e → m'⟦i⟧ = m⟦i⟧) as Hhi'.
  { intros i Hi. unfold m'. by rewrite !get_upd_ne by lia. }
  assert (∀ i, a ≤ i < p → ∃ k, a ≤ k ≤ p ∧ m'⟦i⟧ = m⟦k⟧) as Hlo'.
  { intros i Hi. unfold m'. rewrite (get_upd_ne _ p) by lia. rewrite get_upd by lia.
    case_decide; [exists p|exists i]; split; (done || lia). }
  split; simpl; [lia| | |].
  - apply (rearranged_trans _ m); [done|]. split; [apply swap_perm; lia|].
    intros i Hi Ho. unfold m'. by rewrite !get_upd_ne by lia.
  - replace (p - 1 + 1) with p by lia. intros i j ???.
    destruct (decide (i = p)) as [->|]; destruct (decide (j = p)) as [->|]; try lia.
    + rewrite Hp', Hhi' by lia. apply Hsp; lia.
    + rewrite !Hhi' by lia. apply Hs; lia.
  - intros i j Hi Hj. destruct (Hlo' i) as (k & Hk & ->); [lia|].
    destruct (decide (j = p)) as [->|]; [rewrite Hp'; apply Hall; lia|].
    rewrite Hhi' by lia. apply Hsp; lia.
Qed.

Lemma select_round_ok m0 a e st :
  0 ≤ a → e < zlen m0 → select_inv m0 a e st →
  wp (select_round a st) (λ r, match r with
    | inl st' => select_inv m0 a e st' ∧ (Z.to_nat (st'.2 - a) < Z.to_nat (st.2 - a))%nat
    | inr m' => rearranged m0 m' a e ∧ sorted_range m' a e
    end).
Proof.
  intros Ha He Hinv. destruct st as [m p]. pose proof Hinv as [Hb Hre Hs Hsp]. simpl in *.
  pose proof (re_zlen _ _ _ _ Hre) as Hl. zcase; wp_go.
  - eapply wp_mono; [apply select_max_ok; lia|]. intros max [Hmax Hall].
    pose proof (select_swap _ _ _ _ _ _ Ha He Hinv ltac:(lia) Hmax Hall) as Hsw.
    zcase; wp_go; (split; [|simpl; lia]); [|done].
    subst max. rewrite !upd_upd_eq, upd_get in Hsw by lia. done.
  - assert (p = a) as -> by lia. split; [done|]. intros i j ???.
    destruct (decide (i = a)) as [->|]; [|apply Hs; lia].
    destruct (decide (j = a)) as [->|]; [done|apply Hsp; lia].
Qed.

(** ** Insertion *)

Lemma wp_and {A} (r : cres A) (P Q : A → Prop) : wp r P → wp r Q → wp r (λ x, P x ∧ Q x).
Proof. by destruct r. Qed.

(** Shifting by [step] moves the hole from [p] down to [q + step]. *)
Lemma shift_rearranged m0 m a p tmp step hi :
  0 < step ≤ a → a + step ≤ p ≤ hi → hi < zlen m → zlen m = zlen m0 →
  rearranged m0 m⟦p := tmp⟧ a hi →
  wp (loop (array_fuel m) (shift_round a tmp step) (m, p - step)) (λ st,
    a ≤ st.2 + step ≤ p ∧ rearranged m0 st.1⟦st.2 + step := tmp⟧ a hi).
Proof.
  intros Hstep Hp Hhi Hl0 Hre.
  apply (wp_loop (λ st : list Z * Z, zlen st.1 = zlen m ∧ a ≤ st.2 + step ≤ p ∧
           rearranged m0 st.1⟦st.2 + step := tmp⟧ a hi) _ (λ st, Z.to_nat (st.2 + step)));
    simpl; [|replace (p - step + step) with p by lia; repeat split; (done || lia || apply Hre)
            |apply array_fuel_lt; lia].
  intros [m1 q] (Hl & Hq & Hr). simpl in *. wp_go.
  destruct (Z.ltb_spec tmp m1⟦q⟧), (Z.leb_spec a q); simpl; try done.
  wp_go. simpl. split; [|lia]. split; [idx|]. split; [lia|].
  replace (q - step + step) with q by lia. apply rearranged_hole; auto; lia.
Qed.

(** A hole at [q + 1] between a sorted prefix and a sorted suffix takes [tmp]. *)
Lemma insert_at_hole m a q p tmp :
  1 ≤ a → a ≤ q + 1 ≤ p → p < zlen m →
  sorted_range m a q → sorted_range m (q + 2) p →
  (∀ i, a ≤ i ≤ q → m⟦i⟧ ≤ tmp) → (∀ i, q + 1 < i ≤ p → tmp ≤ m⟦i⟧) →
  sorted_range m⟦q + 1 := tmp⟧ a p.
Proof.
  intros Ha Hq Hp Hs1 Hs2 Hlo Hhi. apply (sorted_range_join _ _ (q + 1)).
  - intros i Hi. rewrite get_upd_eq, get_upd_ne by lia. apply Hlo. lia.
  - intros i Hi. rewrite get_upd_eq, get_upd_ne by lia. apply Hhi. lia.
  - intros i j ???. rewrite !get_upd_ne by lia. apply Hs1; lia.
  - intros i j ???. rewrite !get_upd_ne by lia. apply Hs2; lia.
Qed.

(** With [step = 1], shifting into a sorted prefix makes room for [tmp]. *)
Lemma shift_sorted m a p tmp :
  1 ≤ a → a + 1 ≤ p < zlen m → sorted_range m a (p - 1) →
  wp (loop (array_fuel m) (shift_round a tmp 1) (m, p - 1)) (λ st,
    sorted_range st.1⟦st.2 + 1 := tmp⟧ a p).
Proof.
  intros Ha Hp Hs.
  apply (wp_loop (λ st : list Z * Z, zlen st.1 = zlen m ∧ a ≤ st.2 + 1 ≤ p ∧
      (∀ i, a ≤ i ≤ st.2 → st.1⟦i⟧ = m⟦i⟧) ∧
      (∀ i, st.2 + 1 < i ≤ p → st.1⟦i⟧ = m⟦i - 1⟧ ∧ tmp ≤ m⟦i - 1⟧)) _
      (λ st, Z.to_nat (st.2 + 1)));
    simpl; [|repeat split; intros; (done || lia)|apply array_fuel_lt; lia].
  intros [m1 q] (Hl & Hq & Hlo & Hhi). simpl in *. wp_go.
  assert (∀ i, q + 1 < i ≤ p → tmp ≤ m1⟦i⟧) as Hge.
  { intros i Hi. destruct (Hhi i Hi) as [-> ?]. done. }
  assert (sorted_range m1 (q + 2) p) as Hsr.
  { intros i j ???. rewrite (proj1 (Hhi i ltac:(lia))), (proj1 (Hhi j ltac:(lia))).
    apply Hs; lia. }
  destruct (Z.ltb_spec tmp m1⟦q⟧), (Z.leb_spec a q); simpl; wp_go; simpl.
  - split; [|lia]. split; [idx|]. split; [lia|]. split.
    + intros i Hi. rewrite get_upd_ne by lia. apply Hlo. lia.
    + intros i Hi. rewrite get_upd by lia. case_decide; subst.
      * replace (q + 1 - 1) with q by lia. rewrite <-Hlo by lia. lia.
      * apply Hhi. lia.
  - apply (insert_at_hole m1 a q); auto; try lia. intros i j ???. lia.
  - apply (insert_at_hole m1 a q); auto; try lia.
    + intros i j ???. rewrite !Hlo by lia. apply Hs; lia.
    + intros i Hi. trans m1⟦q⟧; [|lia]. rewrite !Hlo by lia. apply Hs; lia.
  - apply (insert_at_hole m1 a q); auto; try lia. intros i j ???. lia.
Qed.

Lemma shell_insert_round_ok m0 a e step st :
  0 < step ≤ a → e < zlen m0 → a + step ≤ st.2 → rearranged m0 st.1 a e →
  wp (shell_insert_round a (e + 1) step st) (λ r, match r with
    | inl st' => a + step ≤ st'.2 ∧ rearranged m0 st'.1 a e ∧
                 (Z.to_nat (e + 1 - st'.2) < Z.to_nat (e + 1 - st.2))%nat
    | inr m' => rearranged m0 m' a e
    end).
Proof.
  intros Hstep He Hp Hr. destruct st as [m p]. simpl in *.
  pose proof (re_zlen _ _ _ _ Hr) as Hl. zcase; wp_go; [|done].
  eapply wp_mono; [apply (shift_rearranged m0 m a p m⟦p⟧ step e); try lia|].
  { by rewrite upd_get by lia. }
  intros [m1 q] [Hq Hr1]. simpl in *. pose proof (re_zlen _ _ _ _ Hr1) as Hl1.
  rewrite zlen_upd in Hl1. wp_go. split; [simpl; lia|]. split; [done|simpl; lia].
Qed.

Lemma shell_insert_rearranged m a endp step :
  0 < step ≤ a → endp ≤ zlen m →
  wp (cavan_shell_insert m a endp step) (λ m', rearranged m m' a (endp - 1)).
Proof.
  intros Hstep He. unfold cavan_shell_insert.
  apply (wp_loop (λ st : list Z * Z, a + step ≤ st.2 ∧ rearranged m st.1 a (endp - 1)) _
           (λ st, Z.to_nat (endp - st.2))); simpl.
  - intros st [Hp Hr]. replace endp with (endp - 1 + 1) at 1 by lia.
    eapply wp_mono; [apply (shell_insert_round_ok m); auto; lia|].
    replace (endp - 1 + 1) with endp by lia. intros [st1|m1]; [intros (? & ? & ?)|]; done.
  - split; [lia|apply rearranged_refl].
  - apply array_fuel_lt. lia.
Qed.

(** The pass with [step = 1] sorts. *)
Lemma shell_insert_sorted m a endp :
  1 ≤ a → endp ≤ zlen m →
  wp (cavan_shell_insert m a endp 1) (λ m', sorted_range m' a (endp - 1)).
Proof.
  intros Ha He. unfold cavan_shell_insert.
  apply (wp_loop (λ st : list Z * Z, a + 1 ≤ st.2 ∧ rearranged m st.1 a (endp - 1) ∧
           sorted_range st.1 a (st.2 - 1)) _ (λ st, Z.to_nat (endp - st.2))); simpl.
  - intros [m1 p] (Hp & Hr & Hs). simpl in *. pose proof (re_zlen _ _ _ _ Hr) as Hl.
    zcase; wp_go; [|intros i j ???; apply Hs; lia].
    eapply wp_mono; [apply wp_and;
      [apply (shift_rearranged m m1 a p m1⟦p⟧ 1 (endp - 1)); try lia; by rewrite upd_get by lia
      |apply (shift_sorted m1 a p); (done || lia)]|].
    intros [m2 q] [[Hq Hr2] Hs2]. simpl in *. pose proof (re_zlen _ _ _ _ Hr2) as Hl2.
    rewrite zlen_upd in Hl2. wp_go. simpl. replace (p + 1 - 1) with p by lia.
    split; [|lia]. split; [lia|done].
  - split; [lia|]. split; [apply rearranged_refl|]. apply sorted_range_short. lia.
  - apply array_fuel_lt. lia.
Qed.

Lemma shell_pass_rearranged m a endp step :
  0 < step < 2 ^ 31 → step ≤ a → endp ≤ zlen m →
  wp (shell_pass m a endp step) (λ m', rearranged m m' a (endp - 1)).
Proof.
  intros Hstep Ha He. unfold shell_pass.
  apply (wp_loop (λ st : list Z * Z, 0 ≤ st.2 ∧ rearranged m st.1 a (endp - 1)) _
           (λ st, Z.to_nat (step - st.2))); simpl;
    [|split; [lia|apply rearranged_refl]|lia].
  intros [m1 i] [Hi Hr]. simpl in *. pose proof (re_zlen _ _ _ _ Hr) as Hl.
  zcase; wp_go; [|done]. rewrite swrap_small by lia.
  eapply wp_mono; [apply shell_insert_rearranged; lia|]. intros m2 Hr2. wp_go.
  simpl. split; [|lia]. split; [lia|]. eapply rearranged_trans; [done|].
  eapply rearranged_mono; [exact Hr2|lia..].
Qed.

Lemma shell_pass_sorted m a endp :
  1 ≤ a → endp ≤ zlen m → wp (shell_pass m a endp 1) (λ m', sorted_range m' a (endp - 1)).
Proof.
  intros Ha He. unfold shell_pass.
  apply (wp_loop (λ st : list Z * Z, st = (m, 0) ∨ st.2 = 1 ∧ sorted_range st.1 a (endp - 1)) _
           (λ st, Z.to_nat (1 - st.2))); simpl; [|by left|lia].
  intros [m1 i] [[= -> ->]|[Hi Hs]]; simpl in *; unfold shell_pass_round.
  - change (0 <? 1) with true. cbv iota. wp_go. change (s32 1) with 1. replace (a + 0) with a by lia.
    eapply wp_mono; [apply shell_insert_sorted; lia|]. intros m' Hs. wp_go. simpl.
    split; [by right|lia].
  - zcase; [lia|]. by wp_go.
Qed.

(** ** The theorems *)

(** C4: [cavan_quick_sort] stays inside the array, terminates, permutes the
    [size] elements at [a], leaves every other cell of the allocation alone and
    leaves the range in ascending order. *)
Theorem cavan_quick_sort_sorts m a size :
  0 ≤ a → 0 ≤ size → a + size ≤ zlen m → sorts m a size (cavan_quick_sort m a size).
Proof.
  intros Ha Hs Hl. unfold sorts, cavan_quick_sort. zcase.
  - apply quick_sort_body_ok; [lia..|]. apply array_fuel_lt. lia.
  - split; [apply rearranged_refl|apply sorted_range_short; lia].
Qed.

Lemma cavan_quick_sort_sorts_witness :
  sorts [9; 5; 3; 9; 1; 3; 0] 1 5 (cavan_quick_sort [9; 5; 3; 9; 1; 3; 0] 1 5).
Proof. apply (cavan_quick_sort_sorts [9; 5; 3; 9; 1; 3; 0] 1 5); done. Defined.

(** [cavan_select_sort] meets the same contract. *)
Theorem cavan_select_sort_sorts m a size :
  0 ≤ a → 0 ≤ size → a + size ≤ zlen m → sorts m a size (cavan_select_sort m a size).
Proof.
  intros Ha Hs Hl. unfold sorts, cavan_select_sort. zcase.
  { split; [apply rearranged_refl|apply sorted_range_short; lia]. }
  apply (wp_loop (select_inv m a (a + size - 1)) _ (λ st, Z.to_nat (st.2 - a))).
  - intros st Hst. apply select_round_ok; [lia..|done].
  - split; simpl; [lia|apply rearranged_refl|apply sorted_range_short; lia|lia].
  - apply array_fuel_lt. simpl. lia.
Qed.

Lemma cavan_select_sort_sorts_witness :
  sorts [5; 3; 9; 1; 3] 0 5 (cavan_select_sort [5; 3; 9; 1; 3] 0 5).
Proof. apply (cavan_select_sort_sorts [5; 3; 9; 1; 3] 0 5); done. Defined.

(** [cavan_insert_sort] meets the contract of a sort, provided the cell
    before the array can be read ([1 <= a]): the code reads it before it
    compares the pointer with the start of the array. *)
Theorem cavan_insert_sort_sorts m a size :
  1 ≤ a → 0 ≤ size → a + size ≤ zlen m → sorts m a size (cavan_insert_sort m a size).
Proof.
  intros Ha Hs Hl. unfold sorts, cavan_insert_sort. zcase.
  { split; [apply rearranged_refl|apply sorted_range_short; lia]. }
  apply wp_and; [apply (shell_insert_rearranged m a (a + size) 1)
                |apply (shell_insert_sorted m a (a + size))]; lia.
Qed.

Lemma cavan_insert_sort_sorts_witness :
  sorts [7; 5; 3; 9; 1; 3] 1 5 (cavan_insert_sort [7; 5; 3; 9; 1; 3] 1 5).
Proof. apply (cavan_insert_sort_sorts [7; 5; 3; 9; 1; 3] 1 5); done. Defined.

(** When the array starts its allocation and its second element is smaller
    than its first, [cavan_insert_sort] reads the cell before the array:
    undefined behaviour. *)
Theorem cavan_insert_sort_reads_before m size :
  2 ≤ size ≤ zlen m → m⟦1⟧ < m⟦0⟧ → cavan_insert_sort m 0 size = Undef.
Proof.
  intros Hs Hlt. unfold cavan_insert_sort. zcase; [lia|].
  assert (insert_round 0 (0 + size) (m, 0 + 1) = Undef) as Hu.
  { unfold insert_round. change (0 + 1) with 1. zcase; [|lia].
    rewrite (load_in m 1) by lia. cbn.
    assert (∃ n, array_fuel m = S (S n)) as [n ->].
    { exists (length m - 1)%nat. unfold array_fuel, zlen in *. lia. }
    assert (shift_round 0 m⟦1⟧ 1 (m, 0) = Ok (inl (m⟦1 := m⟦0⟧⟧, -1))) as H1.
    { unfold shift_round. rewrite (load_in m 0) by lia. cbn.
      rewrite (proj2 (Z.ltb_lt _ _) Hlt). cbn. by rewrite (store_in m) by lia. }
    assert (shift_round 0 m⟦1⟧ 1 (m⟦1 := m⟦0⟧⟧, -1) = Undef) as H2.
    { unfold shift_round. by rewrite load_out by lia. }
    change (1 - 1) with 0. rewrite loop_S, H1. cbn. by rewrite loop_S, H2. }
  unfold array_fuel. by rewrite loop_S, Hu.
Qed.

Lemma cavan_insert_sort_reads_before_witness : cavan_insert_sort [5; 3; 9] 0 3 = Undef.
Proof. apply (cavan_insert_sort_reads_before [5; 3; 9] 3); done. Defined.

(** [cavan_shell_short] without a list of steps meets the contract of a sort,
    provided [size / 2] cells before the array can be read: its passes run with
    every step from [size / 2] down to 1. *)
Theorem cavan_shell_short_sorts m a size :
  0 ≤ size < 2 ^ 31 → size / 2 ≤ a → a + size ≤ zlen m →
  sorts m a size (cavan_shell_short m a size None).
Proof.
  intros Hs Ha Hl. unfold sorts, cavan_shell_short. rewrite Z.quot_div_nonneg by lia.
  assert (size / 2 ≤ size) as Hhalf by dlia. zcase.
  { split; [apply rearranged_refl|apply sorted_range_short; lia]. }
  apply (wp_loop (λ st : list Z * Z, 0 ≤ st.2 ≤ size / 2 ∧ rearranged m st.1 a (a + size - 1) ∧
           (st.2 = 0 → sorted_range st.1 a (a + size - 1))) _ (λ st, Z.to_nat st.2)).
  - intros [m1 step] (Hst & Hr & Hsrt). simpl in *. pose proof (re_zlen _ _ _ _ Hr) as Hl1.
    zcase; wp_go; [|split; [done|apply Hsrt; lia]].
    assert (wp (shell_pass m1 a (a + size) step)
              (λ m', step = 1 → sorted_range m' a (a + size - 1))) as Hp1.
    { destruct (decide (step = 1)) as [->|].
      - eapply wp_mono; [apply shell_pass_sorted; lia|]. auto.
      - eapply wp_mono; [apply (shell_pass_rearranged m1 a (a + size) step); lia|]. done. }
    eapply wp_mono; [apply wp_and; [apply (shell_pass_rearranged m1 a (a + size) step); lia|exact Hp1]|].
    intros m2 [Hr2 Hs2]. wp_go. simpl. split; [|lia]. split; [lia|].
    split; [by eapply rearranged_trans|]. intros ?. apply Hs2. lia.
  - simpl. split; [dlia|]. split; [apply rearranged_refl|dlia].
  - apply array_fuel_lt. simpl. dlia.
Qed.

Lemma cavan_shell_short_sorts_witness :
  sorts [7; 7; 5; 3; 9; 1; 3] 2 5 (cavan_shell_short [7; 7; 5; 3; 9; 1; 3] 2 5 None).
Proof. apply (cavan_shell_short_sorts [7; 7; 5; 3; 9; 1; 3] 2 5); done. Defined.

(** ** Heap sort *)

Lemma build_heap_ok m a size :
  0 ≤ a → 1 ≤ size → a + size ≤ zlen m →
  wp (cavan_build_heap m a size) (λ m', rearranged m m' a (a + size - 1)).
Proof.
  intros Ha Hs Hl. unfold cavan_build_heap.
  apply (wp_loop (λ st : list Z * Z, 0 ≤ st.2 ≤ size - 1 ∧ rearranged m st.1 a (a + size - 1)) _
           (λ st, Z.to_nat st.2)); simpl;
    [|split; [lia|apply rearranged_refl]|apply array_fuel_lt; lia].
  intros [m1 i] [Hi Hr]. simpl in *. pose proof (re_zlen _ _ _ _ Hr) as Hl1.
  zcase; wp_go; [|done]. rewrite Z.shiftr_div_pow2 by lia. change (2 ^ 1) with 2.
  assert (0 ≤ (i - 1) / 2 < i) as Hroot by dlia. wp_go. zcase; wp_go; simpl; (split; [|lia]); (split; [lia|]); [|done].
  eapply rearranged_trans; [exact Hr|]. split; [apply swap_perm; lia|].
  intros k Hk Ho. by rewrite !get_upd_ne by lia.
Qed.

(** One sift moves the hole from the root down to a leaf of the heap of size [i]. *)
Lemma sift_ok m0 m a i tmp :
  0 ≤ a → 0 < i → a + i < zlen m → zlen m = zlen m0 →
  rearranged m0 m⟦a := tmp⟧ a (a + i) →
  wp (loop (array_fuel m) (sift_round a i) (m, 0)) (λ st,
    0 ≤ st.2 < i ∧ rearranged m0 st.1⟦a + st.2 := tmp⟧ a (a + i)).
Proof.
  intros Ha Hi Hl Hl0 Hr.
  apply (wp_loop (λ st : list Z * Z, zlen st.1 = zlen m ∧ 0 ≤ st.2 < i ∧
           rearranged m0 st.1⟦a + st.2 := tmp⟧ a (a + i)) _ (λ st, Z.to_nat (i - st.2))); simpl;
    [|replace (a + 0) with a by lia; repeat split; (done || lia || apply Hr)|apply array_fuel_lt; lia].
  intros [m1 j] (Hl1 & Hj & Hr1). simpl in *. rewrite Z.shiftl_mul_pow2 by lia.
  change (2 ^ 1) with 2. zcase; wp_go; [done|].
  assert (∀ k, j < k < i →
    (zlen m1⟦a + j := m1⟦a + k⟧⟧ = zlen m ∧ 0 ≤ k < i ∧
     rearranged m0 m1⟦a + j := m1⟦a + k⟧⟧⟦a + k := tmp⟧ a (a + i)) ∧
    (Z.to_nat (i - k) < Z.to_nat (i - j))%nat) as Hmove.
  { intros k Hk. split; [|lia]. split; [idx|]. split; [lia|]. apply rearranged_hole; auto; lia. }
  zcase; wp_go; [zcase|]; wp_go; simpl; [|apply Hmove; lia..].
  replace (a + (j * 2 + 1) + 1) with (a + (j * 2 + 1 + 1)) by lia. apply Hmove. lia.
Qed.

Lemma heap_rounds_ok m a size :
  0 ≤ a → 2 ≤ size → a + size ≤ zlen m →
  wp (loop (array_fuel m) (heap_round a) (m, size - 1)) (λ m',
    rearranged m m' a (a + size - 1) ∧ m'⟦a + size - 1⟧ = m⟦a⟧).
Proof.
  intros Ha Hs Hl.
  apply (wp_loop (λ st : list Z * Z, 0 ≤ st.2 ≤ size - 1 ∧ rearranged m st.1 a (a + size - 1) ∧
      (if decide (st.2 = size - 1) then st.1⟦a⟧ = m⟦a⟧ else st.1⟦a + size - 1⟧ = m⟦a⟧)) _
           (λ st, Z.to_nat st.2)); simpl;
    [|split; [lia|split; [apply rearranged_refl|by case_decide]]|apply array_fuel_lt; lia].
  intros [m1 i] (Hi & Hr & Hlast). simpl in *. pose proof (re_zlen _ _ _ _ Hr) as Hl1.
  zcase; wp_go; [|by case_decide; [lia|]].
  eapply wp_mono; [apply (sift_ok m1 m1 a i m1⟦a⟧); try lia|].
  { rewrite upd_get by lia. apply rearranged_refl. }
  intros [m2 j] [Hj Hr2]. simpl in *. pose proof (re_zlen _ _ _ _ Hr2) as Hl2.
  rewrite zlen_upd in Hl2. wp_go. simpl. split; [|lia]. split; [lia|].
  assert (rearranged m1 m2⟦a + j := m2⟦a + i⟧⟧⟦a + i := m1⟦a⟧⟧ a (a + i)) as Hr3.
  { apply rearranged_hole; auto; lia. }
  split.
  - eapply rearranged_trans; [exact Hr|]. eapply rearranged_mono; [exact Hr3|lia..].
  - rewrite decide_False by lia. case_decide as Hd.
    + subst i. replace (a + (size - 1)) with (a + size - 1) by lia.
      rewrite get_upd_eq by idx. done.
    + rewrite (re_outside _ _ _ _ Hr3) by lia. done.
Qed.

(** A non-empty range has a maximum. *)
Lemma list_max_ex m a size :
  1 ≤ size → ∃ p, 0 ≤ p < size ∧ ∀ k, a ≤ k < a + size → m⟦k⟧ ≤ m⟦a + p⟧.
Proof.
  intros Hs. pattern size. apply (Zlt_lower_bound_ind _ 1); [clear size Hs|done].
  intros size IH Hs. destruct (decide (size = 1)) as [->|].
  - exists 0. split; [lia|]. intros k Hk. replace (a + 0) with k by lia. done.
  - destruct (IH (size - 1)) as (p & Hp & Hm); [lia|].
    destruct (Z.le_gt_cases m⟦a + (size - 1)⟧ m⟦a + p⟧).
    + exists p. split; [lia|]. intros k Hk.
      destruct (decide (k = a + (size - 1))) as [->|]; [lia|apply Hm; lia].
    + exists (size - 1). split; [lia|]. intros k Hk.
      destruct (decide (k = a + (size - 1))) as [->|]; [lia|]. specialize (Hm k ltac:(lia)). lia.
Qed.

(** The pairwise exchanges carry a maximum to the root. *)
Lemma build_heap_max m a size :
  0 ≤ a → 1 ≤ size → a + size ≤ zlen m →
  wp (cavan_build_heap m a size) (λ m', ∀ k, a ≤ k < a + size → m⟦k⟧ ≤ m'⟦a⟧).
Proof.
  intros Ha Hs Hl. unfold cavan_build_heap.
  apply (wp_loop (λ st : list Z * Z, 0 ≤ st.2 ≤ size - 1 ∧ zlen st.1 = zlen m ∧
      ∃ p, 0 ≤ p ≤ st.2 ∧ ∀ k, a ≤ k < a + size → m⟦k⟧ ≤ st.1⟦a + p⟧) _
           (λ st, Z.to_nat st.2)); simpl.
  - intros [m1 i] (Hi & Hl1 & p & Hp & Hmax). simpl in *. zcase; wp_go.
    2:{ intros k Hk. replace p with 0 in Hmax by lia. replace (a + 0) with a in Hmax by lia. auto. }
    rewrite Z.shiftr_div_pow2 by lia. change (2 ^ 1) with 2.
    assert (0 ≤ (i - 1) / 2 < i) as Hroot by dlia. wp_go.
    zcase; wp_go; simpl; (split; [|lia]); (split; [lia|]); (split; [idx|]).
    + destruct (decide (p = i)) as [->|].
      * exists ((i - 1) / 2). split; [lia|]. intros k Hk. rewrite get_upd_eq by idx. auto.
      * destruct (decide (p = (i - 1) / 2)) as [->|].
        -- exists ((i - 1) / 2). split; [lia|]. intros k Hk. rewrite get_upd_eq by idx.
           specialize (Hmax k Hk). lia.
        -- exists p. split; [lia|]. intros k Hk. rewrite !get_upd_ne by lia. auto.
    + destruct (decide (p = i)) as [->|]; [|exists p; split; [lia|auto]].
      exists ((i - 1) / 2). split; [lia|]. intros k Hk. specialize (Hmax k Hk). lia.
  - split; [lia|]. split; [done|]. destruct (list_max_ex m a size) as (p & Hp & Hm); [lia..|].
    exists p. split; [lia|done].
  - apply array_fuel_lt. lia.
Qed.

(** [cavan_heap_sort] stays inside the array, terminates, permutes the range and
    puts a maximum of it into the last cell. *)
Theorem cavan_heap_sort_max m a size :
  0 ≤ a → 1 ≤ size → a + size ≤ zlen m →
  wp (cavan_heap_sort m a size) (λ m', rearranged m m' a (a + size - 1) ∧
    ∀ k, a ≤ k < a + size → m'⟦k⟧ ≤ m'⟦a + size - 1⟧).
Proof.
  intros Ha Hs Hl. unfold cavan_heap_sort. zcase.
  { split; [apply rearranged_refl|]. intros k Hk. by replace k with (a + size - 1) by lia. }
  wp_go. eapply wp_mono; [apply wp_and; [apply build_heap_ok|apply build_heap_max]; lia|].
  intros m1 [Hr Hm]. pose proof (re_zlen _ _ _ _ Hr).
  eapply wp_mono; [apply heap_rounds_ok; lia|]. intros m2 [Hr2 Hlast].
  split; [by eapply rearranged_trans|]. rewrite Hlast. intros k Hk.
  apply (rearranged_forall (λ z, z ≤ m1⟦a⟧) m m2 a (a + size - 1)); [|lia..| |lia].
  - by eapply rearranged_trans.
  - intros i Hi. apply Hm. lia.
Qed.

Lemma cavan_heap_sort_max_witness :
  wp (cavan_heap_sort [3; 1; 2] 0 3) (λ m', rearranged [3; 1; 2] m' 0 (0 + 3 - 1) ∧
    ∀ k, 0 ≤ k < 0 + 3 → m'⟦k⟧ ≤ m'⟦0 + 3 - 1⟧).
Proof. apply (cavan_heap_sort_max [3; 1; 2] 0 3); done. Defined.

(** [cavan_heap_sort] does not sort: its heap is built by one pass of
    pairwise exchanges and the element that refills the hole is not sifted.
    Three elements in the order 3, 1, 2 come out as 2, 1, 3. *)
Theorem cavan_heap_sort_unsorted :
  cavan_heap_sort [3; 1; 2] 0 3 = Ok [2; 1; 3] ∧
  ¬ sorts [3; 1; 2] 0 3 (cavan_heap_sort [3; 1; 2] 0 3).
Proof.
  split; [done|]. intros [_ Hs].
  pose proof (Hs 0 1 ltac:(lia) ltac:(lia) ltac:(lia)) as Hle. by apply Hle.
Qed.
