(* ===== verification/Stack.v ===== *)
(** Stack: the array stacks of src/lib/stack.c and src/include/cavan/stack.h.

    [general_stack] holds pointers ([Z], NULL is 0) under four disciplines:
    full/empty (does [top] point at the top element or at the free slot) and
    rising/descending (which end of the buffer is the bottom).  [stack_ops] is
    the interface a client uses and [StackLaws] what it may assume; each
    discipline has its instance.  A NULL buffer is a buffer without cells. *)
From S2P Require Import Prelude.

(** ** General stacks *)

Record general_stack := mk_general_stack {
  gs_buffer : list Z;
  gs_top : Z;
  gs_max_count : Z }.

Section general.
Implicit Types (s : general_stack) (count data : Z).

(** [mem] is what [malloc] gave for [count] pointers; [None] is NULL.  The
    field [top] is not touched. *)
Definition general_stack_init (mem : option (list Z)) s count : Z * general_stack :=
  match mem with
  | None => (- ENOMEM, mk_general_stack [] (gs_top s) (gs_max_count s))
  | Some buffer => (0, mk_general_stack buffer (gs_top s) count)
  end.

Definition set_top s top := mk_general_stack (gs_buffer s) top (gs_max_count s).

Definition general_stack_init_fr mem s count : Z * general_stack :=
  let '(ret, s) := general_stack_init mem s count in
  if ret <? 0 then (ret, s) else (0, set_top s (-1)).
Definition general_stack_init_er mem s count : Z * general_stack :=
  let '(ret, s) := general_stack_init mem s count in
  if ret <? 0 then (ret, s) else (0, set_top s 0).
Definition general_stack_init_fd mem s count : Z * general_stack :=
  let '(ret, s) := general_stack_init mem s count in
  if ret <? 0 then (ret, s) else (0, set_top s count).
Definition general_stack_init_ed mem s count : Z * general_stack :=
  let '(ret, s) := general_stack_init mem s count in
  if ret <? 0 then (ret, s) else (0, set_top s (count - 1)).

Definition general_stack_free s : general_stack := mk_general_stack [] (gs_top s) 0.

Definition general_stack_empty_fr s : bool := gs_top s <? 0.
Definition general_stack_empty_er s : bool := gs_top s <=? 0.
Definition general_stack_empty_fd s : bool := gs_max_count s <=? gs_top s.
Definition general_stack_empty_ed s : bool := gs_max_count s - 1 <=? gs_top s.
Definition general_stack_full_fr s : bool := gs_max_count s - 1 <=? gs_top s.
Definition general_stack_full_er s : bool := gs_max_count s <=? gs_top s.
Definition general_stack_full_fd s : bool := gs_top s <=? 0.
Definition general_stack_full_ed s : bool := gs_top s <? 0.

Definition put s index data top : cres (Z * general_stack) :=
  b ← store (gs_buffer s) index data; mret (0, mk_general_stack b top (gs_max_count s)).
Definition take_at s index top : cres (Z * general_stack) :=
  v ← load (gs_buffer s) index; mret (v, set_top s top).

Definition general_stack_push_fr s data : cres (Z * general_stack) :=
  if general_stack_full_fr s then mret (- ENOMEM, s)
  else put s (gs_top s + 1) data (gs_top s + 1).
Definition general_stack_push_er s data : cres (Z * general_stack) :=
  if general_stack_full_er s then mret (- ENOMEM, s)
  else put s (gs_top s) data (gs_top s + 1).
Definition general_stack_push_fd s data : cres (Z * general_stack) :=
  if general_stack_full_fd s then mret (- ENOMEM, s)
  else put s (gs_top s - 1) data (gs_top s - 1).
Definition general_stack_push_ed s data : cres (Z * general_stack) :=
  if general_stack_full_ed s then mret (- ENOMEM, s)
  else put s (gs_top s) data (gs_top s - 1).

Definition general_stack_pop_fr s : cres (Z * general_stack) :=
  if general_stack_empty_fr s then mret (0, s) else take_at s (gs_top s) (gs_top s - 1).
Definition general_stack_pop_er s : cres (Z * general_stack) :=
  if general_stack_empty_er s then mret (0, s) else take_at s (gs_top s - 1) (gs_top s - 1).
Definition general_stack_pop_fd s : cres (Z * general_stack) :=
  if general_stack_empty_fd s then mret (0, s) else take_at s (gs_top s) (gs_top s + 1).
Definition general_stack_pop_ed s : cres (Z * general_stack) :=
  if general_stack_empty_ed s then mret (0, s) else take_at s (gs_top s + 1) (gs_top s + 1).

Definition general_stack_get_top_fr s : cres Z :=
  if general_stack_empty_fr s then mret 0 else load (gs_buffer s) (gs_top s).
Definition general_stack_get_top_er s : cres Z :=
  if general_stack_empty_er s then mret 0 else load (gs_buffer s) (gs_top s - 1).
Definition general_stack_get_top_fd s : cres Z :=
  if general_stack_empty_fd s then mret 0 else load (gs_buffer s) (gs_top s).
Definition general_stack_get_top_ed s : cres Z :=
  if general_stack_empty_ed s then mret 0 else load (gs_buffer s) (gs_top s + 1).
End general.

(** ** Stacks of characters and of doubles *)

(** [letter_stack] and [double_stack] are the empty/rising discipline over
    another element type, with the element returned through a pointer ([None]
    when nothing is written through it). *)
Record typed_stack (A : Type) := mk_typed_stack {
  ts_buffer : list A;
  ts_top : Z;
  ts_max_count : Z }.
Arguments mk_typed_stack {A}.
Arguments ts_buffer {A}.
Arguments ts_top {A}.
Arguments ts_max_count {A}.

Section typed.
Context {A : Type} `{Inhabited A}.
Implicit Types (s : typed_stack A).

Definition typed_stack_init (mem : option (list A)) s (count : Z) : Z * typed_stack A :=
  match mem with
  | None => (- ENOMEM, mk_typed_stack [] (ts_top s) (ts_max_count s))
  | Some buffer => (0, mk_typed_stack buffer 0 count)
  end.
Definition typed_stack_is_empty s : bool := ts_top s <=? 0.
Definition typed_stack_is_full s : bool := ts_max_count s <=? ts_top s.
Definition typed_stack_push s (data : A) : cres (Z * typed_stack A) :=
  if typed_stack_is_full s then mret (- ENOMEM, s)
  else
    b ← store (ts_buffer s) (ts_top s) data;
    mret (0, mk_typed_stack b (ts_top s + 1) (ts_max_count s)).
Definition typed_stack_pop s : cres (Z * option A * typed_stack A) :=
  if typed_stack_is_empty s then mret (- ENOMEM, None, s)
  else
    v ← load (ts_buffer s) (ts_top s - 1);
    mret (0, Some v, mk_typed_stack (ts_buffer s) (ts_top s - 1) (ts_max_count s)).
Definition typed_stack_get_top s : cres (Z * option A) :=
  if typed_stack_is_empty s then mret (- ENOMEM, None)
  else v ← load (ts_buffer s) (ts_top s - 1); mret (0, Some v).
End typed.

Definition letter_stack_init := @typed_stack_init Z.
Definition letter_stack_is_empty := @typed_stack_is_empty Z.
Definition letter_stack_is_full := @typed_stack_is_full Z.
Definition letter_stack_push := @typed_stack_push Z.
Definition letter_stack_pop := @typed_stack_pop Z _.
Definition letter_stack_get_top := @typed_stack_get_top Z _.

(** ** Stacks of memory blocks *)

(** A block pushed with a size is copied ([msn_bytes]: the copy [space] points
    to); with size 0 the pointer itself is kept in [msn_space]. *)
Record memory_stack_node := mk_memory_stack_node {
  msn_space : Z;
  msn_bytes : list Z;
  msn_size : Z }.
#[export] Instance memory_stack_node_inhabited : Inhabited memory_stack_node :=
  populate (mk_memory_stack_node 0 [] 0).

(** What the caller of pop and get_top sees: NULL, the stored pointer, or its
    own buffer filled with the copied bytes, and the size. *)
Inductive memory_out :=
| OutNull
| OutPtr (mem : Z) (size : Z)
| OutCopy (bytes : list Z) (size : Z).

Abbreviation memory_stack := (typed_stack memory_stack_node).

Section memory.
Implicit Types (s : memory_stack) (node : memory_stack_node).

(** [space] is what [malloc (size)] gives (0 is NULL); [bytes] are the
    [size] bytes at [mem]. *)
Definition memory_stack_node_init (space : Z) (mem : Z) (bytes : list Z) (size : Z)
    : Z * option memory_stack_node :=
  if negb (size =? 0) then
    if space =? 0 then (- ENOMEM, None)
    else (0, Some (mk_memory_stack_node space bytes size))
  else (0, Some (mk_memory_stack_node mem [] 0)).
Definition memory_stack_node_get node : memory_out :=
  if negb (msn_size node =? 0) then OutCopy (msn_bytes node) (msn_size node)
  else OutPtr (msn_space node) (msn_size node).
(** Also the block that [free] is called on, if any. *)
Definition memory_stack_node_free node : memory_out * option Z :=
  if negb (msn_size node =? 0)
  then (OutCopy (msn_bytes node) (msn_size node), Some (msn_space node))
  else (OutPtr (msn_space node) (msn_size node), None).
Definition memory_stack_push (space : Z) s mem bytes size : cres (Z * memory_stack) :=
  if typed_stack_is_full s then mret (- ENOMEM, s)
  else
    match memory_stack_node_init space mem bytes size with
    | (ret, Some node) =>
      b ← store (ts_buffer s) (ts_top s) node;
      mret (0, mk_typed_stack b (ts_top s + 1) (ts_max_count s))
    | (ret, None) => mret (ret, s)
    end.
Definition memory_stack_pop s : cres (memory_out * option Z * memory_stack) :=
  if typed_stack_is_empty s then mret (OutNull, None, s)
  else
    let s := mk_typed_stack (ts_buffer s) (ts_top s - 1) (ts_max_count s) in
    node ← load (ts_buffer s) (ts_top s);
    mret (memory_stack_node_free node, s).
Definition memory_stack_get_top s : cres memory_out :=
  if typed_stack_is_empty s then mret OutNull
  else node ← load (ts_buffer s) (ts_top s - 1); mret (memory_stack_node_get node).
(** The blocks that [memory_stack_free] frees, the buffer aside. *)
Definition memory_stack_free s : list Z :=
  omap (λ node, if negb (msn_size node =? 0) then Some (msn_space node) else None)
    (take (Z.to_nat (ts_top s)) (ts_buffer s)).
End memory.

(** ** The interface *)

(** The operations a client of a general stack calls. *)
Record stack_ops := {
  op_init : option (list Z) → general_stack → Z → Z * general_stack;
  op_push : general_stack → Z → cres (Z * general_stack);
  op_pop : general_stack → cres (Z * general_stack);
  op_get_top : general_stack → cres Z }.

(** What the operations promise: [stack_rep s cap l] says that [s] holds the
    elements [l], the top first, and has room for [cap]. *)
Class StackLaws (ops : stack_ops) := {
  stack_rep : general_stack → Z → list Z → Prop;
  stack_rep_cap s cap l : stack_rep s cap l → zlen l ≤ cap;
  stack_init_ok mem s cap : 0 ≤ cap → zlen mem = cap →
    ∃ s', op_init ops (Some mem) s cap = (0, s') ∧ stack_rep s' cap [];
  stack_init_nomem s cap : (op_init ops None s cap).1 = - ENOMEM;
  stack_push_ok s cap l x : stack_rep s cap l → zlen l < cap →
    wp (op_push ops s x) (λ r, r.1 = 0 ∧ stack_rep r.2 cap (x :: l));
  stack_push_full s cap l x : stack_rep s cap l → zlen l = cap →
    op_push ops s x = Ok (- ENOMEM, s);
  stack_pop_ok s cap l x : stack_rep s cap (x :: l) →
    wp (op_pop ops s) (λ r, r.1 = x ∧ stack_rep r.2 cap l);
  stack_pop_empty s cap : stack_rep s cap [] → op_pop ops s = Ok (0, s);
  stack_top_ok s cap l x : stack_rep s cap (x :: l) → op_get_top ops s = Ok x;
  stack_top_empty s cap : stack_rep s cap [] → op_get_top ops s = Ok 0 }.

Definition ops_fr := Build_stack_ops general_stack_init_fr general_stack_push_fr
  general_stack_pop_fr general_stack_get_top_fr.
Definition ops_er := Build_stack_ops general_stack_init_er general_stack_push_er
  general_stack_pop_er general_stack_get_top_er.
Definition ops_fd := Build_stack_ops general_stack_init_fd general_stack_push_fd
  general_stack_pop_fd general_stack_get_top_fd.
Definition ops_ed := Build_stack_ops general_stack_init_ed general_stack_push_ed
  general_stack_pop_ed general_stack_get_top_ed.

(** ** The disciplines implement the interface *)

(** Rising stacks keep the elements in the first cells, the top last;
    [off] is 1 when [top] is the index of the top element. *)
Record rising {A} `{Inhabited A} (off : Z) (buffer : list A) (top cap : Z) (l : list A) : Prop := {
  ri_buffer : zlen buffer = cap;
  ri_room : zlen l ≤ cap;
  ri_top : top = zlen l - off;
  ri_cells : ∀ i, 0 ≤ i < zlen l → buffer⟦zlen l - 1 - i⟧ = l⟦i⟧ }.
(** Descending stacks keep them in the last cells, the top first. *)
Record descending (off : Z) (buffer : list Z) (top cap : Z) (l : list Z) : Prop := {
  de_buffer : zlen buffer = cap;
  de_room : zlen l ≤ cap;
  de_top : top = cap - zlen l - off;
  de_cells : ∀ i, 0 ≤ i < zlen l → buffer⟦cap - zlen l + i⟧ = l⟦i⟧ }.

Section cells.
Context {A : Type} `{Inhabited A}.

Lemma rising_push off (buffer : list A) top cap l x :
  rising off buffer top cap l → zlen l < cap →
  0 ≤ top + off < zlen buffer ∧
  rising off (buffer⟦top + off := x⟧) (top + 1) cap (x :: l).
Proof.
  intros [Hb Hr Ht Hc] Hl. pose proof (zlen_nonneg l).
  split; [lia|]. split; [idx|idx|idx|].
  rewrite zlen_cons. intros i Hi. subst top.
  destruct (decide (i = 0)) as [->|].
  - rewrite get_cons_0, get_upd by lia. by rewrite decide_True by lia.
  - rewrite get_cons_pos, get_upd_ne by lia. rewrite <-Hc by lia. f_equal. lia.
Qed.
Lemma rising_pop off (buffer : list A) top cap l x :
  rising off buffer top cap (x :: l) →
  0 ≤ top + off - 1 < zlen buffer ∧ buffer⟦top + off - 1⟧ = x ∧
  rising off buffer (top - 1) cap l.
Proof.
  intros [Hb Hr Ht Hc]. rewrite zlen_cons in *. pose proof (zlen_nonneg l).
  split; [lia|]. split.
  - specialize (Hc 0). rewrite get_cons_0 in Hc. rewrite <-Hc by lia. f_equal. lia.
  - split; [done|lia..|]. intros i Hi. specialize (Hc (i + 1) ltac:(lia)).
    rewrite get_cons_pos in Hc by lia. replace (i + 1 - 1) with i in Hc by lia.
    rewrite <-Hc. f_equal. lia.
Qed.
End cells.

Lemma descending_push off buffer top cap l x :
  descending off buffer top cap l → zlen l < cap →
  0 ≤ top + off - 1 < zlen buffer ∧
  descending off (buffer⟦top + off - 1 := x⟧) (top - 1) cap (x :: l).
Proof.
  intros [Hb Hr Ht Hc] Hl. pose proof (zlen_nonneg l).
  split; [lia|]. split; [idx|idx|idx|].
  rewrite zlen_cons. intros i Hi. subst top.
  destruct (decide (i = 0)) as [->|].
  - rewrite get_cons_0, get_upd by lia. by rewrite decide_True by lia.
  - rewrite get_cons_pos, get_upd_ne by lia. rewrite <-Hc by lia. f_equal. lia.
Qed.
Lemma descending_pop off buffer top cap l x :
  descending off buffer top cap (x :: l) →
  0 ≤ top + off < zlen buffer ∧ buffer⟦top + off⟧ = x ∧ descending off buffer (top + 1) cap l.
Proof.
  intros [Hb Hr Ht Hc]. rewrite zlen_cons in *. pose proof (zlen_nonneg l).
  split; [lia|]. split.
  - specialize (Hc 0). rewrite get_cons_0 in Hc. rewrite <-Hc by lia. f_equal. lia.
  - split; [done|lia..|]. intros i Hi. specialize (Hc (i + 1) ltac:(lia)).
    rewrite get_cons_pos in Hc by lia. replace (i + 1 - 1) with i in Hc by lia.
    rewrite <-Hc. f_equal. lia.
Qed.

Definition gs_rising off s cap l := gs_max_count s = cap ∧ rising off (gs_buffer s) (gs_top s) cap l.
Definition gs_descending off s cap l :=
  gs_max_count s = cap ∧ descending off (gs_buffer s) (gs_top s) cap l.

(** Solving one law: unfold the operation, decide its guard by the position of
    [top], and use the lemma for the cells. *)
Ltac stack_facts :=
  repeat match goal with
  | H : gs_rising _ _ _ _ |- _ => destruct H
  | H : gs_descending _ _ _ _ |- _ => destruct H
  | H : rising _ _ _ _ ?l |- _ =>
    lazymatch goal with
    | _ : _ = zlen l - _ |- _ => fail
    | _ => pose proof (ri_top _ _ _ _ _ H); pose proof (ri_room _ _ _ _ _ H);
           pose proof (ri_buffer _ _ _ _ _ H); pose proof (zlen_nonneg l)
    end
  | H : descending _ _ _ _ ?l |- _ =>
    lazymatch goal with
    | _ : _ = _ - zlen l - _ |- _ => fail
    | _ => pose proof (de_top _ _ _ _ _ H); pose proof (de_room _ _ _ _ _ H);
           pose proof (de_buffer _ _ _ _ _ H); pose proof (zlen_nonneg l)
    end
  end; rewrite ?zlen_cons, ?zlen_nil in *.
Ltac stack_norm :=
  rewrite ?Z.add_0_r in *;
  repeat match goal with
  | H : context [?t + 1 - 1] |- _ => replace (t + 1 - 1) with t in H by lia
  | |- context [?t + 1 - 1] => replace (t + 1 - 1) with t by lia
  end.
(** [stack_guard]: the operation takes the branch the length of [l] decides. *)
Ltac stack_guard :=
  cbn;
  unfold general_stack_push_fr, general_stack_push_er, general_stack_push_fd, general_stack_push_ed,
    general_stack_pop_fr, general_stack_pop_er, general_stack_pop_fd, general_stack_pop_ed,
    general_stack_get_top_fr, general_stack_get_top_er, general_stack_get_top_fd,
    general_stack_get_top_ed, general_stack_full_fr, general_stack_full_er, general_stack_full_fd,
    general_stack_full_ed, general_stack_empty_fr, general_stack_empty_er, general_stack_empty_fd,
    general_stack_empty_ed, put, take_at;
  zcase; try lia; [idtac].

Section rising_laws.
Variables (s : general_stack) (cap : Z) (l : list Z) (x : Z).

Lemma push_fr_ok : gs_rising 1 s cap l → zlen l < cap →
  wp (general_stack_push_fr s x) (λ r, r.1 = 0 ∧ gs_rising 1 r.2 cap (x :: l)).
Proof.
  intros Hs Hl. stack_facts. destruct (rising_push _ _ _ _ _ x H0 Hl).
  stack_guard. by wp_go.
Qed.
Lemma push_er_ok : gs_rising 0 s cap l → zlen l < cap →
  wp (general_stack_push_er s x) (λ r, r.1 = 0 ∧ gs_rising 0 r.2 cap (x :: l)).
Proof.
  intros Hs Hl. stack_facts. destruct (rising_push _ _ _ _ _ x H0 Hl).
  stack_norm. stack_guard. by wp_go.
Qed.
Lemma push_fd_ok : gs_descending 0 s cap l → zlen l < cap →
  wp (general_stack_push_fd s x) (λ r, r.1 = 0 ∧ gs_descending 0 r.2 cap (x :: l)).
Proof.
  intros Hs Hl. stack_facts. destruct (descending_push _ _ _ _ _ x H0 Hl).
  stack_norm. stack_guard. by wp_go.
Qed.
Lemma push_ed_ok : gs_descending 1 s cap l → zlen l < cap →
  wp (general_stack_push_ed s x) (λ r, r.1 = 0 ∧ gs_descending 1 r.2 cap (x :: l)).
Proof.
  intros Hs Hl. stack_facts. destruct (descending_push _ _ _ _ _ x H0 Hl).
  stack_norm. stack_guard. by wp_go.
Qed.

Lemma pop_fr_ok : gs_rising 1 s cap (x :: l) →
  wp (general_stack_pop_fr s) (λ r, r.1 = x ∧ gs_rising 1 r.2 cap l) ∧
  general_stack_get_top_fr s = Ok x.
Proof.
  intros Hs. stack_facts. destruct (rising_pop _ _ _ _ _ _ H0) as (? & <- & ?).
  stack_norm. split; stack_guard; [by wp_go|by apply load_in].
Qed.
Lemma pop_er_ok : gs_rising 0 s cap (x :: l) →
  wp (general_stack_pop_er s) (λ r, r.1 = x ∧ gs_rising 0 r.2 cap l) ∧
  general_stack_get_top_er s = Ok x.
Proof.
  intros Hs. stack_facts. destruct (rising_pop _ _ _ _ _ _ H0) as (? & <- & ?).
  stack_norm. split; stack_guard; [by wp_go|by apply load_in].
Qed.
Lemma pop_fd_ok : gs_descending 0 s cap (x :: l) →
  wp (general_stack_pop_fd s) (λ r, r.1 = x ∧ gs_descending 0 r.2 cap l) ∧
  general_stack_get_top_fd s = Ok x.
Proof.
  intros Hs. stack_facts. destruct (descending_pop _ _ _ _ _ _ H0) as (? & <- & ?).
  stack_norm. split; stack_guard; [by wp_go|by apply load_in].
Qed.
Lemma pop_ed_ok : gs_descending 1 s cap (x :: l) →
  wp (general_stack_pop_ed s) (λ r, r.1 = x ∧ gs_descending 1 r.2 cap l) ∧
  general_stack_get_top_ed s = Ok x.
Proof.
  intros Hs. stack_facts. destruct (descending_pop _ _ _ _ _ _ H0) as (? & <- & ?).
  stack_norm. split; stack_guard; [by wp_go|by apply load_in].
Qed.
End rising_laws.

Lemma stack_empty_ok s cap :
  (gs_rising 1 s cap [] → general_stack_pop_fr s = Ok (0, s) ∧ general_stack_get_top_fr s = Ok 0) ∧
  (gs_rising 0 s cap [] → general_stack_pop_er s = Ok (0, s) ∧ general_stack_get_top_er s = Ok 0) ∧
  (gs_descending 0 s cap [] → general_stack_pop_fd s = Ok (0, s) ∧ general_stack_get_top_fd s = Ok 0) ∧
  (gs_descending 1 s cap [] → general_stack_pop_ed s = Ok (0, s) ∧ general_stack_get_top_ed s = Ok 0).
Proof. repeat split; stack_facts; by stack_guard. Qed.

Lemma stack_full_ok s cap l x :
  zlen l = cap →
  (gs_rising 1 s cap l → general_stack_push_fr s x = Ok (- ENOMEM, s)) ∧
  (gs_rising 0 s cap l → general_stack_push_er s x = Ok (- ENOMEM, s)) ∧
  (gs_descending 0 s cap l → general_stack_push_fd s x = Ok (- ENOMEM, s)) ∧
  (gs_descending 1 s cap l → general_stack_push_ed s x = Ok (- ENOMEM, s)).
Proof. intros Hl. repeat split; intros Hs; stack_facts; by stack_guard. Qed.

(** A fresh buffer is the empty stack, under every discipline. *)
Lemma stack_fresh_ok (mem : list Z) cap :
  0 ≤ cap → zlen mem = cap →
  gs_rising 1 (mk_general_stack mem (-1) cap) cap [] ∧
  gs_rising 0 (mk_general_stack mem 0 cap) cap [] ∧
  gs_descending 0 (mk_general_stack mem cap cap) cap [] ∧
  gs_descending 1 (mk_general_stack mem (cap - 1) cap) cap [].
Proof.
  intros Hc Hm. unfold gs_rising, gs_descending. simpl.
  repeat split; intros; rewrite ?zlen_nil in *; lia.
Qed.

(** One field of an instance. *)
Ltac stack_law :=
  cbn; intros;
  first
  [ done
  | match goal with H : gs_rising _ _ _ _ |- _ => by destruct H as [_ []] end
  | match goal with H : gs_descending _ _ _ _ |- _ => by destruct H as [_ []] end
  | eexists; split; [done|]; by eapply stack_fresh_ok
  | by apply push_fr_ok | by apply push_er_ok | by apply push_fd_ok | by apply push_ed_ok
  | by eapply stack_full_ok | by eapply stack_empty_ok
  | by apply pop_fr_ok | by apply pop_er_ok | by apply pop_fd_ok | by apply pop_ed_ok
  | by eapply pop_fr_ok | by eapply pop_er_ok | by eapply pop_fd_ok | by eapply pop_ed_ok ].

#[export] Instance laws_fr : StackLaws ops_fr.
Proof. refine {| stack_rep := gs_rising 1 |}; stack_law. Defined.
#[export] Instance laws_er : StackLaws ops_er.
Proof. refine {| stack_rep := gs_rising 0 |}; stack_law. Defined.
#[export] Instance laws_fd : StackLaws ops_fd.
Proof. refine {| stack_rep := gs_descending 0 |}; stack_law. Defined.
#[export] Instance laws_ed : StackLaws ops_ed.
Proof. refine {| stack_rep := gs_descending 1 |}; stack_law. Defined.

(** ** Theorems *)

(** A sequence of pushes and pops, as a client issues them. *)
Inductive stack_cmd := CPush (x : Z) | CPop | CTop.

Fixpoint run_stack (ops : stack_ops) (s : general_stack) (cmds : list stack_cmd)
    : cres (list Z * general_stack) :=
  match cmds with
  | [] => mret ([], s)
  | CPush x :: cmds =>
    '(r, s) ← op_push ops s x; '(rs, s) ← run_stack ops s cmds; mret (r :: rs, s)
  | CPop :: cmds =>
    '(r, s) ← op_pop ops s; '(rs, s) ← run_stack ops s cmds; mret (r :: rs, s)
  | CTop :: cmds =>
    r ← op_get_top ops s; '(rs, s) ← run_stack ops s cmds; mret (r :: rs, s)
  end.

(** The same on a bounded list. *)
Fixpoint spec_stack (cap : Z) (l : list Z) (cmds : list stack_cmd) : list Z * list Z :=
  match cmds with
  | [] => ([], l)
  | CPush x :: cmds =>
    let '(r, l) := if zlen l <? cap then (0, x :: l) else (- ENOMEM, l) in
    let '(rs, l) := spec_stack cap l cmds in (r :: rs, l)
  | CPop :: cmds =>
    let '(r, l) := match l with [] => (0, []) | x :: l => (x, l) end in
    let '(rs, l) := spec_stack cap l cmds in (r :: rs, l)
  | CTop :: cmds =>
    let r := match l with [] => 0 | x :: _ => x end in
    let '(rs, l) := spec_stack cap l cmds in (r :: rs, l)
  end.

Section refinement.
Context {ops : stack_ops} {L : StackLaws ops}.

Lemma run_stack_refines cmds : ∀ s cap l,
  stack_rep s cap l →
  wp (run_stack ops s cmds) (λ r,
    r.1 = (spec_stack cap l cmds).1 ∧ stack_rep r.2 cap (spec_stack cap l cmds).2).
Proof.
  induction cmds as [|c cmds IH]; intros s cap l Hs; [done|].
  assert (∀ (r : Z) (s' : general_stack) (l' : list Z), stack_rep s' cap l' →
    wp ('(rs, s) ← run_stack ops s' cmds; mret (r :: rs, s)) (λ q,
      q.1 = (let '(rs, l) := spec_stack cap l' cmds in (r :: rs, l)).1 ∧
      stack_rep q.2 cap (let '(rs, l) := spec_stack cap l' cmds in (r :: rs, l)).2)) as Hrest.
  { intros r s' l' Hs'. apply wp_bind. eapply wp_mono; [by apply IH|].
    intros [rs s2]. simpl. destruct (spec_stack cap l' cmds); simpl.
    by intros [-> ?]. }
  destruct c as [x| |]; simpl; apply wp_bind.
  - pose proof (stack_rep_cap _ _ _ Hs). zcase.
    + eapply wp_mono; [by eapply stack_push_ok|]. intros [r s'] [? Hs']. simpl in *. subst r.
      by apply Hrest.
    + rewrite (stack_push_full _ cap l) by (done || lia). by apply Hrest.
  - destruct l as [|x l].
    + rewrite (stack_pop_empty _ _ Hs). by apply Hrest.
    + eapply wp_mono; [by eapply stack_pop_ok|]. intros [r s'] [? Hs']. simpl in *. subst r.
      by apply Hrest.
  - destruct l as [|x l].
    + rewrite (stack_top_empty _ _ Hs). by apply Hrest.
    + rewrite (stack_top_ok _ _ _ _ Hs). by apply Hrest.
Qed.

Lemma init_run_refines mem s0 cap cmds :
  0 ≤ cap → zlen mem = cap →
  ∃ s, op_init ops (Some mem) s0 cap = (0, s) ∧
    wp (run_stack ops s cmds) (λ r, r.1 = (spec_stack cap [] cmds).1).
Proof.
  intros Hc Hm. destruct (stack_init_ok mem s0 cap Hc Hm) as (s & Hi & Hs).
  exists s. split; [done|]. eapply wp_mono; [by apply run_stack_refines|]. by intros r [? _].
Qed.
End refinement.

(** C5: under each of the four disciplines of [general_stack], initialising
    with a capacity and issuing any sequence of pushes, pops and top reads
    returns exactly what a list bounded by the capacity returns: no access
    leaves the buffer, a push on a full stack answers -ENOMEM and changes
    nothing, and NULL comes from an empty one. *)
Theorem general_stacks_refine_bounded_list mem s0 cap cmds :
  0 ≤ cap → zlen mem = cap →
  Forall (λ ops, ∃ s, op_init ops (Some mem) s0 cap = (0, s) ∧
            wp (run_stack ops s cmds) (λ r, r.1 = (spec_stack cap [] cmds).1))
    [ops_fr; ops_er; ops_fd; ops_ed].
Proof. intros Hc Hm. repeat constructor; by apply init_run_refines. Qed.

Lemma general_stacks_refine_bounded_list_witness :
  Forall (λ ops, ∃ s, op_init ops (Some [7; 7]) (mk_general_stack [] 0 0) 2 = (0, s) ∧
            wp (run_stack ops s [CPush 5; CPush 6; CPush 9; CTop; CPop; CPop; CPop])
               (λ r, r.1 = [0; 0; -12; 6; 6; 5; 0]))
    [ops_fr; ops_er; ops_fd; ops_ed].
Proof.
  apply (general_stacks_refine_bounded_list [7; 7] (mk_general_stack [] 0 0) 2
           [CPush 5; CPush 6; CPush 9; CTop; CPop; CPop; CPop]); done.
Defined.

Definition ts_rep {A} `{Inhabited A} (s : typed_stack A) (cap : Z) (l : list A) : Prop :=
  ts_max_count s = cap ∧ rising 0 (ts_buffer s) (ts_top s) cap l.

Section typed_laws.
Context {A : Type} `{Inhabited A}.
Implicit Types (s : typed_stack A) (l : list A).

Lemma typed_stack_push_ok s cap l x :
  ts_rep s cap l → zlen l < cap →
  wp (typed_stack_push s x) (λ r, r.1 = 0 ∧ ts_rep r.2 cap (x :: l)).
Proof.
  intros [Hm Hr] Hl. pose proof (ri_top _ _ _ _ _ Hr).
  destruct (rising_push _ _ _ _ _ x Hr Hl). rewrite Z.add_0_r in *.
  unfold typed_stack_push, typed_stack_is_full. zcase; [lia|]. by wp_go.
Qed.
Lemma typed_stack_pop_ok s cap l x :
  ts_rep s cap (x :: l) →
  wp (typed_stack_pop s) (λ r, r.1 = (0, Some x) ∧ ts_rep r.2 cap l) ∧
  typed_stack_get_top s = Ok (0, Some x).
Proof.
  intros [Hm Hr]. pose proof (ri_top _ _ _ _ _ Hr) as Ht. rewrite zlen_cons in Ht.
  pose proof (zlen_nonneg l).
  destruct (rising_pop _ _ _ _ _ _ Hr) as (? & Hx & ?). rewrite Z.add_0_r in *. subst x.
  unfold typed_stack_pop, typed_stack_get_top, typed_stack_is_empty.
  split; zcase; try lia; [by wp_go|]. by rewrite load_in.
Qed.
Lemma ts_rep_cap s cap l : ts_rep s cap l → zlen l ≤ cap.
Proof. by intros [_ []]. Qed.
End typed_laws.

(** What a block is pushed as, and what the caller gets back. *)
Definition node_of (space mem : Z) (bytes : list Z) (size : Z) : memory_stack_node :=
  if size =? 0 then mk_memory_stack_node mem [] 0 else mk_memory_stack_node space bytes size.
Definition block_out (mem : Z) (bytes : list Z) (size : Z) : memory_out :=
  if size =? 0 then OutPtr mem 0 else OutCopy bytes size.

(** A block pushed on a memory stack comes back on the next pop (and on a
    read of the top) with its bytes and its size, or as the same pointer when
    its size is 0; the pop frees exactly the copy that the push allocated, and
    the stack below is as it was. *)
Theorem memory_stack_push_pop s cap l space mem bytes size :
  ts_rep s cap l → zlen l < cap → size = 0 ∨ space ≠ 0 →
  wp (memory_stack_push space s mem bytes size) (λ r, r.1 = 0 ∧
    memory_stack_get_top r.2 = Ok (block_out mem bytes size) ∧
    wp (memory_stack_pop r.2) (λ q,
      q.1 = (block_out mem bytes size, if size =? 0 then None else Some space) ∧
      ts_rep q.2 cap l)).
Proof.
  intros Hs Hl Hsp.
  assert (memory_stack_node_init space mem bytes size = (0, Some (node_of space mem bytes size))) as Hn.
  { unfold memory_stack_node_init, node_of. zcase; [done|]. zcase; [lia|done]. }
  pose proof (typed_stack_push_ok _ _ _ (node_of space mem bytes size) Hs Hl) as Hp.
  unfold memory_stack_push. unfold typed_stack_push in Hp. destruct (typed_stack_is_full s); [by destruct Hp|].
  rewrite Hn. apply wp_bind. destruct (store _ _ _) as [b| |]; try done. destruct Hp as [_ Hr].
  simpl in *. split; [done|]. destruct (typed_stack_pop_ok _ _ _ _ Hr) as [Hpop Htop].
  unfold typed_stack_pop, typed_stack_get_top in *. unfold memory_stack_pop, memory_stack_get_top.
  destruct (typed_stack_is_empty _); [by destruct Hpop|]. simpl in *.
  destruct (load _ _) as [v| |]; try done. simpl in *. injection Htop as ->.
  destruct Hpop as [_ Hpop]. unfold memory_stack_node_get, memory_stack_node_free, node_of, block_out.
  destruct (Z.eqb_spec size 0) as [->|Hne]; simpl; [done|].
  by rewrite (proj2 (Z.eqb_neq _ _) Hne).
Qed.

Lemma memory_stack_push_pop_witness :
  let s := mk_typed_stack [mk_memory_stack_node 0 [] 0] 0 1 in
  wp (memory_stack_push 64 s 8 [1; 2; 3] 3) (λ r, r.1 = 0 ∧
    memory_stack_get_top r.2 = Ok (OutCopy [1; 2; 3] 3) ∧
    wp (memory_stack_pop r.2) (λ q, q.1 = (OutCopy [1; 2; 3] 3, Some 64) ∧ ts_rep q.2 1 [])).
Proof.
  intros s. apply (memory_stack_push_pop s 1 [] 64 8 [1; 2; 3] 3); [|done|by right].
  split; [done|]. split; try done. intros i. unfold zlen. simpl. lia.
Defined.
