(* ===== verification/Queue.v ===== *)
(** Queue: the ring buffers of src/lib/queue.c and src/include/cavan/queue.h.

    [list_queue] is a ring of pointers, [cavan_mem_queue] a ring of bytes with
    peek and commit.  Both keep one cell free; [ring] is the contents they
    share.  The thread of [cavan_data_queue] is not modelled here. *)
From S2P Require Import Prelude.

(** ** Pointer queues *)

Record list_queue := mk_list_queue {
  lq_buffer : list Z;
  lq_head : Z;
  lq_tail : Z;
  lq_max_count : Z }.

(** [%] of C, undefined for a zero divisor. *)
Definition c_rem (a b : Z) : cres Z := if b =? 0 then Undef else Ok (Z.rem a b).

(** [mem]: what [malloc] gave for [count] pointers. *)
Definition list_queue_init (mem : option (list Z)) (q : list_queue) (count : Z) : Z * list_queue :=
  match mem with
  | None => (- ENOMEM, mk_list_queue [] (lq_head q) (lq_tail q) (lq_max_count q))
  | Some buffer => (0, mk_list_queue buffer 0 0 count)
  end.

Definition list_queue_free (q : list_queue) : list_queue :=
  mk_list_queue [] (lq_head q) (lq_tail q) 0.

Definition list_queue_empty (q : list_queue) : bool := lq_head q =? lq_tail q.

Definition list_queue_full (q : list_queue) : cres bool :=
  r ← c_rem (lq_head q + 1) (lq_max_count q); mret (r =? lq_tail q).

Definition list_queue_insert (q : list_queue) (data : Z) : cres (Z * list_queue) :=
  full ← list_queue_full q;
  if (full : bool) then mret (- ENOMEM, q)
  else
    b ← store (lq_buffer q) (lq_head q) data;
    head ← c_rem (lq_head q + 1) (lq_max_count q);
    mret (0, mk_list_queue b head (lq_tail q) (lq_max_count q)).

Definition list_queue_remove (q : list_queue) : cres (Z * list_queue) :=
  if list_queue_empty q then mret (0, q)
  else
    data ← load (lq_buffer q) (lq_tail q);
    tail ← c_rem (lq_tail q + 1) (lq_max_count q);
    mret (data, mk_list_queue (lq_buffer q) (lq_head q) tail (lq_max_count q)).

Definition list_queue_get_head_data (q : list_queue) : cres Z :=
  if list_queue_empty q then mret 0 else load (lq_buffer q) (lq_head q).

Definition list_queue_get_tail_data (q : list_queue) : cres Z :=
  if list_queue_empty q then mret 0
  else i ← c_rem (lq_tail q + 1) (lq_max_count q); load (lq_buffer q) i.

(** ** Byte queues *)

(** Pointers are indices into the block [mq_mem] of [size + 1] bytes;
    [mq_lock] is the depth of the recursive lock. *)
Record cavan_mem_queue := mk_mem_queue {
  mq_mem : list Z;
  mq_last : Z;
  mq_head : Z;
  mq_head_peek : Z;
  mq_tail : Z;
  mq_tail_peek : Z;
  mq_lock : Z }.

Definition cavan_mem_queue_init (mem : option (list Z)) (q : cavan_mem_queue) (size : Z)
    : Z * cavan_mem_queue :=
  match mem with
  | None => (- ENOMEM, mk_mem_queue [] (mq_last q) (mq_head q) (mq_head_peek q)
                         (mq_tail q) (mq_tail_peek q) (mq_lock q))
  | Some m => (0, mk_mem_queue m size 0 (mq_head_peek q) 0 (mq_tail_peek q) 0)
  end.

Definition mq_acquire (q : cavan_mem_queue) : cavan_mem_queue :=
  mk_mem_queue (mq_mem q) (mq_last q) (mq_head q) (mq_head_peek q) (mq_tail q) (mq_tail_peek q)
    (mq_lock q + 1).
Definition mq_release (q : cavan_mem_queue) : cres cavan_mem_queue :=
  if mq_lock q <=? 0 then Undef
  else Ok (mk_mem_queue (mq_mem q) (mq_last q) (mq_head q) (mq_head_peek q) (mq_tail q)
             (mq_tail_peek q) (mq_lock q - 1)).
Definition mq_set_mem (q : cavan_mem_queue) m :=
  mk_mem_queue m (mq_last q) (mq_head q) (mq_head_peek q) (mq_tail q) (mq_tail_peek q) (mq_lock q).
Definition mq_set_tail_peek (q : cavan_mem_queue) p :=
  mk_mem_queue (mq_mem q) (mq_last q) (mq_head q) (mq_head_peek q) (mq_tail q) p (mq_lock q).
Definition mq_set_head_peek (q : cavan_mem_queue) p :=
  mk_mem_queue (mq_mem q) (mq_last q) (mq_head q) p (mq_tail q) (mq_tail_peek q) (mq_lock q).
Definition mq_set_tail (q : cavan_mem_queue) p :=
  mk_mem_queue (mq_mem q) (mq_last q) (mq_head q) (mq_head_peek q) p (mq_tail_peek q) (mq_lock q).
Definition mq_set_head (q : cavan_mem_queue) p :=
  mk_mem_queue (mq_mem q) (mq_last q) p (mq_head_peek q) (mq_tail q) (mq_tail_peek q) (mq_lock q).

(** [buff = NULL] is [None]: nothing is copied. *)
Definition copy_in (m : list Z) (i : Z) (buff : option (list Z)) (j n : Z) : cres (list Z) :=
  match buff with None => mret m | Some b => memcpy m i b j n end.
Definition copy_out (buff : option (list Z)) (j : Z) (m : list Z) (i n : Z) : cres (option (list Z)) :=
  match buff with None => mret None | Some b => b ← memcpy b j m i n; mret (Some b) end.

(** [rlen], the free bytes up to the end of the block, and [length], all that
    are free. *)
Definition inqueue_room (q : cavan_mem_queue) : Z * Z :=
  if mq_tail q <? mq_head q then
    let l := mq_head q - mq_tail q - 1 in (l, l)
  else if 0 <? mq_head q then
    let rlen := mq_last q - mq_tail q + 1 in (rlen, rlen + (mq_head q - 1))
  else let l := mq_last q - mq_tail q in (l, l).

Definition inqueue_copy (q : cavan_mem_queue) (buff : option (list Z)) (rlen length : Z)
    : cres cavan_mem_queue :=
  if rlen <? length then
    let llen := length - rlen in
    m ← copy_in (mq_mem q) (mq_tail q) buff 0 rlen;
    m ← copy_in m 0 buff rlen llen;
    mret (mq_set_tail_peek (mq_set_mem q m) llen)
  else
    m ← copy_in (mq_mem q) (mq_tail q) buff 0 length;
    let peek := mq_tail q + length in
    mret (mq_set_tail_peek (mq_set_mem q m) (if mq_last q <? peek then 0 else peek)).

Definition cavan_mem_queue_inqueue_peek (q : cavan_mem_queue) (buff : option (list Z)) (size : Z)
    : cres (Z * cavan_mem_queue) :=
  let q := mq_acquire q in
  let '(rlen, length) := inqueue_room q in
  let length := if size <? length then size else length in
  q ← inqueue_copy q buff rlen length;
  q ← mq_release q;
  mret (length, q).

Definition cavan_mem_queue_inqueue_commit (q : cavan_mem_queue) : cres cavan_mem_queue :=
  let q := mq_acquire q in mq_release (mq_set_tail q (mq_tail_peek q)).

Definition cavan_mem_queue_inqueue (q : cavan_mem_queue) (buff : option (list Z)) (size : Z)
    : cres (Z * cavan_mem_queue) :=
  let q := mq_acquire q in
  '(length, q) ← cavan_mem_queue_inqueue_peek q buff size;
  q ← cavan_mem_queue_inqueue_commit q;
  q ← mq_release q;
  mret (length, q).

Definition dequeue_room (q : cavan_mem_queue) : Z * Z :=
  if mq_tail q <? mq_head q then
    let rlen := mq_last q - mq_head q + 1 in (rlen, rlen + mq_tail q)
  else let l := mq_tail q - mq_head q in (l, l).

Definition dequeue_copy (q : cavan_mem_queue) (buff : option (list Z)) (rlen length : Z)
    : cres (option (list Z) * cavan_mem_queue) :=
  if rlen <? length then
    let llen := length - rlen in
    buff ← copy_out buff 0 (mq_mem q) (mq_head q) rlen;
    buff ← copy_out buff rlen (mq_mem q) 0 llen;
    mret (buff, mq_set_head_peek q llen)
  else
    buff ← copy_out buff 0 (mq_mem q) (mq_head q) length;
    let peek := mq_head q + length in
    mret (buff, mq_set_head_peek q (if mq_last q <? peek then 0 else peek)).

(** Returns the length, the caller's buffer and the queue. *)
Definition cavan_mem_queue_dequeue_peek (q : cavan_mem_queue) (buff : option (list Z)) (size : Z)
    : cres (Z * option (list Z) * cavan_mem_queue) :=
  let q := mq_acquire q in
  let '(rlen, length) := dequeue_room q in
  let length := if size <? length then size else length in
  '(buff, q) ← dequeue_copy q buff rlen length;
  q ← mq_release q;
  mret (length, buff, q).

Definition cavan_mem_queue_dequeue_commit (q : cavan_mem_queue) : cres cavan_mem_queue :=
  let q := mq_acquire q in mq_release (mq_set_head q (mq_head_peek q)).

Definition cavan_mem_queue_dequeue (q : cavan_mem_queue) (buff : option (list Z)) (size : Z)
    : cres (Z * option (list Z) * cavan_mem_queue) :=
  let q := mq_acquire q in
  '(length, buff, q) ← cavan_mem_queue_dequeue_peek q buff size;
  q ← cavan_mem_queue_dequeue_commit q;
  q ← mq_release q;
  mret (length, buff, q).

Definition cavan_mem_queue_get_used_size (q : cavan_mem_queue) : cres (Z * cavan_mem_queue) :=
  let q := mq_acquire q in
  let length :=
    if mq_tail q <? mq_head q then (mq_last q - mq_head q) + mq_tail q + 1
    else mq_tail q - mq_head q in
  q ← mq_release q; mret (length, q).

Definition cavan_mem_queue_get_free_size (q : cavan_mem_queue) : cres (Z * cavan_mem_queue) :=
  let q := mq_acquire q in
  let length :=
    if mq_tail q <? mq_head q then mq_head q - mq_tail q - 1
    else (mq_last q - mq_tail q) + mq_head q in
  q ← mq_release q; mret (length, q).

Definition cavan_mem_queue_is_empty (q : cavan_mem_queue) : cres (bool * cavan_mem_queue) :=
  let q := mq_acquire q in
  let res := mq_head q =? mq_tail q in q ← mq_release q; mret (res, q).

Definition cavan_mem_queue_has_data (q : cavan_mem_queue) : cres (bool * cavan_mem_queue) :=
  let q := mq_acquire q in
  let res := negb (mq_head q =? mq_tail q) in q ← mq_release q; mret (res, q).

(** ** Rings *)

(** The cell [i] places after [t] in a ring of [n]. *)
Definition wpos (n t i : Z) : Z := if t + i <? n then t + i else t + i - n.

(** The cells of [buf] from [t] on hold [l]; at least one cell is free. *)
Record ring (n : Z) (buf : list Z) (t : Z) (l : list Z) : Prop := {
  rg_size : zlen buf = n;
  rg_start : 0 ≤ t < n;
  rg_room : zlen l < n;
  rg_cells : ∀ i, 0 ≤ i < zlen l → buf⟦wpos n t i⟧ = l⟦i⟧ }.

(** Case analysis on every wrap-around of the goal and the hypotheses. *)
Ltac rlia :=
  unfold wpos in *;
  repeat match goal with
  | |- context [?a <? ?b] => destruct (Z.ltb_spec a b)
  | H : context [?a <? ?b] |- _ => destruct (Z.ltb_spec a b)
  end; lia.

Lemma wpos_range n t i : 0 ≤ t < n → 0 ≤ i < n → 0 ≤ wpos n t i < n.
Proof. intros. rlia. Qed.
Lemma wpos_inj n t i j : 0 ≤ t < n → 0 ≤ i < n → 0 ≤ j < n → wpos n t i = wpos n t j → i = j.
Proof. intros. rlia. Qed.
Lemma wpos_wpos n t i j : 0 ≤ t < n → 0 ≤ i → 0 ≤ j → i + j < n → wpos n (wpos n t i) j = wpos n t (i + j).
Proof. intros. rlia. Qed.
Lemma rem_next n p : 0 ≤ p < n → c_rem (p + 1) n = Ok (wpos n p 1).
Proof.
  intros Hp. unfold c_rem, wpos. destruct (Z.eqb_spec n 0); [lia|]. f_equal.
  rewrite Z.rem_mod_nonneg by lia. destruct (Z.ltb_spec (p + 1) n); [by apply Z.mod_small; lia|].
  replace (p + 1) with n by lia. rewrite Z.mod_same by lia. lia.
Qed.

(** Writing the elements of [l'] after [l] appends them. *)
Lemma ring_append n buf buf' t l l' :
  ring n buf t l → zlen buf' = n → zlen l + zlen l' < n →
  (∀ i, 0 ≤ i < zlen l → buf'⟦wpos n t i⟧ = buf⟦wpos n t i⟧) →
  (∀ i, 0 ≤ i < zlen l' → buf'⟦wpos n t (zlen l + i)⟧ = l'⟦i⟧) →
  ring n buf' t (l ++ l').
Proof.
  intros [Hs Ht Hr Hc] Hs' Hr' Hold Hnew. split; [done|done|idx|].
  rewrite zlen_app. intros i Hi. destruct (decide (i < zlen l)).
  - rewrite get_app_l by lia. rewrite Hold by lia. apply Hc. lia.
  - rewrite get_app_r by lia. rewrite <-Hnew by lia. do 2 f_equal. lia.
Qed.

(** Dropping the first [k] elements advances the start by [k]. *)
Lemma ring_drop n buf t l k :
  ring n buf t l → 0 ≤ k ≤ zlen l → ring n buf (wpos n t k) (drop (Z.to_nat k) l).
Proof.
  intros [Hs Ht Hr Hc] Hk.
  assert (zlen (drop (Z.to_nat k) l) = zlen l - k) as Hl.
  { unfold zlen in *. rewrite length_drop. lia. }
  split; [done|apply wpos_range; lia|lia|]. rewrite Hl. intros i Hi.
  rewrite wpos_wpos by lia. rewrite Hc by lia.
  unfold get. rewrite !list_lookup_total_alt, lookup_drop. do 2 f_equal. lia.
Qed.

(** ** Pointer queues are bounded FIFO queues *)

Record lq_rep (q : list_queue) (cap : Z) (l : list Z) : Prop := {
  lr_max : lq_max_count q = cap + 1;
  lr_ring : ring (cap + 1) (lq_buffer q) (lq_tail q) l;
  lr_head : lq_head q = wpos (cap + 1) (lq_tail q) (zlen l) }.

Lemma lq_rep_cap q cap l : lq_rep q cap l → zlen l ≤ cap.
Proof. intros [_ [] _]. lia. Qed.

Lemma list_queue_init_rep mem q cap :
  0 ≤ cap → zlen mem = cap + 1 →
  ∃ q', list_queue_init (Some mem) q (cap + 1) = (0, q') ∧ lq_rep q' cap [].
Proof.
  intros Hc Hm. eexists. split; [done|]. split; simpl; [done| |change (zlen []) with 0; rlia].
  split; [done|lia|idx|]. intros i. change (zlen []) with 0. lia.
Qed.

Lemma list_queue_empty_rep q cap l :
  lq_rep q cap l → list_queue_empty q = bool_decide (l = []).
Proof.
  intros [Hm [Hs Ht Hr Hc] Hh]. unfold list_queue_empty. rewrite Hh.
  pose proof (zlen_nonneg l). destruct l as [|x l].
  - change (zlen []) with 0 in *. rewrite bool_decide_true by done. apply Z.eqb_eq. rlia.
  - rewrite bool_decide_false by done. apply Z.eqb_neq. rewrite zlen_cons in *.
    pose proof (zlen_nonneg l). rlia.
Qed.

Lemma list_queue_full_rep q cap l :
  lq_rep q cap l → list_queue_full q = Ok (zlen l =? cap).
Proof.
  intros [Hm [Hs Ht Hr Hc] Hh]. pose proof (zlen_nonneg l). unfold list_queue_full.
  rewrite Hm, Hh, rem_next by (apply wpos_range; lia). cbn. f_equal.
  destruct (Z.eqb_spec (zlen l) cap); [apply Z.eqb_eq|apply Z.eqb_neq]; rlia.
Qed.

Lemma list_queue_insert_rep q cap l x :
  lq_rep q cap l → zlen l < cap →
  wp (list_queue_insert q x) (λ r, r.1 = 0 ∧ lq_rep r.2 cap (l ++ [x])).
Proof.
  intros Hq Hl. unfold list_queue_insert. rewrite (list_queue_full_rep _ _ _ Hq). cbn.
  destruct Hq as [Hm Hring Hh]. pose proof Hring as [Hs Ht Hr Hc]. pose proof (zlen_nonneg l).
  pose proof (wpos_range (cap + 1) (lq_tail q) (zlen l) ltac:(lia) ltac:(lia)).
  zcase; [lia|]. rewrite Hh, Hm, rem_next by done. wp_go. split; [done|].
  split; simpl; [done| |rewrite wpos_wpos by lia; f_equal; idx].
  apply (ring_append _ (lq_buffer q)); [done|idx|idx|..].
  - intros i Hi. apply get_upd_ne; [lia|apply wpos_range; lia|].
    intros E. apply wpos_inj in E; lia.
  - intros i Hi. change (zlen [x]) with 1 in Hi. replace i with 0 by lia.
    rewrite Z.add_0_r, get_upd_eq by lia. done.
Qed.

Lemma list_queue_insert_full q cap l x :
  lq_rep q cap l → zlen l = cap → list_queue_insert q x = Ok (- ENOMEM, q).
Proof.
  intros Hq Hl. unfold list_queue_insert. rewrite (list_queue_full_rep _ _ _ Hq). cbn.
  by rewrite (proj2 (Z.eqb_eq _ _) Hl).
Qed.

Lemma list_queue_remove_rep q cap x l :
  lq_rep q cap (x :: l) → wp (list_queue_remove q) (λ r, r.1 = x ∧ lq_rep r.2 cap l).
Proof.
  intros Hq. unfold list_queue_remove. rewrite (list_queue_empty_rep _ _ _ Hq), bool_decide_false by done.
  destruct Hq as [Hm Hring Hh]. pose proof Hring as [Hs Ht Hr Hc]. pose proof (zlen_nonneg l).
  rewrite zlen_cons in *. rewrite Hm, rem_next by done. wp_go. simpl. split.
  - specialize (Hc 0 ltac:(lia)). rewrite get_cons_0 in Hc. rewrite <-Hc. f_equal. rlia.
  - split; simpl; [done| |rewrite Hh, wpos_wpos by lia; f_equal; lia].
    apply (ring_drop _ _ _ _ 1) in Hring; [|idx]. done.
Qed.

Lemma list_queue_remove_empty q cap : lq_rep q cap [] → list_queue_remove q = Ok (0, q).
Proof.
  intros Hq. unfold list_queue_remove. by rewrite (list_queue_empty_rep _ _ _ Hq).
Qed.

(** The commands of a client, and what a bounded FIFO list answers. *)
Inductive queue_cmd := QInsert (x : Z) | QRemove.

Fixpoint run_queue (q : list_queue) (cmds : list queue_cmd) : cres (list Z * list_queue) :=
  match cmds with
  | [] => mret ([], q)
  | QInsert x :: cmds =>
    '(r, q) ← list_queue_insert q x; '(rs, q) ← run_queue q cmds; mret (r :: rs, q)
  | QRemove :: cmds =>
    '(r, q) ← list_queue_remove q; '(rs, q) ← run_queue q cmds; mret (r :: rs, q)
  end.

Fixpoint spec_queue (cap : Z) (l : list Z) (cmds : list queue_cmd) : list Z :=
  match cmds with
  | [] => []
  | QInsert x :: cmds =>
    if zlen l <? cap then 0 :: spec_queue cap (l ++ [x]) cmds
    else - ENOMEM :: spec_queue cap l cmds
  | QRemove :: cmds =>
    match l with
    | [] => 0 :: spec_queue cap [] cmds
    | x :: l => x :: spec_queue cap l cmds
    end
  end.

Lemma run_queue_refines cmds : ∀ q cap l,
  lq_rep q cap l → wp (run_queue q cmds) (λ r, r.1 = spec_queue cap l cmds).
Proof.
  induction cmds as [|c cmds IH]; intros q cap l Hq; [done|].
  assert (∀ r (q' : list_queue) l', lq_rep q' cap l' →
    wp ('(rs, q) ← run_queue q' cmds; mret (r :: rs, q)) (λ p, p.1 = r :: spec_queue cap l' cmds)) as Hrest.
  { intros r q' l' Hq'. apply wp_bind. eapply wp_mono; [by apply IH|].
    intros [rs q2]. by simpl; intros ->. }
  pose proof (lq_rep_cap _ _ _ Hq).
  destruct c as [x|]; simpl; apply wp_bind.
  - zcase.
    + eapply wp_mono; [by eapply list_queue_insert_rep|]. intros [r q'] [Hr Hq']. simpl in Hr. subst r.
      by apply Hrest.
    + rewrite (list_queue_insert_full _ cap l) by (done || lia). by apply Hrest.
  - destruct l as [|x l].
    + rewrite (list_queue_remove_empty _ _ Hq). by apply Hrest.
    + eapply wp_mono; [by eapply list_queue_remove_rep|]. intros [r q'] [Hr Hq']. simpl in Hr. subst r.
      by apply Hrest.
Qed.

(** A [list_queue] made for [cap + 1] pointers is a FIFO queue of [cap]:
    any sequence of inserts and removes, across any number of wrap-arounds,
    answers what a list bounded by [cap] answers, and no access leaves the
    buffer. *)
Theorem list_queue_refines_fifo mem q0 cap cmds :
  0 ≤ cap → zlen mem = cap + 1 →
  ∃ q, list_queue_init (Some mem) q0 (cap + 1) = (0, q) ∧
       wp (run_queue q cmds) (λ r, r.1 = spec_queue cap [] cmds).
Proof.
  intros Hc Hm. destruct (list_queue_init_rep mem q0 cap Hc Hm) as (q & Hi & Hq).
  exists q. split; [done|]. by apply run_queue_refines.
Qed.

Lemma list_queue_refines_fifo_witness :
  ∃ q, list_queue_init (Some [7; 7; 7]) (mk_list_queue [] 0 0 0) (2 + 1) = (0, q) ∧
       wp (run_queue q [QInsert 1; QInsert 2; QInsert 3; QRemove; QInsert 4; QRemove; QRemove; QRemove])
         (λ r, r.1 = [0; 0; -12; 1; 0; 2; 4; 0]).
Proof.
  apply (list_queue_refines_fifo [7; 7; 7] (mk_list_queue [] 0 0 0) 2
    [QInsert 1; QInsert 2; QInsert 3; QRemove; QInsert 4; QRemove; QRemove; QRemove]); done.
Defined.

(** [list_queue_get_head_data] and, on a queue of one element,
    [list_queue_get_tail_data] read the free cell and not an element: for every
    value [v] there is a queue holding the same elements on which they answer
    [v]. *)
Theorem list_queue_peeks_read_free_cell q cap l v :
  lq_rep q cap l → l ≠ [] →
  ∃ q', lq_rep q' cap l ∧ list_queue_get_head_data q' = Ok v ∧
        (zlen l = 1 → list_queue_get_tail_data q' = Ok v).
Proof.
  intros Hq Hl. pose proof Hq as [Hm Hring Hh]. pose proof Hring as [Hs Ht Hr Hc].
  pose proof (zlen_nonneg l).
  pose proof (wpos_range (cap + 1) (lq_tail q) (zlen l) ltac:(lia) ltac:(lia)) as Hrange.
  set (q' := mk_list_queue (lq_buffer q)⟦lq_head q := v⟧ (lq_head q) (lq_tail q) (lq_max_count q)).
  assert (lq_rep q' cap l) as Hq'.
  { split; simpl; [done| |done]. split; [idx|done|done|]. intros i Hi.
    rewrite Hh, get_upd_ne; [by apply Hc|lia|apply wpos_range; lia|].
    intros E. apply wpos_inj in E; lia. }
  exists q'. split; [done|].
  unfold list_queue_get_head_data, list_queue_get_tail_data.
  rewrite (list_queue_empty_rep _ _ _ Hq'), bool_decide_false by done. simpl. rewrite Hh. split.
  - rewrite load_in by idx. by rewrite get_upd_eq by lia.
  - intros H1. rewrite Hm, rem_next by done. rewrite H1 in *. cbn.
    rewrite load_in by idx. by rewrite get_upd_eq by lia.
Qed.

Lemma list_queue_peeks_read_free_cell_witness :
  let q := mk_list_queue [5; 7; 7] 1 0 3 in
  ∃ q', lq_rep q' 2 [5] ∧ list_queue_get_head_data q' = Ok 99 ∧
        (zlen [5] = 1 → list_queue_get_tail_data q' = Ok 99).
Proof.
  intros q. apply (list_queue_peeks_read_free_cell q 2 [5] 99); [|done].
  split; [done| |done]. split; [done..|]. intros i Hi.
  unfold zlen in Hi. simpl in Hi. replace i with 0 by lia. done.
Defined.

(** ** Byte queues *)

Record mq_rep (q : cavan_mem_queue) (cap : Z) (l : list Z) : Prop := {
  mr_last : mq_last q = cap;
  mr_ring : ring (cap + 1) (mq_mem q) (mq_head q) l;
  mr_tail : mq_tail q = wpos (cap + 1) (mq_head q) (zlen l);
  mr_lock : 0 ≤ mq_lock q }.

(** What the two [memcpy] of a wrapping write leave in the ring. *)
Record ring_written (n : Z) (m m' : list Z) (t k : Z) (b : list Z) : Prop := {
  rw_size : zlen m' = n;
  rw_new : ∀ i, 0 ≤ i < k → m'⟦wpos n t i⟧ = b⟦i⟧;
  rw_old : ∀ i, k ≤ i < n → m'⟦wpos n t i⟧ = m⟦wpos n t i⟧ }.

Lemma write_straight n m t k b :
  zlen m = n → 0 ≤ t < n → 0 ≤ k → t + k ≤ n → k ≤ zlen b → ring_written n m (blit m t b 0 k) t k b.
Proof.
  intros Hm Ht Hk Htk Hb. split; [by rewrite zlen_blit by lia|..]; intros i Hi;
    (rewrite get_blit; [|lia..|rewrite Hm; apply wpos_range; lia]).
  - rewrite decide_True by rlia. f_equal. rlia.
  - rewrite decide_False by rlia. done.
Qed.

Lemma write_wrapped n m t k b :
  zlen m = n → 0 ≤ t < n → n < t + k → k < n → k ≤ zlen b →
  ring_written n m (blit (blit m t b 0 (n - t)) 0 b (n - t) (k - (n - t))) t k b.
Proof.
  intros Hm Ht Htk Hk Hb.
  assert (zlen (blit m t b 0 (n - t)) = n) as Hm1 by (rewrite zlen_blit; lia).
  split; [rewrite zlen_blit; lia|..]; intros i Hi;
    (rewrite get_blit; [|lia..|rewrite Hm1; apply wpos_range; lia]).
  - destruct (decide (t + i < n)).
    + rewrite decide_False by rlia. rewrite get_blit by rlia.
      rewrite decide_True by rlia. f_equal. rlia.
    + rewrite decide_True by rlia. f_equal. rlia.
  - rewrite decide_False by rlia. rewrite get_blit by rlia. rewrite decide_False by rlia. done.
Qed.

Lemma ring_written_append n m m' t l k b :
  ring n m t l → 0 ≤ k → zlen l + k < n → k ≤ zlen b →
  ring_written n m m' (wpos n t (zlen l)) k b →
  ring n m' t (l ++ slice b 0 k) ∧ ring n m' t l.
Proof.
  intros Hr Hk Hlk Hb [Hs Hnew Hold]. pose proof Hr as [_ Ht _ Hc]. pose proof (zlen_nonneg l).
  assert (∀ i, 0 ≤ i < zlen l → m'⟦wpos n t i⟧ = m⟦wpos n t i⟧) as Hold'.
  { intros i Hi. specialize (Hold (n - zlen l + i) ltac:(lia)).
    replace (wpos n (wpos n t (zlen l)) (n - zlen l + i)) with (wpos n t i) in Hold by rlia. done. }
  split.
  - apply (ring_append n m); [done|done|rewrite zlen_slice; lia|done|].
    intros i. rewrite zlen_slice by lia. intros Hi. rewrite <-wpos_wpos by lia.
    rewrite Hnew, get_slice by lia. f_equal.
  - split; [done|done|lia|]. intros i Hi. rewrite Hold' by done. by apply Hc.
Qed.

(** How many bytes an [inqueue] of [size] accepts. *)
Definition accepted (cap size : Z) (l : list Z) : Z := Z.min size (cap - zlen l).

Lemma inqueue_room_rep q cap l :
  mq_rep q cap l →
  (inqueue_room q).2 = cap - zlen l ∧
  (((inqueue_room q).1 = (inqueue_room q).2 ∧ mq_tail q + (inqueue_room q).2 ≤ cap) ∨
   ((inqueue_room q).1 = cap + 1 - mq_tail q)).
Proof.
  intros [Hlast [Hs Ht Hr _] Htail _]. pose proof (zlen_nonneg l).
  unfold inqueue_room. rewrite Hlast. rewrite Htail in *. zcase; [|zcase]; simpl; rlia.
Qed.

Lemma inqueue_copy_ok q cap b rlen k :
  mq_last q = cap → zlen (mq_mem q) = cap + 1 → 0 ≤ mq_tail q ≤ cap → 0 ≤ k ≤ cap → k ≤ zlen b →
  (k ≤ rlen ∧ mq_tail q + k ≤ cap + 1) ∨ rlen = cap + 1 - mq_tail q →
  wp (inqueue_copy q (Some b) rlen k) (λ q', ∃ m',
    ring_written (cap + 1) (mq_mem q) m' (mq_tail q) k b ∧
    q' = mq_set_tail_peek (mq_set_mem q m') (wpos (cap + 1) (mq_tail q) k)).
Proof.
  intros Hlast Hm Ht Hk Hb Hcase. unfold inqueue_copy. rewrite Hlast. simpl. zcase.
  - assert (rlen = cap + 1 - mq_tail q) as -> by lia.
    apply wp_bind, wp_memcpy; [lia..|]. apply wp_bind.
    apply wp_memcpy; rewrite ?zlen_blit by lia; [lia..|]. apply wp_ret.
    eexists. split; [apply write_wrapped; lia|]. f_equal. rlia.
  - apply wp_bind, wp_memcpy; [lia..|]. apply wp_ret.
    eexists. split; [apply write_straight; lia|]. f_equal. rlia.
Qed.

Lemma inqueue_peek_rep q cap l b size :
  mq_rep q cap l → 0 ≤ size → accepted cap size l ≤ zlen b →
  wp (cavan_mem_queue_inqueue_peek q (Some b) size) (λ r,
    r.1 = accepted cap size l ∧ mq_rep r.2 cap l ∧ mq_lock r.2 = mq_lock q ∧
    mq_head r.2 = mq_head q ∧ mq_tail_peek r.2 = wpos (cap + 1) (mq_tail q) r.1 ∧
    ring (cap + 1) (mq_mem r.2) (mq_head q) (l ++ slice b 0 r.1)).
Proof.
  intros Hq Hsize Hb. pose proof Hq as [Hlast Hring Htail Hlock].
  pose proof Hring as [Hs Ht Hr _]. pose proof (zlen_nonneg l).
  pose proof (wpos_range (cap + 1) (mq_head q) (zlen l) ltac:(lia) ltac:(lia)).
  destruct (inqueue_room_rep (mq_acquire q) cap l) as [Hlen Hrl]; [by split; simpl; try done; lia|].
  unfold cavan_mem_queue_inqueue_peek. cbv zeta.
  destruct (inqueue_room (mq_acquire q)) as [rlen length]. simpl in *. subst length.
  replace (if size <? cap - zlen l then size else cap - zlen l) with (accepted cap size l)
    by (unfold accepted; zcase; lia).
  assert (0 ≤ accepted cap size l ≤ cap - zlen l) as Hk by (unfold accepted; lia).
  set (k := accepted cap size l) in *. apply wp_bind.
  eapply wp_mono; [apply (inqueue_copy_ok _ cap b rlen k); simpl; auto; lia|].
  intros q' (m' & Hw & ->). simpl in Hw. rewrite Htail in Hw.
  destruct (ring_written_append (cap + 1) (mq_mem q) m' (mq_head q) l k b Hring) as [Ha Hl];
    [lia..|done|].
  unfold mq_release. simpl. zcase; [lia|]. cbn. repeat (split; simpl; try done); lia.
Qed.

Lemma mq_commit_ok q cap l b k :
  mq_rep q cap l → 0 ≤ k → zlen l + k ≤ cap → k ≤ zlen b →
  mq_tail_peek q = wpos (cap + 1) (mq_tail q) k →
  ring (cap + 1) (mq_mem q) (mq_head q) (l ++ slice b 0 k) →
  wp (cavan_mem_queue_inqueue_commit q) (λ q', mq_rep q' cap (l ++ slice b 0 k) ∧ mq_lock q' = mq_lock q).
Proof.
  intros [Hlast Hring Htail Hlock] Hk Hlk Hb Hpeek Hring'. pose proof Hring as [Hs Ht Hr _].
  pose proof (zlen_nonneg l). unfold cavan_mem_queue_inqueue_commit, mq_release. simpl. zcase; [lia|].
  cbn. split; [|lia]. split; simpl; [done|done| |lia].
  rewrite Hpeek, Htail, wpos_wpos by lia. f_equal. rewrite zlen_app, zlen_slice; lia.
Qed.

Lemma mq_acquire_rep q cap l : mq_rep q cap l → mq_rep (mq_acquire q) cap l.
Proof. intros []. split; simpl; try done. lia. Qed.

Lemma mq_release_ok q cap l :
  mq_rep q cap l → 0 < mq_lock q →
  wp (mq_release q) (λ q', mq_rep q' cap l ∧ mq_lock q' = mq_lock q - 1).
Proof.
  intros [] Hl. unfold mq_release. zcase; [lia|]. split; [|done]. split; simpl; try done. lia.
Qed.

Lemma inqueue_rep q cap l b size :
  mq_rep q cap l → 0 ≤ size → accepted cap size l ≤ zlen b →
  wp (cavan_mem_queue_inqueue q (Some b) size) (λ r,
    r.1 = accepted cap size l ∧ mq_rep r.2 cap (l ++ slice b 0 r.1) ∧ mq_lock r.2 = mq_lock q).
Proof.
  intros Hq Hsize Hb. pose proof (mr_lock _ _ _ Hq). unfold cavan_mem_queue_inqueue. cbv zeta.
  apply wp_bind. eapply wp_mono; [by apply (inqueue_peek_rep _ cap l b size (mq_acquire_rep _ _ _ Hq))|].
  intros [k q1] (Hk & Hq1 & Hl1 & Hh1 & Hp1 & Hr1). simpl in *.
  assert (mq_tail q1 = mq_tail q) as Ht1.
  { rewrite (mr_tail _ _ _ Hq1), (mr_tail _ _ _ Hq). by rewrite Hh1. }
  assert (0 ≤ k ∧ zlen l + k ≤ cap ∧ k ≤ zlen b) as (? & ? & ?).
  { destruct Hq as [_ [] _ _]. unfold accepted in *. lia. }
  apply wp_bind. eapply wp_mono; [apply (mq_commit_ok q1 cap l b k); auto; congruence|].
  intros q2 [Hq2 Hl2]. apply wp_bind.
  eapply wp_mono; [apply (mq_release_ok _ _ _ Hq2); lia|]. intros q3 [Hq3 Hl3].
  simpl. split; [done|]. split; [done|lia].
Qed.

Lemma dequeue_room_rep q cap l :
  mq_rep q cap l →
  (dequeue_room q).2 = zlen l ∧
  (((dequeue_room q).1 = (dequeue_room q).2 ∧ mq_head q + (dequeue_room q).2 ≤ cap) ∨
   ((dequeue_room q).1 = cap + 1 - mq_head q)).
Proof.
  intros [Hlast [Hs Ht Hr _] Htail _]. pose proof (zlen_nonneg l).
  unfold dequeue_room. rewrite Hlast. rewrite Htail in *. zcase; simpl; rlia.
Qed.

(** The caller's buffer after reading [k] cells of the ring from [t]. *)
Record ring_read (n : Z) (m : list Z) (t k : Z) (b b' : list Z) : Prop := {
  rd_size : zlen b' = zlen b;
  rd_new : ∀ i, 0 ≤ i < k → b'⟦i⟧ = m⟦wpos n t i⟧;
  rd_old : ∀ i, k ≤ i < zlen b → b'⟦i⟧ = b⟦i⟧ }.

Lemma dequeue_copy_ok q cap b rlen k :
  mq_last q = cap → zlen (mq_mem q) = cap + 1 → 0 ≤ mq_head q ≤ cap → 0 ≤ k ≤ cap → k ≤ zlen b →
  (k ≤ rlen ∧ mq_head q + k ≤ cap + 1) ∨ rlen = cap + 1 - mq_head q →
  wp (dequeue_copy q (Some b) rlen k) (λ r, ∃ b',
    ring_read (cap + 1) (mq_mem q) (mq_head q) k b b' ∧
    r = (Some b', mq_set_head_peek q (wpos (cap + 1) (mq_head q) k))).
Proof.
  intros Hlast Hm Ht Hk Hb Hcase. unfold dequeue_copy. rewrite Hlast. simpl. zcase.
  - assert (rlen = cap + 1 - mq_head q) as -> by lia.
    apply wp_bind, wp_bind, wp_memcpy; [lia..|]. apply wp_ret. apply wp_bind, wp_bind.
    apply wp_memcpy; rewrite ?zlen_blit by lia; [lia..|]. apply wp_ret. apply wp_ret.
    eexists. split; [|do 2 f_equal; rlia]. split; [rewrite !zlen_blit; rewrite ?zlen_blit; lia|..]; intros i Hi;
      (rewrite get_blit; rewrite ?zlen_blit; [|lia..]).
    + case_decide; [f_equal; rlia|]. rewrite get_blit, decide_True by lia. f_equal. rlia.
    + rewrite decide_False by lia. rewrite get_blit, decide_False by lia. done.
  - apply wp_bind, wp_bind, wp_memcpy; [lia..|]. apply wp_ret. apply wp_ret.
    eexists. split; [|do 2 f_equal; rlia]. split; [rewrite zlen_blit; lia|..]; intros i Hi;
      (rewrite get_blit; [|lia..]).
    + rewrite decide_True by lia. f_equal. rlia.
    + by rewrite decide_False by lia.
Qed.

(** The bytes the reader gets are the oldest ones. *)
Lemma ring_read_front n m t l k b b' :
  ring n m t l → 0 ≤ k ≤ zlen l → k ≤ zlen b → ring_read n m t k b b' →
  b' = slice l 0 k ++ drop (Z.to_nat k) b.
Proof.
  intros [Hs Ht Hr Hc] Hk Hb [Hsz Hnew Hold].
  assert (zlen (drop (Z.to_nat k) b) = zlen b - k) as Hd.
  { unfold zlen in *. rewrite length_drop. lia. }
  apply array_ext.
  - rewrite zlen_app, zlen_slice; lia.
  - intros i Hi. destruct (decide (i < k)).
    + rewrite get_app_l by (rewrite zlen_slice; lia). rewrite get_slice by lia.
      rewrite Hnew by lia. by rewrite Hc by lia.
    + rewrite get_app_r by (rewrite zlen_slice; lia). rewrite zlen_slice by lia.
      rewrite Hold by lia. unfold get. rewrite !list_lookup_total_alt, lookup_drop.
      do 2 f_equal. lia.
Qed.

Definition taken (size : Z) (l : list Z) : Z := Z.min size (zlen l).

Lemma dequeue_peek_rep q cap l b size :
  mq_rep q cap l → 0 ≤ size → taken size l ≤ zlen b →
  wp (cavan_mem_queue_dequeue_peek q (Some b) size) (λ r,
    r.1 = (taken size l, Some (slice l 0 (taken size l) ++ drop (Z.to_nat (taken size l)) b)) ∧
    r.2 = mq_set_head_peek q (wpos (cap + 1) (mq_head q) (taken size l))).
Proof.
  intros Hq Hsize Hb. pose proof Hq as [Hlast Hring Htail Hlock].
  pose proof Hring as [Hs Ht Hr _]. pose proof (zlen_nonneg l).
  destruct (dequeue_room_rep (mq_acquire q) cap l (mq_acquire_rep _ _ _ Hq)) as [Hlen Hrl].
  unfold cavan_mem_queue_dequeue_peek. cbv zeta.
  destruct (dequeue_room (mq_acquire q)) as [rlen length]. simpl in *. subst length.
  replace (if size <? zlen l then size else zlen l) with (taken size l)
    by (unfold taken; zcase; lia).
  assert (0 ≤ taken size l ≤ zlen l) as Hk by (unfold taken; lia).
  set (k := taken size l) in *. apply wp_bind.
  eapply wp_mono; [apply (dequeue_copy_ok _ cap b rlen k); simpl; auto; lia|].
  intros r (b' & Hrd & ->). simpl in Hrd.
  rewrite (ring_read_front (cap + 1) (mq_mem q) (mq_head q) l k b b') by (auto; lia).
  unfold mq_release. simpl. zcase; [lia|]. cbn. split; [done|].
  unfold mq_set_head_peek, mq_acquire. simpl. f_equal. lia.
Qed.

Lemma dequeue_rep q cap l b size :
  mq_rep q cap l → 0 ≤ size → taken size l ≤ zlen b →
  wp (cavan_mem_queue_dequeue q (Some b) size) (λ r,
    r.1 = (taken size l, Some (slice l 0 (taken size l) ++ drop (Z.to_nat (taken size l)) b)) ∧
    mq_rep r.2 cap (drop (Z.to_nat (taken size l)) l) ∧ mq_lock r.2 = mq_lock q).
Proof.
  intros Hq Hsize Hb. pose proof Hq as [Hlast Hring Htail Hlock].
  pose proof Hring as [Hs Ht Hr _]. pose proof (zlen_nonneg l).
  unfold cavan_mem_queue_dequeue. cbv zeta. apply wp_bind.
  eapply wp_mono; [by apply (dequeue_peek_rep _ cap l b size (mq_acquire_rep _ _ _ Hq))|].
  intros [r q1] [Hr1 Hq1]. simpl in *. subst r q1.
  assert (0 ≤ taken size l ≤ zlen l) as Hk by (unfold taken; lia).
  set (k := taken size l) in *.
  unfold cavan_mem_queue_dequeue_commit, mq_release. simpl. zcase; [lia|]. cbn. zcase; [lia|]. cbn.
  split; [done|]. split; [|lia]. split; simpl; [done|by apply ring_drop| |lia].
  assert (zlen (drop (Z.to_nat k) l) = zlen l - k) as Hd by (unfold zlen in *; rewrite length_drop; lia).
  rewrite Htail, Hd, wpos_wpos by lia. f_equal. lia.
Qed.

Lemma cavan_mem_queue_init_rep m q cap :
  0 ≤ cap → zlen m = cap + 1 →
  ∃ q', cavan_mem_queue_init (Some m) q cap = (0, q') ∧ mq_rep q' cap [] ∧ mq_lock q' = 0.
Proof.
  intros Hc Hm. eexists. split; [done|]. split; [|done].
  split; simpl; [done| |change (zlen []) with 0; rlia|lia].
  split; [done|lia|change (zlen []) with 0; lia|]. intros i. change (zlen []) with 0. lia.
Qed.

Lemma mq_acquire_release q : 0 ≤ mq_lock q → mq_release (mq_acquire q) = Ok q.
Proof.
  intros Hl. unfold mq_release. simpl. zcase; [lia|]. f_equal. destruct q; simpl. f_equal. lia.
Qed.

Lemma used_size_rep q cap l :
  mq_rep q cap l → cavan_mem_queue_get_used_size q = Ok (zlen l, q).
Proof.
  intros [Hlast [_ Ht Hr _] Htail Hlock]. unfold cavan_mem_queue_get_used_size.
  rewrite mq_acquire_release by done. cbn. do 2 f_equal. pose proof (zlen_nonneg l).
  rewrite Hlast, Htail. zcase; rlia.
Qed.

Lemma free_size_rep q cap l :
  mq_rep q cap l → cavan_mem_queue_get_free_size q = Ok (cap - zlen l, q).
Proof.
  intros [Hlast [_ Ht Hr _] Htail Hlock]. unfold cavan_mem_queue_get_free_size.
  rewrite mq_acquire_release by done. cbn. do 2 f_equal. pose proof (zlen_nonneg l).
  rewrite Hlast, Htail. zcase; rlia.
Qed.

Lemma is_empty_rep q cap l :
  mq_rep q cap l → cavan_mem_queue_is_empty q = Ok (zlen l =? 0, q).
Proof.
  intros [Hlast [_ Ht Hr _] Htail Hlock]. unfold cavan_mem_queue_is_empty.
  rewrite mq_acquire_release by done. cbn. do 2 f_equal. pose proof (zlen_nonneg l).
  rewrite Htail. destruct (Z.eqb_spec (zlen l) 0); [apply Z.eqb_eq|apply Z.eqb_neq]; rlia.
Qed.

Lemma has_data_rep q cap l :
  mq_rep q cap l → cavan_mem_queue_has_data q = Ok (negb (zlen l =? 0), q).
Proof.
  intros Hq. pose proof (is_empty_rep _ _ _ Hq) as E. pose proof (mr_lock _ _ _ Hq).
  unfold cavan_mem_queue_is_empty, cavan_mem_queue_has_data in *.
  rewrite mq_acquire_release in * by done. cbn in *. by injection E as ->.
Qed.

(** The commands of a client: reads and writes, committed or only peeked, of
    the whole buffer given, and the queries. *)
Inductive mem_cmd :=
| MIn (b : list Z) | MInPeek (b : list Z) | MOut (b : list Z) | MOutPeek (b : list Z)
| MUsed | MFree | MEmpty | MHas.

(** What a command answers: a number and the caller's buffer afterwards. *)
Definition mem_step (q : cavan_mem_queue) (c : mem_cmd) : cres ((Z * list Z) * cavan_mem_queue) :=
  match c with
  | MIn b => '(n, q) ← cavan_mem_queue_inqueue q (Some b) (zlen b); mret ((n, b), q)
  | MInPeek b => '(n, q) ← cavan_mem_queue_inqueue_peek q (Some b) (zlen b); mret ((n, b), q)
  | MOut b => '(n, b', q) ← cavan_mem_queue_dequeue q (Some b) (zlen b); mret ((n, default [] b'), q)
  | MOutPeek b => '(n, b', q) ← cavan_mem_queue_dequeue_peek q (Some b) (zlen b); mret ((n, default [] b'), q)
  | MUsed => '(n, q) ← cavan_mem_queue_get_used_size q; mret ((n, []), q)
  | MFree => '(n, q) ← cavan_mem_queue_get_free_size q; mret ((n, []), q)
  | MEmpty => '(e, q) ← cavan_mem_queue_is_empty q; mret ((Z.b2z e, []), q)
  | MHas => '(e, q) ← cavan_mem_queue_has_data q; mret ((Z.b2z e, []), q)
  end.

(** The same over a list of at most [cap] bytes. *)
Definition mem_spec (cap : Z) (l : list Z) (c : mem_cmd) : (Z * list Z) * list Z :=
  match c with
  | MIn b => let n := accepted cap (zlen b) l in ((n, b), l ++ slice b 0 n)
  | MInPeek b => ((accepted cap (zlen b) l, b), l)
  | MOut b => let n := taken (zlen b) l in
              ((n, slice l 0 n ++ drop (Z.to_nat n) b), drop (Z.to_nat n) l)
  | MOutPeek b => let n := taken (zlen b) l in ((n, slice l 0 n ++ drop (Z.to_nat n) b), l)
  | MUsed => ((zlen l, []), l)
  | MFree => ((cap - zlen l, []), l)
  | MEmpty => ((Z.b2z (zlen l =? 0), []), l)
  | MHas => ((Z.b2z (negb (zlen l =? 0)), []), l)
  end.

Fixpoint run_mem (q : cavan_mem_queue) (cs : list mem_cmd) : cres (list (Z * list Z) * cavan_mem_queue) :=
  match cs with
  | [] => mret ([], q)
  | c :: cs => '(r, q) ← mem_step q c; '(rs, q) ← run_mem q cs; mret (r :: rs, q)
  end.
Fixpoint spec_mem (cap : Z) (l : list Z) (cs : list mem_cmd) : list (Z * list Z) * list Z :=
  match cs with
  | [] => ([], l)
  | c :: cs => let '(r, l) := mem_spec cap l c in let '(rs, l) := spec_mem cap l cs in (r :: rs, l)
  end.

(** Peeking at the oldest bytes changes nothing but the peek pointer. *)
Lemma set_head_peek_rep q cap l p : mq_rep q cap l → mq_rep (mq_set_head_peek q p) cap l.
Proof. by intros []; split. Qed.

Lemma mem_step_refines q cap l c :
  mq_rep q cap l →
  wp (mem_step q c) (λ r, r.1 = (mem_spec cap l c).1 ∧ mq_rep r.2 cap (mem_spec cap l c).2 ∧
                          mq_lock r.2 = mq_lock q).
Proof.
  intros Hq. pose proof (mr_ring _ _ _ Hq) as [_ _ Hr _].
  destruct c as [b|b|b|b| | | |]; simpl; try pose proof (zlen_nonneg b); apply wp_bind.
  - eapply wp_mono; [apply (inqueue_rep q cap l b); unfold accepted; auto; lia|].
    intros [n q'] (? & ? & ?). simpl in *. by subst n.
  - eapply wp_mono; [apply (inqueue_peek_rep q cap l b); unfold accepted; auto; lia|].
    intros [n q'] (? & ? & ? & _). simpl in *. by subst n.
  - eapply wp_mono; [apply (dequeue_rep q cap l b); unfold taken; auto; lia|].
    intros [[n b'] q'] (E & ? & ?). simpl in *. injection E as -> ->. done.
  - eapply wp_mono; [apply (dequeue_peek_rep q cap l b); unfold taken; auto; lia|].
    intros [[n b'] q'] (E & E'). simpl in *. injection E as -> ->. subst q'. simpl.
    split; [done|]. split; [by apply set_head_peek_rep|done].
  - by rewrite (used_size_rep _ _ _ Hq).
  - by rewrite (free_size_rep _ _ _ Hq).
  - by rewrite (is_empty_rep _ _ _ Hq).
  - by rewrite (has_data_rep _ _ _ Hq).
Qed.

Lemma run_mem_refines cs : ∀ q cap l,
  mq_rep q cap l →
  wp (run_mem q cs) (λ r, r.1 = (spec_mem cap l cs).1 ∧ mq_rep r.2 cap (spec_mem cap l cs).2 ∧
                          mq_lock r.2 = mq_lock q).
Proof.
  induction cs as [|c cs IH]; intros q cap l Hq; [done|]. simpl. apply wp_bind.
  eapply wp_mono; [by apply mem_step_refines|]. intros [r q'] (Hr & Hq' & Hl). simpl in *. subst r.
  destruct (mem_spec cap l c) as [r l']. simpl in *. apply wp_bind.
  eapply wp_mono; [by apply IH|]. intros [rs q2] (Hrs & Hq2 & Hl2). simpl in *.
  destruct (spec_mem cap l' cs) as [rs' l2]. simpl in *. subst. split; [done|]. split; [done|lia].
Qed.

(** C39: a [cavan_mem_queue] made for [cap] bytes is a FIFO queue of [cap]
    bytes: any sequence of committed and peeked reads and writes and of queries
    answers what a list of at most [cap] bytes answers (a write takes what
    fits, a read gives the oldest bytes and leaves the rest of the buffer
    alone, a peek leaves the contents), wrap-arounds included; the contents at
    the end are the list's, every copy stays inside its block, and every
    acquired lock is released. *)
Theorem cavan_mem_queue_refines_fifo m q0 cap cs :
  0 ≤ cap → zlen m = cap + 1 →
  ∃ q, cavan_mem_queue_init (Some m) q0 cap = (0, q) ∧
       wp (run_mem q cs) (λ r, r.1 = (spec_mem cap [] cs).1 ∧
                               mq_rep r.2 cap (spec_mem cap [] cs).2 ∧ mq_lock r.2 = 0).
Proof.
  intros Hc Hm. destruct (cavan_mem_queue_init_rep m q0 cap Hc Hm) as (q & Hi & Hq & Hl).
  exists q. split; [done|]. rewrite <-Hl. by apply run_mem_refines.
Qed.

Lemma cavan_mem_queue_refines_fifo_witness :
  let q0 := mk_mem_queue [] 0 0 0 0 0 5 in
  let cs := [MIn [1; 2]; MOut [0]; MIn [3; 4; 5]; MUsed; MOutPeek [0; 0]; MOut [0; 0; 0; 9]; MEmpty] in
  ∃ q, cavan_mem_queue_init (Some [7; 7; 7; 7]) q0 3 = (0, q) ∧
       wp (run_mem q cs) (λ r,
         r.1 = [(2, [1; 2]); (1, [1]); (2, [3; 4; 5]); (3, []); (2, [2; 3]); (3, [2; 3; 4; 9]); (1, [])] ∧
         mq_rep r.2 3 [] ∧ mq_lock r.2 = 0).
Proof. intros q0 cs. apply (cavan_mem_queue_refines_fifo [7; 7; 7; 7] q0 3 cs); done. Defined.
