(* ===== verification/LinkedList.v ===== *)
(** LinkedList: the intrusive lists of src/lib/list.c and
    src/include/cavan/list.h.

    Nodes live in a store [ls_heap], keyed by their address; address 0 is NULL
    and the head node of a list is one more node of the store.  The three list
    types are the NULL-terminated [single_link], the circular [circle_link] and
    the circular, doubly linked [double_link].  Their mutex is not recursive:
    taking it twice is undefined.  Handlers and matchers are programs over the
    same store, so what they do to the nodes is visible to the loop that calls
    them. *)
From S2P Require Import Prelude.

(** ** Stores and locks *)

Record single_link_node := mk_single_link_node { sn_next : Z; sn_destroy : Z }.
Record double_link_node := mk_double_link_node { dn_prev : Z; dn_next : Z }.

(** The lists themselves: the offset of the node in its container and the
    address of the head node.  The lock is in the store. *)
Record single_link := mk_single_link { sl_offset : Z; sl_head : Z }.
Record circle_link := mk_circle_link { cl_offset : Z; cl_head : Z }.
Record double_link := mk_double_link { dl_offset : Z; dl_head : Z }.

(** [ls_user] is the data of the callbacks. *)
Record lstate (N U : Type) := mk_lstate {
  ls_heap : gmap Z N;
  ls_locked : bool;
  ls_user : U }.
Arguments mk_lstate {N U}.
Arguments ls_heap {N U}.
Arguments ls_locked {N U}.
Arguments ls_user {N U}.

Section store.
Context {N U : Type}.
Abbreviation prog := (prog (lstate N U)).

Definition set_heap (s : lstate N U) (h : gmap Z N) : lstate N U := mk_lstate h (ls_locked s) (ls_user s).
Definition set_locked (s : lstate N U) (b : bool) : lstate N U := mk_lstate (ls_heap s) b (ls_user s).

Definition pthread_mutex_lock : prog unit := λ s,
  if ls_locked s then Undef else Ok (tt, set_locked s true).
Definition pthread_mutex_unlock : prog unit := λ s,
  if ls_locked s then Ok (tt, set_locked s false) else Undef.
(** [ret]: what [pthread_mutex_init] answered. *)
Definition pthread_mutex_init (ret : Z) : prog Z := λ s, Ok (ret, set_locked s false).

(** Destroying a locked mutex is undefined. *)
Definition pthread_mutex_destroy : prog unit := λ s, if ls_locked s then Undef else Ok (tt, s).

Definition node_at (p : Z) : prog N := λ s,
  match ls_heap s !! p with Some n => Ok (n, s) | None => Undef end.
(** An assignment to a field of node [p]. *)
Definition node_set (p : Z) (f : N → N) : prog unit := λ s,
  match ls_heap s !! p with Some _ => Ok (tt, set_heap s (alter f p (ls_heap s))) | None => Undef end.

(** [free] of the container that starts [offset] bytes before its node. *)
Definition free_container (offset addr : Z) : prog unit := λ s,
  match ls_heap s !! (addr + offset) with
  | Some _ => Ok (tt, set_heap s (delete (addr + offset) (ls_heap s)))
  | None => Undef
  end.

(** Every node once and two more: a walk that takes longer is on a cycle. *)
Definition walk_fuel : prog nat := reads (λ s, S (S (size (ls_heap s)))).

(** [for (node = first; node != stop; node = next) body], left early when the
    body answers. *)
Fixpoint for_nodes {R} (fuel : nat) (next : Z → prog Z) (stop : Z)
    (body : Z → prog (option R)) (node : Z) : prog (option R) :=
  match fuel with
  | O => λ _, NoFuel
  | S k =>
    if node =? stop then mret None
    else
      r ← body node;
      match r with
      | Some x => mret (Some x)
      | None => n ← next node; for_nodes k next stop body n
      end
  end.

(** [for (prev = first; prev->next != stop; prev = prev->next) body]: the
    answer of the body, or the last [prev]. *)
Fixpoint for_prevs {R} (fuel : nat) (next : Z → prog Z) (stop : Z)
    (body : Z → prog (option R)) (prev : Z) : prog (R + Z) :=
  match fuel with
  | O => λ _, NoFuel
  | S k =>
    n ← next prev;
    if n =? stop then mret (inr prev)
    else
      r ← body prev;
      match r with
      | Some x => mret (inl x)
      | None => n ← next prev; for_prevs k next stop body n
      end
  end.

(** [while (node != stop) { next = node->next; handler(node); node = next; }] *)
Fixpoint while_nodes (fuel : nat) (next : Z → prog Z) (stop : Z)
    (handler : Z → prog unit) (node : Z) : prog unit :=
  match fuel with
  | O => λ _, NoFuel
  | S k =>
    if node =? stop then mret tt
    else n ← next node; handler node;; while_nodes k next stop handler n
  end.
End store.

(** ** Single links *)

Section single.
Context {U : Type}.
Abbreviation prog := (prog (lstate single_link_node U)).
Implicit Types (prev node head : Z).

Definition get_next (p : Z) : prog Z := n ← node_at p; mret (sn_next n).
Definition set_next (p v : Z) : prog unit :=
  node_set p (λ n, mk_single_link_node v (sn_destroy n)).

Definition single_link_node_init node : prog unit := set_next node 0.
Definition circle_link_node_init node : prog unit := set_next node node.

Definition single_link_insert_base prev node : prog unit :=
  n ← get_next prev; set_next node n;; set_next prev node.
Definition single_link_remove_base prev node : prog unit :=
  n ← get_next node; set_next prev n;; set_next node 0.
Definition circle_link_remove_base prev node : prog unit :=
  n ← get_next node; set_next prev n;; set_next node node.

Definition single_link_init (ret : Z) (link : single_link) (offset : Z) : prog (Z * single_link) :=
  let link := mk_single_link offset (sl_head link) in
  single_link_node_init (sl_head link);;
  r ← pthread_mutex_init ret; mret (r, link).

Definition single_link_deinit (link : single_link) : prog unit := pthread_mutex_destroy.

Definition single_link_empty (link : single_link) : prog bool :=
  pthread_mutex_lock;; n ← get_next (sl_head link); pthread_mutex_unlock;; mret (n =? 0).

Definition single_link_get_first_node (link : single_link) : prog Z :=
  pthread_mutex_lock;; n ← get_next (sl_head link); pthread_mutex_unlock;; mret n.

Definition single_link_insert (link : single_link) prev node : prog unit :=
  pthread_mutex_lock;; single_link_insert_base prev node;; pthread_mutex_unlock.

Definition single_link_append (link : single_link) node : prog unit :=
  pthread_mutex_lock;;
  fuel ← walk_fuel;
  r ← for_prevs (R := Empty_set) fuel get_next 0 (λ _, mret None) (sl_head link);
  match (r : Empty_set + Z) with
  | inl e => match e with end
  | inr prev => single_link_insert_base prev node;; pthread_mutex_unlock
  end.

Definition single_link_remove (link : single_link) node : prog bool :=
  pthread_mutex_lock;;
  fuel ← walk_fuel;
  r ← for_nodes fuel get_next 0 (λ prev,
        n ← get_next prev;
        if n =? node then
          single_link_remove_base prev node;; pthread_mutex_unlock;; mret (Some true)
        else mret None) (sl_head link);
  match r with
  | Some b => mret b
  | None => pthread_mutex_unlock;; mret false
  end.

Definition single_link_push (link : single_link) node : prog unit :=
  pthread_mutex_lock;; single_link_insert_base (sl_head link) node;; pthread_mutex_unlock.

Definition single_link_pop (link : single_link) : prog Z :=
  pthread_mutex_lock;;
  node ← get_next (sl_head link);
  (if negb (node =? 0) then single_link_remove_base (sl_head link) node else mret tt);;
  pthread_mutex_unlock;; mret node.

Definition single_link_destroy (link : single_link) (handler : Z → prog unit) : prog unit :=
  pthread_mutex_lock;;
  node ← get_next (sl_head link);
  fuel ← walk_fuel;
  while_nodes fuel get_next 0 handler node;;
  single_link_node_init (sl_head link);;
  pthread_mutex_unlock.

Definition single_link_traversal (link : single_link) (handler : Z → prog unit) : prog unit :=
  pthread_mutex_lock;;
  node ← get_next (sl_head link);
  fuel ← walk_fuel;
  for_nodes (R := Empty_set) fuel get_next 0 (λ node, handler node;; mret None) node;;
  pthread_mutex_unlock.

Definition single_link_find (link : single_link) (matcher : Z → prog bool) : prog Z :=
  pthread_mutex_lock;;
  node ← get_next (sl_head link);
  fuel ← walk_fuel;
  r ← for_nodes fuel get_next 0 (λ node,
        b ← matcher node;
        if b : bool then pthread_mutex_unlock;; mret (Some node) else mret None) node;
  match r with
  | Some node => mret node
  | None => pthread_mutex_unlock;; mret 0
  end.

Definition single_link_node_match_equal (data : Z) node : prog bool := mret (node =? data).

Definition single_link_has_node (link : single_link) node : prog bool :=
  r ← single_link_find link (single_link_node_match_equal node); mret (negb (r =? 0)).

Definition single_link_remove_all (link : single_link) : prog unit :=
  pthread_mutex_lock;; single_link_node_init (sl_head link);; pthread_mutex_unlock.

Definition single_link_get_container (link : single_link) node : Z := node - sl_offset link.

Definition single_link_free_handler (link : single_link) node : prog unit :=
  free_container (sl_offset link) (single_link_get_container link node).

Definition single_link_free_all (link : single_link) : prog unit :=
  single_link_destroy link (single_link_free_handler link).

(** ** Circular links *)

Definition circle_link_init (ret : Z) (link : circle_link) (offset : Z) : prog (Z * circle_link) :=
  let link := mk_circle_link offset (cl_head link) in
  circle_link_node_init (cl_head link);;
  r ← pthread_mutex_init ret; mret (r, link).

Definition circle_link_deinit (link : circle_link) : prog unit := pthread_mutex_destroy.

Definition circle_link_empty (link : circle_link) : prog bool :=
  pthread_mutex_lock;; n ← get_next (cl_head link); pthread_mutex_unlock;; mret (n =? cl_head link).

Definition circle_link_get_first_node (link : circle_link) : prog Z :=
  pthread_mutex_lock;;
  node ← get_next (cl_head link);
  let node := if node =? cl_head link then 0 else node in
  pthread_mutex_unlock;; mret node.

Definition circle_link_append (link : circle_link) node : prog unit :=
  pthread_mutex_lock;;
  fuel ← walk_fuel;
  r ← for_prevs (R := Empty_set) fuel get_next (cl_head link) (λ _, mret None) (cl_head link);
  match (r : Empty_set + Z) with
  | inl e => match e with end
  | inr prev => single_link_insert_base prev node;; pthread_mutex_unlock
  end.

Definition circle_link_insert (link : circle_link) prev node : prog unit :=
  pthread_mutex_lock;; single_link_insert_base prev node;; pthread_mutex_unlock.

Definition circle_link_remove (link : circle_link) node : prog bool :=
  pthread_mutex_lock;;
  fuel ← walk_fuel;
  r ← for_prevs fuel get_next (cl_head link) (λ prev,
        n ← get_next prev;
        if n =? node then
          circle_link_remove_base prev node;; pthread_mutex_unlock;; mret (Some true)
        else mret None) (cl_head link);
  match r with
  | inl b => mret b
  | inr _ => pthread_mutex_unlock;; mret false
  end.

Definition circle_link_push (link : circle_link) node : prog unit :=
  pthread_mutex_lock;; single_link_insert_base (cl_head link) node;; pthread_mutex_unlock.

Definition circle_link_pop (link : circle_link) : prog Z :=
  pthread_mutex_lock;;
  node ← get_next (cl_head link);
  node ← (if node =? cl_head link then mret 0
          else single_link_remove_base (cl_head link) node;; mret node);
  pthread_mutex_unlock;; mret node.

Definition circle_link_destroy (link : circle_link) (handler : Z → prog unit) : prog unit :=
  pthread_mutex_lock;;
  node ← get_next (cl_head link);
  fuel ← walk_fuel;
  while_nodes fuel get_next (cl_head link) handler node;;
  circle_link_node_init (cl_head link);;
  pthread_mutex_unlock.

Definition circle_link_traversal (link : circle_link) (handler : Z → prog unit) : prog unit :=
  pthread_mutex_lock;;
  node ← get_next (cl_head link);
  fuel ← walk_fuel;
  for_nodes (R := Empty_set) fuel get_next (cl_head link) (λ node, handler node;; mret None) node;;
  pthread_mutex_unlock.

Definition circle_link_find (link : circle_link) (matcher : Z → prog bool) : prog Z :=
  pthread_mutex_lock;;
  node ← get_next (cl_head link);
  fuel ← walk_fuel;
  r ← for_nodes fuel get_next (cl_head link) (λ node,
        b ← matcher node;
        if b : bool then pthread_mutex_unlock;; mret (Some node) else mret None) node;
  match r with
  | Some node => mret node
  | None => pthread_mutex_unlock;; mret 0
  end.

Definition circle_link_node_match_equal (data : Z) node : prog bool := mret (node =? data).

Definition circle_link_has_node (link : circle_link) node : prog bool :=
  r ← circle_link_find link (circle_link_node_match_equal node); mret (negb (r =? 0)).

Definition circle_link_remove_all (link : circle_link) : prog unit :=
  pthread_mutex_lock;; circle_link_node_init (cl_head link);; pthread_mutex_unlock.

Definition circle_link_get_container (link : circle_link) node : Z := node - cl_offset link.

Definition circle_link_free_handler (link : circle_link) node : prog unit :=
  free_container (cl_offset link) (circle_link_get_container link node).

Definition circle_link_free_all (link : circle_link) : prog unit :=
  circle_link_destroy link (circle_link_free_handler link).
End single.

(** ** Double links *)

Section double.
Context {U : Type}.
Abbreviation prog := (prog (lstate double_link_node U)).
Implicit Types (prev next node head : Z).

Definition d_get_next (p : Z) : prog Z := n ← node_at p; mret (dn_next n).
Definition d_get_prev (p : Z) : prog Z := n ← node_at p; mret (dn_prev n).
Definition d_set_next (p v : Z) : prog unit := node_set p (λ n, mk_double_link_node (dn_prev n) v).
Definition d_set_prev (p v : Z) : prog unit := node_set p (λ n, mk_double_link_node v (dn_next n)).

Definition double_link_node_init node : prog unit :=
  d_set_prev node node;; d_set_next node node.

Definition double_link_insert_base prev next node : prog unit :=
  d_set_next prev node;; d_set_next node next;;
  d_set_prev next node;; d_set_prev node prev.
Definition double_link_insert_base2 next node : prog unit :=
  prev ← d_get_prev next; double_link_insert_base prev next node.
Definition double_link_insert_base3 prev node : prog unit :=
  next ← d_get_next prev; double_link_insert_base prev next node.

Definition double_link_remove_only node : prog unit :=
  prev ← d_get_prev node; next ← d_get_next node; d_set_next prev next;;
  next ← d_get_next node; prev ← d_get_prev node; d_set_prev next prev.
Definition double_link_remove_base node : prog unit :=
  double_link_remove_only node;; d_set_prev node node;; d_set_next node node.
Definition double_link_move_base prev next node : prog unit :=
  double_link_remove_only node;; double_link_insert_base prev next node.

Definition double_link_init (ret : Z) (link : double_link) (offset : Z) : prog (Z * double_link) :=
  let link := mk_double_link offset (dl_head link) in
  double_link_node_init (dl_head link);;
  r ← pthread_mutex_init ret; mret (r, link).

Definition double_link_deinit (link : double_link) : prog unit := pthread_mutex_destroy.

Definition double_link_empty (link : double_link) : prog bool :=
  pthread_mutex_lock;; n ← d_get_next (dl_head link); pthread_mutex_unlock;; mret (n =? dl_head link).

Definition double_link_get_first_node (link : double_link) : prog Z :=
  pthread_mutex_lock;;
  node ← d_get_next (dl_head link);
  let node := if node =? dl_head link then 0 else node in
  pthread_mutex_unlock;; mret node.

Definition double_link_get_last_node (link : double_link) : prog Z :=
  pthread_mutex_lock;;
  node ← d_get_prev (dl_head link);
  let node := if node =? dl_head link then 0 else node in
  pthread_mutex_unlock;; mret node.

Definition double_link_insert (link : double_link) next node : prog unit :=
  pthread_mutex_lock;;
  (prev ← d_get_prev next; double_link_insert_base prev next node);;
  pthread_mutex_unlock.

Definition double_link_insert2 (link : double_link) prev node : prog unit :=
  pthread_mutex_lock;;
  (next ← d_get_next prev; double_link_insert_base prev next node);;
  pthread_mutex_unlock.

Definition double_link_append (link : double_link) node : prog unit :=
  pthread_mutex_lock;; double_link_insert_base2 (dl_head link) node;; pthread_mutex_unlock.

Definition double_link_push (link : double_link) node : prog unit :=
  pthread_mutex_lock;; double_link_insert_base3 (dl_head link) node;; pthread_mutex_unlock.

Definition double_link_remove (link : double_link) node : prog unit :=
  pthread_mutex_lock;; double_link_remove_base node;; pthread_mutex_unlock.

Definition double_link_pop (link : double_link) : prog Z :=
  pthread_mutex_lock;;
  node ← d_get_next (dl_head link);
  node ← (if node =? dl_head link then mret 0 else double_link_remove_base node;; mret node);
  pthread_mutex_unlock;; mret node.

Definition double_link_destroy (link : double_link) (handler : Z → prog unit) : prog unit :=
  pthread_mutex_lock;;
  node ← d_get_next (dl_head link);
  fuel ← walk_fuel;
  while_nodes fuel d_get_next (dl_head link) handler node;;
  double_link_node_init (dl_head link);;
  pthread_mutex_unlock.

Definition double_link_traversal (link : double_link) (handler : Z → prog unit) : prog unit :=
  pthread_mutex_lock;;
  node ← d_get_next (dl_head link);
  fuel ← walk_fuel;
  for_nodes (R := Empty_set) fuel d_get_next (dl_head link) (λ node, handler node;; mret None) node;;
  pthread_mutex_unlock.

Definition double_link_traversal2 (link : double_link) (handler : Z → prog unit) : prog unit :=
  pthread_mutex_lock;;
  node ← d_get_prev (dl_head link);
  fuel ← walk_fuel;
  for_nodes (R := Empty_set) fuel d_get_prev (dl_head link) (λ node, handler node;; mret None) node;;
  pthread_mutex_unlock.

Definition double_link_find_base (link : double_link) (matcher : Z → prog bool) : prog Z :=
  node ← d_get_next (dl_head link);
  fuel ← walk_fuel;
  r ← for_nodes fuel d_get_next (dl_head link) (λ node,
        b ← matcher node; mret (if b : bool then Some node else None)) node;
  mret (default 0 r).

Definition double_link_find (link : double_link) (matcher : Z → prog bool) : prog Z :=
  pthread_mutex_lock;; node ← double_link_find_base link matcher; pthread_mutex_unlock;; mret node.

Definition double_link_node_match_equal (data : Z) node : prog bool := mret (node =? data).

Definition double_link_has_node (link : double_link) node : prog bool :=
  r ← double_link_find link (double_link_node_match_equal node); mret (negb (r =? 0)).

(** [for (node = head->next; node != head; node = node->next, index--)] *)
Fixpoint get_node_loop (fuel : nat) head node (index : Z) : prog Z :=
  match fuel with
  | O => λ _, NoFuel
  | S k =>
    if node =? head then mret 0
    else if index =? 0 then mret node
    else n ← d_get_next node; get_node_loop k head n (index - 1)
  end.
Definition double_link_get_node_base (link : double_link) (index : Z) : prog Z :=
  node ← d_get_next (dl_head link);
  fuel ← walk_fuel;
  get_node_loop fuel (dl_head link) node index.

Definition double_link_get_node (link : double_link) (index : Z) : prog Z :=
  pthread_mutex_lock;; node ← double_link_get_node_base link index; pthread_mutex_unlock;; mret node.

Definition double_link_cond_insert_append (link : double_link) node (matcher : Z → prog bool) : prog unit :=
  pthread_mutex_lock;;
  (next ← double_link_find_base link matcher;
   if negb (next =? 0) then prev ← d_get_prev next; double_link_insert_base prev next node
   else double_link_insert_base2 (dl_head link) node);;
  pthread_mutex_unlock.

Definition double_link_cond_insert_push (link : double_link) node (matcher : Z → prog bool) : prog unit :=
  pthread_mutex_lock;;
  (next ← double_link_find_base link matcher;
   if negb (next =? 0) then prev ← d_get_prev next; double_link_insert_base prev next node
   else double_link_insert_base3 (dl_head link) node);;
  pthread_mutex_unlock.

Definition double_link_move (link : double_link) next node : prog unit :=
  pthread_mutex_lock;;
  (n ← d_get_next node;
   if negb (n =? next) then prev ← d_get_prev next; double_link_move_base prev next node else mret tt);;
  pthread_mutex_unlock.

Definition double_link_move2 (link : double_link) prev node : prog unit :=
  pthread_mutex_lock;;
  (p ← d_get_prev node;
   if negb (p =? prev) then next ← d_get_next prev; double_link_move_base prev next node else mret tt);;
  pthread_mutex_unlock.

Definition double_link_move_to_head (link : double_link) node : prog unit :=
  pthread_mutex_lock;;
  (n ← d_get_next (dl_head link);
   if negb (n =? node) then n ← d_get_next (dl_head link); double_link_move_base (dl_head link) n node
   else mret tt);;
  pthread_mutex_unlock.

Definition double_link_move_to_tail (link : double_link) node : prog unit :=
  pthread_mutex_lock;;
  (n ← d_get_next node;
   if negb (n =? dl_head link) then p ← d_get_prev (dl_head link); double_link_move_base p (dl_head link) node
   else mret tt);;
  pthread_mutex_unlock.

Definition double_link_remove_all (link : double_link) : prog unit :=
  pthread_mutex_lock;; double_link_node_init (dl_head link);; pthread_mutex_unlock.

Definition double_link_get_container (link : double_link) node : Z := node - dl_offset link.
Definition double_link_get_to_node (link : double_link) (addr : Z) : Z := addr + dl_offset link.

Definition double_link_free_handler (link : double_link) node : prog unit :=
  free_container (dl_offset link) (double_link_get_container link node).

Definition double_link_free_all (link : double_link) : prog unit :=
  double_link_destroy link (double_link_free_handler link).
End double.

(** [for (a_end = a + size; a < a_end; a++)] *)
Fixpoint array_has_loop (fuel : nat) (element : Z) (a : list Z) (i size : Z) : cres bool :=
  match fuel with
  | O => NoFuel
  | S k =>
    if i <? size then
      x ← load a i;
      if x =? element then mret true else array_has_loop k element a (i + 1) size
    else mret false
  end.
Definition array_has_element (element : Z) (a : list Z) (size : Z) : cres bool :=
  array_has_loop (S (Z.to_nat size)) element a 0 size.


(** ** Chains *)

(** [chain E c b]: consecutive elements of [c] are related by [E], and so is
    the last one to [b]. *)
Section chain.
Implicit Types (E : Z → Z → Prop) (c : list Z).

Fixpoint chain E c (b : Z) : Prop :=
  match c with
  | [] => True
  | x :: c => E x (hd b c) ∧ chain E c b
  end.

Lemma hd_app c1 c2 (b : Z) : hd b (c1 ++ c2) = hd (hd b c2) c1.
Proof. by destruct c1. Qed.

Lemma chain_app E c1 c2 b : chain E (c1 ++ c2) b ↔ chain E c1 (hd b c2) ∧ chain E c2 b.
Proof. induction c1 as [|x c1 IH]; simpl; [tauto|]. rewrite IH, hd_app. tauto. Qed.

Lemma chain_mono E E' c b :
  chain E c b → (∀ x y, x ∈ c → y ∈ tail c ∨ y = b → E x y → E' x y) → chain E' c b.
Proof.
  revert b. induction c as [|x c IH]; intros b; [done|]. simpl. intros [Hx Hc] Hm. split.
  - apply Hm; [left| |done]. destruct c; simpl; [auto|left; left].
  - apply IH; [done|]. intros y z Hy Hz. apply Hm; [by right|]. destruct Hz as [Hz|Hz]; [left|by right].
    destruct c; [by inversion Hz|by right].
Qed.
End chain.

(** Nodes of a list without repetition that are all in a map are not more
    than the map's. *)
Lemma nodes_bounded {V} (m : gmap Z V) (c : list Z) :
  NoDup c → (∀ x, x ∈ c → is_Some (m !! x)) → (length c ≤ size m)%nat.
Proof.
  intros Hnd Hin. rewrite <-size_dom, <-(size_list_to_set (C := gset Z) c) by done.
  apply subseteq_size. intros x. rewrite elem_of_list_to_set, elem_of_dom. apply Hin.
Qed.

(** ** Loops over the nodes of a chain *)

Section loops.
Context {N U : Type}.
Abbreviation prog := (prog (lstate N U)).

(** [I] holds of the nodes already visited. *)
Lemma wpp_for_nodes {R} next stop (body : Z → prog (option R)) (I : list Z → lstate N U → Prop) Q l2 :
  ∀ fuel l1 s,
  (∀ l1' x l2' s, l1 ++ l2 = l1' ++ x :: l2' → I l1' s →
    wpp (body x) s (λ r s', match r with
      | Some v => Q (Some v) s'
      | None => wpp (next x) s' (λ y s'', y = hd stop l2' ∧ I (l1' ++ [x]) s'')
      end)) →
  (∀ s, I (l1 ++ l2) s → Q None s) → stop ∉ l2 → (length l2 < fuel)%nat →
  I l1 s → wpp (for_nodes fuel next stop body (hd stop l2)) s Q.
Proof.
  induction l2 as [|x l2 IH]; intros fuel l1 s Hb HQ Hs Hf HI; (destruct fuel as [|k]; [simpl in *; lia|]); simpl.
  - rewrite Z.eqb_refl. apply wpp_ret, HQ. by rewrite app_nil_r.
  - destruct (Z.eqb_spec x stop) as [->|Hne]; [by destruct Hs; left|]. apply wpp_bind.
    eapply wpp_mono; [by eapply Hb|]. intros [v|] s'; [done|]. intros Hn. apply wpp_bind.
    eapply wpp_mono; [exact Hn|]. intros y s'' [Hy HI']. subst y.
    apply (IH k (l1 ++ [x])); [|by rewrite <-app_assoc|set_solver|simpl in *; lia|done].
    rewrite <-app_assoc. done.
Qed.

Lemma wpp_while_nodes next stop (handler : Z → prog unit) (I : list Z → lstate N U → Prop) Q l2 :
  ∀ fuel l1 s,
  (∀ l1' x l2' s, l1 ++ l2 = l1' ++ x :: l2' → I l1' s →
    wpp (next x) s (λ y s', y = hd stop l2' ∧ wpp (handler x) s' (λ _ s'', I (l1' ++ [x]) s''))) →
  (∀ s, I (l1 ++ l2) s → Q tt s) → stop ∉ l2 → (length l2 < fuel)%nat →
  I l1 s → wpp (while_nodes fuel next stop handler (hd stop l2)) s Q.
Proof.
  induction l2 as [|x l2 IH]; intros fuel l1 s Hb HQ Hs Hf HI; (destruct fuel as [|k]; [simpl in *; lia|]); simpl.
  - rewrite Z.eqb_refl. apply wpp_ret, HQ. by rewrite app_nil_r.
  - destruct (Z.eqb_spec x stop) as [->|Hne]; [by destruct Hs; left|]. apply wpp_bind.
    eapply wpp_mono; [by eapply Hb|]. intros y s' [Hy Hh]. subst y. apply wpp_bind.
    eapply wpp_mono; [exact Hh|]. intros [] s'' HI'.
    apply (IH k (l1 ++ [x])); [|by rewrite <-app_assoc|set_solver|simpl in *; lia|done].
    rewrite <-app_assoc. done.
Qed.

(** A loop over predecessors is a loop over [p :: l2] that never visits the
    last node. *)
Lemma wpp_for_prevs {R} next stop (body : Z → prog (option R)) (I : list Z → lstate N U → Prop) Q l2 :
  ∀ fuel l1 p s,
  (∀ l1' x l2' s, l1 ++ p :: l2 = l1' ++ x :: l2' → I l1' s →
    wpp (next x) s (λ y s', y = hd stop l2' ∧ I l1' s')) →
  (∀ l1' x l2' s, l1 ++ p :: l2 = l1' ++ x :: l2' → l2' ≠ [] → I l1' s →
    wpp (body x) s (λ r s', match r with
      | Some v => Q (inl v) s'
      | None => I l1' s' ∧ ∀ s, I l1' s → I (l1' ++ [x]) s
      end)) →
  (∀ l0 x s, l1 ++ p :: l2 = l0 ++ [x] → I l0 s → Q (inr x) s) → stop ∉ l2 → (length l2 < fuel)%nat →
  I l1 s → wpp (for_prevs fuel next stop body p) s Q.
Proof.
  induction l2 as [|x l2 IH]; intros fuel l1 p s Hn Hb HQ Hs Hf HI; (destruct fuel as [|k]; [simpl in *; lia|]); simpl; apply wpp_bind.
  - eapply wpp_mono; [by eapply Hn|]. intros y s' [Hy HI']. subst y. rewrite Z.eqb_refl. apply wpp_ret. by eapply HQ.
  - eapply wpp_mono; [by eapply Hn|]. intros y s' [Hy HI']. subst y. simpl.
    destruct (Z.eqb_spec x stop) as [->|Hne]; [by destruct Hs; left|]. apply wpp_bind.
    eapply wpp_mono; [by eapply Hb|]. intros [v|] s''; [done|]. intros [HI'' Hstep]. apply wpp_bind.
    eapply wpp_mono; [by eapply Hn|]. intros y s3 [Hy HI3]. subst y.
    apply (IH k (l1 ++ [p])); rewrite <-?app_assoc; [done|done|done|set_solver|simpl in *; lia|by apply Hstep].
Qed.
End loops.

(** ** Singly linked chains *)

Definition nexts (h : gmap Z single_link_node) : gmap Z Z := sn_next <$> h.

(** The nodes [c], in this order, without repetition, the last one leading to
    [stop]. *)
Record sl_links (nx : gmap Z Z) (c : list Z) (stop : Z) : Prop := {
  sll_nodup : NoDup c;
  sll_chain : chain (λ x y, nx !! x = Some y) c stop;
  sll_stop : stop ∉ tail c }.

Lemma links_lookup nx c1 p c2 stop : sl_links nx (c1 ++ p :: c2) stop → nx !! p = Some (hd stop c2).
Proof. intros [_ Hc _]. apply chain_app in Hc as [_ [? _]]. done. Qed.

Lemma links_in nx c stop x : sl_links nx c stop → x ∈ c → is_Some (nx !! x).
Proof.
  intros Hl Hx. apply list_elem_of_split in Hx as (c1 & c2 & ->).
  rewrite (links_lookup _ _ _ _ _ Hl). eauto.
Qed.

(** A store to nodes outside [c] does not change the links of [c]. *)
Lemma chain_insert_ne (nx : gmap Z Z) c b p v :
  chain (λ x y, nx !! x = Some y) c b → p ∉ c → chain (λ x y, <[p:=v]> nx !! x = Some y) c b.
Proof.
  intros Hc Hp. eapply chain_mono; [exact Hc|]. intros x y Hx _ Hxy.
  rewrite lookup_insert_ne; [done|]. intros ->. done.
Qed.

Lemma NoDup_middle {A} (c1 : list A) x c2 : NoDup (c1 ++ x :: c2) ↔ (x ∉ c1) ∧ (x ∉ c2) ∧ NoDup (c1 ++ c2).
Proof. rewrite !NoDup_app, NoDup_cons. set_solver. Qed.

Lemma tail_app_cons {A} (c1 : list A) x c2 :
  tail (c1 ++ x :: c2) = match c1 with [] => c2 | _ :: c1 => c1 ++ x :: c2 end.
Proof. by destruct c1. Qed.

Lemma links_insert nx c1 p c2 stop n :
  sl_links nx (c1 ++ p :: c2) stop → n ∉ c1 ++ p :: c2 → n ≠ stop →
  sl_links (<[p:=n]> (<[n:=hd stop c2]> nx)) (c1 ++ p :: n :: c2) stop.
Proof.
  intros [Hnd Hc Hs] Hn Hns. pose proof Hnd as (Hp1 & Hp2 & _)%NoDup_middle.
  apply chain_app in Hc as [Hc1 [_ Hc2]]. split.
  - replace (c1 ++ p :: n :: c2) with ((c1 ++ [p]) ++ n :: c2) by (by rewrite <-app_assoc).
    apply NoDup_middle. rewrite <-app_assoc. set_solver.
  - apply chain_app; simpl. rewrite lookup_insert_eq, lookup_insert_ne, lookup_insert_eq by set_solver.
    split; [|split; [done|split; [done|]]]; apply chain_insert_ne; try apply chain_insert_ne; set_solver.
  - rewrite tail_app_cons in *. destruct c1; set_solver.
Qed.

Lemma links_remove nx c1 p n c2 stop v :
  sl_links nx (c1 ++ p :: n :: c2) stop →
  sl_links (<[n:=v]> (<[p:=hd stop c2]> nx)) (c1 ++ p :: c2) stop.
Proof.
  intros [Hnd Hc Hs]. pose proof Hnd as (Hp1 & Hp2 & Hnd2)%NoDup_middle.
  pose proof Hnd2 as (Hn1 & Hn2 & Hnd3)%NoDup_middle.
  apply chain_app in Hc as [Hc1 [_ [_ Hc2]]]. split.
  - apply NoDup_middle. set_solver.
  - apply chain_app; simpl. rewrite lookup_insert_ne, lookup_insert_eq by set_solver.
    split; [|split; [done|]]; apply chain_insert_ne; try apply chain_insert_ne; set_solver.
  - rewrite tail_app_cons in *. destruct c1; set_solver.
Qed.

Section single_spec.
Context {U : Type}.
Abbreviation lstate := (lstate single_link_node U).
Implicit Types (s : lstate) (nx : gmap Z Z) (lk : bool) (u : U).

(** What the proofs see of a store. *)
Record sview s nx lk u : Prop := {
  sv_nexts : nexts (ls_heap s) = nx;
  sv_locked : ls_locked s = lk;
  sv_user : ls_user s = u }.

Lemma wpp_lock s nx u (Q : unit → lstate → Prop) :
  sview s nx false u → (∀ s', sview s' nx true u → Q tt s') → wpp pthread_mutex_lock s Q.
Proof. intros [? Hl ?] HQ. unfold wpp, pthread_mutex_lock. rewrite Hl. by apply HQ. Qed.

Lemma wpp_unlock s nx u (Q : unit → lstate → Prop) :
  sview s nx true u → (∀ s', sview s' nx false u → Q tt s') → wpp pthread_mutex_unlock s Q.
Proof. intros [? Hl ?] HQ. unfold wpp, pthread_mutex_unlock. rewrite Hl. by apply HQ. Qed.

Lemma wpp_get_next s nx lk u p q (Q : Z → lstate → Prop) :
  sview s nx lk u → nx !! p = Some q → Q q s → wpp (get_next p) s Q.
Proof.
  intros [<- _ _] Hp HQ. unfold nexts in Hp. rewrite lookup_fmap in Hp.
  destruct (ls_heap s !! p) as [nd|] eqn:E; [|done]. injection Hp as <-.
  apply wpp_bind. unfold wpp, node_at. by rewrite E.
Qed.

Lemma wpp_set_next s nx lk u p v (Q : unit → lstate → Prop) :
  sview s nx lk u → is_Some (nx !! p) → (∀ s', sview s' (<[p:=v]> nx) lk u → Q tt s') →
  wpp (set_next p v) s Q.
Proof.
  intros [<- <- <-] Hp HQ. unfold nexts in Hp. rewrite lookup_fmap, fmap_is_Some in Hp.
  destruct Hp as [nd Hp]. unfold wpp, set_next, node_set. rewrite Hp. apply HQ. split; [|done..].
  simpl. unfold nexts. apply map_eq. intros x. rewrite lookup_fmap.
  destruct (decide (x = p)) as [->|Hne].
  - by rewrite lookup_alter_eq, Hp, lookup_insert_eq.
  - by rewrite lookup_alter_ne, lookup_insert_ne, lookup_fmap by done.
Qed.

Lemma wpp_insert_base s nx lk u p q n (Q : unit → lstate → Prop) :
  sview s nx lk u → nx !! p = Some q → is_Some (nx !! n) →
  (∀ s', sview s' (<[p:=n]> (<[n:=q]> nx)) lk u → Q tt s') → wpp (single_link_insert_base p n) s Q.
Proof.
  intros Hv Hp Hn HQ. apply wpp_bind. eapply wpp_get_next; [done..|]. apply wpp_bind.
  eapply wpp_set_next; [done..|]. intros s1 Hv1. eapply wpp_set_next; [done| |done].
  apply lookup_insert_is_Some'. right. by rewrite Hp.
Qed.

Lemma wpp_remove_base s nx lk u p n q (Q : unit → lstate → Prop) :
  sview s nx lk u → nx !! n = Some q → is_Some (nx !! p) →
  (∀ s', sview s' (<[n:=0]> (<[p:=q]> nx)) lk u → Q tt s') → wpp (single_link_remove_base p n) s Q.
Proof.
  intros Hv Hn Hp HQ. apply wpp_bind. eapply wpp_get_next; [done..|]. apply wpp_bind.
  eapply wpp_set_next; [done..|]. intros s1 Hv1. eapply wpp_set_next; [done| |done].
  apply lookup_insert_is_Some'. right. by rewrite Hn.
Qed.

Lemma wpp_circle_remove_base s nx lk u p n q (Q : unit → lstate → Prop) :
  sview s nx lk u → nx !! n = Some q → is_Some (nx !! p) →
  (∀ s', sview s' (<[n:=n]> (<[p:=q]> nx)) lk u → Q tt s') → wpp (circle_link_remove_base p n) s Q.
Proof.
  intros Hv Hn Hp HQ. apply wpp_bind. eapply wpp_get_next; [done..|]. apply wpp_bind.
  eapply wpp_set_next; [done..|]. intros s1 Hv1. eapply wpp_set_next; [done| |done].
  apply lookup_insert_is_Some'. right. by rewrite Hn.
Qed.

Lemma wpp_walk_fuel s nx lk u c stop (Q : nat → lstate → Prop) :
  sview s nx lk u → sl_links nx c stop → (∀ k, (length c + 1 < k)%nat → Q k s) → wpp walk_fuel s Q.
Proof.
  intros [<- _ _] Hl HQ. apply wpp_reads, HQ.
  pose proof (nodes_bounded (nexts (ls_heap s)) c (sll_nodup _ _ _ Hl) (λ x, links_in _ _ _ x Hl)) as Hb.
  unfold nexts in Hb. rewrite map_size_fmap in Hb. lia.
Qed.

(** ** Lists of nodes *)

Fixpoint insert_after (p n : Z) (c : list Z) : list Z :=
  match c with
  | [] => []
  | x :: c => if x =? p then x :: n :: c else x :: insert_after p n c
  end.
Definition without (n : Z) (c : list Z) : list Z := filter (λ x, x ≠ n) c.

Lemma insert_after_split p n c1 c2 : p ∉ c1 → insert_after p n (c1 ++ p :: c2) = c1 ++ p :: n :: c2.
Proof.
  induction c1 as [|x c1 IH]; simpl; [by rewrite Z.eqb_refl|]. intros Hp.
  destruct (Z.eqb_spec x p); [set_solver|]. f_equal. apply IH. set_solver.
Qed.

Lemma insert_after_hd p n x c : x :: tail (insert_after p n (x :: c)) = insert_after p n (x :: c).
Proof. simpl. by destruct (x =? p). Qed.

Lemma without_notin n c : n ∉ c → without n c = c.
Proof.
  intros Hn. induction c as [|x c IH]; [done|]. unfold without in *.
  rewrite filter_cons_True by set_solver. f_equal. apply IH. set_solver.
Qed.

Lemma without_middle n c1 c2 : n ∉ c1 → n ∉ c2 → without n (c1 ++ n :: c2) = c1 ++ c2.
Proof.
  intros H1 H2. unfold without. rewrite filter_app, filter_cons_False by tauto.
  f_equal; by apply without_notin.
Qed.

Lemma insert_after_last x n y l l0 :
  NoDup (y :: l) → y :: l = l0 ++ [x] → tail (insert_after x n (y :: l)) = l ++ [n].
Proof.
  intros Hnd E. assert (insert_after x n (y :: l) = (y :: l) ++ [n]) as ->; [|done].
  rewrite E in *. apply NoDup_middle in Hnd as (Hx & _).
  rewrite insert_after_split by done. by rewrite <-app_assoc.
Qed.

(** The first node the test [f] accepts, or NULL. *)
Fixpoint first_match (f : Z → bool) (l : list Z) : Z :=
  match l with [] => 0 | x :: l => if f x then x else first_match f l end.

Lemma first_match_app f l1 l2 :
  Forall (λ x, f x = false) l1 → first_match f (l1 ++ l2) = first_match f l2.
Proof. induction 1 as [|x l1 Hx _ IH]; [done|]. simpl. by rewrite Hx. Qed.

(** The list with head node [head] holds the nodes [l]; the nodes that exist
    are [D]; the lock is free and the callbacks' data is [u]. *)
Record link_rep (head stop : Z) (D : gset Z) (u : U) (l : list Z) s : Prop := {
  lk_stop : stop = 0 ∨ stop = head;
  lk_null : 0 ∉ D;
  lk_dom : dom (nexts (ls_heap s)) = D;
  lk_links : sl_links (nexts (ls_heap s)) (head :: l) stop;
  lk_unlocked : ls_locked s = false;
  lk_user : ls_user s = u }.

Lemma link_rep_view head stop D u l s :
  link_rep head stop D u l s → sview s (nexts (ls_heap s)) false u.
Proof. by intros []. Qed.

Lemma link_rep_intro head stop D u l s nx :
  stop = 0 ∨ stop = head → 0 ∉ D → dom nx = D → sl_links nx (head :: l) stop → sview s nx false u →
  link_rep head stop D u l s.
Proof. intros ???? []. subst. by split. Qed.

Lemma link_rep_in head stop D u l s x : link_rep head stop D u l s → x ∈ head :: l → x ∈ D.
Proof. intros [? ? Hd Hl ? ?] Hx. rewrite <-Hd, elem_of_dom. by eapply links_in. Qed.

Lemma link_rep_stop head stop D u l s : link_rep head stop D u l s → stop ∉ l.
Proof. by intros [_ _ _ [] _ _]. Qed.

Section ops.
Variables (head stop : Z) (D : gset Z) (u : U).
Notation rep := (link_rep head stop D u).

(** The common end of an insertion: the links after [p], and the lock. *)
Lemma wpp_insert_unlock s nx l p n :
  (stop = 0 ∨ stop = head) → 0 ∉ D → dom nx = D → sl_links nx (head :: l) stop → sview s nx true u →
  p ∈ head :: l → n ∈ D → n ∉ head :: l →
  wpp (single_link_insert_base p n;; pthread_mutex_unlock) s
      (λ _ s', rep (tail (insert_after p n (head :: l))) s').
Proof.
  intros Hst H0 Hd Hl Hv Hp Hn Hnl. apply list_elem_of_split in Hp as (c1 & c2 & Hc).
  pose proof (sll_nodup _ _ _ Hl) as Hnd. rewrite Hc in Hnd. apply NoDup_middle in Hnd as (Hp1 & _).
  pose proof Hl as Hl'. rewrite Hc in Hl'. apply wpp_bind.
  eapply wpp_insert_base; [done|by eapply links_lookup|by rewrite <-elem_of_dom, Hd|].
  intros s1 Hv1. eapply wpp_unlock; [done|]. intros s2 Hv2.
  eapply link_rep_intro; [done|done| | |done].
  - rewrite !dom_insert_L, Hd. assert (p ∈ D); [|set_solver].
    rewrite <-Hd, elem_of_dom. eapply links_in; [exact Hl'|]. set_solver.
  - rewrite insert_after_hd, Hc, insert_after_split by done.
    apply links_insert; [done|by rewrite <-Hc|]. destruct Hst; set_solver.
Qed.

Lemma link_insert_ok (s : lstate) l p n :
  rep l s → p ∈ head :: l → n ∈ D → n ∉ head :: l →
  wpp (pthread_mutex_lock;; single_link_insert_base p n;; pthread_mutex_unlock) s
      (λ _ s', rep (tail (insert_after p n (head :: l))) s').
Proof.
  intros Hr Hp Hn Hnl. pose proof Hr as [Hst H0 Hd Hl _ _]. apply wpp_bind.
  eapply wpp_lock; [by eapply link_rep_view|]. intros s1 Hv1. by eapply wpp_insert_unlock.
Qed.

Lemma wpp_removed s nx l n v c1 p c2 :
  (stop = 0 ∨ stop = head) → 0 ∉ D → dom nx = D → sl_links nx (head :: l) stop →
  head :: l = c1 ++ p :: n :: c2 → sview s (<[n:=v]> (<[p:=hd stop c2]> nx)) false u →
  rep (without n l) s.
Proof.
  intros Hst H0 Hd Hl Hc Hv. pose proof (sll_nodup _ _ _ Hl) as Hnd.
  rewrite Hc in Hnd, Hl. apply NoDup_middle in Hnd as (Hp1 & Hp2 & (Hn1 & Hn2 & _)%NoDup_middle).
  assert (head :: without n l = c1 ++ p :: c2) as E.
  { destruct c1 as [|x c1]; simpl in *; injection Hc as -> ->.
    - unfold without. rewrite filter_cons_False by tauto. f_equal. by apply without_notin.
    - f_equal. replace (c1 ++ p :: n :: c2) with ((c1 ++ [p]) ++ n :: c2) by (by rewrite <-app_assoc).
      rewrite without_middle by set_solver. by rewrite <-app_assoc. }
  eapply link_rep_intro; [done|done| | |done].
  - rewrite !dom_insert_L, Hd. assert (p ∈ D ∧ n ∈ D); [|set_solver].
    rewrite <-Hd, !elem_of_dom. split; (eapply links_in; [exact Hl|]; set_solver).
  - rewrite E. by apply links_remove.
Qed.

Lemma link_append_ok s l n :
  rep l s → n ∈ D → n ∉ head :: l →
  wpp (pthread_mutex_lock;;
       fuel ← walk_fuel;
       r ← for_prevs (R := Empty_set) fuel get_next stop (λ _, mret None) head;
       match (r : Empty_set + Z) with
       | inl e => match e with end
       | inr prev => single_link_insert_base prev n;; pthread_mutex_unlock
       end) s (λ _ s', rep (l ++ [n]) s').
Proof.
  intros Hr Hn Hnl. pose proof Hr as [Hst H0 Hd Hl _ _]. apply wpp_bind.
  eapply wpp_lock; [by eapply link_rep_view|]. intros s1 Hv1. apply wpp_bind.
  eapply wpp_walk_fuel; [done..|]. intros k Hk. apply wpp_bind.
  apply (wpp_for_prevs _ _ _ (λ _ s', sview s' (nexts (ls_heap s)) true u) _ l k [] head).
  - intros l1 x l2 s2 E Hv2. eapply wpp_get_next; [done| |done]. simpl in E. rewrite E in Hl.
    by eapply links_lookup.
  - intros l1 x l2 s2 _ _ Hv2. by apply wpp_ret.
  - intros l0 x s2 E Hv2. simpl in E.
    eapply wpp_mono; [eapply wpp_insert_unlock; try done; rewrite E; set_solver|].
    intros [] s3. by rewrite (insert_after_last x n head l l0 (sll_nodup _ _ _ Hl) E).
  - by eapply link_rep_stop.
  - simpl in *. lia.
  - done.
Qed.

Lemma links_first nx l : sl_links nx (head :: l) stop → nx !! head = Some (hd stop l).
Proof. apply (links_lookup _ [] head). Qed.

Lemma link_first_ok {B} (g : Z → B) s l (Q : B → lstate → Prop) :
  rep l s → (∀ s', rep l s' → Q (g (hd stop l)) s') →
  wpp (pthread_mutex_lock;; n ← get_next head; pthread_mutex_unlock;; mret (g n)) s Q.
Proof.
  intros Hr HQ. pose proof Hr as [Hst H0 Hd Hl _ _]. apply wpp_bind.
  eapply wpp_lock; [by eapply link_rep_view|]. intros s1 Hv1. apply wpp_bind.
  eapply wpp_get_next; [done|by apply links_first|]. apply wpp_bind. eapply wpp_unlock; [done|].
  intros s2 Hv2. apply wpp_ret, HQ. by eapply link_rep_intro.
Qed.

(** Taking the first node off the list. *)
Lemma wpp_remove_first {B} s l n (k : B) (Q : B → lstate → Prop) nx :
  (stop = 0 ∨ stop = head) → 0 ∉ D → dom nx = D → sl_links nx (head :: n :: l) stop → sview s nx true u →
  (∀ s', rep l s' → Q k s') →
  wpp (single_link_remove_base head n) s (λ _ s', wpp (pthread_mutex_unlock;; mret k) s' Q).
Proof.
  intros Hst H0 Hd Hl Hv HQ.
  eapply wpp_remove_base; [done|exact (links_lookup _ [head] n l stop Hl)|by rewrite (links_first _ _ Hl)|].
  intros s1 Hv1. apply wpp_bind. eapply wpp_unlock; [done|]. intros s2 Hv2. apply wpp_ret, HQ.
  pose proof (sll_nodup _ _ _ Hl) as Hnd. apply NoDup_cons in Hnd as [_ [Hn _]%NoDup_cons].
  assert (without n (n :: l) = l) as E.
  { unfold without. rewrite filter_cons_False by tauto. by apply without_notin. }
  rewrite <-E. eapply (wpp_removed _ _ _ n 0 [] head l); done.
Qed.

(** A node of the list is the successor of another. *)
Lemma pred_of l n : n ∈ l → ∃ c1 p c2, head :: l = c1 ++ p :: n :: c2.
Proof.
  intros (a & b & ->)%list_elem_of_split. destruct (exists_last (l := head :: a)) as (c1 & p & E); [done|].
  exists c1, p, b. change (head :: a ++ n :: b) with ((head :: a) ++ n :: b). rewrite E.
  by rewrite <-app_assoc.
Qed.

(** No node leads to [n]: it is not in the list. *)
Lemma no_pred nx l n :
  sl_links nx (head :: l) stop → Forall (λ x, nx !! x ≠ Some n) (head :: l) → n ∉ l.
Proof.
  intros Hl Hf (c1 & p & c2 & E)%pred_of. rewrite E in *.
  rewrite Forall_app in Hf. destruct Hf as [_ Hp%Forall_inv]. by rewrite (links_lookup _ _ _ _ _ Hl) in Hp.
Qed.

(** Unlinking [n] once its predecessor [p] is found. *)
Lemma wpp_remove_found s nx l p n c1 c2 (Q : option bool → lstate → Prop) remove v :
  (stop = 0 ∨ stop = head) → 0 ∉ D → dom nx = D → sl_links nx (head :: l) stop → sview s nx true u →
  (∀ s q (Q : unit → lstate → Prop), sview s nx true u → nx !! n = Some q → is_Some (nx !! p) →
    (∀ s', sview s' (<[n:=v]> (<[p:=q]> nx)) true u → Q tt s') → wpp remove s Q) →
  head :: l = c1 ++ p :: c2 → hd stop c2 = n → n ≠ stop →
  (∀ s', n ∈ l → rep (without n l) s' → Q (Some true) s') →
  wpp (remove;; pthread_mutex_unlock;; mret (Some true)) s Q.
Proof.
  intros Hst H0 Hd Hl Hv Hrm E Hh Hns HQ. destruct c2 as [|y c2]; simpl in Hh; [congruence|]. subst y.
  pose proof Hl as Hl'. rewrite E in Hl'. apply wpp_bind.
  eapply (Hrm _ (hd stop c2)); [done| |by rewrite (links_lookup _ _ _ _ _ Hl')|].
  - apply (links_lookup _ (c1 ++ [p]) n). by rewrite <-app_assoc.
  - intros s1 Hv1. apply wpp_bind. eapply wpp_unlock; [done|]. intros s2 Hv2. apply wpp_ret, HQ.
    + assert (n ∈ tail (head :: l)) by (rewrite E, tail_app_cons; destruct c1; set_solver). done.
    + by eapply wpp_removed.
Qed.

Lemma single_remove_ok s l n :
  rep l s → n ≠ stop → stop = 0 → head ≠ 0 →
  wpp (pthread_mutex_lock;;
       fuel ← walk_fuel;
       r ← for_nodes fuel get_next stop (λ prev,
             nx ← get_next prev;
             if nx =? n then
               single_link_remove_base prev n;; pthread_mutex_unlock;; mret (Some true)
             else mret None) head;
       match r with
       | Some b => mret b
       | None => pthread_mutex_unlock;; mret false
       end) s (λ b s', b = bool_decide (n ∈ l) ∧ rep (without n l) s').
Proof.
  intros Hr Hns Hs0 Hh0. pose proof Hr as [Hst H0 Hd Hl _ _]. apply wpp_bind.
  eapply wpp_lock; [by eapply link_rep_view|]. intros s1 Hv1. apply wpp_bind.
  eapply wpp_walk_fuel; [done..|]. intros k Hk. apply wpp_bind. set (nx := nexts (ls_heap s)) in *.
  apply (wpp_for_nodes _ _ _ (λ l1 s', Forall (λ x, nx !! x ≠ Some n) l1 ∧ sview s' nx true u) _ (head :: l) k []).
  - intros l1 x l2 s2 E [Hf Hv2]. simpl in E. pose proof Hl as Hl'. rewrite E in Hl'.
    apply wpp_bind. eapply wpp_get_next; [done|by eapply links_lookup|].
    destruct (Z.eqb_spec (hd stop l2) n) as [Hy|Hy].
    + eapply (wpp_remove_found _ nx l x n l1 l2 _ _ 0); try done.
      * intros. by eapply wpp_remove_base.
      * intros s3 Hin Hr3. apply wpp_ret. by rewrite bool_decide_true.
    + apply wpp_ret. eapply wpp_get_next; [done|by eapply links_lookup|]. split; [done|]. split; [|done].
      apply Forall_app_2; [done|]. constructor; [|done]. rewrite (links_lookup _ _ _ _ _ Hl'). congruence.
  - intros s2 [Hf Hv2]. simpl in Hf. pose proof (no_pred _ _ _ Hl Hf) as Hn. apply wpp_bind.
    eapply wpp_unlock; [done|]. intros s3 Hv3. apply wpp_ret. rewrite bool_decide_false by done.
    split; [done|]. rewrite without_notin by done. by eapply link_rep_intro.
  - pose proof (link_rep_stop _ _ _ _ _ _ Hr). set_solver.
  - simpl in *. lia.
  - by split.
Qed.

Lemma circle_remove_ok s l n :
  rep l s → n ≠ stop →
  wpp (pthread_mutex_lock;;
       fuel ← walk_fuel;
       r ← for_prevs fuel get_next stop (λ prev,
             nx ← get_next prev;
             if nx =? n then
               circle_link_remove_base prev n;; pthread_mutex_unlock;; mret (Some true)
             else mret None) head;
       match r with
       | inl b => mret b
       | inr _ => pthread_mutex_unlock;; mret false
       end) s (λ b s', b = bool_decide (n ∈ l) ∧ rep (without n l) s').
Proof.
  intros Hr Hns. pose proof Hr as [Hst H0 Hd Hl _ _]. apply wpp_bind.
  eapply wpp_lock; [by eapply link_rep_view|]. intros s1 Hv1. apply wpp_bind.
  eapply wpp_walk_fuel; [done..|]. intros k Hk. apply wpp_bind. set (nx := nexts (ls_heap s)) in *.
  apply (wpp_for_prevs _ _ _ (λ l1 s', Forall (λ x, nx !! x ≠ Some n) l1 ∧ sview s' nx true u) _ l k [] head).
  - intros l1 x l2 s2 E [Hf Hv2]. simpl in E. rewrite E in Hl.
    eapply wpp_get_next; [done|by eapply links_lookup|done].
  - intros l1 x l2 s2 E Hl2 [Hf Hv2]. simpl in E. pose proof Hl as Hl'. rewrite E in Hl'.
    apply wpp_bind. eapply wpp_get_next; [done|by eapply links_lookup|].
    destruct (Z.eqb_spec (hd stop l2) n) as [Hy|Hy].
    + eapply (wpp_remove_found _ nx l x n l1 l2 _ _ n); try done.
      * intros. by eapply wpp_circle_remove_base.
      * intros s3 Hin Hr3. apply wpp_ret. by rewrite bool_decide_true.
    + apply wpp_ret. split; [done|]. intros s3 [Hf3 Hv3]. split; [|done].
      apply Forall_app_2; [done|]. constructor; [|done]. rewrite (links_lookup _ _ _ _ _ Hl'). congruence.
  - intros l0 x s2 E [Hf Hv2]. simpl in E. assert (n ∉ l) as Hn.
    { apply (no_pred _ _ _ Hl). rewrite E in *. apply Forall_app_2; [done|]. constructor; [|done].
      rewrite (links_lookup _ _ _ _ _ Hl). simpl. congruence. }
    apply wpp_bind. eapply wpp_unlock; [done|]. intros s3 Hv3. apply wpp_ret.
    rewrite bool_decide_false, without_notin by done. split; [done|]. by eapply link_rep_intro.
  - by eapply link_rep_stop.
  - simpl in *. lia.
  - by split.
Qed.

Lemma link_find_ok s l (matcher : Z → prog lstate bool) (f : Z → bool) :
  rep l s →
  (∀ x s', x ∈ l → sview s' (nexts (ls_heap s)) true u →
     wpp (matcher x) s' (λ b s'', b = f x ∧ sview s'' (nexts (ls_heap s)) true u)) →
  wpp (pthread_mutex_lock;;
       node ← get_next head;
       fuel ← walk_fuel;
       r ← for_nodes fuel get_next stop (λ node,
             b ← matcher node;
             if b : bool then pthread_mutex_unlock;; mret (Some node) else mret None) node;
       match r with
       | Some node => mret node
       | None => pthread_mutex_unlock;; mret 0
       end) s (λ r s', r = first_match f l ∧ rep l s').
Proof.
  intros Hr Hm. pose proof Hr as [Hst H0 Hd Hl _ _]. apply wpp_bind.
  eapply wpp_lock; [by eapply link_rep_view|]. intros s1 Hv1. apply wpp_bind.
  eapply wpp_get_next; [done|by apply links_first|]. apply wpp_bind.
  eapply wpp_walk_fuel; [done..|]. intros k Hk. apply wpp_bind.
  apply (wpp_for_nodes _ _ _ (λ l1 s', Forall (λ x, f x = false) l1 ∧ sview s' (nexts (ls_heap s)) true u) _ l k []).
  - intros l1 x l2 s2 E [Hf Hv2]. simpl in E. subst l. apply wpp_bind.
    eapply wpp_mono; [apply Hm; [set_solver|done]|]. intros b s3 [-> Hv3]. destruct (f x) eqn:Hfx.
    + apply wpp_bind. eapply wpp_unlock; [done|]. intros s4 Hv4. repeat apply wpp_ret.
      split; [|by eapply link_rep_intro].
      rewrite first_match_app by done. simpl. by rewrite Hfx.
    + apply wpp_ret. eapply wpp_get_next; [done| |].
      * apply (links_lookup _ (head :: l1) x). done.
      * split; [done|]. split; [|done]. by apply Forall_app_2; [|constructor].
  - intros s2 [Hf Hv2]. simpl in *. apply wpp_bind. eapply wpp_unlock; [done|]. intros s3 Hv3.
    apply wpp_ret. split; [|by eapply link_rep_intro].
    rewrite <-(app_nil_r l), first_match_app by done. done.
  - by eapply link_rep_stop.
  - simpl in *. lia.
  - by split.
Qed.

(** A traversal with a handler that works on the callbacks' data. *)
Definition acts (handler : Z → prog lstate unit) (f : Z → U → U) : Prop :=
  ∀ x s, handler x s = Ok (tt, mk_lstate (ls_heap s) (ls_locked s) (f x (ls_user s))).
End ops.

Lemma wpp_acts handler f x s nx lk u (Q : unit → lstate → Prop) :
  acts handler f → sview s nx lk u → (∀ s', sview s' nx lk (f x u) → Q tt s') → wpp (handler x) s Q.
Proof. intros Hf [<- <- <-] HQ. unfold wpp. rewrite Hf. by apply HQ. Qed.

Lemma link_traversal_ok head stop D u s l handler f :
  link_rep head stop D u l s → acts handler f →
  wpp (pthread_mutex_lock;;
       node ← get_next head;
       fuel ← walk_fuel;
       for_nodes (R := Empty_set) fuel get_next stop (λ node, handler node;; mret None) node;;
       pthread_mutex_unlock) s (λ _ s', link_rep head stop D (foldl (λ v x, f x v) u l) l s').
Proof.
  intros Hr Hf. pose proof Hr as [Hst H0 Hd Hl _ _]. apply wpp_bind.
  eapply wpp_lock; [by eapply link_rep_view|]. intros s1 Hv1. apply wpp_bind.
  eapply wpp_get_next; [done|by apply (links_lookup _ [] head)|]. apply wpp_bind.
  eapply wpp_walk_fuel; [done..|]. intros k Hk. apply wpp_bind. set (nx := nexts (ls_heap s)) in *.
  apply (wpp_for_nodes _ _ _ (λ l1 s', sview s' nx true (foldl (λ v x, f x v) u l1)) _ l k []).
  - intros l1 x l2 s2 E Hv2. simpl in E. subst l. apply wpp_bind.
    eapply wpp_acts; [done..|]. intros s3 Hv3. apply wpp_ret. eapply wpp_get_next; [done| |].
    + apply (links_lookup _ (head :: l1) x). done.
    + split; [done|]. by rewrite foldl_app.
  - intros s2 Hv2. simpl in Hv2. eapply wpp_unlock; [done|]. intros s3 Hv3. by eapply link_rep_intro.
  - by eapply link_rep_stop.
  - simpl in *. lia.
  - done.
Qed.

(** Handlers that may destroy the node they are given: they leave every other
    node alone, and what becomes of the node satisfies [after]. *)
Definition consumes (handler : Z → prog lstate unit) (f : Z → U → U) (after : Z → option Z → Prop) : Prop :=
  ∀ x s, is_Some (nexts (ls_heap s) !! x) →
    wpp (handler x) s (λ _ s',
      (∀ y, y ≠ x → nexts (ls_heap s') !! y = nexts (ls_heap s) !! y) ∧
      after x (nexts (ls_heap s') !! x) ∧ ls_locked s' = ls_locked s ∧ ls_user s' = f x (ls_user s)).

(** The nodes [l] are consumed, the others are as in [nx]. *)
Record consumed nx (after : Z → option Z → Prop) (l : list Z) (lk : bool) u s : Prop := {
  cs_other : ∀ y, y ∉ l → nexts (ls_heap s) !! y = nx !! y;
  cs_after : ∀ x, x ∈ l → after x (nexts (ls_heap s) !! x);
  cs_locked : ls_locked s = lk;
  cs_user : ls_user s = u }.

Lemma link_destroy_ok head stop D u s l handler f after v :
  link_rep head stop D u l s → consumes handler f after →
  wpp (pthread_mutex_lock;;
       node ← get_next head;
       fuel ← walk_fuel;
       while_nodes fuel get_next stop handler node;;
       set_next head v;;
       pthread_mutex_unlock) s (λ _ s',
    consumed (<[head:=v]> (nexts (ls_heap s))) after l false (foldl (λ v x, f x v) u l) s').
Proof.
  intros Hr Hf. pose proof Hr as [Hst H0 Hd Hl _ _]. pose proof (sll_nodup _ _ _ Hl) as Hnd.
  apply wpp_bind. eapply wpp_lock; [by eapply link_rep_view|]. intros s1 Hv1. apply wpp_bind.
  eapply wpp_get_next; [done|by apply (links_lookup _ [] head)|]. apply wpp_bind.
  eapply wpp_walk_fuel; [done..|]. intros k Hk. apply wpp_bind. set (nx := nexts (ls_heap s)) in *.
  apply (wpp_while_nodes _ _ _ (λ l1 s', consumed nx after l1 true (foldl (λ v x, f x v) u l1) s') _ l k []).
  - intros l1 x l2 s2 E [Ho Ha Hk2 Hu2]. simpl in E. subst l.
    assert (nexts (ls_heap s2) !! x = Some (hd stop l2)) as Hx.
    { rewrite Ho; [apply (links_lookup _ (head :: l1) x); done|].
      apply NoDup_cons in Hnd as [_ (Hx & _)%NoDup_middle]. done. }
    eapply (wpp_get_next _ _ true _ x); [by split|done|]. split; [done|].
    eapply wpp_mono; [by apply Hf|]. intros [] s3 (Ho3 & Ha3 & Hk3 & Hu3). split.
    + intros y Hy. rewrite Ho3, Ho; set_solver.
    + intros y Hy. destruct (decide (y = x)) as [->|Hne]; [done|]. rewrite Ho3 by done. apply Ha. set_solver.
    + by rewrite Hk3.
    + by rewrite Hu3, Hu2, foldl_app.
  - intros s2 [Ho Ha Hk2 Hu2]. simpl in *. apply NoDup_cons in Hnd as [Hhl _]. apply wpp_bind.
    eapply wpp_set_next; [by split| |].
    { rewrite Ho by done. rewrite (links_lookup _ [] head l stop Hl). done. }
    intros s3 Hv3. eapply wpp_unlock; [done|]. intros s4 [Hv4 ? ?]. split; [| |done|done].
    + intros y Hy. rewrite Hv4. destruct (decide (y = head)) as [->|Hne].
      * by rewrite !lookup_insert_eq.
      * rewrite !lookup_insert_ne by done. by apply Ho.
    + intros y Hy. rewrite Hv4, lookup_insert_ne by set_solver. by apply Ha.
  - by eapply link_rep_stop.
  - simpl in *. lia.
  - split; [|by intros ? ?%elem_of_nil|by destruct Hv1..]. intros y _. by rewrite (sv_nexts _ _ _ _ Hv1).
Qed.

Lemma free_consumes offset :
  consumes (λ x, free_container offset (x - offset)) (λ _ u, u) (λ _ o, o = None).
Proof.
  intros x s Hx. unfold nexts in Hx. rewrite lookup_fmap, fmap_is_Some in Hx. destruct Hx as [nd Hx].
  unfold wpp, free_container. rewrite Z.sub_add, Hx. simpl. unfold nexts.
  split; [|rewrite lookup_fmap, lookup_delete_eq; done].
  intros y Hy. by rewrite !lookup_fmap, lookup_delete_ne by done.
Qed.
End single_spec.

(** ** What every singly linked list promises *)

Record link_ops (U : Type) := mk_link_ops {
  lo_empty : prog (lstate single_link_node U) bool;
  lo_first : prog (lstate single_link_node U) Z;
  lo_insert : Z → Z → prog (lstate single_link_node U) unit;
  lo_append : Z → prog (lstate single_link_node U) unit;
  lo_push : Z → prog (lstate single_link_node U) unit;
  lo_remove : Z → prog (lstate single_link_node U) bool;
  lo_pop : prog (lstate single_link_node U) Z;
  lo_has : Z → prog (lstate single_link_node U) bool }.
Arguments lo_empty {U}.
Arguments lo_first {U}.
Arguments lo_insert {U}.
Arguments lo_append {U}.
Arguments lo_push {U}.
Arguments lo_remove {U}.
Arguments lo_pop {U}.
Arguments lo_has {U}.

Definition single_ops {U} (link : single_link) : link_ops U :=
  mk_link_ops U (single_link_empty link) (single_link_get_first_node link) (single_link_insert link)
    (single_link_append link) (single_link_push link) (single_link_remove link) (single_link_pop link)
    (single_link_has_node link).
Definition circle_ops {U} (link : circle_link) : link_ops U :=
  mk_link_ops U (circle_link_empty link) (circle_link_get_first_node link) (circle_link_insert link)
    (circle_link_append link) (circle_link_push link) (circle_link_remove link) (circle_link_pop link)
    (circle_link_has_node link).

(** A list of nodes, whatever the links end in. *)
Class LinkLaws {U} (ops : link_ops U) (head stop : Z) : Prop := {
  link_empty_law D u l s : link_rep head stop D u l s →
    wpp (lo_empty ops) s (λ b s', b = bool_decide (l = []) ∧ link_rep head stop D u l s');
  link_first_law D u l s : link_rep head stop D u l s →
    wpp (lo_first ops) s (λ r s', r = hd 0 l ∧ link_rep head stop D u l s');
  link_insert_law D u l s p n : link_rep head stop D u l s → p ∈ head :: l → n ∈ D → n ∉ head :: l →
    wpp (lo_insert ops p n) s (λ _ s', link_rep head stop D u (tail (insert_after p n (head :: l))) s');
  link_append_law D u l s n : link_rep head stop D u l s → n ∈ D → n ∉ head :: l →
    wpp (lo_append ops n) s (λ _ s', link_rep head stop D u (l ++ [n]) s');
  link_push_law D u l s n : link_rep head stop D u l s → n ∈ D → n ∉ head :: l →
    wpp (lo_push ops n) s (λ _ s', link_rep head stop D u (n :: l) s');
  link_remove_law D u l s n : link_rep head stop D u l s → n ∈ D → n ≠ head →
    wpp (lo_remove ops n) s (λ b s', b = bool_decide (n ∈ l) ∧ link_rep head stop D u (without n l) s');
  link_pop_law D u l s : link_rep head stop D u l s →
    wpp (lo_pop ops) s (λ r s', r = hd 0 l ∧ link_rep head stop D u (tail l) s');
  link_has_law D u l s n : link_rep head stop D u l s → n ∈ D →
    wpp (lo_has ops n) s (λ b s', b = bool_decide (n ∈ l) ∧ link_rep head stop D u l s') }.

Section instances.
Context {U : Type}.
Abbreviation lstate := (lstate single_link_node U).

Lemma hd_stop_null head stop D (u : U) l (s : lstate) :
  link_rep head stop D u l s → (if hd stop l =? stop then 0 else hd stop l) = hd 0 l.
Proof.
  intros Hr. pose proof (link_rep_stop _ _ _ _ _ _ Hr) as Hs.
  destruct l as [|x l]; simpl; [by rewrite Z.eqb_refl|].
  destruct (Z.eqb_spec x stop); [set_solver|done].
Qed.

Lemma hd_stop_empty head stop D (u : U) l (s : lstate) :
  link_rep head stop D u l s → (hd stop l =? stop) = bool_decide (l = []).
Proof.
  intros Hr. pose proof (link_rep_stop _ _ _ _ _ _ Hr) as Hs.
  destruct l as [|x l]; simpl; [by rewrite Z.eqb_refl|].
  apply Z.eqb_neq. set_solver.
Qed.

Lemma first_match_eq n l : n ≠ 0 → negb (first_match (λ x, x =? n) l =? 0) = bool_decide (n ∈ l).
Proof.
  intros Hn. induction l as [|x l IH]; [by case_bool_decide; set_solver|]. simpl.
  destruct (Z.eqb_spec x n) as [->|Hne].
  - rewrite bool_decide_true by set_solver. by destruct (Z.eqb_spec n 0).
  - rewrite IH. apply bool_decide_ext. set_solver.
Qed.

(** [head_node] exists and is not NULL. *)
Lemma head_neq_0 head stop D (u : U) l (s : lstate) : link_rep head stop D u l s → head ≠ 0.
Proof.
  intros Hr ->. pose proof (link_rep_in _ _ _ _ _ _ 0 Hr). destruct Hr. set_solver.
Qed.

Lemma single_pop_ok link D (u : U) l (s : lstate) :
  link_rep (sl_head link) 0 D u l s →
  wpp (single_link_pop link) s (λ r s', r = hd 0 l ∧ link_rep (sl_head link) 0 D u (tail l) s').
Proof.
  intros Hr. pose proof Hr as [Hst H0 Hd Hl _ _]. apply wpp_bind.
  eapply wpp_lock; [by eapply link_rep_view|]. intros s1 Hv1. apply wpp_bind.
  eapply wpp_get_next; [done|by apply links_first|]. apply wpp_bind. destruct l as [|x l]; simpl.
  - apply wpp_ret. apply wpp_bind. eapply wpp_unlock; [done|]. intros s2 Hv2. apply wpp_ret.
    split; [done|]. by eapply link_rep_intro.
  - assert (x ∈ D) by (eapply link_rep_in; [exact Hr|set_solver]).
    destruct (Z.eqb_spec x 0) as [->|Hx]; [set_solver|]. simpl. by eapply wpp_remove_first.
Qed.

Lemma circle_pop_ok link D (u : U) l (s : lstate) :
  link_rep (cl_head link) (cl_head link) D u l s →
  wpp (circle_link_pop link) s (λ r s', r = hd 0 l ∧ link_rep (cl_head link) (cl_head link) D u (tail l) s').
Proof.
  intros Hr. pose proof Hr as [Hst H0 Hd Hl _ _]. apply wpp_bind.
  eapply wpp_lock; [by eapply link_rep_view|]. intros s1 Hv1. apply wpp_bind.
  eapply wpp_get_next; [done|by apply links_first|]. apply wpp_bind.
  pose proof (hd_stop_null _ _ _ _ _ _ Hr) as Hh. destruct l as [|x l]; simpl in *.
  - rewrite Z.eqb_refl. apply wpp_ret. apply wpp_bind. eapply wpp_unlock; [done|]. intros s2 Hv2. apply wpp_ret.
    split; [done|]. by eapply link_rep_intro.
  - pose proof (link_rep_stop _ _ _ _ _ _ Hr).
    destruct (Z.eqb_spec x (cl_head link)); [set_solver|]. apply wpp_bind.
    eapply wpp_mono; [apply (wpp_remove_first _ _ D u _ l x x
      (λ r s', r = x ∧ link_rep (cl_head link) (cl_head link) D u l s') _ Hst H0 Hd Hl Hv1); done|].
    intros [] s2 H2. by apply wpp_ret.
Qed.

#[export] Instance single_link_laws link : LinkLaws (U := U) (single_ops link) (sl_head link) 0.
Proof.
  split; simpl; intros D u l s.
  - intros Hr. apply (link_first_ok (sl_head link) 0 D u (λ n, n =? 0) _ l); [done|]. intros s' Hr'. split; [by eapply hd_stop_empty|done].
  - intros Hr. apply (link_first_ok (sl_head link) 0 D u (λ n, n) _ l); done.
  - intros p n Hr Hp Hn Hnl. by apply link_insert_ok.
  - intros n Hr Hn Hnl. by apply link_append_ok.
  - intros n Hr Hn Hnl. eapply wpp_mono; [apply link_insert_ok; try done; set_solver|].
    intros [] s'. simpl. by rewrite Z.eqb_refl.
  - intros n Hr Hn Hnh. pose proof (head_neq_0 _ _ _ _ _ _ Hr). apply single_remove_ok; try done.
    destruct Hr; set_solver.
  - apply single_pop_ok.
  - intros n Hr Hn. apply wpp_bind. eapply wpp_mono; [apply (link_find_ok (sl_head link) 0 D u _ l _ (λ x, x =? n) Hr)|].
    + intros x s' Hx Hv. by apply wpp_ret.
    + intros r s' [-> Hr']. apply wpp_ret. split; [|done]. apply first_match_eq. destruct Hr; set_solver.
Qed.

#[export] Instance circle_link_laws link : LinkLaws (U := U) (circle_ops link) (cl_head link) (cl_head link).
Proof.
  split; simpl; intros D u l s.
  - intros Hr. apply (link_first_ok (cl_head link) (cl_head link) D u (λ n, n =? cl_head link) _ l); [done|]. intros s' Hr'. split; [by eapply hd_stop_empty|done].
  - intros Hr. apply (link_first_ok (cl_head link) (cl_head link) D u (λ n, if n =? cl_head link then 0 else n) _ l); [done|].
    intros s' Hr'. split; [by eapply hd_stop_null|done].
  - intros p n Hr Hp Hn Hnl. by apply link_insert_ok.
  - intros n Hr Hn Hnl. by apply link_append_ok.
  - intros n Hr Hn Hnl. eapply wpp_mono; [apply link_insert_ok; try done; set_solver|].
    intros [] s'. simpl. by rewrite Z.eqb_refl.
  - intros n Hr Hn Hnh. by apply circle_remove_ok.
  - apply circle_pop_ok.
  - intros n Hr Hn. apply wpp_bind. eapply wpp_mono; [apply (link_find_ok (cl_head link) (cl_head link) D u _ l _ (λ x, x =? n) Hr)|].
    + intros x s' Hx Hv. by apply wpp_ret.
    + intros r s' [-> Hr']. apply wpp_ret. split; [|done]. apply first_match_eq. destruct Hr; set_solver.
Qed.
End instances.

(** ** Sequences of operations *)

Inductive link_cmd :=
| LEmpty | LFirst | LInsert (p n : Z) | LAppend (n : Z) | LPush (n : Z) | LRemove (n : Z) | LPop | LHas (n : Z).

Section runs.
Context {U : Type}.
Abbreviation lstate := (lstate single_link_node U).

Definition link_step (ops : link_ops U) (c : link_cmd) : prog lstate Z :=
  match c with
  | LEmpty => b ← lo_empty ops; mret (Z.b2z b)
  | LFirst => lo_first ops
  | LInsert p n => lo_insert ops p n;; mret 0
  | LAppend n => lo_append ops n;; mret 0
  | LPush n => lo_push ops n;; mret 0
  | LRemove n => b ← lo_remove ops n; mret (Z.b2z b)
  | LPop => lo_pop ops
  | LHas n => b ← lo_has ops n; mret (Z.b2z b)
  end.

Fixpoint run_link (ops : link_ops U) (cs : list link_cmd) : prog lstate (list Z) :=
  match cs with
  | [] => mret []
  | c :: cs => r ← link_step ops c; rs ← run_link ops cs; mret (r :: rs)
  end.

(** The same over a plain list; [None] when the caller breaks the contract
    (inserting a node that does not exist or is in the list, or the head). *)
Definition fresh (D : gset Z) (head : Z) (l : list Z) (n : Z) : bool :=
  bool_decide (n ∈ D ∧ n ∉ head :: l).
Definition link_spec (D : gset Z) (head : Z) (l : list Z) (c : link_cmd) : option (Z * list Z) :=
  match c with
  | LEmpty => Some (Z.b2z (bool_decide (l = [])), l)
  | LFirst => Some (hd 0 l, l)
  | LInsert p n =>
    if bool_decide (p ∈ head :: l) && fresh D head l n then Some (0, tail (insert_after p n (head :: l)))
    else None
  | LAppend n => if fresh D head l n then Some (0, l ++ [n]) else None
  | LPush n => if fresh D head l n then Some (0, n :: l) else None
  | LRemove n => if bool_decide (n ∈ D ∧ n ≠ head) then Some (Z.b2z (bool_decide (n ∈ l)), without n l) else None
  | LPop => Some (hd 0 l, tail l)
  | LHas n => if bool_decide (n ∈ D) then Some (Z.b2z (bool_decide (n ∈ l)), l) else None
  end.
Fixpoint link_specs D head l cs : option (list Z * list Z) :=
  match cs with
  | [] => Some ([], l)
  | c :: cs =>
    '(r, l) ← link_spec D head l c; '(rs, l) ← link_specs D head l cs; Some (r :: rs, l)
  end.

Lemma link_step_refines ops head stop `{!LinkLaws ops head stop} D (u : U) l s c r l' :
  link_rep head stop D u l s → link_spec D head l c = Some (r, l') →
  wpp (link_step ops c) s (λ r' s', r' = r ∧ link_rep head stop D u l' s').
Proof.
  intros Hr Hc. destruct c as [| |p n|n|n|n| |n]; unfold link_step, link_spec, fresh in *;
    try (case_bool_decide; [|by rewrite ?andb_false_r in Hc]); simplify_eq/=.
  - apply wpp_bind. eapply wpp_mono; [by apply link_empty_law|]. intros b s' [-> ?]. by apply wpp_ret.
  - by apply link_first_law.
  - case_bool_decide; simplify_eq/=. apply wpp_bind.
    eapply wpp_mono; [apply (link_insert_law D u l); set_solver|]. intros [] s' ?. by apply wpp_ret.
  - apply wpp_bind. eapply wpp_mono; [apply (link_append_law D u l); set_solver|]. intros [] s' ?. by apply wpp_ret.
  - apply wpp_bind. eapply wpp_mono; [apply (link_push_law D u l); set_solver|]. intros [] s' ?. by apply wpp_ret.
  - apply wpp_bind. eapply wpp_mono; [apply (link_remove_law D u l); naive_solver|]. intros b s' [-> ?]. by apply wpp_ret.
  - by apply link_pop_law.
  - apply wpp_bind. eapply wpp_mono; [by eapply link_has_law|]. intros b s' [-> ?]. by apply wpp_ret.
Qed.

Lemma run_link_refines ops head stop `{!LinkLaws ops head stop} D (u : U) cs : ∀ l s rs l',
  link_rep head stop D u l s → link_specs D head l cs = Some (rs, l') →
  wpp (run_link ops cs) s (λ r s', r = rs ∧ link_rep head stop D u l' s').
Proof.
  induction cs as [|c cs IH]; intros l s rs l' Hr Hc; simpl in *; [by simplify_eq|].
  destruct (link_spec D head l c) as [[r l1]|] eqn:E1; [|done]. simpl in Hc.
  destruct (link_specs D head l1 cs) as [[rs1 l2]|] eqn:E2; [|done]. simplify_eq/=.
  apply wpp_bind. eapply wpp_mono; [by eapply link_step_refines|]. intros r' s1 [-> Hr1].
  apply wpp_bind. eapply wpp_mono; [by eapply IH|]. intros rs' s2 [-> Hr2]. by apply wpp_ret.
Qed.

Lemma init_rep {B} (k : B) head stop D (s : lstate) v :
  stop = 0 ∨ stop = head → dom (ls_heap s) = D → 0 ∉ D → head ∈ D → v = stop →
  wpp (set_next head v;; r ← pthread_mutex_init 0; mret (r, k)) s
      (λ r s', r = (0, k) ∧ link_rep head stop D (ls_user s) [] s').
Proof.
  intros Hst Hd H0 Hh ->. apply wpp_bind. assert (dom (nexts (ls_heap s)) = D) as Hd'.
  { unfold nexts. by rewrite dom_fmap_L. }
  eapply wpp_set_next; [done|by rewrite <-elem_of_dom, Hd'|]. intros s1 [Hv1 Hv2 Hv3].
  split; [done|].
  eapply (link_rep_intro _ _ _ _ _ _ (<[head:=stop]> (nexts (ls_heap s)))); [done|done| | |done].
  - rewrite dom_insert_L, Hd'. set_solver.
  - split; [apply NoDup_singleton|simpl; by rewrite lookup_insert_eq|simpl; set_solver].
Qed.

(** C9: single and circular lists are lists of nodes: from an initialised
    list, any sequence of insertions, appends, pushes, removals, pops and
    queries gives, for both kinds, the answers a plain list of nodes gives, as
    long as the caller only inserts nodes that exist and are not in the list;
    at the end the links are the list's, the nodes that exist are the same, no
    NULL was followed and every lock taken was released. *)
Theorem links_refine_lists (link : single_link) (clink : circle_link) offset D (s : lstate) cs rs l :
  dom (ls_heap s) = D → 0 ∉ D → sl_head link ∈ D → cl_head clink = sl_head link →
  link_specs D (sl_head link) [] cs = Some (rs, l) →
  wpp ('(_, link) ← single_link_init 0 link offset; run_link (single_ops link) cs) s
      (λ r s', r = rs ∧ link_rep (sl_head link) 0 D (ls_user s) l s') ∧
  wpp ('(_, clink) ← circle_link_init 0 clink offset; run_link (circle_ops clink) cs) s
      (λ r s', r = rs ∧ link_rep (sl_head link) (sl_head link) D (ls_user s) l s').
Proof.
  intros Hd H0 Hh Hc Hs. split; apply wpp_bind.
  - eapply wpp_mono; [apply (init_rep _ (sl_head link) 0 D); auto|]. intros [r link'] s1 [E Hr].
    injection E as -> ->. set (link1 := mk_single_link offset (sl_head link)).
    by apply (run_link_refines (single_ops link1) (sl_head link1) 0 D (ls_user s) cs []).
  - rewrite <-Hc in *. eapply wpp_mono; [apply (init_rep _ (cl_head clink) (cl_head clink) D); auto|].
    intros [r link'] s1 [E Hr]. injection E as -> ->.
    set (link1 := mk_circle_link offset (cl_head clink)).
    by apply (run_link_refines (circle_ops link1) (cl_head link1) (cl_head link1) D (ls_user s) cs []).
Qed.
End runs.

Lemma links_refine_lists_witness :
  let nd := mk_single_link_node 77 0 in
  let s := mk_lstate (list_to_map [(10, nd); (20, nd); (30, nd); (40, nd)]) true tt in
  let cs := [LAppend 20; LAppend 30; LInsert 20 40; LHas 30; LRemove 20; LPop; LEmpty; LPop; LPop] in
  wpp ('(_, link) ← single_link_init 0 (mk_single_link 5 10) 8; run_link (single_ops link) cs) s
      (λ r s', r = [0; 0; 0; 1; 1; 40; 0; 30; 0] ∧ link_rep 10 0 {[10; 20; 30; 40]} tt [] s') ∧
  wpp ('(_, clink) ← circle_link_init 0 (mk_circle_link 6 10) 8; run_link (circle_ops clink) cs) s
      (λ r s', r = [0; 0; 0; 1; 1; 40; 0; 30; 0] ∧ link_rep 10 10 {[10; 20; 30; 40]} tt [] s').
Proof.
  intros nd s cs.
  apply (links_refine_lists (mk_single_link 5 10) (mk_circle_link 6 10) 8 {[10; 20; 30; 40]} s cs);
    [vm_compute; done|set_solver|set_solver|done|vm_compute; done].
Defined.

(** ** Rings of doubly linked nodes *)

Section double_spec.
Context {U : Type}.
Abbreviation lstate := (lstate double_link_node U).
Implicit Types (s : lstate) (u : U) (lk : bool) (h : gmap Z double_link_node) (c : list Z).

Definition d_edge h (x y : Z) : Prop := dn_next <$> h !! x = Some y ∧ dn_prev <$> h !! y = Some x.

(** [c] is a ring: every node leads to the next one and back, the last to the
    first. *)
Record d_ring h c : Prop := {
  dr_nodup : NoDup c;
  dr_chain : chain (d_edge h) c (hd 0 c) }.

Lemma d_ring_rotate h c1 c2 : d_ring h (c1 ++ c2) → d_ring h (c2 ++ c1).
Proof.
  intros [Hnd Hc]. split; [by rewrite (Permutation_app_comm c2 c1)|].
  destruct c1 as [|x c1], c2 as [|y c2]; simpl app in *; rewrite ?app_nil_r in *; try done.
  change (x :: c1 ++ y :: c2) with ((x :: c1) ++ y :: c2) in Hc.
  change (y :: c2 ++ x :: c1) with ((y :: c2) ++ x :: c1).
  apply chain_app in Hc as [H1 H2]. by apply chain_app.
Qed.

Lemma d_ring_next h c1 p c2 : d_ring h (c1 ++ p :: c2) → d_edge h p (hd p (c2 ++ c1)).
Proof. intros [_ Hc]%d_ring_rotate. by destruct Hc. Qed.

Lemma d_ring_in h c x : d_ring h c → x ∈ c → is_Some (h !! x).
Proof.
  intros Hr (c1 & c2 & ->)%list_elem_of_split. apply d_ring_next in Hr as [Hx _].
  apply fmap_is_Some with (f := dn_next). by rewrite Hx.
Qed.

(** Links survive changes of other nodes' fields. *)
Definition d_frame h h' (ns ps : Z → Prop) : Prop :=
  (∀ x, ¬ ns x → dn_next <$> h' !! x = dn_next <$> h !! x) ∧
  (∀ x, ¬ ps x → dn_prev <$> h' !! x = dn_prev <$> h !! x).

Lemma chain_frame h h' ns ps c b :
  d_frame h h' ns ps → chain (d_edge h) c b → (∀ x, x ∈ c → ¬ ns x) →
  (∀ y, c ≠ [] → y ∈ tail c ∨ y = b → ¬ ps y) → chain (d_edge h') c b.
Proof.
  intros [Hn Hp] Hc Hcn Hcp. eapply chain_mono; [exact Hc|]. intros x y Hx Hy [H1 H2].
  split; [rewrite Hn; auto|rewrite Hp; [done|]]. apply Hcp; [|done]. intros ->. by apply elem_of_nil in Hx.
Qed.

Lemma d_ring_insert h h' p c n :
  d_ring h (p :: c) → n ∉ p :: c →
  d_frame h h' (λ x, x = p ∨ x = n) (λ x, x = hd p c ∨ x = n) →
  d_edge h' p n → d_edge h' n (hd p c) → d_ring h' (p :: n :: c).
Proof.
  intros [Hnd [_ Hc]] Hn Hf H1 H2. simpl in Hc. split.
  - rewrite NoDup_cons in *. rewrite NoDup_cons. set_solver.
  - split; [done|]. split; [done|]. simpl. eapply chain_frame; [done..| |].
    + intros x Hx [->| ->]; [|set_solver]. by apply NoDup_cons in Hnd as [? _].
    + intros y Hne Hy. apply NoDup_cons in Hnd as [Hp Hnd]. destruct c as [|q c]; [done|].
      apply NoDup_cons in Hnd as [Hq _]. simpl in *. set_solver.
Qed.

Lemma d_ring_delete h h' n c p :
  d_ring h (n :: c ++ [p]) →
  d_frame h h' (λ x, x = p) (λ x, x = hd p c) → d_edge h' p (hd p c) → d_ring h' (c ++ [p]).
Proof.
  intros [Hnd [_ Hc]] Hf He. simpl in Hc. apply NoDup_cons in Hnd as [Hn Hnd].
  apply chain_app in Hc as [Hc _]. simpl in Hc. split; [done|]. apply chain_app. simpl. split.
  - eapply chain_frame; [done..| |].
    + intros x Hx ->. rewrite NoDup_app in Hnd. set_solver.
    + intros y Hne Hy. destruct c as [|q c]; [done|]. simpl in *. apply NoDup_cons in Hnd as [Hq _]. set_solver.
  - split; [|done]. by rewrite hd_app.
Qed.

Lemma d_ring_unrelated h h' n c :
  d_ring h c → n ∉ c → d_frame h h' (λ x, x = n) (λ x, x = n) → d_ring h' c.
Proof.
  intros [Hnd Hc] Hn Hf. split; [done|]. eapply chain_frame; [done..| |].
  - intros x Hx ->. done.
  - intros y Hne Hy ->. destruct c; simpl in *; set_solver.
Qed.

(** The store holds the ring [c]; the nodes that exist are [D]. *)
Record d_state (D : gset Z) c lk u s : Prop := {
  ds_dom : dom (ls_heap s) = D;
  ds_null : 0 ∉ D;
  ds_ring : d_ring (ls_heap s) c;
  ds_locked : ls_locked s = lk;
  ds_user : ls_user s = u }.

Lemma d_state_in D c lk u s x : d_state D c lk u s → x ∈ c → x ∈ D.
Proof. intros [<- _ Hr _ _] Hx. rewrite elem_of_dom. by eapply d_ring_in. Qed.
Lemma d_state_nodup D c lk u s : d_state D c lk u s → NoDup c.
Proof. by intros [_ _ [] _ _]. Qed.

Lemma d_lock D c u s (Q : unit → lstate → Prop) :
  d_state D c false u s → (∀ s', d_state D c true u s' → Q tt s') → wpp pthread_mutex_lock s Q.
Proof. intros [? ? ? Hl ?] HQ. unfold wpp, pthread_mutex_lock. rewrite Hl. by apply HQ. Qed.
Lemma d_unlock D c u s (Q : unit → lstate → Prop) :
  d_state D c true u s → (∀ s', d_state D c false u s' → Q tt s') → wpp pthread_mutex_unlock s Q.
Proof. intros [? ? ? Hl ?] HQ. unfold wpp, pthread_mutex_unlock. rewrite Hl. by apply HQ. Qed.

Lemma wpp_d_get_next s p q (Q : Z → lstate → Prop) :
  dn_next <$> ls_heap s !! p = Some q → Q q s → wpp (d_get_next p) s Q.
Proof.
  intros Hp HQ. destruct (ls_heap s !! p) as [nd|] eqn:E; [|done]. injection Hp as <-.
  apply wpp_bind. unfold wpp, node_at. by rewrite E.
Qed.
Lemma wpp_d_get_prev s p q (Q : Z → lstate → Prop) :
  dn_prev <$> ls_heap s !! p = Some q → Q q s → wpp (d_get_prev p) s Q.
Proof.
  intros Hp HQ. destruct (ls_heap s !! p) as [nd|] eqn:E; [|done]. injection Hp as <-.
  apply wpp_bind. unfold wpp, node_at. by rewrite E.
Qed.

(** The two stores to a link, as what the links are afterwards. *)
Definition upd_fn (f : Z → option Z) (p v : Z) : Z → option Z := λ x, if decide (x = p) then Some v else f x.
Definition d_links h : (Z → option Z) * (Z → option Z) :=
  (λ x, dn_next <$> h !! x, λ x, dn_prev <$> h !! x).
(** [s'] is [s] with the links [nx] and [pv]. *)
Record d_step s s' (nx pv : Z → option Z) : Prop := {
  st_dom : dom (ls_heap s') = dom (ls_heap s);
  st_next : ∀ x, dn_next <$> ls_heap s' !! x = nx x;
  st_prev : ∀ x, dn_prev <$> ls_heap s' !! x = pv x;
  st_locked : ls_locked s' = ls_locked s;
  st_user : ls_user s' = ls_user s }.

Lemma d_step_refl s : d_step s s (d_links (ls_heap s)).1 (d_links (ls_heap s)).2.
Proof. by split. Qed.

Lemma wpp_d_set_next s0 s nx pv p v (Q : unit → lstate → Prop) :
  d_step s0 s nx pv → p ∈ dom (ls_heap s0) → (∀ s', d_step s0 s' (upd_fn nx p v) pv → Q tt s') →
  wpp (d_set_next p v) s Q.
Proof.
  intros [Hd Hn Hp Hl Hu] Hdom HQ. rewrite <-Hd, elem_of_dom in Hdom. destruct Hdom as [nd E].
  unfold wpp, d_set_next, node_set. rewrite E. apply HQ. split; simpl; [by rewrite dom_alter_L| | |done|done].
  - intros x. unfold upd_fn. case_decide as Hx; [subst; by rewrite lookup_alter_eq, E|].
    by rewrite lookup_alter_ne.
  - intros x. rewrite <-Hp. destruct (decide (x = p)) as [->|Hx]; [by rewrite lookup_alter_eq, E|].
    by rewrite lookup_alter_ne.
Qed.
Lemma wpp_d_set_prev s0 s nx pv p v (Q : unit → lstate → Prop) :
  d_step s0 s nx pv → p ∈ dom (ls_heap s0) → (∀ s', d_step s0 s' nx (upd_fn pv p v) → Q tt s') →
  wpp (d_set_prev p v) s Q.
Proof.
  intros [Hd Hn Hp Hl Hu] Hdom HQ. rewrite <-Hd, elem_of_dom in Hdom. destruct Hdom as [nd E].
  unfold wpp, d_set_prev, node_set. rewrite E. apply HQ. split; simpl; [by rewrite dom_alter_L| | |done|done].
  - intros x. rewrite <-Hn. destruct (decide (x = p)) as [->|Hx]; [by rewrite lookup_alter_eq, E|].
    by rewrite lookup_alter_ne.
  - intros x. unfold upd_fn. case_decide as Hx; [subst; by rewrite lookup_alter_eq, E|].
    by rewrite lookup_alter_ne.
Qed.

(** What the assignments to the links of [p] and [q] leave alone. *)
Ltac links := unfold upd_fn; simpl; repeat (case_decide; try tauto); try congruence.

Lemma d_insert_base D c1 p c2 lk u s n (Q : unit → lstate → Prop) :
  d_state D (c1 ++ p :: c2) lk u s → n ∈ D → n ∉ c1 ++ p :: c2 →
  (∀ s', d_state D (c1 ++ p :: n :: c2) lk u s' → Q tt s') →
  wpp (double_link_insert_base p (hd p (c2 ++ c1)) n) s Q.
Proof.
  intros Hs Hn Hnc HQ. pose proof Hs as [Hd H0 Hr%d_ring_rotate Hl Hu]. set (q := hd p (c2 ++ c1)).
  assert (p ∈ D) as Hp by (eapply d_state_in; [done|set_solver]).
  assert (q ∈ c1 ++ p :: c2) as Hqc.
  { subst q. destruct c2 as [|y c2]; simpl; [destruct c1; simpl; set_solver|set_solver]. }
  assert (q ∈ D) as Hq by (by eapply d_state_in).
  rewrite <-Hd in Hn, Hp, Hq. unfold double_link_insert_base.
  apply wpp_bind. eapply wpp_d_set_next; [apply d_step_refl|done|]. intros s1 H1.
  apply wpp_bind. eapply wpp_d_set_next; [done|done|]. intros s2 H2.
  apply wpp_bind. eapply wpp_d_set_prev; [done|done|]. intros s3 H3.
  eapply wpp_d_set_prev; [done|done|]. intros s4 [Hd4 Hn4 Hp4 Hl4 Hu4]. apply HQ.
  assert (n ≠ p) by set_solver. assert (n ≠ q) by congruence.
  assert (hd p (c2 ++ c1) = q) as Eq by done. clearbody q.
  split; [by rewrite Hd4|done| |by rewrite Hl4|by rewrite Hu4].
  apply (d_ring_rotate _ (p :: n :: c2)). apply (d_ring_insert (ls_heap s) _ p (c2 ++ c1) n); rewrite ?Eq; [done|set_solver| |split..].
  - split; intros x Hx; rewrite ?Hn4, ?Hp4; links.
  - rewrite Hn4. links.
  - rewrite Hp4. links.
  - rewrite Hn4. links.
  - rewrite Hp4. links.
Qed.

Lemma d_next D c1 p c2 lk u s (Q : Z → lstate → Prop) :
  d_state D (c1 ++ p :: c2) lk u s → Q (hd p (c2 ++ c1)) s → wpp (d_get_next p) s Q.
Proof. intros [_ _ Hr _ _] HQ. apply d_ring_next in Hr as [Hn _]. by eapply wpp_d_get_next. Qed.

(** The node before [q]: the ring read backwards. *)
Lemma d_prev D c1 p q c2 lk u s (Q : Z → lstate → Prop) :
  d_state D (c1 ++ p :: c2) lk u s → q = hd p (c2 ++ c1) → Q p s → wpp (d_get_prev q) s Q.
Proof. intros [_ _ Hr _ _] -> HQ. apply d_ring_next in Hr as [_ Hp]. by eapply wpp_d_get_prev. Qed.

(** Unlinking [n] changes its neighbours only. *)
Definition others_kept s s' n : Prop :=
  (∀ x, dn_next <$> ls_heap s !! n ≠ Some x → dn_prev <$> ls_heap s' !! x = dn_prev <$> ls_heap s !! x) ∧
  (∀ x, dn_prev <$> ls_heap s !! n ≠ Some x → dn_next <$> ls_heap s' !! x = dn_next <$> ls_heap s !! x).

(** The ring without [n], seen from the neighbours of [n]. *)
Lemma d_remove_only D c1 n c2 lk u s (Q : unit → lstate → Prop) :
  d_state D (c1 ++ n :: c2) lk u s → c2 ++ c1 ≠ [] →
  (∀ s', d_state D (c1 ++ c2) lk u s' → others_kept s s' n → Q tt s') → wpp (double_link_remove_only n) s Q.
Proof.
  intros Hs Hne HQ. destruct (exists_last Hne) as (c & p & E).
  pose proof Hs as [Hd H0 Hr%(d_ring_rotate _ c1 (n :: c2)) Hl Hu]. simpl in Hr. rewrite E in Hr.
  set (q := hd p c). pose proof (d_ring_next _ [] n _ Hr) as [Hnn Hpn].
  pose proof (d_ring_next _ (n :: c) p [] Hr) as [Hnp Hpp]. simpl in Hnp, Hpp.
  rewrite app_nil_r, hd_app in Hnn. simpl in Hnn. fold q in Hnn.
  assert (n ∈ D) as Hn by (eapply d_state_in; [exact Hs|set_solver]).
  assert (∀ x, x ∈ c ++ [p] → x ∈ D ∧ x ≠ n) as Hin.
  { intros x Hx. split.
    - eapply d_state_in; [exact Hs|]. rewrite <-E in Hx. set_solver.
    - intros ->. destruct Hr as [[]%NoDup_cons _]. done. }
  assert (q ∈ c ++ [p]) as Hqc by (subst q; destruct c; simpl; set_solver).
  assert (hd p c = q) as Eq by done. clearbody q.
  destruct (Hin p) as [Hp Hpne]; [set_solver|]. destruct (Hin q Hqc) as [Hq Hqne].
  rewrite <-Hd in Hn, Hp, Hq. unfold double_link_remove_only.
  apply wpp_bind. eapply wpp_d_get_prev; [done|]. apply wpp_bind. eapply wpp_d_get_next; [done|].
  apply wpp_bind. eapply wpp_d_set_next; [apply d_step_refl|done|]. intros s1 H1. apply wpp_bind.
  eapply wpp_d_get_next; [rewrite (st_next _ _ _ _ H1); by links|]. apply wpp_bind.
  eapply wpp_d_get_prev; [rewrite (st_prev _ _ _ _ H1); exact Hpp|].
  eapply wpp_d_set_prev; [done|done|]. intros s2 [Hd2 Hn2 Hp2 Hl2 Hu2]. apply HQ; cycle 1.
  { split; intros x Hx; rewrite ?Hn2, ?Hp2; links. }
  split; [by rewrite Hd2|done| |by rewrite Hl2|by rewrite Hu2].
  apply d_ring_rotate. rewrite E. apply (d_ring_delete _ _ n c p Hr); rewrite ?Eq; [|split].
  - split; intros x Hx; rewrite ?Hn2, ?Hp2; links.
  - rewrite Hn2. links.
  - rewrite Hp2. links.
Qed.

Lemma d_init_unrelated D c n lk u s (Q : unit → lstate → Prop) :
  d_state D c lk u s → n ∈ D → n ∉ c → (∀ s', d_state D c lk u s' → Q tt s') →
  wpp (double_link_node_init n) s Q.
Proof.
  intros [Hd H0 Hr Hl Hu] Hn Hnc HQ. rewrite <-Hd in Hn. apply wpp_bind.
  eapply wpp_d_set_prev; [apply d_step_refl|done|]. intros s1 H1.
  eapply wpp_d_set_next; [done|done|]. intros s2 [Hd2 Hn2 Hp2 Hl2 Hu2]. apply HQ.
  split; [by rewrite Hd2|done| |by rewrite Hl2|by rewrite Hu2].
  apply (d_ring_unrelated (ls_heap s) _ n); [done|done|]. split; intros x Hx; rewrite ?Hn2, ?Hp2; links.
Qed.

(** *** Operations on the list of a ring *)

(** Inserting before [x]; before the head node means at the end. *)
Fixpoint before (x n : Z) (l : list Z) : list Z :=
  match l with
  | [] => [n]
  | y :: l => if y =? x then n :: y :: l else y :: before x n l
  end.

Lemma before_notin x n l : x ∉ l → before x n l = l ++ [n].
Proof.
  induction l as [|y l IH]; [done|]. intros Hx. simpl. destruct (Z.eqb_spec y x); [set_solver|].
  f_equal. apply IH. set_solver.
Qed.
Lemma before_split x n l1 l2 : x ∉ l1 → before x n (l1 ++ x :: l2) = l1 ++ n :: x :: l2.
Proof.
  induction l1 as [|y l1 IH]; simpl; [by rewrite Z.eqb_refl|]. intros Hx.
  destruct (Z.eqb_spec y x); [set_solver|]. f_equal. apply IH. set_solver.
Qed.

(** The node before [x] in the ring, and the ring with [n] between the two. *)
Lemma ring_before head l x n :
  NoDup (head :: l) → x ∈ head :: l → ∃ c1 p c2,
  head :: l = c1 ++ p :: c2 ∧ x = hd p (c2 ++ c1) ∧ head :: before x n l = c1 ++ p :: n :: c2.
Proof.
  intros Hnd [->|Hx]%elem_of_cons.
  - destruct (exists_last (l := head :: l)) as (c1 & p & E); [done|]. exists c1, p, [].
    split; [done|]. split.
    + simpl. destruct c1; by injection E.
    + apply NoDup_cons in Hnd as [? _]. rewrite before_notin by done.
      change (head :: l ++ [n]) with ((head :: l) ++ [n]). rewrite E. by rewrite <-app_assoc.
  - destruct (pred_of head l x Hx) as (c1 & p & c2 & E). exists c1, p, (x :: c2).
    split; [done|]. split; [done|].
    assert (∃ l1, head :: l1 = c1 ++ [p] ∧ l = l1 ++ x :: c2) as (l1 & E1 & E2).
    { destruct c1 as [|y c1]; simpl in E; injection E as -> ->.
      - by exists [].
      - exists (c1 ++ [p]). by rewrite <-app_assoc. }
    subst l. apply NoDup_cons in Hnd as [_ (Hx1 & _)%NoDup_middle]. rewrite before_split by done.
    change (head :: l1 ++ n :: x :: c2) with ((head :: l1) ++ n :: x :: c2). rewrite E1.
    by rewrite <-app_assoc.
Qed.

Lemma ring_after head l x n :
  NoDup (head :: l) → x ∈ head :: l → ∃ c1 c2,
  head :: l = c1 ++ x :: c2 ∧ head :: tail (insert_after x n (head :: l)) = c1 ++ x :: n :: c2.
Proof.
  intros Hnd (c1 & c2 & E)%list_elem_of_split. exists c1, c2. split; [done|].
  rewrite insert_after_hd, E in *. apply NoDup_middle in Hnd as (Hx & _). by apply insert_after_split.
Qed.

Lemma ring_without head l n :
  NoDup (head :: l) → n ∈ l → ∃ c1 c2,
  head :: l = c1 ++ n :: c2 ∧ c2 ++ c1 ≠ [] ∧ head :: without n l = c1 ++ c2.
Proof.
  intros Hnd (l1 & l2 & ->)%list_elem_of_split. exists (head :: l1), l2.
  apply NoDup_cons in Hnd as [_ (H1 & H2 & _)%NoDup_middle]. rewrite without_middle by done.
  split; [done|]. split; [|done]. by destruct l2.
Qed.

Definition d_rep D head l u s : Prop := d_state D (head :: l) false u s.

Section dops.
Variables (D : gset Z) (head : Z) (u : U).
Notation state l lk := (d_state D (head :: l) lk u).

(** Insertion before [x] and after [x], wherever in the ring. *)
Lemma d_insert_before lk l s x n (Q : unit → lstate → Prop) :
  state l lk s → x ∈ head :: l → n ∈ D → n ∉ head :: l → (∀ s', state (before x n l) lk s' → Q tt s') →
  wpp (prev ← d_get_prev x; double_link_insert_base prev x n) s Q.
Proof.
  intros Hs Hx Hn Hnl HQ.
  destruct (ring_before head l x n (d_state_nodup _ _ _ _ _ Hs) Hx) as (c1 & p & c2 & E & Hxp & E').
  rewrite E' in HQ. rewrite E in *. apply wpp_bind. eapply d_prev; [done..|]. rewrite Hxp. by eapply d_insert_base.
Qed.

Lemma d_insert_after lk l s x n (Q : unit → lstate → Prop) :
  state l lk s → x ∈ head :: l → n ∈ D → n ∉ head :: l →
  (∀ s', state (tail (insert_after x n (head :: l))) lk s' → Q tt s') →
  wpp (next ← d_get_next x; double_link_insert_base x next n) s Q.
Proof.
  intros Hs Hx Hn Hnl HQ.
  destruct (ring_after head l x n (d_state_nodup _ _ _ _ _ Hs) Hx) as (c1 & c2 & E & E').
  rewrite E' in HQ. rewrite E in *. apply wpp_bind. eapply d_next; [done..|]. by eapply d_insert_base.
Qed.

Lemma d_unlink lk l s n (Q : unit → lstate → Prop) :
  state l lk s → n ∈ l → (∀ s', state (without n l) lk s' → others_kept s s' n → Q tt s') →
  wpp (double_link_remove_only n) s Q.
Proof.
  intros Hs Hn HQ.
  destruct (ring_without head l n (d_state_nodup _ _ _ _ _ Hs) Hn) as (c1 & c2 & E & Hne & E').
  rewrite E' in HQ. rewrite E in *. by eapply d_remove_only.
Qed.

Lemma without_nodup n l : NoDup (head :: l) → n ∈ l → n ∉ head :: without n l.
Proof. intros Hnd Hn. unfold without. rewrite elem_of_cons, list_elem_of_filter. apply NoDup_cons in Hnd. naive_solver. Qed.

Lemma d_remove_base lk l s n (Q : unit → lstate → Prop) :
  state l lk s → n ∈ l → (∀ s', state (without n l) lk s' → Q tt s') → wpp (double_link_remove_base n) s Q.
Proof.
  intros Hs Hn HQ. apply wpp_bind. eapply d_unlink; [done..|]. intros s1 Hs1 _.
  eapply d_init_unrelated; [done| | |done].
  - eapply d_state_in; [exact Hs|set_solver].
  - apply without_nodup; [by eapply d_state_nodup|done].
Qed.

(** Under the lock. *)
Lemma d_locked l s (m : prog lstate unit) l' :
  state l false s → (∀ s1 (Q : unit → lstate → Prop), state l true s1 → (∀ s2, state l' true s2 → Q tt s2) → wpp m s1 Q) →
  wpp (pthread_mutex_lock;; m;; pthread_mutex_unlock) s (λ _ s', state l' false s').
Proof.
  intros Hs Hm. apply wpp_bind. eapply d_lock; [done|]. intros s1 Hs1. apply wpp_bind. apply Hm; [done|].
  intros s2 Hs2. by eapply d_unlock.
Qed.

Lemma d_read_next {B} (g : Z → B) l s :
  state l false s →
  wpp (pthread_mutex_lock;; n ← d_get_next head; pthread_mutex_unlock;; mret (g n)) s
      (λ r s', r = g (hd head l) ∧ state l false s').
Proof.
  intros Hs. apply wpp_bind. eapply d_lock; [done|]. intros s1 Hs1. apply wpp_bind.
  apply (d_next D [] head l true u); [done|]. rewrite app_nil_r. apply wpp_bind. eapply d_unlock; [done|].
  intros s2 Hs2. by apply wpp_ret.
Qed.

Lemma last_split (l : list Z) x0 : ∃ c, x0 :: l = c ++ [default x0 (last l)].
Proof.
  destruct l as [|y l] using rev_ind; [by exists []|]. exists (x0 :: l). by rewrite last_snoc.
Qed.

Lemma d_read_prev {B} (g : Z → B) l s :
  state l false s →
  wpp (pthread_mutex_lock;; n ← d_get_prev head; pthread_mutex_unlock;; mret (g n)) s
      (λ r s', r = g (default head (last l)) ∧ state l false s').
Proof.
  intros Hs. apply wpp_bind. eapply d_lock; [done|]. intros s1 Hs1. apply wpp_bind.
  destruct (last_split l head) as (c & E). pose proof Hs1 as Hs1'. rewrite E in Hs1'.
  eapply (d_prev D c _ _ [] true u); [done| |].
  - simpl. destruct c; by injection E.
  - apply wpp_bind. apply (d_unlock D (head :: l) u); [done|]. intros s2 Hs2. by apply wpp_ret.
Qed.

Lemma head_notin l lk s : state l lk s → head ∉ l.
Proof. intros Hs. by apply d_state_nodup, NoDup_cons in Hs as [? _]. Qed.

Lemma hd_head_null l lk s : state l lk s → (if hd head l =? head then 0 else hd head l) = hd 0 l.
Proof.
  intros Hs%head_notin. destruct l as [|x l]; simpl; [by rewrite Z.eqb_refl|].
  destruct (Z.eqb_spec x head); [set_solver|done].
Qed.
Lemma last_head_null l lk s :
  state l lk s → (if default head (last l) =? head then 0 else default head (last l)) = default 0 (last l).
Proof.
  intros Hs%head_notin. destruct (last l) as [x|] eqn:E; simpl; [|by rewrite Z.eqb_refl].
  destruct (Z.eqb_spec x head) as [->|]; [|done]. apply last_Some_elem_of in E. done.
Qed.
Lemma hd_head_empty l lk s : state l lk s → (hd head l =? head) = bool_decide (l = []).
Proof.
  intros Hs%head_notin. destruct l as [|x l]; simpl; [by rewrite Z.eqb_refl|].
  apply Z.eqb_neq. set_solver.
Qed.

Lemma d_walk_fuel l lk s (Q : nat → lstate → Prop) :
  state l lk s → (∀ k, (length l < k)%nat → Q k s) → wpp walk_fuel s Q.
Proof.
  intros Hs HQ. apply wpp_reads, HQ. pose proof Hs as [_ _ Hr _ _].
  pose proof (nodes_bounded (ls_heap s) (head :: l) (d_state_nodup _ _ _ _ _ Hs)
    (λ x, d_ring_in _ _ x Hr)) as Hb. simpl in Hb. lia.
Qed.

(** A walk over the list: the next node of a node on the way. *)
Lemma d_walk_next l1 x l2 lk s (Q : Z → lstate → Prop) :
  state (l1 ++ x :: l2) lk s → Q (hd head l2) s → wpp (d_get_next x) s Q.
Proof.
  intros Hs HQ. apply (d_next D (head :: l1) x l2 lk u); [done|]. by rewrite hd_app.
Qed.

(** Matchers that decide [f] and leave the list alone. *)
Definition decides (matcher : Z → prog lstate bool) (f : Z → bool) l : Prop :=
  ∀ x s, x ∈ l → state l true s → wpp (matcher x) s (λ b s', b = f x ∧ state l true s').

Lemma d_find_base link l s matcher f :
  dl_head link = head → state l true s → decides matcher f l →
  wpp (double_link_find_base link matcher) s (λ r s', r = first_match f l ∧ state l true s').
Proof.
  intros Hh Hs Hm. unfold double_link_find_base. rewrite Hh. apply wpp_bind.
  apply (d_next D [] head l true u); [done|]. rewrite app_nil_r. apply wpp_bind.
  eapply d_walk_fuel; [done|]. intros k Hk. apply wpp_bind.
  apply (wpp_for_nodes _ _ _ (λ l1 s', Forall (λ x, f x = false) l1 ∧ state l true s') _ l k []);
    [| |exact (head_notin _ _ _ Hs)|lia|by split].
  - intros l1 x l2 s2 E [Hf Hs2]. simpl in E. apply wpp_bind.
    eapply wpp_mono; [apply Hm; [set_solver|done]|]. intros b s3 [-> Hs3]. apply wpp_ret.
    destruct (f x) eqn:Hfx.
    + apply wpp_ret. split; [|done]. rewrite E, first_match_app by done. simpl. by rewrite Hfx.
    + pose proof Hs3 as Hs3'. rewrite E in Hs3'. eapply d_walk_next; [done|].
      split; [done|]. split; [|done]. apply Forall_app_2; [done|]. by constructor.
  - intros s2 [Hf Hs2]. apply wpp_ret. split; [|done].
    rewrite <-(app_nil_r l), first_match_app by done. done.
Qed.

(** The [index]-th node, NULL outside the list. *)
Definition nth_node (l : list Z) (index : Z) : Z :=
  if index <? 0 then 0 else default 0 (l !! Z.to_nat index).

Lemma d_get_node_loop l2 : ∀ l1 index k lk s,
  state (l1 ++ l2) lk s → (length l2 < k)%nat →
  wpp (get_node_loop k head (hd head l2) index) s (λ r s', r = nth_node l2 index ∧ s' = s).
Proof.
  induction l2 as [|x l2 IH]; intros l1 index k lk s Hs Hk; (destruct k as [|k]; [simpl in *; lia|]); simpl.
  - rewrite Z.eqb_refl. apply wpp_ret. split; [|done]. unfold nth_node. zcase; [done|]. by rewrite lookup_nil.
  - pose proof (head_notin _ _ _ Hs). destruct (Z.eqb_spec x head); [set_solver|].
    destruct (Z.eqb_spec index 0) as [->|Hi]; [by apply wpp_ret|]. apply wpp_bind.
    eapply d_walk_next; [done|]. eapply wpp_mono.
    + apply (IH (l1 ++ [x]) _ _ lk); [by rewrite <-app_assoc|simpl in *; lia].
    + intros r s' [-> ->]. split; [|done]. unfold nth_node. zcase; [by zcase; lia|].
      destruct (Z.ltb_spec index 0); [lia|].
      replace (Z.to_nat index) with (S (Z.to_nat (index - 1))) by lia. done.
Qed.
End dops.

(** ** Sequences of operations on a double link *)

Inductive double_cmd :=
| DEmpty | DFirst | DLast | DInsert (next n : Z) | DInsert2 (prev n : Z) | DAppend (n : Z) | DPush (n : Z)
| DRemove (n : Z) | DPop | DHas (n : Z) | DGet (index : Z)
| DCondAppend (n : Z) (f : Z → bool) | DCondPush (n : Z) (f : Z → bool)
| DMove (next n : Z) | DMove2 (prev n : Z) | DMoveHead (n : Z) | DMoveTail (n : Z).

Definition double_step (link : double_link) (c : double_cmd) : prog lstate Z :=
  match c with
  | DEmpty => b ← double_link_empty link; mret (Z.b2z b)
  | DFirst => double_link_get_first_node link
  | DLast => double_link_get_last_node link
  | DInsert next n => double_link_insert link next n;; mret 0
  | DInsert2 prev n => double_link_insert2 link prev n;; mret 0
  | DAppend n => double_link_append link n;; mret 0
  | DPush n => double_link_push link n;; mret 0
  | DRemove n => double_link_remove link n;; mret 0
  | DPop => double_link_pop link
  | DHas n => b ← double_link_has_node link n; mret (Z.b2z b)
  | DGet index => double_link_get_node link index
  | DCondAppend n f => double_link_cond_insert_append link n (λ x, mret (f x));; mret 0
  | DCondPush n f => double_link_cond_insert_push link n (λ x, mret (f x));; mret 0
  | DMove next n => double_link_move link next n;; mret 0
  | DMove2 prev n => double_link_move2 link prev n;; mret 0
  | DMoveHead n => double_link_move_to_head link n;; mret 0
  | DMoveTail n => double_link_move_to_tail link n;; mret 0
  end.

Fixpoint run_double (link : double_link) (cs : list double_cmd) : prog lstate (list Z) :=
  match cs with
  | [] => mret []
  | c :: cs => r ← double_step link c; rs ← run_double link cs; mret (r :: rs)
  end.

(** Inserting before the first node that [f] accepts, [other] if none. *)
Definition cond_insert (f : Z → bool) (n : Z) (other l : list Z) : list Z :=
  if first_match f l =? 0 then other else before (first_match f l) n l.

(** The same over a plain list; [None] when the caller breaks the contract. *)
Definition double_spec (D : gset Z) (head : Z) (l : list Z) (c : double_cmd) : option (Z * list Z) :=
  let new n := bool_decide (n ∈ D ∧ n ∉ head :: l) in
  let old n := bool_decide (n ∈ l) in
  let place x := bool_decide (x ∈ head :: l) in
  match c with
  | DEmpty => Some (Z.b2z (bool_decide (l = [])), l)
  | DFirst => Some (hd 0 l, l)
  | DLast => Some (default 0 (last l), l)
  | DInsert next n => if place next && new n then Some (0, before next n l) else None
  | DInsert2 prev n => if place prev && new n then Some (0, tail (insert_after prev n (head :: l))) else None
  | DAppend n => if new n then Some (0, l ++ [n]) else None
  | DPush n => if new n then Some (0, n :: l) else None
  | DRemove n => if old n then Some (0, without n l) else None
  | DPop => Some (hd 0 l, tail l)
  | DHas n => if bool_decide (n ∈ D) then Some (Z.b2z (old n), l) else None
  | DGet index => Some (nth_node l index, l)
  | DCondAppend n f => if new n then Some (0, cond_insert f n (l ++ [n]) l) else None
  | DCondPush n f => if new n then Some (0, cond_insert f n (n :: l) l) else None
  | DMove next n => if old n && place next && negb (next =? n) then Some (0, before next n (without n l)) else None
  | DMove2 prev n =>
    if old n && place prev && negb (prev =? n) then Some (0, tail (insert_after prev n (head :: without n l)))
    else None
  | DMoveHead n => if old n then Some (0, n :: without n l) else None
  | DMoveTail n => if old n then Some (0, without n l ++ [n]) else None
  end.
Fixpoint double_specs D head l cs : option (list Z * list Z) :=
  match cs with
  | [] => Some ([], l)
  | c :: cs =>
    '(r, l) ← double_spec D head l c; '(rs, l) ← double_specs D head l cs; Some (r :: rs, l)
  end.

Section dsteps.
Variables (D : gset Z) (link : double_link) (u : U).
Abbreviation head := (dl_head link).
Notation state l lk := (d_state D (head :: l) lk u).

Lemma edge_after l lk s x :
  state l lk s → x ∈ head :: l → ∃ y, d_edge (ls_heap s) x y.
Proof.
  intros [_ _ Hr _ _] (c1 & c2 & E)%list_elem_of_split. rewrite E in Hr. eexists. by eapply d_ring_next.
Qed.
Lemma edge_before l lk s y :
  state l lk s → y ∈ head :: l → ∃ x, d_edge (ls_heap s) x y.
Proof.
  intros Hs Hy. destruct (ring_before head l y 0 (d_state_nodup _ _ _ _ _ Hs) Hy) as (c1 & p & c2 & E & -> & _).
  destruct Hs as [_ _ Hr _ _]. rewrite E in Hr. exists p. by apply d_ring_next in Hr.
Qed.

(** Moving [n] to before [x], where it is not. *)
Lemma d_move_before l s x n (Q : unit → lstate → Prop) :
  state l true s → n ∈ l → x ∈ head :: l → x ≠ n → dn_next <$> ls_heap s !! n ≠ Some x →
  (∀ s', state (before x n (without n l)) true s' → Q tt s') →
  wpp (prev ← d_get_prev x; double_link_move_base prev x n) s Q.
Proof.
  intros Hs Hn Hx Hne Hnx HQ. destruct (edge_before _ _ _ _ Hs Hx) as (p & _ & Hp).
  apply wpp_bind. eapply wpp_d_get_prev; [done|]. apply wpp_bind.
  eapply d_unlink; [done..|]. intros s1 Hs1 [Hk _].
  pose proof (d_state_nodup _ _ _ _ _ Hs) as Hnd. pose proof (d_state_nodup _ _ _ _ _ Hs1) as Hnd1.
  assert (x ∈ head :: without n l) as Hx1 by (unfold without; rewrite elem_of_cons, list_elem_of_filter in *; tauto).
  destruct (ring_before head _ x n Hnd1 Hx1) as (c1 & p' & c2 & E & Hxp & E').
  rewrite E in Hs1. pose proof Hs1 as [_ _ Hr _ _]. apply d_ring_next in Hr as [_ Hp'].
  rewrite <-Hxp, Hk, Hp in Hp' by done. injection Hp' as <-. rewrite Hxp.
  eapply d_insert_base; [done| | |].
  - eapply d_state_in; [exact Hs|set_solver].
  - rewrite <-E. by apply without_nodup.
  - intros s2 Hs2. apply HQ. by rewrite E'.
Qed.

Lemma d_move_after l s x n (Q : unit → lstate → Prop) :
  state l true s → n ∈ l → x ∈ head :: l → x ≠ n → dn_prev <$> ls_heap s !! n ≠ Some x →
  (∀ s', state (tail (insert_after x n (head :: without n l))) true s' → Q tt s') →
  wpp (next ← d_get_next x; double_link_move_base x next n) s Q.
Proof.
  intros Hs Hn Hx Hne Hnx HQ. destruct (edge_after _ _ _ _ Hs Hx) as (q & Hq & _).
  apply wpp_bind. eapply wpp_d_get_next; [done|]. apply wpp_bind.
  eapply d_unlink; [done..|]. intros s1 Hs1 [_ Hk].
  pose proof (d_state_nodup _ _ _ _ _ Hs) as Hnd. pose proof (d_state_nodup _ _ _ _ _ Hs1) as Hnd1.
  assert (x ∈ head :: without n l) as Hx1 by (unfold without; rewrite elem_of_cons, list_elem_of_filter in *; tauto).
  destruct (ring_after head _ x n Hnd1 Hx1) as (c1 & c2 & E & E').
  rewrite E in Hs1. pose proof Hs1 as [_ _ Hr _ _]. apply d_ring_next in Hr as [Hq' _].
  rewrite Hk, Hq in Hq' by done. injection Hq' as ->.
  eapply d_insert_base; [done| | |].
  - eapply d_state_in; [exact Hs|set_solver].
  - rewrite <-E. by apply without_nodup.
  - intros s2 Hs2. apply HQ. by rewrite E'.
Qed.

(** Moving [n] to where it is changes nothing. *)
Lemma before_same l n x lk s :
  state l lk s → n ∈ l → dn_next <$> ls_heap s !! n = Some x → before x n (without n l) = l.
Proof.
  intros Hs Hn Hx. pose proof (d_state_nodup _ _ _ _ _ Hs) as Hnd. pose proof Hs as [_ _ Hr _ _].
  apply list_elem_of_split in Hn as (l1 & l2 & ->). apply (d_ring_next _ (head :: l1) n l2) in Hr as [Hn _].
  rewrite Hn, hd_app in Hx. injection Hx as <-. simpl.
  apply NoDup_cons in Hnd as [Hh (H1 & H2 & Hnd)%NoDup_middle]. rewrite without_middle by done.
  destruct l2 as [|y l2]; simpl.
  - rewrite app_nil_r. apply before_notin. set_solver.
  - apply before_split. apply NoDup_middle in Hnd. tauto.
Qed.

Lemma after_same l n x lk s :
  state l lk s → n ∈ l → dn_prev <$> ls_heap s !! n = Some x →
  tail (insert_after x n (head :: without n l)) = l.
Proof.
  intros Hs Hn Hx. pose proof (d_state_nodup _ _ _ _ _ Hs) as Hnd. pose proof Hs as [_ _ Hr _ _].
  apply list_elem_of_split in Hn as (l1 & l2 & ->).
  destruct (exists_last (l := head :: l1)) as (c & p & E); [done|].
  assert (head :: l1 ++ n :: l2 = c ++ p :: n :: l2) as E2.
  { change (head :: l1 ++ n :: l2) with ((head :: l1) ++ n :: l2). rewrite E. by rewrite <-app_assoc. }
  rewrite E2 in Hr. apply d_ring_next in Hr as [_ Hp]. simpl in Hp. rewrite Hp in Hx. injection Hx as <-.
  pose proof Hnd as [_ (H1 & H2 & _)%NoDup_middle]%NoDup_cons. rewrite without_middle by done.
  change (head :: l1 ++ l2) with ((head :: l1) ++ l2). rewrite E, <-app_assoc. simpl.
  rewrite E2 in Hnd. apply NoDup_middle in Hnd as (Hp' & _). rewrite insert_after_split by done.
  by rewrite <-E2.
Qed.

Lemma d_cond_insert l s n f other (m : prog lstate unit) (Q : unit → lstate → Prop) :
  state l true s → n ∈ D → n ∉ head :: l →
  (∀ s, state l true s → (∀ s', state other true s' → Q tt s') → wpp m s Q) →
  (∀ s', state (cond_insert f n other l) true s' → Q tt s') →
  wpp (next ← double_link_find_base link (λ x, mret (f x));
       if negb (next =? 0) then prev ← d_get_prev next; double_link_insert_base prev next n else m) s Q.
Proof.
  intros Hs Hn Hnl Hm HQ. apply wpp_bind.
  eapply wpp_mono; [apply (d_find_base D head u link l s _ f); [done|done|]|].
  - intros x s1 _ Hs1. by apply wpp_ret.
  - intros y s1 [-> Hs1]. unfold cond_insert in HQ. destruct (Z.eqb_spec (first_match f l) 0) as [E|E]; simpl.
    + by apply Hm.
    + eapply d_insert_before; [done| |done|done|done].
      right. clear -E. induction l as [|x l IH]; simpl in *; [done|]. destruct (f x); [left|right; auto].
Qed.

Lemma d_pop l s :
  state l false s → wpp (double_link_pop link) s (λ r s', r = hd 0 l ∧ state (tail l) false s').
Proof.
  intros Hs. apply wpp_bind. eapply d_lock; [done|]. intros s1 Hs1. apply wpp_bind.
  apply (d_next D [] head l true u); [done|]. rewrite app_nil_r. pose proof (hd_head_null _ _ _ _ _ _ Hs1) as Hh.
  pose proof (head_notin _ _ _ _ _ _ Hs) as Hnl. pose proof (d_state_nodup _ _ _ _ _ Hs) as Hnd.
  apply wpp_bind. destruct l as [|x l]; simpl in *.
  - rewrite Z.eqb_refl. apply wpp_ret, wpp_bind. eapply d_unlock; [done|]. intros s2 Hs2. by apply wpp_ret.
  - destruct (Z.eqb_spec x head); [set_solver|]. apply wpp_bind.
    eapply (d_remove_base D head u); [exact Hs1|set_solver|]. intros s2 Hs2. apply wpp_ret, wpp_bind.
    eapply d_unlock; [done|]. intros s3 Hs3. apply wpp_ret. split; [done|].
    apply NoDup_cons in Hnd as [_ [Hx _]%NoDup_cons]. unfold without in Hs3.
    rewrite filter_cons_False in Hs3 by tauto. by fold (without x l) in Hs3; rewrite without_notin in Hs3.
Qed.

(** A modification under the lock, answering 0. *)
Lemma d_unit l s (m : prog lstate unit) l' :
  state l false s →
  (∀ s1 (Q : unit → lstate → Prop), state l true s1 → (∀ s2, state l' true s2 → Q tt s2) → wpp m s1 Q) →
  wpp ((pthread_mutex_lock;; m;; pthread_mutex_unlock);; mret 0) s (λ r s', r = 0 ∧ state l' false s').
Proof.
  intros Hs Hm. apply wpp_bind. eapply wpp_mono; [by eapply d_locked|].
  intros [] s' Hs'. by apply wpp_ret.
Qed.

Lemma d_queries l s (c : double_cmd) r l' :
  state l false s → double_spec D head l c = Some (r, l') →
  match c with DEmpty | DFirst | DLast | DHas _ | DGet _ => True | _ => False end →
  wpp (double_step link c) s (λ r' s', r' = r ∧ state l' false s').
Proof.
  intros Hs Hc Hq. destruct c as [| | |x n|x n|n|n|n| |n|i|n f|n f|x n|x n|n|n]; try done; simpl in *.
  - simplify_eq. apply wpp_bind. eapply wpp_mono; [by apply (d_read_next D head u (λ n, n =? head))|].
    intros b s' [-> Hs']. apply wpp_ret. split; [|done]. by rewrite (hd_head_empty _ _ _ _ _ _ Hs').
  - simplify_eq. eapply wpp_mono; [by apply (d_read_next D head u (λ n, if n =? head then 0 else n))|].
    intros b s' [-> Hs']. split; [|done]. by eapply hd_head_null.
  - simplify_eq. eapply wpp_mono; [by apply (d_read_prev D head u (λ n, if n =? head then 0 else n))|].
    intros b s' [-> Hs']. split; [|done]. by eapply last_head_null.
  - case_bool_decide as HD; [|done]. injection Hc as <- <-. apply wpp_bind, wpp_bind, wpp_bind. eapply d_lock; [done|].
    intros s1 Hs1. apply wpp_bind.
    eapply wpp_mono; [apply (d_find_base D head u link l s1 _ (λ x, x =? n)); [done|done|]|].
    + intros x s2 _ Hs2. by apply wpp_ret.
    + intros y s2 [-> Hs2]. apply wpp_bind. eapply d_unlock; [done|]. intros s3 Hs3. repeat apply wpp_ret.
      split; [|done]. rewrite first_match_eq; [done|]. destruct Hs; set_solver.
  - injection Hc as <- <-. apply wpp_bind. eapply d_lock; [done|]. intros s1 Hs1. apply wpp_bind, wpp_bind.
    apply (d_next D [] head l true u); [done|]. rewrite app_nil_r. apply wpp_bind.
    eapply d_walk_fuel; [done|]. intros k Hk.
    eapply wpp_mono; [by apply (d_get_node_loop D head u l [] i k true)|]. intros y s2 [-> ->].
    apply wpp_bind. eapply d_unlock; [done|]. intros s2 Hs2. by apply wpp_ret.
Qed.

Lemma d_inserts l s (c : double_cmd) r l' :
  state l false s → double_spec D head l c = Some (r, l') →
  match c with DInsert _ _ | DInsert2 _ _ | DAppend _ | DPush _ | DCondAppend _ _ | DCondPush _ _ => True | _ => False end →
  wpp (double_step link c) s (λ r' s', r' = r ∧ state l' false s').
Proof.
  intros Hs Hc Hq. pose proof (head_notin _ _ _ _ _ _ Hs) as Hh.
  destruct c as [| | |x n|x n|n|n|n| |n|i|n f|n f|x n|x n|n|n]; try done; unfold double_spec in Hc;
    repeat case_bool_decide; simplify_eq/=; try done; destruct_and?; (eapply d_unit; [done|]);
    intros s1 Q Hs1 HQ.
  - by eapply d_insert_before.
  - eapply d_insert_after; [done|set_solver|done|done|]. simpl. done.
  - eapply d_insert_before; [done|set_solver|done|done|]. by rewrite before_notin.
  - eapply d_insert_after; [done|set_solver|done|done|]. simpl. by rewrite Z.eqb_refl.
  - eapply d_cond_insert; [done..| |done]. intros s2 Hs2 HQ2.
    eapply d_insert_before; [done|set_solver|done|done|]. by rewrite before_notin.
  - eapply d_cond_insert; [done..| |done]. intros s2 Hs2 HQ2.
    eapply d_insert_after; [done|set_solver|done|done|]. simpl. by rewrite Z.eqb_refl.
Qed.

(** The two neighbours agree about their link. *)
Lemma edge_sym l lk s x y :
  state l lk s → x ∈ head :: l → y ∈ head :: l →
  dn_next <$> ls_heap s !! x = Some y ↔ dn_prev <$> ls_heap s !! y = Some x.
Proof.
  intros Hs Hx Hy. destruct (edge_after _ _ _ _ Hs Hx) as (y' & H1 & H2).
  destruct (edge_before _ _ _ _ Hs Hy) as (x' & H3 & H4). split; intros E.
  - rewrite E in H1. injection H1 as <-. done.
  - rewrite E in H4. injection H4 as <-. done.
Qed.

Lemma d_moves l s (c : double_cmd) r l' :
  state l false s → double_spec D head l c = Some (r, l') →
  match c with DMove _ _ | DMove2 _ _ | DMoveHead _ | DMoveTail _ | DRemove _ => True | _ => False end →
  wpp (double_step link c) s (λ r' s', r' = r ∧ state l' false s').
Proof.
  intros Hs Hc Hq. pose proof (head_notin _ _ _ _ _ _ Hs) as Hh.
  assert (∀ n, head ∉ without n l) as Hhw.
  { intros n. unfold without. rewrite list_elem_of_filter. tauto. }
  destruct c as [| | |x n|x n|n|n|n| |n|i|n f|n f|x n|x n|n|n]; try done; unfold double_spec in Hc;
    repeat case_bool_decide; simplify_eq/=; try done;
    try (destruct (Z.eqb_spec x n) as [|Hxn]; simplify_eq/=);
    (eapply d_unit; [done|]); intros s1 Q Hs1 HQ;
    assert (head ≠ n) as Hhn by (intros <-; done).
  - by eapply d_remove_base.
  - destruct (edge_after _ _ _ n Hs1 ltac:(by right)) as (y & Hy & _). apply wpp_bind.
    eapply wpp_d_get_next; [done|]. destruct (Z.eqb_spec y x) as [->|Hyx]; simpl.
    + apply HQ. by rewrite (before_same _ _ _ _ _ Hs1).
    + eapply d_move_before; try done. rewrite Hy. congruence.
  - destruct (edge_before _ _ _ n Hs1 ltac:(by right)) as (y & _ & Hy). apply wpp_bind.
    eapply wpp_d_get_prev; [done|]. destruct (Z.eqb_spec y x) as [->|Hyx]; simpl.
    + apply HQ. pose proof (after_same _ _ _ _ _ Hs1 ltac:(done) Hy) as E. simpl in E. by rewrite E.
    + eapply d_move_after; try done. rewrite Hy. congruence.
  - destruct (edge_after _ _ _ head Hs1 ltac:(by left)) as (y & Hy & _). apply wpp_bind.
    eapply wpp_d_get_next; [done|]. pose proof (edge_sym _ _ _ head n Hs1 ltac:(by left) ltac:(by right)) as Hsym.
    assert (tail (insert_after head n (head :: without n l)) = n :: without n l) as E by (simpl; by rewrite Z.eqb_refl).
    destruct (Z.eqb_spec y n) as [->|Hyx]; simpl.
    + apply HQ. by rewrite <-E, (after_same _ _ _ _ _ Hs1) by tauto.
    + eapply d_move_after; try done; [set_solver| |by rewrite E]. rewrite <-Hsym, Hy. congruence.
  - destruct (edge_after _ _ _ n Hs1 ltac:(by right)) as (y & Hy & _). apply wpp_bind.
    eapply wpp_d_get_next; [done|]. pose proof (before_notin head n (without n l) (Hhw n)) as E.
    destruct (Z.eqb_spec y head) as [->|Hyx]; simpl.
    + apply HQ. by rewrite <-E, (before_same _ _ _ _ _ Hs1).
    + eapply d_move_before; try done; [set_solver| |by rewrite E]. rewrite Hy. congruence.
Qed.

Lemma double_step_refines l s (c : double_cmd) r l' :
  state l false s → double_spec D head l c = Some (r, l') →
  wpp (double_step link c) s (λ r' s', r' = r ∧ state l' false s').
Proof.
  intros Hs Hc.
  destruct c; try (by eapply d_queries); try (by eapply d_inserts); try (by eapply d_moves).
  simpl in Hc. simplify_eq. by apply d_pop.
Qed.

Lemma run_double_refines (cs : list double_cmd) : ∀ l s rs l',
  state l false s → double_specs D head l cs = Some (rs, l') →
  wpp (run_double link cs) s (λ r s', r = rs ∧ state l' false s').
Proof.
  induction cs as [|c cs IH]; intros l s rs l' Hs Hc; cbn [double_specs run_double] in *; [by simplify_eq|].
  destruct (double_spec D head l c) as [[r l1]|] eqn:E1; [|done]. simpl in Hc.
  destruct (double_specs D head l1 cs) as [[rs1 l2]|] eqn:E2; [|done]. simplify_eq/=.
  apply wpp_bind. eapply wpp_mono; [by eapply double_step_refines|]. intros r' s1 [-> Hs1].
  apply wpp_bind. eapply wpp_mono; [by eapply IH|]. intros rs' s2 [-> Hs2]. by apply wpp_ret.
Qed.

Lemma double_init_rep offset s :
  dom (ls_heap s) = D → 0 ∉ D → head ∈ D → ls_user s = u →
  wpp (double_link_init 0 link offset) s (λ r s', r = (0, mk_double_link offset head) ∧ state [] false s').
Proof.
  intros Hd H0 Hh Hu. rewrite <-Hd in Hh. apply wpp_bind, wpp_bind.
  eapply wpp_d_set_prev; [apply d_step_refl|done|]. intros s1 H1.
  eapply wpp_d_set_next; [done|done|]. intros s2 [Hd2 Hn2 Hp2 Hl2 Hu2]. split; [done|].
  split; simpl; [by rewrite Hd2|done| |done|by rewrite Hu2].
  split; [apply NoDup_singleton|]. simpl. split; [|done]. split; [rewrite Hn2|rewrite Hp2]; links.
Qed.
End dsteps.

(** *** Destruction *)

(** The nodes [l] are gone, the others are as in [h]; the lock is free. *)
Record d_freed h (l : list Z) lk u s : Prop := {
  df_other : ∀ y, y ∉ l → ls_heap s !! y = h !! y;
  df_gone : ∀ x, x ∈ l → ls_heap s !! x = None;
  df_locked : ls_locked s = lk;
  df_user : ls_user s = u }.

Lemma d_free_node h offset l lk u s x :
  d_freed h l lk u s → x ∉ l → is_Some (h !! x) →
  wpp (free_container offset (x - offset)) s (λ _ s', d_freed h (l ++ [x]) lk u s').
Proof.
  intros [Ho Hg Hl Hu] Hx [nd Hnd]. unfold wpp, free_container. rewrite Z.sub_add, Ho, Hnd by done. simpl.
  split; simpl; [| |done|done].
  - intros y Hy. rewrite lookup_delete_ne by set_solver. apply Ho. set_solver.
  - intros y Hy. destruct (decide (y = x)) as [->|Hne]; [by rewrite lookup_delete_eq|].
    rewrite lookup_delete_ne by done. apply Hg. set_solver.
Qed.

Lemma d_free_all link D l u s :
  d_rep D (dl_head link) l u s →
  wpp (double_link_free_all link) s (λ _ s',
    d_freed (<[dl_head link := mk_double_link_node (dl_head link) (dl_head link)]> (ls_heap s)) l false u s').
Proof.
  intros Hs. pose proof (d_state_nodup _ _ _ _ _ Hs) as Hnd. pose proof (head_notin _ _ _ _ _ _ Hs) as Hhl.
  pose proof Hs as [Hd H0 Hr Hl Hu]. apply wpp_bind.
  eapply (wpp_eq _ _ tt (set_locked s true)); [unfold pthread_mutex_lock; by rewrite Hl|].
  assert (d_state D (dl_head link :: l) true u (set_locked s true)) as Hs1 by (by split).
  apply wpp_bind. apply (d_next D [] _ l true u); [done|]. rewrite app_nil_r. apply wpp_bind.
  eapply d_walk_fuel; [done|]. intros k Hk. apply wpp_bind.
  apply (wpp_while_nodes _ _ _ (λ l1 s', d_freed (ls_heap s) l1 true u s') _ l k []); [| |done|lia|].
  - intros l1 x l2 s2 E Hf. simpl in E. subst l.
    assert (x ∉ l1) as Hx by (apply NoDup_cons in Hnd as [_ (? & _)%NoDup_middle]; done).
    pose proof (d_ring_next _ (dl_head link :: l1) x l2 Hr) as [Hn _]. rewrite hd_app in Hn. simpl in Hn.
    eapply wpp_d_get_next; [by rewrite (df_other _ _ _ _ _ Hf)|]. split; [done|].
    apply d_free_node; [done|done|]. eapply d_ring_in; [exact Hr|set_solver].
  - intros s2 [Ho Hg Hl2 Hu2]. simpl in *.
    destruct (d_ring_in _ _ (dl_head link) Hr ltac:(by left)) as [nd Hnd'].
    unfold wpp, double_link_node_init, d_set_prev, d_set_next, node_set, mbind, prog_bind.
    rewrite Ho, Hnd' by done. simpl. rewrite lookup_alter_eq, Ho, Hnd' by done. simpl.
    unfold pthread_mutex_unlock. simpl. rewrite Hl2. split; simpl; [| |done|done].
    + intros y Hy. destruct (decide (y = dl_head link)) as [->|Hne].
      * by rewrite !lookup_alter_eq, lookup_insert_eq, Ho, Hnd' by done.
      * rewrite !lookup_alter_ne, lookup_insert_ne by done. by apply Ho.
    + intros y Hy. assert (y ≠ dl_head link) by set_solver. rewrite !lookup_alter_ne by done. by apply Hg.
  - split; [done|by intros ? ?%elem_of_nil|done|done].
Qed.

(** C8: double links are lists of nodes: from an initialised link, any
    sequence of insertions before and after a node, conditional insertions,
    appends, pushes, removals, pops, moves of a node to before or after another
    or to either end, and queries gives the answers the operations on a plain
    list give, as long as the caller inserts nodes that exist and are not in
    the list, removes and moves nodes that are, and never moves a node relative
    to itself; at the end both chains of links are the list's and every lock
    taken was released. *)
Theorem double_links_refine_lists (link : double_link) offset D s cs rs l :
  dom (ls_heap s) = D → 0 ∉ D → dl_head link ∈ D →
  double_specs D (dl_head link) [] cs = Some (rs, l) →
  wpp ('(_, link) ← double_link_init 0 link offset; run_double link cs) s
      (λ r s', r = rs ∧ d_rep D (dl_head link) l (ls_user s) s').
Proof.
  intros Hd H0 Hh Hc. apply wpp_bind.
  eapply wpp_mono; [by apply (double_init_rep D link (ls_user s) offset s)|]. intros r s1 [-> Hs1].
  by eapply (run_double_refines D (mk_double_link offset (dl_head link))).
Qed.
End double_spec.

Lemma double_links_refine_lists_witness :
  let nd := mk_double_link_node 77 78 in
  let s := mk_lstate (list_to_map [(10, nd); (20, nd); (30, nd); (40, nd)]) true tt in
  let cs := [DAppend 20; DAppend 40; DCondAppend 30 (λ x, 25 <? x); DMove 20 40; DMoveTail 40; DGet 1; DLast;
             DMove2 40 20; DMoveHead 20; DRemove 30; DPop; DPop; DEmpty] in
  wpp ('(_, link) ← double_link_init 0 (mk_double_link 5 10) 8; run_double link cs) s
      (λ r s', r = [0; 0; 0; 0; 0; 30; 40; 0; 0; 0; 20; 40; 1] ∧ d_rep {[10; 20; 30; 40]} 10 [] tt s').
Proof.
  intros nd s cs.
  apply (double_links_refine_lists (mk_double_link 5 10) 8 {[10; 20; 30; 40]} s cs);
    [vm_compute; done|set_solver|set_solver|vm_compute; done].
Defined.

(** Freeing a list frees each of its nodes once and nothing else, and
    leaves an empty list behind: none of the three walks reads the links of a
    node it has freed, and no lock stays taken. *)
Theorem free_all_frees_the_nodes {U} (link : single_link) (clink : circle_link) (dlink : double_link)
    (D : gset Z) (u : U) (l : list Z) s cs ds :
  link_rep (sl_head link) 0 D u l s →
  link_rep (cl_head clink) (cl_head clink) D u l cs →
  d_rep D (dl_head dlink) l u ds →
  wpp (single_link_free_all link) s (λ _ s',
    consumed (<[sl_head link := 0]> (nexts (ls_heap s))) (λ _ o, o = None) l false u s') ∧
  wpp (circle_link_free_all clink) cs (λ _ s',
    consumed (<[cl_head clink := cl_head clink]> (nexts (ls_heap cs))) (λ _ o, o = None) l false u s') ∧
  wpp (double_link_free_all dlink) ds (λ _ s',
    d_freed (<[dl_head dlink := mk_double_link_node (dl_head dlink) (dl_head dlink)]> (ls_heap ds)) l false u s').
Proof.
  assert (∀ (l : list Z), foldl (λ (v : U) _, v) u l = u) as Hu by (intros l'; by induction l').
  intros Hs Hc Hd. split; [|split; [|by eapply d_free_all]];
    (eapply wpp_mono; [eapply (link_destroy_ok _ _ D u); [done|apply free_consumes]|]);
    intros [] s' Hs'; simpl in Hs'; by rewrite Hu in Hs'.
Qed.

Lemma free_all_frees_the_nodes_witness :
  let s stop := mk_lstate (list_to_map [(10, mk_single_link_node 20 0); (20, mk_single_link_node 30 0);
                                        (30, mk_single_link_node stop 0)]) false tt in
  let ds := mk_lstate (list_to_map [(10, mk_double_link_node 30 20); (20, mk_double_link_node 10 30);
                                    (30, mk_double_link_node 20 10)]) false tt in
  wpp (single_link_free_all (mk_single_link 8 10)) (s 0) (λ _ s',
    consumed (<[10 := 0]> (nexts (ls_heap (s 0)))) (λ _ o, o = None) [20; 30] false tt s') ∧
  wpp (circle_link_free_all (mk_circle_link 8 10)) (s 10) (λ _ s',
    consumed (<[10 := 10]> (nexts (ls_heap (s 10)))) (λ _ o, o = None) [20; 30] false tt s') ∧
  wpp (double_link_free_all (mk_double_link 8 10)) ds (λ _ s',
    d_freed (<[10 := mk_double_link_node 10 10]> (ls_heap ds)) [20; 30] false tt s').
Proof.
  intros s ds. assert (NoDup [10; 20; 30]) as Hnd by (apply (bool_decide_eq_true_1 _); vm_compute; done).
  apply (free_all_frees_the_nodes (mk_single_link 8 10) (mk_circle_link 8 10) (mk_double_link 8 10)
    {[10; 20; 30]} tt [20; 30] (s 0) (s 10) ds).
  - split; [by left|set_solver|by vm_compute| |done|done]. split; [done|by vm_compute|set_solver].
  - split; [by right|set_solver|by vm_compute| |done|done]. split; [done|by vm_compute|set_solver].
  - split; [by vm_compute|set_solver| |done|done]. split; [done|by vm_compute].
Defined.
