(* ===== verification/Tree.v ===== *)
(** Tree: the binary search trees of src/lib/tree.c and
    src/include/cavan/tree.h.

    Nodes live in a store keyed by address; the descriptor has a cache of 100
    nodes, laid out from [bd_buff] on, before it falls back to [malloc].  The
    recursive traversals are the reference for the iterative ones, which keep
    their path on the stacks of Stack.v (through [StackLaws]) or the pointer
    queue of Queue.v. *)
From S2P Require Import Prelude Stack Queue.

Definition TREE_MAX_DEPTH : Z := 100.
Definition TREE_BUFFER_SIZE : Z := 100.

Record binary_tree_node := mk_binary_tree_node { bn_data : Z; bn_left : Z; bn_right : Z }.

(** [U] is the data the traversal callback works on.  [bd_flags] are the flags
    of the cache entries; their nodes are in the store, 32 bytes apart. *)
Record binary_tree_descriptor (U : Type) := mk_binary_tree_descriptor {
  bd_root : Z;
  bd_buff : Z;
  bd_flags : list Z;
  bd_buff_end : Z;
  bd_count : Z;
  bd_compare : option (Z → Z → Z);
  bd_traversal : option (Z → U → U) }.
Arguments mk_binary_tree_descriptor {U}.
Arguments bd_root {U}.
Arguments bd_buff {U}.
Arguments bd_flags {U}.
Arguments bd_buff_end {U}.
Arguments bd_count {U}.
Arguments bd_compare {U}.
Arguments bd_traversal {U}.

(** The pointers [binary_tree_insert] walks along. *)
Inductive link := LinkRoot | LinkLeft (p : Z) | LinkRight (p : Z).

Definition binary_tree_cache_size : Z := 32.

Section code.
Context {U : Type}.
Abbreviation descriptor := (binary_tree_descriptor U).
Abbreviation nodes := (gmap Z binary_tree_node).
Implicit Types (desc : descriptor) (h : nodes) (p : Z) (u : U).

Definition set_root desc p : descriptor :=
  mk_binary_tree_descriptor p (bd_buff desc) (bd_flags desc) (bd_buff_end desc) (bd_count desc)
    (bd_compare desc) (bd_traversal desc).
Definition set_flags desc fl : descriptor :=
  mk_binary_tree_descriptor (bd_root desc) (bd_buff desc) fl (bd_buff_end desc) (bd_count desc)
    (bd_compare desc) (bd_traversal desc).
Definition set_callbacks desc compare traversal : descriptor :=
  mk_binary_tree_descriptor (bd_root desc) (bd_buff desc) (bd_flags desc) (bd_buff_end desc) (bd_count desc)
    compare traversal.

Definition cache_addr desc (q : Z) : Z := bd_buff desc + binary_tree_cache_size * q.

Definition binary_tree_init desc : Z * descriptor :=
  (0, mk_binary_tree_descriptor 0 (bd_buff desc) ((λ _, 0) <$> bd_flags desc)
        (cache_addr desc TREE_BUFFER_SIZE) 0 None None).

(** [for (q = desc->buff; q->flags; q++);] *)
Definition free_slot_round (flags : list Z) (q : Z) : cres (Z + Z) :=
  f ← load flags q; mret (if negb (f =? 0) then inl (q + 1) else inr q).

(** [fresh]: what [malloc] gives. *)
Definition binary_tree_malloc_node desc h (fresh : option Z) (data left right : Z)
    : cres (Z * descriptor * nodes) :=
  if bd_count desc <? TREE_BUFFER_SIZE then
    q ← loop (S (length (bd_flags desc))) (free_slot_round (bd_flags desc)) 0;
    fl ← store (bd_flags desc) q 1;
    let p := cache_addr desc q in
    mret (p, set_flags desc fl, <[p := mk_binary_tree_node data left right]> h)
  else
    match fresh with
    | None => mret (0, desc, h)
    | Some p => mret (p, desc, <[p := mk_binary_tree_node data left right]> h)
    end.

Definition binary_tree_free_node desc h (node : Z) : cres (descriptor * nodes) :=
  if (bd_buff desc <=? node) && (node <? bd_buff_end desc) then
    fl ← store (bd_flags desc) ((node - bd_buff desc) / binary_tree_cache_size) 0;
    mret (set_flags desc fl, h)
  else
    match h !! node with
    | Some _ => mret (desc, delete node h)
    | None => Undef
    end.

Definition tree_node h p : cres binary_tree_node :=
  match h !! p with Some n => Ok n | None => Undef end.

Definition read_link desc h (pp : link) : cres Z :=
  match pp with
  | LinkRoot => mret (bd_root desc)
  | LinkLeft p => n ← tree_node h p; mret (bn_left n)
  | LinkRight p => n ← tree_node h p; mret (bn_right n)
  end.
Definition write_link desc h (pp : link) (v : Z) : cres (descriptor * nodes) :=
  match pp with
  | LinkRoot => mret (set_root desc v, h)
  | LinkLeft p => n ← tree_node h p; mret (desc, <[p := mk_binary_tree_node (bn_data n) v (bn_right n)]> h)
  | LinkRight p => n ← tree_node h p; mret (desc, <[p := mk_binary_tree_node (bn_data n) (bn_left n) v]> h)
  end.

(** [while ((p = *pp)) ...]: the link where the new node goes. *)
Definition descend_round desc h (compare : Z → Z → Z) (data : Z) (pp : link) : cres (link + link) :=
  p ← read_link desc h pp;
  if p =? 0 then mret (inr pp)
  else
    n ← tree_node h p;
    mret (inl (if compare data (bn_data n) <? 0 then LinkLeft p else LinkRight p)).

Definition binary_tree_insert desc h (fresh : option Z) (data : Z) : cres (Z * descriptor * nodes) :=
  match bd_compare desc with
  | None => mret (- ENODATA, desc, h)
  | Some compare =>
    pp ← loop (S (size h)) (descend_round desc h compare data) LinkRoot;
    '(p, desc, h) ← binary_tree_malloc_node desc h fresh data 0 0;
    if p =? 0 then mret (- ENOMEM, desc, h)
    else '(desc, h) ← write_link desc h pp p; mret (0, desc, h)
  end.

(** *** Recursive traversals *)

(** The depth of the recursion is not bounded by the code; [fuel] bounds it by
    the number of nodes. *)
Fixpoint binary_tree_traversal_first_recursion_body (fuel : nat) h (root : Z) (traversal : Z → U → U) u : cres U :=
  match fuel with
  | O => NoFuel
  | S k =>
    if root =? 0 then mret u
    else
      n ← tree_node h root;
      let u := traversal (bn_data n) u in
      u ← binary_tree_traversal_first_recursion_body k h (bn_left n) traversal u;
      binary_tree_traversal_first_recursion_body k h (bn_right n) traversal u
  end.
Fixpoint binary_tree_traversal_middle_recursion_body (fuel : nat) h (root : Z) (traversal : Z → U → U) u : cres U :=
  match fuel with
  | O => NoFuel
  | S k =>
    if root =? 0 then mret u
    else
      n ← tree_node h root;
      u ← binary_tree_traversal_middle_recursion_body k h (bn_left n) traversal u;
      let u := traversal (bn_data n) u in
      binary_tree_traversal_middle_recursion_body k h (bn_right n) traversal u
  end.
Fixpoint binary_tree_traversal_later_recursion_body (fuel : nat) h (root : Z) (traversal : Z → U → U) u : cres U :=
  match fuel with
  | O => NoFuel
  | S k =>
    if root =? 0 then mret u
    else
      n ← tree_node h root;
      u ← binary_tree_traversal_later_recursion_body k h (bn_left n) traversal u;
      u ← binary_tree_traversal_later_recursion_body k h (bn_right n) traversal u;
      mret (traversal (bn_data n) u)
  end.

Definition binary_tree_traversal_first_recursion desc h u : cres (Z * U) :=
  match bd_traversal desc with
  | None => mret (- ENODATA, u)
  | Some traversal =>
    u ← binary_tree_traversal_first_recursion_body (S (size h)) h (bd_root desc) traversal u; mret (0, u)
  end.
Definition binary_tree_traversal_middle_recursion desc h u : cres (Z * U) :=
  match bd_traversal desc with
  | None => mret (- ENODATA, u)
  | Some traversal =>
    u ← binary_tree_traversal_middle_recursion_body (S (size h)) h (bd_root desc) traversal u; mret (0, u)
  end.
Definition binary_tree_traversal_later_recursion desc h u : cres (Z * U) :=
  match bd_traversal desc with
  | None => mret (- ENODATA, u)
  | Some traversal =>
    u ← binary_tree_traversal_later_recursion_body (S (size h)) h (bd_root desc) traversal u; mret (0, u)
  end.

(** *** Iterative traversals *)

(** The iterations of all loops together: every node is pushed and popped at
    most once on each of two stacks. *)
Definition tree_fuel h : nat := S (4 * size h).

(** [while (p) { traversal(p->data); push; p = p->left; }]: the stack when [p]
    is NULL, or the error of the push. *)
Definition first_down_round h (traversal : Z → U → U) (st : Z * general_stack * U)
    : cres (Z * general_stack * U + (Z + general_stack) * U) :=
  let '(p, stack, u) := st in
  if p =? 0 then mret (inr (inr stack, u))
  else
    n ← tree_node h p;
    let u := traversal (bn_data n) u in
    '(ret, stack) ← general_stack_push_ed stack p;
    mret (if ret <? 0 then inr (inl ret, u) else inl (bn_left n, stack, u)).
Definition first_round h (traversal : Z → U → U) (st : Z * general_stack * U)
    : cres (Z * general_stack * U + Z * U) :=
  '(r, u) ← loop (tree_fuel h) (first_down_round h traversal) st;
  match r with
  | inl ret => mret (inr (ret, u))
  | inr stack =>
    '(p, stack) ← general_stack_pop_ed stack;
    if p =? 0 then mret (inr (0, u))
    else n ← tree_node h p; mret (inl (bn_right n, stack, u))
  end.
(** [mem]: what [malloc] gives for the stack; [stack]: the uninitialised
    local. *)
Definition binary_tree_traversal_first (mem : option (list Z)) (stack : general_stack) desc h u : cres (Z * U) :=
  match bd_traversal desc with
  | None => mret (- ENODATA, u)
  | Some traversal =>
    let '(ret, stack) := general_stack_init_ed mem stack TREE_MAX_DEPTH in
    if ret <? 0 then mret (ret, u)
    else loop (tree_fuel h) (first_round h traversal) (bd_root desc, stack, u)
  end.

Definition middle_down_round h (st : Z * general_stack) : cres (Z * general_stack + (Z + general_stack)) :=
  let '(p, stack) := st in
  if p =? 0 then mret (inr (inr stack))
  else
    '(ret, stack) ← general_stack_push_ed stack p;
    if ret <? 0 then mret (inr (inl ret))
    else n ← tree_node h p; mret (inl (bn_left n, stack)).
Definition middle_round h (traversal : Z → U → U) (st : Z * general_stack * U)
    : cres (Z * general_stack * U + Z * U) :=
  let '(p, stack, u) := st in
  r ← loop (tree_fuel h) (middle_down_round h) (p, stack);
  match r with
  | inl ret => mret (inr (ret, u))
  | inr stack =>
    '(p, stack) ← general_stack_pop_ed stack;
    if p =? 0 then mret (inr (0, u))
    else n ← tree_node h p; mret (inl (bn_right n, stack, traversal (bn_data n) u))
  end.
Definition binary_tree_traversal_middle (mem : option (list Z)) (stack : general_stack) desc h u : cres (Z * U) :=
  match bd_traversal desc with
  | None => mret (- ENODATA, u)
  | Some traversal =>
    let '(ret, stack) := general_stack_init_ed mem stack TREE_MAX_DEPTH in
    if ret <? 0 then mret (ret, u)
    else loop (tree_fuel h) (middle_round h traversal) (bd_root desc, stack, u)
  end.

(** The rest of an iteration, once the left spine is on the stack: the top of
    the stack turns to its right subtree or is visited. *)
Definition later_top h (traversal : Z → U → U) (stack right_stack : general_stack) u
    : cres (Z * general_stack * general_stack * U + Z * U) :=
  p ← general_stack_get_top_ed stack;
  if p =? 0 then mret (inr (0, u))
  else
    n ← tree_node h p;
    q ← (if negb (bn_right n =? 0) then general_stack_get_top_ed right_stack else mret 0);
    if negb (bn_right n =? 0) && negb (p =? q) then
      '(ret, right_stack) ← general_stack_push_ed right_stack p;
      mret (if ret <? 0 then inr (ret, u) else inl (bn_right n, stack, right_stack, u))
    else
      right_stack ← (if negb (bn_right n =? 0) then r ← general_stack_pop_ed right_stack; mret r.2
                     else mret right_stack);
      let u := traversal (bn_data n) u in
      '(_, stack) ← general_stack_pop_ed stack;
      mret (inl (0, stack, right_stack, u)).
(** The state is [p], the stack, the stack of nodes whose right subtree is
    being visited, and the callback's data. *)
Definition later_round h (traversal : Z → U → U) (st : Z * general_stack * general_stack * U)
    : cres (Z * general_stack * general_stack * U + Z * U) :=
  let '(p, stack, right_stack, u) := st in
  r ← loop (tree_fuel h) (middle_down_round h) (p, stack);
  match r with
  | inl ret => mret (inr (ret, u))
  | inr stack => later_top h traversal stack right_stack u
  end.
Definition binary_tree_traversal_later (mem mem2 : option (list Z)) (stack right_stack : general_stack) desc h u
    : cres (Z * U) :=
  match bd_traversal desc with
  | None => mret (- ENODATA, u)
  | Some traversal =>
    let '(ret, stack) := general_stack_init_ed mem stack TREE_MAX_DEPTH in
    if ret <? 0 then mret (ret, u)
    else
      let '(ret, right_stack) := general_stack_init_ed mem2 right_stack TREE_MAX_DEPTH in
      if ret <? 0 then mret (ret, u)
      else loop (tree_fuel h) (later_round h traversal) (bd_root desc, stack, right_stack, u)
  end.

Definition queue_child (queue : list_queue) (child : Z) : cres (Z * list_queue) :=
  if child =? 0 then mret (0, queue) else list_queue_insert queue child.
Definition level_round h (traversal : Z → U → U) (st : Z * list_queue * U)
    : cres (Z * list_queue * U + Z * U) :=
  let '(p, queue, u) := st in
  if p =? 0 then mret (inr (0, u))
  else
    n ← tree_node h p;
    let u := traversal (bn_data n) u in
    '(ret, queue) ← queue_child queue (bn_left n);
    if ret <? 0 then mret (inr (ret, u))
    else
      '(ret, queue) ← queue_child queue (bn_right n);
      if ret <? 0 then mret (inr (ret, u))
      else '(p, queue) ← list_queue_remove queue; mret (inl (p, queue, u)).
Definition binary_tree_traversal_level (mem : option (list Z)) (queue : list_queue) desc h u : cres (Z * U) :=
  match bd_traversal desc with
  | None => mret (- ENODATA, u)
  | Some traversal =>
    let '(ret, queue) := list_queue_init mem queue TREE_MAX_DEPTH in
    if ret <? 0 then mret (ret, u)
    else loop (tree_fuel h) (level_round h traversal) (bd_root desc, queue, u)
  end.
End code.

(** ** Trees in the store *)

(** A tree with the address and the data of each node. *)
Inductive tree := Leaf | Node (a d : Z) (l r : tree).
#[export] Instance tree_eq_dec : EqDecision tree.
Proof. solve_decision. Defined.

Fixpoint tree_at (h : gmap Z binary_tree_node) (p : Z) (t : tree) : Prop :=
  match t with
  | Leaf => p = 0
  | Node a d l r =>
    p = a ∧ a ≠ 0 ∧ ∃ pl pr, h !! a = Some (mk_binary_tree_node d pl pr) ∧ tree_at h pl l ∧ tree_at h pr r
  end.
Fixpoint addrs (t : tree) : list Z :=
  match t with Leaf => [] | Node a _ l r => a :: addrs l ++ addrs r end.
Fixpoint preorder (t : tree) : list Z :=
  match t with Leaf => [] | Node _ d l r => d :: preorder l ++ preorder r end.
Fixpoint inorder (t : tree) : list Z :=
  match t with Leaf => [] | Node _ d l r => inorder l ++ d :: inorder r end.
Fixpoint postorder (t : tree) : list Z :=
  match t with Leaf => [] | Node _ d l r => postorder l ++ postorder r ++ [d] end.
Fixpoint height (t : tree) : Z :=
  match t with Leaf => 0 | Node _ _ l r => 1 + Z.max (height l) (height r) end.
Definition count (t : tree) : nat := length (addrs t).
#[global] Arguments count : simpl never.

(** Visiting the data [l] in order. *)
Definition visit {U} (f : Z → U → U) (l : list Z) (u : U) : U := foldl (λ u d, f d u) u l.

Lemma visit_app {U} (f : Z → U → U) l1 l2 u : visit f (l1 ++ l2) u = visit f l2 (visit f l1 u).
Proof. apply foldl_app. Qed.

Lemma height_nonneg t : 0 ≤ height t.
Proof. induction t; simpl; lia. Qed.
Lemma count_node a d l r : count (Node a d l r) = S (count l + count r).
Proof. unfold count. simpl. by rewrite length_app. Qed.
Lemma height_count t : height t ≤ Z.of_nat (count t).
Proof. induction t as [|a d l IHl r IHr]; [done|]. rewrite count_node. simpl. lia. Qed.

Lemma tree_at_node h p t : tree_at h p t → p = 0 ↔ t = Leaf.
Proof. destruct t; simpl; [done|]. intros (-> & ? & _). split; [done|intros [=]]. Qed.

Lemma tree_at_leaf h p t : tree_at h p t → p = 0 → t = Leaf.
Proof. intros Ht Hp. by apply (tree_at_node h p t). Qed.

Lemma tree_at_inv h p t : tree_at h p t → p ≠ 0 →
  ∃ d pl pr l r, t = Node p d l r ∧ h !! p = Some (mk_binary_tree_node d pl pr) ∧ tree_at h pl l ∧ tree_at h pr r.
Proof.
  destruct t as [|a d l r]; [done|]. intros (-> & _ & pl & pr & ? & ? & ?) _.
  exists d, pl, pr, l, r. done.
Qed.

Lemma tree_node_some h p n : h !! p = Some n → tree_node h p = Ok n.
Proof. unfold tree_node. by intros ->. Qed.

(** The nodes of a tree without sharing are in the store. *)
Lemma tree_at_bound h p t : tree_at h p t → NoDup (addrs t) → (count t ≤ size h)%nat.
Proof.
  intros Ht Hnd. unfold count. rewrite <-size_dom, <-(size_list_to_set (C := gset Z) (addrs t)) by done.
  apply subseteq_size. intros x. rewrite elem_of_list_to_set, elem_of_dom. clear Hnd. revert p Ht.
  induction t as [|a d l IHl r IHr]; intros p Ht Hx; [by apply elem_of_nil in Hx|].
  destruct Ht as (-> & _ & pl & pr & Hp & Hl & Hr). simpl in Hx.
  apply elem_of_cons in Hx as [->|[Hx|Hx]%elem_of_app]; eauto.
Qed.

(** Recursive traversals visit in the order of the tree. *)
Lemma first_recursion_ok {U} h (f : Z → U → U) t : ∀ k p u,
  tree_at h p t → (count t < k)%nat →
  binary_tree_traversal_first_recursion_body k h p f u = Ok (visit f (preorder t) u).
Proof.
  induction t as [|a d l IHl r IHr]; intros [|k] p u Ht Hk; simpl; try lia.
  - simpl in Ht. by subst p.
  - destruct Ht as (-> & Ha & pl & pr & Hp & Hl & Hr). rewrite count_node in Hk.
    rewrite (proj2 (Z.eqb_neq a 0) Ha), (tree_node_some _ _ _ Hp). cbn.
    rewrite IHl by (done || lia). cbn. rewrite IHr by (done || lia). by rewrite visit_app.
Qed.
Lemma middle_recursion_ok {U} h (f : Z → U → U) t : ∀ k p u,
  tree_at h p t → (count t < k)%nat →
  binary_tree_traversal_middle_recursion_body k h p f u = Ok (visit f (inorder t) u).
Proof.
  induction t as [|a d l IHl r IHr]; intros [|k] p u Ht Hk; simpl; try lia.
  - simpl in Ht. by subst p.
  - destruct Ht as (-> & Ha & pl & pr & Hp & Hl & Hr). rewrite count_node in Hk.
    rewrite (proj2 (Z.eqb_neq a 0) Ha), (tree_node_some _ _ _ Hp). cbn.
    rewrite IHl by (done || lia). cbn. rewrite IHr by (done || lia). by rewrite visit_app.
Qed.
Lemma later_recursion_ok {U} h (f : Z → U → U) t : ∀ k p u,
  tree_at h p t → (count t < k)%nat →
  binary_tree_traversal_later_recursion_body k h p f u = Ok (visit f (postorder t) u).
Proof.
  induction t as [|a d l IHl r IHr]; intros [|k] p u Ht Hk; simpl; try lia.
  - simpl in Ht. by subst p.
  - destruct Ht as (-> & Ha & pl & pr & Hp & Hl & Hr). rewrite count_node in Hk.
    rewrite (proj2 (Z.eqb_neq a 0) Ha), (tree_node_some _ _ _ Hp). cbn.
    rewrite IHl by (done || lia). cbn. rewrite IHr by (done || lia). cbn. by rewrite !visit_app.
Qed.

(** ** Iterative traversals follow the recursive ones *)

Section iterative.
Context {U : Type} (h : gmap Z binary_tree_node) (f : Z → U → U).
Context {laws : StackLaws ops_ed}.
Implicit Types (t : tree) (u : U).

(** What is left of a traversal: pending nodes with their data and right
    subtree, the top of the stack first. *)
Record pending := mk_pending { pe_addr : Z; pe_data : Z; pe_right : tree }.
Definition pending_at (x : pending) : Prop :=
  pe_addr x ≠ 0 ∧ ∃ pl pr, h !! pe_addr x = Some (mk_binary_tree_node (pe_data x) pl pr) ∧ tree_at h pr (pe_right x).

(** Every subtree fits on the stack above its pending nodes; [k] is 1 when the
    node stays on the stack while its right subtree is visited. *)
Fixpoint fits (k cap : Z) (ts : list pending) : Prop :=
  match ts with
  | [] => True
  | x :: ts => k + zlen ts + height (pe_right x) ≤ cap ∧ fits k cap ts
  end.

Definition todo_first (t : tree) (ts : list pending) : list Z :=
  preorder t ++ concat ((λ x, preorder (pe_right x)) <$> ts).
Definition todo_middle (t : tree) (ts : list pending) : list Z :=
  inorder t ++ concat ((λ x, pe_data x :: inorder (pe_right x)) <$> ts).
Definition work (t : tree) (ts : list pending) : nat :=
  (count t + count t + sum_list_with (λ x, S (count (pe_right x) + count (pe_right x))) ts)%nat.

(** The traversal has arrived at [p] with these pending nodes. *)
Record arrived (cap : Z) (p : Z) (stack : general_stack) (t : tree) (ts : list pending) : Prop := {
  ar_tree : tree_at h p t;
  ar_stack : stack_rep (StackLaws := laws) stack cap (pe_addr <$> ts);
  ar_pending : Forall pending_at ts;
  ar_fits : fits 0 cap ts;
  ar_room : zlen ts + height t ≤ cap }.

Lemma arrived_down cap p stack t ts d pl pr :
  arrived cap p stack t ts → p ≠ 0 → h !! p = Some (mk_binary_tree_node d pl pr) →
  ∃ l r, t = Node p d l r ∧
  wp (general_stack_push_ed stack p) (λ s, s.1 = 0 ∧ arrived cap pl s.2 l (mk_pending p d r :: ts)).
Proof.
  intros [Ht Hst Hpe Hf Hr] Hp Hh. destruct (tree_at_inv _ _ _ Ht Hp) as (d' & pl' & pr' & l & r & -> & Hh' & Hl & Hr').
  rewrite Hh in Hh'. injection Hh' as <- <- <-. exists l, r. split; [done|]. simpl in Hr.
  pose proof (height_nonneg l). pose proof (height_nonneg r).
  eapply wp_mono; [apply (stack_push_ok (ops := ops_ed) stack cap (pe_addr <$> ts) p Hst)|].
  - unfold zlen in *. rewrite length_fmap. lia.
  - intros [ret s] [Hret Hs]. split; [done|]. split; simpl; [done|done| | |].
    + constructor; [|done]. split; [done|]. by exists pl, pr.
    + split; [lia|done].
    + rewrite zlen_cons. lia.
Qed.

Lemma arrived_pop cap stack x ts :
  arrived cap 0 stack Leaf (x :: ts) →
  wp (general_stack_pop_ed stack) (λ s, s.1 = pe_addr x ∧ pe_addr x ≠ 0 ∧
    ∃ pl pr, h !! pe_addr x = Some (mk_binary_tree_node (pe_data x) pl pr) ∧
             arrived cap pr s.2 (pe_right x) ts).
Proof.
  intros [Ht Hst Hpe Hf Hr]. apply Forall_cons in Hpe as [(Hx & pl & pr & Hp & Hpr) Hpe]. destruct Hf as [Hf1 Hf].
  eapply wp_mono; [by apply (stack_pop_ok (ops := ops_ed))|]. intros [p s] [E Hs]. simpl in *. split; [done|]. split; [done|].
  exists pl, pr. split; [done|]. by split.
Qed.

Lemma arrived_end cap stack :
  arrived cap 0 stack Leaf [] → general_stack_pop_ed stack = Ok (0, stack).
Proof. intros [_ Hst _ _ _]. by apply (stack_pop_empty (ops := ops_ed)) in Hst. Qed.

Lemma work_down d p l r t ts : t = Node p d l r → (work l (mk_pending p d r :: ts) < work t ts)%nat.
Proof. intros ->. unfold work. rewrite count_node. simpl. lia. Qed.

Lemma first_down_ok cap final n p stack u t ts :
  arrived cap p stack t ts → visit f (todo_first t ts) u = final → (work t ts ≤ n)%nat → (n < tree_fuel h)%nat →
  wp (loop (tree_fuel h) (first_down_round h f) (p, stack, u)) (λ r, ∃ stack u ts,
    r = (inr stack, u) ∧ arrived cap 0 stack Leaf ts ∧ visit f (todo_first Leaf ts) u = final ∧
    (work Leaf ts ≤ n)%nat).
Proof.
  intros Ha Hv Hw Hn.
  apply (wp_loop_n (λ m st, ∃ t ts, arrived cap st.1.1 st.1.2 t ts ∧ visit f (todo_first t ts) st.2 = final ∧
    (work t ts ≤ m ≤ n)%nat)) with n; [|by exists t, ts; auto|done].
  clear. intros m [[p stack] u] (t & ts & Ha & Hv & Hw). simpl in *. destruct (Z.eqb_spec p 0) as [->|Hp].
  - apply wp_ret. exists stack, u, ts. pose proof (tree_at_leaf _ _ _ (ar_tree _ _ _ _ _ Ha) eq_refl) as ->.
    split; [done|]. split; [done|]. split; [done|lia].
  - destruct (tree_at_inv _ _ _ (ar_tree _ _ _ _ _ Ha) Hp) as (d & pl & pr & l' & r' & -> & Hh & _).
    rewrite (tree_node_some _ _ _ Hh). cbn.
    destruct (arrived_down _ _ _ _ _ _ _ _ Ha Hp Hh) as (l & r & [= <- <-] & Hpush).
    apply wp_bind. eapply wp_mono; [exact Hpush|]. intros [ret s] [Hret Ha']. simpl in *. subst ret. cbn.
    exists (work l' (mk_pending p d r' :: ts)). pose proof (work_down d p l' r' _ ts eq_refl).
    split; [lia|]. exists l', (mk_pending p d r' :: ts). split; [done|]. split; [|lia].
    rewrite <-Hv. unfold todo_first. cbn. by rewrite <-app_assoc.
Qed.

Lemma first_loop_ok cap p stack u t ts :
  arrived cap p stack t ts → (work t ts < tree_fuel h)%nat →
  wp (loop (tree_fuel h) (first_round h f) (p, stack, u)) (λ r, r = (0, visit f (todo_first t ts) u)).
Proof.
  intros Ha Hw.
  apply (wp_loop_n (λ m st, ∃ t' ts', arrived cap st.1.1 st.1.2 t' ts' ∧
    visit f (todo_first t' ts') st.2 = visit f (todo_first t ts) u ∧
    (work t' ts' ≤ m)%nat ∧ (m < tree_fuel h)%nat)) with (work t ts); [|by exists t, ts; auto|done].
  clear Ha Hw p stack. generalize (visit f (todo_first t ts) u). clear. intros final.
  intros m [[p stack] u] (t & ts & Ha & Hv & Hw & Hm). simpl in *. apply wp_bind.
  eapply wp_mono; [by apply (first_down_ok cap final m p stack u t ts)|].
  clear Ha Hv Hw. intros _ (stack' & u' & ts' & -> & Ha & Hv & Hw). apply wp_bind. destruct ts' as [|x ts'].
  - rewrite (arrived_end _ _ Ha). cbn. by rewrite <-Hv.
  - eapply wp_mono; [by apply (arrived_pop cap _ x ts')|].
    intros [p1 s1] (Hp1 & Hx & pl & pr & Hh & Ha'). simpl in *. subst p1.
    rewrite (proj2 (Z.eqb_neq _ _) Hx), (tree_node_some _ _ _ Hh). cbn.
    exists (work (pe_right x) ts'). unfold work in *. simpl in *. split; [lia|].
    exists (pe_right x), ts'. split; [done|]. split; [done|lia].
Qed.

Lemma middle_down_ok cap n p stack t ts :
  arrived cap p stack t ts → (work t ts ≤ n)%nat → (n < tree_fuel h)%nat →
  wp (loop (tree_fuel h) (middle_down_round h) (p, stack)) (λ r, ∃ stack ts',
    r = inr stack ∧ arrived cap 0 stack Leaf ts' ∧ todo_middle Leaf ts' = todo_middle t ts ∧
    (work Leaf ts' ≤ n)%nat).
Proof.
  intros Ha Hw Hn.
  apply (wp_loop_n (λ m st, ∃ t' ts', arrived cap st.1 st.2 t' ts' ∧ todo_middle t' ts' = todo_middle t ts ∧
    (work t' ts' ≤ m ≤ n)%nat)) with n; [|by exists t, ts; auto|done].
  clear Ha Hw p stack. generalize (todo_middle t ts). clear. intros final.
  intros m [p stack] (t & ts & Ha & Hv & Hw). simpl in *. destruct (Z.eqb_spec p 0) as [->|Hp].
  - apply wp_ret. exists stack, ts. pose proof (tree_at_leaf _ _ _ (ar_tree _ _ _ _ _ Ha) eq_refl) as ->.
    split; [done|]. split; [done|]. split; [done|lia].
  - destruct (tree_at_inv _ _ _ (ar_tree _ _ _ _ _ Ha) Hp) as (d & pl & pr & l' & r' & -> & Hh & _).
    destruct (arrived_down _ _ _ _ _ _ _ _ Ha Hp Hh) as (l & r & [= <- <-] & Hpush).
    apply wp_bind. eapply wp_mono; [exact Hpush|]. intros [ret s] [Hret Ha']. simpl in *. subst ret. cbn.
    rewrite (tree_node_some _ _ _ Hh). cbn.
    exists (work l' (mk_pending p d r' :: ts)). pose proof (work_down d p l' r' _ ts eq_refl).
    split; [lia|]. exists l', (mk_pending p d r' :: ts). split; [done|]. split; [|lia].
    rewrite <-Hv. unfold todo_middle. cbn. by rewrite <-app_assoc.
Qed.

Lemma middle_loop_ok cap p stack u t ts :
  arrived cap p stack t ts → (work t ts < tree_fuel h)%nat →
  wp (loop (tree_fuel h) (middle_round h f) (p, stack, u)) (λ r, r = (0, visit f (todo_middle t ts) u)).
Proof.
  intros Ha Hw.
  apply (wp_loop_n (λ m st, ∃ t' ts', arrived cap st.1.1 st.1.2 t' ts' ∧
    visit f (todo_middle t' ts') st.2 = visit f (todo_middle t ts) u ∧
    (work t' ts' ≤ m)%nat ∧ (m < tree_fuel h)%nat)) with (work t ts); [|by exists t, ts; auto|done].
  clear Ha Hw p stack. generalize (visit f (todo_middle t ts) u). clear. intros final.
  intros m [[p stack] u] (t & ts & Ha & Hv & Hw & Hm). simpl in *. apply wp_bind.
  eapply wp_mono; [by apply (middle_down_ok cap m p stack t ts)|].
  intros _ (stack' & ts' & -> & Ha' & Hv' & Hw'). apply wp_bind. rewrite <-Hv' in Hv. clear t ts Ha Hw Hv'.
  destruct ts' as [|x ts'].
  - rewrite (arrived_end _ _ Ha'). cbn. by rewrite <-Hv.
  - eapply wp_mono; [by apply (arrived_pop cap _ x ts')|].
    intros [p1 s1] (Hp1 & Hx & pl & pr & Hh & Ha). simpl in *. subst p1.
    rewrite (proj2 (Z.eqb_neq _ _) Hx), (tree_node_some _ _ _ Hh). cbn.
    exists (work (pe_right x) ts'). unfold work in *. simpl in *. split; [lia|].
    exists (pe_right x), ts'. split; [done|]. split; [done|lia].
Qed.

(** *** Post-order *)

(** A pending node is marked when its right subtree is being visited. *)
Implicit Types (ms : list (bool * pending)).
Definition marked ms : list Z := pe_addr ∘ snd <$> filter (λ x, x.1 = true) ms.
Definition todo_later (t : tree) ms : list Z :=
  postorder t ++ concat ((λ x, (if x.1 : bool then [] else postorder (pe_right x.2)) ++ [pe_data x.2]) <$> ms).
Definition later_addrs (t : tree) ms : list Z :=
  addrs t ++ concat ((λ x, pe_addr x.2 :: if x.1 : bool then [] else addrs (pe_right x.2)) <$> ms).
Definition later_work (t : tree) ms : nat :=
  (3 * count t + sum_list_with (λ x, if x.1 : bool then 1 else 2 + 3 * count (pe_right x.2)) ms)%nat.

#[local] Arguments later_work : simpl never.
#[local] Arguments todo_later : simpl never.

Record later_at (cap p : Z) (stack right_stack : general_stack) (t : tree) ms : Prop := {
  la_tree : tree_at h p t;
  la_stack : stack_rep (StackLaws := laws) stack cap (pe_addr ∘ snd <$> ms);
  la_right : stack_rep (StackLaws := laws) right_stack cap (marked ms);
  la_pending : Forall (λ x, pending_at x.2 ∧ (x.1 = true → pe_right x.2 ≠ Leaf)) ms;
  la_nodup : NoDup (later_addrs t ms);
  la_fits : fits 1 cap (snd <$> ms);
  la_room : zlen ms + height t ≤ cap }.

Lemma zlen_fmap {A B} (g : A → B) (l : list A) : zlen (g <$> l) = zlen l.
Proof. unfold zlen. by rewrite length_fmap. Qed.

Lemma zlen_marked ms : zlen (marked ms) ≤ zlen ms.
Proof.
  unfold marked. rewrite zlen_fmap. unfold zlen. pose proof (length_filter (λ x : bool * pending, x.1 = true) ms). lia.
Qed.

Lemma later_work_down p d l r ms :
  (later_work l ((false, mk_pending p d r) :: ms) < later_work (Node p d l r) ms)%nat.
Proof. unfold later_work. rewrite count_node. simpl sum_list_with. lia. Qed.

Lemma later_down cap n p stack right_stack t ms :
  later_at cap p stack right_stack t ms → (later_work t ms ≤ n)%nat → (n < tree_fuel h)%nat →
  wp (loop (tree_fuel h) (middle_down_round h) (p, stack)) (λ r, ∃ stack ms',
    r = inr stack ∧ later_at cap 0 stack right_stack Leaf ms' ∧ todo_later Leaf ms' = todo_later t ms ∧
    (later_work Leaf ms' ≤ n)%nat).
Proof.
  intros Ha Hw Hn.
  apply (wp_loop_n (λ m st, ∃ t' ms', later_at cap st.1 st.2 right_stack t' ms' ∧
    todo_later t' ms' = todo_later t ms ∧ (later_work t' ms' ≤ m ≤ n)%nat)) with n;
    [|by exists t, ms; auto|done].
  clear Ha Hw p stack. generalize (todo_later t ms). clear t ms Hn. intros final.
  intros m [p stack] (t & ms & Ha & Hv & Hw). simpl in *. destruct (Z.eqb_spec p 0) as [->|Hp].
  - apply wp_ret. exists stack, ms. pose proof (tree_at_leaf _ _ _ (la_tree _ _ _ _ _ _ Ha) eq_refl) as ->.
    split; [done|]. split; [done|]. split; [done|lia].
  - destruct Ha as [Ht Hst Hri Hpe Hnd Hf Hr].
    destruct (tree_at_inv _ _ _ Ht Hp) as (d & pl & pr & l & r & -> & Hh & Hl & Hr').
    pose proof (height_nonneg l). pose proof (height_nonneg r). simpl in Hr. apply wp_bind.
    eapply wp_mono; [apply (stack_push_ok (ops := ops_ed) stack cap _ p Hst); rewrite zlen_fmap; lia|].
    intros [ret s] [Hret Hs]. simpl in *. subst ret. cbn. rewrite (tree_node_some _ _ _ Hh). cbn.
    exists (later_work l ((false, mk_pending p d r) :: ms)).
    pose proof (later_work_down p d l r ms). split; [lia|].
    exists l, ((false, mk_pending p d r) :: ms). split; [|split; [|lia]].
    + split; simpl; [done|done|done| | | |rewrite zlen_cons; lia].
      * constructor; [|done]. split; [|done]. split; [done|]. by exists pl, pr.
      * unfold later_addrs in *. cbn in *. rewrite <-Permutation_middle. by rewrite app_assoc.
      * rewrite zlen_fmap. split; [lia|done].
    + rewrite <-Hv. unfold todo_later. cbn. by rewrite <-!app_assoc.
Qed.

(** The top of the path is on the second stack exactly when it is marked. *)
Lemma marked_top cap p stack right_stack t b x ms :
  later_at cap p stack right_stack t ((b, x) :: ms) →
  ∃ q, general_stack_get_top_ed right_stack = Ok q ∧ (pe_addr x =? q) = b.
Proof.
  intros [_ _ Hri Hpe Hnd _ _]. apply Forall_cons in Hpe as [[[Hx _] _] Hpe].
  apply NoDup_app in Hnd as (_ & _ & Hnd). cbn in Hnd. apply NoDup_cons in Hnd as [Hnx _].
  unfold marked in Hri. destruct b.
  - rewrite filter_cons_True in Hri by done. apply (stack_top_ok (ops := ops_ed)) in Hri.
    eexists. split; [exact Hri|]. apply Z.eqb_refl.
  - rewrite filter_cons_False in Hri by done. destruct (filter _ ms) as [|[b y] l] eqn:E.
    + apply (stack_top_empty (ops := ops_ed)) in Hri. eexists. split; [exact Hri|]. by apply Z.eqb_neq.
    + apply (stack_top_ok (ops := ops_ed)) in Hri. eexists. split; [exact Hri|]. apply Z.eqb_neq. intros Exy.
      destruct Hnx. assert ((b, y) ∈ ms) as Hy.
      { apply (list_elem_of_filter (λ x : bool * pending, x.1 = true)). rewrite E. by left. }
      apply elem_of_app. right. apply list_elem_of_split in Hy as (m1 & m2 & ->).
      rewrite fmap_app, concat_app. apply elem_of_app. right. cbn in *. rewrite Exy. by left.
Qed.

Lemma later_visit_next cap stack stack' right_stack right_stack' b x ms :
  later_at cap 0 stack right_stack Leaf ((b, x) :: ms) →
  stack_rep (StackLaws := laws) stack' cap (pe_addr ∘ snd <$> ms) →
  stack_rep (StackLaws := laws) right_stack' cap (marked ms) →
  later_at cap 0 stack' right_stack' Leaf ms.
Proof.
  intros [_ _ _ Hpe Hnd Hf Hr] Hs Hrs. apply Forall_cons in Hpe as [_ Hpe]. destruct Hf as [_ Hf].
  split; [done|done|done|done| |done|rewrite zlen_cons in Hr; simpl in *; lia].
  unfold later_addrs in *. cbn in *. apply NoDup_cons in Hnd as [_ Hnd]. by apply NoDup_app in Hnd as (_ & _ & ?).
Qed.

(** Turning to the right subtree of the top of the path. *)
Lemma later_turn cap stack right_stack x ms pr :
  later_at cap 0 stack right_stack Leaf ((false, x) :: ms) → tree_at h pr (pe_right x) → pr ≠ 0 →
  wp (general_stack_push_ed right_stack (pe_addr x)) (λ s, s.1 = 0 ∧
    later_at cap pr stack s.2 (pe_right x) ((true, x) :: ms)).
Proof.
  intros [_ Hst Hri Hpe Hnd Hf Hr] Hpr Hne. apply Forall_cons in Hpe as [[Hx _] Hpe].
  rewrite zlen_cons in Hr. simpl in Hr. destruct Hf as [Hf1 Hf]. simpl in Hf1. rewrite zlen_fmap in Hf1.
  unfold marked in *. rewrite filter_cons_False in Hri by done.
  pose proof (zlen_marked ms) as Hm. unfold marked in Hm.
  eapply wp_mono; [apply (stack_push_ok (ops := ops_ed) right_stack cap _ (pe_addr x) Hri); lia|].
  intros [ret s] [Hret Hs]. split; [done|]. split; [done|done| | | | |].
  - unfold marked. by rewrite filter_cons_True.
  - constructor; [|done]. split; [done|]. intros _ E. simpl in E. by rewrite E in Hpr.
  - unfold later_addrs in *. cbn in *. by rewrite <-Permutation_middle.
  - cbn. rewrite zlen_fmap. split; [lia|done].
  - rewrite zlen_cons. lia.
Qed.

Lemma later_top_ok cap stack right_stack u x b ms :
  later_at cap 0 stack right_stack Leaf ((b, x) :: ms) →
  wp (later_top h f stack right_stack u) (λ r, ∃ p stack' right_stack' u' t' ms',
    r = inl (p, stack', right_stack', u') ∧ later_at cap p stack' right_stack' t' ms' ∧
    visit f (todo_later t' ms') u' = visit f (todo_later Leaf ((b, x) :: ms)) u ∧
    (later_work t' ms' < later_work Leaf ((b, x) :: ms))%nat).
Proof.
  intros Ha. pose proof Ha as [_ Hst Hri Hpe _ _ _]. apply Forall_cons in Hpe as [[(Hx & pl & pr & Hh & Hpr) Hb] _].
  simpl in Hx, Hh, Hpr, Hb. unfold later_top.
  pose proof (stack_top_ok (ops := ops_ed) stack cap _ _ Hst) as Htop. cbn in Htop. rewrite Htop. cbn.
  rewrite (proj2 (Z.eqb_neq _ _) Hx), (tree_node_some _ _ _ Hh). cbn.
  pose proof (tree_at_node _ _ _ Hpr) as Hleaf. destruct (marked_top _ _ _ _ _ _ _ _ Ha) as (q & Hq & Hqb).
  assert (∀ right_stack', stack_rep (StackLaws := laws) right_stack' cap (marked ms) →
    wp ('(_, stack) ← general_stack_pop_ed stack;
        mret (inl (0, stack, right_stack', f (pe_data x) u) : Z * general_stack * general_stack * U + Z * U))
      (λ r, ∃ p stack' right_stack' u' t' ms', r = inl (p, stack', right_stack', u') ∧
        later_at cap p stack' right_stack' t' ms' ∧
        visit f (todo_later t' ms') u' = visit f ([pe_data x] ++ todo_later Leaf ms) u ∧
        (later_work t' ms' < later_work Leaf ((b, x) :: ms))%nat)) as Hvisit.
  { intros rs Hrs. apply wp_bind. eapply wp_mono; [exact (stack_pop_ok (ops := ops_ed) stack cap (fmap (M := list) (pe_addr ∘ snd) ms) (pe_addr x) Hst)|].
    intros [p1 s1] [_ Hs1]. apply wp_ret. exists 0, s1, rs, (f (pe_data x) u), Leaf, ms.
    split; [done|]. split; [by eapply later_visit_next|]. split; [done|]. unfold later_work. simpl. destruct b; lia. }
  destruct (Z.eqb_spec pr 0) as [E|E]; simpl.
  - assert (pe_right x = Leaf) as El by tauto. destruct b; [by destruct Hb|].
    assert (todo_later Leaf ((false, x) :: ms) = [pe_data x] ++ todo_later Leaf ms) as ->.
    { unfold todo_later. cbn. by rewrite El. }
    apply Hvisit. unfold marked in *. by rewrite filter_cons_False in Hri.
  - rewrite Hq. cbn. rewrite Hqb. destruct b; cbn.
    + apply wp_bind, wp_bind.
      eapply wp_mono; [apply (stack_pop_ok (ops := ops_ed) right_stack cap (marked ms) (pe_addr x))|].
      { unfold marked in *. by rewrite filter_cons_True in Hri. }
      intros [p1 s1] [_ Hs1]. apply wp_ret. by apply Hvisit.
    + apply wp_bind. eapply wp_mono; [by eapply later_turn|]. intros [ret s1] [Hret Hs1]. simpl in *. subst ret.
      apply wp_ret. exists pr, stack, s1, u, (pe_right x), ((true, x) :: ms). split; [done|]. split; [done|].
      split; [|unfold later_work; simpl; lia]. unfold todo_later. cbn. by rewrite <-app_assoc.
Qed.

Lemma later_loop_ok cap p stack right_stack u t :
  later_at cap p stack right_stack t [] → (later_work t [] < tree_fuel h)%nat →
  wp (loop (tree_fuel h) (later_round h f) (p, stack, right_stack, u)) (λ r, r = (0, visit f (postorder t) u)).
Proof.
  intros Ha Hw.
  apply (wp_loop_n (λ m st, ∃ t' ms', later_at cap st.1.1.1 st.1.1.2 st.1.2 t' ms' ∧
    visit f (todo_later t' ms') st.2 = visit f (postorder t) u ∧
    (later_work t' ms' ≤ m)%nat ∧ (m < tree_fuel h)%nat)) with (later_work t []); [| |done]; last first.
  { exists t, []. split; [done|]. split; [|lia]. unfold todo_later. cbn. by rewrite app_nil_r. }
  clear Ha Hw p stack right_stack. generalize (visit f (postorder t) u). clear t u. intros final.
  intros m [[[p stack] right_stack] u] (t & ms & Ha & Hv & Hw & Hm). simpl in *. apply wp_bind.
  eapply wp_mono; [by apply (later_down cap m p stack right_stack t ms)|].
  intros _ (stack' & ms' & -> & Ha' & Hv' & Hw'). rewrite <-Hv' in Hv. destruct ms' as [|[b x] ms'].
  - destruct Ha' as [_ Hst _ _ _ _ _]. apply (stack_top_empty (ops := ops_ed)) in Hst. cbn in Hst.
    unfold later_top. rewrite Hst. cbn. by rewrite <-Hv.
  - eapply wp_mono; [by apply later_top_ok|].
    intros _ (p1 & s1 & rs1 & u1 & t1 & ms1 & -> & Ha1 & Hv1 & Hw1).
    exists (later_work t1 ms1). split; [lia|]. exists t1, ms1. split; [done|]. split; [simpl; by rewrite Hv1|lia].
Qed.
End iterative.

(** *** Level order *)

(** The trees under the nodes of a level, left to right. *)
Definition root_data (t : tree) : list Z := match t with Leaf => [] | Node _ d _ _ => [d] end.
Definition sub (t : tree) : list tree := match t with Leaf => [] | Node _ _ _ _ => [t] end.
Definition kids (t : tree) : list tree := match t with Leaf => [] | Node _ _ l r => sub l ++ sub r end.
Fixpoint levels (n : nat) (ts : list tree) : list Z :=
  match n with
  | O => []
  | S n => concat (root_data <$> ts) ++ levels n (concat (kids <$> ts))
  end.
Definition level_order (t : tree) : list Z := levels (Z.to_nat (height t)) (sub t).

Section level.
Context {U : Type} (h : gmap Z binary_tree_node) (f : Z → U → U).

Lemma levels_nil n : levels n [] = [].
Proof. by induction n. Qed.

Definition sizes (ts : list tree) : nat := sum_list_with count ts.
Definition stored (a : Z) (t : tree) : Prop := tree_at h a t ∧ t ≠ Leaf.
Definition lower (n : nat) (t : tree) : Prop := height t ≤ Z.of_nat n.

Lemma sizes_app ts1 ts2 : sizes (ts1 ++ ts2) = (sizes ts1 + sizes ts2)%nat.
Proof. apply sum_list_with_app. Qed.
Lemma sizes_cons t ts : sizes (t :: ts) = (count t + sizes ts)%nat.
Proof. done. Qed.
Lemma sizes_sub t : sizes (sub t) = count t.
Proof. destruct t; [done|]. apply Nat.add_0_r. Qed.
Lemma zlen_sizes ts : Forall (λ t, t ≠ Leaf) ts → zlen ts ≤ Z.of_nat (sizes ts).
Proof.
  induction 1 as [|t ts Ht _ IH]; [done|]. rewrite zlen_cons. unfold sizes in *. simpl.
  destruct t; [done|]. rewrite count_node. lia.
Qed.

(** What remains: the rest [c] of a level, then the levels below, of which
    [nx] is already queued. *)
Definition todo_level (n : nat) (c nx : list tree) : list Z :=
  concat (root_data <$> c) ++ levels n (nx ++ concat (kids <$> c)).

Record level_at (p : Z) (queue : list_queue) (n : nat) (c nx : list tree) : Prop := {
  lv_queue : ∃ l, lq_rep queue 99 l ∧
    match c ++ nx with [] => p = 0 ∧ l = [] | t :: q => stored p t ∧ Forall2 stored l q end;
  lv_lower : Forall (lower n) (nx ++ concat (kids <$> c));
  lv_size : (sizes (c ++ nx) ≤ 100)%nat }.

Lemma kids_lower n t : lower (S n) t → Forall (lower n) (kids t).
Proof.
  destruct t as [|a d l r]; [constructor|]. unfold lower. simpl. intros Hh.
  apply Forall_app. split; [destruct l|destruct r]; constructor; simpl in *; try constructor; lia.
Qed.

Lemma kids_all_lower n ts : Forall (lower (S n)) ts → Forall (lower n) (concat (kids <$> ts)).
Proof. induction 1 as [|t ts Ht _ IH]; [constructor|]. apply Forall_app. split; [by apply kids_lower|done]. Qed.

(** When a level is finished, the queued nodes are the next one. *)
Lemma level_turn p queue n t nx :
  level_at p queue n [] (t :: nx) → t ≠ Leaf →
  ∃ m, level_at p queue m (t :: nx) [] ∧ todo_level m (t :: nx) [] = todo_level n [] (t :: nx).
Proof.
  intros [Hq Hl Hs] Ht. rewrite app_nil_r in Hl. destruct n as [|n].
  - destruct t; [done|]. apply Forall_cons in Hl as [Hl _]. unfold lower in Hl. simpl in Hl.
    pose proof (height_nonneg t1). lia.
  - exists n. split.
    + split; [by rewrite app_nil_r| |by rewrite app_nil_r]. by apply kids_all_lower.
    + unfold todo_level. cbn. by rewrite app_nil_r.
Qed.

Lemma queue_child_ok queue p t l q :
  lq_rep queue 99 l → Forall2 stored l q → tree_at h p t → zlen q + zlen (sub t) ≤ 99 →
  wp (queue_child queue p) (λ r, r.1 = 0 ∧ ∃ l', lq_rep r.2 99 l' ∧ Forall2 stored l' (q ++ sub t)).
Proof.
  intros Hq Hl Ht Hz. unfold queue_child. destruct (Z.eqb_spec p 0) as [->|Hp].
  - apply wp_ret. split; [done|]. exists l. rewrite (tree_at_leaf _ _ _ Ht eq_refl), app_nil_r. done.
  - assert (t ≠ Leaf) as Hne by (intros ->; by apply Hp). destruct t as [|a d tl tr]; [done|].
    change (zlen (sub (Node a d tl tr))) with 1 in Hz.
    apply Forall2_length in Hl as Hlen. eapply wp_mono; [apply (list_queue_insert_rep queue 99 l p Hq)|].
    + unfold zlen in *. lia.
    + intros [r q'] [Hr Hq']. split; [done|]. exists (l ++ [p]). split; [done|].
      apply Forall2_app; [done|]. by constructor.
Qed.

Lemma level_step p queue n t c nx u :
  level_at p queue n (t :: c) nx →
  wp (level_round h f (p, queue, u)) (λ r, ∃ p' queue' u' nx',
    r = inl (p', queue', u') ∧ level_at p' queue' n c nx' ∧
    visit f (todo_level n c nx') u' = visit f (todo_level n (t :: c) nx) u ∧
    (sizes (c ++ nx') < sizes ((t :: c) ++ nx))%nat).
Proof.
  intros [(l & Hq & [Hst Hne] & Hl) Hlow Hs]. destruct t as [|a d tl tr]; [done|].
  destruct Hst as (-> & Ha & pl & pr & Hh & Htl & Htr). unfold level_round.
  rewrite (proj2 (Z.eqb_neq a 0) Ha), (tree_node_some _ _ _ Hh). cbn.
  assert (sizes (Node a d tl tr :: c ++ nx) = S (count tl + count tr + sizes (c ++ nx))) as Es.
  { rewrite sizes_cons, count_node. lia. }
  change (sizes (Node a d tl tr :: c ++ nx) ≤ 100)%nat in Hs. rewrite Es in Hs.
  assert (Forall (λ t, t ≠ Leaf) (c ++ nx)) as Hnl.
  { eapply Forall2_Forall_r; [exact Hl|]. apply Forall_forall. by intros ? _ ? []. }
  pose proof (zlen_sizes _ Hnl) as Hz.
  pose proof (zlen_sizes (sub tl) ltac:(by destruct tl; repeat constructor)) as Hz1.
  pose proof (zlen_sizes (sub tr) ltac:(by destruct tr; repeat constructor)) as Hz2.
  rewrite sizes_sub in Hz1, Hz2.
  apply wp_bind. eapply wp_mono; [eapply (queue_child_ok queue pl tl l (c ++ nx)); [done..|lia]|].
  intros [r1 q1] (Hr1 & l1 & Hq1 & Hl1). simpl in Hr1, Hq1. subst r1. cbn.
  apply wp_bind. eapply wp_mono; [eapply (queue_child_ok q1 pr tr l1); [done..|rewrite zlen_app; lia]|].
  intros [r2 q2] (Hr2 & l2 & Hq2 & Hl2). simpl in Hr2, Hq2. subst r2. cbn.
  rewrite <-!app_assoc in Hl2. set (nx' := nx ++ sub tl ++ sub tr) in *.
  assert (sizes (c ++ nx') = (count tl + count tr + sizes (c ++ nx))%nat) as Es'.
  { unfold nx'. rewrite !sizes_app, !sizes_sub. lia. }
  assert (∀ p' queue', (∃ l, lq_rep queue' 99 l ∧
      match c ++ nx' with [] => p' = 0 ∧ l = [] | t :: q => stored p' t ∧ Forall2 stored l q end) →
    ∃ p'' queue'' u' nx'', (inl (p', queue', f d u) : Z * list_queue * U + Z * U) = inl (p'', queue'', u') ∧
      level_at p'' queue'' n c nx'' ∧ visit f (todo_level n c nx'') u' = visit f (todo_level n (Node a d tl tr :: c) nx) u ∧
      (sizes (c ++ nx'') < sizes ((Node a d tl tr :: c) ++ nx))%nat) as Hend.
  { intros p' queue' Hq'. exists p', queue', (f d u), nx'. split; [done|]. split; [|split; [|simpl app; lia]].
    - split; [done| |lia]. unfold nx'. cbn in Hlow. by rewrite <-!app_assoc in *.
    - unfold todo_level, nx'. cbn. by rewrite <-!app_assoc. }
  destruct Hl2 as [|p' t' l2 q' Hp' Hl2].
  - rewrite (list_queue_remove_empty _ _ Hq2). cbn. apply Hend. by exists [].
  - apply wp_bind. eapply wp_mono; [by apply (list_queue_remove_rep q2 99 p' l2)|].
    intros [p2 q3] [Hp2 Hq3]. simpl in *. subst p2. apply wp_ret, Hend. by exists l2.
Qed.

Lemma level_loop_ok p queue u t :
  tree_at h p t → lq_rep queue 99 [] → (count t ≤ 100)%nat → (count t < tree_fuel h)%nat →
  wp (loop (tree_fuel h) (level_round h f) (p, queue, u)) (λ r, r = (0, visit f (level_order t) u)).
Proof.
  intros Ht Hq Hc Hw.
  apply (wp_loop_n (λ m st, ∃ n c nx, level_at st.1.1 st.1.2 n c nx ∧
    visit f (todo_level n c nx) st.2 = visit f (level_order t) u ∧ (sizes (c ++ nx) ≤ m)%nat)) with (count t); [| |done]; last first.
  { exists (Z.to_nat (height t)), [], (sub t). split; [|split; [|simpl app; by rewrite sizes_sub]].
    - split; [|rewrite app_nil_r|simpl app; by rewrite sizes_sub].
      + exists []. split; [done|]. destruct t; [done|]. by split.
      + destruct t; [constructor|]. constructor; [|done]. unfold lower. pose proof (height_nonneg (Node a d t1 t2)). lia.
    - unfold todo_level. simpl. by rewrite app_nil_r. }
  generalize (visit f (level_order t) u). clear. intros final.
  intros m [[p queue] u] (n & c & nx & Ha & Hv & Hm). simpl in *.
  assert (∀ t c nx n, level_at p queue n (t :: c) nx → visit f (todo_level n (t :: c) nx) u = final →
    (sizes ((t :: c) ++ nx) ≤ m)%nat →
    wp (level_round h f (p, queue, u)) (λ r, match r with
      | inl s' => ∃ m0, (m0 < m)%nat ∧ ∃ n c nx, level_at s'.1.1 s'.1.2 n c nx ∧
          visit f (todo_level n c nx) s'.2 = final ∧ (sizes (c ++ nx) ≤ m0)%nat
      | inr x => x = (0, final) end)) as Hstep.
  { clear. intros t c nx n Ha Hv Hm. eapply wp_mono; [by apply level_step|].
    intros _ (p' & q' & u' & nx' & -> & Ha' & Hv' & Hs'). exists (sizes (c ++ nx')). split; [lia|].
    exists n, c, nx'. split; [done|]. split; [by simpl; rewrite Hv'|done]. }
  destruct c as [|t c]; [|by eapply Hstep]. destruct nx as [|t nx].
  - destruct Ha as [(l & _ & [-> _]) _ _]. simpl. rewrite <-Hv. unfold todo_level. simpl.
    by rewrite levels_nil.
  - assert (t ≠ Leaf) as Hne by (by destruct Ha as [(? & _ & [[] _]) _ _]).
    destruct (level_turn _ _ _ _ _ Ha Hne) as (m' & Ha' & Ht'). eapply Hstep; [done|by rewrite Ht'|].
    by rewrite app_nil_r.
Qed.
End level.

(** C7: the iterative traversals are the recursive ones: on any tree of the
    store without shared nodes and of at most 100 levels (100 nodes for the
    level order), with the memory for their stacks, the pre-, in- and
    post-order loops answer 0, stay inside their stacks and run the callback on
    exactly the nodes, in exactly the order, of their recursive counterparts,
    and the level order visits the levels from the root down, each from left to
    right. *)
Theorem iterative_traversals_match {U} (desc : binary_tree_descriptor U) h t f m1 m2 s1 s2 q u :
  bd_traversal desc = Some f → tree_at h (bd_root desc) t → NoDup (addrs t) →
  height t ≤ TREE_MAX_DEPTH → zlen m1 = TREE_MAX_DEPTH → zlen m2 = TREE_MAX_DEPTH →
  binary_tree_traversal_first (Some m1) s1 desc h u = binary_tree_traversal_first_recursion desc h u ∧
  binary_tree_traversal_middle (Some m1) s1 desc h u = binary_tree_traversal_middle_recursion desc h u ∧
  binary_tree_traversal_later (Some m1) (Some m2) s1 s2 desc h u = binary_tree_traversal_later_recursion desc h u ∧
  ((count t ≤ 100)%nat →
   binary_tree_traversal_level (Some m1) q desc h u = Ok (0, visit f (level_order t) u)) ∧
  binary_tree_traversal_first_recursion desc h u = Ok (0, visit f (preorder t) u) ∧
  binary_tree_traversal_middle_recursion desc h u = Ok (0, visit f (inorder t) u) ∧
  binary_tree_traversal_later_recursion desc h u = Ok (0, visit f (postorder t) u).
Proof.
  intros Hf Ht Hnd Hh Hm1 Hm2. pose proof (tree_at_bound _ _ _ Ht Hnd) as Hb.
  assert (∀ R (m : cres R) a, wp m (λ r, r = a) → m = Ok a) as Hok by (intros R [b| |] a; simpl; [by intros ->|done|done]).
  assert (∀ n, (n ≤ 3 * count t)%nat → (n < tree_fuel h)%nat) as Hfuel by (unfold tree_fuel; lia).
  destruct (stack_init_ok (ops := ops_ed) m1 s1 TREE_MAX_DEPTH ltac:(done) Hm1) as (s1' & Hi1 & Hs1).
  destruct (stack_init_ok (ops := ops_ed) m2 s2 TREE_MAX_DEPTH ltac:(done) Hm2) as (s2' & Hi2 & Hs2).
  change (general_stack_init_ed (Some m1) s1 TREE_MAX_DEPTH = (0, s1')) in Hi1.
  change (general_stack_init_ed (Some m2) s2 TREE_MAX_DEPTH = (0, s2')) in Hi2.
  destruct (list_queue_init_rep m1 q 99 ltac:(lia) Hm1) as (q' & Hiq & Hq).
  unfold binary_tree_traversal_first_recursion, binary_tree_traversal_middle_recursion,
    binary_tree_traversal_later_recursion. rewrite Hf.
  rewrite (first_recursion_ok h f t), (middle_recursion_ok h f t), (later_recursion_ok h f t) by (done || lia).
  assert (arrived h TREE_MAX_DEPTH (bd_root desc) s1' t []) as Ha by (split; done).
  assert (later_at h TREE_MAX_DEPTH (bd_root desc) s1' s2' t []) as Hl.
  { split; try done. unfold later_addrs. cbn. by rewrite app_nil_r. }
  split; [|split; [|split; [|split; [intros Hc|done]]]]; apply Hok.
  - unfold binary_tree_traversal_first. rewrite Hf, Hi1. cbn.
    rewrite <-(app_nil_r (preorder t)). apply (first_loop_ok h f _ _ _ _ t [] Ha), Hfuel. unfold work. simpl. lia.
  - unfold binary_tree_traversal_middle. rewrite Hf, Hi1. cbn.
    rewrite <-(app_nil_r (inorder t)). apply (middle_loop_ok h f _ _ _ _ t [] Ha), Hfuel. unfold work. simpl. lia.
  - unfold binary_tree_traversal_later. rewrite Hf, Hi1, Hi2. cbn.
    apply (later_loop_ok h f _ _ _ _ _ t Hl), Hfuel. unfold later_work. simpl. lia.
  - unfold binary_tree_traversal_level. rewrite Hf. change TREE_MAX_DEPTH with (99 + 1). rewrite Hiq. cbn.
    apply (level_loop_ok h f _ _ _ t); [done..|]. apply Hfuel. lia.
Qed.

Lemma iterative_traversals_match_witness :
  let h := list_to_map [(8, mk_binary_tree_node 5 16 24); (16, mk_binary_tree_node 2 0 32);
                        (24, mk_binary_tree_node 9 0 0); (32, mk_binary_tree_node 3 0 0)] in
  let t := Node 8 5 (Node 16 2 Leaf (Node 32 3 Leaf Leaf)) (Node 24 9 Leaf Leaf) in
  let desc := mk_binary_tree_descriptor 8 1000 [] 4200 0 None (Some (λ d u, u ++ [d])) in
  let m := replicate 100 7 in
  let s0 := mk_general_stack [] 0 0 in
  binary_tree_traversal_first (Some m) s0 desc h [] = binary_tree_traversal_first_recursion desc h [] ∧
  binary_tree_traversal_middle (Some m) s0 desc h [] = binary_tree_traversal_middle_recursion desc h [] ∧
  binary_tree_traversal_later (Some m) (Some m) s0 s0 desc h [] = binary_tree_traversal_later_recursion desc h [] ∧
  ((count t ≤ 100)%nat →
   binary_tree_traversal_level (Some m) (mk_list_queue [] 0 0 0) desc h [] = Ok (0, [5; 2; 9; 3])) ∧
  binary_tree_traversal_first_recursion desc h [] = Ok (0, [5; 2; 3; 9]) ∧
  binary_tree_traversal_middle_recursion desc h [] = Ok (0, [2; 3; 5; 9]) ∧
  binary_tree_traversal_later_recursion desc h [] = Ok (0, [3; 2; 9; 5]).
Proof.
  intros h t desc m s0.
  apply (iterative_traversals_match desc h t (λ d u, u ++ [d]) m m s0 s0 (mk_list_queue [] 0 0 0) []); [done| |..].
  - cbn. repeat (split; [done|]). exists 16, 24. split; [by vm_compute|]. split.
    + repeat (split; [done|]). exists 0, 32. split; [by vm_compute|]. split; [done|].
      repeat (split; [done|]). exists 0, 0. by vm_compute.
    + repeat (split; [done|]). exists 0, 0. by vm_compute.
  - apply (bool_decide_eq_true_1 _). by vm_compute.
  - done.
  - done.
  - done.
Defined.

(** ** Insertion *)

Fixpoint tinsert (cmp : Z → Z → Z) (a data : Z) (t : tree) : tree :=
  match t with
  | Leaf => Node a data Leaf Leaf
  | Node b d l r =>
    if cmp data d <? 0 then Node b d (tinsert cmp a data l) r else Node b d l (tinsert cmp a data r)
  end.

(** Where the descent from link [pp] ends. *)
Fixpoint dest (cmp : Z → Z → Z) (data : Z) (t : tree) (pp : link) : link :=
  match t with
  | Leaf => pp
  | Node b d l r => if cmp data d <? 0 then dest cmp data l (LinkLeft b) else dest cmp data r (LinkRight b)
  end.

Lemma tree_at_frame h h' t : ∀ p, tree_at h p t → (∀ x, x ∈ addrs t → h' !! x = h !! x) → tree_at h' p t.
Proof.
  induction t as [|a d l IHl r IHr]; intros p; [done|].
  intros (-> & Ha & pl & pr & Hp & Hl & Hr) Hf. split; [done|]. split; [done|]. exists pl, pr.
  rewrite Hf by (simpl; set_solver). split; [done|].
  split; [apply IHl|apply IHr]; try done; intros x Hx; apply Hf; simpl; set_solver.
Qed.

Section insert.
Context {U : Type}.
Implicit Types (desc : binary_tree_descriptor U) (h : gmap Z binary_tree_node) (t : tree).

Lemma descend_round_eq desc h cmp data pp p :
  read_link desc h pp = Ok p →
  descend_round desc h cmp data pp =
  if p =? 0 then mret (inr pp)
  else n ← tree_node h p; mret (inl (if cmp data (bn_data n) <? 0 then LinkLeft p else LinkRight p)).
Proof. unfold descend_round. by intros ->. Qed.

Lemma descend_ok desc h cmp data t : ∀ k pp p,
  read_link desc h pp = Ok p → tree_at h p t → (count t < k)%nat →
  loop k (descend_round desc h cmp data) pp = Ok (dest cmp data t pp).
Proof.
  induction t as [|a d l IHl r IHr]; intros [|k] pp p Hpp Ht Hk; try lia;
    rewrite loop_S, (descend_round_eq _ _ _ _ _ _ Hpp).
  - simpl in Ht. by subst p.
  - destruct Ht as (-> & Ha & pl & pr & Hp & Hl & Hr). rewrite count_node in Hk.
    cbn. rewrite (proj2 (Z.eqb_neq a 0) Ha), (tree_node_some _ _ _ Hp). cbn.
    destruct (cmp data d <? 0).
    + apply (IHl k (LinkLeft a) pl); [|done|lia]. unfold read_link. by rewrite (tree_node_some _ _ _ Hp).
    + apply (IHr k (LinkRight a) pr); [|done|lia]. unfold read_link. by rewrite (tree_node_some _ _ _ Hp).
Qed.

(** Linking the new node [a] where the descent ended. *)
Lemma attach_ok desc h cmp a data t : ∀ p pp,
  tree_at h p t → t ≠ Leaf → NoDup (addrs t) → a ∉ addrs t → a ≠ 0 → h !! a = Some (mk_binary_tree_node data 0 0) →
  ∃ h', write_link desc h (dest cmp data t pp) a = Ok (desc, h') ∧ tree_at h' p (tinsert cmp a data t) ∧
        (∀ x, x ∉ addrs t → h' !! x = h !! x).
Proof.
  induction t as [|b d l IHl r IHr]; intros p pp Ht Hne Hnd Ha Ha0 Hh; [done|].
  destruct Ht as (-> & Hb & pl & pr & Hp & Hl & Hr). simpl in *.
  apply NoDup_cons in Hnd as [Hbn Hnd]. apply NoDup_app in Hnd as (Hndl & Hlr & Hndr).
  destruct (cmp data d <? 0).
  - destruct (decide (l = Leaf)) as [->|Hlne].
    + eexists. simpl. rewrite (tree_node_some _ _ _ Hp). cbn. split; [done|]. split; [|intros x Hx; apply lookup_insert_ne; set_solver].
      split; [done|]. split; [done|]. exists a, pr. rewrite lookup_insert_eq. split; [done|]. split.
      * split; [done|]. split; [done|]. exists 0, 0. rewrite lookup_insert_ne by set_solver. done.
      * eapply tree_at_frame; [done|]. intros x Hx. apply lookup_insert_ne. set_solver.
    + destruct (IHl pl (LinkLeft b)) as (h' & Hw & Ht' & Hf); [done|done|done|set_solver|done|done|].
      exists h'. split; [done|]. split; [|intros x Hx; apply Hf; set_solver].
      split; [done|]. split; [done|]. exists pl, pr. rewrite Hf by set_solver. split; [done|]. split; [done|].
      eapply tree_at_frame; [done|]. intros x Hx. apply Hf. set_solver.
  - destruct (decide (r = Leaf)) as [->|Hrne].
    + eexists. simpl. rewrite (tree_node_some _ _ _ Hp). cbn. split; [done|]. split; [|intros x Hx; apply lookup_insert_ne; set_solver].
      split; [done|]. split; [done|]. exists pl, a. rewrite lookup_insert_eq. split; [done|]. split.
      * eapply tree_at_frame; [done|]. intros x Hx. apply lookup_insert_ne. set_solver.
      * split; [done|]. split; [done|]. exists 0, 0. rewrite lookup_insert_ne by set_solver. done.
    + destruct (IHr pr (LinkRight b)) as (h' & Hw & Ht' & Hf); [done|done|done|set_solver|done|done|].
      exists h'. split; [done|]. split; [|intros x Hx; apply Hf; set_solver].
      split; [done|]. split; [done|]. exists pl, pr. rewrite Hf by set_solver. split; [done|]. split; [|done].
      eapply tree_at_frame; [done|]. intros x Hx. apply Hf. set_solver.
Qed.

Lemma free_slot_loop n flags q :
  loop (S n) (free_slot_round flags) q =
  (f ← load flags q; if negb (f =? 0) then loop n (free_slot_round flags) (q + 1) else Ok q).
Proof.
  rewrite loop_S. unfold free_slot_round at 2. unfold free_slot_round.
  destruct (load flags q) as [x| |]; try done. cbn. by destruct (x =? 0).
Qed.

(** The scan for a free cache entry stops at the first one, or runs past the
    cache when there is none. *)
Lemma free_slot_scan (k : nat) rest : ∀ (j : nat) fuel,
  (k - j < fuel)%nat → (j ≤ k)%nat → match rest with [] => True | x :: _ => x = 0 end →
  loop fuel (free_slot_round (replicate k 1 ++ rest)) (Z.of_nat j) =
  match rest with [] => Undef | _ => Ok (Z.of_nat k) end.
Proof.
  intros j fuel. revert j. induction fuel as [|fuel IH]; intros j Hf Hj Hr; [lia|].
  assert (zlen (replicate k 1) = Z.of_nat k) as Hk by (unfold zlen; by rewrite length_replicate).
  rewrite free_slot_loop. destruct (decide (j = k)) as [->|Hne].
  - destruct rest as [|x rest].
    + rewrite load_out; [done|]. rewrite zlen_app. change (zlen (@nil Z)) with 0. lia.
    + subst x. rewrite load_in by (rewrite zlen_app, zlen_cons; pose proof (zlen_nonneg rest); lia).
      rewrite get_app_r by lia. rewrite Hk, Z.sub_diag. done.
  - rewrite load_in by (rewrite zlen_app; pose proof (zlen_nonneg rest); lia). rewrite get_app_l by lia.
    unfold get. rewrite Nat2Z.id, lookup_total_replicate_2 by lia. cbn.
    replace (Z.of_nat j + 1) with (Z.of_nat (S j)) by lia. apply IH; [lia|lia|done].
Qed.

(** What holds of a descriptor after [k] insertions that gave the tree [t]. *)
Record built desc h (cmp : Z → Z → Z) (k : nat) t : Prop := {
  bu_compare : bd_compare desc = Some cmp;
  bu_count : bd_count desc = 0;
  bu_flags : bd_flags desc = replicate k 1 ++ replicate (100 - k) 0;
  bu_max : (k ≤ 100)%nat;
  bu_buff : 0 < bd_buff desc;
  bu_tree : tree_at h (bd_root desc) t;
  bu_nodup : NoDup (addrs t);
  bu_size : count t = k;
  bu_addrs : ∀ x, x ∈ addrs t → ∃ i, 0 ≤ i < Z.of_nat k ∧ x = cache_addr desc i }.

Lemma addrs_tinsert cmp a data t : addrs (tinsert cmp a data t) ≡ₚ a :: addrs t.
Proof.
  induction t as [|b d l IHl r IHr]; [done|]. simpl. destruct (cmp data d <? 0); simpl; rewrite ?IHl, ?IHr.
  - simpl. apply perm_swap.
  - rewrite <-Permutation_middle. apply perm_swap.
Qed.

Lemma built_malloc desc h cmp k t fresh data :
  built desc h cmp k t → (k < 100)%nat →
  binary_tree_malloc_node desc h fresh data 0 0 =
  Ok (cache_addr desc (Z.of_nat k), set_flags desc (replicate (S k) 1 ++ replicate (100 - S k) 0),
      <[cache_addr desc (Z.of_nat k) := mk_binary_tree_node data 0 0]> h).
Proof.
  intros [_ Hc Hf _ _ _ _ _ _] Hk. unfold binary_tree_malloc_node. rewrite Hc, Hf. cbn [Z.ltb Z.compare TREE_BUFFER_SIZE].
  replace (100 - k)%nat with (S (100 - S k)) by lia. cbn [replicate].
  pose proof (free_slot_scan k (0 :: replicate (100 - S k) 0) 0 (S (length (replicate k 1 ++ 0 :: replicate (100 - S k) 0)))) as Hs.
  change (Z.of_nat 0) with 0 in Hs. rewrite Hs; [|rewrite length_app, length_replicate; lia|lia|done]. cbn.
  rewrite store_in by (unfold zlen; rewrite length_app, !length_replicate; simpl; rewrite length_replicate; lia). cbn.
  do 3 f_equal. f_equal. unfold upd. rewrite Nat2Z.id.
  rewrite insert_app_r_alt by (rewrite length_replicate; lia). rewrite length_replicate, Nat.sub_diag. simpl.
  by rewrite app_comm_cons, replicate_cons_app, <-app_assoc.
Qed.

Lemma insert_step desc h cmp k t fresh data :
  built desc h cmp k t → (k < 100)%nat → ∃ desc' h',
  binary_tree_insert desc h fresh data = Ok (0, desc', h') ∧
  built desc' h' cmp (S k) (tinsert cmp (cache_addr desc (Z.of_nat k)) data t) ∧
  bd_buff desc' = bd_buff desc ∧ bd_traversal desc' = bd_traversal desc.
Proof.
  intros Hb Hk. pose proof Hb as [Hcmp Hc Hfl _ Hbuf Ht Hnd Hsz Hin]. unfold binary_tree_insert. rewrite Hcmp.
  pose proof (tree_at_bound _ _ _ Ht Hnd) as Hbound.
  rewrite (descend_ok desc h cmp data t _ LinkRoot (bd_root desc)) by (done || lia). cbn.
  pose proof (built_malloc _ _ _ _ _ fresh data Hb Hk) as Hm. set (a := cache_addr desc (Z.of_nat k)) in *.
  remember (replicate (S k) 1 ++ replicate (100 - S k) 0) as fl eqn:Hfl'. rewrite Hm. cbn.
  assert (a ≠ 0) as Ha0 by (unfold a, cache_addr, binary_tree_cache_size; lia).
  assert (a ∉ addrs t) as Hat.
  { intros (i & Hi & E)%Hin. unfold a, cache_addr, binary_tree_cache_size in E. lia. }
  rewrite (proj2 (Z.eqb_neq a 0) Ha0).
  set (h1 := <[a := mk_binary_tree_node data 0 0]> h).
  assert (tree_at h1 (bd_root desc) t) as Ht1.
  { eapply tree_at_frame; [done|]. intros x Hx. apply lookup_insert_ne. set_solver. }
  assert (∀ desc' h', bd_compare desc' = Some cmp → bd_count desc' = 0 → bd_flags desc' = fl → bd_buff desc' = bd_buff desc →
    tree_at h' (bd_root desc') (tinsert cmp a data t) → built desc' h' cmp (S k) (tinsert cmp a data t)) as Hbuilt.
  { intros desc' h' ? ? ? Hb' ?. split; [done|done|congruence|lia|by rewrite Hb'|done|by rewrite addrs_tinsert, NoDup_cons| |].
    - unfold count. rewrite addrs_tinsert. simpl. by f_equal.
    - intros x. rewrite addrs_tinsert. unfold cache_addr. rewrite Hb'. intros [->|Hx]%elem_of_cons.
      + exists (Z.of_nat k). split; [lia|done].
      + destruct (Hin x Hx) as (i & Hi & ->). exists i. split; [lia|done]. }
  destruct (decide (t = Leaf)) as [->|Hne].
  - cbn. do 2 eexists. split; [done|]. split; [|done]. apply Hbuilt; try done. split; [done|]. split; [done|].
    exists 0, 0. unfold h1. by rewrite lookup_insert_eq.
  - destruct (attach_ok (set_flags desc fl) h1 cmp a data t (bd_root desc) LinkRoot) as (h' & Hw & Ht' & _); try done.
    { unfold h1. by rewrite lookup_insert_eq. }
    rewrite Hw. cbn. do 2 eexists. split; [done|]. split; [|done]. by apply Hbuilt.
Qed.

(** Inserting [xs] one after the other; the answers are collected. *)
Fixpoint insert_all desc h (fresh : option Z) (xs : list Z) : cres (list Z * binary_tree_descriptor U * gmap Z binary_tree_node) :=
  match xs with
  | [] => mret ([], desc, h)
  | x :: xs =>
    '(ret, desc, h) ← binary_tree_insert desc h fresh x;
    '(rets, desc, h) ← insert_all desc h fresh xs; mret (ret :: rets, desc, h)
  end.

(** The data in order: [x] may stand before [y]. *)
Definition in_order (cmp : Z → Z → Z) (x y : Z) : Prop := 0 ≤ cmp y x.

Lemma inorder_tinsert_perm cmp a data t : inorder (tinsert cmp a data t) ≡ₚ data :: inorder t.
Proof.
  induction t as [|b d l IHl r IHr]; [done|]. simpl. destruct (cmp data d <? 0); simpl; rewrite ?IHl, ?IHr; [done|].
  rewrite <-!Permutation_middle. apply perm_swap.
Qed.

Lemma sorted_split {A} (R : A → A → Prop) l1 x l2 :
  StronglySorted R (l1 ++ x :: l2) ↔
  StronglySorted R l1 ∧ StronglySorted R l2 ∧ Forall (λ y, R y x) l1 ∧ Forall (R x) l2 ∧
  Forall (λ y, Forall (R y) l2) l1.
Proof.
  induction l1 as [|y l1 IH]; simpl.
  - split; [intros [? ?]%StronglySorted_inv; repeat split; auto; constructor|].
    intros (_ & ? & _ & ? & _). by constructor.
  - split.
    + intros [[H1 [H2 [H3 [H4 H5]]]]%IH [H6 [H7 H8]%Forall_cons]%Forall_app]%StronglySorted_inv.
      repeat split; auto; by constructor.
    + intros ([? ?]%StronglySorted_inv & ? & [? ?]%Forall_cons & ? & [? ?]%Forall_cons). constructor; [by apply IH|].
      apply Forall_app. split; [done|by constructor].
Qed.

Lemma inorder_tinsert_sorted cmp a data t :
  (∀ x y, cmp x y < 0 → 0 ≤ cmp y x) → (∀ x y z, in_order cmp x y → in_order cmp y z → in_order cmp x z) →
  StronglySorted (in_order cmp) (inorder t) → StronglySorted (in_order cmp) (inorder (tinsert cmp a data t)).
Proof.
  intros Hasym Htrans. induction t as [|b d l IHl r IHr]; simpl; [intros _; by repeat constructor|].
  intros (Hl & Hr & Hld & Hdr & Hlr)%sorted_split. destruct (Z.ltb_spec (cmp data d) 0) as [Hc|Hc]; simpl; apply sorted_split.
  - assert (in_order cmp data d) as Hd by (by apply Hasym). split; [by apply IHl|]. split; [done|].
    rewrite !inorder_tinsert_perm. repeat split; [by constructor|done|]. constructor; [|done].
    eapply Forall_impl; [exact Hdr|]. intros y. by apply Htrans.
  - assert (in_order cmp d data) as Hd by done. split; [done|]. split; [by apply IHr|].
    rewrite inorder_tinsert_perm. repeat split; [done|by constructor|].
    rewrite Forall_forall in Hld, Hlr |- *. intros y Hy. rewrite inorder_tinsert_perm. constructor; [|by apply Hlr].
    eapply Htrans; [by apply Hld|done].
Qed.

Lemma insert_all_ok cmp fresh xs : ∀ desc h k t,
  built desc h cmp k t → (k + length xs ≤ 100)%nat → ∃ desc' h' t',
  insert_all desc h fresh xs = Ok (replicate (length xs) 0, desc', h') ∧ built desc' h' cmp (k + length xs) t' ∧
  bd_traversal desc' = bd_traversal desc ∧ inorder t' ≡ₚ xs ++ inorder t ∧
  ((∀ x y, cmp x y < 0 → 0 ≤ cmp y x) → (∀ x y z, in_order cmp x y → in_order cmp y z → in_order cmp x z) →
   StronglySorted (in_order cmp) (inorder t) → StronglySorted (in_order cmp) (inorder t')).
Proof.
  induction xs as [|x xs IH]; intros desc h k t Hb Hk; simpl in *.
  - exists desc, h, t. rewrite Nat.add_0_r. done.
  - destruct (insert_step desc h cmp k t fresh x Hb) as (desc1 & h1 & Hi & Hb1 & _ & Htr); [lia|].
    destruct (IH desc1 h1 (S k) _ Hb1) as (desc2 & h2 & t2 & Hi2 & Hb2 & Htr2 & Hp & Hs); [lia|].
    exists desc2, h2, t2. rewrite Hi. cbn. rewrite Hi2. cbn. split; [done|].
    split; [by replace (k + S (length xs))%nat with (S k + length xs)%nat by lia|].
    split; [by rewrite Htr2|]. split; [rewrite Hp, inorder_tinsert_perm; by rewrite Permutation_middle|].
    intros Ha Ht Hst. apply Hs; [done|done|]. by apply inorder_tinsert_sorted.
Qed.

Lemma init_built desc cmp traversal h :
  length (bd_flags desc) = 100%nat → 0 < bd_buff desc →
  built (set_callbacks (binary_tree_init desc).2 (Some cmp) traversal) h cmp 0 Leaf.
Proof.
  intros Hl Hb. assert (∀ l : list Z, (λ _, 0) <$> l = replicate (length l) 0) as Hz.
  { intros l. induction l as [|y l IH]; [done|]. simpl. by f_equal. }
  split; [done|done| |lia|done|done|constructor|done|by intros x ?%elem_of_nil].
  cbn [bd_flags set_callbacks binary_tree_init snd]. by rewrite Hz, Hl.
Qed.

(** C6: inserting up to 100 data into an initialised tree and walking it in
    order visits the data sorted: every insertion answers 0, and the iterative
    in-order traversal, with the memory for its stack, runs the callback on a
    permutation of the data in which no datum stands after one that compares
    greater, for any comparison that orders the data. *)
Theorem tree_sort_visits_sorted desc h cmp f xs fresh m s u :
  length (bd_flags desc) = 100%nat → 0 < bd_buff desc → (length xs ≤ 100)%nat → zlen m = TREE_MAX_DEPTH →
  (∀ x y, cmp x y < 0 → 0 ≤ cmp y x) → (∀ x y z, in_order cmp x y → in_order cmp y z → in_order cmp x z) →
  ∃ desc' h' ys,
  insert_all (set_callbacks (binary_tree_init desc).2 (Some cmp) (Some f)) h fresh xs =
    Ok (replicate (length xs) 0, desc', h') ∧
  binary_tree_traversal_middle (Some m) s desc' h' u = Ok (0, visit f ys u) ∧
  ys ≡ₚ xs ∧ StronglySorted (in_order cmp) ys.
Proof.
  intros Hfl Hbuf Hxs Hm Ha Ht. pose proof (init_built desc cmp (Some f) h Hfl Hbuf) as Hb.
  destruct (insert_all_ok cmp fresh xs _ _ _ _ Hb) as (desc' & h' & t' & Hi & Hb' & Htr & Hp & Hs); [simpl; lia|].
  exists desc', h', (inorder t'). split; [done|]. split; [|split].
  - destruct Hb' as [_ _ _ _ _ Htree Hnd Hsz _]. pose proof (height_count t').
    pose proof (tree_at_bound _ _ _ Htree Hnd).
    destruct (stack_init_ok (ops := ops_ed) m s TREE_MAX_DEPTH ltac:(done) Hm) as (s' & Hi' & Hs').
    change (general_stack_init_ed (Some m) s TREE_MAX_DEPTH = (0, s')) in Hi'.
    unfold binary_tree_traversal_middle. rewrite Htr. cbn [bd_traversal set_callbacks]. rewrite Hi'. cbn.
    assert (arrived h' TREE_MAX_DEPTH (bd_root desc') s' t' []) as Har.
    { split; try done. unfold TREE_MAX_DEPTH. change (zlen []) with 0. lia. }
    rewrite <-(app_nil_r (inorder t')).
    pose proof (middle_loop_ok h' f _ _ _ u t' [] Har) as Hw.
    destruct (loop _ _ _) as [r| |]; simpl in Hw.
    + rewrite Hw; [done|]. unfold work, tree_fuel. simpl. lia.
    + destruct Hw. unfold work, tree_fuel. simpl. lia.
    + destruct Hw. unfold work, tree_fuel. simpl. lia.
  - by rewrite Hp, app_nil_r.
  - apply Hs; [done|done|constructor].
Qed.

(** The 101st insertion is undefined: [count] is never advanced, so the
    library never falls back to [malloc] and the scan for a free cache entry
    runs past the cache. *)
Theorem insert_past_the_cache desc h cmp traversal xs fresh data :
  length (bd_flags desc) = 100%nat → 0 < bd_buff desc → length xs = 100%nat →
  ∃ rets desc' h',
  insert_all (set_callbacks (binary_tree_init desc).2 (Some cmp) traversal) h fresh xs = Ok (rets, desc', h') ∧
  binary_tree_insert desc' h' fresh data = Undef.
Proof.
  intros Hfl Hbuf Hxs. pose proof (init_built desc cmp traversal h Hfl Hbuf) as Hb.
  destruct (insert_all_ok cmp fresh xs _ _ _ _ Hb) as (desc' & h' & t' & Hi & Hb' & _); [simpl; lia|].
  do 3 eexists. split; [exact Hi|]. rewrite Hxs in Hb'. destruct Hb' as [Hcmp Hc Hf _ _ Ht Hnd _ _].
  pose proof (tree_at_bound _ _ _ Ht Hnd). unfold binary_tree_insert. rewrite Hcmp.
  rewrite (descend_ok desc' h' cmp data t' _ LinkRoot (bd_root desc')) by (done || lia). cbn [mbind cres_bind].
  unfold binary_tree_malloc_node. rewrite Hc, Hf. change (0 <? TREE_BUFFER_SIZE) with true. cbv iota.
  change (replicate (0 + 100) 1 ++ replicate (100 - (0 + 100)) 0) with (replicate 100 1 ++ @nil Z).
  pose proof (free_slot_scan 100 [] 0 (S (length (replicate 100 1 ++ @nil Z)))) as E.
  change (Z.of_nat 0) with 0 in E. rewrite E; [done|simpl; lia|lia|done].
Qed.
End insert.

Lemma tree_sort_visits_sorted_witness :
  let desc := mk_binary_tree_descriptor (U := list Z) 7 1000 (replicate 100 9) 0 3 None None in
  ∃ desc' h' ys,
  insert_all (set_callbacks (binary_tree_init desc).2 (Some Z.sub) (Some (λ d u, u ++ [d]))) ∅ None [4; 1; 7; 1] =
    Ok ([0; 0; 0; 0], desc', h') ∧
  binary_tree_traversal_middle (Some (replicate 100 0)) (mk_general_stack [] 0 0) desc' h' [] = Ok (0, visit (λ d u, u ++ [d]) ys []) ∧
  ys ≡ₚ [4; 1; 7; 1] ∧ StronglySorted (in_order Z.sub) ys.
Proof.
  intros desc.
  apply (tree_sort_visits_sorted desc ∅ Z.sub (λ d u, u ++ [d]) [4; 1; 7; 1] None (replicate 100 0) (mk_general_stack [] 0 0) []).
  - done.
  - done.
  - simpl. lia.
  - done.
  - lia.
  - unfold in_order. lia.
Defined.

Lemma insert_past_the_cache_witness :
  let desc := mk_binary_tree_descriptor (U := list Z) 7 1000 (replicate 100 9) 0 3 None None in
  ∃ rets desc' h',
  insert_all (set_callbacks (binary_tree_init desc).2 (Some Z.sub) None) ∅ (Some 50) (replicate 100 3) = Ok (rets, desc', h') ∧
  binary_tree_insert desc' h' (Some 50) 4 = Undef.
Proof.
  intros desc. apply (insert_past_the_cache desc ∅ Z.sub None (replicate 100 3) (Some 50) 4); done.
Defined.
