(* ===== verification/Time.v ===== *)
(** Time: the calendar of src/lib/time.c and src/include/cavan/time.h.

    Years, months and days to a day number and a timestamp, and back.  The
    machine widths are the code's: [u32] years and days, [u8] fields,
    [unsigned long] timestamps of 64 bits. *)
From S2P Require Import Prelude.

Definition CAVAN_TIME_SECONDS_PER_MIN : Z := 60.
Definition CAVAN_TIME_SECONDS_PER_HOUR : Z := 60 * CAVAN_TIME_SECONDS_PER_MIN.
Definition CAVAN_TIME_SECONDS_PER_DAY : Z := 24 * CAVAN_TIME_SECONDS_PER_HOUR.
Definition CAVAN_TIME_BASE_DAYS_1970 : Z := 719527.
Definition CAVAN_TIME_BASE_DAYS_2000 : Z := 730484.

Record cavan_time := mk_time {
  tm_year : Z; tm_month : Z; tm_hour : Z; tm_minute : Z; tm_second : Z;
  tm_mday : Z; tm_yday : Z; tm_wday : Z }.
Record cavan_time_simple := mk_time_simple {
  ts_day : Z; ts_hour : Z; ts_minute : Z; ts_second : Z }.

Definition cavan_time_mon_yday (leap : bool) : list Z :=
  if leap then [0; 31; 60; 91; 121; 152; 182; 213; 244; 274; 305; 335]
  else [0; 31; 59; 90; 120; 151; 181; 212; 243; 273; 304; 334].

Definition cavan_time_year_is_leap (year : Z) : bool :=
  (year mod 4 =? 0) && (negb (year mod 100 =? 0) || (year mod 400 =? 0)).

Definition cavan_time_get_days_of_year (year month day : Z) : cres Z :=
  let days := u32 (year * 365 + day) in
  let yday := cavan_time_mon_yday (cavan_time_year_is_leap year) in
  let year := if 0 <? year then year - 1 else year in
  before ← load yday month;
  mret (u32 (year / 4 - year / 100 + year / 400 + before + days - 1)).

Definition cavan_time_get_seconds_of_day (hour min sec : Z) : Z :=
  u32 ((hour * 60 + min) * 60 + sec).

Definition cavan_time_build (time : cavan_time) (base_days : Z) : cres Z :=
  days ← cavan_time_get_days_of_year (tm_year time) (tm_month time) (tm_mday time);
  mret (u64 ((days - base_days) * CAVAN_TIME_SECONDS_PER_DAY +
             cavan_time_get_seconds_of_day (tm_hour time) (tm_minute time) (tm_second time))).

(** [while (cavan_time_get_days_of_year(year + 1, 0, 1) <= days) year++;] *)
Definition year_round (days year : Z) : cres (Z + Z) :=
  d ← cavan_time_get_days_of_year (u32 (year + 1)) 0 1;
  mret (if d <=? days then inl (u32 (year + 1)) else inr year).
(** [for (p = yday + 11; *p > days; p--);] *)
Definition month_round (yday : list Z) (days p : Z) : cres (Z + Z) :=
  v ← load yday p; mret (if days <? v then inl (p - 1) else inr p).

(** The first estimate of the year is low by less than one year in 100000
    days. *)
Definition year_fuel (days : Z) : nat := Z.to_nat (days / 100000 + 4).

Definition cavan_time_parse (timestamp base_days : Z) : cres cavan_time :=
  let days := u64 (timestamp / CAVAN_TIME_SECONDS_PER_DAY + base_days) in
  let wday := u8 (days mod 7) in
  year ← loop (year_fuel days) (year_round days) (u32 (days / 366));
  let yday := cavan_time_mon_yday (cavan_time_year_is_leap year) in
  before ← cavan_time_get_days_of_year year 0 1;
  let days := u64 (days - before) in
  p ← loop 13 (month_round yday days) 11;
  v ← load yday p;
  let remain := u32 (timestamp mod CAVAN_TIME_SECONDS_PER_DAY) in
  mret (mk_time year (u8 p)
    (u8 (remain / CAVAN_TIME_SECONDS_PER_HOUR))
    (u8 (remain mod CAVAN_TIME_SECONDS_PER_HOUR / CAVAN_TIME_SECONDS_PER_MIN))
    (u8 (timestamp mod CAVAN_TIME_SECONDS_PER_MIN))
    (u8 (days - v + 1)) (u8 days) wday).

Definition cavan_time_build_1970 time := cavan_time_build time CAVAN_TIME_BASE_DAYS_1970.
Definition cavan_time_parse_1970 timestamp := cavan_time_parse timestamp CAVAN_TIME_BASE_DAYS_1970.
Definition cavan_time_build_2000 time := cavan_time_build time CAVAN_TIME_BASE_DAYS_2000.
Definition cavan_time_parse_2000 timestamp := cavan_time_parse timestamp CAVAN_TIME_BASE_DAYS_2000.

Definition cavan_second2time_simple (second : Z) : cavan_time_simple :=
  let s := u8 (second mod 60) in
  let second := second / 60 in
  let m := u8 (second mod 60) in
  let second := second / 60 in
  if second <? 100 then mk_time_simple 0 (u8 second) m s
  else mk_time_simple (u32 (second / 24)) (u8 (second mod 24)) m s.

(** [tv_sec] and [tv_usec]; the result is an [int64_t]. *)
Definition cavan_timeval2nano (sec usec : Z) : Z := sec * 1000000000 + usec * 1000.

(** ** The calendar *)

(** Days before the first of January of [y]; the code counts from year 0. *)
Definition year_start (y : Z) : Z :=
  if 0 <? y then 365 * y + (y - 1) / 4 - (y - 1) / 100 + (y - 1) / 400 else 0.
Definition year_days (y : Z) : Z := 365 + Z.b2z (cavan_time_year_is_leap y).
(** Days before month [m], 12 being the next year. *)
Definition month_start (leap : bool) (m : Z) : Z :=
  if m <? 12 then (cavan_time_mon_yday leap)⟦m⟧ else 365 + Z.b2z leap.

(** The largest year the arithmetic of the code is used for here. *)
Definition max_year : Z := 10000000.

Definition valid_date (t : cavan_time) : Prop :=
  1 ≤ tm_year t ≤ max_year ∧ 0 ≤ tm_month t ≤ 11 ∧
  1 ≤ tm_mday t ≤ month_start (cavan_time_year_is_leap (tm_year t)) (tm_month t + 1) -
                  month_start (cavan_time_year_is_leap (tm_year t)) (tm_month t) ∧
  0 ≤ tm_hour t < 24 ∧ 0 ≤ tm_minute t < 60 ∧ 0 ≤ tm_second t < 60.

Lemma leap_spec y :
  cavan_time_year_is_leap y = true ↔ y mod 4 = 0 ∧ (y mod 100 ≠ 0 ∨ y mod 400 = 0).
Proof.
  unfold cavan_time_year_is_leap. rewrite andb_true_iff, orb_true_iff, negb_true_iff, !Z.eqb_eq, Z.eqb_neq. done.
Qed.

Lemma year_start_next y : 1 ≤ y → year_start (y + 1) = year_start y + year_days y.
Proof.
  intros Hy. unfold year_start, year_days. zcase; [|lia]. zcase; [|lia].
  pose proof (leap_spec y) as Hl. replace (y + 1 - 1) with y by lia.
  destruct (cavan_time_year_is_leap y); simpl Z.b2z.
  - destruct (proj1 Hl eq_refl) as [H4 H5]. dlia.
  - assert (¬ (y mod 4 = 0 ∧ (y mod 100 ≠ 0 ∨ y mod 400 = 0))) as H5 by (rewrite <-Hl; done). dlia.
Qed.

Lemma year_start_mono y z : 1 ≤ y ≤ z → year_start y + 365 * (z - y) ≤ year_start z.
Proof. intros Hy. unfold year_start. zcase; [|lia]. zcase; [|lia]. dlia. Qed.

Lemma year_start_bounds y : 0 ≤ y → 365 * y ≤ year_start y ≤ 366 * y.
Proof. intros Hy. unfold year_start. zcase; dlia. Qed.

Lemma month_table leap m : 0 ≤ m ≤ 11 →
  (cavan_time_mon_yday leap)⟦m⟧ = month_start leap m ∧ 0 ≤ month_start leap m < month_start leap (m + 1) ∧
  month_start leap (m + 1) ≤ 365 + Z.b2z leap.
Proof.
  intros Hm. unfold month_start. zcase; [|lia]. split; [done|].
  assert (m = 0 ∨ m = 1 ∨ m = 2 ∨ m = 3 ∨ m = 4 ∨ m = 5 ∨ m = 6 ∨ m = 7 ∨ m = 8 ∨ m = 9 ∨ m = 10 ∨ m = 11)
    as Hcase by lia.
  destruct leap; repeat destruct Hcase as [->|Hcase]; try subst m; vm_compute; intuition congruence.
Qed.

Lemma days_of_year_ok y m d :
  0 ≤ y ≤ max_year + 1 → 0 ≤ m ≤ 11 → 1 ≤ d ≤ 31 →
  cavan_time_get_days_of_year y m d =
    Ok (year_start y + month_start (cavan_time_year_is_leap y) m + d - 1).
Proof.
  intros Hy Hm Hd. unfold cavan_time_get_days_of_year. unfold max_year in *.
  assert (zlen (cavan_time_mon_yday (cavan_time_year_is_leap y)) = 12) as Hz by (by destruct (cavan_time_year_is_leap y)).
  rewrite load_in by lia. destruct (month_table (cavan_time_year_is_leap y) m Hm) as (-> & ? & ?). cbn. f_equal.
  assert (Z.b2z (cavan_time_year_is_leap y) ≤ 1) by (by destruct (cavan_time_year_is_leap y)).
  rewrite (wrap_small 32 (y * 365 + d)) by lia. unfold year_start. destruct (Z.ltb_spec 0 y).
  - rewrite wrap_small; [dlia|]. dlia.
  - assert (y = 0) as -> by lia. rewrite wrap_small; [dlia|]. dlia.
Qed.

(** The search for the year stops at the year the day is in. *)
Lemma year_search days :
  365 ≤ days < year_start (max_year + 1) →
  wp (loop (year_fuel days) (year_round days) (u32 (days / 366)))
     (λ y, 1 ≤ y ≤ max_year ∧ year_start y ≤ days < year_start y + year_days y).
Proof.
  intros Hd. assert (year_start (max_year + 1) ≤ 366 * (max_year + 1)) by (apply year_start_bounds; unfold max_year; lia).
  unfold max_year in *. rewrite (wrap_small 32 (days / 366)) by dlia.
  apply (wp_loop (λ y, 0 ≤ y ≤ max_year ∧ days / 366 ≤ y ∧ (y = 0 ∨ year_start y ≤ days))
           _ (λ y, Z.to_nat (days / 365 - y))); unfold max_year.
  - intros y (Hy & Hlow & Hle). unfold year_round.
    rewrite (wrap_small 32 (y + 1)) by lia. rewrite days_of_year_ok by (unfold max_year; lia).
    replace (month_start _ 0) with 0 by (by destruct (cavan_time_year_is_leap (y + 1))).
    cbn. pose proof (year_start_bounds (y + 1) ltac:(lia)) as Hb. zcase.
    + assert (y + 1 ≤ 10000000).
      { destruct (Z.le_gt_cases (y + 1) 10000000); [done|]. replace (y + 1) with (10000000 + 1) in * by lia. lia. }
      assert (y + 1 ≤ days / 365) by dlia.
      split; [|lia]. split; [lia|]. split; [lia|]. right. lia.
    + assert (1 ≤ y) as Hy1.
      { destruct (Z.le_gt_cases 1 y); [done|]. replace y with 0 in * by lia.
        change (year_start (0 + 1)) with 365 in *. lia. }
      rewrite (year_start_next y Hy1) in *. split; [lia|]. destruct Hle; lia.
  - pose proof (year_start_bounds (days / 366) ltac:(dlia)). split; [dlia|]. split; [done|]. right. dlia.
  - unfold year_fuel. dlia.
Qed.

(** The search for the month. *)
Lemma month_search leap d :
  0 ≤ d < 365 + Z.b2z leap →
  wp (loop 13 (month_round (cavan_time_mon_yday leap) d) 11)
     (λ m, 0 ≤ m ≤ 11 ∧ month_start leap m ≤ d < month_start leap (m + 1)).
Proof.
  intros Hd. assert (zlen (cavan_time_mon_yday leap) = 12) as Hz by (by destruct leap).
  apply (wp_loop (λ m, 0 ≤ m ≤ 11 ∧ d < month_start leap (m + 1)) _ Z.to_nat).
  - intros m (Hm & Hlt). unfold month_round. rewrite load_in by lia.
    destruct (month_table leap m Hm) as (-> & ? & ?). cbn. zcase; [|lia].
    assert (1 ≤ m).
    { destruct (Z.eq_dec m 0) as [->|]; [|lia]. assert (month_start leap 0 = 0) by (by destruct leap). lia. }
    replace (m - 1 + 1) with m by lia. lia.
  - split; [lia|]. assert (month_start leap (11 + 1) = 365 + Z.b2z leap) as -> by (by destruct leap). lia.
  - lia.
Qed.

Lemma month_unique leap m m' d :
  0 ≤ m ≤ 11 → 0 ≤ m' ≤ 11 → month_start leap m ≤ d < month_start leap (m + 1) →
  month_start leap m' ≤ d < month_start leap (m' + 1) → m = m'.
Proof.
  assert (∀ a b, 0 ≤ a → a < b → b ≤ 11 → month_start leap (a + 1) ≤ month_start leap b) as Hmono.
  { intros a b Ha Hab Hb. revert Hb. pattern b. apply Zlt_lower_bound_ind with (a + 1); [|lia].
    intros c IH Hc Hb. destruct (Z.eq_dec c (a + 1)) as [->|]; [lia|].
    specialize (IH (c - 1) ltac:(lia) ltac:(lia)). pose proof (month_table leap (c - 1) ltac:(lia)).
    replace (c - 1 + 1) with c in * by lia. lia. }
  intros Hm Hm' H1 H2. destruct (Z.lt_trichotomy m m') as [Hlt|[?|Hlt]]; [|done|].
  - specialize (Hmono m m'). lia.
  - specialize (Hmono m' m). lia.
Qed.

Lemma year_unique y y' d :
  1 ≤ y → 1 ≤ y' → year_start y ≤ d < year_start y + year_days y →
  year_start y' ≤ d < year_start y' + year_days y' → y = y'.
Proof.
  assert (∀ a b, 1 ≤ a → a < b → year_start (a + 1) ≤ year_start b) as Hmono.
  { intros a b Ha Hab. pose proof (year_start_mono (a + 1) b). lia. }
  intros Hy Hy' H1 H2. rewrite <-!year_start_next in * by done.
  destruct (Z.lt_trichotomy y y') as [Hlt|[?|Hlt]]; [|done|].
  - specialize (Hmono y y'). lia.
  - specialize (Hmono y' y). lia.
Qed.

(** The day a date falls on, from year 0 of the code. *)
Definition day_number (t : cavan_time) : Z :=
  year_start (tm_year t) + month_start (cavan_time_year_is_leap (tm_year t)) (tm_month t) + tm_mday t - 1.
Definition time_of_day (t : cavan_time) : Z := (tm_hour t * 60 + tm_minute t) * 60 + tm_second t.

Definition last_day : Z := year_start (max_year + 1).

Lemma last_day_bound : last_day ≤ 3660000366.
Proof. unfold last_day, max_year. pose proof (year_start_bounds (10000000 + 1)). lia. Qed.

Lemma day_number_range t : valid_date t →
  365 ≤ day_number t < last_day ∧
  year_start (tm_year t) ≤ day_number t < year_start (tm_year t) + year_days (tm_year t).
Proof.
  intros ([Hy1 Hy2] & Hm & Hd & _). unfold day_number, last_day.
  destruct (month_table (cavan_time_year_is_leap (tm_year t)) (tm_month t) Hm) as (_ & ? & ?).
  pose proof (year_start_bounds (tm_year t)). pose proof (year_start_mono (tm_year t + 1) (max_year + 1)).
  pose proof (year_start_next (tm_year t) Hy1). unfold year_days in *. lia.
Qed.

Lemma month_length leap m : 0 ≤ m ≤ 11 → month_start leap (m + 1) - month_start leap m ≤ 31.
Proof.
  intros Hm.
  assert (m = 0 ∨ m = 1 ∨ m = 2 ∨ m = 3 ∨ m = 4 ∨ m = 5 ∨ m = 6 ∨ m = 7 ∨ m = 8 ∨ m = 9 ∨ m = 10 ∨ m = 11)
    as Hcase by lia.
  destruct leap; repeat destruct Hcase as [->|Hcase]; try subst m; by vm_compute.
Qed.

Lemma build_ok t base :
  valid_date t → 0 ≤ base ≤ day_number t →
  cavan_time_build t base = Ok ((day_number t - base) * 86400 + time_of_day t).
Proof.
  intros Hv Hb. destruct (day_number_range t Hv) as (Hd & _). pose proof last_day_bound.
  destruct Hv as (Hy & Hm & Hmd & Hh & Hmi & Hs). unfold cavan_time_build.
  pose proof (month_length (cavan_time_year_is_leap (tm_year t)) (tm_month t) Hm).
  rewrite days_of_year_ok by lia. cbn. f_equal. fold (day_number t).
  unfold cavan_time_get_seconds_of_day, time_of_day, CAVAN_TIME_SECONDS_PER_DAY, CAVAN_TIME_SECONDS_PER_HOUR,
    CAVAN_TIME_SECONDS_PER_MIN.
  rewrite (wrap_small 32) by lia. rewrite wrap_small by lia. lia.
Qed.

Lemma parse_ok ts base :
  0 ≤ ts → 0 ≤ base → 365 ≤ ts / 86400 + base < last_day →
  wp (cavan_time_parse ts base) (λ t,
    valid_date t ∧ day_number t = ts / 86400 + base ∧ time_of_day t = ts mod 86400 ∧
    tm_wday t = (ts / 86400 + base) mod 7 ∧ tm_yday t = u8 (day_number t - year_start (tm_year t))).
Proof.
  intros Hts Hbase Hd. pose proof last_day_bound. unfold cavan_time_parse. cbv zeta.
  change CAVAN_TIME_SECONDS_PER_DAY with 86400. change CAVAN_TIME_SECONDS_PER_HOUR with 3600.
  change CAVAN_TIME_SECONDS_PER_MIN with 60.
  rewrite (wrap_small 64 (ts / 86400 + base)) by lia. set (days := ts / 86400 + base) in *.
  apply wp_bind. eapply wp_mono; [by apply year_search|]. intros y (Hy & Hle & Hlt).
  rewrite days_of_year_ok by (unfold max_year in *; lia). cbn [mbind cres_bind].
  destruct (month_table (cavan_time_year_is_leap y) 0 ltac:(lia)) as (H0 & _ & _).
  replace (month_start _ 0) with 0 by (by destruct (cavan_time_year_is_leap y)).
  unfold year_days in Hlt. set (leap := cavan_time_year_is_leap y) in *.
  assert (Z.b2z leap ≤ 1) by (by destruct leap).
  replace (days - (year_start y + 0 + 1 - 1)) with (days - year_start y) by lia.
  rewrite (wrap_small 64 (days - year_start y)) by lia.
  apply wp_bind. eapply wp_mono; [apply month_search; lia|]. intros m (Hm & Hml & Hmu).
  assert (zlen (cavan_time_mon_yday leap) = 12) as Hz by (by destruct leap).
  rewrite load_in by lia. destruct (month_table leap m Hm) as (-> & Hms & _). cbn [mbind cres_bind].
  pose proof (month_length leap m Hm).
  rewrite (wrap_small 32 (ts mod 86400)) by dlia.
  rewrite (wrap_small 8 m), (wrap_small 8 (_ / 3600)), (wrap_small 8 (_ / 60)), (wrap_small 8 (ts mod 60)),
    (wrap_small 8 (_ - _ + 1)), (wrap_small 8 (days mod 7)) by dlia.
  apply wp_ret. unfold valid_date, day_number, time_of_day. simpl. fold leap.
  replace (year_start y + month_start leap m + (days - year_start y - month_start leap m + 1) - 1) with days by lia.
  split; [|split; [done|split; [dlia|done]]]. repeat (split; [dlia|]). dlia.
Qed.

(** C10: a timestamp survives a round trip through the calendar: parsing it
    gives a valid date (real month and day lengths, leap years included) that
    builds to the same timestamp, with the right day of the week, for every
    base and every day up to the end of year 10000000; the year and month
    searches end within their bounds. *)
Theorem cavan_time_build_parse ts base :
  0 ≤ ts → 0 ≤ base → 365 ≤ ts / 86400 + base < last_day →
  wp (cavan_time_parse ts base) (λ t,
    valid_date t ∧ cavan_time_build t base = Ok ts ∧ tm_wday t = (ts / 86400 + base) mod 7).
Proof.
  intros Hts Hb Hd. eapply wp_mono; [by apply parse_ok|]. intros t (Hv & Hn & Ht & Hw & _).
  split; [done|]. split; [|done]. rewrite build_ok by (done || dlia). f_equal. rewrite Hn, Ht. dlia.
Qed.

Lemma cavan_time_build_parse_witness :
  wp (cavan_time_parse 951782400 719527) (λ t,
    valid_date t ∧ cavan_time_build t 719527 = Ok 951782400 ∧ tm_wday t = 2).
Proof. apply (cavan_time_build_parse 951782400 719527); [lia|lia|split; [dlia|by vm_compute]]. Defined.

(** C11: a valid date survives the round trip the other way: the timestamp it
    builds to parses back to the same year, month, day, hour, minute and
    second; the day of the week follows the day number modulo 7, and the day of
    the year is kept modulo 256. *)
Theorem cavan_time_parse_build t base :
  valid_date t → 0 ≤ base ≤ day_number t →
  wp (ts ← cavan_time_build t base; cavan_time_parse ts base) (λ t',
    t' = mk_time (tm_year t) (tm_month t) (tm_hour t) (tm_minute t) (tm_second t) (tm_mday t)
           (u8 (day_number t - year_start (tm_year t))) (day_number t mod 7)).
Proof.
  intros Hv Hb. rewrite build_ok by done. cbn [mbind cres_bind].
  destruct (day_number_range t Hv) as (Hd & Hyr). pose proof Hv as (Hy & Hm & Hmd & Hh & Hmi & Hs).
  assert (0 ≤ time_of_day t < 86400) as Htod by (unfold time_of_day; lia).
  set (ts := (day_number t - base) * 86400 + time_of_day t).
  assert (ts / 86400 = day_number t - base ∧ ts mod 86400 = time_of_day t) as [Hq Hr] by (subst ts; dlia).
  eapply wp_mono; [apply (parse_ok ts base); [lia|lia|rewrite Hq; lia]|].
  intros t' (Hv' & Hn' & Ht' & Hw' & Hyd'). rewrite Hq in *. replace (day_number t - base + base) with (day_number t) in * by lia.
  destruct (day_number_range t' Hv') as (_ & Hyr'). pose proof Hv' as (Hy' & Hm' & Hmd' & Hh' & Hmi' & Hs').
  rewrite Hn' in Hyr'. assert (tm_year t' = tm_year t) as Ey by (by eapply year_unique; [lia|lia|exact Hyr'|exact Hyr]).
  rewrite Ey in *. pose proof Hn' as Hn2. unfold day_number in Hn2. rewrite Ey in Hn2.
  assert (tm_month t' = tm_month t) as Em.
  { apply (month_unique (cavan_time_year_is_leap (tm_year t)) _ _ (day_number t - year_start (tm_year t)));
      [done|done|unfold day_number in *; lia|unfold day_number in *; lia]. }
  rewrite Em in *. unfold time_of_day in *. rewrite Hn' in Hyd'.
  destruct t' as [y' m' h' mi' s' d' yd' wd']. simpl in *. subst. f_equal; lia.
Qed.

Lemma cavan_time_parse_build_witness :
  let t := mk_time 2024 1 23 59 58 29 0 0 in
  wp (ts ← cavan_time_build t 730484; cavan_time_parse ts 730484) (λ t', t' = mk_time 2024 1 23 59 58 29 59 4).
Proof.
  intros t. apply (cavan_time_parse_build t 730484).
  - unfold valid_date. simpl. unfold max_year. vm_compute (cavan_time_year_is_leap 2024).
    vm_compute (month_start true (1 + 1)). vm_compute (month_start true 1). lia.
  - split; [lia|by vm_compute].
Defined.

(** The day of the year does not fit its field: [yday], documented as 0 to
    365, is a [u8], so from the 257th day of a year on the parsed date gives
    the day of the year less 256. *)
Theorem cavan_time_yday_truncated t base :
  valid_date t → 0 ≤ base ≤ day_number t → 256 ≤ day_number t - year_start (tm_year t) →
  wp (ts ← cavan_time_build t base; cavan_time_parse ts base) (λ t',
    tm_year t' = tm_year t ∧ tm_yday t' = day_number t' - year_start (tm_year t') - 256).
Proof.
  intros Hv Hb Hy. rewrite build_ok by done. cbn [mbind cres_bind].
  destruct (day_number_range t Hv) as (Hd & Hyr). pose proof Hv as (Hy1 & _ & _ & Hh & Hmi & Hs).
  assert (0 ≤ time_of_day t < 86400) as Htod by (unfold time_of_day; lia).
  set (ts := (day_number t - base) * 86400 + time_of_day t).
  assert (ts / 86400 = day_number t - base) as Hq by (subst ts; dlia).
  eapply wp_mono; [apply (parse_ok ts base); [lia|lia|rewrite Hq; lia]|].
  intros t' (Hv' & Hn' & _ & _ & Hyd'). rewrite Hq in Hn'. replace (day_number t - base + base) with (day_number t) in Hn' by lia.
  destruct (day_number_range t' Hv') as (_ & Hyr'). rewrite Hn' in Hyr'. pose proof Hv' as (Hy1' & _).
  assert (tm_year t' = tm_year t) as Ey by (by eapply year_unique; [lia|lia|exact Hyr'|exact Hyr]).
  split; [done|]. rewrite Hyd'. unfold year_days in *. rewrite Ey, Hn' in *.
  assert (Z.b2z (cavan_time_year_is_leap (tm_year t)) ≤ 1) by (by destruct (cavan_time_year_is_leap (tm_year t))).
  unfold wrap. change (2 ^ 8) with 256. dlia.
Qed.

Lemma cavan_time_yday_truncated_witness :
  let t := mk_time 1999 11 0 0 0 31 0 0 in
  wp (ts ← cavan_time_build t 719527; cavan_time_parse ts 719527) (λ t',
    tm_year t' = 1999 ∧ tm_yday t' = day_number t' - year_start (tm_year t') - 256).
Proof.
  intros t. apply (cavan_time_yday_truncated t 719527).
  - unfold valid_date. simpl. unfold max_year. vm_compute (cavan_time_year_is_leap 1999).
    vm_compute (month_start false (11 + 1)). vm_compute (month_start false 11). lia.
  - split; [lia|by vm_compute].
  - by vm_compute.
Defined.

(** Splitting a number of seconds is exact: the fields add up to it, minutes
    and seconds are below 60, and hours run to 99 before days are counted, for
    every number of seconds whose days fit 32 bits. *)
Theorem cavan_second2time_simple_exact second :
  0 ≤ second < 86400 * 2 ^ 32 →
  let t := cavan_second2time_simple second in
  second = ((ts_day t * 24 + ts_hour t) * 60 + ts_minute t) * 60 + ts_second t ∧
  0 ≤ ts_second t < 60 ∧ 0 ≤ ts_minute t < 60 ∧
  (if second <? 360000 then ts_day t = 0 ∧ 0 ≤ ts_hour t < 100 else 0 ≤ ts_hour t < 24).
Proof.
  intros Hs. change (2 ^ 32) with 4294967296 in Hs. unfold cavan_second2time_simple. cbv zeta.
  rewrite (wrap_small 8 (second mod 60)), (wrap_small 8 (second / 60 mod 60)) by dlia.
  zcase; simpl.
  - rewrite wrap_small by dlia. destruct (Z.ltb_spec second 360000); dlia.
  - rewrite (wrap_small 8 (_ mod 24)), (wrap_small 32) by dlia. destruct (Z.ltb_spec second 360000); dlia.
Qed.

Lemma cavan_second2time_simple_exact_witness :
  let t := cavan_second2time_simple 500000 in
  500000 = ((ts_day t * 24 + ts_hour t) * 60 + ts_minute t) * 60 + ts_second t ∧
  0 ≤ ts_second t < 60 ∧ 0 ≤ ts_minute t < 60 ∧
  (if 500000 <? 360000 then ts_day t = 0 ∧ 0 ≤ ts_hour t < 100 else 0 ≤ ts_hour t < 24).
Proof. apply (cavan_second2time_simple_exact 500000). lia. Defined.
