(* ===== verification/Crc.v ===== *)
(** Crc: the table driven checksums of src/lib/crc.c.

    The reference is the shift register that takes the message a bit at a time:
    CRC-16/CCITT most significant bit first, CRC-32 least significant bit
    first. *)
From S2P Require Import Prelude.

Definition cavan_crc16_table : list Z :=
   [0x0; 0x1021; 0x2042; 0x3063; 0x4084; 0x50a5; 0x60c6; 0x70e7;
    0x8108; 0x9129; 0xa14a; 0xb16b; 0xc18c; 0xd1ad; 0xe1ce; 0xf1ef;
    0x1231; 0x210; 0x3273; 0x2252; 0x52b5; 0x4294; 0x72f7; 0x62d6;
    0x9339; 0x8318; 0xb37b; 0xa35a; 0xd3bd; 0xc39c; 0xf3ff; 0xe3de;
    0x2462; 0x3443; 0x420; 0x1401; 0x64e6; 0x74c7; 0x44a4; 0x5485;
    0xa56a; 0xb54b; 0x8528; 0x9509; 0xe5ee; 0xf5cf; 0xc5ac; 0xd58d;
    0x3653; 0x2672; 0x1611; 0x630; 0x76d7; 0x66f6; 0x5695; 0x46b4;
    0xb75b; 0xa77a; 0x9719; 0x8738; 0xf7df; 0xe7fe; 0xd79d; 0xc7bc;
    0x48c4; 0x58e5; 0x6886; 0x78a7; 0x840; 0x1861; 0x2802; 0x3823;
    0xc9cc; 0xd9ed; 0xe98e; 0xf9af; 0x8948; 0x9969; 0xa90a; 0xb92b;
    0x5af5; 0x4ad4; 0x7ab7; 0x6a96; 0x1a71; 0xa50; 0x3a33; 0x2a12;
    0xdbfd; 0xcbdc; 0xfbbf; 0xeb9e; 0x9b79; 0x8b58; 0xbb3b; 0xab1a;
    0x6ca6; 0x7c87; 0x4ce4; 0x5cc5; 0x2c22; 0x3c03; 0xc60; 0x1c41;
    0xedae; 0xfd8f; 0xcdec; 0xddcd; 0xad2a; 0xbd0b; 0x8d68; 0x9d49;
    0x7e97; 0x6eb6; 0x5ed5; 0x4ef4; 0x3e13; 0x2e32; 0x1e51; 0xe70;
    0xff9f; 0xefbe; 0xdfdd; 0xcffc; 0xbf1b; 0xaf3a; 0x9f59; 0x8f78;
    0x9188; 0x81a9; 0xb1ca; 0xa1eb; 0xd10c; 0xc12d; 0xf14e; 0xe16f;
    0x1080; 0xa1; 0x30c2; 0x20e3; 0x5004; 0x4025; 0x7046; 0x6067;
    0x83b9; 0x9398; 0xa3fb; 0xb3da; 0xc33d; 0xd31c; 0xe37f; 0xf35e;
    0x2b1; 0x1290; 0x22f3; 0x32d2; 0x4235; 0x5214; 0x6277; 0x7256;
    0xb5ea; 0xa5cb; 0x95a8; 0x8589; 0xf56e; 0xe54f; 0xd52c; 0xc50d;
    0x34e2; 0x24c3; 0x14a0; 0x481; 0x7466; 0x6447; 0x5424; 0x4405;
    0xa7db; 0xb7fa; 0x8799; 0x97b8; 0xe75f; 0xf77e; 0xc71d; 0xd73c;
    0x26d3; 0x36f2; 0x691; 0x16b0; 0x6657; 0x7676; 0x4615; 0x5634;
    0xd94c; 0xc96d; 0xf90e; 0xe92f; 0x99c8; 0x89e9; 0xb98a; 0xa9ab;
    0x5844; 0x4865; 0x7806; 0x6827; 0x18c0; 0x8e1; 0x3882; 0x28a3;
    0xcb7d; 0xdb5c; 0xeb3f; 0xfb1e; 0x8bf9; 0x9bd8; 0xabbb; 0xbb9a;
    0x4a75; 0x5a54; 0x6a37; 0x7a16; 0xaf1; 0x1ad0; 0x2ab3; 0x3a92;
    0xfd2e; 0xed0f; 0xdd6c; 0xcd4d; 0xbdaa; 0xad8b; 0x9de8; 0x8dc9;
    0x7c26; 0x6c07; 0x5c64; 0x4c45; 0x3ca2; 0x2c83; 0x1ce0; 0xcc1;
    0xef1f; 0xff3e; 0xcf5d; 0xdf7c; 0xaf9b; 0xbfba; 0x8fd9; 0x9ff8;
    0x6e17; 0x7e36; 0x4e55; 0x5e74; 0x2e93; 0x3eb2; 0xed1; 0x1ef0].

Definition cavan_crc32_table : list Z :=
   [0x0; 0x77073096; 0xee0e612c; 0x990951ba; 0x76dc419; 0x706af48f; 0xe963a535; 0x9e6495a3;
    0xedb8832; 0x79dcb8a4; 0xe0d5e91e; 0x97d2d988; 0x9b64c2b; 0x7eb17cbd; 0xe7b82d07; 0x90bf1d91;
    0x1db71064; 0x6ab020f2; 0xf3b97148; 0x84be41de; 0x1adad47d; 0x6ddde4eb; 0xf4d4b551; 0x83d385c7;
    0x136c9856; 0x646ba8c0; 0xfd62f97a; 0x8a65c9ec; 0x14015c4f; 0x63066cd9; 0xfa0f3d63; 0x8d080df5;
    0x3b6e20c8; 0x4c69105e; 0xd56041e4; 0xa2677172; 0x3c03e4d1; 0x4b04d447; 0xd20d85fd; 0xa50ab56b;
    0x35b5a8fa; 0x42b2986c; 0xdbbbc9d6; 0xacbcf940; 0x32d86ce3; 0x45df5c75; 0xdcd60dcf; 0xabd13d59;
    0x26d930ac; 0x51de003a; 0xc8d75180; 0xbfd06116; 0x21b4f4b5; 0x56b3c423; 0xcfba9599; 0xb8bda50f;
    0x2802b89e; 0x5f058808; 0xc60cd9b2; 0xb10be924; 0x2f6f7c87; 0x58684c11; 0xc1611dab; 0xb6662d3d;
    0x76dc4190; 0x1db7106; 0x98d220bc; 0xefd5102a; 0x71b18589; 0x6b6b51f; 0x9fbfe4a5; 0xe8b8d433;
    0x7807c9a2; 0xf00f934; 0x9609a88e; 0xe10e9818; 0x7f6a0dbb; 0x86d3d2d; 0x91646c97; 0xe6635c01;
    0x6b6b51f4; 0x1c6c6162; 0x856530d8; 0xf262004e; 0x6c0695ed; 0x1b01a57b; 0x8208f4c1; 0xf50fc457;
    0x65b0d9c6; 0x12b7e950; 0x8bbeb8ea; 0xfcb9887c; 0x62dd1ddf; 0x15da2d49; 0x8cd37cf3; 0xfbd44c65;
    0x4db26158; 0x3ab551ce; 0xa3bc0074; 0xd4bb30e2; 0x4adfa541; 0x3dd895d7; 0xa4d1c46d; 0xd3d6f4fb;
    0x4369e96a; 0x346ed9fc; 0xad678846; 0xda60b8d0; 0x44042d73; 0x33031de5; 0xaa0a4c5f; 0xdd0d7cc9;
    0x5005713c; 0x270241aa; 0xbe0b1010; 0xc90c2086; 0x5768b525; 0x206f85b3; 0xb966d409; 0xce61e49f;
    0x5edef90e; 0x29d9c998; 0xb0d09822; 0xc7d7a8b4; 0x59b33d17; 0x2eb40d81; 0xb7bd5c3b; 0xc0ba6cad;
    0xedb88320; 0x9abfb3b6; 0x3b6e20c; 0x74b1d29a; 0xead54739; 0x9dd277af; 0x4db2615; 0x73dc1683;
    0xe3630b12; 0x94643b84; 0xd6d6a3e; 0x7a6a5aa8; 0xe40ecf0b; 0x9309ff9d; 0xa00ae27; 0x7d079eb1;
    0xf00f9344; 0x8708a3d2; 0x1e01f268; 0x6906c2fe; 0xf762575d; 0x806567cb; 0x196c3671; 0x6e6b06e7;
    0xfed41b76; 0x89d32be0; 0x10da7a5a; 0x67dd4acc; 0xf9b9df6f; 0x8ebeeff9; 0x17b7be43; 0x60b08ed5;
    0xd6d6a3e8; 0xa1d1937e; 0x38d8c2c4; 0x4fdff252; 0xd1bb67f1; 0xa6bc5767; 0x3fb506dd; 0x48b2364b;
    0xd80d2bda; 0xaf0a1b4c; 0x36034af6; 0x41047a60; 0xdf60efc3; 0xa867df55; 0x316e8eef; 0x4669be79;
    0xcb61b38c; 0xbc66831a; 0x256fd2a0; 0x5268e236; 0xcc0c7795; 0xbb0b4703; 0x220216b9; 0x5505262f;
    0xc5ba3bbe; 0xb2bd0b28; 0x2bb45a92; 0x5cb36a04; 0xc2d7ffa7; 0xb5d0cf31; 0x2cd99e8b; 0x5bdeae1d;
    0x9b64c2b0; 0xec63f226; 0x756aa39c; 0x26d930a; 0x9c0906a9; 0xeb0e363f; 0x72076785; 0x5005713;
    0x95bf4a82; 0xe2b87a14; 0x7bb12bae; 0xcb61b38; 0x92d28e9b; 0xe5d5be0d; 0x7cdcefb7; 0xbdbdf21;
    0x86d3d2d4; 0xf1d4e242; 0x68ddb3f8; 0x1fda836e; 0x81be16cd; 0xf6b9265b; 0x6fb077e1; 0x18b74777;
    0x88085ae6; 0xff0f6a70; 0x66063bca; 0x11010b5c; 0x8f659eff; 0xf862ae69; 0x616bffd3; 0x166ccf45;
    0xa00ae278; 0xd70dd2ee; 0x4e048354; 0x3903b3c2; 0xa7672661; 0xd06016f7; 0x4969474d; 0x3e6e77db;
    0xaed16a4a; 0xd9d65adc; 0x40df0b66; 0x37d83bf0; 0xa9bcae53; 0xdebb9ec5; 0x47b2cf7f; 0x30b5ffe9;
    0xbdbdf21c; 0xcabac28a; 0x53b39330; 0x24b4a3a6; 0xbad03605; 0xcdd70693; 0x54de5729; 0x23d967bf;
    0xb3667a2e; 0xc4614ab8; 0x5d681b02; 0x2a6f2b94; 0xb40bbe37; 0xc30c8ea1; 0x5a05df1b; 0x2d02ef8d].

(** [*buff] is a [char]: it is sign extended before the exclusive or. *)
Definition crc16_round (crc b : Z) : Z :=
  u16 (Z.lxor (cavan_crc16_table)⟦Z.land (Z.lxor (Z.shiftr crc 8) b) 255⟧ (Z.shiftl crc 8)).
Definition cavan_crc16 (crc : Z) (buff : list Z) (size : Z) : cres Z :=
  each crc16_round buff 0 size crc.

Definition crc32_round (crc b : Z) : Z :=
  Z.lxor (cavan_crc32_table)⟦Z.land (Z.lxor crc b) 255⟧ (Z.shiftr crc 8).
Definition cavan_crc32 (crc : Z) (buff : list Z) (size : Z) : cres Z :=
  crc ← each crc32_round buff 0 size (Z.lxor crc 0xFFFFFFFF);
  mret (Z.lxor crc 0xFFFFFFFF).

(** ** The shift registers *)

Definition crc16_poly : Z := 0x1021.
Definition crc16_bit (x : Z) : Z :=
  Z.lxor (u16 (2 * x)) (if Z.testbit x 15 then crc16_poly else 0).
Definition crc32_poly : Z := 0xEDB88320.
Definition crc32_bit (x : Z) : Z :=
  Z.lxor (Z.shiftr x 1) (if Z.testbit x 0 then crc32_poly else 0).

(** A byte goes in at the top of the 16-bit register, at the bottom of the
    32-bit one. *)
Definition crc16_byte (x b : Z) : Z := Nat.iter 8 crc16_bit (Z.lxor x (Z.shiftl (u8 b) 8)).
Definition crc32_byte (x b : Z) : Z := Nat.iter 8 crc32_bit (Z.lxor x (u8 b)).

#[local] Strategy expand [crc16_byte crc32_byte].

(** *** Linearity *)

Lemma iter_linear (f : Z → Z) n x y :
  (∀ x y, f (Z.lxor x y) = Z.lxor (f x) (f y)) →
  Nat.iter n f (Z.lxor x y) = Z.lxor (Nat.iter n f x) (Nat.iter n f y).
Proof. intros Hf. induction n as [|n IH]; [done|]. simpl. by rewrite IH, Hf. Qed.

Ltac bitwise :=
  apply Z.bits_inj'; let i := fresh "i" in intros i ?; rewrite ?Z.lxor_spec, ?Z.bits_0.

Lemma crc16_bit_linear x y : crc16_bit (Z.lxor x y) = Z.lxor (crc16_bit x) (crc16_bit y).
Proof.
  unfold crc16_bit. rewrite Z.lxor_spec. bitwise. rewrite !testbit_wrap by lia.
  rewrite <-!(Z.mul_comm _ 2). change 2 with (2 ^ 1). rewrite <-!Z.shiftl_mul_pow2, Z.shiftl_lxor, Z.lxor_spec by lia.
  destruct (Z.testbit x 15), (Z.testbit y 15); simpl xorb; rewrite ?Z.bits_0;
    destruct (i <? 16), (Z.testbit (Z.shiftl x 1) i), (Z.testbit (Z.shiftl y 1) i), (Z.testbit crc16_poly i); done.
Qed.

Lemma crc32_bit_linear x y : crc32_bit (Z.lxor x y) = Z.lxor (crc32_bit x) (crc32_bit y).
Proof.
  unfold crc32_bit. rewrite Z.lxor_spec, Z.shiftr_lxor. bitwise.
  destruct (Z.testbit x 0), (Z.testbit y 0); simpl xorb; rewrite ?Z.bits_0;
    destruct (Z.testbit (Z.shiftr x 1) i), (Z.testbit (Z.shiftr y 1) i), (Z.testbit crc32_poly i); done.
Qed.

(** *** The tables hold eight steps of the register *)

Lemma crc16_table_high i :
  0 ≤ i < 256 → Nat.iter 8 crc16_bit (Z.shiftl i 8) = (cavan_crc16_table)⟦i⟧ ∧ 0 ≤ (cavan_crc16_table)⟦i⟧ < 2 ^ 16.
Proof.
  intros Hi. apply (check_below_ok 256 (λ i, (Nat.iter 8 crc16_bit (Z.shiftl i 8) =? (cavan_crc16_table)⟦i⟧) &&
    (0 <=? (cavan_crc16_table)⟦i⟧) && ((cavan_crc16_table)⟦i⟧ <? 2 ^ 16))) in Hi; [|by vm_compute].
  apply andb_true_iff in Hi as [[H1%Z.eqb_eq H2%Z.leb_le]%andb_true_iff H3%Z.ltb_lt]. done.
Qed.
Lemma crc16_low i : 0 ≤ i < 256 → Nat.iter 8 crc16_bit i = Z.shiftl i 8.
Proof.
  intros Hi. apply (check_below_ok 256 (λ i, Nat.iter 8 crc16_bit i =? Z.shiftl i 8)) in Hi; [|by vm_compute].
  by apply Z.eqb_eq.
Qed.
Lemma crc32_table_low i :
  0 ≤ i < 256 → Nat.iter 8 crc32_bit i = (cavan_crc32_table)⟦i⟧ ∧ 0 ≤ (cavan_crc32_table)⟦i⟧ < 2 ^ 32.
Proof.
  intros Hi. apply (check_below_ok 256 (λ i, (Nat.iter 8 crc32_bit i =? (cavan_crc32_table)⟦i⟧) &&
    (0 <=? (cavan_crc32_table)⟦i⟧) && ((cavan_crc32_table)⟦i⟧ <? 2 ^ 32))) in Hi; [|by vm_compute].
  apply andb_true_iff in Hi as [[H1%Z.eqb_eq H2%Z.leb_le]%andb_true_iff H3%Z.ltb_lt]. done.
Qed.
Lemma crc32_shift n h : Nat.iter n crc32_bit (Z.shiftl h (Z.of_nat n)) = h.
Proof.
  assert (∀ k, 0 ≤ k → crc32_bit (Z.shiftl h (k + 1)) = Z.shiftl h k) as Hbit.
  { intros k Hk. unfold crc32_bit. rewrite Z.shiftl_spec, (Z.testbit_neg_r _ (0 - _)) by lia.
    rewrite Z.lxor_0_r. rewrite Z.shiftr_shiftl_l by lia. f_equal. lia. }
  induction n as [|n IH]; [apply Z.shiftl_0_r|]. rewrite Nat.iter_succ_r.
  replace (Z.of_nat (S n)) with (Z.of_nat n + 1) by lia. by rewrite Hbit by lia.
Qed.
Lemma crc32_high h : Nat.iter 8 crc32_bit (Z.shiftl h 8) = h.
Proof. exact (crc32_shift 8 h). Qed.

(** A number is its bits above the eighth and the lowest eight. *)
Lemma split_byte x : x = Z.lxor (Z.shiftl (Z.shiftr x 8) 8) (Z.land x 255).
Proof.
  bitwise. change 255 with (Z.ones 8). rewrite Z.land_spec, Z.shiftl_spec by done.
  destruct (Z.lt_ge_cases i 8).
  - rewrite (Z.testbit_neg_r _ (i - 8)), Z.ones_spec_low by lia. by rewrite andb_true_r.
  - rewrite Z.shiftr_spec, Z.ones_spec_high by lia. rewrite andb_false_r, xorb_false_r. f_equal. lia.
Qed.

Lemma land_255 x : 0 ≤ Z.land x 255 < 256.
Proof. change 255 with (Z.ones 8). rewrite Z.land_ones by lia. apply Z.mod_pos_bound. lia. Qed.
Lemma u8_land b : u8 b = Z.land b 255.
Proof. by rewrite wrap_land. Qed.

Lemma land_lxor a b c : Z.land (Z.lxor a b) c = Z.lxor (Z.land a c) (Z.land b c).
Proof.
  bitwise. rewrite !Z.land_spec, Z.lxor_spec.
  by destruct (Z.testbit a i), (Z.testbit b i), (Z.testbit c i).
Qed.

Lemma crc16_round_byte x b : 0 ≤ x < 2 ^ 16 → crc16_round x b = crc16_byte x b.
Proof.
  intros Hx. unfold crc16_round, crc16_byte. set (i := Z.land (Z.lxor (Z.shiftr x 8) b) 255).
  assert (Z.lxor x (Z.shiftl (u8 b) 8) = Z.lxor (Z.shiftl i 8) (Z.land x 255)) as ->.
  { rewrite (split_byte x) at 1. rewrite Z.lxor_assoc, (Z.lxor_comm (Z.land x 255)), <-Z.lxor_assoc. f_equal.
    rewrite <-Z.shiftl_lxor. f_equal. unfold i. rewrite u8_land, land_lxor. f_equal.
    change 255 with (Z.ones 8). rewrite Z.land_ones by lia. rewrite Z.mod_small; [done|].
    rewrite Z.shiftr_div_pow2 by lia. change (2 ^ 16) with 65536 in Hx. change (2 ^ 8) with 256. dlia. }
  rewrite iter_linear by apply crc16_bit_linear.
  destruct (crc16_table_high i (land_255 _)) as [-> Ht]. rewrite (crc16_low _ (land_255 _)).
  bitwise. rewrite testbit_wrap, Z.lxor_spec by lia. change 255 with (Z.ones 8).
  destruct (Z.ltb_spec i0 16); simpl.
  - f_equal. rewrite !Z.shiftl_spec by done. destruct (Z.lt_ge_cases i0 8); [by rewrite !(Z.testbit_neg_r _ (i0 - 8)) by lia|].
    rewrite Z.land_spec, Z.ones_spec_low by lia. by rewrite andb_true_r.
  - rewrite (proj1 (Z.bounded_iff_bits_nonneg 16 (cavan_crc16_table)⟦i⟧ ltac:(lia) ltac:(apply Ht)) ltac:(apply Ht)) by lia.
    rewrite Z.shiftl_spec, Z.land_spec, Z.ones_spec_high by lia. by rewrite andb_false_r.
Qed.

Lemma crc32_round_byte x b : crc32_round x b = crc32_byte x b.
Proof.
  unfold crc32_round, crc32_byte. set (y := Z.lxor x (u8 b)).
  assert (Z.land (Z.lxor x b) 255 = Z.land y 255) as ->.
  { unfold y. rewrite u8_land, !land_lxor. f_equal. rewrite <-Z.land_assoc. done. }
  assert (Z.shiftr y 8 = Z.shiftr x 8) as Hs.
  { unfold y. rewrite Z.shiftr_lxor. rewrite (Z.shiftr_div_pow2 (u8 b)) by lia.
    rewrite Z.div_small; [apply Z.lxor_0_r|]. apply wrap_range. lia. }
  rewrite (split_byte y) at 2. rewrite iter_linear by apply crc32_bit_linear.
  rewrite Hs, crc32_high.
  destruct (crc32_table_low (Z.land y 255) (land_255 _)) as [-> _]. apply Z.lxor_comm.
Qed.

(** *** The registers stay in range and lose nothing *)

Lemma crc16_bit_range x : 0 ≤ crc16_bit x < 2 ^ 16.
Proof. apply lxor_range; [lia|apply wrap_range; lia|]. unfold crc16_poly. destruct (Z.testbit x 15); lia. Qed.
Lemma crc32_bit_range x : 0 ≤ x < 2 ^ 32 → 0 ≤ crc32_bit x < 2 ^ 32.
Proof.
  intros Hx. apply lxor_range; [lia| |unfold crc32_poly; destruct (Z.testbit x 0); lia].
  rewrite Z.shiftr_div_pow2 by lia. change (2 ^ 32) with 4294967296 in *. change (2 ^ 1) with 2. dlia.
Qed.

Lemma iter_range (f : Z → Z) w n x :
  (∀ x, 0 ≤ x < 2 ^ w → 0 ≤ f x < 2 ^ w) → 0 ≤ x < 2 ^ w → 0 ≤ Nat.iter n f x < 2 ^ w.
Proof. intros Hf Hx. induction n as [|n IH]; simpl; auto. Qed.

Lemma foldl_range (f : Z → Z → Z) w l x :
  (∀ x b, 0 ≤ x < 2 ^ w → 0 ≤ f x b < 2 ^ w) → 0 ≤ x < 2 ^ w → 0 ≤ foldl f x l < 2 ^ w.
Proof. intros Hf. revert x. induction l as [|b l IH]; intros x Hx; simpl; auto. Qed.

Lemma crc16_byte_range x b : 0 ≤ crc16_byte x b < 2 ^ 16.
Proof. apply crc16_bit_range. Qed.
Lemma crc32_byte_range x b : 0 ≤ x < 2 ^ 32 → 0 ≤ crc32_byte x b < 2 ^ 32.
Proof.
  intros Hx. apply iter_range; [apply crc32_bit_range|]. apply lxor_range; [lia|done|].
  pose proof (wrap_range 8 b). change (2 ^ 8) with 256 in *. lia.
Qed.

Lemma crc16_bit_zero x : 0 ≤ x < 2 ^ 16 → crc16_bit x = 0 → x = 0.
Proof.
  intros Hx. unfold crc16_bit. destruct (Z.testbit x 15) eqn:E; intros H0%Z.lxor_eq.
  - exfalso. apply (f_equal (λ z, Z.testbit z 0)) in H0. rewrite testbit_wrap, Z.testbit_even_0 in H0 by lia. done.
  - unfold wrap in H0. destruct (Z.lt_ge_cases x (2 ^ 15)) as [Hs|Hs].
    + rewrite Z.mod_small in H0 by lia. lia.
    + pose proof (Z.bit_log2 x ltac:(lia)) as Hb.
      rewrite (Z.log2_unique x 15 ltac:(lia) ltac:(change (Z.succ 15) with 16; lia)), E in Hb. done.
Qed.
Lemma crc32_bit_zero x : 0 ≤ x < 2 ^ 32 → crc32_bit x = 0 → x = 0.
Proof.
  intros Hx. unfold crc32_bit. destruct (Z.testbit x 0) eqn:E; intros H0%Z.lxor_eq.
  - exfalso. apply (f_equal (λ z, Z.testbit z 31)) in H0. rewrite Z.shiftr_spec in H0 by lia.
    rewrite (proj1 (Z.bounded_iff_bits_nonneg 32 x ltac:(lia) ltac:(lia)) ltac:(lia)) in H0 by lia. done.
  - rewrite Z.bit0_odd in E. rewrite Z.shiftr_div_pow2 in H0 by lia.
    rewrite <-Z.negb_even, negb_false_iff, Z.even_spec in E. destruct E as [k ->].
    change (2 ^ 1) with 2 in H0. rewrite Z.mul_comm, Z.div_mul in H0 by lia. lia.
Qed.

(** A register step that is linear with a trivial kernel is injective, and so
    are its iterates. *)
Lemma iter_injective (f : Z → Z) w n x y :
  0 ≤ w → (∀ x y, f (Z.lxor x y) = Z.lxor (f x) (f y)) →
  (∀ x, 0 ≤ x < 2 ^ w → 0 ≤ f x < 2 ^ w) → (∀ x, 0 ≤ x < 2 ^ w → f x = 0 → x = 0) →
  0 ≤ x < 2 ^ w → 0 ≤ y < 2 ^ w → Nat.iter n f x = Nat.iter n f y → x = y.
Proof.
  intros Hw Hl Hr Hz Hx Hy He. apply Z.lxor_eq.
  assert (0 ≤ Z.lxor x y < 2 ^ w) as Hxy by by apply lxor_range.
  assert (Nat.iter n f (Z.lxor x y) = 0) as H0 by (rewrite iter_linear, He by done; apply Z.lxor_nilpotent).
  clear He. induction n as [|n IH]; simpl in H0; [done|].
  apply IH, Hz; [|done]. by apply iter_range.
Qed.

(** Two bytes enter the 16-bit register as sixteen steps on one word, and four
    bytes the 32-bit one as thirty-two steps. *)
Definition word16 (b0 b1 : Z) : Z := Z.lxor (Z.shiftl (u8 b0) 8) (u8 b1).
Definition word32 (b0 b1 b2 b3 : Z) : Z :=
  Z.lxor (u8 b0) (Z.lxor (Z.shiftl (u8 b1) 8) (Z.lxor (Z.shiftl (u8 b2) 16) (Z.shiftl (u8 b3) 24))).

Lemma iter_add {A} (f : A → A) n m x : Nat.iter n f (Nat.iter m f x) = Nat.iter (n + m) f x.
Proof. induction n as [|n IH]; simpl; [done|]. by rewrite IH. Qed.

Lemma u8_range b : 0 ≤ u8 b < 256.
Proof. apply (wrap_range 8). lia. Qed.

Lemma crc16_two_bytes x b0 b1 :
  foldl crc16_byte x [b0; b1] = Nat.iter 16 crc16_bit (Z.lxor x (word16 b0 b1)).
Proof.
  change (foldl crc16_byte x [b0; b1]) with (crc16_byte (crc16_byte x b0) b1). unfold crc16_byte, word16. rewrite <-(crc16_low (u8 b1) (u8_range b1)).
  rewrite <-iter_linear by apply crc16_bit_linear. rewrite iter_add. by rewrite Z.lxor_assoc.
Qed.

Lemma crc32_feed n y b :
  crc32_byte (Nat.iter n crc32_bit y) b = Nat.iter (8 + n) crc32_bit (Z.lxor y (Z.shiftl (u8 b) (Z.of_nat n))).
Proof.
  unfold crc32_byte. rewrite <-(crc32_shift n (u8 b)) at 1.
  rewrite <-iter_linear by apply crc32_bit_linear. apply iter_add.
Qed.
Lemma crc32_four_bytes x b0 b1 b2 b3 :
  foldl crc32_byte x [b0; b1; b2; b3] = Nat.iter 32 crc32_bit (Z.lxor x (word32 b0 b1 b2 b3)).
Proof.
  change (foldl crc32_byte x [b0; b1; b2; b3]) with
    (crc32_byte (crc32_byte (crc32_byte (crc32_byte x b0) b1) b2) b3).
  change (crc32_byte x b0) with (Nat.iter 8 crc32_bit (Z.lxor x (u8 b0))). rewrite !crc32_feed.
  f_equal. unfold word32. by rewrite !Z.lxor_assoc.
Qed.

Lemma shiftl_u8_bits b k i :
  0 ≤ k → 0 ≤ i → Z.testbit (Z.shiftl (u8 b) k) i = (k <=? i) && (i <? k + 8) && Z.testbit b (i - k).
Proof.
  intros Hk Hi. rewrite Z.shiftl_spec by done. destruct (Z.leb_spec k i); simpl.
  - rewrite testbit_wrap by lia. f_equal. destruct (Z.ltb_spec (i - k) 8), (Z.ltb_spec i (k + 8)); lia || done.
  - by rewrite Z.testbit_neg_r by lia.
Qed.

Lemma byte_shift_0 b : u8 b = Z.shiftl (u8 b) 0.
Proof. by rewrite Z.shiftl_0_r. Qed.
(** Read the byte at bit [k] of two equal words. *)
Ltac byte_at k E :=
  let i := fresh "i" in
  apply Z.bits_inj'; intros i ?; apply (f_equal (λ z, Z.testbit z (i + k))) in E; revert E;
  rewrite !testbit_wrap by lia; destruct (Z.ltb_spec i 8); [|done];
  rewrite ?Z.lxor_spec, ?shiftl_u8_bits by lia;
  repeat match goal with
  | |- context [?a <=? ?b] => destruct (Z.leb_spec a b); try lia
  | |- context [?a <? ?b] => destruct (Z.ltb_spec a b); try lia
  end;
  simpl; rewrite ?xorb_false_r, ?xorb_false_l; rewrite ?Z.sub_0_r, ?Z.add_0_r, ?Z.add_simpl_r; done.

Lemma word16_inj b0 b1 c0 c1 : word16 b0 b1 = word16 c0 c1 → u8 b0 = u8 c0 ∧ u8 b1 = u8 c1.
Proof.
  unfold word16. intros E. rewrite (byte_shift_0 b1), (byte_shift_0 c1) in E. split; [byte_at 8 E|byte_at 0 E].
Qed.
Lemma word32_inj b0 b1 b2 b3 c0 c1 c2 c3 :
  word32 b0 b1 b2 b3 = word32 c0 c1 c2 c3 → u8 b0 = u8 c0 ∧ u8 b1 = u8 c1 ∧ u8 b2 = u8 c2 ∧ u8 b3 = u8 c3.
Proof.
  unfold word32. intros E. rewrite (byte_shift_0 b0), (byte_shift_0 c0) in E.
  split_and!; [byte_at 0 E|byte_at 8 E|byte_at 16 E|byte_at 24 E].
Qed.

Lemma word16_range b0 b1 : 0 ≤ word16 b0 b1 < 2 ^ 16.
Proof.
  pose proof (u8_range b0). pose proof (u8_range b1). unfold word16. apply lxor_range; [lia| |lia].
  rewrite Z.shiftl_mul_pow2 by lia. lia.
Qed.
Lemma word32_range b0 b1 b2 b3 : 0 ≤ word32 b0 b1 b2 b3 < 2 ^ 32.
Proof.
  pose proof (u8_range b0). pose proof (u8_range b1). pose proof (u8_range b2). pose proof (u8_range b3).
  unfold word32. repeat (apply lxor_range; [lia| |]); rewrite ?Z.shiftl_mul_pow2 by lia; lia.
Qed.

Lemma lxor_cancel_l x y z : Z.lxor x y = Z.lxor x z → y = z.
Proof.
  intros E. apply (f_equal (Z.lxor x)) in E. by rewrite <-!Z.lxor_assoc, Z.lxor_nilpotent, !Z.lxor_0_l in E.
Qed.

Lemma crc16_word_inj x b0 b1 c0 c1 :
  0 ≤ x < 2 ^ 16 → foldl crc16_byte x [b0; b1] = foldl crc16_byte x [c0; c1] → u8 b0 = u8 c0 ∧ u8 b1 = u8 c1.
Proof.
  intros Hx E. rewrite !crc16_two_bytes in E. apply word16_inj, (lxor_cancel_l x).
  eapply (iter_injective crc16_bit 16 16); [lia|apply crc16_bit_linear|intros; apply crc16_bit_range|
    apply crc16_bit_zero| | |exact E]; (apply lxor_range; [lia|done|apply word16_range]).
Qed.
Lemma crc32_word_inj x b0 b1 b2 b3 c0 c1 c2 c3 :
  0 ≤ x < 2 ^ 32 → foldl crc32_byte x [b0; b1; b2; b3] = foldl crc32_byte x [c0; c1; c2; c3] →
  u8 b0 = u8 c0 ∧ u8 b1 = u8 c1 ∧ u8 b2 = u8 c2 ∧ u8 b3 = u8 c3.
Proof.
  intros Hx E. rewrite !crc32_four_bytes in E. apply word32_inj, (lxor_cancel_l x).
  eapply (iter_injective crc32_bit 32 32); [lia|apply crc32_bit_linear|apply crc32_bit_range|
    apply crc32_bit_zero| | |exact E]; (apply lxor_range; [lia|done|apply word32_range]).
Qed.

(** A later byte never hides a difference between two registers. *)
Lemma foldl_inj (f : Z → Z → Z) w l x y :
  (∀ x b, 0 ≤ x < 2 ^ w → 0 ≤ f x b < 2 ^ w) →
  (∀ x y b, 0 ≤ x < 2 ^ w → 0 ≤ y < 2 ^ w → f x b = f y b → x = y) →
  0 ≤ x < 2 ^ w → 0 ≤ y < 2 ^ w → foldl f x l = foldl f y l → x = y.
Proof. intros Hr Hf. revert x y. induction l as [|b l IH]; intros x y Hx Hy E; [done|]. simpl in E. eauto 10. Qed.

Lemma lxor_cancel_r x y z : Z.lxor x z = Z.lxor y z → x = y.
Proof. rewrite !(Z.lxor_comm _ z). apply lxor_cancel_l. Qed.
Lemma crc16_byte_inj x y b : 0 ≤ x < 2 ^ 16 → 0 ≤ y < 2 ^ 16 → crc16_byte x b = crc16_byte y b → x = y.
Proof.
  intros Hx Hy E. pose proof (word16_range b 0) as Hw. unfold word16 in Hw. change (u8 0) with 0 in Hw. rewrite Z.lxor_0_r in Hw.
  apply (lxor_cancel_r _ _ (Z.shiftl (u8 b) 8)).
  exact (iter_injective crc16_bit 16 8 _ _ ltac:(lia) crc16_bit_linear (λ z _, crc16_bit_range z) crc16_bit_zero
    (lxor_range 16 _ _ ltac:(lia) Hx Hw) (lxor_range 16 _ _ ltac:(lia) Hy Hw) E).
Qed.
Lemma crc32_byte_inj x y b : 0 ≤ x < 2 ^ 32 → 0 ≤ y < 2 ^ 32 → crc32_byte x b = crc32_byte y b → x = y.
Proof.
  intros Hx Hy E. assert (0 ≤ u8 b < 2 ^ 32) as Hb by (pose proof (u8_range b); lia).
  apply (lxor_cancel_r _ _ (u8 b)).
  exact (iter_injective crc32_bit 32 8 _ _ ltac:(lia) crc32_bit_linear crc32_bit_range crc32_bit_zero
    (lxor_range 32 _ _ ltac:(lia) Hx Hb) (lxor_range 32 _ _ ltac:(lia) Hy Hb) E).
Qed.

(** ** The functions of the program *)

Lemma Ok_inj {A} (a b : A) : Ok a = Ok b → a = b.
Proof. by intros [= ->]. Qed.

Lemma crc16_round_range x b : 0 ≤ x < 2 ^ 16 → 0 ≤ crc16_round x b < 2 ^ 16.
Proof. intros Hx. rewrite crc16_round_byte by done. apply crc16_byte_range. Qed.

Lemma foldl_crc16_round l x : 0 ≤ x < 2 ^ 16 → foldl crc16_round x l = foldl crc16_byte x l.
Proof.
  revert x. induction l as [|b l IH]; intros x Hx; [done|]. simpl.
  rewrite crc16_round_byte by done. apply IH, crc16_byte_range.
Qed.
Lemma foldl_crc32_round l x : foldl crc32_round x l = foldl crc32_byte x l.
Proof. revert x. induction l as [|b l IH]; intros x; [done|]. simpl. by rewrite crc32_round_byte. Qed.

Lemma each_all {St} (f : St → Z → St) (m : list Z) (s : St) : each f m 0 (zlen m) s = Ok (foldl f s m).
Proof.
  unfold zlen. rewrite (each_ok f m (length m) 0 s) by (unfold zlen; lia). unfold slice.
  rewrite Nat2Z.id, drop_0, firstn_all. done.
Qed.
Lemma cavan_crc16_eq x m :
  0 ≤ x < 2 ^ 16 → cavan_crc16 x m (zlen m) = Ok (foldl crc16_byte x m).
Proof. intros Hx. unfold cavan_crc16. by rewrite each_all, foldl_crc16_round. Qed.
Lemma cavan_crc32_eq x m :
  cavan_crc32 x m (zlen m) = Ok (Z.lxor (foldl crc32_byte (Z.lxor x 0xFFFFFFFF) m) 0xFFFFFFFF).
Proof. unfold cavan_crc32. rewrite each_all. cbn [mbind cres_bind mret cres_ret]. by rewrite foldl_crc32_round. Qed.

(** C37: [cavan_crc16] and [cavan_crc32] compute the CRC-16/CCITT and the CRC-32
    of their message: they read exactly the message, never leave the table, and
    return what the bit-serial shift register of the polynomial holds; and the
    sum of a message is the sum of its second part started from the sum of its
    first, which is how the callers checksum a file block by block. *)
Theorem cavan_crc_is_the_shift_register (x : Z) (m1 m2 : list Z) :
  0 ≤ x < 2 ^ 16 →
  cavan_crc16 x (m1 ++ m2) (zlen (m1 ++ m2)) = Ok (foldl crc16_byte x (m1 ++ m2)) ∧
  cavan_crc32 x (m1 ++ m2) (zlen (m1 ++ m2)) =
    Ok (Z.lxor (foldl crc32_byte (Z.lxor x 0xFFFFFFFF) (m1 ++ m2)) 0xFFFFFFFF) ∧
  (cavan_crc16 x m1 (zlen m1) ≫= λ c, cavan_crc16 c m2 (zlen m2)) = cavan_crc16 x (m1 ++ m2) (zlen (m1 ++ m2)) ∧
  (cavan_crc32 x m1 (zlen m1) ≫= λ c, cavan_crc32 c m2 (zlen m2)) = cavan_crc32 x (m1 ++ m2) (zlen (m1 ++ m2)).
Proof.
  intros Hx. split_and!; [by apply cavan_crc16_eq|apply cavan_crc32_eq| |].
  - rewrite !cavan_crc16_eq by done. cbn [mbind cres_bind]. rewrite cavan_crc16_eq, foldl_app; [done|].
    apply foldl_range; [intros; apply crc16_byte_range|done].
  - rewrite !cavan_crc32_eq. cbn [mbind cres_bind]. rewrite cavan_crc32_eq.
    by rewrite Z.lxor_assoc, Z.lxor_nilpotent, Z.lxor_0_r, foldl_app.
Qed.

Lemma cavan_crc_is_the_shift_register_witness :
  cavan_crc32 0 [49; 50; 51; 52; 53; 54; 55; 56; 57] 9 = Ok 0xCBF43926 ∧
  cavan_crc16 0 [49; 50; 51; 52; 53; 54; 55; 56; 57] 9 = Ok 0x31C3 ∧
  0 ≤ 0 < 2 ^ 16 ∧
  (cavan_crc32 0 [49; 50; 51; 52] 4 ≫= λ c, cavan_crc32 c [53; 54; 55; 56; 57] 5) = 
  cavan_crc32 0 [49; 50; 51; 52; 53; 54; 55; 56; 57] 9.
Proof.
  split_and!; [vm_compute; done|vm_compute; done|lia|lia|].
  apply (cavan_crc_is_the_shift_register 0 [49; 50; 51; 52] [53; 54; 55; 56; 57]). lia.
Defined.

(** C38: the checksums detect every burst of errors as long as themselves: two
    messages that differ only inside a window of two bytes have different
    [cavan_crc16], and two that differ only inside a window of four bytes have
    different [cavan_crc32]. *)
Theorem cavan_crc_detects_bursts (x b0 b1 b2 b3 c0 c1 c2 c3 : Z) (p q : list Z) :
  0 ≤ x < 2 ^ 16 →
  ((u8 b0, u8 b1) ≠ (u8 c0, u8 c1) →
   cavan_crc16 x (p ++ [b0; b1] ++ q) (zlen p + 2 + zlen q) ≠ cavan_crc16 x (p ++ [c0; c1] ++ q) (zlen p + 2 + zlen q)) ∧
  ((u8 b0, u8 b1, u8 b2, u8 b3) ≠ (u8 c0, u8 c1, u8 c2, u8 c3) →
   cavan_crc32 x (p ++ [b0; b1; b2; b3] ++ q) (zlen p + 4 + zlen q) ≠
   cavan_crc32 x (p ++ [c0; c1; c2; c3] ++ q) (zlen p + 4 + zlen q)).
Proof.
  intros Hx. split; intros Hne E; apply Hne; clear Hne.
  - assert (∀ d0 d1, zlen p + 2 + zlen q = zlen (p ++ [d0; d1] ++ q)) as Hl by (intros; rewrite !zlen_app; unfold zlen; simpl; lia).
    rewrite (Hl b0 b1) in E at 1. rewrite (Hl c0 c1), !cavan_crc16_eq, !foldl_app in E by done. apply Ok_inj in E.
    assert (∀ l y, 0 ≤ y < 2 ^ 16 → 0 ≤ foldl crc16_byte y l < 2 ^ 16) as Hr16 by (intros; by apply foldl_range; [intros; apply crc16_byte_range|]).
    pose proof (Hr16 p x Hx) as Hp.
    apply (foldl_inj crc16_byte 16) in E; [|intros; apply crc16_byte_range|exact crc16_byte_inj|apply Hr16, Hp..].
    apply crc16_word_inj in E as [-> ->]; done.
  - assert (∀ d0 d1 d2 d3, zlen p + 4 + zlen q = zlen (p ++ [d0; d1; d2; d3] ++ q)) as Hl by (intros; rewrite !zlen_app; unfold zlen; simpl; lia).
    rewrite (Hl b0 b1 b2 b3) in E at 1. rewrite (Hl c0 c1 c2 c3), !cavan_crc32_eq, !foldl_app in E. apply Ok_inj in E.
    rewrite !(Z.lxor_comm _ 0xFFFFFFFF) in E. apply lxor_cancel_l in E.
    assert (∀ l y, 0 ≤ y < 2 ^ 32 → 0 ≤ foldl crc32_byte y l < 2 ^ 32) as Hr by (intros; by apply foldl_range; [apply crc32_byte_range|]).
    assert (0 ≤ Z.lxor 0xFFFFFFFF x < 2 ^ 32) as Hi by (apply lxor_range; lia).
    apply (foldl_inj crc32_byte 32) in E; [|exact crc32_byte_range|exact crc32_byte_inj|by apply Hr, Hr..].
    apply crc32_word_inj in E as (-> & -> & -> & ->); [done|by apply Hr].
Qed.

Lemma cavan_crc_detects_bursts_witness :
  0 ≤ 0 < 2 ^ 16 ∧ (u8 1, u8 2) ≠ (u8 1, u8 3) ∧ cavan_crc16 0 [7; 1; 2; 9] 4 ≠ cavan_crc16 0 [7; 1; 3; 9] 4.
Proof.
  split_and!; [lia|lia|vm_compute; congruence|].
  refine (proj1 (cavan_crc_detects_bursts 0 1 2 0 0 1 3 0 0 [7] [9] ltac:(lia)) _). vm_compute. congruence.
Defined.
