(* ===== verification/Memory.v ===== *)
(** Memory: the byte store of the C program and the block operations of
    src/lib/memory.c.

    Addresses are integers, the store maps the addresses inside live objects to
    bytes, and every access outside is undefined.  A pointer to a wider type
    reads and writes its bytes least significant first. *)
From S2P Require Import Prelude.

Abbreviation mem := (gmap Z Z).

Definition rd (p : Z) : prog mem Z := λ s,
  match s !! p with Some b => Ok (b, s) | None => Undef end.
Definition wr (p v : Z) : prog mem unit := λ s,
  match s !! p with Some _ => Ok (tt, <[p := u8 v]> s) | None => Undef end.

(** Accesses of [n] bytes. *)
Fixpoint rdw (n : nat) (p : Z) : prog mem Z :=
  match n with
  | O => mret 0
  | S n => b ← rd p; v ← rdw n (p + 1); mret (b + 256 * v)
  end.
Fixpoint wrw (n : nat) (p v : Z) : prog mem unit :=
  match n with
  | O => mret tt
  | S n => wr p v;; wrw n (p + 1) (v / 256)
  end.

(** The store with a new block at [p] that holds what [v] says. *)
Definition place (s : mem) (p size : Z) (v : Z → Z) : mem :=
  foldr (λ i m, <[p + Z.of_nat i := u8 (v (p + Z.of_nat i))]> m) s (seq 0 (Z.to_nat size)).

(** ** Reasoning *)

Lemma wpp_rd p s (Q : Z → mem → Prop) b : s !! p = Some b → Q b s → wpp (rd p) s Q.
Proof. intros Hb HQ. unfold wpp, rd. by rewrite Hb. Qed.
Lemma wpp_wr p v s (Q : unit → mem → Prop) :
  is_Some (s !! p) → Q tt (<[p := u8 v]> s) → wpp (wr p v) s Q.
Proof. intros [b Hb] HQ. unfold wpp, wr. by rewrite Hb. Qed.

(** Objects. *)
Definition live (s : mem) (p n : Z) : Prop := ∀ a, p ≤ a < p + n → is_Some (s !! a).
Definition byte_ok (b : Z) : Prop := 0 ≤ b < 256.
(** Every cell holds a byte. *)
Definition wf (s : mem) : Prop := ∀ a b, s !! a = Some b → byte_ok b.

Lemma u8_byte v : byte_ok (u8 v).
Proof. apply (wrap_range 8). lia. Qed.
Lemma u8_id b : byte_ok b → u8 b = b.
Proof. intros Hb. apply wrap_small. exact Hb. Qed.
Lemma wf_insert s a v : wf s → wf (<[a := u8 v]> s).
Proof. intros Hs b c. rewrite lookup_insert. case_decide; [intros [= <-]; apply u8_byte|apply Hs]. Qed.
Lemma live_le s p n q m : live s p n → p ≤ q → q + m ≤ p + n → live s q m.
Proof. intros Hl ?? a Ha. apply Hl. lia. Qed.
Lemma live_lookup s p n a : live s p n → p ≤ a < p + n → ∃ b, s !! a = Some b.
Proof. intros Hl Ha. apply Hl, Ha. Qed.

(** The number whose [n] bytes, least significant first, are at [p]. *)
Fixpoint num (s : mem) (p : Z) (n : nat) : Z :=
  match n with O => 0 | S n => s !!! p + 256 * num s (p + 1) n end.

Lemma lookup_live s p n a : live s p n → p ≤ a < p + n → s !! a = Some (s !!! a).
Proof. intros Hl Ha. destruct (Hl a Ha) as [b Hb]. by rewrite lookup_total_alt, Hb. Qed.
Lemma wf_total s a : wf s → byte_ok (s !!! a).
Proof.
  intros Hs. rewrite lookup_total_alt. destruct (s !! a) as [b|] eqn:E; simpl; [by apply (Hs a)|].
  unfold byte_ok. change (@inhabitant Z _) with 0. lia.
Qed.
Lemma num_range s p n : wf s → 0 ≤ num s p n < 256 ^ Z.of_nat n.
Proof.
  intros Hs. revert p. induction n as [|n IH]; intros p; [simpl; lia|]. cbn [num].
  rewrite Nat2Z.inj_succ, Z.pow_succ_r by lia. pose proof (wf_total s p Hs) as Hb. specialize (IH (p + 1)).
  unfold byte_ok in Hb. lia.
Qed.
Lemma num_ext s s' p n : (∀ a, p ≤ a < p + Z.of_nat n → s !!! a = s' !!! a) → num s p n = num s' p n.
Proof.
  revert p. induction n as [|n IH]; intros p H; [done|]. cbn [num].
  rewrite (H p), (IH (p + 1)); [done|intros a Ha; apply H; lia|lia].
Qed.
Lemma num_shift s s' p q n :
  (∀ i, 0 ≤ i < Z.of_nat n → s !!! (p + i) = s' !!! (q + i)) → num s p n = num s' q n.
Proof.
  revert p q. induction n as [|n IH]; intros p q H; [done|]. cbn [num].
  pose proof (H 0 ltac:(lia)) as H0. rewrite !Z.add_0_r in H0. rewrite H0, (IH (p + 1) (q + 1)); [done|].
  intros i Hi. replace (p + 1 + i) with (p + (i + 1)) by lia. replace (q + 1 + i) with (q + (i + 1)) by lia. apply H. lia.
Qed.
Lemma num_app s p n m : num s p (n + m) = num s p n + 256 ^ Z.of_nat n * num s (p + Z.of_nat n) m.
Proof.
  revert p. induction n as [|n IH]; intros p; [simpl; rewrite Z.add_0_r; lia|]. cbn [num Nat.add].
  rewrite IH. rewrite Nat2Z.inj_succ, Z.pow_succ_r by lia. replace (p + 1 + Z.of_nat n) with (p + Z.succ (Z.of_nat n)) by lia. lia.
Qed.
Lemma num_byte s p n i :
  wf s → 0 ≤ i < Z.of_nat n → u8 (num s p n / 256 ^ i) = s !!! (p + i).
Proof.
  intros Hs. revert p i. induction n as [|n IH]; intros p i Hi; [lia|]. cbn [num].
  pose proof (wf_total s p Hs) as Hb. unfold byte_ok in Hb. destruct (decide (i = 0)) as [->|].
  - rewrite Z.add_0_r, Z.div_1_r. unfold wrap. change (2 ^ 8) with 256.
    rewrite (Z.mul_comm 256), Z.mod_add, Z.mod_small by lia. done.
  - replace i with (Z.succ (i - 1)) at 1 by lia. rewrite Z.pow_succ_r by lia.
    rewrite <-Z.div_div by lia. rewrite (Z.mul_comm 256 (num _ _ _)), Z.div_add, (Z.div_small (s !!! p)) by lia.
    rewrite Z.add_0_l, IH by lia. f_equal. lia.
Qed.

Lemma rdw_ok n p s : live s p (Z.of_nat n) → rdw n p s = Ok (num s p n, s).
Proof.
  revert p. induction n as [|n IH]; intros p Hl; [done|]. cbn [rdw num].
  unfold mbind, prog_bind, rd. rewrite (lookup_live s p (Z.of_nat (S n))) by (done || lia).
  rewrite IH by (eapply live_le; [exact Hl|lia..]). done.
Qed.

(** What a block operation leaves: the store with the bytes of [p, p + n)
    replaced by those of [f]. *)
Definition filled (s s' : mem) (p n : Z) (f : Z → option Z) : Prop :=
  ∀ a, s' !! a = if decide (p ≤ a < p + n) then f a else s !! a.
Definition copied (s s' : mem) (dest src n : Z) : Prop :=
  filled s s' dest n (λ a, s !! (src + (a - dest))).

Lemma wrw_ok n p v s (Q : unit → mem → Prop) :
  live s p (Z.of_nat n) →
  (∀ s', filled s s' p (Z.of_nat n) (λ a, Some (u8 (v / 256 ^ (a - p)))) → Q tt s') → wpp (wrw n p v) s Q.
Proof.
  revert p v s. induction n as [|n IH]; intros p v s Hl HQ; cbn [wrw].
  - apply wpp_ret, HQ. intros a. case_decide; [lia|done].
  - apply wpp_bind, wpp_wr; [apply Hl; lia|]. apply IH.
    { intros a Ha. rewrite lookup_insert. case_decide; [by eexists|]. apply Hl. lia. }
    intros s' Hs'. apply HQ. intros a. rewrite Hs', lookup_insert.
    repeat case_decide; try lia; try done.
    + f_equal. f_equal. rewrite Z.div_div by lia. rewrite <-Z.pow_succ_r by lia. do 2 f_equal. lia.
    + subst. rewrite Z.sub_diag, Z.div_1_r. done.
Qed.

Lemma copied_wf s s' dest src n : wf s → copied s s' dest src n → wf s'.
Proof. intros Hs Hc a b. rewrite Hc. case_decide; apply Hs. Qed.
Lemma copied_live s s' dest src n q m :
  live s src n → live s q m → copied s s' dest src n → live s' q m.
Proof. intros Hl Hq Hc a Ha. rewrite Hc. case_decide; [apply Hl; lia|by apply Hq]. Qed.

Lemma wpp_copy_word n src dest s (Q : unit → mem → Prop) :
  wf s → live s src (Z.of_nat n) → live s dest (Z.of_nat n) →
  (∀ s', copied s s' dest src (Z.of_nat n) → Q tt s') →
  wpp (v ← rdw n src; wrw n dest v) s Q.
Proof.
  intros Hs Hsrc Hdst HQ. apply wpp_bind. eapply wpp_eq; [by apply rdw_ok|]. apply wrw_ok; [done|].
  intros s' Hs'. apply HQ. intros a. rewrite Hs'. case_decide; [|done].
  rewrite num_byte by (done || lia). symmetry. apply (lookup_live s src (Z.of_nat n)); [done|lia].
Qed.

(** ** Copying *)

(** [MEM_COPY_FUNC(mem_copy, bits)] for words of [w] bytes. *)
Definition mem_copyw (w : nat) (dest src count : Z) : prog mem Z :=
  let k := Z.of_nat w in
  let src_end := src + k * count in
  '(_, dest) ← while (S (Z.to_nat count)) (λ '(src, _), src <? src_end)
    (λ '(src, dest), v ← rdw w src; wrw w dest v;; mret (src + k, dest + k)) (src, dest);
  mret dest.
Definition mem_copy_invertw (w : nat) (dest src count : Z) : prog mem Z :=
  let k := Z.of_nat w in
  '(dest, _) ← while (S (Z.to_nat count)) (λ '(_, last), src <=? last)
    (λ '(dest, last), v ← rdw w last; wrw w dest v;; mret (dest + k, last - k)) (dest, src + k * (count - 1));
  mret dest.
Definition mem_copy_decreasew (w : nat) (dest src count : Z) : prog mem Z :=
  let k := Z.of_nat w in
  let start := src - k * count in
  '(_, dest) ← while (S (Z.to_nat count)) (λ '(src, _), start <? src)
    (λ '(src, dest), v ← rdw w src; wrw w dest v;; mret (src - k, dest - k)) (src, dest);
  mret (dest + (k - 1)).

Definition ADDR_IS_ALIGN (addr bits : Z) : bool := Z.land addr (bits - 1) =? 0.
Definition ADDR_IS_LEFT_ALIGN (addr bits : Z) : bool := ADDR_IS_ALIGN (addr - (bits - 1)) bits.

Definition mem_copy (dest src size : Z) : prog mem Z :=
  if dest =? src then mret (dest + size)
  else if ADDR_IS_ALIGN src 8 && ADDR_IS_ALIGN dest 8 then
    let count := Z.shiftr size 3 in
    dest ← mem_copyw 8 dest src count;
    mem_copyw 1 dest (src + 8 * count) (Z.land size 0x07)
  else if ADDR_IS_ALIGN src 4 && ADDR_IS_ALIGN dest 4 then
    let count := Z.shiftr size 2 in
    dest ← mem_copyw 4 dest src count;
    mem_copyw 1 dest (src + 4 * count) (Z.land size 0x03)
  else if ADDR_IS_ALIGN src 2 && ADDR_IS_ALIGN dest 2 then
    let count := Z.shiftr size 1 in
    dest ← mem_copyw 2 dest src count;
    mem_copyw 1 dest (src + 2 * count) (Z.land size 0x01)
  else mem_copyw 1 dest src size.

Definition mem_copy_decrease (dest src size : Z) : prog mem Z :=
  if dest =? src then mret (dest + size)
  else if (8 <=? size) && ADDR_IS_LEFT_ALIGN src 8 && ADDR_IS_LEFT_ALIGN dest 8 then
    let count := Z.shiftr size 3 in
    dest ← mem_copy_decreasew 8 (dest - 7) (src - 7) count;
    mem_copy_decreasew 1 dest (src - Z.shiftl count 3) (Z.land size 0x07)
  else if (4 <=? size) && ADDR_IS_LEFT_ALIGN src 4 && ADDR_IS_LEFT_ALIGN dest 4 then
    let count := Z.shiftr size 2 in
    dest ← mem_copy_decreasew 4 (dest - 3) (src - 3) count;
    mem_copy_decreasew 1 dest (src - Z.shiftl count 2) (Z.land size 0x03)
  else if (2 <=? size) && ADDR_IS_LEFT_ALIGN src 2 && ADDR_IS_LEFT_ALIGN dest 2 then
    let count := Z.shiftr size 1 in
    dest ← mem_copy_decreasew 2 (dest - 1) (src - 1) count;
    mem_copy_decreasew 1 dest (src - Z.shiftl count 1) (Z.land size 0x01)
  else mem_copy_decreasew 1 dest src size.

Definition mem_move (dest src size : Z) : prog mem Z :=
  if dest <? src then mem_copy dest src size
  else
    let dest := dest + (size - 1) in
    let src := src + (size - 1) in
    mem_copy_decrease dest src size;;
    mret (dest + 1).

(** ** Filling *)

(** [MEM_SET_FUNC(mem_set, bits)]. *)
Definition mem_setw (w : nat) (p value count : Z) : prog mem unit :=
  let k := Z.of_nat w in
  let mem_end := p + k * count in
  while (S (Z.to_nat count)) (λ p, p <? mem_end) (λ p, wrw w p value;; mret (p + k)) p;;
  mret tt.

Definition mem_set (p value size : Z) : prog mem unit :=
  let tail p count := if negb (count =? 0) then mem_setw 1 p (u8 value) count else mret tt in
  if Z.land p 0x07 =? 0 then
    let value64 := u64 value in
    let value64 := Z.lor value64 (u64 (Z.shiftl value64 8)) in
    let value64 := Z.lor value64 (u64 (Z.shiftl value64 16)) in
    let value64 := Z.lor value64 (u64 (Z.shiftl value64 32)) in
    let count := Z.shiftr size 3 in
    mem_setw 8 p value64 count;;
    tail (p + Z.shiftl count 3) (Z.land size 0x07)
  else if Z.land p 0x03 =? 0 then
    let value32 := u32 value in
    let value32 := Z.lor value32 (u32 (Z.shiftl value32 8)) in
    let value32 := Z.lor value32 (u32 (Z.shiftl value32 16)) in
    let count := Z.shiftr size 2 in
    mem_setw 4 p value32 count;;
    tail (p + Z.shiftl count 2) (Z.land size 0x03)
  else if Z.land p 0x01 =? 0 then
    let value16 := u16 value in
    let value16 := Z.lor value16 (u16 (Z.shiftl value16 8)) in
    let count := Z.shiftr size 1 in
    mem_setw 2 p value16 count;;
    tail (p + Z.shiftl count 1) (Z.land size 0x01)
  else tail p size.

(** ** The block operations are correct *)

(** Copying upwards is right when the destination does not start inside the
    source, copying downwards when it does not end inside it. *)
Definition up_ok (dest src n : Z) : Prop := dest ≤ src ∨ src + n ≤ dest.
Definition down_ok (dest src n : Z) : Prop := src ≤ dest ∨ dest + n ≤ src.

Lemma copied_nil s dest src : copied s s dest src 0.
Proof. intros a. case_decide; [lia|done]. Qed.
Lemma copied_up s s1 s2 d p n m :
  0 ≤ n → 0 ≤ m → up_ok d p (n + m) →
  copied s s1 d p n → copied s1 s2 (d + n) (p + n) m → copied s s2 d p (n + m).
Proof.
  intros Hn Hm Ho H1 H2 a. rewrite H2, !H1. unfold up_ok in Ho. repeat case_decide; try lia; try done.
  f_equal. lia.
Qed.
Lemma copied_down s s1 s2 d p n m :
  0 ≤ n → 0 ≤ m → down_ok d p (n + m) →
  copied s s1 (d + n) (p + n) m → copied s1 s2 d p n → copied s s2 d p (n + m).
Proof.
  intros Hn Hm Ho H1 H2 a. rewrite H2, !H1. unfold down_ok in Ho. repeat case_decide; try lia; try done.
  f_equal. lia.
Qed.

Lemma copied_cast s s' d p n d' p' n' : copied s s' d p n → d = d' → p = p' → n = n' → copied s s' d' p' n'.
Proof. by intros H -> -> ->. Qed.

Lemma mem_copyw_ok w dest src count s (Q : Z → mem → Prop) :
  let n := Z.of_nat w * count in
  (0 < w)%nat → 0 ≤ count → wf s → live s src n → live s dest n → up_ok dest src n →
  (∀ s', copied s s' dest src n → Q (dest + n) s') → wpp (mem_copyw w dest src count) s Q.
Proof.
  intros n Hw Hc Hs Hsrc Hdst Ho HQ. unfold mem_copyw. apply wpp_bind.
  apply (wpp_count (λ j x s', x = (src + Z.of_nat w * j, dest + Z.of_nat w * j) ∧ copied s s' dest src (Z.of_nat w * j)) count).
  - intros j x s1 Hj [-> H1]. assert (Z.of_nat w * (j + 1) ≤ n) by (unfold n; nia). split; [apply Z.ltb_lt; nia|].
    apply wpp_bind. eapply wpp_eq.
    { apply rdw_ok. eapply copied_live; [| |exact H1]; eapply live_le; [exact Hsrc|lia|lia|exact Hsrc|lia|lia]. }
    apply wpp_bind. apply wrw_ok.
    { eapply copied_live; [| |exact H1]; eapply live_le; [exact Hsrc|lia|lia|exact Hdst|lia|lia]. }
    intros s2 H2. apply wpp_ret. split; [f_equal; lia|].
    eapply copied_cast; [apply (copied_up s s1 s2 dest src (Z.of_nat w * j) (Z.of_nat w))|..]; [nia|nia| |exact H1| |lia..].
    { unfold up_ok in *. nia. }
    intros a. rewrite H2. case_decide; [|done].
    rewrite num_byte by (eauto using copied_wf || lia). symmetry. apply (lookup_live s1 (src + Z.of_nat w * j) (Z.of_nat w)); [|lia].
    eapply copied_live; [| |exact H1]; eapply live_le; [exact Hsrc|lia|lia|exact Hsrc|lia|lia].
  - intros x s' [-> H']. split; [apply Z.ltb_ge; lia|]. apply wpp_ret. by apply HQ.
  - rewrite !Z.mul_0_r, !Z.add_0_r. split; [done|apply copied_nil].
  - done.
  - lia.
Qed.

(** [dest] and [src] are the first bytes of the last words. *)
Lemma mem_copy_decreasew_ok w dest src count s (Q : Z → mem → Prop) :
  let k := Z.of_nat w in let n := k * count in
  let d := dest + k - n in let p := src + k - n in
  (0 < w)%nat → 0 ≤ count → wf s → live s p n → live s d n → down_ok d p n →
  (∀ s', copied s s' d p n → Q (d - 1) s') → wpp (mem_copy_decreasew w dest src count) s Q.
Proof.
  intros k n d p Hw Hc Hs Hsrc Hdst Ho HQ. unfold mem_copy_decreasew. apply wpp_bind.
  apply (wpp_count (λ j x s', x = (src - k * j, dest - k * j) ∧ copied s s' (d + (n - k * j)) (p + (n - k * j)) (k * j)) count).
  - intros j x s1 Hj [-> H1]. assert (k * (j + 1) ≤ n) by (unfold n; nia). split; [apply Z.ltb_lt; nia|].
    assert (0 ≤ k * j) as Hkj by nia. assert (0 < k) as Hk by lia.
    assert (∀ q, live s q k → live s1 q k) as Hlive.
    { intros q Hq. eapply copied_live; [|exact Hq|exact H1]. eapply live_le; [exact Hsrc|lia..]. }
    assert (live s1 (src - k * j) k) as L1 by (apply Hlive; eapply live_le; [exact Hsrc|lia..]).
    assert (live s1 (dest - k * j) k) as L2 by (apply Hlive; eapply live_le; [exact Hdst|lia..]).
    apply wpp_bind. eapply wpp_eq; [by apply rdw_ok|]. apply wpp_bind. apply wrw_ok; [done|].
    intros s2 H2. apply wpp_ret. split; [f_equal; lia|].
    eapply copied_cast; [apply (copied_down s s1 s2 (dest - k * j) (src - k * j) k (k * j))|..]; [lia|lia| | | |lia..].
    + unfold down_ok in *. lia.
    + eapply copied_cast; [exact H1|lia..].
    + intros a. rewrite H2. case_decide; [|by rewrite decide_False by lia]. rewrite decide_True by lia.
      rewrite num_byte by (eauto using copied_wf || lia). symmetry. apply (lookup_live s1 (src - k * j) k); [done|lia].
  - intros x s' [-> H']. split; [apply Z.ltb_ge; lia|]. apply wpp_ret.
    replace (dest - k * count + (Z.of_nat w - 1)) with (d - 1) by lia. apply HQ.
    eapply copied_cast; [exact H'|lia..].
  - rewrite !Z.mul_0_r, !Z.sub_0_r. split; [done|apply copied_nil].
  - done.
  - lia.
Qed.

Lemma shiftr_land n i : 0 ≤ i → 0 ≤ n → 2 ^ i * Z.shiftr n i + Z.land n (2 ^ i - 1) = n ∧ 0 ≤ Z.shiftr n i ∧ 0 ≤ Z.land n (2 ^ i - 1).
Proof.
  intros Hi Hn. rewrite Z.shiftr_div_pow2 by done.
  replace (2 ^ i - 1) with (Z.pred (2 ^ i)) by lia.
  rewrite <-Z.ones_equiv, Z.land_ones by done. pose proof (Z.div_mod n (2 ^ i)). pose proof (Z.pow_pos_nonneg 2 i).
  pose proof (Z.div_pos n (2 ^ i)). pose proof (Z.mod_pos_bound n (2 ^ i)). lia.
Qed.

Lemma copied_same s p n : copied s s p p n.
Proof. intros a. case_decide; [f_equal; lia|done]. Qed.

(** Words first, the odd bytes after them. *)
Lemma copy_words_then_bytes w i dest src size s (Q : Z → mem → Prop) :
  2 ^ i = Z.of_nat w → 0 ≤ i → 0 ≤ size → wf s → live s src size → live s dest size → up_ok dest src size →
  (∀ s', copied s s' dest src size → Q (dest + size) s') →
  wpp (d ← mem_copyw w dest src (Z.shiftr size i);
       mem_copyw 1 d (src + Z.of_nat w * Z.shiftr size i) (Z.land size (Z.of_nat w - 1))) s Q.
Proof.
  intros Hw Hi Hn Hs Hsrc Hdst Ho HQ. rewrite <-Hw.
  destruct (shiftr_land size i Hi Hn) as (Hsz & Hq & Hr). rewrite Hw in *. set (q := Z.shiftr size i) in *. set (r := Z.land size (Z.of_nat w - 1)) in *.
  assert (0 < Z.of_nat w) by (rewrite <-Hw; apply Z.pow_pos_nonneg; lia). assert (0 ≤ Z.of_nat w * q) by nia.
  apply wpp_bind. apply mem_copyw_ok; [lia|done|done|by eapply live_le; [exact Hsrc|lia..]|by eapply live_le; [exact Hdst|lia..]|unfold up_ok in *; lia|].
  intros s1 H1. assert (∀ p, live s p size → live s1 p size) as L by (intros; eapply copied_live; [|done|exact H1]; eapply live_le; [exact Hsrc|lia..]).
  apply mem_copyw_ok; [lia|done|by eapply copied_wf|eapply live_le; [apply L, Hsrc|lia..]|eapply live_le; [apply L, Hdst|lia..]|unfold up_ok in *; lia|].
  intros s2 H2. replace (dest + Z.of_nat w * q + Z.of_nat 1 * r) with (dest + size) by lia. apply HQ.
  eapply copied_cast; [apply (copied_up s s1 s2 dest src (Z.of_nat w * q) r); [lia|lia|unfold up_ok in *; lia|done|]|lia..].
  eapply copied_cast; [exact H2|lia..].
Qed.

Lemma mem_copy_ok dest src size s (Q : Z → mem → Prop) :
  0 ≤ size → wf s → live s src size → live s dest size → up_ok dest src size →
  (∀ s', copied s s' dest src size → Q (dest + size) s') → wpp (mem_copy dest src size) s Q.
Proof.
  intros Hn Hs Hsrc Hdst Ho HQ. unfold mem_copy. zcase; [subst; apply wpp_ret, HQ, copied_same|].
  destruct (ADDR_IS_ALIGN src 8 && ADDR_IS_ALIGN dest 8); [by apply (copy_words_then_bytes 8 3)|].
  destruct (ADDR_IS_ALIGN src 4 && ADDR_IS_ALIGN dest 4); [by apply (copy_words_then_bytes 4 2)|].
  destruct (ADDR_IS_ALIGN src 2 && ADDR_IS_ALIGN dest 2); [by apply (copy_words_then_bytes 2 1)|].
  apply mem_copyw_ok; [lia|done|done|by rewrite Z.mul_1_l..|].
  intros s' H'. rewrite Z.mul_1_l in *. by apply HQ.
Qed.

Lemma copy_decrease_words_then_bytes w i dest src size s (Q : Z → mem → Prop) :
  let d := dest + 1 - size in let p := src + 1 - size in
  2 ^ i = Z.of_nat w → 0 ≤ i → 0 ≤ size → wf s → live s p size → live s d size → down_ok d p size →
  (∀ s', copied s s' d p size → Q (d - 1) s') →
  wpp (d ← mem_copy_decreasew w (dest - (Z.of_nat w - 1)) (src - (Z.of_nat w - 1)) (Z.shiftr size i);
       mem_copy_decreasew 1 d (src - Z.shiftl (Z.shiftr size i) i) (Z.land size (Z.of_nat w - 1))) s Q.
Proof.
  intros d p Hw Hi Hn Hs Hsrc Hdst Ho HQ.
  destruct (shiftr_land size i Hi Hn) as (Hsz & Hq & Hr). rewrite Z.shiftl_mul_pow2 by done. rewrite Hw in *.
  set (q := Z.shiftr size i) in *. set (r := Z.land size (Z.of_nat w - 1)) in *.
  assert (0 < Z.of_nat w) by (rewrite <-Hw; apply Z.pow_pos_nonneg; lia). assert (0 ≤ Z.of_nat w * q) by nia.
  apply wpp_bind. apply mem_copy_decreasew_ok; [lia|done|done|by eapply live_le; [exact Hsrc|lia..]|by eapply live_le; [exact Hdst|lia..]|unfold down_ok in *; lia|].
  intros s1 H1. assert (∀ p, live s p size → live s1 p size) as L by (intros; eapply copied_live; [|done|exact H1]; eapply live_le; [exact Hsrc|lia..]).
  apply mem_copy_decreasew_ok; [lia|done|by eapply copied_wf|eapply live_le; [apply L, Hsrc|lia..]|eapply live_le; [apply L, Hdst|lia..]|unfold down_ok in *; lia|].
  intros s2 H2. match goal with |- Q ?x _ => replace x with (d - 1) by lia end. apply HQ.
  eapply copied_cast; [apply (copied_down s s1 s2 d p r (Z.of_nat w * q)); [lia|lia|unfold down_ok in *; lia| |]|lia..].
  - eapply copied_cast; [exact H1|lia..].
  - eapply copied_cast; [exact H2|lia..].
Qed.

Lemma mem_copy_decrease_ok dest src size s (Q : Z → mem → Prop) :
  let d := dest + 1 - size in let p := src + 1 - size in
  0 ≤ size → wf s → live s p size → live s d size → down_ok d p size →
  (∀ r s', copied s s' d p size → Q r s') → wpp (mem_copy_decrease dest src size) s Q.
Proof.
  intros d p Hn Hs Hsrc Hdst Ho HQ. unfold mem_copy_decrease.
  zcase; [subst; apply wpp_ret, HQ, copied_same|].
  destruct (((8 <=? size) && ADDR_IS_LEFT_ALIGN src 8) && ADDR_IS_LEFT_ALIGN dest 8); 
    [exact (copy_decrease_words_then_bytes 8 3 dest src size s Q eq_refl ltac:(lia) Hn Hs Hsrc Hdst Ho (HQ _))|].
  destruct (((4 <=? size) && ADDR_IS_LEFT_ALIGN src 4) && ADDR_IS_LEFT_ALIGN dest 4); 
    [exact (copy_decrease_words_then_bytes 4 2 dest src size s Q eq_refl ltac:(lia) Hn Hs Hsrc Hdst Ho (HQ _))|].
  destruct (((2 <=? size) && ADDR_IS_LEFT_ALIGN src 2) && ADDR_IS_LEFT_ALIGN dest 2); 
    [exact (copy_decrease_words_then_bytes 2 1 dest src size s Q eq_refl ltac:(lia) Hn Hs Hsrc Hdst Ho (HQ _))|].
  apply mem_copy_decreasew_ok; rewrite ?Z.mul_1_l; [lia|done..|].
  intros s' H'. by apply HQ.
Qed.

Lemma mem_move_ok dest src size s (Q : Z → mem → Prop) :
  0 ≤ size → wf s → live s src size → live s dest size →
  (∀ s', copied s s' dest src size → Q (dest + size) s') → wpp (mem_move dest src size) s Q.
Proof.
  intros Hn Hs Hsrc Hdst HQ. unfold mem_move. zcase.
  - apply mem_copy_ok; [done..|unfold up_ok; lia|done].
  - apply wpp_bind. apply mem_copy_decrease_ok; [done|done| | |unfold down_ok; lia|].
    + eapply live_le; [exact Hsrc|lia..].
    + eapply live_le; [exact Hdst|lia..].
    + intros r s' H'. apply wpp_ret. replace (dest + (size - 1) + 1) with (dest + size) by lia.
      apply HQ. eapply copied_cast; [exact H'|lia..].
Qed.

Lemma filled_cast s s' p n f p' n' : filled s s' p n f → p = p' → n = n' → filled s s' p' n' f.
Proof. by intros H -> ->. Qed.
Lemma filled_up s s1 s2 p n m f :
  0 ≤ n → 0 ≤ m → filled s s1 p n f → filled s1 s2 (p + n) m f → filled s s2 p (n + m) f.
Proof. intros Hn Hm H1 H2 a. rewrite H2, H1. repeat case_decide; try lia; done. Qed.
Lemma filled_live s s' p n f q m :
  (∀ a, is_Some (f a)) → filled s s' p n f → live s q m → live s' q m.
Proof. intros Hf H Hl a Ha. rewrite H. case_decide; [apply Hf|by apply Hl]. Qed.

Lemma mem_setw_ok w p v b count s (Q : unit → mem → Prop) :
  let n := Z.of_nat w * count in
  (0 < w)%nat → 0 ≤ count → live s p n → (∀ i, 0 ≤ i < Z.of_nat w → u8 (v / 256 ^ i) = b) →
  (∀ s', filled s s' p n (λ _, Some b) → Q tt s') → wpp (mem_setw w p v count) s Q.
Proof.
  intros n Hw Hc Hl Hb HQ. unfold mem_setw. apply wpp_bind.
  apply (wpp_count (λ j x s', x = p + Z.of_nat w * j ∧ filled s s' p (Z.of_nat w * j) (λ _, Some b)) count).
  - intros j x s1 Hj [-> H1]. assert (Z.of_nat w * (j + 1) ≤ n) by (unfold n; nia). assert (0 ≤ Z.of_nat w * j) by nia.
    split; [apply Z.ltb_lt; nia|]. apply wpp_bind, wrw_ok.
    { eapply filled_live; [by eexists|exact H1|]. eapply live_le; [exact Hl|lia..]. }
    intros s2 H2. apply wpp_ret. split; [lia|]. eapply filled_cast; [apply (filled_up s s1 s2 p (Z.of_nat w * j) (Z.of_nat w)); [lia|lia|exact H1|]|lia..].
    intros a. rewrite H2. case_decide; [|done]. by rewrite Hb by lia.
  - intros x s' [-> H']. split; [apply Z.ltb_ge; lia|]. apply wpp_ret. by apply HQ.
  - rewrite Z.mul_0_r, Z.add_0_r. split; [done|]. intros a. case_decide; [lia|done].
  - done.
  - lia.
Qed.

(** A byte repeated over a word. *)
Definition repeats (w : nat) (v b : Z) : bool :=
  forallb (λ i, u8 (v / 256 ^ Z.of_nat i) =? b) (seq 0 w).
Lemma repeats_byte w v b i : repeats w v b = true → 0 ≤ i < Z.of_nat w → u8 (v / 256 ^ i) = b.
Proof.
  unfold repeats. rewrite forallb_forall. intros H Hi. apply Z.eqb_eq. rewrite <-(Z2Nat.id i) by lia.
  apply (H (Z.to_nat i)), list_elem_of_In, elem_of_seq. lia.
Qed.

Lemma set_words_then_bytes w i p v b size s (Q : unit → mem → Prop) :
  2 ^ i = Z.of_nat w → 0 ≤ i → 0 ≤ size → live s p size → byte_ok b → repeats w v b = true →
  (∀ s', filled s s' p size (λ _, Some b) → Q tt s') →
  wpp (mem_setw w p v (Z.shiftr size i);;
       if negb (Z.land size (Z.of_nat w - 1) =? 0)
       then mem_setw 1 (p + Z.shiftl (Z.shiftr size i) i) (u8 b) (Z.land size (Z.of_nat w - 1)) else mret tt) s Q.
Proof.
  intros Hw Hi Hn Hl Hb Hv HQ.
  destruct (shiftr_land size i Hi Hn) as (Hsz & Hq & Hr). rewrite Z.shiftl_mul_pow2 by done. rewrite Hw in *.
  set (q := Z.shiftr size i) in *. set (r := Z.land size (Z.of_nat w - 1)) in *.
  assert (0 < Z.of_nat w) by (rewrite <-Hw; apply Z.pow_pos_nonneg; lia). assert (0 ≤ Z.of_nat w * q) by nia.
  apply wpp_bind. apply (mem_setw_ok w p v b q); [lia|done|eapply live_le; [exact Hl|lia..]|by intros; apply (repeats_byte w)|].
  intros s1 H1. zcase.
  - apply wpp_ret, HQ. eapply filled_cast; [exact H1|lia..].
  - apply (mem_setw_ok 1 _ _ b); [lia|lia| | |].
    + eapply filled_live; [by eexists|exact H1|]. eapply live_le; [exact Hl|lia..].
    + intros j Hj. replace j with 0 by lia. rewrite Z.div_1_r, u8_id by apply u8_byte. by apply u8_id.
    + intros s2 H2. apply HQ. eapply filled_cast; [eapply (filled_up s s1 s2 p (Z.of_nat w * q) r); [lia|lia|exact H1|]|lia..].
      eapply filled_cast; [exact H2|lia..].
Qed.

Lemma mem_set_words b :
  byte_ok b →
  let d16 v := Z.lor v (u16 (Z.shiftl v 8)) in
  let d32 v := let v := Z.lor v (u32 (Z.shiftl v 8)) in Z.lor v (u32 (Z.shiftl v 16)) in
  let d64 v := let v := Z.lor v (u64 (Z.shiftl v 8)) in let v := Z.lor v (u64 (Z.shiftl v 16)) in
    Z.lor v (u64 (Z.shiftl v 32)) in
  repeats 2 (d16 (u16 b)) b && repeats 4 (d32 (u32 b)) b && repeats 8 (d64 (u64 b)) b = true.
Proof.
  intros Hb d16 d32 d64. unfold byte_ok in Hb.
  exact (check_below_ok 256 (λ b, repeats 2 (d16 (u16 b)) b && repeats 4 (d32 (u32 b)) b && repeats 8 (d64 (u64 b)) b) b
    ltac:(vm_compute; done) Hb).
Qed.

Lemma mem_set_ok p b size s (Q : unit → mem → Prop) :
  0 ≤ size → live s p size → byte_ok b →
  (∀ s', filled s s' p size (λ _, Some b) → Q tt s') → wpp (mem_set p b size) s Q.
Proof.
  intros Hn Hl Hb HQ. pose proof (mem_set_words b Hb) as Hr. cbv zeta in Hr.
  apply andb_true_iff in Hr as [[H2 H4]%andb_true_iff H8]. unfold mem_set. cbv zeta.
  destruct (Z.land p 7 =? 0); [by apply (set_words_then_bytes 8 3)|].
  destruct (Z.land p 3 =? 0); [by apply (set_words_then_bytes 4 2)|].
  destruct (Z.land p 1 =? 0); [by apply (set_words_then_bytes 2 1)|].
  zcase.
  - apply wpp_ret, HQ. intros a. case_decide; [lia|done].
  - apply (mem_setw_ok 1 _ _ b); [lia|lia|by rewrite Z.mul_1_l| |by rewrite Z.mul_1_l].
    intros j Hj. replace j with 0 by lia. rewrite Z.div_1_r, u8_id by apply u8_byte. by apply u8_id.
Qed.

(** ** New blocks *)

Lemma lookup_place s p size v a :
  place s p size v !! a = if decide (p ≤ a < p + size) then Some (u8 (v a)) else s !! a.
Proof.
  assert (∀ n k, foldr (λ i m, <[p + Z.of_nat i := u8 (v (p + Z.of_nat i))]> m) s (seq k n) !! a =
    if decide (p + Z.of_nat k ≤ a < p + Z.of_nat k + Z.of_nat n) then Some (u8 (v a)) else s !! a) as H.
  { intros n. induction n as [|n IH]; intros k; simpl; [case_decide; [lia|done]|].
    rewrite lookup_insert, IH. repeat case_decide; subst; try lia; done. }
  unfold place. rewrite H. repeat case_decide; try lia; done.
Qed.
Lemma place_wf s p size v : wf s → wf (place s p size v).
Proof. intros Hs a b. rewrite lookup_place. case_decide; [intros [= <-]; apply u8_byte|apply Hs]. Qed.
Lemma place_live s p size v q n : p ≤ q → q + n ≤ p + size → live (place s p size v) q n.
Proof. intros ?? a Ha. rewrite lookup_place, decide_True by lia. by eexists. Qed.
Lemma wf_empty : wf ∅.
Proof. intros a b. by rewrite lookup_empty. Qed.

(** A store with one block, for the examples. *)
Definition bytes_at (p : Z) (l : list Z) : mem := place ∅ p (Z.of_nat (length l)) (λ a, nth (Z.to_nat (a - p)) l 0).
Lemma bytes_at_wf p l : wf (bytes_at p l).
Proof. apply place_wf, wf_empty. Qed.
Lemma bytes_at_live p l q n : (p <=? q) && (q + n <=? p + Z.of_nat (length l)) = true → live (bytes_at p l) q n.
Proof. intros [H1%Z.leb_le H2%Z.leb_le]%andb_true_iff. by apply place_live. Qed.

(** The conditions of a call on such a store. *)
Ltac on_bytes := intros; cbn;
  first [lia|apply bytes_at_wf|by apply bytes_at_live|done].

(** ** Local blocks *)

(** [alloca] and the arrays of variable length: the block is above every object,
    holds whatever [garbage] says, and goes when the function returns. *)
Definition fresh_addr (s : mem) : Z := 1 + foldr (λ x m, Z.max x.1 m) 0 (map_to_list s).
Definition forget (s : mem) (p size : Z) : mem :=
  foldr (λ i m, delete (p + Z.of_nat i) m) s (seq 0 (Z.to_nat size)).

Definition with_block {A} (garbage : Z → Z) (size : Z) (body : Z → prog mem A) : prog mem A := λ s,
  let p := fresh_addr s in
  '(x, s') ← body p (place s p size garbage);
  mret (x, forget s' p size).

Lemma fresh_addr_spec s a : is_Some (s !! a) → a < fresh_addr s.
Proof.
  intros [b Hb%elem_of_map_to_list]. unfold fresh_addr. induction (map_to_list s) as [|x l IH]; [by apply elem_of_nil in Hb|].
  simpl. apply elem_of_cons in Hb as [<-|Hb]; simpl; [lia|]. specialize (IH Hb). lia.
Qed.
Lemma fresh_addr_pos s : 0 < fresh_addr s.
Proof. unfold fresh_addr. induction (map_to_list s) as [|x l IH]; simpl; lia. Qed.
Lemma lookup_forget s p size a : forget s p size !! a = if decide (p ≤ a < p + size) then None else s !! a.
Proof.
  assert (∀ n k, foldr (λ i m, delete (p + Z.of_nat i) m) s (seq k n) !! a =
    if decide (p + Z.of_nat k ≤ a < p + Z.of_nat k + Z.of_nat n) then None else s !! a) as H.
  { intros n. induction n as [|n IH]; intros k; simpl; [case_decide; [lia|done]|].
    rewrite lookup_delete, IH. repeat case_decide; subst; try lia; done. }
  unfold forget. rewrite H. repeat case_decide; try lia; done.
Qed.

(** What the body of a block starts from. *)
Definition block_at (s s1 : mem) (b size : Z) : Prop :=
  0 < b ∧ wf s1 ∧ live s1 b size ∧ (∀ a, b ≤ a → s !! a = None) ∧
  ∀ a, ¬ (b ≤ a < b + size) → s1 !! a = s !! a.

Lemma wpp_with_block {A} garbage size (body : Z → prog mem A) s (Q : A → mem → Prop) :
  wf s →
  (∀ b s1, block_at s s1 b size → wpp (body b) s1 (λ x s2, ∀ s3,
     (∀ a, s3 !! a = if decide (b ≤ a < b + size) then None else s2 !! a) → Q x s3)) →
  wpp (with_block garbage size body) s Q.
Proof.
  intros Hs H. unfold wpp, with_block. apply wp_bind.
  specialize (H (fresh_addr s) (place s (fresh_addr s) size garbage)). eapply wp_mono; [apply H|].
  - split_and!; [apply fresh_addr_pos| | | |].
    + intros a b. rewrite lookup_place. case_decide; [intros [= <-]; apply u8_byte|apply Hs].
    + intros a Ha. rewrite lookup_place, decide_True by done. by eexists.
    + intros a Ha. destruct (s !! a) as [c|] eqn:E; [|done]. pose proof (fresh_addr_spec s a ltac:(by eexists)). lia.
    + intros a Ha. by rewrite lookup_place, decide_False.
  - intros [x s2] HQ. apply wp_ret. apply HQ. intros a. apply lookup_forget.
Qed.

(** A body that changes [P] and its block leaves a change of [P]. *)
Lemma block_forgotten s s1 s2 s3 b size (P : Z → Prop) :
  wf s → block_at s s1 b size → (∀ a, P a → is_Some (s !! a)) →
  (∀ a, ¬ P a → ¬ (b ≤ a < b + size) → s2 !! a = s1 !! a) → (∀ a, is_Some (s1 !! a) ↔ is_Some (s2 !! a)) → wf s2 →
  (∀ a, s3 !! a = if decide (b ≤ a < b + size) then None else s2 !! a) →
  (∀ a, ¬ P a → s3 !! a = s !! a) ∧ (∀ a, is_Some (s !! a) ↔ is_Some (s3 !! a)) ∧ wf s3 ∧ ∀ a, P a → s3 !! a = s2 !! a.
Proof.
  intros Hs (Hb & Hw & Hlb & Hnone & Hsame) HP Ho Hd Hw2 H3.
  assert (∀ a, P a → a < b) as Hpb.
  { intros a [c Hc]%HP. destruct (Z.lt_ge_cases a b); [done|]. by rewrite Hnone in Hc. }
  split_and!.
  - intros a Ha. rewrite H3. case_decide as Hin; [by rewrite Hnone by lia|]. rewrite Ho, Hsame by done. done.
  - intros a. rewrite H3. case_decide as Hin; [rewrite Hnone by lia; done|]. rewrite <-Hd, Hsame by done. done.
  - intros a c. rewrite H3. case_decide; [done|apply Hw2].
  - intros a Ha. rewrite H3, decide_False; [done|]. specialize (Hpb a Ha). lia.
Qed.

(** ** Properties *)

(** C35: [mem_move] copies [size] bytes from [src] to [dest] whether or not the
    two blocks overlap, as [memmove] does, touches no other byte and returns
    the address past the copy; [mem_copy] does the same when an upward copy is
    safe: the destination starts below the source or the blocks are apart. *)
Theorem mem_move_is_memmove dest src size s :
  0 ≤ size → wf s → live s src size → live s dest size →
  (∃ s', mem_move dest src size s = Ok (dest + size, s') ∧ copied s s' dest src size) ∧
  (dest ≤ src ∨ src + size ≤ dest →
   ∃ s', mem_copy dest src size s = Ok (dest + size, s') ∧ copied s s' dest src size).
Proof.
  intros Hn Hs Hsrc Hdst. split.
  - by apply wpp_result, mem_move_ok.
  - intros Ho. by apply wpp_result, mem_copy_ok.
Qed.

Lemma mem_move_is_memmove_witness :
  let s := bytes_at 1 [10; 20; 30; 40; 50; 60] in
  live s 1 5 ∧ ∃ s', mem_move 2 1 5 s = Ok (7, s') ∧ copied s s' 2 1 5.
Proof.
  split; [by apply bytes_at_live|].
  apply (mem_move_is_memmove 2 1 5); [lia|apply bytes_at_wf|by apply bytes_at_live..].
Defined.

(** [mem_set] with a byte fills exactly the [size] bytes at [p] with it,
    whatever the alignment of [p], and with the words it builds by doubling. *)
Theorem mem_set_fills p b size s :
  0 ≤ size → live s p size → 0 ≤ b < 256 →
  ∃ s', mem_set p b size s = Ok (tt, s') ∧
    ∀ a, s' !! a = if decide (p ≤ a < p + size) then Some b else s !! a.
Proof.
  intros Hn Hl Hb. destruct (proj1 (wpp_ok _ s (λ r s', filled s s' p size (λ _, Some b))) (mem_set_ok p b size s _ Hn Hl Hb (λ s' H, H))) as ([] & s' & E & F).
  by exists s'.
Qed.

Lemma mem_set_fills_witness :
  let s := bytes_at 3 [1; 2; 3; 4; 5; 6; 7; 8; 9] in
  live s 3 9 ∧ ∃ s', mem_set 3 65 9 s = Ok (tt, s') ∧ ∀ a, s' !! a = if decide (3 ≤ a < 3 + 9) then Some 65 else s !! a.
Proof.
  split; [by apply bytes_at_live|]. apply (mem_set_fills 3 65 9); [lia|by apply bytes_at_live|lia].
Defined.

(** Outside the range of a byte the words differ from a fill: [mem_set] is not
    [memset] there. *)
Lemma mem_set_negative :
  match mem_set 4 (-2) 4 (bytes_at 4 [0; 0; 0; 0]) with
  | Ok (_, s) => num s 4 4 = 0xFFFFFFFE | _ => False end.
Proof. vm_compute. done. Qed.
