(* ===== verification/Bignum.v ===== *)
(** Bignum: the multi-byte arithmetic of src/lib/math.c.

    A number is a block of bytes, least significant first.  The functions take
    addresses in the byte store of Memory; a [res] that is NULL (0) or equal to
    the operand means in place. *)
From S2P Require Import Prelude Memory.

(** ** Values of blocks *)

Definition val (s : mem) (p n : Z) : Z := num s p (Z.to_nat n).
#[global] Arguments val : simpl never.

Lemma val_0 s p n : n ≤ 0 → val s p n = 0.
Proof. intros Hn. unfold val. by replace (Z.to_nat n) with 0%nat by lia. Qed.
Lemma val_app s p n m : 0 ≤ n → 0 ≤ m → val s p (n + m) = val s p n + 256 ^ n * val s (p + n) m.
Proof. intros Hn Hm. unfold val. rewrite Z2Nat.inj_add, num_app, Z2Nat.id by lia. done. Qed.
Lemma val_1 s p : val s p 1 = s !!! p.
Proof. unfold val. change (Z.to_nat 1) with 1%nat. cbn [num]. lia. Qed.
Lemma val_snoc s p n : 0 ≤ n → val s p (n + 1) = val s p n + 256 ^ n * s !!! (p + n).
Proof. intros Hn. by rewrite val_app, val_1 by lia. Qed.
Lemma val_cons s p n : 0 ≤ n → val s p (n + 1) = s !!! p + 256 * val s (p + 1) n.
Proof. intros Hn. rewrite Z.add_comm, val_app, val_1 by lia. done. Qed.
Lemma val_range s p n : wf s → 0 ≤ n → 0 ≤ val s p n < 256 ^ n.
Proof. intros Hs Hn. pose proof (num_range s p (Z.to_nat n) Hs). unfold val. by rewrite Z2Nat.id in H. Qed.
Lemma val_ext s s' p q n : (∀ i, 0 ≤ i < n → s !!! (p + i) = s' !!! (q + i)) → val s p n = val s' q n.
Proof. intros H. apply num_shift. intros i Hi. apply H. lia. Qed.
Lemma val_zeros s p n : (∀ i, 0 ≤ i < n → s !!! (p + i) = 0) → val s p n = 0.
Proof.
  intros H. destruct (Z.le_gt_cases 0 n) as [Hn|]; [|apply val_0; lia].
  revert H. apply (natlike_ind (λ n, (∀ i, 0 ≤ i < n → s !!! (p + i) = 0) → val s p n = 0)); [|clear n Hn|done].
  - intros _. by apply val_0.
  - intros n Hn IH H. rewrite <-Z.add_1_r, val_snoc, IH, (H n) by (done || lia || (intros; apply H; lia)). lia.
Qed.
Lemma pow_succ n : 0 ≤ n → 256 ^ (n + 1) = 256 * 256 ^ n.
Proof. intros Hn. rewrite Z.pow_add_r by lia. lia. Qed.
Lemma pow_pos n : 0 ≤ n → 0 < 256 ^ n.
Proof. intros. by apply Z.pow_pos_nonneg. Qed.
Lemma val_mod s p n k : wf s → 0 ≤ k ≤ n → val s p n mod 256 ^ k = val s p k.
Proof.
  intros Hs Hk. replace n with (k + (n - k)) by lia. rewrite val_app by lia. pose proof (pow_pos k ltac:(lia)).
  rewrite (Z.mul_comm (256 ^ k)), Z.mod_add by lia. apply Z.mod_small. apply val_range; [done|lia].
Qed.

Lemma val_top s p n : wf s → 0 < n → val s p n = val s p (n - 1) + 256 ^ (n - 1) * s !!! (p + (n - 1)) ∧ 0 ≤ val s p (n - 1) < 256 ^ (n - 1).
Proof.
  intros Hs Hn. split; [|apply val_range; [done|lia]]. replace n with (n - 1 + 1) at 1 by lia. by rewrite val_snoc by lia.
Qed.

(** ** What a function may change *)

(** Only bytes of [p, p + n) differ, no object appears or goes. *)
Record writes (s s' : mem) (p n : Z) : Prop := {
  writes_out : ∀ a, ¬ (p ≤ a < p + n) → s' !! a = s !! a;
  writes_dom : ∀ a, is_Some (s !! a) ↔ is_Some (s' !! a);
  writes_wf : wf s';
}.

Lemma writes_refl s p n : wf s → writes s s p n.
Proof. intros Hs. by split. Qed.
Lemma writes_trans s1 s2 s3 p n q m r l :
  writes s1 s2 p n → writes s2 s3 q m → r ≤ p → r ≤ q → p + n ≤ r + l → q + m ≤ r + l → writes s1 s3 r l.
Proof.
  intros H1 H2 ????. split.
  - intros a Ha. rewrite (writes_out _ _ _ _ H2), (writes_out _ _ _ _ H1) by lia. done.
  - intros a. by rewrite (writes_dom _ _ _ _ H1), (writes_dom _ _ _ _ H2).
  - apply (writes_wf _ _ _ _ H2).
Qed.
Lemma writes_le s s' p n q m : writes s s' p n → q ≤ p → p + n ≤ q + m → writes s s' q m.
Proof. intros [Ho Hd Hw] ??. split; [|done|done]. intros a Ha. apply Ho. lia. Qed.
Lemma writes_live s s' p n q m : writes s s' p n → live s q m → live s' q m.
Proof. intros H Hl a Ha. apply (writes_dom _ _ _ _ H). by apply Hl. Qed.
Lemma writes_total s s' p n a : writes s s' p n → ¬ (p ≤ a < p + n) → s' !!! a = s !!! a.
Proof. intros H Ha. rewrite !lookup_total_alt. by rewrite (writes_out _ _ _ _ H). Qed.
(** Two ranges of addresses without a common one. *)
Definition apart (p n q m : Z) : Prop := p + n ≤ q ∨ q + m ≤ p ∨ n ≤ 0 ∨ m ≤ 0.
Lemma writes_val s s' p n q m : writes s s' p n → apart p n q m → val s' q m = val s q m.
Proof. unfold apart. intros H Hd. apply val_ext. intros i Hi. apply (writes_total _ _ _ _ _ H). lia. Qed.
Lemma writes_next s s1 p k v :
  0 ≤ k → writes s s1 p k → is_Some (s !! (p + k)) →
  writes s (<[p + k := u8 v]> s1) p (k + 1) ∧
  val (<[p + k := u8 v]> s1) p (k + 1) = val s1 p k + 256 ^ k * u8 v.
Proof.
  intros Hk [Ho Hd Hw] Hp. split; [split|].
  - intros a Ha. rewrite lookup_insert_ne by lia. apply Ho. lia.
  - intros a. rewrite lookup_insert. case_decide; [subst; naive_solver|apply Hd].
  - by apply wf_insert.
  - rewrite val_snoc, lookup_total_insert_eq by done.
    assert (val (<[p + k := u8 v]> s1) p k = val s1 p k) as ->; [|done].
    apply val_ext. intros i Hi. by rewrite lookup_total_insert_ne by lia.
Qed.
Lemma writes_insert s s' p n a v :
  writes s s' p n → p ≤ a < p + n → is_Some (s !! a) → byte_ok v → writes s (<[a := v]> s') p n.
Proof.
  intros [Ho Hd Hw] Ha Hl Hv. split.
  - intros b Hb. rewrite lookup_insert_ne by lia. by apply Ho.
  - intros b. rewrite lookup_insert. case_decide; [subst; naive_solver|apply Hd].
  - intros b c. rewrite lookup_insert. case_decide; [by intros [= <-]|apply Hw].
Qed.
Lemma filled_writes s s' p n b : wf s → byte_ok b → live s p n → filled s s' p n (λ _, Some b) → writes s s' p n.
Proof.
  intros Hs Hb Hl H. split.
  - intros a Ha. rewrite H. by case_decide.
  - intros a. rewrite H. case_decide; [|done]. split; [by eexists|intros _; by apply Hl].
  - intros a c. rewrite H. case_decide; [by intros [= <-]|apply Hs].
Qed.
Lemma copied_writes s s' d p n : wf s → live s p n → live s d n → copied s s' d p n → writes s s' d n.
Proof.
  intros Hs Hp Hd H. split.
  - intros a Ha. rewrite H. by case_decide.
  - intros a. rewrite H. case_decide; [|done]. split; intros _; [apply Hp; lia|by apply Hd].
  - by eapply copied_wf.
Qed.
Lemma copied_val s s' d p n : copied s s' d p n → val s' d n = val s p n.
Proof.
  intros H. apply val_ext. intros i Hi. rewrite !lookup_total_alt, H. rewrite decide_True by lia.
  do 3 f_equal. lia.
Qed.

Definition bytes_fuel (n : Z) : nat := S (Z.to_nat n).

(** ** Blocks *)

Definition math_memory_shrink (p size : Z) : prog mem Z :=
  ploop (bytes_fuel size) (λ mem_last,
    if p <=? mem_last then
      b ← rd mem_last;
      if b =? 0 then mret (inl (mem_last - 1)) else mret (inr mem_last)
    else mret (inr mem_last)) (p + size - 1).

Definition math_memory_exchange (p res size : Z) : prog mem unit :=
  if negb (res =? 0) && negb (res =? p) then
    while (bytes_fuel size) (λ '(last, _), p <=? last)
      (λ '(last, res), b ← rd last; wr res b;; mret (last - 1, res + 1)) (p + size - 1, res);;
    mret tt
  else
    while (bytes_fuel size) (λ '(res, last), res <? last)
      (λ '(res, last), tmp ← rd last; b ← rd res; wr last b;; wr res tmp;; mret (res + 1, last - 1)) (p, p + size - 1);;
    mret tt.

Definition math_memory_copy (dest dest_size src src_size : Z) : prog mem unit :=
  let size := Z.min dest_size src_size in
  mem_move dest src size;;
  if size <? dest_size then mem_set (dest + size) 0 (dest_size - size) else mret tt.

(** [m] is the number of bytes of the number at [p] without leading zeros. *)
Record sig (s : mem) (p n m : Z) : Prop := {
  sig_range : 0 ≤ m ≤ n;
  sig_top : 0 < m → s !!! (p + (m - 1)) ≠ 0;
  sig_zero : ∀ i, m ≤ i < n → s !!! (p + i) = 0;
}.

Lemma sig_val s p n m : sig s p n m → val s p n = val s p m.
Proof.
  intros [Hr _ Hz].
  replace n with (m + (n - m)) at 1 by lia. rewrite val_app by lia.
  rewrite (val_zeros s (p + m)); [lia|]. intros i Hi. rewrite <-Z.add_assoc. apply Hz. lia.
Qed.
Lemma sig_exists s p n : 0 ≤ n → ∃ m, sig s p n m.
Proof.
  intros Hn. apply (natlike_ind (λ n, ∃ m, sig s p n m)); [exists 0; by split; lia|clear n Hn|done].
  intros n Hn [m [Hr Ht Hz]]. destruct (Z.eq_dec (s !!! (p + n)) 0) as [E|E].
  - exists m. split; [lia|done|]. intros i Hi. destruct (Z.eq_dec i n) as [->|]; [done|apply Hz; lia].
  - exists (n + 1). split; [lia|intros _; by rewrite Z.add_simpl_r|lia].
Qed.
Lemma zeros_val s p n m : 0 ≤ m ≤ n → (∀ i, m ≤ i < n → s !!! (p + i) = 0) → val s p n = val s p m.
Proof.
  intros Hm H. replace n with (m + (n - m)) at 1 by lia. rewrite val_app by lia.
  rewrite (val_zeros s (p + m)); [lia|]. intros i Hi. rewrite <-Z.add_assoc. apply H. lia.
Qed.
Lemma sig_lower s p n m : wf s → sig s p n m → 0 < m → 256 ^ (m - 1) ≤ val s p m.
Proof.
  intros Hs [Hr Ht _] Hm. specialize (Ht Hm). replace m with (m - 1 + 1) at 2 by lia.
  rewrite val_snoc by lia. pose proof (wf_total s (p + (m - 1)) Hs) as Hb. unfold byte_ok in Hb.
  pose proof (val_range s p (m - 1) Hs). pose proof (pow_pos (m - 1)). nia.
Qed.

Lemma math_memory_shrink_ok p size s (Q : Z → mem → Prop) :
  0 ≤ size → live s p size → (∀ m, sig s p size m → Q (p + m - 1) s) → wpp (math_memory_shrink p size) s Q.
Proof.
  intros H0 Hl HQ. unfold math_memory_shrink.
  apply (wpp_ploop (λ n x s', s' = s ∧ x = p + Z.of_nat n - 1 ∧ Z.of_nat n ≤ size ∧
    ∀ i, Z.of_nat n ≤ i < size → s !!! (p + i) = 0)) with (n := Z.to_nat size).
  - intros n x s' (-> & -> & Hn & Hz). zcase.
    + apply wpp_bind. eapply wpp_rd; [apply (lookup_live s p size); [done|lia]|]. zcase as Hb.
      * apply wpp_ret. exists (n - 1)%nat. split_and!; [lia|done|lia|lia|]. intros i Hi.
        destruct (decide (i = Z.of_nat n - 1)) as [->|]; [|apply Hz; lia].
        rewrite <-Hb. f_equal. lia.
      * apply wpp_ret. apply HQ. split; [lia| |done]. intros _. by rewrite Z.add_sub_assoc.
    + apply wpp_ret. apply HQ. split; [lia|lia|done].
  - split_and!; [done|lia|lia|lia].
  - unfold bytes_fuel. lia.
Qed.

Lemma math_memory_copy_ok dest dn src sn s (Q : unit → mem → Prop) :
  0 ≤ dn → 0 ≤ sn → wf s → live s src (Z.min dn sn) → live s dest dn →
  (∀ s', writes s s' dest dn → val s' dest dn = val s src (Z.min dn sn) → Q tt s') →
  wpp (math_memory_copy dest dn src sn) s Q.
Proof.
  intros Hd Hsn Hs Hsrc Hdst HQ. unfold math_memory_copy. set (n := Z.min dn sn) in *.
  assert (live s dest n) as Hdn by (eapply live_le; [exact Hdst|lia..]).
  apply wpp_bind, mem_move_ok; [lia|done..|]. intros s1 H1.
  pose proof (copied_writes _ _ _ _ _ Hs Hsrc Hdn H1) as W1. pose proof (copied_val _ _ _ _ _ H1) as V1. zcase as Hlt.
  - apply mem_set_ok; [lia|eapply writes_live; [exact W1|]; eapply live_le; [exact Hdst|lia..]|split; lia|].
    intros s2 H2. assert (writes s1 s2 (dest + n) (dn - n)) as W2.
    { apply (filled_writes _ _ _ _ 0); [apply W1|split; lia| |done]. eapply writes_live; [exact W1|]. eapply live_le; [exact Hdst|lia..]. }
    apply HQ; [eapply writes_trans; [exact W1|exact W2|lia..]|].
    replace dn with (n + (dn - n)) at 1 by lia. rewrite val_app by lia.
    rewrite (writes_val _ _ _ _ _ _ W2) by (unfold apart; lia). rewrite V1, (val_zeros s2); [lia|].
    intros i Hi. rewrite lookup_total_alt, H2. rewrite decide_True by lia. done.
  - apply wpp_ret, HQ.
    + by replace dn with n by lia.
    + replace dn with n at 1 by lia. done.
Qed.

Definition reversed (s s' : mem) (res p n : Z) : Prop :=
  ∀ i, 0 ≤ i < n → s' !!! (res + i) = s !!! (p + (n - 1 - i)).

Lemma math_memory_exchange_ok p res n s (Q : unit → mem → Prop) :
  let r := if negb (res =? 0) && negb (res =? p) then res else p in
  0 ≤ n → wf s → live s p n → live s r n → (r = p ∨ r + n ≤ p ∨ p + n ≤ r) →
  (∀ s', writes s s' r n → reversed s s' r p n → Q tt s') → wpp (math_memory_exchange p res n) s Q.
Proof.
  intros r Hn Hs Hp Hr Hd HQ. unfold math_memory_exchange. destruct (negb (res =? 0) && negb (res =? p)) eqn:Hres; apply wpp_bind.
  - apply (wpp_while (λ k x s', x = (p + n - 1 - k, res + k) ∧ k ≤ n ∧ writes s s' res k ∧
      ∀ i, 0 ≤ i < k → s' !!! (res + i) = s !!! (p + (n - 1 - i))) n).
    + intros k x s1 Hk (-> & Hkn & W & R). zcase as Hc.
      * split; [lia|]. assert (p + n - 1 - k < res ∨ res + k ≤ p + n - 1 - k) as Ho.
        { destruct Hd as [Hd|[|]]; [|lia..]. rewrite (Hd : res = p), Z.eqb_refl, andb_false_r in Hres. done. }
        apply wpp_bind. eapply wpp_rd; [eapply lookup_live; [eapply writes_live; [exact W|exact Hp]|lia]|].
        apply wpp_bind, wpp_wr; [eapply writes_live; [exact W|exact Hr|lia]|]. apply wpp_ret.
        pose proof (writes_next s s1 res k (s1 !!! (p + n - 1 - k)) Hk W ltac:(apply Hr; lia)) as [W' _].
        split_and!; [f_equal; lia|lia|done|]. intros i Hi.
        destruct (decide (i = k)) as [->|]; [|by rewrite lookup_total_insert_ne, R by lia].
        rewrite lookup_total_insert_eq, u8_id by (apply wf_total, W).
        rewrite (writes_total _ _ _ _ _ W) by lia. f_equal. lia.
      * apply wpp_ret, HQ; [by replace n with k by lia|]. intros i Hi. apply R. lia.
    + rewrite Z.sub_0_r, Z.add_0_r. split_and!; [done|lia|by apply writes_refl|lia].
    + unfold bytes_fuel. lia.
    + done.
  - apply (wpp_while (λ k x s', x = (p + k, p + n - 1 - k) ∧ 2 * k ≤ n ∧ writes s s' p n ∧
      ∀ i, 0 ≤ i < n → s' !!! (p + i) = if decide (i < k ∨ n - 1 - k < i) then s !!! (p + (n - 1 - i)) else s !!! (p + i)) n).
    + intros k x s1 Hk (-> & Hkn & W & R). zcase as Hc.
      * split; [lia|]. pose proof (writes_live _ _ _ _ _ _ W Hp) as Hp1.
        apply wpp_bind. eapply wpp_rd; [eapply lookup_live; [exact Hp1|lia]|].
        apply wpp_bind. eapply wpp_rd; [eapply lookup_live; [exact Hp1|lia]|].
        apply wpp_bind, wpp_wr; [apply Hp1; lia|]. apply wpp_bind, wpp_wr; [|apply wpp_ret].
        { rewrite lookup_insert_ne by lia. apply Hp1. lia. }
        rewrite !u8_id by (apply wf_total, W). split_and!; [f_equal; lia|lia| |].
        { do 2 (apply writes_insert; [|lia|apply Hp; lia|apply wf_total, W]). done. }
        intros i Hi. rewrite (lookup_total_insert _ (p + k)). case_decide as E1.
        { rewrite decide_True by lia.
          replace (p + n - 1 - k) with (p + (n - 1 - k)) by lia. rewrite R, decide_False by lia. f_equal. lia. }
        rewrite lookup_total_insert. case_decide as E2.
        { rewrite R, decide_False, decide_True by lia. f_equal. lia. }
        rewrite R by done. repeat case_decide; try lia; done.
      * apply wpp_ret, HQ; [done|]. intros i Hi. subst r. rewrite (R i) by done. case_decide; [done|]. f_equal. lia.
    + rewrite Z.sub_0_r, Z.add_0_r. split_and!; [done|lia|by apply writes_refl|].
      intros i Hi. rewrite decide_False by lia. done.
    + unfold bytes_fuel. lia.
    + done.
Qed.

(** ** Bitwise operations *)

(** The loops of [math_memory_and], [_or] and [_xor]. *)
Definition math_memory_op (op : Z → Z → Z) (left right res size : Z) : prog mem unit :=
  let right_end := right + size in
  if negb (res =? 0) && negb (res =? left) then
    while (bytes_fuel size) (λ '(_, right, _), right <? right_end)
      (λ '(left, right, res), a ← rd left; b ← rd right; wr res (op a b);; mret (left + 1, right + 1, res + 1))
      (left, right, res);;
    mret tt
  else
    while (bytes_fuel size) (λ '(right, _), right <? right_end)
      (λ '(right, res), a ← rd res; b ← rd right; wr res (op a b);; mret (right + 1, res + 1)) (right, left);;
    mret tt.
Definition math_memory_and := math_memory_op Z.land.
Definition math_memory_or := math_memory_op Z.lor.
Definition math_memory_xor := math_memory_op Z.lxor.

Definition math_memory_not (p res size : Z) : prog mem unit :=
  let mem_end := p + size in
  if negb (res =? 0) && negb (res =? p) then
    while (bytes_fuel size) (λ '(p, _), p <? mem_end)
      (λ '(p, res), b ← rd p; wr res (Z.lnot b);; mret (p + 1, res + 1)) (p, res);;
    mret tt
  else
    while (bytes_fuel size) (λ res, res <? mem_end)
      (λ res, b ← rd res; wr res (Z.lnot b);; mret (res + 1)) p;;
    mret tt.

(** ** Addition *)

(** [while (res < res_end) *res++ = b;] *)
Definition fill_to (fuel : nat) (b res res_end : Z) : prog mem unit :=
  while fuel (λ res, res <? res_end) (λ res, wr res b;; mret (res + 1)) res;;
  mret tt.

Definition math_memory_add_single (p mem_size value res res_size : Z) : prog mem Z :=
  let fuel := bytes_fuel (mem_size + res_size) in
  mem_last ← math_memory_shrink p mem_size;
  '(res, res_end, adder) ←
    (if negb (res =? 0) && negb (res =? p) then
       let res_end := res + res_size in
       '(p, res, adder) ← while fuel
         (λ '(p, res, adder), negb (adder =? 0) && (p <=? mem_last) && (res <? res_end))
         (λ '(p, res, adder),
           b ← rd p;
           let adder := u16 (adder + b) in
           wr res (Z.land adder 0xFF);;
           mret (p + 1, res + 1, Z.shiftr adder 8)) (p, res, value);
       '(_, res) ← while fuel (λ '(p, res), (p <=? mem_last) && (res <? res_end))
         (λ '(p, res), b ← rd p; wr res b;; mret (p + 1, res + 1)) (p, res);
       mret (res, res_end, adder)
     else
       let res_size := if res_size =? 0 then mem_size else res_size in
       let res_end := p + res_size in
       '(_, adder) ← while fuel (λ '(res, adder), negb (adder =? 0) && (res <=? mem_last))
         (λ '(res, adder),
           b ← rd res;
           let adder := u16 (adder + b) in
           wr res (Z.land adder 0xFF);;
           mret (res + 1, Z.shiftr adder 8)) (p, value);
       mret (mem_last + 1, res_end, adder));
  '(res, adder) ← while fuel (λ '(res, adder), (res <? res_end) && negb (adder =? 0))
    (λ '(res, adder), wr res adder;; mret (res + 1, Z.shiftr adder 8)) (res, adder);
  fill_to fuel 0 res res_end;;
  mret (u8 adder).

Definition math_memory_complement (p mem_size res res_size : Z) : prog mem unit :=
  let res := if res =? 0 then p else res in
  let res_size := if res_size =? 0 then mem_size else res_size in
  math_memory_not p res mem_size;;
  math_memory_add_single res mem_size 1 0 res_size;;
  mret tt.

Definition math_memory_add (left lsize right rsize res res_size : Z) : prog mem Z :=
  left_last ← math_memory_shrink left lsize;
  right_last ← math_memory_shrink right rsize;
  let res := if res =? 0 then left else res in
  let res_size := if res_size =? 0 then lsize else res_size in
  let res_end := res + res_size in
  '(left, right, res, adder) ← while (bytes_fuel res_size)
    (λ '(left, right, res, _), (left <=? left_last) && (right <=? right_last) && (res <? res_end))
    (λ '(left, right, res, adder),
      a ← rd left;
      b ← rd right;
      let adder := u16 (adder + (a + b)) in
      wr res (Z.land adder 0xFF);;
      mret (left + 1, right + 1, res + 1, Z.shiftr adder 8)) (left, right, res, 0);
  if right <=? right_last then
    math_memory_add_single right (right_last - right + 1) (u8 adder) res (res_end - res)
  else if left <=? left_last then
    math_memory_add_single left (left_last - left + 1) (u8 adder) res (res_end - res)
  else if res <? res_end then
    wr res adder;;
    fill_to (bytes_fuel res_size) 0 (res + 1) res_end;;
    mret 0
  else mret (u8 adder).

(** *** One byte of a carry chain *)

Lemma land_ff x : Z.land x 0xFF = x mod 256.
Proof. change 0xFF with (Z.ones 8). by rewrite Z.land_ones by lia. Qed.
Lemma shiftr_8 x : Z.shiftr x 8 = x / 256.
Proof. by rewrite Z.shiftr_div_pow2 by lia. Qed.
Lemma u8_mod x : u8 x = x mod 256.
Proof. done. Qed.
Lemma u8_land_ff x : u8 (Z.land x 0xFF) = x mod 256.
Proof. rewrite land_ff, u8_mod. by rewrite Z.mod_mod by lia. Qed.

(** The carry chain: [V] is what was written, [c] the carry into this byte, [b]
    what this byte adds. *)
Lemma carry_step V P c b T :
  V + c * P = T → V + P * ((c + b) mod 256) + (c + b) / 256 * (256 * P) = T + P * b.
Proof. intros <-. pose proof (Z.div_mod (c + b) 256). nia. Qed.

Lemma writes_next' s s1 p k v n :
  0 ≤ k < n → writes s s1 p k → live s p n →
  is_Some (s1 !! (p + k)) ∧ writes s (<[p + k := u8 v]> s1) p (k + 1) ∧
  val (<[p + k := u8 v]> s1) p (k + 1) = val s1 p k + 256 ^ k * u8 v.
Proof.
  intros Hk W Hl. assert (is_Some (s !! (p + k))) as Hp by (apply Hl; lia).
  split; [by apply (writes_dom _ _ _ _ W)|]. apply writes_next; [lia|done|done].
Qed.

Lemma fill_to_ok fuel b res n j s s1 (Q : unit → mem → Prop) :
  0 ≤ j ≤ n → byte_ok b → writes s s1 res j → live s res n → n - j < Z.of_nat fuel →
  (∀ s', writes s s' res n → (∀ i, 0 ≤ i < j → s' !!! (res + i) = s1 !!! (res + i)) →
     (∀ i, j ≤ i < n → s' !!! (res + i) = b) → Q tt s') →
  wpp (fill_to fuel b (res + j) (res + n)) s1 Q.
Proof.
  intros Hj Hb W Hl Hf HQ. apply wpp_bind.
  apply (wpp_count (λ k x s', x = res + (j + k) ∧ writes s s' res (j + k) ∧
    (∀ i, 0 ≤ i < j → s' !!! (res + i) = s1 !!! (res + i)) ∧
    ∀ i, j ≤ i < j + k → s' !!! (res + i) = b) (n - j)).
  - intros k x s2 Hk (-> & W2 & E1 & E2). split; [apply Z.ltb_lt; lia|].
    destruct (writes_next' s s2 res (j + k) b n ltac:(lia) W2 Hl) as (L & W3 & _).
    apply wpp_bind, wpp_wr; [done|]. apply wpp_ret. replace (j + (k + 1)) with (j + k + 1) by lia. split_and!; [lia|done| |].
    + intros i Hi. rewrite lookup_total_insert_ne by lia. by apply E1.
    + intros i Hi. destruct (decide (i = j + k)) as [->|]; [by rewrite lookup_total_insert_eq, u8_id|].
      rewrite lookup_total_insert_ne by lia. apply E2. lia.
  - intros x s2 (-> & W2 & E1 & E2). split; [apply Z.ltb_ge; lia|]. apply wpp_ret.
    replace (j + (n - j)) with n in * by lia. by apply HQ.
  - rewrite Z.add_0_r. split_and!; [done|done|done|lia].
  - lia.
  - done.
Qed.

Lemma fill_zero_ok fuel res n j s s1 (Q : unit → mem → Prop) :
  0 ≤ j ≤ n → writes s s1 res j → live s res n → n - j < Z.of_nat fuel →
  (∀ s', writes s s' res n → val s' res n = val s1 res j → Q tt s') →
  wpp (fill_to fuel 0 (res + j) (res + n)) s1 Q.
Proof.
  intros Hj W Hl Hf HQ. apply (fill_to_ok _ _ _ _ _ s); [done|split; lia|done..|]. intros s' W' E1 E2. apply HQ; [done|].
  replace n with (j + (n - j)) at 1 by lia. rewrite val_app by lia. rewrite (val_zeros s' (res + j)).
  - rewrite Z.mul_0_r, Z.add_0_r. by apply val_ext.
  - intros i Hi. rewrite <-Z.add_assoc. apply E2. lia.
Qed.

(** *** The carry loops *)

Section carry.
Variables (s : mem) (f : Z → Z) (stop : Z → bool) (v p r m : Z) (fuel : nat).
Hypothesis f_mul : ∀ b, f b = v * b.
Hypothesis v_byte : byte_ok v.
Hypothesis m_nonneg : 0 ≤ m.
Hypothesis s_wf : wf s.
Hypothesis p_live : live s p m.

(** Byte [k] of the operand is still there. *)
Lemma operand_kept s1 k : up_ok r p m → 0 ≤ k < m → writes s s1 r k → s1 !! (p + k) = Some (s !!! (p + k)).
Proof.
  intros Ho Hk W. rewrite (writes_out _ _ _ _ W) by (unfold up_ok in Ho; lia). apply (lookup_live s p m); [done|lia].
Qed.

Lemma carry_next s1 k c c0 n b :
  0 ≤ k < n → byte_ok c → live s r n → writes s s1 r k → b = s !!! (p + k) →
  val s1 r k + c * 256 ^ k = c0 + v * val s p k →
  let x := u16 (c + f b) in
  let s2 := <[r + k := u8 (Z.land x 255)]> s1 in
  is_Some (s1 !! (r + k)) ∧ writes s s2 r (k + 1) ∧ byte_ok (Z.shiftr x 8) ∧
  val s2 r (k + 1) + Z.shiftr x 8 * 256 ^ (k + 1) = c0 + v * val s p (k + 1).
Proof.
  intros Hk Hc Hl W -> E. cbv zeta. pose proof (wf_total s (p + k) s_wf) as Hb. unfold byte_ok in *.
  rewrite f_mul. rewrite (wrap_small 16) by (change (2 ^ 16) with 65536; nia).
  destruct (writes_next' s s1 r k (Z.land (c + v * s !!! (p + k)) 255) n Hk W Hl) as (L & W' & V').
  split_and!; [done|done|rewrite shiftr_8; apply Z.div_pos; nia|rewrite shiftr_8; apply Z.div_lt_upper_bound; nia|].
  rewrite V', u8_land_ff, shiftr_8, pow_succ, val_snoc by lia.
  rewrite (carry_step _ _ _ _ _ E). ring.
Qed.

Lemma carry_loop_ok n c Q :
  0 ≤ n → byte_ok c → live s r n → up_ok r p m → Z.min m n < Z.of_nat fuel →
  (∀ k c' s', 0 ≤ k ≤ Z.min m n → (k < Z.min m n → stop c' = true) → byte_ok c' → writes s s' r k →
     val s' r k + c' * 256 ^ k = c + v * val s p k → Q (p + k, r + k, c') s') →
  wpp (while fuel (λ '(q, res, c), negb (stop c) && (q <=? p + m - 1) && (res <? r + n))
    (λ '(q, res, c), b ← rd q; let x := u16 (c + f b) in wr res (Z.land x 255);; mret (q + 1, res + 1, Z.shiftr x 8)) (p, r, c)) s Q.
Proof.
  intros Hn Hc Hl Ho Hf HQ.
  apply (wpp_while (λ k x s', ∃ c', x = (p + k, r + k, c') ∧ k ≤ Z.min m n ∧ byte_ok c' ∧ writes s s' r k ∧
    val s' r k + c' * 256 ^ k = c + v * val s p k) (Z.min m n)); [|exists c|done|lia].
  - intros k x s1 Hk (c' & -> & Hkm & Hc' & W & E).
    destruct (negb (stop c') && (p + k <=? p + m - 1) && (r + k <? r + n)) eqn:Hgo.
    + apply andb_true_iff in Hgo as [[Hs Hp%Z.leb_le]%andb_true_iff Hr%Z.ltb_lt]. split; [lia|].
      apply wpp_bind. eapply wpp_rd; [apply operand_kept; [done|lia|done]|]. cbv beta zeta.
      destruct (carry_next s1 k c' c n _ ltac:(lia) Hc' Hl W eq_refl E) as (L & W' & Hc2 & E').
      apply wpp_bind, wpp_wr; [done|]. apply wpp_ret. eexists. split; [rewrite <-!Z.add_assoc; reflexivity|]. split_and!; [lia|done..].
    + apply HQ; [lia| |done..]. intros Hlt. rewrite <-andb_assoc in Hgo.
      rewrite (proj2 (Z.leb_le _ _)), (proj2 (Z.ltb_lt _ _)), andb_true_r in Hgo by lia. by apply negb_false_iff.
  - rewrite !Z.add_0_r. split_and!; [done|lia|done|by apply writes_refl|].
    rewrite !val_0 by lia. lia.
Qed.

End carry.

(** In place. *)
Lemma carry_loop_in_place s f stop v p m fuel c Q :
  (∀ b, f b = v * b) → byte_ok v → 0 ≤ m → wf s → live s p m →
  byte_ok c → m < Z.of_nat fuel →
  (∀ k c' s', 0 ≤ k ≤ m → (k < m → stop c' = true) → byte_ok c' → writes s s' p k →
     val s' p k + c' * 256 ^ k = c + v * val s p k → Q (p + k, c') s') →
  wpp (while fuel (λ '(res, c), negb (stop c) && (res <=? p + m - 1))
    (λ '(res, c), b ← rd res; let x := u16 (c + f b) in wr res (Z.land x 255);; mret (res + 1, Z.shiftr x 8)) (p, c)) s Q.
Proof.
  intros Hfm Hv Hm Hs Hl Hc Hf HQ.
  apply (wpp_while (λ k x s', ∃ c', x = (p + k, c') ∧ k ≤ m ∧ byte_ok c' ∧ writes s s' p k ∧
    val s' p k + c' * 256 ^ k = c + v * val s p k) m); [|exists c|done|lia].
  - intros k x s1 Hk (c' & -> & Hkm & Hc' & W & E).
    destruct (negb (stop c') && (p + k <=? p + m - 1)) eqn:Hgo.
    + apply andb_true_iff in Hgo as [Hs' Hp%Z.leb_le]. split; [lia|].
      apply wpp_bind. eapply wpp_rd; [eapply (operand_kept s p p m); [done..|unfold up_ok; lia|lia|done]|]. cbv beta zeta.
      destruct (carry_next s f v p p Hfm Hv Hs s1 k c' c m _ ltac:(lia) Hc' Hl W eq_refl E) as (L & W' & Hc2 & E').
      apply wpp_bind, wpp_wr; [done|]. apply wpp_ret. eexists. split; [rewrite <-!Z.add_assoc; reflexivity|]. split_and!; [lia|done..].
    + apply HQ; [lia| |done..]. intros Hlt. rewrite (proj2 (Z.leb_le _ _)), andb_true_r in Hgo by lia.
      by apply negb_false_iff.
  - rewrite Z.add_0_r. split_and!; [done|lia|done|by apply writes_refl|].
    rewrite !val_0 by lia. lia.
Qed.

(** *** [math_memory_add_single] *)

(** Where the result goes, and how many bytes of it. *)
Definition in_place (p res : Z) : bool := (res =? 0) || (res =? p).
Definition target (p res : Z) : Z := if in_place p res then p else res.
Definition target_size (p mem_size res res_size : Z) : Z :=
  if in_place p res && (res_size =? 0) then mem_size else res_size.
(** The blocks a call may be given. *)
Definition operands_ok (s : mem) (p mem_size res res_size : Z) : Prop :=
  let r := target p res in let n := target_size p mem_size res res_size in
  0 ≤ mem_size ∧ 0 ≤ res_size ∧ wf s ∧ live s p mem_size ∧ live s r n ∧
  if in_place p res then mem_size ≤ n else up_ok r p mem_size.

Lemma in_place_spec p res : negb (res =? 0) && negb (res =? p) = negb (in_place p res).
Proof. unfold in_place. by rewrite negb_orb. Qed.

(** The bytes after the operand: the carry, then zeros. *)
Lemma finish_carry_ok fuel r n j c s s1 T (Q : Z → mem → Prop) :
  0 ≤ j ≤ n → byte_ok c → writes s s1 r j → live s r n → n < Z.of_nat fuel →
  val s1 r j + c * 256 ^ j = T →
  (∀ c' s', byte_ok c' → writes s s' r n → val s' r n + c' * 256 ^ n = T → Q c' s') →
  wpp ('(res, adder) ← while fuel (λ '(res, adder), (res <? r + n) && negb (adder =? 0))
         (λ '(res, adder), wr res adder;; mret (res + 1, Z.shiftr adder 8)) (r + j, c);
       fill_to fuel 0 res (r + n);;
       mret (u8 adder)) s1 Q.
Proof.
  intros Hj Hc W Hl Hf E HQ. apply wpp_bind.
  apply (wpp_while (λ k x s', ∃ c', x = (r + (j + k), c') ∧ j + k ≤ n ∧ byte_ok c' ∧ writes s s' r (j + k) ∧
    val s' r (j + k) + c' * 256 ^ (j + k) = T) (n - j)); [|exists c|lia|lia].
  - intros k x s2 Hk (c' & -> & Hkn & Hc' & W2 & E2).
    destruct ((r + (j + k) <? r + n) && negb (c' =? 0)) eqn:Hgo.
    + apply andb_true_iff in Hgo as [Hlt%Z.ltb_lt H0]. split; [lia|].
      destruct (writes_next' s s2 r (j + k) c' n ltac:(lia) W2 Hl) as (L & W3 & V3).
      apply wpp_bind, wpp_wr; [done|]. apply wpp_ret. replace (j + (k + 1)) with (j + k + 1) by lia.
      exists 0. rewrite shiftr_8, Z.div_small by exact Hc'.
      split_and!; [f_equal; lia|lia|split; lia|done|]. rewrite V3, u8_id by done. lia.
    + apply wpp_bind. apply (fill_zero_ok _ _ _ _ s); [lia|done|done|lia|]. intros s3 W3 V3. apply wpp_ret.
      rewrite u8_id by done. apply HQ; [done|done|]. rewrite V3. apply andb_false_iff in Hgo as [Hgo%Z.ltb_ge|Hgo].
      * by replace n with (j + k) by lia.
      * apply negb_false_iff, Z.eqb_eq in Hgo as ->. lia.
  - rewrite !Z.add_0_r. split_and!; [done|lia|done..].
Qed.

(** Past the end of the carry the operand is copied. *)
Lemma copy_rest_ok fuel s s1 p r m n k (Q : Z * Z → mem → Prop) :
  let j := Z.min m n in
  0 ≤ k ≤ j → wf s → live s p m → live s r n → up_ok r p m → writes s s1 r k → j < Z.of_nat fuel →
  (∀ s', writes s s' r j → val s' r j = val s1 r k + 256 ^ k * val s (p + k) (j - k) → Q (p + j, r + j) s') →
  wpp (while fuel (λ '(q, res), (q <=? p + m - 1) && (res <? r + n))
    (λ '(q, res), b ← rd q; wr res b;; mret (q + 1, res + 1)) (p + k, r + k)) s1 Q.
Proof.
  intros j Hk Hs Hp Hr Ho W Hf HQ.
  apply (wpp_count (λ i x s', x = (p + (k + i), r + (k + i)) ∧ writes s s' r (k + i) ∧
    val s' r (k + i) = val s1 r k + 256 ^ k * val s (p + k) i) (j - k)).
  - intros i x s2 Hi (-> & W2 & E2). split; [apply andb_true_iff; rewrite Z.leb_le, Z.ltb_lt; lia|].
    apply wpp_bind. eapply wpp_rd; [apply (operand_kept s p r m Hp s2); [done|lia|done]|].
    destruct (writes_next' s s2 r (k + i) (s !!! (p + (k + i))) n ltac:(lia) W2 Hr) as (L & W3 & V3).
    apply wpp_bind, wpp_wr; [done|]. apply wpp_ret. replace (k + (i + 1)) with (k + i + 1) by lia.
    split_and!; [f_equal; lia|done|]. rewrite V3, E2, val_snoc, u8_id, Z.pow_add_r, Z.add_assoc by (lia || by apply wf_total). lia.
  - intros x s2 (-> & W2 & E2). replace (k + (j - k)) with j in * by lia. split; [|by apply HQ].
    apply andb_false_iff. rewrite Z.leb_gt, Z.ltb_ge. lia.
  - rewrite Z.add_0_r. rewrite (val_0 s (p + k)) by lia. split_and!; [done|done|lia].
  - lia.
  - lia.
Qed.

Lemma math_memory_add_single_ok p mem_size value res res_size s (Q : Z → mem → Prop) :
  let r := target p res in let n := target_size p mem_size res res_size in
  operands_ok s p mem_size res res_size → byte_ok value →
  (∀ c s', byte_ok c → writes s s' r n →
     val s' r n + c * 256 ^ n = value + val s p mem_size mod 256 ^ n → Q c s') →
  wpp (math_memory_add_single p mem_size value res res_size) s Q.
Proof.
  intros r n (Hm & Hr & Hs & Hp & Hl & Hplace) Hv HQ. fold r n in Hl, Hplace. unfold math_memory_add_single.
  apply wpp_bind, math_memory_shrink_ok; [done|done|]. intros m Hsig. pose proof (sig_range _ _ _ _ Hsig) as Hmr.
  rewrite (sig_val _ _ _ _ Hsig) in HQ. assert (live s p m) as Hpm by (eapply live_le; [exact Hp|lia..]).
  apply wpp_bind. rewrite in_place_spec. unfold r, n, target, target_size in *. clear r n.
  destruct (in_place p res); cbn [negb andb] in *.
  - set (n := if res_size =? 0 then mem_size else res_size) in *. apply wpp_bind.
    apply (carry_loop_in_place s (λ b, b) (λ c, c =? 0) 1); [lia|split; lia|lia|done|done|done|unfold bytes_fuel; lia|].
    intros k c s1 Hk Hstop Hc W E. apply wpp_ret.
    replace (p + m - 1 + 1) with (p + m) by lia.
    apply (finish_carry_ok _ p n m c s s1 (value + val s p m)); [lia|done|by eapply writes_le; [exact W|lia..]|done| | |].
    + unfold bytes_fuel. subst n. zcase; lia.
    + rewrite Z.mul_1_l in E. replace m with (k + (m - k)) by lia. rewrite !val_app by lia.
      rewrite (writes_val _ _ _ _ (p + k) (m - k) W) by (unfold apart; lia). destruct (decide (k = m)) as [->|]; [rewrite Z.sub_diag, !(val_0 _ _ 0), Z.add_0_r by lia; lia|].
      apply Z.eqb_eq in Hstop; [subst c; lia|lia].
    + intros c' s' Hc' W' E'. apply HQ; [done|done|]. rewrite Z.mod_small; [done|].
      pose proof (val_range s p m Hs ltac:(lia)). pose proof (Z.pow_le_mono_r 256 m n). lia.
  - apply wpp_bind.
    apply (carry_loop_ok s (λ b, b) (λ c, c =? 0) 1 p res m); [lia|split; lia|lia|done|done|done|done|done| |unfold bytes_fuel; lia|].
    { unfold up_ok in *. lia. }
    intros k c s1 Hk Hstop Hc W E. rewrite Z.mul_1_l in E. cbv beta iota. apply wpp_bind.
    apply (copy_rest_ok _ s); [done|done|done|done|unfold up_ok in *; lia|done|unfold bytes_fuel; lia|].
    set (j := Z.min m res_size) in *. intros s2 W2 E2. apply wpp_ret.
    apply (finish_carry_ok _ res res_size j c s s2 (value + val s p j)); [lia|done|done|done|unfold bytes_fuel; lia| |].
    + rewrite E2. replace j with (k + (j - k)) by lia. rewrite (val_app s) by lia. replace (k + (j - k)) with j by lia.
      destruct (decide (k = j)) as [->|]; [rewrite Z.sub_diag, !(val_0 _ _ 0) by lia; lia|].
      apply Z.eqb_eq in Hstop; [subst c; lia|lia].
    + intros c' s' Hc' W' E'. apply HQ; [done|done|]. rewrite E'. f_equal. unfold j.
      destruct (Z.min_spec m res_size) as [[? ->]|[? ->]]; [|symmetry; by apply val_mod].
      rewrite Z.mod_small; [done|]. pose proof (val_range s p m Hs ltac:(lia)). pose proof (Z.pow_le_mono_r 256 m res_size). lia.
Qed.

(** *** [math_memory_add] *)

Lemma val_split_mod s p m k n :
  wf s → 0 ≤ k ≤ m → k ≤ n →
  val s p m mod 256 ^ n = val s p k + 256 ^ k * (val s (p + k) (m - k) mod 256 ^ (n - k)).
Proof.
  intros Hs Hk Hn. replace m with (k + (m - k)) at 1 by lia. rewrite val_app by lia.
  replace n with (k + (n - k)) at 1 by lia. rewrite Z.pow_add_r by lia.
  pose proof (pow_pos k ltac:(lia)). pose proof (pow_pos (n - k) ltac:(lia)).
  pose proof (val_range s p k Hs ltac:(lia)).
  symmetry. apply (Z.mod_unique_pos _ _ (val s (p + k) (m - k) / 256 ^ (n - k))).
  - pose proof (Z.mod_pos_bound (val s (p + k) (m - k)) (256 ^ (n - k))). nia.
  - rewrite (Z.div_mod (val s (p + k) (m - k)) (256 ^ (n - k))) at 1 by lia. ring.
Qed.

Lemma val_small_mod s p m n : wf s → 0 ≤ m ≤ n → val s p m mod 256 ^ n = val s p m.
Proof.
  intros Hs Hm. apply Z.mod_small. pose proof (val_range s p m Hs). pose proof (Z.pow_le_mono_r 256 m n). lia.
Qed.

(** A block the result may be written over: it starts at the result or after it,
    or ends before it, and a block the result replaces fits. *)
Definition may_overwrite (r n p m : Z) : Prop := up_ok r p m ∧ (r = p → m ≤ n).

(** The operand left over when the other one ended. *)
Lemma add_tail_ok s s1 p size m r n k c T (Q : Z → mem → Prop) :
  0 ≤ k ≤ n → k < m → m ≤ size → 0 < r → wf s → live s p size → live s r n → may_overwrite r n p size →
  writes s s1 r k → byte_ok c → val s1 r k + c * 256 ^ k = T + val s p k →
  (∀ c' s', byte_ok c' → writes s s' r n → val s' r n + c' * 256 ^ n = T + val s p m mod 256 ^ n → Q c' s') →
  wpp (math_memory_add_single (p + k) (p + m - 1 - (p + k) + 1) c (r + k) (r + n - (r + k))) s1 Q.
Proof.
  intros Hk Hm Hsz Hr Hs Hp Hl [Ho Hfit] W Hc E HQ.
  replace (p + m - 1 - (p + k) + 1) with (m - k) by lia. replace (r + n - (r + k)) with (n - k) by lia.
  assert (in_place (p + k) (r + k) = (r =? p)) as Hin.
  { unfold in_place. destruct (Z.eqb_spec (r + k) 0), (Z.eqb_spec (r + k) (p + k)), (Z.eqb_spec r p); lia || done. }
  assert (target (p + k) (r + k) = r + k) as Ht by (unfold target; rewrite Hin; destruct (Z.eqb_spec r p); lia).
  assert (target_size (p + k) (m - k) (r + k) (n - k) = n - k) as Hts.
  { unfold target_size. rewrite Hin. destruct (Z.eqb_spec r p), (Z.eqb_spec (n - k) 0); simpl; lia. }
  apply math_memory_add_single_ok; [|done|].
  - unfold operands_ok. rewrite Ht, Hts, Hin. split_and!; [lia|lia|apply W| | |].
    + eapply writes_live; [exact W|]. eapply live_le; [exact Hp|lia..].
    + eapply writes_live; [exact W|]. eapply live_le; [exact Hl|lia..].
    + destruct (Z.eqb_spec r p); [lia|]. unfold up_ok in *. lia.
  - rewrite Ht, Hts. intros c' s2 Hc' W2 E2. apply HQ; [done|eapply writes_trans; [exact W|exact W2|lia..]|].
    rewrite (writes_val _ _ _ _ (p + k) (m - k) W) in E2 by (unfold up_ok in Ho; unfold apart; lia).
    rewrite (val_split_mod s p m k n) by (done || lia).
    replace n with (k + (n - k)) at 1 2 by lia. rewrite val_app, Z.pow_add_r by lia.
    rewrite (writes_val _ _ _ _ r k W2) by (unfold apart; lia). nia.
Qed.

Lemma math_memory_add_ok left lsize right rsize res res_size s (Q : Z → mem → Prop) :
  let r := if res =? 0 then left else res in
  let n := if res_size =? 0 then lsize else res_size in
  0 < left → 0 ≤ res → 0 ≤ lsize → 0 ≤ rsize → 0 ≤ res_size →
  wf s → live s left lsize → live s right rsize → live s r n →
  may_overwrite r n left lsize → may_overwrite r n right rsize →
  (∀ c s', byte_ok c → writes s s' r n →
     val s' r n + c * 256 ^ n = val s left lsize mod 256 ^ n + val s right rsize mod 256 ^ n → Q c s') →
  wpp (math_memory_add left lsize right rsize res res_size) s Q.
Proof.
  intros r n Hleft Hres Hls Hrs Hrz Hs Hl Hr Hd Hol Hor HQ. unfold math_memory_add.
  apply wpp_bind, math_memory_shrink_ok; [done|done|]. intros ml Sl.
  apply wpp_bind, math_memory_shrink_ok; [done|done|]. intros mr Sr.
  rewrite (sig_val _ _ _ _ Sl), (sig_val _ _ _ _ Sr) in HQ.
  pose proof (sig_range _ _ _ _ Sl) as Rl. pose proof (sig_range _ _ _ _ Sr) as Rr. cbv zeta. fold r n.
  assert (0 < r ∧ 0 ≤ n) as [Hr0 Hn0] by (unfold r, n; split; zcase; lia).
  apply wpp_bind.
  apply (wpp_while (λ k x s', ∃ c, x = (left + k, right + k, r + k, c) ∧ k ≤ ml ∧ k ≤ mr ∧ k ≤ n ∧ byte_ok c ∧ writes s s' r k ∧
    val s' r k + c * 256 ^ k = val s left k + val s right k) n); [|exists 0|unfold bytes_fuel; lia|done].
  - intros k x s1 Hk (c & -> & Hkl & Hkr & Hkn & Hc & W & E). cbv beta iota.
    destruct ((left + k <=? left + ml - 1) && (right + k <=? right + mr - 1) && (r + k <? r + n)) eqn:Hgo.
    + apply andb_true_iff in Hgo as [[H1%Z.leb_le H2%Z.leb_le]%andb_true_iff H3%Z.ltb_lt]. split; [lia|].
      apply wpp_bind. eapply wpp_rd; [eapply (operand_kept s left r lsize); [done|apply Hol|lia|done]|].
      apply wpp_bind. eapply wpp_rd; [eapply (operand_kept s right r rsize); [done|apply Hor|lia|done]|]. cbv zeta.
      pose proof (wf_total s (left + k) Hs) as Ha. pose proof (wf_total s (right + k) Hs) as Hb.
      set (ab := s !!! (left + k) + s !!! (right + k)). set (x := u16 (c + ab)).
      assert (x = c + ab) as Hx by (apply wrap_small; unfold byte_ok in *; unfold ab; lia).
      destruct (writes_next' s s1 r k (Z.land x 255) n ltac:(lia) W Hd) as (L & W2 & V2).
      apply wpp_bind, wpp_wr; [done|]. apply wpp_ret. exists (Z.shiftr x 8). rewrite <-!Z.add_assoc. split_and!; [done|lia|lia|lia| |done|].
      * rewrite shiftr_8, Hx. unfold byte_ok in *. unfold ab. split; [apply Z.div_pos; lia|apply Z.div_lt_upper_bound; lia].
      * rewrite V2, u8_land_ff, shiftr_8, pow_succ, !val_snoc, Hx by lia.
        rewrite (carry_step _ _ _ _ _ E). unfold ab. ring.
    + cbv beta iota. rewrite (u8_id c) by done. destruct (Z.leb_spec (right + k) (right + mr - 1)) as [Hcr|Hcr].
      { assert (val s left ml mod 256 ^ n = val s left k) as EL.
        { destruct (decide (k = n)) as [->|]; [by apply val_mod|]. apply andb_false_iff in Hgo as [Hgo|Hgo%Z.ltb_ge]; [|lia].
          rewrite andb_true_r in Hgo. apply Z.leb_gt in Hgo.
          replace ml with k by lia. apply val_small_mod; [done|lia]. }
        apply (add_tail_ok s s1 right rsize mr r n k c (val s left k)); [lia|lia|lia|done..|].
        intros c' s' Hc' W' E'. apply HQ; [done|done|]. lia. }
      replace k with mr in * by lia. destruct (Z.leb_spec (left + mr) (left + ml - 1)) as [Hcl|Hcl].
      { apply (add_tail_ok s s1 left lsize ml r n mr c (val s right mr)); [lia|lia|lia|done..|lia|].
        intros c' s' Hc' W' E'. apply HQ; [done|done|]. rewrite (val_small_mod s right mr) by (done || lia). lia. }
      replace ml with mr in * by lia. rewrite !val_small_mod in HQ by (done || lia). zcase as Hlt.
      * destruct (writes_next' s s1 r mr c n ltac:(lia) W Hd) as (L & W2 & V2). apply wpp_bind, wpp_wr; [done|].
        apply wpp_bind. rewrite <-Z.add_assoc. apply (fill_zero_ok _ _ _ _ s); [lia|done|done|unfold bytes_fuel; lia|]. intros s3 W3 V3.
        apply wpp_ret, HQ; [split; lia|done|]. rewrite V3, V2, u8_id by done. lia.
      * apply wpp_ret, HQ; [done|by replace n with mr by lia|]. by replace n with mr by lia.
  - rewrite !Z.add_0_r, !val_0 by lia. split_and!; [done|lia|lia|lia|split; lia|by apply writes_refl|lia].
Qed.

(** ** Bitwise operations are correct *)

(** A loop that writes [f i] to byte [i]. *)
Lemma map_loop_ok {X} (at_ : Z → X) fuel n r s (f : Z → Z) c (body : X → prog mem X) (Q : X → mem → Prop) :
  0 ≤ n → wf s → live s r n → n < Z.of_nat fuel → (∀ k, byte_ok (f k)) →
  (∀ k s1 (Q1 : X → mem → Prop), 0 ≤ k < n → writes s s1 r k → (∀ i, k ≤ i < n → s1 !!! (r + i) = s !!! (r + i)) →
     Q1 (at_ (k + 1)) (<[r + k := f k]> s1) → wpp (body (at_ k)) s1 Q1) →
  (∀ k, 0 ≤ k < n → c (at_ k) = true) → c (at_ n) = false →
  (∀ s', writes s s' r n → (∀ i, 0 ≤ i < n → s' !!! (r + i) = f i) → Q (at_ n) s') →
  wpp (while fuel c body (at_ 0)) s Q.
Proof.
  intros Hn Hs Hl Hf Hb Hbody Hc Hcn HQ.
  apply (wpp_count (λ k x s', x = at_ k ∧ writes s s' r k ∧ ∀ i, 0 ≤ i < k → s' !!! (r + i) = f i) n); [| | |done|lia].
  - intros k x s1 Hk (-> & W & E). split; [by apply Hc|]. apply Hbody; [done|done| |].
    + intros i Hi. apply (writes_total _ _ _ _ _ W). lia.
    + split; [done|]. pose proof (writes_next s s1 r k (f k) ltac:(lia) W ltac:(apply Hl; lia)) as [W' _]. rewrite u8_id in W' by done.
      split; [done|]. intros i Hi. destruct (decide (i = k)) as [->|]; [apply lookup_total_insert_eq|].
      rewrite lookup_total_insert_ne by lia. apply E. lia.
  - intros x s1 (-> & W & E). split; [done|]. by apply HQ.
  - split_and!; [done|by apply writes_refl|lia].
Qed.

(** [op] keeps bytes and acts on each byte of a number. *)
Class ByteOp (op : Z → Z → Z) : Prop := {
  byte_op_ok : ∀ a b, byte_ok a → byte_ok b → byte_ok (op a b);
  byte_op_split : ∀ a b x y, byte_ok a → byte_ok b → op (a + 256 * x) (b + 256 * y) = op a b + 256 * op x y;
  byte_op_zero : op 0 0 = 0;
}.

Lemma byte_high a i : byte_ok a → 8 ≤ i → Z.testbit a i = false.
Proof.
  intros Ha Hi. unfold byte_ok in Ha.
  exact (proj1 (Z.bounded_iff_bits_nonneg 8 a ltac:(lia) ltac:(lia)) ltac:(change (2 ^ 8) with 256; lia) i ltac:(lia)).
Qed.
Lemma add_shift_byte a x : byte_ok a → a + 256 * x = Z.lor a (Z.shiftl x 8).
Proof. intros Ha. by rewrite lor_shiftl_add. Qed.
Lemma testbit_shift_byte a x i : byte_ok a → 0 ≤ i → Z.testbit (a + 256 * x) i = if i <? 8 then Z.testbit a i else Z.testbit x (i - 8).
Proof.
  intros Ha Hi. rewrite add_shift_byte, Z.lor_spec, Z.shiftl_spec by done. destruct (Z.ltb_spec i 8).
  - by rewrite (Z.testbit_neg_r x (i - 8)), orb_false_r by lia.
  - by rewrite (byte_high a i).
Qed.

(** Byte-wise from bit-wise. *)
Lemma bit_op_byte_op (op : Z → Z → Z) (f : bool → bool → bool) :
  (∀ x y i, Z.testbit (op x y) i = f (Z.testbit x i) (Z.testbit y i)) → f false false = false →
  (∀ a b, 0 ≤ a → 0 ≤ b → 0 ≤ op a b) → ByteOp op.
Proof.
  intros Hop Hf Hpos. assert (∀ a b, byte_ok a → byte_ok b → byte_ok (op a b)) as Hok.
  { intros a b Ha Hb. pose proof (Hpos a b ltac:(apply Ha) ltac:(apply Hb)). split; [done|].
    change 256 with (2 ^ 8). apply Z.bounded_iff_bits_nonneg; [done|done|]. intros i Hi. rewrite Hop.
    by rewrite (byte_high a i), (byte_high b i). }
  split; [done| |].
  - intros a b x y Ha Hb. apply Z.bits_inj'. intros i Hi. rewrite Hop, !testbit_shift_byte by auto.
    rewrite !Hop. by destruct (i <? 8).
  - apply Z.bits_inj'. intros i Hi. by rewrite Hop, Z.bits_0.
Qed.
#[export] Instance byte_op_land : ByteOp Z.land.
Proof. apply (bit_op_byte_op _ andb); [apply Z.land_spec|done|]. intros. apply Z.land_nonneg. lia. Qed.
#[export] Instance byte_op_lor : ByteOp Z.lor.
Proof. apply (bit_op_byte_op _ orb); [apply Z.lor_spec|done|]. intros. apply Z.lor_nonneg. lia. Qed.
#[export] Instance byte_op_lxor : ByteOp Z.lxor.
Proof. apply (bit_op_byte_op _ xorb); [apply Z.lxor_spec|done|]. intros. apply Z.lxor_nonneg. lia. Qed.

Lemma byte_op_num op `{ByteOp op} s p q s' r n :
  wf s → (∀ i, 0 ≤ i < Z.of_nat n → s' !!! (r + i) = op (s !!! (p + i)) (s !!! (q + i))) →
  num s' r n = op (num s p n) (num s q n).
Proof.
  intros Hs. revert p q r. induction n as [|n IH]; intros p q r E; cbn [num]; [by rewrite byte_op_zero|].
  rewrite byte_op_split by (by apply wf_total). pose proof (E 0 ltac:(lia)) as E0. rewrite !Z.add_0_r in E0. rewrite E0.
  rewrite (IH (p + 1) (q + 1)); [done|]. intros i Hi. rewrite <-!Z.add_assoc, !(Z.add_comm 1 i). apply E. lia.
Qed.

Lemma target_cases p res : negb (res =? 0) && negb (res =? p) = true ∧ target p res = res ∨
  negb (res =? 0) && negb (res =? p) = false ∧ target p res = p.
Proof. rewrite in_place_spec. unfold target. destruct (in_place p res); [by right|by left]. Qed.

Lemma math_memory_op_ok op `{ByteOp op} left right res n s (Q : unit → mem → Prop) :
  let r := target left res in
  0 ≤ n → wf s → live s left n → live s right n → live s r n → up_ok r left n → up_ok r right n →
  (∀ s', writes s s' r n → val s' r n = op (val s left n) (val s right n) → Q tt s') →
  wpp (math_memory_op op left right res n) s Q.
Proof.
  intros r Hn Hs Hl Hr Ht Ol Or HQ. unfold math_memory_op. subst r.
  set (f := λ k, op (s !!! (left + k)) (s !!! (right + k))).
  assert (∀ k, byte_ok (f k)) as Hf by (intros; apply byte_op_ok; by apply wf_total).
  assert (∀ s', writes s s' (target left res) n → (∀ i, 0 ≤ i < n → s' !!! (target left res + i) = f i) → Q tt s') as HQ'.
  { intros s' W E. apply HQ; [done|]. apply byte_op_num; [done|done|]. intros i Hi. apply E. lia. }
  destruct (target_cases left res) as [[-> Et]|[-> Et]]; rewrite Et in *; apply wpp_bind.
  - replace (left, right, res) with (left + 0, right + 0, res + 0) by (by rewrite !Z.add_0_r).
    apply (map_loop_ok (λ k, (left + k, right + k, res + k)) _ n res s f); try done; [unfold bytes_fuel; lia| |intros k Hk; apply Z.ltb_lt; lia|apply Z.ltb_irrefl].
    intros k s1 Q1 Hk W E HQ1. apply wpp_bind. eapply wpp_rd; [apply (operand_kept s left res n Hl s1 k); [done|lia|done]|].
    apply wpp_bind. eapply wpp_rd; [apply (operand_kept s right res n Hr s1 k); [done|lia|done]|].
    apply wpp_bind, wpp_wr; [eapply writes_live; [exact W|exact Ht|lia]|]. rewrite u8_id by apply Hf. apply wpp_ret.
    rewrite <-!Z.add_assoc. apply HQ1.
  - replace (right, left) with (right + 0, left + 0) by (by rewrite !Z.add_0_r).
    apply (map_loop_ok (λ k, (right + k, left + k)) _ n left s f); try done; [unfold bytes_fuel; lia| |intros k Hk; apply Z.ltb_lt; lia|apply Z.ltb_irrefl].
    intros k s1 Q1 Hk W E HQ1. apply wpp_bind. eapply wpp_rd; [apply (operand_kept s left left n Hl s1 k); [done|lia|done]|].
    apply wpp_bind. eapply wpp_rd; [apply (operand_kept s right left n Hr s1 k); [done|lia|done]|].
    apply wpp_bind, wpp_wr; [eapply writes_live; [exact W|exact Ht|lia]|]. rewrite u8_id by apply Hf. apply wpp_ret.
    rewrite <-!Z.add_assoc. apply HQ1.
Qed.

Lemma u8_lnot b : byte_ok b → u8 (Z.lnot b) = 255 - b.
Proof.
  unfold byte_ok, wrap. intros Hb. change (2 ^ 8) with 256. replace (Z.lnot b) with (255 - b + -1 * 256) by (unfold Z.lnot; lia).
  rewrite Z.mod_add by lia. apply Z.mod_small. lia.
Qed.

Lemma not_num s s' r p n :
  (∀ i, 0 ≤ i < Z.of_nat n → s' !!! (r + i) = 255 - s !!! (p + i)) → num s' r n = 256 ^ Z.of_nat n - 1 - num s p n.
Proof.
  revert r p. induction n as [|n IH]; intros r p E; cbn [num]; [done|]. rewrite Nat2Z.inj_succ, Z.pow_succ_r by lia.
  pose proof (E 0 ltac:(lia)) as E0. rewrite !Z.add_0_r in E0. rewrite E0, (IH (r + 1) (p + 1)); [lia|].
  intros i Hi. rewrite <-!Z.add_assoc, !(Z.add_comm 1 i). apply E. lia.
Qed.

Lemma math_memory_not_ok p res n s (Q : unit → mem → Prop) :
  let r := target p res in
  0 ≤ n → wf s → live s p n → live s r n → up_ok r p n →
  (∀ s', writes s s' r n → val s' r n = 256 ^ n - 1 - val s p n → Q tt s') → wpp (math_memory_not p res n) s Q.
Proof.
  intros r Hn Hs Hl Ht Ol HQ. unfold math_memory_not. subst r. set (f := λ k, 255 - s !!! (p + k)).
  assert (∀ k, byte_ok (f k)) as Hf by (intros k; pose proof (wf_total s (p + k) Hs); unfold f, byte_ok in *; lia).
  assert (∀ s', writes s s' (target p res) n → (∀ i, 0 ≤ i < n → s' !!! (target p res + i) = f i) → Q tt s') as HQ'.
  { intros s' W E. apply HQ; [done|]. unfold val. rewrite (not_num s s' _ p); [by rewrite Z2Nat.id|]. intros i Hi. apply E. lia. }
  destruct (target_cases p res) as [[-> Et]|[-> Et]]; rewrite Et in *; apply wpp_bind.
  - replace (p, res) with (p + 0, res + 0) by (by rewrite !Z.add_0_r).
    apply (map_loop_ok (λ k, (p + k, res + k)) _ n res s f); try done; [unfold bytes_fuel; lia| |intros k Hk; apply Z.ltb_lt; lia|apply Z.ltb_irrefl].
    intros k s1 Q1 Hk W E HQ1. apply wpp_bind. eapply wpp_rd; [apply (operand_kept s p res n Hl s1 k); [done|lia|done]|].
    apply wpp_bind, wpp_wr; [eapply writes_live; [exact W|exact Ht|lia]|]. rewrite u8_lnot by (by apply wf_total). apply wpp_ret.
    rewrite <-!Z.add_assoc. apply HQ1.
  - replace (while (bytes_fuel n) (λ res, res <? p + n) (λ res, b ← rd res; wr res (Z.lnot b);; mret (res + 1)) p)
      with (while (bytes_fuel n) (λ res, res <? p + n) (λ res, b ← rd res; wr res (Z.lnot b);; mret (res + 1)) (p + 0)) by (by rewrite Z.add_0_r).
    apply (map_loop_ok (λ k, p + k) _ n p s f); try done; [unfold bytes_fuel; lia| |intros k Hk; apply Z.ltb_lt; lia|apply Z.ltb_irrefl].
    intros k s1 Q1 Hk W E HQ1. apply wpp_bind. eapply wpp_rd; [apply (operand_kept s p p n Hl s1 k); [done|lia|done]|].
    apply wpp_bind, wpp_wr; [eapply writes_live; [exact W|exact Ht|lia]|]. rewrite u8_lnot by (by apply wf_total). apply wpp_ret.
    rewrite <-!Z.add_assoc. apply HQ1.
Qed.

(** Two's complement. *)
Lemma math_memory_complement_ok p m res res_size s (Q : unit → mem → Prop) :
  let r := if res =? 0 then p else res in
  let n := if res_size =? 0 then m else res_size in
  0 < p → 0 ≤ res → 0 ≤ m ≤ n → wf s → live s p m → live s r n → up_ok r p m →
  (∀ s', writes s s' r n → val s' r n = (256 ^ m - val s p m) mod 256 ^ n → Q tt s') →
  wpp (math_memory_complement p m res res_size) s Q.
Proof.
  intros r n Hp Hres Hm Hs Hl Ht Ol HQ. unfold math_memory_complement. cbv zeta. fold r n.
  assert (0 < r) as Hr by (unfold r; zcase; lia).
  assert (target p r = r) as Et by (unfold target, in_place; destruct (Z.eqb_spec r 0), (Z.eqb_spec r p); simpl; lia).
  apply wpp_bind, math_memory_not_ok; rewrite ?Et; [lia|done|done|eapply live_le; [exact Ht|lia..]|done|].
  intros s1 W1 V1. assert (target r 0 = r ∧ target_size r m 0 n = n) as [Et2 Ets].
  { unfold target, target_size, in_place. cbn [Z.eqb orb andb]. split; [done|]. destruct (Z.eqb_spec n 0); [lia|done]. }
  apply wpp_bind, math_memory_add_single_ok; rewrite ?Et2, ?Ets; [|split; lia|].
  { unfold operands_ok. rewrite Et2, Ets. split_and!; [lia|lia|apply W1| | |simpl; lia].
    - eapply writes_live; [exact W1|]. eapply live_le; [exact Ht|lia..].
    - by eapply writes_live. }
  intros c s2 Hc W2 E2. apply wpp_ret, HQ; [eapply writes_trans; [exact W1|exact W2|lia..]|].
  rewrite val_small_mod, V1 in E2 by (apply W1 || lia). pose proof (pow_pos n ltac:(lia)).
  apply (Z.mod_unique_pos _ _ c); [apply val_range; [apply W2|lia]|lia].
Qed.

(** ** Properties *)

(** [math_memory_add] adds two little-endian numbers of any length and
    leaves the sum of the bytes that fit the result, modulo [256 ^ n], in the
    [n] bytes of the result and the carry in its return value, whichever operand
    is longer, in place or not, and changes nothing else. *)
Theorem math_memory_add_adds left lsize right rsize res res_size s :
  let r := if res =? 0 then left else res in
  let n := if res_size =? 0 then lsize else res_size in
  0 < left → 0 ≤ res → 0 ≤ lsize → 0 ≤ rsize → 0 ≤ res_size →
  wf s → live s left lsize → live s right rsize → live s r n →
  may_overwrite r n left lsize → may_overwrite r n right rsize →
  ∃ carry s', math_memory_add left lsize right rsize res res_size s = Ok (carry, s') ∧
    writes s s' r n ∧ byte_ok carry ∧
    val s' r n + carry * 256 ^ n = val s left lsize mod 256 ^ n + val s right rsize mod 256 ^ n.
Proof. intros. apply wpp_ok, math_memory_add_ok; auto. Qed.

Lemma math_memory_add_adds_witness :
  let s := bytes_at 1 [255; 255; 3; 2; 0; 0] in
  val s 1 2 = 65535 ∧ val s 3 2 = 515 ∧
  ∃ carry s', math_memory_add 1 2 3 2 0 0 s = Ok (carry, s') ∧
    writes s s' 1 2 ∧ byte_ok carry ∧ val s' 1 2 + carry * 65536 = 65535 + 515.
Proof.
  split_and!; [by vm_compute..|].
  refine (math_memory_add_adds 1 2 3 2 0 0 (bytes_at 1 [255; 255; 3; 2; 0; 0]) _ _ _ _ _ _ _ _ _ _ _);
    first [on_bytes|split; [unfold up_ok; on_bytes|on_bytes]].
Defined.

(** The byte loops [math_memory_and], [_or], [_xor] and [_not] compute the
    bitwise operation of the whole numbers, and [math_memory_complement] the
    two's complement, over a target that is apart, below or in place. *)
Theorem math_memory_bitwise left right res n s :
  let r := target left res in
  0 ≤ n → wf s → live s left n → live s right n → live s r n → up_ok r left n → up_ok r right n →
  (∃ s', math_memory_and left right res n s = Ok (tt, s') ∧ writes s s' r n ∧
     val s' r n = Z.land (val s left n) (val s right n)) ∧
  (∃ s', math_memory_or left right res n s = Ok (tt, s') ∧ writes s s' r n ∧
     val s' r n = Z.lor (val s left n) (val s right n)) ∧
  (∃ s', math_memory_xor left right res n s = Ok (tt, s') ∧ writes s s' r n ∧
     val s' r n = Z.lxor (val s left n) (val s right n)) ∧
  (∃ s', math_memory_not left res n s = Ok (tt, s') ∧ writes s s' r n ∧
     val s' r n = 256 ^ n - 1 - val s left n) ∧
  (0 < left → 0 ≤ res → ∃ s', math_memory_complement left n res 0 s = Ok (tt, s') ∧ writes s s' r n ∧
     val s' r n = (- val s left n) mod 256 ^ n).
Proof.
  intros r Hn Hs Hl Hr Ht O1 O2. split_and!.
  1-3: apply wpp_result, math_memory_op_ok; auto; apply _.
  - apply wpp_result, math_memory_not_ok; auto.
  - intros Hp Hres. assert ((if res =? 0 then left else res) = r) as E.
    { unfold r, target, in_place. by destruct (Z.eqb_spec res 0), (Z.eqb_spec res left). }
    apply wpp_result, math_memory_complement_ok; cbn [Z.eqb]; rewrite ?E; auto; [lia|].
    intros s' W V. split_and!; [done..|]. rewrite V, <-(Z.mod_add (- _) 1) by lia. f_equal. lia.
Qed.

Lemma math_memory_bitwise_witness :
  let s := bytes_at 1 [12; 10; 5; 6] in
  ∃ s', math_memory_xor 1 3 0 2 s = Ok (tt, s') ∧ writes s s' 1 2 ∧ val s' 1 2 = Z.lxor (val s 1 2) (val s 3 2).
Proof.
  refine (proj1 (proj2 (proj2 (math_memory_bitwise 1 3 0 2 (bytes_at 1 [12; 10; 5; 6]) _ _ _ _ _ _ _))));
    first [on_bytes|unfold up_ok; on_bytes].
Defined.
