(* ===== verification/BigSub.v ===== *)
(** BigSub: comparison and subtraction of src/lib/math.c. *)
From S2P Require Import Prelude Memory Bignum.

(** ** Comparison and subtraction *)

Definition math_memory_cmp_base (left_last right right_last : Z) : prog mem Z :=
  ploop (bytes_fuel (right_last - right + 1)) (λ '(left_last, right_last),
    if right <=? right_last then
      a ← rd left_last;
      b ← rd right_last;
      if negb (a =? b) then mret (inr (if b <? a then 1 else -1))
      else mret (inl (left_last - 1, right_last - 1))
    else mret (inr 0)) (left_last, right_last).

Definition math_memory_cmp (left lsize right rsize : Z) : prog mem Z :=
  left_last ← math_memory_shrink left lsize;
  right_last ← math_memory_shrink right rsize;
  let lsize := left_last - left + 1 in
  let rsize := right_last - right + 1 in
  if rsize <? lsize then mret 1
  else if lsize <? rsize then mret (-1)
  else math_memory_cmp_base left_last right right_last.

(** The byte stored in [*res] and the carry returned. *)
Definition math_byte_sub_carry (lhs rhs carry : Z) : Z * Z :=
  let '(lhs, carry) :=
    if lhs <? carry then (u8 (lhs + (0xFF - carry + 1)), 1) else (lhs - carry, 0) in
  if lhs <? rhs then (u8 (lhs + (0xFF - rhs + 1)), carry + 1) else (lhs - rhs, carry).

Definition is_true (x : Z) : bool := negb (x =? 0).

Definition math_memory_sub_single (p mem_size value carry res res_size : Z) : prog mem Z :=
  let fuel := bytes_fuel (mem_size + res_size) in
  mem_last ← math_memory_shrink p mem_size;
  '(res, res_end, value, carry) ←
    (if negb (res =? 0) && negb (res =? p) then
       let res_end := res + res_size in
       '(p, res, value, carry) ← while fuel
         (λ '(p, res, value, carry), (p <=? mem_last) && (res <? res_end) && (is_true value || is_true carry))
         (λ '(p, res, value, carry),
           b ← rd p;
           let '(b, carry) := math_byte_sub_carry b value carry in
           wr res b;;
           mret (p + 1, res + 1, 0, carry)) (p, res, value, carry);
       '(_, res) ← while fuel (λ '(p, res), (p <=? mem_last) && (res <? res_end))
         (λ '(p, res), b ← rd p; wr res b;; mret (p + 1, res + 1)) (p, res);
       mret (res, res_end, value, carry)
     else
       let res_size := if res_size =? 0 then mem_size else res_size in
       let res_end := p + res_size in
       '(_, value, carry) ← while fuel
         (λ '(res, value, carry), (res <=? mem_last) && (is_true value || is_true carry))
         (λ '(res, value, carry),
           b ← rd res;
           let '(b, carry) := math_byte_sub_carry b value carry in
           wr res b;;
           mret (res + 1, 0, carry)) (p, value, carry);
       mret (mem_last + 1, res_end, value, carry));
  if is_true carry || is_true value then
    '(res, value, carry) ← while fuel
      (λ '(res, value, carry), (res <? res_end) && (is_true value || negb (carry =? 1)))
      (λ '(res, value, carry),
        let '(b, carry) := math_byte_sub_carry 0 value carry in
        wr res b;;
        mret (res + 1, 0, carry)) (res, value, carry);
    fill_to fuel 0xFF res res_end;;
    mret carry
  else
    fill_to fuel 0 res res_end;;
    mret carry.

Definition math_memory_sub_single2 (value carry p mem_size res res_size : Z) : prog mem Z :=
  let fuel := bytes_fuel (mem_size + res_size) in
  mem_last ← math_memory_shrink p mem_size;
  '(res, res_end, value, carry) ←
    (if negb (res =? 0) && negb (res =? p) then
       let res_end := res + res_size in
       '(p, res, value, carry) ← while fuel
         (λ '(p, res, value, carry), (p <=? mem_last) && (res <? res_end) && (is_true value || negb (carry =? 1)))
         (λ '(p, res, value, carry),
           b ← rd p;
           let '(value, carry) := math_byte_sub_carry value b carry in
           wr res value;;
           mret (p + 1, res + 1, 0, carry)) (p, res, value, carry);
       '(_, res) ← while fuel (λ '(p, res), (p <=? mem_last) && (res <? res_end))
         (λ '(p, res), b ← rd p; wr res (0xFF - b);; mret (p + 1, res + 1)) (p, res);
       mret (res, res_end, value, carry)
     else
       let res_size := if res_size =? 0 then mem_size else res_size in
       let res_end := p + res_size in
       '(res, value, carry) ← while fuel
         (λ '(res, value, carry), (res <=? mem_last) && (is_true value || negb (carry =? 1)))
         (λ '(res, value, carry),
           b ← rd res;
           let '(value, carry) := math_byte_sub_carry value b carry in
           wr res value;;
           mret (res + 1, 0, carry)) (p, value, carry);
       res ← while fuel (λ res, res <=? mem_last) (λ res, b ← rd res; wr res (0xFF - b);; mret (res + 1)) res;
       mret (res, res_end, value, carry));
  if value <? carry then
    '(res, value, carry) ← while fuel
      (λ '(res, value, carry), (res <? res_end) && (is_true value || negb (carry =? 1)))
      (λ '(res, value, carry),
        let '(value, carry) := math_byte_sub_carry value 0 carry in
        wr res value;;
        mret (res + 1, 0, carry)) (res, value, carry);
    fill_to fuel 0xFF res res_end;;
    mret carry
  else
    res ← (if res <? res_end then wr res (value - carry);; mret (res + 1) else mret res);
    fill_to fuel 0 res res_end;;
    mret 0.

Definition math_memory_sub (left lsize right rsize res res_size : Z) : prog mem Z :=
  left_last ← math_memory_shrink left lsize;
  right_last ← math_memory_shrink right rsize;
  let rest right res res_end carry :=
    let res_size := res_end - res in
    if right <=? right_last then math_memory_sub_single2 0 carry right (right_last - right + 1) res res_size
    else math_memory_sub_single res 0 carry 0 0 res_size in
  if negb (res =? 0) && negb (res =? left) then
    let res_end := res + res_size in
    '(left, right, res, carry) ← while (bytes_fuel (lsize + rsize))
      (λ '(left, right, res, _), (left <=? left_last) && (right <=? right_last) && (res <? res_end))
      (λ '(left, right, res, carry),
        a ← rd left;
        b ← rd right;
        let '(x, carry) := math_byte_sub_carry a b carry in
        wr res x;;
        mret (left + 1, right + 1, res + 1, carry)) (left, right, res, 0);
    if left <=? left_last then math_memory_sub_single left (left_last - left + 1) 0 carry res (res_end - res)
    else rest right res res_end carry
  else
    let res_size := if res_size =? 0 then lsize else res_size in
    let res_end := left + res_size in
    '(right, res, carry) ← while (bytes_fuel (lsize + rsize))
      (λ '(right, res, _), (right <=? right_last) && (res <=? left_last))
      (λ '(right, res, carry),
        a ← rd res;
        b ← rd right;
        let '(x, carry) := math_byte_sub_carry a b carry in
        wr res x;;
        mret (right + 1, res + 1, carry)) (right, left, 0);
    if res <=? left_last then math_memory_sub_single res (left_last - res + 1) 0 carry 0 (res_end - res)
    else rest right res res_end carry.

(** *** One byte of a borrow chain *)

Lemma sub_carry_ok a b c :
  byte_ok a → byte_ok b → byte_ok c →
  let '(x, c') := math_byte_sub_carry a b c in
  byte_ok x ∧ 0 ≤ c' ≤ 2 ∧ (c ≤ 1 → c' ≤ 1) ∧ x - 256 * c' = a - b - c.
Proof.
  unfold byte_ok, math_byte_sub_carry. intros Ha Hb Hc.
  destruct (Z.ltb_spec a c) as [H1|H1].
  - rewrite (wrap_small 8 (a + (0xFF - c + 1))) by (change (2 ^ 8) with 256; lia). zcase as H2.
    + rewrite wrap_small by (change (2 ^ 8) with 256; lia). lia.
    + lia.
  - zcase as H2; [|lia]. rewrite wrap_small by (change (2 ^ 8) with 256; lia). lia.
Qed.

Lemma borrow_next s s1 r k n T a b c :
  0 ≤ k < n → live s r n → writes s s1 r k → byte_ok a → byte_ok b → byte_ok c →
  val s1 r k - c * 256 ^ k = T →
  let '(x, c') := math_byte_sub_carry a b c in
  is_Some (s1 !! (r + k)) ∧ writes s (<[r + k := u8 x]> s1) r (k + 1) ∧ 0 ≤ c' ≤ 2 ∧ (c ≤ 1 → c' ≤ 1) ∧
  val (<[r + k := u8 x]> s1) r (k + 1) - c' * 256 ^ (k + 1) = T + 256 ^ k * (a - b).
Proof.
  intros Hk Hl W Ha Hb Hc E. pose proof (sub_carry_ok a b c Ha Hb Hc) as H.
  destruct (math_byte_sub_carry a b c) as [x c']. destruct H as (Hx & Hc' & H1 & Hv).
  destruct (writes_next' s s1 r k x n Hk W Hl) as (L & W' & V'). split_and!; [done|done|lia|lia|done|].
  rewrite V', u8_id, pow_succ by (done || lia). rewrite <-E. nia.
Qed.

Lemma val_ff s p n : 0 ≤ n → (∀ i, 0 ≤ i < n → s !!! (p + i) = 0xFF) → val s p n = 256 ^ n - 1.
Proof.
  intros Hn. apply (natlike_ind (λ n, (∀ i, 0 ≤ i < n → s !!! (p + i) = 0xFF) → val s p n = 256 ^ n - 1)); [|clear n Hn|done].
  - intros _. by rewrite val_0 by lia.
  - intros n Hn IH H. rewrite <-Z.add_1_r, val_snoc, IH, (H n), pow_succ by (done || lia || (intros; apply H; lia)). lia.
Qed.

Lemma fill_ff_ok fuel res n j s s1 T (Q : unit → mem → Prop) :
  0 ≤ j ≤ n → writes s s1 res j → live s res n → n - j < Z.of_nat fuel → val s1 res j - 256 ^ j = T →
  (∀ s', writes s s' res n → val s' res n - 256 ^ n = T → Q tt s') →
  wpp (fill_to fuel 0xFF (res + j) (res + n)) s1 Q.
Proof.
  intros Hj W Hl Hf E HQ. apply (fill_to_ok _ _ _ _ _ s); [done|split; lia|done..|]. intros s' W' E1 E2. apply HQ; [done|].
  replace n with (j + (n - j)) at 1 2 by lia. rewrite val_app, Z.pow_add_r by lia. rewrite (val_ff s' (res + j)).
  - rewrite (val_ext s' s1 res res j) by done. nia.
  - lia.
  - intros i Hi. rewrite <-Z.add_assoc. apply E2. lia.
Qed.

(** The bytes after the operand when a borrow is pending: [g] computes a byte
    and the new borrow from the pending [value] and [carry], which stand for
    [pend value carry]. *)
Section finish_borrow.
Variables (g : Z → Z → Z * Z) (pend : Z → Z → Z).
Hypothesis pend_carry : ∀ c, pend 0 c = c.
Hypothesis g_ok : ∀ v c, byte_ok v → 0 ≤ c ≤ 1 → 0 < pend v c →
  let '(x, c') := g v c in byte_ok x ∧ c' = 1 ∧ x - 256 = - pend v c.

Lemma finish_borrow_ok fuel r n j v c s s1 T (Q : Z → mem → Prop) :
  0 ≤ j ≤ n → byte_ok v → 0 ≤ c ≤ 1 → (v = 0 ∨ j < n) → 0 < pend v c → writes s s1 r j → live s r n →
  n < Z.of_nat fuel → val s1 r j - pend v c * 256 ^ j = T →
  (∀ s', writes s s' r n → val s' r n - 256 ^ n = T → Q 1 s') →
  wpp ('(res, _, carry) ← while fuel (λ '(res, value, carry), (res <? r + n) && (is_true value || negb (carry =? 1)))
         (λ '(res, value, carry), let '(x, carry) := g value carry in wr res x;; mret (res + 1, 0, carry)) (r + j, v, c);
       fill_to fuel 0xFF res (r + n);;
       mret carry) s1 Q.
Proof.
  intros Hj Hv Hc Hvj Hp W Hl Hf E HQ. apply wpp_bind.
  apply (wpp_while (λ k x s', ∃ v' c', x = (r + (j + k), v', c') ∧ j + k ≤ n ∧ byte_ok v' ∧ 0 ≤ c' ≤ 1 ∧
    (v' = 0 ∨ j + k < n) ∧ 0 < pend v' c' ∧ writes s s' r (j + k) ∧
    val s' r (j + k) - pend v' c' * 256 ^ (j + k) = T) (n - j)); [|exists v, c|lia|lia].
  - intros k x s2 Hk (v' & c' & -> & Hkn & Hv' & Hc' & Hvk & Hp' & W2 & E2).
    destruct ((r + (j + k) <? r + n) && (is_true v' || negb (c' =? 1))) eqn:Hgo.
    + apply andb_true_iff in Hgo as [Hlt%Z.ltb_lt _]. split; [lia|]. pose proof (g_ok v' c' Hv' Hc' Hp') as Hg.
      destruct (g v' c') as [x c2]. destruct Hg as (Hx & -> & Hg).
      destruct (writes_next' s s2 r (j + k) x n ltac:(lia) W2 Hl) as (L & W3 & V3).
      apply wpp_bind, wpp_wr; [done|]. apply wpp_ret. replace (j + (k + 1)) with (j + k + 1) by lia.
      exists 0, 1. rewrite pend_carry. split_and!; [by rewrite <-!Z.add_assoc|lia|split; lia|lia|lia|by left|lia|done|].
      rewrite V3, u8_id, pow_succ by (done || lia). nia.
    + apply wpp_bind. assert (v' = 0 ∧ c' = 1) as [-> ->].
      { apply andb_false_iff in Hgo as [Hgo%Z.ltb_ge|Hgo].
        - destruct Hvk as [->|]; [|lia]. rewrite pend_carry in Hp'. lia.
        - apply orb_false_iff in Hgo as [Hv0 Hc1]. apply negb_false_iff, Z.eqb_eq in Hv0, Hc1. lia. }
      rewrite pend_carry in E2. apply (fill_ff_ok _ _ _ _ s s2 T); [lia|done|done|lia|lia|]. intros s3 W3 V3. apply wpp_ret.
      by apply HQ.
  - rewrite !Z.add_0_r. split_and!; try done; lia.
Qed.
End finish_borrow.

(** The borrow loops: [step b value carry] computes a byte and the new borrow
    from the operand's byte [b], which counts with sign [sg]. *)
Section borrow.
Variables (step : Z → Z → Z → Z * Z) (pend : Z → Z → Z) (go : Z → Z → bool) (sg : Z).
Hypothesis step_ok : ∀ b v c, byte_ok b → byte_ok v → 0 ≤ c ≤ 1 →
  let '(x, c') := step b v c in byte_ok x ∧ 0 ≤ c' ≤ 1 ∧ x - 256 * c' = sg * b - pend v c.
Hypothesis pend_carry : ∀ c, pend 0 c = c.
Variables (s : mem) (p m : Z).
Hypothesis m_nonneg : 0 ≤ m.
Hypothesis s_wf : wf s.
Hypothesis p_live : live s p m.

(** What the loops keep after [k] bytes. *)
Definition borrowed (r v0 c0 k v c : Z) (s' : mem) : Prop :=
  byte_ok v ∧ 0 ≤ c ≤ 1 ∧ (v = 0 ∨ k = 0 ∧ v = v0) ∧ writes s s' r k ∧
  val s' r k - pend v c * 256 ^ k = sg * val s p k - pend v0 c0.

Lemma borrowed_next r v0 c0 k v c s1 n :
  0 ≤ k < n → live s r n → borrowed r v0 c0 k v c s1 →
  let '(x, c') := step (s !!! (p + k)) v c in
  is_Some (s1 !! (r + k)) ∧ borrowed r v0 c0 (k + 1) 0 c' (<[r + k := u8 x]> s1).
Proof.
  intros Hk Hl (Hv & Hc & Hvk & W & E). pose proof (step_ok _ _ _ (wf_total s (p + k) s_wf) Hv Hc) as H.
  destruct (step _ v c) as [x c']. destruct H as (Hx & Hc' & H).
  destruct (writes_next' s s1 r k x n Hk W Hl) as (L & W' & V'). split; [done|].
  unfold borrowed. rewrite pend_carry. split_and!; [split; lia|lia|lia|by left|done|].
  rewrite V', u8_id, pow_succ, val_snoc by (done || lia). nia.
Qed.

Lemma borrowed_start r v0 c0 : byte_ok v0 → 0 ≤ c0 ≤ 1 → borrowed r v0 c0 0 v0 c0 s.
Proof.
  intros Hv Hc. unfold borrowed. rewrite !val_0 by lia. split_and!; [done|lia|lia|by right|by apply writes_refl|lia].
Qed.

Lemma borrow_loop_ok fuel r n v0 c0 Q :
  0 ≤ n → byte_ok v0 → 0 ≤ c0 ≤ 1 → live s r n → up_ok r p m → Z.min m n < Z.of_nat fuel →
  (∀ k v c s', 0 ≤ k ≤ Z.min m n → (k < Z.min m n → go v c = false) → borrowed r v0 c0 k v c s' →
     Q (p + k, r + k, v, c) s') →
  wpp (while fuel (λ '(q, res, v, c), (q <=? p + m - 1) && (res <? r + n) && go v c)
    (λ '(q, res, v, c), b ← rd q; let '(x, c) := step b v c in wr res x;; mret (q + 1, res + 1, 0, c)) (p, r, v0, c0)) s Q.
Proof.
  intros Hn Hv Hc Hl Ho Hf HQ.
  apply (wpp_while (λ k x s', ∃ v c, x = (p + k, r + k, v, c) ∧ k ≤ Z.min m n ∧ borrowed r v0 c0 k v c s') (Z.min m n));
    [|exists v0, c0|done|lia].
  - intros k x s1 Hk (v & c & -> & Hkm & B).
    destruct ((p + k <=? p + m - 1) && (r + k <? r + n) && go v c) eqn:Hgo.
    + apply andb_true_iff in Hgo as [[Hp%Z.leb_le Hr%Z.ltb_lt]%andb_true_iff _]. split; [lia|].
      apply wpp_bind. eapply wpp_rd; [apply (operand_kept s p r m); [done|done|lia|apply B]|].
      pose proof (borrowed_next r v0 c0 k v c s1 n ltac:(lia) Hl B) as H. destruct (step _ v c) as [x c']. destruct H as [L B'].
      apply wpp_bind, wpp_wr; [done|]. apply wpp_ret. eexists _, _. split; [rewrite <-!Z.add_assoc; reflexivity|]. split; [lia|done].
    + apply HQ; [lia| |done]. intros Hlt.
      by rewrite (proj2 (Z.leb_le (p + k) _)), (proj2 (Z.ltb_lt (r + k) _)) in Hgo by lia.
  - rewrite !Z.add_0_r. split_and!; [done|lia|by apply borrowed_start].
Qed.

Lemma borrow_loop_in_place fuel v0 c0 Q :
  byte_ok v0 → 0 ≤ c0 ≤ 1 → m < Z.of_nat fuel →
  (∀ k v c s', 0 ≤ k ≤ m → (k < m → go v c = false) → borrowed p v0 c0 k v c s' → Q (p + k, v, c) s') →
  wpp (while fuel (λ '(res, v, c), (res <=? p + m - 1) && go v c)
    (λ '(res, v, c), b ← rd res; let '(x, c) := step b v c in wr res x;; mret (res + 1, 0, c)) (p, v0, c0)) s Q.
Proof.
  intros Hv Hc Hf HQ.
  apply (wpp_while (λ k x s', ∃ v c, x = (p + k, v, c) ∧ k ≤ m ∧ borrowed p v0 c0 k v c s') m); [|exists v0, c0|done|lia].
  - intros k x s1 Hk (v & c & -> & Hkm & B).
    destruct ((p + k <=? p + m - 1) && go v c) eqn:Hgo.
    + apply andb_true_iff in Hgo as [Hp%Z.leb_le _]. split; [lia|].
      apply wpp_bind. eapply wpp_rd; [apply (operand_kept s p p m); [done|unfold up_ok; lia|lia|apply B]|].
      pose proof (borrowed_next p v0 c0 k v c s1 m ltac:(lia) p_live B) as H. destruct (step _ v c) as [x c']. destruct H as [L B'].
      apply wpp_bind, wpp_wr; [done|]. apply wpp_ret. eexists _, _. split; [rewrite <-!Z.add_assoc; reflexivity|]. split; [lia|done].
    + apply HQ; [lia| |done]. intros Hlt. by rewrite (proj2 (Z.leb_le (p + k) _)) in Hgo by lia.
  - rewrite Z.add_0_r. split_and!; [done|lia|by apply borrowed_start].
Qed.
End borrow.

Lemma sub_step_ok b v c :
  byte_ok b → byte_ok v → 0 ≤ c ≤ 1 →
  let '(x, c') := math_byte_sub_carry b v c in byte_ok x ∧ 0 ≤ c' ≤ 1 ∧ x - 256 * c' = 1 * b - (v + c).
Proof.
  intros Hb Hv Hc. pose proof (sub_carry_ok b v c Hb Hv ltac:(split; lia)) as H.
  destruct (math_byte_sub_carry b v c). lia || (destruct H as (? & ? & ? & ?); split_and!; [done|lia..]).
Qed.
Lemma sub_step2_ok b v c :
  byte_ok b → byte_ok v → 0 ≤ c ≤ 1 →
  let '(x, c') := math_byte_sub_carry v b c in byte_ok x ∧ 0 ≤ c' ≤ 1 ∧ x - 256 * c' = -1 * b - (c - v).
Proof.
  intros Hb Hv Hc. pose proof (sub_carry_ok v b c Hv Hb ltac:(split; lia)) as H.
  destruct (math_byte_sub_carry v b c). destruct H as (? & ? & ? & ?); split_and!; [done|lia..].
Qed.

(** *** [math_memory_sub_single] *)

Lemma is_true_spec x : is_true x = true ↔ x ≠ 0.
Proof. unfold is_true. rewrite negb_true_iff, Z.eqb_neq. done. Qed.
Lemma is_true_false x : is_true x = false ↔ x = 0.
Proof. unfold is_true. rewrite negb_false_iff, Z.eqb_eq. done. Qed.

Lemma sub_finish_ok fuel r n j v c s s1 T (Q : Z → mem → Prop) :
  0 ≤ j ≤ n → byte_ok v → 0 ≤ c ≤ 1 → (v = 0 ∨ j < n) → writes s s1 r j → live s r n → n < Z.of_nat fuel →
  val s1 r j - (v + c) * 256 ^ j = T →
  (∀ c' s', 0 ≤ c' ≤ 1 → writes s s' r n → val s' r n - c' * 256 ^ n = T → Q c' s') →
  wpp (if is_true c || is_true v then
         '(res, _, carry) ← while fuel (λ '(res, value, carry), (res <? r + n) && (is_true value || negb (carry =? 1)))
           (λ '(res, value, carry), let '(x, carry) := math_byte_sub_carry 0 value carry in wr res x;; mret (res + 1, 0, carry)) (r + j, v, c);
         fill_to fuel 0xFF res (r + n);;
         mret carry
       else fill_to fuel 0 (r + j) (r + n);; mret c) s1 Q.
Proof.
  intros Hj Hv Hc Hvj W Hl Hf E HQ. destruct (is_true c || is_true v) eqn:Hp.
  - apply (finish_borrow_ok (math_byte_sub_carry 0) (λ v c, v + c)) with (s := s) (j := j) (T := T); try done.
    + intros v1 c1 Hv1 Hc1 Hp1. pose proof (sub_step_ok 0 v1 c1 ltac:(split; lia) Hv1 Hc1) as H.
      destruct (math_byte_sub_carry 0 v1 c1) as [x c']. destruct H as (Hx & Hc' & H). unfold byte_ok in *. lia.
    + apply orb_true_iff in Hp. rewrite !is_true_spec in Hp. unfold byte_ok in Hv. lia.
    + intros s' W' E'. apply HQ; [lia|done|lia].
  - apply orb_false_iff in Hp as [->%is_true_false ->%is_true_false]. apply wpp_bind.
    apply (fill_zero_ok _ _ _ _ s); [done|done|done|lia|]. intros s2 W2 V2. apply wpp_ret, HQ; [lia|done|lia].
Qed.

Lemma math_memory_sub_single_ok p mem_size value carry res res_size s (Q : Z → mem → Prop) :
  let r := target p res in let n := target_size p mem_size res res_size in
  operands_ok s p mem_size res res_size → byte_ok value → 0 ≤ carry ≤ 1 → (value = 0 ∨ 0 < n) →
  (∀ c s', 0 ≤ c ≤ 1 → writes s s' r n →
     val s' r n - c * 256 ^ n = val s p mem_size mod 256 ^ n - (value + carry) → Q c s') →
  wpp (math_memory_sub_single p mem_size value carry res res_size) s Q.
Proof.
  intros r n (Hm & Hr & Hs & Hp & Hl & Hplace) Hv Hc Hvn HQ. fold r n in Hl, Hplace. unfold math_memory_sub_single.
  apply wpp_bind, math_memory_shrink_ok; [done|done|]. intros m Hsig. pose proof (sig_range _ _ _ _ Hsig) as Hmr.
  rewrite (sig_val _ _ _ _ Hsig) in HQ. assert (live s p m) as Hpm by (eapply live_le; [exact Hp|lia..]).
  assert (∀ v c, is_true v || is_true c = false → v = 0 ∧ c = 0) as Hgo.
  { intros v c H. apply orb_false_iff in H. by rewrite !is_true_false in H. }
  apply wpp_bind. rewrite in_place_spec. unfold r, n, target, target_size in *. clear r n.
  destruct (in_place p res); cbn [negb andb] in *.
  - set (n := if res_size =? 0 then mem_size else res_size) in *. apply wpp_bind.
    apply (borrow_loop_in_place math_byte_sub_carry (λ v c, v + c) (λ v c, is_true v || is_true c) 1 sub_step_ok ltac:(done) s p m);
      [lia|done|done|done|done|unfold bytes_fuel; lia|].
    intros k v c s1 Hk Hstop (Hv' & Hc' & Hvk & W & E). apply wpp_ret. replace (p + m - 1 + 1) with (p + m) by lia.
    assert (k = m ∨ v = 0 ∧ c = 0) as Hd by (destruct (decide (k = m)); [by left|right; apply Hgo, Hstop; lia]).
    apply (sub_finish_ok _ p n m v c s s1 (val s p m - (value + carry))); [lia|done|done|lia|by eapply writes_le; [exact W|lia..]|done| | |].
    + unfold bytes_fuel. subst n. zcase; lia.
    + rewrite Z.mul_1_l in E. destruct Hd as [->|[-> ->]]; [lia|]. replace m with (k + (m - k)) by lia. rewrite !val_app by lia.
      rewrite (writes_val _ _ _ _ (p + k) (m - k) W) by (unfold apart; lia). lia.
    + intros c' s' Hc2 W' E'. apply HQ; [done|done|]. by rewrite val_small_mod by (done || lia).
  - apply wpp_bind.
    apply (borrow_loop_ok math_byte_sub_carry (λ v c, v + c) (λ v c, is_true v || is_true c) 1 sub_step_ok ltac:(done) s p m);
      [lia|done|done|done|done|done|done|unfold up_ok in *; lia|unfold bytes_fuel; lia|].
    intros k v c s1 Hk Hstop (Hv' & Hc' & Hvk & W & E). rewrite Z.mul_1_l in E. cbv beta iota. apply wpp_bind.
    apply (copy_rest_ok _ s); [done|done|done|done|unfold up_ok in *; lia|done|unfold bytes_fuel; lia|].
    set (j := Z.min m res_size) in *. intros s2 W2 E2. apply wpp_ret.
    assert (k = j ∨ v = 0 ∧ c = 0) as Hd by (destruct (decide (k = j)); [by left|right; apply Hgo, Hstop; lia]).
    apply (sub_finish_ok _ res res_size j v c s s2 (val s p j - (value + carry))); [lia|done|done|lia|done|done|unfold bytes_fuel; lia| |].
    + rewrite E2. destruct Hd as [->|[-> ->]]; [rewrite Z.sub_diag, (val_0 _ _ 0) by lia; lia|].
      replace (val s p j) with (val s p k + 256 ^ k * val s (p + k) (j - k)); [lia|].
      rewrite <-val_app by lia. f_equal. lia.
    + intros c' s' Hc2 W' E'. apply HQ; [done|done|]. rewrite E'. f_equal. unfold j.
      destruct (Z.min_spec m res_size) as [[? ->]|[? ->]]; symmetry; [apply val_small_mod|apply val_mod]; done || lia.
Qed.

(** *** [math_memory_sub_single2] *)

(** Once 1 is borrowed and nothing is left above, the bytes are complemented. *)
Definition negated (s s1 s' : mem) (r p k j : Z) : Prop :=
  writes s s' r j ∧ val s' r j = val s1 r k + 256 ^ k * (256 ^ (j - k) - 1 - val s (p + k) (j - k)).

Lemma negated_next s s1 s2 r p k i n :
  0 ≤ k → 0 ≤ i → k + i < n → wf s → live s r n → negated s s1 s2 r p k (k + i) →
  is_Some (s2 !! (r + (k + i))) ∧
  negated s s1 (<[r + (k + i) := u8 (0xFF - s !!! (p + (k + i)))]> s2) r p k (k + i + 1).
Proof.
  intros Hk Hi Hn Hs Hl [W E]. pose proof (wf_total s (p + (k + i)) Hs) as Hb. unfold byte_ok in Hb.
  destruct (writes_next' s s2 r (k + i) (0xFF - s !!! (p + (k + i))) n ltac:(lia) W Hl) as (L & W3 & V3).
  split; [done|]. split; [done|]. rewrite V3, E, u8_id by (split; lia).
  replace (k + i + 1 - k) with (i + 1) by lia. replace (k + i - k) with i by lia.
  rewrite val_snoc, pow_succ, (Z.pow_add_r 256 k) by lia. replace (p + k + i) with (p + (k + i)) by lia. ring.
Qed.
Lemma negated_start s s1 r p k : 0 ≤ k → writes s s1 r k → negated s s1 s1 r p k k.
Proof. intros Hk W. split; [done|]. rewrite Z.sub_diag, Z.pow_0_r, (val_0 s) by lia. lia. Qed.

Lemma not_rest_ok fuel s s1 p r m n k (Q : Z * Z → mem → Prop) :
  let j := Z.min m n in
  0 ≤ k ≤ j → wf s → live s p m → live s r n → up_ok r p m → writes s s1 r k → j < Z.of_nat fuel →
  (∀ s', negated s s1 s' r p k j → Q (p + j, r + j) s') →
  wpp (while fuel (λ '(q, res), (q <=? p + m - 1) && (res <? r + n))
    (λ '(q, res), b ← rd q; wr res (0xFF - b);; mret (q + 1, res + 1)) (p + k, r + k)) s1 Q.
Proof.
  intros j Hk Hs Hp Hr Ho W Hf HQ.
  apply (wpp_count (λ i x s', x = (p + (k + i), r + (k + i)) ∧ negated s s1 s' r p k (k + i)) (j - k)).
  - intros i x s2 Hi (-> & N). split; [apply andb_true_iff; rewrite Z.leb_le, Z.ltb_lt; lia|].
    apply wpp_bind. eapply wpp_rd; [apply (operand_kept s p r m Hp s2); [done|lia|apply N]|].
    destruct (negated_next s s1 s2 r p k i n) as (L & N'); [lia|lia|lia|done..|].
    apply wpp_bind, wpp_wr; [done|]. apply wpp_ret. replace (k + (i + 1)) with (k + i + 1) by lia.
    split; [f_equal; lia|done].
  - intros x s2 (-> & N). replace (k + (j - k)) with j in * by lia. split; [|by apply HQ].
    apply andb_false_iff. rewrite Z.leb_gt, Z.ltb_ge. lia.
  - rewrite Z.add_0_r. split; [done|]. apply negated_start; [lia|done].
  - lia.
  - lia.
Qed.

Lemma not_rest_in_place fuel s s1 p m k (Q : Z → mem → Prop) :
  0 ≤ k ≤ m → wf s → live s p m → writes s s1 p k → m < Z.of_nat fuel →
  (∀ s', negated s s1 s' p p k m → Q (p + m) s') →
  wpp (while fuel (λ res, res <=? p + m - 1) (λ res, b ← rd res; wr res (0xFF - b);; mret (res + 1)) (p + k)) s1 Q.
Proof.
  intros Hk Hs Hp W Hf HQ.
  apply (wpp_count (λ i x s', x = p + (k + i) ∧ negated s s1 s' p p k (k + i)) (m - k)).
  - intros i x s2 Hi (-> & N). split; [rewrite Z.leb_le; lia|].
    apply wpp_bind. eapply wpp_rd; [apply (operand_kept s p p m Hp s2); [unfold up_ok; lia|lia|apply N]|].
    destruct (negated_next s s1 s2 p p k i m) as (L & N'); [lia|lia|lia|done..|].
    apply wpp_bind, wpp_wr; [done|]. apply wpp_ret. replace (k + (i + 1)) with (k + i + 1) by lia.
    split; [lia|done].
  - intros x s2 (-> & N). replace (k + (m - k)) with m in * by lia. split; [|by apply HQ].
    rewrite Z.leb_gt. lia.
  - rewrite Z.add_0_r. split; [done|]. apply negated_start; [lia|done].
  - lia.
  - lia.
Qed.

Lemma sub_finish2_ok fuel r n j v c s s1 T (Q : Z → mem → Prop) :
  0 ≤ j ≤ n → byte_ok v → 0 ≤ c ≤ 1 → (v = 0 ∨ j < n) → writes s s1 r j → live s r n → n < Z.of_nat fuel →
  val s1 r j - (c - v) * 256 ^ j = T →
  (∀ c' s', 0 ≤ c' ≤ 1 → writes s s' r n → val s' r n - c' * 256 ^ n = T → Q c' s') →
  wpp (if v <? c then
         '(res, _, carry) ← while fuel (λ '(res, value, carry), (res <? r + n) && (is_true value || negb (carry =? 1)))
           (λ '(res, value, carry), let '(x, carry) := math_byte_sub_carry value 0 carry in wr res x;; mret (res + 1, 0, carry)) (r + j, v, c);
         fill_to fuel 0xFF res (r + n);;
         mret carry
       else
         res ← (if r + j <? r + n then wr (r + j) (v - c);; mret (r + j + 1) else mret (r + j));
         fill_to fuel 0 res (r + n);;
         mret 0) s1 Q.
Proof.
  intros Hj Hv Hc Hvj W Hl Hf E HQ. zcase as Hp.
  - apply (finish_borrow_ok (λ v c, math_byte_sub_carry v 0 c) (λ v c, c - v)) with (s := s) (j := j) (T := T); try done.
    + intros. lia.
    + intros v1 c1 Hv1 Hc1 Hp1. pose proof (sub_step2_ok 0 v1 c1 ltac:(split; lia) Hv1 Hc1) as H.
      destruct (math_byte_sub_carry v1 0 c1) as [x c']. destruct H as (Hx & Hc' & H). unfold byte_ok in *. lia.
    + lia.
    + intros s' W' E'. apply HQ; [lia|done|lia].
  - apply wpp_bind. zcase as Hjn.
    + destruct (writes_next' s s1 r j (v - c) n ltac:(lia) W Hl) as (L & W2 & V2).
      apply wpp_bind, wpp_wr; [done|]. apply wpp_ret, wpp_bind. rewrite <-Z.add_assoc.
      apply (fill_zero_ok _ _ _ _ s); [lia|done|done|lia|]. intros s2 W3 V3. apply wpp_ret, HQ; [lia|done|].
      rewrite V3, V2, u8_id by (unfold byte_ok in *; lia). lia.
    + apply wpp_ret, wpp_bind. apply (fill_zero_ok _ _ _ _ s); [lia|done|done|lia|]. intros s2 W3 V3.
      apply wpp_ret, HQ; [lia|done|]. rewrite V3. assert (c = v) as -> by lia. lia.
Qed.

(** After the complemented bytes the same amount is pending. *)
Lemma negated_pending s s1 s' r p k j v c T :
  0 ≤ k ≤ j → (k < j → v = 0 ∧ c = 1) → negated s s1 s' r p k j →
  val s1 r k - (c - v) * 256 ^ k = - val s p k - T →
  val s' r j - (c - v) * 256 ^ j = - val s p j - T.
Proof.
  intros Hk Hd [W E] E1. destruct (decide (k = j)) as [->|].
  - rewrite Z.sub_diag, Z.pow_0_r, (val_0 s) in E by lia. lia.
  - destruct (Hd ltac:(lia)) as [-> ->]. replace (val s p j) with (val s p k + 256 ^ k * val s (p + k) (j - k)).
    + rewrite E. replace (256 ^ j) with (256 ^ k * 256 ^ (j - k)) by (rewrite <-Z.pow_add_r by lia; f_equal; lia). lia.
    + rewrite <-val_app by lia. f_equal. lia.
Qed.

Lemma math_memory_sub_single2_ok value carry p mem_size res res_size s (Q : Z → mem → Prop) :
  let r := target p res in let n := target_size p mem_size res res_size in
  operands_ok s p mem_size res res_size → byte_ok value → 0 ≤ carry ≤ 1 → (value = 0 ∨ 0 < n) →
  (∀ c s', 0 ≤ c ≤ 1 → writes s s' r n →
     val s' r n - c * 256 ^ n = value - carry - val s p mem_size mod 256 ^ n → Q c s') →
  wpp (math_memory_sub_single2 value carry p mem_size res res_size) s Q.
Proof.
  intros r n (Hm & Hr & Hs & Hp & Hl & Hplace) Hv Hc Hvn HQ. fold r n in Hl, Hplace. unfold math_memory_sub_single2.
  apply wpp_bind, math_memory_shrink_ok; [done|done|]. intros m Hsig. pose proof (sig_range _ _ _ _ Hsig) as Hmr.
  rewrite (sig_val _ _ _ _ Hsig) in HQ. assert (live s p m) as Hpm by (eapply live_le; [exact Hp|lia..]).
  assert (∀ v c, is_true v || negb (c =? 1) = false → v = 0 ∧ c = 1) as Hgo.
  { intros v c H. apply orb_false_iff in H. by rewrite is_true_false, negb_false_iff, Z.eqb_eq in H. }
  apply wpp_bind. rewrite in_place_spec. unfold r, n, target, target_size in *. clear r n.
  destruct (in_place p res); cbn [negb andb] in *.
  - set (n := if res_size =? 0 then mem_size else res_size) in *. apply wpp_bind.
    apply (borrow_loop_in_place (λ b v c, math_byte_sub_carry v b c) (λ v c, c - v) (λ v c, is_true v || negb (c =? 1)) (-1) sub_step2_ok ltac:(intros; cbv beta; lia) s p m);
      [lia|done|done|done|done|unfold bytes_fuel; lia|].
    intros k v c s1 Hk Hstop (Hv' & Hc' & Hvk & W & E). cbv beta iota. apply wpp_bind.
    apply (not_rest_in_place _ s); [lia|done|done|done|unfold bytes_fuel; lia|]. intros s2 N. apply wpp_ret.
    apply (sub_finish2_ok _ p n m v c s s2 (- val s p m - (carry - value))); [lia|done|done| |eapply writes_le; [apply N|lia..]|done| | |].
    + destruct (decide (k = m)); [lia|]. left. apply (Hgo v c), Hstop. lia.
    + unfold bytes_fuel. subst n. zcase; lia.
    + apply (negated_pending s s1 s2 p p k m); [lia|intros; by apply Hgo, Hstop|done|lia].
    + intros c' s' Hc2 W' E'. apply HQ; [done|done|]. rewrite val_small_mod by (done || lia). lia.
  - apply wpp_bind.
    apply (borrow_loop_ok (λ b v c, math_byte_sub_carry v b c) (λ v c, c - v) (λ v c, is_true v || negb (c =? 1)) (-1) sub_step2_ok ltac:(intros; cbv beta; lia) s p m);
      [lia|done|done|done|done|done|done|unfold up_ok in *; lia|unfold bytes_fuel; lia|].
    intros k v c s1 Hk Hstop (Hv' & Hc' & Hvk & W & E). cbv beta iota. apply wpp_bind.
    apply (not_rest_ok _ s); [done|done|done|done|unfold up_ok in *; lia|done|unfold bytes_fuel; lia|].
    set (j := Z.min m res_size) in *. intros s2 N. apply wpp_ret.
    apply (sub_finish2_ok _ res res_size j v c s s2 (- val s p j - (carry - value))); [lia|done|done| |apply N|done|unfold bytes_fuel; lia| |].
    + destruct (decide (k = j)); [lia|]. left. apply (Hgo v c), Hstop. lia.
    + apply (negated_pending s s1 s2 res p k j); [lia|intros; by apply Hgo, Hstop|done|lia].
    + intros c' s' Hc2 W' E'. apply HQ; [done|done|]. 
      replace (val s p m mod 256 ^ res_size) with (val s p j); [lia|]. unfold j.
      destruct (Z.min_spec m res_size) as [[? ->]|[? ->]]; symmetry; [apply val_small_mod|apply val_mod]; done || lia.
Qed.

(** *** [math_memory_sub] *)

(** The result after [k] bytes and a tail written from [r + k] on. *)
Lemma tail_joined s s1 s' r n k c c' A B :
  0 ≤ k ≤ n → writes s s1 r k → writes s1 s' (r + k) (n - k) →
  val s1 r k - c * 256 ^ k = A →
  val s' (r + k) (n - k) - c' * 256 ^ (n - k) = B - c →
  writes s s' r n ∧ val s' r n - c' * 256 ^ n = A + 256 ^ k * B.
Proof.
  intros Hk W W2 E E2. split; [eapply writes_trans; [exact W|exact W2|lia..]|].
  replace n with (k + (n - k)) at 1 2 by lia. rewrite val_app, Z.pow_add_r by lia.
  rewrite (writes_val _ _ _ _ r k W2) by (unfold apart; lia). nia.
Qed.

(** The left operand is longer. *)
Lemma sub_left_tail s s1 left size m r n k c res A (Q : Z → mem → Prop) :
  0 ≤ k ≤ n → k < m ≤ size → 0 < r → wf s → live s left size → live s r n → up_ok r left size →
  (if r =? left then size ≤ n else True) → res = (if r =? left then 0 else r + k) ∨ res = r + k ∧ r ≠ left →
  writes s s1 r k → 0 ≤ c ≤ 1 → val s1 r k - c * 256 ^ k = val s left k - A →
  (∀ c' s', 0 ≤ c' ≤ 1 → writes s s' r n → val s' r n - c' * 256 ^ n = val s left m mod 256 ^ n - A → Q c' s') →
  wpp (math_memory_sub_single (left + k) (left + m - 1 - (left + k) + 1) 0 c res (r + n - (r + k))) s1 Q.
Proof.
  intros Hk Hm Hr Hs Hp Hl Ho Hfit Hres W Hc E HQ.
  replace (left + m - 1 - (left + k) + 1) with (m - k) by lia. replace (r + n - (r + k)) with (n - k) by lia.
  assert (in_place (left + k) res = (r =? left)) as Hin.
  { unfold in_place. destruct (Z.eqb_spec r left).
    - destruct Hres as [->|]; [done|lia].
    - assert (res = r + k) as -> by lia. destruct (Z.eqb_spec (r + k) 0), (Z.eqb_spec (r + k) (left + k)); lia || done. }
  assert (target (left + k) res = r + k) as Ht by (unfold target; rewrite Hin; destruct (Z.eqb_spec r left); lia).
  assert (target_size (left + k) (m - k) res (n - k) = n - k) as Hts.
  { unfold target_size. rewrite Hin. destruct (Z.eqb_spec r left), (Z.eqb_spec (n - k) 0); simpl; lia. }
  apply math_memory_sub_single_ok; [|split; lia|done|by left|].
  - unfold operands_ok. rewrite Ht, Hts, Hin. split_and!; [lia|lia|apply W| | |].
    + eapply writes_live; [exact W|]. eapply live_le; [exact Hp|lia..].
    + eapply writes_live; [exact W|]. eapply live_le; [exact Hl|lia..].
    + destruct (Z.eqb_spec r left); [lia|]. unfold up_ok in *. lia.
  - rewrite Ht, Hts. intros c' s2 Hc' W2 E2.
    rewrite (writes_val _ _ _ _ (left + k) (m - k) W) in E2 by (unfold up_ok in Ho; unfold apart; lia).
    destruct (tail_joined s s1 s2 r n k c c' (val s left k - A) (val s (left + k) (m - k) mod 256 ^ (n - k)) Hk W W2 E ltac:(lia)) as [W' E'].
    apply HQ; [done|done|]. rewrite E', (val_split_mod s left m k n) by (done || lia). lia.
Qed.

(** The right operand is longer. *)
Lemma sub_right_tail s s1 right size m r n k c A (Q : Z → mem → Prop) :
  0 ≤ k ≤ n → k < m ≤ size → 0 < r → wf s → live s right size → live s r n → may_overwrite r n right size →
  writes s s1 r k → 0 ≤ c ≤ 1 → val s1 r k - c * 256 ^ k = A - val s right k →
  (∀ c' s', 0 ≤ c' ≤ 1 → writes s s' r n → val s' r n - c' * 256 ^ n = A - val s right m mod 256 ^ n → Q c' s') →
  wpp (math_memory_sub_single2 0 c (right + k) (right + m - 1 - (right + k) + 1) (r + k) (r + n - (r + k))) s1 Q.
Proof.
  intros Hk Hm Hr Hs Hp Hl [Ho Hfit] W Hc E HQ.
  replace (right + m - 1 - (right + k) + 1) with (m - k) by lia. replace (r + n - (r + k)) with (n - k) by lia.
  assert (in_place (right + k) (r + k) = (r =? right)) as Hin.
  { unfold in_place. destruct (Z.eqb_spec (r + k) 0), (Z.eqb_spec (r + k) (right + k)), (Z.eqb_spec r right); lia || done. }
  assert (target (right + k) (r + k) = r + k) as Ht by (unfold target; rewrite Hin; destruct (Z.eqb_spec r right); lia).
  assert (target_size (right + k) (m - k) (r + k) (n - k) = n - k) as Hts.
  { unfold target_size. rewrite Hin. destruct (Z.eqb_spec r right), (Z.eqb_spec (n - k) 0); simpl; lia. }
  apply math_memory_sub_single2_ok; [|split; lia|done|by left|].
  - unfold operands_ok. rewrite Ht, Hts, Hin. split_and!; [lia|lia|apply W| | |].
    + eapply writes_live; [exact W|]. eapply live_le; [exact Hp|lia..].
    + eapply writes_live; [exact W|]. eapply live_le; [exact Hl|lia..].
    + destruct (Z.eqb_spec r right); [lia|]. unfold up_ok in *. lia.
  - rewrite Ht, Hts. intros c' s2 Hc' W2 E2.
    rewrite (writes_val _ _ _ _ (right + k) (m - k) W) in E2 by (unfold up_ok in Ho; unfold apart; lia).
    destruct (tail_joined s s1 s2 r n k c c' (A - val s right k) (- (val s (right + k) (m - k) mod 256 ^ (n - k))) Hk W W2 E ltac:(lia)) as [W' E'].
    apply HQ; [done|done|]. rewrite E', (val_split_mod s right m k n) by (done || lia). lia.
Qed.

(** With an empty operand and an empty result the borrow is lost. *)
Lemma math_memory_sub_single_empty p v s : math_memory_sub_single p 0 v 0 0 0 s = Ok (0, s).
Proof.
  assert (math_memory_shrink p 0 s = Ok (p - 1, s)) as Hsh.
  { unfold math_memory_shrink, ploop, bytes_fuel. rewrite loop_S. replace (p + 0 - 1) with (p - 1) by lia.
    destruct (Z.leb_spec p (p - 1)); [lia|done]. }
  unfold math_memory_sub_single, mbind, prog_bind. rewrite Hsh.
  assert (∀ n x c b, c x = false → while (X := Z * Z * Z) (S n) c b x s = Ok (x, s)) as Hw.
  { intros n x c b Hc. unfold while, ploop. rewrite loop_S. by rewrite Hc. }
  assert (∀ n x c b, c x = false → while (X := Z) (S n) c b x s = Ok (x, s)) as Hw1.
  { intros n x c b Hc. unfold while, ploop. rewrite loop_S. by rewrite Hc. }
  change (bytes_fuel (0 + 0)) with 1%nat. cbn [Z.eqb negb andb].
  rewrite Hw by (destruct (Z.leb_spec p (p - 1)); [lia|done]). cbv beta iota.
  unfold mret, prog_ret. cbv beta iota.
  destruct (is_true 0 || is_true v).
  - rewrite Hw by (destruct (Z.ltb_spec (p - 1 + 1) (p + 0)); [lia|done]). cbv beta iota.
    unfold fill_to, mbind, prog_bind. rewrite Hw1 by (apply Z.ltb_ge; lia). done.
  - unfold fill_to, mbind, prog_bind. rewrite Hw1 by (apply Z.ltb_ge; lia). done.
Qed.

(** Both operands ended at the same byte. *)
Lemma sub_no_tail s s1 r n k c T (Q : Z → mem → Prop) :
  0 ≤ k ≤ n → 0 < r → live s r n → writes s s1 r k → 0 ≤ c ≤ 1 → val s1 r k - c * 256 ^ k = T →
  (∀ c' b s', 0 ≤ b ≤ 1 → c' = b ∨ k = n ∧ c' = 0 → writes s s' r n → val s' r n - b * 256 ^ n = T → Q c' s') →
  wpp (math_memory_sub_single (r + k) 0 c 0 0 (r + n - (r + k))) s1 Q.
Proof.
  intros Hk Hr Hl W Hc E HQ. replace (r + n - (r + k)) with (n - k) by lia. destruct (decide (k = n)) as [->|Hkn].
  - rewrite Z.sub_diag. eapply wpp_eq; [apply math_memory_sub_single_empty|]. apply (HQ 0 c); [done|by right|done|done].
  - assert (target (r + k) 0 = r + k) as Ht by done.
    assert (target_size (r + k) 0 0 (n - k) = n - k) as Hts.
    { unfold target_size. destruct (Z.eqb_spec (n - k) 0); [lia|done]. }
    apply math_memory_sub_single_ok; rewrite ?Ht, ?Hts; [|split; lia|lia|lia|].
    + unfold operands_ok. rewrite Ht, Hts. split_and!; [lia|lia|apply W|intros a Ha; lia| |simpl; lia].
      eapply writes_live; [exact W|]. eapply live_le; [exact Hl|lia..].
    + intros c' s2 Hc' W2 E2. rewrite (val_0 s1 (r + k)), Z.mod_0_l in E2 by (pose proof (pow_pos (n - k)); lia).
      destruct (tail_joined s s1 s2 r n k c c' T 0 Hk W W2 E ltac:(lia)) as [W' E'].
      apply (HQ c' c'); [done|by left|done|lia].
Qed.

Lemma borrow2_next s s1 r k n left right c :
  0 ≤ k < n → wf s → live s r n → writes s s1 r k → 0 ≤ c ≤ 1 →
  val s1 r k - c * 256 ^ k = val s left k - val s right k →
  let '(x, c') := math_byte_sub_carry (s !!! (left + k)) (s !!! (right + k)) c in
  is_Some (s1 !! (r + k)) ∧ writes s (<[r + k := u8 x]> s1) r (k + 1) ∧ 0 ≤ c' ≤ 1 ∧
  val (<[r + k := u8 x]> s1) r (k + 1) - c' * 256 ^ (k + 1) = val s left (k + 1) - val s right (k + 1).
Proof.
  intros Hk Hs Hl W Hc E. pose proof (wf_total s (left + k) Hs) as Ha. pose proof (wf_total s (right + k) Hs) as Hb.
  pose proof (borrow_next s s1 r k n _ _ _ c Hk Hl W Ha Hb ltac:(split; lia) E) as H.
  destruct (math_byte_sub_carry _ _ c) as [x c']. destruct H as (L & W' & H0 & H1 & E').
  split_and!; [done|done|lia|lia|]. rewrite E', !val_snoc by lia. ring.
Qed.

(** What [math_memory_sub] leaves: the difference and, unless both operands fill
    the result, its borrow. *)
Definition sub_result (s : mem) (left lsize right rsize r n : Z) (Q : Z → mem → Prop) : Prop :=
  ∀ c b s', 0 ≤ b ≤ 1 →
    c = b ∨ c = 0 ∧ 0 < n ∧ 256 ^ (n - 1) ≤ val s left lsize ∧ 256 ^ (n - 1) ≤ val s right rsize →
    writes s s' r n →
    val s' r n - b * 256 ^ n = val s left lsize mod 256 ^ n - val s right rsize mod 256 ^ n → Q c s'.

Lemma sub_rest_ok s s1 left lsize right rsize ml mr r n k c (Q : Z → mem → Prop) :
  sig s left lsize ml → sig s right rsize mr → 0 ≤ k ≤ n → k = ml → k ≤ mr → 0 < r → wf s →
  live s right rsize → live s r n → may_overwrite r n right rsize →
  writes s s1 r k → 0 ≤ c ≤ 1 → val s1 r k - c * 256 ^ k = val s left k - val s right k →
  sub_result s left lsize right rsize r n Q →
  wpp (let res_size := r + n - (r + k) in
       if right + k <=? right + mr - 1 then math_memory_sub_single2 0 c (right + k) (right + mr - 1 - (right + k) + 1) (r + k) res_size
       else math_memory_sub_single (r + k) 0 c 0 0 res_size) s1 Q.
Proof.
  intros Sl Sr Hk Hkl Hkr Hr Hs Hlr Hl Ho W Hc E HQ. pose proof (sig_range _ _ _ _ Sr) as Rr. unfold sub_result in HQ.
  rewrite (sig_val _ _ _ _ Sl), (sig_val _ _ _ _ Sr), <-Hkl in HQ. rewrite (val_small_mod s left k n) in HQ by (done || lia).
  cbv zeta. zcase as Hlt.
  - apply (sub_right_tail s s1 right rsize mr r n k c (val s left k)); [done|lia|done..|].
    intros c' s' Hc' W' E'. apply (HQ c' c'); [done|by left|done|lia].
  - assert (k = mr) as Ek by lia. rewrite <-Ek in HQ. rewrite (val_small_mod s right k n) in HQ by (done || lia).
    apply (sub_no_tail s s1 r n k c _ _ Hk Hr Hl W Hc E). intros c' b s' Hb Hd W' E'.
    destruct Hd as [->|[Hkn ->]]; [apply (HQ b b); [done|by left|done|lia]|].
    destruct (decide (n = 0)) as [->|].
    + pose proof (val_range s' r 0 (writes_wf _ _ _ _ W') ltac:(lia)). rewrite Hkn, !val_0 in E' by lia.
      apply (HQ 0 0); [lia|by left|done|rewrite Hkn, !val_0 by lia; lia].
    + apply (HQ 0 b); [done| |done|lia]. right. split_and!; [lia|lia| |].
      * replace n with ml by lia. replace k with ml by lia. eapply sig_lower; [done|exact Sl|lia].
      * replace n with mr by lia. replace k with mr by lia. eapply sig_lower; [done|exact Sr|lia].
Qed.

Lemma math_memory_sub_ok left lsize right rsize res res_size s (Q : Z → mem → Prop) :
  let r := target left res in let n := target_size left lsize res res_size in
  0 < left → 0 ≤ res → operands_ok s left lsize res res_size →
  0 ≤ rsize → live s right rsize → may_overwrite r n right rsize →
  sub_result s left lsize right rsize r n Q → wpp (math_memory_sub left lsize right rsize res res_size) s Q.
Proof.
  intros r n Hleft Hres (Hls & Hrz & Hs & Hl & Hd & Hplace) Hrs Hr Hor HQ. fold r n in Hd, Hplace.
  pose proof HQ as HQ0. unfold sub_result in HQ. unfold math_memory_sub.
  apply wpp_bind, math_memory_shrink_ok; [done|done|]. intros ml Sl.
  apply wpp_bind, math_memory_shrink_ok; [done|done|]. intros mr Sr.
  rewrite (sig_val _ _ _ _ Sl), (sig_val _ _ _ _ Sr) in HQ.
  pose proof (sig_range _ _ _ _ Sl) as Rl. pose proof (sig_range _ _ _ _ Sr) as Rr. cbv zeta.
  assert (0 < r ∧ 0 ≤ n ∧ (r = left → in_place left res = true)) as (Hr0 & Hn0 & Hrl).
  { unfold r, n, target, target_size, in_place. destruct (Z.eqb_spec res 0), (Z.eqb_spec res left); simpl; try (split_and!; lia).
    all: split_and!; [lia| |done]. all: zcase; lia. }
  assert (up_ok r left lsize) as Hol.
  { unfold r, target in *. destruct (in_place left res); [unfold up_ok; lia|done]. }
  rewrite in_place_spec. unfold r, n, target, target_size in *. clear r n.
  destruct (in_place left res) eqn:Hin; cbn [negb andb] in *.
  - set (n := if res_size =? 0 then lsize else res_size) in *. apply wpp_bind.
    apply (wpp_while (λ k x s', ∃ c, x = (right + k, left + k, c) ∧ k ≤ ml ∧ k ≤ mr ∧ 0 ≤ c ≤ 1 ∧ writes s s' left k ∧
      val s' left k - c * 256 ^ k = val s left k - val s right k) ml); [|exists 0|unfold bytes_fuel; lia|lia].
    + intros k x s1 Hk (c & -> & Hkl & Hkr & Hc & W & E). cbv beta iota.
      destruct ((right + k <=? right + mr - 1) && (left + k <=? left + ml - 1)) eqn:Hgo.
      * apply andb_true_iff in Hgo as [H1%Z.leb_le H2%Z.leb_le]. split; [lia|].
        apply wpp_bind. eapply wpp_rd; [eapply (operand_kept s left left lsize); [done|done|lia|done]|].
        apply wpp_bind. eapply wpp_rd; [eapply (operand_kept s right left rsize); [done|apply Hor|lia|done]|].
        pose proof (borrow2_next s s1 left k n left right c ltac:(lia) Hs Hd W Hc E) as H.
        destruct (math_byte_sub_carry _ _ c) as [x c']. destruct H as (L & W2 & Hc2 & E2).
        apply wpp_bind, wpp_wr; [done|]. apply wpp_ret. exists c'. rewrite <-!Z.add_assoc. split_and!; [done|lia|lia|lia|lia|done|done].
      * cbv beta iota. zcase as Hcl.
        { assert (k = mr) as -> by (rewrite andb_true_r in Hgo; apply Z.leb_gt in Hgo; lia).
          apply (sub_left_tail s s1 left lsize ml left n mr c 0 (val s right mr)); [lia|lia|done..| | |done|done|done|].
          - by rewrite Z.eqb_refl.
          - left. by rewrite Z.eqb_refl.
          - intros c' s' Hc' W' E'. apply (HQ c' c'); [done|by left|done|]. rewrite (val_small_mod s right mr) by (done || lia). done. }
        apply (sub_rest_ok s s1 left lsize right rsize ml mr left n k c); [done|done|lia|lia|lia|done..].
    + rewrite !Z.add_0_r, !val_0 by lia. split_and!; [done|lia|lia|lia|lia|by apply writes_refl|lia].
  - apply wpp_bind.
    apply (wpp_while (λ k x s', ∃ c, x = (left + k, right + k, res + k, c) ∧ k ≤ ml ∧ k ≤ mr ∧ k ≤ res_size ∧ 0 ≤ c ≤ 1 ∧ writes s s' res k ∧
      val s' res k - c * 256 ^ k = val s left k - val s right k) ml); [|exists 0|unfold bytes_fuel; lia|lia].
    + intros k x s1 Hk (c & -> & Hkl & Hkr & Hkn & Hc & W & E). cbv beta iota.
      destruct ((left + k <=? left + ml - 1) && (right + k <=? right + mr - 1) && (res + k <? res + res_size)) eqn:Hgo.
      * apply andb_true_iff in Hgo as [[H1%Z.leb_le H2%Z.leb_le]%andb_true_iff H3%Z.ltb_lt]. split; [lia|].
        apply wpp_bind. eapply wpp_rd; [eapply (operand_kept s left res lsize); [done|done|lia|done]|].
        apply wpp_bind. eapply wpp_rd; [eapply (operand_kept s right res rsize); [done|apply Hor|lia|done]|].
        pose proof (borrow2_next s s1 res k res_size left right c ltac:(lia) Hs Hd W Hc E) as H.
        destruct (math_byte_sub_carry _ _ c) as [x c']. destruct H as (L & W2 & Hc2 & E2).
        apply wpp_bind, wpp_wr; [done|]. apply wpp_ret. exists c'. rewrite <-!Z.add_assoc. split_and!; [done|lia|lia|lia|lia|lia|done|done].
      * cbv beta iota. assert (res ≠ left) as Hne by (intros ->; by specialize (Hrl eq_refl)). zcase as Hcl.
        { assert (val s right mr mod 256 ^ res_size = val s right k) as ER.
          { destruct (decide (k = res_size)) as [->|]; [by apply val_mod|].
            assert (k = mr) as -> by (cbn [andb] in Hgo; apply andb_false_iff in Hgo as [Hgo%Z.leb_gt|Hgo%Z.ltb_ge]; lia).
            apply val_small_mod; [done|lia]. }
          apply (sub_left_tail s s1 left lsize ml res res_size k c (res + k) (val s right k)); [lia|lia|done..| | |done|done|done|].
          - by rewrite (proj2 (Z.eqb_neq res left)).
          - by right.
          - intros c' s' Hc' W' E'. apply (HQ c' c'); [done|by left|done|lia]. }
        apply (sub_rest_ok s s1 left lsize right rsize ml mr res res_size k c); [done|done|lia|lia|lia|done..].
    + rewrite !Z.add_0_r, !val_0 by lia. split_and!; [done|lia|lia|lia|lia|lia|by apply writes_refl|lia].
Qed.

(** *** Comparison *)

Definition cmp_int (c : comparison) : Z := match c with Lt => -1 | Eq => 0 | Gt => 1 end.

Lemma math_memory_cmp_ok left lsize right rsize s (Q : Z → mem → Prop) :
  0 ≤ lsize → 0 ≤ rsize → wf s → live s left lsize → live s right rsize →
  Q (cmp_int (val s left lsize ?= val s right rsize)) s → wpp (math_memory_cmp left lsize right rsize) s Q.
Proof.
  intros Hls Hrs Hs Hl Hr HQ. unfold math_memory_cmp.
  apply wpp_bind, math_memory_shrink_ok; [done|done|]. intros ml Sl.
  apply wpp_bind, math_memory_shrink_ok; [done|done|]. intros mr Sr.
  rewrite (sig_val _ _ _ _ Sl), (sig_val _ _ _ _ Sr) in HQ.
  pose proof (sig_range _ _ _ _ Sl) as Rl. pose proof (sig_range _ _ _ _ Sr) as Rr. cbv zeta.
  assert (∀ p q m k size, sig s p size m → 0 ≤ k < m → val s q k < val s p m) as Hlong.
  { intros p q m k size S Hk. pose proof (sig_lower s p size m Hs S ltac:(lia)). pose proof (val_range s q k Hs ltac:(lia)).
    pose proof (Z.pow_le_mono_r 256 k (m - 1)). lia. }
  zcase as H1; [|zcase as H2].
  - apply wpp_ret. rewrite (proj2 (Z.compare_gt_iff _ _)) in HQ; [done|]. apply (Hlong left right ml mr lsize); [done|lia].
  - apply wpp_ret. rewrite (proj2 (Z.compare_lt_iff _ _)) in HQ; [done|]. apply (Hlong right left mr ml rsize); [done|lia].
  - assert (mr = ml) as -> by lia. unfold math_memory_cmp_base.
    apply (wpp_ploop (λ n x s', s' = s ∧ x = (left + Z.of_nat n - 1, right + Z.of_nat n - 1) ∧ Z.of_nat n ≤ ml ∧
      (val s left ml ?= val s right ml) = (val s left (Z.of_nat n) ?= val s right (Z.of_nat n)))) with (n := Z.to_nat ml).
    + intros n x s' (-> & -> & Hn & E). zcase as H3.
      * apply wpp_bind. eapply wpp_rd; [eapply (lookup_live s left lsize); [done|lia]|].
        apply wpp_bind. eapply wpp_rd; [eapply (lookup_live s right rsize); [done|lia]|].
        destruct (val_top s left (Z.of_nat n) Hs ltac:(lia)) as [EL BL]. destruct (val_top s right (Z.of_nat n) Hs ltac:(lia)) as [ER BR].
        rewrite !Z.add_sub_assoc in *. zcase as Hab.
        -- apply wpp_ret. exists (n - 1)%nat. split_and!; [lia|done|f_equal; lia|lia|]. rewrite E, EL, ER, Hab.
           replace (Z.of_nat (n - 1)) with (Z.of_nat n - 1) by lia.
           match goal with |- (?a + ?x ?= ?b + ?x) = _ => destruct (Z.compare_spec (a + x) (b + x)), (Z.compare_spec a b); lia || done end.
        -- apply wpp_ret. rewrite E in HQ. zcase as Hba.
           ++ rewrite (proj2 (Z.compare_gt_iff _ _)) in HQ; [done|]. rewrite EL, ER. nia.
           ++ rewrite (proj2 (Z.compare_lt_iff _ _)) in HQ; [done|]. rewrite EL, ER. nia.
      * apply wpp_ret. rewrite E, !val_0 in HQ by lia. done.
    + split_and!; [done|f_equal; lia|lia|]. by rewrite Z2Nat.id by lia.
    + unfold bytes_fuel. lia.
Qed.

(** ** Properties *)

(** [math_memory_sub] subtracts two little-endian numbers: the [n] bytes of
    the result are the difference modulo [256 ^ n], nothing else changes, and
    the returned value is the borrow, unless both operands have their top bytes
    at the end of the result, where the borrow is lost. *)
Theorem math_memory_sub_subtracts left lsize right rsize res res_size s :
  let r := target left res in let n := target_size left lsize res res_size in
  0 < left → 0 ≤ res → operands_ok s left lsize res res_size →
  0 ≤ rsize → live s right rsize → may_overwrite r n right rsize →
  ∃ c borrow s', math_memory_sub left lsize right rsize res res_size s = Ok (c, s') ∧
    writes s s' r n ∧ 0 ≤ borrow ≤ 1 ∧
    (c = borrow ∨ c = 0 ∧ 0 < n ∧ 256 ^ (n - 1) ≤ val s left lsize ∧ 256 ^ (n - 1) ≤ val s right rsize) ∧
    val s' r n - borrow * 256 ^ n = val s left lsize mod 256 ^ n - val s right rsize mod 256 ^ n.
Proof.
  intros r n Hl Hres Ho Hr Hlr Hm.
  assert (wpp (math_memory_sub left lsize right rsize res res_size) s (λ c s', ∃ borrow, writes s s' r n ∧ 0 ≤ borrow ≤ 1 ∧
    (c = borrow ∨ c = 0 ∧ 0 < n ∧ 256 ^ (n - 1) ≤ val s left lsize ∧ 256 ^ (n - 1) ≤ val s right rsize) ∧
    val s' r n - borrow * 256 ^ n = val s left lsize mod 256 ^ n - val s right rsize mod 256 ^ n)) as (c & s' & E & b & H)%wpp_ok.
  - apply math_memory_sub_ok; auto. intros c b s' Hb Hc W V. by exists b.
  - by exists c, b, s'.
Qed.

Lemma math_memory_sub_subtracts_witness :
  let s := bytes_at 1 [0; 1; 1] in
  ∃ c borrow s', math_memory_sub 1 2 3 1 0 0 s = Ok (c, s') ∧
    writes s s' 1 2 ∧ 0 ≤ borrow ≤ 1 ∧
    (c = borrow ∨ c = 0 ∧ 0 < 2 ∧ 256 ^ (2 - 1) ≤ val s 1 2 ∧ 256 ^ (2 - 1) ≤ val s 3 1) ∧
    val s' 1 2 - borrow * 256 ^ 2 = val s 1 2 mod 256 ^ 2 - val s 3 1 mod 256 ^ 2.
Proof.
  refine (math_memory_sub_subtracts 1 2 3 1 0 0 (bytes_at 1 [0; 1; 1]) _ _ _ _ _ _);
    first [on_bytes|unfold may_overwrite, up_ok; on_bytes|unfold operands_ok; split_and!; on_bytes].
Defined.

(** The borrow of [1 - 2] in one byte is lost. *)
Lemma math_memory_sub_loses_borrow :
  match math_memory_sub 1 1 2 1 0 0 (bytes_at 1 [1; 2]) with
  | Ok (c, s) => c = 0 ∧ val s 1 1 = 255 | _ => False end.
Proof. vm_compute. done. Qed.

(** [math_memory_cmp] compares the numbers, whatever zero bytes they are
    padded with, and returns the sign as C's comparison functions do; it does
    not change the store. *)
Theorem math_memory_cmp_compares left lsize right rsize s :
  0 ≤ lsize → 0 ≤ rsize → wf s → live s left lsize → live s right rsize →
  ∃ c, math_memory_cmp left lsize right rsize s = Ok (c, s) ∧
    (c < 0 ↔ val s left lsize < val s right rsize) ∧ (c = 0 ↔ val s left lsize = val s right rsize) ∧
    (0 < c ↔ val s right rsize < val s left lsize).
Proof.
  intros. assert (wpp (math_memory_cmp left lsize right rsize) s (λ c s', c = cmp_int (val s left lsize ?= val s right rsize) ∧ s' = s)) as (c & s' & E & -> & ->)%wpp_ok
    by by apply math_memory_cmp_ok.
  eexists. split; [exact E|]. destruct (Z.compare_spec (val s left lsize) (val s right rsize)); unfold cmp_int; lia.
Qed.

Lemma math_memory_cmp_compares_witness :
  let s := bytes_at 1 [7; 0; 0; 9] in
  ∃ c, math_memory_cmp 1 3 4 1 s = Ok (c, s) ∧
    (c < 0 ↔ val s 1 3 < val s 4 1) ∧ (c = 0 ↔ val s 1 3 = val s 4 1) ∧ (0 < c ↔ val s 4 1 < val s 1 3).
Proof.
  apply (math_memory_cmp_compares 1 3 4 1); on_bytes.
Defined.
