(* ===== verification/BigMul.v ===== *)
(** BigMul: shifts by bytes and bits, local blocks and multiplication of
    src/lib/math.c. *)
From S2P Require Import Prelude Memory Bignum.

(** ** Shifts *)

Definition math_memory_shift_left_byte (p mem_size shift res res_size : Z) : prog mem unit :=
  let res := if res =? 0 then p else res in
  let res_size := if res_size =? 0 then mem_size else res_size in
  if (shift <? mem_size) && (shift <? res_size) then
    math_memory_copy (res + shift) (res_size - shift) p (mem_size - shift);;
    mem_set res 0 shift
  else mem_set res 0 res_size.

Definition math_memory_shift_left_bit (p size shift res : Z) : prog mem unit :=
  let remain := 8 - shift in
  let mem_end := p + size in
  if negb (res =? 0) && negb (res =? p) then
    while (bytes_fuel size) (λ '(p, _, _), p <? mem_end)
      (λ '(p, res, high),
        b ← rd p;
        wr res (Z.lor (Z.shiftl b shift) high);;
        mret (p + 1, res + 1, Z.shiftr b remain)) (p, res, 0);;
    mret tt
  else
    while (bytes_fuel size) (λ '(res, _), res <? mem_end)
      (λ '(res, high),
        b ← rd res;
        let high_bak := Z.shiftr b remain in
        wr res (Z.lor (Z.shiftl b shift) high);;
        mret (res + 1, high_bak)) (p, 0);;
    mret tt.

Definition math_memory_shift_left (p mem_size shift res res_size : Z) : prog mem unit :=
  let res := if res =? 0 then p else res in
  let res_size := if res_size =? 0 then mem_size else res_size in
  math_memory_shift_left_bit p mem_size (Z.land shift 0x07) res;;
  math_memory_shift_left_byte res mem_size (Z.shiftr shift 3) 0 res_size.

Definition math_memory_shift_right_byte (p mem_size shift res res_size : Z) : prog mem unit :=
  let res := if res =? 0 then p else res in
  let res_size := if res_size =? 0 then mem_size else res_size in
  if (shift <? mem_size) && (shift <? res_size) then
    math_memory_copy res res_size (p + shift) (mem_size - shift)
  else mem_set res 0 res_size.

Definition math_memory_shift_right_bit (p size shift res : Z) : prog mem unit :=
  let remain := 8 - shift in
  if negb (res =? 0) && negb (res =? p) then
    while (bytes_fuel size) (λ '(q, _, _), p <=? q)
      (λ '(q, res, high),
        b ← rd q;
        wr res (Z.lor (Z.shiftr b shift) high);;
        mret (q - 1, res - 1, u8 (Z.shiftl b remain))) (p + size - 1, res + size - 1, 0);;
    mret tt
  else
    while (bytes_fuel size) (λ '(res, _), p <=? res)
      (λ '(res, high),
        b ← rd res;
        let high_bak := u8 (Z.shiftl b remain) in
        wr res (Z.lor (Z.shiftr b shift) high);;
        mret (res - 1, high_bak)) (p + size - 1, 0);;
    mret tt.

Definition math_memory_shift_right (p mem_size shift res res_size : Z) : prog mem unit :=
  let res := if res =? 0 then p else res in
  let res_size := if res_size =? 0 then mem_size else res_size in
  math_memory_shift_right_bit p mem_size (Z.land shift 0x07) res;;
  math_memory_shift_right_byte res mem_size (Z.shiftr shift 3) res res_size.

(** Moving up by whole bytes, in place. *)
Lemma math_memory_shift_left_byte_ok p n k rs s (Q : unit → mem → Prop) :
  rs = 0 ∨ rs = n → 0 ≤ k → 0 ≤ n → wf s → live s p n →
  (∀ s', writes s s' p n → val s' p n = (256 ^ k * val s p n) mod 256 ^ n → Q tt s') →
  wpp (math_memory_shift_left_byte p n k 0 rs) s Q.
Proof.
  intros Hrs Hk Hn Hs Hl HQ. unfold math_memory_shift_left_byte. cbv zeta. cbn [Z.eqb]. replace (0 =? 0) with true by done.
  assert ((if rs =? 0 then n else rs) = n) as -> by (destruct Hrs as [->| ->]; [done|by zcase]).
  assert (byte_ok 0) as H0 by (split; lia). destruct ((k <? n) && (k <? n)) eqn:Hlt.
  - apply andb_true_iff in Hlt as [Hlt%Z.ltb_lt _]. apply wpp_bind.
    apply math_memory_copy_ok; [lia|lia|done|eapply live_le; [exact Hl|lia..]|eapply live_le; [exact Hl|lia..]|].
    rewrite Z.min_id. intros s1 W1 V1.
    apply mem_set_ok; [done|eapply writes_live; [exact W1|]; eapply live_le; [exact Hl|lia..]|done|].
    intros s2 F. assert (writes s1 s2 p k) as W2.
    { apply (filled_writes _ _ _ _ 0); [apply W1|done| |done]. eapply writes_live; [exact W1|]. eapply live_le; [exact Hl|lia..]. }
    apply HQ; [eapply writes_trans; [exact W1|exact W2|lia..]|].
    replace n with (k + (n - k)) at 1 by lia. rewrite val_app by lia. rewrite (val_zeros s2 p k).
    + rewrite (writes_val _ _ _ _ _ _ W2), V1 by (unfold apart; lia). replace (val s p n) with (val s p (n - k) + 256 ^ (n - k) * val s (p + (n - k)) k).
      * pose proof (pow_pos k Hk). pose proof (pow_pos (n - k) ltac:(lia)). pose proof (val_range s p (n - k) Hs ltac:(lia)).
        apply (Z.mod_unique_pos _ _ (val s (p + (n - k)) k)); replace (256 ^ n) with (256 ^ k * 256 ^ (n - k)) by (rewrite <-Z.pow_add_r by lia; f_equal; lia); nia.
      * rewrite <-val_app by lia. f_equal. lia.
    + intros i Hi. rewrite lookup_total_alt, F, decide_True by lia. done.
  - apply mem_set_ok; [done|done|done|]. intros s2 F. apply HQ; [by apply (filled_writes _ _ _ _ 0)|].
    rewrite (val_zeros s2) by (intros i Hi; rewrite lookup_total_alt, F, decide_True by lia; done).
    assert (n ≤ k) as Hnk by (apply andb_false_iff in Hlt as [H%Z.ltb_ge|H%Z.ltb_ge]; lia).
    replace (256 ^ k) with (256 ^ (k - n) * 256 ^ n) by (rewrite <-Z.pow_add_r by lia; f_equal; lia).
    replace (256 ^ (k - n) * 256 ^ n * val s p n) with (256 ^ (k - n) * val s p n * 256 ^ n) by lia.
    rewrite Z.mod_mul; [done|]. pose proof (pow_pos n Hn). lia.
Qed.

(** *** Shifting by bits *)

(** What one byte becomes and what it passes on. *)
Lemma shift_left_byte_bits sh b c :
  0 ≤ sh < 8 → byte_ok b → 0 ≤ c < 2 ^ sh →
  u8 (Z.lor (Z.shiftl b sh) c) + 256 * Z.shiftr b (8 - sh) = 2 ^ sh * b + c ∧ 0 ≤ Z.shiftr b (8 - sh) < 2 ^ sh.
Proof.
  intros Hsh Hb Hc. unfold byte_ok in Hb. rewrite Z.lor_comm, lor_shiftl_add, Z.shiftr_div_pow2 by lia.
  assert (256 = 2 ^ sh * 2 ^ (8 - sh)) as E by (rewrite <-Z.pow_add_r by lia; by replace (sh + (8 - sh)) with 8 by lia).
  pose proof (Z.pow_pos_nonneg 2 sh ltac:(lia) ltac:(lia)). pose proof (Z.pow_pos_nonneg 2 (8 - sh) ltac:(lia) ltac:(lia)).
  split; [|split; [by apply Z.div_pos; lia|apply Z.div_lt_upper_bound; lia]].
  assert (b / 2 ^ (8 - sh) = (c + 2 ^ sh * b) / 256) as ->.
  { rewrite E, <-Z.div_div, (Z.mul_comm (2 ^ sh) b), Z.div_add, (Z.div_small c) by lia. by rewrite Z.add_0_l. }
  unfold u8, wrap. change (2 ^ 8) with 256. pose proof (Z.div_mod (c + 2 ^ sh * b) 256). lia.
Qed.
Lemma shift_right_byte_bits sh b x :
  0 ≤ sh < 8 → byte_ok b → byte_ok x →
  u8 (Z.lor (Z.shiftr b sh) (u8 (Z.shiftl x (8 - sh)))) = b / 2 ^ sh + 2 ^ (8 - sh) * (x mod 2 ^ sh).
Proof.
  intros Hsh Hb Hx. unfold byte_ok in *.
  assert (2 ^ 8 = 2 ^ sh * 2 ^ (8 - sh)) as E by (rewrite <-Z.pow_add_r by lia; by replace (sh + (8 - sh)) with 8 by lia).
  pose proof (Z.pow_pos_nonneg 2 sh ltac:(lia) ltac:(lia)). pose proof (Z.pow_pos_nonneg 2 (8 - sh) ltac:(lia) ltac:(lia)).
  pose proof (Z.mod_pos_bound x (2 ^ sh) ltac:(lia)).
  assert (0 ≤ b / 2 ^ sh < 2 ^ (8 - sh)) by (split; [apply Z.div_pos; lia|apply Z.div_lt_upper_bound; lia]).
  assert (u8 (Z.shiftl x (8 - sh)) = Z.shiftl (x mod 2 ^ sh) (8 - sh)) as ->.
  { rewrite !Z.shiftl_mul_pow2 by lia. unfold u8, wrap. rewrite E, Z.mul_mod_distr_r by lia. done. }
  rewrite Z.shiftr_div_pow2, lor_shiftl_add by lia. apply wrap_small. nia.
Qed.

(** The bits byte [k] receives from below. *)
Definition from_below (s : mem) (p sh k : Z) : Z := if k =? 0 then 0 else Z.shiftr (s !!! (p + (k - 1))) (8 - sh).
Lemma from_below_range s p sh k : wf s → 0 ≤ sh < 8 → 0 ≤ from_below s p sh k < 2 ^ sh.
Proof.
  intros Hs Hsh. unfold from_below. zcase; [lia|]. pose proof (Z.pow_pos_nonneg 2 sh).
  apply (shift_left_byte_bits sh _ 0 Hsh (wf_total s _ Hs)). lia.
Qed.
Lemma shifted_left_val s s' p r sh n :
  wf s → 0 ≤ sh < 8 → 0 ≤ n →
  (∀ i, 0 ≤ i < n → s' !!! (r + i) = u8 (Z.lor (Z.shiftl (s !!! (p + i)) sh) (from_below s p sh i))) →
  val s' r n + from_below s p sh n * 256 ^ n = 2 ^ sh * val s p n.
Proof.
  intros Hs Hsh Hn. rewrite <-(Z2Nat.id n) by done. clear Hn. induction (Z.to_nat n) as [|k IH]; intros E.
  - rewrite !val_0 by lia. unfold from_below. simpl. lia.
  - rewrite Nat2Z.inj_succ in *. set (m := Z.of_nat k) in *. assert (0 ≤ m) as Hm by lia.
    rewrite <-Z.add_1_r, !val_snoc, (E m), pow_succ by lia. specialize (IH ltac:(intros; apply E; lia)).
    destruct (shift_left_byte_bits sh (s !!! (p + m)) (from_below s p sh m) Hsh (wf_total s _ Hs) (from_below_range s p sh m Hs Hsh)) as [Hb _].
    unfold from_below at 2. rewrite (proj2 (Z.eqb_neq (m + 1) 0)), Z.add_simpl_r by lia. nia.
Qed.

Lemma math_memory_shift_left_bit_ok p n sh res s (Q : unit → mem → Prop) :
  let r := target p res in
  0 ≤ sh < 8 → 0 ≤ n → wf s → live s p n → live s r n → up_ok r p n →
  (∀ s', writes s s' r n → val s' r n = (2 ^ sh * val s p n) mod 256 ^ n → Q tt s') →
  wpp (math_memory_shift_left_bit p n sh res) s Q.
Proof.
  intros r Hsh Hn Hs Hl Ht Ol HQ. unfold math_memory_shift_left_bit. subst r. cbv zeta.
  set (f := λ k, u8 (Z.lor (Z.shiftl (s !!! (p + k)) sh) (from_below s p sh k))).
  assert (∀ k, byte_ok (f k)) as Hf by (intros k; apply u8_byte).
  assert (∀ s', writes s s' (target p res) n → (∀ i, 0 ≤ i < n → s' !!! (target p res + i) = f i) → Q tt s') as HQ'.
  { intros s' W E. apply HQ; [done|]. pose proof (shifted_left_val s s' p _ sh n Hs Hsh Hn E) as V.
    apply (Z.mod_unique_pos _ _ (from_below s p sh n)); [apply val_range; [apply W|done]|lia]. }
  assert (∀ k, 0 ≤ k → Z.shiftr (s !!! (p + k)) (8 - sh) = from_below s p sh (k + 1)) as Hnext.
  { intros k Hk. unfold from_below. by rewrite (proj2 (Z.eqb_neq (k + 1) 0)), Z.add_simpl_r by lia. }
  destruct (target_cases p res) as [[-> Et]|[-> Et]]; rewrite Et in *; apply wpp_bind.
  - replace (p, res, 0) with (p + 0, res + 0, from_below s p sh 0) by (by rewrite !Z.add_0_r).
    apply (map_loop_ok (λ k, (p + k, res + k, from_below s p sh k)) _ n res s f); try done; [unfold bytes_fuel; lia| |intros k Hk; apply Z.ltb_lt; lia|apply Z.ltb_irrefl].
    intros k s1 Q1 Hk W E HQ1. apply wpp_bind. eapply wpp_rd; [apply (operand_kept s p res n Hl s1 k); [done|lia|done]|].
    apply wpp_bind, wpp_wr; [eapply writes_live; [exact W|exact Ht|lia]|]. apply wpp_ret.
    rewrite <-!Z.add_assoc, Hnext by lia. apply HQ1.
  - replace (p, 0) with (p + 0, from_below s p sh 0) by (by rewrite !Z.add_0_r).
    apply (map_loop_ok (λ k, (p + k, from_below s p sh k)) _ n p s f); try done; [unfold bytes_fuel; lia| |intros k Hk; apply Z.ltb_lt; lia|apply Z.ltb_irrefl].
    intros k s1 Q1 Hk W E HQ1. apply wpp_bind. eapply wpp_rd; [apply (operand_kept s p p n Hl s1 k); [done|lia|done]|]. cbv zeta.
    apply wpp_bind, wpp_wr; [eapply writes_live; [exact W|exact Ht|lia]|]. apply wpp_ret.
    rewrite <-!Z.add_assoc, Hnext by lia. apply HQ1.
Qed.

Lemma math_memory_shift_left_ok p n sh res rs s (Q : unit → mem → Prop) :
  let r := if res =? 0 then p else res in
  rs = 0 ∨ rs = n → 0 < p → 0 ≤ res → 0 ≤ sh → 0 ≤ n → wf s → live s p n → live s r n → up_ok r p n →
  (∀ s', writes s s' r n → val s' r n = (2 ^ sh * val s p n) mod 256 ^ n → Q tt s') →
  wpp (math_memory_shift_left p n sh res rs) s Q.
Proof.
  intros r Hrs Hp Hres Hsh Hn Hs Hl Ht Ol HQ. unfold math_memory_shift_left. cbv zeta. fold r.
  assert ((if rs =? 0 then n else rs) = n) as -> by (destruct Hrs as [->| ->]; [done|by zcase]).
  assert (target p r = r) as Et by (unfold target, in_place, r; destruct (Z.eqb_spec res 0); [by rewrite Z.eqb_refl, orb_true_r|];
    destruct (Z.eqb_spec res 0), (Z.eqb_spec res p); simpl; lia).
  change 0x07 with (Z.ones 3). rewrite Z.land_ones, Z.shiftr_div_pow2 by lia. change (2 ^ 3) with 8.
  apply wpp_bind, math_memory_shift_left_bit_ok; rewrite ?Et; [apply Z.mod_pos_bound; lia|done..|]. intros s1 W1 V1.
  apply math_memory_shift_left_byte_ok; [by right|apply Z.div_pos; lia|done|apply W1|by eapply writes_live|].
  intros s2 W2 V2. apply HQ; [eapply writes_trans; [exact W1|exact W2|lia..]|]. rewrite V2, V1.
  rewrite Zmult_mod_idemp_r, Z.mul_assoc. f_equal. f_equal.
  change 256 with (2 ^ 8). rewrite <-Z.pow_mul_r, <-Z.pow_add_r by (try apply Z.mod_pos_bound; try apply Z.mul_nonneg_nonneg; try apply Z.div_pos; lia).
  f_equal. pose proof (Z.div_mod sh 8). lia.
Qed.

(** The bits byte [k] receives from above. *)
Definition from_above (s : mem) (p n sh k : Z) : Z := if k + 1 =? n then 0 else u8 (Z.shiftl (s !!! (p + (k + 1))) (8 - sh)).

Lemma shift_right_num sh b V : 0 ≤ sh < 8 → (b + 256 * V) / 2 ^ sh = b / 2 ^ sh + 2 ^ (8 - sh) * (V mod 2 ^ sh) + 256 * (V / 2 ^ sh).
Proof.
  intros Hsh. assert (256 = 2 ^ sh * 2 ^ (8 - sh)) as E by (rewrite <-Z.pow_add_r by lia; replace (sh + (8 - sh)) with 8 by lia; done).
  pose proof (Z.pow_pos_nonneg 2 sh ltac:(lia) ltac:(lia)). rewrite E at 1.
  replace (b + 2 ^ sh * 2 ^ (8 - sh) * V) with (b + (2 ^ (8 - sh) * V) * 2 ^ sh) by ring. rewrite Z.div_add by lia.
  pose proof (Z.div_mod V (2 ^ sh) ltac:(lia)) as Hd. rewrite E. rewrite Hd at 1. ring.
Qed.

Lemma shifted_right_val s s' p r sh n k :
  wf s → 0 ≤ sh < 8 → 0 ≤ k ≤ n →
  (∀ i, n - k ≤ i < n → s' !!! (r + i) = u8 (Z.lor (Z.shiftr (s !!! (p + i)) sh) (from_above s p n sh i))) →
  val s' (r + (n - k)) k = val s (p + (n - k)) k / 2 ^ sh.
Proof.
  intros Hs Hsh Hk. rewrite <-(Z2Nat.id k) by lia. assert (Z.of_nat (Z.to_nat k) ≤ n) as Hkn by lia. revert Hkn. clear Hk.
  induction (Z.to_nat k) as [|m IH]; intros Hkn E.
  - rewrite !val_0 by lia. by rewrite Z.div_0_l by (pose proof (Z.pow_pos_nonneg 2 sh); lia).
  - set (j := n - Z.of_nat (S m)). assert (0 ≤ j ∧ n - Z.of_nat m = j + 1) as [Hj Ej] by lia. rewrite Ej in IH.
    rewrite Nat2Z.inj_succ, <-Z.add_1_r, !val_cons by lia. rewrite <-!Z.add_assoc, IH by (lia || (intros; apply E; lia)).
    rewrite E by lia. rewrite shift_right_num by done.
    assert (from_above s p n sh j = u8 (Z.shiftl (if j + 1 =? n then 0 else s !!! (p + (j + 1))) (8 - sh))) as Ea.
    { unfold from_above. zcase; [by rewrite Z.shiftl_0_l|done]. }
    rewrite Ea, shift_right_byte_bits; [|done|by apply wf_total|zcase; [split; lia|by apply wf_total]]. f_equal. f_equal. f_equal.
    zcase as Hn; [rewrite val_0 by lia; done|]. replace (Z.of_nat m) with (Z.of_nat m - 1 + 1) by lia. rewrite val_cons by lia.
    assert (256 = 2 ^ (8 - sh) * 2 ^ sh) as E2 by (rewrite <-Z.pow_add_r by lia; replace (8 - sh + sh) with 8 by lia; done).
    rewrite E2 at 1. replace (2 ^ (8 - sh) * 2 ^ sh * val s (p + (j + 1) + 1) (Z.of_nat m - 1)) with
      ((2 ^ (8 - sh) * val s (p + (j + 1) + 1) (Z.of_nat m - 1)) * 2 ^ sh) by ring.
    rewrite Z.mod_add by (pose proof (Z.pow_pos_nonneg 2 sh); lia). done.
Qed.

(** A loop that writes [f i] to byte [i], from the last byte down. *)
Lemma map_down_ok {X} (at_ : Z → X) fuel n r s (f : Z → Z) c (body : X → prog mem X) (Q : X → mem → Prop) :
  0 ≤ n → wf s → live s r n → n < Z.of_nat fuel → (∀ k, byte_ok (f k)) →
  (∀ k s1 (Q1 : X → mem → Prop), 0 ≤ k < n → writes s s1 (r + (k + 1)) (n - (k + 1)) →
     Q1 (at_ k) (<[r + k := f k]> s1) → wpp (body (at_ (k + 1))) s1 Q1) →
  (∀ k, 0 ≤ k < n → c (at_ (k + 1)) = true) → c (at_ 0) = false →
  (∀ s', writes s s' r n → (∀ i, 0 ≤ i < n → s' !!! (r + i) = f i) → Q (at_ 0) s') →
  wpp (while fuel c body (at_ n)) s Q.
Proof.
  intros Hn Hs Hl Hf Hb Hbody Hc Hcn HQ.
  apply (wpp_count (λ k x s', x = at_ (n - k) ∧ writes s s' (r + (n - k)) k ∧ ∀ i, n - k ≤ i < n → s' !!! (r + i) = f i) n); [| | |done|lia].
  - intros k x s1 Hk (-> & W & E). set (j := n - (k + 1)). replace (n - k) with (j + 1) in * by lia. split; [by apply Hc; lia|].
    replace k with (n - (j + 1)) in W by lia. apply Hbody; [lia|done|]. split; [done|].
    split; [apply writes_insert; [eapply writes_le; [exact W|lia..]|lia|apply Hl; lia|done]|].
    intros i Hi. destruct (decide (i = j)) as [->|]; [apply lookup_total_insert_eq|].
    rewrite lookup_total_insert_ne by lia. apply E. lia.
  - intros x s1 (-> & W & E). rewrite Z.sub_diag, Z.add_0_r in *. split; [done|]. by apply HQ.
  - rewrite Z.sub_0_r. split_and!; [done|by apply writes_refl|lia].
Qed.

Lemma math_memory_shift_right_bit_ok p n sh res s (Q : unit → mem → Prop) :
  let r := target p res in
  0 ≤ sh < 8 → 0 ≤ n → wf s → live s p n → live s r n → down_ok r p n →
  (∀ s', writes s s' r n → val s' r n = val s p n / 2 ^ sh → Q tt s') →
  wpp (math_memory_shift_right_bit p n sh res) s Q.
Proof.
  intros r Hsh Hn Hs Hl Ht Ol HQ. unfold math_memory_shift_right_bit. subst r. cbv zeta.
  set (f := λ k, u8 (Z.lor (Z.shiftr (s !!! (p + k)) sh) (from_above s p n sh k))).
  set (high := λ k, if k =? n then 0 else u8 (Z.shiftl (s !!! (p + k)) (8 - sh))).
  assert (∀ k, byte_ok (f k)) as Hf by (intros k; apply u8_byte).
  assert (∀ k, from_above s p n sh k = high (k + 1)) as Hfa by done.
  assert (∀ s', writes s s' (target p res) n → (∀ i, 0 ≤ i < n → s' !!! (target p res + i) = f i) → Q tt s') as HQ'.
  { intros s' W E. apply HQ; [done|]. pose proof (shifted_right_val s s' p (target p res) sh n n Hs Hsh ltac:(lia)) as V.
    rewrite Z.sub_diag, !Z.add_0_r in V. by apply V. }
  assert (∀ k s1, 0 ≤ k < n → writes s s1 (target p res + (k + 1)) (n - (k + 1)) → s1 !! (p + k) = Some (s !!! (p + k))) as Hread.
  { intros k s1 Hk W. rewrite (writes_out _ _ _ _ W) by (unfold down_ok in Ol; lia). apply (lookup_live s p n); [done|lia]. }
  assert (∀ k, 0 ≤ k < n → high k = u8 (Z.shiftl (s !!! (p + k)) (8 - sh))) as Hh.
  { intros k Hk. unfold high. by rewrite (proj2 (Z.eqb_neq k n)) by lia. }
  destruct (target_cases p res) as [[-> Et]|[-> Et]]; rewrite Et in *; apply wpp_bind.
  - replace (p + n - 1, res + n - 1, 0) with (p + n - 1, res + n - 1, high n) by (unfold high; by rewrite Z.eqb_refl).
    apply (map_down_ok (λ k, (p + k - 1, res + k - 1, high k)) _ n res s f); try done; [unfold bytes_fuel; lia| |intros k Hk; apply Z.leb_le; lia|apply Z.leb_gt; lia].
    intros k s1 Q1 Hk W HQ1. replace (p + (k + 1) - 1) with (p + k) by lia. replace (res + (k + 1) - 1) with (res + k) by lia.
    apply wpp_bind. eapply wpp_rd; [by apply Hread|]. rewrite <-Hfa.
    apply wpp_bind, wpp_wr; [eapply writes_live; [exact W|exact Ht|lia]|]. apply wpp_ret. rewrite <-Hh by done. apply HQ1.
  - replace (p + n - 1, 0) with (p + n - 1, high n) by (unfold high; by rewrite Z.eqb_refl).
    apply (map_down_ok (λ k, (p + k - 1, high k)) _ n p s f); try done; [unfold bytes_fuel; lia| |intros k Hk; apply Z.leb_le; lia|apply Z.leb_gt; lia].
    intros k s1 Q1 Hk W HQ1. replace (p + (k + 1) - 1) with (p + k) by lia.
    apply wpp_bind. eapply wpp_rd; [by apply Hread|]. cbv zeta. rewrite <-Hfa.
    apply wpp_bind, wpp_wr; [eapply writes_live; [exact W|exact Ht|lia]|]. apply wpp_ret. rewrite <-Hh by done. apply HQ1.
Qed.

Lemma math_memory_shift_right_ok p n sh res rs s (Q : unit → mem → Prop) :
  let r := if res =? 0 then p else res in
  rs = 0 ∨ rs = n → 0 < p → 0 ≤ res → 0 ≤ sh → 0 ≤ n → wf s → live s p n → live s r n → down_ok r p n →
  (∀ s', writes s s' r n → val s' r n = val s p n / 2 ^ sh → Q tt s') →
  wpp (math_memory_shift_right p n sh res rs) s Q.
Proof.
  intros r Hrs Hp Hres Hsh Hn Hs Hl Ht Ol HQ. unfold math_memory_shift_right. cbv zeta. fold r.
  assert ((if rs =? 0 then n else rs) = n) as -> by (destruct Hrs as [->| ->]; [done|by zcase]).
  assert (0 < r) as Hr by (unfold r; zcase; lia).
  assert (target p r = r) as Et by (unfold target, in_place; destruct (Z.eqb_spec r 0), (Z.eqb_spec r p); simpl; lia).
  change 0x07 with (Z.ones 3). rewrite Z.land_ones, Z.shiftr_div_pow2 by lia. change (2 ^ 3) with 8.
  pose proof (Z.mod_pos_bound sh 8 ltac:(lia)) as Hm. pose proof (Z.div_pos sh 8 Hsh ltac:(lia)) as Hd. pose proof (Z.div_mod sh 8 ltac:(lia)) as Hdm.
  set (k := sh / 8) in *. apply wpp_bind, math_memory_shift_right_bit_ok; rewrite ?Et; [done..|]. intros s1 W1 V1.
  pose proof (Z.pow_pos_nonneg 2 (sh mod 8) ltac:(lia) ltac:(lia)) as Hp2. pose proof (pow_pos k Hd) as Hpk.
  assert (val s p n / 2 ^ sh = val s1 r n / 256 ^ k) as EV.
  { rewrite V1, Z.div_div by lia. f_equal. change 256 with (2 ^ 8). rewrite <-Z.pow_mul_r, <-Z.pow_add_r by lia. f_equal. lia. }
  rewrite EV in HQ. unfold math_memory_shift_right_byte. cbv zeta. rewrite (proj2 (Z.eqb_neq r 0)) by lia.
  assert ((if n =? 0 then n else n) = n) as -> by (by zcase).
  destruct ((k <? n) && (k <? n)) eqn:Hlt.
  - apply andb_true_iff in Hlt as [Hlt%Z.ltb_lt _].
    apply math_memory_copy_ok; [lia|lia|apply W1|eapply writes_live; [exact W1|]; eapply live_le; [exact Ht|lia..]|by eapply writes_live|].
    intros s2 W2 V2. apply HQ; [eapply writes_trans; [exact W1|exact W2|lia..]|]. rewrite V2.
    replace (Z.min n (n - k)) with (n - k) by lia. replace n with (k + (n - k)) at 2 by lia. rewrite val_app by lia.
    pose proof (val_range s1 r k (writes_wf _ _ _ _ W1) Hd). rewrite Z.mul_comm, Z.div_add, Z.div_small by lia. done.
  - assert (n ≤ k) as Hnk by (apply andb_false_iff in Hlt as [H%Z.ltb_ge|H%Z.ltb_ge]; lia).
    apply mem_set_ok; [done|by eapply writes_live|split; lia|]. intros s2 F.
    assert (writes s1 s2 r n) as W2 by (apply (filled_writes _ _ _ _ 0); [apply W1|split; lia|by eapply writes_live|done]).
    apply HQ; [eapply writes_trans; [exact W1|exact W2|lia..]|].
    rewrite (val_zeros s2) by (intros i Hi; rewrite lookup_total_alt, F, decide_True by lia; done).
    rewrite Z.div_small; [done|]. pose proof (val_range s1 r n (writes_wf _ _ _ _ W1) Hn). pose proof (Z.pow_le_mono_r 256 n k). lia.
Qed.

(** ** Multiplication *)

Definition math_memory_mul_single (p mem_size value res res_size : Z) : prog mem Z :=
  let fuel := bytes_fuel (mem_size + res_size) in
  mem_last ← math_memory_shrink p mem_size;
  '(res, res_end, adder) ←
    (if negb (res =? 0) && negb (res =? p) then
       let res_end := res + res_size in
       '(_, res, adder) ← while fuel (λ '(p, res, _), (p <=? mem_last) && (res <? res_end))
         (λ '(p, res, adder),
           b ← rd p;
           let adder := u16 (adder + b * value) in
           wr res (Z.land adder 0xFF);;
           mret (p + 1, res + 1, Z.shiftr adder 8)) (p, res, 0);
       mret (res, res_end, adder)
     else
       let res_size := if res_size =? 0 then mem_size else res_size in
       let res_end := p + res_size in
       '(res, adder) ← while fuel (λ '(res, _), res <=? mem_last)
         (λ '(res, adder),
           b ← rd res;
           let adder := u16 (adder + b * value) in
           wr res (Z.land adder 0xFF);;
           mret (res + 1, Z.shiftr adder 8)) (p, 0);
       mret (res, res_end, adder));
  '(res, adder) ← (if res <? res_end then wr res adder;; mret (res + 1, 0) else mret (res, adder));
  fill_to fuel 0 res res_end;;
  mret (u8 adder).

Lemma mul_finish_ok fuel r n j c s s1 T (Q : Z → mem → Prop) :
  0 ≤ j ≤ n → byte_ok c → writes s s1 r j → live s r n → n < Z.of_nat fuel →
  val s1 r j + c * 256 ^ j = T →
  (∀ c' s', byte_ok c' → writes s s' r n → val s' r n + c' * 256 ^ n = T → Q c' s') →
  wpp ('(res, adder) ← (if r + j <? r + n then wr (r + j) c;; mret (r + j + 1, 0) else mret (r + j, c));
       fill_to fuel 0 res (r + n);;
       mret (u8 adder)) s1 Q.
Proof.
  intros Hj Hc W Hl Hf E HQ. apply wpp_bind. zcase as Hlt.
  - destruct (writes_next' s s1 r j c n ltac:(lia) W Hl) as (L & W2 & V2).
    apply wpp_bind, wpp_wr; [done|]. apply wpp_ret. apply wpp_bind. rewrite <-Z.add_assoc.
    apply (fill_zero_ok _ _ _ _ s); [lia|done|done|lia|]. intros s2 W3 V3. apply wpp_ret.
    change (u8 0) with 0.
    apply HQ; [split; lia|done|]. rewrite V3, V2, u8_id by done. lia.
  - apply wpp_ret, wpp_bind. apply (fill_zero_ok _ _ _ _ s); [lia|done|done|lia|]. intros s2 W3 V3. apply wpp_ret.
    rewrite u8_id by done. apply HQ; [done|done|]. rewrite V3. by replace n with j by lia.
Qed.

Lemma math_memory_mul_single_ok p mem_size value res res_size s (Q : Z → mem → Prop) :
  let r := target p res in let n := target_size p mem_size res res_size in
  operands_ok s p mem_size res res_size → byte_ok value →
  (∀ c s', byte_ok c → writes s s' r n →
     val s' r n + c * 256 ^ n = value * (val s p mem_size mod 256 ^ n) → Q c s') →
  wpp (math_memory_mul_single p mem_size value res res_size) s Q.
Proof.
  intros r n (Hm & Hr & Hs & Hp & Hl & Hplace) Hv HQ. fold r n in Hl, Hplace. unfold math_memory_mul_single.
  apply wpp_bind, math_memory_shrink_ok; [done|done|]. intros m Hsig. pose proof (sig_range _ _ _ _ Hsig) as Hmr.
  rewrite (sig_val _ _ _ _ Hsig) in HQ. assert (live s p m) as Hpm by (eapply live_le; [exact Hp|lia..]).
  assert (byte_ok 0) as H0 by (split; lia).
  apply wpp_bind. rewrite in_place_spec. unfold r, n, target, target_size in *. clear r n.
  destruct (in_place p res); cbn [negb andb] in *.
  - set (n := if res_size =? 0 then mem_size else res_size) in *. apply wpp_bind.
    apply (carry_loop_in_place s (λ b, b * value) (λ _, false) value p m _ 0); [intros; cbv beta; lia|done|lia|done|done|done|unfold bytes_fuel; lia|].
    intros k c s1 Hk Hstop Hc W E. assert (k = m) as -> by (destruct (decide (k = m)); [done|]; by specialize (Hstop ltac:(lia))).
    apply wpp_ret.
    apply (mul_finish_ok _ p n m c s s1 (value * val s p m)); [lia|done|done|done|unfold bytes_fuel; subst n; zcase; lia|lia|].
    intros c' s' Hc' W' E'. apply HQ; [done|done|]. by rewrite val_small_mod by (done || lia).
  - apply wpp_bind.
    apply (carry_loop_ok s (λ b, b * value) (λ _, false) value p res m); [intros; cbv beta; lia|done|lia|done|done|done|done|done|unfold up_ok in *; lia|unfold bytes_fuel; lia|].
    intros k c s1 Hk Hstop Hc W E. set (j := Z.min m res_size) in *.
    assert (k = j) as -> by (destruct (decide (k = j)); [done|]; by specialize (Hstop ltac:(lia))).
    apply wpp_ret. apply (mul_finish_ok _ res res_size j c s s1 (value * val s p j)); [lia|done|done|done|unfold bytes_fuel; lia|lia|].
    intros c' s' Hc' W' E'. apply HQ; [done|done|]. rewrite E'. f_equal. unfold j.
    destruct (Z.min_spec m res_size) as [[? ->]|[? ->]]; symmetry; [apply val_small_mod|apply val_mod]; done || lia.
Qed.

(** ** Local blocks *)

(** Changes in two blocks. *)
Record writes2 (s s' : mem) (p n q m : Z) : Prop := {
  writes2_out : ∀ a, ¬ (p ≤ a < p + n) → ¬ (q ≤ a < q + m) → s' !! a = s !! a;
  writes2_dom : ∀ a, is_Some (s !! a) ↔ is_Some (s' !! a);
  writes2_wf : wf s';
}.
Lemma writes2_refl s p n q m : wf s → writes2 s s p n q m.
Proof. intros Hs. by split. Qed.
Lemma writes2_l s1 s2 s3 p n q m : writes2 s1 s2 p n q m → writes s2 s3 p n → writes2 s1 s3 p n q m.
Proof.
  intros [Ho Hd Hw] [Ho' Hd' Hw']. split; [|intros a; by rewrite Hd|done]. intros a ??. by rewrite Ho', Ho.
Qed.
Lemma writes2_r s1 s2 s3 p n q m : writes2 s1 s2 p n q m → writes s2 s3 q m → writes2 s1 s3 p n q m.
Proof.
  intros [Ho Hd Hw] [Ho' Hd' Hw']. split; [|intros a; by rewrite Hd|done]. intros a ??. by rewrite Ho', Ho.
Qed.
Lemma writes2_live s s' p n q m r k : writes2 s s' p n q m → live s r k → live s' r k.
Proof. intros H Hl a Ha. apply (writes2_dom _ _ _ _ _ _ H). by apply Hl. Qed.
Lemma writes2_val s s' p n q m r k :
  writes2 s s' p n q m → apart p n r k → apart q m r k → val s' r k = val s r k.
Proof.
  unfold apart. intros H H1 H2. apply val_ext. intros i Hi. rewrite !lookup_total_alt. by rewrite (writes2_out _ _ _ _ _ _ H) by lia.
Qed.
Lemma writes2_total s s' p n q m a :
  writes2 s s' p n q m → ¬ (p ≤ a < p + n) → ¬ (q ≤ a < q + m) → s' !!! a = s !!! a.
Proof. intros H ??. rewrite !lookup_total_alt. by rewrite (writes2_out _ _ _ _ _ _ H). Qed.

Lemma block_gone s s1 s2 s3 b size r n :
  wf s → block_at s s1 b size → live s r n → writes2 s1 s2 r n b size →
  (∀ a, s3 !! a = if decide (b ≤ a < b + size) then None else s2 !! a) →
  writes s s3 r n ∧ val s3 r n = val s2 r n.
Proof.
  intros Hs B Hl [Ho Hd Hw2] H3.
  destruct (block_forgotten s s1 s2 s3 b size (λ a, r ≤ a < r + n) Hs B Hl Ho Hd Hw2 H3) as (G1 & G2 & G3 & G4).
  split; [by split|]. apply val_ext. intros i Hi. rewrite !lookup_total_alt, G4 by lia. done.
Qed.
Lemma block_val s s1 b size p n : block_at s s1 b size → live s p n → val s1 p n = val s p n.
Proof.
  intros (Hb & Hw & Hlb & Hnone & Hsame) Hl. apply val_ext. intros i Hi. rewrite !lookup_total_alt, Hsame; [done|].
  intros Ha. destruct (Hl (p + i) ltac:(lia)) as [c Hc]. by rewrite Hnone in Hc by lia.
Qed.
Lemma block_live s s1 b size p n : block_at s s1 b size → live s p n → live s1 p n ∧ (0 < n → p + n ≤ b).
Proof.
  intros (Hb & Hw & Hlb & Hnone & Hsame) Hl. split.
  - intros a Ha. destruct (decide (b ≤ a < b + size)); [by apply Hlb|]. rewrite Hsame by done. by apply Hl.
  - intros Hn. destruct (Z.le_gt_cases (p + n) b); [done|]. destruct (Hl (p + n - 1) ltac:(lia)) as [c Hc].
    by rewrite Hnone in Hc by lia.
Qed.

(** ** Signed numbers *)

Definition math_memory_is_negative (p size : Z) : prog mem bool :=
  b ← rd (p + size - 1);
  mret (negb (Z.land b (Z.shiftl 1 7) =? 0)).

(** The two's complement reading of a block. *)
Definition sval (s : mem) (p n : Z) : Z := if 2 * val s p n <? 256 ^ n then val s p n else val s p n - 256 ^ n.

Lemma math_memory_is_negative_ok p n s (Q : bool → mem → Prop) :
  0 < n → wf s → live s p n → Q (sval s p n <? 0) s → wpp (math_memory_is_negative p n) s Q.
Proof.
  intros Hn Hs Hl HQ. unfold math_memory_is_negative. apply wpp_bind.
  eapply wpp_rd; [apply (lookup_live s p n); [done|lia]|]. apply wpp_ret.
  destruct (val_top s p n Hs Hn) as [E B]. replace (p + (n - 1)) with (p + n - 1) in E by lia.
  pose proof (wf_total s (p + n - 1) Hs) as Hb. set (b := s !!! (p + n - 1)) in *.
  assert (negb (Z.land b (Z.shiftl 1 7) =? 0) = (128 <=? b)) as Hbit.
  { apply (check_below_ok 256 (λ b, Bool.eqb (negb (Z.land b (Z.shiftl 1 7) =? 0)) (128 <=? b)) b) in Hb; [|by vm_compute].
    by apply Bool.eqb_prop in Hb. }
  rewrite Hbit. replace (128 <=? b) with (sval s p n <? 0); [done|]. unfold sval. pose proof (val_range s p n Hs ltac:(lia)) as HV.
  assert (256 ^ n = 256 * 256 ^ (n - 1)) as EP by (rewrite <-pow_succ by lia; f_equal; lia). rewrite EP in *.
  unfold byte_ok in Hb. destruct (Z.ltb_spec (2 * val s p n) (256 * 256 ^ (n - 1))), (Z.leb_spec 128 b).
  - nia.
  - apply Z.ltb_ge. lia.
  - apply Z.ltb_lt. lia.
  - nia.
Qed.

(** The magnitude the signed operations work with. *)
Lemma sval_magnitude s p n :
  wf s → 0 ≤ n → Z.abs (sval s p n) = if sval s p n <? 0 then 256 ^ n - val s p n else val s p n.
Proof.
  intros Hs Hn. pose proof (val_range s p n Hs Hn). unfold sval. zcase; zcase; lia.
Qed.

(** ** [math_memory_mul_unsigned] and [math_memory_mul] *)

Section multiply.
Variable garbage : Z → Z.

(** One call; the in-place case copies its operands and calls [self] once. *)
Definition mul_unsigned_call (self : Z → Z → Z → Z → Z → Z → prog mem Z) (left lsize right rsize res res_size : Z) : prog mem Z :=
  right_last ← math_memory_shrink right rsize;
  left_last ← math_memory_shrink left lsize;
  let lsize := left_last - left + 1 in
  let rsize := right_last - right + 1 in
  let buff_size := lsize + 1 in
  with_block garbage buff_size (λ buff,
    if (res =? 0) || (res =? left) then
      let again right :=
        math_memory_copy buff lsize left lsize;;
        self buff lsize right rsize left (if 0 <? res_size then res_size else lsize) in
      if ((left <=? right) && (right <? left + lsize)) || ((right <=? left) && (left <? right + rsize)) then
        with_block garbage rsize (λ right_copy, math_memory_copy right_copy rsize right rsize;; again right_copy)
      else again right
    else
      mem_set res 0 res_size;;
      ploop (bytes_fuel rsize) (λ right_last,
        if right <=? right_last then
          math_memory_shift_left_byte res res_size 1 0 0;;
          d ← rd right_last;
          math_memory_mul_single left lsize d buff buff_size;;
          carry ← math_memory_add res res_size buff buff_size 0 0;
          if negb (carry =? 0) then mret (inr carry) else mret (inl (right_last - 1))
        else mret (inr 0)) right_last).

Fixpoint math_memory_mul_unsigned_rec (depth : nat) : Z → Z → Z → Z → Z → Z → prog mem Z :=
  match depth with
  | O => λ _ _ _ _ _ _ _, NoFuel
  | S depth => mul_unsigned_call (math_memory_mul_unsigned_rec depth)
  end.
Definition math_memory_mul_unsigned := math_memory_mul_unsigned_rec 2.

Definition math_memory_mul (left lsize right rsize res res_size : Z) : prog mem Z :=
  neg ← math_memory_is_negative right rsize;
  let go right negative :=
    let res := if res =? 0 then left else res in
    neg ← math_memory_is_negative res lsize;
    (if neg : bool then math_memory_complement res lsize 0 0 else mret tt);;
    let negative := if neg : bool then negative + 1 else negative in
    carry ← math_memory_mul_unsigned res lsize right rsize 0 res_size;
    (if Z.odd negative then
       math_memory_complement res (if res_size =? 0 then lsize else res_size) 0 0
     else mret tt);;
    mret carry in
  if neg : bool then with_block garbage rsize (λ p, math_memory_complement right rsize p rsize;; go p 1)
  else go right 0.

(** A byte of the product, from the top one of [right] down. *)
Definition product_so_far (s0 : mem) (left ml right mr i : Z) (r n : Z) (s : mem) : Prop :=
  val s r n = val s0 left ml * val s0 (right + i) (mr - i).

Lemma mul_round_ok s0 s1 left ml right mr r n b i (Q : Z + Z → mem → Prop) :
  0 ≤ i < mr → 0 ≤ ml → 0 < r → 0 < n → wf s0 → live s0 left ml → live s0 right mr → live s0 r n → live s0 b (ml + 1) →
  apart r n left ml → apart r n right mr → apart b (ml + 1) left ml → apart b (ml + 1) right mr → apart b (ml + 1) r n → 0 < b →
  val s0 left ml * val s0 right mr < 256 ^ n →
  writes2 s0 s1 r n b (ml + 1) → product_so_far s0 left ml right mr (i + 1) r n s1 →
  (∀ s2, writes2 s0 s2 r n b (ml + 1) → product_so_far s0 left ml right mr i r n s2 → Q (inl (right + i - 1)) s2) →
  wpp (math_memory_shift_left_byte r n 1 0 0;;
       d ← rd (right + i);
       math_memory_mul_single left ml d b (ml + 1);;
       carry ← math_memory_add r n b (ml + 1) 0 0;
       if negb (carry =? 0) then mret (inr carry) else mret (inl (right + i - 1))) s1 Q.
Proof.
  intros Hi Hml Hr Hn Hs Hl Hrt Hrn Hb A1 A2 A3 A4 A5 Hb0 Hfit W P HQ. unfold apart in *.
  set (L := val s0 left ml) in *. set (H := val s0 (right + (i + 1)) (mr - (i + 1))) in *.
  pose proof (wf_total s0 (right + i) Hs) as Hd. set (d := s0 !!! (right + i)) in *.
  pose proof (val_range s0 left ml Hs Hml) as HL. fold L in HL.
  pose proof (val_range s0 (right + (i + 1)) (mr - (i + 1)) Hs ltac:(lia)) as HH. fold H in HH.
  assert (val s0 (right + i) (mr - i) = d + 256 * H) as Hsuf.
  { replace (mr - i) with (mr - (i + 1) + 1) by lia. rewrite val_cons by lia. unfold H, d. do 3 f_equal. lia. }
  assert (L * (d + 256 * H) < 256 ^ n) as Hlt.
  { eapply Z.le_lt_trans; [|exact Hfit]. apply Z.mul_le_mono_nonneg_l; [lia|]. rewrite <-Hsuf.
    replace mr with (i + (mr - i)) at 2 by lia. rewrite val_app by lia. pose proof (val_range s0 right i Hs ltac:(lia)).
    pose proof (pow_pos i ltac:(lia)). pose proof (val_range s0 (right + i) (mr - i) Hs ltac:(lia)). nia. }
  unfold byte_ok in Hd. assert (256 * (L * H) < 256 ^ n) as Hlt1 by nia.
  apply wpp_bind, math_memory_shift_left_byte_ok; [by left|lia|lia|apply W|by eapply writes2_live|]. intros s2 W2 V2.
  rewrite P in V2. fold L H in V2. change (256 ^ 1) with 256 in V2. rewrite Z.mod_small in V2 by nia.
  pose proof (writes2_l _ _ _ _ _ _ _ W W2) as WW2.
  apply wpp_bind. eapply wpp_rd.
  { apply (lookup_live s2 right mr); [by eapply writes2_live|lia]. }
  rewrite (writes2_total _ _ _ _ _ _ (right + i) WW2) by lia. fold d.
  assert (target left b = b) as Ht by (unfold target, in_place; destruct (Z.eqb_spec b 0), (Z.eqb_spec b left); simpl; lia).
  assert (target_size left ml b (ml + 1) = ml + 1) as Hts.
  { unfold target_size. rewrite (proj2 (Z.eqb_neq (ml + 1) 0)) by lia. by rewrite andb_false_r. }
  apply wpp_bind, math_memory_mul_single_ok; rewrite ?Ht, ?Hts; [|done|].
  { unfold operands_ok. rewrite Ht, Hts. split_and!; [lia|lia|apply W2|by eapply writes2_live|by eapply writes2_live|].
    destruct (in_place left b); [lia|unfold up_ok; lia]. }
  intros c s3 Hc W3 E3. pose proof (writes2_r _ _ _ _ _ _ _ WW2 W3) as WW3.
  rewrite (writes2_val _ _ _ _ _ _ left ml WW2) in E3 by (unfold apart; lia). fold L in E3. rewrite Z.mod_small, pow_succ in E3 by (rewrite ?pow_succ; lia).
  pose proof (val_range s3 b (ml + 1) (writes_wf _ _ _ _ W3) ltac:(lia)) as HB. rewrite pow_succ in HB by lia.
  assert (c = 0) as -> by (unfold byte_ok in Hc; nia).
  apply wpp_bind. change (0 =? 0) with true.
  apply math_memory_add_ok; [done|lia|lia|lia|lia|apply W3|by eapply writes2_live|by eapply writes2_live|by eapply writes2_live| | |].
  { split; [unfold up_ok; simpl; lia|simpl; lia]. }
  { split; [unfold up_ok; simpl; lia|simpl; lia]. }
  cbn [Z.eqb]. intros c s4 Hc4 W4 E4. rewrite (writes_val _ _ _ _ r n W3), V2 in E4 by (unfold apart; lia).
  rewrite (Z.mod_small (val s3 b (ml + 1))) in E4 by nia. rewrite Z.mod_small in E4 by nia.
  pose proof (val_range s4 r n (writes_wf _ _ _ _ W4) ltac:(lia)) as HV.
  assert (c = 0) as -> by (unfold byte_ok in Hc4; nia). apply wpp_ret, HQ; [by eapply writes2_l|].
  unfold product_so_far. fold L. rewrite Hsuf. lia.
Qed.

(** A block is apart from what is live. *)
Lemma block_apart s s1 b size p n : block_at s s1 b size → live s p n → apart b size p n.
Proof. intros H Hl. unfold apart. destruct (Z.le_gt_cases n 0); [lia|]. pose proof (proj2 (block_live _ _ _ _ _ _ H Hl)). lia. Qed.
Lemma apart_le p n q m q' m' : apart p n q m → q ≤ q' → q' + m' ≤ q + m → 0 ≤ m → apart p n q' m'.
Proof. unfold apart. lia. Qed.

Lemma mul_distinct_ok depth left lsize right rsize r n s (Q : Z → mem → Prop) :
  0 ≤ lsize → 0 ≤ rsize → 0 < n → 0 < r → r ≠ left → wf s → live s left lsize → live s right rsize → live s r n →
  apart r n left lsize → apart r n right rsize → val s left lsize * val s right rsize < 256 ^ n →
  (∀ s', writes s s' r n → val s' r n = val s left lsize * val s right rsize → Q 0 s') →
  wpp (math_memory_mul_unsigned_rec (S depth) left lsize right rsize r n) s Q.
Proof.
  intros Hls Hrs Hn Hr Hne Hs Hl Hrt Hrn A1 A2 Hfit HQ. cbn [math_memory_mul_unsigned_rec]. unfold mul_unsigned_call.
  apply wpp_bind, math_memory_shrink_ok; [done|done|]. intros mr Sr.
  apply wpp_bind, math_memory_shrink_ok; [done|done|]. intros ml Sl.
  rewrite (sig_val _ _ _ _ Sl), (sig_val _ _ _ _ Sr) in *. pose proof (sig_range _ _ _ _ Sl). pose proof (sig_range _ _ _ _ Sr).
  cbv zeta. replace (left + ml - 1 - left + 1) with ml by lia. replace (right + mr - 1 - right + 1) with mr by lia.
  rewrite (proj2 (Z.eqb_neq r 0)), (proj2 (Z.eqb_neq r left)) by lia. cbn [orb].
  apply wpp_with_block; [done|]. intros b s1 B.
  assert (live s left ml ∧ live s right mr) as [Hlm Hrm] by (split; eapply live_le; [exact Hl|lia|lia|exact Hrt|lia|lia]).
  destruct (block_live _ _ _ _ _ _ B Hlm) as [L1 _]. destruct (block_live _ _ _ _ _ _ B Hrm) as [R1 _].
  destruct (block_live _ _ _ _ _ _ B Hrn) as [N1 _]. pose proof (block_apart _ _ _ _ _ _ B Hlm). pose proof (block_apart _ _ _ _ _ _ B Hrm).
  pose proof (block_apart _ _ _ _ _ _ B Hrn). destruct B as (Hb0 & Hw1 & Hlb & Hnone & Hsame). pose proof (conj Hb0 (conj Hw1 (conj Hlb (conj Hnone Hsame)))) as B.
  rewrite <-(block_val _ _ _ _ _ _ B Hlm), <-(block_val _ _ _ _ _ _ B Hrm) in Hfit.
  apply wpp_bind, mem_set_ok; [lia|done|split; lia|]. intros s2 F2.
  assert (writes s1 s2 r n) as W2 by (by apply (filled_writes _ _ _ _ 0); [|split; lia| |]).
  apply (wpp_ploop (λ k x s', x = right + Z.of_nat k - 1 ∧ Z.of_nat k ≤ mr ∧ writes2 s1 s' r n b (ml + 1) ∧
    product_so_far s1 left ml right mr (Z.of_nat k) r n s')) with (n := Z.to_nat mr).
  - intros k x s3 (-> & Hk & W3 & P3). zcase as Hgo.
    + replace (right + Z.of_nat k - 1) with (right + (Z.of_nat k - 1)) by lia.
      apply (mul_round_ok s1 s3 left ml right mr r n b (Z.of_nat k - 1)); try done; [lia|lia|eapply apart_le; [exact A1|lia..]|eapply apart_le; [exact A2|lia..]|by rewrite Z.sub_add|].
      intros s4 W4 P4. exists (k - 1)%nat. replace (Z.of_nat (k - 1)) with (Z.of_nat k - 1) by lia.
      split_and!; [lia|lia|lia|done|done].
    + apply wpp_ret. intros s4 H4. destruct (block_gone s s1 s3 s4 b (ml + 1) r n Hs B Hrn W3 H4) as [W V]. apply HQ; [done|].
      rewrite V, P3. replace k with 0%nat by lia. rewrite Z.add_0_r, Z.sub_0_r.
      by rewrite (block_val _ _ _ _ _ _ B Hlm), (block_val _ _ _ _ _ _ B Hrm).
  - rewrite Z2Nat.id by lia. split_and!; [lia|lia|eapply writes2_l; [by apply writes2_refl|done]|].
    unfold product_so_far. rewrite Z.sub_diag, (val_0 s1 (right + mr) 0), Z.mul_0_r by lia.
    apply val_zeros. intros i Hi. rewrite lookup_total_alt, F2, decide_True by lia. done.
  - unfold bytes_fuel. lia.
Qed.

(** The copies are made, the product goes over the left operand. *)
Lemma mul_in_place_again depth left ml right mr b n s1 s0 (Q : Z → mem → Prop) :
  0 ≤ ml → 0 ≤ mr → 0 < n → 0 < left → wf s1 → live s1 b (ml + 1) → live s1 left ml → live s1 left n → live s1 right mr →
  apart left n b (ml + 1) → apart left n right mr → apart b (ml + 1) right mr → apart b (ml + 1) left ml → b ≠ left →
  val s1 left ml * val s1 right mr < 256 ^ n → writes2 s0 s1 left n b (ml + 1) →
  (∀ s', writes2 s0 s' left n b (ml + 1) → val s' left n = val s1 left ml * val s1 right mr → Q 0 s') →
  wpp (math_memory_copy b ml left ml;;
       math_memory_mul_unsigned_rec (S depth) b ml right mr left (if 0 <? n then n else ml)) s1 Q.
Proof.
  intros Hml Hmr Hn Hleft Hs Hlb Hl Hln Hrt A1 A2 A3 A4 Hne Hfit W0 HQ.
  assert (live s1 b ml) as Hlb' by (eapply live_le; [exact Hlb|lia..]).
  apply wpp_bind, math_memory_copy_ok; [done|done|done|by rewrite Z.min_id|done|]. rewrite Z.min_id. intros s2 W2 V2.
  rewrite (proj2 (Z.ltb_lt 0 n)) by done.
  assert (val s2 right mr = val s1 right mr) as VR by (apply (writes_val _ _ _ _ _ _ W2); unfold apart in *; lia).
  apply mul_distinct_ok; [done|done|done|done|done|apply W2|by eapply writes_live|by eapply writes_live|by eapply writes_live|unfold apart in *; lia|done|by rewrite V2, VR|].
  rewrite V2, VR. intros s3 W3 V3. apply HQ; [|done]. eapply writes2_l; [|exact W3]. eapply writes2_r; [exact W0|]. eapply writes_le; [exact W2|lia..].
Qed.

Lemma mul_in_place_ok depth left lsize right rsize res n s (Q : Z → mem → Prop) :
  (res = 0 ∨ res = left) → 0 ≤ lsize → 0 ≤ rsize → 0 < n → 0 < left → wf s → live s left lsize → live s right rsize →
  live s left n → apart left n right rsize ∨ right = left ∧ rsize = lsize →
  val s left lsize * val s right rsize < 256 ^ n →
  (∀ s', writes s s' left n → val s' left n = val s left lsize * val s right rsize → Q 0 s') →
  wpp (math_memory_mul_unsigned_rec (S (S depth)) left lsize right rsize res n) s Q.
Proof.
  intros Hres Hls Hrs Hn Hleft Hs Hl Hrt Hln Ha Hfit HQ.
  change (math_memory_mul_unsigned_rec (S (S depth))) with (mul_unsigned_call (math_memory_mul_unsigned_rec (S depth))).
  unfold mul_unsigned_call.
  apply wpp_bind, math_memory_shrink_ok; [done|done|]. intros mr Sr.
  apply wpp_bind, math_memory_shrink_ok; [done|done|]. intros ml Sl.
  rewrite (sig_val _ _ _ _ Sl), (sig_val _ _ _ _ Sr) in *. pose proof (sig_range _ _ _ _ Sl). pose proof (sig_range _ _ _ _ Sr).
  cbv zeta. replace (left + ml - 1 - left + 1) with ml by lia. replace (right + mr - 1 - right + 1) with mr by lia.
  assert ((res =? 0) || (res =? left) = true) as -> by (destruct Hres as [->| ->]; [done|by rewrite Z.eqb_refl, orb_true_r]).
  assert (live s left ml ∧ live s right mr) as [Hlm Hrm] by (split; eapply live_le; [exact Hl|lia|lia|exact Hrt|lia|lia]).
  apply wpp_with_block; [done|]. intros b s1 B.
  pose proof (block_apart _ _ _ _ _ _ B Hlm). pose proof (block_apart _ _ _ _ _ _ B Hrm). pose proof (block_apart _ _ _ _ _ _ B Hln).
  destruct (block_live _ _ _ _ _ _ B Hlm) as [L1 _]. destruct (block_live _ _ _ _ _ _ B Hrm) as [R1 _].
  destruct (block_live _ _ _ _ _ _ B Hln) as [N1 Hlb].
  pose proof (block_val _ _ _ _ _ _ B Hlm) as VL. pose proof (block_val _ _ _ _ _ _ B Hrm) as VR.
  assert (wf s1 ∧ live s1 b (ml + 1)) as [Hw1 Hb1] by (destruct B as (_ & ? & ? & _); done).
  destruct (((left <=? right) && (right <? left + ml)) || ((right <=? left) && (left <? right + mr))) eqn:Hover.
  - apply wpp_with_block; [done|]. intros b2 s2 B2. assert (wf s2 ∧ live s2 b2 mr) as [Hw2 Hb2] by (destruct B2 as (_ & ? & ? & _); done).
    pose proof (block_apart _ _ _ _ _ _ B2 L1). pose proof (block_apart _ _ _ _ _ _ B2 R1).
    pose proof (block_apart _ _ _ _ _ _ B2 N1). pose proof (block_apart _ _ _ _ _ _ B2 Hb1).
    destruct (block_live _ _ _ _ _ _ B2 L1) as [L2 _]. destruct (block_live _ _ _ _ _ _ B2 R1) as [R2 _].
    destruct (block_live _ _ _ _ _ _ B2 N1) as [N2 _]. destruct (block_live _ _ _ _ _ _ B2 Hb1) as [Bl2 _].
    apply wpp_bind, math_memory_copy_ok; [lia|lia|done|by rewrite Z.min_id|done|]. rewrite Z.min_id. intros s3 W3 V3.
    assert (val s3 left ml = val s left ml) as VL3.
    { rewrite (writes_val _ _ _ _ _ _ W3) by (unfold apart in *; lia). by rewrite (block_val _ _ _ _ _ _ B2 L1). }
    rewrite (block_val _ _ _ _ _ _ B2 R1), VR in V3.
    apply (mul_in_place_again depth left ml b2 mr b n s3 s3); try (by eapply writes_live); try (unfold apart in *; lia);
      [apply W3|apply writes2_refl, W3|].
    rewrite V3, VL3. intros s4 W4 V4 s5 E5 s6 E6.
    destruct (block_forgotten s1 s2 s4 s5 b2 mr (λ a, left ≤ a < left + n ∨ b ≤ a < b + (ml + 1)) Hw1 B2) as (G1 & G2 & G3 & G4).
    { intros a [?|?]; [by apply N1|by apply Hb1]. }
    { intros a Hna Hnb. rewrite (writes2_out _ _ _ _ _ _ W4) by lia. by apply (writes_out _ _ _ _ W3). }
    { intros a. rewrite (writes_dom _ _ _ _ W3). apply (writes2_dom _ _ _ _ _ _ W4). }
    { apply W4. }
    { done. }
    assert (writes2 s1 s5 left n b (ml + 1)) as W5 by (split; [intros a ??; apply G1; lia|done|done]).
    destruct (block_gone s s1 s5 s6 b (ml + 1) left n Hs B Hln W5 E6) as [W6 V6]. apply HQ; [done|].
    rewrite V6, <-V4. apply val_ext. intros i Hi. rewrite !lookup_total_alt, G4 by lia. done.
  - assert (apart left n right mr) as Hap.
    { destruct Ha as [Ha|[-> ->]]; [eapply apart_le; [exact Ha|lia..]|].
      destruct (Z.eq_dec mr 0) as [->|]; [unfold apart; lia|]. apply orb_false_iff in Hover as [_ Ho].
      apply andb_false_iff in Ho as [Ho%Z.leb_gt|Ho%Z.ltb_ge]; lia. }
    apply (mul_in_place_again depth left ml right mr b n s1 s1); try done; try (unfold apart in *; lia).
    rewrite VL, VR. intros s4 W4 V4 s5 E5.
    destruct (block_gone s s1 s4 s5 b (ml + 1) left n Hs B Hln W4 E5) as [W6 V6]. apply HQ; [done|]. by rewrite V6.
Qed.
End multiply.

(** ** Properties *)

(** C40: [math_memory_shift_left] and [math_memory_shift_right] multiply and
    divide the number of [n] bytes by [2 ^ shift], modulo [256 ^ n], for every
    shift, also one of more bits than the number has, in place or into a
    destination on the side the loop's direction allows. *)
Theorem math_memory_shift_scales p n shift res s :
  let r := if res =? 0 then p else res in
  0 < p → 0 ≤ res → 0 ≤ shift → 0 ≤ n → wf s → live s p n → live s r n →
  (up_ok r p n → ∃ s', math_memory_shift_left p n shift res n s = Ok (tt, s') ∧ writes s s' r n ∧
     val s' r n = (val s p n * 2 ^ shift) mod 256 ^ n) ∧
  (down_ok r p n → ∃ s', math_memory_shift_right p n shift res n s = Ok (tt, s') ∧ writes s s' r n ∧
     val s' r n = val s p n / 2 ^ shift).
Proof.
  intros r Hp Hres Hsh Hn Hs Hl Hr. split; intros Ho; apply wpp_result.
  - apply math_memory_shift_left_ok; auto. intros s' W V. fold r in V. split_and!; [done..|]. by rewrite V, Z.mul_comm.
  - apply math_memory_shift_right_ok; auto.
Qed.

Lemma math_memory_shift_scales_witness :
  let s := bytes_at 1 [1; 2; 3; 0] in
  ∃ s', math_memory_shift_left 1 3 13 0 3 s = Ok (tt, s') ∧ writes s s' 1 3 ∧ val s' 1 3 = (val s 1 3 * 2 ^ 13) mod 256 ^ 3.
Proof.
  refine (proj1 (math_memory_shift_scales 1 3 13 0 (bytes_at 1 [1; 2; 3; 0]) _ _ _ _ _ _ _) _);
    first [on_bytes|unfold up_ok; on_bytes].
Defined.

(** C13: [math_memory_mul_unsigned] computes the exact product, of any lengths,
    whenever it fits the [n] bytes of the result: into a block apart from both
    operands, or over the left operand, also when the right operand is the same
    block; it returns 0, and no byte outside the result changes, whatever the
    blocks of local memory it borrowed held. *)
Theorem math_memory_mul_unsigned_multiplies garbage left lsize right rsize res n s :
  let r := if (res =? 0) || (res =? left) then left else res in
  0 ≤ lsize → 0 ≤ rsize → 0 < n → 0 < left → 0 ≤ res → wf s →
  live s left lsize → live s right rsize → live s r n →
  val s left lsize * val s right rsize < 256 ^ n →
  (if (res =? 0) || (res =? left) then apart left n right rsize ∨ right = left ∧ rsize = lsize
   else apart res n left lsize ∧ apart res n right rsize) →
  ∃ s', math_memory_mul_unsigned garbage left lsize right rsize res n s = Ok (0, s') ∧
    writes s s' r n ∧ val s' r n = val s left lsize * val s right rsize.
Proof.
  intros r Hl Hr Hn Hp Hres Hs Ll Lr Lt Hfit. unfold r in *. destruct ((res =? 0) || (res =? left)) eqn:E; intros Ha.
  - apply wpp_result, mul_in_place_ok; auto. apply orb_true_iff in E as [E%Z.eqb_eq|E%Z.eqb_eq]; auto.
  - apply orb_false_iff in E as [E1%Z.eqb_neq E2%Z.eqb_neq]. destruct Ha.
    apply wpp_result, mul_distinct_ok; auto. lia.
Qed.

Lemma math_memory_mul_unsigned_multiplies_witness :
  let s := bytes_at 1 [255; 3; 200; 0; 0; 0] in
  ∃ s', math_memory_mul_unsigned (λ _, 7) 1 2 3 1 4 3 s = Ok (0, s') ∧ writes s s' 4 3 ∧ val s' 4 3 = val s 1 2 * val s 3 1.
Proof.
  refine (math_memory_mul_unsigned_multiplies (λ _, 7) 1 2 3 1 4 3 (bytes_at 1 [255; 3; 200; 0; 0; 0]) _ _ _ _ _ _ _ _ _ _ _);
    first [on_bytes|vm_compute; reflexivity|unfold apart; on_bytes].
Defined.

(** In place with a result size of 0 the product is cut to the significant
    bytes of the left operand: 5 * 100 in a block of two bytes gives 244. *)
Lemma mul_unsigned_default_size :
  match math_memory_mul_unsigned (λ _, 7) 1 2 3 2 0 0 (bytes_at 1 [5; 0; 100; 0]) with
  | Ok (c, s) => c = 0 ∧ val s 1 2 = 244 | _ => False end.
Proof. vm_compute. done. Qed.

(** Given a result block, [math_memory_mul] multiplies what that block holds,
    not the left operand. *)
Lemma mul_ignores_left :
  match math_memory_mul (λ _, 7) 1 1 2 1 3 1 (bytes_at 1 [5; 6; 7]) with
  | Ok (c, s) => val s 3 1 = 42 | _ => False end.
Proof. vm_compute. done. Qed.
