(* ===== verification/BigDiv.v ===== *)
(** BigDiv: division of src/lib/math.c: by one byte, and schoolbook long division
    with a bisected quotient digit. *)
From S2P Require Import Prelude Memory Bignum BigSub BigMul.

Section divide.
Variable garbage : Z → Z.

(** ** Division *)

(** Dividing by zero is undefined. *)
Definition divide (x v : Z) : prog mem (Z * Z) := if v =? 0 then undefined else mret (x / v, x mod v).

(** [res_size], an in-out parameter, may be NULL; the result is the remainder and
    its new value. *)
Definition math_memory_div_single (p mem_size value res : Z) (res_size : option Z) : prog mem (Z * option Z) :=
  let fuel := bytes_fuel mem_size in
  mem_last ← math_memory_shrink p mem_size;
  '(divider, mem_last) ←
    (if p <=? mem_last then
       b ← rd mem_last;
       mret (if b <? value then (b, mem_last - 1) else (0, mem_last))
     else mret (0, mem_last));
  let out_size := match res_size with Some n => if n =? 0 then mem_size else n | None => mem_size end in
  '(res, res_end, divider, res_size) ←
    (if negb (res =? 0) && negb (res =? p) then
       let res_bak := res in
       let res_end := res + out_size in
       '(_, res, divider) ← while fuel (λ '(q, res, _), (p <=? q) && (res <? res_end))
         (λ '(q, res, divider),
           b ← rd q;
           '(quot, rem) ← divide (Z.lor (Z.shiftl divider 8) b) value;
           wr res quot;;
           mret (q - 1, res + 1, rem)) (mem_last, res, divider);
       math_memory_exchange res_bak 0 (res - res_bak);;
       mret (res, res_end, divider, match res_size with Some _ => Some (res - res_bak) | None => None end)
     else
       let res_end := p + out_size in
       '(_, divider) ← while fuel (λ '(res, _), p <=? res)
         (λ '(res, divider),
           b ← rd res;
           '(quot, rem) ← divide (Z.lor (Z.shiftl divider 8) b) value;
           wr res quot;;
           mret (res - 1, rem)) (mem_last, divider);
       let res := mem_last + 1 in
       res_size ← (match res_size with
                   | Some _ => last ← math_memory_shrink p (mem_last - p + 1); mret (Some (last - p + 1))
                   | None => mret None
                   end);
       mret (res, res_end, divider, res_size));
  fill_to (bytes_fuel out_size) 0 res res_end;;
  mret (divider, res_size).

(** Bisection needs at most 257 rounds. *)
Definition bisect_fuel : nat := 300.

Definition math_memory_div_once (left lsize right rsize res res_size : Z) : prog mem Z :=
  if lsize <? rsize then mret 0
  else
    h ← rd (left + (lsize - 1));
    divider ← (if rsize <? lsize then l ← rd (left + (lsize - 2)); mret (Z.lor (Z.shiftl h 8) l) else mret h);
    rl ← rd (right + (rsize - 1));
    '(mh, _) ← divide divider rl;
    '(ml, _) ← divide divider (rl + 1);
    let mh := if 0xFF <? mh then 0xFF else mh in
    ploop bisect_fuel (λ '(mh, ml),
      let divider := (mh + ml + 1) / 2 in
      math_memory_mul_single right rsize (u8 divider) res res_size;;
      ret ← math_memory_cmp left lsize res res_size;
      if ret =? 0 then mret (inr (u8 divider))
      else if ret <? 0 then mret (inl (u16 (divider - 1), ml))
      else if ml <? divider then mret (inl (mh, divider))
      else mret (inr (u8 divider))) (mh, ml).

Definition math_memory_div_unsigned (left lsize right rsize res res_size : Z) : prog mem Z :=
  left_last ← math_memory_shrink left lsize;
  right_last ← math_memory_shrink right rsize;
  let rsize := right_last - right + 1 in
  let res_bak := res in
  let left_pos := left_last - rsize + 1 in
  let res_end := res + res_size in
  '(res, _, _) ← while (bytes_fuel res_size) (λ '(res, left_pos, _), (left <=? left_pos) && (res <? res_end))
    (λ '(res, left_pos, left_last),
      let lsize := left_last - left_pos + 1 in
      mult ← with_block garbage (rsize + 1) (λ buff,
        mult ← math_memory_div_once left_pos lsize right rsize buff (rsize + 1);
        (if negb (mult =? 0) then math_memory_sub left_pos lsize buff (rsize + 1) 0 0;; mret tt else mret tt);;
        mret mult);
      wr res mult;;
      left_last ← ploop (bytes_fuel lsize) (λ left_last,
        if left_pos <? left_last then
          b ← rd left_last;
          if b =? 0 then mret (inl (left_last - 1)) else mret (inr left_last)
        else mret (inr left_last)) left_last;
      mret (res + 1, left_pos - 1, left_last)) (res, left_pos, left_last);
  let size := res - res_bak in
  math_memory_exchange res_bak 0 size;;
  fill_to (bytes_fuel res_size) 0 res res_end;;
  mret size.

Definition math_memory_div (left lsize right rsize res res_size : Z) : prog mem Z :=
  right_negative ← math_memory_is_negative right rsize;
  let go right :=
    left_negative ← math_memory_is_negative left lsize;
    (if left_negative : bool then math_memory_complement left lsize 0 0 else mret tt);;
    size ← math_memory_div_unsigned left lsize right rsize res res_size;
    (if xorb left_negative right_negative then math_memory_complement res res_size 0 0 else mret tt);;
    (if left_negative : bool then math_memory_complement left lsize 0 0 else mret tt);;
    mret size in
  if right_negative : bool then with_block garbage rsize (λ p, math_memory_complement right rsize p rsize;; go p)
  else go right.

(** *** Division by one byte, in place *)

Lemma lor_shift_byte x b : 0 ≤ x → byte_ok b → Z.lor (Z.shiftl x 8) b = 256 * x + b.
Proof.
  intros Hx Hb. unfold byte_ok in Hb.
  assert (Z.land (Z.shiftl x 8) b = 0) as Hand.
  { apply Z.bits_inj'. intros i Hi. rewrite Z.land_spec, Z.bits_0, Z.shiftl_spec by done.
    destruct (Z.lt_ge_cases i 8); [by rewrite (Z.testbit_neg_r _ (i - 8)) by lia|].
    rewrite (proj1 (Z.bounded_iff_bits_nonneg 8 b ltac:(lia) ltac:(lia)) ltac:(change (2 ^ 8) with 256; lia) i) by lia.
    apply andb_false_r. }
  rewrite <-Z.lxor_lor, <-Z.add_nocarry_lxor by done. rewrite Z.shiftl_mul_pow2 by lia. lia.
Qed.

Lemma divide_ok x v s (Q : Z * Z → mem → Prop) : v ≠ 0 → Q (x / v, x mod v) s → wpp (divide x v) s Q.
Proof. intros Hv HQ. unfold divide. rewrite (proj2 (Z.eqb_neq v 0)) by done. by apply wpp_ret. Qed.

(** One byte of the quotient, from the top. *)
Lemma div_byte_step v d b H q : 0 < v → H = q * v + d → 256 * H + b = (256 * q + (256 * d + b) / v) * v + (256 * d + b) mod v.
Proof. intros Hv ->. pose proof (Z.div_mod (256 * d + b) v). lia. Qed.

Lemma div_single_loop p j m v d0 s (Q : Z * Z → mem → Prop) fuel :
  0 ≤ j ≤ m → byte_ok v → 0 < v → 0 ≤ d0 < v → wf s → live s p m → val s (p + j) (m - j) = d0 → j < Z.of_nat fuel →
  (∀ d s', 0 ≤ d < v → writes s s' p j → val s p m = val s' p j * v + d → Q (p - 1, d) s') →
  wpp (while fuel (λ '(res, _), p <=? res)
         (λ '(res, divider),
           b ← rd res;
           '(quot, rem) ← divide (Z.lor (Z.shiftl divider 8) b) v;
           wr res quot;;
           mret (res - 1, rem)) (p + j - 1, d0)) s Q.
Proof.
  intros Hj Hv Hv0 Hd0 Hs Hl E0 Hf HQ. unfold byte_ok in Hv.
  apply (wpp_while (λ k x s', ∃ d, x = (p + (j - k) - 1, d) ∧ k ≤ j ∧ 0 ≤ d < v ∧ writes s s' p j ∧
    (∀ i, 0 ≤ i < j - k → s' !!! (p + i) = s !!! (p + i)) ∧
    val s (p + (j - k)) (m - (j - k)) = val s' (p + (j - k)) k * v + d) j); [|exists d0|done|lia].
  - intros k x s1 Hk (d & -> & Hkj & Hd & W & E & V). cbv beta iota. zcase as Hgo.
    + split; [lia|]. set (i := j - (k + 1)). assert (p + (j - k) - 1 = p + i) as -> by lia.
      apply wpp_bind. eapply wpp_rd; [eapply lookup_live; [eapply writes_live; [exact W|exact Hl]|lia]|].
      rewrite E by lia. pose proof (wf_total s (p + i) Hs) as Hb. set (b := s !!! (p + i)) in *.
      apply wpp_bind, divide_ok; [lia|]. rewrite lor_shift_byte by (done || lia). unfold byte_ok in Hb.
      assert (0 ≤ (256 * d + b) / v < 256) as Hq by (split; [apply Z.div_pos; lia|apply Z.div_lt_upper_bound; nia]).
      apply wpp_bind, wpp_wr; [eapply writes_live; [exact W|exact Hl|lia]|]. rewrite u8_id by done. apply wpp_ret.
      exists ((256 * d + b) mod v). fold i.
      split_and!; [f_equal; lia|lia|apply Z.mod_pos_bound; lia|apply Z.mod_pos_bound; lia|apply writes_insert; [done|lia|apply Hl; lia|done]| |].
      * intros a Ha. rewrite lookup_total_insert_ne by lia. apply E. lia.
      * assert (val s (p + i) (m - i) = b + 256 * val s (p + (j - k)) (m - (j - k))) as ->.
        { replace (m - i) with (m - (j - k) + 1) by lia. rewrite val_cons by lia. unfold b. do 2 f_equal. f_equal. lia. }
        rewrite (val_cons _ (p + i) k), lookup_total_insert_eq by lia.
        rewrite (val_ext _ s1 (p + i + 1) (p + (j - k))) by (intros a Ha; rewrite lookup_total_insert_ne by lia; f_equal; lia).
        pose proof (div_byte_step v d b _ _ Hv0 V). lia.
    + assert (k = j) as -> by lia. rewrite Z.sub_diag, Z.add_0_r, Z.sub_0_r in *. by apply HQ.
  - rewrite Z.sub_0_r, E0, (val_0 s (p + j) 0) by done. split_and!; [f_equal; lia|lia|lia|lia|by apply writes_refl|done|lia].
Qed.

Lemma math_memory_div_single_ok p n v res osize s (Q : Z * option Z → mem → Prop) :
  in_place p res = true → 0 ≤ n → byte_ok v → 0 < v → wf s → live s p n → osize = None ∨ osize = Some n →
  (∀ k s', writes s s' p n → val s' p n = val s p n / v → sig s' p n k →
     Q (val s p n mod v, match osize with Some _ => Some k | None => None end) s') →
  wpp (math_memory_div_single p n v res osize) s Q.
Proof.
  intros Hin Hn Hv Hv0 Hs Hl Ho HQ. unfold math_memory_div_single.
  apply wpp_bind, math_memory_shrink_ok; [done|done|]. intros m Sm. pose proof (sig_range _ _ _ _ Sm) as Hm.
  rewrite (sig_val _ _ _ _ Sm) in HQ. assert (live s p m) as Hlm by (eapply live_le; [exact Hl|lia..]).
  assert (∀ (K : Z * Z → prog mem (Z * option Z)), (∀ j d, 0 ≤ j ≤ m → 0 ≤ d < v → val s (p + j) (m - j) = d → wpp (K (d, p + j - 1)) s Q) →
    wpp ((if p <=? p + m - 1 then b ← rd (p + m - 1); mret (if b <? v then (b, p + m - 1 - 1) else (0, p + m - 1)) else mret (0, p + m - 1)) ≫= K) s Q) as Hstart.
  { intros K HK. assert (wpp (K (0, p + m - 1)) s Q) as H0 by (apply HK; [lia|lia|rewrite Z.sub_diag; by apply val_0]).
    apply wpp_bind. zcase as Hlt; [|by apply wpp_ret]. apply wpp_bind. eapply wpp_rd; [apply (lookup_live s p m); [done|lia]|]. apply wpp_ret.
    zcase as Hb; [|done]. replace (p + m - 1 - 1) with (p + (m - 1) - 1) by lia. pose proof (wf_total s (p + m - 1) Hs) as Hbt. unfold byte_ok in Hbt.
    apply HK; [lia|lia|]. replace (m - (m - 1)) with 1 by lia. rewrite val_1. f_equal. lia. }
  apply Hstart. clear Hstart. intros j d Hj Hd E. cbv zeta beta iota. rewrite in_place_spec, Hin. cbn [negb].
  assert (match osize with Some n0 => if n0 =? 0 then n else n0 | None => n end = n) as -> by (destruct Ho as [->| ->]; [done|by zcase]).
  apply wpp_bind, wpp_bind, (div_single_loop p j m v d s); try done; [unfold bytes_fuel; lia|].
  intros d' s1 Hd' W V. cbv beta iota.
  assert (∀ k, (osize ≠ None → sig s1 p j k) → wpp (fill_to (bytes_fuel n) 0 (p + j) (p + n);; mret (d', match osize with Some _ => Some k | None => None end)) s1 Q) as Hend.
  { intros k Sk. apply wpp_bind, (fill_to_ok _ _ _ _ j s); [lia|split; lia|done|done|unfold bytes_fuel; lia|]. intros s2 W2 E2 Z2. apply wpp_ret.
    assert (val s2 p n = val s1 p j) as V2.
    { rewrite (zeros_val s2 p n j) by (done || lia). by apply val_ext. }
    assert (d' = val s p m mod v) as -> by (apply (Z.mod_unique_pos _ _ (val s1 p j)); lia).
    assert (val s2 p n = val s p m / v) as V3 by (rewrite V2; apply (Z.div_unique_pos _ _ _ (val s p m mod v)); lia).
    destruct Ho as [->| ->]; [destruct (sig_exists s2 p n ltac:(lia)) as [k2 S2]; by eapply HQ|].
    apply (HQ k s2 W2 V3). destruct (Sk ltac:(done)) as [R1 T1 Z1]. split; [lia| |].
    - intros Hk. rewrite E2 by lia. by apply T1.
    - intros i Hi. destruct (Z.lt_ge_cases i j); [rewrite E2 by lia; apply Z1; lia|apply Z2; lia]. }
  replace (p + j - 1 + 1) with (p + j) by lia. destruct Ho as [->| ->].
  - apply wpp_bind, wpp_ret, wpp_ret. by apply (Hend 0).
  - replace (p + j - 1 - p + 1) with j by lia. apply wpp_bind, wpp_bind, math_memory_shrink_ok; [lia|eapply writes_live; [exact W|]; eapply live_le; [exact Hl|lia..]|].
    intros k Sk. apply wpp_ret, wpp_ret. replace (p + k - 1 - p + 1) with k by lia. by apply (Hend k).
Qed.

(** *** One digit of the quotient *)

(** The two top bytes of the dividend over the top byte of the divisor bracket
    the digit. *)
Lemma digit_bracket D B rl L R :
  0 < B → 0 < rl → 0 ≤ D → D * B ≤ L < (D + 1) * B → rl * B ≤ R < (rl + 1) * B →
  D / (rl + 1) * R ≤ L ∧ L / R ≤ D / rl.
Proof.
  intros HB Hrl HD HL HR. assert (0 < R) by nia. split.
  - pose proof (Z.mul_div_le D (rl + 1) ltac:(lia)). pose proof (Z.div_pos D (rl + 1) HD ltac:(lia)). nia.
  - apply Z.div_le_lower_bound; [lia|]. pose proof (Z.mul_div_le L R ltac:(lia)). pose proof (Z.div_pos L R ltac:(nia) ltac:(lia)).
    set (q := L / R) in *. assert (rl * q * B < (D + 1) * B) by nia. nia.
Qed.

Lemma bisect_ok left lsize right rsize b s0 s (Q : Z → mem → Prop) mh ml :
  let L := val s0 left lsize in let R := val s0 right rsize in let n := rsize + 1 in
  0 ≤ lsize → 0 ≤ rsize → wf s0 → live s0 left lsize → live s0 right rsize → live s0 b n → 0 < b → 0 < R →
  apart b n left lsize → apart b n right rsize → 0 < right →
  0 ≤ ml → ml * R ≤ L → L / R ≤ mh → mh ≤ 0xFF → writes s0 s b n →
  (∀ s', writes s0 s' b n → val s' b n = L / R * R → Q (L / R) s') →
  wpp (ploop bisect_fuel (λ '(mh, ml),
      let divider := (mh + ml + 1) / 2 in
      math_memory_mul_single right rsize (u8 divider) b n;;
      ret ← math_memory_cmp left lsize b n;
      if ret =? 0 then mret (inr (u8 divider))
      else if ret <? 0 then mret (inl (u16 (divider - 1), ml))
      else if ml <? divider then mret (inl (mh, divider))
      else mret (inr (u8 divider))) (mh, ml)) s Q.
Proof.
  intros L R n Hls Hrs Hs Hl Hrt Hb Hb0 HR A1 A2 Hright Hml0 Hml Hmh Hff W0 HQ.
  assert (0 ≤ L) as HL by (apply val_range; done).
  assert (ml ≤ L / R) as Hmlq by (apply Z.div_le_lower_bound; lia).
  apply (wpp_ploop (λ k x s', ∃ mh ml, x = (mh, ml) ∧ Z.of_nat k = mh - ml ∧ 0 ≤ ml ≤ L / R ∧ L / R ≤ mh ∧ mh ≤ 0xFF ∧ writes s0 s' b n))
    with (n := Z.to_nat (mh - ml)); [| |unfold bisect_fuel; lia].
  2: { exists mh, ml. split_and!; [done|lia|lia|lia|lia|lia|done]. }
  clear mh ml Hml0 Hml Hmh Hff W0 Hmlq s. intros k x s (mh & ml & -> & Hk & Hml & Hmh & Hff & W). cbv zeta.
  set (d := (mh + ml + 1) / 2). assert (ml ≤ d ≤ mh ∧ mh + ml ≤ 2 * d ≤ mh + ml + 1) as [Hd Hd2] by (unfold d; dlia).
  rewrite u8_id by (split; lia).
  assert (target right b = b) as Ht by (unfold target, in_place; destruct (Z.eqb_spec b 0), (Z.eqb_spec b right); simpl; lia).
  assert (target_size right rsize b n = n) as Hts.
  { unfold target_size, n. rewrite (proj2 (Z.eqb_neq (rsize + 1) 0)) by lia. by rewrite andb_false_r. }
  assert (∀ p m, live s0 p m → live s p m) as Hlive by (intros; by eapply writes_live).
  apply wpp_bind, math_memory_mul_single_ok; rewrite ?Ht, ?Hts; [|split; lia|].
  { unfold operands_ok. rewrite Ht, Hts. split_and!; [lia|lia|apply W|by apply Hlive|by apply Hlive|].
    destruct (in_place right b); [lia|unfold up_ok, apart in *; lia]. }
  intros c s2 Hc W2 E2. rewrite (writes_val _ _ _ _ right rsize W) in E2 by done. fold R in E2.
  pose proof (val_range s0 right rsize Hs Hrs) as HRr. fold R in HRr.
  assert (256 ^ n = 256 * 256 ^ rsize) as Hpow by (apply pow_succ; lia).
  rewrite Z.mod_small in E2 by lia. pose proof (val_range s2 b n (writes_wf _ _ _ _ W2) ltac:(lia)) as HV.
  assert (c = 0) as -> by (unfold byte_ok in Hc; nia). rewrite Z.mul_0_l, Z.add_0_r in E2.
  assert (writes s0 s2 b n) as WW by (eapply writes_trans; [exact W|exact W2|lia..]).
  apply wpp_bind, math_memory_cmp_ok; [done|lia|apply W2|by eapply writes_live|by eapply writes_live|].
  rewrite (writes_val _ _ _ _ left lsize WW) by done. fold L. rewrite E2.
  pose proof (Z.div_mod L R ltac:(lia)) as Hdm. pose proof (Z.mod_pos_bound L R HR) as Hmod. set (q := L / R) in *.
  destruct (Z.compare_spec L (d * R)) as [Heq|Hlt|Hgt]; cbn [cmp_int Z.eqb Z.ltb Z.compare].
  - apply wpp_ret. assert (q = d) as <- by nia. by apply HQ.
  - apply wpp_ret. assert (q < d) by nia. exists (Z.to_nat (d - 1 - ml)). split; [lia|]. exists (d - 1), ml.
    rewrite wrap_small by (change (2 ^ 16) with 65536; lia). split_and!; [done|lia|lia|lia|lia|lia|done].
  - assert (d ≤ q) by nia. destruct (Z.ltb_spec ml d).
    + apply wpp_ret. exists (Z.to_nat (mh - d)). split; [lia|]. exists mh, d. split_and!; [done|lia|lia|lia|lia|lia|done].
    + apply wpp_ret. assert (q = d) as <- by lia. by apply HQ.
Qed.

Lemma math_memory_div_once_ok left lsize right rsize b s (Q : Z → mem → Prop) :
  let L := val s left lsize in let R := val s right rsize in let n := rsize + 1 in
  0 < rsize → s !!! (right + (rsize - 1)) ≠ 0 → 0 ≤ lsize ≤ rsize + 1 → wf s → live s left lsize → live s right rsize →
  live s b n → 0 < b → 0 < right → apart b n left lsize → apart b n right rsize → L < 256 * R →
  (∀ s', writes s s' b n → (L / R ≠ 0 → val s' b n = L / R * R) → Q (L / R) s') →
  wpp (math_memory_div_once left lsize right rsize b n) s Q.
Proof.
  intros L R n Hrs Htop Hls Hs Hl Hrt Hb Hb0 Hr0 A1 A2 Hfit HQ. unfold math_memory_div_once.
  destruct (val_top s right rsize Hs Hrs) as [ER BR]. fold R in ER. set (B := 256 ^ (rsize - 1)) in *.
  pose proof (wf_total s (right + (rsize - 1)) Hs) as Hrl. set (rl := s !!! (right + (rsize - 1))) in *. unfold byte_ok in Hrl.
  assert (0 < B) as HB by (apply pow_pos; lia). assert (0 < R) as HR by nia. zcase as Hlt.
  - assert (L < R) as HLR.
    { pose proof (val_range s left lsize Hs ltac:(lia)). pose proof (Z.pow_le_mono_r 256 lsize (rsize - 1)). fold L in H. unfold B in *. nia. }
    pose proof (val_range s left lsize Hs ltac:(lia)) as HL. fold L in HL. apply wpp_ret.
    rewrite Z.div_small in HQ by lia. by apply HQ; [apply writes_refl|].
  - apply wpp_bind. eapply wpp_rd; [eapply (lookup_live s left lsize); [done|lia]|].
    pose proof (wf_total s (left + (lsize - 1)) Hs) as Hh. set (h := s !!! (left + (lsize - 1))) in *.
    apply wpp_bind.
    set (D := if rsize <? lsize then 256 * h + s !!! (left + (lsize - 2)) else h).
    assert (D * B ≤ L < (D + 1) * B ∧ 0 ≤ D) as [HD HD0].
    { destruct (val_top s left lsize Hs ltac:(lia)) as [EL BL]. fold L h in EL. unfold byte_ok in Hh. unfold D. zcase as H2.
      - destruct (val_top s left (lsize - 1) Hs ltac:(lia)) as [EL2 BL2]. pose proof (wf_total s (left + (lsize - 2)) Hs) as Hl2. unfold byte_ok in Hl2.
        replace (lsize - 1 - 1) with (lsize - 2) in EL2, BL2 by lia.
        assert (256 ^ (lsize - 2) = B) as EB by (unfold B; f_equal; lia).
        assert (256 ^ (lsize - 1) = 256 * B) as EB2 by (unfold B; rewrite <-pow_succ by lia; f_equal; lia).
        rewrite EB in EL2, BL2. rewrite EB2 in EL. clear - EL EL2 BL2 Hh Hl2 HB. nia.
      - replace (lsize - 1) with (rsize - 1) in EL, BL by lia. fold B in EL, BL. clear - EL BL Hh HB. nia. }
    assert (wpp (if rsize <? lsize then l ← rd (left + (lsize - 2)); mret (Z.lor (Z.shiftl h 8) l) else mret h) s (λ d s', d = D ∧ s' = s)) as Hd.
    { unfold D. zcase as H2; [|by apply wpp_ret]. apply wpp_bind. eapply wpp_rd; [eapply (lookup_live s left lsize); [done|lia]|].
      apply wpp_ret. split; [|done]. apply lor_shift_byte; [apply Hh|by apply wf_total]. }
    eapply wpp_mono; [exact Hd|]. intros d s' [Ed Es]. simpl in *. subst d s'.
    apply wpp_bind. eapply wpp_rd; [eapply (lookup_live s right rsize); [done|lia]|]. fold rl.
    unfold divide. rewrite (proj2 (Z.eqb_neq rl 0)), (proj2 (Z.eqb_neq (rl + 1) 0)) by lia.
    apply wpp_bind, wpp_ret, wpp_bind, wpp_ret. cbv beta iota zeta.
    destruct (digit_bracket D B rl L R HB ltac:(lia) HD0 HD ltac:(lia)) as [Hlo Hhi].
    assert (L / R ≤ 255) as Hq by (apply Z.lt_succ_r, Z.div_lt_upper_bound; lia).
    apply (bisect_ok left lsize right rsize b s s); try done; try lia; fold L R n; [apply Z.div_pos; lia|zcase; lia|zcase; lia|].
    intros s' W V. by apply HQ.
Qed.

(** *** Long division *)

(** The digit and the dividend that remains. *)
Lemma div_digit_ok p w right rsize s (Q : Z → mem → Prop) :
  let L := val s p w in let R := val s right rsize in
  0 < rsize → s !!! (right + (rsize - 1)) ≠ 0 → 0 < w ≤ rsize + 1 → wf s → live s p w → live s right rsize →
  0 < p → 0 < right → L < 256 * R →
  (∀ s', writes s s' p w → val s' p w = L mod R → Q (L / R) s') →
  wpp (with_block garbage (rsize + 1) (λ buff,
        mult ← math_memory_div_once p w right rsize buff (rsize + 1);
        (if negb (mult =? 0) then math_memory_sub p w buff (rsize + 1) 0 0;; mret tt else mret tt);;
        mret mult)) s Q.
Proof.
  intros L R Hrs Htop Hw Hs Hp Hrt Hp0 Hr0 Hfit HQ. apply wpp_with_block; [done|]. intros b s1 B.
  destruct (block_live _ _ _ _ _ _ B Hp) as [P1 _]. destruct (block_live _ _ _ _ _ _ B Hrt) as [R1 _].
  pose proof (block_apart _ _ _ _ _ _ B Hp) as A1. pose proof (block_apart _ _ _ _ _ _ B Hrt) as A2.
  pose proof (block_val _ _ _ _ _ _ B Hp) as VL. pose proof (block_val _ _ _ _ _ _ B Hrt) as VR. fold L in VL. fold R in VR.
  assert (0 < b ∧ wf s1 ∧ live s1 b (rsize + 1)) as (Hb0 & Hw1 & Hb1) by (destruct B as (? & ? & ? & _); done).
  assert (s1 !!! (right + (rsize - 1)) = s !!! (right + (rsize - 1))) as Ht1.
  { destruct B as (_ & _ & _ & Hnone & Hsame). rewrite !lookup_total_alt, Hsame; [done|]. unfold apart in A2. lia. }
  pose proof (val_range s p w Hs ltac:(lia)) as HL. fold L in HL. pose proof (val_range s right rsize Hs ltac:(lia)) as HRr. fold R in HRr.
  destruct (val_top s right rsize Hs Hrs) as [ER BR]. fold R in ER. pose proof (wf_total s (right + (rsize - 1)) Hs) as Hrl. unfold byte_ok in Hrl.
  assert (0 < R) as HR by (pose proof (pow_pos (rsize - 1)); nia).
  pose proof (Z.div_mod L R ltac:(lia)) as Hdm. pose proof (Z.mod_pos_bound L R HR) as Hmod. pose proof (Z.div_pos L R ltac:(lia) HR) as Hq.
  apply wpp_bind, math_memory_div_once_ok; try done; try lia.
  rewrite VL, VR. intros s2 W2 V2. pose proof (block_gone s s1) as Hgone. destruct (Z.eqb_spec (L / R) 0) as [Hz|Hz]; cbn [negb].
  - apply wpp_bind, wpp_ret, wpp_ret. intros s3 E3.
    assert (writes2 s1 s2 p w b (rsize + 1)) as W by (eapply writes2_r; [by apply writes2_refl|done]).
    destruct (block_gone s s1 s2 s3 b (rsize + 1) p w Hs B Hp W E3) as [W3 V3]. rewrite Hz in *. apply HQ; [done|].
    rewrite V3, (writes_val _ _ _ _ _ _ W2), VL by done. lia.
  - specialize (V2 Hz). apply wpp_bind, wpp_bind. pose proof (val_range s2 b (rsize + 1) (writes_wf _ _ _ _ W2) ltac:(lia)) as HV.
    assert (val s2 p w = L) as VL2 by (by rewrite (writes_val _ _ _ _ _ _ W2)).
    assert (L / R * R ≤ L) as Hle by lia.
    apply math_memory_sub_ok; cbv zeta; cbn [target target_size in_place Z.eqb orb andb].
    + done.
    + done.
    + unfold operands_ok. cbn [target target_size in_place Z.eqb orb andb]. split_and!; [lia|lia|apply W2|by eapply writes_live|by eapply writes_live|lia].
    + lia.
    + by eapply writes_live.
    + split; [unfold up_ok, apart in *; simpl; lia|]. unfold apart in A1. simpl. lia.
    + intros c bw s3 Hbw _ W3 E3. simpl in W3, E3. rewrite VL2, V2 in E3.
      rewrite !Z.mod_small in E3 by lia. pose proof (val_range s3 p w (writes_wf _ _ _ _ W3) ltac:(lia)) as HV3.
      assert (bw = 0) as -> by nia. apply wpp_ret, wpp_ret. intros s4 E4.
      assert (writes2 s1 s3 p w b (rsize + 1)) as W by (eapply writes2_l; [eapply writes2_r; [by apply writes2_refl|done]|done]).
      destruct (block_gone s s1 s3 s4 b (rsize + 1) p w Hs B Hp W E4) as [W4 V4]. apply HQ; [done|]. rewrite V4. lia.
Qed.

(** The leading zeros of the remainder are skipped, its last byte excepted. *)
Lemma trim_ok p w s (Q : Z → mem → Prop) :
  0 < w → live s p w →
  (∀ w', 0 < w' ≤ w → (w' = 1 ∨ s !!! (p + (w' - 1)) ≠ 0) → (∀ i, w' ≤ i < w → s !!! (p + i) = 0) → Q (p + w' - 1) s) →
  wpp (ploop (bytes_fuel w) (λ left_last,
        if p <? left_last then
          b ← rd left_last;
          if b =? 0 then mret (inl (left_last - 1)) else mret (inr left_last)
        else mret (inr left_last)) (p + w - 1)) s Q.
Proof.
  intros Hw Hl HQ.
  apply (wpp_ploop (λ n x s', s' = s ∧ x = p + Z.of_nat n - 1 ∧ 0 < Z.of_nat n ≤ w ∧
    ∀ i, Z.of_nat n ≤ i < w → s !!! (p + i) = 0)) with (n := Z.to_nat w).
  - intros n x s' (-> & -> & Hn & Hz). zcase as Hlt.
    + apply wpp_bind. eapply wpp_rd; [apply (lookup_live s p w); [done|lia]|]. zcase as Hb.
      * apply wpp_ret. exists (n - 1)%nat. split_and!; [lia|done|lia|lia|lia|]. intros i Hi.
        destruct (decide (i = Z.of_nat n - 1)) as [->|]; [|apply Hz; lia].
        rewrite <-Hb. f_equal. lia.
      * apply wpp_ret. apply HQ; [lia| |done]. right. by rewrite Z.add_sub_assoc.
    + apply wpp_ret. apply HQ; [lia|lia|done].
  - split_and!; [done|lia|lia|lia|lia].
  - unfold bytes_fuel. lia.
Qed.

(** The number whose digits are written most significant first. *)
Fixpoint rnum (s : mem) (p : Z) (n : nat) : Z :=
  match n with O => 0 | S n => 256 * rnum s p n + s !!! (p + Z.of_nat n) end.
Lemma rnum_ext s s' p n : (∀ i, 0 ≤ i < Z.of_nat n → s !!! (p + i) = s' !!! (p + i)) → rnum s p n = rnum s' p n.
Proof. induction n as [|n IH]; intros H; [done|]. cbn [rnum]. rewrite IH, (H (Z.of_nat n)) by (lia || (intros; apply H; lia)). done. Qed.
Lemma reversed_num s s' p q n : reversed s s' q p (Z.of_nat n) → num s' q n = rnum s p n.
Proof.
  revert q. induction n as [|n IH]; intros q H; [done|]. cbn [num rnum]. rewrite <-(IH (q + 1)).
  - pose proof (H 0 ltac:(lia)) as H0. rewrite Z.add_0_r in H0. rewrite H0.
    replace (Z.of_nat (S n) - 1 - 0) with (Z.of_nat n) by lia. lia.
  - intros i Hi. pose proof (H (i + 1) ltac:(lia)) as H1. replace (q + 1 + i) with (q + (i + 1)) by lia. rewrite H1. f_equal. lia.
Qed.

(** After [t] digits, the most significant ones: the dividend that remains ends
    at byte [e], and its bytes from [h] on are below the divisor. *)
Record div_state (s0 s : mem) (left ml right mr res n t e : Z) : Prop := {
  ds_writes : writes2 s0 s left ml res n;
  ds_t : 0 ≤ t ≤ Z.max 0 (ml - mr + 1);
  ds_end : let h := Z.max 0 (ml - mr + 1 - t) in h ≤ e ≤ h + mr ∧ e ≤ ml;
  ds_zero : ∀ i, e ≤ i < ml → s !!! (left + i) = 0;
  ds_high : let h := Z.max 0 (ml - mr + 1 - t) in val s (left + h) (ml - h) < val s0 right mr;
  ds_eq : let h := Z.max 0 (ml - mr + 1 - t) in
    val s0 left ml = rnum s res (Z.to_nat t) * val s0 right mr * 256 ^ h + val s left ml;
}.

Lemma div_round_ok s0 s left ml right mr res n t e (Q : Z * Z * Z → mem → Prop) :
  let k := ml - mr - t in
  div_state s0 s left ml right mr res n t e → 0 ≤ k → t < n → 0 < mr → 0 < left → 0 < right → wf s0 →
  s0 !!! (right + (mr - 1)) ≠ 0 → live s0 left ml → live s0 right mr → live s0 res n →
  apart left ml right mr → apart res n right mr → apart res n left ml →
  (∀ e' s', div_state s0 s' left ml right mr res n (t + 1) e' → Q (res + (t + 1), left + (k - 1), left + e' - 1) s') →
  wpp (let lsize := left + e - 1 - (left + k) + 1 in
      mult ← with_block garbage (mr + 1) (λ buff,
        mult ← math_memory_div_once (left + k) lsize right mr buff (mr + 1);
        (if negb (mult =? 0) then math_memory_sub (left + k) lsize buff (mr + 1) 0 0;; mret tt else mret tt);;
        mret mult);
      wr (res + t) mult;;
      left_last ← ploop (bytes_fuel lsize) (λ left_last,
        if left + k <? left_last then
          b ← rd left_last;
          if b =? 0 then mret (inl (left_last - 1)) else mret (inr left_last)
        else mret (inr left_last)) (left + e - 1);
      mret (res + t + 1, left + k - 1, left_last)) s Q.
Proof.
  intros k [W Ht He Hz Hh E] Hk Htn Hmr Hl0 Hr0 Hs0 Htop Hl Hrt Hrs A1 A2 A3 HQ. cbv zeta in *.
  replace (Z.max 0 (ml - mr + 1 - t)) with (k + 1) in * by lia. replace (left + e - 1 - (left + k) + 1) with (e - k) by lia.
  set (R := val s0 right mr) in *.
  assert (val s right mr = R) as VR by (by apply (writes2_val _ _ _ _ _ _ _ _ W)).
  assert (s !!! (right + (mr - 1)) = s0 !!! (right + (mr - 1))) as Ht' by (apply (writes2_total _ _ _ _ _ _ _ W); unfold apart in *; lia).
  assert (live s (left + k) (e - k) ∧ live s left ml) as [Hlw Hlm].
  { split; [eapply live_le; [eapply writes2_live; [exact W|exact Hl]|lia..]|by eapply writes2_live]. }
  set (L := val s (left + k) (e - k)).
  assert (L = val s (left + k) (ml - k)) as EL.
  { symmetry. apply zeros_val; [lia|]. intros i Hi. rewrite <-Z.add_assoc. apply Hz. lia. }
  assert (val s (left + k) (ml - k) = s !!! (left + k) + 256 * val s (left + (k + 1)) (ml - (k + 1))) as ES.
  { replace (ml - k) with (ml - (k + 1) + 1) by lia. rewrite val_cons by lia. do 2 f_equal. f_equal. lia. }
  pose proof (wf_total s (left + k) (writes2_wf _ _ _ _ _ _ W)) as Hb. unfold byte_ok in Hb.
  assert (L < 256 * R) as HLR by lia. pose proof (val_range s (left + k) (e - k) (writes2_wf _ _ _ _ _ _ W) ltac:(lia)) as HL. fold L in HL.
  assert (0 < R) as HR by lia. pose proof (Z.div_mod L R ltac:(lia)) as Hdm. pose proof (Z.mod_pos_bound L R HR) as Hmod.
  apply wpp_bind, div_digit_ok; try done; [by rewrite Ht'|lia|apply W|by eapply writes2_live|lia|by rewrite VR|].
  rewrite VR. fold L. intros s1 W1 V1. apply wpp_bind, wpp_wr.
  { eapply writes_live; [exact W1|eapply writes2_live; [exact W|exact Hrs]|lia]. }
  assert (byte_ok (L / R)) as Hq by (split; [apply Z.div_pos; lia|apply Z.div_lt_upper_bound; lia]). rewrite u8_id by done.
  set (s2 := <[res + t := L / R]> s1).
  assert (∀ a, left ≤ a < left + ml → s2 !!! a = s1 !!! a) as E2.
  { intros a Ha. apply lookup_total_insert_ne. unfold apart in A3. lia. }
  assert (writes2 s0 s2 left ml res n) as W2.
  { eapply (writes2_r s0 s1); [eapply writes2_l; [exact W|eapply writes_le; [exact W1|lia..]]|].
    apply writes_insert; [apply writes_refl, W1|lia| |done]. eapply writes_live; [exact W1|eapply writes2_live; [exact W|exact Hrs]|lia]. }
  assert (val s2 (left + k) (e - k) = L mod R) as V2.
  { rewrite <-V1. apply val_ext. intros i Hi. apply E2. lia. }
  assert (∀ i, e ≤ i < ml → s2 !!! (left + i) = 0) as Hz2.
  { intros i Hi. rewrite E2 by lia. rewrite (writes_total _ _ _ _ _ W1) by lia. by apply Hz. }
  assert (val s2 left k = val s left k) as Vlow.
  { rewrite <-(writes_val _ _ _ _ left k W1) by (unfold apart; lia). apply val_ext. intros i Hi. apply E2. lia. }
  assert (val s2 (left + k) (ml - k) = L mod R) as Vhigh.
  { rewrite <-V2. apply zeros_val; [lia|]. intros i Hi. rewrite <-Z.add_assoc. apply Hz2. lia. }
  apply wpp_bind. replace (left + e - 1) with (left + k + (e - k) - 1) by lia.
  apply trim_ok; [lia|eapply live_le; [eapply writes2_live; [exact W2|exact Hl]|lia..]|]. intros w' Hw' Hd Hzw. apply wpp_ret.
  replace (res + t + 1) with (res + (t + 1)) by lia. replace (left + k - 1) with (left + (k - 1)) by lia.
  replace (left + k + w' - 1) with (left + (k + w') - 1) by lia. apply HQ.
  assert (∀ i, k + w' ≤ i < ml → s2 !!! (left + i) = 0) as Hz3.
  { intros i Hi. destruct (Z.lt_ge_cases i e); [|apply Hz2; lia]. pose proof (Hzw (i - k) ltac:(lia)) as H1. rewrite <-H1. f_equal. lia. }
  split; cbv zeta; replace (Z.max 0 (ml - mr + 1 - (t + 1))) with k by lia; fold R; [done|lia| |done|lia|].
  - destruct Hd as [->|Hd]; [lia|]. assert (w' ≤ mr); [|lia]. destruct (Z.le_gt_cases w' mr); [done|].
    assert (val s2 (left + k) w' = L mod R) as Vw.
    { rewrite <-Vhigh. symmetry. apply zeros_val; [lia|]. intros i Hi. rewrite <-Z.add_assoc. apply Hz3. lia. }
    pose proof (val_top s2 (left + k) w' (writes2_wf _ _ _ _ _ _ W2) ltac:(lia)) as [Etop Btop].
    pose proof (wf_total s2 (left + k + (w' - 1)) (writes2_wf _ _ _ _ _ _ W2)) as Hbt. unfold byte_ok in Hbt.
    pose proof (val_range s0 right mr Hs0 ltac:(lia)) as HRr. fold R in HRr. pose proof (Z.pow_le_mono_r 256 mr (w' - 1)). nia.
  - replace (Z.to_nat (t + 1)) with (S (Z.to_nat t)) by lia. cbn [rnum]. rewrite Z2Nat.id by lia.
    unfold s2 at 2. rewrite lookup_total_insert_eq.
    rewrite (rnum_ext s2 s res (Z.to_nat t)).
    + rewrite E. replace ml with (k + (ml - k)) at 1 2 by lia. rewrite !val_app, Vhigh, Vlow, <-EL, pow_succ by lia.
      rewrite Hdm at 1. ring.
    + intros i Hi. unfold s2. rewrite lookup_total_insert_ne by lia. apply (writes_total _ _ _ _ _ W1). unfold apart in A3. lia.
Qed.

Lemma math_memory_div_unsigned_ok left lsize right rsize res n s (Q : Z → mem → Prop) :
  let L := val s left lsize in let R := val s right rsize in
  0 ≤ lsize ≤ n → 0 ≤ rsize → 0 < left → 0 < right → 0 < res → 0 < R → wf s →
  live s left lsize → live s right rsize → live s res n →
  apart left lsize right rsize → apart res n right rsize → apart res n left lsize →
  (∀ c s', writes2 s s' left lsize res n → val s' res n = L / R → val s' left lsize = L mod R → Q c s') →
  wpp (math_memory_div_unsigned left lsize right rsize res n) s Q.
Proof.
  intros L R Hls Hrs Hl0 Hr0 Hres0 HR Hs Hl Hrt Hrn A1 A2 A3 HQ. unfold math_memory_div_unsigned.
  apply wpp_bind, math_memory_shrink_ok; [lia|done|]. intros ml Sl.
  apply wpp_bind, math_memory_shrink_ok; [done|done|]. intros mr Sr.
  pose proof (sig_range _ _ _ _ Sl) as Rl. pose proof (sig_range _ _ _ _ Sr) as Rr.
  cbv zeta. replace (right + mr - 1 - right + 1) with mr by lia.
  assert (val s left ml = L ∧ val s right mr = R) as [EL ER] by (split; symmetry; [apply (sig_val _ _ _ _ Sl)|apply (sig_val _ _ _ _ Sr)]).
  assert (0 < mr) as Hmr.
  { destruct (Z.eq_dec mr 0) as [->|]; [|lia]. rewrite val_0 in ER by lia. lia. }
  assert (live s left ml ∧ live s right mr) as [Hlm Hrm] by (split; eapply live_le; [exact Hl|lia|lia|exact Hrt|lia|lia]).
  apply wpp_bind.
  apply (wpp_while (λ t x s', ∃ e, x = (res + t, left + (ml - mr - t), left + e - 1) ∧ t ≤ n ∧ div_state s s' left ml right mr res n t e) n);
    [|exists ml|unfold bytes_fuel; lia|lia].
  - intros t x s1 Ht (e & -> & Htn & D). cbv beta iota.
    destruct ((left <=? left + (ml - mr - t)) && (res + t <? res + n)) eqn:Hgo.
    + apply andb_true_iff in Hgo as [Hk%Z.leb_le Hlt%Z.ltb_lt]. split; [lia|].
      apply (div_round_ok s s1 left ml right mr res n t e); try done; try lia; [by apply (sig_top _ _ _ _ Sr)|unfold apart in *; lia..|].
      intros e' s2 D2. exists e'. split_and!; [f_equal; f_equal; lia|lia|done].
    + destruct D as [W Ht2 He Hz Hh E]. cbv zeta in *.
      assert (ml - mr - t < 0) as Hneg by (apply andb_false_iff in Hgo as [Hgo%Z.leb_gt|Hgo%Z.ltb_ge]; lia).
      replace (Z.max 0 (ml - mr + 1 - t)) with 0 in * by lia. rewrite Z.add_0_r, Z.sub_0_r, EL, ER, Z.pow_0_r, Z.mul_1_r in *.
      pose proof (writes2_live _ _ _ _ _ _ _ _ W Hrn) as Hrn1. pose proof (writes2_wf _ _ _ _ _ _ W) as Hw1.
      replace (res + t - res) with t by lia. apply wpp_bind, math_memory_exchange_ok; cbn [negb andb Z.eqb]; [lia|done|eapply live_le; [exact Hrn1|lia..]|eapply live_le; [exact Hrn1|lia..]|by left|].
      intros s2 W2 Rev. assert (val s2 res t = rnum s1 res (Z.to_nat t)) as V2.
      { unfold val. apply reversed_num. by rewrite Z2Nat.id by lia. }
      apply wpp_bind, (fill_zero_ok _ _ _ _ s1); [lia|done|done|unfold bytes_fuel; lia|]. intros s3 W3 V3. apply wpp_ret.
      assert (writes2 s s3 left ml res n) as W4 by (by eapply writes2_r).
      assert (val s3 left ml = val s1 left ml) as V4 by (apply (writes_val _ _ _ _ _ _ W3); unfold apart in *; lia).
      pose proof (val_range s1 left ml Hw1 ltac:(lia)) as HV.
      assert (L / R = rnum s1 res (Z.to_nat t)) as Hdiv by (symmetry; apply (Z.div_unique_pos _ _ _ (val s1 left ml)); lia).
      assert (L mod R = val s1 left ml) as Hmod by (symmetry; apply (Z.mod_unique_pos _ _ (rnum s1 res (Z.to_nat t))); lia).
      apply HQ.
      * destruct W4 as [Wo Wd Ww]. split; [|done|done]. intros a Ha1 Ha2. apply Wo; lia.
      * by rewrite V3, V2, Hdiv.
      * rewrite Hmod, <-V4. apply zeros_val; [lia|]. intros i Hi.
        rewrite (writes2_total _ _ _ _ _ _ (left + i) W4); [by apply (sig_zero _ _ _ _ Sl)|lia|unfold apart in *; lia].
  - split_and!; [apply (f_equal2 pair); [apply (f_equal2 pair)|]; lia|lia|]. split; cbv zeta.
    + by apply writes2_refl.
    + lia.
    + lia.
    + lia.
    + rewrite Z.sub_0_r, ER. destruct (Z.le_gt_cases mr ml).
      * replace (Z.max 0 (ml - mr + 1)) with (ml - mr + 1) by lia.
        pose proof (val_range s (left + (ml - mr + 1)) (ml - (ml - mr + 1)) Hs ltac:(lia)) as H1.
        replace (256 ^ (ml - (ml - mr + 1))) with (256 ^ (mr - 1)) in H1 by (f_equal; lia).
        pose proof (sig_lower _ _ _ _ Hs Sr Hmr). lia.
      * replace (Z.max 0 (ml - mr + 1)) with 0 by lia. rewrite Z.add_0_r, Z.sub_0_r.
        pose proof (val_range s left ml Hs ltac:(lia)). pose proof (sig_lower _ _ _ _ Hs Sr Hmr). pose proof (Z.pow_le_mono_r 256 ml (mr - 1)). lia.
    + change (Z.to_nat 0) with 0%nat. cbn [rnum]. lia.
Qed.

(** *** Signed division *)

Lemma opp_mod x n : 0 ≤ n → (256 ^ n - x) mod 256 ^ n = (- x) mod 256 ^ n.
Proof. intros Hn. replace (256 ^ n - x) with (- x + 1 * 256 ^ n) by lia. apply Z.mod_add. pose proof (pow_pos n Hn). lia. Qed.

(** Negate the block when [neg]. *)
Lemma negate_if_ok (neg : bool) p n s x (Q : unit → mem → Prop) :
  0 < p → 0 ≤ n → wf s → live s p n → val s p n = x mod 256 ^ n →
  (∀ s', writes s s' p n → val s' p n = (if neg then - x else x) mod 256 ^ n → Q tt s') →
  wpp (if neg then math_memory_complement p n 0 0 else mret tt) s Q.
Proof.
  intros Hp Hn Hs Hl E HQ. destruct neg; [|by apply wpp_ret, HQ; [apply writes_refl|]].
  apply math_memory_complement_ok; cbn [Z.eqb]; [done|done|lia|done|done|done|unfold up_ok; lia|].
  intros s' W V. apply HQ; [done|]. rewrite V, opp_mod, E by done. pose proof (pow_pos n Hn).
  rewrite <-(Z.sub_0_l (x mod _)), Zminus_mod_idemp_r. done.
Qed.

Lemma quot_rem_signs a b :
  b ≠ 0 →
  Z.quot a b = (if xorb (a <? 0) (b <? 0) then - (Z.abs a / Z.abs b) else Z.abs a / Z.abs b) ∧
  Z.rem a b = (if a <? 0 then - (Z.abs a mod Z.abs b) else Z.abs a mod Z.abs b).
Proof.
  intros Hb. rewrite Z.quot_div, Z.rem_mod by done. destruct (Z.eq_dec a 0) as [->|Ha].
  - rewrite Z.sgn_0, Z.abs_0, Z.div_0_l, Z.mod_0_l by lia. change (0 <? 0) with false. by destruct (b <? 0).
  - destruct (Z.ltb_spec a 0); rewrite ?(Z.sgn_neg a), ?(Z.sgn_pos a) by lia;
      (destruct (Z.ltb_spec b 0); rewrite ?(Z.sgn_neg b), ?(Z.sgn_pos b) by lia); cbn [xorb]; lia.
Qed.

Definition div_signed (right_negative : bool) (left lsize rsize res res_size right : Z) : prog mem Z :=
  left_negative ← math_memory_is_negative left lsize;
  (if left_negative : bool then math_memory_complement left lsize 0 0 else mret tt);;
  size ← math_memory_div_unsigned left lsize right rsize res res_size;
  (if xorb left_negative right_negative then math_memory_complement res res_size 0 0 else mret tt);;
  (if left_negative : bool then math_memory_complement left lsize 0 0 else mret tt);;
  mret size.

Lemma div_signed_ok b left lsize right rsize res n s (Q : Z → mem → Prop) :
  let A := sval s left lsize in
  0 < lsize ≤ n → 0 ≤ rsize → 0 < left → 0 < right → 0 < res → b ≠ 0 → val s right rsize = Z.abs b → wf s →
  live s left lsize → live s right rsize → live s res n →
  apart left lsize right rsize → apart res n right rsize → apart res n left lsize →
  (∀ c s', writes2 s s' left lsize res n → val s' res n = Z.quot A b mod 256 ^ n →
     val s' left lsize = Z.rem A b mod 256 ^ lsize → Q c s') →
  wpp (div_signed (b <? 0) left lsize rsize res n right) s Q.
Proof.
  intros A Hls Hrs Hl0 Hr0 Hres0 Hb ER Hs Hl Hrt Hrn A1 A2 A3 HQ. unfold div_signed.
  destruct (quot_rem_signs A b Hb) as [Eq Er]. pose proof (pow_pos lsize ltac:(lia)). pose proof (pow_pos n ltac:(lia)).
  pose proof (val_range s left lsize Hs ltac:(lia)) as HV. pose proof (sval_magnitude s left lsize Hs ltac:(lia)) as Habs. fold A in Habs.
  apply wpp_bind, math_memory_is_negative_ok; [lia|done|done|]. fold A.
  assert (val s left lsize = A mod 256 ^ lsize) as EA.
  { unfold A, sval. zcase; [by rewrite Z.mod_small by lia|]. apply (Z.mod_unique_pos _ _ (-1)); lia. }
  apply wpp_bind, (negate_if_ok _ _ _ _ A); [done|lia|done|done|done|]. intros s1 W1 V1.
  assert (val s1 left lsize = Z.abs A) as V1'.
  { rewrite V1. replace (if A <? 0 then - A else A) with (Z.abs A) by (zcase; lia). apply Z.mod_small.
    split; [lia|]. rewrite Habs. unfold A, sval in *. zcase; [|lia]. revert Habs. zcase; lia. }
  assert (val s1 right rsize = Z.abs b) as R1 by (by rewrite (writes_val _ _ _ _ _ _ W1)).
  apply wpp_bind, math_memory_div_unsigned_ok; try done; try lia; try (by eapply writes_live); [apply W1|].
  rewrite V1', R1. intros c s2 W2 Vq Vr. pose proof (writes2_wf _ _ _ _ _ _ W2) as Hw2.
  assert (writes2 s s2 left lsize res n) as W02.
  { destruct W1 as [Wo Wd Ww], W2 as [Wo2 Wd2 Ww2]. split; [intros a ??; by rewrite Wo2, Wo|intros a; by rewrite Wd|done]. }
  assert (0 ≤ Z.abs A / Z.abs b < 256 ^ n) as Hq.
  { split; [apply Z.div_pos; lia|]. pose proof (Z.div_le_upper_bound (Z.abs A) (Z.abs b) (Z.abs A) ltac:(lia) ltac:(nia)).
    pose proof (Z.pow_le_mono_r 256 lsize n). pose proof (val_range s1 left lsize (writes_wf _ _ _ _ W1) ltac:(lia)). lia. }
  apply wpp_bind, (negate_if_ok _ _ _ _ (Z.abs A / Z.abs b)); [done|lia|done|by eapply writes2_live|by rewrite Z.mod_small|].
  rewrite <-Eq. intros s3 W3 V3.
  assert (val s3 left lsize = (Z.abs A mod Z.abs b) mod 256 ^ lsize) as V3'.
  { rewrite (writes_val _ _ _ _ _ _ W3) by done. rewrite Vr. symmetry. apply Z.mod_small.
    pose proof (val_range s2 left lsize Hw2 ltac:(lia)). lia. }
  assert (writes2 s s3 left lsize res n) as W03 by (by eapply writes2_r).
  apply wpp_bind, (negate_if_ok _ _ _ _ (Z.abs A mod Z.abs b)); [done|lia|apply W3|by eapply writes2_live|done|].
  rewrite <-Er. intros s4 W4 V4. apply wpp_ret, HQ; [by eapply writes2_l| |done].
  rewrite (writes_val _ _ _ _ _ _ W4); [done|unfold apart in *; lia].
Qed.

Lemma math_memory_div_ok left lsize right rsize res n s (Q : Z → mem → Prop) :
  let A := sval s left lsize in let B := sval s right rsize in
  0 < lsize ≤ n → 0 < rsize → 0 < left → 0 < right → 0 < res → B ≠ 0 → wf s →
  live s left lsize → live s right rsize → live s res n →
  apart left lsize right rsize → apart res n right rsize → apart res n left lsize →
  (∀ c s', writes2 s s' left lsize res n → val s' res n = Z.quot A B mod 256 ^ n →
     val s' left lsize = Z.rem A B mod 256 ^ lsize → Q c s') →
  wpp (math_memory_div left lsize right rsize res n) s Q.
Proof.
  intros A B Hls Hrs Hl0 Hr0 Hres0 HB Hs Hl Hrt Hrn A1 A2 A3 HQ. unfold math_memory_div. fold (div_signed (B <? 0)).
  apply wpp_bind, math_memory_is_negative_ok; [done|done|done|]. fold B.
  change (wpp (if B <? 0 then with_block garbage rsize (λ p, math_memory_complement right rsize p rsize;; div_signed (B <? 0) left lsize rsize res n p)
    else div_signed (B <? 0) left lsize rsize res n right) s Q).
  pose proof (val_range s right rsize Hs ltac:(lia)) as HV. pose proof (sval_magnitude s right rsize Hs ltac:(lia)) as Habs. fold B in Habs.
  destruct (Z.ltb_spec B 0) as [Hneg|Hpos].
  - apply wpp_with_block; [done|]. intros p s1 Bk. assert (0 < p ∧ wf s1 ∧ live s1 p rsize) as (Hp0 & Hw1 & Hp1) by (destruct Bk as (? & ? & ? & _); done).
    pose proof (block_apart _ _ _ _ _ _ Bk Hl) as P1. pose proof (block_apart _ _ _ _ _ _ Bk Hrt) as P2. pose proof (block_apart _ _ _ _ _ _ Bk Hrn) as P3.
    destruct (block_live _ _ _ _ _ _ Bk Hl) as [L1 _]. destruct (block_live _ _ _ _ _ _ Bk Hrt) as [R1 _]. destruct (block_live _ _ _ _ _ _ Bk Hrn) as [N1 _].
    assert ((if p =? 0 then right else p) = p) as Ep by (zcase; lia). assert ((if rsize =? 0 then rsize else rsize) = rsize) as Es by (zcase; lia).
    apply wpp_bind, math_memory_complement_ok; rewrite ?Ep, ?Es; [done|lia|lia|done|done|done|unfold up_ok, apart in *; lia|].
    intros s2 W2 V2. rewrite (block_val _ _ _ _ _ _ Bk Hrt) in V2.
    assert (val s2 p rsize = Z.abs B) as V2'.
    { rewrite V2, Habs. apply Z.mod_small. unfold B, sval in Hneg. revert Hneg. zcase; lia. }
    assert (sval s2 left lsize = A) as VA.
    { unfold A, sval. rewrite (writes_val _ _ _ _ left lsize W2) by done. by rewrite (block_val _ _ _ _ _ _ Bk Hl). }
    rewrite <-(proj2 (Z.ltb_lt B 0) Hneg).
    apply div_signed_ok; try done; try (by eapply writes_live); try (unfold apart in *; lia); [apply W2|].
    rewrite VA. intros c s3 W3 Vq Vr s4 E4.
    destruct (block_forgotten s s1 s3 s4 p rsize (λ a, left ≤ a < left + lsize ∨ res ≤ a < res + n) Hs Bk) as (G1 & G2 & G3 & G4).
    { intros a [?|?]; [by apply Hl|by apply Hrn]. }
    { intros a Hna Hnb. rewrite (writes2_out _ _ _ _ _ _ W3) by lia. by apply (writes_out _ _ _ _ W2). }
    { intros a. rewrite (writes_dom _ _ _ _ W2). apply (writes2_dom _ _ _ _ _ _ W3). }
    { apply W3. }
    { done. }
    apply (HQ c); [split; [intros a ??; apply G1; lia|done|done]| |].
    + rewrite <-Vq. apply val_ext. intros i Hi. rewrite !lookup_total_alt, G4 by lia. done.
    + rewrite <-Vr. apply val_ext. intros i Hi. rewrite !lookup_total_alt, G4 by lia. done.
  - rewrite <-(proj2 (Z.ltb_ge B 0) Hpos). apply div_signed_ok; try done; try lia.
Qed.
End divide.

(** ** Properties *)

(** C14: [math_memory_div_unsigned] divides by a number that is not 0: when the
    result has at least as many bytes as the left operand ([lsize] to [n]; with
    fewer the code keeps only the upper digits of the quotient) and the three
    blocks lie in live memory and do not overlap, it returns, leaves the quotient
    in the [n] bytes of the result and the remainder over the left operand, and
    changes no other byte.  The length of the right operand is free, and so is
    what the stack holds before. *)
Theorem math_memory_div_unsigned_divides garbage left lsize right rsize res n s :
  let L := val s left lsize in let R := val s right rsize in
  0 ≤ lsize ≤ n → 0 ≤ rsize → 0 < left → 0 < right → 0 < res → 0 < R → wf s →
  live s left lsize → live s right rsize → live s res n →
  apart left lsize right rsize → apart res n right rsize → apart res n left lsize →
  ∃ c s', math_memory_div_unsigned garbage left lsize right rsize res n s = Ok (c, s') ∧
    writes2 s s' left lsize res n ∧ val s' res n = L / R ∧ val s' left lsize = L mod R.
Proof. intros. apply wpp_ok, math_memory_div_unsigned_ok; auto. Qed.

Lemma math_memory_div_unsigned_divides_witness :
  let s := bytes_at 1 [1; 2; 3; 5; 1; 0; 0; 0] in
  ∃ c s', math_memory_div_unsigned (λ _, 7) 1 3 4 2 6 3 s = Ok (c, s') ∧
    writes2 s s' 1 3 6 3 ∧ val s' 6 3 = val s 1 3 / val s 4 2 ∧ val s' 1 3 = val s 1 3 mod val s 4 2.
Proof.
  refine (math_memory_div_unsigned_divides (λ _, 7) 1 3 4 2 6 3 (bytes_at 1 [1; 2; 3; 5; 1; 0; 0; 0]) _ _ _ _ _ _ _ _ _ _ _ _ _);
    first [on_bytes|vm_compute; reflexivity|unfold apart; on_bytes].
Defined.

(** [math_memory_div] divides two's complement numbers as C's division
    does: the quotient truncates towards zero and the remainder takes the sign
    of the dividend, each modulo the size of its block. *)
Theorem math_memory_div_truncates garbage left lsize right rsize res n s :
  let A := sval s left lsize in let B := sval s right rsize in
  0 < lsize ≤ n → 0 < rsize → 0 < left → 0 < right → 0 < res → B ≠ 0 → wf s →
  live s left lsize → live s right rsize → live s res n →
  apart left lsize right rsize → apart res n right rsize → apart res n left lsize →
  ∃ c s', math_memory_div garbage left lsize right rsize res n s = Ok (c, s') ∧
    writes2 s s' left lsize res n ∧ val s' res n = Z.quot A B mod 256 ^ n ∧
    val s' left lsize = Z.rem A B mod 256 ^ lsize.
Proof. intros. apply wpp_ok, math_memory_div_ok; auto. Qed.

Lemma math_memory_div_truncates_witness :
  let s := bytes_at 1 [249; 255; 2; 0; 0; 0] in
  sval s 1 2 = -7 ∧ ∃ c s', math_memory_div (λ _, 7) 1 2 3 1 4 2 s = Ok (c, s') ∧
    writes2 s s' 1 2 4 2 ∧ val s' 4 2 = Z.quot (sval s 1 2) (sval s 3 1) mod 256 ^ 2 ∧
    val s' 1 2 = Z.rem (sval s 1 2) (sval s 3 1) mod 256 ^ 2.
Proof.
  split; [vm_compute; reflexivity|].
  refine (math_memory_div_truncates (λ _, 7) 1 2 3 1 4 2 (bytes_at 1 [249; 255; 2; 0; 0; 0]) _ _ _ _ _ _ _ _ _ _ _ _ _);
    first [on_bytes|vm_compute; congruence|unfold apart; on_bytes].
Defined.
