(* ===== verification/Kmp.v ===== *)
(** Kmp: the searches of src/lib/memory.c.

    The text, the pattern and the table of steps are arrays with checked
    accesses, pointers into the text are indices.  The table is the optimised
    one: the step of [k] is the longest border of the first [k] characters that
    is followed by another character, or -1. *)
From S2P Require Import Prelude.

(** ** The searches *)

(** A round of the inner loop of both functions: [text[j]] against [sub[k]]. *)
Definition kmp_round (text sub steps : list Z) (jk : Z * Z) : cres (Z * Z) :=
  let '(j, k) := jk in
  a ← load text j;
  b ← load sub k;
  if a =? b then mret (j + 1, u32 (k + 1))
  else
    s ← load steps k;
    if s =? -1 then mret (j + 1, 0) else mret (j, u32 s).

Definition kmp_loop (c : Z → Z → bool) (fuel : Z) (text sub steps : list Z) : Z * Z → cres (Z * Z) :=
  loop (S (Z.to_nat fuel)) (λ '(j, k),
    if c j k then jk ← kmp_round text sub steps (j, k); mret (inl jk) else mret (inr (j, k))).

Definition mem_build_kmp_array (sub steps : list Z) (size : Z) : cres (list Z) :=
  steps ← store steps 0 (-1);
  loop (S (Z.to_nat size)) (λ '(i, steps),
    if i <? size then
      '(_, k) ← kmp_loop (λ j _, j <? i) (2 * i) sub sub steps (1, 0);
      a ← load sub k;
      b ← load sub i;
      steps ← (if a =? b then s ← load steps k; store steps i s else store steps i (swrap 32 k));
      mret (inl (u32 (i + 1), steps))
    else mret (inr steps)) (1, steps).

(** The answer: the index of the match, [None] for NULL. *)
Definition mem_kmp_find_base (text : list Z) (mem mem_end : Z) (sub : list Z) (sublen : Z) (steps : list Z) : cres (option Z) :=
  '(mem, i) ← kmp_loop (λ mem i, (mem <? mem_end) && (i <? sublen)) (2 * (mem_end - mem)) text sub steps (mem, 0);
  if i <? sublen then mret None else mret (Some (mem - sublen)).

Section find.
(** What the local array holds before it is written. *)
Variable garbage : Z → Z.

Definition int_array (n : Z) : list Z := (λ i, garbage (Z.of_nat i)) <$> seq 0 (Z.to_nat n).

Definition mem_kmp_find (mem sub : list Z) (memlen sublen : Z) : cres (option Z) :=
  steps ← mem_build_kmp_array sub (int_array sublen) sublen;
  mem_kmp_find_base mem 0 (0 + memlen) sub sublen steps.

Definition mem_kmp_find_all (mem sub : list Z) (memlen sublen : Z) (results : list Z) (size : Z) : cres (Z * list Z) :=
  steps ← mem_build_kmp_array sub (int_array sublen) sublen;
  loop (S (Z.to_nat size)) (λ '(pos, n, results),
    if n <? size then
      r ← mem_kmp_find_base mem pos (0 + memlen) sub sublen steps;
      match r with
      | None => mret (inr (n, results))
      | Some q => results ← store results n q; mret (inl (q + sublen, n + 1, results))
      end
    else mret (inr (n, results))) (0, 0, results).
End find.

(** ** The reference: try every place *)

Definition matches (text sub : list Z) (m q : Z) : bool :=
  forallb (λ x, get text (q + Z.of_nat x) =? get sub (Z.of_nat x)) (seq 0 (Z.to_nat m)).
Fixpoint scan_match (fuel : nat) (text sub : list Z) (m q : Z) : option Z :=
  match fuel with
  | O => None
  | S fuel => if matches text sub m q then Some q else scan_match fuel text sub m (q + 1)
  end.
Definition find_from (text sub : list Z) (m q e : Z) : option Z :=
  scan_match (Z.to_nat (e - m - q + 1)) text sub m q.
(** Matches that do not overlap, [count] of them at most. *)
Fixpoint find_every (count : nat) (text sub : list Z) (m q e : Z) : list Z :=
  match count with
  | O => []
  | S count =>
    match find_from text sub m q e with
    | None => []
    | Some r => r :: find_every count text sub m (r + m) e
    end
  end.

Lemma matches_spec text sub m q : matches text sub m q = true ↔ ∀ x, 0 ≤ x < m → get sub x = get text (q + x).
Proof.
  unfold matches. rewrite forallb_forall. split.
  - intros H x Hx. specialize (H (Z.to_nat x)). rewrite Z2Nat.id in H by lia. symmetry. apply Z.eqb_eq, H.
    apply in_seq. lia.
  - intros H x Hx%in_seq. apply Z.eqb_eq. symmetry. apply H. lia.
Qed.

(** [r] is the first match between [q] and [e]. *)
Definition is_first (text sub : list Z) (m q e : Z) (r : option Z) : Prop :=
  match r with
  | Some p => q ≤ p ∧ p + m ≤ e ∧ matches text sub m p = true ∧ ∀ x, q ≤ x < p → matches text sub m x = false
  | None => ∀ x, q ≤ x → x + m ≤ e → matches text sub m x = false
  end.

Lemma is_first_unique text sub m q e r r' : is_first text sub m q e r → is_first text sub m q e r' → r = r'.
Proof.
  destruct r as [p|], r' as [p'|]; simpl; [|intros (?&?&H&?) H'|intros H (?&?&H'&?)|done].
  - intros (Hq & He & H & Hf) (Hq' & He' & H' & Hf'). f_equal.
    destruct (Z.lt_trichotomy p p') as [Hlt|[|Hlt]]; [|done|]; [rewrite Hf' in H by lia|rewrite Hf in H' by lia]; done.
  - by rewrite H' in H by lia.
  - by rewrite H in H' by lia.
Qed.
Lemma find_from_first text sub m q e : is_first text sub m q e (find_from text sub m q e).
Proof.
  unfold find_from. assert (∀ k q, k = Z.to_nat (e - m - q + 1) → is_first text sub m q e (scan_match k text sub m q)) as H; [|by apply H].
  clear q. intros k. induction k as [|k IH]; intros q Hk; [intros x ??; lia|]. simpl.
  destruct (matches text sub m q) eqn:Em; [simpl; split_and!; try lia; done|].
  specialize (IH (q + 1) ltac:(lia)). destruct (scan_match k text sub m (q + 1)) as [p|]; simpl in *.
  - destruct IH as (?&?&?&Hf). split_and!; [lia|lia|done|]. intros x Hx. destruct (Z.eq_dec x q) as [->|]; [done|]. apply Hf. lia.
  - intros x ??. destruct (Z.eq_dec x q) as [->|]; [done|]. apply IH; lia.
Qed.

(** ** Borders *)

(** The first [l] characters of [sub] end the text that runs from [b] to [j]. *)
Definition suffix (text sub : list Z) (b l j : Z) : Prop :=
  0 ≤ l ≤ j - b ∧ ∀ x, 0 ≤ x < l → get sub x = get text (j - l + x).

(** What the table promises for [k]. *)
Definition step_ok (sub : list Z) (k s : Z) : Prop :=
  -1 ≤ s < k ∧ (0 ≤ s → suffix sub sub 1 s k ∧ get sub s ≠ get sub k) ∧
  ∀ l, s < l → suffix sub sub 1 l k → get sub l = get sub k.
Definition steps_ok (sub steps : list Z) (n : Z) : Prop := ∀ k, 0 ≤ k < n → step_ok sub k (get steps k).

Lemma suffix_0 text sub b j : b ≤ j → suffix text sub b 0 j.
Proof. intros Hj. split; [lia|intros x Hx; lia]. Qed.
Lemma suffix_next text sub b l j : suffix text sub b l j → get sub l = get text j → suffix text sub b (l + 1) (j + 1).
Proof.
  intros [Hl H] E. split; [lia|]. intros x Hx. replace (j + 1 - (l + 1) + x) with (j - l + x) by lia.
  destruct (Z.eq_dec x l) as [->|]; [by replace (j - l + l) with j by lia|]. apply H. lia.
Qed.
Lemma suffix_prev text sub b l j : suffix text sub b (l + 1) (j + 1) → 0 ≤ l → suffix text sub b l j ∧ get sub l = get text j.
Proof.
  intros [Hl H] Hl0. split.
  - split; [lia|]. intros x Hx. rewrite H by lia. f_equal. lia.
  - rewrite H by lia. f_equal. lia.
Qed.
Lemma suffix_border text sub b k l j : suffix text sub b k j → suffix sub sub 1 l k → suffix text sub b l j.
Proof.
  intros [Hk H] [Hl H']. split; [lia|]. intros x Hx. rewrite H', H by lia. f_equal. lia.
Qed.
Lemma suffix_is_border text sub b k l j : suffix text sub b k j → suffix text sub b l j → l < k → suffix sub sub 1 l k.
Proof.
  intros [Hk H] [Hl H'] Hlk. split; [lia|]. intros x Hx. rewrite H', (H (k - l + x)) by lia. f_equal. lia.
Qed.
Lemma matches_suffix text sub b m q : b ≤ q → 0 ≤ m → matches text sub m q = true ↔ suffix text sub b m (q + m).
Proof.
  intros Hq Hm. rewrite matches_spec. split.
  - intros H. split; [lia|]. intros x Hx. rewrite H by done. f_equal. lia.
  - intros [_ H] x Hx. rewrite H by done. f_equal. lia.
Qed.

(** ** The loop *)

Section loop.
Variables (text sub steps : list Z) (b e m : Z).
Hypothesis b_e : 0 ≤ b ≤ e.
Hypothesis e_text : e ≤ zlen text.
Hypothesis m_range : 0 ≤ m < 2 ^ 31.
Hypothesis m_sub : m ≤ zlen sub.
Hypothesis m_steps : m ≤ zlen steps.
Hypothesis table : steps_ok sub steps m.

(** [k] characters match before [j]; a longer match is ruled out by [text[j]];
    the pattern did not occur before [j]. *)
Record kmp_inv (j k : Z) : Prop := {
  inv_j : b ≤ j ≤ e;
  inv_k : 0 ≤ k ≤ m;
  inv_suffix : suffix text sub b k j;
  inv_longer : ∀ l, k < l ≤ m → suffix text sub b l j → j < e ∧ l < m ∧ get sub l ≠ get text j;
  inv_new : ∀ x, b ≤ x < j → ¬ suffix text sub b m x;
}.

Lemma kmp_inv_start : kmp_inv b 0.
Proof.
  split; [lia|lia|apply suffix_0; lia| |].
  - intros l Hl [H _]. lia.
  - intros x Hx [H _]. lia.
Qed.

(** A move to the next character, to the longest match [k']. *)
Lemma kmp_inv_advance j k k' :
  kmp_inv j k → j < e → k < m → 0 ≤ k' ≤ m → suffix text sub b k' (j + 1) →
  (∀ l, k' ≤ l ≤ k → suffix text sub b l j → get sub l ≠ get text j) → kmp_inv (j + 1) k'.
Proof.
  intros [Hj Hk Hs Hl Hn] Hje Hkm Hk' Hs' Hmax. split; [lia|lia|done| |].
  - intros l Hlr Hsl. exfalso. replace l with (l - 1 + 1) in Hsl by lia.
    apply suffix_prev in Hsl as [Hsl E]; [|lia]. destruct (Z.le_gt_cases (l - 1) k) as [Hle|Hgt].
    + apply (Hmax (l - 1)); [lia|done|done].
    + destruct (Hl (l - 1)) as (_ & _ & Hne); [lia|done|done].
  - intros x Hx Hsx. destruct (Z.eq_dec x j) as [->|]; [|apply (Hn x); [lia|done]].
    destruct (Hl m) as (_ & ? & _); [lia|done|lia].
Qed.

Lemma kmp_round_ok j k :
  kmp_inv j k → j < e → k < m →
  wp (kmp_round text sub steps (j, k)) (λ '(j', k'), kmp_inv j' k' ∧ 2 * (e - j') + k' < 2 * (e - j) + k).
Proof.
  intros I Hje Hkm. pose proof I as [Hj Hk Hs Hl Hn]. unfold kmp_round.
  apply wp_bind, wp_load; [lia|]. apply wp_bind, wp_load; [lia|].
  destruct (Z.eqb_spec (get text j) (get sub k)) as [E|E].
  - apply wp_ret. assert (u32 (k + 1) = k + 1) as -> by (apply wrap_small; lia). split; [|lia].
    apply (kmp_inv_advance j k); [done|done|done|lia|by apply suffix_next|]. intros l Hlr. lia.
  - apply wp_bind, wp_load; [lia|]. destruct (table k ltac:(lia)) as (Hr & Hb & Hmax). set (s := get steps k) in *.
    destruct (Z.eqb_spec s (-1)) as [Es|Es]; apply wp_ret.
    + split; [|lia]. apply (kmp_inv_advance j k); [done|done|done|lia|apply suffix_0; lia|].
      intros l Hlr Hsl. destruct (Z.eq_dec l k) as [->|]; [congruence|].
      rewrite (Hmax l); [congruence|lia|by apply (suffix_is_border text sub b k l j); [..|lia]].
    + assert (u32 s = s) as -> by (apply wrap_small; lia). split; [|lia]. destruct Hb as [Hb Hne]; [lia|].
      split; [lia|lia|by apply (suffix_border text sub b k)| |done].
      intros l Hlr Hsl. destruct (Z.lt_trichotomy l k) as [Hlt|[->|Hgt]].
      * split_and!; [done|lia|]. rewrite (Hmax l); [congruence|lia|by apply (suffix_is_border text sub b k l j)].
      * split_and!; [done|done|congruence].
      * apply Hl; [lia|done].
Qed.

Lemma kmp_loop_ok c fuel (Q : Z * Z → Prop) :
  (∀ j k, kmp_inv j k → c j k = (j <? e) && (k <? m)) → 2 * (e - b) ≤ fuel →
  (∀ j k, kmp_inv j k → j = e ∨ k = m → Q (j, k)) →
  wp (kmp_loop c fuel text sub steps (b, 0)) Q.
Proof.
  intros Hc Hf HQ. unfold kmp_loop.
  apply (wp_loop (λ jk, kmp_inv jk.1 jk.2) _ (λ jk, Z.to_nat (2 * (e - jk.1) + jk.2))); [|apply kmp_inv_start|simpl; lia].
  intros [j k] I. simpl in I. rewrite (Hc j k I). pose proof (inv_j _ _ I). pose proof (inv_k _ _ I).
  destruct ((j <? e) && (k <? m)) eqn:E.
  - apply andb_true_iff in E as [E1%Z.ltb_lt E2%Z.ltb_lt]. apply wp_bind. eapply wp_mono; [by apply kmp_round_ok|].
    intros [j' k'] [I' Hlt]. apply wp_ret. pose proof (inv_j _ _ I'). pose proof (inv_k _ _ I'). simpl. split; [done|lia].
  - apply wp_ret, HQ; [done|]. apply andb_false_iff in E as [E%Z.ltb_ge|E%Z.ltb_ge]; lia.
Qed.
End loop.

(** ** The table *)

Lemma step_0 sub : step_ok sub 0 (-1).
Proof. split; [lia|]. split; [lia|]. intros l Hl [Hl' _]. lia. Qed.

(** The table of [i] from the longest border [k] of the first [i] characters. *)
Lemma step_next sub steps i k :
  0 ≤ k < i → suffix sub sub 1 k i → (∀ l, k < l → ¬ suffix sub sub 1 l i) → step_ok sub k (get steps k) →
  step_ok sub i (if get sub k =? get sub i then get steps k else k).
Proof.
  intros Hk Hs Hmax (Hr & Hb & Hl). assert (∀ l, suffix sub sub 1 l i → l ≤ k) as Hle.
  { intros l Hsl. destruct (Z.le_gt_cases l k); [done|]. exfalso. apply (Hmax l); [lia|done]. }
  destruct (Z.eqb_spec (get sub k) (get sub i)) as [E|E].
  - split; [lia|]. split.
    + intros H0. destruct (Hb H0) as [Hb1 Hb2]. split; [by apply (suffix_border sub sub 1 k)|congruence].
    + intros l Hgt Hsl. pose proof (Hle l Hsl). destruct (Z.eq_dec l k) as [->|]; [done|].
      rewrite (Hl l); [done|done|by apply (suffix_is_border sub sub 1 k l i); [..|lia]].
  - split; [lia|]. split; [by intros _|]. intros l Hgt Hsl. pose proof (Hle l Hsl). lia.
Qed.

Lemma steps_ok_extend sub steps i s :
  0 ≤ i < zlen steps → steps_ok sub steps i → step_ok sub i s → steps_ok sub (upd steps i s) (i + 1).
Proof.
  intros Hi H Hs k Hk. rewrite get_upd by lia. case_decide as E; [by subst|]. apply H. lia.
Qed.

Lemma mem_build_kmp_array_ok sub steps size (Q : list Z → Prop) :
  0 < size < 2 ^ 31 → size ≤ zlen sub → zlen steps = size →
  (∀ t, zlen t = size → steps_ok sub t size → Q t) → wp (mem_build_kmp_array sub steps size) Q.
Proof.
  intros Hn Hsub Hst HQ. unfold mem_build_kmp_array. apply wp_bind, wp_store; [lia|].
  apply (wp_loop (λ x, 1 ≤ x.1 ≤ size ∧ zlen x.2 = size ∧ steps_ok sub x.2 x.1) _ (λ x, Z.to_nat (size - x.1)));
    [|simpl; split_and!; [lia|lia|by rewrite zlen_upd|]|simpl; lia].
  2:{ apply (steps_ok_extend _ _ 0); [lia| |apply step_0]. intros k Hk. lia. }
  clear steps Hst. intros [i steps] (Hi & Hl & Hok). simpl in Hi, Hl, Hok. zcase as Hlt; [|apply wp_ret, HQ; [done|by replace size with i by lia]].
  apply wp_bind. apply (kmp_loop_ok sub sub steps 1 i i); try done; try lia.
  - intros j k [Hj Hk [Hs _] _ _]. destruct (Z.ltb_spec k i); [by rewrite andb_true_r|lia].
  - intros j k [Hj Hk Hs Hmax _] Hex. pose proof (proj1 Hs) as Hr. assert (j = i) as -> by lia.
    apply wp_bind, wp_load; [lia|]. apply wp_bind, wp_load; [lia|]. apply wp_bind.
    assert (step_ok sub i (if get sub k =? get sub i then get steps k else k)) as Hstep.
    { apply step_next; [lia|done| |apply Hok; lia]. intros l Hlt' Hsl. destruct (Hmax l) as (? & _); [|done|lia].
      pose proof (proj1 Hsl). lia. }
    assert (u32 (i + 1) = i + 1) as -> by (apply wrap_small; lia).
    assert (swrap 32 k = k) as -> by (apply swrap_small; lia).
    assert (∀ s, step_ok sub i s → wp (store steps i s) (λ t, zlen t = size ∧ steps_ok sub t (i + 1))) as Hstore.
    { intros s Hs'. apply wp_store; [lia|]. rewrite zlen_upd. split; [done|]. apply steps_ok_extend; [lia|done|done]. }
    destruct (get sub k =? get sub i).
    + apply wp_bind, wp_load; [lia|]. eapply wp_mono; [by apply Hstore|]. intros t [Ht1 Ht2]. apply wp_ret.
      simpl. split_and!; [lia|lia|done|done|lia].
    + eapply wp_mono; [by apply Hstore|]. intros t [Ht1 Ht2]. apply wp_ret. simpl. split_and!; [lia|lia|done|done|lia].
Qed.

(** ** The searches *)

Lemma mem_kmp_find_base_ok text b e sub m steps :
  0 ≤ b ≤ e → e ≤ zlen text → 0 < m < 2 ^ 31 → m ≤ zlen sub → zlen steps = m → steps_ok sub steps m →
  mem_kmp_find_base text b e sub m steps = Ok (find_from text sub m b e).
Proof.
  intros Hb He Hm Hsub Hst Hok.
  assert (wp (mem_kmp_find_base text b e sub m steps) (is_first text sub m b e)) as (r & -> & Hr)%wp_ok;
    [|f_equal; eapply is_first_unique; [exact Hr|apply find_from_first]].
  unfold mem_kmp_find_base. apply wp_bind.
  apply (kmp_loop_ok text sub steps b e m); try done; try lia.
  intros j k [Hj Hk Hs Hmax Hnew] Hex. pose proof (proj1 Hs) as Hr.
  assert (∀ x, b ≤ x → x + m ≤ e → (x + m < j ∨ k < m) → matches text sub m x = false) as Hno.
  { intros x Hx Hxe Hc. apply not_true_iff_false. rewrite (matches_suffix text sub b) by lia. intros Hsx.
    destruct (Z.lt_ge_cases (x + m) j) as [Hlt|Hge]; [by apply (Hnew (x + m)); [lia|]|].
    assert (j = e) as -> by lia. replace (x + m) with e in Hsx by lia. destruct (Hmax m); [lia|done|lia]. }
  zcase as Hkm; apply wp_ret; simpl.
  - intros x Hx Hxe. apply Hno; [done|done|by right].
  - assert (k = m) as -> by lia. split_and!; [lia|lia| |intros x Hx; apply Hno; lia].
    apply (matches_suffix text sub b); [lia|lia|]. by replace (j - m + m) with j by lia.
Qed.

Lemma zlen_int_array garbage n : 0 ≤ n → zlen (int_array garbage n) = n.
Proof. intros Hn. unfold int_array, zlen. rewrite length_fmap, length_seq. lia. Qed.

(** A result written behind those found before. *)
Lemma store_next (found rest : list Z) q :
  zlen found < zlen rest →
  store (found ++ drop (length found) rest) (zlen found) q =
  Ok ((found ++ [q]) ++ drop (length (found ++ [q])) rest).
Proof.
  intros Hl. unfold zlen in *. rewrite store_in by (unfold zlen; rewrite length_app, length_drop; lia). f_equal.
  unfold upd, zlen. rewrite Nat2Z.id, insert_app_r_alt, Nat.sub_diag by lia. rewrite length_app. simpl.
  destruct (drop (length found) rest) as [|x l] eqn:E; [apply (f_equal length) in E; rewrite length_drop in E; simpl in E; lia|].
  simpl. rewrite <-app_assoc. simpl. do 2 f_equal. rewrite <-drop_drop, E. done.
Qed.

Section results.
Variables (mem sub : list Z) (memlen sublen : Z) (steps results : list Z).
Hypothesis memlen_range : 0 ≤ memlen ≤ zlen mem.
Hypothesis sublen_range : 0 < sublen < 2 ^ 31.
Hypothesis sublen_sub : sublen ≤ zlen sub.
Hypothesis steps_len : zlen steps = sublen.
Hypothesis table : steps_ok sub steps sublen.

Lemma find_all_loop k fuel pos found :
  (k < fuel)%nat → 0 ≤ pos ≤ memlen → zlen found + Z.of_nat k ≤ zlen results →
  loop fuel (λ '(pos, n, results),
    if n <? zlen found + Z.of_nat k then
      r ← mem_kmp_find_base mem pos (0 + memlen) sub sublen steps;
      match r with
      | None => mret (inr (n, results))
      | Some q => results ← store results n q; mret (inl (q + sublen, n + 1, results))
      end
    else mret (inr (n, results))) (pos, zlen found, found ++ drop (length found) results) =
  Ok (let all := found ++ find_every k mem sub sublen pos memlen in (zlen all, all ++ drop (length all) results)).
Proof.
  revert fuel pos found. induction k as [|k IH]; intros fuel pos found Hf Hp Hl; (destruct fuel as [|fuel]; [lia|]); rewrite loop_S.
  - rewrite Z.add_0_r, Z.ltb_irrefl. simpl. by rewrite app_nil_r.
  - rewrite (proj2 (Z.ltb_lt _ _)) by lia. rewrite mem_kmp_find_base_ok by (done || lia). rewrite Z.add_0_l. cbn [find_every mbind cres_bind].
    pose proof (find_from_first mem sub sublen pos memlen) as Hq.
    destruct (find_from mem sub sublen pos memlen) as [q|]; [|simpl; by rewrite app_nil_r].
    destruct Hq as (Hq1 & Hq2 & _). rewrite store_next by lia. cbn [mbind cres_bind mret cres_ret].
    replace (zlen found + 1) with (zlen (found ++ [q])) by (rewrite zlen_app; done).
    specialize (IH fuel (q + sublen) (found ++ [q]) ltac:(lia) ltac:(lia)).
    replace (zlen found + Z.of_nat (S k)) with (zlen (found ++ [q]) + Z.of_nat k) in * by (rewrite zlen_app; unfold zlen; simpl; lia).
    refine (eq_trans (IH Hl) _). by rewrite <-app_assoc.
Qed.
End results.

(** ** Properties *)

(** C12: the Knuth-Morris-Pratt searches find what trying every place finds:
    [mem_kmp_find] answers the first place where the pattern occurs, NULL when
    there is none, and [mem_kmp_find_all] stores the places of the matches from
    left to right that do not overlap, as many as the result array takes, and
    returns their number; the table never sends them outside their arrays,
    whatever they held before. *)
Theorem mem_kmp_finds_as_naive_search garbage mem sub memlen sublen results size :
  0 ≤ memlen ≤ zlen mem → 0 < sublen < 2 ^ 31 → sublen ≤ zlen sub → 0 ≤ size ≤ zlen results →
  let every := find_every (Z.to_nat size) mem sub sublen 0 memlen in
  mem_kmp_find garbage mem sub memlen sublen = Ok (find_from mem sub sublen 0 memlen) ∧
  mem_kmp_find_all garbage mem sub memlen sublen results size = Ok (zlen every, every ++ drop (length every) results).
Proof.
  intros Hm Hs Hsub Hsz every.
  destruct (proj1 (wp_ok (mem_build_kmp_array sub (int_array garbage sublen) sublen) (λ t, zlen t = sublen ∧ steps_ok sub t sublen))) as (t & E & Ht & Hok).
  { apply mem_build_kmp_array_ok; [done|done|apply zlen_int_array; lia|done]. }
  unfold mem_kmp_find, mem_kmp_find_all. rewrite E. cbn [mbind cres_bind]. rewrite Z.add_0_l.
  split; [apply mem_kmp_find_base_ok; (done || lia)|].
  pose proof (find_all_loop mem sub memlen sublen t results Hm Hs Hsub Ht Hok (Z.to_nat size) (S (Z.to_nat size)) 0 []) as H.
  cbn [app length] in H. change (zlen (@nil Z)) with 0 in H. rewrite Z.add_0_l, Z2Nat.id in H by lia. rewrite drop_0 in H. apply H; lia.
Qed.

Lemma mem_kmp_finds_as_naive_search_witness :
  let text := [1; 2; 1; 2; 1; 3; 1; 2; 1; 3] in
  find_every 5 text [1; 2; 1] 3 0 10 = [0; 6] ∧
  mem_kmp_find (λ _, 77) text [2; 1; 3] 10 3 = Ok (Some 3) ∧
  mem_kmp_find_all (λ _, 77) text [1; 2; 1] 10 3 [0; 0; 0; 0; 0] 5 = Ok (2, [0; 6; 0; 0; 0]).
Proof.
  split_and!; [by vm_compute|vm_compute; reflexivity|].
  refine (proj2 (mem_kmp_finds_as_naive_search (λ _, 77) [1; 2; 1; 2; 1; 3; 1; 2; 1; 3] [1; 2; 1] 10 3 [0; 0; 0; 0; 0] 5 _ _ _ _));
    unfold zlen; simpl; lia.
Defined.
