(* ===== verification/MemOps.v ===== *)
(** MemOps: the scans, rearrangements and checksums of src/lib/memory.c over
    the byte store of Memory.v. *)
From S2P Require Import Prelude Memory Bignum.

(** ** Deleting, counting, testing *)

Definition mem_delete_char_base (mem_in mem_out size c : Z) : prog mem Z :=
  let mem_bak := mem_out in
  let mem_end := mem_in + size in
  '(_, mem_out) ← while (bytes_fuel size) (λ '(mem_in, _), mem_in <? mem_end) (λ '(mem_in, mem_out),
    b ← rd mem_in;
    if b =? u8 c then mret (mem_in + 1, mem_out)
    else
      b ← rd mem_in;
      wr mem_out b;;
      mret (mem_in + 1, mem_out + 1)) (mem_in, mem_out);
  mret (mem_out - mem_bak).
Definition mem_delete_char (p size c : Z) : prog mem Z := mem_delete_char_base p p size c.

(** The scan both tests make: where it stops. *)
Definition mem_scan (p value size : Z) : prog mem Z :=
  let mem_end := p + size in
  ploop (bytes_fuel size) (λ p,
    if p <? mem_end then
      b ← rd p;
      if b =? value then mret (inl (p + 1)) else mret (inr p)
    else mret (inr p)) p.
Definition mem_is_set (p value size : Z) : prog mem bool :=
  q ← mem_scan p value size; mret (p + size <=? q).
Definition mem_is_noset (p value size : Z) : prog mem bool :=
  q ← mem_scan p value size; mret (q <? p + size).

Definition mem_byte_count (p c size : Z) : prog mem Z :=
  let mem_end := p + size in
  '(_, count) ← while (bytes_fuel size) (λ '(p, _), p <? mem_end) (λ '(p, count),
    b ← rd p;
    mret (p + 1, if b =? c then u64 (count + 1) else count)) (p, 0);
  mret count.

(** ** Turning around *)

Definition mem_reverse_simple (start end_ : Z) : prog mem unit :=
  while (bytes_fuel (end_ - start)) (λ '(start, end_), start <? end_) (λ '(start, end_),
    tmp ← rd start;
    b ← rd end_;
    wr start b;;
    wr end_ tmp;;
    mret (start + 1, end_ - 1)) (start, end_);;
  mret tt.
Definition mem_reverse (start end_ : Z) : prog mem unit :=
  if start <? end_ then mem_reverse_simple start end_
  else if end_ <? start then mem_reverse_simple end_ start
  else mret tt.

Definition mem_lsb_msb_transfer (value : Z) : Z :=
  (Nat.iter 8 (λ '(value, result),
    (Z.shiftr value 1,
     if negb (Z.land value 1 =? 0) then u8 (Z.lor (Z.shiftl result 1) 1) else u8 (Z.shiftl result 1)))
    (value, 0)).2.
Definition memcpy_lsb_msb_transfer (dest src size : Z) : prog mem Z :=
  let src_end := src + size in
  '(_, dest) ← while (bytes_fuel size) (λ '(src, _), src <? src_end) (λ '(src, dest),
    b ← rd src;
    wr dest (mem_lsb_msb_transfer b);;
    mret (src + 1, dest + 1)) (src, dest);
  mret dest.

(** ** Words *)

(** [NUMBER_SWAP_FUNC(number_swap, bits)]. *)
Definition number_swapw (w : nat) (num1 num2 : Z) : prog mem unit :=
  temp ← rdw w num1;
  v ← rdw w num2;
  wrw w num1 v;;
  wrw w num2 temp.

Definition SWAP16 (value : Z) : Z := Z.lor (Z.shiftr value 8) (Z.shiftl value 8).
Definition SWAP32 (value : Z) : Z :=
  Z.lor (Z.lor (Z.lor (Z.shiftr value 24) (u32 (Z.shiftl value 24)))
    (Z.shiftr (Z.land value 0x00FF0000) 8)) (Z.shiftl (Z.land value 0x0000FF00) 8).
Definition SWAP64 (value : Z) : Z :=
  let H := u32 (Z.shiftr value 32) in
  let L := u32 (Z.land value (Z.shiftl 1 32 - 1)) in
  Z.lor (Z.shiftl (SWAP32 L) 32) (SWAP32 H).

(** [MEM_SWAP_FUNC(bits)]. *)
Definition mem_swapw (w : nat) (swap : Z → Z) (dest src count : Z) : prog mem unit :=
  let k := Z.of_nat w in
  let src_end := src + k * count in
  while (bytes_fuel count) (λ '(_, src), src <? src_end) (λ '(dest, src),
    v ← rdw w src;
    wrw w dest (swap v);;
    mret (dest + k, src + k)) (dest, src);;
  mret tt.
Definition mem_swap16 := mem_swapw 2 (λ v, u16 (SWAP16 v)).
Definition mem_swap32 := mem_swapw 4 SWAP32.
Definition mem_swap64 := mem_swapw 8 SWAP64.

(** ** Checksums *)

(** The sums: [w] bytes at a time into an accumulator of [bits] bits. *)
Definition mem_sum (w : nat) (bits p count : Z) : prog mem (Z * Z) :=
  let mem_end := p + Z.of_nat w * count in
  while (bytes_fuel count) (λ '(p, _), p <? mem_end) (λ '(p, checksum),
    v ← rdw w p;
    mret (p + Z.of_nat w, wrap bits (checksum + v))) (p, 0).

Definition mem_checksum32_simple (p count : Z) : prog mem Z :=
  '(_, checksum) ← mem_sum 1 64 p count;
  let checksum := u64 (Z.shiftr checksum 32 + Z.land checksum 0xFFFFFFFF) in
  mret (u32 (Z.shiftr checksum 32 + checksum)).
Definition mem_checksum16_simple (p size : Z) : prog mem Z :=
  '(p, checksum) ← mem_sum 2 32 p (Z.shiftr size 1);
  checksum ← (if negb (Z.land size 1 =? 0) then b ← rd p; mret (u32 (checksum + b)) else mret checksum);
  let checksum := u32 (Z.shiftr checksum 16 + Z.land checksum 0xFFFF) in
  mret (u16 (Z.shiftr checksum 16 + checksum)).
Definition mem_checksum8_simple (p size : Z) : prog mem Z :=
  '(_, checksum) ← mem_sum 1 16 p size;
  let checksum := u16 (Z.shiftr checksum 8 + Z.land checksum 0xFF) in
  mret (u8 (Z.shiftr checksum 8 + checksum)).

(** ** Classes of bytes *)

Definition byte_is_space (b : Z) : bool := (b =? 32) || (b =? 9) || (b =? 12).
Definition byte_is_space_or_tail (b : Z) : bool := (b =? 0) || (b =? 32) || (b =? 9) || (b =? 12).
Definition byte_is_lf (b : Z) : bool := (b =? 13) || (b =? 10).
Definition byte_is_space_or_lf (b : Z) : bool := (b =? 32) || (b =? 9) || (b =? 12) || (b =? 13) || (b =? 10).
Definition byte_is_named (b : Z) : bool :=
  (b =? 45) || (b =? 95) || ((48 <=? b) && (b <=? 57)) || ((97 <=? b) && (b <=? 122)) || ((65 <=? b) && (b <=? 90)).

(** ** The bytes of a block *)

Definition bytes (s : mem) (p n : Z) : list Z := (λ i, s !!! (p + i)) <$> seqZ 0 n.

Lemma bytes_0 s p : bytes s p 0 = [].
Proof. done. Qed.
Lemma bytes_snoc s p n : 0 ≤ n → bytes s p (n + 1) = bytes s p n ++ [s !!! (p + n)].
Proof. intros Hn. unfold bytes. rewrite seqZ_app, fmap_app by lia. done. Qed.
Lemma bytes_ext s s' p q n : (∀ i, 0 ≤ i < n → s !!! (p + i) = s' !!! (q + i)) → bytes s p n = bytes s' q n.
Proof. intros H. apply list_fmap_ext. intros k i [-> Hk]%lookup_seqZ. apply H. lia. Qed.
Lemma zlen_bytes s p n : 0 ≤ n → zlen (bytes s p n) = n.
Proof. intros Hn. unfold bytes, zlen. rewrite length_fmap, length_seqZ. lia. Qed.
Lemma writes_bytes s s' p n q m : writes s s' p n → apart p n q m → bytes s' q m = bytes s q m.
Proof. unfold apart. intros W Ha. apply bytes_ext. intros i Hi. apply (writes_total _ _ _ _ _ W). lia. Qed.

Lemma mem_delete_char_base_ok p out n c s (Q : Z → mem → Prop) :
  0 ≤ n → wf s → live s p n → live s out n → up_ok out p n →
  (∀ s', let l := filter (λ b, b ≠ u8 c) (bytes s p n) in
     writes s s' out (zlen l) → bytes s' out (zlen l) = l → Q (zlen l) s') →
  wpp (mem_delete_char_base p out n c) s Q.
Proof.
  intros Hn Hs Hp Ho Hu HQ. unfold mem_delete_char_base. cbv zeta. apply wpp_bind.
  set (kept k := filter (λ b, b ≠ u8 c) (bytes s p k)).
  assert (∀ k, 0 ≤ k → kept (k + 1) = if decide (s !!! (p + k) = u8 c) then kept k else kept k ++ [s !!! (p + k)]) as Hk1.
  { intros k Hk. unfold kept. rewrite bytes_snoc, filter_app, filter_cons by done. repeat case_decide; try done. by rewrite app_nil_r. }
  assert (∀ k, 0 ≤ k → zlen (kept k) ≤ k) as Hlen.
  { intros k Hk. unfold kept. pose proof (length_filter (λ b, b ≠ u8 c) (bytes s p k)). pose proof (zlen_bytes s p k Hk). unfold zlen in *. lia. }
  apply (wpp_count (λ k x s', x = (p + k, out + zlen (kept k)) ∧ writes s s' out (zlen (kept k)) ∧ bytes s' out (zlen (kept k)) = kept k) n);
    [| |split_and!; [by rewrite Z.add_0_r; unfold zlen; simpl; rewrite Z.add_0_r|by apply writes_refl|done]|done|unfold bytes_fuel; lia].
  - intros k x s1 Hk (-> & W & B). split; [apply Z.ltb_lt; lia|]. specialize (Hk1 k ltac:(lia)). pose proof (Hlen k ltac:(lia)).
    assert (s1 !! (p + k) = Some (s !!! (p + k))) as Hread.
    { rewrite (writes_out _ _ _ _ W) by (unfold up_ok in Hu; lia). apply (lookup_live s p n); [done|lia]. }
    apply wpp_bind. eapply wpp_rd; [exact Hread|]. destruct (Z.eqb_spec (s !!! (p + k)) (u8 c)) as [E|E].
    + apply wpp_ret. rewrite Hk1, decide_True by done. split_and!; [f_equal; lia|done|done].
    + rewrite decide_False in Hk1 by done. apply wpp_bind. eapply wpp_rd; [exact Hread|].
      assert (is_Some (s !! (out + zlen (kept k)))) as Hlo by (apply Ho; pose proof (zlen_nonneg (kept k)); lia).
      apply wpp_bind, wpp_wr; [by apply (writes_dom _ _ _ _ W)|]. apply wpp_ret.
      destruct (writes_next s s1 out (zlen (kept k)) (s !!! (p + k))) as [W' _]; [apply zlen_nonneg|done|done|].
      rewrite Hk1, zlen_app. change (zlen [s !!! (p + k)]) with 1.
      split_and!; [apply (f_equal2 pair); lia|done|]. rewrite bytes_snoc by apply zlen_nonneg. rewrite lookup_total_insert_eq, u8_id by by apply wf_total.
      f_equal. etransitivity; [|exact B]. apply bytes_ext. intros i Hi. by rewrite lookup_total_insert_ne by lia.
  - intros x s1 (-> & W & B). split; [apply Z.ltb_irrefl|]. apply wpp_ret.
    replace (out + zlen (kept n) - out) with (zlen (kept n)) by lia. by apply HQ.
Qed.

Lemma zlen_filter_split c (l : list Z) : zlen l = zlen (filter (λ b, b = c) l) + zlen (filter (λ b, b ≠ c) l).
Proof.
  induction l as [|b l IH]; [by rewrite !filter_nil|]. rewrite !filter_cons, zlen_cons, IH.
  repeat case_decide; try congruence; rewrite zlen_cons; lia.
Qed.
Lemma mem_byte_count_ok p c n s (Q : Z → mem → Prop) :
  0 ≤ n < 2 ^ 64 → live s p n → Q (zlen (filter (λ b, b = c) (bytes s p n))) s → wpp (mem_byte_count p c n) s Q.
Proof.
  intros Hn Hp HQ. unfold mem_byte_count. cbv zeta. apply wpp_bind.
  set (found k := filter (λ b, b = c) (bytes s p k)).
  assert (∀ k, 0 ≤ k → zlen (found k) ≤ k) as Hlen.
  { intros k Hk. unfold found. pose proof (length_filter (λ b, b = c) (bytes s p k)). pose proof (zlen_bytes s p k Hk). unfold zlen in *. lia. }
  apply (wpp_count (λ k x s', x = (p + k, zlen (found k)) ∧ s' = s) n); [| |by rewrite Z.add_0_r|lia|unfold bytes_fuel; lia].
  - intros k x s1 Hk [-> ->]. split; [apply Z.ltb_lt; lia|]. apply wpp_bind. eapply wpp_rd; [apply (lookup_live s p n); [done|lia]|].
    apply wpp_ret. split; [|done]. pose proof (Hlen k ltac:(lia)). pose proof (zlen_nonneg (found k)).
    unfold found. rewrite bytes_snoc, filter_app, filter_cons, zlen_app by lia. fold (found k).
    destruct (Z.eqb_spec (s !!! (p + k)) c); [rewrite decide_True by done|rewrite decide_False by done];
      rewrite ?filter_nil; apply (f_equal2 pair); try lia.
    + rewrite wrap_small by lia. done.
    + change (zlen []) with 0. lia.
  - intros x s1 [-> ->]. split; [apply Z.ltb_irrefl|]. by apply wpp_ret.
Qed.

(** ** Turning around *)

Lemma mem_reverse_simple_ok lo hi s (Q : unit → mem → Prop) :
  wf s → live s lo (hi + 1 - lo) →
  (∀ s', (∀ a, s' !! a = if decide (lo ≤ a ≤ hi) then s !! (lo + hi - a) else s !! a) → Q tt s') →
  wpp (mem_reverse_simple lo hi) s Q.
Proof.
  intros Hs Hl HQ. unfold mem_reverse_simple. apply wpp_bind.
  apply (wpp_while (λ k x s', x = (lo + k, hi - k) ∧ (k = 0 ∨ lo + k ≤ hi - k + 1) ∧ wf s' ∧
    ∀ a, s' !! a = if decide (lo ≤ a < lo + k ∨ hi - k < a ≤ hi) then s !! (lo + hi - a) else s !! a) (Z.max 0 (hi - lo)));
    [|split_and!; [by rewrite Z.add_0_r, Z.sub_0_r|lia|done|intros a; case_decide; [lia|done]]|unfold bytes_fuel; lia|lia].
  intros k x s1 Hk (-> & Hr & Hw & F). zcase as Hlt.
  - split; [lia|]. destruct (live_lookup s lo (hi + 1 - lo) (lo + k) Hl ltac:(lia)) as [x Ex].
    destruct (live_lookup s lo (hi + 1 - lo) (hi - k) Hl ltac:(lia)) as [y Ey].
    assert (s1 !! (lo + k) = Some x) as E1 by (rewrite F, decide_False by lia; done).
    assert (s1 !! (hi - k) = Some y) as E2 by (rewrite F, decide_False by lia; done).
    apply wpp_bind. eapply wpp_rd; [exact E1|]. apply wpp_bind. eapply wpp_rd; [exact E2|].
    apply wpp_bind, wpp_wr; [by eexists|]. apply wpp_bind, wpp_wr; [rewrite lookup_insert; case_decide; by eexists|].
    apply wpp_ret. split_and!; [apply (f_equal2 pair); lia|lia|by apply wf_insert, wf_insert|].
    intros a. rewrite !lookup_insert, F, !u8_id by (by eapply Hs).
    repeat case_decide; subst; try lia; try done; rewrite <-?Ex, <-?Ey; f_equal; lia.
  - apply wpp_ret, HQ. intros a. rewrite F. repeat case_decide; try lia; try done. f_equal. lia.
Qed.

(** ** Checksums *)

(** The sum of [n] words of [w] bytes. *)
Fixpoint word_sum (s : mem) (w : nat) (p : Z) (n : nat) : Z :=
  match n with O => 0 | S n => word_sum s w p n + num s (p + Z.of_nat w * Z.of_nat n) w end.

Lemma word_sum_range s w p n : wf s → 0 ≤ word_sum s w p n ≤ Z.of_nat n * (256 ^ Z.of_nat w - 1).
Proof.
  intros Hs. induction n as [|n IH]; [simpl; lia|]. cbn [word_sum].
  pose proof (num_range s (p + Z.of_nat w * Z.of_nat n) w Hs). lia.
Qed.

(** [r] is the ones' complement sum [x] of words of [w] bits. *)
Definition ones_sum (w x r : Z) : Prop :=
  0 ≤ r < 2 ^ w ∧ r mod (2 ^ w - 1) = x mod (2 ^ w - 1) ∧ (r = 0 ↔ x = 0).

Lemma fold_twice w b x :
  1 < w → 2 * w ≤ b → 0 ≤ x < 2 ^ (2 * w) →
  let y := wrap b (Z.shiftr x w + Z.land x (2 ^ w - 1)) in ones_sum w x (wrap w (Z.shiftr y w + y)).
Proof.
  intros Hw Hb Hx y. pose proof (Z.pow_pos_nonneg 2 w ltac:(lia) ltac:(lia)) as Hp. pose proof (Z.pow_le_mono_r 2 (2 * w) b ltac:(lia) Hb).
  assert (2 ^ 1 < 2 ^ w) by (apply Z.pow_lt_mono_r; lia).
  replace (2 * w) with (w + w) in * by lia. rewrite Z.pow_add_r in * by lia. set (m := 2 ^ w) in *.
  pose proof (Z.mod_pos_bound x m ltac:(lia)) as Hm. pose proof (Z.div_pos x m ltac:(lia) ltac:(lia)) as Hd.
  pose proof (Z.div_lt_upper_bound x m m ltac:(lia) ltac:(lia)) as Hd'. pose proof (Z.div_mod x m ltac:(lia)) as Hdm.
  assert (y = x / m + x mod m) as Ey.
  { unfold y. rewrite Z.shiftr_div_pow2 by lia. replace (m - 1) with (Z.ones w) by (rewrite Z.ones_equiv; unfold m; lia). rewrite Z.land_ones by lia.
    apply wrap_small. fold m. nia. }
  clearbody y. subst y. set (q := x / m) in *. set (r := x mod m) in *.
  rewrite Z.shiftr_div_pow2 by lia. fold m. unfold wrap. fold m.
  assert (x = (q + r) + q * (m - 1)) as Ex by lia.
  assert (∀ v k, v = x + k * (m - 1) → 0 ≤ v < m → (v = 0 ↔ x = 0) → ones_sum w x v) as Hfin.
  { intros v k -> Hv Hz. split; [done|]. split; [by rewrite Z.mod_add by lia|done]. }
  destruct (Z.lt_ge_cases (q + r) m) as [Hlt|Hge].
  - rewrite (Z.div_small (q + r) m) by lia. rewrite Z.add_0_l, (Z.mod_small (q + r) m) by lia.
    apply (Hfin _ (- q)); [lia|lia|]. clearbody q r. split; [intros E; assert (q = 0) as -> by lia; lia|intros ->; nia].
  - assert ((q + r) / m = 1) as -> by (symmetry; apply (Z.div_unique_pos _ _ 1 (q + r - m)); lia).
    assert ((1 + (q + r)) mod m = 1 + (q + r) - m) as -> by (symmetry; apply (Z.mod_unique_pos _ _ 1); lia).
    apply (Hfin _ (- q - 1)); [lia|lia|]. clearbody q r. split; [lia|intros ->; nia].
Qed.

Lemma mem_sum_ok w bits p n s (Q : Z * Z → mem → Prop) :
  (0 < w)%nat → 0 ≤ n → n * (256 ^ Z.of_nat w - 1) < 2 ^ bits → wf s → live s p (Z.of_nat w * n) →
  Q (p + Z.of_nat w * n, word_sum s w p (Z.to_nat n)) s → wpp (mem_sum w bits p n) s Q.
Proof.
  intros Hw Hn Hfit Hs Hl HQ. unfold mem_sum. cbv zeta. pose proof (Z.pow_pos_nonneg 256 (Z.of_nat w) ltac:(lia) ltac:(lia)).
  apply (wpp_count (λ k x s', x = (p + Z.of_nat w * k, word_sum s w p (Z.to_nat k)) ∧ s' = s) n);
    [| |split; [apply (f_equal2 pair); [lia|done]|done]|done|unfold bytes_fuel; lia].
  - intros k x s1 Hk [-> ->]. split; [apply Z.ltb_lt; nia|]. apply wpp_bind.
    eapply wpp_eq; [apply rdw_ok; eapply live_le; [exact Hl|lia|nia]|]. apply wpp_ret. split; [|done].
    replace (Z.to_nat (k + 1)) with (S (Z.to_nat k)) by lia. cbn [word_sum]. rewrite Z2Nat.id by lia.
    pose proof (word_sum_range s w p (Z.to_nat k) Hs). pose proof (num_range s (p + Z.of_nat w * k) w Hs).
    apply (f_equal2 pair); [lia|]. apply wrap_small. nia.
  - intros x s1 [-> ->]. split; [apply Z.ltb_irrefl|done].
Qed.

(** The order of the bits of a byte. *)
Definition bits_mirrored (b r : Z) : bool :=
  (0 <=? r) && (r <? 256) && forallb (λ i, Bool.eqb (Z.testbit r (Z.of_nat i)) (Z.testbit b (7 - Z.of_nat i))) (seq 0 8).
Lemma mem_lsb_msb_transfer_ok b : byte_ok b → bits_mirrored b (mem_lsb_msb_transfer b) = true.
Proof. apply (check_below_ok 256 (λ b, bits_mirrored b (mem_lsb_msb_transfer b))). by vm_compute. Qed.

Lemma memcpy_lsb_msb_transfer_ok dest src n s (Q : Z → mem → Prop) :
  0 ≤ n → wf s → live s src n → live s dest n → up_ok dest src n →
  (∀ s', writes s s' dest n → (∀ i, 0 ≤ i < n → s' !!! (dest + i) = mem_lsb_msb_transfer (s !!! (src + i))) → Q (dest + n) s') →
  wpp (memcpy_lsb_msb_transfer dest src n) s Q.
Proof.
  intros Hn Hs Hl Hd Hu HQ. unfold memcpy_lsb_msb_transfer. cbv zeta. apply wpp_bind.
  apply (wpp_count (λ k x s', x = (src + k, dest + k) ∧ writes s s' dest k ∧
    ∀ i, 0 ≤ i < k → s' !!! (dest + i) = mem_lsb_msb_transfer (s !!! (src + i))) n);
    [| |split_and!; [by rewrite !Z.add_0_r|by apply writes_refl|lia]|done|unfold bytes_fuel; lia].
  - intros k x s1 Hk (-> & W & B). split; [apply Z.ltb_lt; lia|].
    apply wpp_bind. eapply wpp_rd; [rewrite (writes_out _ _ _ _ W) by (unfold up_ok in Hu; lia); apply (lookup_live s src n); [done|lia]|].
    assert (is_Some (s !! (dest + k))) as Hlo by (apply Hd; lia).
    apply wpp_bind, wpp_wr; [by apply (writes_dom _ _ _ _ W)|]. apply wpp_ret.
    destruct (writes_next s s1 dest k (mem_lsb_msb_transfer (s !!! (src + k)))) as [W' _]; [lia|done|done|].
    split_and!; [apply (f_equal2 pair); lia|done|]. intros i Hi. destruct (Z.eq_dec i k) as [->|].
    + rewrite lookup_total_insert_eq. apply u8_id. pose proof (mem_lsb_msb_transfer_ok _ (wf_total s (src + k) Hs)) as H.
      apply andb_true_iff in H as [[H1%Z.leb_le H2%Z.ltb_lt]%andb_true_iff _]. by split.
    + rewrite lookup_total_insert_ne by lia. apply B. lia.
  - intros x s1 (-> & W & B). split; [apply Z.ltb_irrefl|]. apply wpp_ret. by apply HQ.
Qed.

(** ** Properties *)

(** [mem_delete_char] removes every occurrence of a byte from a block in
    place, [mem_delete_char_base] into another block: the result starts with the
    other bytes in their order, its length is returned and is the size less
    what [mem_byte_count] counts, and nothing behind it changes. *)
Theorem mem_delete_char_filters p out n c s :
  0 ≤ n < 2 ^ 64 → 0 ≤ c < 256 → wf s → live s p n →
  let l := filter (λ b, b ≠ c) (bytes s p n) in
  (∃ s', mem_delete_char p n c s = Ok (zlen l, s') ∧ writes s s' p (zlen l) ∧ bytes s' p (zlen l) = l) ∧
  (live s out n → apart out n p n →
   ∃ s', mem_delete_char_base p out n c s = Ok (zlen l, s') ∧ writes s s' out (zlen l) ∧ bytes s' out (zlen l) = l) ∧
  mem_byte_count p c n s = Ok (n - zlen l, s).
Proof.
  intros Hn Hc Hs Hl l. assert (u8 c = c) as Ec by by apply u8_id. split_and!.
  - apply wpp_result. apply mem_delete_char_base_ok; [lia|done|done|done|unfold up_ok; lia|]. rewrite Ec. auto.
  - intros Ho Ha. apply wpp_result. apply mem_delete_char_base_ok; [lia|done|done|done|unfold up_ok, apart in *; lia|]. rewrite Ec. auto.
  - assert (wpp (mem_byte_count p c n) s (λ r s', r = n - zlen l ∧ s' = s)) as (? & ? & E & -> & ->)%wpp_ok; [|done].
    apply mem_byte_count_ok; [done|done|]. split; [|done]. pose proof (zlen_bytes s p n ltac:(lia)) as Hlen.
    rewrite (zlen_filter_split c) in Hlen. fold l in Hlen. lia.
Qed.

Lemma mem_delete_char_filters_witness :
  let s := bytes_at 1 [97; 32; 98; 32; 99; 100] in
  filter (λ b, b ≠ 32) (bytes s 1 5) = [97; 98; 99] ∧
  ∃ s', mem_delete_char 1 5 32 s = Ok (3, s') ∧ writes s s' 1 3 ∧ bytes s' 1 3 = [97; 98; 99].
Proof.
  split; [by vm_compute|].
  refine (proj1 (mem_delete_char_filters 1 1 5 32 (bytes_at 1 [97; 32; 98; 32; 99; 100]) _ _ _ _)); on_bytes.
Defined.

(** The checksums of 8, 16 and 32 bits are the ones' complement sums of the
    bytes or of the little-endian 16-bit words (an odd last byte counts as a
    word), as long as the accumulator takes the sum: 257 bytes for the 8-bit
    one, 128 KiB for the 16-bit one. *)
Theorem mem_checksums_are_ones_sums p n s :
  0 ≤ n → wf s → live s p n →
  (n ≤ 257 → ∃ r, mem_checksum8_simple p n s = Ok (r, s) ∧ ones_sum 8 (word_sum s 1 p (Z.to_nat n)) r) ∧
  (n ≤ 2 ^ 17 → ∃ r, mem_checksum16_simple p n s = Ok (r, s) ∧
     ones_sum 16 (word_sum s 2 p (Z.to_nat (n / 2)) + (if Z.odd n then s !!! (p + (n - 1)) else 0)) r) ∧
  (n < 2 ^ 56 → ∃ r, mem_checksum32_simple p n s = Ok (r, s) ∧ ones_sum 32 (word_sum s 1 p (Z.to_nat n)) r).
Proof.
  intros Hn Hs Hl. pose proof (word_sum_range s 1 p (Z.to_nat n) Hs) as H1. change (256 ^ Z.of_nat 1 - 1) with 255 in H1.
  split_and!; intros Hb.
  - assert (wpp (mem_checksum8_simple p n) s (λ r s', ones_sum 8 (word_sum s 1 p (Z.to_nat n)) r ∧ s' = s)) as (r & s' & E & H & ->)%wpp_ok; [|by exists r].
    apply wpp_bind, mem_sum_ok; [lia|done|lia|done|by rewrite Z.mul_1_l|]. apply wpp_ret. split; [|done]. apply (fold_twice 8 16); lia.
  - assert (wpp (mem_checksum16_simple p n) s (λ r s', ones_sum 16 (word_sum s 2 p (Z.to_nat (n / 2)) + (if Z.odd n then s !!! (p + (n - 1)) else 0)) r ∧ s' = s))
      as (r & s' & E & H & ->)%wpp_ok; [|by exists r].
    unfold mem_checksum16_simple. rewrite Z.shiftr_div_pow2 by lia. change (2 ^ 1) with 2. pose proof (Z.div_mod n 2 ltac:(lia)) as Hdm.
    pose proof (Z.mod_pos_bound n 2 ltac:(lia)). pose proof (Z.div_pos n 2 Hn ltac:(lia)).
    pose proof (word_sum_range s 2 p (Z.to_nat (n / 2)) Hs) as H2. change (256 ^ Z.of_nat 2 - 1) with 65535 in H2.
    apply wpp_bind, mem_sum_ok; [lia|done|change (256 ^ Z.of_nat 2 - 1) with 65535; lia|done|eapply live_le; [exact Hl|lia..]|].
    change (Z.land n 1) with (Z.land n (Z.ones 1)). rewrite Z.land_ones by lia. change (2 ^ 1) with 2. rewrite (Zmod_odd n) in *.
    set (x := word_sum s 2 p (Z.to_nat (n / 2))) in *. destruct (Z.odd n) eqn:Ho; cbn [Z.eqb negb].
    + replace (p + Z.of_nat 2 * (n / 2)) with (p + (n - 1)) by lia. pose proof (wf_total s (p + (n - 1)) Hs) as Hbt. unfold byte_ok in Hbt.
      apply wpp_bind, wpp_bind. eapply wpp_rd; [apply (lookup_live s p n); [done|lia]|]. apply wpp_ret, wpp_ret. split; [|done].
      assert (u32 (x + s !!! (p + (n - 1))) = x + s !!! (p + (n - 1))) as -> by (apply wrap_small; lia). apply (fold_twice 16 32); lia.
    + apply wpp_bind, wpp_ret, wpp_ret. split; [|done]. rewrite Z.add_0_r. apply (fold_twice 16 32); lia.
  - assert (wpp (mem_checksum32_simple p n) s (λ r s', ones_sum 32 (word_sum s 1 p (Z.to_nat n)) r ∧ s' = s)) as (r & s' & E & H & ->)%wpp_ok; [|by exists r].
    apply wpp_bind, mem_sum_ok; [lia|done|lia|done|by rewrite Z.mul_1_l|]. apply wpp_ret. split; [|done]. apply (fold_twice 32 64); lia.
Qed.

Lemma mem_checksums_are_ones_sums_witness :
  let s := bytes_at 1 [255; 255; 1; 0; 9] in
  word_sum s 2 1 2 + 9 = 65545 ∧ ∃ r, mem_checksum16_simple 1 5 s = Ok (r, s) ∧ ones_sum 16 65545 r.
Proof.
  split; [by vm_compute|].
  refine (proj1 (proj2 (mem_checksums_are_ones_sums 1 5 (bytes_at 1 [255; 255; 1; 0; 9]) _ _ _)) _); on_bytes.
Defined.

(** [mem_reverse] reverses the bytes between two addresses, both included
    and given in either order; [memcpy_lsb_msb_transfer] copies a block with the
    bits of every byte in the opposite order, also onto itself. *)
Theorem mem_reverse_reverses a b dest src n s :
  wf s → live s (Z.min a b) (Z.max a b + 1 - Z.min a b) →
  0 ≤ n → live s src n → live s dest n → up_ok dest src n →
  (∃ s', mem_reverse a b s = Ok (tt, s') ∧
     ∀ x, s' !! x = if decide (Z.min a b ≤ x ≤ Z.max a b) then s !! (a + b - x) else s !! x) ∧
  (∃ s', memcpy_lsb_msb_transfer dest src n s = Ok (dest + n, s') ∧ writes s s' dest n ∧
     ∀ i j, 0 ≤ i < n → 0 ≤ j < 8 → Z.testbit (s' !!! (dest + i)) j = Z.testbit (s !!! (src + i)) (7 - j)).
Proof.
  intros Hs Hl Hn Hsrc Hdst Hu. split; apply wpp_result.
  - unfold mem_reverse. zcase as H1; [|zcase as H2].
    + rewrite Z.min_l, Z.max_r in * by lia. by apply mem_reverse_simple_ok.
    + rewrite Z.min_r, Z.max_l in * by lia. apply mem_reverse_simple_ok; [done|done|]. intros s' F. split; [done|]. by rewrite (Z.add_comm a b).
    + replace b with a by lia. rewrite Z.min_id, Z.max_id. apply wpp_ret. split; [done|]. intros x. case_decide; [|done]. f_equal. lia.
  - apply memcpy_lsb_msb_transfer_ok; try done. intros s' W B. split_and!; [done|done|]. intros i j Hi Hj. rewrite B by done.
    pose proof (mem_lsb_msb_transfer_ok _ (wf_total s (src + i) Hs)) as H. apply andb_true_iff in H as [_ H].
    rewrite forallb_forall in H. specialize (H (Z.to_nat j)). rewrite Z2Nat.id in H by lia. apply eqb_prop, H, in_seq. lia.
Qed.

Lemma mem_reverse_reverses_witness :
  let s := bytes_at 1 [1; 2; 3; 4; 5] in
  ∃ s', mem_reverse 4 1 s = Ok (tt, s') ∧ ∀ x, s' !! x = if decide (1 ≤ x ≤ 4) then s !! (5 - x) else s !! x.
Proof.
  refine (proj1 (mem_reverse_reverses 4 1 1 1 2 (bytes_at 1 [1; 2; 3; 4; 5]) _ _ _ _ _ _));
    first [on_bytes|unfold up_ok; on_bytes].
Defined.
