(* ===== verification/TextNum.v ===== *)
(** TextNum: numbers from and to text, src/lib/text.c.

    A string is a run of bytes of the store that ends with a zero byte, a
    function that parses one returns the value and where it stopped ([*last]). *)
From S2P Require Import Prelude Memory Bignum MemOps.

(** Loops over a string: no string is longer than the store. *)
Definition text_fuel (s : mem) : nat := S (size s).
Definition tloop {X R} (body : X → prog mem (X + R)) (x : X) : prog mem R := λ s, ploop (text_fuel s) body x s.

(** ** Digits *)

Definition VALUE_CHAR_MAP_UPPERCASE : list Z := [48; 49; 50; 51; 52; 53; 54; 55; 56; 57; 65; 66; 67; 68; 69; 70].
Definition VALUE_CHAR_MAP_LOWERCASE : list Z := [48; 49; 50; 51; 52; 53; 54; 55; 56; 57; 97; 98; 99; 100; 101; 102].

Definition char2value (c : Z) : Z :=
  if (48 <=? c) && (c <=? 57) then c - 48
  else if (97 <=? c) && (c <=? 122) then c - 97 + 10
  else if (65 <=? c) && (c <=? 90) then c - 65 + 10
  else - EINVAL.
Definition value2char_uppercase (value : Z) : cres Z := load VALUE_CHAR_MAP_UPPERCASE value.
Definition value2char_lowercase (value : Z) : cres Z := load VALUE_CHAR_MAP_LOWERCASE value.
Definition text2byte (text : Z) : prog mem Z :=
  h ← rd text;
  l ← rd (text + 1);
  mret (Z.lor (Z.shiftl (char2value h) 4) (char2value l)).

(** ** Parsing *)

(** [prefix_end = 0]: no end given.  The result is the base (or an error) and [*last]. *)
Definition prefix2base (prefix prefix_end base : Z) : prog mem (Z * Z) :=
  let last := prefix in
  c ← (if negb (prefix_end =? 0) && (prefix_end <=? prefix + 1) then mret 0 else rd prefix);
  if negb (c =? 48) then mret (if 0 <? base then base else 10, last)
  else
    let prefix := prefix + 1 in
    c ← rd prefix;
    if (c =? 98) || (c =? 66) then
      if 11 <? base then mret (base, last) else mret (2, prefix + 1)
    else if (c =? 100) || (c =? 68) then
      if 13 <? base then mret (base, last) else mret (10, prefix + 1)
    else if c =? 46 then mret (10, prefix)
    else if (c =? 120) || (c =? 88) then mret (16, prefix + 1)
    else if (c =? 111) || (c =? 79) then mret (8, prefix + 1)
    else if (48 <=? c) && (c <=? 55) then
      if 8 <? base then mret (base, last) else mret (8, prefix)
    else if c =? 0 then mret (10, last)
    else if 0 <? base then mret (base, last) else mret (- EINVAL, last).
Definition prefix2base2 (prefix base : Z) : prog mem (Z * Z) := prefix2base prefix 0 base.

Definition text2value_unsigned (text base : Z) : prog mem (Z * Z) :=
  if text =? 0 then mret (0, text)
  else
    '(base, text) ← prefix2base2 text base;
    if base <? 0 then mret (0, text)
    else
      tloop (λ '(value, text),
        c ← rd text;
        if c =? 0 then mret (inr (value, text))
        else
          let tmp := char2value c in
          if (tmp <? 0) || (base <=? tmp) then mret (inr (value, text))
          else mret (inl (u64 (value * base + tmp), text + 1))) (0, text).

Definition text2value (text base : Z) : prog mem (Z * Z) :=
  if text =? 0 then mret (0, 0)
  else
    c ← rd text;
    if c =? 45 then '(v, last) ← text2value_unsigned (text + 1) base; mret (s64 (- v), last)
    else '(v, last) ← text2value_unsigned text base; mret (s64 v, last).

Definition text2ulong (text text_end base : Z) : prog mem Z :=
  ploop (bytes_fuel (text_end - text)) (λ '(value, text),
    if text <? text_end then
      c ← rd text;
      let bit := char2value c in
      if (bit <? 0) || (base <=? bit) then mret (inr value)
      else mret (inl (u64 (value * base + bit), text + 1))
    else mret (inr value)) (0, text).
Definition text2long (text text_end base : Z) : prog mem Z :=
  neg ← (if text <? text_end then c ← rd text; mret (c =? 45) else mret false);
  if neg : bool then v ← text2ulong (text + 1) text_end base; mret (s64 (- v))
  else v ← text2ulong text text_end base; mret (s64 v).

(** ** Printing *)

(** The six loops [reverse_value2text_*]: digits from the low end. *)
Definition reverse_digits (digit : Z → cres Z) (next : Z → cres Z) (value buff size : Z) : prog mem Z :=
  let buff_end := buff + size - 1 in
  '(buff, _) ← while (bytes_fuel size) (λ '(buff, value), (buff <? buff_end) && negb (value =? 0)) (λ '(buff, value),
    c ← lift (digit value);
    wr buff c;;
    value ← lift (next value);
    mret (buff + 1, value)) (buff, value);
  wr buff 0;;
  mret buff.
Definition reverse_value2text_base2 := reverse_digits (λ v, Ok (Z.land v 0x01 + 48)) (λ v, Ok (Z.shiftr v 1)).
Definition reverse_value2text_base4 := reverse_digits (λ v, Ok (Z.land v 0x03 + 48)) (λ v, Ok (Z.shiftr v 2)).
Definition reverse_value2text_base8 := reverse_digits (λ v, Ok (Z.land v 0x07 + 48)) (λ v, Ok (Z.shiftr v 3)).
Definition reverse_value2text_base16 := reverse_digits (λ v, value2char_uppercase (Z.land v 0x0F)) (λ v, Ok (Z.shiftr v 4)).
Definition reverse_value2text_base32 := reverse_digits (λ v, value2char_uppercase (Z.land v 0x1F)) (λ v, Ok (Z.shiftr v 5)).
Definition reverse_value2text_all (value buff size base : Z) : prog mem Z :=
  reverse_digits
    (λ v, if base =? 0 then Undef else value2char_uppercase (swrap 32 (v mod u64 base)))
    (λ v, if base =? 0 then Undef else Ok (v / u64 base)) value buff size.

Definition value2text_reverse_simple (value buff size base : Z) : prog mem Z :=
  if value =? 0 then wrw 2 buff 0x0030;; mret (buff + 1)
  else if base =? 2 then reverse_value2text_base2 value buff size
  else if base =? 4 then reverse_value2text_base4 value buff size
  else if base =? 8 then reverse_value2text_base8 value buff size
  else if base =? 16 then reverse_value2text_base16 value buff size
  else if base =? 32 then reverse_value2text_base32 value buff size
  else reverse_value2text_all value buff size base.

Definition value2text_unsigned_simple (value buff size base : Z) : prog mem Z :=
  tail ← value2text_reverse_simple value buff size base;
  mem_reverse_simple buff (tail - 1);;
  mret tail.

(** Negating the least 64-bit integer is undefined. *)
Definition value2text_simple (value buff size base : Z) : prog mem Z :=
  if (value <? 0) && (base =? 10) then
    wr buff 45;;
    if value =? - 2 ^ 63 then undefined
    else value2text_unsigned_simple (- value) (buff + 1) (u64 (size - 1)) 10
  else value2text_unsigned_simple (u64 value) buff size base.

Definition base2prefix (base prefix : Z) : prog mem Z :=
  prefix ← (if base =? 2 then wrw 2 prefix 0x4230;; mret (prefix + 2)
            else if base =? 8 then wr prefix 48;; mret (prefix + 1)
            else if base =? 10 then wrw 2 prefix 0x4430;; mret (prefix + 2)
            else if base =? 16 then wrw 2 prefix 0x7830;; mret (prefix + 2)
            else mret prefix);
  wr prefix 0;;
  mret prefix.

Definition base2prefix_reverse (text size base : Z) : prog mem Z :=
  if size <? 2 then
    (if negb (size =? 0) then wr text 0 else mret tt);;
    mret text
  else
    text ← (if base =? 2 then wrw 2 text 0x3042;; mret (text + 2)
            else if base =? 8 then wr text 48;; mret (text + 1)
            else if base =? 10 then wrw 2 text 0x3044;; mret (text + 2)
            else if base =? 16 then wrw 2 text 0x3078;; mret (text + 2)
            else mret text);
    wr text 0;;
    mret text.

(** ** Rules *)


Lemma live_size s p n : 0 ≤ n → live s p n → n ≤ Z.of_nat (size s).
Proof.
  intros Hn Hl. assert ((list_to_set (seqZ p n) : gset Z) ⊆ dom s) as Hsub.
  { intros a Ha. apply elem_of_list_to_set, elem_of_seqZ in Ha. apply elem_of_dom, Hl. lia. }
  apply subseteq_size in Hsub. rewrite size_list_to_set, size_dom, length_seqZ in Hsub by apply NoDup_seqZ. lia.
Qed.

Lemma wpp_tloop {X R} (I : nat → X → mem → Prop) (Q : R → mem → Prop) (body : X → prog mem (X + R)) n x s :
  (∀ n x s, I n x s → wpp (body x) s (λ r s',
    match r with inl x' => ∃ m, (m < n)%nat ∧ I m x' s' | inr y => Q y s' end)) →
  I n x s → (n ≤ size s)%nat → wpp (tloop body x) s Q.
Proof. intros Hb HI Hn. apply (wpp_ploop I Q body Hb _ n); [done|unfold text_fuel; lia]. Qed.

(** ** Digits *)

Definition digit_char (d : Z) : Z := get VALUE_CHAR_MAP_UPPERCASE d.

Lemma digit_char_ok d :
  0 ≤ d < 16 →
  value2char_uppercase d = Ok (digit_char d) ∧ char2value (digit_char d) = d ∧ 48 ≤ digit_char d ≤ 70 ∧
  (digit_char d = 48 ↔ d = 0) ∧ (d < 10 → digit_char d = d + 48).
Proof.
  intros Hd.
  pose proof (check_below_ok 16 (λ d, (char2value (digit_char d) =? d) && (48 <=? digit_char d) && (digit_char d <=? 70) &&
    Bool.eqb (digit_char d =? 48) (d =? 0) && (negb (d <? 10) || (digit_char d =? d + 48))) d ltac:(by vm_compute) Hd) as H.
  apply andb_true_iff in H as [[[[H1%Z.eqb_eq H2%Z.leb_le]%andb_true_iff H3%Z.leb_le]%andb_true_iff H4%eqb_prop]%andb_true_iff H5].
  split; [by apply load_in|]. split_and!; try done.
  - rewrite <-Z.eqb_eq, H4, Z.eqb_eq. done.
  - intros Hlt. rewrite (proj2 (Z.ltb_lt d 10)) in H5 by done. by apply Z.eqb_eq.
Qed.

(** Digits of [v] in a base: [n] of them, the first is not zero. *)
Record digits (base v n : Z) : Prop := {
  digits_pos : 1 ≤ n;
  digits_low : base ^ (n - 1) ≤ v;
  digits_high : v < base ^ n;
}.

Lemma digits_64 base v n : 2 ≤ base → v < 2 ^ 64 → digits base v n → n ≤ 64.
Proof.
  intros Hb Hv [H1 H2 _]. destruct (Z.le_gt_cases n 64); [done|].
  pose proof (Z.pow_le_mono_l 2 base (n - 1) ltac:(lia)). pose proof (Z.pow_le_mono_r 2 64 (n - 1) ltac:(lia) ltac:(lia)). lia.
Qed.
Lemma digits_top base v n : 2 ≤ base → digits base v n → 1 ≤ v / base ^ (n - 1) < base.
Proof.
  intros Hb [H1 H2 H3]. pose proof (Z.pow_pos_nonneg base (n - 1) ltac:(lia) ltac:(lia)).
  split; [by apply Z.div_le_lower_bound; lia|]. apply Z.div_lt_upper_bound; [lia|].
  replace (base ^ (n - 1) * base) with (base ^ n); [done|]. rewrite Z.mul_comm, <-Z.pow_succ_r by lia. f_equal. lia.
Qed.

Lemma div_pow_next v base k : 0 < base → 0 ≤ k → v / base ^ k / base = v / base ^ (k + 1).
Proof.
  intros Hb Hk. pose proof (Z.pow_pos_nonneg base k Hb Hk). rewrite Z.div_div by lia. f_equal.
  rewrite Z.pow_add_r by lia. lia.
Qed.

(** What the printing loop leaves. *)
Definition printed_reverse (s s' : mem) (base v buff n : Z) : Prop :=
  writes s s' buff (n + 1) ∧ s' !!! (buff + n) = 0 ∧ ∀ i, 0 ≤ i < n → s' !!! (buff + i) = digit_char (v / base ^ i mod base).
Definition printed (s s' : mem) (base v buff n : Z) : Prop :=
  writes s s' buff (n + 1) ∧ s' !!! (buff + n) = 0 ∧
  ∀ i, 0 ≤ i < n → s' !!! (buff + i) = digit_char (v / base ^ (n - 1 - i) mod base).

Section reverse.
Variables (digit next : Z → cres Z) (base : Z).
Hypothesis base_range : 2 ≤ base ≤ 16.
Hypothesis digit_ok : ∀ v, 0 ≤ v < 2 ^ 64 → digit v = Ok (digit_char (v mod base)).
Hypothesis next_ok : ∀ v, 0 ≤ v < 2 ^ 64 → next v = Ok (v / base).

Lemma reverse_digits_ok v buff size s (Q : Z → mem → Prop) :
  0 < v < 2 ^ 64 → 65 ≤ size → wf s → live s buff 65 →
  (∀ n s', digits base v n → printed_reverse s s' base v buff n → Q (buff + n) s') →
  wpp (reverse_digits digit next v buff size) s Q.
Proof.
  intros Hv Hsize Hs Hl HQ. unfold reverse_digits. cbv zeta. apply wpp_bind.
  apply (wpp_while (λ k x s', x = (buff + k, v / base ^ k) ∧ k ≤ 64 ∧ (k = 0 ∨ base ^ (k - 1) ≤ v) ∧ writes s s' buff k ∧
    ∀ i, 0 ≤ i < k → s' !!! (buff + i) = digit_char (v / base ^ i mod base)) 64);
    [|split_and!; [rewrite Z.add_0_r, Z.pow_0_r, Z.div_1_r; done|lia|by left|by apply writes_refl|lia]|unfold bytes_fuel; lia|lia].
  intros k x s1 Hk (-> & Hk64 & Hlow & W & B). pose proof (Z.pow_pos_nonneg base k ltac:(lia) Hk) as Hp.
  pose proof (Z.div_pos v (base ^ k) ltac:(lia) ltac:(lia)). assert (v / base ^ k ≤ v) by (apply Z.div_le_upper_bound; nia).
  destruct (Z.eqb_spec (v / base ^ k) 0) as [E|E].
  - rewrite andb_false_r. assert (v < base ^ k) as Hhigh by (apply Z.div_small_iff in E; lia).
    assert (k ≠ 0) as Hk0 by (intros ->; rewrite Z.pow_0_r in Hhigh; lia).
    assert (is_Some (s !! (buff + k))) as Hlk by (apply Hl; lia). destruct (writes_next s s1 buff k 0) as [W' _]; [done|done|done|].
    apply wpp_bind, wpp_wr; [by apply (writes_dom _ _ _ _ W)|]. apply wpp_ret, HQ.
    + split; [lia| |done]. destruct Hlow; [lia|done].
    + split; [done|]. split; [by rewrite lookup_total_insert_eq|]. intros i Hi. rewrite lookup_total_insert_ne by lia. by apply B.
  - assert (base ^ k ≤ v) as Hge by (destruct (Z.le_gt_cases (base ^ k) v); [done|rewrite Z.div_small in E by lia; done]).
    assert (k < 64) as Hk63.
    { destruct (Z.lt_ge_cases k 64); [done|]. pose proof (Z.pow_le_mono_l 2 base k ltac:(lia)). pose proof (Z.pow_le_mono_r 2 64 k ltac:(lia) ltac:(lia)). lia. }
    rewrite (proj2 (Z.ltb_lt _ _)) by lia. cbn [andb negb]. split; [done|].
    assert (is_Some (s !! (buff + k))) as Hlk by (apply Hl; lia).
    pose proof (Z.mod_pos_bound (v / base ^ k) base ltac:(lia)) as Hm. destruct (digit_char_ok (v / base ^ k mod base) ltac:(lia)) as (_ & _ & Hc & _).
    destruct (writes_next s s1 buff k (digit_char (v / base ^ k mod base))) as [W' _]; [done|done|done|].
    apply wpp_bind. eapply wpp_lift; [apply digit_ok; lia|]. apply wpp_bind, wpp_wr; [by apply (writes_dom _ _ _ _ W)|].
    apply wpp_bind. eapply wpp_lift; [apply next_ok; lia|]. apply wpp_ret.
    split_and!; [apply (f_equal2 pair); [lia|by apply div_pow_next; lia]|lia|right; by replace (k + 1 - 1) with k by lia|done|].
    intros i Hi. destruct (Z.eq_dec i k) as [->|].
    + rewrite lookup_total_insert_eq. apply u8_id. split; lia.
    + rewrite lookup_total_insert_ne by lia. apply B. lia.
Qed.
End reverse.

Lemma land_ones_digit v k : 0 ≤ k → Z.land v (Z.ones k) = v mod 2 ^ k.
Proof. intros Hk. by apply Z.land_ones. Qed.
Lemma digit_plus d : 0 ≤ d < 10 → Ok (d + 48) = Ok (digit_char d).
Proof. intros Hd. f_equal. destruct (digit_char_ok d ltac:(lia)) as (_ & _ & _ & _ & H). symmetry. apply H. lia. Qed.

Lemma value2text_reverse_simple_ok base v buff size s (Q : Z → mem → Prop) :
  2 ≤ base ≤ 16 → 0 < v < 2 ^ 64 → 65 ≤ size → wf s → live s buff 65 →
  (∀ n s', digits base v n → printed_reverse s s' base v buff n → Q (buff + n) s') →
  wpp (value2text_reverse_simple v buff size base) s Q.
Proof.
  intros Hb Hv Hsize Hs Hl HQ. unfold value2text_reverse_simple. rewrite (proj2 (Z.eqb_neq v 0)) by lia.
  assert (∀ k v, 0 ≤ k → Z.shiftr v k = v / 2 ^ k) as Hsh by (intros; by apply Z.shiftr_div_pow2).
  destruct (Z.eqb_spec base 2) as [->|]; [|destruct (Z.eqb_spec base 4) as [->|]; [|destruct (Z.eqb_spec base 8) as [->|];
    [|destruct (Z.eqb_spec base 16) as [->|]; [|destruct (Z.eqb_spec base 32) as [->|]; [lia|]]]]].
  - apply (reverse_digits_ok _ _ 2); try done; intros x Hx; [|by rewrite Hsh].
    cbv beta. change (Z.land x 1) with (Z.land x (Z.ones 1)). rewrite land_ones_digit by lia. apply digit_plus. pose proof (Z.mod_pos_bound x 2). lia.
  - apply (reverse_digits_ok _ _ 4); try done; intros x Hx; [|by rewrite Hsh].
    cbv beta. change (Z.land x 3) with (Z.land x (Z.ones 2)). rewrite land_ones_digit by lia. apply digit_plus. pose proof (Z.mod_pos_bound x 4). lia.
  - apply (reverse_digits_ok _ _ 8); try done; intros x Hx; [|by rewrite Hsh].
    cbv beta. change (Z.land x 7) with (Z.land x (Z.ones 3)). rewrite land_ones_digit by lia. apply digit_plus. pose proof (Z.mod_pos_bound x 8). lia.
  - apply (reverse_digits_ok _ _ 16); try done; intros x Hx; [|by rewrite Hsh].
    cbv beta. change (Z.land x 15) with (Z.land x (Z.ones 4)). rewrite land_ones_digit by lia. apply digit_char_ok. apply Z.mod_pos_bound. lia.
  - assert (u64 base = base) as Eb by (apply wrap_small; lia). unfold reverse_value2text_all.
    apply (reverse_digits_ok _ _ base); try done; intros x Hx; rewrite (proj2 (Z.eqb_neq base 0)), Eb by lia; [|done].
    pose proof (Z.mod_pos_bound x base ltac:(lia)). rewrite swrap_small by lia. apply digit_char_ok. lia.
Qed.

(** Reversing the digits puts the first one first. *)
Lemma printed_of_reverse s s1 s2 base v buff n :
  1 ≤ n → wf s → live s buff (n + 1) → printed_reverse s s1 base v buff n →
  (∀ a, s2 !! a = if decide (buff ≤ a ≤ buff + n - 1) then s1 !! (buff + (buff + n - 1) - a) else s1 !! a) →
  printed s s2 base v buff n.
Proof.
  intros Hn Hs Hl (W & Z0 & B) F. split; [split|split].
  - intros a Ha. rewrite F, decide_False by lia. apply (writes_out _ _ _ _ W). lia.
  - intros a. rewrite F. case_decide; [|apply (writes_dom _ _ _ _ W)].
    rewrite <-(writes_dom _ _ _ _ W). split; intros _; apply Hl; lia.
  - intros a b. rewrite F. case_decide; apply (writes_wf _ _ _ _ W).
  - rewrite lookup_total_alt, F, decide_False by lia. by rewrite <-lookup_total_alt.
  - intros i Hi. rewrite lookup_total_alt, F, decide_True by lia. rewrite <-lookup_total_alt.
    replace (buff + (buff + n - 1) - (buff + i)) with (buff + (n - 1 - i)) by lia. apply B. lia.
Qed.

Lemma value2text_unsigned_simple_ok base v buff size s (Q : Z → mem → Prop) :
  2 ≤ base ≤ 16 → 0 < v < 2 ^ 64 → 65 ≤ size → wf s → live s buff 65 →
  (∀ n s', digits base v n → printed s s' base v buff n → Q (buff + n) s') →
  wpp (value2text_unsigned_simple v buff size base) s Q.
Proof.
  intros Hb Hv Hsize Hs Hl HQ. unfold value2text_unsigned_simple.
  apply wpp_bind, value2text_reverse_simple_ok; try done. intros n s1 D P. pose proof (digits_64 _ _ _ (proj1 Hb) (proj2 Hv) D).
  pose proof (digits_pos _ _ _ D). pose proof P as (W & _).
  apply wpp_bind, mem_reverse_simple_ok; [apply W|eapply writes_live; [exact W|]; eapply live_le; [exact Hl|lia..]|].
  intros s2 F. apply wpp_ret, HQ; [done|]. eapply printed_of_reverse; try done. eapply live_le; [exact Hl|lia..].
Qed.

(** Zero is the digit zero. *)
Lemma value2text_unsigned_simple_0 base buff size s (Q : Z → mem → Prop) :
  0 < base → wf s → live s buff 2 → (∀ s', printed s s' base 0 buff 1 → Q (buff + 1) s') →
  wpp (value2text_unsigned_simple 0 buff size base) s Q.
Proof.
  intros Hb Hs Hl HQ. unfold value2text_unsigned_simple, value2text_reverse_simple. cbn [Z.eqb]. change (0 =? 0) with true. cbv iota.
  assert (is_Some (s !! buff)) as L0 by (apply Hl; lia). assert (is_Some (s !! (buff + 1))) as L1 by (apply Hl; lia).
  apply wpp_bind, wpp_bind. cbn [wrw]. apply wpp_bind, wpp_wr; [done|]. apply wpp_bind, wpp_wr; [rewrite lookup_insert; case_decide; [by eexists|done]|].
  apply wpp_ret, wpp_ret. set (s1 := <[buff + 1 := _]> _).
  assert (writes s s1 buff 2 ∧ s1 !!! (buff + 1) = 0 ∧ s1 !!! buff = 48) as (W & E1 & E0).
  { unfold s1. split_and!; [apply writes_insert; [apply writes_insert; [by apply writes_refl|lia|done|apply u8_byte]|lia|done|apply u8_byte]| |].
    - by rewrite lookup_total_insert_eq.
    - by rewrite lookup_total_insert_ne, lookup_total_insert_eq by lia. }
  apply wpp_bind, mem_reverse_simple_ok; [apply W|eapply writes_live; [exact W|]; eapply live_le; [exact Hl|lia..]|].
  intros s2 F. apply wpp_ret, HQ. apply (printed_of_reverse s s1); [lia|done|done| |done].
  split; [done|]. split; [done|]. intros i Hi. replace i with 0 by lia. rewrite Z.add_0_r, E0, Z.pow_0_r. by rewrite Z.div_1_r, Z.mod_0_l by lia.
Qed.

(** ** Parsing what was printed *)

(** [n] digits of [v] and the end of the string at [p]. *)
Record numeral (s : mem) (base v p n : Z) : Prop := {
  numeral_len : 1 ≤ n;
  numeral_range : 0 ≤ v < base ^ n;
  numeral_live : live s p (n + 1);
  numeral_end : s !!! (p + n) = 0;
  numeral_digit : ∀ i, 0 ≤ i < n → s !!! (p + i) = digit_char (v / base ^ (n - 1 - i) mod base);
}.

Lemma numeral_char s base v p n i :
  2 ≤ base ≤ 16 → numeral s base v p n → 0 ≤ i < n →
  let d := v / base ^ (n - 1 - i) mod base in
  s !! (p + i) = Some (digit_char d) ∧ 0 ≤ d < base ∧ char2value (digit_char d) = d ∧ 48 ≤ digit_char d ≤ 70 ∧ (digit_char d = 48 ↔ d = 0).
Proof.
  intros Hb [Hn Hv Hl He Hd] Hi d. pose proof (Z.mod_pos_bound (v / base ^ (n - 1 - i)) base ltac:(lia)) as Hm. fold d in Hm.
  destruct (digit_char_ok d ltac:(lia)) as (_ & H1 & H2 & H3 & _). split; [|done].
  rewrite (lookup_live s p (n + 1)) by (done || lia). f_equal. by apply Hd.
Qed.

Lemma digits_loop_ok base v p n s (Q : Z * Z → mem → Prop) :
  2 ≤ base ≤ 16 → v < 2 ^ 64 → numeral s base v p n → Q (v, p + n) s →
  wpp (tloop (λ '(value, text),
        c ← rd text;
        if c =? 0 then mret (inr (value, text))
        else
          let tmp := char2value c in
          if (tmp <? 0) || (base <=? tmp) then mret (inr (value, text))
          else mret (inl (u64 (value * base + tmp), text + 1))) (0, p)) s Q.
Proof.
  intros Hb Hv N HQ. pose proof N as [Hn Hr Hl He _]. pose proof (live_size s p (n + 1) ltac:(lia) Hl).
  apply (wpp_tloop (λ m x s', ∃ k, 0 ≤ k ≤ n ∧ m = Z.to_nat (n - k) ∧ x = (v / base ^ (n - k), p + k) ∧ s' = s) _ _ (Z.to_nat n)); [| |lia].
  2:{ exists 0. rewrite Z.sub_0_r, Z.add_0_r, Z.div_small by done. split_and!; [lia|lia|done|done|done]. }
  intros m x s1 (k & Hk & -> & -> & ->). destruct (Z.eq_dec k n) as [->|Hkn].
  - apply wpp_bind. eapply wpp_rd; [apply (lookup_live s p (n + 1)); [done|lia]|]. rewrite He. cbn [Z.eqb]. change (0 =? 0) with true. cbv iota.
    apply wpp_ret. by rewrite Z.sub_diag, Z.pow_0_r, Z.div_1_r.
  - destruct (numeral_char s base v p n k Hb N ltac:(lia)) as (E & Hd & Hc & Hr1 & _). set (d := v / base ^ (n - 1 - k) mod base) in *.
    apply wpp_bind. eapply wpp_rd; [exact E|]. rewrite (proj2 (Z.eqb_neq _ 0)) by lia. cbv zeta. rewrite Hc.
    rewrite (proj2 (Z.ltb_ge d 0)), (proj2 (Z.leb_gt base d)) by lia. cbn [orb]. apply wpp_ret.
    pose proof (Z.pow_pos_nonneg base (n - 1 - k) ltac:(lia) ltac:(lia)).
    assert (v / base ^ (n - k) * base + d = v / base ^ (n - (k + 1))) as ->.
    { replace (n - k) with (n - 1 - k + 1) by lia. rewrite <-div_pow_next by lia. replace (n - (k + 1)) with (n - 1 - k) by lia.
      unfold d. rewrite (Z.mul_comm _ base), <-Z.div_mod by lia. done. }
    replace (n - (k + 1)) with (n - 1 - k) by lia.
    assert (0 ≤ v / base ^ (n - 1 - k) ≤ v) by (split; [apply Z.div_pos; lia|apply Z.div_le_upper_bound; nia]).
    rewrite wrap_small by lia. exists (Z.to_nat (n - (k + 1))). split; [lia|]. exists (k + 1).
    split_and!; [lia|lia|lia| |done]. apply (f_equal2 pair); [do 2 f_equal; lia|lia].
Qed.

Lemma text2value_unsigned_ok base v p n s (Q : Z * Z → mem → Prop) :
  2 ≤ base ≤ 16 → v < 2 ^ 64 → p ≠ 0 → digits base v n ∨ v = 0 ∧ n = 1 → numeral s base v p n →
  Q (v, p + n) s → wpp (text2value_unsigned p base) s Q.
Proof.
  intros Hb Hv Hp Hd N HQ. unfold text2value_unsigned. rewrite (proj2 (Z.eqb_neq p 0)) by done.
  destruct (numeral_char s base v p n 0 Hb N) as (E & Hr & Hc & Hr1 & Hz); [pose proof (numeral_len _ _ _ _ _ N); lia|].
  rewrite Z.add_0_r in E. rewrite Z.sub_0_r in *. set (d := v / base ^ (n - 1) mod base) in *.
  apply wpp_bind. unfold prefix2base2, prefix2base. cbn [Z.eqb negb andb]. change (0 =? 0) with true. cbn [negb andb].
  apply wpp_bind. eapply wpp_rd; [exact E|]. destruct Hd as [D|[-> ->]].
  - pose proof (digits_top _ _ _ (proj1 Hb) D). assert (d ≠ 0) by (unfold d; rewrite Z.mod_small by lia; lia).
    rewrite (proj2 (Z.eqb_neq (digit_char d) 48)) by tauto. cbn [negb]. apply wpp_ret.
    rewrite (proj2 (Z.ltb_lt 0 base)), (proj2 (Z.ltb_ge base 0)) by lia. by apply (digits_loop_ok base v p n).
  - assert (d = 0) as Ed by (unfold d; rewrite Z.div_0_l, Z.mod_0_l by lia; done). rewrite (proj2 Hz Ed). cbn [Z.eqb]. change (48 =? 48) with true. cbn [negb].
    apply wpp_bind. eapply wpp_rd; [apply (lookup_live s p 2); [apply N|lia]|]. rewrite (numeral_end _ _ _ _ _ N).
    apply wpp_ret. apply (digits_loop_ok 10 0 p 1); [lia|lia| |done].
    destruct N as [N1 N2 N3 N4 N5]. split; [done|lia|done|done|]. intros i Hi. rewrite N5 by done. by rewrite !Z.div_0_l, !Z.mod_0_l by lia.
Qed.

Lemma printed_numeral s s' base v p n :
  0 < base → wf s → live s p (n + 1) → digits base v n ∨ v = 0 ∧ n = 1 → printed s s' base v p n → numeral s' base v p n.
Proof.
  intros Hb Hs Hl Hd (W & E & B). split; [|..|done|done].
  - destruct Hd as [D|[-> ->]]; [apply D|lia].
  - destruct Hd as [[H1 H2 H3]|[-> ->]]; [|lia]. split; [|done]. pose proof (Z.pow_pos_nonneg base (n - 1) Hb ltac:(lia)). lia.
  - by eapply writes_live.
Qed.

(** Printing, then parsing. *)
Lemma unsigned_round_trip base v buff size s (Q : Z → mem → Prop) :
  2 ≤ base ≤ 16 → 0 ≤ v < 2 ^ 64 → 65 ≤ size → wf s → live s buff 65 →
  (∀ n s', 1 ≤ n ≤ 64 → writes s s' buff (n + 1) → digits base v n ∨ v = 0 ∧ n = 1 → numeral s' base v buff n → Q (buff + n) s') →
  wpp (value2text_unsigned_simple v buff size base) s Q.
Proof.
  intros Hb Hv Hsize Hs Hl HQ. destruct (Z.eq_dec v 0) as [->|Hv0].
  - apply value2text_unsigned_simple_0; [lia|done|eapply live_le; [exact Hl|lia..]|]. intros s' P.
    apply HQ; [lia|apply P|by right|]. apply (printed_numeral s); [lia|done|eapply live_le; [exact Hl|lia..]|by right|done].
  - apply value2text_unsigned_simple_ok; [done|lia|done..|]. intros n s' D P. pose proof (digits_64 _ _ _ (proj1 Hb) (proj2 Hv) D).
    pose proof (digits_pos _ _ _ D). apply HQ; [lia|apply P|by left|].
    apply (printed_numeral s); [lia|done|eapply live_le; [exact Hl|lia..]|by left|done].
Qed.

(** ** Properties *)

(** C17: what [value2text_simple] prints, [text2value] reads back: for every
    base from 2 to 16 and every 64-bit integer (the least one needs a base
    other than ten, where its negation overflows), the string is read up to its
    end as the same number, the bases whose prefixes [prefix2base] looks for
    included. *)
Theorem value2text_text2value base v buff size s :
  2 ≤ base ≤ 16 → - 2 ^ 63 ≤ v < 2 ^ 63 → (base = 10 → v ≠ - 2 ^ 63) →
  66 ≤ size < 2 ^ 64 → 0 < buff → wf s → live s buff 66 →
  ∃ tail s', value2text_simple v buff size base s = Ok (tail, s') ∧
    buff < tail < buff + 66 ∧ s' !!! tail = 0 ∧ (∀ a, ¬ (buff ≤ a ≤ tail) → s' !! a = s !! a) ∧
    text2value buff base s' = Ok ((v, tail), s').
Proof.
  intros Hb Hv Hmin Hsize Hbuff Hs Hl.
  assert (wpp (value2text_simple v buff size base) s (λ tail s',
    buff < tail < buff + 66 ∧ s' !!! tail = 0 ∧ (∀ a, ¬ (buff ≤ a ≤ tail) → s' !! a = s !! a) ∧
    wpp (text2value buff base) s' (λ r s'', r = (v, tail) ∧ s'' = s'))) as (tail & s' & E & H1 & H2 & H3 & H4)%wpp_ok.
  2:{ exists tail, s'. split_and!; try done; try lia. apply wpp_ok in H4 as (r & s'' & E' & -> & ->). done. }
  unfold value2text_simple. destruct ((v <? 0) && (base =? 10)) eqn:Hneg.
  - apply andb_true_iff in Hneg as [Hneg%Z.ltb_lt ->%Z.eqb_eq]. assert (is_Some (s !! buff)) as L0 by (apply Hl; lia).
    apply wpp_bind, wpp_wr; [done|]. rewrite (proj2 (Z.eqb_neq _ _)) by auto. set (s1 := <[buff := u8 45]> s).
    assert (writes s s1 buff 1) as W1 by (apply writes_insert; [by apply writes_refl|lia|done|apply u8_byte]).
    assert (u64 (size - 1) = size - 1) as -> by (apply wrap_small; lia).
    apply unsigned_round_trip; [lia|lia|lia|apply W1|eapply writes_live; [exact W1|]; eapply live_le; [exact Hl|lia..]|].
    intros n s2 Hn W2 Hd N. assert (s2 !! buff = Some 45) as E2.
    { rewrite (writes_out _ _ _ _ W2) by lia. unfold s1. by rewrite lookup_insert_eq. }
    split_and!; [lia|lia|apply N| |].
    + intros a Ha. rewrite (writes_out _ _ _ _ W2), (writes_out _ _ _ _ W1) by lia. done.
    + unfold text2value. rewrite (proj2 (Z.eqb_neq buff 0)) by lia. apply wpp_bind. eapply wpp_rd; [exact E2|].
      change (45 =? 45) with true. cbv iota. apply wpp_bind, (text2value_unsigned_ok 10 (- v) (buff + 1) n); [lia|lia|lia|done|done|].
      apply wpp_ret. split; [|done]. apply (f_equal2 pair); [|lia]. rewrite Z.opp_involutive. apply swrap_small; lia.
  - set (w := u64 v). assert (0 ≤ w < 2 ^ 64) as Hw by (apply wrap_range; lia).
    apply unsigned_round_trip; [done|done|lia|done|eapply live_le; [exact Hl|lia..]|]. intros n s1 Hn W1 Hd N.
    split_and!; [lia|lia|apply N| |].
    + intros a Ha. apply (writes_out _ _ _ _ W1). lia.
    + destruct (numeral_char s1 base w buff n 0 Hb N ltac:(lia)) as (E & _ & _ & Hr & _). rewrite Z.add_0_r in E.
      unfold text2value. rewrite (proj2 (Z.eqb_neq buff 0)) by lia. apply wpp_bind. eapply wpp_rd; [exact E|].
      rewrite (proj2 (Z.eqb_neq _ 45)) by lia. apply wpp_bind, (text2value_unsigned_ok base w buff n); [done|lia|lia|done|done|].
      apply wpp_ret. split; [|done]. apply (f_equal2 pair); [|done]. unfold w. apply swrap_wrap; lia.
Qed.

Lemma value2text_text2value_witness :
  let s := bytes_at 1 (repeat 7 66) in
  ∃ tail s', value2text_simple (-1234) 1 66 10 s = Ok (tail, s') ∧ 1 < tail < 1 + 66 ∧ s' !!! tail = 0 ∧
    (∀ a, ¬ (1 ≤ a ≤ tail) → s' !! a = s !! a) ∧ text2value 1 10 s' = Ok ((-1234, tail), s').
Proof.
  refine (value2text_text2value 10 (-1234) 1 66 (bytes_at 1 (repeat 7 66)) _ _ _ _ _ _ _); on_bytes.
Defined.

(** In base 32 the digits past 15 are read past the end of the table. *)
Lemma base32_past_the_table : value2text_simple 31 1 66 32 (bytes_at 1 (repeat 7 66)) = Undef.
Proof. by vm_compute. Qed.
