(* ===== verification/BigText.v ===== *)
(** BigText: big numbers from and to text, src/lib/math.c. *)
From S2P Require Import Prelude Memory Bignum BigSub BigMul BigDiv MemOps TextNum.

Definition BYTE_IS_SPACE (b : Z) : bool := (b =? 32) || (b =? 9).

Definition math_text2memory (text p mem_size base : Z) : prog mem Z :=
  text ← tloop (λ text, c ← rd text; if BYTE_IS_SPACE c then mret (inl (text + 1)) else mret (inr text)) text;
  c ← rd text;
  let negative := c =? 45 in
  let text := if negative then text + 1 else text in
  mem_set p 0 mem_size;;
  '(base, text) ← prefix2base2 text base;
  if base <? 0 then mret text
  else
    text ← tloop (λ text,
      c ← rd text;
      let value := char2value c in
      if (value <? 0) || (base <=? value) then mret (inr text)
      else
        math_memory_mul_single p mem_size (u8 base) 0 0;;
        math_memory_add_single p mem_size (u8 value) 0 0;;
        mret (inl (text + 1))) text;
    (if negative then math_memory_complement p mem_size 0 0 else mret tt);;
    mret text.

(** The digits, from the low end, until the number is used up or the text full. *)
Definition memory_digits (buff base text text_end mem_size : Z) : prog mem Z :=
  '(text, _) ← while (bytes_fuel (text_end - text)) (λ '(text, mem_size), (text <? text_end) && negb (mem_size =? 0))
    (λ '(text, mem_size),
      '(value, n) ← math_memory_div_single buff mem_size (u8 base) 0 (Some mem_size);
      c ← lift (value2char_uppercase value);
      wr text c;;
      mret (text + 1, default mem_size n)) (text, mem_size);
  mret text.

Definition math_memory2text (garbage : Z → Z) (p mem_size text text_size base fill size : Z) : prog mem Z :=
  let base := if base <? 2 then 10 else base in
  with_block garbage mem_size (λ buff,
    negative ← (if (base =? 10) && (0 <? mem_size) then math_memory_is_negative p mem_size else mret false);
    (if negative : bool then math_memory_complement p mem_size buff mem_size
     else math_memory_copy buff mem_size p mem_size);;
    let text_bak := text in
    let text_end := text + text_size - 1 in
    text ← memory_digits buff base text text_end mem_size;
    text ← (if negb (fill =? 0) then
              let fill_end := text_bak + size in
              let fill_end := if text_end <? fill_end then text_end else fill_end in
              while (bytes_fuel (fill_end - text)) (λ text, text <? fill_end) (λ text, wr text fill;; mret (text + 1)) text
            else mret text);
    text ← (if negb (base =? 10) then base2prefix_reverse text (u64 (text_end - text)) base else mret text);
    text ← (if negative && (text <? text_end) then wr text 45;; mret (text + 1) else mret text);
    mem_reverse_simple text_bak (text - 1);;
    wr text 0;;
    mret text).

(** ** Printing *)

(** The prefixes, as they are written before the text is turned around. *)
Definition prefix_len (base : Z) : Z := if (base =? 2) || (base =? 16) then 2 else if base =? 8 then 1 else 0.
Definition prefix_char (base i : Z) : Z :=
  if base =? 8 then 48 else if i =? 0 then (if base =? 2 then 66 else 120) else 48.

Lemma base2prefix_reverse_ok base p size s (Q : Z → mem → Prop) :
  base ≠ 10 → 2 ≤ size → wf s → live s p 3 →
  (∀ s', writes s s' p (prefix_len base + 1) → (∀ i, 0 ≤ i < prefix_len base → s' !!! (p + i) = prefix_char base i) →
     Q (p + prefix_len base) s') →
  wpp (base2prefix_reverse p size base) s Q.
Proof.
  intros Hb Hsize Hs Hl HQ. unfold base2prefix_reverse. rewrite (proj2 (Z.ltb_ge size 2)) by done. cbn [wrw].
  assert (is_Some (s !! p)) as L0 by (apply Hl; lia). assert (is_Some (s !! (p + 1))) as L1 by (apply Hl; lia).
  assert (is_Some (s !! (p + 2))) as L2 by (apply Hl; lia).
  assert (∀ a b : Z, 0 ≤ a < 256 → 0 ≤ b < 256 → prefix_len base = 2 → prefix_char base 0 = a → prefix_char base 1 = b →
    wpp (wr p (a + 256 * b);; wr (p + 1) ((a + 256 * b) / 256);; mret tt) s
      (λ _ s', wpp (text ← mret (p + 2); wr text 0;; mret text) s' Q)) as H2.
  { intros a b Ha Hbb Hlen E0 E1. assert (u8 (a + 256 * b) = a) as Ea by (symmetry; apply (Z.mod_unique_pos _ _ b); lia).
    assert ((a + 256 * b) / 256 = b) as Eb by (symmetry; apply (Z.div_unique_pos _ _ _ a); lia).
    apply wpp_bind, wpp_wr; [done|]. rewrite Ea, Eb. apply wpp_bind, wpp_wr; [rewrite lookup_insert; case_decide; [by eexists|done]|].
    rewrite (u8_id b) by done. apply wpp_ret, wpp_bind, wpp_ret, wpp_bind, wpp_wr.
    { rewrite !lookup_insert_ne by lia. done. }
    apply wpp_ret. rewrite <-Hlen. apply HQ; rewrite Hlen.
    - apply writes_insert; [|lia|done|apply u8_byte]. apply writes_insert; [|lia|done|done].
      apply writes_insert; [by apply writes_refl|lia|done|done].
    - intros i Hi. destruct (Z.eq_dec i 0) as [->|].
      + by rewrite Z.add_0_r, !lookup_total_insert_ne, lookup_total_insert_eq by lia.
      + replace i with 1 by lia. by rewrite lookup_total_insert_ne, lookup_total_insert_eq by lia. }
  destruct (Z.eqb_spec base 2) as [->|]; [|destruct (Z.eqb_spec base 8) as [->|]; [|destruct (Z.eqb_spec base 10) as [|]; [done|destruct (Z.eqb_spec base 16) as [->|]]]].
  - apply wpp_bind, wpp_bind. eapply wpp_mono; [apply (H2 66 48); done|]. intros ? s' HH; exact HH.
  - apply wpp_bind, wpp_bind, wpp_wr; [done|]. apply wpp_ret, wpp_bind, wpp_wr; [rewrite lookup_insert_ne by lia; done|]. apply wpp_ret, HQ.
    + apply writes_insert; [|unfold prefix_len; simpl; lia|done|apply u8_byte]. apply writes_insert; [by apply writes_refl|unfold prefix_len; simpl; lia|done|apply u8_byte].
    + intros i Hi. unfold prefix_len in Hi. simpl in Hi. replace i with 0 by lia. by rewrite Z.add_0_r, lookup_total_insert_ne, lookup_total_insert_eq by lia.
  - apply wpp_bind, wpp_bind. eapply wpp_mono; [apply (H2 120 48); done|]. intros ? s' HH; exact HH.
  - assert (prefix_len base = 0) as Hlen.
    { unfold prefix_len. rewrite (proj2 (Z.eqb_neq base 2)), (proj2 (Z.eqb_neq base 16)), (proj2 (Z.eqb_neq base 8)) by done. done. }
    apply wpp_bind, wpp_ret, wpp_bind, wpp_wr; [done|]. apply wpp_ret.
    pose proof (HQ (<[p := u8 0]> s)) as HQ'. rewrite Hlen, Z.add_0_r in HQ'. apply HQ'; [|lia].
    apply writes_insert; [by apply writes_refl|lia|done|apply u8_byte].
Qed.

Lemma writes2_le s s' p n q m m' : writes2 s s' p n q m → m ≤ m' → writes2 s s' p n q m'.
Proof. intros [Ho Hd Hw] Hm. split; [|done|done]. intros a ??. apply Ho; lia. Qed.

Lemma digits_bits base V n m : 2 ≤ base → 0 ≤ m → V < 256 ^ m → base ^ n ≤ V → n < 8 * m.
Proof.
  intros Hb Hm HV Hn. destruct (Z.lt_ge_cases n (8 * m)) as [|Hge]; [done|].
  pose proof (Z.pow_le_mono_l 2 base n ltac:(lia)). pose proof (Z.pow_le_mono_r 2 (8 * m) n ltac:(lia) ltac:(lia)).
  rewrite Z.pow_mul_r in * by lia. change (2 ^ 8) with 256 in *. lia.
Qed.

Lemma memory_digits_ok buff base p size m s (Q : Z → mem → Prop) :
  2 ≤ base ≤ 16 → 0 < m → 8 * m ≤ size → wf s → live s buff m → live s p size → apart buff m p size →
  (∀ n s', digits base (val s buff m) n ∨ val s buff m = 0 ∧ n = 1 → n ≤ 8 * m → writes2 s s' buff m p n →
     (∀ i, 0 ≤ i < n → s' !!! (p + i) = digit_char (val s buff m / base ^ i mod base)) → Q (p + n) s') →
  wpp (memory_digits buff base p (p + size) m) s Q.
Proof.
  intros Hb Hm Hsize Hs Hlb Hlp Ha HQ. unfold memory_digits. apply wpp_bind. set (V := val s buff m) in *.
  pose proof (val_range s buff m Hs ltac:(lia)) as HV. fold V in HV.
  apply (wpp_while (λ k x s', ∃ mk, x = (p + k, mk) ∧ 0 ≤ mk ≤ m ∧ (k = 0 → mk = m) ∧ (k = 0 ∨ k = 1 ∨ base ^ (k - 1) ≤ V) ∧
    val s' buff mk = V / base ^ k ∧ (0 < k → 0 < mk → base ^ k ≤ V) ∧ writes2 s s' buff m p k ∧ k ≤ 8 * m ∧
    ∀ i, 0 ≤ i < k → s' !!! (p + i) = digit_char (V / base ^ i mod base)) (8 * m)); [| |unfold bytes_fuel; lia|lia].
  2:{ exists m. rewrite Z.add_0_r, Z.pow_0_r, Z.div_1_r. split_and!; [done|lia|lia|done|by left|done|lia|by apply writes2_refl|lia|lia]. }
  intros k x s1 Hk (mk & -> & Hmk & Hk0 & Hlow & EV & Hge & W & Hk8 & B). pose proof (writes2_wf _ _ _ _ _ _ W) as Hs1.
  pose proof (Z.pow_pos_nonneg base k ltac:(lia) Hk) as Hpk.
  destruct (Z.eqb_spec mk 0) as [->|Hmk0].
  - rewrite andb_false_r. apply wpp_ret. rewrite val_0 in EV by lia. symmetry in EV. apply Z.div_small_iff in EV; [|lia].
    assert (k ≠ 0) by (intros ->; specialize (Hk0 eq_refl); lia). apply HQ; [|done|done|done].
    destruct (Z.eq_dec V 0) as [->|HV0]; [right; split; [done|]|].
    { destruct Hlow as [|[|Hl]]; [lia|done|]. pose proof (Z.pow_pos_nonneg base (k - 1) ltac:(lia) ltac:(lia)). lia. }
    left. split; [lia| |lia]. destruct Hlow as [|[->|]]; [lia|rewrite Z.sub_diag, Z.pow_0_r; lia|done].
  - assert (k < 8 * m) as Hlt.
    { destruct (Z.eq_dec k 0); [lia|]. apply (digits_bits base V k m); [lia|lia|lia|apply Hge; lia]. }
    rewrite (proj2 (Z.ltb_lt _ _)) by lia. cbn [andb negb]. split; [done|].
    assert (u8 base = base) as Eb by (apply wrap_small; lia). rewrite Eb.
    apply wpp_bind, math_memory_div_single_ok; [done|lia|split; lia|lia|done|eapply writes2_live; [exact W|]; eapply live_le; [exact Hlb|lia..]|by right|].
    intros mk' s2 W2 V2 Sg. rewrite EV in *. pose proof (Z.mod_pos_bound (V / base ^ k) base ltac:(lia)) as Hd.
    destruct (digit_char_ok (V / base ^ k mod base) ltac:(lia)) as (E1 & _ & Hc & _).
    apply wpp_bind. eapply wpp_lift; [exact E1|].
    assert (is_Some (s !! (p + k))) as Hlk by (apply Hlp; lia).
    assert (writes2 s s2 buff m p (k + 1)) as W3.
    { eapply writes2_l; [eapply writes2_le; [exact W|lia]|]. eapply writes_le; [exact W2|lia..]. }
    apply wpp_bind, wpp_wr; [by apply (writes2_dom _ _ _ _ _ _ W3)|]. apply wpp_ret. exists mk'. cbn [default].
    set (c := digit_char (V / base ^ k mod base)) in *. pose proof (sig_range _ _ _ _ Sg) as Hmk'.
    assert (∀ j, j ≤ m → val (<[p + k:=u8 c]> s2) buff j = val s2 buff j) as Hval.
    { intros j Hj. apply val_ext. intros i Hi. rewrite lookup_total_insert_ne; [done|]. unfold apart in Ha. lia. }
    rewrite (sig_val _ _ _ _ Sg), div_pow_next in V2 by lia.
    split_and!; [apply (f_equal2 pair); [lia|done]|lia|lia|lia| |by rewrite Hval by lia| | |lia|].
    + right. destruct (Z.eq_dec k 0); [left; lia|]. right. replace (k + 1 - 1) with k by lia. apply Hge; lia.
    + intros _ Hpos. pose proof (sig_lower s2 buff mk mk' (writes_wf _ _ _ _ W2) Sg Hpos) as Hlo. rewrite V2 in Hlo.
      pose proof (pow_pos (mk' - 1) ltac:(lia)). pose proof (Z.pow_pos_nonneg base (k + 1) ltac:(lia) ltac:(lia)).
      destruct (Z.le_gt_cases (base ^ (k + 1)) V); [done|]. rewrite Z.div_small in Hlo by lia. lia.
    + split; [|intros a; rewrite (writes2_dom _ _ _ _ _ _ W3), lookup_insert; case_decide; [subst|done]|apply wf_insert, W2].
      * intros a ??. rewrite lookup_insert_ne by lia. by apply (writes2_out _ _ _ _ _ _ W3).
      * rewrite <-(writes2_dom _ _ _ _ _ _ W3). split; [by eexists|done].
    + intros i Hi. destruct (Z.eq_dec i k) as [->|].
      * rewrite lookup_total_insert_eq. apply u8_id. split; lia.
      * rewrite lookup_total_insert_ne by lia. rewrite (writes_total _ _ _ _ _ W2) by (unfold apart in Ha; lia). apply B. lia.
Qed.

(** The character at place [j] from the end of a printed number. *)
Definition from_end (base V n j : Z) : Z :=
  if j <? n then digit_char (V / base ^ j mod base)
  else if j <? n + prefix_len base then prefix_char base (j - n) else 45.
Definition text_length (base n : Z) (negative : bool) : Z := n + prefix_len base + (if negative then 1 else 0).

(** A printed number at [p]: sign, prefix, digits, end of string. *)
Record spelled (s : mem) (base V n : Z) (negative : bool) (p : Z) : Prop := {
  spelled_live : live s p (text_length base n negative + 1);
  spelled_end : s !!! (p + text_length base n negative) = 0;
  spelled_char : ∀ i, 0 ≤ i < text_length base n negative → s !!! (p + i) = from_end base V n (text_length base n negative - 1 - i);
}.

Lemma prefix_len_range base : 0 ≤ prefix_len base ≤ 2.
Proof. unfold prefix_len. destruct ((base =? 2) || (base =? 16)), (base =? 8); lia. Qed.

Lemma text_finish_ok base V n (negative : bool) p size s (Q : Z → mem → Prop) :
  0 ≤ n → n + 3 ≤ size < 2 ^ 64 → wf s → live s p (size + 1) →
  (∀ i, 0 ≤ i < n → s !!! (p + i) = digit_char (V / base ^ i mod base)) →
  (∀ s', writes s s' p (text_length base n negative + 1) → spelled s' base V n negative p → Q (p + text_length base n negative) s') →
  wpp (text ← (if negb (base =? 10) then base2prefix_reverse (p + n) (u64 (p + size - (p + n))) base else mret (p + n));
       text ← (if negative && (text <? p + size) then wr text 45;; mret (text + 1) else mret text);
       mem_reverse_simple p (text - 1);;
       wr text 0;;
       mret text) s Q.
Proof.
  intros Hn Hsize Hs Hl B HQ. pose proof (prefix_len_range base) as Hpl. apply wpp_bind.
  assert (∀ K : Z → prog mem Z,
    (∀ s1, writes s s1 p (n + prefix_len base + 1) → (∀ j, 0 ≤ j < n + prefix_len base → s1 !!! (p + j) = from_end base V n j) →
       wpp (K (p + (n + prefix_len base))) s1 Q) →
    wpp (if negb (base =? 10) then base2prefix_reverse (p + n) (u64 (p + size - (p + n))) base else mret (p + n)) s
      (λ x s1, wpp (K x) s1 Q)) as Hprefix.
  { intros K HK. destruct (Z.eqb_spec base 10) as [->|Hb].
    - apply wpp_ret. specialize (HK s). rewrite Z.add_0_r in HK. apply HK; [by apply writes_refl|].
      intros j Hj. unfold from_end. rewrite (proj2 (Z.ltb_lt j n)) by lia. by apply B.
    - assert (u64 (p + size - (p + n)) = size - n) as -> by (rewrite wrap_small; lia).
      apply base2prefix_reverse_ok; [done|lia|done|eapply live_le; [exact Hl|lia..]|]. intros s1 W1 C1.
      replace (p + n + prefix_len base) with (p + (n + prefix_len base)) by lia. apply HK; [eapply writes_le; [exact W1|lia..]|].
      intros j Hj. unfold from_end. zcase as Hjn.
      + rewrite (writes_total _ _ _ _ _ W1) by lia. apply B. lia.
      + rewrite (proj2 (Z.ltb_lt _ _)) by lia. rewrite <-C1 by lia. f_equal. lia. }
  apply (Hprefix (λ text, text ← (if negative && (text <? p + size) then wr text 45;; mret (text + 1) else mret text);
       mem_reverse_simple p (text - 1);; wr text 0;; mret text)). clear Hprefix.
  intros s1 W1 C1. set (m := n + prefix_len base) in *. apply wpp_bind.
  set (L := text_length base n negative) in *.
  assert (∀ s2, writes s s2 p (L + 1) → (∀ j, 0 ≤ j < L → s2 !!! (p + j) = from_end base V n j) →
    wpp (mem_reverse_simple p (p + L - 1);; wr (p + L) 0;; mret (p + L)) s2 Q) as Hend.
  { assert (0 ≤ L ≤ n + 3) as HL by (unfold L, text_length; destruct negative; lia). intros s2 W2 C2.
    assert (live s p (L + 1)) as Hll by (eapply live_le; [exact Hl|lia..]).
    apply wpp_bind, mem_reverse_simple_ok; [apply W2|eapply writes_live; [exact W2|]; eapply live_le; [exact Hl|lia..]|].
    intros s3 F. assert (writes s s3 p (L + 1)) as W3.
    { split.
      - intros a Ha. rewrite F, decide_False by lia. by apply (writes_out _ _ _ _ W2).
      - intros a. rewrite F. case_decide; [|apply (writes_dom _ _ _ _ W2)]. rewrite <-(writes_dom _ _ _ _ W2). split; intros _; apply Hll; lia.
      - intros a b. rewrite F. case_decide; apply (writes_wf _ _ _ _ W2). }
    assert (is_Some (s !! (p + L))) as Hlo by (apply Hll; lia).
    apply wpp_bind, wpp_wr; [by apply (writes_dom _ _ _ _ W3)|]. apply wpp_ret.
    assert (writes s (<[p + L:=u8 0]> s3) p (L + 1)) as W4 by (apply writes_insert; [done|lia|done|apply u8_byte]).
    apply HQ; [done|]. split; fold L; [by eapply writes_live|by rewrite lookup_total_insert_eq|].
    intros i Hi. rewrite lookup_total_insert_ne by lia. rewrite lookup_total_alt, F, decide_True, <-lookup_total_alt by lia.
    rewrite <-C2 by lia. f_equal. lia. }
  destruct negative; cbn [andb].
  - rewrite (proj2 (Z.ltb_lt _ _)) by lia. assert (is_Some (s !! (p + m))) as Hlo by (apply Hl; lia).
    apply wpp_bind, wpp_wr; [by apply (writes_dom _ _ _ _ W1)|]. apply wpp_ret.
    replace (p + m + 1) with (p + L) by (unfold L, text_length; lia). apply Hend.
    + apply writes_insert; [eapply writes_le; [exact W1|lia|unfold L, text_length; lia]|unfold L, text_length; lia|done|apply u8_byte].
    + intros j Hj. destruct (Z.eq_dec j m) as [->|].
      * rewrite lookup_total_insert_eq. unfold from_end. rewrite !(proj2 (Z.ltb_ge _ _)) by lia. done.
      * rewrite lookup_total_insert_ne by lia. apply C1. unfold L, text_length in Hj. lia.
  - apply wpp_ret. replace (p + m) with (p + L) by (unfold L, text_length; lia). apply Hend.
    + eapply writes_le; [exact W1|lia|unfold L, text_length; lia].
    + intros j Hj. apply C1. unfold L, text_length in Hj. lia.
Qed.

Lemma text_length_range base n negative : n ≤ text_length base n negative ≤ n + 3.
Proof. unfold text_length. pose proof (prefix_len_range base). destruct negative; lia. Qed.

(** What is printed: in base ten the magnitude of the two's complement number. *)
Definition prints_sign (s : mem) (base p m : Z) : bool := (base =? 10) && (sval s p m <? 0).
Definition printed_number (s : mem) (base p m : Z) : Z := if prints_sign s base p m then 256 ^ m - val s p m else val s p m.


(** The copy the digits are taken from. *)
Lemma magnitude_ok base p m b s (Q : unit → mem → Prop) :
  0 < p → 0 < m → 0 < b → wf s → live s p m → live s b m → apart b m p m →
  (∀ s', writes s s' b m → val s' b m = printed_number s base p m → Q tt s') →
  wpp (if prints_sign s base p m then math_memory_complement p m b m else math_memory_copy b m p m) s Q.
Proof.
  intros Hp Hm Hb Hs Hl Hlb Ha HQ. unfold printed_number in HQ. destruct (prints_sign s base p m) eqn:En.
  - assert ((if b =? 0 then p else b) = b) as Eb by (by rewrite (proj2 (Z.eqb_neq b 0)) by lia).
    assert ((if m =? 0 then m else m) = m) as Em by by destruct (m =? 0).
    apply math_memory_complement_ok; rewrite ?Eb, ?Em; try done; try lia; [unfold up_ok, apart in *; lia|]. intros s2 W2 V2. apply HQ; [done|].
    rewrite V2. apply Z.mod_small. pose proof (val_range s p m Hs ltac:(lia)).
    assert (sval s p m < 0) as Hsv by (apply Z.ltb_lt; by apply andb_true_iff in En as [_ ?]). unfold sval in Hsv.
    destruct (Z.ltb_spec (2 * val s p m) (256 ^ m)); lia.
  - apply math_memory_copy_ok; [lia|lia|done|by rewrite Z.min_id|done|]. by rewrite Z.min_id.
Qed.

Lemma spelled_ext s s' base V n negative p :
  (∀ a, p ≤ a < p + (text_length base n negative + 1) → s' !! a = s !! a) → 0 ≤ text_length base n negative →
  spelled s base V n negative p → spelled s' base V n negative p.
Proof.
  intros H HL [S1 S2 S3]. split.
  - intros a Ha. rewrite H by done. by apply S1.
  - rewrite lookup_total_alt, H, <-lookup_total_alt by lia. done.
  - intros i Hi. rewrite lookup_total_alt, H, <-lookup_total_alt by lia. by apply S3.
Qed.

Lemma math_memory2text_ok garbage p m text size base s (Q : Z → mem → Prop) :
  2 ≤ base ≤ 16 → 0 < m → 8 * m + 4 ≤ size < 2 ^ 64 → 0 < p → wf s → live s p m → live s text size →
  let V := printed_number s base p m in let neg := prints_sign s base p m in
  (∀ n s', digits base V n ∨ V = 0 ∧ n = 1 → n ≤ 8 * m →
     writes s s' text (text_length base n neg + 1) → spelled s' base V n neg text → Q (text + text_length base n neg) s') →
  wpp (math_memory2text garbage p m text size base 0 0) s Q.
Proof.
  intros Hb Hm Hsize Hp Hs Hl Ht V neg HQ. unfold math_memory2text. rewrite (proj2 (Z.ltb_ge base 2)) by lia. cbv zeta.
  apply wpp_with_block; [done|]. intros b s1 B. pose proof B as (Hb0 & Hs1 & Hlb & _ & Hsame).
  destruct (block_live _ _ _ _ _ _ B Hl) as [Hl1 _]. destruct (block_live _ _ _ _ _ _ B Ht) as [Ht1 _].
  pose proof (block_apart _ _ _ _ _ _ B Ht) as At. pose proof (block_apart _ _ _ _ _ _ B Hl) as Ap.
  pose proof (block_val _ _ _ _ _ _ B Hl) as EV.
  assert (prints_sign s1 base p m = neg) as Eneg by (unfold neg, prints_sign, sval; by rewrite EV).
  assert (printed_number s1 base p m = V) as EVp by (unfold V, printed_number; by rewrite Eneg, EV).
  assert (wpp (if (base =? 10) && (0 <? m) then math_memory_is_negative p m else mret false) s1 (λ x s2, x = neg ∧ s2 = s1)) as Hneg.
  { rewrite (proj2 (Z.ltb_lt 0 m)), andb_true_r, <-Eneg by done. unfold prints_sign. destruct (base =? 10); [|by apply wpp_ret].
    by apply math_memory_is_negative_ok. }
  apply wpp_bind. eapply wpp_mono; [exact Hneg|]. intros ? ? [-> ->]. clear Hneg. rewrite <-Eneg.
  apply wpp_bind, magnitude_ok; try done. rewrite Eneg, EVp. intros s2 W2 V2. pose proof (writes_wf _ _ _ _ W2) as Hs2.
  replace (text + size - 1) with (text + (size - 1)) by lia.
  apply wpp_bind, memory_digits_ok; [done|done|lia|done|by eapply writes_live|eapply writes_live; [exact W2|]; eapply live_le; [exact Ht1|lia..]|unfold apart in *; lia|].
  rewrite V2. intros n s3 D Hn W3 C3. pose proof (writes2_wf _ _ _ _ _ _ W3) as Hs3. cbn [negb Z.eqb]. change (negb (0 =? 0)) with false. cbv iota.
  assert (0 ≤ n) as Hn0 by (destruct D as [D|[_ ->]]; [apply digits_pos in D; lia|lia]). pose proof (text_length_range base n neg) as HL.
  apply wpp_bind, wpp_ret, (text_finish_ok base V n neg); [done|lia|done| |done|].
  { eapply writes2_live; [exact W3|]. eapply writes_live; [exact W2|]. eapply live_le; [exact Ht1|lia..]. }
  intros s4 W4 S4 s5 F. set (L := text_length base n neg) in *.
  destruct (block_forgotten s s1 s4 s5 b m (λ a, text ≤ a < text + (L + 1)) Hs B) as (G1 & G2 & G3 & G4).
  { intros a Ha. apply Ht. lia. }
  { intros a Ha Hab. rewrite (writes_out _ _ _ _ W4), (writes2_out _ _ _ _ _ _ W3), (writes_out _ _ _ _ W2) by lia. done. }
  { intros a. by rewrite (writes_dom _ _ _ _ W2), (writes2_dom _ _ _ _ _ _ W3), (writes_dom _ _ _ _ W4). }
  { apply W4. }
  { done. }
  apply HQ; [done|done|by split|]. apply (spelled_ext s4); [exact G4|fold L; lia|done].
Qed.

(** ** Parsing *)

Lemma numeral_ext s s' base v p n : (∀ a, p ≤ a < p + (n + 1) → s' !! a = s !! a) → numeral s base v p n → numeral s' base v p n.
Proof.
  intros H [N1 N2 N3 N4 N5]. split; [done|done| | |].
  - intros a Ha. rewrite H by done. by apply N3.
  - rewrite lookup_total_alt, H, <-lookup_total_alt by lia. done.
  - intros i Hi. rewrite lookup_total_alt, H, <-lookup_total_alt by lia. by apply N5.
Qed.

Definition sign_len (negative : bool) : Z := if negative then 1 else 0.

Lemma spelled_numeral s base V n negative p :
  0 < base → 0 ≤ V → digits base V n ∨ V = 0 ∧ n = 1 → spelled s base V n negative p →
  numeral s base V (p + sign_len negative + prefix_len base) n.
Proof.
  intros Hb HV D [S1 S2 S3]. pose proof (prefix_len_range base). unfold text_length in *. fold (sign_len negative) in *.
  assert (0 ≤ sign_len negative ≤ 1) by (unfold sign_len; destruct negative; lia).
  assert (1 ≤ n) by (destruct D as [D|[_ ->]]; [apply D|lia]). split; [done| | | |].
  - split; [done|]. destruct D as [D|[-> ->]]; [apply D|lia].
  - eapply live_le; [exact S1|lia..].
  - rewrite <-S2. f_equal. lia.
  - intros i Hi. replace (p + sign_len negative + prefix_len base + i) with (p + (sign_len negative + prefix_len base + i)) by lia.
    rewrite S3 by lia. replace (n + _ + _ - 1 - _) with (n - 1 - i) by lia. unfold from_end. by rewrite (proj2 (Z.ltb_lt _ _)) by lia.
Qed.

(** The prefix in front of the digits of [base], read with the base known or,
    where a prefix names it, unknown. *)
Lemma prefix_ok s base base0 V n r (Q : Z * Z → mem → Prop) :
  2 ≤ base ≤ 16 → base0 = base ∨ base0 = -1 ∧ base ∈ [2; 8; 10; 16] →
  live s r (prefix_len base + 1) → (∀ i, 0 ≤ i < prefix_len base → s !!! (r + i) = prefix_char base (prefix_len base - 1 - i)) →
  digits base V n ∨ V = 0 ∧ n = 1 → numeral s base V (r + prefix_len base) n →
  (∀ base', 2 ≤ base' ≤ 16 → numeral s base' V (r + prefix_len base) n → Q (base', r + prefix_len base) s) →
  wpp (prefix2base2 r base0) s Q.
Proof.
  intros Hb Hb0 Hl Hc D N HQ. unfold prefix2base2, prefix2base. change (negb (0 =? 0) && (0 <=? r + 1)) with false. cbv iota.
  destruct (numeral_char s base V (r + prefix_len base) n 0 Hb N) as (E & Hr & Hv & Hr1 & Hz); [pose proof (numeral_len _ _ _ _ _ N); lia|].
  rewrite Z.add_0_r, Z.sub_0_r in *. set (d := V / base ^ (n - 1) mod base) in *.
  assert (∀ i, 0 ≤ i < prefix_len base → s !! (r + i) = Some (prefix_char base (prefix_len base - 1 - i))) as Hci.
  { intros i Hi. rewrite <-Hc by done. apply (lookup_live s r (prefix_len base + 1)); [done|lia]. }
  assert (prefix_len base = 0 ∨ base = 2 ∨ base = 8 ∨ base = 16) as [H0|[->|[->| ->]]].
  { unfold prefix_len. destruct (Z.eqb_spec base 2), (Z.eqb_spec base 16), (Z.eqb_spec base 8); simpl; tauto. }
  - rewrite H0, Z.add_0_r in *. apply wpp_bind. eapply wpp_rd; [exact E|]. destruct D as [D|[-> ->]].
    + pose proof (digits_top _ _ _ (proj1 Hb) D). assert (d ≠ 0) by (unfold d; rewrite Z.mod_small by lia; lia).
      rewrite (proj2 (Z.eqb_neq (digit_char d) 48)) by tauto. cbn [negb]. apply wpp_ret.
      assert ((if 0 <? base0 then base0 else 10) = base) as ->; [|by apply HQ].
      destruct Hb0 as [->|[-> Hin]]; [by rewrite (proj2 (Z.ltb_lt 0 base)) by lia|]. simpl.
      rewrite list_elem_of_In in Hin. simpl in Hin. unfold prefix_len in H0. destruct Hin as [<-|[<-|[<-|[<-|[]]]]]; done.
    + assert (d = 0) as Ed by (unfold d; by rewrite Z.div_0_l, Z.mod_0_l by lia). rewrite (proj2 Hz Ed). change (negb (48 =? 48)) with false. cbv iota.
      apply wpp_bind. eapply wpp_rd; [apply (lookup_live s r 2); [apply N|lia]|]. rewrite (numeral_end _ _ _ _ _ N).
      apply wpp_ret, HQ; [lia|]. destruct N as [N1 N2 N3 N4 N5]. split; [done|lia|done|done|]. intros i Hi. rewrite N5 by done. by rewrite !Z.div_0_l, !Z.mod_0_l by lia.
  - pose proof (Hci 0 ltac:(done)) as E0. pose proof (Hci 1 ltac:(done)) as E1. rewrite Z.add_0_r in E0.
    apply wpp_bind. eapply wpp_rd; [exact E0|]. apply wpp_bind. eapply wpp_rd; [exact E1|].
    destruct Hb0 as [->|[-> _]]; (apply wpp_ret; replace (r + 1 + 1) with (r + 2) by lia; by apply (HQ 2)).
  - pose proof (Hci 0 ltac:(done)) as E0. rewrite Z.add_0_r in E0. change (prefix_len 8) with 1 in *.
    apply wpp_bind. eapply wpp_rd; [exact E0|]. apply wpp_bind. eapply wpp_rd; [exact E|].
    change (prefix_char 8 (1 - 1 - 0)) with 48. change (negb (48 =? 48)) with false. cbv iota.
    assert (digit_char d = d + 48) as Hdc by (apply digit_char_ok; lia).
    rewrite !(proj2 (Z.eqb_neq (digit_char d) 98)), !(proj2 (Z.eqb_neq (digit_char d) 66)), !(proj2 (Z.eqb_neq (digit_char d) 100)),
      !(proj2 (Z.eqb_neq (digit_char d) 68)), !(proj2 (Z.eqb_neq (digit_char d) 46)), !(proj2 (Z.eqb_neq (digit_char d) 120)),
      !(proj2 (Z.eqb_neq (digit_char d) 88)), !(proj2 (Z.eqb_neq (digit_char d) 111)), !(proj2 (Z.eqb_neq (digit_char d) 79)),
      (proj2 (Z.leb_le 48 (digit_char d))), (proj2 (Z.leb_le (digit_char d) 55)) by lia.
    cbn [orb andb]. rewrite (proj2 (Z.ltb_ge 8 base0)) by lia. apply wpp_ret. by apply (HQ 8).
  - pose proof (Hci 0 ltac:(done)) as E0. pose proof (Hci 1 ltac:(done)) as E1. rewrite Z.add_0_r in E0.
    apply wpp_bind. eapply wpp_rd; [exact E0|]. apply wpp_bind. eapply wpp_rd; [exact E1|].
    destruct Hb0 as [->|[-> _]]; (apply wpp_ret; replace (r + 1 + 1) with (r + 2) by lia; by apply (HQ 16)).
Qed.

(** One more digit: [mem = mem * base + d], modulo the size. *)
Lemma push_digit_ok base d q m s (R : unit → mem → Prop) :
  0 ≤ m → byte_ok base → byte_ok d → wf s → live s q m →
  (∀ s', writes s s' q m → val s' q m = (base * val s q m + d) mod 256 ^ m → R tt s') →
  wpp (math_memory_mul_single q m base 0 0;; math_memory_add_single q m d 0 0;; mret tt) s R.
Proof.
  intros Hm Hb Hd Hs Hl HR. pose proof (pow_pos m Hm) as Hp. pose proof (val_range s q m Hs Hm) as HV.
  assert (target q 0 = q ∧ target_size q m 0 0 = m) as [Et Ets] by done.
  assert (∀ s, wf s → live s q m → operands_ok s q m 0 0) as Hok.
  { intros t Ht Hlt. unfold operands_ok. rewrite Et, Ets. split_and!; try done. simpl. lia. }
  apply wpp_bind, math_memory_mul_single_ok; rewrite ?Et, ?Ets; [by apply Hok|done|]. intros c1 s1 Hc1 W1 V1. rewrite Z.mod_small in V1 by done.
  apply wpp_bind, math_memory_add_single_ok; rewrite ?Et, ?Ets; [apply Hok; [apply W1|by eapply writes_live]|done|]. intros c2 s2 Hc2 W2 V2.
  apply wpp_ret, HR; [eapply writes_trans; [exact W1|exact W2|lia..]|].
  pose proof (val_range s1 q m (writes_wf _ _ _ _ W1) Hm). pose proof (val_range s2 q m (writes_wf _ _ _ _ W2) Hm).
  rewrite Z.mod_small in V2 by done. apply (Z.mod_unique_pos _ _ (c1 + c2)); [done|lia].
Qed.

Lemma accumulate_ok base V p n q m s (Q : Z → mem → Prop) :
  2 ≤ base ≤ 16 → 0 ≤ m → wf s → live s q m → numeral s base V p n → apart q m p (n + 1) → val s q m = 0 →
  (∀ s', writes s s' q m → val s' q m = V mod 256 ^ m → Q (p + n) s') →
  wpp (tloop (λ text,
      c ← rd text;
      let value := char2value c in
      if (value <? 0) || (base <=? value) then mret (inr text)
      else
        math_memory_mul_single q m (u8 base) 0 0;;
        math_memory_add_single q m (u8 value) 0 0;;
        mret (inl (text + 1))) p) s Q.
Proof.
  intros Hb Hm Hs Hl N Ha H0 HQ. pose proof N as [Hn Hr Hln He _]. pose proof (live_size s p (n + 1) ltac:(lia) Hln). pose proof (pow_pos m Hm) as Hp.
  apply (wpp_tloop (λ j x s', ∃ k, 0 ≤ k ≤ n ∧ j = Z.to_nat (n - k) ∧ x = p + k ∧ writes s s' q m ∧
    val s' q m = (V / base ^ (n - k)) mod 256 ^ m) _ _ (Z.to_nat n)); [| |lia].
  2:{ exists 0. rewrite Z.sub_0_r, Z.add_0_r, (Z.div_small V), Z.mod_0_l by lia. split_and!; [lia|lia|done|done|by apply writes_refl|done]. }
  intros j x s1 (k & Hk & -> & -> & W & EV). pose proof (writes_wf _ _ _ _ W) as Hs1.
  assert (numeral s1 base V p n) as N1 by (apply (numeral_ext s); [intros a Hin; apply (writes_out _ _ _ _ W); unfold apart in Ha; lia|done]).
  destruct (Z.eq_dec k n) as [->|Hkn].
  - apply wpp_bind. eapply wpp_rd; [apply (lookup_live s1 p (n + 1)); [apply N1|lia]|]. rewrite (numeral_end _ _ _ _ _ N1).
    change (char2value 0 <? 0) with true. cbn [orb]. cbv zeta. apply wpp_ret, HQ; [done|]. by rewrite Z.sub_diag, Z.pow_0_r, Z.div_1_r in EV.
  - destruct (numeral_char s1 base V p n k Hb N1 ltac:(lia)) as (E & Hd & Hc & Hr1 & _). set (d := V / base ^ (n - 1 - k) mod base) in *.
    apply wpp_bind. eapply wpp_rd; [exact E|]. cbv zeta. rewrite Hc.
    rewrite (proj2 (Z.ltb_ge d 0)), (proj2 (Z.leb_gt base d)) by lia. cbn [orb].
    rewrite (u8_id base), (u8_id d) by (split; lia).
    assert (wpp (math_memory_mul_single q m base 0 0;; math_memory_add_single q m d 0 0;; mret tt) s1
      (λ _ s2, writes s s2 q m ∧ val s2 q m = (V / base ^ (n - (k + 1))) mod 256 ^ m)) as Hpush.
    { apply push_digit_ok; [done|split; lia|split; lia|done|by eapply writes_live|]. intros s2 W2 V2.
      split; [eapply writes_trans; [exact W|exact W2|lia..]|]. rewrite V2, EV.
      pose proof (Z.pow_pos_nonneg base (n - 1 - k) ltac:(lia) ltac:(lia)).
      replace (n - k) with (n - 1 - k + 1) by lia. rewrite <-div_pow_next by lia. replace (n - (k + 1)) with (n - 1 - k) by lia.
      set (X := V / base ^ (n - 1 - k)) in *. rewrite (Z.div_mod X base) at 2 by lia. fold d.
      rewrite <-Z.add_mod_idemp_l, Z.mul_mod_idemp_r, Z.add_mod_idemp_l by lia. done. }
    apply wpp_ok in Hpush as (u & s2 & Erun & W2 & V2).
    assert (wpp (math_memory_mul_single q m base 0 0;; math_memory_add_single q m d 0 0;; mret (inl (p + k + 1) : Z + Z)) s1
      (λ r s', r = inl (p + k + 1) ∧ s' = s2)) as Hrun.
    { unfold wpp, mbind, prog_bind in Erun |- *. destruct (math_memory_mul_single q m base 0 0 s1) as [[c s']| |]; [|done..].
      destruct (math_memory_add_single q m d 0 0 s') as [[c' s'']| |]; [|done..]. injection Erun as _ <-. done. }
    eapply wpp_mono; [exact Hrun|]. intros r s3 [-> ->]. exists (Z.to_nat (n - (k + 1))). split; [lia|]. exists (k + 1).
    split_and!; [lia|lia|lia|lia|done|done].
Qed.

Lemma char_at s p n i v : live s p n → 0 ≤ i < n → s !!! (p + i) = v → s !! (p + i) = Some v.
Proof. intros Hl Hi <-. apply (lookup_live s p n); [done|lia]. Qed.

Lemma math_text2memory_ok base base0 V n (negative : bool) text q m s (Q : Z → mem → Prop) :
  2 ≤ base ≤ 16 → base0 = base ∨ base0 = -1 ∧ base ∈ [2; 8; 10; 16] →
  0 ≤ m → 0 < q → 0 ≤ V → wf s → live s q m → digits base V n ∨ V = 0 ∧ n = 1 →
  spelled s base V n negative text → apart q m text (text_length base n negative + 1) →
  (∀ s', writes s s' q m → val s' q m = (if negative then - V else V) mod 256 ^ m →
     Q (text + text_length base n negative) s') →
  wpp (math_text2memory text q m base0) s Q.
Proof.
  intros Hb Hb0 Hm Hq HV Hs Hl D S Ha HQ. pose proof (spelled_numeral s base V n negative text ltac:(lia) HV D S) as N.
  pose proof S as [S1 S2 S3]. set (L := text_length base n negative) in *. pose proof (prefix_len_range base) as Hpl.
  pose proof (numeral_len _ _ _ _ _ N) as Hn. set (sg := sign_len negative) in *.
  assert (0 ≤ sg ≤ 1) as Hsg by (unfold sg, sign_len; destruct negative; lia).
  assert (L = n + prefix_len base + sg) as EL by done. pose proof (live_size s text (L + 1) ltac:(lia) S1) as Hfuel.
  (* the first character and the prefix *)
  assert (∀ i, 0 ≤ i < prefix_len base → s !!! (text + sg + i) = prefix_char base (prefix_len base - 1 - i)) as Hpre.
  { intros i Hi. rewrite <-Z.add_assoc, S3 by lia. unfold from_end. rewrite (proj2 (Z.ltb_ge _ _)), (proj2 (Z.ltb_lt _ _)) by lia. f_equal. lia. }
  assert (∃ c, s !! text = Some c ∧ BYTE_IS_SPACE c = false ∧ (c =? 45) = negative) as (c & Ec & Hsp & H45).
  { exists (s !!! text). split; [apply (lookup_live s text (L + 1)); [done|lia]|].
    pose proof (S3 0 ltac:(lia)) as E0. rewrite Z.add_0_r, Z.sub_0_r in E0. rewrite E0. unfold from_end. rewrite EL. unfold sg, sign_len. destruct negative.
    - rewrite !(proj2 (Z.ltb_ge _ _)) by lia. by split.
    - rewrite Z.add_0_r. zcase as Hp0.
      + pose proof (Z.mod_pos_bound (V / base ^ (n + prefix_len base - 1)) base ltac:(lia)) as Hd.
        destruct (digit_char_ok _ (conj (proj1 Hd) (Z.lt_le_trans _ _ _ (proj2 Hd) (proj2 Hb)))) as (_ & _ & Hc & _).
        unfold BYTE_IS_SPACE. rewrite !(proj2 (Z.eqb_neq (digit_char _) _)) by lia. by split.
      + rewrite (proj2 (Z.ltb_lt _ _)) by lia. unfold prefix_char.
        destruct (base =? 8) eqn:E8; [by split|]. rewrite (proj2 (Z.eqb_neq (n + prefix_len base - 1 - n) 0)); [by split|].
        unfold prefix_len in *. rewrite E8 in *. destruct ((base =? 2) || (base =? 16)); lia. }
  unfold math_text2memory. apply wpp_bind.
  apply (wpp_tloop (λ j x s', x = text ∧ s' = s) _ _ 0%nat); [|done|lia].
  intros j x s' [-> ->]. apply wpp_bind. eapply wpp_rd; [exact Ec|]. rewrite Hsp. apply wpp_ret.
  apply wpp_bind. eapply wpp_rd; [exact Ec|]. cbv zeta. rewrite H45.
  replace (if negative then text + 1 else text) with (text + sg) by (unfold sg, sign_len; destruct negative; lia).
  apply wpp_bind, mem_set_ok; [done|done|split; lia|]. intros s1 F.
  assert (writes s s1 q m) as W1 by (apply (filled_writes _ _ _ _ 0); [done|split; lia|done|done]).
  assert (val s1 q m = 0) as V1 by (apply val_zeros; intros i Hi; by rewrite lookup_total_alt, F, decide_True by lia).
  assert (∀ a, text ≤ a < text + (L + 1) → s1 !! a = s !! a) as Hkeep by (intros a Hin; apply (writes_out _ _ _ _ W1); unfold apart in Ha; lia).
  apply wpp_bind, (prefix_ok s1 base base0 V n); try done.
  { intros a Hin. rewrite Hkeep by lia. apply S1. lia. }
  { intros i Hi. rewrite lookup_total_alt, Hkeep, <-lookup_total_alt by lia. by apply Hpre. }
  { apply (numeral_ext s); [intros a Hin; apply Hkeep; lia|done]. }
  intros base' Hb' N'. rewrite (proj2 (Z.ltb_ge base' 0)) by lia.
  apply wpp_bind, (accumulate_ok base' V _ n); try done; [apply W1|by eapply writes_live|unfold apart in *; lia|].
  intros s2 W2 V2. replace (text + sg + prefix_len base + n) with (text + L) by lia. apply wpp_bind.
  assert (writes s s2 q m) as W by (eapply writes_trans; [exact W1|exact W2|lia..]).
  apply (negate_if_ok negative q m s2 V); [done|done|apply W2|by eapply writes_live|done|]. intros s3 W3 V3.
  apply wpp_ret, HQ; [eapply writes_trans; [exact W|exact W3|lia..]|done].
Qed.

(** ** Properties *)

(** C18: what [math_memory2text] prints, [math_text2memory] reads back into the
    same bytes: for every base from 2 to 16, for numbers of any length, with the
    sign in base ten and the prefix in bases 2, 8 and 16, where the reader need
    not be told the base; the text ends with a zero byte, the reader stops there,
    and neither changes anything but its own result. *)
Theorem big_number_text_round_trip garbage base base0 p m text size q s :
  2 ≤ base ≤ 16 → base0 = base ∨ base0 = -1 ∧ base ∈ [2; 8; 10; 16] →
  0 < m → 8 * m + 4 ≤ size < 2 ^ 64 → 0 < p → 0 < q → wf s →
  live s p m → live s text size → live s q m → apart q m text size →
  ∃ tail s1 s2,
    math_memory2text garbage p m text size base 0 0 s = Ok (tail, s1) ∧
    text < tail < text + size ∧ writes s s1 text size ∧ s1 !!! tail = 0 ∧
    math_text2memory text q m base0 s1 = Ok (tail, s2) ∧ writes s1 s2 q m ∧ val s2 q m = val s p m.
Proof.
  intros Hb Hb0 Hm Hsize Hp Hq Hs Hlp Hlt Hlq Ha. set (neg := prints_sign s base p m). set (V := printed_number s base p m).
  pose proof (val_range s p m Hs ltac:(lia)) as HV.
  assert (wpp (math_memory2text garbage p m text size base 0 0) s (λ tail s1,
    text < tail < text + size ∧ writes s s1 text size ∧ s1 !!! tail = 0 ∧
    wpp (math_text2memory text q m base0) s1 (λ tail' s2, tail' = tail ∧ writes s1 s2 q m ∧ val s2 q m = val s p m)))
    as (tail & s1 & E1 & H1 & H2 & H3 & (? & s2 & E2 & -> & H4)%wpp_ok)%wpp_ok; [|by exists tail, s1, s2].
  apply math_memory2text_ok; try done. fold V neg. intros n s1 D Hn W S. pose proof (text_length_range base n neg).
  assert (1 ≤ n) by (destruct D as [D|[_ ->]]; [apply D|lia]).
  split_and!; [lia|lia|eapply writes_le; [exact W|lia..]|apply S|].
  apply (math_text2memory_ok base base0 V n neg); try done.
  - lia.
  - unfold V, printed_number. destruct (prints_sign s base p m); lia.
  - apply W.
  - by eapply writes_live.
  - unfold apart in *. lia.
  - intros s2 W2 V2. split_and!; [done|done|]. rewrite V2. unfold V, printed_number. fold neg. pose proof (pow_pos m ltac:(lia)). destruct neg.
    + rewrite <-(Z.mod_add _ 1) by lia. rewrite Z.mod_small; lia.
    + apply Z.mod_small. lia.
Qed.

Lemma big_number_text_round_trip_witness :
  let s := bytes_at 1 (254 :: 255 :: repeat 7 24) in
  sval s 1 2 = -2 ∧ ∃ tail s1 s2,
    math_memory2text (λ _, 9) 1 2 3 20 10 0 0 s = Ok (tail, s1) ∧ 3 < tail < 3 + 20 ∧ writes s s1 3 20 ∧ s1 !!! tail = 0 ∧
    math_text2memory 3 23 2 (-1) s1 = Ok (tail, s2) ∧ writes s1 s2 23 2 ∧ val s2 23 2 = val s 1 2.
Proof.
  split; [by vm_compute|].
  refine (big_number_text_round_trip (λ _, 9) 10 (-1) 1 2 3 20 23 (bytes_at 1 (254 :: 255 :: repeat 7 24)) _ _ _ _ _ _ _ _ _ _ _);
    first [on_bytes|right; split; [done|set_solver]|unfold apart; on_bytes].
Defined.
