(* ===== verification/Sha.v ===== *)
(** Sha: the message digests of src/lib/sha.c.

    Buffers are lists of bytes with checked accesses; copying and filling them
    is the contract [Memory] proves of [mem_copy] and [mem_set].  A context's
    function pointers are a record of operations: MD5 and SHA-1 are its two
    instances, the streaming code is generic. *)
From S2P Require Import Prelude Memory MemOps.

(** ** Bytes and words *)

(** [((const u32 * ) buff)[i]]. *)
Definition buff_word (buff : list Z) (i : Z) : Z := le_word (slice buff (4 * i) 4).

Definition ROL (value bits : Z) : Z := Z.lor (u32 (Z.shiftl value bits)) (Z.shiftr value (32 - bits)).
Definition ROR (value bits : Z) : Z := Z.lor (Z.shiftr value bits) (u32 (Z.shiftl value (32 - bits))).
Definition not32 (value : Z) : Z := u32 (Z.lnot value).

(** ** The context *)

Definition SHA_FLAG_SWAP : Z := 1.
Definition SHA1_DIGEST_SIZE : Z := 20.
Definition MD5_DIGEST_SIZE : Z := 16.

Record cavan_sha_context : Type := {
  count : Z;
  flags : Z;
  digest : list Z;
  remain : Z;
  digest_size : Z;
  buff : list Z;
}.

(** What [context->init] and [context->transform] do, when they are not NULL. *)
Record sha_ops : Type := {
  op_init : list Z → Z * Z * list Z;
  op_transform : list Z → list Z → list Z;
}.
(** The two pointers of a context. *)
Record sha_pointers : Type := {
  init : option (list Z → Z * Z * list Z);
  transform : option (list Z → list Z → list Z);
}.

Definition memset (dst : list Z) (i v n : Z) : cres (list Z) := memcpy dst i (repeat v (Z.to_nat n)) 0 n.

Definition cavan_sha_init (p : sha_pointers) (c : cavan_sha_context) : Z + sha_ops * cavan_sha_context :=
  match init p, transform p with
  | None, _ => inl (- EINVAL)
  | _, None => inl (- EINVAL)
  | Some i, Some t =>
      let '(flags, digest_size, digest) := i (digest c) in
      inr ({| op_init := i; op_transform := t |},
        {| count := 0; flags := flags; digest := digest; remain := 0; digest_size := digest_size; buff := buff c |})
  end.

(** After [cavan_sha_init] the pointers are not NULL: the rest is over what
    they point to. *)
Section context.
Variable ops : sha_ops.

Definition cavan_sha_update (c : cavan_sha_context) (data : list Z) (size : Z) : cres cavan_sha_context :=
  '(buff1, digest1, remain1, pos) ←
    (if 0 <? remain c then
       let padding := 64 - remain c in
       if padding <=? size then
         b ← memcpy (buff c) (remain c) data 0 padding;
         mret (b, op_transform ops (digest c) b, 0, padding)
       else mret (buff c, digest c, remain c, 0)
     else mret (buff c, digest c, remain c, 0));
  '(pos, digest2) ← loop (S (Z.to_nat size)) (λ '(pos, digest),
    if size - pos <? 64 then mret (inr (pos, digest))
    else
      b ← window data pos 64;
      mret (inl (pos + 64, op_transform ops digest b))) (pos, digest1);
  let rest := size - pos in
  '(buff2, remain2) ←
    (if negb (rest =? 0) then b ← memcpy buff1 remain1 data pos rest; mret (b, remain1 + rest)
     else mret (buff1, remain1));
  mret {| count := u64 (count c + size); flags := flags c; digest := digest2; remain := remain2;
          digest_size := digest_size c; buff := buff2 |}.

Definition cavan_sha_finish (c : cavan_sha_context) : cres (cavan_sha_context * list Z) :=
  let bits := u64 (Z.shiftl (count c) 3) in
  c ← cavan_sha_update c [0x80] 1;
  '(buff1, digest1) ←
    (if 64 - 8 <? remain c then
       b ← memset (buff c) (remain c) 0 (64 - remain c);
       let d := op_transform ops (digest c) b in
       b ← memset b 0 0 (remain c);
       mret (b, d)
     else
       b ← memset (buff c) (remain c) 0 (64 - remain c - 8);
       mret (b, digest c));
  let swap := negb (Z.land (flags c) SHA_FLAG_SWAP =? 0) in
  let bytes := le_bytes 8 bits in
  buff2 ← memcpy buff1 (64 - 8) (if swap then rev bytes else bytes) 0 8;
  let digest2 := op_transform ops digest1 buff2 in
  let words := take (Z.to_nat (Z.shiftr (digest_size c) 2)) digest2 in
  let out := if swap then concat (map (λ w, le_bytes 4 (SWAP32 w)) words)
             else take (Z.to_nat (digest_size c)) (concat (map (le_bytes 4) digest2)) in
  mret ({| count := count c; flags := flags c; digest := digest2; remain := remain c;
           digest_size := digest_size c; buff := buff2 |}, out).
End context.

Definition cavan_shasum (p : sha_pointers) (c : cavan_sha_context) (data : list Z) (size : Z) : cres (Z + cavan_sha_context * list Z) :=
  match cavan_sha_init p c with
  | inl ret => mret (inl ret)
  | inr (ops, c) =>
      c ← cavan_sha_update ops c data size;
      r ← cavan_sha_finish ops c;
      mret (inr r)
  end.

(** ** MD5 *)

Definition MD5_FUNC1 (B C D : Z) : Z := Z.lor (Z.land B C) (Z.land (not32 B) D).
Definition MD5_FUNC2 (B C D : Z) : Z := Z.lor (Z.land B D) (Z.land C (not32 D)).
Definition MD5_FUNC3 (B C D : Z) : Z := Z.lxor (Z.lxor B C) D.
Definition MD5_FUNC4 (B C D : Z) : Z := Z.lxor C (Z.lor B (not32 D)).
Definition MD5_TRANSFORM (F : Z → Z → Z → Z) (A B C D V S I : Z) : Z :=
  u32 (B + ROL (u32 (A + F B C D + V + I)) S).

(** The calls [MD5_TRANSFORM(.., buff[k], s, i, F)] of the four rounds.  Every
    call names the register it sets first and the others after it in the order
    A, B, C, D, so the next call's names are these turned by one. *)
Definition md5_round1 : list (Z * Z * Z) := [
  (0, 7, 0xD76AA478); (1, 12, 0xE8C7B756); (2, 17, 0x242070DB); (3, 22, 0xC1BDCEEE);
  (4, 7, 0xF57C0FAF); (5, 12, 0x4787C62A); (6, 17, 0xA8304613); (7, 22, 0xFD469501);
  (8, 7, 0x698098D8); (9, 12, 0x8B44F7AF); (10, 17, 0xFFFF5BB1); (11, 22, 0x895CD7BE);
  (12, 7, 0x6B901122); (13, 12, 0xFD987193); (14, 17, 0xA679438E); (15, 22, 0x49B40821)].
Definition md5_round2 : list (Z * Z * Z) := [
  (1, 5, 0xF61E2562); (6, 9, 0xC040B340); (11, 14, 0x265E5A51); (0, 20, 0xE9B6C7AA);
  (5, 5, 0xD62F105D); (10, 9, 0x2441453); (15, 14, 0xD8A1E681); (4, 20, 0xE7D3FBC8);
  (9, 5, 0x21E1CDE6); (14, 9, 0xC33707D6); (3, 14, 0xF4D50D87); (8, 20, 0x455A14ED);
  (13, 5, 0xA9E3E905); (2, 9, 0xFCEFA3F8); (7, 14, 0x676F02D9); (12, 20, 0x8D2A4C8A)].
Definition md5_round3 : list (Z * Z * Z) := [
  (5, 4, 0xFFFA3942); (8, 11, 0x8771F681); (11, 16, 0x6D9D6122); (14, 23, 0xFDE5380C);
  (1, 4, 0xA4BEEA44); (4, 11, 0x4BDECFA9); (7, 16, 0xF6BB4B60); (10, 23, 0xBEBFBC70);
  (13, 4, 0x289B7EC6); (0, 11, 0xEAA127FA); (3, 16, 0xD4EF3085); (6, 23, 0x4881D05);
  (9, 4, 0xD9D4D039); (12, 11, 0xE6DB99E5); (15, 16, 0x1FA27CF8); (2, 23, 0xC4AC5665)].
Definition md5_round4 : list (Z * Z * Z) := [
  (0, 6, 0xF4292244); (7, 10, 0x432AFF97); (14, 15, 0xAB9423A7); (5, 21, 0xFC93A039);
  (12, 6, 0x655B59C3); (3, 10, 0x8F0CCC92); (10, 15, 0xFFEFF47D); (1, 21, 0x85845DD1);
  (8, 6, 0x6FA87E4F); (15, 10, 0xFE2CE6E0); (6, 15, 0xA3014314); (13, 21, 0x4E0811A1);
  (4, 6, 0xF7537E82); (11, 10, 0xBD3AF235); (2, 15, 0x2AD7D2BB); (9, 21, 0xEB86D391)].

Definition md5_line (F : Z → Z → Z → Z) (buff : list Z) (regs : Z * Z * Z * Z) (line : Z * Z * Z) : Z * Z * Z * Z :=
  let '(A, B, C, D) := regs in
  let '(k, s, i) := line in
  (D, MD5_TRANSFORM F A B C D (buff_word buff k) s i, B, C).

Definition cavan_md5_init (digest : list Z) : Z * Z * list Z :=
  (0, MD5_DIGEST_SIZE,
   upd (upd (upd (upd digest 0 0x67452301) 1 0xEFCDAB89) 2 0x98BADCFE) 3 0x10325476).

Definition cavan_md5_transform (digest : list Z) (buff : list Z) : list Z :=
  let regs := (get digest 0, get digest 1, get digest 2, get digest 3) in
  let regs := foldl (md5_line MD5_FUNC1 buff) regs md5_round1 in
  let regs := foldl (md5_line MD5_FUNC2 buff) regs md5_round2 in
  let regs := foldl (md5_line MD5_FUNC3 buff) regs md5_round3 in
  let '(A, B, C, D) := foldl (md5_line MD5_FUNC4 buff) regs md5_round4 in
  let digest := upd digest 0 (u32 (get digest 0 + A)) in
  let digest := upd digest 1 (u32 (get digest 1 + B)) in
  let digest := upd digest 2 (u32 (get digest 2 + C)) in
  upd digest 3 (u32 (get digest 3 + D)).

Definition cavan_md5_init_context : sha_pointers := {| init := Some cavan_md5_init; transform := Some cavan_md5_transform |}.

(** ** SHA-1 *)

Definition SHA1_FUNC1_BASE (A E V : Z) : Z := u32 (ROL A 5 + V).
Definition SHA1_FUNC11 (A B C D E V : Z) : Z := SHA1_FUNC1_BASE A E (u32 (V + u32 (Z.lxor D (Z.land B (Z.lxor C D)) + 0x5A827999))).
Definition SHA1_FUNC12 (A B C D E V : Z) : Z := SHA1_FUNC1_BASE A E (u32 (V + u32 (Z.lxor (Z.lxor B C) D + 0x6ED9EBA1))).
Definition SHA1_FUNC13 (A B C D E V : Z) : Z := SHA1_FUNC1_BASE A E (u32 (V + u32 (Z.lor (Z.land B C) (Z.land D (Z.lor B C)) + 0x8F1BBCDC))).
Definition SHA1_FUNC14 (A B C D E V : Z) : Z := SHA1_FUNC1_BASE A E (u32 (V + u32 (Z.lxor (Z.lxor B C) D + 0xCA62C1D6))).
(** [SHA1_FUNC2F (A, B, C, D, E, V)], then the names of the next call. *)
Definition sha1_line (F : Z → Z → Z → Z → Z → Z → Z) (regs : Z * Z * Z * Z * Z) (V : Z) : Z * Z * Z * Z * Z :=
  let '(A, B, C, D, E) := regs in
  (u32 (E + F A B C D E V), A, ROR B 2, C, D).
Definition SHA1_TRANSFROM (F : Z → Z → Z → Z → Z → Z → Z) (W : list Z) (regs : Z * Z * Z * Z * Z) : Z * Z * Z * Z * Z :=
  foldl (sha1_line F) regs (take 20 W).

Definition schedule_word (W : list Z) (i : Z) : Z :=
  ROL (Z.lxor (Z.lxor (Z.lxor (get W (i - 3)) (get W (i - 8))) (get W (i - 14))) (get W (i - 16))) 1.
Definition sha1_schedule (buff : list Z) : list Z :=
  foldl (λ W i, W ++ [schedule_word W i]) (map (λ i, SWAP32 (buff_word buff i)) (seqZ 0 16)) (seqZ 16 64).

Definition cavan_sha1_init (digest : list Z) : Z * Z * list Z :=
  (SHA_FLAG_SWAP, SHA1_DIGEST_SIZE,
   upd (upd (upd (upd (upd digest 0 0x67452301) 1 0xEFCDAB89) 2 0x98BADCFE) 3 0x10325476) 4 0xC3D2E1F0).

Definition cavan_sha1_transform (digest : list Z) (buff : list Z) : list Z :=
  let W := sha1_schedule buff in
  let regs := (get digest 0, get digest 1, get digest 2, get digest 3, get digest 4) in
  let regs := SHA1_TRANSFROM SHA1_FUNC11 W regs in
  let regs := SHA1_TRANSFROM SHA1_FUNC12 (drop 20 W) regs in
  let regs := SHA1_TRANSFROM SHA1_FUNC13 (drop 40 W) regs in
  let '(A, B, C, D, E) := SHA1_TRANSFROM SHA1_FUNC14 (drop 60 W) regs in
  let digest := upd digest 0 (u32 (get digest 0 + A)) in
  let digest := upd digest 1 (u32 (get digest 1 + B)) in
  let digest := upd digest 2 (u32 (get digest 2 + C)) in
  let digest := upd digest 3 (u32 (get digest 3 + D)) in
  upd digest 4 (u32 (get digest 4 + E)).

Definition cavan_sha1_context_init : sha_pointers := {| init := Some cavan_sha1_init; transform := Some cavan_sha1_transform |}.

(** A context before [cavan_sha_init]. *)
Definition fresh_context (garbage : Z) : cavan_sha_context :=
  {| count := garbage; flags := garbage; digest := repeat garbage 8; remain := garbage; digest_size := garbage; buff := repeat garbage 64 |}.

(** ** The reference: pad, cut into blocks, compress *)

Fixpoint cut (fuel : nat) (m : list Z) : list (list Z) :=
  match fuel with
  | O => []
  | S fuel => match m with [] => [] | _ => take 64 m :: cut fuel (drop 64 m) end
  end.
Definition blocks (m : list Z) : list (list Z) := cut (length m) m.

(** A one bit, zeros up to the end of a block less eight bytes, the length in
    bits: low byte first for MD5, high byte first for SHA-1. *)
Definition pad (swap : bool) (m : list Z) : list Z :=
  let bits := le_bytes 8 (8 * zlen m) in
  m ++ [0x80] ++ repeat 0 (Z.to_nat ((55 - zlen m) mod 64)) ++ (if swap then rev bits else bits).

Definition digest_of (swap : bool) (size : Z) (d : list Z) : list Z :=
  if swap then concat (map (λ w, le_bytes 4 (SWAP32 w)) (take (Z.to_nat (Z.shiftr size 2)) d))
  else take (Z.to_nat size) (concat (map (le_bytes 4) d)).

Definition whole (b : list Z) : Prop := length b = 64%nat.

Lemma cut_S fuel m : m ≠ [] → cut (S fuel) m = take 64 m :: cut fuel (drop 64 m).
Proof. by destruct m. Qed.
Lemma cut_concat bs fuel : Forall whole bs → (length (concat bs) ≤ fuel)%nat → cut fuel (concat bs) = bs.
Proof.
  intros H. revert fuel. induction H as [|b bs Hb H IH]; intros fuel Hf; [by destruct fuel|].
  unfold whole in Hb. cbn [concat] in *. rewrite length_app, Hb in Hf. destruct fuel as [|fuel]; [lia|].
  rewrite cut_S by (intros E; apply (f_equal length) in E; rewrite length_app, Hb in E; simpl in E; lia).
  rewrite take_app_length', drop_app_length' by done. f_equal. apply IH. lia.
Qed.
Lemma blocks_concat bs : Forall whole bs → blocks (concat bs) = bs.
Proof. intros H. by apply cut_concat. Qed.

(** The front of a buffer that data was appended to. *)
Lemma take_blit (dst src tail : list Z) j n :
  take (length tail) dst = tail → 0 ≤ j → 0 ≤ n → j + n ≤ zlen src → zlen tail ≤ zlen dst →
  take (length tail + Z.to_nat n) (blit dst (zlen tail) src j n) = tail ++ slice src j n.
Proof.
  intros Ht Hj Hn Hs Hd. unfold blit, zlen. rewrite Nat2Z.id, Ht, app_assoc. apply take_app_length'.
  rewrite length_app, length_slice by done. done.
Qed.
Lemma blit_whole (dst src tail : list Z) j n :
  take (length tail) dst = tail → 0 ≤ j → 0 ≤ n → j + n ≤ zlen src → zlen dst = zlen tail + n →
  blit dst (zlen tail) src j n = tail ++ slice src j n.
Proof.
  intros Ht Hj Hn Hs Hd. pose proof (zlen_blit dst (zlen tail) src j n) as Hl. pose proof (zlen_nonneg tail).
  rewrite <-(take_blit dst src tail j n) by lia || done. symmetry. apply take_ge. unfold zlen in *. lia.
Qed.

(** ** Streaming *)

Section streaming.
Variable ops : sha_ops.
Notation T := (op_transform ops).

(** The context has taken the message [m]. *)
Record has_taken (c : cavan_sha_context) (d0 : list Z) (bs : list (list Z)) (tail : list Z) : Prop := {
  taken_blocks : Forall whole bs;
  taken_tail : (length tail < 64)%nat;
  taken_digest : digest c = foldl T d0 bs;
  taken_remain : remain c = zlen tail;
  taken_buff : zlen (buff c) = 64;
  taken_front : take (length tail) (buff c) = tail;
  taken_count : count c = u64 (zlen (concat bs ++ tail));
}.

Lemma blocks_loop data size fuel pos d :
  0 ≤ pos ≤ size → size ≤ zlen data → (Z.to_nat (size - pos) < fuel)%nat →
  ∃ bs rest, slice data pos (size - pos) = concat bs ++ rest ∧ Forall whole bs ∧ (length rest < 64)%nat ∧
    rest = slice data (size - zlen rest) (zlen rest) ∧ pos ≤ size - zlen rest ∧
    loop fuel (λ '(pos, digest),
      if size - pos <? 64 then mret (inr (pos, digest))
      else b ← window data pos 64; mret (inl (pos + 64, T digest b))) (pos, d) = Ok (size - zlen rest, foldl T d bs).
Proof.
  intros Hp Hs. revert pos d Hp. induction fuel as [|fuel IH]; intros pos d Hp Hf; [lia|]. rewrite loop_S.
  assert (length (slice data pos (size - pos)) = Z.to_nat (size - pos)) as Hlen by (apply length_slice; lia).
  destruct (Z.ltb_spec (size - pos) 64) as [Hlt|Hge].
  - exists [], (slice data pos (size - pos)). unfold zlen. rewrite Hlen, Z2Nat.id by lia.
    replace (size - (size - pos)) with pos by lia. split_and!; [done|done|lia|done|lia|done].
  - destruct (IH (pos + 64) (T d (slice data pos 64))) as (bs & rest & E & Hbs & Hr & Er & Hpos & HL); [lia|lia|].
    exists (slice data pos 64 :: bs), rest. split_and!; [|constructor; [|done]|done|done|lia|].
    + replace (size - pos) with (64 + (size - (pos + 64))) by lia. rewrite slice_app, E by lia. cbn [concat]. by rewrite app_assoc.
    + unfold whole. rewrite length_slice by lia. done.
    + rewrite window_in by lia. exact HL.
Qed.

(** The end of [cavan_sha_update]: whole blocks from [pos] on, the rest into the
    buffer, behind what it holds. *)
Lemma update_rest data size pos d buff1 (tail : list Z) (K : list Z → Z → list Z → cres cavan_sha_context) :
  0 ≤ pos ≤ size → size ≤ zlen data → zlen buff1 = 64 → take (length tail) buff1 = tail →
  tail = [] ∨ (length tail < 64)%nat ∧ zlen tail + (size - pos) < 64 →
  ∃ bs tail' buff2, tail ++ slice data pos (size - pos) = concat bs ++ tail' ∧ Forall whole bs ∧ (length tail' < 64)%nat ∧
    zlen buff2 = 64 ∧ take (length tail') buff2 = tail' ∧
    ('(pos, digest2) ← loop (S (Z.to_nat size)) (λ '(pos, digest),
       if size - pos <? 64 then mret (inr (pos, digest))
       else b ← window data pos 64; mret (inl (pos + 64, T digest b))) (pos, d);
     let rest := size - pos in
     '(buff2, remain2) ←
       (if negb (rest =? 0) then b ← memcpy buff1 (zlen tail) data pos rest; mret (b, zlen tail + rest)
        else mret (buff1, zlen tail));
     K digest2 remain2 buff2) = K (foldl T d bs) (zlen tail') buff2.
Proof.
  intros Hp Hs Hb Hfr Ht. destruct (blocks_loop data size (S (Z.to_nat size)) pos d) as (bs & rest & E & Hbs & Hr & Er & Hpos & ->); [done|done|lia|].
  cbn [mbind cres_bind]. cbv zeta. replace (size - (size - zlen rest)) with (zlen rest) by lia.
  assert (tail ++ concat bs ++ rest = concat bs ++ tail ++ rest ∧ zlen tail + zlen rest < 64) as [Eq Hfit].
  { destruct Ht as [->|[Ht1 Ht2]]; [split; [done|unfold zlen in *; simpl; lia]|].
    assert (bs = []) as ->.
    { destruct bs as [|b bs]; [done|]. apply (f_equal length) in E. rewrite length_app, length_slice in E by (unfold zlen in *; lia).
      apply Forall_cons in Hbs as [Hbl _]. unfold whole in Hbl. cbn [concat] in E. rewrite length_app, Hbl in E. unfold zlen in *. lia. }
    simpl in E. split; [done|]. assert (zlen rest = size - pos) by (unfold zlen; rewrite <-E, length_slice by (unfold zlen in *; lia); unfold zlen in *; lia). lia. }
  exists bs, (tail ++ rest). destruct (Z.eqb_spec (zlen rest) 0) as [E0|E0]; cbn [negb].
  - exists buff1. assert (rest = []) as -> by (destruct rest; [done|unfold zlen in E0; simpl in E0; lia]).
    cbn [mbind cres_bind mret cres_ret]. rewrite !app_nil_r in *. rewrite E.
    split_and!; [done|done|unfold zlen in *; simpl in *; lia|done|done|done].
  - pose proof (zlen_nonneg rest). rewrite memcpy_in by (unfold zlen in *; lia). cbn [mbind cres_bind mret cres_ret].
    exists (blit buff1 (zlen tail) data (size - zlen rest) (zlen rest)). rewrite E.
    split_and!; [done|done|rewrite length_app; unfold zlen in *; lia|rewrite zlen_blit; unfold zlen in *; lia| |by rewrite zlen_app].
    rewrite length_app. replace (length rest) with (Z.to_nat (zlen rest)) by (unfold zlen; lia).
    rewrite take_blit by (unfold zlen in *; done || lia). by rewrite <-Er.
Qed.

Lemma cavan_sha_update_ok c d0 bs tail data size :
  has_taken c d0 bs tail → 0 ≤ size ≤ zlen data →
  ∃ c' bs' tail', cavan_sha_update ops c data size = Ok c' ∧ has_taken c' d0 bs' tail' ∧
    concat bs' ++ tail' = concat bs ++ tail ++ slice data 0 size ∧ flags c' = flags c ∧ digest_size c' = digest_size c.
Proof.
  intros [Hbs Ht Hd Hr Hb Hfr Hc] Hs. unfold cavan_sha_update. pose proof (zlen_nonneg tail).
  set (K := λ digest2 remain2 buff2, mret {| count := u64 (count c + size); flags := flags c; digest := digest2; remain := remain2;
          digest_size := digest_size c; buff := buff2 |} : cres cavan_sha_context).
  assert (∀ bs1 tail1 buff1 pos, (* after the first block *)
    Forall whole bs1 → 0 ≤ pos ≤ size → zlen buff1 = 64 → take (length tail1) buff1 = tail1 →
    concat bs1 ++ tail1 = concat bs ++ tail ++ slice data 0 pos → tail1 = [] ∨ (length tail1 < 64)%nat ∧ zlen tail1 + (size - pos) < 64 →
    ∃ c' bs' tail', ('(pos, digest2) ← loop (S (Z.to_nat size)) (λ '(pos, digest),
       if size - pos <? 64 then mret (inr (pos, digest))
       else b ← window data pos 64; mret (inl (pos + 64, T digest b))) (pos, foldl T d0 bs1);
     let rest := size - pos in
     '(buff2, remain2) ←
       (if negb (rest =? 0) then b ← memcpy buff1 (zlen tail1) data pos rest; mret (b, zlen tail1 + rest)
        else mret (buff1, zlen tail1));
     K digest2 remain2 buff2) = Ok c' ∧ has_taken c' d0 bs' tail' ∧
      concat bs' ++ tail' = concat bs ++ tail ++ slice data 0 size ∧ flags c' = flags c ∧ digest_size c' = digest_size c) as Hrest.
  { intros bs1 tail1 buff1 pos H1 Hp Hb1 Hf1 E1 Ht1.
    destruct (update_rest data size pos (foldl T d0 bs1) buff1 tail1 K) as (bs2 & tail' & buff2 & E2 & H2 & Ht' & Hb2 & Hf2 & ->); try done; [lia|].
    assert (concat (bs1 ++ bs2) ++ tail' = concat bs ++ tail ++ slice data 0 size) as Eall.
    { rewrite concat_app, <-app_assoc, <-E2, app_assoc, E1, <-!app_assoc. do 2 f_equal.
      replace size with (pos + (size - pos)) at 2 by lia. by rewrite slice_app by lia. }
    eexists _, (bs1 ++ bs2), tail'. split; [done|]. split_and!; [|done|done|done].
    split; cbn [digest remain buff count]; [by apply Forall_app|done|by rewrite foldl_app|done|done|done|].
    rewrite Eall, Hc, (app_assoc (concat bs)), (zlen_app (concat bs ++ tail)), (zlen_slice data 0 size) by lia. unfold u64, wrap. by rewrite Z.add_mod_idemp_l. }
  rewrite Hr. destruct (Z.ltb_spec 0 (zlen tail)) as [Hpos|Hpos].
  - cbv zeta. destruct (Z.leb_spec (64 - zlen tail) size) as [Hfull|Hfew].
    + rewrite memcpy_in by (unfold zlen in *; lia). cbn [mbind cres_bind mret cres_ret].
      rewrite blit_whole by (unfold zlen in *; done || lia). set (blk := tail ++ slice data 0 (64 - zlen tail)). rewrite Hd.
      change (T (foldl T d0 bs) blk) with (foldl T (foldl T d0 bs) [blk]). rewrite <-foldl_app.
      assert (whole blk) as Hw by (unfold whole, blk; rewrite length_app, length_slice by (unfold zlen in *; lia); unfold zlen in *; lia).
      apply (Hrest (bs ++ [blk]) [] blk (64 - zlen tail)); [by apply Forall_app; split; [|apply Forall_cons]|unfold zlen in *; lia| |done| |by left].
      * unfold whole, zlen in *. lia.
      * rewrite concat_app. cbn [concat]. by rewrite !app_nil_r.
    + cbn [mbind cres_bind mret cres_ret]. rewrite Hd. apply (Hrest bs tail (buff c) 0); try done; [lia|by rewrite slice_0, app_nil_r|right; split; [done|lia]].
  - assert (tail = []) as -> by (destruct tail; [done|unfold zlen in Hpos; simpl in Hpos; lia]).
    cbn [mbind cres_bind mret cres_ret]. rewrite Hd. apply (Hrest bs [] (buff c) 0); try done; [lia|by left].
Qed.

(** Updates one after the other. *)
Fixpoint sha_feed (c : cavan_sha_context) (ds : list (list Z)) : cres cavan_sha_context :=
  match ds with [] => mret c | d :: ds => c ← cavan_sha_update ops c d (zlen d); sha_feed c ds end.

Lemma sha_feed_ok ds : ∀ c d0 bs tail,
  has_taken c d0 bs tail →
  ∃ c' bs' tail', sha_feed c ds = Ok c' ∧ has_taken c' d0 bs' tail' ∧
    concat bs' ++ tail' = concat bs ++ tail ++ concat ds ∧ flags c' = flags c ∧ digest_size c' = digest_size c.
Proof.
  induction ds as [|d ds IH]; intros c d0 bs tail Ht.
  - exists c, bs, tail. cbn [concat sha_feed]. by rewrite app_nil_r.
  - destruct (cavan_sha_update_ok c d0 bs tail d (zlen d) Ht) as (c1 & bs1 & tail1 & E1 & H1 & M1 & F1 & D1); [pose proof (zlen_nonneg d); lia|].
    destruct (IH c1 d0 bs1 tail1 H1) as (c2 & bs2 & tail2 & E2 & H2 & M2 & F2 & D2).
    exists c2, bs2, tail2. cbn [sha_feed concat]. rewrite E1. cbn [mbind cres_bind]. split_and!; [done|done| |congruence|congruence].
    rewrite M2, app_assoc, M1, slice_all, <-!app_assoc by done. done.
Qed.

Lemma le_bytes_wrap n v w : 8 * Z.of_nat n ≤ w → le_bytes n (wrap w v) = le_bytes n v.
Proof.
  revert w v. induction n as [|n IH]; intros w v Hw; [done|]. cbn [le_bytes].
  assert (u8 (wrap w v) = u8 v) as ->.
  { apply Z.bits_inj'. intros i Hi. rewrite !testbit_wrap by lia. destruct (Z.ltb_spec i 8); [|done]. by rewrite (proj2 (Z.ltb_lt i w)) by lia. }
  f_equal. assert (Z.shiftr (wrap w v) 8 = wrap (w - 8) (Z.shiftr v 8)) as ->; [|apply IH; lia].
  apply Z.bits_inj'. intros i Hi. rewrite Z.shiftr_spec, !testbit_wrap, Z.shiftr_spec by lia.
  destruct (Z.ltb_spec (i + 8) w), (Z.ltb_spec i (w - 8)); lia || done.
Qed.

Definition length_bytes (swap : bool) (n : Z) : list Z :=
  let bytes := le_bytes 8 (8 * n) in if swap then rev bytes else bytes.
Lemma zlen_length_bytes swap n : zlen (length_bytes swap n) = 8.
Proof. unfold length_bytes, zlen. destruct swap; [rewrite length_rev|]; by rewrite length_le_bytes. Qed.

Lemma memset_tail (tail b : list Z) n :
  take (length tail) b = tail → zlen tail + n ≤ zlen b → 0 ≤ n →
  memset b (zlen tail) 0 n = Ok (tail ++ repeat 0 (Z.to_nat n) ++ drop (Z.to_nat (zlen tail + n)) b).
Proof.
  intros Ht Hl Hn. pose proof (zlen_nonneg tail). unfold memset. rewrite memcpy_in; try lia; [|unfold zlen; rewrite repeat_length; lia].
  f_equal. unfold blit. rewrite slice_all by (unfold zlen; rewrite repeat_length; lia). unfold zlen at 1. by rewrite Nat2Z.id, Ht.
Qed.

Lemma last_bytes (front : list Z) rest bytes :
  zlen front = 56 → zlen rest = 8 → zlen bytes = 8 → memcpy (front ++ rest) 56 bytes 0 8 = Ok (front ++ bytes).
Proof.
  intros Hf Hr Hb. rewrite memcpy_in by (rewrite ?zlen_app; lia). f_equal. unfold blit. rewrite slice_all by done.
  rewrite take_app_length' by (unfold zlen in *; lia). rewrite (drop_ge (front ++ rest)) by (rewrite length_app; unfold zlen in *; lia). by rewrite app_nil_r.
Qed.

(** The blocks that end the message. *)
Lemma pad_blocks swap m bs tail :
  Forall whole bs → (length tail < 64)%nat → concat bs ++ tail = m ++ [0x80] →
  pad swap m = concat (bs ++ (if decide (zlen tail ≤ 56)
    then [tail ++ repeat 0 (Z.to_nat (56 - zlen tail)) ++ length_bytes swap (zlen m)]
    else [tail ++ repeat 0 (Z.to_nat (64 - zlen tail)); repeat 0 56 ++ length_bytes swap (zlen m)])).
Proof.
  intros Hbs Ht E. assert (zlen m + 1 = 64 * Z.of_nat (length bs) + zlen tail) as Hlen.
  { apply (f_equal zlen) in E. rewrite !zlen_app in E. change (zlen [128]) with 1 in E. rewrite <-E. f_equal.
    clear -Hbs. induction Hbs as [|b bs Hb H IH]; [done|]. cbn [concat length]. rewrite zlen_app, IH. unfold whole, zlen in *. lia. }
  unfold pad. rewrite app_assoc, <-E, concat_app, <-!app_assoc. f_equal. fold (length_bytes swap (zlen m)). unfold zlen in *.
  case_decide as Hc; cbn [concat]; rewrite app_nil_r; [|rewrite <-app_assoc]; f_equal.
  - do 3 f_equal. symmetry. apply (Z.mod_unique_pos _ _ (- Z.of_nat (length bs))); lia.
  - rewrite app_assoc, <-repeat_app. do 2 f_equal.
    replace ((55 - Z.of_nat (length m)) mod 64) with (120 - Z.of_nat (length tail)); [lia|].
    apply (Z.mod_unique_pos _ _ (- Z.of_nat (length bs) - 1)); lia.
Qed.

Lemma cavan_sha_finish_ok c d0 bs tail :
  has_taken c d0 bs tail →
  let m := concat bs ++ tail in let swap := negb (Z.land (flags c) SHA_FLAG_SWAP =? 0) in
  ∃ c', cavan_sha_finish ops c = Ok (c', digest_of swap (digest_size c) (foldl T d0 (blocks (pad swap m)))).
Proof.
  intros Ht m swap. unfold cavan_sha_finish. cbv zeta.
  destruct (cavan_sha_update_ok c d0 bs tail [128] 1 Ht ltac:(done)) as (c1 & bs1 & t1 & -> & H1 & M1 & F1 & D1).
  cbn [mbind cres_bind]. rewrite app_assoc in M1. fold m in M1. change (slice [128] 0 1) with [128] in M1.
  pose proof H1 as [Hbs1 Ht1 Hd1 Hr1 Hb1 Hf1 _].
  assert ((if swap then rev (le_bytes 8 (u64 (Z.shiftl (count c) 3))) else le_bytes 8 (u64 (Z.shiftl (count c) 3))) = length_bytes swap (zlen m)) as Hbytes.
  { unfold length_bytes. assert (le_bytes 8 (u64 (Z.shiftl (count c) 3)) = le_bytes 8 (8 * zlen m)) as ->; [|done].
    rewrite <-(le_bytes_wrap 8 (8 * zlen m) 64) by lia. f_equal. rewrite (taken_count _ _ _ _ Ht), Z.shiftl_mul_pow2 by lia. fold m. unfold u64, wrap.
    rewrite Z.mul_mod_idemp_l by lia. f_equal. lia. }
  rewrite F1, D1. fold swap. rewrite Hbytes. rewrite (pad_blocks swap m bs1 t1) by done. set (L := length_bytes swap (zlen m)).
  pose proof (zlen_length_bytes swap (zlen m)) as HL. fold L in HL. change (64 - 8) with 56. rewrite Hr1. pose proof (zlen_nonneg t1).
  destruct (Z.ltb_spec 56 (zlen t1)) as [Hlt|Hge].
  - rewrite decide_False by lia. rewrite memset_tail by (done || unfold zlen in *; lia). cbn [mbind cres_bind mret cres_ret].
    rewrite (drop_ge (buff c1)), app_nil_r by (unfold zlen in *; lia). set (b1 := t1 ++ repeat 0 (Z.to_nat (64 - zlen t1))).
    assert (memset b1 0 0 (zlen t1) = Ok (repeat 0 56 ++ repeat 0 8)) as ->.
    { assert (zlen b1 = 64) as Hb1' by (unfold b1; rewrite zlen_app; unfold zlen in *; rewrite repeat_length; lia).
      pose proof (memset_tail [] b1 (zlen t1) eq_refl) as E. change (zlen (@nil Z)) with 0 in E. rewrite E by (unfold zlen in *; lia). f_equal.
      unfold b1. rewrite drop_app_length' by (unfold zlen; lia). cbn [app]. rewrite <-!repeat_app. f_equal. unfold zlen in *. lia. }
    cbn [mbind cres_bind mret cres_ret]. rewrite last_bytes by done. cbn [mbind cres_bind mret cres_ret].
    eexists. do 2 f_equal. unfold digest_of. rewrite blocks_concat.
    + rewrite foldl_app. cbn [foldl]. rewrite Hd1. done.
    + apply Forall_app. split; [done|]. apply Forall_cons. split; [|apply Forall_cons; split; [|done]].
      * unfold whole, b1, zlen in *. rewrite length_app, repeat_length. lia.
      * unfold whole, zlen in *. rewrite length_app, repeat_length. lia.
  - rewrite decide_True by lia. rewrite memset_tail by (done || unfold zlen in *; lia). cbn [mbind cres_bind mret cres_ret].
    rewrite app_assoc. rewrite last_bytes; [|rewrite zlen_app; unfold zlen in *; rewrite repeat_length; lia|unfold zlen in *; rewrite length_drop; lia|done].
    cbn [mbind cres_bind mret cres_ret]. eexists. do 2 f_equal. unfold digest_of. rewrite blocks_concat.
    + rewrite foldl_app. cbn [foldl]. rewrite Hd1, <-app_assoc. by replace (64 - zlen t1 - 8) with (56 - zlen t1) by lia.
    + apply Forall_app. split; [done|]. apply Forall_cons. split; [|done]. unfold whole, zlen in *. rewrite !length_app, repeat_length. lia.
Qed.
End streaming.

(** ** SHA-1 as FIPS 180 defines it *)

Definition fips_f (t b c d : Z) : Z :=
  if t <? 20 then Z.lxor (Z.land b c) (Z.land (not32 b) d)
  else if t <? 40 then Z.lxor (Z.lxor b c) d
  else if t <? 60 then Z.lxor (Z.lxor (Z.land b c) (Z.land b d)) (Z.land c d)
  else Z.lxor (Z.lxor b c) d.
Definition fips_k (t : Z) : Z :=
  if t <? 20 then 0x5A827999 else if t <? 40 then 0x6ED9EBA1 else if t <? 60 then 0x8F1BBCDC else 0xCA62C1D6.
Definition be_word (m : list Z) (i : Z) : Z :=
  get m (4 * i) * 2 ^ 24 + get m (4 * i + 1) * 2 ^ 16 + get m (4 * i + 2) * 2 ^ 8 + get m (4 * i + 3).

(** The message schedule. *)
Definition fips_schedule (m W : list Z) : Prop :=
  zlen W = 80 ∧ (∀ t, 0 ≤ t < 16 → get W t = be_word m t) ∧
  ∀ t, 16 ≤ t < 80 → get W t = ROL (Z.lxor (Z.lxor (Z.lxor (get W (t - 3)) (get W (t - 8))) (get W (t - 14))) (get W (t - 16))) 1.

Definition fips_round (W : list Z) (regs : Z * Z * Z * Z * Z) (t : Z) : Z * Z * Z * Z * Z :=
  let '(a, b, c, d, e) := regs in
  (u32 (ROL a 5 + fips_f t b c d + e + fips_k t + get W t), a, ROL b 30, c, d).
Definition fips_compress (W digest : list Z) : list Z :=
  let '(a, b, c, d, e) := foldl (fips_round W) (get digest 0, get digest 1, get digest 2, get digest 3, get digest 4) (seqZ 0 80) in
  [u32 (get digest 0 + a); u32 (get digest 1 + b); u32 (get digest 2 + c); u32 (get digest 3 + d); u32 (get digest 4 + e)] ++ drop 5 digest.

Definition word_ok (x : Z) : Prop := 0 ≤ x < 2 ^ 32.

Lemma word_high x i : word_ok x → 32 ≤ i → Z.testbit x i = false.
Proof. intros Hx Hi. rewrite <-(Z.mod_small x (2 ^ 32)) by done. apply Z.mod_pow2_bits_high. lia. Qed.
Lemma word_of_bits x : 0 ≤ x → (∀ i, 32 ≤ i → Z.testbit x i = false) → word_ok x.
Proof.
  intros H0 H. split; [done|]. assert (x mod 2 ^ 32 = x) as <-; [|apply Z.mod_pos_bound; lia].
  apply Z.bits_inj'. intros i Hi. destruct (Z.lt_ge_cases i 32); [by apply Z.mod_pow2_bits_low|].
  rewrite Z.mod_pow2_bits_high by lia. symmetry. by apply H.
Qed.
Lemma ROL_ok x n : word_ok x → 0 ≤ n ≤ 32 → word_ok (ROL x n).
Proof.
  intros Hx Hn. pose proof (wrap_range 32 (Z.shiftl x n) ltac:(lia)) as Hw. apply word_of_bits.
  - apply Z.lor_nonneg. split; [lia|]. apply Z.shiftr_nonneg. unfold word_ok in Hx. lia.
  - intros i Hi. unfold ROL. rewrite Z.lor_spec, (word_high (u32 _) i), Z.shiftr_spec, (word_high x) by (done || lia). done.
Qed.

Lemma choose_eq b c d : word_ok b → word_ok c → word_ok d → Z.lxor d (Z.land b (Z.lxor c d)) = Z.lxor (Z.land b c) (Z.land (not32 b) d).
Proof.
  intros Hb Hc Hd. apply Z.bits_inj'. intros i Hi. unfold not32. rewrite !Z.lxor_spec, !Z.land_spec, Z.lxor_spec, testbit_wrap, Z.lnot_spec by lia.
  destruct (Z.ltb_spec i 32).
  - by destruct (Z.testbit b i), (Z.testbit c i), (Z.testbit d i).
  - by rewrite !(word_high _ i) by done.
Qed.
Lemma majority_eq b c d : Z.lor (Z.land b c) (Z.land d (Z.lor b c)) = Z.lxor (Z.lxor (Z.land b c) (Z.land b d)) (Z.land c d).
Proof.
  apply Z.bits_inj'. intros i Hi. rewrite !Z.lxor_spec, !Z.lor_spec, !Z.land_spec, Z.lor_spec.
  by destruct (Z.testbit b i), (Z.testbit c i), (Z.testbit d i).
Qed.

Lemma u32_add_r a b : u32 (a + u32 b) = u32 (a + b).
Proof. unfold u32, wrap. by rewrite Z.add_mod_idemp_r. Qed.

Lemma sha1_sum e r w x k : u32 (e + u32 (r + u32 (w + u32 (x + k)))) = u32 (r + x + e + k + w).
Proof.
  rewrite u32_add_r, Z.add_assoc, u32_add_r, Z.add_assoc, u32_add_r. f_equal. lia.
Qed.

Definition regs_ok (regs : Z * Z * Z * Z * Z) : Prop :=
  let '(a, b, c, d, e) := regs in word_ok a ∧ word_ok b ∧ word_ok c ∧ word_ok d ∧ word_ok e.

(** The function of twenty rounds. *)
Definition round_fn (t : Z) : Z → Z → Z → Z → Z → Z → Z :=
  if t <? 20 then SHA1_FUNC11 else if t <? 40 then SHA1_FUNC12 else if t <? 60 then SHA1_FUNC13 else SHA1_FUNC14.

Lemma sha1_line_ok W regs t :
  regs_ok regs → sha1_line (round_fn t) regs (get W t) = fips_round W regs t ∧ regs_ok (fips_round W regs t).
Proof.
  destruct regs as [[[[a b] c] d] e]. intros (Ha & Hb & Hc & Hd & He). split.
  - unfold sha1_line, fips_round, round_fn, fips_f, fips_k. rewrite <-choose_eq, <-majority_eq by done.
    assert (ROR b 2 = ROL b 30) as -> by (unfold ROR, ROL; by rewrite Z.lor_comm).
    destruct (t <? 20); [|destruct (t <? 40); [|destruct (t <? 60)]];
      unfold SHA1_FUNC11, SHA1_FUNC12, SHA1_FUNC13, SHA1_FUNC14, SHA1_FUNC1_BASE; by rewrite sha1_sum.
  - cbn [fips_round regs_ok]. split_and!; try done; [apply wrap_range; lia|apply ROL_ok; [done|lia]].
Qed.

Lemma sha1_lines_ok W F regs i n :
  (∀ t, i ≤ t < i + Z.of_nat n → round_fn t = F) → regs_ok regs →
  foldl (sha1_line F) regs (map (get W) (seqZ i (Z.of_nat n))) = foldl (fips_round W) regs (seqZ i (Z.of_nat n)) ∧
  regs_ok (foldl (fips_round W) regs (seqZ i (Z.of_nat n))).
Proof.
  revert i regs. induction n as [|n IH]; intros i regs HF Hr; [done|].
  rewrite seqZ_cons by lia. replace (Z.pred (Z.of_nat (S n))) with (Z.of_nat n) by lia. cbn [map foldl].
  destruct (sha1_line_ok W regs i Hr) as [E Hr']. rewrite <-(HF i) by lia. rewrite E. rewrite (HF i) by lia.
  apply IH; [|done]. intros t Ht. apply HF. lia.
Qed.

(** Bytes as stored: the words the code swaps are big-endian words. *)
Lemma land_byte_mask v k : 0 ≤ k → Z.land v (Z.shiftl 255 k) = Z.shiftl (Z.shiftr v k mod 256) k.
Proof.
  intros Hk. change 255 with (Z.ones 8). change 256 with (2 ^ 8). rewrite <-Z.land_ones by lia.
  rewrite Z.shiftl_land, <-Z.ldiff_ones_r by lia. apply Z.bits_inj'. intros i Hi.
  rewrite !Z.land_spec, Z.ldiff_spec, Z.shiftl_spec by lia.
  destruct (Z.lt_ge_cases i k).
  - by rewrite (Z.testbit_neg_r (Z.ones 8)), !andb_false_r by lia.
  - by rewrite (Z.ones_spec_high k), andb_true_r by lia.
Qed.

Definition is_byte (b : Z) : Prop := 0 ≤ b < 256.

Lemma SWAP32_bytes b0 b1 b2 b3 :
  is_byte b0 → is_byte b1 → is_byte b2 → is_byte b3 →
  SWAP32 (le_word [b0; b1; b2; b3]) = b0 * 2 ^ 24 + b1 * 2 ^ 16 + b2 * 2 ^ 8 + b3.
Proof.
  unfold is_byte. intros H0 H1 H2 H3. cbn [le_word]. set (v := b0 + 256 * (b1 + 256 * (b2 + 256 * (b3 + 256 * 0)))). unfold SWAP32.
  change 0x00FF0000 with (Z.shiftl 255 16). change 0x0000FF00 with (Z.shiftl 255 8).
  rewrite !land_byte_mask by lia.
  assert (Z.shiftr v 24 = b3) as -> by (rewrite Z.shiftr_div_pow2 by lia; symmetry; apply (Z.div_unique_pos _ _ _ (b0 + 256 * b1 + 65536 * b2)); lia).
  assert (Z.shiftr v 16 mod 256 = b2) as ->.
  { rewrite Z.shiftr_div_pow2 by lia. replace (v / 2 ^ 16) with (b2 + 256 * b3); [|apply (Z.div_unique_pos _ _ _ (b0 + 256 * b1)); lia].
    symmetry. apply (Z.mod_unique_pos _ _ b3); lia. }
  assert (Z.shiftr v 8 mod 256 = b1) as ->.
  { rewrite Z.shiftr_div_pow2 by lia. replace (v / 2 ^ 8) with (b1 + 256 * b2 + 65536 * b3); [|apply (Z.div_unique_pos _ _ _ b0); lia].
    symmetry. apply (Z.mod_unique_pos _ _ (b2 + 256 * b3)); lia. }
  assert (u32 (Z.shiftl v 24) = Z.shiftl b0 24) as ->.
  { rewrite !Z.shiftl_mul_pow2 by lia. unfold u32, wrap. symmetry. apply (Z.mod_unique_pos _ _ (b1 + 256 * b2 + 65536 * b3)); lia. }
  rewrite Z.shiftr_shiftl_l, Z.shiftl_shiftl by lia. change (16 - 8) with 8. change (8 + 8) with 16.
  rewrite <-!Z.lor_assoc, (Z.lor_comm (Z.shiftl b0 24)), !Z.lor_assoc.
  rewrite (lor_shiftl_add b3) by lia. rewrite (lor_shiftl_add (b3 + 2 ^ 8 * b2)) by lia. rewrite lor_shiftl_add by lia. lia.
Qed.

Lemma schedule_loop n W :
  16 ≤ zlen W → let R := foldl (λ W i, W ++ [schedule_word W i]) W (seqZ (zlen W) (Z.of_nat n)) in
  zlen R = zlen W + Z.of_nat n ∧ (∀ t, 0 ≤ t < zlen W → get R t = get W t) ∧
  ∀ t, zlen W ≤ t < zlen W + Z.of_nat n → get R t = schedule_word R t.
Proof.
  revert W. induction n as [|n IH]; intros W HW; cbv zeta.
  - change (foldl _ W _) with W. split_and!; [lia|done|intros; lia].
  - rewrite seqZ_cons by lia. replace (Z.pred (Z.of_nat (S n))) with (Z.of_nat n) by lia. cbn [foldl].
    set (W' := W ++ [schedule_word W (zlen W)]).
    assert (zlen W' = Z.succ (zlen W)) as HW' by (unfold W'; rewrite zlen_app; change (zlen [schedule_word W (zlen W)]) with 1; lia).
    destruct (IH W') as (Hl & Hlow & Hhigh); [lia|]. rewrite HW' in *. set (R := foldl _ W' _) in *.
    assert (∀ t, 0 ≤ t < zlen W → get R t = get W t) as Hold by (intros t Ht; rewrite Hlow by lia; unfold W'; by rewrite get_app_l by lia).
    split_and!; [lia|done|]. intros t Ht. destruct (Z.eq_dec t (zlen W)) as [->|]; [|apply Hhigh; lia].
    rewrite Hlow by lia. unfold W'. rewrite get_app_r, Z.sub_diag by lia. change (get [schedule_word W (zlen W)] 0) with (schedule_word W (zlen W)).
    unfold schedule_word. by rewrite !Hold by lia.
Qed.

Lemma four_bytes (m : list Z) i : 0 ≤ i → i + 4 ≤ zlen m → slice m i 4 = [get m i; get m (i + 1); get m (i + 2); get m (i + 3)].
Proof.
  intros Hi Hm. assert (length (slice m i 4) = 4%nat) as Hl by (rewrite length_slice by lia; done).
  pose proof (get_slice m i 4 0) as E0. pose proof (get_slice m i 4 1) as E1. pose proof (get_slice m i 4 2) as E2. pose proof (get_slice m i 4 3) as E3.
  rewrite Z.add_0_r in E0. rewrite <-E0, <-E1, <-E2, <-E3 by lia. clear E0 E1 E2 E3.
  destruct (slice m i 4) as [|? [|? [|? [|? [|? ?]]]]]; done.
Qed.

Lemma schedule_loop_at n N E W (L : Z) :
  zlen W = L → 16 ≤ L → Z.of_nat n = N → L + N = E →
  let R := foldl (λ W i, W ++ [schedule_word W i]) W (seqZ L N) in
  zlen R = E ∧ (∀ t, 0 ≤ t < L → get R t = get W t) ∧ ∀ t, L ≤ t < E → get R t = schedule_word R t.
Proof. intros <- HW <- <-. by apply schedule_loop. Qed.

Lemma sha1_schedule_fips m : zlen m = 64 → Forall is_byte m → fips_schedule m (sha1_schedule m).
Proof.
  intros Hm Hb. unfold fips_schedule, sha1_schedule. destruct (schedule_loop_at 64 64 80 (map (λ i, SWAP32 (buff_word m i)) (seqZ 0 16)) 16) as (Hl & Hlow & Hhigh); [done..|].
  split; [exact Hl|]. split; intros t Ht; [|refine (eq_trans (Hhigh t Ht) _); unfold schedule_word; reflexivity]. refine (eq_trans (Hlow t Ht) _).
  assert (∀ i, 0 ≤ i < 64 → is_byte (get m i)) as Hg by (intros i Hi; eapply Forall_lookup_1; [exact Hb|apply list_lookup_lookup_total_lt; unfold zlen in Hm; lia]).
  unfold get at 1. erewrite list_lookup_total_correct; [|by rewrite list_lookup_fmap, lookup_seqZ_lt by lia].
  replace (0 + Z.of_nat (Z.to_nat t)) with t by lia.
  unfold buff_word, be_word. rewrite four_bytes by lia. rewrite SWAP32_bytes by (apply Hg; lia). lia.
Qed.

Lemma take_map_get (W : list Z) i n : 0 ≤ i → i + Z.of_nat n ≤ zlen W → take n (drop (Z.to_nat i) W) = map (get W) (seqZ i (Z.of_nat n)).
Proof.
  intros Hi Hn. apply list_eq. intros k. rewrite list_lookup_fmap. destruct (Nat.lt_ge_cases k n) as [Hk|Hk].
  - rewrite lookup_take, lookup_drop, lookup_seqZ_lt by lia. simpl. unfold get. rewrite decide_True by done.
    replace (Z.to_nat (i + Z.of_nat k)) with (Z.to_nat i + k)%nat by lia. apply list_lookup_lookup_total_lt. unfold zlen in Hn. lia.
  - rewrite (lookup_ge_None_2 (take n _)) by (rewrite length_take; lia). rewrite (lookup_ge_None_2 (seqZ _ _)) by (rewrite length_seqZ; lia). done.
Qed.

Lemma sha1_transfrom_ok W F i (regs : Z * Z * Z * Z * Z) :
  zlen W = 80 → 0 ≤ i → i + 20 ≤ 80 → (∀ t, i ≤ t < i + 20 → round_fn t = F) → regs_ok regs →
  SHA1_TRANSFROM F (drop (Z.to_nat i) W) regs = foldl (fips_round W) regs (seqZ i 20) ∧
  regs_ok (foldl (fips_round W) regs (seqZ i 20)).
Proof.
  intros HW H0 H1 HF Hr. destruct (sha1_lines_ok W F regs i 20 HF Hr) as [E Hok].
  unfold SHA1_TRANSFROM. rewrite take_map_get by lia. by split.
Qed.

Lemma round_fn_ranges t :
  (0 ≤ t < 20 → round_fn t = SHA1_FUNC11) ∧ (20 ≤ t < 40 → round_fn t = SHA1_FUNC12) ∧
  (40 ≤ t < 60 → round_fn t = SHA1_FUNC13) ∧ (60 ≤ t < 80 → round_fn t = SHA1_FUNC14).
Proof.
  unfold round_fn. destruct (Z.ltb_spec t 20), (Z.ltb_spec t 40), (Z.ltb_spec t 60); split_and!; intros Ht; done || lia.
Qed.

Lemma sha1_rounds W (regs : Z * Z * Z * Z * Z) :
  zlen W = 80 → regs_ok regs →
  SHA1_TRANSFROM SHA1_FUNC14 (drop 60 W) (SHA1_TRANSFROM SHA1_FUNC13 (drop 40 W)
    (SHA1_TRANSFROM SHA1_FUNC12 (drop 20 W) (SHA1_TRANSFROM SHA1_FUNC11 W regs))) =
  foldl (fips_round W) regs (seqZ 0 80).
Proof.
  intros HW Hr.
  destruct (sha1_transfrom_ok W SHA1_FUNC11 0 regs) as [E1 H1]; [done|lia..|intros t Ht; by apply round_fn_ranges|done|].
  destruct (sha1_transfrom_ok W SHA1_FUNC12 20 _ HW ltac:(lia) ltac:(lia) (λ t Ht, proj1 (proj2 (round_fn_ranges t)) Ht) H1) as [E2 H2].
  destruct (sha1_transfrom_ok W SHA1_FUNC13 40 _ HW ltac:(lia) ltac:(lia) (λ t Ht, proj1 (proj2 (proj2 (round_fn_ranges t))) Ht) H2) as [E3 H3].
  destruct (sha1_transfrom_ok W SHA1_FUNC14 60 _ HW ltac:(lia) ltac:(lia) (λ t Ht, proj2 (proj2 (proj2 (round_fn_ranges t))) Ht) H3) as [E4 _].
  change (drop (Z.to_nat 0) W) with W in E1. rewrite E1.
  refine (eq_trans (f_equal _ (f_equal _ E2)) _). refine (eq_trans (f_equal _ E3) _). refine (eq_trans E4 _).
  rewrite <-!foldl_app. f_equal.
Qed.

Lemma sha1_transform_fips d m :
  zlen m = 64 → Forall is_byte m → 5 ≤ zlen d → Forall word_ok (take 5 d) →
  cavan_sha1_transform d m = fips_compress (sha1_schedule m) d.
Proof.
  intros Hm Hb Hd Hw. destruct (sha1_schedule_fips m Hm Hb) as (HW & _ & _).
  unfold cavan_sha1_transform, fips_compress. cbv zeta. generalize dependent (sha1_schedule m). intros W HW.
  destruct d as [|a [|b [|c [|d [|e rest]]]]]; try (unfold zlen in Hd; simpl in Hd; lia).
  cbn [take] in Hw. rewrite !Forall_cons in Hw. destruct Hw as (Ha & Hb' & Hc & Hd' & He & _).
  rewrite sha1_rounds by done. cbn [get]. 
  change (get (a :: b :: c :: d :: e :: rest) 0) with a. change (get (a :: b :: c :: d :: e :: rest) 1) with b.
  change (get (a :: b :: c :: d :: e :: rest) 2) with c. change (get (a :: b :: c :: d :: e :: rest) 3) with d.
  change (get (a :: b :: c :: d :: e :: rest) 4) with e.
  destruct (foldl _ _ _) as [[[[A B] C] D] E]. done.
Qed.

(** ** Properties *)

Lemma taken_init p i t c fl size d0 :
  init p = Some i → transform p = Some t → i (digest c) = (fl, size, d0) → zlen (buff c) = 64 →
  let ops := {| op_init := i; op_transform := t |} in
  ∃ c', cavan_sha_init p c = inr (ops, c') ∧ has_taken ops c' d0 [] [] ∧ flags c' = fl ∧ digest_size c' = size.
Proof.
  intros Ei Et E Hb. eexists. unfold cavan_sha_init. rewrite Ei, Et, E. split_and!; [done|split|..]; try done.
  unfold zlen. simpl. lia.
Qed.

Lemma sha_feed_one ops c d : sha_feed ops c [d] = cavan_sha_update ops c d (zlen d).
Proof. cbn [sha_feed]. by destruct (cavan_sha_update ops c d (zlen d)). Qed.

(** C15: whatever pieces a message is handed over in, [cavan_sha_init],
    [cavan_sha_update] once per piece and [cavan_sha_finish] return what
    [cavan_shasum] returns for the whole message: the digest of the message
    padded with a one bit, zeros and its length to whole blocks of 64 bytes,
    the blocks compressed one after the other.  No access leaves the buffer.
    [init] is any function that sets the flags, the size and the first digest,
    [transform] any compression. *)
Theorem cavan_sha_streams p i t c ds fl size d0
  (Ei : init p = Some i) (Et : transform p = Some t) (Hi : i (digest c) = (fl, size, d0)) (Hb : zlen (buff c) = 64) :
  let m := concat ds in let swap := negb (Z.land fl SHA_FLAG_SWAP =? 0) in
  let answer := digest_of swap size (foldl t d0 (blocks (pad swap m))) in
  (∃ ops c0 c', cavan_sha_init p c = inr (ops, c0) ∧ (c ← sha_feed ops c0 ds; cavan_sha_finish ops c) = Ok (c', answer)) ∧
  ∃ c', cavan_shasum p c m (zlen m) = Ok (inr (c', answer)).
Proof.
  destruct (taken_init p i t c fl size d0 Ei Et Hi Hb) as (c0 & E0 & Ht & <- & <-). intros m swap answer. set (ops := Build_sha_ops i t) in *.
  assert (∀ ds, concat ds = m → ∃ c', (c ← sha_feed ops c0 ds; cavan_sha_finish ops c) = Ok (c', answer)) as H.
  { intros ds' Eds. destruct (sha_feed_ok ops ds' _ _ _ _ Ht) as (c1 & bs & tail & -> & H1 & M & F & D).
    destruct (cavan_sha_finish_ok ops c1 d0 bs tail H1) as [c' E]. exists c'. cbn [mbind cres_bind] in *.
    refine (eq_trans E _). rewrite F, D, M. cbn [concat app]. by rewrite Eds. }
  split; [destruct (H ds eq_refl) as [c' E]; by exists ops, c0, c'|].
  destruct (H [m]) as [c' E]; [cbn [concat]; by rewrite app_nil_r|]. exists c'. rewrite sha_feed_one in E. unfold cavan_shasum. rewrite E0.
  cbn [mbind cres_bind] in *. destruct (cavan_sha_update _ _ _ _); try done. cbn [mbind cres_bind] in *. by rewrite E.
Qed.

Lemma cavan_sha_streams_witness :
  let p := cavan_sha1_context_init in let c := fresh_context 5 in let ds := [[97]; []; [98; 99]] in
  let d0 := [0x67452301; 0xEFCDAB89; 0x98BADCFE; 0x10325476; 0xC3D2E1F0; 5; 5; 5] in
  cavan_sha1_init (digest c) = (SHA_FLAG_SWAP, SHA1_DIGEST_SIZE, d0) ∧ zlen (buff c) = 64 ∧
  let m := concat ds in let swap := negb (Z.land SHA_FLAG_SWAP SHA_FLAG_SWAP =? 0) in
  let answer := digest_of swap SHA1_DIGEST_SIZE (foldl cavan_sha1_transform d0 (blocks (pad swap m))) in
  (∃ ops c0 c', cavan_sha_init p c = inr (ops, c0) ∧ (c ← sha_feed ops c0 ds; cavan_sha_finish ops c) = Ok (c', answer)) ∧
  ∃ c', cavan_shasum p c m (zlen m) = Ok (inr (c', answer)).
Proof.
  intros p c ds d0. split; [reflexivity|]. split; [reflexivity|].
  exact (cavan_sha_streams p cavan_sha1_init cavan_sha1_transform c ds SHA_FLAG_SWAP SHA1_DIGEST_SIZE d0 eq_refl eq_refl eq_refl eq_refl).
Defined.

(** C16: [cavan_sha1_transform] is the compression function of FIPS 180: the
    block's big-endian words extended by the schedule to eighty, eighty rounds
    with the functions and constants of their twenty, and the five words added
    to the digest, modulo 2^32. *)
Theorem cavan_sha1_transform_is_fips d m
  (Hm : zlen m = 64) (Hb : Forall is_byte m) (Hd : 5 ≤ zlen d) (Hw : Forall word_ok (take 5 d)) :
  ∃ W, fips_schedule m W ∧ cavan_sha1_transform d m = fips_compress W d.
Proof. exists (sha1_schedule m). split; [by apply sha1_schedule_fips|by apply sha1_transform_fips]. Qed.

Lemma cavan_sha1_transform_is_fips_witness :
  ∃ W, fips_schedule (repeat 97 64) W ∧
    cavan_sha1_transform [0x67452301; 0xEFCDAB89; 0x98BADCFE; 0x10325476; 0xC3D2E1F0] (repeat 97 64) =
    fips_compress W [0x67452301; 0xEFCDAB89; 0x98BADCFE; 0x10325476; 0xC3D2E1F0].
Proof.
  refine (cavan_sha1_transform_is_fips [0x67452301; 0xEFCDAB89; 0x98BADCFE; 0x10325476; 0xC3D2E1F0] (repeat 97 64) _ _ _ _).
  - reflexivity.
  - apply Forall_forall. intros x Hx. apply list_elem_of_In, repeat_spec in Hx. subst. unfold is_byte. lia.
  - unfold zlen. simpl. lia.
  - cbn [take]. repeat (apply Forall_cons; split; [unfold word_ok; lia|]). by apply Forall_nil.
Defined.

(** The digests of the three bytes of abc that RFC 1321 and FIPS 180 give. *)
Definition digest_bytes (r : cres (Z + cavan_sha_context * list Z)) : option (list Z) :=
  match r with Ok (inr (_, out)) => Some out | _ => None end.
Example md5_abc : digest_bytes (cavan_shasum cavan_md5_init_context (fresh_context 5) [97; 98; 99] 3) =
  Some [0x90; 0x01; 0x50; 0x98; 0x3c; 0xd2; 0x4f; 0xb0; 0xd6; 0x96; 0x3f; 0x7d; 0x28; 0xe1; 0x7f; 0x72].
Proof. vm_compute. reflexivity. Qed.
Example sha1_abc : digest_bytes (cavan_shasum cavan_sha1_context_init (fresh_context 5) [97; 98; 99] 3) =
  Some [0xa9; 0x99; 0x3e; 0x36; 0x47; 0x06; 0x81; 0x6a; 0xba; 0x3e; 0x25; 0x71; 0x78; 0x50; 0xc2; 0x6c; 0x9c; 0xd0; 0xd8; 0x9d].
Proof. vm_compute. reflexivity. Qed.
