(* ===== verification/File.v ===== *)
(** File: what the program relies on of the operating system's files, and the
    retrying reads and writes of src/lib/file.c.

    The calls [open], [close], [read], [write] are the methods of a class; its
    laws are those POSIX states of regular files. *)
From S2P Require Import Prelude.


(** ** The interface of the system *)

(** [W] is the state of the system.  Paths are numbers, descriptors are what
    [open] answers.  [sys_read] answers the bytes with their count. *)
Class System (W : Type) := {
  sys_open_read : Z → prog W Z;
  sys_open_write : Z → prog W Z;
  sys_close : Z → prog W Z;
  sys_read : Z → Z → W → (Z * list Z) * W;
  sys_write : Z → list Z → W → Z * W;
  errno_not_retry : W → bool;
  (** What the laws speak of: the bytes of a file, the file and the position of
      a descriptor open for reading, the file of one open for writing. *)
  file : W → Z → list Z;
  reading : W → Z → option (Z * Z);
  writing : W → Z → option Z;
}.

(** Only the file [p] and the descriptor [fd] may differ. *)
Record others_same {W} `{System W} (w w' : W) (p : option Z) (fd : Z) : Prop := {
  same_files : ∀ q, p ≠ Some q → file w' q = file w q;
  same_reading : ∀ d, d ≠ fd → reading w' d = reading w d;
  same_writing : ∀ d, d ≠ fd → writing w' d = writing w d;
}.

Class SystemLaws (W : Type) `{System W} := {
  open_read_law w p : wpp (sys_open_read p) w (λ fd w',
    fd < 0 ∧ others_same w w' None fd ∨
    0 ≤ fd ∧ reading w fd = None ∧ writing w fd = None ∧ others_same w w' None fd ∧ reading w' fd = Some (p, 0));
  open_write_law w p : wpp (sys_open_write p) w (λ fd w',
    fd < 0 ∧ others_same w w' None fd ∨
    0 ≤ fd ∧ reading w fd = None ∧ writing w fd = None ∧ others_same w w' (Some p) fd ∧ file w' p = [] ∧ writing w' fd = Some p);
  close_law w fd : wpp (sys_close fd) w (λ _ w', others_same w w' None fd);
  read_law w fd n p i r b w' :
    reading w fd = Some (p, i) → 0 ≤ i ≤ zlen (file w p) → 0 ≤ n → sys_read fd n w = ((r, b), w') →
    others_same w w' None fd ∧
    (r < 0 ∧ b = [] ∧ reading w' fd = Some (p, i) ∨
     r = Z.min n (zlen (file w p) - i) ∧ b = slice (file w p) i r ∧ reading w' fd = Some (p, i + r));
  write_law w fd b p r w' :
    writing w fd = Some p → sys_write fd b w = (r, w') →
    (∀ q, q ≠ p → file w' q = file w q) ∧ (∀ d, reading w' d = reading w d) ∧ (∀ d, writing w' d = writing w d) ∧
    (r < 0 ∧ file w' p = file w p ∨ 0 ≤ r ≤ zlen b ∧ file w' p = file w p ++ slice b 0 r);
}.

(** ** The retrying calls *)

Section calls.
Context {W : Type} `{System W}.

Definition ffile_read (fd size : Z) : prog W (Z * list Z) := λ w,
  loop 12 (λ '(w, retry),
    let '((rdlen, b), w) := sys_read fd size w in
    if (0 <=? rdlen) || errno_not_retry w then mret (inr ((rdlen, b), w))
    else if 10 <? retry + 1 then mret (inr ((- EFAULT, b), w)) else mret (inl (w, retry + 1))) (w, 0).

Definition ffile_write (fd : Z) (buff : list Z) : prog W Z := λ w,
  let size_bak := zlen buff in
  loop (S (11 * length buff + 11)) (λ '(w, buff, retry),
    let '(wrlen, w) := sys_write fd buff w in
    if zlen buff <=? wrlen then mret (inr (size_bak, w))
    else if 0 <? wrlen then mret (inl (w, drop (Z.to_nat wrlen) buff, 0))
    else if (wrlen <? 0) && errno_not_retry w then mret (inr (wrlen, w))
    else if 10 <? retry + 1 then mret (inr (- EFAULT, w)) else mret (inl (w, buff, retry + 1))) (w, buff, 0).

Context `{!SystemLaws W}.

Lemma others_same_refl w p fd : others_same w w p fd.
Proof. done. Qed.
Lemma others_same_trans w1 w2 w3 p fd : others_same w1 w2 p fd → others_same w2 w3 p fd → others_same w1 w3 p fd.
Proof. intros [A B C] [A' B' C']. split; intros; [rewrite A', A|rewrite B', B|rewrite C', C]; done. Qed.

(** [ffile_read] returns: the bytes at the position, or an error. *)
Lemma ffile_read_ok w fd size p i :
  reading w fd = Some (p, i) → 0 ≤ i ≤ zlen (file w p) → 0 ≤ size →
  wpp (ffile_read fd size) w (λ '(r, b) w', others_same w w' None fd ∧
    (r < 0 ∧ b = [] ∧ reading w' fd = Some (p, i) ∨
     r = Z.min size (zlen (file w p) - i) ∧ b = slice (file w p) i r ∧ reading w' fd = Some (p, i + r))).
Proof.
  intros Hr Hi Hs. unfold wpp, ffile_read.
  apply (wp_loop (λ '(w', retry), others_same w w' None fd ∧ reading w' fd = Some (p, i) ∧ 0 ≤ retry ≤ 10) _ (λ '(_, retry), Z.to_nat (11 - retry)));
    [|done|simpl; lia].
  intros [w1 retry] (Ho & Hr1 & Hb). destruct (sys_read fd size w1) as [[r b] w2] eqn:E.
  assert (file w1 p = file w p) as Hf by (by apply Ho).
  apply (read_law w1 fd size p i) in E as [Ho2 E]; [|done|by rewrite Hf|done]. rewrite Hf in E.
  pose proof (others_same_trans _ _ _ _ _ Ho Ho2) as Ho3.
  destruct (Z.leb_spec 0 r) as [H0|H0]; cbn [orb]; [split; [done|]; cbn; by right; destruct E as [[? _]|E]; [lia|]|].
  destruct E as [(_ & -> & E)|(E & _)]; [|lia].
  destruct (errno_not_retry w2); [split; [done|by left]|].
  destruct (Z.ltb_spec 10 (retry + 1)); [split; [done|left; done]|].
  cbn. split_and!; try done; lia.
Qed.

(** Writing is appending; the descriptors do not change. *)
Record appended (w w' : W) (p : Z) (b : list Z) : Prop := {
  app_file : file w' p = file w p ++ b;
  app_files : ∀ q, q ≠ p → file w' q = file w q;
  app_reading : ∀ d, reading w' d = reading w d;
  app_writing : ∀ d, writing w' d = writing w d;
}.
Lemma appended_nil w p : appended w w p [].
Proof. split; try done. by rewrite app_nil_r. Qed.
Lemma appended_app w1 w2 w3 p a b : appended w1 w2 p a → appended w2 w3 p b → appended w1 w3 p (a ++ b).
Proof.
  intros [A B C D] [A' B' C' D']. split; intros; [by rewrite A', A, app_assoc|rewrite B', B|rewrite C', C|rewrite D', D]; done.
Qed.

Lemma ffile_write_ok w fd p b :
  writing w fd = Some p →
  wpp (ffile_write fd b) w (λ r w',
    r = zlen b ∧ appended w w' p b ∨ r < 0 ∧ ∃ n, appended w w' p (take n b)).
Proof.
  intros Hw. unfold wpp, ffile_write. cbv zeta.
  apply (wp_loop (λ '(w', rest, retry), ∃ n, rest = drop n b ∧ appended w w' p (take n b) ∧ 0 ≤ retry ≤ 10) _
    (λ '(_, rest, retry), 11 * length rest + Z.to_nat (10 - retry))%nat); [|by exists 0%nat; split_and!; [done|apply appended_nil|done|done]|simpl; lia].
  intros [[w1 rest] retry] (n & -> & Ha & Hb). destruct (sys_write fd (drop n b) w1) as [r w2] eqn:E.
  apply (write_law w1 fd _ p) in E as (Hf & Hrd & Hwr & E); [|by rewrite (app_writing _ _ _ _ Ha)].
  assert (∀ k, file w2 p = file w1 p ++ take k (drop n b) → appended w w2 p (take (n + k) b)) as Hmore.
  { intros k Ek. rewrite <-take_take_drop. by apply (appended_app _ w1). }
  assert (0 ≤ r → appended w w2 p (take (n + Z.to_nat r) b)) as Hok.
  { intros H0. apply Hmore. destruct E as [[? _]|[_ E]]; [lia|]. by rewrite E. }
  assert (r ≤ 0 → appended w w2 p (take n b)) as Hno.
  { intros H0. destruct E as [[_ E]|[Hr E]].
    - replace n with (n + 0)%nat by lia. apply Hmore. by rewrite E, app_nil_r.
    - replace n with (n + Z.to_nat r)%nat by lia. apply Hok. lia. }
  destruct (Z.leb_spec (zlen (drop n b)) r) as [Hall|Hpart].
  { left. split; [done|]. rewrite <-(take_ge b (n + Z.to_nat r)); [apply Hok; unfold zlen in Hall; lia|].
    unfold zlen in Hall. rewrite length_drop in Hall. lia. }
  destruct (Z.ltb_spec 0 r) as [Hpos|Hneg].
  { cbn. rewrite length_drop in *. split; [exists (n + Z.to_nat r)%nat; rewrite drop_drop; split_and!; [done|apply Hok; lia|lia|lia]|].
    unfold zlen in Hpart. rewrite !length_drop in *. lia. }
  destruct ((r <? 0) && errno_not_retry w2) eqn:Er.
  { right. apply andb_true_iff in Er as [Er _]. split; [by apply Z.ltb_lt in Er|]. exists n. by apply Hno. }
  destruct (Z.ltb_spec 10 (retry + 1)); [right; split; [done|]; exists n; by apply Hno|].
  cbn. split; [exists n; split_and!; [done|by apply Hno|lia|lia]|lia].
Qed.

(** [ffile_write] always returns.  It answers the size when every byte was
    appended to the file, in however many pieces the system took them; a
    negative answer leaves a front part of them appended.  Interrupted and
    empty writes are tried again, at most ten in a row. *)
Theorem ffile_write_appends w fd p b (Hw : writing w fd = Some p) :
  wpp (ffile_write fd b) w (λ r w',
    r = zlen b ∧ appended w w' p b ∨ r < 0 ∧ ∃ n, appended w w' p (take n b)).
Proof. by apply ffile_write_ok. Qed.

(** Closing changes no file. *)
Lemma wpp_then_close fd p (P : prog W Z) w (Q : Z → list Z → Prop) :
  wpp P w (λ r w', Q r (file w' p)) → wpp (r ← P; sys_close fd;; mret r) w (λ r w', Q r (file w' p)).
Proof.
  intros HP. apply wpp_bind. eapply wpp_mono; [exact HP|]. intros r w' Hr. apply wpp_bind. eapply wpp_mono; [apply close_law|].
  intros z w2 Hs. apply wpp_ret. by rewrite (same_files _ _ _ _ Hs).
Qed.
End calls.

(** ** A system *)

(** Files by path and descriptors in the order they were opened.  A write
    takes at most a hundred bytes, and every third call is interrupted. *)
Inductive descriptor : Type := Closed | Reading (p i : Z) | Writing (p : Z).
Record disk : Type := { files : gmap Z (list Z); opened : list descriptor; calls : Z }.

Definition descriptor_at (w : disk) (fd : Z) : descriptor :=
  if 0 <=? fd then default Closed (opened w !! Z.to_nat fd) else Closed.
Definition set_descriptor (w : disk) (fd : Z) (d : descriptor) : list descriptor :=
  if 0 <=? fd then <[Z.to_nat fd := d]> (opened w) else opened w.
Definition disk_file (w : disk) (p : Z) : list Z := default [] (files w !! p).
Definition interrupted (w : disk) : bool := calls w mod 3 =? 0.

#[export] Instance disk_system : System disk := {
  sys_open_read p w :=
    match files w !! p with
    | None => Ok (-1, w)
    | Some _ => Ok (zlen (opened w), {| files := files w; opened := opened w ++ [Reading p 0]; calls := calls w |})
    end;
  sys_open_write p w :=
    Ok (zlen (opened w), {| files := <[p := []]> (files w); opened := opened w ++ [Writing p]; calls := calls w |});
  sys_close fd w := Ok (0, {| files := files w; opened := set_descriptor w fd Closed; calls := calls w |});
  sys_read fd n w :=
    match descriptor_at w fd with
    | Reading p i =>
        if interrupted w then ((-1, []), {| files := files w; opened := opened w; calls := calls w + 1 |})
        else
          let r := Z.min n (zlen (disk_file w p) - i) in
          ((r, slice (disk_file w p) i r), {| files := files w; opened := set_descriptor w fd (Reading p (i + r)); calls := calls w + 1 |})
    | _ => ((-1, []), w)
    end;
  sys_write fd b w :=
    match descriptor_at w fd with
    | Writing p =>
        if interrupted w then (-1, {| files := files w; opened := opened w; calls := calls w + 1 |})
        else
          let r := Z.min 100 (zlen b) in
          (r, {| files := <[p := disk_file w p ++ slice b 0 r]> (files w); opened := opened w; calls := calls w + 1 |})
    | _ => (-1, w)
    end;
  errno_not_retry w := false;
  file := disk_file;
  reading w fd := match descriptor_at w fd with Reading p i => Some (p, i) | _ => None end;
  writing w fd := match descriptor_at w fd with Writing p => Some p | _ => None end;
}.

Lemma descriptor_at_opened fs fs' n n' l d fd :
  fd ≠ zlen l →
  descriptor_at {| files := fs'; opened := l ++ [d]; calls := n' |} fd = descriptor_at {| files := fs; opened := l; calls := n |} fd.
Proof.
  intros Hne. unfold descriptor_at. cbn [opened]. destruct (Z.leb_spec 0 fd); [|done]. unfold zlen in Hne.
  destruct (decide (Z.to_nat fd < length l)%nat); [by rewrite lookup_app_l|].
  rewrite !lookup_ge_None_2; [done|lia|rewrite length_app; simpl; lia].
Qed.
Lemma descriptor_at_new fs n l d : descriptor_at {| files := fs; opened := l ++ [d]; calls := n |} (zlen l) = d.
Proof.
  unfold descriptor_at, zlen. cbn [opened]. rewrite (proj2 (Z.leb_le 0 _)) by lia. rewrite Nat2Z.id, lookup_app_r, Nat.sub_diag by lia. done.
Qed.
Lemma descriptor_at_end w : descriptor_at w (zlen (opened w)) = Closed.
Proof. unfold descriptor_at, zlen. rewrite Nat2Z.id, lookup_ge_None_2 by lia. by case_match. Qed.
Lemma descriptor_at_set w fs n fd d e :
  e ≠ fd → descriptor_at {| files := fs; opened := set_descriptor w fd d; calls := n |} e = descriptor_at w e.
Proof.
  intros Hne. unfold descriptor_at, set_descriptor. cbn [opened]. destruct (Z.leb_spec 0 fd), (Z.leb_spec 0 e); try done.
  by rewrite list_lookup_insert_ne by lia.
Qed.
Lemma descriptor_at_set_eq w fs n fd d :
  descriptor_at w fd ≠ Closed → descriptor_at {| files := fs; opened := set_descriptor w fd d; calls := n |} fd = d.
Proof.
  unfold descriptor_at, set_descriptor. cbn [opened]. destruct (Z.leb_spec 0 fd); [|done].
  destruct (opened w !! Z.to_nat fd) eqn:E; [|done]. intros _. by rewrite list_lookup_insert_eq by (by eapply lookup_lt_Some).
Qed.

#[export] Instance disk_laws : SystemLaws disk.
Proof.
  split.
  - intros w p. unfold wpp, wp. cbn. destruct (files w !! p); cbn; [right|left; by split].
    rewrite descriptor_at_end, descriptor_at_new. split_and!; try done; [unfold zlen; lia|].
    split; intros; cbn; try done; destruct w; by erewrite descriptor_at_opened by done.
  - intros w p. right. cbn. rewrite descriptor_at_end, descriptor_at_new. split_and!; try done; [unfold zlen; lia| |unfold disk_file; cbn; by rewrite lookup_insert_eq].
    split; intros; cbn; try (destruct w; by erewrite descriptor_at_opened by done).
    unfold disk_file. cbn. rewrite lookup_insert_ne by congruence. done.
  - intros w fd. unfold wpp, wp. cbn. split; intros; cbn; try done; by rewrite descriptor_at_set.
  - intros w fd n p i r b w'. cbn. destruct (descriptor_at w fd) as [|p' i'|] eqn:Ed; try done. intros [= -> ->] Hi Hn.
    destruct (interrupted w); intros [= <- <- <-]; cbn.
    + split; [done|]. left. split_and!; [done|done|]. change (descriptor_at _ fd) with (descriptor_at w fd). by rewrite Ed.
    + split; [split; intros; cbn; try done; by rewrite descriptor_at_set|].
      right. by rewrite descriptor_at_set_eq by (by rewrite Ed).
  - intros w fd b p r w'. cbn. destruct (descriptor_at w fd) as [| |p'] eqn:Ed; try done. intros [= ->].
    destruct (interrupted w); intros [= <- <-]; cbn.
    + split_and!; try done. left. split; [done|]. done.
    + split_and!; try done; [intros q Hq; unfold disk_file; cbn; by rewrite lookup_insert_ne|]. right. split; [unfold zlen; lia|].
      unfold disk_file at 1. cbn. by rewrite lookup_insert_eq.
Qed.

Lemma ffile_write_appends_witness :
  let w := {| files := {[7 := [1; 2]]}; opened := [Writing 7]; calls := 0 |} in
  writing w 0 = Some 7 ∧
  wpp (ffile_write 0 [3; 4; 5]) w (λ r w',
    r = zlen [3; 4; 5] ∧ appended w w' 7 [3; 4; 5] ∨ r < 0 ∧ ∃ n, appended w w' 7 (take n [3; 4; 5])).
Proof. split; [reflexivity|]. apply (ffile_write_appends _ 0 7 [3; 4; 5]). reflexivity. Defined.
