(* ===== verification/Codec.v ===== *)
(** Codec: the LZ77 compression of src/lib/codec.c.

    Files are those of the interface of [File]; the data to compress is a list
    of bytes with checked accesses.  The progress output is left out. *)
From S2P Require Import Prelude File.

Definition CAVAN_LZ77_WIN_SIZE : Z := 255.

Record cavan_lz77_node : Type := { nd_offset : Z; nd_length : Z; nd_value : Z }.
Definition node_bytes (node : cavan_lz77_node) : list Z := [nd_offset node; nd_length node; nd_value node].
Definition bytes_node (b : list Z) : cavan_lz77_node :=
  {| nd_offset := get b 0; nd_length := get b 1; nd_value := get b 2 |}.
Record cavan_lz77_window : Type := { win_data : list Z; win_head : Z }.

(** ** Compression *)

(** How far the bytes at [p] and [pw] are the same. *)
Definition match_loop (m : list Z) (data_end win_end : Z) (p pw : Z) : cres (Z * Z) :=
  loop 256 (λ '(p, pw),
    if (p <? data_end) && (pw <? win_end) then
      a ← load m p;
      b ← load m pw;
      if a =? b then mret (inl (p + 1, pw + 1)) else mret (inr (p, pw))
    else mret (inr (p, pw))) (p, pw).

Definition cavan_lz77_get_node (m : list Z) (win data data_end : Z) : cres cavan_lz77_node :=
  let win_bak := win in
  value ← load m data;
  let win_end := win + CAVAN_LZ77_WIN_SIZE in
  loop 256 (λ '(win, node),
    if win <? win_end then
      '(p, _) ← match_loop m data_end win_end data win;
      let length := p - data in
      node ← (if nd_length node <? length then
                value ← load m p;
                mret {| nd_offset := u8 (win - win_bak); nd_length := u8 length; nd_value := value |}
              else mret node);
      mret (inl (win + 1, node))
    else mret (inr node)) (win, {| nd_offset := 0; nd_length := 0; nd_value := value |}).

Section files.
Context {W : Type} `{System W}.

Definition cavan_lz77_encode (data : list Z) (length dest_file : Z) : prog W Z :=
  fd ← sys_open_write dest_file;
  if fd <? 0 then mret fd
  else
    ret ← (if length <=? CAVAN_LZ77_WIN_SIZE then b ← lift (window data 0 length); ffile_write fd b
           else
             b ← lift (window data 0 CAVAN_LZ77_WIN_SIZE);
             ret ← ffile_write fd b;
             if ret <? 0 then mret ret
             else
               let data_end := length in
               let win_end := data_end - CAVAN_LZ77_WIN_SIZE in
               ploop (S (Z.to_nat length)) (λ win,
                 node ← lift (cavan_lz77_get_node data win (win + CAVAN_LZ77_WIN_SIZE) data_end);
                 let win := win + (nd_length node + 1) in
                 if win <? win_end then
                   ret ← ffile_write fd (node_bytes node);
                   if ret <? 0 then mret (inr ret) else mret (inl win)
                 else
                   node ← lift (if win_end <? win then
                                  value ← load data (data_end - 1);
                                  mret {| nd_offset := nd_offset node; nd_length := u8 (nd_length node - 1); nd_value := value |}
                                else mret node);
                   ret ← ffile_write fd (node_bytes node);
                   mret (inr ret)) 0);
    sys_close fd;;
    mret ret.

(** ** Decompression *)

Definition cavan_lz77_window_init (data : list Z) : cres cavan_lz77_window :=
  b ← window data 0 CAVAN_LZ77_WIN_SIZE;
  mret {| win_data := b; win_head := 0 |}.

Definition cavan_lz77_window_append_data (win : cavan_lz77_window) (data : list Z) (length : Z) : cres (Z * cavan_lz77_window) :=
  let head := win_head win in
  let rlen := CAVAN_LZ77_WIN_SIZE - head in
  wd ← (if rlen <? length then
          wd ← memcpy (win_data win) head data 0 rlen;
          memcpy wd 0 data rlen (length - rlen)
        else memcpy (win_data win) head data 0 length);
  mret (length, {| win_data := wd; win_head := Z.rem (head + length) CAVAN_LZ77_WIN_SIZE |}).

Definition cavan_lz77_window_append_node (win : cavan_lz77_window) (node : cavan_lz77_node) (buff : list Z)
    : cres (Z * cavan_lz77_window * list Z) :=
  let offset := Z.rem (win_head win + nd_offset node) CAVAN_LZ77_WIN_SIZE in
  let rlen := CAVAN_LZ77_WIN_SIZE - offset in
  buff ← (if rlen <? nd_length node then
            buff ← memcpy buff 0 (win_data win) offset rlen;
            memcpy buff rlen (win_data win) 0 (nd_length node - rlen)
          else if 0 <? nd_length node then memcpy buff 0 (win_data win) offset (nd_length node)
          else mret buff);
  buff ← store buff (nd_length node) (nd_value node);
  '(length, win) ← cavan_lz77_window_append_data win buff (nd_length node + 1);
  mret (length, win, buff).

(** [garbage] and [garbage3] are what the stack holds where [buff] and [node] lie. *)
Definition cavan_lz77_decode (garbage garbage3 : list Z) (src_file dest_file : Z) : prog W Z :=
  fuel ← reads (λ w, S (length (file w src_file)));
  fd_src ← sys_open_read src_file;
  if fd_src <? 0 then mret fd_src
  else
    fd_dest ← sys_open_write dest_file;
    ret ← (if fd_dest <? 0 then mret fd_dest
           else
             ret ← ('(ret, b) ← ffile_read fd_src CAVAN_LZ77_WIN_SIZE;
                    if ret <? 0 then mret ret
                    else
                      buff ← lift (memcpy garbage 0 b 0 ret);
                      out ← lift (window buff 0 ret);
                      ret ← ffile_write fd_dest out;
                      if ret <? 0 then mret ret
                      else
                        win ← lift (cavan_lz77_window_init buff);
                        ploop fuel (λ '(win, buff),
                          '(ret, b) ← ffile_read fd_src 3;
                          if ret <=? 0 then mret (inr ret)
                          else
                            nb ← lift (memcpy garbage3 0 b 0 ret);
                            '(length, win, buff) ← lift (cavan_lz77_window_append_node win (bytes_node nb) buff);
                            out ← lift (window buff 0 length);
                            ret ← ffile_write fd_dest out;
                            if ret <? 0 then mret (inr ret) else mret (inl (win, buff))) (win, buff));
             sys_close fd_dest;;
             mret ret);
    sys_close fd_src;;
    mret ret.
End files.

(** ** The reference: what a node stands for *)

(** The last [CAVAN_LZ77_WIN_SIZE] bytes of the output, from [o] on, and one
    more byte. *)
Definition copied_part (out : list Z) (node : cavan_lz77_node) : list Z :=
  slice out (zlen out - CAVAN_LZ77_WIN_SIZE + nd_offset node) (nd_length node).
Definition expand (out : list Z) (node : cavan_lz77_node) : list Z :=
  out ++ copied_part out node ++ [nd_value node].
(** A node the decoder's buffer has room for. *)
Definition node_ok (node : cavan_lz77_node) : Prop :=
  0 ≤ nd_offset node ∧ 0 ≤ nd_length node < CAVAN_LZ77_WIN_SIZE ∧ nd_offset node + nd_length node ≤ CAVAN_LZ77_WIN_SIZE.

(** [out] is what compressing [data] gives. *)
Definition compressed (data out : list Z) : Prop :=
  if zlen data <=? CAVAN_LZ77_WIN_SIZE then out = data
  else ∃ nodes, Forall node_ok nodes ∧ out = slice data 0 CAVAN_LZ77_WIN_SIZE ++ concat (map node_bytes nodes) ∧
    foldl expand (slice data 0 CAVAN_LZ77_WIN_SIZE) nodes = data.

(** ** Matching *)

Lemma match_loop_ok m e we p0 pw0 :
  0 ≤ pw0 ≤ p0 → pw0 ≤ we ≤ p0 → we ≤ pw0 + CAVAN_LZ77_WIN_SIZE → p0 ≤ e → e ≤ zlen m →
  wp (match_loop m e we p0 pw0) (λ '(p, pw), ∃ k, p = p0 + k ∧ pw = pw0 + k ∧ 0 ≤ k ∧ p ≤ e ∧ pw ≤ we ∧
    ∀ i, 0 ≤ i < k → get m (p0 + i) = get m (pw0 + i)).
Proof.
  unfold CAVAN_LZ77_WIN_SIZE. intros Hp Hw Hl He Hm. unfold match_loop.
  apply (wp_loop (λ '(p, pw), ∃ k, p = p0 + k ∧ pw = pw0 + k ∧ 0 ≤ k ∧ p ≤ e ∧ pw ≤ we ∧
    ∀ i, 0 ≤ i < k → get m (p0 + i) = get m (pw0 + i)) _ (λ '(_, pw), Z.to_nat (we - pw))).
  - intros [p pw] (k & -> & -> & Hk & H1 & H2 & Heq).
    destruct (Z.ltb_spec (p0 + k) e), (Z.ltb_spec (pw0 + k) we); cbn [andb]; try (wp_go; exists k; by split_and!).
    wp_go. destruct (Z.eqb_spec (get m (p0 + k)) (get m (pw0 + k))); wp_go; [|exists k; by split_and!].
    split; [|lia]. exists (k + 1). split_and!; try lia. intros i Hi. destruct (Z.eq_dec i k) as [->|]; [done|]. apply Heq. lia.
  - exists 0. split_and!; try lia.
  - lia.
Qed.

(** What [cavan_lz77_get_node] answers for the data at [win + WIN_SIZE]. *)
Record matched (m : list Z) (win e : Z) (node : cavan_lz77_node) : Prop := {
  mt_offset : 0 ≤ nd_offset node;
  mt_length : 0 ≤ nd_length node;
  mt_window : nd_offset node + nd_length node ≤ CAVAN_LZ77_WIN_SIZE;
  mt_end : win + CAVAN_LZ77_WIN_SIZE + nd_length node ≤ e;
  mt_same : ∀ i, 0 ≤ i < nd_length node → get m (win + CAVAN_LZ77_WIN_SIZE + i) = get m (win + nd_offset node + i);
  mt_value : nd_value node = get m (win + CAVAN_LZ77_WIN_SIZE + nd_length node);
}.

Lemma cavan_lz77_get_node_ok m win e :
  0 ≤ win → win + CAVAN_LZ77_WIN_SIZE < e → e < zlen m →
  wp (cavan_lz77_get_node m win (win + CAVAN_LZ77_WIN_SIZE) e) (matched m win e).
Proof.
  unfold CAVAN_LZ77_WIN_SIZE. intros Hw Hd He. unfold cavan_lz77_get_node, CAVAN_LZ77_WIN_SIZE. wp_go.
  apply (wp_loop (λ '(w, node), win ≤ w ≤ win + 255 ∧ matched m win e node) _ (λ '(w, _), Z.to_nat (win + 255 - w))).
  - intros [w node] [Hwin Hn]. destruct (Z.ltb_spec w (win + 255)); [|wp_go; done].
    wp_go. eapply wp_mono; [apply match_loop_ok; unfold CAVAN_LZ77_WIN_SIZE; lia|]. intros [p pw] (k & -> & -> & Hk & H1 & H2 & Heq).
    wp_go. replace (win + 255 + k - (win + 255)) with k by lia. destruct (Z.ltb_spec (nd_length node) k); wp_go; [|split; [split; [lia|done]|lia]].
    split; [|lia]. split; [lia|]. rewrite !wrap_small by lia. split; cbn [nd_offset nd_length nd_value]; unfold CAVAN_LZ77_WIN_SIZE; try lia.
    intros i Hi. rewrite Heq by done. f_equal. lia.
  - split; [lia|]. split; cbn [nd_offset nd_length nd_value]; unfold CAVAN_LZ77_WIN_SIZE; try lia; [by rewrite Z.add_0_r].
  - lia.
Qed.

Lemma expand_ok m win o k v :
  0 ≤ win → 0 ≤ o → 0 ≤ k → o + k ≤ CAVAN_LZ77_WIN_SIZE → win + CAVAN_LZ77_WIN_SIZE + k < zlen m →
  (∀ i, 0 ≤ i < k → get m (win + CAVAN_LZ77_WIN_SIZE + i) = get m (win + o + i)) → v = get m (win + CAVAN_LZ77_WIN_SIZE + k) →
  expand (slice m 0 (win + CAVAN_LZ77_WIN_SIZE)) {| nd_offset := o; nd_length := k; nd_value := v |} =
  slice m 0 (win + CAVAN_LZ77_WIN_SIZE + k + 1).
Proof.
  unfold CAVAN_LZ77_WIN_SIZE. intros Hw Ho Hk Hf Hm Heq ->. set (d := win + 255) in *.
  unfold expand, copied_part, CAVAN_LZ77_WIN_SIZE. cbn [nd_offset nd_length nd_value].
  rewrite zlen_slice by lia. rewrite <-Z.add_assoc, (slice_app m 0 d (k + 1)), (slice_app m (0 + d) k 1), Z.add_0_l by lia.
  f_equal. f_equal; apply array_ext.
  - rewrite !zlen_slice by (rewrite ?zlen_slice; lia). done.
  - rewrite zlen_slice by (rewrite ?zlen_slice; lia). intros i Hi. rewrite !get_slice by (rewrite ?zlen_slice; lia).
    rewrite Heq by done. f_equal. lia.
  - rewrite zlen_slice by lia. done.
  - change (zlen [get m (d + k)]) with 1. intros i Hi. replace i with 0 by lia. by rewrite get_slice, Z.add_0_r by lia.
Qed.

Ltac win_lia := unfold CAVAN_LZ77_WIN_SIZE in *; lia.

Section encode.
Context {W : Type} `{SystemLaws W}.

(** No [CAVAN_LZ77_WIN_SIZE] bytes stand twice in a row. *)
Definition no_repeat (data : list Z) : Prop :=
  ∀ i, 0 ≤ i → i + 2 * CAVAN_LZ77_WIN_SIZE ≤ zlen data →
    slice data i CAVAN_LZ77_WIN_SIZE ≠ slice data (i + CAVAN_LZ77_WIN_SIZE) CAVAN_LZ77_WIN_SIZE.

Lemma matched_short m win e node :
  0 ≤ win → e ≤ zlen m → no_repeat (slice m 0 e) → matched m win e node → nd_length node < CAVAN_LZ77_WIN_SIZE.
Proof.
  unfold no_repeat, CAVAN_LZ77_WIN_SIZE. intros Hw He Hn [Ho Hl Hwin Hend Hs _]. unfold CAVAN_LZ77_WIN_SIZE in *.
  destruct (Z.lt_ge_cases (nd_length node) 255); [done|]. destruct (Hn win); [done|rewrite zlen_slice by win_lia; lia|].
  apply array_ext; [rewrite !zlen_slice by (rewrite ?zlen_slice; lia); done|].
  rewrite zlen_slice by (rewrite ?zlen_slice; lia). intros i Hi. rewrite !get_slice by (rewrite ?zlen_slice; lia).
  rewrite !Z.add_0_l, Hs by win_lia. f_equal. win_lia.
Qed.

(** Every round writes a node that stands for the bytes it passes. *)
Section loop.
Variables (m : list Z) (e fd p : Z) (w0 : W).
Hypothesis Hbounds : CAVAN_LZ77_WIN_SIZE < e < zlen m.
Hypothesis Hrepeat : no_repeat (slice m 0 e).
Hypothesis Hopen : writing w0 fd = Some p.
Hypothesis Hheader : file w0 p = slice m 0 CAVAN_LZ77_WIN_SIZE.

Definition encoded (n : Z) (w : W) : Prop := ∃ nodes, Forall node_ok nodes ∧
  appended w0 w p (concat (map node_bytes nodes)) ∧ foldl expand (slice m 0 CAVAN_LZ77_WIN_SIZE) nodes = slice m 0 n.

Lemma write_node n node w :
  encoded n w → node_ok node →
  wpp (ffile_write fd (node_bytes node)) w (λ r w',
    (∃ b, appended w0 w' p b) ∧ (r < 0 ∨ ∀ n', expand (slice m 0 n) node = slice m 0 n' → encoded n' w')).
Proof.
  intros (nodes & Hok & Ha & Hx) Hn. eapply wpp_mono; [apply (ffile_write_ok w fd p); by rewrite (app_writing _ _ _ _ Ha)|].
  intros r w' [[-> Ha']|[Hr [k Ha']]]; (split; [eexists; by apply (appended_app _ w)|]); [right|by left].
  intros n' E. exists (nodes ++ [node]). split_and!; [apply Forall_app; by split; [|apply Forall_cons]| |].
  - rewrite map_app, concat_app. cbn [map concat]. rewrite app_nil_r. by apply (appended_app _ w).
  - rewrite foldl_app, Hx. done.
Qed.

Lemma encoded_all w : encoded e w → compressed (slice m 0 e) (file w p).
Proof.
  intros (nodes & Hok & Ha & Hx). unfold compressed. rewrite zlen_slice by win_lia. rewrite (proj2 (Z.leb_gt _ _)) by win_lia.
  assert (slice (slice m 0 e) 0 CAVAN_LZ77_WIN_SIZE = slice m 0 CAVAN_LZ77_WIN_SIZE) as E.
  { unfold slice. rewrite !drop_0, take_take. f_equal. unfold CAVAN_LZ77_WIN_SIZE in *. lia. }
  exists nodes. rewrite E. split_and!; [done| |done]. by rewrite (app_file _ _ _ _ Ha), Hheader.
Qed.

Lemma encode_loop_ok :
  ∀ w, encoded CAVAN_LZ77_WIN_SIZE w →
  wpp (ploop (S (Z.to_nat e)) (λ win,
       node ← lift (cavan_lz77_get_node m win (win + CAVAN_LZ77_WIN_SIZE) e);
       let win := win + (nd_length node + 1) in
       if win <? e - CAVAN_LZ77_WIN_SIZE then
         ret ← ffile_write fd (node_bytes node);
         if ret <? 0 then mret (inr ret) else mret (inl win)
       else
         node ← lift (if e - CAVAN_LZ77_WIN_SIZE <? win then
                        value ← load m (e - 1);
                        mret {| nd_offset := nd_offset node; nd_length := u8 (nd_length node - 1); nd_value := value |}
                      else mret node);
         ret ← ffile_write fd (node_bytes node);
         mret (inr ret)) 0) w
    (λ r w', (∃ b, appended w0 w' p b) ∧ (r < 0 ∨ compressed (slice m 0 e) (file w' p))).
Proof.
  intros w Hw.
  apply (wpp_ploop (λ n win w, 0 ≤ win < e - CAVAN_LZ77_WIN_SIZE ∧ (Z.to_nat (e - win) ≤ n)%nat ∧ encoded (win + CAVAN_LZ77_WIN_SIZE) w))
    with (n := Z.to_nat e); [|split_and!; [win_lia..|done]|win_lia].
  clear w Hw. intros n win w (Hwin & Hn & Hw).
  destruct (proj1 (wp_ok _ _) (cavan_lz77_get_node_ok m win e ltac:(win_lia) ltac:(win_lia) ltac:(win_lia))) as (node & Eg & Hm).
  pose proof (matched_short m win e node ltac:(win_lia) ltac:(win_lia) Hrepeat Hm) as Hshort. pose proof Hm as [Ho Hl Hwd Hend Hs Hv].
  apply wpp_bind. eapply wpp_lift; [exact Eg|]. cbv zeta.
  assert (node_ok node) as Hok by (split_and!; win_lia).
  assert (win + CAVAN_LZ77_WIN_SIZE + nd_length node < e →
    expand (slice m 0 (win + CAVAN_LZ77_WIN_SIZE)) node = slice m 0 (win + CAVAN_LZ77_WIN_SIZE + nd_length node + 1)) as Hx.
  { intros Hlt. destruct node as [o k v]. cbn [nd_offset nd_length nd_value] in *. apply expand_ok; done || win_lia. }
  destruct (Z.ltb_spec (win + (nd_length node + 1)) (e - CAVAN_LZ77_WIN_SIZE)) as [Hlt|Hge].
  - apply wpp_bind. eapply wpp_mono; [by apply write_node|]. intros r w' [Hb Hr].
    destruct (Z.ltb_spec r 0); apply wpp_ret; [split; [done|by left]|]. destruct Hr as [|Hr]; [lia|].
    exists (n - 1)%nat. split_and!; [win_lia..|]. replace (win + (nd_length node + 1) + CAVAN_LZ77_WIN_SIZE) with (win + CAVAN_LZ77_WIN_SIZE + nd_length node + 1) by win_lia.
    apply Hr, Hx. lia.
  - destruct (Z.ltb_spec (e - CAVAN_LZ77_WIN_SIZE) (win + (nd_length node + 1))) as [Hover|Hexact].
    + apply wpp_bind. eapply wpp_lift; [rewrite load_in by win_lia; reflexivity|].
      rewrite wrap_small by (unfold CAVAN_LZ77_WIN_SIZE in *; lia). apply wpp_bind.
      eapply wpp_mono; [eapply write_node; [done|]|]; [split_and!; cbn [nd_offset nd_length]; lia|]. intros r w' [Hb Hr]. apply wpp_ret.
      split; [done|]. destruct Hr as [|Hr]; [by left|right]. apply encoded_all, Hr.
      replace e with (win + CAVAN_LZ77_WIN_SIZE + (nd_length node - 1) + 1) at 2 by win_lia.
      apply expand_ok; try win_lia; [intros i Hi; apply Hs; lia|f_equal; lia].
    + apply wpp_bind. eapply wpp_lift; [reflexivity|]. apply wpp_bind. eapply wpp_mono; [by apply write_node|]. intros r w' [Hb Hr]. apply wpp_ret.
      split; [done|]. destruct Hr as [|Hr]; [by left|right]. apply encoded_all, Hr.
      replace e with (win + CAVAN_LZ77_WIN_SIZE + nd_length node + 1) by win_lia. apply Hx. win_lia.
Qed.
End loop.

(** Compressing: an error, or the file holds the compressed data. *)
Lemma cavan_lz77_encode_ok m e p w :
  0 ≤ e < zlen m → no_repeat (slice m 0 e) →
  wpp (cavan_lz77_encode m e p) w (λ r w', r < 0 ∨ compressed (slice m 0 e) (file w' p)).
Proof.
  intros He Hnr. unfold cavan_lz77_encode. apply wpp_bind. eapply wpp_mono; [apply open_write_law|]. intros fd w1 Hfd.
  destruct (Z.ltb_spec fd 0); [apply wpp_ret; by left|]. destruct Hfd as [[? _]|(_ & _ & _ & Ho & Hempty & Hopen)]; [lia|].
  apply (wpp_then_close fd p _ _ (λ r f, r < 0 ∨ compressed (slice m 0 e) f)).
  destruct (Z.leb_spec e CAVAN_LZ77_WIN_SIZE) as [Hsmall|Hbig].
  - apply wpp_bind. eapply wpp_lift; [apply window_in; win_lia|]. eapply wpp_mono; [by apply (ffile_write_ok w1 fd p)|].
    intros r w' [[-> Ha]|[Hr [k Ha]]]; [right|by left].
    unfold compressed. rewrite zlen_slice, (proj2 (Z.leb_le _ _)) by win_lia. by rewrite (app_file _ _ _ _ Ha), Hempty.
  - apply wpp_bind. eapply wpp_lift; [apply window_in; unfold CAVAN_LZ77_WIN_SIZE in *; lia|].
    apply wpp_bind. eapply wpp_mono; [by apply (ffile_write_ok w1 fd p)|].
    intros r w2 Hr. destruct (Z.ltb_spec r 0) as [Hneg|Hpos].
    { apply wpp_ret. by left. }
    destruct Hr as [[_ Ha]|[? _]]; [|win_lia]. cbv zeta.
    eapply wpp_mono; [eapply (encode_loop_ok m e fd p w2); [win_lia|done|by rewrite (app_writing _ _ _ _ Ha)|by rewrite (app_file _ _ _ _ Ha), Hempty|]|].
    + exists []. split_and!; [done|apply appended_nil|done].
    + intros r' w' [_ Hr']. done.
Qed.
End encode.

(** ** Decompression undoes it *)

(** The ring holds the end of the output, the oldest byte at [win_head]. *)
Record ring_of (win : cavan_lz77_window) (out : list Z) : Prop := {
  ring_size : zlen (win_data win) = CAVAN_LZ77_WIN_SIZE;
  ring_head : 0 ≤ win_head win < CAVAN_LZ77_WIN_SIZE;
  ring_out : CAVAN_LZ77_WIN_SIZE ≤ zlen out;
  ring_get : ∀ i, 0 ≤ i < CAVAN_LZ77_WIN_SIZE →
    get (win_data win) ((win_head win + i) mod CAVAN_LZ77_WIN_SIZE) = get out (zlen out - CAVAN_LZ77_WIN_SIZE + i);
}.

(** The place of the [i]th byte of the ring. *)
Lemma ring_place h i : 0 ≤ h < 255 → 0 ≤ i < 255 → (h + i) mod 255 = if h + i <? 255 then h + i else h + i - 255.
Proof. intros Hh Hi. zcase; dlia. Qed.

Lemma cavan_lz77_window_append_data_ok win out data n :
  ring_of win out → 0 ≤ n ≤ CAVAN_LZ77_WIN_SIZE → n ≤ zlen data →
  wp (cavan_lz77_window_append_data win data n) (λ '(l, win'), l = n ∧ ring_of win' (out ++ slice data 0 n)).
Proof.
  destruct win as [wd h]. unfold CAVAN_LZ77_WIN_SIZE in *. intros [Hs Hh Ho Hg] Hn Hd. cbn [win_data win_head] in *. unfold CAVAN_LZ77_WIN_SIZE in *.
  unfold cavan_lz77_window_append_data. cbn [win_data win_head]. unfold CAVAN_LZ77_WIN_SIZE. apply wp_bind.
  assert (∀ wd', zlen wd' = 255 → (∀ k, 0 ≤ k < 255 → get wd' ((h + k) mod 255) = if k <? n then get data k else get wd ((h + k) mod 255)) →
    ring_of {| win_data := wd'; win_head := Z.rem (h + n) 255 |} (out ++ slice data 0 n)) as Hring.
  { intros wd' Hl Hw. split; cbn [win_data win_head]; unfold CAVAN_LZ77_WIN_SIZE; [done|apply Z.rem_bound_pos; lia|rewrite zlen_app, zlen_slice; lia|].
    intros i Hi. rewrite Z.rem_mod_nonneg by lia. rewrite Z.add_mod_idemp_l by lia. rewrite zlen_app, zlen_slice by lia.
    destruct (Z.lt_ge_cases (n + i) 255) as [Hlo|Hhi].
    - rewrite <-Z.add_assoc, Hw by lia. rewrite (proj2 (Z.ltb_ge (n + i) n)) by lia. rewrite Hg, get_app_l by lia. f_equal. lia.
    - replace (h + n + i) with (h + (n + i - 255) + 1 * 255) by lia. rewrite Z.mod_add, Hw by lia. rewrite (proj2 (Z.ltb_lt _ _)) by lia.
      rewrite get_app_r, get_slice by lia. f_equal. lia. }
  destruct (Z.ltb_spec (255 - h) n).
  - apply wp_bind, wp_memcpy; [lia..|]. apply wp_memcpy; try lia; [rewrite zlen_blit by lia; lia|]. apply wp_ret. split; [done|]. apply Hring.
    + rewrite !zlen_blit by (rewrite ?zlen_blit; lia). done.
    + intros k Hk. rewrite ring_place by lia. do 2 zcase; rewrite !get_blit by (rewrite ?zlen_blit; lia); repeat case_decide; try lia; f_equal; lia.
  - apply wp_memcpy; [lia..|]. apply wp_ret. split; [done|]. apply Hring; [by rewrite zlen_blit by lia|].
    intros k Hk. rewrite ring_place by lia. do 2 zcase; rewrite get_blit by lia; repeat case_decide; try lia; f_equal; lia.
Qed.

Lemma cavan_lz77_window_append_node_ok win out node buff :
  ring_of win out → node_ok node → zlen buff = CAVAN_LZ77_WIN_SIZE →
  wp (cavan_lz77_window_append_node win node buff) (λ '(l, win', buff'), zlen buff' = CAVAN_LZ77_WIN_SIZE ∧
    0 ≤ l ≤ CAVAN_LZ77_WIN_SIZE ∧ out ++ slice buff' 0 l = expand out node ∧ ring_of win' (expand out node)).
Proof.
  intros Hr (Ho & Hl & Hw) Hb. pose proof Hr as [Hs Hh Hout Hg]. destruct node as [o l v]. cbn [nd_offset nd_length] in *.
  unfold cavan_lz77_window_append_node. cbn [nd_offset nd_length nd_value]. cbv zeta. unfold CAVAN_LZ77_WIN_SIZE in *.
  set (h := win_head win) in *. set (wd := win_data win) in *. rewrite Z.rem_mod_nonneg by lia.
  assert (0 ≤ (h + o) mod 255 < 255) as Hof by (apply Z.mod_pos_bound; lia). set (off := (h + o) mod 255) in *.
  assert (∀ i, 0 ≤ i < l → get wd (if off + i <? 255 then off + i else off + i - 255) = get out (zlen out - 255 + o + i)) as Hget.
  { intros i Hi. rewrite <-ring_place by lia. unfold off. rewrite Z.add_mod_idemp_l, <-Z.add_assoc, Hg by lia. f_equal. lia. }
  apply wp_bind. apply wp_mono with (P := λ b, zlen b = 255 ∧ ∀ i, 0 ≤ i < l → get b i = get out (zlen out - 255 + o + i)).
  { destruct (Z.ltb_spec (255 - off) l); [|destruct (Z.ltb_spec 0 l)].
    - apply wp_bind, wp_memcpy; [lia..|]. apply wp_memcpy; try lia; [rewrite zlen_blit by lia; lia|].
      split; [rewrite !zlen_blit by (rewrite ?zlen_blit; lia); done|]. intros i Hi. rewrite !get_blit by (rewrite ?zlen_blit; lia).
      rewrite <-Hget by done. zcase; repeat case_decide; try lia; f_equal; lia.
    - apply wp_memcpy; [lia..|]. split; [by rewrite zlen_blit by lia|]. intros i Hi. rewrite get_blit by lia.
      rewrite <-Hget by done. zcase; repeat case_decide; try lia; f_equal; lia.
    - apply wp_ret. split; [done|]. intros; lia. }
  intros b [Hlb Hgb]. wp_go.
  assert (slice (upd b l v) 0 (l + 1) = slice out (zlen out - 255 + o) l ++ [v]) as E.
  { rewrite slice_app by lia. f_equal; apply array_ext.
    - rewrite !zlen_slice by (rewrite ?zlen_upd; lia). done.
    - rewrite zlen_slice by (rewrite ?zlen_upd; lia). intros i Hi. rewrite !get_slice by (rewrite ?zlen_upd; lia). rewrite get_upd_ne, Z.add_0_l, Hgb by lia. done.
    - rewrite zlen_slice by (rewrite ?zlen_upd; lia). done.
    - rewrite zlen_slice by (rewrite ?zlen_upd; lia). intros i Hi. replace i with 0 by lia. rewrite get_slice by (rewrite ?zlen_upd; lia).
      rewrite !Z.add_0_r. rewrite Z.add_0_l, get_upd_eq by lia. done. }
  eapply wp_mono; [apply (cavan_lz77_window_append_data_ok win out (upd b l v) (l + 1)); rewrite ?zlen_upd; unfold CAVAN_LZ77_WIN_SIZE; done || lia|].
  intros [l' win'] [-> Hr']. wp_go. rewrite E in Hr'. unfold expand, copied_part, CAVAN_LZ77_WIN_SIZE. cbn [nd_offset nd_length nd_value].
  rewrite zlen_upd. split_and!; try lia; [by rewrite E|done].
Qed.

Lemma bytes_node_bytes node : bytes_node (node_bytes node) = node.
Proof. by destruct node. Qed.
Lemma blit_whole_of (dst src : list Z) : zlen dst = zlen src → blit dst 0 src 0 (zlen src) = src.
Proof. intros E. unfold blit. rewrite slice_all, drop_ge by (unfold zlen in *; lia || done). by rewrite app_nil_r. Qed.
Lemma slice_drop (m a b : list Z) i : 0 ≤ i → drop (Z.to_nat i) m = a ++ b → slice m i (zlen a) = a ∧ drop (Z.to_nat (i + zlen a)) m = b.
Proof.
  intros Hi E. unfold slice, zlen. rewrite Nat2Z.id, E, take_app_length. split; [done|].
  rewrite Z2Nat.inj_add, Nat2Z.id, <-drop_drop, E by lia. apply drop_app_length.
Qed.

Section decode.
Context {W : Type} `{SystemLaws W}.
Variables (src dest fd_src fd_dest : Z) (whole data g3 : list Z).
Hypothesis Hpaths : src ≠ dest.
Hypothesis Hfds : fd_src ≠ fd_dest.
Hypothesis Hg3 : zlen g3 = 3.

(** What is left to read stands for what is left to write. *)
Record decoding (nodes : list cavan_lz77_node) (out : list Z) (w : W) : Prop := {
  dec_src : file w src = whole;
  dec_dest : file w dest = out;
  dec_writing : writing w fd_dest = Some dest;
  dec_reading : ∃ i, reading w fd_src = Some (src, i) ∧ 0 ≤ i ≤ zlen whole ∧ drop (Z.to_nat i) whole = concat (map node_bytes nodes);
  dec_nodes : Forall node_ok nodes;
  dec_data : foldl expand out nodes = data;
}.

(** A read takes a node, if there is one. *)
Lemma read_node nodes out w :
  decoding nodes out w →
  wpp (ffile_read fd_src 3) w (λ '(r, b) w', r < 0 ∨
    match nodes with
    | [] => r = 0 ∧ out = data ∧ file w' dest = data
    | node :: rest => r = 3 ∧ b = node_bytes node ∧ node_ok node ∧ file w' dest = out ∧ writing w' fd_dest = Some dest ∧
        ∀ w2, appended w' w2 dest (copied_part out node ++ [nd_value node]) → decoding rest (expand out node) w2
    end).
Proof.
  intros [Hs Hd Hw (i & Hr & Hi & Hdrop) Hok Hx].
  eapply wpp_mono; [apply (ffile_read_ok w fd_src 3 src i Hr); rewrite ?Hs; lia|]. intros [r b] w' [Ho [[? _]|(Er & -> & Hr')]]; [by left|right].
  rewrite Hs in Er. pose proof (same_files _ _ _ _ Ho) as Hf. destruct nodes as [|node rest].
  - cbn [map concat] in Hdrop. apply (f_equal length) in Hdrop. rewrite length_drop in Hdrop. simpl in Hdrop, Hx. unfold zlen in *.
    rewrite Hf, Hd by done. split_and!; [lia|done|done].
  - cbn [map concat] in Hdrop. destruct (slice_drop whole (node_bytes node) _ i ltac:(lia) Hdrop) as [Es Ed].
    change (zlen (node_bytes node)) with 3 in *. apply Forall_cons in Hok as [Hn Hok].
    assert (3 ≤ zlen whole - i) as Hlen. { apply (f_equal length) in Hdrop. rewrite length_drop, length_app in Hdrop. simpl in Hdrop. unfold zlen in *. lia. }
    rewrite Z.min_l in Er by lia. subst r. rewrite Hs. split_and!; [done|done|done|by rewrite Hf|by rewrite (same_writing _ _ _ _ Ho)|].
    intros w2 [A B C D]. split; [by rewrite B, Hf|by rewrite A, Hf, Hd|by rewrite D, (same_writing _ _ _ _ Ho)| |done|done].
    exists (i + 3). rewrite C. split_and!; [done|lia..|done].
Qed.

Lemma decode_loop_ok fuel nodes out win buff w :
  decoding nodes out w → (nodes = [] ∨ ring_of win out) → zlen buff = CAVAN_LZ77_WIN_SIZE → (length nodes < fuel)%nat →
  wpp (ploop fuel (λ '(win, buff),
      '(ret, b) ← ffile_read fd_src 3;
      if ret <=? 0 then mret (inr ret)
      else
        nb ← lift (memcpy g3 0 b 0 ret);
        '(length, win, buff) ← lift (cavan_lz77_window_append_node win (bytes_node nb) buff);
        out ← lift (window buff 0 length);
        ret ← ffile_write fd_dest out;
        if ret <? 0 then mret (inr ret) else mret (inl (win, buff))) (win, buff)) w (λ r w', r < 0 ∨ r = 0 ∧ file w' dest = data).
Proof.
  intros Hd Hr Hb Hf.
  apply (wpp_ploop (λ n '(win, buff) w, ∃ nodes out, n = length nodes ∧ decoding nodes out w ∧ (nodes = [] ∨ ring_of win out) ∧ zlen buff = CAVAN_LZ77_WIN_SIZE))
    with (n := length nodes); [|by exists nodes, out|done].
  clear nodes out win buff w Hd Hr Hb Hf. intros n [win buff] w (nodes & out & -> & Hd & Hr & Hb).
  apply wpp_bind. eapply wpp_mono; [by apply read_node|]. intros [r b] w1 Hread.
  destruct Hread as [Hneg|Hread]; [rewrite (proj2 (Z.leb_le r 0)) by lia; apply wpp_ret; by left|].
  destruct nodes as [|node rest]; [destruct Hread as (-> & _ & E); apply wpp_ret; by right|].
  destruct Hread as (-> & -> & Hn & Hout & Hwr & Hnext). destruct Hr as [|Hr]; [done|]. change (3 <=? 0) with false.
  apply wpp_bind. eapply wpp_lift; [apply memcpy_in; rewrite ?Hg3; done || lia|]. change 3 with (zlen (node_bytes node)) at 1. rewrite blit_whole_of, bytes_node_bytes by done.
  destruct (proj1 (wp_ok _ _) (cavan_lz77_window_append_node_ok win out node buff Hr Hn Hb)) as ([[l win'] buff'] & E & Hb' & Hl & Ex & Hr').
  apply wpp_bind. eapply wpp_lift; [exact E|]. apply wpp_bind. eapply wpp_lift; [apply window_in; lia|].
  apply wpp_bind. eapply wpp_mono; [by apply (ffile_write_ok w1 fd_dest dest)|]. intros r w2 Hr2.
  destruct (Z.ltb_spec r 0); apply wpp_ret; [by left|]. destruct Hr2 as [[_ Ha]|[? _]]; [|lia].
  exists (length rest). split; [simpl; lia|]. exists rest, (expand out node). split_and!; [done| |by right|done].
  apply Hnext. unfold expand in Ex. apply app_inv_head in Ex. by rewrite Ex in Ha.
Qed.
End decode.

Section round_trip.
Context {W : Type} `{SystemLaws W}.

(** The end of the decompression, the files open. *)
Lemma decode_open_ok garbage g3 src dest fd1 fd2 data w :
  zlen garbage = CAVAN_LZ77_WIN_SIZE → zlen g3 = 3 → src ≠ dest → fd1 ≠ fd2 → compressed data (file w src) →
  reading w fd1 = Some (src, 0) → writing w fd2 = Some dest → file w dest = [] →
  ∀ fuel, (length (file w src) < fuel)%nat →
  wpp ('(ret, b) ← ffile_read fd1 CAVAN_LZ77_WIN_SIZE;
       if ret <? 0 then mret ret
       else
         buff ← lift (memcpy garbage 0 b 0 ret);
         out ← lift (window buff 0 ret);
         ret ← ffile_write fd2 out;
         if ret <? 0 then mret ret
         else
           win ← lift (cavan_lz77_window_init buff);
           ploop fuel (λ '(win, buff),
             '(ret, b) ← ffile_read fd1 3;
             if ret <=? 0 then mret (inr ret)
             else
               nb ← lift (memcpy g3 0 b 0 ret);
               '(length, win, buff) ← lift (cavan_lz77_window_append_node win (bytes_node nb) buff);
               out ← lift (window buff 0 length);
               ret ← ffile_write fd2 out;
               if ret <? 0 then mret (inr ret) else mret (inl (win, buff))) (win, buff)) w
    (λ r w', r < 0 ∨ r = 0 ∧ file w' dest = data).
Proof.
  intros Hg Hg3 Hne Hfds Hc Hr2 Hw2 Hempty fuel Hfuel.
  apply wpp_bind. eapply wpp_mono; [apply (ffile_read_ok w fd1 _ src 0 Hr2); [unfold zlen; lia|done]|].
  intros [r b] w3 [Ho3 Hread]. rewrite Z.sub_0_r in Hread. destruct Hread as [(Hneg & _)|(-> & -> & Hr3)].
  { rewrite (proj2 (Z.ltb_lt r 0)) by done. apply wpp_ret. by left. }
  set (n := Z.min CAVAN_LZ77_WIN_SIZE (zlen (file w src))) in *. pose proof (zlen_nonneg (file w src)) as Hpos.
  assert (0 ≤ n ≤ zlen (file w src) ∧ n ≤ CAVAN_LZ77_WIN_SIZE) as [Hn Hn'] by (unfold n; win_lia).
  assert (zlen (slice (file w src) 0 n) = n) as Hlb by (apply zlen_slice; lia).
  rewrite (proj2 (Z.ltb_ge n 0)) by lia. apply wpp_bind. eapply wpp_lift; [apply memcpy_in; lia|].
  set (buff := blit garbage 0 (slice (file w src) 0 n) 0 n).
  assert (zlen buff = CAVAN_LZ77_WIN_SIZE) as Hbuff by (unfold buff; rewrite zlen_blit; lia).
  assert (slice buff 0 n = slice (file w src) 0 n) as Efront.
  { apply array_ext; rewrite ?Hlb; [by rewrite zlen_slice by lia|]. intros i Hi. rewrite zlen_slice in Hi by lia.
    rewrite (get_slice buff) by lia. unfold buff. rewrite get_blit, decide_True by lia. f_equal. lia. }
  apply wpp_bind. eapply wpp_lift; [apply window_in; lia|]. rewrite Efront. apply wpp_bind. eapply wpp_mono; [apply (ffile_write_ok w3 fd2 dest); by rewrite (same_writing _ _ _ _ Ho3)|].
  intros r4 w4 Hr4. destruct (Z.ltb_spec r4 0); [apply wpp_ret; by left|]. destruct Hr4 as [[_ Ha]|[? _]]; [|lia].
  apply wpp_bind. eapply wpp_lift; [unfold cavan_lz77_window_init; rewrite window_in by lia; reflexivity|].
  assert (∀ nodes, Forall node_ok nodes → file w src = slice (file w src) 0 n ++ concat (map node_bytes nodes) →
    foldl expand (slice (file w src) 0 n) nodes = data →
    decoding src dest fd1 fd2 (file w src) data nodes (slice (file w src) 0 n) w4) as Hdec.
  { intros nodes Hok E Hx. destruct Ha as [A B C D]. split; [| | | |done|done].
    - by rewrite B, (same_files _ _ _ _ Ho3).
    - by rewrite A, (same_files _ _ _ _ Ho3), Hempty.
    - by rewrite D, (same_writing _ _ _ _ Ho3).
    - exists n. rewrite C, Hr3. split_and!; [done|lia|lia|]. rewrite E at 1. apply drop_app_length'. unfold zlen in Hlb. lia. }
  assert (∀ nodes, (3 * length nodes ≤ length (concat (map node_bytes nodes)))%nat) as Hcount.
  { intros nodes. induction nodes as [|x nodes IH]; [done|]. cbn [map concat length]. rewrite length_app. simpl. lia. }
  unfold compressed in Hc. destruct (Z.leb_spec (zlen data) CAVAN_LZ77_WIN_SIZE) as [Hsmall|Hbig].
  - assert (slice (file w src) 0 n = data) as E by (rewrite <-Hc; apply slice_all; unfold n; rewrite <-Hc in Hsmall; lia).
    eapply (decode_loop_ok src dest fd1 fd2 (file w src) data g3 Hne Hfds Hg3 _ [] data); [|by left|done|simpl; lia].
    rewrite <-E at 2. apply Hdec; [done|rewrite app_nil_r; congruence|done].
  - destruct Hc as (nodes & Hok & E & Hx).
    assert (zlen (slice data 0 CAVAN_LZ77_WIN_SIZE) = CAVAN_LZ77_WIN_SIZE) as Hh by (apply zlen_slice; win_lia).
    assert (n = CAVAN_LZ77_WIN_SIZE) as En by (unfold n; rewrite E, zlen_app, Hh; unfold zlen; lia).
    assert (slice (file w src) 0 n = slice data 0 CAVAN_LZ77_WIN_SIZE) as Eh.
    { rewrite En, E. unfold slice at 1. rewrite drop_0. apply take_app_length'. unfold zlen in Hh. lia. }
    eapply (decode_loop_ok src dest fd1 fd2 (file w src) data g3 Hne Hfds Hg3 _ nodes (slice (file w src) 0 n)); [|right|done|].
    + apply Hdec; [done|rewrite Eh; exact E|by rewrite Eh].
    + split; cbn [win_data win_head]; [rewrite zlen_slice; win_lia|win_lia|win_lia|]. intros i Hi. rewrite Z.add_0_l, Z.mod_small by done.
      rewrite <-En, Efront. f_equal. rewrite Hlb. lia.
    + apply (f_equal length) in E. rewrite length_app in E. specialize (Hcount nodes). lia.
Qed.

Lemma cavan_lz77_decode_ok garbage g3 src dest data w :
  zlen garbage = CAVAN_LZ77_WIN_SIZE → zlen g3 = 3 → src ≠ dest → compressed data (file w src) →
  wpp (cavan_lz77_decode garbage g3 src dest) w (λ r w', r < 0 ∨ r = 0 ∧ file w' dest = data).
Proof.
  intros Hg Hg3 Hne Hc. unfold cavan_lz77_decode. apply wpp_bind, wpp_reads. apply wpp_bind. eapply wpp_mono; [apply open_read_law|]. intros fd1 w1 Hfd1.
  destruct (Z.ltb_spec fd1 0); [apply wpp_ret; by left|]. destruct Hfd1 as [[? _]|(_ & _ & _ & Ho1 & Hr1)]; [lia|].
  apply wpp_bind. eapply wpp_mono; [apply open_write_law|]. intros fd2 w2 Hfd2.
  pose (Q := λ (r : Z) (f : list Z), r < 0 ∨ r = 0 ∧ f = data).
  apply (wpp_then_close fd1 dest _ _ Q). destruct (Z.ltb_spec fd2 0); [apply wpp_ret; by left|].
  destruct Hfd2 as [[? _]|(_ & Hn2 & _ & Ho2 & Hempty & Hw2)]; [lia|].
  assert (fd1 ≠ fd2) as Hfds by congruence.
  assert (reading w2 fd1 = Some (src, 0)) as Hr2 by (by rewrite (same_reading _ _ _ _ Ho2)).
  assert (file w2 src = file w src) as Hsrc by (rewrite (same_files _ _ _ _ Ho2) by congruence; by apply (same_files _ _ _ _ Ho1)).
  apply (wpp_then_close fd2 dest _ _ Q). apply (decode_open_ok garbage g3 src dest fd1 fd2 data w2); rewrite ?Hsrc; done || lia.
Qed.

(** C29: decompressing what was compressed gives it back: when
    [cavan_lz77_encode] reports success for the file [p] and
    [cavan_lz77_decode] for [p] and [q], [q] holds the data, for any system
    that keeps files as POSIX says, however it splits or interrupts the writes.
    Both always return.  The byte after the data must be readable (the search
    for a match reads it) and no 255 bytes may stand twice in a row (the
    decompression's buffer has no room for the byte after them). *)
Theorem cavan_lz77_round_trip garbage g3 m e p q w
  (Hg : zlen garbage = CAVAN_LZ77_WIN_SIZE) (Hg3 : zlen g3 = 3) (Hpq : p ≠ q)
  (He : 0 ≤ e < zlen m) (Hr : no_repeat (slice m 0 e)) :
  wpp (r ← cavan_lz77_encode m e p; if r <? 0 then mret None else d ← cavan_lz77_decode garbage g3 p q; mret (Some d)) w
    (λ d w', match d with Some d => d < 0 ∨ d = 0 ∧ file w' q = slice m 0 e | None => True end).
Proof.
  apply wpp_bind. eapply wpp_mono; [by apply cavan_lz77_encode_ok|]. intros r w1 Hc.
  destruct (Z.ltb_spec r 0); [by apply wpp_ret|]. destruct Hc as [|Hc]; [lia|].
  apply wpp_bind. eapply wpp_mono; [by apply (cavan_lz77_decode_ok garbage g3 p q (slice m 0 e))|]. intros d w2 Hd. by apply wpp_ret.
Qed.
End round_trip.

Lemma cavan_lz77_round_trip_witness :
  let m := map (λ i, i mod 7) (seqZ 0 301) in
  let w := {| files := {[9 := [1; 2]]}; opened := []; calls := 0 |} in
  0 ≤ 300 < zlen m ∧ no_repeat (slice m 0 300) ∧
  wpp (r ← cavan_lz77_encode m 300 1; if r <? 0 then mret None else d ← cavan_lz77_decode (repeat 0 255) [0; 0; 0] 1 2; mret (Some d)) w
    (λ d w', match d with Some d => d < 0 ∨ d = 0 ∧ file w' 2 = slice m 0 300 | None => True end).
Proof.
  intros m w. assert (0 ≤ 300 < zlen m) as He by (assert (zlen m = 301) as -> by reflexivity; lia).
  assert (no_repeat (slice m 0 300)) as Hn.
  { intros i Hi Hl. rewrite zlen_slice in Hl by lia. unfold CAVAN_LZ77_WIN_SIZE in Hl. lia. }
  split; [exact He|]. split; [exact Hn|].
  exact (cavan_lz77_round_trip (repeat 0 255) [0; 0; 0] m 300 1 2 w eq_refl eq_refl ltac:(lia) He Hn).
Defined.

(** When the data ends with a match, [*p] is the byte after it. *)
Example get_node_reads_past_the_data : cavan_lz77_get_node (repeat 0 258) 0 CAVAN_LZ77_WIN_SIZE 258 = Undef.
Proof. vm_compute. reflexivity. Qed.

(** A node as long as the window is written past the buffer of the decompression. *)
Lemma append_node_overflows win o v buff :
  zlen buff = CAVAN_LZ77_WIN_SIZE →
  ¬ ∃ r, cavan_lz77_window_append_node win {| nd_offset := o; nd_length := CAVAN_LZ77_WIN_SIZE; nd_value := v |} buff = Ok r.
Proof.
  intros Hb [r E]. unfold cavan_lz77_window_append_node in E. cbn [nd_offset nd_length nd_value] in E.
  assert (∀ d s i j n b, memcpy d i s j n = Ok b → zlen (b : list Z) = zlen d) as Hm.
  { intros d s i j n b. unfold memcpy. destruct (_ && _) eqn:Ec; [|done]. intros [= <-]. repeat (apply andb_true_iff in Ec as [Ec ?%Z.leb_le]). apply Z.leb_le in Ec. by apply zlen_blit. }
  assert (∀ b : list Z, zlen b = CAVAN_LZ77_WIN_SIZE → store b CAVAN_LZ77_WIN_SIZE v = Undef) as Hst.
  { intros b Hl. unfold store, inb. by rewrite Hl, Z.ltb_irrefl, andb_false_r. }
  set (off := Z.rem _ _) in E. destruct (_ <? CAVAN_LZ77_WIN_SIZE) in E; [|change (0 <? CAVAN_LZ77_WIN_SIZE) with true in E; cbv iota in E].
  - destruct (memcpy buff _ _ _ _) as [b1| |] eqn:E1 in E; try done. cbn [mbind cres_bind] in E.
    destruct (memcpy b1 _ _ _ _) as [b2| |] eqn:E2 in E; try done. cbn [mbind cres_bind] in E.
    rewrite Hst in E by (by rewrite (Hm _ _ _ _ _ _ E2), (Hm _ _ _ _ _ _ E1)). done.
  - destruct (memcpy buff _ _ _ _) as [b1| |] eqn:E1 in E; try done. cbn [mbind cres_bind] in E.
    rewrite Hst in E by (by rewrite (Hm _ _ _ _ _ _ E1)). done.
Qed.
