(* ===== verification/Rle.v ===== *)
(** Rle: the run-length coding of src/lib/rle.c.

    An output buffer of [MAX_BUFFER_LEN] bytes is the list of the bytes between
    its start and the pointer that fills it; storing checks its size. *)
From S2P Require Import Prelude File.

Definition RLE_MAX_BUFFER_LEN : Z := 2 ^ 20.

(** [*q++ = b] and [memset (p, v, n); p += n]. *)
Definition buff_put (buff : list Z) (b : Z) : cres (list Z) :=
  if zlen buff <? RLE_MAX_BUFFER_LEN then Ok (buff ++ [b]) else Undef.
Definition buff_fill (buff : list Z) (v n : Z) : cres (list Z) :=
  if zlen buff + n <=? RLE_MAX_BUFFER_LEN then Ok (buff ++ repeat v (Z.to_nat n)) else Undef.

(** [for (p = data, tmp = *p; tmp == *p && p < data_end; p++)]. *)
Definition run_end (m : list Z) (data data_end tmp : Z) : cres Z :=
  loop (S (Z.to_nat (data_end - data))) (λ p,
    v ← load m p;
    if (tmp =? v) && (p <? data_end) then mret (inl (p + 1)) else mret (inr p)) data.

Section files.
Context {W : Type} `{System W}.

(** [None] is the null pointer. *)
Definition frle_data_to (m : list Z) (size fd_out : Z) : prog W (option Z) :=
  let data_end := size in
  r ← ploop (S (Z.to_nat size)) (λ '(data, buff),
    if data <? data_end then
      tmp ← lift (load m data);
      p ← lift (run_end m data data_end tmp);
      let full := RLE_MAX_BUFFER_LEN - 1 <=? zlen buff in
      ret ← (if full then ffile_write fd_out buff else mret 0);
      if full && (ret <? 0) then mret (inr None)
      else
        let buff := if full then [] else buff in
        buff ← lift (buff_put buff (u8 (p - data)));
        buff ← lift (buff_put buff tmp);
        mret (inl (p, buff))
    else mret (inr (Some (data, buff)))) (0, []);
  match r with
  | None => mret None
  | Some (data, buff) =>
      if 0 <? zlen buff then
        ret ← ffile_write fd_out buff;
        if ret <? 0 then mret None else mret (Some data)
      else mret (Some data)
  end.

Definition funrle_data_to (m : list Z) (size fd_out : Z) : prog W (option Z) :=
  let data_end := size in
  r ← ploop (S (Z.to_nat size)) (λ '(data, buff),
    if data <? data_end then
      tmp ← lift (load m data);
      r ← ploop 257 (λ '(tmp, buff),
        if RLE_MAX_BUFFER_LEN <=? zlen buff + tmp then
          v ← lift (load m (data + 1));
          let room := RLE_MAX_BUFFER_LEN - zlen buff in
          buff ← lift (buff_fill buff v room);
          ret ← ffile_write fd_out buff;
          if ret <? 0 then mret (inr None) else mret (inl (u8 (tmp - room), []))
        else mret (inr (Some (tmp, buff)))) (tmp, buff);
      match r with
      | None => mret (inr None)
      | Some (tmp, buff) =>
          v ← lift (load m (data + 1));
          buff ← lift (buff_fill buff v tmp);
          mret (inl (data + 2, buff))
      end
    else mret (inr (Some (data, buff)))) (0, []);
  match r with
  | None => mret None
  | Some (data, buff) =>
      if 0 <? zlen buff then
        ret ← ffile_write fd_out buff;
        if ret <? 0 then mret None else mret (Some data)
      else mret (Some data)
  end.
End files.

(** ** Reference *)

Definition run : Type := Z * Z.
Definition run_ok (r : run) : Prop := 0 < r.1 ≤ 255.
Definition run_bytes (r : run) : list Z := [r.1; r.2].
Definition run_data (r : run) : list Z := repeat r.2 (Z.to_nat r.1).
Definition runs_bytes (rs : list run) : list Z := concat (map run_bytes rs).
Definition runs_data (rs : list run) : list Z := concat (map run_data rs).

(** No byte stands more than 255 times in a row. *)
Definition short_runs (data : list Z) : Prop :=
  ∀ i v, 0 ≤ i → i + 256 ≤ zlen data → slice data i 256 ≠ repeat v 256.

Lemma runs_bytes_snoc rs r : runs_bytes (rs ++ [r]) = runs_bytes rs ++ run_bytes r.
Proof. unfold runs_bytes. rewrite map_app, concat_app. cbn [map concat]. by rewrite app_nil_r. Qed.
Lemma runs_data_snoc rs r : runs_data (rs ++ [r]) = runs_data rs ++ run_data r.
Proof. unfold runs_data. rewrite map_app, concat_app. cbn [map concat]. by rewrite app_nil_r. Qed.

(** ** Coding *)

(** The end of a run: the bytes from [d] on are the same up to there, and the
    next one, if it is data, is another. *)
Lemma run_end_ok m d e :
  0 ≤ d < e → e < zlen m →
  wp (run_end m d e (get m d)) (λ p, d < p ≤ e ∧ ∀ i, d ≤ i < p → get m i = get m d).
Proof.
  intros Hd He. unfold run_end.
  apply (wp_loop (λ p, d ≤ p ≤ e ∧ ∀ i, d ≤ i < p → get m i = get m d) _ (λ p, Z.to_nat (e - p))); [|split; [lia|intros; lia]|lia].
  intros p [Hp Hs]. wp_go. destruct (Z.eqb_spec (get m d) (get m p)) as [E|E]; cbn [andb].
  - destruct (Z.ltb_spec p e); wp_go; [|by split; [lia|]]. split; [|lia]. split; [lia|]. intros i Hi. destruct (Z.eq_dec i p) as [->|]; [done|]. apply Hs. lia.
  - wp_go. split; [|done]. assert (p ≠ d) by congruence. lia.
Qed.

Lemma get_repeat (v : Z) n i : 0 ≤ i < Z.of_nat n → get (repeat v n) i = v.
Proof.
  revert i. induction n as [|n IH]; intros i Hi; [lia|]. cbn [repeat]. destruct (Z.eq_dec i 0) as [->|]; [done|].
  rewrite get_cons_pos by lia. apply IH. lia.
Qed.
Lemma run_data_slice (m : list Z) d n v :
  0 ≤ d → 0 ≤ n → d + n ≤ zlen m → (∀ i, d ≤ i < d + n → get m i = v) → slice m d n = repeat v (Z.to_nat n).
Proof.
  intros Hd Hn Hl Hs. apply array_ext; rewrite zlen_slice by lia; [unfold zlen; rewrite repeat_length; lia|]. intros i Hi.
  rewrite get_slice, Hs, get_repeat by lia. done.
Qed.

Section encode.
Context {W : Type} `{SystemLaws W}.
Variables (m : list Z) (e fd p : Z) (w0 : W).
Hypothesis Hbounds : 0 ≤ e < zlen m.
Hypothesis Hshort : short_runs (slice m 0 e).
Hypothesis Hopen : writing w0 fd = Some p.

Lemma run_short d p' : 0 ≤ d < p' → p' ≤ e → (∀ i, d ≤ i < p' → get m i = get m d) → p' - d ≤ 255.
Proof.
  intros Hd Hp Hs. destruct (Z.le_gt_cases (p' - d) 255); [done|]. destruct (Hshort d (get m d)); [lia|rewrite zlen_slice by lia; lia|].
  change 256%nat with (Z.to_nat 256). apply run_data_slice; [lia|lia|rewrite zlen_slice by lia; lia|]. intros i Hi. rewrite get_slice by lia. apply Hs. lia.
Qed.

(** What was written and what is in the buffer stand for the data passed. *)
Definition run_coded (n : Z) (buff : list Z) (w : W) : Prop := ∃ rs out,
  Forall run_ok rs ∧ appended w0 w p out ∧ out ++ buff = runs_bytes rs ∧ runs_data rs = slice m 0 n.

Lemma flush_ok n buff w :
  run_coded n buff w → wpp (ffile_write fd buff) w (λ r w', r < 0 ∨ 0 ≤ r ∧ run_coded n [] w').
Proof.
  intros (rs & out & Hok & Ha & E & Ed). eapply wpp_mono; [apply (ffile_write_ok w fd p); by rewrite (app_writing _ _ _ _ Ha)|].
  intros r w' [[-> Ha']|[Hr _]]; [right|by left]. split; [apply zlen_nonneg|]. exists rs, (out ++ buff). rewrite app_nil_r.
  split_and!; [done|by apply (appended_app _ w)|done|done].
Qed.

Lemma frle_round d buff w :
  0 ≤ d < e → run_coded d buff w → zlen buff < RLE_MAX_BUFFER_LEN - 1 →
  ∃ d', d < d' ≤ e ∧ run_end m d e (get m d) = Ok d' ∧
    (b ← buff_put buff (u8 (d' - d)); buff_put b (get m d)) = Ok (buff ++ [d' - d; get m d]) ∧
    run_coded d' (buff ++ [d' - d; get m d]) w.
Proof.
  intros Hd (rs & out & Hok & Ha & E & Ed) Hb. destruct (proj1 (wp_ok _ _) (run_end_ok m d e Hd ltac:(lia))) as (d' & Er & Hd' & Hs).
  pose proof (run_short d d' ltac:(lia) ltac:(lia) Hs) as Hl. exists d'. split_and!; [lia..|done| |].
  - rewrite wrap_small by lia. unfold buff_put. rewrite (proj2 (Z.ltb_lt _ _)) by lia. cbn [mbind cres_bind].
    rewrite zlen_app. change (zlen [d' - d]) with 1. rewrite (proj2 (Z.ltb_lt _ _)) by lia. by rewrite <-app_assoc.
  - exists (rs ++ [(d' - d, get m d)]), out. split_and!; [apply Forall_app; split; [done|apply Forall_cons; by split; [unfold run_ok; simpl; lia|]]|done| |].
    + by rewrite runs_bytes_snoc, app_assoc, E.
    + rewrite runs_data_snoc, Ed. replace d' with (d + (d' - d)) at 2 by lia. rewrite slice_app, Z.add_0_l by lia. f_equal.
      symmetry. unfold run_data. cbn [fst snd]. apply run_data_slice; [lia..|]. intros i Hi. apply Hs. lia.
Qed.

Lemma frle_data_to_ok :
  wpp (frle_data_to m e fd) w0 (λ r w, r = None ∨ r = Some e ∧
    ∃ rs, Forall run_ok rs ∧ runs_data rs = slice m 0 e ∧ appended w0 w p (runs_bytes rs)).
Proof.
  unfold frle_data_to. apply wpp_bind.
  eapply wpp_mono with (P := λ r w, match r with None => True | Some (d, buff) => d = e ∧ run_coded e buff w end).
  - apply (wpp_ploop (λ n '(d, buff) w, 0 ≤ d ≤ e ∧ (Z.to_nat (e - d) ≤ n)%nat ∧ run_coded d buff w)) with (n := Z.to_nat e);
      [|split_and!; [lia..|]; exists [], []; split_and!; [done|apply appended_nil|done|done]|lia].
    intros n [d buff] w (Hd & Hn & Hc). destruct (Z.ltb_spec d e) as [Hlt|Hge]; [|apply wpp_ret; by replace d with e in * by lia].
    apply wpp_bind. eapply wpp_lift; [apply load_in; lia|]. 
    assert (∃ d', run_end m d e (get m d) = Ok d') as [d'' Er].
    { destruct (proj1 (wp_ok _ _) (run_end_ok m d e ltac:(lia) ltac:(lia))) as (d' & Er & _). by exists d'. }
    apply wpp_bind. eapply wpp_lift; [exact Er|]. cbv zeta.
    apply wpp_bind. eapply wpp_mono with (P := λ r w', (RLE_MAX_BUFFER_LEN - 1 <=? zlen buff) && (r <? 0) = true ∨
      (RLE_MAX_BUFFER_LEN - 1 <=? zlen buff) && (r <? 0) = false ∧ run_coded d (if RLE_MAX_BUFFER_LEN - 1 <=? zlen buff then [] else buff) w').
    + destruct (RLE_MAX_BUFFER_LEN - 1 <=? zlen buff); cbn [andb]; [|apply wpp_ret; by right].
      eapply wpp_mono; [by apply flush_ok|]. intros r w' [Hr|[Hr Hc']]; [left; by apply Z.ltb_lt|right]. split; [by apply Z.ltb_ge|done].
    + intros r w' [->|[-> Hc']]; [by apply wpp_ret|]. set (b' := if RLE_MAX_BUFFER_LEN - 1 <=? zlen buff then [] else buff) in *.
      assert (zlen b' < RLE_MAX_BUFFER_LEN - 1) as Hb by (unfold b'; destruct (Z.leb_spec (RLE_MAX_BUFFER_LEN - 1) (zlen buff)); [done|lia]).
      destruct (frle_round d b' w' ltac:(lia) Hc' Hb) as (d' & Hd' & Er' & Ep & Hcd). rewrite Er' in Er. injection Er as <-.
      destruct (buff_put b' (u8 (d' - d))) as [b1| |] eqn:E1; try done. cbn [mbind cres_bind] in Ep.
      apply wpp_bind. eapply wpp_lift; [reflexivity|]. apply wpp_bind. eapply wpp_lift; [exact Ep|]. apply wpp_ret.
      exists (n - 1)%nat. split_and!; [lia..|done].
  - intros [[d buff]|] w Hr; [|apply wpp_ret; by left]. destruct Hr as [-> Hc].
    assert (∀ w', run_coded e [] w' → ∃ rs, Forall run_ok rs ∧ runs_data rs = slice m 0 e ∧ appended w0 w' p (runs_bytes rs)) as Hend.
    { intros w' (rs & out & Hok & Ha & E & Ed). exists rs. rewrite app_nil_r in E. by rewrite <-E. }
    destruct (Z.ltb_spec 0 (zlen buff)) as [Hpos|Hz].
    + apply wpp_bind. eapply wpp_mono; [by apply flush_ok|]. intros r w' [Hneg|[Hr Hc']].
      * rewrite (proj2 (Z.ltb_lt r 0)) by done. apply wpp_ret. by left.
      * rewrite (proj2 (Z.ltb_ge r 0)) by done. apply wpp_ret. right. split; [done|]. by apply Hend.
    + apply wpp_ret. right. split; [done|]. apply Hend. destruct buff; [done|]. unfold zlen in Hz. simpl in Hz. lia.
Qed.
End encode.

(** ** Decoding *)

Lemma runs_bytes_at passed r todo :
  let m := runs_bytes (passed ++ r :: todo) in let d := zlen (runs_bytes passed) in
  load m d = Ok r.1 ∧ load m (d + 1) = Ok r.2 ∧ d + 2 = zlen (runs_bytes (passed ++ [r])) ∧ d < zlen m.
Proof.
  cbv zeta. assert (runs_bytes (passed ++ r :: todo) = runs_bytes passed ++ r.1 :: r.2 :: runs_bytes todo) as ->.
  { unfold runs_bytes. rewrite map_app, concat_app. done. }
  pose proof (zlen_nonneg (runs_bytes passed)). pose proof (zlen_nonneg (runs_bytes todo)).
  rewrite runs_bytes_snoc, !zlen_app, !zlen_cons. change (zlen (run_bytes r)) with 2.
  rewrite !load_in by (rewrite zlen_app, !zlen_cons; lia). rewrite !get_app_r by lia.
  rewrite Z.sub_diag. replace (zlen (runs_bytes passed) + 1 - zlen (runs_bytes passed)) with 1 by lia.
  split_and!; [done|done|lia|lia].
Qed.

Section decode.
Context {W : Type} `{SystemLaws W}.
Variables (fd p : Z) (w0 : W).
Hypothesis Hopen : writing w0 fd = Some p.

(** Written and buffered is [data], and the buffer is not full. *)
Definition unpacked (data buff : list Z) (w : W) : Prop :=
  zlen buff < RLE_MAX_BUFFER_LEN ∧ ∃ out, appended w0 w p out ∧ out ++ buff = data.

Lemma fill_ok m d v tmp data buff w :
  load m (d + 1) = Ok v → 0 ≤ tmp ≤ 255 → unpacked data buff w →
  wpp (ploop 257 (λ '(tmp, buff),
        if RLE_MAX_BUFFER_LEN <=? zlen buff + tmp then
          v ← lift (load m (d + 1));
          let room := RLE_MAX_BUFFER_LEN - zlen buff in
          buff ← lift (buff_fill buff v room);
          ret ← ffile_write fd buff;
          if ret <? 0 then mret (inr None) else mret (inl (u8 (tmp - room), []))
        else mret (inr (Some (tmp, buff)))) (tmp, buff)) w
    (λ r w', match r with None => True | Some (tmp', buff') =>
       ∃ buff2, buff_fill buff' v tmp' = Ok buff2 ∧ unpacked (data ++ repeat v (Z.to_nat tmp)) buff2 w' end).
Proof.
  intros Hv Ht Hu.
  apply (wpp_ploop (λ n '(t, b) w, 0 ≤ t ≤ 255 ∧ (Z.to_nat t ≤ n)%nat ∧ zlen b < RLE_MAX_BUFFER_LEN ∧
    ∃ out, appended w0 w p out ∧ out ++ b ++ repeat v (Z.to_nat t) = data ++ repeat v (Z.to_nat tmp))) with (n := Z.to_nat tmp); [| |lia].
  2: { destruct Hu as (Hb & out & Ha & E). split_and!; [lia..|done|]. exists out. split; [done|]. by rewrite app_assoc, E. }
  clear w Hu buff. intros n [t b] w (Htr & Hn & Hb & out & Ha & E). pose proof (zlen_nonneg b) as Hb0.
  destruct (Z.leb_spec RLE_MAX_BUFFER_LEN (zlen b + t)) as [Hfull|Hroom].
  - apply wpp_bind. eapply wpp_lift; [exact Hv|]. cbv zeta. apply wpp_bind.
    eapply wpp_lift; [unfold buff_fill; rewrite (proj2 (Z.leb_le _ _)) by lia; reflexivity|].
    apply wpp_bind. eapply wpp_mono; [apply (ffile_write_ok w fd p); by rewrite (app_writing _ _ _ _ Ha)|].
    intros r w' Hr. destruct (Z.ltb_spec r 0); [by apply wpp_ret|]. destruct Hr as [[_ Ha']|[? _]]; [|lia]. apply wpp_ret.
    rewrite wrap_small by lia. exists (n - Z.to_nat (RLE_MAX_BUFFER_LEN - zlen b))%nat. split_and!; [lia..|done|].
    eexists. split; [by apply (appended_app _ w)|]. cbn [app]. rewrite <-E, <-!app_assoc, <-repeat_app. do 3 f_equal. lia.
  - apply wpp_ret. exists (b ++ repeat v (Z.to_nat t)). split; [unfold buff_fill; by rewrite (proj2 (Z.leb_le _ _)) by lia|].
    split; [rewrite zlen_app; unfold zlen in *; rewrite repeat_length; lia|]. by exists out.
Qed.

Lemma funrle_data_to_ok rs :
  Forall run_ok rs →
  wpp (funrle_data_to (runs_bytes rs) (zlen (runs_bytes rs)) fd) w0 (λ r w,
    r = None ∨ r = Some (zlen (runs_bytes rs)) ∧ appended w0 w p (runs_data rs)).
Proof.
  intros Hok. unfold funrle_data_to. apply wpp_bind. set (m := runs_bytes rs).
  eapply wpp_mono with (P := λ r w, match r with None => True | Some (d, buff) => d = zlen m ∧ unpacked (runs_data rs) buff w end).
  - apply (wpp_ploop (λ n '(d, buff) w, ∃ passed todo, rs = passed ++ todo ∧ d = zlen (runs_bytes passed) ∧ (length todo ≤ n)%nat ∧
      unpacked (runs_data passed) buff w)) with (n := length rs).
    + intros n [d buff] w (passed & todo & E & -> & Hn & Hu). destruct todo as [|r todo].
      * rewrite app_nil_r in E. subst passed. unfold m. rewrite Z.ltb_irrefl. by apply wpp_ret.
      * destruct (runs_bytes_at passed r todo) as (L1 & L2 & Ed & Hd). rewrite <-E in L1, L2, Hd. fold m in L1, L2, Hd.
        rewrite (proj2 (Z.ltb_lt _ _)) by done. apply wpp_bind. eapply wpp_lift; [exact L1|].
        assert (run_ok r) as Hr by (rewrite E in Hok; apply Forall_app in Hok as [_ Hok]; by apply Forall_cons in Hok as [Hr _]).
        apply wpp_bind. eapply wpp_mono; [apply (fill_ok m _ r.2 r.1 (runs_data passed) buff w L2); [unfold run_ok in Hr; lia|exact Hu]|].
        intros [[t b]|] w' Hf; [|by apply wpp_ret]. destruct Hf as (b2 & Ef & Hu').
        apply wpp_bind. eapply wpp_lift; [exact L2|]. apply wpp_bind. eapply wpp_lift; [exact Ef|]. apply wpp_ret.
        exists (n - 1)%nat. simpl in Hn. split; [lia|]. exists (passed ++ [r]), todo. rewrite <-app_assoc. split_and!; [done|done|lia|].
        by rewrite runs_data_snoc.
    + exists [], rs. split_and!; [done|done|done|]. split; [done|]. exists []. split; [apply appended_nil|done].
    + assert (∀ l, zlen (runs_bytes l) = 2 * zlen l) as Hl by (intros l; induction l as [|x l IH]; [done|]; unfold runs_bytes in *; cbn [map concat]; rewrite zlen_app, zlen_cons, IH; change (zlen (run_bytes x)) with 2; lia).
      unfold m. rewrite Hl. unfold zlen. lia.
  - intros [[d buff]|] w Hr; [|apply wpp_ret; by left]. destruct Hr as [-> (Hb & out & Ha & E)]. destruct (Z.ltb_spec 0 (zlen buff)) as [Hpos|Hz].
    + apply wpp_bind. eapply wpp_mono; [apply (ffile_write_ok w fd p); by rewrite (app_writing _ _ _ _ Ha)|].
      intros r w' Hr. destruct (Z.ltb_spec r 0); [apply wpp_ret; by left|]. destruct Hr as [[_ Ha']|[? _]]; [|lia]. apply wpp_ret. right.
      split; [done|]. rewrite <-E. by apply (appended_app _ w).
    + apply wpp_ret. right. split; [done|]. destruct buff; [|unfold zlen in Hz; simpl in Hz; lia]. rewrite app_nil_r in E. by rewrite <-E.
Qed.
End decode.

(** C30: what [frle_data_to] appends to a file for data without 256 equal bytes
    in a row, [funrle_data_to] turns back into the data, whatever is written
    before and however the system splits the writes; both return, a failing
    write as a null pointer.  The byte after the data must be readable: the code
    compares it with the last one before it looks whether the data has ended
    (rle.c:26). *)
Theorem rle_round_trip {W} `{SystemLaws W} m e fd p (w : W)
  (He : 0 ≤ e < zlen m) (Hr : short_runs (slice m 0 e)) (Hw : writing w fd = Some p) :
  wpp (frle_data_to m e fd) w (λ r w', r = None ∨ r = Some e ∧ ∃ coded, appended w w' p coded ∧
    ∀ fd2 p2 (w2 : W), writing w2 fd2 = Some p2 →
      wpp (funrle_data_to coded (zlen coded) fd2) w2 (λ r2 w2', r2 = None ∨ r2 = Some (zlen coded) ∧ appended w2 w2' p2 (slice m 0 e))).
Proof.
  eapply wpp_mono; [by apply (frle_data_to_ok m e fd p)|]. intros r w' [->|[-> (rs & Hok & Ed & Ha)]]; [by left|right].
  split; [done|]. exists (runs_bytes rs). split; [done|]. intros fd2 p2 w2 Hw2. rewrite <-Ed. by apply funrle_data_to_ok.
Qed.

Lemma rle_round_trip_witness :
  let w := {| files := {[7 := []]}; opened := [Writing 7]; calls := 0 |} in let m := [5; 5; 5; 6; 9] in
  0 ≤ 4 < zlen m ∧ writing w 0 = Some 7 ∧
  wpp (frle_data_to m 4 0) w (λ r w', r = None ∨ r = Some 4 ∧ ∃ coded, appended w w' 7 coded ∧
    ∀ fd2 p2 (w2 : disk), writing w2 fd2 = Some p2 →
      wpp (funrle_data_to coded (zlen coded) fd2) w2 (λ r2 w2', r2 = None ∨ r2 = Some (zlen coded) ∧ appended w2 w2' p2 (slice m 0 4))).
Proof.
  intros w m. assert (0 ≤ 4 < zlen m) as He by (unfold m, zlen; simpl; lia). split; [exact He|]. split; [reflexivity|].
  apply (rle_round_trip m 4 0 7 w He); [|reflexivity]. intros i v Hi Hl. rewrite zlen_slice in Hl by lia. lia.
Defined.

(** 256 equal bytes are coded as a run of none. *)
Example long_run_is_lost :
  let w := {| files := {[7 := []]}; opened := [Writing 7]; calls := 1 |} in
  match frle_data_to (repeat 9 256 ++ [1]) 256 0 w with Ok (_, w') => file w' 7 | _ => [] end = [0; 9].
Proof. vm_compute. reflexivity. Qed.

(** The end of the data is compared with the byte after it. *)
Example run_end_reads_past_the_data : run_end [3; 3] 0 2 3 = Undef.
Proof. reflexivity. Qed.
