(* ===== verification/Numbers.v ===== *)
(** Numbers: bit searches, greatest common divisors and lowest common multiples
    of src/lib/math.c.

    The divisor is found by subtraction; its loop carries a bound as an
    argument, so that a theorem can say for which arguments no bound is enough. *)
From S2P Require Import Prelude.

(** ** The first and the last bit that is set *)

Definition math_find_first_non_zero_bit8 (value : Z) : Z :=
  let num := 0 in
  let '(value, num) := if Z.land value 0x0F =? 0 then (Z.shiftr value 4, num + 4) else (value, num) in
  let '(value, num) := if Z.land value 0x03 =? 0 then (Z.shiftr value 2, num + 2) else (value, num) in
  if negb (Z.land value 0x01 =? 0) then num
  else if negb (Z.land value 0x02 =? 0) then num + 1 else - EINVAL.
Definition math_find_first_non_zero_bit16 (value : Z) : Z :=
  if Z.land value 0xFF =? 0 then
    let ret := math_find_first_non_zero_bit8 (u8 (Z.shiftr value 8)) in
    if ret <? 0 then ret else ret + 8
  else math_find_first_non_zero_bit8 (Z.land value 0xFF).
Definition math_find_first_non_zero_bit32 (value : Z) : Z :=
  if Z.land value 0xFFFF =? 0 then
    let ret := math_find_first_non_zero_bit16 (u16 (Z.shiftr value 16)) in
    if ret <? 0 then ret else ret + 16
  else math_find_first_non_zero_bit16 (Z.land value 0xFFFF).
Definition math_find_first_non_zero_bit64 (value : Z) : Z :=
  if Z.land value 0xFFFFFFFF =? 0 then
    let ret := math_find_first_non_zero_bit32 (u32 (Z.shiftr value 32)) in
    if ret <? 0 then ret else ret + 32
  else math_find_first_non_zero_bit32 (Z.land value 0xFFFFFFFF).

Definition math_find_last_non_zero_bit8 (value : Z) : Z :=
  let num := 7 in
  let '(value, num) := if Z.land value 0xF0 =? 0 then (u8 (Z.shiftl value 4), num - 4) else (value, num) in
  let '(value, num) := if Z.land value 0xC0 =? 0 then (u8 (Z.shiftl value 2), num - 2) else (value, num) in
  if negb (Z.land value 0x80 =? 0) then num
  else if negb (Z.land value 0x40 =? 0) then num - 1 else - EINVAL.
Definition math_find_last_non_zero_bit16 (value : Z) : Z :=
  if negb (Z.land value 0xFF00 =? 0) then
    let ret := math_find_last_non_zero_bit8 (u8 (Z.shiftr value 8)) in
    if ret <? 0 then ret else ret + 8
  else math_find_last_non_zero_bit8 (u8 value).
Definition math_find_last_non_zero_bit32 (value : Z) : Z :=
  if negb (Z.land value 0xFFFF0000 =? 0) then
    let ret := math_find_last_non_zero_bit16 (u16 (Z.shiftr value 16)) in
    if ret <? 0 then ret else ret + 16
  else math_find_last_non_zero_bit16 (u16 value).
Definition math_find_last_non_zero_bit64 (value : Z) : Z :=
  if negb (Z.land value 0xFFFFFFFF00000000 =? 0) then
    let ret := math_find_last_non_zero_bit32 (u32 (Z.shiftr value 32)) in
    if ret <? 0 then ret else ret + 32
  else math_find_last_non_zero_bit32 (u32 value).

(** ** Divisors and multiples *)

Definition math_get_greatest_common_divisor_single (fuel : nat) (a b : Z) : cres Z :=
  loop fuel (λ '(a, b),
    if negb (a =? b) then
      if b <? a then mret (inl (u64 (a - b), b)) else mret (inl (a, u64 (b - a)))
    else mret (inr a)) (a, b).

Definition math_get_greatest_common_divisor (fuel : nat) (data : list Z) (count : Z) : cres Z :=
  value ← load data 0;
  loop (S (length data)) (λ '(i, value),
    if i <? count then
      d ← load data i;
      value ← math_get_greatest_common_divisor_single fuel value d;
      if value <? 2 then mret (inr 1) else mret (inl (i + 1, value))
    else mret (inr value)) (1, value).

Definition math_get_lowest_common_multiple_single (fuel : nat) (a b : Z) : cres Z :=
  div ← math_get_greatest_common_divisor_single fuel a b;
  if div =? 0 then Undef else mret (u64 (a / div * b)).

Definition math_get_lowest_common_multiple (fuel : nat) (data : list Z) (count : Z) : cres Z :=
  value ← load data 0;
  loop (S (length data)) (λ '(i, value),
    if i <? count then
      d ← load data i;
      value ← math_get_lowest_common_multiple_single fuel value d;
      mret (inl (i + 1, value))
    else mret (inr value)) (1, value).

(** ** Bits *)

(** [r] is the lowest, the highest bit of [v] that is set; an error when there
    is none. *)
Definition is_first_bit (v r : Z) : Prop :=
  if v =? 0 then r = - EINVAL else 0 ≤ r ∧ Z.testbit v r = true ∧ ∀ i, 0 ≤ i < r → Z.testbit v i = false.
Definition is_last_bit (v r : Z) : Prop :=
  if v =? 0 then r = - EINVAL else r = Z.log2 v.

(** All bytes, by evaluation. *)
Lemma byte_cases (P : Z → bool) : forallb P (seqZ 0 256) = true → ∀ v, 0 ≤ v < 256 → P v = true.
Proof. intros H v Hv. rewrite forallb_forall in H. apply H, list_elem_of_In, elem_of_seqZ. lia. Qed.

Lemma first_bit8 v : 0 ≤ v < 2 ^ 8 → is_first_bit v (math_find_first_non_zero_bit8 v).
Proof.
  intros Hv. pose (ok := λ v, if v =? 0 then math_find_first_non_zero_bit8 v =? - EINVAL
    else (0 <=? math_find_first_non_zero_bit8 v) && Z.testbit v (math_find_first_non_zero_bit8 v) && (Z.land v (Z.ones (math_find_first_non_zero_bit8 v)) =? 0)).
  assert (ok v = true) as H by (apply byte_cases; [vm_compute; reflexivity|lia]). unfold ok in H. unfold is_first_bit.
  destruct (v =? 0); [by apply Z.eqb_eq in H|]. apply andb_true_iff in H as [[H0%Z.leb_le H1]%andb_true_iff H2%Z.eqb_eq].
  split_and!; [done|done|]. intros i Hi. apply (f_equal (λ x, Z.testbit x i)) in H2. rewrite Z.land_spec, Z.ones_spec_low, andb_true_r, Z.bits_0 in H2 by lia. done.
Qed.
Lemma last_bit8 v : 0 ≤ v < 2 ^ 8 → is_last_bit v (math_find_last_non_zero_bit8 v).
Proof.
  intros Hv. pose (ok := λ v, math_find_last_non_zero_bit8 v =? if v =? 0 then - EINVAL else Z.log2 v).
  assert (ok v = true) as H by (apply byte_cases; [vm_compute; reflexivity|lia]). unfold ok in H. apply Z.eqb_eq in H.
  unfold is_last_bit. by destruct (v =? 0).
Qed.

Lemma land_low k v : 0 ≤ k → Z.land v (Z.ones k) = v mod 2 ^ k.
Proof. intros. by apply Z.land_ones. Qed.

(** The step from [k] bits to [2k]. *)
Lemma first_bit_double k v lo hi :
  0 < k → 0 ≤ v < 2 ^ (2 * k) →
  is_first_bit (v mod 2 ^ k) lo → is_first_bit (v / 2 ^ k) hi →
  is_first_bit v (if v mod 2 ^ k =? 0 then if hi <? 0 then hi else hi + k else lo).
Proof.
  intros Hk Hv. unfold is_first_bit. pose proof (Z.div_mod v (2 ^ k) ltac:(lia)) as E.
  assert (0 < 2 ^ k) by lia. destruct (Z.eqb_spec (v mod 2 ^ k) 0) as [E0|E0].
  - intros ->. destruct (Z.eqb_spec (v / 2 ^ k) 0) as [E1|E1].
    + intros ->. rewrite (proj2 (Z.eqb_eq v 0)) by nia. done.
    + intros (Hr & Ht & Hl). rewrite (proj2 (Z.eqb_neq v 0)) by nia. rewrite (proj2 (Z.ltb_ge hi 0)) by done.
      assert (∀ i, k ≤ i → Z.testbit v i = Z.testbit (v / 2 ^ k) (i - k)) as Hb.
      { intros i Hi. rewrite Z.div_pow2_bits by lia. f_equal. lia. }
      split_and!; [lia|rewrite Hb by lia; by replace (hi + k - k) with hi by lia|]. intros i Hi. destruct (Z.lt_ge_cases i k).
      * rewrite <-(Z.mod_pow2_bits_low v k i) by done. by rewrite E0, Z.bits_0.
      * rewrite Hb by lia. apply Hl. lia.
  - intros (Hr & Ht & Hl) _. rewrite (proj2 (Z.eqb_neq v 0)) by (intros ->; by rewrite Z.mod_0_l in E0 by lia).
    destruct (Z.lt_ge_cases lo k); [|by rewrite Z.mod_pow2_bits_high in Ht by lia].
    split_and!; [done|by rewrite Z.mod_pow2_bits_low in Ht by done|]. intros i Hi. rewrite <-(Z.mod_pow2_bits_low v k i) by lia. by apply Hl.
Qed.

Lemma last_bit_double k v lo hi :
  0 < k → 0 ≤ v < 2 ^ (2 * k) →
  is_last_bit (v mod 2 ^ k) lo → is_last_bit (v / 2 ^ k) hi →
  is_last_bit v (if v / 2 ^ k =? 0 then lo else if hi <? 0 then hi else hi + k).
Proof.
  intros Hk Hv. unfold is_last_bit. pose proof (Z.div_mod v (2 ^ k) ltac:(lia)) as E. assert (0 < 2 ^ k) by lia.
  pose proof (Z.mod_pos_bound v (2 ^ k) ltac:(lia)) as Hm.
  destruct (Z.eqb_spec (v / 2 ^ k) 0) as [E1|E1].
  - rewrite E1, Z.mul_0_r, Z.add_0_l in E. rewrite <-E. done.
  - intros _ ->. assert (0 < v / 2 ^ k) by (pose proof (Z.div_pos v (2 ^ k)); lia).
    rewrite (proj2 (Z.eqb_neq v 0)) by nia. pose proof (Z.log2_nonneg (v / 2 ^ k)).
    rewrite (proj2 (Z.ltb_ge _ 0)) by done. symmetry. apply Z.log2_unique; [lia|].
    pose proof (Z.log2_spec (v / 2 ^ k) ltac:(done)) as [Hlo Hhi].
    rewrite Z.pow_succ_r, Z.pow_add_r by lia. rewrite Z.pow_succ_r in Hhi by lia. set (q := v / 2 ^ k) in *. set (L := 2 ^ Z.log2 q) in *. clearbody q L.
    split; nia.
Qed.

Lemma land_high k v : 0 < k → 0 ≤ v < 2 ^ (2 * k) → (Z.land v (Z.shiftl (Z.ones k) k) =? 0) = (v / 2 ^ k =? 0).
Proof.
  intros Hk Hv. assert (0 ≤ v / 2 ^ k < 2 ^ k) as Hq.
  { split; [apply Z.div_pos; lia|]. apply Z.div_lt_upper_bound; [lia|]. rewrite <-Z.pow_add_r by lia. replace (k + k) with (2 * k) by lia. lia. }
  assert (Z.land v (Z.shiftl (Z.ones k) k) = Z.shiftl (v / 2 ^ k) k) as ->.
  { apply Z.bits_inj'. intros i Hi. rewrite Z.land_spec, !Z.shiftl_spec by done. destruct (Z.lt_ge_cases i k).
    - by rewrite !(Z.testbit_neg_r _ (i - k)), andb_false_r by lia.
    - rewrite Z.div_pow2_bits by lia. replace (i - k + k) with i by lia. destruct (Z.lt_ge_cases i (2 * k)).
      + by rewrite Z.ones_spec_low, andb_true_r by lia.
      + assert (Z.testbit v i = false) as -> by (rewrite <-(Z.mod_small v (2 ^ (2 * k))) by done; apply Z.mod_pow2_bits_high; lia). done. }
  rewrite Z.shiftl_mul_pow2 by lia. destruct (Z.eqb_spec (v / 2 ^ k) 0) as [->|]; [done|]. apply Z.eqb_neq. nia.
Qed.

Lemma halves k v : 0 < k → 0 ≤ v < 2 ^ (2 * k) →
  0 ≤ v mod 2 ^ k < 2 ^ k ∧ 0 ≤ v / 2 ^ k < 2 ^ k ∧ Z.shiftr v k = v / 2 ^ k ∧ Z.land v (Z.ones k) = v mod 2 ^ k.
Proof.
  intros Hk Hv. split_and!; try (apply Z.mod_pos_bound; lia); [apply Z.div_pos; lia| |apply Z.shiftr_div_pow2; lia|apply Z.land_ones; lia].
  apply Z.div_lt_upper_bound; [lia|]. rewrite <-Z.pow_add_r by lia. replace (k + k) with (2 * k) by lia. lia.
Qed.

(** From half the width to the width. *)
Lemma first_bit_widen (find : Z → Z) k v :
  0 < k → (∀ v, 0 ≤ v < 2 ^ k → is_first_bit v (find v)) → 0 ≤ v < 2 ^ (2 * k) →
  is_first_bit v (if Z.land v (Z.ones k) =? 0 then
    let ret := find (wrap k (Z.shiftr v k)) in if ret <? 0 then ret else ret + k else find (Z.land v (Z.ones k))).
Proof.
  intros Hk Hf Hv. destruct (halves k v Hk Hv) as (Hm & Hq & -> & ->). rewrite wrap_small by done.
  apply (first_bit_double k v); [done|done|by apply Hf|by apply Hf].
Qed.
Lemma last_bit_widen (find : Z → Z) k v :
  0 < k → (∀ v, 0 ≤ v < 2 ^ k → is_last_bit v (find v)) → 0 ≤ v < 2 ^ (2 * k) →
  is_last_bit v (if negb (Z.land v (Z.shiftl (Z.ones k) k) =? 0) then
    let ret := find (wrap k (Z.shiftr v k)) in if ret <? 0 then ret else ret + k else find (wrap k v)).
Proof.
  intros Hk Hf Hv. destruct (halves k v Hk Hv) as (Hm & Hq & -> & _). rewrite wrap_small, land_high by done.
  pose proof (last_bit_double k v _ _ Hk Hv (Hf _ Hm) (Hf _ Hq)) as H. by destruct (v / 2 ^ k =? 0).
Qed.

(** The bit searches of every width find the lowest and the highest bit
    that is set, and report zero as an error. *)
Theorem math_find_bits v :
  (0 ≤ v < 2 ^ 8 → is_first_bit v (math_find_first_non_zero_bit8 v) ∧ is_last_bit v (math_find_last_non_zero_bit8 v)) ∧
  (0 ≤ v < 2 ^ 16 → is_first_bit v (math_find_first_non_zero_bit16 v) ∧ is_last_bit v (math_find_last_non_zero_bit16 v)) ∧
  (0 ≤ v < 2 ^ 32 → is_first_bit v (math_find_first_non_zero_bit32 v) ∧ is_last_bit v (math_find_last_non_zero_bit32 v)) ∧
  (0 ≤ v < 2 ^ 64 → is_first_bit v (math_find_first_non_zero_bit64 v) ∧ is_last_bit v (math_find_last_non_zero_bit64 v)).
Proof.
  assert (∀ v, 0 ≤ v < 2 ^ 16 → is_first_bit v (math_find_first_non_zero_bit16 v)) as F16 by (intros w Hw; exact (first_bit_widen math_find_first_non_zero_bit8 8 w ltac:(lia) first_bit8 Hw)).
  assert (∀ v, 0 ≤ v < 2 ^ 32 → is_first_bit v (math_find_first_non_zero_bit32 v)) as F32 by (intros w Hw; exact (first_bit_widen math_find_first_non_zero_bit16 16 w ltac:(lia) F16 Hw)).
  assert (∀ v, 0 ≤ v < 2 ^ 16 → is_last_bit v (math_find_last_non_zero_bit16 v)) as L16 by (intros w Hw; exact (last_bit_widen math_find_last_non_zero_bit8 8 w ltac:(lia) last_bit8 Hw)).
  assert (∀ v, 0 ≤ v < 2 ^ 32 → is_last_bit v (math_find_last_non_zero_bit32 v)) as L32 by (intros w Hw; exact (last_bit_widen math_find_last_non_zero_bit16 16 w ltac:(lia) L16 Hw)).
  split_and!; intros Hv; split; [by apply first_bit8|by apply last_bit8|by apply F16|by apply L16|by apply F32|by apply L32| |].
  - exact (first_bit_widen math_find_first_non_zero_bit32 32 v ltac:(lia) F32 Hv).
  - exact (last_bit_widen math_find_last_non_zero_bit32 32 v ltac:(lia) L32 Hv).
Qed.
Lemma math_find_bits_witness :
  is_first_bit 0x50000000000 (math_find_first_non_zero_bit64 0x50000000000) ∧ is_last_bit 0x50000000000 (math_find_last_non_zero_bit64 0x50000000000).
Proof. apply (math_find_bits 0x50000000000). lia. Defined.

(** ** Divisors *)

Lemma gcd_single_ok fuel a b :
  0 < a < 2 ^ 64 → 0 < b < 2 ^ 64 → (Z.to_nat (a + b) < fuel)%nat →
  math_get_greatest_common_divisor_single fuel a b = Ok (Z.gcd a b).
Proof.
  intros Ha Hb Hf. assert (wp (math_get_greatest_common_divisor_single fuel a b) (λ v, v = Z.gcd a b)) as (v & -> & ->)%wp_ok; [|done].
  apply (wp_loop (λ '(x, y), 0 < x < 2 ^ 64 ∧ 0 < y < 2 ^ 64 ∧ Z.gcd x y = Z.gcd a b) _ (λ '(x, y), Z.to_nat (x + y))); [|done|done].
  intros [x y] (Hx & Hy & Hg). destruct (Z.eqb_spec x y) as [->|Hne]; cbn [negb].
  - wp_go. by rewrite <-Hg, Z.gcd_diag, Z.abs_eq by lia.
  - destruct (Z.ltb_spec y x); wp_go; rewrite wrap_small by lia; (split; [|lia]); (split_and!; [lia..|]); rewrite <-Hg.
    + by rewrite Z.gcd_comm, Z.gcd_sub_diag_r, Z.gcd_comm.
    + by rewrite Z.gcd_sub_diag_r.
Qed.

(** An argument of zero: the other one is never made smaller. *)
Lemma gcd_single_stuck fuel a b :
  0 ≤ a < 2 ^ 64 → 0 ≤ b < 2 ^ 64 → a ≠ b → a = 0 ∨ b = 0 → math_get_greatest_common_divisor_single fuel a b = NoFuel.
Proof.
  intros Ha Hb Hne Hz. unfold math_get_greatest_common_divisor_single. induction fuel as [|fuel IH]; [done|].
  rewrite loop_S. rewrite (proj2 (Z.eqb_neq a b)) by done. cbn [negb].
  destruct (Z.ltb_spec b a).
  - replace (u64 (a - b)) with a by (rewrite wrap_small; lia). exact IH.
  - replace (u64 (b - a)) with b by (rewrite wrap_small; lia). exact IH.
Qed.

(** C33: the subtracting loop of [math_get_greatest_common_divisor_single] ends,
    in at most a + b rounds, exactly when both numbers are positive or they are
    equal, and then answers their greatest common divisor; when one of them is
    zero and the other is not it never ends. *)
Theorem gcd_single_terminates a b (Ha : 0 ≤ a < 2 ^ 64) (Hb : 0 ≤ b < 2 ^ 64) :
  if bool_decide (0 < a ∧ 0 < b ∨ a = b)
  then ∀ fuel, (Z.to_nat (a + b) < fuel)%nat → math_get_greatest_common_divisor_single fuel a b = Ok (Z.gcd a b)
  else ∀ fuel, math_get_greatest_common_divisor_single fuel a b = NoFuel.
Proof.
  case_bool_decide as Hc.
  - intros fuel Hf. destruct (decide (0 < a ∧ 0 < b)) as [[? ?]|]; [apply gcd_single_ok; lia|]. destruct Hc as [?|E]; [done|subst b].
    rewrite Z.gcd_diag, Z.abs_eq by lia. unfold math_get_greatest_common_divisor_single. destruct fuel; [lia|]. by rewrite loop_S, Z.eqb_refl.
  - intros fuel. apply gcd_single_stuck; lia.
Qed.
Lemma gcd_single_terminates_witness :
  (∀ fuel, (Z.to_nat (12 + 18) < fuel)%nat → math_get_greatest_common_divisor_single fuel 12 18 = Ok (Z.gcd 12 18)) ∧
  ∀ fuel, math_get_greatest_common_divisor_single fuel 0 18 = NoFuel.
Proof.
  split; [exact (gcd_single_terminates 12 18 ltac:(lia) ltac:(lia))|exact (gcd_single_terminates 0 18 ltac:(lia) ltac:(lia))].
Defined.

(** Folds over the front of an array. *)
Lemma fold_snoc (f : Z → Z → Z) d data i :
  0 ≤ i < zlen data → foldl f d (take (Z.to_nat (i + 1)) data) = f (foldl f d (take (Z.to_nat i) data)) (get data i).
Proof.
  intros Hi. replace (Z.to_nat (i + 1)) with (S (Z.to_nat i)) by lia.
  rewrite (take_S_r data (Z.to_nat i) (get data i)) by (apply list_lookup_lookup_total_lt; unfold zlen in Hi; lia). by rewrite foldl_app.
Qed.
Lemma fold_gcd_divides l d : (foldl Z.gcd d l | d).
Proof.
  revert d. induction l as [|x l IH]; intros d; [done|]. cbn [foldl]. transitivity (Z.gcd d x); [apply IH|apply Z.gcd_divide_l].
Qed.
Lemma fold_lcm_divides l d : (d | foldl Z.lcm d l) ∧ Forall (λ x, (x | foldl Z.lcm d l)) l.
Proof.
  revert d. induction l as [|x l IH]; intros d; [done|]. cbn [foldl]. destruct (IH (Z.lcm d x)) as [H1 H2].
  split; [by transitivity (Z.lcm d x); [apply Z.divide_lcm_l|]|]. apply Forall_cons. split; [|done].
  by transitivity (Z.lcm d x); [apply Z.divide_lcm_r|].
Qed.
Lemma fold_gcd_one l : foldl Z.gcd 1 l = 1.
Proof. induction l as [|x l IH]; [done|]. cbn [foldl]. by rewrite Z.gcd_1_l. Qed.
Lemma fold_pos (f : Z → Z → Z) l d : (∀ a b, 0 < a → 0 < b → 0 < f a b) → 0 < d → Forall (λ x, 0 < x) l → 0 < foldl f d l.
Proof. intros Hf Hd Hl. revert d Hd. induction Hl as [|x l Hx Hl IH]; intros d Hd; [done|]. cbn [foldl]. apply IH. by apply Hf. Qed.
Lemma gcd_pos a b : 0 < a → 0 < b → 0 < Z.gcd a b.
Proof. intros Ha Hb. pose proof (Z.gcd_nonneg a b). assert (Z.gcd a b ≠ 0) by (intros E; apply Z.gcd_eq_0_l in E; lia). lia. Qed.
Lemma lcm_pos a b : 0 < a → 0 < b → 0 < Z.lcm a b.
Proof. intros Ha Hb. pose proof (Z.lcm_nonneg a b). assert (Z.lcm a b ≠ 0) by (rewrite Z.lcm_eq_0; lia). lia. Qed.

(** Dividing first, as the code does. *)
Lemma lcm_by_gcd a b : 0 < a → 0 < b → a / Z.gcd a b * b = Z.lcm a b.
Proof.
  intros Ha Hb. pose proof (gcd_pos a b Ha Hb) as Hg. unfold Z.lcm. rewrite Z.abs_eq by (apply Z.mul_nonneg_nonneg; [lia|apply Z.div_pos; lia]).
  destruct (Z.gcd_divide_l a b) as [q Eq]. destruct (Z.gcd_divide_r a b) as [r Er]. set (g := Z.gcd a b) in *. clearbody g.
  subst a b. rewrite !Z.div_mul by lia. lia.
Qed.

Section arrays.
Variables (fuel : nat) (d : Z) (data : list Z).
Hypothesis Hd : Forall (λ x, 0 < x) (d :: data).
Hypothesis Hl : foldl Z.lcm d data < 2 ^ 64.
Hypothesis Hf : (Z.to_nat (2 * foldl Z.lcm d data) < fuel)%nat.
Notation L := (foldl Z.lcm d data).

Lemma head_pos : 0 < d ∧ Forall (λ x, 0 < x) data.
Proof. by apply Forall_cons in Hd. Qed.
Lemma multiple_pos : 0 < L.
Proof. apply fold_pos; [exact lcm_pos|apply head_pos..]. Qed.
Lemma element_le i : 0 ≤ i < zlen data → 0 < get data i ≤ L.
Proof.
  intros Hi. assert (data !! Z.to_nat i = Some (get data i)) as E by (apply list_lookup_lookup_total_lt; unfold zlen in Hi; lia).
  pose proof head_pos as [_ Hp]. eapply Forall_lookup_1 in Hp; [|exact E]. destruct (fold_lcm_divides data d) as [_ Hx].
  eapply Forall_lookup_1 in Hx; [|exact E]. split; [done|]. apply Z.divide_pos_le; [apply multiple_pos|done].
Qed.
Lemma prefix_pos k : 0 < foldl Z.gcd d (take k data) ∧ 0 < foldl Z.lcm d (take k data).
Proof. pose proof head_pos as [? ?]. split; (apply fold_pos; [exact gcd_pos || exact lcm_pos|done|by apply Forall_take]). Qed.
Lemma prefix_le k : foldl Z.gcd d (take k data) ≤ L ∧ foldl Z.lcm d (take k data) ≤ L.
Proof.
  pose proof head_pos as [? _]. pose proof multiple_pos. split.
  - transitivity d; (apply Z.divide_pos_le; [done|]); [apply fold_gcd_divides|apply fold_lcm_divides].
  - apply Z.divide_pos_le; [done|]. rewrite <-(take_drop k data) at 2. rewrite foldl_app. apply fold_lcm_divides.
Qed.

Lemma array_gcd_ok : math_get_greatest_common_divisor fuel (d :: data) (zlen (d :: data)) = Ok (foldl Z.gcd d data).
Proof.
  assert (wp (math_get_greatest_common_divisor fuel (d :: data) (zlen (d :: data))) (λ v, v = foldl Z.gcd d data)) as (v & -> & ->)%wp_ok; [|done].
  unfold math_get_greatest_common_divisor. pose proof (zlen_nonneg data). rewrite zlen_cons. wp_go. change (get (d :: data) 0) with d.
  apply (wp_loop (λ '(i, value), 1 ≤ i ≤ zlen data + 1 ∧ value = foldl Z.gcd d (take (Z.to_nat (i - 1)) data)) _ (λ '(i, _), Z.to_nat (zlen data + 1 - i)));
    [|split; [lia|done]|unfold zlen; simpl; lia].
  intros [i value] (Hi & ->). destruct (Z.ltb_spec i (zlen data + 1)) as [Hlt|Hge].
  - wp_go. rewrite get_cons_pos by lia. pose proof (element_le (i - 1) ltac:(lia)). destruct (prefix_pos (Z.to_nat (i - 1))) as [Hp _]. destruct (prefix_le (Z.to_nat (i - 1))) as [Hle _].
    rewrite gcd_single_ok by lia. wp_go. rewrite <-fold_snoc by lia. replace (i - 1 + 1) with i by lia. destruct (prefix_pos (Z.to_nat i)) as [Hp' _].
    destruct (Z.ltb_spec (foldl Z.gcd d (take (Z.to_nat i) data)) 2); wp_go.
    + rewrite <-(take_drop (Z.to_nat i) data) at 1. rewrite foldl_app. replace (foldl Z.gcd d (take (Z.to_nat i) data)) with 1 by lia. by rewrite fold_gcd_one.
    + split; [|lia]. split; [lia|]. by replace (i + 1 - 1) with i by lia.
  - wp_go. by rewrite take_ge by (unfold zlen in *; lia).
Qed.

Lemma array_lcm_ok : math_get_lowest_common_multiple fuel (d :: data) (zlen (d :: data)) = Ok L.
Proof.
  assert (wp (math_get_lowest_common_multiple fuel (d :: data) (zlen (d :: data))) (λ v, v = L)) as (v & -> & ->)%wp_ok; [|done].
  unfold math_get_lowest_common_multiple. pose proof (zlen_nonneg data). rewrite zlen_cons. wp_go. change (get (d :: data) 0) with d.
  apply (wp_loop (λ '(i, value), 1 ≤ i ≤ zlen data + 1 ∧ value = foldl Z.lcm d (take (Z.to_nat (i - 1)) data)) _ (λ '(i, _), Z.to_nat (zlen data + 1 - i)));
    [|split; [lia|done]|unfold zlen; simpl; lia].
  intros [i value] (Hi & ->). destruct (Z.ltb_spec i (zlen data + 1)) as [Hlt|Hge].
  - wp_go. rewrite get_cons_pos by lia. pose proof (element_le (i - 1) ltac:(lia)). destruct (prefix_pos (Z.to_nat (i - 1))) as [_ Hp]. destruct (prefix_le (Z.to_nat (i - 1))) as [_ Hle].
    unfold math_get_lowest_common_multiple_single. rewrite gcd_single_ok by lia. wp_go. set (v := foldl Z.lcm d (take (Z.to_nat (i - 1)) data)) in *.
    assert (0 < Z.gcd v (get data (i - 1))) by (apply gcd_pos; [exact Hp|apply H0]). rewrite (proj2 (Z.eqb_neq _ 0)) by lia. wp_go.
    rewrite lcm_by_gcd by lia.
    unfold v. rewrite <-fold_snoc by lia. replace (i - 1 + 1) with i by lia. destruct (prefix_pos (Z.to_nat i)) as [_ ?]. destruct (prefix_le (Z.to_nat i)) as [_ ?].
    rewrite wrap_small by lia. split; [|lia]. split; [lia|]. by replace (i + 1 - 1) with i by lia.
  - wp_go. by rewrite take_ge by (unfold zlen in *; lia).
Qed.
End arrays.

(** Of an array of positive numbers whose lowest common multiple fits a
    word, [math_get_greatest_common_divisor] and
    [math_get_lowest_common_multiple] answer the greatest common divisor and
    the lowest common multiple of all of them. *)
Theorem gcd_lcm_of_arrays fuel d data
  (Hd : Forall (λ x, 0 < x) (d :: data)) (Hl : foldl Z.lcm d data < 2 ^ 64) (Hf : (Z.to_nat (2 * foldl Z.lcm d data) < fuel)%nat) :
  math_get_greatest_common_divisor fuel (d :: data) (zlen (d :: data)) = Ok (foldl Z.gcd d data) ∧
  math_get_lowest_common_multiple fuel (d :: data) (zlen (d :: data)) = Ok (foldl Z.lcm d data).
Proof. split; [by apply array_gcd_ok|by apply array_lcm_ok]. Qed.
Lemma gcd_lcm_of_arrays_witness :
  Forall (λ x, 0 < x) [12; 18; 8] ∧
  math_get_greatest_common_divisor 200 [12; 18; 8] 3 = Ok 2 ∧ math_get_lowest_common_multiple 200 [12; 18; 8] 3 = Ok 72.
Proof.
  assert (Forall (λ x, 0 < x) [12; 18; 8]) as H by (repeat (apply Forall_cons; split; [lia|]); by apply Forall_nil).
  split; [exact H|]. apply (gcd_lcm_of_arrays 200 12 [18; 8] H); [reflexivity|]. apply Nat.ltb_lt. reflexivity.
Defined.
