(* ===== verification/Cache.v ===== *)
(** Cache: the byte cache [mem_cache] of src/lib/cache.c and
    src/include/cavan/cache.h.

    [head] and [tail] are indices into the buffer; both may stand at its end.
    How many bytes are held is told by [free_size], not by the pointers. *)
From S2P Require Import Prelude.

Record mem_cache : Type := {
  mc_buff : list Z;
  mc_size : Z;
  mc_free_size : Z;
  mc_head : Z;
  mc_tail : Z;
}.

(** ** The operations *)

(** [malloc] answers a block with any contents, or NULL; a NULL [cache] is
    [None]. *)
Definition mem_cache_init (cache : option mem_cache) (size : Z) (block : option (list Z)) : Z * option mem_cache :=
  match cache with
  | None => (- EINVAL, None)
  | Some c =>
      if size =? 0 then
        (0, Some {| mc_buff := []; mc_size := mc_size c; mc_free_size := mc_free_size c; mc_head := mc_head c; mc_tail := mc_tail c |})
      else
        match block with
        | None => (- ENOMEM, Some {| mc_buff := []; mc_size := mc_size c; mc_free_size := mc_free_size c; mc_head := mc_head c; mc_tail := mc_tail c |})
        | Some b => (0, Some {| mc_buff := b; mc_size := size; mc_free_size := size; mc_head := 0; mc_tail := 0 |})
        end
  end.

(** [for (..; size && more; size--) *dst++ = *src++]. *)
Definition copy_while (more : Z → Z → bool) (src : list Z) (st : list Z * Z * Z * Z) : cres (list Z * Z * Z * Z) :=
  let '(_, _, _, size) := st in
  loop (S (Z.to_nat size)) (λ '(dst, d, s, size),
    if negb (size =? 0) && more d s then
      v ← load src s;
      dst ← store dst d v;
      mret (inl (dst, d + 1, s + 1, size - 1))
    else mret (inr (dst, d, s, size))) st.

Definition mem_cache_write (c : mem_cache) (buff : list Z) (size : Z) : cres (Z * mem_cache) :=
  let size := if size <=? mc_free_size c then size else mc_free_size c in
  let size_bak := size in
  '(m, head, i, size) ← copy_while (λ d _, d <? mc_size c) buff (mc_buff c, mc_head c, 0, size);
  '(m, head) ← (if size =? 0 then mret (m, head)
                else '(m, head, _, _) ← copy_while (λ d _, d <? mc_tail c) buff (m, 0, i, size); mret (m, head));
  mret (size_bak, {| mc_buff := m; mc_size := mc_size c; mc_free_size := mc_free_size c - size_bak; mc_head := head; mc_tail := mc_tail c |}).

(** The bytes read are written to [buff]. *)
Definition mem_cache_read (c : mem_cache) (buff : list Z) (size : Z) : cres (Z * list Z * mem_cache) :=
  let size_bak := mc_size c - mc_free_size c in
  let size := if size <=? size_bak then size else size_bak in
  let size_bak := size in
  '(buff, j, tail, size) ← copy_while (λ _ s, s <? mc_size c) (mc_buff c) (buff, 0, mc_tail c, size);
  '(buff, tail) ← (if size =? 0 then mret (buff, tail)
                   else '(buff, _, tail, _) ← copy_while (λ _ s, s <? mc_head c) (mc_buff c) (buff, j, 0, size); mret (buff, tail));
  mret (size_bak, buff, {| mc_buff := mc_buff c; mc_size := mc_size c; mc_free_size := mc_free_size c + size_bak; mc_head := mc_head c; mc_tail := tail |}).

Definition mem_cache_reinit (c : mem_cache) : mem_cache :=
  {| mc_buff := mc_buff c; mc_size := mc_size c; mc_free_size := mc_size c; mc_head := 0; mc_tail := 0 |}.

Definition mem_cache_discard (c : mem_cache) (size : Z) : Z * mem_cache :=
  let used_size := mc_size c - mc_free_size c in
  if used_size <=? size then (used_size, mem_cache_reinit c)
  else
    let tail := mc_tail c + size in
    let tail := if mc_tail c <? mc_head c then tail
                else if mc_size c <=? tail then size - (mc_size c - tail) else tail in
    (size, {| mc_buff := mc_buff c; mc_size := mc_size c; mc_free_size := mc_free_size c + size; mc_head := mc_head c; mc_tail := tail |}).

Definition mem_cache_clean (c : mem_cache) (buff : list Z) : cres (Z * list Z * mem_cache) :=
  let size := mc_size c - mc_free_size c in
  let size_bak := size in
  '(buff, j, tail, size) ← copy_while (λ _ s, s <? mc_size c) (mc_buff c) (buff, 0, mc_tail c, size);
  buff ← (if size =? 0 then mret buff
          else '(buff, _, _, _) ← copy_while (λ _ s, s <? mc_head c) (mc_buff c) (buff, j, 0, size); mret buff);
  mret (size_bak, buff, mem_cache_reinit c).

(** ** Copying *)

Lemma copy_while_ok more src dst d s size k :
  0 ≤ k ≤ size → 0 ≤ d → 0 ≤ s → d + k ≤ zlen dst → s + k ≤ zlen src →
  (∀ i, 0 ≤ i < k → more (d + i) (s + i) = true) → k = size ∨ more (d + k) (s + k) = false →
  copy_while more src (dst, d, s, size) = Ok (blit dst d src s k, d + k, s + k, size - k).
Proof.
  intros Hk Hd Hs Hdl Hsl Hm He.
  assert (wp (copy_while more src (dst, d, s, size)) (λ r, r = (blit dst d src s k, d + k, s + k, size - k))) as (r & -> & ->)%wp_ok; [|done].
  unfold copy_while.
  apply (wp_loop (λ '(dst', d', s', n), ∃ j, 0 ≤ j ≤ k ∧ dst' = blit dst d src s j ∧ d' = d + j ∧ s' = s + j ∧ n = size - j) _ (λ '(_, _, _, n), Z.to_nat n)).
  - intros [[[dst' d'] s'] n] (j & Hj & -> & -> & -> & ->). destruct (decide (j = k)) as [->|Hne].
    + assert (negb (size - k =? 0) && more (d + k) (s + k) = false) as ->; [|by apply wp_ret].
      destruct He as [->| ->]; [by rewrite Z.sub_diag|by rewrite andb_false_r].
    + rewrite (proj2 (Z.eqb_neq _ 0)), Hm by lia. cbn [negb andb]. apply wp_bind, wp_load; [lia|]. apply wp_bind, wp_store; [rewrite zlen_blit by lia; lia|]. apply wp_ret.
      split; [|lia]. exists (j + 1). split_and!; try lia. apply array_ext; [rewrite zlen_upd, !zlen_blit by lia; done|].
      rewrite zlen_upd, zlen_blit by lia. intros i Hi. rewrite get_upd by (rewrite ?zlen_blit; lia). rewrite !get_blit by lia.
      repeat case_decide; try lia; subst; f_equal; lia.
  - exists 0. split_and!; try lia. apply array_ext; [by rewrite zlen_blit by lia|]. intros i Hi. rewrite get_blit, decide_False by lia. done.
  - lia.
Qed.

(** The side conditions of [copy_while_ok]. *)
Ltac copy_side :=
  rewrite ?zlen_blit by lia;
  first [lia|intros; apply Z.ltb_lt; lia|by left; lia|right; apply Z.ltb_ge; lia].

(** ** The bytes held *)

(** Where the [i]th byte held stands. *)
Definition held_at (c : mem_cache) (i : Z) : Z :=
  if mc_tail c + i <? mc_size c then mc_tail c + i else mc_tail c + i - mc_size c.

(** The invariant: the pointers are [free_size] apart, straight or around the end. *)
Record holds (c : mem_cache) (q : list Z) : Prop := {
  hd_size : zlen (mc_buff c) = mc_size c;
  hd_used : zlen q = mc_size c - mc_free_size c;
  hd_free : 0 ≤ mc_free_size c;
  hd_head : 0 ≤ mc_head c ≤ mc_size c;
  hd_tail : 0 ≤ mc_tail c ≤ mc_size c;
  hd_span : mc_head c = mc_tail c + zlen q ∨ mc_head c ≤ mc_tail c ∧ mc_head c = mc_tail c + zlen q - mc_size c;
  hd_cells : ∀ i, 0 ≤ i < zlen q → get (mc_buff c) (held_at c i) = get q i;
}.

Lemma holds_empty b n : zlen b = n →
  holds {| mc_buff := b; mc_size := n; mc_free_size := n; mc_head := 0; mc_tail := 0 |} [].
Proof.
  intros Hb. pose proof (zlen_nonneg b). split; cbn [mc_buff mc_size mc_free_size mc_head mc_tail]; change (zlen (@nil Z)) with 0; try lia.
Qed.

Lemma reinit_holds c q : holds c q → holds (mem_cache_reinit c) [].
Proof. intros H. apply (holds_empty (mc_buff c)), H. Qed.

(** Writing takes what there is room for. *)
Lemma mem_cache_write_ok c q data size :
  holds c q → 0 ≤ size ≤ zlen data →
  let n := Z.min size (mc_free_size c) in
  ∃ c', mem_cache_write c data size = Ok (n, c') ∧ holds c' (q ++ slice data 0 n) ∧ mc_size c' = mc_size c.
Proof.
  intros [Hs Hu Hf Hh Ht Hsp Hc] Hsz n. unfold mem_cache_write. pose proof (zlen_nonneg q).
  replace (if size <=? mc_free_size c then size else mc_free_size c) with n by (unfold n; zcase; lia). cbv zeta.
  assert (0 ≤ n ≤ mc_free_size c ∧ n ≤ size) as [Hn Hn'] by lia. clearbody n. destruct c as [m sz free head tail]. cbn [mc_buff mc_size mc_free_size mc_head mc_tail] in *.
  unfold held_at in Hc. cbn [mc_tail mc_size] in Hc.
  assert (∀ m' head', zlen m' = sz → 0 ≤ head' ≤ sz → (head' = tail + (zlen q + n) ∨ head' ≤ tail ∧ head' = tail + (zlen q + n) - sz) →
    (∀ i, 0 ≤ i < zlen q → get m' (if tail + i <? sz then tail + i else tail + i - sz) = get m (if tail + i <? sz then tail + i else tail + i - sz)) →
    (∀ i, 0 ≤ i < n → get m' (if tail + (zlen q + i) <? sz then tail + (zlen q + i) else tail + (zlen q + i) - sz) = get data i) →
    holds {| mc_buff := m'; mc_size := sz; mc_free_size := free - n; mc_head := head'; mc_tail := tail |} (q ++ slice data 0 n)) as Hnew.
  { intros m' head' Hm Hhd Hspan Hold Hw. split; cbn [mc_buff mc_size mc_free_size mc_head mc_tail]; rewrite ?zlen_app, ?zlen_slice by lia; try lia.
    intros i Hi. unfold held_at. cbn [mc_tail mc_size]. destruct (Z.lt_ge_cases i (zlen q)).
    - rewrite Hold, Hc, get_app_l by lia. done.
    - rewrite get_app_r, get_slice by lia. rewrite <-(Hw (0 + (i - zlen q))) by lia. replace (zlen q + (0 + (i - zlen q))) with i by lia. done. }
  destruct (Z.lt_ge_cases (sz - head) n) as [Hwrap|Hstraight].
  - rewrite (copy_while_ok _ data m head 0 n (sz - head)) by copy_side.
    cbn [mbind cres_bind mret cres_ret]. rewrite (proj2 (Z.eqb_neq _ 0)) by lia.
    rewrite (copy_while_ok _ data _ 0 _ _ (n - (sz - head))) by copy_side.
    cbn [mbind cres_bind mret cres_ret]. eexists. split; [done|]. split; [|done]. apply Hnew; rewrite ?zlen_blit by (rewrite ?zlen_blit; lia); try lia.
    + intros i Hi. zcase; rewrite !get_blit by (rewrite ?zlen_blit; lia); repeat case_decide; try lia; done.
    + intros i Hi. zcase; rewrite !get_blit by (rewrite ?zlen_blit; lia); repeat case_decide; try lia; f_equal; lia.
  - rewrite (copy_while_ok _ data m head 0 n n) by copy_side.
    cbn [mbind cres_bind mret cres_ret]. rewrite Z.sub_diag. cbn [Z.eqb mbind cres_bind mret cres_ret].
    eexists. split; [done|]. split; [|done]. apply Hnew; rewrite ?zlen_blit by lia; try lia.
    + intros i Hi. zcase; rewrite get_blit by lia; repeat case_decide; try lia; done.
    + intros i Hi. zcase; rewrite get_blit by lia; repeat case_decide; try lia; f_equal; lia.
Qed.

(** Reading copies bytes out of the ring, from the tail on. *)
Lemma copy_out_ok c q buff n :
  holds c q → 0 ≤ n ≤ zlen q → n ≤ zlen buff →
  ∃ tail', (mc_head c = tail' + (zlen q - n) ∨ mc_head c ≤ tail' ∧ mc_head c = tail' + (zlen q - n) - mc_size c) ∧ 0 ≤ tail' ≤ mc_size c ∧
    (∀ i, 0 ≤ i < zlen q - n → get (mc_buff c) (if tail' + i <? mc_size c then tail' + i else tail' + i - mc_size c) = get q (n + i)) ∧
    ('(buff, j, tail, size) ← copy_while (λ _ s, s <? mc_size c) (mc_buff c) (buff, 0, mc_tail c, n);
     '(buff, tail) ← (if size =? 0 then mret (buff, tail)
       else '(buff, _, tail, _) ← copy_while (λ _ s, s <? mc_head c) (mc_buff c) (buff, j, 0, size); mret (buff, tail));
     mret (buff, tail)) = Ok (slice q 0 n ++ drop (Z.to_nat n) buff, tail').
Proof.
  intros [Hs Hu Hf Hh Ht Hsp Hc] Hn Hb. destruct c as [m sz free head tail]. cbn [mc_buff mc_size mc_free_size mc_head mc_tail] in *.
  unfold held_at in Hc. cbn [mc_tail mc_size] in Hc.
  assert (∀ b, zlen b = zlen buff → (∀ i, 0 ≤ i < zlen buff → get b i = if i <? n then get q i else get buff i) → b = slice q 0 n ++ drop (Z.to_nat n) buff) as Hbuf.
  { intros b Hl Hg. assert (zlen (drop (Z.to_nat n) buff) = zlen buff - n) as Hd by (unfold zlen in *; rewrite length_drop; lia).
    apply array_ext; [rewrite zlen_app, zlen_slice by lia; lia|]. rewrite Hl. intros i Hi. rewrite Hg by done. zcase.
    - rewrite get_app_l, get_slice, Z.add_0_l by (rewrite ?zlen_slice; lia). done.
    - rewrite get_app_r by (rewrite zlen_slice; lia). rewrite zlen_slice by lia. unfold get. rewrite !list_lookup_total_alt, lookup_drop. do 2 f_equal. lia. }
  destruct (Z.lt_ge_cases (sz - tail) n) as [Hwrap|Hstraight].
  - exists (n - (sz - tail)).
    rewrite (copy_while_ok _ m buff 0 tail n (sz - tail)) by copy_side.
    cbn [mbind cres_bind mret cres_ret]. rewrite (proj2 (Z.eqb_neq _ 0)) by lia.
    rewrite (copy_while_ok _ m _ _ 0 _ (n - (sz - tail))) by copy_side.
    cbn [mbind cres_bind mret cres_ret]. split_and!; [lia|lia|lia| |].
    + intros i Hi. rewrite <-Hc by lia. do 2 zcase; try lia; f_equal; lia.
    + do 2 f_equal. apply Hbuf; [by rewrite !zlen_blit by (rewrite ?zlen_blit; lia)|]. intros i Hi.
      rewrite !get_blit by (rewrite ?zlen_blit; lia). repeat case_decide; zcase; try lia; try done; (rewrite <-Hc by lia; zcase; try lia; f_equal; lia).
  - exists (tail + n).
    rewrite (copy_while_ok _ m buff 0 tail n n) by copy_side.
    cbn [mbind cres_bind mret cres_ret]. rewrite Z.sub_diag. cbn [Z.eqb mbind cres_bind mret cres_ret]. split_and!; [lia|lia|lia| |].
    + intros i Hi. rewrite <-Hc by lia. do 2 zcase; try lia; f_equal; lia.
    + do 2 f_equal. apply Hbuf; [by rewrite zlen_blit by lia|]. intros i Hi.
      rewrite get_blit by lia. repeat case_decide; zcase; try lia; try done. rewrite <-Hc by lia. zcase; try lia; f_equal; lia.
Qed.

(** Reading takes what is held, from the front. *)
Lemma mem_cache_read_ok c q buff size :
  holds c q → 0 ≤ size ≤ zlen buff →
  let n := Z.min size (zlen q) in
  ∃ c', mem_cache_read c buff size = Ok (n, slice q 0 n ++ drop (Z.to_nat n) buff, c') ∧
    holds c' (drop (Z.to_nat n) q) ∧ mc_size c' = mc_size c.
Proof.
  intros H Hsz n. pose proof H as [Hs Hu Hf Hh Ht Hsp Hc]. unfold mem_cache_read. pose proof (zlen_nonneg q).
  replace (if size <=? mc_size c - mc_free_size c then size else mc_size c - mc_free_size c) with n by (unfold n; zcase; lia). cbv zeta.
  assert (0 ≤ n ≤ zlen q ∧ n ≤ size) as [Hn Hn'] by lia. clearbody n.
  destruct (copy_out_ok c q buff n H Hn ltac:(lia)) as (tail' & Hsp' & Ht' & Hc' & E).
  destruct (copy_while _ _ _) as [[[[b j] t] k]| |]; try done. cbn [mbind cres_bind] in *.
  assert (∃ r, (if k =? 0 then mret (b, t) else '(buff, _, tail, _) ← copy_while (λ _ s, s <? mc_head c) (mc_buff c) (b, j, 0, k); mret (buff, tail)) = Ok r ∧
    r = (slice q 0 n ++ drop (Z.to_nat n) buff, tail')) as (r & -> & ->).
  { destruct (if k =? 0 then _ else _) as [[b' t']| |]; try done. cbn [mbind cres_bind mret cres_ret] in E. injection E as <- <-. by eexists. }
  cbn [mbind cres_bind mret cres_ret]. eexists. split; [done|]. split; [|done].
  assert (zlen (drop (Z.to_nat n) q) = zlen q - n) as Hd by (unfold zlen in *; rewrite length_drop; lia).
  split; cbn [mc_buff mc_size mc_free_size mc_head mc_tail]; rewrite ?Hd; try lia.
  intros i Hi. unfold held_at. cbn [mc_tail mc_size]. rewrite Hc' by lia. unfold get. rewrite !list_lookup_total_alt, lookup_drop. do 2 f_equal. lia.
Qed.

(** Cleaning hands out everything and starts over. *)
Lemma mem_cache_clean_ok c q buff :
  holds c q → zlen q ≤ zlen buff →
  mem_cache_clean c buff = Ok (zlen q, q ++ drop (Z.to_nat (zlen q)) buff, mem_cache_reinit c).
Proof.
  intros H Hb. pose proof H as [Hs Hu Hf Hh Ht Hsp Hc]. unfold mem_cache_clean. pose proof (zlen_nonneg q). rewrite <-Hu. cbv zeta.
  destruct (copy_out_ok c q buff (zlen q) H ltac:(lia) Hb) as (tail' & _ & _ & _ & E). rewrite slice_all in E by done.
  destruct (copy_while _ _ _) as [[[[b j] t] k]| |]; try done. cbn [mbind cres_bind] in *.
  destruct (k =? 0); cbn [mbind cres_bind mret cres_ret] in *; [by injection E as <- <-|].
  destruct (copy_while _ _ _) as [[[[b' j'] t'] k']| |]; try done. cbn [mbind cres_bind mret cres_ret] in *. by injection E as <- <-.
Qed.

(** Discarding drops bytes from the front, as long as the tail does not pass
    the end of the buffer. *)
Definition discard_stays (c : mem_cache) (q : list Z) (size : Z) : Prop :=
  zlen q ≤ size ∨ mc_tail c < mc_head c ∨ mc_tail c + size < mc_size c.

Lemma mem_cache_discard_ok c q size :
  holds c q → 0 ≤ size → discard_stays c q size →
  ∃ c', mem_cache_discard c size = (Z.min size (zlen q), c') ∧ holds c' (drop (Z.to_nat (Z.min size (zlen q))) q) ∧ mc_size c' = mc_size c.
Proof.
  intros H Hsz Hst. pose proof H as [Hs Hu Hf Hh Ht Hsp Hc]. unfold mem_cache_discard. rewrite <-Hu. pose proof (zlen_nonneg q).
  destruct (Z.leb_spec (zlen q) size) as [Hall|Hpart].
  - exists (mem_cache_reinit c). rewrite Z.min_r, (drop_ge q) by (unfold zlen in *; lia). split_and!; [done|by apply (reinit_holds c q)|done].
  - rewrite Z.min_l by lia. eexists. split; [done|]. split; [|done].
    assert (zlen (drop (Z.to_nat size) q) = zlen q - size) as Hd by (unfold zlen in *; rewrite length_drop; lia).
    replace (if mc_tail c <? mc_head c then mc_tail c + size else if mc_size c <=? mc_tail c + size then size - (mc_size c - (mc_tail c + size)) else mc_tail c + size)
      with (mc_tail c + size) by (unfold discard_stays in Hst; zcase; [done|zcase; lia]).
    unfold discard_stays in Hst.
    split; cbn [mc_buff mc_size mc_free_size mc_head mc_tail]; rewrite ?Hd; try lia.
    intros i Hi. unfold held_at. cbn [mc_tail mc_size]. rewrite <-Z.add_assoc.
    specialize (Hc (size + i) ltac:(lia)). unfold held_at in Hc. rewrite Hc. unfold get. rewrite !list_lookup_total_alt, lookup_drop. do 2 f_equal. lia.
Qed.

(** ** A cache is a bounded byte queue *)

Inductive cache_cmd : Type := CWrite (data : list Z) | CRead (n : Z) | CClean | CReinit | CDiscard (n : Z).

(** Every answer is a count and the bytes handed out, here into a buffer of
    zeros of the size asked for. *)
Definition cache_step (c : mem_cache) (cmd : cache_cmd) : cres (Z * list Z * mem_cache) :=
  match cmd with
  | CWrite data => '(n, c) ← mem_cache_write c data (zlen data); mret (n, [], c)
  | CRead n => '(r, b, c) ← mem_cache_read c (repeat 0 (Z.to_nat n)) n; mret (r, take (Z.to_nat r) b, c)
  | CClean => '(r, b, c) ← mem_cache_clean c (repeat 0 (Z.to_nat (mc_size c))); mret (r, take (Z.to_nat r) b, c)
  | CReinit => mret (0, [], mem_cache_reinit c)
  | CDiscard n => mret ((mem_cache_discard c n).1, [], (mem_cache_discard c n).2)
  end.
Definition queue_step (cap : Z) (q : list Z) (cmd : cache_cmd) : Z * list Z * list Z :=
  match cmd with
  | CWrite data => let n := Z.min (zlen data) (cap - zlen q) in (n, [], q ++ slice data 0 n)
  | CRead n => let n := Z.min n (zlen q) in (n, slice q 0 n, drop (Z.to_nat n) q)
  | CClean => (zlen q, q, [])
  | CReinit => (0, [], [])
  | CDiscard n => let n := Z.min n (zlen q) in (n, [], drop (Z.to_nat n) q)
  end.
Definition cmd_ok (c : mem_cache) (q : list Z) (cmd : cache_cmd) : Prop :=
  match cmd with CRead n => 0 ≤ n | CDiscard n => 0 ≤ n ∧ discard_stays c q n | _ => True end.

(** Every operation of a cache is that of a queue of at most [mc_size]
    bytes and keeps the invariant of the pointers: writing takes what there is
    room for and says how much, reading and cleaning hand the bytes out in
    order, discarding drops the oldest (unless it moves the tail past the end of
    the buffer).  Nothing outside the buffers is touched. *)
Theorem mem_cache_step_refines_queue c q cmd (Hc : holds c q) (Hcmd : cmd_ok c q cmd) :
  let '(n, out, q') := queue_step (mc_size c) q cmd in
  ∃ c', cache_step c cmd = Ok (n, out, c') ∧ holds c' q' ∧ mc_size c' = mc_size c.
Proof.
  pose proof (zlen_nonneg q). assert (∀ n, 0 ≤ n → zlen (repeat 0 (Z.to_nat n)) = n) as Hrep by (intros; unfold zlen; rewrite repeat_length; lia).
  assert (∀ n b, 0 ≤ n ≤ zlen q → take (Z.to_nat n) (slice q 0 n ++ b) = slice q 0 n) as Htake by (intros n b Hn; apply take_app_length'; rewrite length_slice; lia).
  pose proof (hd_used _ _ Hc). pose proof (hd_free _ _ Hc).
  destruct cmd as [data|n| | |n]; cbn [queue_step cache_step cmd_ok] in *.
  - pose proof (zlen_nonneg data). destruct (mem_cache_write_ok c q data (zlen data) Hc ltac:(lia)) as (c' & -> & Hc' & E).
    replace (mc_size c - zlen q) with (mc_free_size c) by lia. by exists c'.
  - destruct (mem_cache_read_ok c q (repeat 0 (Z.to_nat n)) n Hc) as (c' & -> & Hc' & E); [rewrite Hrep by lia; lia|].
    exists c'. cbn [mbind cres_bind mret cres_ret]. rewrite Htake by lia. done.
  - rewrite (mem_cache_clean_ok c q) by (done || (rewrite Hrep; lia)). cbn [mbind cres_bind mret cres_ret]. eexists.
    rewrite take_app_length' by (unfold zlen; lia). split_and!; [done|by apply (reinit_holds c q)|done].
  - eexists. split_and!; [done|by apply (reinit_holds c q)|done].
  - destruct Hcmd as [Hn Hst]. destruct (mem_cache_discard_ok c q n Hc Hn Hst) as (c' & -> & Hc' & E). by exists c'.
Qed.
Lemma mem_cache_step_refines_queue_witness :
  let c := {| mc_buff := [4; 0; 2; 3]; mc_size := 4; mc_free_size := 1; mc_head := 1; mc_tail := 2 |} in
  holds c [2; 3; 4] ∧ ∃ c', cache_step c (CWrite [5; 6]) = Ok (1, [], c') ∧ holds c' [2; 3; 4; 5] ∧ mc_size c' = mc_size c.
Proof.
  intros c. assert (holds c [2; 3; 4]) as H.
  { split; cbn; try (unfold zlen; simpl; lia). intros i Hi. assert (i = 0 ∨ i = 1 ∨ i = 2) as [->|[->| ->]] by (unfold zlen in Hi; simpl in Hi; lia); reflexivity. }
  split; [exact H|]. exact (mem_cache_step_refines_queue c [2; 3; 4] (CWrite [5; 6]) H I).
Defined.

(** The tail passes the end: [size] is added a second time.  After 1, 2, 3 are
    dropped the byte held is 4; what is read is 3. *)
Example discard_past_the_end :
  let c := {| mc_buff := [3; 4; 1; 2]; mc_size := 4; mc_free_size := 0; mc_head := 2; mc_tail := 2 |} in
  mc_tail (snd (mem_cache_discard c 3)) = 4 ∧ holds c [1; 2; 3; 4] ∧
  cache_step (snd (mem_cache_discard c 3)) (CRead 1) = Ok (1, [3], {| mc_buff := [3; 4; 1; 2]; mc_size := 4; mc_free_size := 4; mc_head := 2; mc_tail := 1 |}).
Proof.
  split; [reflexivity|]. split; [|reflexivity].
  split; cbn; try (unfold zlen; simpl; lia). intros i Hi.
  assert (i = 0 ∨ i = 1 ∨ i = 2 ∨ i = 3) as [->|[->|[->| ->]]] by (unfold zlen in Hi; simpl in Hi; lia); reflexivity.
Qed.
