(* ===== verification/Malloc.v ===== *)
(** Malloc: the allocator of src/lib/malloc.c and src/include/cavan/malloc.h.

    Memory is a store of the machine words of 64 bits at aligned addresses.  A
    block starts with a header word, the size in its low half and the size of
    the block before it in its high half; bit 0 of a size says that the block
    is in use.  A free block goes on with the two words of its list node.  The
    list operations are those of src/include/cavan/list.h on these words; the
    lock of the list, taken and released once by every operation, is left out. *)
From S2P Require Import Prelude.

Abbreviation words := (gmap Z Z).

Definition rd64 (a : Z) : prog words Z := λ m, match m !! a with Some v => Ok (v, m) | None => Undef end.
Definition wr64 (a v : Z) : prog words unit := λ m, match m !! a with Some _ => Ok (tt, <[a := v]> m) | None => Undef end.

(** ** Nodes *)

(** [struct double_link_node] at [p]. *)
Definition node_prev (p : Z) : Z := p.
Definition node_next (p : Z) : Z := p + 8.
Definition SIZEOF_MALLOC_NODE : Z := 24.
(** [MOFS (struct cavan_malloc_node, node)]. *)
Definition NODE_OFFSET : Z := 8.

Definition node_size (n : Z) : prog words Z := w ← rd64 n; mret (w mod 2 ^ 32).
Definition node_prev_size (n : Z) : prog words Z := w ← rd64 n; mret (w / 2 ^ 32).
Definition set_node_size (n v : Z) : prog words unit := w ← rd64 n; wr64 n (u32 v + 2 ^ 32 * (w / 2 ^ 32)).
Definition set_node_prev_size (n v : Z) : prog words unit := w ← rd64 n; wr64 n (w mod 2 ^ 32 + 2 ^ 32 * u32 v).

Definition link_node_init (p : Z) : prog words unit := wr64 (node_prev p) p;; wr64 (node_next p) p.
Definition link_insert_base (prev next node : Z) : prog words unit :=
  wr64 (node_next prev) node;; wr64 (node_next node) next;;
  wr64 (node_prev next) node;; wr64 (node_prev node) prev.
Definition link_insert_base2 (next node : Z) : prog words unit :=
  prev ← rd64 (node_prev next); link_insert_base prev next node.
Definition link_remove_base (node : Z) : prog words unit :=
  prev ← rd64 (node_prev node); next ← rd64 (node_next node); wr64 (node_next prev) next;;
  next ← rd64 (node_next node); prev ← rd64 (node_prev node); wr64 (node_prev next) prev;;
  wr64 (node_prev node) node;; wr64 (node_next node) node.

(** ** Sizes *)

Definition CAVAN_NODE_ALLOCATED_MASK : Z := 0x01.
Definition CAVAN_SIZE_WORD_ALIGN (size : Z) : Z := Z.land (size + 7) (Z.lnot 7).
Definition CAVAN_SIZE_WORD_ALIGN_DOWN (size : Z) : Z := Z.land size (Z.lnot 7).
Definition CAVAN_NODE_IS_FREE (size : Z) : bool := Z.land size CAVAN_NODE_ALLOCATED_MASK =? 0.
Definition CAVAN_NODE_GET_REAL_SIZE (size : Z) : Z := Z.land size (Z.lnot CAVAN_NODE_ALLOCATED_MASK).

Definition cavan_malloc_get_available_size (size : Z) : Z :=
  if size <? SIZEOF_MALLOC_NODE then 0 else CAVAN_SIZE_WORD_ALIGN_DOWN (size - NODE_OFFSET).
Definition cavan_malloc_get_next_near_base (node size : Z) : Z := node + size.
Definition cavan_malloc_get_next_near (n : Z) : prog words Z :=
  s ← node_size n; mret (cavan_malloc_get_next_near_base (n + NODE_OFFSET) s).
Definition cavan_malloc_get_prev_near (n : Z) : prog words Z :=
  s ← node_prev_size n; mret (n - s).

(** ** The allocator *)

(** [info->link.head_node] lies at [mi_head]. *)
Record cavan_malloc_info : Type := { mi_buff : Z; mi_size : Z; mi_head : Z; mi_last : Z }.

(** [ret] is what [pthread_mutex_init] answers. *)
Definition cavan_malloc_init_base (ret : Z) (info : cavan_malloc_info) (addr size : Z) : prog words (Z * cavan_malloc_info) :=
  link_node_init (mi_head info);;
  if ret <? 0 then mret (ret, info)
  else
    let last := addr + size in
    let node := CAVAN_SIZE_WORD_ALIGN addr in
    let info := {| mi_buff := addr; mi_size := size; mi_head := mi_head info; mi_last := mi_last info |} in
    set_node_size node (cavan_malloc_get_available_size (u64 (last - node)));;
    s ← node_size node;
    if s =? 0 then mret (- EINVAL, info)
    else
      set_node_prev_size node CAVAN_NODE_ALLOCATED_MASK;;
      link_insert_base2 (mi_head info) (node + NODE_OFFSET);;
      s ← node_size node;
      mret (0, {| mi_buff := addr; mi_size := size; mi_head := mi_head info; mi_last := node + s |}).

(** No list is longer than the store. *)
Definition list_fuel (m : words) : nat := S (size m).

(** The walk from [node] to the first block of [size] bytes; it ends at the
    head when there is none. *)
Definition first_fit (fuel : nat) (head size node : Z) : prog words Z :=
  ploop fuel (λ node,
    if node =? head then mret (inr node)
    else
      s ← node_size (node - NODE_OFFSET);
      if size <=? s then mret (inr node) else node ← rd64 (node_next node); mret (inl node)) node.

Definition set_near_next (info : cavan_malloc_info) (near_next node : Z) : prog words unit :=
  if near_next <? mi_last info then s ← node_size node; set_node_prev_size near_next s else mret tt.

Definition cavan_malloc_base (info : cavan_malloc_info) (size : Z) : prog words Z :=
  let size := u64 (size + NODE_OFFSET) in
  let size := if size <? SIZEOF_MALLOC_NODE then SIZEOF_MALLOC_NODE else size in
  let head := mi_head info in
  node ← rd64 (node_next head);
  fuel ← reads list_fuel;
  node ← first_fit fuel head size node;
  if node =? head then mret 0
  else
    let alloc_node := node - NODE_OFFSET in
    s ← node_size alloc_node;
    let size_remain := CAVAN_SIZE_WORD_ALIGN_DOWN (s - size) in
    alloc_node ←
      (if 0 <? size_remain then
         s ← node_size alloc_node;
         let size := s - size_remain in
         set_node_size alloc_node size_remain;;
         let alloc_node := cavan_malloc_get_next_near_base node size_remain in
         set_node_size alloc_node (cavan_malloc_get_available_size size);;
         set_node_prev_size alloc_node size_remain;;
         mret alloc_node
       else link_remove_base node;; mret alloc_node);
    near_next ← cavan_malloc_get_next_near alloc_node;
    s ← node_size alloc_node;
    set_node_size alloc_node (Z.lor s CAVAN_NODE_ALLOCATED_MASK);;
    set_near_next info near_next alloc_node;;
    mret (alloc_node + NODE_OFFSET).

(** The two joins of [cavan_free_base]. *)
Definition join_prev (free_node : Z) : prog words Z :=
  ps ← node_prev_size free_node;
  if CAVAN_NODE_IS_FREE ps then
    prev ← cavan_malloc_get_prev_near free_node;
    let near_prev := prev - NODE_OFFSET in
    sp ← node_size near_prev;
    sf ← node_size free_node;
    set_node_size near_prev (sp + (sf + NODE_OFFSET));;
    link_remove_base (near_prev + NODE_OFFSET);;
    mret near_prev
  else mret free_node.
Definition join_next (info : cavan_malloc_info) (free_node : Z) : prog words unit :=
  near_next ← cavan_malloc_get_next_near free_node;
  if near_next <? mi_last info then
    ns ← node_size near_next;
    if CAVAN_NODE_IS_FREE ns then
      fs ← node_size free_node;
      ns ← node_size near_next;
      set_node_size free_node (fs + (ns + NODE_OFFSET));;
      link_remove_base (near_next + NODE_OFFSET);;
      near_next ← cavan_malloc_get_next_near free_node;
      set_near_next info near_next free_node
    else fs ← node_size free_node; set_node_prev_size near_next fs
  else mret tt.

Definition cavan_free_base (info : cavan_malloc_info) (addr : Z) : prog words unit :=
  let free_node := addr - NODE_OFFSET in
  s ← node_size free_node;
  set_node_size free_node (CAVAN_NODE_GET_REAL_SIZE s);;
  free_node ← join_prev free_node;
  join_next info free_node;;
  size ← node_size free_node;
  let head := mi_head info in
  node ← rd64 (node_next head);
  fuel ← reads list_fuel;
  node ← first_fit fuel head size node;
  link_insert_base2 node (free_node + NODE_OFFSET).

(** ** Words *)

Definition header (s p : Z) : Z := s + 2 ^ 32 * p.
Definition half (v : Z) : Prop := 0 ≤ v < 2 ^ 32.

Lemma header_size s p : half s → header s p mod 2 ^ 32 = s.
Proof. unfold half, header. intros Hs. rewrite (Z.mul_comm _ p), Z.mod_add by lia. by apply Z.mod_small. Qed.
Lemma header_prev s p : half s → header s p / 2 ^ 32 = p.
Proof. unfold half, header. intros Hs. rewrite (Z.mul_comm _ p), Z.div_add, Z.div_small by lia. lia. Qed.

Section rules.
Implicit Types (m : words).

Lemma wpp_rd64 m a v (Q : Z → words → Prop) : m !! a = Some v → Q v m → wpp (rd64 a) m Q.
Proof. intros E HQ. unfold wpp, rd64. by rewrite E. Qed.
Lemma wpp_wr64 m a v (Q : unit → words → Prop) : is_Some (m !! a) → Q tt (<[a := v]> m) → wpp (wr64 a v) m Q.
Proof. intros [x E] HQ. unfold wpp, wr64. by rewrite E. Qed.
Lemma wpp_node_size m n s p (Q : Z → words → Prop) : half s → m !! n = Some (header s p) → Q s m → wpp (node_size n) m Q.
Proof. intros Hs E HQ. apply wpp_bind. eapply wpp_rd64; [done|]. rewrite header_size by done. by apply wpp_ret. Qed.
Lemma wpp_node_prev_size m n s p (Q : Z → words → Prop) : half s → m !! n = Some (header s p) → Q p m → wpp (node_prev_size n) m Q.
Proof. intros Hs E HQ. apply wpp_bind. eapply wpp_rd64; [done|]. rewrite header_prev by done. by apply wpp_ret. Qed.
Lemma wpp_set_node_size m n s p v (Q : unit → words → Prop) :
  half s → half v → m !! n = Some (header s p) → Q tt (<[n := header v p]> m) → wpp (set_node_size n v) m Q.
Proof.
  intros Hs Hv E HQ. apply wpp_bind. eapply wpp_rd64; [done|]. rewrite header_prev, wrap_small by done. apply wpp_wr64; [by eexists|done].
Qed.
Lemma wpp_set_node_prev_size m n s p v (Q : unit → words → Prop) :
  half s → half v → m !! n = Some (header s p) → Q tt (<[n := header s v]> m) → wpp (set_node_prev_size n v) m Q.
Proof.
  intros Hs Hv E HQ. apply wpp_bind. eapply wpp_rd64; [done|]. rewrite header_size, wrap_small by done. apply wpp_wr64; [by eexists|done].
Qed.
(** A header made of a word that holds anything. *)
Lemma any_header w : ∃ s p, half s ∧ w = header s p.
Proof. exists (w mod 2 ^ 32), (w / 2 ^ 32). split; [apply Z.mod_pos_bound; lia|]. unfold header. rewrite Z.add_comm. apply Z.div_mod. lia. Qed.
End rules.

(** Sizes are multiples of 8, the bit of use is added to them. *)
Lemma align_down n : CAVAN_SIZE_WORD_ALIGN_DOWN n = 8 * (n / 8).
Proof.
  unfold CAVAN_SIZE_WORD_ALIGN_DOWN. rewrite <-Z.ldiff_land. change 7 with (Z.ones 3). rewrite Z.ldiff_ones_r by lia.
  rewrite Z.shiftl_mul_pow2, Z.shiftr_div_pow2 by lia. change (2 ^ 3) with 8. lia.
Qed.
Lemma align_up n : CAVAN_SIZE_WORD_ALIGN n = 8 * ((n + 7) / 8).
Proof. apply align_down. Qed.
Lemma is_free_even s : CAVAN_NODE_IS_FREE s = Z.even s.
Proof. unfold CAVAN_NODE_IS_FREE, CAVAN_NODE_ALLOCATED_MASK. change 1 with (Z.ones 1). rewrite Z.land_ones, Zmod_even by lia. by destruct (Z.even s). Qed.
Lemma set_used s : Z.even s = true → Z.lor s CAVAN_NODE_ALLOCATED_MASK = s + 1.
Proof.
  intros He. apply Zeven_bool_iff, Zeven_div2 in He. rewrite He. unfold CAVAN_NODE_ALLOCATED_MASK.
  rewrite Z.lor_comm, Z.mul_comm. change (Z.div2 s * 2) with (Z.div2 s * 2 ^ 1). rewrite <-Z.shiftl_mul_pow2 by lia.
  rewrite lor_shiftl_add by lia. rewrite Z.shiftl_mul_pow2 by lia. lia.
Qed.
Lemma real_size s : Z.even s = true → CAVAN_NODE_GET_REAL_SIZE (s + 1) = s.
Proof.
  intros He. unfold CAVAN_NODE_GET_REAL_SIZE, CAVAN_NODE_ALLOCATED_MASK. rewrite <-Z.ldiff_land. change 1 with (Z.ones 1) at 2. rewrite Z.ldiff_ones_r by lia.
  rewrite Z.shiftl_mul_pow2, Z.shiftr_div_pow2 by lia. change (2 ^ 1) with 2. apply Zeven_bool_iff, Zeven_div2 in He. rewrite Z.div2_div in He. dlia.
Qed.

(** ** Chains *)

Fixpoint linked {A} (R : A → A → Prop) (c : list A) : Prop :=
  match c with x :: (y :: _) as t => R x y ∧ linked R t | _ => True end.

Lemma linked_app {A} (R : A → A → Prop) c1 x c2 : linked R (c1 ++ x :: c2) ↔ linked R (c1 ++ [x]) ∧ linked R (x :: c2).
Proof.
  induction c1 as [|y c1 IH]; [by simpl; tauto|]. destruct c1 as [|z c1]; [simpl; tauto|].
  change (linked R ((y :: z :: c1) ++ x :: c2)) with (R y z ∧ linked R ((z :: c1) ++ x :: c2)).
  change (linked R ((y :: z :: c1) ++ [x])) with (R y z ∧ linked R ((z :: c1) ++ [x])). tauto.
Qed.
Lemma linked_impl {A} (R R' : A → A → Prop) c z :
  linked R (c ++ [z]) → (∀ x y, x ∈ c → y ∈ tail (c ++ [z]) → R x y → R' x y) → linked R' (c ++ [z]).
Proof.
  induction c as [|x c IH]; [done|]. destruct c as [|y c]; simpl in *.
  - intros [HR _] Himp. split; [|done]. apply Himp; [set_solver..|done].
  - intros [HR Hc] Himp. split; [apply Himp; [set_solver..|done]|]. apply IH; [done|]. intros u v Hu Hv. apply Himp; set_solver.
Qed.

(** ** Rings of list nodes *)

Definition edge (m : words) (x y : Z) : Prop := m !! (x + 8) = Some y ∧ m !! y = Some x.
Definition node_ring (m : words) (head : Z) (fl : list Z) : Prop := linked (edge m) (head :: fl ++ [head]).
(** The nodes are different and do not overlap. *)
Definition spaced (l : list Z) : Prop := NoDup l ∧ ∀ x y, x ∈ l → y ∈ l → x = y ∨ x + 16 ≤ y ∨ y + 16 ≤ x.
Definition link_word (l : list Z) (y : Z) : Prop := ∃ x, x ∈ l ∧ (y = x ∨ y = x + 8).
Lemma link_word_l l x : x ∈ l → link_word l x.
Proof. intros. exists x. auto. Qed.
Lemma link_word_r l x : x ∈ l → link_word l (x + 8).
Proof. intros. exists x. auto. Qed.
(** Only words that [W] allows have changed, and none has gone. *)
Definition changes (W : Z → Prop) (m m' : words) : Prop :=
  (∀ y, ¬ W y → m' !! y = m !! y) ∧ (∀ y, is_Some (m !! y) → is_Some (m' !! y)).

#[export] Instance spaced_perm : Proper ((≡ₚ) ==> iff) spaced.
Proof.
  intros l1 l2 E. unfold spaced. rewrite E. split; intros [? H]; (split; [done|]); intros x y Hx Hy; apply H; by (rewrite E || rewrite <-E).
Qed.

Lemma changes_refl W m : changes W m m.
Proof. done. Qed.
Lemma changes_trans W m1 m2 m3 : changes W m1 m2 → changes W m2 m3 → changes W m1 m3.
Proof. intros [H1 D1] [H2 D2]. split; [|auto]. intros y Hy. by rewrite H2, H1. Qed.
Lemma changes_insert (W : Z → Prop) m m' a v : W a → changes W m m' → changes W m (<[a := v]> m').
Proof.
  intros Ha [H D]. split; intros y Hy.
  - rewrite lookup_insert_ne; [by apply H|]. by intros ->.
  - rewrite lookup_insert. case_decide; [done|]. by apply D.
Qed.
Lemma changes_mono (W W' : Z → Prop) m m' : (∀ y, W y → W' y) → changes W m m' → changes W' m m'.
Proof. intros HW [H D]. split; [|done]. intros y Hy. apply H. naive_solver. Qed.

Lemma snoc_view {A} (x : A) l : ∃ c p, x :: l = c ++ [p].
Proof. destruct (exists_last (l := x :: l)) as (c & p & E); [done|]. by exists c, p. Qed.
Lemma cons_view {A} (x : A) l : ∃ q c, l ++ [x] = q :: c.
Proof. destruct l as [|q c]; simpl; eauto. Qed.

Lemma ring_split m head f1 f2 c1 p q c2 : head :: f1 = c1 ++ [p] → f2 ++ [head] = q :: c2 →
  node_ring m head (f1 ++ f2) ↔ linked (edge m) (c1 ++ [p]) ∧ edge m p q ∧ linked (edge m) (q :: c2).
Proof.
  intros E1 E2. unfold node_ring. rewrite <-app_assoc, app_comm_cons, E1, E2, <-app_assoc. simpl. rewrite linked_app. simpl. tauto.
Qed.

(** The two ends of a ring are not changed by writes at its seam. *)
Lemma seam m m' head f1 f2 c1 p q c2 n :
  head :: f1 = c1 ++ [p] → f2 ++ [head] = q :: c2 → spaced (n :: head :: f1 ++ f2) →
  (∀ y, y ≠ p + 8 → y ≠ q → y ≠ n → y ≠ n + 8 → m' !! y = m !! y) →
  linked (edge m) (c1 ++ [p]) → linked (edge m) (q :: c2) → linked (edge m') (c1 ++ [p]) ∧ linked (edge m') (q :: c2).
Proof.
  intros E1 E2 [Hnd Hap] Hm. assert (p ∈ head :: f1) by (rewrite E1; set_solver). assert (q ∈ f2 ++ [head]) by (rewrite E2; set_solver).
  assert (∀ x, x ∈ c1 → x ∈ head :: f1) as Hc1 by (rewrite E1; set_solver).
  assert (∀ x, x ∈ c2 → x ∈ f2 ++ [head]) as Hc2 by (rewrite E2; set_solver).
  assert (NoDup (c1 ++ [p])) as Hn1 by (rewrite <-E1; apply NoDup_cons in Hnd as [_ Hnd]; rewrite app_comm_cons in Hnd; by apply NoDup_app in Hnd as [? _]).
  assert (NoDup (q :: c2)) as Hn2.
  { rewrite <-E2. apply NoDup_cons in Hnd as [_ Hnd]. apply NoDup_cons in Hnd as [Hh Hnd]. apply NoDup_app in Hnd as (_ & _ & Hnd).
    apply NoDup_app. split_and!; [done|set_solver|apply NoDup_singleton]. }
  apply NoDup_app in Hn1 as (_ & Hp & _). apply NoDup_cons in Hn2 as [Hq _].
  apply NoDup_cons in Hnd as [Hn Hnd]. apply NoDup_cons in Hnd as [Hh Hnd]. apply NoDup_app in Hnd as (_ & Hf & _).
  assert (∀ x, x ∈ n :: head :: f1 ++ f2 → ∀ y, y ∈ n :: head :: f1 ++ f2 → x + 8 ≠ y) as H8
    by (intros x Hx y Hy E; specialize (Hap x y Hx Hy); lia).
  assert (∀ x y, x ∈ head :: f1 ++ f2 → y ∈ head :: f1 ++ f2 → x ≠ p → x ≠ n → y ≠ q → y ≠ n → edge m x y → edge m' x y) as He.
  { intros x y Hx Hy ???? [Ha Hb]. split; (rewrite Hm; [done|..]); try lia.
    all: first [apply H8|apply not_eq_sym, H8]; set_solver. }
  intros H1 H2. split.
  - eapply linked_impl; [exact H1|]. intros x y Hx Hy. rewrite <-E1 in Hy. simpl in Hy.
    assert (x ≠ p) by (intros ->; set_solver). specialize (Hc1 x Hx). apply He; set_solver.
  - rewrite <-E2 in H2 |- *. eapply linked_impl; [exact H2|]. intros x y Hx Hy. rewrite E2 in Hy. simpl in Hy.
    assert (y ≠ q) by (intros ->; set_solver). specialize (Hc2 y Hy). apply He; set_solver.
Qed.

Lemma seam_apart n head f1 f2 p q : spaced (n :: head :: f1 ++ f2) → p ∈ head :: f1 → q ∈ f2 ++ [head] →
  (p ≠ n ∧ q ≠ n ∧ p + 8 ≠ q ∧ p + 8 ≠ n ∧ q ≠ n + 8) ∧
  p ∈ n :: head :: f1 ++ f2 ∧ q ∈ n :: head :: f1 ++ f2 ∧ n ∈ n :: head :: f1 ++ f2.
Proof.
  intros [Hnd Hap] Hp Hq. apply NoDup_cons in Hnd as [Hn _].
  assert (p ∈ n :: head :: f1 ++ f2) as Hp' by set_solver. assert (q ∈ n :: head :: f1 ++ f2) as Hq' by set_solver.
  assert (n ∈ n :: head :: f1 ++ f2) as Hn' by set_solver.
  pose proof (Hap _ _ Hp' Hq'). pose proof (Hap _ _ Hp' Hn'). pose proof (Hap _ _ Hn' Hq').
  split; [|done]. split_and!; [intros ->; set_solver|intros ->; set_solver|lia..].
Qed.

Lemma wpp_link_remove_base m head f1 n f2 (Q : unit → words → Prop) :
  node_ring m head (f1 ++ n :: f2) → spaced (n :: head :: f1 ++ f2) →
  (∀ m', node_ring m' head (f1 ++ f2) → changes (link_word (n :: head :: f1 ++ f2)) m m' → Q tt m') →
  wpp (link_remove_base n) m Q.
Proof.
  intros Hr Hap HQ. destruct (snoc_view head f1) as (c1 & p & E1), (cons_view head f2) as (q & c2 & E2).
  assert (p ∈ head :: f1) as Hpin by (rewrite E1; set_solver). assert (q ∈ f2 ++ [head]) as Hqin by (rewrite E2; set_solver).
  unfold node_ring in Hr. rewrite <-app_assoc, app_comm_cons, E1 in Hr. simpl in Hr. rewrite <-app_assoc, E2 in Hr. simpl in Hr.
  apply linked_app in Hr as [Hr1 [[Hp1 Hp2] [[Hn1 Hn2] Hr2]]].
  destruct (seam_apart _ _ _ _ _ _ Hap Hpin Hqin) as [(? & ? & ? & ? & ?) (? & ? & ?)].
  unfold link_remove_base, node_prev, node_next.
  wpp_go. eapply wpp_rd64; [exact Hp2|]. wpp_go. eapply wpp_rd64; [exact Hn1|]. wpp_go. apply wpp_wr64; [by eexists|].
  wpp_go. eapply wpp_rd64; [by rewrite lookup_insert_ne by lia|]. wpp_go. eapply wpp_rd64; [by rewrite lookup_insert_ne by lia|].
  wpp_go. apply wpp_wr64; [rewrite lookup_insert_ne by lia; by eexists|].
  wpp_go. apply wpp_wr64; [rewrite !lookup_insert_ne by lia; by eexists|].
  wpp_go. apply wpp_wr64; [rewrite !lookup_insert_ne by lia; by eexists|].
  apply HQ.
  - rewrite (ring_split _ _ _ _ _ _ _ _ E1 E2).
    edestruct (seam m) as [? ?]; [exact E1|exact E2|exact Hap| |exact Hr1|exact Hr2|split; [|split]; [eassumption| |eassumption]].
    + intros y ????. by rewrite !lookup_insert_ne by lia.
    + split; [rewrite !lookup_insert_ne by lia|rewrite 2!lookup_insert_ne by lia]; by rewrite lookup_insert_eq.
  - repeat (apply changes_insert); [..|apply changes_refl].
    all: first [by apply link_word_l|by apply link_word_r].
Qed.

Lemma wpp_link_insert_base2 m head f1 f2 next c2 n (Q : unit → words → Prop) :
  f2 ++ [head] = next :: c2 → node_ring m head (f1 ++ f2) → spaced (n :: head :: f1 ++ f2) →
  is_Some (m !! n) → is_Some (m !! (n + 8)) →
  (∀ m', node_ring m' head (f1 ++ n :: f2) → changes (link_word (n :: head :: f1 ++ f2)) m m' → Q tt m') →
  wpp (link_insert_base2 next n) m Q.
Proof.
  intros E2 Hr Hap Hl1 Hl2 HQ. destruct (snoc_view head f1) as (c1 & p & E1).
  assert (p ∈ head :: f1) as Hpin by (rewrite E1; set_solver). assert (next ∈ f2 ++ [head]) as Hqin by (rewrite E2; set_solver).
  apply (ring_split _ _ _ _ _ _ _ _ E1 E2) in Hr as (Hr1 & [He1 He2] & Hr2).
  destruct (seam_apart _ _ _ _ _ _ Hap Hpin Hqin) as [(? & ? & ? & ? & ?) (? & ? & ?)].
  unfold link_insert_base2, link_insert_base, node_prev, node_next.
  wpp_go. eapply wpp_rd64; [exact He2|].
  wpp_go. apply wpp_wr64; [by eexists|]. wpp_go. apply wpp_wr64; [by rewrite lookup_insert_ne by lia|].
  wpp_go. apply wpp_wr64; [rewrite !lookup_insert_ne by lia; by eexists|]. wpp_go. apply wpp_wr64; [by rewrite !lookup_insert_ne by lia|].
  apply HQ.
  - unfold node_ring. rewrite <-app_assoc, app_comm_cons, E1. simpl. rewrite <-app_assoc, E2. simpl. rewrite linked_app. simpl.
    edestruct (seam m) as [? ?]; [exact E1|exact E2|exact Hap| |exact Hr1|exact Hr2|split; [eassumption|split; [|split; [|eassumption]]]].
    + intros y ????. by rewrite !lookup_insert_ne by lia.
    + split; [rewrite 3!lookup_insert_ne by lia|]; by rewrite lookup_insert_eq.
    + split; [rewrite 2!lookup_insert_ne by lia; by rewrite lookup_insert_eq|rewrite lookup_insert_ne by lia; by rewrite lookup_insert_eq].
  - repeat (apply changes_insert); [..|apply changes_refl].
    all: first [by apply link_word_l|by apply link_word_r].
Qed.

(** ** Tiles *)

(** The arena is cut into blocks, each a header and a payload. *)
Record tile : Type := Tile { t_size : Z; t_used : bool }.
Definition field (t : tile) : Z := t_size t + Z.b2z (t_used t).
Lemma field_free s : field (Tile s false) = s.
Proof. apply Z.add_0_r. Qed.
Definition wf_tile (t : tile) : Prop := 16 ≤ t_size t ∧ (8 | t_size t).

Fixpoint span (ts : list tile) : Z := match ts with [] => 0 | t :: ts => 8 + t_size t + span ts end.
Fixpoint tiles_at (m : words) (a pf : Z) (ts : list tile) : Prop :=
  match ts with
  | [] => True
  | t :: ts => m !! a = Some (header (field t) pf) ∧ tiles_at m (a + 8 + t_size t) (field t) ts
  end.
Definition last_field (pf : Z) (ts : list tile) : Z := foldl (λ _ t, field t) pf ts.
Fixpoint headers (a : Z) (ts : list tile) : list Z :=
  match ts with [] => [] | t :: ts => a :: headers (a + 8 + t_size t) ts end.
Fixpoint free_nodes (a : Z) (ts : list tile) : list Z :=
  match ts with [] => [] | t :: ts => (if t_used t then [] else [a + 8]) ++ free_nodes (a + 8 + t_size t) ts end.
(** Address and size of the payloads handed out. *)
Fixpoint used_blocks (a : Z) (ts : list tile) : list (Z * Z) :=
  match ts with [] => [] | t :: ts => (if t_used t then [(a + 8, t_size t)] else []) ++ used_blocks (a + 8 + t_size t) ts end.

Section tiles.
Implicit Types (m : words) (ts : list tile).

Lemma span_app ts1 ts2 : span (ts1 ++ ts2) = span ts1 + span ts2.
Proof. induction ts1; simpl; lia. Qed.
Lemma span_nonneg ts : Forall wf_tile ts → 0 ≤ span ts.
Proof. induction 1 as [|t ts [? _] _ IH]; simpl; lia. Qed.
Lemma span_aligned ts : Forall wf_tile ts → (8 | span ts).
Proof. induction 1 as [|t ts [_ [k ?]] _ [j ?]]; simpl; [by exists 0|]. exists (1 + k + j). lia. Qed.
Lemma last_field_app pf ts1 ts2 : last_field pf (ts1 ++ ts2) = last_field (last_field pf ts1) ts2.
Proof. apply foldl_app. Qed.
Lemma tiles_at_app m ts2 : ∀ ts1 a pf,
  tiles_at m a pf (ts1 ++ ts2) ↔ tiles_at m a pf ts1 ∧ tiles_at m (a + span ts1) (last_field pf ts1) ts2.
Proof.
  induction ts1 as [|t ts1 IH]; intros a pf; simpl; [rewrite Z.add_0_r; tauto|]. rewrite IH.
  replace (a + (8 + t_size t + span ts1)) with (a + 8 + t_size t + span ts1) by lia. tauto.
Qed.
Lemma headers_app ts2 : ∀ ts1 a, headers a (ts1 ++ ts2) = headers a ts1 ++ headers (a + span ts1) ts2.
Proof. induction ts1 as [|t ts1 IH]; intros a; simpl; [by rewrite Z.add_0_r|]. rewrite IH. do 3 f_equal. lia. Qed.
Lemma free_nodes_app ts2 : ∀ ts1 a, free_nodes a (ts1 ++ ts2) = free_nodes a ts1 ++ free_nodes (a + span ts1) ts2.
Proof. induction ts1 as [|t ts1 IH]; intros a; simpl; [by rewrite Z.add_0_r|]. rewrite IH, <-app_assoc. do 3 f_equal. lia. Qed.
Lemma used_blocks_app ts2 : ∀ ts1 a, used_blocks a (ts1 ++ ts2) = used_blocks a ts1 ++ used_blocks (a + span ts1) ts2.
Proof. induction ts1 as [|t ts1 IH]; intros a; simpl; [by rewrite Z.add_0_r|]. rewrite IH, <-app_assoc. do 3 f_equal. lia. Qed.

(** Where things lie. *)
Lemma free_nodes_in ts : Forall wf_tile ts → ∀ a x, x ∈ free_nodes a ts → a + 8 ≤ x ∧ x + 16 ≤ a + span ts.
Proof.
  induction 1 as [|t ts [Hs _] Hw IH]; intros a x; simpl; [set_solver|]. pose proof (span_nonneg ts Hw).
  destruct (t_used t); simpl; [|rewrite elem_of_cons; intros [->|Hx]; [lia|]; revert Hx].
  all: intros Hx; specialize (IH _ _ Hx); lia.
Qed.
Lemma used_blocks_in ts : Forall wf_tile ts → ∀ a b n, (b, n) ∈ used_blocks a ts → a + 8 ≤ b ∧ b + n ≤ a + span ts ∧ 16 ≤ n.
Proof.
  induction 1 as [|t ts [Hs _] Hw IH]; intros a b n; simpl; [set_solver|]. pose proof (span_nonneg ts Hw).
  destruct (t_used t); simpl; [rewrite elem_of_cons; intros [[= -> ->]|Hx]; [lia|]; revert Hx|].
  all: intros Hx; specialize (IH _ _ _ Hx); lia.
Qed.
Lemma headers_in ts : Forall wf_tile ts → ∀ a x, x ∈ headers a ts → a ≤ x ∧ x + 24 ≤ a + span ts.
Proof.
  induction 1 as [|t ts [Hs _] Hw IH]; intros a x; simpl; [set_solver|]. pose proof (span_nonneg ts Hw).
  rewrite elem_of_cons; intros [->|Hx]; [lia|]. specialize (IH _ _ Hx); lia.
Qed.
Lemma free_nodes_apart ts : Forall wf_tile ts → ∀ a, spaced (free_nodes a ts).
Proof.
  induction 1 as [|t ts Ht Hw IH]; intros a; simpl; [split; [constructor|set_solver]|].
  destruct (t_used t); simpl; [apply IH|]. destruct (IH (a + 8 + t_size t)) as [Hn Hap]. destruct Ht as [Hs _]. split.
  - apply NoDup_cons. split; [|done]. intros Hx. pose proof (free_nodes_in ts Hw _ _ Hx). lia.
  - intros x y. rewrite !elem_of_cons.
    intros [->|Hx] [->|Hy]; [lia| | |by apply Hap]; [pose proof (free_nodes_in ts Hw _ _ Hy)|pose proof (free_nodes_in ts Hw _ _ Hx)]; lia.
Qed.
(** A header and a node, a header and a payload, a node and a payload do not
    overlap. *)
Lemma header_node ts : Forall wf_tile ts → ∀ a x y, x ∈ headers a ts → y ∈ free_nodes a ts → x + 8 ≤ y ∨ y + 16 ≤ x.
Proof.
  induction 1 as [|t ts [Hs _] Hw IH]; intros a x y; simpl; [set_solver|]. rewrite elem_of_cons. intros Hx Hy.
  assert (y = a + 8 ∨ y ∈ free_nodes (a + 8 + t_size t) ts) as Hy' by (destruct (t_used t); set_solver).
  destruct Hx as [->|Hx], Hy' as [->|Hy']; [lia| | |by eapply IH].
  - pose proof (free_nodes_in ts Hw _ _ Hy'). lia.
  - pose proof (headers_in ts Hw _ _ Hx). lia.
Qed.
Lemma header_block ts : Forall wf_tile ts → ∀ a x b n, x ∈ headers a ts → (b, n) ∈ used_blocks a ts → x < b ∨ b + n ≤ x.
Proof.
  induction 1 as [|t ts [Hs _] Hw IH]; intros a x b n; simpl; [set_solver|]. rewrite elem_of_cons. intros Hx Hy.
  assert ((b = a + 8 ∧ n = t_size t) ∨ (b, n) ∈ used_blocks (a + 8 + t_size t) ts) as Hy' by (destruct (t_used t); set_solver).
  destruct Hx as [->|Hx], Hy' as [[-> ->]|Hy']; [lia| | |by eapply IH].
  - pose proof (used_blocks_in ts Hw _ _ _ Hy'). lia.
  - pose proof (headers_in ts Hw _ _ Hx). lia.
Qed.
Lemma node_block ts : Forall wf_tile ts → ∀ a x b n, x ∈ free_nodes a ts → (b, n) ∈ used_blocks a ts → x + 16 ≤ b ∨ b + n ≤ x.
Proof.
  induction 1 as [|t ts [Hs _] Hw IH]; intros a x b n; simpl; [set_solver|]. intros Hx Hy. destruct (t_used t); simpl in *.
  - apply elem_of_cons in Hy as [[= -> ->]|Hy]; [|by eapply IH]. pose proof (free_nodes_in ts Hw _ _ Hx). lia.
  - apply elem_of_cons in Hx as [->|Hx]; [|by eapply IH]. pose proof (used_blocks_in ts Hw _ _ _ Hy). lia.
Qed.

Lemma tiles_at_frame m m' ts : ∀ a pf, (∀ x, x ∈ headers a ts → m' !! x = m !! x) → tiles_at m a pf ts → tiles_at m' a pf ts.
Proof.
  induction ts as [|t ts IH]; intros a pf Hm; simpl; [done|]. intros [Hh Ht].
  split; [rewrite Hm; [done|]; simpl; set_solver|]. apply IH; [|done]. intros x Hx. apply Hm. simpl. set_solver.
Qed.
(** A free node belongs to a free tile. *)
Lemma free_node_tile ts : ∀ a x, x ∈ free_nodes a ts → ∃ ts1 s ts2, ts = ts1 ++ Tile s false :: ts2 ∧ x = a + span ts1 + 8.
Proof.
  induction ts as [|[s [|]] ts IH]; intros a x; simpl; [set_solver| |].
  - intros (ts1 & n & ts2 & -> & ->)%IH. exists (Tile s true :: ts1), n, ts2. split; [done|]. simpl. lia.
  - rewrite elem_of_cons. intros [->|(ts1 & n & ts2 & -> & ->)%IH].
    + exists [], s, ts. split; [done|]. simpl. lia.
    + exists (Tile s false :: ts1), n, ts2. split; [done|]. simpl. lia.
Qed.
Lemma used_block_tile ts : ∀ a b n, (b, n) ∈ used_blocks a ts → ∃ ts1 ts2, ts = ts1 ++ Tile n true :: ts2 ∧ b = a + span ts1 + 8.
Proof.
  induction ts as [|[s [|]] ts IH]; intros a b n; simpl; [set_solver| |].
  - rewrite elem_of_cons. intros [[= -> ->]|(ts1 & ts2 & -> & ->)%IH].
    + exists [], ts. split; [done|]. simpl. lia.
    + exists (Tile s true :: ts1), ts2. split; [done|]. simpl. lia.
  - intros (ts1 & ts2 & -> & ->)%IH. exists (Tile s false :: ts1), ts2. split; [done|]. simpl. lia.
Qed.
End tiles.
