(* ===== verification/Arena.v ===== *)
(** Arena: what the allocator of Malloc promises.  Between two calls the blocks
    cover the arena and the ring of nodes holds the free ones; every call keeps
    that and does what a client expects of it. *)
From S2P Require Import Prelude Malloc.

(** ** Arenas *)

(** No words of the payloads [bs] have changed. *)
Definition keeps (bs : list (Z * Z)) (m m' : words) : Prop :=
  ∀ b n y, (b, n) ∈ bs → b ≤ y < b + n → m' !! y = m !! y.
Definition words_live (m : words) (a n : Z) : Prop := ∀ y, a ≤ y < a + n → (8 | y) → is_Some (m !! y).

(** An arena at [a0] around the block [s] between [ts1] and [ts2]; [ex] are
    the nodes of the free list inside that block. *)
Record geometry (info : cavan_malloc_info) (a0 : Z) (ts1 : list tile) (s : Z) (ts2 : list tile) (ex fl : list Z) : Prop := {
  ge_wf1 : Forall wf_tile ts1;
  ge_wf2 : Forall wf_tile ts2;
  ge_size : 16 ≤ s ∧ (8 | s);
  ge_last : mi_last info = a0 + (span ts1 + (8 + s + span ts2)) - 8;
  ge_small : span ts1 + (8 + s + span ts2) < 2 ^ 32;
  ge_aligned : (8 | a0);
  ge_head : mi_head info + 16 ≤ a0 ∨ a0 + (span ts1 + (8 + s + span ts2)) ≤ mi_head info;
  ge_apart : spaced ex;
  ge_ex : ∀ y, y ∈ ex → a0 + span ts1 + 8 ≤ y ∧ y + 16 ≤ a0 + span ts1 + 8 + s;
  ge_nodes : fl ≡ₚ ex ++ free_nodes a0 ts1 ++ free_nodes (a0 + span ts1 + 8 + s) ts2 }.

Record core (info : cavan_malloc_info) (a0 : Z) (ts1 : list tile) (t : tile) (pf : Z) (ts2 : list tile) (ex fl : list Z) (m : words) : Prop := {
  co_geo :> geometry info a0 ts1 (t_size t) ts2 ex fl;
  co_left : tiles_at m a0 1 ts1;
  co_mid : m !! (a0 + span ts1) = Some (header (field t) (last_field 1 ts1));
  co_right : tiles_at m (a0 + span ts1 + 8 + t_size t) pf ts2;
  co_ring : node_ring m (mi_head info) fl;
  co_live : words_live m a0 (span ts1 + (8 + t_size t + span ts2)) }.

(** The payloads around the block. *)
Definition around (a0 : Z) (ts1 : list tile) (s : Z) (ts2 : list tile) : list (Z * Z) :=
  used_blocks a0 ts1 ++ used_blocks (a0 + span ts1 + 8 + s) ts2.

Lemma keeps_refl bs m : keeps bs m m.
Proof. done. Qed.
Lemma keeps_trans bs m1 m2 m3 : keeps bs m1 m2 → keeps bs m2 m3 → keeps bs m1 m3.
Proof. intros H1 H2 b n y Hb Hy. rewrite (H2 b n y Hb Hy). by apply (H1 b n). Qed.
Lemma spaced_app l1 l2 : spaced l1 → spaced l2 → (∀ x y, x ∈ l1 → y ∈ l2 → x + 16 ≤ y ∨ y + 16 ≤ x) → spaced (l1 ++ l2).
Proof.
  intros [N1 A1] [N2 A2] H. split.
  - apply NoDup_app. split_and!; [done| |done]. intros x H1 H2. specialize (H x x H1 H2). lia.
  - intros x y [Hx|Hx]%elem_of_app [Hy|Hy]%elem_of_app; [by apply A1| | |by apply A2].
    + specialize (H x y Hx Hy). lia.
    + specialize (H y x Hy Hx). lia.
Qed.
Lemma spaced_singleton x : spaced [x].
Proof. split; [apply NoDup_singleton|]. intros y z. rewrite !list_elem_of_singleton. lia. Qed.
Lemma ring_frame m m' head fl : (∀ y, link_word (head :: fl) y → m' !! y = m !! y) → node_ring m head fl → node_ring m' head fl.
Proof.
  intros Hm. unfold node_ring. rewrite app_comm_cons. intros Hr. eapply linked_impl; [exact Hr|]. intros x y Hx Hy [H1 H2].
  split; rewrite Hm; [done|by apply link_word_r|done|]. apply link_word_l. simpl in Hy.
  apply elem_of_app in Hy as [Hy|Hy]; [by apply elem_of_cons; right|]. apply list_elem_of_singleton in Hy. subst y. by apply elem_of_cons; left.
Qed.

Section geometry.
Context {info a0 ts1 s ts2 ex fl} (G : geometry info a0 ts1 s ts2 ex fl).

Lemma ge_spans : 0 ≤ span ts1 ∧ 0 ≤ span ts2.
Proof using G. split; apply span_nonneg; apply G. Qed.

Lemma ge_all_apart : spaced (mi_head info :: fl).
Proof using G.
  destruct ge_spans. pose proof (ge_size _ _ _ _ _ _ _ G) as [? _].
  rewrite (ge_nodes _ _ _ _ _ _ _ G). apply (spaced_app [_]); [apply spaced_singleton|apply spaced_app; [apply G|apply spaced_app|]|].
  - apply free_nodes_apart, G.
  - apply free_nodes_apart, G.
  - intros x y Hx%free_nodes_in Hy%free_nodes_in; [lia|apply G..].
  - intros x y Hx%(ge_ex _ _ _ _ _ _ _ G) [Hy|Hy]%elem_of_app; apply free_nodes_in in Hy; (apply G || lia).
  - intros x y ->%list_elem_of_singleton Hy. pose proof (ge_head _ _ _ _ _ _ _ G).
    apply elem_of_app in Hy as [Hy%(ge_ex _ _ _ _ _ _ _ G)|[Hy|Hy]%elem_of_app]; [lia|apply free_nodes_in in Hy; (apply G || lia)..].
Qed.

(** A word of the list is neither a header nor a word of a payload. *)
Lemma ge_link_word y : link_word (mi_head info :: fl) y →
  y ∉ headers a0 ts1 ∧ y ≠ a0 + span ts1 ∧ y ∉ headers (a0 + span ts1 + 8 + s) ts2 ∧
  ∀ b n, (b, n) ∈ around a0 ts1 s ts2 → y < b ∨ b + n ≤ y.
Proof using G.
  intros (x & Hx & Hxy). destruct ge_spans, G as [W1 W2 [? _] _ _ _ Hh _ Hex Hn]. rewrite Hn in Hx.
  assert (∀ h, h ∈ headers a0 ts1 → h ≠ y) as N1; [|assert (∀ h, h ∈ headers (a0 + span ts1 + 8 + s) ts2 → h ≠ y) as N2;
    [|split_and!; [by intros ?%N1| |by intros ?%N2|]]].
  - intros h Hi. pose proof (headers_in _ W1 _ _ Hi). apply elem_of_cons in Hx as [->|[Hx%Hex|[Hx|Hx]%elem_of_app]%elem_of_app]; [lia|lia| |].
    + pose proof (header_node _ W1 _ _ _ Hi Hx). lia.
    + pose proof (free_nodes_in _ W2 _ _ Hx). lia.
  - intros h Hi. pose proof (headers_in _ W2 _ _ Hi). apply elem_of_cons in Hx as [->|[Hx%Hex|[Hx|Hx]%elem_of_app]%elem_of_app]; [lia|lia| |].
    + pose proof (free_nodes_in _ W1 _ _ Hx). lia.
    + pose proof (header_node _ W2 _ _ _ Hi Hx). lia.
  - apply elem_of_cons in Hx as [->|[Hx%Hex|[Hx%(free_nodes_in _ W1)|Hx%(free_nodes_in _ W2)]%elem_of_app]%elem_of_app]; lia.
  - intros b n [Hb|Hb]%elem_of_app.
    + pose proof (used_blocks_in _ W1 _ _ _ Hb). apply elem_of_cons in Hx as [->|[Hx%Hex|[Hx|Hx]%elem_of_app]%elem_of_app]; [lia|lia| |].
      * pose proof (node_block _ W1 _ _ _ _ Hx Hb). lia.
      * pose proof (free_nodes_in _ W2 _ _ Hx). lia.
    + pose proof (used_blocks_in _ W2 _ _ _ Hb). apply elem_of_cons in Hx as [->|[Hx%Hex|[Hx|Hx]%elem_of_app]%elem_of_app]; [lia|lia| |].
      * pose proof (free_nodes_in _ W1 _ _ Hx). lia.
      * pose proof (node_block _ W2 _ _ _ _ Hx Hb). lia.
Qed.
End geometry.

Section core.
Context {info : cavan_malloc_info} {a0 : Z}.
Implicit Types (m : words) (ts : list tile) (t : tile) (fl ex : list Z).
Local Abbreviation mid ts1 := (a0 + span ts1).

Lemma half_field t n : wf_tile t → t_size t + 8 ≤ n → n < 2 ^ 32 → half (field t).
Proof. unfold half, field, wf_tile. destruct (t_used t); simpl; lia. Qed.
Lemma core_half ts1 t pf ts2 ex fl m : core info a0 ts1 t pf ts2 ex fl m → half (field t).
Proof.
  intros C. destruct (ge_spans C). eapply half_field; [apply (ge_size _ _ _ _ _ _ _ C)| |apply (ge_small _ _ _ _ _ _ _ C)]. lia.
Qed.
Lemma insert_live m a n x v : words_live m a n → words_live (<[x := v]> m) a n.
Proof. intros HL y Hy H8. rewrite lookup_insert. case_decide; [done|]. by apply HL. Qed.

(** Writing the header of the block in the middle. *)
Lemma core_write ts1 t t' pf ts2 ex fl m : t_size t' = t_size t → core info a0 ts1 t pf ts2 ex fl m →
  let m' := <[mid ts1 := header (field t') (last_field 1 ts1)]> m in
  core info a0 ts1 t' pf ts2 ex fl m' ∧ keeps (around a0 ts1 (t_size t) ts2) m m'.
Proof.
  intros Hs C m'. pose proof (ge_spans C). pose proof (ge_size _ _ _ _ _ _ _ C) as [? _].
  pose proof (ge_wf1 _ _ _ _ _ _ _ C) as W1. pose proof (ge_wf2 _ _ _ _ _ _ _ C) as W2.
  assert (∀ y, y ≠ mid ts1 → m' !! y = m !! y) as Hm by (intros y Hy; apply lookup_insert_ne; lia).
  split; [split; rewrite ?Hs; try apply C|].
  - eapply tiles_at_frame; [|apply C]. intros h Hh%(headers_in _ W1). apply Hm. lia.
  - apply lookup_insert_eq.
  - eapply tiles_at_frame; [|apply C]. intros h Hh%(headers_in _ W2). apply Hm. lia.
  - eapply ring_frame; [|apply C]. intros y Hy. apply Hm. by apply (ge_link_word C).
  - apply insert_live, C.
  - intros b n y [Hb|Hb]%elem_of_app Hy; [apply used_blocks_in in Hb|apply used_blocks_in in Hb]; (apply C || apply Hm; lia).
Qed.

Lemma wpp_set_mid ts1 t t' pf ts2 ex fl m v (Q : unit → words → Prop) :
  core info a0 ts1 t pf ts2 ex fl m → t_size t' = t_size t → v = field t' →
  (∀ m', core info a0 ts1 t' pf ts2 ex fl m' → keeps (around a0 ts1 (t_size t) ts2) m m' → Q tt m') →
  wpp (set_node_size (mid ts1) v) m Q.
Proof.
  intros C Hs -> HQ. destruct (core_write ts1 t t' pf ts2 ex fl m Hs C) as [C' K].
  apply (wpp_set_node_size _ _ (field t) (last_field 1 ts1) (field t')); [by eapply core_half|by eapply core_half|apply C|]. by apply HQ.
Qed.
Lemma wpp_mid_size ts1 t pf ts2 ex fl m (Q : Z → words → Prop) :
  core info a0 ts1 t pf ts2 ex fl m → Q (field t) m → wpp (node_size (mid ts1)) m Q.
Proof. intros C HQ. apply (wpp_node_size _ _ (field t) (last_field 1 ts1)); [by eapply core_half|apply C|done]. Qed.

(** Changes of the words of the list. *)
Lemma core_links ts1 t pf ts2 ex fl ex' fl' m m' :
  core info a0 ts1 t pf ts2 ex fl m → geometry info a0 ts1 (t_size t) ts2 ex' fl' → node_ring m' (mi_head info) fl' →
  (changes (link_word (mi_head info :: fl)) m m' ∨ changes (link_word (mi_head info :: fl')) m m') →
  core info a0 ts1 t pf ts2 ex' fl' m' ∧ keeps (around a0 ts1 (t_size t) ts2) m m'.
Proof.
  intros C G HR HC.
  assert (∃ W, changes W m m' ∧ ∀ y, W y → y ∉ headers a0 ts1 ∧ y ≠ a0 + span ts1 ∧
    y ∉ headers (a0 + span ts1 + 8 + t_size t) ts2 ∧ ∀ b n, (b, n) ∈ around a0 ts1 (t_size t) ts2 → y < b ∨ b + n ≤ y) as (W & [Hm HL] & HW).
  { destruct HC as [HC|HC]; eexists; (split; [exact HC|]); [apply (ge_link_word C)|apply (ge_link_word G)]. }
  split; [split|].
  - done.
  - eapply tiles_at_frame; [|apply C]. intros h Hh. apply Hm. by intros (? & ? & ? & ?)%HW.
  - rewrite Hm; [apply C|]. by intros (? & ? & ? & ?)%HW.
  - eapply tiles_at_frame; [|apply C]. intros h Hh. apply Hm. by intros (? & ? & ? & ?)%HW.
  - done.
  - intros y Hy H8. apply HL. by apply (co_live _ _ _ _ _ _ _ _ _ C).
  - intros b n y Hb Hy. apply Hm. intros (? & ? & ? & H)%HW. specialize (H b n Hb). lia.
Qed.

(** Taking a node of the block out of the list, and putting one in. *)
Lemma wpp_take ts1 t pf ts2 y fl m (Q : unit → words → Prop) :
  core info a0 ts1 t pf ts2 [y] fl m →
  (∀ fl' m', core info a0 ts1 t pf ts2 [] fl' m' → keeps (around a0 ts1 (t_size t) ts2) m m' → Q tt m') →
  wpp (link_remove_base y) m Q.
Proof.
  intros C HQ. pose proof (ge_nodes _ _ _ _ _ _ _ C) as Hn. pose proof (ge_all_apart C) as Hap.
  assert (y ∈ fl) as Hy by (rewrite Hn; set_solver). apply list_elem_of_split in Hy as (f1 & f2 & ->).
  assert (f1 ++ y :: f2 ≡ₚ y :: f1 ++ f2) as E by (by rewrite Permutation_middle).
  apply (wpp_link_remove_base m (mi_head info) f1 y f2); [apply C| |].
  - revert Hap. apply spaced_perm. rewrite E. by rewrite Permutation_swap.
  - intros m' HR HC. rewrite E in Hn. apply (Permutation_cons_inv (l := f1 ++ f2)) in Hn.
    destruct (core_links ts1 t pf ts2 [y] (f1 ++ y :: f2) [] (f1 ++ f2) m m') as [C' K]; [done| |done| |by eapply HQ].
    + destruct (co_geo _ _ _ _ _ _ _ _ _ C). split; [done..|split; [constructor|set_solver]|set_solver|done].
    + left. eapply changes_mono; [|exact HC]. intros z (x & Hx & Hz). exists x. split; [|done].
      revert Hx. rewrite !elem_of_cons, !elem_of_app, elem_of_cons. tauto.
Qed.
Lemma wpp_put ts1 t pf ts2 f1 f2 next c2 m (Q : unit → words → Prop) :
  core info a0 ts1 t pf ts2 [] (f1 ++ f2) m → f2 ++ [mi_head info] = next :: c2 →
  (∀ fl' m', core info a0 ts1 t pf ts2 [mid ts1 + 8] fl' m' → keeps (around a0 ts1 (t_size t) ts2) m m' → Q tt m') →
  wpp (link_insert_base2 next (mid ts1 + 8)) m Q.
Proof.
  intros C E HQ. pose proof (ge_nodes _ _ _ _ _ _ _ C) as Hn. destruct (ge_spans C). destruct (ge_size _ _ _ _ _ _ _ C) as [? H8].
  assert (geometry info a0 ts1 (t_size t) ts2 [mid ts1 + 8] (f1 ++ (mid ts1 + 8) :: f2)) as G.
  { destruct (co_geo _ _ _ _ _ _ _ _ _ C). split; [done..|apply spaced_singleton| |].
    - intros y ->%list_elem_of_singleton. lia.
    - rewrite <-Permutation_middle. by constructor. }
  assert (8 | a0 + span ts1) as Hal by (apply Z.divide_add_r; [apply C|apply span_aligned, C]).
  apply (wpp_link_insert_base2 m (mi_head info) f1 f2 next c2); [done|apply C| | | |].
  - eapply spaced_perm; [|apply (ge_all_apart G)]. rewrite Permutation_swap. apply perm_skip. by rewrite Permutation_middle.
  - apply (co_live _ _ _ _ _ _ _ _ _ C); [lia|]. apply Z.divide_add_r; [done|by exists 1].
  - apply (co_live _ _ _ _ _ _ _ _ _ C); [lia|]. rewrite <-Z.add_assoc. apply Z.divide_add_r; [done|by exists 2].
  - intros m' HR HC. edestruct (core_links ts1 t pf ts2 [] (f1 ++ f2)) as [C' K]; [done|exact G|exact HR| |by eapply HQ].
    right. eapply changes_mono; [|exact HC]. intros z (x & Hx & Hz). exists x. split; [|done].
    revert Hx. rewrite !elem_of_cons, !elem_of_app, elem_of_cons. tauto.
Qed.

(** Writing the size of the block in the middle into the header after it. *)
Lemma core_next_write ts1 t pf t2 ts2 ex fl m v : core info a0 ts1 t pf (t2 :: ts2) ex fl m →
  let m' := <[mid ts1 + 8 + t_size t := header (field t2) v]> m in
  core info a0 ts1 t v (t2 :: ts2) ex fl m' ∧ keeps (around a0 ts1 (t_size t) (t2 :: ts2)) m m'.
Proof.
  intros C m'. pose proof (ge_spans C) as [? _]. pose proof (ge_size _ _ _ _ _ _ _ C) as [? _].
  pose proof (ge_wf1 _ _ _ _ _ _ _ C) as W1. pose proof (ge_wf2 _ _ _ _ _ _ _ C) as W2.
  assert (∀ y, y ≠ mid ts1 + 8 + t_size t → m' !! y = m !! y) as Hm by (intros y Hy; apply lookup_insert_ne; lia).
  pose proof (co_right _ _ _ _ _ _ _ _ _ C) as [_ HR]. apply Forall_cons in W2 as [[? ?] W2].
  split; [split; try apply C|].
  - eapply tiles_at_frame; [|apply C]. intros h Hh%(headers_in _ W1). apply Hm. lia.
  - rewrite Hm by lia. apply C.
  - split; [apply lookup_insert_eq|]. eapply tiles_at_frame; [|exact HR]. intros h Hh%(headers_in _ W2). apply Hm. lia.
  - eapply ring_frame; [|apply C]. intros y Hy. apply Hm. intros ->. destruct (ge_link_word C _ Hy) as (_ & _ & Hh & _). apply Hh. simpl. by left.
  - apply insert_live, C.
  - intros b n y [Hb|Hb]%elem_of_app Hy.
    + apply used_blocks_in in Hb; [|done]. apply Hm. lia.
    + apply Hm. intros ->. apply header_block with (x := mid ts1 + 8 + t_size t) in Hb; [lia|apply C|]. simpl. by left.
Qed.
Lemma wpp_next_near ts1 s pf ts2 ex fl m (Q : Z → words → Prop) :
  core info a0 ts1 (Tile s false) pf ts2 ex fl m → Q (mid ts1 + 8 + s) m → wpp (cavan_malloc_get_next_near (mid ts1)) m Q.
Proof.
  intros C HQ. apply wpp_bind. eapply wpp_mid_size; [done|]. apply wpp_ret. unfold field, cavan_malloc_get_next_near_base, NODE_OFFSET. simpl.
  by rewrite Z.add_0_r.
Qed.
Lemma before_last ts1 t pf ts2 ex fl m : core info a0 ts1 t pf ts2 ex fl m →
  (mid ts1 + 8 + t_size t <? mi_last info) = match ts2 with [] => false | _ => true end.
Proof.
  intros C. pose proof (ge_last _ _ _ _ _ _ _ C) as ->. pose proof (ge_wf2 _ _ _ _ _ _ _ C) as W2. destruct ts2 as [|t2 ts2]; simpl.
  - apply Z.ltb_ge. lia.
  - apply Forall_cons in W2 as [[? _] W2%span_nonneg]. apply Z.ltb_lt. lia.
Qed.
Lemma wpp_fix_next ts1 t pf ts2 ex fl m n (Q : unit → words → Prop) : n = mid ts1 + 8 + t_size t →
  core info a0 ts1 t pf ts2 ex fl m →
  (∀ m', core info a0 ts1 t (field t) ts2 ex fl m' → keeps (around a0 ts1 (t_size t) ts2) m m' → Q tt m') →
  wpp (set_near_next info n (mid ts1)) m Q.
Proof.
  intros -> C HQ. unfold set_near_next. rewrite (before_last _ _ _ _ _ _ _ C). destruct ts2 as [|t2 ts2].
  - apply wpp_ret. apply HQ; [|apply keeps_refl]. destruct C. by split.
  - apply wpp_bind. eapply wpp_mid_size; [done|]. pose proof (co_right _ _ _ _ _ _ _ _ _ C) as [Hh _].
    destruct (core_next_write _ _ _ _ _ _ _ _ (field t) C) as [C' K]. pose proof (ge_wf2 _ _ _ _ _ _ _ C) as [W ?]%Forall_cons.
    pose proof (ge_small _ _ _ _ _ _ _ C) as Hs. pose proof (ge_size _ _ _ _ _ _ _ C) as [? _]. simpl in Hs.
    assert (0 ≤ span ts2) by by apply span_nonneg. destruct (ge_spans C).
    eapply wpp_set_node_prev_size; [|by eapply core_half|exact Hh|by apply HQ]. eapply half_field; [done| |exact Hs]. lia.
Qed.

(** Joining the block in the middle with the free one after it and the free
    one before it. *)
Lemma around_next ts1 s sn ts2 : around a0 ts1 s (Tile sn false :: ts2) = around a0 ts1 (s + (sn + 8)) ts2.
Proof. unfold around. simpl. do 2 f_equal. lia. Qed.
Lemma around_prev ts1 sp s ts2 : around a0 (ts1 ++ [Tile sp false]) s ts2 = around a0 ts1 (sp + (s + 8)) ts2.
Proof. unfold around. rewrite used_blocks_app, span_app. simpl. rewrite app_nil_r. do 2 f_equal. lia. Qed.

Lemma core_join_next ts1 s pf sn ts2 fl m : core info a0 ts1 (Tile s false) pf (Tile sn false :: ts2) [] fl m →
  core info a0 ts1 (Tile (s + (sn + 8)) false) sn ts2 [mid ts1 + 8 + s + 8] fl (<[mid ts1 := header (s + (sn + 8)) (last_field 1 ts1)]> m) ∧
  keeps (around a0 ts1 s (Tile sn false :: ts2)) m (<[mid ts1 := header (s + (sn + 8)) (last_field 1 ts1)]> m).
Proof.
  intros C. pose proof (ge_spans C) as [? Hs2]. simpl in Hs2. pose proof (ge_size _ _ _ _ _ _ _ C) as [? D]. simpl in *.
  pose proof (ge_wf1 _ _ _ _ _ _ _ C) as W1. pose proof (ge_wf2 _ _ _ _ _ _ _ C) as [[W D'] W2]%Forall_cons. simpl in *.
  pose proof (span_nonneg _ W2). pose proof (co_right _ _ _ _ _ _ _ _ _ C) as [_ HR]. simpl in HR. rewrite field_free in HR.
  set (m' := <[mid ts1 := _]> m). assert (∀ y, y ≠ mid ts1 → m' !! y = m !! y) as Hm by (intros y Hy; apply lookup_insert_ne; lia).
  split; [split|].
  - destruct (co_geo _ _ _ _ _ _ _ _ _ C). simpl in *.
    split; simpl; try (done || lia || apply spaced_singleton).
    + split; [lia|]. apply Z.divide_add_r; [done|]. apply Z.divide_add_r; [done|by exists 1].
    + intros y ->%list_elem_of_singleton. lia.
    + rewrite ge_nodes0. rewrite Permutation_app_comm. simpl. apply perm_skip. rewrite Permutation_app_comm.
      replace (mid ts1 + 8 + (s + (sn + 8))) with (mid ts1 + 8 + s + 8 + sn) by lia. done.
  - eapply tiles_at_frame; [|apply C]. intros h Hh%(headers_in _ W1). apply Hm. lia.
  - unfold m'. rewrite field_free. apply lookup_insert_eq.
  - replace (mid ts1 + 8 + t_size (Tile (s + (sn + 8)) false)) with (mid ts1 + 8 + s + 8 + sn) by (simpl; lia).
    eapply tiles_at_frame; [|exact HR]. intros h Hh%(headers_in _ W2). apply Hm. simpl in *. lia.
  - eapply ring_frame; [|apply C]. intros y Hy. apply Hm. by apply (ge_link_word C).
  - simpl. replace (span ts1 + (8 + (s + (sn + 8)) + span ts2)) with (span ts1 + (8 + s + (8 + sn + span ts2))) by lia.
    apply insert_live, C.
  - intros b n y [Hb|Hb]%elem_of_app Hy; [apply used_blocks_in in Hb|apply used_blocks_in in Hb]; (apply C || apply Hm; lia).
Qed.

Lemma core_join_prev ts1 sp s pf ts2 fl m : core info a0 (ts1 ++ [Tile sp false]) (Tile s false) pf ts2 [] fl m →
  let m' := <[mid ts1 := header (sp + (s + 8)) (last_field 1 ts1)]> m in
  core info a0 ts1 (Tile (sp + (s + 8)) false) pf ts2 [mid ts1 + 8] fl m' ∧ keeps (around a0 (ts1 ++ [Tile sp false]) s ts2) m m'.
Proof.
  intros C m'. pose proof (ge_spans C) as [Hs1 ?]. rewrite span_app in Hs1. simpl in Hs1. pose proof (ge_size _ _ _ _ _ _ _ C) as [? D]. simpl in *.
  pose proof (ge_wf2 _ _ _ _ _ _ _ C) as W2. pose proof (ge_wf1 _ _ _ _ _ _ _ C) as [W1 [[W D'] _]%Forall_cons]%Forall_app. simpl in *.
  pose proof (span_nonneg _ W1). pose proof (co_left _ _ _ _ _ _ _ _ _ C) as [HL _]%tiles_at_app.
  assert (mid (ts1 ++ [Tile sp false]) + 8 + s = mid ts1 + 8 + (sp + (s + 8))) as Hend by (rewrite span_app; simpl; lia).
  assert (∀ y, y ≠ mid ts1 → m' !! y = m !! y) as Hm by (intros y Hy; apply lookup_insert_ne; lia).
  split; [split|].
  - destruct (co_geo _ _ _ _ _ _ _ _ _ C). rewrite !span_app in *. simpl in *.
    split; simpl; try (done || lia || apply spaced_singleton).
    + split; [lia|]. apply Z.divide_add_r; [done|]. apply Z.divide_add_r; [done|by exists 1].
    + intros y ->%list_elem_of_singleton. lia.
    + rewrite ge_nodes0, free_nodes_app. simpl. rewrite <-app_assoc. simpl. rewrite <-Permutation_middle.
      replace (mid ts1 + 8 + (sp + (s + 8))) with (a0 + (span ts1 + (8 + sp + 0)) + 8 + s) by lia. done.
  - eapply tiles_at_frame; [|exact HL]. intros h Hh%(headers_in _ W1). apply Hm. lia.
  - unfold m'. rewrite field_free. apply lookup_insert_eq.
  - simpl. rewrite <-Hend. eapply tiles_at_frame; [|apply C]. intros h Hh%(headers_in _ W2). apply Hm.
    rewrite span_app in Hh. simpl in *. lia.
  - eapply ring_frame; [|apply C]. intros y Hy. apply Hm. intros ->. destruct (ge_link_word C _ Hy) as (Hh & _).
    apply Hh. rewrite headers_app. simpl. set_solver.
  - pose proof (co_live _ _ _ _ _ _ _ _ _ C) as HLv. rewrite span_app in HLv. simpl in *. apply insert_live.
    replace (span ts1 + (8 + (sp + (s + 8)) + span ts2)) with (span ts1 + (8 + sp + 0) + (8 + s + span ts2)) by lia. done.
  - rewrite around_prev. intros b n y [Hb|Hb]%elem_of_app Hy; (apply used_blocks_in in Hb; [|done]); apply Hm; lia.
Qed.
End core.

(** ** The walk of the list *)

Definition size_of (m : words) (x : Z) : Z := match m !! (x - 8) with Some w => w mod 2 ^ 32 | None => 0 end.

Lemma ring_next m head f1 x f2 : node_ring m head (f1 ++ x :: f2) → ∃ y c, f2 ++ [head] = y :: c ∧ m !! (x + 8) = Some y.
Proof.
  unfold node_ring. rewrite <-app_assoc, app_comm_cons. simpl. intros [_ H]%(linked_app _ (head :: f1)).
  destruct (cons_view head f2) as (y & c & E). exists y, c. split; [done|]. rewrite E in H. apply H.
Qed.
Lemma ring_first m head fl : node_ring m head fl → ∃ y c, fl ++ [head] = y :: c ∧ m !! (head + 8) = Some y.
Proof.
  unfold node_ring. destruct (cons_view head fl) as (y & c & E). rewrite E. intros [[H _] _]. by exists y, c.
Qed.

Lemma wpp_first_fit fuel m head fl size node c (Q : Z → words → Prop) :
  node_ring m head fl → head ∉ fl → (∀ x, x ∈ fl → is_Some (m !! (x - 8))) → fl ++ [head] = node :: c → (length fl < fuel)%nat →
  ((∀ x, x ∈ fl → size_of m x < size) → Q head m) →
  (∀ f1 x f2, fl = f1 ++ x :: f2 → size ≤ size_of m x → Q x m) →
  wpp (first_fit fuel head size node) m Q.
Proof.
  intros HR Hh HL E Hf HQ1 HQ2.
  apply (wpp_ploop (λ n x s, s = m ∧ ∃ f1 f2 c, fl = f1 ++ f2 ∧ f2 ++ [head] = x :: c ∧ n = length f2 ∧ ∀ y, y ∈ f1 → size_of m y < size))
    with (n := length fl); [|split; [done|]; exists [], fl, c; split_and!; try done; set_solver|done].
  intros n x s (-> & f1 & f2 & c' & -> & E2 & -> & Hs). destruct f2 as [|y f2]; simpl in E2; injection E2 as -> E2.
  - rewrite Z.eqb_refl. apply wpp_ret. apply HQ1. intros y Hy. apply Hs. by rewrite app_nil_r in Hy.
  - destruct (Z.eqb_spec x head) as [->|_]; [exfalso; apply Hh; set_solver|].
    destruct (HL x) as [w Hw]; [set_solver|]. apply wpp_bind, wpp_bind. eapply wpp_rd64; [exact Hw|]. apply wpp_ret.
    assert (size_of m x = w mod 2 ^ 32) as Hsz by (unfold size_of; by rewrite Hw). rewrite <-Hsz.
    destruct (Z.leb_spec size (size_of m x)); [apply wpp_ret; by eapply HQ2|].
    destruct (ring_next _ _ _ _ _ HR) as (z & c2 & E3 & Hn). apply wpp_bind. eapply wpp_rd64; [exact Hn|]. apply wpp_ret.
    exists (length f2). split; [simpl; lia|]. split; [done|]. exists (f1 ++ [x]), f2, c2. split_and!; [by rewrite <-app_assoc|done|done|].
    intros u [Hu|Hu]%elem_of_app; [by apply Hs|]. apply list_elem_of_singleton in Hu. by subst.
Qed.

(** ** The state between calls *)

(** The tiles fill the arena, every header holds the size of its block and of
    the one before, and the list holds the free blocks. *)
Record arena (info : cavan_malloc_info) (a0 : Z) (ts : list tile) (fl : list Z) (m : words) : Prop := {
  ar_wf : Forall wf_tile ts;
  ar_last : mi_last info = a0 + span ts - 8;
  ar_small : span ts < 2 ^ 32;
  ar_aligned : (8 | a0);
  ar_head : mi_head info + 16 ≤ a0 ∨ a0 + span ts ≤ mi_head info;
  ar_tiles : tiles_at m a0 1 ts;
  ar_nodes : fl ≡ₚ free_nodes a0 ts;
  ar_ring : node_ring m (mi_head info) fl;
  ar_live : words_live m a0 (span ts) }.

(** No two free blocks are neighbours. *)
Definition coalesced (ts : list tile) : Prop := linked (λ t1 t2, t_used t1 || t_used t2 = true) ts.

Section arena.
Context {info : cavan_malloc_info} {a0 : Z}.
Implicit Types (m : words) (ts : list tile) (t : tile) (fl : list Z).
Local Abbreviation mid ts1 := (a0 + span ts1).
Local Abbreviation listed t x := (if t_used t then [] else [x]).

Lemma arena_core ts1 t ts2 fl m :
  arena info a0 (ts1 ++ t :: ts2) fl m ↔ core info a0 ts1 t (field t) ts2 (listed t (mid ts1 + 8)) fl m.
Proof.
  assert (fl ≡ₚ free_nodes a0 (ts1 ++ t :: ts2) ↔
    fl ≡ₚ listed t (mid ts1 + 8) ++ free_nodes a0 ts1 ++ free_nodes (mid ts1 + 8 + t_size t) ts2) as En.
  { rewrite free_nodes_app. simpl. destruct (t_used t); simpl; [done|]. by rewrite Permutation_middle. }
  split.
  - intros [W L S A H T N R V]. apply Forall_app in W as [W1 W2]. apply Forall_cons in W2 as [[W0 W0'] W2].
    rewrite span_app in *. simpl in *. apply tiles_at_app in T as [T1 [T0 T2]].
    split; try done. split; try done.
    + destruct (t_used t); [split; [constructor|set_solver]|apply spaced_singleton].
    + intros y Hy. destruct (t_used t); [set_solver|]. apply list_elem_of_singleton in Hy. lia.
    + by apply En.
  - intros [[W1 W2 W0 L S A H _ _ N] T1 T0 T2 R V]. split; rewrite ?span_app; simpl; try done.
    + apply Forall_app. split; [done|]. by apply Forall_cons.
    + apply tiles_at_app. done.
    + by apply En.
Qed.

Lemma used_blocks_core ts1 t ts2 :
  used_blocks a0 (ts1 ++ t :: ts2) ≡ₚ (if t_used t then [(mid ts1 + 8, t_size t)] else []) ++ around a0 ts1 (t_size t) ts2.
Proof. rewrite used_blocks_app. unfold around. simpl. destruct (t_used t); simpl; [by rewrite Permutation_middle|done]. Qed.
Lemma keeps_perm bs bs' m m' : bs ≡ₚ bs' → keeps bs m m' → keeps bs' m m'.
Proof. intros E K b n y Hb. apply (K b n). by rewrite E. Qed.
Lemma keeps_incl bs bs' m m' : bs' ⊆ bs → keeps bs m m' → keeps bs' m m'.
Proof. intros E K b n y Hb. apply (K b n). set_solver. Qed.

Lemma around_app ts1 ts s ts2 : around a0 ts1 s ts2 = used_blocks a0 ts1 ++ used_blocks (a0 + span ts1 + 8 + s) ts2.
Proof. done. Qed.

(** The size that a node of the list has. *)
Lemma arena_free ts fl m x : arena info a0 ts fl m → x ∈ fl →
  ∃ ts1 s ts2, ts = ts1 ++ Tile s false :: ts2 ∧ x = mid ts1 + 8 ∧ m !! (x - 8) = Some (header s (last_field 1 ts1)) ∧ size_of m x = s.
Proof.
  intros A Hx. rewrite (ar_nodes _ _ _ _ _ A) in Hx. apply free_node_tile in Hx as (ts1 & s & ts2 & -> & ->).
  exists ts1, s, ts2. apply arena_core in A. split; [done|split; [done|]]. unfold size_of. replace (mid ts1 + 8 - 8) with (mid ts1) by lia.
  pose proof (co_mid _ _ _ _ _ _ _ _ _ A) as Hm. pose proof (core_half _ _ _ _ _ _ _ A) as Hh. unfold field in Hm, Hh. simpl in Hm, Hh. rewrite Z.add_0_r in Hm, Hh.
  rewrite Hm. split; [done|]. by apply header_size.
Qed.
Lemma core_free ts1 t pf ts2 fl m x : core info a0 ts1 t pf ts2 [] fl m → x ∈ fl → is_Some (m !! (x - 8)).
Proof.
  intros C Hx. rewrite (ge_nodes _ _ _ _ _ _ _ C) in Hx. simpl in Hx. apply elem_of_app in Hx as [Hx|Hx].
  - apply free_node_tile in Hx as (u1 & s & u2 & E & ->). pose proof (co_left _ _ _ _ _ _ _ _ _ C) as HT. rewrite E in HT.
    apply tiles_at_app in HT as [_ [HT _]]. replace (mid u1 + 8 - 8) with (mid u1) by lia. by eexists.
  - apply free_node_tile in Hx as (u1 & s & u2 & E & ->). pose proof (co_right _ _ _ _ _ _ _ _ _ C) as HT. rewrite E in HT.
    apply tiles_at_app in HT as [_ [HT _]]. replace (mid ts1 + 8 + t_size t + span u1 + 8 - 8) with (mid ts1 + 8 + t_size t + span u1) by lia. by eexists.
Qed.
Lemma ring_fuel head fl m : node_ring m head fl → spaced (head :: fl) → (length fl < list_fuel m)%nat.
Proof.
  intros HR [Hn _]. apply NoDup_cons in Hn as [_ Hn]. apply Nat.lt_succ_r, nodup_le_size; [done|]. intros x (f1 & f2 & ->)%list_elem_of_split.
  destruct (snoc_view head f1) as (c & p & E). destruct (proj1 (ring_split m head f1 (x :: f2) c p x (f2 ++ [head]) E eq_refl) HR) as [_ [[_ H] _]].
  by eexists.
Qed.

(** ** Allocation *)

(** The bytes a request takes, header included. *)
Definition need (n : Z) : Z := Z.max 24 (n + 8).

Lemma core_split ts1 s pf ts2 fl m r q w : core info a0 ts1 (Tile s false) pf ts2 [mid ts1 + 8] fl m →
  s = r + (q + 8) → 16 ≤ r → (8 | r) → 16 ≤ q →
  let m' := <[mid ts1 + 8 + r := header q r]> (<[mid ts1 + 8 + r := w]> (<[mid ts1 := header r (last_field 1 ts1)]> m)) in
  core info a0 (ts1 ++ [Tile r false]) (Tile q false) pf ts2 [] fl m' ∧ keeps (around a0 ts1 s ts2) m m'.
Proof.
  intros C -> Hr Dr Hq m'. pose proof (ge_spans C) as [? ?]. pose proof (ge_size _ _ _ _ _ _ _ C) as [? D].
  pose proof (ge_wf1 _ _ _ _ _ _ _ C) as W1. pose proof (ge_wf2 _ _ _ _ _ _ _ C) as W2. simpl in *.
  assert (∀ y, y ≠ mid ts1 → y ≠ mid ts1 + 8 + r → m' !! y = m !! y) as Hm by (intros y ??; unfold m'; by rewrite !lookup_insert_ne by lia).
  assert (8 | q) as Dq by (apply (Z.divide_add_cancel_r 8 (r + 8)); [apply Z.divide_add_r; [done|by exists 1]|];
    replace (r + 8 + q) with (r + (q + 8)) by lia; done).
  assert (Forall wf_tile (ts1 ++ [Tile r false])) as W by (apply Forall_app; split; [done|]; by apply Forall_singleton).
  assert (mid (ts1 ++ [Tile r false]) = mid ts1 + 8 + r) as Emid by (rewrite span_app; simpl; lia).
  split; [split|].
  - destruct (co_geo _ _ _ _ _ _ _ _ _ C). simpl in *. split; rewrite ?Emid, ?span_app; simpl; try (done || lia).
    + split; [constructor|set_solver].
    + set_solver.
    + rewrite ge_nodes0, free_nodes_app. simpl. rewrite <-app_assoc. simpl. rewrite <-Permutation_middle.
      replace (mid ts1 + 8 + r + 8 + q) with (mid ts1 + 8 + (r + (q + 8))) by lia. done.
  - apply tiles_at_app. split; [|split; [|done]].
    + eapply tiles_at_frame; [|apply C]. intros h Hh%(headers_in _ W1). apply Hm; lia.
    + unfold m'. rewrite field_free, !lookup_insert_ne by lia. apply lookup_insert_eq.
  - rewrite Emid. rewrite last_field_app. unfold m', field. simpl. rewrite !Z.add_0_r. rewrite field_free. apply lookup_insert_eq.
  - rewrite Emid. simpl. replace (mid ts1 + 8 + r + 8 + q) with (mid ts1 + 8 + (r + (q + 8))) by lia.
    eapply tiles_at_frame; [|apply C]. simpl. intros h Hh%(headers_in _ W2). apply Hm; lia.
  - eapply ring_frame; [|apply C]. intros y (x & Hx & Hy). pose proof (ge_nodes _ _ _ _ _ _ _ C) as Hn. rewrite Hn in Hx.
    pose proof (ge_head _ _ _ _ _ _ _ C) as Hh. simpl in Hh.
    assert (y ≠ mid ts1 ∧ y ≠ mid ts1 + 8 + r) as [??]; [|by apply Hm].
    apply elem_of_cons in Hx as [->|[Hx|[Hx|Hx]%elem_of_app]%elem_of_app]; [lia|apply list_elem_of_singleton in Hx; lia| |];
      apply free_nodes_in in Hx; (done || simpl in *; lia).
  - unfold m'. do 3 apply insert_live. pose proof (co_live _ _ _ _ _ _ _ _ _ C) as HV. rewrite span_app. simpl in *.
    replace (span ts1 + (8 + r + 0) + (8 + q + span ts2)) with (span ts1 + (8 + (r + (q + 8)) + span ts2)) by lia. done.
  - intros b n y [Hb|Hb]%elem_of_app Hy; (apply used_blocks_in in Hb; [|done]); apply Hm; lia.
Qed.

Lemma wpp_hand_out ts1 s pf ts2 fl m (Q : Z → words → Prop) :
  core info a0 ts1 (Tile s false) pf ts2 [] fl m →
  (∀ m', arena info a0 (ts1 ++ Tile s true :: ts2) fl m' → keeps (around a0 ts1 s ts2) m m' → Q (mid ts1 + 8) m') →
  wpp (near_next ← cavan_malloc_get_next_near (mid ts1);
       s ← node_size (mid ts1);
       set_node_size (mid ts1) (Z.lor s CAVAN_NODE_ALLOCATED_MASK);;
       set_near_next info near_next (mid ts1);;
       mret (mid ts1 + NODE_OFFSET)) m Q.
Proof.
  intros C HQ. pose proof (ge_size _ _ _ _ _ _ _ C) as [_ [k Hk]]. simpl in Hk.
  apply wpp_bind. eapply wpp_next_near; [done|]. apply wpp_bind. eapply wpp_mid_size; [done|].
  apply wpp_bind. eapply (wpp_set_mid _ _ (Tile s true)); [done|done| |].
  { unfold field. simpl. rewrite Z.add_0_r, set_used; [done|]. rewrite Hk. by rewrite Z.even_mul, orb_true_r. }
  intros m1 C1 K1. apply wpp_bind. eapply wpp_fix_next; [|exact C1|]; [done|]. intros m2 C2 K2. apply wpp_ret.
  apply HQ; [by apply arena_core|]. by eapply keeps_trans.
Qed.

Lemma coalesced_split ts1 s q ts2 : coalesced (ts1 ++ Tile s false :: ts2) →
  coalesced (ts1 ++ Tile q true :: ts2) ∧ ∀ r, coalesced ((ts1 ++ [Tile r false]) ++ Tile q true :: ts2).
Proof.
  unfold coalesced. intros [H1 H2]%linked_app.
  assert (linked (λ t1 t2, t_used t1 || t_used t2 = true) (Tile q true :: ts2)) as H3 by (destruct ts2; [done|]; split; [done|apply H2]).
  split; [apply linked_app; split; [|done]|intros r; rewrite <-app_assoc; simpl; apply linked_app; split; [|done]].
  all: clear H3; induction ts1 as [|t ts1 IH]; [done|]; destruct ts1 as [|u ts1]; simpl in *;
    [destruct (t_used t); naive_solver|split; [apply H1|]; apply IH; [apply H1]].
Qed.

(** Making a block of the free one that was found. *)
Lemma wpp_carve ts1 s ts2 fl m n :
  core info a0 ts1 (Tile s false) s ts2 [mid ts1 + 8] fl m → coalesced (ts1 ++ Tile s false :: ts2) → need n ≤ s →
  let r := CAVAN_SIZE_WORD_ALIGN_DOWN (s - need n) in r ≠ 8 →
  wpp (if 0 <? r then
         s ← node_size (mid ts1);
         let size := s - r in
         set_node_size (mid ts1) r;;
         let alloc_node := cavan_malloc_get_next_near_base (mid ts1 + 8) r in
         set_node_size alloc_node (cavan_malloc_get_available_size size);;
         set_node_prev_size alloc_node r;;
         mret alloc_node
       else link_remove_base (mid ts1 + 8);; mret (mid ts1)) m (λ alloc m', ∃ tsa q pf fl',
    alloc = mid tsa ∧ core info a0 tsa (Tile q false) pf ts2 [] fl' m' ∧ n ≤ q ∧ coalesced (tsa ++ Tile q true :: ts2) ∧
    span tsa + q = span ts1 + s ∧ around a0 tsa q ts2 = around a0 ts1 s ts2 ∧ keeps (around a0 ts1 s ts2) m m').
Proof.
  intros C HC Hfit r Hr8. pose proof (align_down (s - need n)) as Er. fold r in Er.
  pose proof (ge_size _ _ _ _ _ _ _ C) as [Hs [k Hk]]. simpl in Hs, Hk. assert (24 ≤ need n ∧ n + 8 ≤ need n) as [H24 Hn] by (unfold need; lia).
  assert (8 * ((s - need n) / 8) ≤ s - need n < 8 * ((s - need n) / 8) + 8) as Hdiv by dlia.
  destruct (Z.ltb_spec 0 r) as [Hr|Hr].
  - apply wpp_bind. eapply wpp_mid_size; [done|]. rewrite field_free. cbv beta zeta. set (q := s - r - 8).
    assert (s = r + (q + 8)) as Es by (unfold q; lia). assert (16 ≤ r) by lia. assert (16 ≤ q) by (unfold q; lia).
    assert (8 | r) as Dr by (exists ((s - need n) / 8); lia).
    assert (cavan_malloc_get_available_size (s - r) = q) as ->.
    { unfold cavan_malloc_get_available_size, SIZEOF_MALLOC_NODE, NODE_OFFSET. destruct (Z.ltb_spec (s - r) 24); [lia|].
      rewrite align_down. unfold q. replace (s - r - 8) with ((k - (s - need n) / 8 - 1) * 8) by lia. rewrite Z.div_mul by lia. lia. }
    pose proof (core_half _ _ _ _ _ _ _ C) as Hh. unfold field, half in Hh. simpl in Hh.
    pose proof (co_mid _ _ _ _ _ _ _ _ _ C) as Hm. rewrite field_free in Hm.
    apply wpp_bind. eapply (wpp_set_node_size _ _ s _ r); [unfold half; lia|unfold half; lia|exact Hm|].
    unfold cavan_malloc_get_next_near_base. assert (is_Some (m !! (mid ts1 + 8 + r))) as [w Hw].
    { apply (co_live _ _ _ _ _ _ _ _ _ C); simpl; [destruct (ge_spans C); lia|]. repeat apply Z.divide_add_r; try done; [apply C|apply span_aligned, C]. }
    destruct (any_header w) as (sw & pw & Hsw & ->).
    apply wpp_bind. eapply (wpp_set_node_size _ _ sw pw q); [done|unfold half; lia|by rewrite lookup_insert_ne by lia|].
    apply wpp_bind. eapply (wpp_set_node_prev_size _ _ q pw r); [unfold half; lia|unfold half; lia|by rewrite lookup_insert_eq|]. apply wpp_ret.
    destruct (core_split _ _ _ _ _ _ r q (header q pw) C) as [C' K]; [done..|].
    exists (ts1 ++ [Tile r false]), q, s, fl. split_and!; [rewrite span_app; simpl; lia|done|unfold q; lia|by eapply coalesced_split| | |done].
    + rewrite span_app. simpl. lia.
    + rewrite around_prev. f_equal. lia.
  - apply wpp_bind. eapply wpp_take; [done|]. intros fl' m' C' K. apply wpp_ret.
    exists ts1, s, s, fl'. split_and!; try done; [lia|by eapply coalesced_split].
Qed.

Lemma cavan_malloc_base_ok ts fl m n :
  arena info a0 ts fl m → coalesced ts → 0 < a0 → 0 ≤ n < 2 ^ 64 - 8 →
  (∀ s, Tile s false ∈ ts → need n ≤ s → CAVAN_SIZE_WORD_ALIGN_DOWN (s - need n) ≠ 8) →
  wpp (cavan_malloc_base info n) m (λ b m', ∃ ts' fl',
    arena info a0 ts' fl' m' ∧ coalesced ts' ∧ span ts' = span ts ∧ keeps (used_blocks a0 ts) m m' ∧
    if b =? 0 then ts' = ts ∧ m' = m ∧ ∀ s, Tile s false ∈ ts → s < need n
    else ∃ sz, n ≤ sz ∧ used_blocks a0 ts' ≡ₚ (b, sz) :: used_blocks a0 ts).
Proof.
  intros A HC Ha Hn Hroom. unfold cavan_malloc_base, NODE_OFFSET, SIZEOF_MALLOC_NODE, node_next. rewrite wrap_small by lia.
  assert ((if n + 8 <? 24 then 24 else n + 8) = need n) as -> by (unfold need; destruct (Z.ltb_spec (n + 8) 24); lia).
  destruct (ring_first _ _ _ (ar_ring _ _ _ _ _ A)) as (y & c & Ey & Hy).
  assert (spaced (mi_head info :: fl)) as Hap.
  { apply (spaced_app [_]); [apply spaced_singleton|rewrite (ar_nodes _ _ _ _ _ A); apply free_nodes_apart, A|].
    intros x z ->%list_elem_of_singleton Hz. rewrite (ar_nodes _ _ _ _ _ A) in Hz. apply free_nodes_in in Hz; [|apply A].
    pose proof (ar_head _ _ _ _ _ A). lia. }
  apply wpp_bind. eapply wpp_rd64; [exact Hy|]. wpp_go.
  eapply wpp_first_fit; [apply A| | |exact Ey|eapply ring_fuel; [apply A|done]| |].
  - destruct Hap as [Hnd _]. by apply NoDup_cons in Hnd as [? _].
  - intros x Hx. destruct (arena_free _ _ _ _ A Hx) as (? & ? & ? & _ & _ & E & _). by eexists.
  - intros Hsm. rewrite Z.eqb_refl. apply wpp_ret. exists ts, fl. split_and!; try done. simpl. split_and!; [done|done|].
    intros s (ts1 & ts2 & ->)%list_elem_of_split. assert (mid ts1 + 8 ∈ fl) as Hin.
    { rewrite (ar_nodes _ _ _ _ _ A), free_nodes_app. simpl. set_solver. }
    specialize (Hsm _ Hin). apply arena_core in A. pose proof (core_half _ _ _ _ _ _ _ A) as Hh. pose proof (co_mid _ _ _ _ _ _ _ _ _ A) as Hm.
    unfold size_of in Hsm. replace (mid ts1 + 8 - 8) with (mid ts1) in Hsm by lia. rewrite Hm, header_size in Hsm by done. unfold field in Hsm. simpl in Hsm. lia.
  - intros f1 x f2 -> Hfit. assert (x ∈ f1 ++ x :: f2) as Hx by set_solver.
    destruct (Z.eqb_spec x (mi_head info)) as [->|_]; [destruct Hap as [Hnd _]; apply NoDup_cons in Hnd as [? _]; done|].
    destruct (arena_free _ _ _ _ A Hx) as (ts1 & s & ts2 & -> & -> & _ & Hs). rewrite Hs in Hfit.
    specialize (Hroom s). assert (Tile s false ∈ ts1 ++ Tile s false :: ts2) as Hin by set_solver. specialize (Hroom Hin Hfit).
    pose proof (used_blocks_core ts1 (Tile s false) ts2) as HU. simpl in HU.
    replace (mid ts1 + 8 - 8) with (mid ts1) by lia.
    destruct (coalesced_split _ _ s _ HC) as [HC1 _]. pose proof A as A0. apply arena_core in A0. simpl in A0. rewrite field_free in A0.
    apply wpp_bind. eapply wpp_mid_size; [exact A0|]. rewrite field_free. apply wpp_bind.
    eapply wpp_mono; [by apply (wpp_carve ts1 s ts2 (f1 ++ mid ts1 + 8 :: f2) m n)|]. intros alloc m1 (tsa & q & pf & fl' & -> & C & Hq & HCs & Hsp & Har & K).
    eapply wpp_hand_out; [exact C|]. intros m2 A2 K2. exists (tsa ++ Tile q true :: ts2), fl'. destruct (ge_spans C).
    split_and!; [done|done|rewrite !span_app; simpl; lia| |].
    + eapply keeps_perm; [symmetry; exact HU|]. eapply keeps_trans; [exact K|]. by rewrite <-Har.
    + destruct (Z.eqb_spec (mid tsa + 8) 0); [lia|]. exists q. split; [done|]. rewrite used_blocks_core, HU. simpl. by rewrite Har.
Qed.

(** ** Release *)

Lemma even_field t : wf_tile t → Z.even (field t) = negb (t_used t).
Proof.
  intros [_ [k Hk]]. unfold field. rewrite Hk, Z.even_add, Z.even_mul, orb_true_r. by destruct (t_used t).
Qed.
Lemma coalesced_app ts1 ts2 : coalesced (ts1 ++ ts2) → coalesced ts1 ∧ coalesced ts2.
Proof.
  unfold coalesced. induction ts1 as [|t ts1 IH]; [done|]. simpl. destruct ts1 as [|u ts1]; simpl.
  - destruct ts2; [done|]. by intros [? ?].
  - intros [H1 H2]. destruct (IH H2). done.
Qed.
Lemma coalesced_join ts1 t ts2 : coalesced ts1 → coalesced ts2 →
  (∀ u x, ts1 = u ++ [x] → t_used x = true) → (∀ x u, ts2 = x :: u → t_used x = true) → coalesced (ts1 ++ t :: ts2).
Proof.
  intros H1 H2 W1 W2. apply linked_app. split.
  - clear H2 W2. induction ts1 as [|x ts1 IH]; [done|]. destruct ts1 as [|y ts1].
    + split; [|done]. by rewrite (W1 [] x eq_refl).
    + destruct H1 as [H1 H1']. split; [done|]. apply IH; [done|]. intros u z E. apply (W1 (x :: u) z). simpl. by rewrite E.
  - destruct ts2 as [|x ts2]; [done|]. split; [|done]. by rewrite (W2 x ts2 eq_refl), orb_true_r.
Qed.

Lemma join_prev_ok ts1 s pf ts2 fl m :
  core info a0 ts1 (Tile s false) pf ts2 [] fl m → coalesced ts1 →
  wpp (join_prev (mid ts1)) m (λ x m', ∃ ts1' s' fl',
    x = mid ts1' ∧ core info a0 ts1' (Tile s' false) pf ts2 [] fl' m' ∧ around a0 ts1' s' ts2 = around a0 ts1 s ts2 ∧
    keeps (around a0 ts1 s ts2) m m' ∧ span ts1' + s' = span ts1 + s ∧ coalesced ts1' ∧
    ∀ u t, ts1' = u ++ [t] → t_used t = true).
Proof.
  intros C HC. pose proof (core_half _ _ _ _ _ _ _ C) as Hs. rewrite field_free in Hs. pose proof (co_mid _ _ _ _ _ _ _ _ _ C) as Hm. rewrite field_free in Hm.
  assert (∀ (b : bool), Z.even (last_field 1 ts1) = b → b = false → (∀ u t, ts1 = u ++ [t] → t_used t = true)) as Hwall.
  { intros b Hb -> u t ->. rewrite last_field_app in Hb. simpl in Hb. rewrite even_field in Hb; [revert Hb; by destruct (t_used t)|].
    pose proof (ge_wf1 _ _ _ _ _ _ _ C) as [_ [W _]%Forall_cons]%Forall_app. exact W. }
  apply wpp_bind. eapply wpp_node_prev_size; [exact Hs|exact Hm|]. rewrite is_free_even. destruct (Z.even (last_field 1 ts1)) eqn:Ee.
  - destruct (exists_last (l := ts1)) as (u & [sp b] & ->); [by intros ->|].
    rewrite last_field_app in Ee. simpl in Ee. pose proof (ge_wf1 _ _ _ _ _ _ _ C) as [W1 [W _]%Forall_cons]%Forall_app.
    rewrite even_field in Ee by done. simpl in Ee. destruct b; [done|].
    pose proof (co_left _ _ _ _ _ _ _ _ _ C) as [_ [Hp _]]%tiles_at_app. rewrite field_free in Hp.
    destruct (core_join_prev _ _ _ _ _ _ _ C) as [C' K].
    assert (half sp) as Hsp by (pose proof (ge_small _ _ _ _ _ _ _ C); destruct (ge_spans C), (ge_size _ _ _ _ _ _ _ C), W; rewrite span_app in *; pose proof (span_nonneg _ W1); unfold half; simpl in *; lia).
    pose proof (core_half _ _ _ _ _ _ _ C') as Hj. rewrite field_free in Hj.
    rewrite last_field_app in Hm. simpl in Hm. rewrite field_free in Hm.
    unfold cavan_malloc_get_prev_near, NODE_OFFSET. wpp_go.
    eapply wpp_node_prev_size; [exact Hs|exact Hm|]. wpp_go.
    replace (mid (u ++ [Tile sp false]) - sp - 8) with (mid u) by (rewrite span_app; simpl; lia).
    eapply wpp_node_size; [exact Hsp|exact Hp|]. wpp_go. eapply wpp_node_size; [exact Hs|exact Hm|]. wpp_go.
    eapply wpp_set_node_size; [exact Hsp|exact Hj|exact Hp|]. wpp_go.
    eapply wpp_take; [exact C'|]. intros fl' m' C2 K2. apply wpp_ret. exists u, (sp + (s + 8)), fl'.
    split_and!; [done|done|by rewrite around_prev| |rewrite span_app; simpl; lia|by apply coalesced_app in HC as [? _]|].
    + eapply keeps_trans; [exact K|]. rewrite around_prev. exact K2.
    + intros v t ->. rewrite <-app_assoc in HC. apply coalesced_app in HC as [_ [HC _]]. simpl in HC. by rewrite orb_false_r in HC.
  - apply wpp_ret. exists ts1, s, fl. split_and!; try done. by eapply Hwall.
Qed.

Lemma join_next_ok ts1 s pf ts2 fl m :
  core info a0 ts1 (Tile s false) pf ts2 [] fl m → coalesced ts2 →
  wpp (join_next info (mid ts1)) m (λ _ m', ∃ s' ts2' fl',
    core info a0 ts1 (Tile s' false) s' ts2' [] fl' m' ∧ around a0 ts1 s' ts2' = around a0 ts1 s ts2 ∧
    keeps (around a0 ts1 s ts2) m m' ∧ s' + span ts2' = s + span ts2 ∧ coalesced ts2' ∧
    ∀ t u, ts2' = t :: u → t_used t = true).
Proof.
  intros C HC. pose proof (before_last _ _ _ _ _ _ _ C) as Hlast. simpl in Hlast.
  apply wpp_bind. eapply wpp_next_near; [exact C|]. rewrite Hlast. destruct ts2 as [|[sn b] ts2].
  - apply wpp_ret. exists s, [], fl. split_and!; try done. destruct C. split; done.
  - pose proof (co_right _ _ _ _ _ _ _ _ _ C) as [Hn _]. simpl in Hn. pose proof (ge_wf2 _ _ _ _ _ _ _ C) as [W W2]%Forall_cons.
    assert (half (field (Tile sn b))) as Hsn.
    { eapply half_field; [done| |apply (ge_small _ _ _ _ _ _ _ C)]. pose proof (span_nonneg _ W2). destruct (ge_spans C), (ge_size _ _ _ _ _ _ _ C). simpl in *. lia. }
    apply wpp_bind. eapply wpp_node_size; [exact Hsn|exact Hn|]. rewrite is_free_even, even_field by done. simpl. destruct b; simpl.
    + pose proof (wpp_fix_next ts1 (Tile s false) pf (Tile sn true :: ts2) [] fl m (mid ts1 + 8 + s)
        (λ _ m', core info a0 ts1 (Tile s false) s (Tile sn true :: ts2) [] fl m' ∧ keeps (around a0 ts1 s (Tile sn true :: ts2)) m m') eq_refl C) as HF.
      unfold set_near_next in HF. rewrite Hlast in HF. eapply wpp_mono; [apply HF|].
      * intros m' C' K. rewrite field_free in C'. done.
      * intros _ m' [C' K]. exists s, (Tile sn true :: ts2), fl. split_and!; try done. by intros t u [= <- _].
    + rewrite field_free in Hsn, Hn. destruct (core_join_next _ _ _ _ _ _ _ C) as [C' K].
      pose proof (core_half _ _ _ _ _ _ _ C) as Hs. rewrite field_free in Hs. pose proof (co_mid _ _ _ _ _ _ _ _ _ C) as Hm. rewrite field_free in Hm.
      pose proof (core_half _ _ _ _ _ _ _ C') as Hj. rewrite field_free in Hj. unfold NODE_OFFSET.
      wpp_go. eapply wpp_node_size; [exact Hs|exact Hm|]. wpp_go. eapply wpp_node_size; [exact Hsn|exact Hn|]. wpp_go.
      eapply wpp_set_node_size; [exact Hs|exact Hj|exact Hm|]. wpp_go. eapply wpp_take; [exact C'|]. intros fl' m2 C2 K2.
      wpp_go. eapply wpp_next_near; [exact C2|]. eapply wpp_fix_next; [|exact C2|]; [done|]. intros m3 C3 K3. rewrite field_free in C3.
      exists (s + (sn + 8)), ts2, fl'. split_and!; [done|by rewrite around_next| |simpl; lia|by apply (coalesced_app [_]) in HC as [_ ?]|].
      * eapply keeps_trans; [exact K|]. rewrite around_next. by eapply keeps_trans.
      * intros t u ->. destruct HC as [HC _]. simpl in HC. done.
Qed.

(** Putting the block into the list before the first one that is as large. *)
Lemma wpp_list ts1 s ts2 fl m (Q : unit → words → Prop) :
  core info a0 ts1 (Tile s false) s ts2 [] fl m →
  (∀ fl' m', arena info a0 (ts1 ++ Tile s false :: ts2) fl' m' → keeps (around a0 ts1 s ts2) m m' → Q tt m') →
  wpp (size ← node_size (mid ts1);
       node ← rd64 (node_next (mi_head info));
       fuel ← reads list_fuel;
       node ← first_fit fuel (mi_head info) size node;
       link_insert_base2 node (mid ts1 + NODE_OFFSET)) m Q.
Proof.
  intros C HQ. destruct (ring_first _ _ _ (co_ring _ _ _ _ _ _ _ _ _ C)) as (y & c & Ey & Hy). pose proof (ge_all_apart C) as Hap.
  assert (∀ f1 f2 next c2, fl = f1 ++ f2 → f2 ++ [mi_head info] = next :: c2 → wpp (link_insert_base2 next (mid ts1 + NODE_OFFSET)) m Q) as Hput.
  { intros f1 f2 next c2 -> E. eapply wpp_put; [exact C|exact E|]. intros fl' m' C' K. apply HQ with fl'; [|done].
    apply arena_core. by rewrite field_free. }
  apply wpp_bind. eapply wpp_mid_size; [exact C|]. apply wpp_bind. eapply wpp_rd64; [exact Hy|]. wpp_go.
  eapply wpp_first_fit; [apply C| | |exact Ey|eapply ring_fuel; [apply C|done]| |].
  - destruct Hap as [Hn _]. by apply NoDup_cons in Hn as [? _].
  - intros x Hx. by eapply core_free.
  - intros _. apply (Hput fl [] (mi_head info) []); [by rewrite app_nil_r|done].
  - intros f1 x f2 E _. by eapply (Hput f1 (x :: f2)).
Qed.

Lemma cavan_free_base_ok ts fl m b n :
  arena info a0 ts fl m → coalesced ts → (b, n) ∈ used_blocks a0 ts →
  wpp (cavan_free_base info b) m (λ _ m', ∃ ts' fl',
    arena info a0 ts' fl' m' ∧ coalesced ts' ∧ span ts' = span ts ∧
    used_blocks a0 ts ≡ₚ (b, n) :: used_blocks a0 ts' ∧ keeps (used_blocks a0 ts') m m').
Proof.
  intros A HC Hb. apply used_block_tile in Hb as (ts1 & ts2 & -> & ->). pose proof A as C. apply arena_core in C. simpl in C.
  pose proof (used_blocks_core ts1 (Tile n true) ts2) as HU. simpl in HU. pose proof (ge_size _ _ _ _ _ _ _ C) as [_ [k Hk]]. simpl in Hk.
  apply coalesced_app in HC as [HC1 HC2]. apply (coalesced_app [_]) in HC2 as [_ HC2].
  unfold cavan_free_base, NODE_OFFSET. cbv zeta. replace (mid ts1 + 8 - 8) with (mid ts1) by lia.
  apply wpp_bind. eapply wpp_mid_size; [exact C|]. apply wpp_bind. eapply (wpp_set_mid _ _ (Tile n false)); [exact C|done| |].
  { rewrite field_free. apply real_size. rewrite Hk. by rewrite Z.even_mul, orb_true_r. }
  intros m1 C1 K1. apply wpp_bind. eapply wpp_mono; [by apply (join_prev_ok _ _ _ _ _ _ C1)|].
  intros x m2 (ts1' & s' & fl2 & -> & C2 & A2 & K2 & S2 & HCa & Wa).
  apply wpp_bind. eapply wpp_mono; [by apply (join_next_ok _ _ _ _ _ _ C2)|].
  intros [] m3 (s'' & ts2' & fl3 & C3 & A3 & K3 & S3 & HCb & Wb).
  eapply wpp_list; [exact C3|]. intros fl4 m4 A4 K4. exists (ts1' ++ Tile s'' false :: ts2'), fl4.
  pose proof (used_blocks_core ts1' (Tile s'' false) ts2') as HU'. simpl in HU'. rewrite A3, A2 in HU'.
  split_and!; [done|by apply coalesced_join|rewrite !span_app; simpl; lia|by rewrite HU'|].
  eapply keeps_perm; [symmetry; exact HU'|]. simpl in K1. rewrite A2 in K3. rewrite A3, A2 in K4.
  do 3 (eapply keeps_trans; [eassumption|]). done.
Qed.
End arena.

(** ** What the allocator promises *)

(** A call of a client. *)
Inductive call : Type := Malloc (n : Z) | Free (b : Z).
Definition run_call (info : cavan_malloc_info) (c : call) : prog words Z :=
  match c with Malloc n => cavan_malloc_base info n | Free b => cavan_free_base info b;; mret 0 end.

(** Requests that do not leave a free block of eight bytes, too small for its
    node, and releases of blocks that were handed out. *)
Definition allowed (a0 : Z) (ts : list tile) (c : call) : Prop :=
  match c with
  | Malloc n => 0 ≤ n < 2 ^ 64 - 8 ∧ ∀ s, Tile s false ∈ ts → need n ≤ s → CAVAN_SIZE_WORD_ALIGN_DOWN (s - need n) ≠ 8
  | Free b => ∃ n, (b, n) ∈ used_blocks a0 ts
  end.

(** The payloads, in the order of their addresses, do not overlap. *)
Definition blocks_apart (bs : list (Z * Z)) : Prop := StronglySorted (λ x y, x.1 + x.2 ≤ y.1) bs.

Lemma used_blocks_apart ts : Forall wf_tile ts → ∀ a, blocks_apart (used_blocks a ts).
Proof.
  induction 1 as [|t ts [? _] Hw IH]; intros a; simpl; [constructor|]. destruct (t_used t); simpl; [|apply IH]. constructor; [apply IH|].
  apply Forall_forall. intros [b n] Hb%(used_blocks_in _ Hw). simpl. lia.
Qed.
Lemma all_free ts : coalesced ts → (∀ a, used_blocks a ts = []) → ts = [] ∨ ts = [Tile (span ts - 8) false].
Proof.
  intros HC HU. destruct ts as [|[s b] ts]; [by left|right]. specialize (HU 0). simpl in HU. destruct b; [done|].
  destruct ts as [|[s' b'] ts]; simpl in *; [|destruct HC as [HC _]; simpl in HC; by subst b'].
  replace (8 + s + 0 - 8) with s by lia. done.
Qed.
Lemma used_blocks_nil ts a a' : used_blocks a ts = [] → used_blocks a' ts = [].
Proof. revert a a'. induction ts as [|[s []] ts IH]; intros a a'; simpl; [done|done|apply IH]. Qed.

(** C1: Every [allowed] call keeps the arena.  Allowed are releases of blocks
    that were handed out and not released since, and requests for less than
    2^64 - 8 bytes for which no free block that is large enough leaves a rest of
    exactly eight bytes: the code makes such a rest a free block although its
    node does not fit, and loses the list (malloc.c:113;
    [request_that_leaves_eight_bytes] runs it).  After the call the blocks cover
    the arena, no two free ones are neighbours, every header holds the sizes of its block and of the one
    before, and the ring of nodes holds the free blocks.  A request answers a
    block of at least its size that overlaps no other, and NULL only when no
    free block fits, changing nothing; a release takes exactly its block away.
    The contents of the blocks still in use do not change, and when none is in
    use the arena is one free block again. *)
Theorem malloc_and_free_keep_the_arena info a0 ts fl m c :
  arena info a0 ts fl m → coalesced ts → 0 < a0 → ts ≠ [] → allowed a0 ts c →
  wpp (run_call info c) m (λ r m', ∃ ts' fl',
    arena info a0 ts' fl' m' ∧ coalesced ts' ∧ span ts' = span ts ∧ blocks_apart (used_blocks a0 ts') ∧
    (used_blocks a0 ts' = [] → ts' = [Tile (span ts - 8) false]) ∧
    match c with
    | Malloc n =>
        keeps (used_blocks a0 ts) m m' ∧
        if r =? 0 then ts' = ts ∧ m' = m ∧ ∀ s, Tile s false ∈ ts → s < need n
        else ∃ sz, n ≤ sz ∧ used_blocks a0 ts' ≡ₚ (r, sz) :: used_blocks a0 ts
    | Free b => keeps (used_blocks a0 ts') m m' ∧ ∃ n, used_blocks a0 ts ≡ₚ (b, n) :: used_blocks a0 ts'
    end).
Proof.
  intros A HC Ha Hne Hall.
  assert (0 < span ts) as Hpos.
  { destruct ts as [|t ts]; [done|]. pose proof (ar_wf _ _ _ _ _ A) as [[? _] ?%span_nonneg]%Forall_cons. simpl. lia. }
  assert (∀ ts', coalesced ts' → span ts' = span ts → used_blocks a0 ts' = [] → ts' = [Tile (span ts - 8) false]) as Hone.
  { intros ts' HC' Hs HU. destruct (all_free ts' HC') as [E|E]; [intros a; by eapply used_blocks_nil|subst; simpl in Hs; lia|].
    by rewrite <-Hs. }
  destruct c as [n|b]; simpl in Hall |- *.
  - destruct Hall as [Hn Hroom]. eapply wpp_mono; [by eapply cavan_malloc_base_ok|].
    intros r m' (ts' & fl' & A' & HC' & Hs & K & HR). exists ts', fl'. split_and!; [done|done|done|apply used_blocks_apart, A'|by apply Hone|done|done].
  - destruct Hall as [n Hb]. apply wpp_bind. eapply wpp_mono; [by eapply cavan_free_base_ok|].
    intros [] m' (ts' & fl' & A' & HC' & Hs & HU & K). apply wpp_ret. exists ts', fl'.
    split_and!; [done|done|done|apply used_blocks_apart, A'|by apply Hone|done|by exists n].
Qed.

Lemma live_check m a n : (8 | a) → 0 ≤ n → check_below (Z.to_nat ((n + 7) / 8)) (λ k, bool_decide (is_Some (m !! (a + 8 * k)))) = true → words_live m a n.
Proof.
  intros [j ->] Hn Hc y Hy [k ->]. apply (check_below_ok _ _ (k - j)) in Hc; [|rewrite Z2Nat.id; dlia].
  apply bool_decide_eq_true_1 in Hc. by replace (k * 8) with (j * 8 + 8 * (k - j)) by lia.
Qed.

(** A store of [n] words from address 8 on; the list head is at its start. *)
Definition words_from_8 (n : nat) : words := list_to_map ((λ k, (8 + 8 * Z.of_nat k, 0)) <$> seq 0 n).
Definition info_at_8 : cavan_malloc_info := {| mi_buff := 0; mi_size := 0; mi_head := 8; mi_last := 0 |}.

Lemma malloc_and_free_keep_the_arena_witness :
  let info := {| mi_buff := 60; mi_size := 100; mi_head := 8; mi_last := 152 |} in
  let ts := [Tile 24 true; Tile 56 false] in
  let m := <[8 := 104]> (<[16 := 104]> (<[64 := header 25 1]> (<[96 := header 56 25]> (<[104 := 8]> (<[112 := 8]> (words_from_8 20)))))) in
  wpp (run_call info (Malloc 16)) m (λ r m', ∃ ts' fl',
    arena info 64 ts' fl' m' ∧ coalesced ts' ∧ span ts' = span ts ∧ blocks_apart (used_blocks 64 ts') ∧
    (used_blocks 64 ts' = [] → ts' = [Tile (span ts - 8) false]) ∧
    keeps (used_blocks 64 ts) m m' ∧
    if r =? 0 then ts' = ts ∧ m' = m ∧ ∀ s, Tile s false ∈ ts → s < need 16
    else ∃ sz, 16 ≤ sz ∧ used_blocks 64 ts' ≡ₚ (r, sz) :: used_blocks 64 ts).
Proof.
  intros info ts m. apply (malloc_and_free_keep_the_arena info 64 ts [104] m (Malloc 16)).
  - split; [|done|done|by exists 8|left; done| |done| |].
    + repeat constructor; simpl; first [lia|by exists 3|by exists 7].
    + by vm_compute.
    + by vm_compute.
    + apply live_check; [by exists 8|done|by vm_compute].
  - done.
  - done.
  - done.
  - split; [done|]. intros s Hs Hn. apply elem_of_cons in Hs as [[=]|Hs]. apply list_elem_of_singleton in Hs as [= ->]. by vm_compute.
Defined.

(** *** The first state *)


(** A buffer with room for a header and sixteen bytes becomes an arena of one
    free block, which loses at most the padding at both ends. *)
Theorem cavan_malloc_init_base_gives_arena info m addr size :
  let a0 := CAVAN_SIZE_WORD_ALIGN addr in
  let s := CAVAN_SIZE_WORD_ALIGN_DOWN (addr + size - a0 - 8) in
  0 < addr → a0 + 24 ≤ addr + size → addr + size < 2 ^ 64 → size < 2 ^ 32 →
  words_live m a0 (8 + s) → is_Some (m !! mi_head info) → is_Some (m !! (mi_head info + 8)) →
  (mi_head info + 16 ≤ a0 ∨ a0 + 8 + s ≤ mi_head info) →
  wpp (cavan_malloc_init_base 0 info addr size) m (λ '(ret, info') m', ret = 0 ∧ mi_head info' = mi_head info ∧
    16 ≤ s ∧ addr + size - 16 < a0 + 8 + s ≤ addr + size ∧ ∃ fl, arena info' a0 [Tile s false] fl m').
Proof.
  intros a0 s Ha Hsz H64 H32 HL Hh1 Hh2 Hdis.
  pose proof (align_down (addr + size - a0 - 8)) as Es. fold s in Es. pose proof (align_up addr) as Ea. fold a0 in Ea.
  assert (addr ≤ a0 < addr + 8) as Hab by dlia. assert (16 ≤ s ∧ addr + size - 16 < a0 + 8 + s ≤ addr + size) as [Hs16 Hsb] by dlia.
  assert (8 | a0) as Dal by (exists ((addr + 7) / 8); lia). assert (8 | s) as Ds by (exists ((addr + size - a0 - 8) / 8); lia).
  destruct (HL a0) as [w Hw]; [lia|done|]. destruct (any_header w) as (sw & pw & Hsw & ->). set (head := mi_head info) in *.
  unfold cavan_malloc_init_base, link_node_init, node_prev, node_next. fold a0 head. cbv zeta.
  rewrite (wrap_small 64) by lia. assert (cavan_malloc_get_available_size (addr + size - a0) = s) as Hav.
  { unfold cavan_malloc_get_available_size, SIZEOF_MALLOC_NODE. destruct (Z.ltb_spec (addr + size - a0) 24); [lia|done]. }
  wpp_go. apply wpp_wr64; [done|]. wpp_go. apply wpp_wr64; [by rewrite lookup_insert_ne by lia|]. cbn [Z.ltb Z.compare]. wpp_go.
  rewrite Hav. eapply (wpp_set_node_size _ _ sw pw s); [done|unfold half; lia|by rewrite !lookup_insert_ne by lia|].
  wpp_go. eapply (wpp_node_size _ _ s pw); [unfold half; lia|by rewrite lookup_insert_eq|]. destruct (Z.eqb_spec s 0); [lia|].
  wpp_go. eapply (wpp_set_node_prev_size _ _ s pw); [unfold half; lia|unfold half, CAVAN_NODE_ALLOCATED_MASK; lia|by rewrite lookup_insert_eq|].
  set (info' := {| mi_buff := addr; mi_size := size; mi_head := head; mi_last := a0 + s |}).
  assert (core info' a0 [] (Tile s false) s [] [] [] (<[a0 := header s CAVAN_NODE_ALLOCATED_MASK]> (<[a0 := header s pw]>
    (<[head + 8 := head]> (<[head := head]> m))))) as C.
  { split; simpl; rewrite ?Z.add_0_r.
    - split; simpl; try (done || lia); [split; [constructor|set_solver]|set_solver].
    - done.
    - rewrite field_free. apply lookup_insert_eq.
    - done.
    - split; [split|done]; rewrite !lookup_insert_ne by lia; apply lookup_insert_eq.
    - by do 4 apply insert_live. }
  wpp_go. replace (a0 + NODE_OFFSET) with (a0 + span [] + 8) by (unfold NODE_OFFSET; simpl; lia).
  eapply (wpp_put (info := info') [] _ s [] [] [] head []); [exact C|done|]. intros fl m' C' _.
  pose proof (co_mid _ _ _ _ _ _ _ _ _ C') as Hm. simpl in Hm. rewrite Z.add_0_r, field_free in Hm.
  wpp_go. eapply (wpp_node_size _ _ s 1); [unfold half; lia|exact Hm|]. wpp_go. split_and!; try (done || lia). exists fl.
  apply (arena_core []). simpl. by rewrite field_free.
Qed.

Lemma cavan_malloc_init_base_gives_arena_witness :
  let info := info_at_8 in let m := words_from_8 20 in let addr := 60 in let size := 100 in
  let a0 := CAVAN_SIZE_WORD_ALIGN addr in
  let s := CAVAN_SIZE_WORD_ALIGN_DOWN (addr + size - a0 - 8) in
  wpp (cavan_malloc_init_base 0 info addr size) m (λ '(ret, info') m', ret = 0 ∧ mi_head info' = mi_head info ∧
    16 ≤ s ∧ addr + size - 16 < a0 + 8 + s ≤ addr + size ∧ ∃ fl, arena info' a0 [Tile s false] fl m').
Proof.
  intros info m addr size a0 s. apply (cavan_malloc_init_base_gives_arena info m addr size); try by vm_compute.
  - apply live_check; [by exists 8|by vm_compute|by vm_compute].
  - by exists 0; vm_compute.
  - by exists 0; vm_compute.
  - left. by vm_compute.
Defined.

(** Forty-eight bytes are free and a request takes forty: the header of the
    block that is handed out falls on the second word of the free node, and the
    next request follows it out of the list. *)
Example request_that_leaves_eight_bytes :
  let m := words_from_8 20 in
  ('(_, info) ← cavan_malloc_init_base 0 info_at_8 80 56; b ← cavan_malloc_base info 32; mret b) m ≠ Undef ∧
  ('(_, info) ← cavan_malloc_init_base 0 info_at_8 80 56; _ ← cavan_malloc_base info 32; cavan_malloc_base info 16) m = Undef.
Proof. vm_compute. split; [by intros ?|done]. Qed.

(** A buffer of three bytes that ends before the next multiple of eight: the
    room left wraps around, and the arena is four gigabytes long. *)
Example buffer_shorter_than_its_padding :
  match (r ← cavan_malloc_init_base 0 info_at_8 81 3; s ← node_size 88; mret (r.1, s)) (words_from_8 20) with
  | Ok (x, _) => Some x | _ => None end = Some (0, 2 ^ 32 - 16).
Proof. by vm_compute. Qed.
