(* ===== verification/Pipe.v ===== *)
(** Pipe: the blocking byte pipe [cavan_cache] of src/lib/cache.c and
    src/include/cavan/cache.h, shared by a thread that writes and one that
    reads.

    A call holds the lock except while it waits on a condition variable, so the
    code between two waits is one step.  A thread that waits is asleep until
    its condition is signalled, or until it wakes for no reason. *)
From stdpp Require Import relations.
From S2P Require Import Prelude.

Record cavan_cache : Type := {
  cc_mem : list Z;
  cc_size : Z;
  cc_head : Z;
  cc_tail : Z;
  cc_closed : bool;
}.
Definition set_tail (c : cavan_cache) (m : list Z) (t : Z) : cavan_cache :=
  {| cc_mem := m; cc_size := cc_size c; cc_head := cc_head c; cc_tail := t; cc_closed := cc_closed c |}.
Definition set_head (c : cavan_cache) (h : Z) : cavan_cache :=
  {| cc_mem := cc_mem c; cc_size := cc_size c; cc_head := h; cc_tail := cc_tail c; cc_closed := cc_closed c |}.

(** ** The operations *)

(** The first three arguments are what the initialisers of the lock and of the
    two condition variables answer. *)
Definition cavan_cache_init (mutex rdcond wrcond : Z) (c : cavan_cache) (mem : list Z) (size : Z) : Z * cavan_cache :=
  if mutex <? 0 then (mutex, c)
  else if rdcond <? 0 then (rdcond, c)
  else if wrcond <? 0 then (wrcond, c)
  else (0, {| cc_mem := mem; cc_size := size; cc_head := cc_head c; cc_tail := cc_tail c; cc_closed := cc_closed c |}).
Definition cavan_cache_open (c : cavan_cache) : cavan_cache :=
  {| cc_mem := cc_mem c; cc_size := cc_size c; cc_head := 0; cc_tail := 0; cc_closed := false |}.
(** The locked part of [cavan_cache_close]; the broadcasts follow it. *)
Definition cavan_cache_close (c : cavan_cache) : cavan_cache :=
  {| cc_mem := cc_mem c; cc_size := cc_size c; cc_head := cc_head c; cc_tail := cc_tail c; cc_closed := true |}.

Definition cavan_cache_free_space (c : cavan_cache) : Z :=
  if cc_tail c <? cc_head c then cc_head c - cc_tail c - 1 else (cc_size c - cc_tail c) + cc_head c - 1.
Definition cavan_cache_used_space (c : cavan_cache) : Z :=
  if cc_tail c <? cc_head c then (cc_size c - cc_head c) + cc_tail c else cc_tail c - cc_head c.
Definition cavan_cache_pointer_add (fuel : nat) (c : cavan_cache) (pointer offset : Z) : cres Z :=
  loop fuel (λ p, if cc_size c <=? p then mret (inl (p - cc_size c)) else mret (inr p)) (pointer + offset).

(** How a locked part ends. *)
Inductive outcome (A : Type) : Type := Returns (a : A) | Waits (a : A).
Arguments Returns {A} a.
Arguments Waits {A} a.

(** [length] and [rcount] of the code. *)
Definition write_room (c : cavan_cache) : Z * Z :=
  if cc_tail c <? cc_head c then (u64 (cc_head c - cc_tail c - 1), u64 (cc_head c - cc_tail c - 1))
  else (u64 ((cc_size c - cc_tail c) + cc_head c - 1), cc_size c - cc_tail c).
Definition write_copy (c : cavan_cache) (buff : list Z) (i length rcount : Z) : cres cavan_cache :=
  if rcount <? length then
    let lcount := length - rcount in
    m ← memcpy (cc_mem c) (cc_tail c) buff i rcount;
    m ← memcpy m 0 buff (i + rcount) lcount;
    mret (set_tail c m lcount)
  else
    m ← memcpy (cc_mem c) (cc_tail c) buff i length;
    let tail := cc_tail c + length in
    mret (set_tail c m (if cc_size c <=? tail then 0 else tail)).

(** [cavan_cache_write] from the point where [i] bytes of [buff] are written
    and the lock is taken; the boolean tells whether readers were signalled. *)
Definition cavan_cache_write (c : cavan_cache) (buff : list Z) (i : Z) : cres (outcome Z * cavan_cache * bool) :=
  loop (S (S (length buff))) (λ '(c, i, signal),
    let remain := zlen buff - i in
    if remain =? 0 then mret (inr (Returns (zlen buff), c, signal))
    else
      let '(len, rcount) := write_room c in
      if 0 <? len then
        let len := if remain <? len then remain else len in
        c ← write_copy c buff i len rcount;
        mret (inl (c, i + len, true))
      else if cc_closed c then mret (inr (Returns i, c, signal))
      else mret (inr (Waits i, c, signal))) (c, i, false).

Definition read_room (c : cavan_cache) : Z * Z :=
  if cc_tail c <? cc_head c then ((cc_size c - cc_head c) + cc_tail c, cc_size c - cc_head c)
  else (cc_tail c - cc_head c, cc_tail c - cc_head c).
(** [cavan_cache_read] likewise, with the bytes it copies to its buffer of
    [size] bytes. *)
Definition cavan_cache_read (c : cavan_cache) (size reserved : Z) : cres (outcome (list Z) * cavan_cache * bool) :=
  let '(len, rcount) := read_room c in
  if reserved <? len then
    let len := len - reserved in
    let len := if size <? len then size else len in
    if rcount <? len then
      let lcount := len - rcount in
      a ← window (cc_mem c) (cc_head c) rcount;
      b ← window (cc_mem c) 0 lcount;
      mret (Returns (a ++ b), set_head c lcount, true)
    else
      a ← window (cc_mem c) (cc_head c) len;
      let head := cc_head c + len in
      mret (Returns a, set_head c (if cc_size c <=? head then 0 else head), true)
  else if cc_closed c then mret (Returns [], c, false)
  else mret (Waits [], c, false).

(** ** Two threads *)

(** The writer is in [cavan_cache_write], the reader in [cavan_cache_fill],
    which reads until it has [n] bytes or a read answers none.  A thread is
    ready to take the lock, asleep, or has returned. *)
Inductive writer : Type := WReady (i : Z) | WAsleep (i : Z) | WReturned (size : Z).
Inductive reader : Type := RReady (got : list Z) | RAsleep (got : list Z) | RReturned (got : list Z) | RTimedOut (got : list Z).

Definition signal_writer (w : writer) : writer := match w with WAsleep i => WReady i | _ => w end.
Definition signal_reader (r : reader) : reader := match r with RAsleep got => RReady got | _ => r end.

(** [to_rd] and [to_wr]: the broadcasts that [cavan_cache_close] has still to make. *)
Record pipe : Type := { p_cache : cavan_cache; p_writer : writer; p_reader : reader; to_rd : bool; to_wr : bool }.

Definition write_ends (o : outcome Z) : writer := match o with Returns n => WReturned n | Waits i => WAsleep i end.
Definition cavan_cache_fill (n : Z) (got : list Z) (o : outcome (list Z)) : reader :=
  match o with
  | Returns b =>
      if zlen b =? 0 then RReturned got
      else if zlen got + zlen b <? n then RReady (got ++ b) else RReturned (got ++ b)
  | Waits _ => RAsleep got
  end.

(** What happens: a thread runs or a broadcast is made; a thread wakes for no
    reason; a wait of the reader times out; the pipe is closed. *)
Inductive event : Type := Runs | WakesUp | TimesOut | Closes.

Section threads.
Variables (data : list Z) (n reserved timeout : Z).

Inductive step : event → pipe → pipe → Prop :=
| step_write c i r a b o c' s : cavan_cache_write c data i = Ok (o, c', s) →
    step Runs {| p_cache := c; p_writer := WReady i; p_reader := r; to_rd := a; to_wr := b |}
              {| p_cache := c'; p_writer := write_ends o; p_reader := if s then signal_reader r else r; to_rd := a; to_wr := b |}
| step_read c w got a b o c' s : cavan_cache_read c (n - zlen got) reserved = Ok (o, c', s) →
    step Runs {| p_cache := c; p_writer := w; p_reader := RReady got; to_rd := a; to_wr := b |}
              {| p_cache := c'; p_writer := if s then signal_writer w else w; p_reader := cavan_cache_fill n got o; to_rd := a; to_wr := b |}
| step_wake_rd c w r b :
    step Runs {| p_cache := c; p_writer := w; p_reader := r; to_rd := true; to_wr := b |}
              {| p_cache := c; p_writer := w; p_reader := signal_reader r; to_rd := false; to_wr := b |}
| step_wake_wr c w r :
    step Runs {| p_cache := c; p_writer := w; p_reader := r; to_rd := false; to_wr := true |}
              {| p_cache := c; p_writer := signal_writer w; p_reader := r; to_rd := false; to_wr := false |}
| step_wakes_writer c i r a b :
    step WakesUp {| p_cache := c; p_writer := WAsleep i; p_reader := r; to_rd := a; to_wr := b |}
                 {| p_cache := c; p_writer := WReady i; p_reader := r; to_rd := a; to_wr := b |}
| step_wakes_reader c w got a b :
    step WakesUp {| p_cache := c; p_writer := w; p_reader := RAsleep got; to_rd := a; to_wr := b |}
                 {| p_cache := c; p_writer := w; p_reader := RReady got; to_rd := a; to_wr := b |}
| step_times_out c w got a b : 0 < timeout →
    step TimesOut {| p_cache := c; p_writer := w; p_reader := RAsleep got; to_rd := a; to_wr := b |}
                  {| p_cache := c; p_writer := w; p_reader := RTimedOut got; to_rd := a; to_wr := b |}
| step_close c w r : cc_closed c = false →
    step Closes {| p_cache := c; p_writer := w; p_reader := r; to_rd := false; to_wr := false |}
                {| p_cache := cavan_cache_close c; p_writer := w; p_reader := r; to_rd := true; to_wr := true |}.

Definition any_step (p p' : pipe) : Prop := ∃ e, step e p p'.
Definition runs (p p' : pipe) : Prop := step Runs p p'.

(** An open, empty pipe whose threads start. *)
Definition started (c : cavan_cache) : pipe :=
  {| p_cache := cavan_cache_open c; p_writer := WReady 0;
     p_reader := if 0 <? n then RReady [] else RReturned []; to_rd := false; to_wr := false |}.
End threads.

(** ** The bytes in the pipe *)

Definition at_head (c : cavan_cache) (k : Z) : Z :=
  if cc_head c + k <? cc_size c then cc_head c + k else cc_head c + k - cc_size c.
Record contents (c : cavan_cache) (q : list Z) : Prop := {
  ct_size : 0 < cc_size c < 2 ^ 64;
  ct_mem : zlen (cc_mem c) = cc_size c;
  ct_head : 0 ≤ cc_head c < cc_size c;
  ct_tail : 0 ≤ cc_tail c < cc_size c;
  ct_used : zlen q = cavan_cache_used_space c;
  ct_cells : ∀ k, 0 ≤ k < zlen q → get (cc_mem c) (at_head c k) = get q k;
}.

Lemma contents_open c : 0 < cc_size c < 2 ^ 64 → zlen (cc_mem c) = cc_size c → contents (cavan_cache_open c) [].
Proof. intros Hs Hm. split; simpl; try (done || lia). intros k Hk. unfold zlen in Hk. simpl in Hk. lia. Qed.

Lemma spaces c q : contents c q → zlen q + cavan_cache_free_space c = cc_size c - 1.
Proof. intros C. rewrite (ct_used _ _ C). unfold cavan_cache_used_space, cavan_cache_free_space. zcase; lia. Qed.

Lemma free_space_nonneg c q : contents c q → 0 ≤ cavan_cache_free_space c.
Proof. intros [? ? ? ? _ _]. unfold cavan_cache_free_space. zcase; lia. Qed.

Section copies.
Context {c : cavan_cache} {q : list Z} (C : contents c q).

Lemma write_room_ok : write_room c = (cavan_cache_free_space c, if cc_tail c <? cc_head c then cavan_cache_free_space c else cc_size c - cc_tail c).
Proof using C.
  destruct C as [? ? ? ? _ _]. unfold write_room, cavan_cache_free_space. zcase; rewrite wrap_small by lia; done.
Qed.

Lemma write_copy_ok buff i len : 0 ≤ i → 0 < len ≤ cavan_cache_free_space c → i + len ≤ zlen buff →
  ∃ c', write_copy c buff i len (if cc_tail c <? cc_head c then cavan_cache_free_space c else cc_size c - cc_tail c) = Ok c' ∧
    contents c' (q ++ slice buff i len) ∧ cc_size c' = cc_size c ∧ cc_closed c' = cc_closed c.
Proof using C.
  intros Hi Hl Hb. pose proof (spaces c q C) as Hsp. destruct C as [Hs Hm Hh Ht Hu Hc]. pose proof (zlen_nonneg q).
  unfold cavan_cache_used_space in Hu. unfold cavan_cache_free_space in Hl, Hsp |- *.
  assert (∀ m t, zlen m = cc_size c → 0 ≤ t < cc_size c → zlen q + len = cavan_cache_used_space (set_tail c m t) →
    (∀ k, 0 ≤ k < zlen q → get m (at_head c k) = get q k) → (∀ k, 0 ≤ k < len → get m (at_head c (zlen q + k)) = get buff (i + k)) →
    contents (set_tail c m t) (q ++ slice buff i len)) as Hnew.
  { intros m t Hm' Ht' Hu' Hq Hn. split; simpl; try done.
    - rewrite zlen_app, zlen_slice by lia. done.
    - intros k Hk. rewrite zlen_app, zlen_slice in Hk by lia. unfold at_head in *. simpl. destruct (decide (k < zlen q)).
      + rewrite get_app_l by lia. apply Hq. lia.
      + rewrite get_app_r, get_slice by lia. specialize (Hn (k - zlen q) ltac:(lia)).
        by replace (zlen q + (k - zlen q)) with k in Hn by lia. }
  unfold write_copy. destruct (Z.ltb_spec (cc_tail c) (cc_head c)) as [Hw|Hw].
  - destruct (Z.ltb_spec (cc_head c - cc_tail c - 1) len); [lia|]. rewrite memcpy_in by lia. cbn [mbind cres_bind mret cres_ret].
    destruct (Z.leb_spec (cc_size c) (cc_tail c + len)); [lia|]. eexists. split; [done|]. split; [|done]. apply Hnew; [by rewrite zlen_blit by lia|lia| | |].
    + unfold cavan_cache_used_space. simpl. zcase; lia.
    + intros k Hk. unfold at_head. rewrite get_blit by (repeat zcase; lia). specialize (Hc k Hk). unfold at_head in Hc. revert Hc. zcase; intros <-; rewrite decide_False by lia; done.
    + intros k Hk. unfold at_head. rewrite get_blit by (repeat zcase; lia). zcase; [lia|]. rewrite decide_True by lia. f_equal. lia.
  - destruct (Z.ltb_spec (cc_size c - cc_tail c) len) as [Hlen|Hlen].
    + rewrite memcpy_in by lia. cbn [mbind cres_bind mret cres_ret]. rewrite memcpy_in by (rewrite ?zlen_blit; lia). cbn [mbind cres_bind mret cres_ret].
      eexists. split; [done|]. split; [|done]. apply Hnew; [by rewrite !zlen_blit by (rewrite ?zlen_blit; lia)|lia| | |].
      * unfold cavan_cache_used_space. simpl. zcase; lia.
      * intros k Hk. specialize (Hc k Hk). unfold at_head in Hc |- *. rewrite !get_blit by (rewrite ?zlen_blit; repeat zcase; lia).
        revert Hc. zcase; intros <-; rewrite !decide_False by lia; done.
      * intros k Hk. unfold at_head. rewrite !get_blit by (rewrite ?zlen_blit; repeat zcase; lia). zcase.
        -- rewrite decide_False, decide_True by lia. f_equal. lia.
        -- rewrite decide_True by lia. f_equal. lia.
    + rewrite memcpy_in by lia. cbn [mbind cres_bind mret cres_ret]. eexists. split; [done|]. split; [|done].
      apply Hnew; [by rewrite zlen_blit by lia|zcase; lia| | |].
      * unfold cavan_cache_used_space. simpl. repeat zcase; lia.
      * intros k Hk. specialize (Hc k Hk). unfold at_head in Hc |- *. rewrite get_blit by (repeat zcase; lia).
        revert Hc. zcase; intros <-; rewrite decide_False by lia; done.
      * intros k Hk. unfold at_head. rewrite get_blit by (repeat zcase; lia). zcase; [|lia]. rewrite decide_True by lia. f_equal. lia.
Qed.

Lemma cavan_cache_read_ok size reserved : 0 < size → 0 ≤ reserved →
  ∃ o c' s, cavan_cache_read c size reserved = Ok (o, c', s) ∧ cc_size c' = cc_size c ∧ cc_closed c' = cc_closed c ∧
    match o with
    | Returns b => ∃ q', q = b ++ q' ∧ contents c' q' ∧ zlen b ≤ size ∧
        (s = true ∧ zlen b = Z.min size (zlen q - reserved) ∧ 0 < zlen b ∨ s = false ∧ b = [] ∧ zlen q ≤ reserved ∧ cc_closed c = true)
    | Waits _ => c' = c ∧ s = false ∧ zlen q ≤ reserved ∧ cc_closed c = false
    end.
Proof using C.
  intros Hsz Hr. destruct C as [Hs Hm Hh Ht Hu Hc]. pose proof (zlen_nonneg q).
  set (len := Z.min size (zlen q - reserved)).
  assert (read_room c = (zlen q, if cc_tail c <? cc_head c then cc_size c - cc_head c else zlen q)) as Eroom.
  { unfold read_room, cavan_cache_used_space in *. revert Hu. zcase; intros ->; done. }
  unfold cavan_cache_used_space in Hu. assert (zlen q < cc_size c) as Hlt by (revert Hu; zcase; lia).
  assert (∀ b h, reserved < zlen q → zlen b = len → 0 ≤ h < cc_size c → (h = cc_head c + len ∨ h = cc_head c + len - cc_size c) →
    zlen q - len = cavan_cache_used_space (set_head c h) → (∀ k, 0 ≤ k < len → get b k = get (cc_mem c) (at_head c k)) →
    ∃ q', q = b ++ q' ∧ contents (set_head c h) q' ∧ zlen b ≤ size ∧
    (true = true ∧ zlen b = Z.min size (zlen q - reserved) ∧ 0 < zlen b ∨ true = false ∧ b = [] ∧ zlen q ≤ reserved ∧ cc_closed c = true)) as Hnew.
  { intros b h Hres Hb Hh' Hcase Hu' Hg. exists (slice q len (zlen q - len)). assert (zlen (slice q len (zlen q - len)) = zlen q - len) as Hsl by (apply zlen_slice; unfold len; lia).
    split_and!; [| |unfold len in Hb; lia|left; unfold len in *; lia].
    - apply array_ext; [rewrite zlen_app, Hsl; lia|]. intros k Hk. destruct (decide (k < len)).
      + rewrite get_app_l by lia. rewrite Hg by lia. symmetry. by apply Hc.
      + rewrite get_app_r, get_slice by (unfold len in *; lia). f_equal. lia.
    - split; simpl; try done; [by rewrite Hsl|]. intros k Hk. rewrite Hsl in Hk. rewrite get_slice by (unfold len in *; lia).
      rewrite <-(Hc (len + k)) by (unfold len in *; lia). f_equal. unfold at_head. simpl. repeat zcase; unfold len in *; lia. }
  unfold cavan_cache_read. rewrite Eroom. destruct (Z.ltb_spec reserved (zlen q)) as [Hres|Hres].
  - cbv zeta. replace (if size <? zlen q - reserved then size else zlen q - reserved) with len by (unfold len; repeat zcase; lia).
    set (rcount := if cc_tail c <? cc_head c then cc_size c - cc_head c else zlen q) in *. destruct (Z.ltb_spec rcount len) as [Hl|Hl].
    + assert (cc_tail c < cc_head c ∧ rcount = cc_size c - cc_head c) as [Hw Erc] by (revert Hl; unfold rcount; zcase; unfold len; lia).
      assert (zlen q = cc_size c - cc_head c + cc_tail c) as Hq by (revert Hu; repeat zcase; lia). clear Hu. rewrite Erc in *.
      rewrite !window_in by (unfold len in *; lia). cbn [mbind cres_bind mret cres_ret]. eexists _, _, _. split; [done|]. split; [done|]. split; [done|].
      apply Hnew; try (unfold len in *; lia).
      * rewrite zlen_app, !zlen_slice by (unfold len in *; lia). lia.
      * unfold cavan_cache_used_space. simpl. zcase; unfold len in *; lia.
      * intros k Hk. unfold at_head. zcase.
        -- rewrite get_app_l, get_slice by (rewrite ?zlen_slice by (unfold len in *; lia); unfold len in *; lia). done.
        -- rewrite get_app_r by (rewrite zlen_slice by (unfold len in *; lia); lia). rewrite zlen_slice, get_slice by (unfold len in *; lia). f_equal. lia.
    + rewrite window_in by (revert Hl Hu; unfold rcount, len; repeat zcase; lia). cbn [mbind cres_bind mret cres_ret]. eexists _, _, _. split; [done|]. split; [done|]. split; [done|].
      assert (len ≤ rcount ∧ cc_head c + len ≤ cc_size c) as [_ Hb] by (revert Hl Hu; unfold rcount, len; repeat zcase; lia).
      apply Hnew; try (unfold len in *; lia).
      * apply zlen_slice; unfold len in *; lia.
      * zcase; unfold len in *; lia.
      * zcase; unfold len in *; lia.
      * unfold cavan_cache_used_space, rcount in *. simpl. revert Hl Hu. unfold len. repeat zcase; lia.
      * intros k Hk. unfold at_head. zcase; [|unfold len in *; lia]. apply get_slice; unfold len in *; lia.
  - destruct (cc_closed c) eqn:Ecl; (eexists _, _, _; split; [done|]; split; [done|]; split; [done|]).
    + exists q. split_and!; [done|by split|unfold zlen; simpl; lia|]. by right.
    + done.
Qed.
End copies.

(** A write puts bytes into the pipe until they are all in, or it is full. *)
Lemma cavan_cache_write_ok c q buff i : contents c q → 0 ≤ i ≤ zlen buff →
  ∃ o c' j, cavan_cache_write c buff i = Ok (o, c', i <? j) ∧ cc_size c' = cc_size c ∧ cc_closed c' = cc_closed c ∧
    i ≤ j ≤ zlen buff ∧ contents c' (q ++ slice buff i (j - i)) ∧
    match o with
    | Returns n => n = j ∧ (j = zlen buff ∨ cc_closed c = true)
    | Waits n => n = j ∧ j < zlen buff ∧ cc_closed c = false ∧ zlen q + (j - i) = cc_size c - 1
    end.
Proof.
  intros C Hi. assert (wp (cavan_cache_write c buff i)
    (λ '(o, c', s), ∃ j, s = (i <? j) ∧ cc_size c' = cc_size c ∧ cc_closed c' = cc_closed c ∧
      i ≤ j ≤ zlen buff ∧ contents c' (q ++ slice buff i (j - i)) ∧
      match o with
      | Returns n => n = j ∧ (j = zlen buff ∨ cc_closed c = true)
      | Waits n => n = j ∧ j < zlen buff ∧ cc_closed c = false ∧ zlen q + (j - i) = cc_size c - 1
      end)) as ([[o c'] s] & E & j & -> & H)%wp_ok; [|by exists o, c', j].
  unfold cavan_cache_write. apply (wp_loop (λ '(c', j, s), s = (i <? j) ∧ cc_size c' = cc_size c ∧ cc_closed c' = cc_closed c ∧
    i ≤ j ≤ zlen buff ∧ contents c' (q ++ slice buff i (j - i))) _ (λ '(_, j, _), Z.to_nat (zlen buff - j))).
  - intros [[c' j] s] (-> & Hs & Hcl & Hj & C'). destruct (Z.eqb_spec (zlen buff - j) 0) as [E|E].
    + apply wp_ret. exists j. split_and!; try (done || lia).
    + rewrite (write_room_ok C'). pose proof (spaces _ _ C') as Hsp. rewrite zlen_app, zlen_slice in Hsp by lia.
      destruct (Z.ltb_spec 0 (cavan_cache_free_space c')) as [Hf|Hf].
      * set (len := if zlen buff - j <? cavan_cache_free_space c' then zlen buff - j else cavan_cache_free_space c').
        assert (0 < len ≤ cavan_cache_free_space c' ∧ j + len ≤ zlen buff) as [Hlen Hb] by (unfold len; zcase; lia).
        destruct (write_copy_ok C' buff j len) as (c2 & Ew & C2 & Hs2 & Hcl2); [lia|lia|lia|]. apply wp_bind. rewrite Ew. apply wp_ret, wp_ret.
        split; [|lia]. split_and!; [symmetry; apply Z.ltb_lt; lia|congruence|congruence|lia|lia|].
        rewrite <-app_assoc in C2. replace (j + len - i) with ((j - i) + len) by lia. rewrite slice_app by lia.
        by replace (i + (j - i)) with j by lia.
      * rewrite Hcl. destruct (cc_closed c) eqn:Ecl; apply wp_ret; exists j; pose proof (free_space_nonneg _ _ C'); split_and!; try (done || lia); by right.
  - split_and!; try (done || lia). by rewrite Z.sub_diag, slice_0, app_nil_r.
  - unfold zlen in *. lia.
Qed.

Lemma take_slice {A} (m : list A) i j : 0 ≤ i ≤ j → take (Z.to_nat i) m ++ slice m i (j - i) = take (Z.to_nat j) m.
Proof. intros Hij. change (take (Z.to_nat i) m) with (slice m 0 i). rewrite <-slice_app by lia. unfold slice. rewrite drop_0. f_equal. lia. Qed.

(** ** Every interleaving *)

Definition put_by (w : writer) : Z := match w with WReady i | WAsleep i | WReturned i => i end.
Definition got_by (r : reader) : list Z := match r with RReady g | RAsleep g | RReturned g | RTimedOut g => g end.

Section interleavings.
Context (data : list Z) (n reserved timeout size : Z) (Hn : 0 ≤ n) (Hres : 0 ≤ reserved).
Notation step := (step data n reserved timeout).
Notation any_step := (any_step data n reserved timeout).
Notation runs := (runs data n reserved timeout).

(** What holds between two steps: the bytes got and the bytes in the pipe are
    the bytes put; nobody sleeps whose wake-up call is not to come, unless the
    pipe is full, or holds only what the reader leaves. *)
Record pipe_inv (p : pipe) : Prop := {
  pi_bytes : ∃ q, contents (p_cache p) q ∧ got_by (p_reader p) ++ q = take (Z.to_nat (put_by (p_writer p))) data ∧
    (∀ i, p_writer p = WAsleep i → to_wr p = true ∨ cc_closed (p_cache p) = false ∧ zlen q = cc_size (p_cache p) - 1) ∧
    (∀ g, p_reader p = RAsleep g → to_rd p = true ∨ cc_closed (p_cache p) = false ∧ zlen q ≤ reserved);
  pi_size : cc_size (p_cache p) = size;
  pi_put : 0 ≤ put_by (p_writer p) ≤ zlen data;
  pi_asleep : ∀ i, p_writer p = WAsleep i → i < zlen data;
  pi_returned : ∀ i, p_writer p = WReturned i → i = zlen data ∨ cc_closed (p_cache p) = true;
  pi_got : match p_reader p with
           | RReady g | RAsleep g => zlen g < n
           | RReturned g => zlen g = n ∨ cc_closed (p_cache p) = true
           | RTimedOut g => 0 < timeout end;
  pi_got_le : zlen (got_by (p_reader p)) ≤ n;
  pi_closing : cc_closed (p_cache p) = false → to_rd p = false ∧ to_wr p = false }.

Lemma signal_writer_put w : put_by (signal_writer w) = put_by w.
Proof using. by destruct w. Qed.
Lemma signal_reader_got r : got_by (signal_reader r) = got_by r.
Proof using. by destruct r. Qed.

Lemma started_inv c : cc_size c = size → 0 < cc_size c < 2 ^ 64 → zlen (cc_mem c) = cc_size c → pipe_inv (started n c).
Proof using Hn.
  intros Hsz Hs Hm. unfold started. split; simpl; try done.
  - exists []. split; [by apply contents_open|]. destruct (Z.ltb_spec 0 n); simpl; split_and!; done.
  - pose proof (zlen_nonneg data). lia.
  - destruct (Z.ltb_spec 0 n); [done|]. left. unfold zlen. simpl. lia.
  - destruct (Z.ltb_spec 0 n); unfold zlen; simpl; lia.
Qed.

Lemma step_inv e p p' : step e p p' → pipe_inv p → pipe_inv p'.
Proof using Hn Hres.
  intros Hst [(q & C & Hq & Hw & Hr) Hsize Hput Hasl Hret Hgot Hle Hcl].
  destruct Hst as [c i r a b o c' s E|c w got a b o c' s E|c w r b|c w r|c i r a b|c w got a b|c w got a b Ht|c w r Ho]; simpl in *.
  - destruct (cavan_cache_write_ok c q data i C Hput) as (o' & c2 & j & E' & Hs & Hc & Hj & C' & Ho). rewrite E in E'. injection E' as -> -> ->.
    assert (put_by (write_ends o') = j) as Hpj by (destruct o'; simpl; apply Ho). split; simpl; rewrite ?Hpj, ?Hc, ?Hs; try (done || lia).
    + exists (q ++ slice data i (j - i)). split; [done|]. split; [|split].
      * rewrite <-(take_slice data i j), app_assoc by lia. f_equal. rewrite <-Hq. by destruct (i <? j); rewrite ?signal_reader_got.
      * intros k Hk. destruct o' as [k'|k']; [done|]. right. destruct Ho as (_ & ? & ? & Ho). split; [done|]. rewrite zlen_app, zlen_slice by lia. done.
      * intros g. destruct (Z.ltb_spec i j); [by destruct r|]. replace (j - i) with 0 by lia. rewrite slice_0, app_nil_r. apply Hr.
    + intros k Hk. destruct o'; [done|]. simpl in Hk. injection Hk as ->. lia.
    + intros k Hk. destruct o'; [|done]. simpl in Hk. injection Hk as ->. destruct Ho as [-> Ho]. exact Ho.
    + destruct (i <? j); [by destruct r|done].
    + destruct (i <? j); by rewrite ?signal_reader_got.
  - destruct (cavan_cache_read_ok C (n - zlen got) reserved) as (o' & c2 & s' & E' & Hs & Hc & Ho); [lia|done|]. rewrite E in E'. injection E' as -> -> ->.
    assert (put_by (if s' then signal_writer w else w) = put_by w) as Hpw by (destruct s'; [apply signal_writer_put|done]).
    destruct o' as [bs|bs].
    + destruct Ho as (q' & -> & C' & Hbs & Ho).
      assert (got_by (cavan_cache_fill n got (Returns bs)) = got ++ bs) as Hg.
      { unfold cavan_cache_fill. destruct (Z.eqb_spec (zlen bs) 0) as [E0|E0]; [|by zcase]. destruct bs; [by rewrite app_nil_r|]. unfold zlen in E0. simpl in E0. lia. }
      split; cbn [p_cache p_writer p_reader to_rd to_wr]; rewrite ?Hpw, ?Hg, ?Hc, ?Hs; try (done || lia).
      * exists q'. split; [done|]. split; [by rewrite <-app_assoc|]. split.
        -- intros k. destruct Ho as [(-> & _ & Hb)|(-> & -> & _ & _)]; [by destruct w|]. apply Hw.
        -- intros g. simpl. destruct (Z.eqb_spec (zlen bs) 0); [done|]. by zcase.
      * intros k Hk. apply Hasl. destruct s'; [by destruct w|done].
      * intros k Hk. apply Hret. destruct s'; [by destruct w|done].
      * simpl. destruct (Z.eqb_spec (zlen bs) 0) as [E0|E0]; [right; destruct Ho as [(_ & _ & ?)|(_ & _ & _ & ?)]; [lia|done]|].
        destruct (Z.ltb_spec (zlen got + zlen bs) n); [rewrite zlen_app; lia|]. left. rewrite zlen_app. lia.
      * rewrite zlen_app. lia.
    + destruct Ho as (-> & -> & Hlow & Hopen). split; simpl; try (done || lia). exists q. split_and!; try done. intros g _. by right.
  - split; simpl; rewrite ?signal_reader_got; try done.
    + exists q. split_and!; try done. intros g Hg. by destruct r.
    + by destruct r.
    + intros Hx. destruct (Hcl Hx). done.
  - split; simpl; rewrite ?signal_writer_put; try done.
    + exists q. split_and!; try done. intros k Hk. by destruct w.
    + intros k Hk. by destruct w.
    + intros k Hk. apply Hret. by destruct w.
  - split; simpl; try done. exists q. done.
  - split; simpl; try done. exists q. done.
  - split; simpl; try done. exists q. done.
  - split; simpl; try done; [|by right|destruct r; naive_solver]. exists q. split; [by destruct C; split|]. split_and!; try done; by left.
Qed.

Lemma reachable_inv p p' : rtc any_step p p' → pipe_inv p → pipe_inv p'.
Proof using Hn Hres. induction 1 as [|p1 p2 p3 [e He] _ IH]; [done|]. intros Hi. apply IH. by eapply step_inv. Qed.

(** A thread that is ready can run. *)
Lemma writer_runs p i : pipe_inv p → p_writer p = WReady i → ∃ p', runs p p'.
Proof using.
  intros [(q & C & _) _ Hput _ _ _ _ _]. destruct p as [c w r a b]. simpl in *. intros ->.
  destruct (cavan_cache_write_ok c q data i C Hput) as (o & c' & j & E & _). eexists. by apply step_write with (1 := E).
Qed.
Lemma reader_runs p g : pipe_inv p → p_reader p = RReady g → ∃ p', runs p p'.
Proof using Hres.
  intros [(q & C & _) _ _ _ _ Hgot _ _]. destruct p as [c w r a b]. simpl in *. intros ->.
  destruct (cavan_cache_read_ok C (n - zlen g) reserved) as (o & c' & s & E & _); [lia|done|]. eexists. by apply step_read with (1 := E).
Qed.

(** *** Every run ends *)

Definition steps_left (p : pipe) : Z :=
  3 * ((zlen data - put_by (p_writer p)) + (n - zlen (got_by (p_reader p))))
  + (match p_writer p with WReady _ => 1 | _ => 0 end) + (match p_reader p with RReady _ => 1 | _ => 0 end)
  + (if to_rd p then 2 else 0) + (if to_wr p then 2 else 0).

Lemma steps_left_nonneg p : pipe_inv p → 0 ≤ steps_left p.
Proof using.
  intros [_ _ Hput _ _ _ Hle _]. unfold steps_left. destruct (p_writer p), (p_reader p), (to_rd p), (to_wr p); lia.
Qed.
Lemma runs_fewer p p' : runs p p' → pipe_inv p → steps_left p' < steps_left p ∧ cc_closed (p_cache p') = cc_closed (p_cache p).
Proof using Hn Hres.
  intros Hst Hi. pose proof (step_inv _ _ _ Hst Hi) as Hi'. destruct Hi as [(q & C & _) _ Hput _ _ Hgot Hle _]. destruct Hi' as [_ _ Hput' _ _ _ Hle' _].
  unfold steps_left. inversion Hst; subst; simpl in *.
  - destruct (cavan_cache_write_ok c q data i C Hput) as (o' & c2 & j & E' & _ & Hc & Hj & _ & Ho). rewrite H in E'. injection E' as -> -> ->.
    assert (put_by (write_ends o') = j) as Hpj by (destruct o'; simpl; apply Ho). split; [|done]. rewrite Hpj.
    destruct (Z.ltb_spec i j); rewrite ?signal_reader_got; destruct o', r; simpl; lia.
  - destruct (cavan_cache_read_ok C (n - zlen got) reserved) as (o' & c2 & s' & E' & _ & Hc & Ho); [lia|done|]. rewrite H in E'. injection E' as -> -> ->.
    split; [|done]. destruct o' as [bs|bs]; simpl.
    + destruct Ho as (q' & -> & _ & Hbs & [(-> & _ & Hb)|(-> & -> & _ & _)]); [|simpl; lia].
      destruct (Z.eqb_spec (zlen bs) 0); [lia|]. destruct (zlen got + zlen bs <? n); simpl; rewrite zlen_app; destruct w; simpl; lia.
    + destruct Ho as (-> & -> & _). simpl. lia.
  - split; [|done]. destruct r; simpl; lia.
  - split; [|done]. destruct w; simpl; lia.
Qed.
End interleavings.

(** C2: In every interleaving of a writer and a reader of [cavan_cache], with
    waits, timeouts and wake-ups without reason, and however the pipe is
    closed: the bytes the reader has and those in the pipe are, in order, the
    bytes the writer has put; the writer returns its full count unless the pipe
    was closed, the reader fills its buffer unless it was closed; and a thread
    that holds the lock never leaves its objects. *)
Theorem cavan_cache_is_a_fifo c data n reserved timeout p :
  0 < cc_size c < 2 ^ 64 → zlen (cc_mem c) = cc_size c → 0 ≤ n → 0 ≤ reserved →
  rtc (any_step data n reserved timeout) (started n c) p →
  (∃ q, contents (p_cache p) q ∧ got_by (p_reader p) ++ q = take (Z.to_nat (put_by (p_writer p))) data) ∧
  zlen (got_by (p_reader p)) ≤ n ∧
  (∀ k, p_writer p = WReturned k → k = zlen data ∨ cc_closed (p_cache p) = true) ∧
  (∀ g, p_reader p = RReturned g → zlen g = n ∨ cc_closed (p_cache p) = true) ∧
  (∀ i, p_writer p = WReady i → ∃ p', runs data n reserved timeout p p') ∧
  (∀ g, p_reader p = RReady g → ∃ p', runs data n reserved timeout p p').
Proof.
  intros Hs Hm Hn Hr Hst. assert (pipe_inv data n reserved timeout (cc_size c) p) as Hi by (eapply reachable_inv; [done|done|exact Hst|by apply started_inv]).
  pose proof Hi as [(q & C & Hq & _) _ _ _ Hret Hgot Hle _]. split_and!; [by exists q|done|done| | |].
  - intros g E. by rewrite E in Hgot.
  - intros i E. by eapply writer_runs.
  - intros g E. by eapply reader_runs.
Qed.
Definition pipe_of_3 : cavan_cache := {| cc_mem := [0; 0; 0]; cc_size := 3; cc_head := 0; cc_tail := 0; cc_closed := false |}.
Lemma cavan_cache_is_a_fifo_witness :
  let p := {| p_cache := {| cc_mem := [7; 8; 0]; cc_size := 3; cc_head := 0; cc_tail := 2; cc_closed := false |};
              p_writer := WAsleep 2; p_reader := RReady []; to_rd := false; to_wr := false |} in
  rtc (any_step [7; 8; 9] 3 0 0) (started 3 pipe_of_3) p ∧
  ∃ q, contents (p_cache p) q ∧ got_by (p_reader p) ++ q = take (Z.to_nat (put_by (p_writer p))) [7; 8; 9].
Proof.
  intros p. assert (rtc (any_step [7; 8; 9] 3 0 0) (started 3 pipe_of_3) p) as Hst.
  { apply rtc_once. exists Runs. apply (step_write [7; 8; 9] 3 0 0 (cavan_cache_open pipe_of_3) 0 (RReady []) false false (Waits 2)
      {| cc_mem := [7; 8; 0]; cc_size := 3; cc_head := 0; cc_tail := 2; cc_closed := false |} true). reflexivity. }
  split; [exact Hst|]. exact (proj1 (cavan_cache_is_a_fifo pipe_of_3 [7; 8; 9] 3 0 0 p ltac:(done) ltac:(done) ltac:(lia) ltac:(lia) Hst)).
Defined.

(** C3: No wake-up call is lost and no schedule blocks: from every state that an
    open pipe of at least two bytes can reach while a writer sends [data] and a
    reader waits for as many bytes without a timeout, there is a bound on the
    number of steps the two threads can still take, and where neither can take
    one the writer has returned its count and the reader has the data. *)
Theorem cavan_cache_transfer_completes c data p :
  1 < cc_size c < 2 ^ 64 → zlen (cc_mem c) = cc_size c →
  rtc (any_step data (zlen data) 0 0) (started (zlen data) c) p → cc_closed (p_cache p) = false →
  let runs := runs data (zlen data) 0 0 in
  (∃ b, ∀ k p', nsteps runs k p p' → (k ≤ b)%nat) ∧
  ∀ p', rtc runs p p' → (∀ p'', ¬ runs p' p'') → p_writer p' = WReturned (zlen data) ∧ p_reader p' = RReturned data.
Proof.
  intros Hs Hm Hst Hopen r. pose proof (zlen_nonneg data) as Hn.
  assert (pipe_inv data (zlen data) 0 0 (cc_size c) p) as Hi.
  { eapply reachable_inv; [exact Hn|done|exact Hst|]. apply started_inv; [done|done|lia|done]. }
  clear Hst. pose proof (runs_fewer data (zlen data) 0 0 (cc_size c) Hn (Z.le_refl 0)) as Hfewer.
  pose proof (step_inv data (zlen data) 0 0 (cc_size c) Hn (Z.le_refl 0) Runs) as Hstep.
  pose proof (reader_runs data (zlen data) 0 0 (cc_size c) (Z.le_refl 0)) as Hreader. split.
  - exists (Z.to_nat (steps_left data (zlen data) p)). intros k p' Hk.
    assert (Z.of_nat k ≤ steps_left data (zlen data) p); [|lia]. clear Hopen. revert Hi.
    induction Hk as [p|k p1 p2 p3 H12 _ IH]; intros Hi; [by eapply steps_left_nonneg|].
    destruct (Hfewer _ _ H12 Hi) as [Hlt _]. specialize (IH (Hstep _ _ H12 Hi)). lia.
  - intros p' Hst. assert (pipe_inv data (zlen data) 0 0 (cc_size c) p' ∧ cc_closed (p_cache p') = false) as [Hi' Ho'].
    { clear Hm Hs. induction Hst as [|p1 p2 p3 H12 _ IH]; [done|]. destruct (Hfewer _ _ H12 Hi) as [_ Hc].
      apply IH; [by rewrite Hc|by eapply Hstep]. }
    clear Hi Hopen Hst. intros Hstuck. pose proof Hi' as [(q & C & Hq & Hw & Hr) Hsize Hput Hasl Hret Hgot Hle Hcl].
    destruct (Hcl Ho') as [Erd Ewr]. pose proof (zlen_nonneg q).
    assert (zlen (got_by (p_reader p')) + zlen q = put_by (p_writer p')) as Hlen.
    { rewrite <-zlen_app, Hq. unfold zlen in *. rewrite length_take. lia. }
    destruct (p_writer p') as [i|i|k] eqn:Ew; [by destruct (writer_runs _ _ _ _ _ _ i Hi' Ew) as [? ?%Hstuck]| |]; simpl in *.
    + specialize (Hasl i eq_refl). destruct (Hw i eq_refl) as [?|[_ Hfull]]; [congruence|].
      destruct (p_reader p') as [g|g|g|g] eqn:Er; [by destruct (Hreader _ g Hi' Er) as [? ?%Hstuck]| | |]; simpl in *.
      * destruct (Hr g eq_refl) as [?|[_ Hempty]]; [congruence|]. lia.
      * destruct Hgot as [?|?]; [lia|congruence].
      * lia.
    + destruct (Hret k eq_refl) as [->|?]; [|congruence]. split; [done|].
      destruct (p_reader p') as [g|g|g|g] eqn:Er; [by destruct (Hreader _ g Hi' Er) as [? ?%Hstuck]| | |]; simpl in *.
      * destruct (Hr g eq_refl) as [?|[_ Hempty]]; [congruence|]. lia.
      * destruct Hgot as [Hg|?]; [|congruence]. f_equal. assert (zlen q = 0) as Hq0 by lia.
        destruct q; [|unfold zlen in Hq0; simpl in Hq0; lia]. rewrite app_nil_r in Hq. rewrite Hq. unfold zlen. rewrite Nat2Z.id. by apply take_ge.
      * lia.
Qed.
Lemma cavan_cache_transfer_completes_witness :
  let data := [7; 8; 9] in let p := started 3 pipe_of_3 in let runs := runs data (zlen data) 0 0 in
  (∃ b, ∀ k p', nsteps runs k p p' → (k ≤ b)%nat) ∧
  ∀ p', rtc runs p p' → (∀ p'', ¬ runs p' p'') → p_writer p' = WReturned (zlen data) ∧ p_reader p' = RReturned data.
Proof.
  intros data p runs. apply (cavan_cache_transfer_completes pipe_of_3 data p); [done|done|apply rtc_refl|done].
Defined.

(** A reader that leaves two bytes behind and a writer that fills a pipe of two
    both sleep. *)
Example reserved_bytes_can_block_both :
  let c := {| cc_mem := [7; 8; 0]; cc_size := 3; cc_head := 0; cc_tail := 2; cc_closed := false |} in
  rtc (any_step [7; 8; 9] 3 2 0) (started 3 pipe_of_3)
    {| p_cache := c; p_writer := WAsleep 2; p_reader := RAsleep []; to_rd := false; to_wr := false |}.
Proof.
  intros c. eapply rtc_l; [exists Runs|apply rtc_once; exists Runs].
  - by apply (step_write _ _ _ _ (cavan_cache_open pipe_of_3) 0 (RReady []) false false (Waits 2) c true).
  - by apply (step_read _ _ _ _ c (WAsleep 2) [] false false (Waits []) c false).
Qed.

(** *** Moving a pointer *)

Lemma cavan_cache_pointer_add_ok c fuel p off : 0 < cc_size c → 0 ≤ p + off → (Z.to_nat (p + off) < fuel)%nat →
  cavan_cache_pointer_add fuel c p off = Ok ((p + off) mod cc_size c).
Proof.
  intros Hs Hp Hf. assert (wp (cavan_cache_pointer_add fuel c p off) (λ r, r = (p + off) mod cc_size c)) as (r & -> & ->)%wp_ok; [|done].
  unfold cavan_cache_pointer_add. apply (wp_loop (λ x, 0 ≤ x ∧ x mod cc_size c = (p + off) mod cc_size c) _ Z.to_nat); [|done|done].
  intros x [Hx Hm]. destruct (Z.leb_spec (cc_size c) x); apply wp_ret.
  - split; [|lia]. split; [lia|]. rewrite <-Hm. replace (x - cc_size c) with (x + -1 * cc_size c) by lia. by rewrite Z.mod_add by lia.
  - by rewrite <-Hm, Z.mod_small by lia.
Qed.
