(* ===== verification/BlockCache.v ===== *)
(** BlockCache: the queue of bytes in blocks, [cavan_block_cache] of
    src/lib/cache.c and src/include/cavan/cache.h.

    The blocks are nodes of a list in a store; [malloc] answers an address that
    is not in the store, or NULL.  The lock that every call takes and releases
    is left out. *)
From S2P Require Import Prelude.

Definition BLOCK_BYTES : Z := 4096.
Record cavan_block_cache_node : Type := {
  bn_buff : list Z;
  bn_position : Z;
  bn_length : Z;
  bn_next : Z;
}.
Record cavan_block_cache : Type := { bc_nodes : gmap Z cavan_block_cache_node; bc_head : Z; bc_tail : Z }.
Abbreviation bprog := (prog cavan_block_cache).

(** ** The operations *)

Definition get_node (a : Z) : bprog cavan_block_cache_node :=
  λ s, match bc_nodes s !! a with Some n => Ok (n, s) | None => Undef end.
Definition set_node (a : Z) (n : cavan_block_cache_node) : bprog unit :=
  λ s, match bc_nodes s !! a with
       | Some _ => Ok (tt, {| bc_nodes := <[a := n]> (bc_nodes s); bc_head := bc_head s; bc_tail := bc_tail s |})
       | None => Undef end.
Definition free_node (a : Z) : bprog unit :=
  λ s, match bc_nodes s !! a with
       | Some _ => Ok (tt, {| bc_nodes := delete a (bc_nodes s); bc_head := bc_head s; bc_tail := bc_tail s |})
       | None => Undef end.
Definition set_block_head (a : Z) : bprog unit :=
  λ s, Ok (tt, {| bc_nodes := bc_nodes s; bc_head := a; bc_tail := bc_tail s |}).
Definition set_block_tail (a : Z) : bprog unit :=
  λ s, Ok (tt, {| bc_nodes := bc_nodes s; bc_head := bc_head s; bc_tail := a |}).

Definition cavan_block_cache_init (s : cavan_block_cache) : cavan_block_cache :=
  {| bc_nodes := bc_nodes s; bc_head := 0; bc_tail := 0 |}.
(** No list is longer than the store. *)
Definition block_fuel (s : cavan_block_cache) : nat := S (size (bc_nodes s)).
Definition cavan_block_cache_deinit : bprog unit :=
  node ← reads bc_head;
  fuel ← reads block_fuel;
  ploop fuel (λ node,
    if node =? 0 then mret (inr tt)
    else n ← get_node node; free_node node;; mret (inl (bn_next n))) node.

Section alloc.
(** The address of a new block, and what its bytes are. *)
Variable malloc : gmap Z cavan_block_cache_node → option (Z * list Z).

Definition cavan_block_cache_alloc : bprog Z := λ s,
  match malloc (bc_nodes s) with
  | None => Ok (0, s)
  | Some (a, b) => Ok (a, {| bc_nodes := <[a := {| bn_buff := b; bn_position := 0; bn_length := 0; bn_next := 0 |}]> (bc_nodes s);
                             bc_head := bc_head s; bc_tail := bc_tail s |})
  end.

Definition block_append (node : Z) (n : cavan_block_cache_node) (buff : list Z) (i len : Z) : bprog unit :=
  m ← lift (memcpy (bn_buff n) (bn_length n) buff i len);
  set_node node {| bn_buff := m; bn_position := bn_position n; bn_length := bn_length n + len; bn_next := bn_next n |}.

(** The node that writing starts at, 0 if none could be allocated. *)
Definition block_to_write : bprog Z :=
  head ← reads bc_head;
  if head =? 0 then
    node ← cavan_block_cache_alloc;
    if node =? 0 then mret 0 else set_block_head node;; set_block_tail node;; mret node
  else reads bc_tail.
Definition cavan_block_cache_write_locked (buff : list Z) (len : Z) : bprog Z :=
  node ← block_to_write;
  if node =? 0 then mret (- ENOMEM)
  else
    ploop (S (S (2 * Z.to_nat len))) (λ '(node, i, len),
      if 0 <? len then
        n ← get_node node;
        let remain := BLOCK_BYTES - bn_length n in
        if remain <? len then
          block_append node n buff i remain;;
          next ← cavan_block_cache_alloc;
          if next =? 0 then mret (inr (- ENOMEM))
          else
            set_block_tail next;;
            n ← get_node node;
            set_node node {| bn_buff := bn_buff n; bn_position := bn_position n; bn_length := bn_length n; bn_next := next |};;
            mret (inl (next, i + remain, len - remain))
        else block_append node n buff i len;; mret (inr 0)
      else mret (inr 0)) (node, 0, len).
End alloc.

(** The bytes copied to [buff], whose count is the answer. *)
Definition cavan_block_cache_read_locked (len : Z) : bprog (list Z) :=
  fuel ← reads block_fuel;
  ploop fuel (λ '(out, len),
    if 0 <? len then
      node ← reads bc_head;
      if node =? 0 then mret (inr out)
      else
        n ← get_node node;
        let remain := bn_length n - bn_position n in
        if remain <? len then
          b ← lift (window (bn_buff n) (bn_position n) remain);
          if bn_length n <? BLOCK_BYTES then
            set_node node {| bn_buff := bn_buff n; bn_position := bn_length n; bn_length := bn_length n; bn_next := bn_next n |};;
            mret (inr (out ++ b))
          else
            set_block_head (bn_next n);; free_node node;;
            mret (inl (out ++ b, len - remain))
        else
          b ← lift (window (bn_buff n) (bn_position n) len);
          set_node node {| bn_buff := bn_buff n; bn_position := bn_position n + len; bn_length := bn_length n; bn_next := bn_next n |};;
          mret (inr (out ++ b))
    else mret (inr out)) ([], len).

(** ** The bytes queued *)

Definition node_wf (n : cavan_block_cache_node) : Prop :=
  zlen (bn_buff n) = BLOCK_BYTES ∧ 0 ≤ bn_position n ≤ bn_length n ∧ bn_length n ≤ BLOCK_BYTES.
Definition block_bytes (n : cavan_block_cache_node) : list Z := slice (bn_buff n) (bn_position n) (bn_length n - bn_position n).

(** The nodes from address [a] to address [z], each with its address. *)
Fixpoint nodes_to (h : gmap Z cavan_block_cache_node) (a : Z) (l : list (Z * cavan_block_cache_node)) (z : Z) : Prop :=
  match l with
  | [] => a = z
  | (b, n) :: l => a = b ∧ b ≠ 0 ∧ h !! b = Some n ∧ nodes_to h (bn_next n) l z
  end.
Definition bytes_of (l : list (Z * cavan_block_cache_node)) : list Z := concat ((λ x, block_bytes x.2) <$> l).

(** The store holds the nodes of the list and no others; all but the last are
    full. *)
Record queued (s : cavan_block_cache) (l : list (Z * cavan_block_cache_node)) : Prop := {
  qd_nodes : nodes_to (bc_nodes s) (bc_head s) l 0;
  qd_dom : ∀ a, is_Some (bc_nodes s !! a) ↔ a ∈ l.*1;
  qd_nodup : NoDup l.*1;
  qd_wf : Forall (λ x, node_wf x.2) l;
  qd_full : Forall (λ x, bn_length x.2 = BLOCK_BYTES) (removelast l);
  qd_tail : ∀ a, last l.*1 = Some a → bc_tail s = a;
}.

Lemma nodes_to_app h l2 z : ∀ l1 a, nodes_to h a (l1 ++ l2) z ↔ ∃ b, nodes_to h a l1 b ∧ nodes_to h b l2 z.
Proof.
  induction l1 as [|[b n] l1 IH]; intros a; simpl.
  - split; [intros H; by exists a|by intros (b & -> & H)].
  - rewrite IH. naive_solver.
Qed.
Lemma nodes_to_frame h h' z l : ∀ a, (∀ b, b ∈ l.*1 → h' !! b = h !! b) → nodes_to h a l z → nodes_to h' a l z.
Proof.
  induction l as [|[b n] l IH]; intros a Hh; simpl; [done|]. intros (-> & Hb & Hn & Hl). split; [done|]. split; [done|].
  split; [by rewrite Hh by (simpl; by left)|]. apply IH; [|done]. intros c Hc. apply Hh. simpl. by right.
Qed.
Lemma bytes_of_app l1 l2 : bytes_of (l1 ++ l2) = bytes_of l1 ++ bytes_of l2.
Proof. unfold bytes_of. by rewrite fmap_app, concat_app. Qed.
Lemma bytes_of_one x : bytes_of [x] = block_bytes x.2.
Proof. apply app_nil_r. Qed.

Section queued.
Implicit Types (s : cavan_block_cache) (l : list (Z * cavan_block_cache_node)).

Lemma queued_at s l1 t n l2 : queued s (l1 ++ (t, n) :: l2) →
  t ≠ 0 ∧ bc_nodes s !! t = Some n ∧ node_wf n ∧ t ∉ l1.*1 ∧ t ∉ l2.*1.
Proof.
  intros [Hn _ Hnd Hw _ _]. apply nodes_to_app in Hn as (b & _ & -> & Ht & Hn & _). apply Forall_app in Hw as [_ Hw]. apply Forall_cons in Hw as [Hw _].
  rewrite fmap_app in Hnd. simpl in Hnd. apply NoDup_app in Hnd as (_ & H1 & H2). apply NoDup_cons in H2 as [H2 _].
  split_and!; [done|done|done| |done]. intros Hx. apply (H1 t Hx). by left.
Qed.
(** The node at [t] gets other bytes. *)
Lemma queued_set s l1 t n n' l2 : queued s (l1 ++ (t, n) :: l2) → bn_next n' = bn_next n → node_wf n' →
  (l2 ≠ [] → bn_length n' = BLOCK_BYTES) →
  queued {| bc_nodes := <[t := n']> (bc_nodes s); bc_head := bc_head s; bc_tail := bc_tail s |} (l1 ++ (t, n') :: l2).
Proof.
  intros Hq Hnx Hw' Hf'. pose proof (queued_at _ _ _ _ _ Hq) as (Ht0 & Ht & _ & Ht1 & Ht2). destruct Hq as [Hn Hd Hnd Hw Hf Htl].
  assert ((l1 ++ (t, n') :: l2).*1 = (l1 ++ (t, n) :: l2).*1) as E by (by rewrite !fmap_app). split; simpl; rewrite ?E; try done.
  - apply nodes_to_app in Hn as (b & Hn1 & -> & _ & _ & Hn2). apply nodes_to_app. exists t. split.
    + eapply nodes_to_frame; [|exact Hn1]. intros c Hc. rewrite lookup_insert_ne; [done|]. by intros ->.
    + simpl. split; [done|]. split; [done|]. split; [apply lookup_insert_eq|]. rewrite Hnx. eapply nodes_to_frame; [|exact Hn2].
      intros c Hc. rewrite lookup_insert_ne; [done|]. by intros ->.
  - intros a. rewrite <-Hd, lookup_insert. case_decide as Ea; [subst; rewrite Ht; split; by eauto|done].
  - apply Forall_app in Hw as [Hw1 Hw2]. apply Forall_cons in Hw2 as [_ Hw2]. apply Forall_app. split; [done|]. by apply Forall_cons.
  - rewrite removelast_app in Hf |- * by done. apply Forall_app in Hf as [Hf1 Hf2]. apply Forall_app. split; [done|].
    destruct l2 as [|y l2]; [done|]. apply Forall_cons in Hf2 as [_ Hf2]. apply Forall_cons. split; [by apply Hf'|done].
Qed.
(** A new node after the last one, which is full. *)
Lemma queued_more s l1 t n a b : queued s (l1 ++ [(t, n)]) → bn_length n = BLOCK_BYTES →
  a ≠ 0 → bc_nodes s !! a = None → zlen b = BLOCK_BYTES →
  let n' := {| bn_buff := bn_buff n; bn_position := bn_position n; bn_length := bn_length n; bn_next := a |} in
  let x := {| bn_buff := b; bn_position := 0; bn_length := 0; bn_next := 0 |} in
  queued {| bc_nodes := <[t := n']> (<[a := x]> (bc_nodes s)); bc_head := bc_head s; bc_tail := a |} ((l1 ++ [(t, n')]) ++ [(a, x)]).
Proof.
  intros Hq Hfull Ha Hnew Hb n' x. pose proof (queued_at _ _ _ _ _ Hq) as (Ht0 & Ht & Hwt & Ht1 & _). destruct Hq as [Hn Hd Hnd Hw Hf Htl].
  assert (a ∉ l1.*1 ∧ a ≠ t) as [Ha1 Hat].
  { rewrite fmap_app in Hd. split; [|intros ->; congruence]. intros Hx. destruct (proj2 (Hd a)) as [? ?]; [set_solver|congruence]. }
  assert (((l1 ++ [(t, n')]) ++ [(a, x)]).*1 = (l1 ++ [(t, n)]).*1 ++ [a]) as E by (by rewrite !fmap_app). split; simpl; rewrite ?E.
  - apply nodes_to_app in Hn as (c & Hn1 & -> & _). rewrite <-app_assoc. simpl. apply nodes_to_app. exists t. split.
    + eapply nodes_to_frame; [|exact Hn1]. intros c Hc. rewrite !lookup_insert_ne; [done|by intros ->..].
    + simpl. split_and!; try done; [apply lookup_insert_eq|]. rewrite lookup_insert_ne by done. apply lookup_insert_eq.
  - intros c. rewrite elem_of_app, list_elem_of_singleton, <-Hd, !lookup_insert. repeat case_decide; subst.
    + rewrite Ht. split; [by eauto|done].
    + split; [by right|done].
    + split; [by left|intros [?|?]; [done|congruence]].
  - apply NoDup_app. split; [done|]. split; [|apply NoDup_singleton]. intros c Hc ->%list_elem_of_singleton. rewrite fmap_app in Hc. set_solver.
  - apply Forall_app in Hw as [Hw1 _]. apply Forall_app. split; [apply Forall_app; split; [done|]|]; apply Forall_cons; split; try done.
  - rewrite removelast_last. rewrite removelast_last in Hf. apply Forall_app. split; [done|]. by apply Forall_cons.
  - intros c. rewrite last_snoc. by intros [= ->].
Qed.
(** The first node leaves. *)
Lemma queued_pop s a n l : queued s ((a, n) :: l) →
  queued {| bc_nodes := delete a (bc_nodes s); bc_head := bn_next n; bc_tail := bc_tail s |} l.
Proof.
  intros [Hn Hd Hnd Hw Hf Htl]. simpl in *. destruct Hn as (_ & Ha & Hna & Hn). apply NoDup_cons in Hnd as [Hal Hnd]. apply Forall_cons in Hw as [_ Hw].
  split; simpl; try done.
  - eapply nodes_to_frame; [|exact Hn]. intros c Hc. rewrite lookup_delete_ne; [done|]. by intros ->.
  - intros c. rewrite lookup_delete. case_decide; [subst; split; [by intros [? ?]|done]|]. rewrite Hd. set_solver.
  - destruct l; [constructor|]. by apply Forall_cons in Hf as [_ Hf].
  - intros c Hc. apply Htl. destruct l as [|y l]; [done|]. exact Hc.
Qed.
End queued.

(** ** The rules of the accesses *)

Section rules.
Implicit Types (s : cavan_block_cache).
Lemma wpp_get_node s a n (Q : cavan_block_cache_node → cavan_block_cache → Prop) :
  bc_nodes s !! a = Some n → Q n s → wpp (get_node a) s Q.
Proof. intros E HQ. unfold wpp, get_node. by rewrite E. Qed.
Lemma wpp_set_node s a n n' (Q : unit → cavan_block_cache → Prop) : bc_nodes s !! a = Some n →
  Q tt {| bc_nodes := <[a := n']> (bc_nodes s); bc_head := bc_head s; bc_tail := bc_tail s |} → wpp (set_node a n') s Q.
Proof. intros E HQ. unfold wpp, set_node. by rewrite E. Qed.
Lemma wpp_free_node s a n (Q : unit → cavan_block_cache → Prop) : bc_nodes s !! a = Some n →
  Q tt {| bc_nodes := delete a (bc_nodes s); bc_head := bc_head s; bc_tail := bc_tail s |} → wpp (free_node a) s Q.
Proof. intros E HQ. unfold wpp, free_node. by rewrite E. Qed.

Lemma wpp_set_block_head s a (Q : unit → cavan_block_cache → Prop) :
  Q tt {| bc_nodes := bc_nodes s; bc_head := a; bc_tail := bc_tail s |} → wpp (set_block_head a) s Q.
Proof. done. Qed.
Lemma wpp_set_block_tail s a (Q : unit → cavan_block_cache → Prop) :
  Q tt {| bc_nodes := bc_nodes s; bc_head := bc_head s; bc_tail := a |} → wpp (set_block_tail a) s Q.
Proof. done. Qed.

(** Bytes are appended to the last node. *)
Lemma wpp_block_append s l t n buff i len (Q : unit → cavan_block_cache → Prop) :
  queued s (l ++ [(t, n)]) → 0 ≤ i → 0 ≤ len → bn_length n + len ≤ BLOCK_BYTES → i + len ≤ zlen buff →
  (∀ n', let s' := {| bc_nodes := <[t := n']> (bc_nodes s); bc_head := bc_head s; bc_tail := bc_tail s |} in
     queued s' (l ++ [(t, n')]) → bn_length n' = bn_length n + len → bn_next n' = bn_next n →
     bytes_of (l ++ [(t, n')]) = bytes_of (l ++ [(t, n)]) ++ slice buff i len → Q tt s') →
  wpp (block_append t n buff i len) s Q.
Proof.
  intros Hq Hi Hl Hfit Hb HQ. pose proof (queued_at _ _ _ _ _ Hq) as (_ & Ht & (Hz & Hp & Hlen) & _).
  apply wpp_bind. eapply wpp_lift; [apply memcpy_in; lia|]. eapply wpp_set_node; [exact Ht|]. apply HQ; try done.
  - eapply queued_set; [exact Hq|done| |done]. split; simpl; [by rewrite zlen_blit by lia|lia].
  - rewrite !bytes_of_app, <-app_assoc, !bytes_of_one. f_equal. simpl. unfold block_bytes. simpl.
    apply array_ext; [rewrite zlen_app, !zlen_slice; rewrite ?zlen_blit; lia|]. rewrite zlen_slice by (rewrite ?zlen_blit; lia). intros k Hk.
    rewrite get_slice, get_blit by (rewrite ?zlen_blit; lia). case_decide.
    + rewrite get_app_r, zlen_slice by (rewrite ?zlen_slice; lia). rewrite get_slice by lia. f_equal. lia.
    + rewrite get_app_l, get_slice by (rewrite ?zlen_slice; lia). done.
Qed.
End rules.

Lemma queued_fuel s l : queued s l → (length l < block_fuel s)%nat.
Proof.
  intros [_ Hd Hnd _ _ _]. unfold block_fuel. rewrite <-(length_fmap fst). apply Nat.lt_succ_r, nodup_le_size; [done|].
  intros a Ha. by apply Hd.
Qed.

Section write.
Context (malloc : gmap Z cavan_block_cache_node → option (Z * list Z)).
Context (malloc_law : ∀ h a b, malloc h = Some (a, b) → a ≠ 0 ∧ h !! a = None ∧ zlen b = BLOCK_BYTES).

Lemma wpp_alloc s (Q : Z → cavan_block_cache → Prop) :
  (∀ a b, a ≠ 0 → bc_nodes s !! a = None → zlen b = BLOCK_BYTES →
    Q a {| bc_nodes := <[a := {| bn_buff := b; bn_position := 0; bn_length := 0; bn_next := 0 |}]> (bc_nodes s); bc_head := bc_head s; bc_tail := bc_tail s |}) →
  Q 0 s → wpp (cavan_block_cache_alloc malloc) s Q.
Proof using malloc_law.
  intros HQ H0. unfold wpp, cavan_block_cache_alloc. destruct (malloc (bc_nodes s)) as [[a b]|] eqn:E; [|done].
  destruct (malloc_law _ _ _ E) as (? & ? & ?). by apply HQ.
Qed.

(** The node the writing starts at. *)
Lemma wpp_last_node s l (Q : Z → cavan_block_cache → Prop) : queued s l →
  (∀ s' l' t n, queued s' (l' ++ [(t, n)]) → bytes_of (l' ++ [(t, n)]) = bytes_of l → Q t s') → Q 0 s →
  wpp (block_to_write malloc) s Q.
Proof using malloc_law.
  intros Hq HQ H0. unfold block_to_write. wpp_go. pose proof Hq as [Hn Hd _ _ _ Htl]. destruct l as [|x l].
  - simpl in Hn. rewrite Hn. cbn [Z.eqb]. wpp_go. apply wpp_alloc; [|by apply wpp_ret]. intros a b Ha Hnew Hb.
    destruct (Z.eqb_spec a 0); [done|]. apply (HQ _ [] a {| bn_buff := b; bn_position := 0; bn_length := 0; bn_next := 0 |}); [|done].
    split; simpl; try done; [by rewrite lookup_insert_eq| |apply NoDup_singleton| |naive_solver].
    + intros c. rewrite list_elem_of_singleton, lookup_insert. case_decide as E; [subst; split; by eauto|].
      rewrite Hd. simpl. set_solver.
    + repeat constructor; simpl; try done; unfold BLOCK_BYTES; lia.
  - destruct x as [a n]. pose proof Hn as (Ea & Ha & _). rewrite Ea. destruct (Z.eqb_spec a 0); [done|]. wpp_go.
    destruct (exists_last (l := (a, n) :: l)) as (l' & [t n'] & E); [done|]. rewrite E in *.
    assert (bc_tail s = t) as -> by (apply Htl; by rewrite fmap_app; simpl; rewrite last_snoc). by eapply HQ.
Qed.

Lemma cavan_block_cache_write_ok s l buff len : queued s l → 0 ≤ len ≤ zlen buff →
  wpp (cavan_block_cache_write_locked malloc buff len) s (λ r s', ∃ l' j, queued s' l' ∧
    0 ≤ j ≤ len ∧ bytes_of l' = bytes_of l ++ slice buff 0 j ∧ (r = 0 ∧ j = len ∨ r = - ENOMEM)).
Proof using malloc_law.
  intros Hq Hlen. unfold cavan_block_cache_write_locked.
  assert (∃ l' j, queued s l' ∧ 0 ≤ j ≤ len ∧ bytes_of l' = bytes_of l ++ slice buff 0 j ∧ (- ENOMEM = 0 ∧ j = len ∨ - ENOMEM = - ENOMEM)) as Hnone
    by (exists l, 0; rewrite slice_0, app_nil_r; split_and!; try (done || lia); by right).
  apply wpp_bind. eapply wpp_last_node; [exact Hq| |by apply wpp_ret]. intros s1 l1 t n Hq1 Hb1.
  pose proof (queued_at _ _ _ _ _ Hq1) as (Ht0 & _ & _). destruct (Z.eqb_spec t 0); [done|]. clear s Hq Hnone.
  apply (wpp_ploop (λ k '(t, i, n) s, ∃ l1 nt, queued s (l1 ++ [(t, nt)]) ∧ 0 ≤ i ∧ 0 ≤ n ∧ i + n = len ∧
      bytes_of (l1 ++ [(t, nt)]) = bytes_of l ++ slice buff 0 i ∧
      Z.of_nat k = 2 * n + (if bn_length nt =? BLOCK_BYTES then 1 else 0))) with
    (n := Z.to_nat (2 * len + (if bn_length n =? BLOCK_BYTES then 1 else 0))).
  - clear s1 l1 t n Hq1 Hb1 Ht0 n0. intros k [[t i] rem] s (l1 & nt & Hq & Hi & Hrem & Hsum & Hb & Hk).
    pose proof (queued_at _ _ _ _ _ Hq) as (Ht0 & Ht & (Hz & Hp & Hle) & _).
    destruct (Z.ltb_spec 0 rem) as [Hpos|Hpos].
    + apply wpp_bind. eapply wpp_get_node; [exact Ht|]. cbv zeta. destruct (Z.ltb_spec (BLOCK_BYTES - bn_length nt) rem) as [Hfit|Hfit].
      * apply wpp_bind. eapply wpp_block_append; [exact Hq|lia|lia|lia|lia|]. intros n' s' Hq' Hl' Hnx Hb'.
        assert (bytes_of (l1 ++ [(t, n')]) = bytes_of l ++ slice buff 0 (i + (BLOCK_BYTES - bn_length nt))) as Hb2.
        { rewrite Hb', Hb, <-app_assoc. f_equal. by rewrite slice_app by lia. }
        apply wpp_bind, wpp_alloc; [|apply wpp_ret; exists (l1 ++ [(t, n')]), (i + (BLOCK_BYTES - bn_length nt)); split_and!; try (done || lia); by right].
        intros a b Ha Hnew Hbz. destruct (Z.eqb_spec a 0); [done|].
        assert (t ≠ a) by (intros ->; simpl in Hnew; by rewrite lookup_insert_eq in Hnew).
        pose proof (queued_at _ _ _ _ _ Hq') as (_ & Ht' & _).
        apply wpp_bind, wpp_set_block_tail, wpp_bind. eapply wpp_get_node; [simpl; rewrite lookup_insert_ne by done; exact Ht'|].
        apply wpp_bind. eapply wpp_set_node; [simpl; rewrite lookup_insert_ne by done; exact Ht'|]. apply wpp_ret.
        exists (2 * Z.to_nat (rem - (BLOCK_BYTES - bn_length nt)))%nat. split; [revert Hk; zcase; lia|].
        eexists _, _. split; [eapply (queued_more _ _ _ _ a b Hq'); [lia|done|exact Hnew|done]|].
        split_and!; try lia; [|cbn [bn_length]; change (0 =? BLOCK_BYTES) with false; cbv iota; lia]. rewrite bytes_of_app, bytes_of_one, <-Hb2, !bytes_of_app, !bytes_of_one. simpl.
        unfold block_bytes at 2. simpl. by rewrite slice_0, app_nil_r.
      * apply wpp_bind. eapply wpp_block_append; [exact Hq|lia|lia|lia|lia|]. intros n' s' Hq' _ _ Hb'. apply wpp_ret.
        exists (l1 ++ [(t, n')]), (i + rem). split_and!; [done|lia|lia| |by left; lia]. rewrite Hb', Hb, <-app_assoc. f_equal. by rewrite slice_app by lia.
    + apply wpp_ret. exists (l1 ++ [(t, nt)]), i. split_and!; try (done || lia).
  - exists l1, n. split_and!; try (done || lia); [by rewrite slice_0, app_nil_r|]. zcase; lia.
  - zcase; lia.
Qed.
End write.

Lemma cavan_block_cache_read_ok s l len : queued s l → 0 ≤ len →
  wpp (cavan_block_cache_read_locked len) s (λ out s', ∃ l', queued s' l' ∧
    bytes_of l = out ++ bytes_of l' ∧ zlen out = Z.min len (zlen (bytes_of l))).
Proof.
  intros Hq Hlen. unfold cavan_block_cache_read_locked. wpp_go.
  apply (wpp_ploop (λ k '(out, rem) s', ∃ l', queued s' l' ∧ 0 ≤ rem ∧ zlen out + rem = len ∧ bytes_of l = out ++ bytes_of l' ∧ k = length l'))
    with (n := length l).
  - clear s Hq. intros k [out rem] s (l' & Hq & Hrem & Hsum & Hb & ->). destruct (Z.ltb_spec 0 rem) as [Hpos|Hpos].
    2:{ apply wpp_ret. exists l'. split_and!; [done|done|]. rewrite Hb, zlen_app. pose proof (zlen_nonneg (bytes_of l')). lia. }
    wpp_go. pose proof Hq as [Hn _ _ _ Hf _]. destruct l' as [|[a n] l'].
    { simpl in Hn. rewrite Hn. cbn [Z.eqb]. apply wpp_ret. exists []. split_and!; [done|done|]. rewrite Hb, app_nil_r. lia. }
    pose proof (queued_at s [] a n l' Hq) as (Ha0 & Ha & (Hz & Hp & Hle) & _). destruct Hn as [-> _]. destruct (Z.eqb_spec a 0); [done|].
    wpp_go. eapply wpp_get_node; [exact Ha|]. cbv zeta.
    assert (bytes_of ((a, n) :: l') = block_bytes n ++ bytes_of l') as Hcons by done. rewrite Hcons in Hb.
    assert (zlen (block_bytes n) = bn_length n - bn_position n) as Hzb by (apply zlen_slice; lia).
    destruct (Z.ltb_spec (bn_length n - bn_position n) rem) as [Hall|Hpart].
    + wpp_go. eapply wpp_lift; [apply window_in; lia|]. destruct (Z.ltb_spec (bn_length n) BLOCK_BYTES) as [Hlast|Hfull].
      * assert (l' = []) as -> by (destruct l' as [|y l']; [done|]; apply Forall_cons in Hf as [Hf _]; simpl in Hf; lia).
        wpp_go. eapply wpp_set_node; [exact Ha|]. apply wpp_ret. set (n' := {| bn_buff := bn_buff n; bn_position := bn_length n; bn_length := bn_length n; bn_next := bn_next n |}).
        exists [(a, n')]. assert (block_bytes n' = []) as En by (unfold block_bytes; simpl; by rewrite Z.sub_diag).
        split_and!; [apply (queued_set s [] a n n' []); [done|done|split; simpl; lia|done]| |].
        -- rewrite bytes_of_one. simpl. rewrite En, Hb, app_nil_r. simpl. by rewrite app_nil_r.
        -- rewrite Hb, !zlen_app. fold (block_bytes n). change (bytes_of []) with (@nil Z). rewrite zlen_nil. lia.
      * wpp_go. apply wpp_set_block_head. wpp_go. eapply wpp_free_node; [exact Ha|]. wpp_go. fold (block_bytes n).
        exists (length l'). split; [simpl; lia|]. exists l'. split_and!; [exact (queued_pop s a n l' Hq)|lia|rewrite zlen_app; lia|by rewrite Hb, app_assoc|done].
    + wpp_go. eapply wpp_lift; [apply window_in; lia|]. wpp_go. eapply wpp_set_node; [exact Ha|]. apply wpp_ret.
      set (n' := {| bn_buff := bn_buff n; bn_position := bn_position n + rem; bn_length := bn_length n; bn_next := bn_next n |}).
      assert (block_bytes n = slice (bn_buff n) (bn_position n) rem ++ block_bytes n') as En.
      { unfold block_bytes. simpl. replace (bn_length n - bn_position n) with (rem + (bn_length n - (bn_position n + rem))) by lia. apply slice_app; lia. }
      exists ((a, n') :: l'). split_and!.
      * apply (queued_set s [] a n n' l'); [done|done|split; simpl; lia|]. intros Hne. destruct l' as [|y l']; [done|]. by apply Forall_cons in Hf as [Hf _].
      * change (bytes_of ((a, n') :: l')) with (block_bytes n' ++ bytes_of l'). by rewrite Hb, En, <-!app_assoc.
      * rewrite Hb, !zlen_app, Hzb, zlen_slice by lia. pose proof (zlen_nonneg (bytes_of l')). lia.
  - exists l. split_and!; done.
  - by eapply queued_fuel.
Qed.

Lemma cavan_block_cache_deinit_ok s l : queued s l → wpp cavan_block_cache_deinit s (λ _ s', bc_nodes s' = ∅).
Proof.
  intros Hq. unfold cavan_block_cache_deinit. wpp_go.
  apply (wpp_ploop (λ k node s', ∃ l', nodes_to (bc_nodes s') node l' 0 ∧ (∀ a, is_Some (bc_nodes s' !! a) ↔ a ∈ l'.*1) ∧ NoDup l'.*1 ∧ k = length l'))
    with (n := length l); [|by exists l; destruct Hq|by eapply queued_fuel].
  clear s Hq l. intros k node s (l & Hn & Hd & Hnd & ->). destruct l as [|[a n] l]; simpl in Hn.
  - subst. cbn [Z.eqb]. apply wpp_ret. apply map_empty. intros a. apply eq_None_not_Some. rewrite Hd. simpl. set_solver.
  - destruct Hn as (-> & Ha0 & Ha & Hn). destruct (Z.eqb_spec a 0); [done|]. apply NoDup_cons in Hnd as [Hal Hnd].
    wpp_go. eapply wpp_get_node; [exact Ha|]. wpp_go. eapply wpp_free_node; [exact Ha|]. wpp_go. exists (length l). split; [simpl; lia|].
    exists l. split_and!; [|intros c|done|done]; simpl.
    + eapply nodes_to_frame; [|exact Hn]. intros c Hc. rewrite lookup_delete_ne; [done|]. by intros ->.
    + rewrite lookup_delete. case_decide; [subst; split; [by intros [? ?]|done]|]. rewrite Hd. simpl. set_solver.
Qed.

(** C32: The block cache is a queue of bytes.  A write appends its bytes, or a
    part from the front of them when it answers that memory ran out; a read
    takes as many bytes from the front as are wanted and there; the blocks in
    the store are always those of the list, so none leaks, and
    [cavan_block_cache_deinit] frees them all. *)
Theorem cavan_block_cache_is_a_queue malloc s l :
  (∀ h a b, malloc h = Some (a, b) → a ≠ 0 ∧ h !! a = None ∧ zlen b = BLOCK_BYTES) → queued s l →
  (∀ buff len, 0 ≤ len ≤ zlen buff → wpp (cavan_block_cache_write_locked malloc buff len) s (λ r s', ∃ l' j, queued s' l' ∧
    0 ≤ j ≤ len ∧ bytes_of l' = bytes_of l ++ slice buff 0 j ∧ (r = 0 ∧ j = len ∨ r = - ENOMEM))) ∧
  (∀ len, 0 ≤ len → wpp (cavan_block_cache_read_locked len) s (λ out s', ∃ l', queued s' l' ∧
    bytes_of l = out ++ bytes_of l' ∧ zlen out = Z.min len (zlen (bytes_of l)))) ∧
  wpp cavan_block_cache_deinit s (λ _ s', bc_nodes s' = ∅).
Proof.
  intros Hm Hq. split_and!; [intros; by apply cavan_block_cache_write_ok|intros; by apply cavan_block_cache_read_ok|by eapply cavan_block_cache_deinit_ok].
Qed.

Definition malloc_fresh (h : gmap Z cavan_block_cache_node) : option (Z * list Z) :=
  Some (fresh ({[0]} ∪ dom h), replicate (Z.to_nat BLOCK_BYTES) 0).
Lemma cavan_block_cache_is_a_queue_witness :
  let s := cavan_block_cache_init {| bc_nodes := ∅; bc_head := 7; bc_tail := 7 |} in
  wpp (cavan_block_cache_write_locked malloc_fresh [1; 2; 3] 3) s (λ r s', ∃ l' j, queued s' l' ∧
    0 ≤ j ≤ 3 ∧ bytes_of l' = [] ++ slice [1; 2; 3] 0 j ∧ (r = 0 ∧ j = 3 ∨ r = - ENOMEM)).
Proof.
  intros s. refine (proj1 (cavan_block_cache_is_a_queue malloc_fresh s [] _ _) [1; 2; 3] 3 _).
  - intros h a b E. apply (inj Some), pair_equal_spec in E as [<- <-]. pose proof (is_fresh ({[0]} ∪ dom h)) as Hf. split_and!; [set_solver| |].
    + apply not_elem_of_dom. set_solver.
    + unfold zlen. rewrite length_replicate. apply Z2Nat.id. done.
  - split; simpl; [done|intros a; rewrite lookup_empty; set_solver|constructor|constructor|constructor|done].
  - done.
Defined.
