(* ===== verification/Fifo.v ===== *)
(** Fifo: buffered reading and writing over a device, [cavan_fifo] of
    src/lib/cache.c and src/include/cavan/cache.h.

    The device is the pair of callbacks [fifo->read] and [fifo->write], the
    methods of a class with the laws a stream has.  One fifo is used for
    reading or for writing.  The lock that every call takes and releases is
    left out. *)
From S2P Require Import Prelude Ctype.


(** ** The device *)

(** [dev_read] answers a count and the bytes it put into the buffer. *)
Class Device (W : Type) := {
  dev_read : Z → W → (Z * list Z) * W;
  dev_write : list Z → W → Z * W;
  (** What the laws speak of: the bytes still to come, and those sent. *)
  incoming : W → list Z;
  outgoing : W → list Z;
}.
Class DeviceLaws (W : Type) `{Device W} := {
  dev_read_law n w r b w' : 0 ≤ n → dev_read n w = ((r, b), w') →
    outgoing w' = outgoing w ∧ incoming w = b ++ incoming w' ∧ zlen b ≤ n ∧ (r ≤ 0 ∧ b = [] ∨ 0 < r ∧ r = zlen b);
  dev_write_law b w r w' : dev_write b w = (r, w') →
    incoming w' = incoming w ∧ r ≤ zlen b ∧ outgoing w' = outgoing w ++ slice b 0 (Z.max 0 r);
}.

Record cavan_fifo : Type := {
  ff_mem : list Z;
  ff_size : Z;
  ff_data : Z;
  ff_data_end : Z;
  ff_readed : Z;
  ff_available : Z;
}.
Definition set_data (f : cavan_fifo) (d : Z) : cavan_fifo :=
  {| ff_mem := ff_mem f; ff_size := ff_size f; ff_data := d; ff_data_end := ff_data_end f; ff_readed := ff_readed f; ff_available := ff_available f |}.
Definition set_window (f : cavan_fifo) (m : list Z) (d e : Z) : cavan_fifo :=
  {| ff_mem := m; ff_size := ff_size f; ff_data := d; ff_data_end := e; ff_readed := ff_readed f; ff_available := ff_available f |}.
Definition add_readed (f : cavan_fifo) (r : Z) : cavan_fifo :=
  {| ff_mem := ff_mem f; ff_size := ff_size f; ff_data := ff_data f; ff_data_end := ff_data_end f; ff_readed := u64 (ff_readed f + r); ff_available := ff_available f |}.

(** ** The operations *)

(** What the initialiser of the lock and [malloc] answer. *)
Definition cavan_fifo_init (mutex : Z) (block : option (list Z)) (f : cavan_fifo) (size : Z) : Z * cavan_fifo :=
  if mutex <? 0 then (mutex, f)
  else match block with
       | None => (- ENOMEM, f)
       | Some m => (0, {| ff_mem := m; ff_size := size; ff_data := 0; ff_data_end := 0; ff_readed := 0; ff_available := 0 |})
       end.
Definition cavan_fifo_reset (f : cavan_fifo) : cavan_fifo := set_window f (ff_mem f) 0 0.
Definition cavan_fifo_set_available (f : cavan_fifo) (available : Z) : cavan_fifo :=
  {| ff_mem := ff_mem f; ff_size := ff_size f; ff_data := ff_data f; ff_data_end := ff_data_end f;
     ff_readed := ff_data_end f - ff_data f; ff_available := available |}.
Definition cavan_fifo_get_remain (f : cavan_fifo) : Z := u64 (ff_available f - ff_readed f).

Section fifo.
Context {W : Type} `{Device W}.
Abbreviation fprog := (prog (cavan_fifo * W)).

Definition fifo_read (size : Z) : fprog (Z * list Z) := λ '(f, w), let '(rb, w') := dev_read size w in Ok (rb, (f, w')).
Definition fifo_write (b : list Z) : fprog Z := λ '(f, w), let '(r, w') := dev_write b w in Ok (r, (f, w')).
Definition the_fifo : fprog cavan_fifo := reads fst.
Definition put_fifo (f : cavan_fifo) : fprog unit := λ '(_, w), Ok (tt, (f, w)).

(** The answer, and the bytes for the caller's buffer. *)
Definition cavan_fifo_read_cache_locked (size : Z) : fprog (list Z) :=
  f ← the_fifo;
  let rdlen := ff_data_end f - ff_data f in
  let rdlen := if size <? rdlen then size else rdlen in
  b ← lift (window (ff_mem f) (ff_data f) rdlen);
  put_fifo (set_data f (ff_data f + rdlen));;
  mret b.

Definition cavan_fifo_read_raw (size : Z) : fprog (Z * list Z) :=
  f ← the_fifo;
  if 0 <? ff_available f then
    let over := ff_available f <? u64 (ff_readed f + size) in
    let size := if over then u64 (ff_available f - ff_readed f) else size in
    if over && (size =? 0) then mret (0, [])
    else
      '(rdlen, b) ← fifo_read size;
      f ← the_fifo;
      put_fifo (add_readed f rdlen);;
      mret (rdlen, b)
  else fifo_read size.






(** Whole buffers go straight to the device. *)
Definition write_whole (fsize : Z) (buff : list Z) (i size : Z) : fprog (option (Z * Z)) :=
  ploop (S (Z.to_nat size)) (λ '(i, size),
    if fsize <=? size then
      b ← lift (window buff i fsize);
      r ← fifo_write b;
      if negb (r =? fsize) then mret (inr None) else mret (inl (i + fsize, size - fsize))
    else mret (inr (Some (i, size)))) (i, size).

Definition cavan_fifo_write_locked (buff : list Z) (size : Z) : fprog Z :=
  let size_bak := size in
  ploop (S (Z.to_nat size)) (λ '(i, size),
    if negb (size =? 0) then
      f ← the_fifo;
      wrlen ← (if ff_data_end f <? ff_size f then mret (Some (ff_size f - ff_data_end f))
               else
                 b ← lift (window (ff_mem f) 0 (ff_size f));
                 r ← fifo_write b;
                 if negb (r =? ff_size f) then mret None
                 else put_fifo (set_window f (ff_mem f) (ff_data f) 0);; mret (Some (ff_size f)));
      match wrlen with
      | None => mret (inr (- EFAULT))
      | Some wrlen =>
          f ← the_fifo;
          whole ← (if ff_data_end f =? 0 then write_whole (ff_size f) buff i size else mret (Some (i, size)));
          match whole with
          | None => mret (inr (- EFAULT))
          | Some (i, size) =>
              let wrlen := if size <? wrlen then size else wrlen in
              f ← the_fifo;
              m ← lift (memcpy (ff_mem f) (ff_data_end f) buff i wrlen);
              put_fifo (set_window f m (ff_data f) (ff_data_end f + wrlen));;
              mret (inl (i + wrlen, size - wrlen))
          end
      end
    else mret (inr size_bak)) (0, size).

Definition cavan_fifo_fflush_locked : fprog Z :=
  f ← the_fifo;
  if 0 <? ff_data_end f then
    let wrlen := ff_data_end f in
    b ← lift (window (ff_mem f) 0 wrlen);
    r ← fifo_write b;
    if negb (r =? wrlen) then mret (- EFAULT)
    else put_fifo (set_window f (ff_mem f) (ff_data f) 0);; mret wrlen
  else mret 0.
End fifo.

Section rules.
Context {W : Type}.
Implicit Types (f : cavan_fifo) (w : W).
Lemma wpp_the_fifo f w (Q : cavan_fifo → cavan_fifo * W → Prop) : Q f (f, w) → wpp the_fifo (f, w) Q.
Proof. done. Qed.
Lemma wpp_put_fifo f f' w (Q : unit → cavan_fifo * W → Prop) : Q tt (f', w) → wpp (put_fifo f') (f, w) Q.
Proof. done. Qed.
End rules.
Ltac fifo_go := cbv beta zeta; repeat (first [wpp_step|apply wpp_the_fifo|apply wpp_put_fifo]; cbv beta zeta); cbn [fst snd].

(** ** Reading *)


Section reading.
Context {W : Type} `{DeviceLaws W}.
Implicit Types (f : cavan_fifo) (w : W) (s : cavan_fifo * W).












End reading.

(** ** Writing *)

Record writer_ok (f : cavan_fifo) : Prop := {
  wo_mem : zlen (ff_mem f) = ff_size f;
  wo_size : 0 < ff_size f < 2 ^ 63;
  wo_end : 0 ≤ ff_data_end f ≤ ff_size f;
}.

Section writing.
Context {W : Type} `{DeviceLaws W}.
Implicit Types (f : cavan_fifo) (w : W) (s : cavan_fifo * W).

(** The bytes the fifo has taken: sent, or waiting in the buffer. *)
Definition taken_in s : list Z := outgoing s.2 ++ slice (ff_mem s.1) 0 (ff_data_end s.1).
(** A device that takes all it is given. *)
Definition takes_all : Prop := ∀ b w, (dev_write b w).1 = zlen b.
Record write_frame s s' : Prop := {
  wf_ok : writer_ok s'.1;
  wf_size : ff_size s'.1 = ff_size s.1;
  wf_in : incoming s'.2 = incoming s.2;
}.

Lemma wpp_fifo_write f w b (Q : Z → cavan_fifo * W → Prop) :
  (∀ r w', incoming w' = incoming w → (takes_all → r = zlen b) → (r = zlen b → outgoing w' = outgoing w ++ b) → Q r (f, w')) →
  wpp (fifo_write b) (f, w) Q.
Proof using All.
  intros HQ. unfold wpp, fifo_write. destruct (dev_write b w) as [r w'] eqn:E. destruct (dev_write_law b w r w' E) as (Hi & Hr & Ho). simpl. apply HQ; [done| |].
  - intros Ht. specialize (Ht b w). by rewrite E in Ht.
  - intros ->. rewrite Ho, Z.max_r by apply zlen_nonneg. by rewrite slice_all.
Qed.

Lemma write_whole_ok f w fsize buff i n : 0 < fsize → 0 ≤ i → 0 ≤ n → i + n ≤ zlen buff →
  wpp (write_whole fsize buff i n) (f, w) (λ o '(f', w'), f' = f ∧ incoming w' = incoming w ∧
    match o with
    | None => ¬ takes_all
    | Some (i', n') => i ≤ i' ∧ 0 ≤ n' < fsize ∧ i' + n' = i + n ∧ outgoing w' = outgoing w ++ slice buff i (i' - i)
    end).
Proof using All.
  intros Hf Hi Hn Hb. unfold write_whole.
  apply (wpp_ploop (λ k '(i', n') '(f', w'), f' = f ∧ incoming w' = incoming w ∧ i ≤ i' ∧ 0 ≤ n' ∧ i' + n' = i + n ∧
    outgoing w' = outgoing w ++ slice buff i (i' - i) ∧ k = Z.to_nat n')) with (n := Z.to_nat n);
    [|split_and!; try (done || lia); by rewrite Z.sub_diag, slice_0, app_nil_r|lia].
  intros k [i' n'] [f' w'] (-> & Hin & Hi' & Hn' & Hsum & Ho & ->). destruct (Z.leb_spec fsize n') as [Hle|Hlt]; [|by apply wpp_ret].
  apply wpp_bind. eapply wpp_lift; [apply window_in; lia|]. apply wpp_bind, wpp_fifo_write. intros r w2 Hin2 Ht Hr. rewrite zlen_slice in Ht, Hr by lia.
  destruct (Z.eqb_spec r fsize) as [->|Hne]; apply wpp_ret.
  - exists (Z.to_nat (n' - fsize)). split; [lia|]. split_and!; try (done || lia); [by rewrite Hin2|].
    rewrite Hr, Ho, <-app_assoc by done. f_equal. replace (i' + fsize - i) with (i' - i + fsize) by lia. rewrite slice_app by lia. do 2 f_equal. lia.
  - split_and!; [done|by rewrite Hin2|]. by intros ?%Ht.
Qed.

Lemma cavan_fifo_write_locked_ok f w buff n : writer_ok f → 0 ≤ n ≤ zlen buff →
  wpp (cavan_fifo_write_locked buff n) (f, w) (λ r s', (r = n ∧ write_frame (f, w) s' ∧ taken_in s' = taken_in (f, w) ++ slice buff 0 n) ∨ (r = - EFAULT ∧ ¬ takes_all)).
Proof using All.
  intros F Hn. unfold cavan_fifo_write_locked.
  apply (wpp_ploop (λ k '(i, m) s', write_frame (f, w) s' ∧ 0 ≤ i ∧ 0 ≤ m ∧ i + m = n ∧ taken_in s' = taken_in (f, w) ++ slice buff 0 i ∧ k = Z.to_nat m))
    with (n := Z.to_nat n); [|split_and!; try (done || lia); by rewrite slice_0, app_nil_r|lia].
  intros k [i m] [f1 w1] (Hfr & Hi & Hm & Hsum & Hacc & ->). destruct (Z.eqb_spec m 0) as [->|Hm0]; cbn [negb].
  { apply wpp_ret. left. split_and!; [done|done|]. by replace n with i by lia. }
  fifo_go.
  apply (wpp_mono _ _ (λ o s', match o with
    | None => ¬ takes_all
    | Some wrlen => write_frame (f, w) s' ∧ taken_in s' = taken_in (f, w) ++ slice buff 0 i ∧ wrlen = ff_size s'.1 - ff_data_end s'.1 ∧ 0 < wrlen end)).
  - destruct Hfr as [F1 Es Ei]. simpl in *. pose proof F1 as [Hmem Hsz He]. destruct (Z.ltb_spec (ff_data_end f1) (ff_size f1)) as [Hroom|Hfull].
    + apply wpp_ret. split_and!; [by split|done|done|lia].
    + apply wpp_bind. eapply wpp_lift; [apply window_in; lia|]. apply wpp_bind, wpp_fifo_write. intros r w2 Hin Ht Hr. rewrite zlen_slice in Ht, Hr by lia.
      destruct (Z.eqb_spec r (ff_size f1)) as [->|Hne]; [|apply wpp_ret; by intros ?%Ht]. fifo_go. split_and!.
      * split; simpl; [split; simpl; lia|done|congruence].
      * rewrite <-Hacc. unfold taken_in. simpl. rewrite Hr by done. rewrite slice_0, app_nil_r. do 2 f_equal. lia.
      * simpl. lia.
      * lia.
  - intros [wrlen|] [f2 w2] Hw; [|apply wpp_ret; by right]. destruct Hw as (Hfr2 & Hacc2 & -> & Hpos). fifo_go.
    apply (wpp_mono _ _ (λ o s', match o with
      | None => ¬ takes_all
      | Some (i', m') => s'.1 = f2 ∧ write_frame (f, w) s' ∧ i ≤ i' ∧ 0 ≤ m' ∧ i' + m' = n ∧ taken_in s' = taken_in (f, w) ++ slice buff 0 i' end)).
    + destruct (Z.eqb_spec (ff_data_end f2) 0) as [E0|E0]; [|apply wpp_ret; done].
      eapply wpp_mono; [apply write_whole_ok; [simpl in *; lia|lia|lia|lia]|]. intros [[i' m']|] [f3 w3] (-> & Hin & Hw); [|done].
      destruct Hw as (Hi' & Hm' & Hs' & Ho). split_and!; try (done || lia).
      * destruct Hfr2. split; simpl in *; [done|done|congruence].
      * unfold taken_in in *. simpl in *. rewrite E0 in *. rewrite slice_0, app_nil_r in *. rewrite Ho, Hacc2, <-app_assoc. f_equal.
        replace i' with (i + (i' - i)) at 2 by lia. by rewrite slice_app by lia.
    + intros [[i' m']|] [f3 w3]; [|intros Hw; apply wpp_ret; by right]. cbn [fst snd]. intros (-> & Hfr3 & Hi' & Hm' & Hs' & Hacc3). fifo_go.
      pose proof (wf_ok _ _ Hfr3) as [Hmem Hsz He]. cbn [fst] in *.
      set (k := if m' <? ff_size f2 - ff_data_end f2 then m' else ff_size f2 - ff_data_end f2).
      assert (0 ≤ k ≤ m' ∧ k ≤ ff_size f2 - ff_data_end f2 ∧ (0 < m' → 0 < k)) as (Hk & Hke & Hkp) by (unfold k; zcase; lia).
      eapply wpp_lift; [apply memcpy_in; lia|]. fifo_go. exists (Z.to_nat (m' - k)). split; [lia|]. split_and!; try lia.
      * destruct Hfr3. split; simpl in *; [split; simpl; rewrite ?zlen_blit; lia|done|done].
      * rewrite slice_app, app_assoc, <-Hacc3 by lia. unfold taken_in. simpl. rewrite <-app_assoc. f_equal.
        apply array_ext; [rewrite zlen_app, !zlen_slice; rewrite ?zlen_blit; lia|]. intros j Hj. rewrite zlen_slice in Hj by (rewrite ?zlen_blit; lia).
        rewrite get_slice, get_blit by (rewrite ?zlen_blit; lia). case_decide.
        -- rewrite get_app_r, zlen_slice by (rewrite ?zlen_slice; lia). rewrite get_slice by lia. f_equal; lia.
        -- rewrite get_app_l, get_slice by (rewrite ?zlen_slice; lia). done.
Qed.

Lemma cavan_fifo_fflush_locked_ok f w : writer_ok f →
  wpp cavan_fifo_fflush_locked (f, w) (λ r s', (r = ff_data_end f ∧ write_frame (f, w) s' ∧ ff_data_end s'.1 = 0 ∧ outgoing s'.2 = taken_in (f, w)) ∨ (r = - EFAULT ∧ ¬ takes_all)).
Proof using All.
  intros F. pose proof F as [Hmem Hsz He]. unfold cavan_fifo_fflush_locked. fifo_go. destruct (Z.ltb_spec 0 (ff_data_end f)) as [Hp|Hz].
  - fifo_go. eapply wpp_lift; [apply window_in; lia|]. apply wpp_bind, wpp_fifo_write. intros r w2 Hin Ht Hr. rewrite zlen_slice in Ht, Hr by lia.
    destruct (Z.eqb_spec r (ff_data_end f)) as [->|Hne]; [|apply wpp_ret; right; split; [done|by intros ?%Ht]]. fifo_go. left.
    split_and!; [done| |done|]; [split; simpl; [split; simpl; lia|done|done]|]. simpl. by rewrite Hr.
  - apply wpp_ret. left. assert (ff_data_end f = 0) as E by lia. split_and!; [done|by split|done|]. unfold taken_in. simpl. by rewrite E, slice_0, app_nil_r.
Qed.
End writing.

(** ** What the fifo promises *)


(** Buffered writing over any device: a write of [n] bytes answers [n] and
    the bytes are, in order, behind those taken before, partly sent and partly
    in the buffer; a flush sends what the buffer holds.  -EFAULT is answered
    only when the device did not take all it was given. *)
Theorem cavan_fifo_buffers_writes {W} `{DeviceLaws W} f (w : W) buff n :
  writer_ok f → 0 ≤ n ≤ zlen buff →
  wpp (cavan_fifo_write_locked buff n) (f, w) (λ r s',
    (r = n ∧ write_frame (f, w) s' ∧ taken_in s' = taken_in (f, w) ++ slice buff 0 n) ∨ (r = - EFAULT ∧ ¬ takes_all (W := W))) ∧
  wpp cavan_fifo_fflush_locked (f, w) (λ r s',
    (r = ff_data_end f ∧ write_frame (f, w) s' ∧ ff_data_end s'.1 = 0 ∧ outgoing s'.2 = taken_in (f, w)) ∨ (r = - EFAULT ∧ ¬ takes_all (W := W))).
Proof. intros F Hn. split; [by apply cavan_fifo_write_locked_ok|by apply cavan_fifo_fflush_locked_ok]. Qed.

(** A device of two lists that reads at most two bytes at a time. *)
#[export] Instance lists_device : Device (list Z * list Z) := {
  dev_read n '(i, o) := let b := slice i 0 (Z.min n 2) in ((zlen b, b), (drop (length b) i, o));
  dev_write b '(i, o) := (zlen b, (i, o ++ b));
  incoming := fst;
  outgoing := snd;
}.
#[export] Instance lists_device_laws : DeviceLaws (list Z * list Z).
Proof.
  split.
  - intros n [i o] r b [i' o'] Hn. unfold dev_read, lists_device. intros [= <- <- <- <-]. split_and!; simpl; [done| | |].
    + unfold slice. rewrite drop_0, length_take. rewrite <-(take_drop (Z.to_nat (Z.min n 2) `min` length i) i) at 1. f_equal.
      destruct (decide (Z.to_nat (Z.min n 2) ≤ length i)%nat); [by rewrite Nat.min_l|]. rewrite Nat.min_r, !take_ge by lia. done.
    + unfold slice, zlen. rewrite length_take. lia.
    + destruct (slice i 0 (Z.min n 2)); [by left|right; unfold zlen; simpl; lia].
  - intros b [i o] r [i' o']. unfold dev_write, lists_device. intros [= <- <- <-]. split_and!; simpl; [done|done|].
    rewrite Z.max_r by apply zlen_nonneg. by rewrite slice_all.
Qed.
Definition fifo_of_4 : cavan_fifo :=
  {| ff_mem := [0; 0; 0; 0]; ff_size := 4; ff_data := 0; ff_data_end := 0; ff_readed := 0; ff_available := 0 |}.

Lemma cavan_fifo_buffers_writes_witness :
  let s : cavan_fifo * (list Z * list Z) := (fifo_of_4, ([], [])) in
  wpp (cavan_fifo_write_locked [1; 2; 3; 4; 5; 6] 6) s (λ r s',
    (r = 6 ∧ write_frame s s' ∧ taken_in s' = taken_in s ++ slice [1; 2; 3; 4; 5; 6] 0 6) ∨ (r = - EFAULT ∧ ¬ takes_all (W := list Z * list Z))).
Proof.
  intros s. apply (cavan_fifo_buffers_writes fifo_of_4 ([], []) [1; 2; 3; 4; 5; 6] 6); [split; simpl; unfold zlen; simpl; lia|unfold zlen; simpl; lia].
Defined.

(** [readed] is corrected by a negative count too: after a read that fails, ten
    of the five bytes allowed remain. *)
Definition failing_device : Device unit :=
  {| dev_read _ w := ((- 5, []), w); dev_write _ w := (- 5, w); incoming _ := []; outgoing _ := [] |}.
Example failed_read_raises_the_limit :
  match cavan_fifo_read_raw (H := failing_device) 4 (cavan_fifo_set_available fifo_of_4 5, tt) with
  | Ok ((r, _), (f, _)) => (r, cavan_fifo_get_remain (cavan_fifo_set_available fifo_of_4 5), cavan_fifo_get_remain f)
  | _ => (0, 0, 0)
  end = (-5, 5, 10).
Proof. by vm_compute. Qed.

(** Six bytes are in the buffer when the limit is set to four: the count of the
    bytes that remain wraps around. *)
Example limit_below_the_buffered :
  cavan_fifo_get_remain (cavan_fifo_set_available {| ff_mem := [1; 2; 3; 4; 5; 6]; ff_size := 6; ff_data := 0; ff_data_end := 6; ff_readed := 0; ff_available := 0 |} 4)
  = 2 ^ 64 - 2.
Proof. by vm_compute. Qed.
