(* ===== verification/FileCache.v ===== *)
(** FileCache: files read and written through two byte caches, [file_cache] of
    src/lib/cache.c and src/include/cavan/cache.h.

    The callbacks [read_blocks] and [write_blocks] are parameters; a NULL one
    is [None].  [read_blocks] answers how many blocks it read and their bytes,
    which it put at the start of the buffer.  The descriptor, the path and the
    system calls of [file_cache_init] and [file_cache_deinit] are left out. *)
From S2P Require Import Prelude Cache.

Definition DEFAULT_BLOCK_SIZE : Z := 512.
Definition DEFAULT_CACHE_BLOCKS : Z := 128.

Record file_cache : Type := {
  fc_cache_blocks : Z;
  fc_block_size : Z;
  fc_read_pointer : Z;
  fc_write_pointer : Z;
  fc_read_cache : mem_cache;
  fc_write_cache : mem_cache;
}.
Definition set_read (c : file_cache) (m : mem_cache) (p : Z) : file_cache :=
  {| fc_cache_blocks := fc_cache_blocks c; fc_block_size := fc_block_size c; fc_read_pointer := p;
     fc_write_pointer := fc_write_pointer c; fc_read_cache := m; fc_write_cache := fc_write_cache c |}.
Definition set_write (c : file_cache) (m : mem_cache) (p : Z) : file_cache :=
  {| fc_cache_blocks := fc_cache_blocks c; fc_block_size := fc_block_size c; fc_read_pointer := fc_read_pointer c;
     fc_write_pointer := p; fc_read_cache := fc_read_cache c; fc_write_cache := m |}.
(** [n] bytes in use from [tail] on, in a buffer that holds [b]. *)
Definition loaded (m : mem_cache) (b : list Z) (tail head free : Z) : mem_cache :=
  {| mc_buff := b; mc_size := mc_size m; mc_free_size := free; mc_head := head; mc_tail := tail |}.

(** ** The operations *)

(** The blocks that the two calls of [malloc] answer. *)
Definition ffile_cache_init (cache : option file_cache) (read_size write_size : Z) (b1 b2 : option (list Z)) : Z * option file_cache :=
  match cache with
  | None => (- EINVAL, None)
  | Some c =>
      match mem_cache_init (Some (fc_read_cache c)) read_size b1 with
      | (ret, Some rc) =>
          let c := set_read c rc (fc_read_pointer c) in
          if ret <? 0 then (ret, Some c)
          else
            match mem_cache_init (Some (fc_write_cache c)) write_size b2 with
            | (ret, Some wc) =>
                let c := set_write c wc (fc_write_pointer c) in
                if ret <? 0 then (ret, Some c) else (0, Some c)
            | (ret, None) => (ret, Some c)
            end
      | (ret, None) => (ret, Some c)
      end
  end.

Section callbacks.
Context {W : Type}.
Variable read_blocks : option (file_cache → Z → W → (Z * list Z) * W).
Variable write_blocks : option (file_cache → list Z → Z → W → Z * W).
Abbreviation cprog := (prog (file_cache * W)).

Definition the_cache : cprog file_cache := reads fst.
Definition put_cache (c : file_cache) : cprog unit := λ '(_, w), Ok (tt, (c, w)).
Definition blocks_in (rb : file_cache → Z → W → (Z * list Z) * W) (count : Z) : cprog (Z * list Z) :=
  λ '(c, w), let '(r, w') := rb c count w in Ok (r, (c, w')).
Definition blocks_out (wb : file_cache → list Z → Z → W → Z * W) (b : list Z) (count : Z) : cprog Z :=
  λ '(c, w), let '(r, w') := wb c b count w in Ok (r, (c, w')).

Definition file_cache_fill : cprog Z :=
  match read_blocks with
  | None => mret (- EINVAL)
  | Some rb =>
      c ← the_cache;
      '(readblk, b) ← blocks_in rb (fc_cache_blocks c);
      if readblk <? 0 then mret readblk
      else
        let rc := fc_read_cache c in
        m ← lift (memcpy (mc_buff rc) 0 b 0 (zlen b));
        put_cache (set_read c (loaded rc m 0 0 (mc_size rc - readblk * fc_block_size c)) (fc_read_pointer c + readblk));;
        mret readblk
  end.

(** The answer and the caller's buffer. *)
Definition file_cache_read (fuel : nat) (buff : list Z) (size : Z) : cprog (Z * list Z) :=
  ploop fuel (λ '(buff, size, total_read),
    if negb (size =? 0) then
      c ← the_cache;
      '(readlen, buff, rc) ← lift (mem_cache_read (fc_read_cache c) buff size);
      put_cache (set_read c rc (fc_read_pointer c));;
      let total_read := total_read + readlen in
      if readlen =? size then mret (inr (total_read, buff))
      else
        blk ← file_cache_fill;
        if blk <? 0 then mret (inr (blk, buff))
        else if blk =? 0 then mret (inr (total_read, buff))
        else mret (inl (buff, size - readlen, total_read))
    else mret (inr (total_read, buff))) (buff, size, 0).

Definition file_cache_fflush : cprog Z :=
  match write_blocks with
  | None => mret (- EINVAL)
  | Some wb =>
      c ← the_cache;
      let wc := fc_write_cache c in
      '(writelen, b, wc) ← lift (mem_cache_clean wc (replicate (Z.to_nat (mc_size wc)) 0));
      put_cache (set_write c wc (fc_write_pointer c));;
      if writelen =? 0 then mret 0
      else
        writelen ← blocks_out wb b ((writelen + (fc_block_size c - 1)) / fc_block_size c);
        if writelen <? 0 then mret writelen
        else
          c ← the_cache;
          put_cache (set_write c (fc_write_cache c) (fc_write_pointer c + writelen));;
          mret writelen
  end.

Definition file_cache_clean : cprog Z :=
  match write_blocks with
  | None => mret (- EINVAL)
  | Some wb =>
      c ← the_cache;
      let wc := fc_write_cache c in
      writelen ← blocks_out wb (mc_buff wc) (fc_cache_blocks c);
      if writelen <? 0 then mret writelen
      else
        put_cache (set_write c (loaded wc (mc_buff wc) 0 0 (mc_size wc)) (fc_write_pointer c + writelen));;
        mret writelen
  end.

Definition file_cache_write (fuel : nat) (buff : list Z) (size : Z) : cprog Z :=
  let size_bak := size in
  ploop fuel (λ size,
    if negb (size =? 0) then
      c ← the_cache;
      '(written, wc) ← lift (mem_cache_write (fc_write_cache c) buff size);
      put_cache (set_write c wc (fc_write_pointer c));;
      if written =? size then mret (inr size_bak)
      else
        writelen ← file_cache_clean;
        if writelen <? 0 then mret (inr writelen) else mret (inl (size - written))
    else mret (inr size_bak)) size.

(** The write cache starts with the bytes before the offset in its block. *)
Definition file_cache_seek (offset : Z) : cprog Z :=
  match read_blocks with
  | None => undefined
  | Some rb =>
      c ← the_cache;
      let block := offset / fc_block_size c in
      put_cache (set_write (set_read c (fc_read_cache c) block) (fc_write_cache c) block);;
      c ← the_cache;
      '(readblk, b) ← blocks_in rb (fc_cache_blocks c);
      if readblk <? 0 then mret readblk
      else
        let offset := offset mod fc_block_size c in
        let rc := fc_read_cache c in
        let wc := fc_write_cache c in
        m ← lift (memcpy (mc_buff rc) 0 b 0 (zlen b));
        w ← lift (memcpy (mc_buff wc) 0 m 0 (mc_size wc));
        put_cache (set_write (set_read c (loaded rc m offset 0 (mc_size rc - readblk * fc_block_size c + offset)) (fc_read_pointer c + readblk))
          (loaded wc w 0 offset (mc_size wc - offset)) (fc_write_pointer c));;
        mret 0
  end.

(** ** Within one cache *)

Lemma wpp_the_cache c (w : W) (Q : file_cache → file_cache * W → Prop) : Q c (c, w) → wpp the_cache (c, w) Q.
Proof using. done. Qed.
Lemma wpp_put_cache c c' (w : W) (Q : unit → file_cache * W → Prop) : Q tt (c', w) → wpp (put_cache c') (c, w) Q.
Proof using. done. Qed.

(** A read of bytes that are in the cache takes them from its front, and a
    write there is room for puts them behind; the device is not asked. *)
Lemma file_cache_read_held fuel c w q buff n : holds (fc_read_cache c) q → 0 ≤ n ≤ zlen buff → n ≤ zlen q →
  wpp (file_cache_read (S fuel) buff n) (c, w) (λ '(r, out) '(c', w'), w' = w ∧ r = n ∧
    out = slice q 0 n ++ drop (Z.to_nat n) buff ∧ holds (fc_read_cache c') (drop (Z.to_nat n) q)).
Proof using.
  intros Hc Hn Hq. apply (wpp_ploop (λ k '(b, m, t) s, s = (c, w) ∧ b = buff ∧ m = n ∧ t = 0 ∧ k = 0%nat)) with (n := 0%nat); [|done|lia].
  intros k [[b m] t] s (-> & -> & -> & -> & ->). destruct (Z.eqb_spec n 0) as [->|Hn0]; cbn [negb].
  - by apply wpp_ret.
  - apply wpp_bind, wpp_the_cache. destruct (mem_cache_read_ok _ _ buff n Hc Hn) as (rc & E & Hrc & _). rewrite Z.min_l in E, Hrc by lia.
    apply wpp_bind. eapply wpp_lift; [exact E|]. apply wpp_bind, wpp_put_cache. cbv zeta. rewrite Z.eqb_refl. apply wpp_ret. split_and!; done.
Qed.
Lemma file_cache_write_room fuel c w q buff n : holds (fc_write_cache c) q → 0 ≤ n ≤ zlen buff → n ≤ mc_free_size (fc_write_cache c) →
  wpp (file_cache_write (S fuel) buff n) (c, w) (λ r '(c', w'), w' = w ∧ r = n ∧ holds (fc_write_cache c') (q ++ slice buff 0 n)).
Proof using.
  intros Hc Hn Hq. apply (wpp_ploop (λ k m s, s = (c, w) ∧ m = n ∧ k = 0%nat)) with (n := 0%nat); [|done|lia].
  intros k m s (-> & -> & ->). destruct (Z.eqb_spec n 0) as [->|Hn0]; cbn [negb].
  - apply wpp_ret. split_and!; [done|done|]. by rewrite slice_0, app_nil_r.
  - apply wpp_bind, wpp_the_cache. destruct (mem_cache_write_ok _ _ buff n Hc Hn) as (wc & E & Hwc & _). rewrite Z.min_l in E, Hwc by lia.
    apply wpp_bind. eapply wpp_lift; [exact E|]. apply wpp_bind, wpp_put_cache. rewrite Z.eqb_refl. apply wpp_ret. split_and!; done.
Qed.
End callbacks.

(** ** Across a refill *)

(** The bytes of the next chunk are put at the start of the caller's buffer
    again: of 1, 2 (held) and 3 (read next) a read of three gives 3, 2. *)
Definition two_held : file_cache :=
  let m := {| mc_buff := [1; 2]; mc_size := 2; mc_free_size := 0; mc_head := 0; mc_tail := 0 |} in
  {| fc_cache_blocks := 2; fc_block_size := 1; fc_read_pointer := 2; fc_write_pointer := 0; fc_read_cache := m; fc_write_cache := m |}.
Example read_across_a_refill :
  holds (fc_read_cache two_held) [1; 2] ∧
  match file_cache_read (Some (λ _ _ w, ((1, [3]), w))) 10 [0; 0; 0] 3 (two_held, tt) with Ok (r, _) => Some r | _ => None end = Some (3, [3; 2; 0]).
Proof.
  split; [|by vm_compute]. split; cbn; try (unfold zlen; simpl; lia). intros i Hi.
  assert (i = 0 ∨ i = 1) as [->| ->] by (unfold zlen in Hi; simpl in Hi; lia); done.
Qed.
(** A write of three bytes into a cache of two sends the first two and keeps
    the first again, not the third. *)
Example write_across_a_flush :
  let c := {| fc_cache_blocks := 2; fc_block_size := 1; fc_read_pointer := 0; fc_write_pointer := 0;
              fc_read_cache := fc_read_cache two_held; fc_write_cache := mem_cache_reinit (fc_write_cache two_held) |} in
  match file_cache_write (Some (λ _ b n w, (n, w ++ b))) 10 [7; 8; 9] 3 (c, []) with
  | Ok (r, (c', sent)) => Some (r, sent, get (mc_buff (fc_write_cache c')) 0) | _ => None end = Some (3, [7; 8], 7).
Proof. by vm_compute. Qed.
