(* ===== verification/Text.v ===== *)
(** Text: the strings of src/lib/text.c.

    A string is a run of bytes of the store that ends with a zero byte.  A
    [char] argument is the byte that holds it.  An array of pointers is a list
    with checked accesses; the functions that fill one return it.  NULL is 0. *)
From S2P Require Import Prelude Memory Bignum MemOps TextNum Kmp Ctype.

(** ** Scans *)

(** [while (f( *text)) text++;] *)
Definition skip_while (f : Z → bool) (text : Z) : prog mem Z :=
  tloop (λ text, c ← rd text; mret (if f c then inl (text + 1) else inr text)) text.
(** [while (text < text_end && f( *text)) text++;] *)
Definition skip_within (f : Z → bool) (text text_end : Z) : prog mem Z :=
  ploop (bytes_fuel (text_end - text)) (λ text,
    if text <? text_end then c ← rd text; mret (if f c then inl (text + 1) else inr text)
    else mret (inr text)) text.
(** [while (text >= head && f( *text)) text--;] *)
Definition skip_back (f : Z → bool) (text head : Z) : prog mem Z :=
  ploop (bytes_fuel (text - head + 1)) (λ text,
    if head <=? text then c ← rd text; mret (if f c then inl (text - 1) else inr text)
    else mret (inr text)) text.
(** The same scans for the first character with [f]; NULL when there is none. *)
Definition find_within (f : Z → bool) (text text_end : Z) : prog mem Z :=
  ploop (bytes_fuel (text_end - text)) (λ text,
    if text <? text_end then c ← rd text; mret (if f c then inr text else inl (text + 1))
    else mret (inr 0)) text.
Definition find_back (f : Z → bool) (text head : Z) : prog mem Z :=
  ploop (bytes_fuel (text - head + 1)) (λ text,
    if head <=? text then c ← rd text; mret (if f c then inr text else inl (text - 1))
    else mret (inr 0)) text.

Definition text_tail (text : Z) : prog mem Z := skip_while (λ c, negb (c =? 0)) text.
Definition text_len (text : Z) : prog mem Z := tail ← text_tail text; mret (tail - text).

Definition text_find (text c : Z) : prog mem Z :=
  tloop (λ text, ch ← rd text;
    mret (if ch =? 0 then inr 0 else if ch =? c then inr text else inl (text + 1))) text.
Definition text_nfind (text c count : Z) : prog mem Z :=
  tloop (λ '(text, count), ch ← rd text;
    mret (if ch =? 0 then inr 0
          else if ch =? c then if 0 <? count then inl (text + 1, count - 1) else inr text
          else inl (text + 1, count))) (text, count).
Definition text_nfind2 (text text_end c count : Z) : prog mem Z :=
  ploop (bytes_fuel (text_end - text)) (λ '(text, count),
    if text <? text_end then
      ch ← rd text;
      mret (if ch =? c then if 0 <? count then inl (text + 1, count - 1) else inr text
            else inl (text + 1, count))
    else mret (inr text)) (text, count).
Definition text_find_tail (text c : Z) : prog mem Z :=
  tloop (λ '(text, tmp), ch ← rd text;
    mret (if ch =? 0 then inr tmp else inl (text + 1, if ch =? c then text else tmp))) (text, 0).
Definition text_has_char (text c : Z) : prog mem bool :=
  tloop (λ text, ch ← rd text;
    mret (if ch =? 0 then inr false else if ch =? c then inr true else inl (text + 1))) text.

Definition text_skip_char (text c : Z) : prog mem Z := skip_while (λ ch, ch =? c) text.
Definition text_skip_chars (text chars : Z) : prog mem Z :=
  tloop (λ text, c ← rd text; has ← text_has_char chars c;
    mret (if has : bool then inl (text + 1) else inr text)) text.
Definition text_skip_space := skip_within cavan_isspace.
Definition text_skip_space2 := skip_while cavan_isspace.
Definition text_skip_space_invert := skip_back cavan_isspace.
Definition text_skip_lf := skip_within cavan_islf.
Definition text_skip_lf_invert := skip_back cavan_islf.
Definition text_skip_space_and_lf := skip_within cavan_isspace_lf.
Definition text_skip_space_and_lf_invert := skip_back cavan_isspace_lf.
Definition text_skip_line (text text_end : Z) : prog mem Z :=
  text ← skip_within (λ c, negb (cavan_islf c)) text text_end; text_skip_lf text text_end.
Definition text_skip_name := skip_within cavan_isnameable.
Definition text_skip_name_invert := skip_back cavan_isnameable.
Definition text_find_space := find_within cavan_isspace.
Definition text_find_space2 (text : Z) : prog mem Z :=
  tloop (λ text, c ← rd text;
    mret (if c =? 0 then inr 0 else if (c =? 32) || (c =? 9) || (c =? 12) then inr text else inl (text + 1))) text.
Definition text_find_space_invert := find_back cavan_isspace.
Definition text_find_lf := find_within cavan_islf.
Definition text_find_lf_invert := find_back cavan_islf.
Definition text_find_space_or_lf := find_within cavan_isspace_lf.
Definition text_find_space_or_lf2 (text : Z) : prog mem Z :=
  tloop (λ text, c ← rd text;
    mret (if c =? 0 then inr 0
          else if (c =? 32) || (c =? 9) || (c =? 12) || (c =? 13) || (c =? 10) then inr text
          else inl (text + 1))) text.
Definition text_find_space_or_lf_invert := find_back cavan_isspace_lf.
Definition text_find_name := find_within cavan_isnameable.
Definition text_find_name_invert := find_back cavan_isnameable.

Definition text_find_next_line (text : Z) : prog mem Z :=
  tloop (λ text, c ← rd text;
    mret (if c =? 0 then inr 0 else if c =? 10 then inr (text + 1) else inl (text + 1))) text.
Definition text_find_line (text index : Z) : prog mem Z :=
  ploop (bytes_fuel index) (λ '(text, index),
    if 0 <? index then
      text ← text_find_next_line text;
      mret (if text =? 0 then inr 0 else inl (text, index - 1))
    else mret (inr text)) (text, index).

(** [text_is_*] and the [cavan_is*_text] of ctype.c. *)
Definition all_chars (f : Z → bool) (text : Z) : prog mem bool :=
  text ← skip_while f text; c ← rd text; mret (c =? 0).
Definition text_is_number := all_chars cavan_isdigit.
Definition text_is_float := all_chars cavan_isfloat.
Definition text_is_uppercase := all_chars cavan_isupper.
Definition text_is_lowercase := all_chars cavan_islower.
Definition text_is_letter := all_chars cavan_isletter.

(** ** Copies *)

Definition text_copy (dest src : Z) : prog mem Z :=
  tloop (λ '(dest, src), c ← rd src; wr dest c;;
    mret (if c =? 0 then inr dest else inl (dest + 1, src + 1))) (dest, src).
Definition text_cat (dest src : Z) : prog mem Z := dest ← text_tail dest; text_copy dest src.
(** [while ( *p) *dest++ = *p++;] *)
Definition append_chars (dest p : Z) : prog mem Z :=
  tloop (λ '(dest, p), c ← rd p;
    if c =? 0 then mret (inr dest) else wr dest c;; mret (inl (dest + 1, p + 1))) (dest, p).
Definition text_cat2 (dest : Z) (srcs : list Z) (count : Z) : prog mem Z :=
  '(dest, _) ← while (bytes_fuel count) (λ '(_, i), i <? count) (λ '(dest, i),
    p ← lift (load srcs i);
    dest ← append_chars dest p;
    mret (dest, i + 1)) (dest, 0);
  wr dest 0;;
  mret (dest + 1).
(** The variable arguments are the list [ap]. *)
Definition text_vcat3 (dest count : Z) (ap : list Z) : prog mem Z := text_cat2 dest ap count.
(** The test of the loop is on the pointer into [srcs], not on the string. *)
Definition text_cat4 (dest : Z) (srcs : option (list Z)) : prog mem Z :=
  match srcs with
  | None => wr dest 0;; mret (dest + 1)
  | Some srcs =>
    ploop (S (length srcs)) (λ '(dest, i),
      p ← lift (load srcs i);
      dest ← append_chars dest p;
      mret (inl (dest, i + 1))) (dest, 0)
  end.
Definition text_vcat5 (dest : Z) (ap : list Z) : prog mem Z :=
  dest ← ploop (S (length ap)) (λ '(dest, i),
    p ← lift (load ap i);
    if p =? 0 then mret (inr dest)
    else dest ← append_chars dest p; mret (inl (dest, i + 1))) (dest, 0);
  wr dest 0;;
  mret (dest + 1).

Definition text_ncopy (dest src size : Z) : prog mem Z :=
  let end_src := src + size - 1 in
  dest ← ploop (bytes_fuel size) (λ '(dest, src),
    if src <? end_src then
      c ← rd src;
      if c =? 0 then mret (inr dest) else wr dest c;; mret (inl (dest + 1, src + 1))
    else mret (inr dest)) (dest, src);
  wr dest 0;;
  mret dest.
(** [text_copy16], [32] and [64], for words of [w] bytes. *)
Definition text_copyw (w : nat) (dest src count : Z) : prog mem Z :=
  let k := Z.of_nat w in
  let end_src := src + k * count in
  '(dest, _) ← while (bytes_fuel count) (λ '(_, src), src <? end_src)
    (λ '(dest, src), v ← rdw w src; wrw w dest v;; mret (dest + k, src + k)) (dest, src);
  mret dest.
(** [text_set8], [16], [32] and [64]. *)
Definition text_setw (w : nat) (text value count : Z) : prog mem Z :=
  let k := Z.of_nat w in
  while (bytes_fuel count) (λ p, p <? text + k * count)
    (λ p, wrw w p value;; mret (p + k)) text.
Definition get_ntext_base (src dest start count : Z) : prog mem Z :=
  let src := src + start in
  let src_end := src + count in
  '(_, dest) ← while (bytes_fuel count) (λ '(src, _), src <? src_end)
    (λ '(src, dest), c ← rd src; wr dest c;; mret (src + 1, dest + 1)) (src, dest);
  mret dest.
Definition get_text_region_base (src dest start fin : Z) : prog mem Z := get_ntext_base src dest start (fin - start + 1).

Definition text_ntrans (text size : Z) : prog mem Z :=
  while (bytes_fuel size) (λ '(p, last), p <? last) (λ '(p, last),
    a ← rd p; b ← rd last; wr p b;; wr last a;; mret (p + 1, last - 1)) (text, text + size - 1);;
  mret text.

(** ** Case *)

Definition text2lowercase (text : Z) : prog mem Z :=
  tloop (λ p, c ← rd p;
    if c =? 0 then mret (inr text)
    else (if between 65 90 c then wr p (c - 65 + 97) else mret tt);; mret (inl (p + 1))) text.
(** Adds 'Z', not 'A'. *)
Definition text2uppercase (text : Z) : prog mem Z :=
  tloop (λ p, c ← rd p;
    if c =? 0 then mret (inr text)
    else (if between 97 122 c then wr p (c - 97 + 90) else mret tt);; mret (inl (p + 1))) text.
Definition text_copy_lowercase (dest src : Z) : prog mem Z :=
  tloop (λ '(dest, src), c ← rd src;
    if c =? 0 then mret (inr dest)
    else wr dest (if between 65 90 c then c - 65 + 97 else c);; mret (inl (dest + 1, src + 1))) (dest, src).
Definition text_copy_uppercase (dest src : Z) : prog mem Z :=
  tloop (λ '(dest, src), c ← rd src;
    if c =? 0 then mret (inr dest)
    else wr dest (if between 97 122 c then c - 97 + 65 else c);; mret (inl (dest + 1, src + 1))) (dest, src).
(** [while (( *dest = f( *src))) { dest++; src++; }] *)
Definition map_chars (f : Z → Z) (src dest : Z) : prog mem Z :=
  tloop (λ '(src, dest), c ← rd src; wr dest (f c);;
    mret (if f c =? 0 then inr dest else inl (src + 1, dest + 1))) (src, dest).
Definition map_nchars (f : Z → Z) (src dest size : Z) : prog mem Z :=
  let end_src := src + size in
  ploop (bytes_fuel size) (λ '(src, dest),
    if src <? end_src then
      c ← rd src; wr dest (f c);;
      mret (if f c =? 0 then inr dest else inl (src + 1, dest + 1))
    else mret (inr dest)) (src, dest).
Definition text_to_uppercase := map_chars cavan_uppercase.
Definition text_to_lowercase := map_chars cavan_lowercase.
Definition text_to_nuppercase := map_nchars cavan_uppercase.
Definition text_to_nlowercase := map_nchars cavan_lowercase.

(** ** Comparisons *)

Definition text_cmp (text1 text2 : Z) : prog mem Z :=
  tloop (λ '(text1, text2), a ← rd text1; b ← rd text2;
    mret (if negb (a =? 0) && (a =? b) then inl (text1 + 1, text2 + 1) else inr (schar a - schar b))) (text1, text2).
Definition text_ncmp (text1 text2 size : Z) : prog mem Z :=
  if size =? 0 then mret 0
  else
    let end_text1 := text1 + size - 1 in
    tloop (λ '(text1, text2), a ← rd text1; b ← rd text2;
      mret (if negb (a =? 0) && (text1 <? end_text1) && (a =? b) then inl (text1 + 1, text2 + 1)
            else inr (schar a - schar b))) (text1, text2).
Definition text_hcmp (text1 text2 : Z) : prog mem Z :=
  tloop (λ '(text1, text2), a ← rd text1; b ← rd text2;
    mret (if negb (a =? 0) && (a =? b) then inl (text1 + 1, text2 + 1)
          else inr (if negb (a =? 0) && negb (b =? 0) then schar a - schar b else 0))) (text1, text2).
Definition text_lhcmp (text1 text2 : Z) : prog mem Z :=
  tloop (λ '(text1, text2), a ← rd text1;
    if a =? 0 then mret (inr 0)
    else b ← rd text2; mret (if negb (a =? b) then inr (schar a - schar b) else inl (text1 + 1, text2 + 1))) (text1, text2).
Definition text_rhcmp (text1 text2 : Z) : prog mem Z :=
  tloop (λ '(text1, text2), b ← rd text2;
    if b =? 0 then mret (inr 0)
    else a ← rd text1; mret (if negb (a =? b) then inr (schar a - schar b) else inl (text1 + 1, text2 + 1))) (text1, text2).

(** From the ends of both strings, the terminators included, back to the first
    difference. *)
Definition tails_back (text1 text2 : Z) : prog mem (Z * Z) :=
  t1 ← text_tail text1;
  t2 ← text_tail text2;
  ploop (bytes_fuel (t1 - text1 + 1)) (λ '(t1, t2),
    if (text1 <=? t1) && (text2 <=? t2) then
      a ← rd t1; b ← rd t2; mret (if a =? b then inl (t1 - 1, t2 - 1) else inr (t1, t2))
    else mret (inr (t1, t2))) (t1, t2).
Definition char_diff (t1 t2 : Z) : prog mem Z := a ← rd t1; b ← rd t2; mret (schar a - schar b).
Definition text_tcmp (text1 text2 : Z) : prog mem Z :=
  '(t1, t2) ← tails_back text1 text2;
  if t1 <? text1 then mret (if t2 <? text2 then 0 else -1)
  else if t2 <? text2 then mret 1
  else char_diff t1 t2.
Definition text_ltcmp (text1 text2 : Z) : prog mem Z :=
  '(t1, t2) ← tails_back text1 text2;
  if t1 <? text1 then mret 0
  else if t2 <? text2 then mret 1
  else char_diff t1 t2.
Definition text_rtcmp (text1 text2 : Z) : prog mem Z :=
  '(t1, t2) ← tails_back text1 text2;
  if t1 <? text1 then mret (if t2 <? text2 then 0 else -1)
  else if t2 <? text2 then mret 0
  else char_diff t1 t2.

Definition text_cmp_nocase (text1 text2 : Z) : prog mem Z :=
  tloop (λ '(text1, text2), a ← rd text1; b ← rd text2;
    let diff := schar (cavan_lowercase_simple a) - schar (cavan_lowercase_simple b) in
    mret (if negb (diff =? 0) then inr diff else if a =? 0 then inr 0 else inl (text1 + 1, text2 + 1))) (text1, text2).
(** [diff] is the value of a comparison for equality. *)
Definition text_ncmp_nocase (text1 text2 size : Z) : prog mem Z :=
  if size =? 0 then mret 0
  else
    let end_text1 := text1 + size - 1 in
    ploop (bytes_fuel size) (λ '(text1, text2),
      if text1 <? end_text1 then
        a ← rd text1; b ← rd text2;
        mret (if cavan_lowercase_simple a =? cavan_lowercase_simple b then inr 1 else inl (text1 + 1, text2 + 1))
      else mret (inr 0)) (text1, text2).

Definition text_version_cmp (v1 v2 sep : Z) : prog mem Z :=
  '(v1, v2) ← tloop (λ '(v1, v2), a ← rd v1; b ← rd v2;
    mret (if (a =? b) && negb (a =? 0) then inl (v1 + 1, v2 + 1) else inr (v1, v2))) (v1, v2);
  result ← char_diff v1 v2;
  '(v1, v2) ← tloop (λ '(v1, v2), a ← rd v1; b ← rd v2;
    mret (if negb (a =? 0) && negb (b =? 0) && negb (a =? sep) && negb (b =? sep) then inl (v1 + 1, v2 + 1)
          else inr (v1, v2))) (v1, v2);
  a ← rd v1; b ← rd v2;
  mret (if ((a =? sep) && (b =? sep)) || ((a =? 0) && (b =? 0)) then result
        else if (a =? sep) || (a =? 0) then -1 else 1).

Definition text_match (text1 text2 : Z) : prog mem Z :=
  tloop (λ '(text1, text2), a ← rd text1; b ← rd text2;
    mret (if (a =? 0) || (b =? 0) then inr 0
          else if (a =? 92) || (a =? 42) then inl (text1 + 1, text2 + 1)
          else if negb (a =? b) then inr (schar a - schar b) else inl (text1 + 1, text2 + 1))) (text1, text2).

Definition text_array_find (text : Z) (buff : list Z) (size : Z) : prog mem Z :=
  ploop (bytes_fuel size) (λ size,
    if 0 <=? size then
      p ← lift (load buff size);
      d ← text_cmp text p;
      mret (if d =? 0 then inr size else inl (size - 1))
    else mret (inr (-1))) (size - 1).

(** The literals "y", "yes" and "true" are at [true_texts]. *)
Definition text2bool (true_texts : list Z) (text : Z) : prog mem bool :=
  if text =? 0 then mret false
  else
    number ← text_is_number text;
    if number : bool then '(v, _) ← text2value_unsigned text 10; mret (negb (v =? 0))
    else
      ploop (S (length true_texts)) (λ i,
        if i <? zlen true_texts then
          p ← lift (load true_texts i);
          d ← text_cmp_nocase p text;
          mret (if d =? 0 then inr true else inl (i + 1))
        else mret (inr false)) 0.

(** ** Editing *)

Definition text_delete_char_base (text_in text_out c : Z) : prog mem Z :=
  dest ← tloop (λ '(text_in, dest), ch ← rd text_in;
    if ch =? 0 then mret (inr dest)
    else if ch =? c then mret (inl (text_in + 1, dest))
    else wr dest ch;; mret (inl (text_in + 1, dest + 1))) (text_in, text_out);
  wr dest 0;;
  mret text_out.
Definition text_replace_char (text c_src c_dest : Z) : prog mem Z :=
  tloop (λ p, c ← rd p;
    if c =? 0 then mret (inr text)
    else (if c =? c_src then wr p c_dest else mret tt);; mret (inl (p + 1))) text.
Definition text_replace_char2 (src dest c_src c_dest : Z) : prog mem Z :=
  dest ← tloop (λ '(src, dest), c ← rd src;
    if c =? 0 then mret (inr dest)
    else wr dest (if c =? c_src then c_dest else c);; mret (inl (src + 1, dest + 1))) (src, dest);
  wr dest 0;;
  mret dest.

(** The bytes the searches of memory.c look at. *)
Fixpoint rd_list (p : Z) (n : nat) : prog mem (list Z) :=
  match n with O => mret [] | S n => b ← rd p; l ← rd_list (p + 1) n; mret (b :: l) end.
Fixpoint wr_list (p : Z) (l : list Z) : prog mem unit :=
  match l with [] => mret tt | b :: l => wr p b;; wr_list (p + 1) l end.
(** [mem_kmp_find_base] on the bytes of the store: the address of the match. *)
Definition kmp_find_at (text text_end sub : Z) (sublen : Z) (steps : list Z) : prog mem (option Z) :=
  t ← rd_list text (Z.to_nat (text_end - text));
  sub ← rd_list sub (Z.to_nat sublen);
  r ← lift (mem_kmp_find_base t 0 (text_end - text) sub sublen steps);
  mret ((Z.add text) <$> r).

Section with_stack.
(** What the array of steps on the stack holds before it is filled. *)
Context (garbage : Z → Z).
Definition kmp_steps_of (sub sublen : Z) : prog mem (list Z) :=
  sub ← rd_list sub (Z.to_nat sublen);
  lift (mem_build_kmp_array sub (int_array garbage sublen) sublen).

Definition text_delete_sub_base (text_in text_out sub sublen : Z) : prog mem Z :=
  steps ← kmp_steps_of sub sublen;
  '(text_in, dest) ← tloop (λ '(text_in, dest), c ← rd text_in;
    if c =? 0 then mret (inr (text_in, dest))
    else
      len ← text_len text_in;
      r ← kmp_find_at text_in (text_in + len) sub sublen steps;
      match r with
      | None => mret (inr (text_in, dest))
      | Some text_tmp =>
        '(text_in, dest) ← while (bytes_fuel (text_tmp - text_in)) (λ '(text_in, _), text_in <? text_tmp)
          (λ '(text_in, dest), c ← rd text_in; wr dest c;; mret (text_in + 1, dest + 1)) (text_in, dest);
        mret (inl (text_in + sublen, dest))
      end) (text_in, text_out);
  dest ← append_chars dest text_in;
  wr dest 0;;
  mret text_out.

Definition text_replace_text_base (text_old text_new src srclen dest : Z) : prog mem Z :=
  steps ← kmp_steps_of src srclen;
  len ← text_len text_old;
  let old_end := text_old + len in
  text_new ← ploop (bytes_fuel (old_end - text_old)) (λ '(text_old, text_new),
    if text_old <? old_end then
      r ← kmp_find_at text_old old_end src srclen steps;
      match r with
      | None => text_new ← mem_copy text_new text_old (old_end - text_old); mret (inr text_new)
      | Some p =>
        text_new ← mem_copy text_new text_old (p - text_old);
        text_new ← text_copy text_new dest;
        mret (inl (p + srclen, text_new))
      end
    else mret (inr text_new)) (text_old, text_new);
  wr text_new 0;;
  mret text_new.

Definition text_split_by_text (text sep buff size1 size2 : Z) : prog mem Z :=
  sep_len ← text_len sep;
  len ← text_len text;
  let text_end := text + len in
  let buff_end := buff + size1 * size2 in
  '(text, buff, size1) ← ploop (bytes_fuel size1) (λ '(text, buff, size1),
    if (buff <? buff_end) && (text <? text_end) then
      steps ← kmp_steps_of sep sep_len;
      r ← kmp_find_at text text_end sep sep_len steps;
      match r with
      | None => mret (inr (text, buff, size1))
      | Some p => mem_copy buff text (p - text);; mret (inl (p + sep_len, buff + size2, size1 + 1))
      end
    else mret (inr (text, buff, size1))) (text, buff, 0);
  if text <? text_end then text_copy buff text;; mret (size1 + 1) else mret size1.
End with_stack.

(** ** Blanking and trimming *)

(** [while (f( *text)) *text++ = 0;] and the same backwards down to [head]. *)
Definition clear_while (f : Z → bool) (text : Z) : prog mem Z :=
  tloop (λ text, c ← rd text; if f c then wr text 0;; mret (inl (text + 1)) else mret (inr text)) text.
Definition clear_back (f : Z → bool) (head text : Z) : prog mem Z :=
  ploop (bytes_fuel (text - head + 1)) (λ text,
    if head <=? text then c ← rd text; if f c then wr text 0;; mret (inl (text - 1)) else mret (inr text)
    else mret (inr text)) text.
Definition text_clear_space := clear_while cavan_isspace.
Definition text_clear_space_and_lf := clear_while cavan_isspace_lf.
Definition text_clear_quote := clear_while cavan_isquote.
Definition text_clear_space_and_quote (text : Z) : prog mem Z := text ← text_clear_space text; text_clear_quote text.
Definition text_clear_space_and_lf_and_quote (text : Z) : prog mem Z :=
  text ← text_clear_space_and_lf text; text_clear_quote text.
Definition text_clear_space_invert := clear_back cavan_isspace.
Definition text_clear_space_and_lf_invert := clear_back cavan_isspace_lf.
Definition text_clear_quote_invert := clear_back cavan_isquote.
Definition text_clear_space_and_quote_invert (head text : Z) : prog mem Z :=
  text ← text_clear_space_invert head text; text_clear_quote_invert head text.
Definition text_clear_space_and_lf_and_quote_invert (head text : Z) : prog mem Z :=
  text ← text_clear_space_and_lf_invert head text; text_clear_quote_invert head text.

(** The leading spaces are skipped without a look at [length]. *)
Definition text_strip (text length buff size : Z) : prog mem Z :=
  let buff_end := buff + size - 1 in
  let last := text + length - 1 in
  text ← skip_while cavan_isspace text;
  last ← skip_back cavan_isspace last text;
  '(_, buff) ← ploop (bytes_fuel size) (λ '(text, buff),
    if (text <=? last) && (buff <? buff_end) then
      c ← rd text; wr buff c;; mret (inl (text + 1, buff + 1))
    else mret (inr (text, buff))) (text, buff);
  wr buff 0;;
  mret buff.

Definition text_get_line (text buff index : Z) : prog mem Z :=
  text ← text_find_line text index;
  if text =? 0 then mret 0
  else
    text ← skip_while (λ c, c =? 13) text;
    buff ← tloop (λ '(buff, text), c ← rd text;
      if negb (c =? 0) && negb (c =? 10) && negb (c =? 13) then wr buff c;; mret (inl (buff + 1, text + 1))
      else mret (inr buff)) (buff, text);
    wr buff 0;;
    mret (buff + 1).

(** ** Splitting and joining *)

(** [text_bak] is the static variable of the function, NULL at first. *)
Definition text_tok (text_bak text delim : Z) : prog mem (Z * Z) :=
  if (text =? 0) && (text_bak =? 0) then mret (0, text_bak)
  else
    let temp := if text =? 0 then text_bak else text in
    text_bak ← tloop (λ text_bak, c ← rd text_bak;
      if c =? 0 then mret (inr text_bak)
      else
        f ← text_find delim c;
        if negb (f =? 0) then wr text_bak 0;; mret (inr (text_bak + 1))
        else mret (inl (text_bak + 1))) temp;
    mret (temp, text_bak).

Definition text_split_by_char (text sep : Z) (texts : list Z) (size : Z) : prog mem (Z * list Z) :=
  if size <=? 0 then mret (0, texts)
  else
    texts ← lift (store texts 0 text);
    tloop (λ '(text, index, texts), c ← rd text;
      if c =? 0 then v ← lift (load texts index); mret (inr (if v <? text then index + 1 else index, texts))
      else if c =? sep then
        wr text 0;;
        if index + 1 <? size then
          texts ← lift (store texts (index + 1) (text + 1)); mret (inl (text + 1, index + 1, texts))
        else mret (inr (size, texts))
      else mret (inl (text + 1, index, texts))) (text, 0, texts).

Definition text_split_by_space (text : Z) (texts : list Z) (size : Z) : prog mem (Z * list Z) :=
  if size <=? 0 then mret (0, texts)
  else
    texts ← lift (store texts 0 text);
    tloop (λ '(text, index, texts), c ← rd text;
      v ← lift (load texts index);
      if c =? 0 then
        if v <? text then text_clear_space_and_lf_invert v (text - 1);; mret (inr (index + 1, texts))
        else mret (inr (index, texts))
      else if (c =? 32) || (c =? 9) || (c =? 12) || (c =? 13) || (c =? 10) then
        if v <? text then
          text_clear_space_and_lf_invert v (text - 1);;
          wr text 0;;
          if index + 1 <? size then
            texts ← lift (store texts (index + 1) (text + 1)); mret (inl (text + 1, index + 1, texts))
          else mret (inr (size, texts))
        else texts ← lift (store texts index (text + 1)); mret (inl (text + 1, index, texts))
      else mret (inl (text + 1, index, texts))) (text, 0, texts).

Definition text_join_by_char (text : list Z) (size1 sep buff size2 : Z) : prog mem Z :=
  let buff_end := buff + size2 in
  '(_, buff) ← while (bytes_fuel size1) (λ '(i, buff), (buff <? buff_end) && (i <? size1)) (λ '(i, buff),
    p ← lift (load text i);
    buff ← text_copy buff p;
    wr buff sep;;
    mret (i + 1, buff + 1)) (0, buff);
  let buff := if size1 =? 0 then buff else buff - 1 in
  wr buff 0;;
  mret buff.
Definition text_join_by_text (text : list Z) (size1 sep buff size2 : Z) : prog mem Z :=
  let buff_end := buff + size2 in
  ploop (S (length text)) (λ '(i, buff),
    if buff <? buff_end then
      p ← lift (load text i);
      buff ← text_copy buff p;
      if i <? size1 - 1 then buff ← text_copy buff sep; mret (inl (i + 1, buff)) else mret (inr buff)
    else mret (inr buff)) (0, buff).

Definition text2array (text : Z) (array : list Z) (size sep : Z) : prog mem (Z * list Z) :=
  ploop (bytes_fuel size) (λ '(text, ap, array),
    if ap <? size then
      p ← skip_while (λ c, negb (c =? sep) && negb (c =? 0)) text;
      c ← rd p;
      if c =? sep then
        wr p 0;;
        '(v, _) ← text2value_unsigned text 10;
        array ← lift (store array ap (u32 v));
        mret (inl (p + 1, ap + 1, array))
      else
        '(v, _) ← text2value_unsigned text 10;
        array ← lift (store array ap (u32 v));
        mret (inr (ap + 1, array))
    else mret (inr (ap, array))) (text, 0, array).

(** ** Small ones *)

Definition text_fixup_null (text text_null : Z) : Z := if text =? 0 then text_null else text.
Definition text_fixup_empty (text text_empty : Z) : prog mem Z :=
  if text =? 0 then mret text_empty else c ← rd text; mret (if c =? 0 then text_empty else text).
Definition text_fixup_empty_simple (text : Z) : prog mem Z := text_fixup_empty text 0.
Definition text_get_char (text index : Z) : prog mem Z :=
  text ← (if index <? 0 then text_tail text else mret text);
  rd (text + index).
Definition text_get_escope_letter (c : Z) : Z :=
  if c =? 116 then 9 else if c =? 110 then 10 else if c =? 114 then 13 else if c =? 102 then 12
  else if c =? 98 then 8 else c.

(** ** Strings in the store *)

Lemma ploop_step {S X R} n (body : X → prog S (X + R)) x s (Q : R → S → Prop) :
  wpp (body x) s (λ r s', match r with inl x' => wpp (ploop n body x') s' Q | inr y => Q y s' end) →
  wpp (ploop (Datatypes.S n) body x) s Q.
Proof.
  unfold wpp, ploop. rewrite loop_S. intros H. apply wp_bind. apply wp_bind. eapply wp_mono; [exact H|].
  intros [[x'|y] s'] Hr; exact Hr.
Qed.

(** [l] is what the bytes from [p] on are. *)
Definition chars (s : mem) (p : Z) (l : list Z) : Prop := ∀ i b, l !! i = Some b → s !! (p + Z.of_nat i) = Some b.
Definition is_char (b : Z) : Prop := 0 < b < 256.
(** The string [l] is at [p]. *)
Definition cstring (s : mem) (p : Z) (l : list Z) : Prop := chars s p (l ++ [0]) ∧ Forall is_char l.
(** The store with [l] written from [p] on. *)
Fixpoint written (s : mem) (p : Z) (l : list Z) : mem :=
  match l with [] => s | b :: l => written (<[p := b]> s) (p + 1) l end.
(** Two ranges without a common address. *)
Definition disjoint_from (p n q m : Z) : Prop := p + n ≤ q ∨ q + m ≤ p.

Lemma chars_cons s p b l : chars s p (b :: l) ↔ s !! p = Some b ∧ chars s (p + 1) l.
Proof.
  split.
  - intros H. split; [rewrite <-(H 0%nat b eq_refl); f_equal; lia|].
    intros i c Hi. rewrite <-(H (Datatypes.S i) c Hi). f_equal. lia.
  - intros [H0 H] [|i] c Hi; simpl in Hi; [injection Hi as <-; rewrite Z.add_0_r; done|].
    rewrite <-(H i c Hi). f_equal. lia.
Qed.
Lemma chars_app s p l l' : chars s p (l ++ l') ↔ chars s p l ∧ chars s (p + zlen l) l'.
Proof.
  revert p. induction l as [|b l IH]; intros p; cbn [app].
  - change (zlen []) with 0. rewrite Z.add_0_r. split; [|tauto]. intros H. split; [|done]. intros i c Hi. done.
  - rewrite !chars_cons, IH, zlen_cons. replace (p + 1 + zlen l) with (p + (zlen l + 1)) by lia. tauto.
Qed.
Lemma chars_single s p b : chars s p [b] ↔ s !! p = Some b.
Proof. rewrite chars_cons. split; [tauto|]. intros H. split; [done|]. intros i c Hi. done. Qed.
Lemma chars_lookup s p l a : chars s p l → p ≤ a < p + zlen l → s !! a = Some (get l (a - p)).
Proof.
  intros H Ha. unfold zlen in Ha. destruct (lookup_lt_is_Some_2 l (Z.to_nat (a - p)) ltac:(lia)) as [b Hb].
  unfold get. rewrite (list_lookup_total_correct _ _ _ Hb), <-(H _ _ Hb). f_equal. lia.
Qed.
Lemma chars_ext s s' p l : (∀ a, p ≤ a < p + zlen l → s' !! a = s !! a) → chars s p l → chars s' p l.
Proof.
  intros He H i b Hi. rewrite <-(H i b Hi). apply He. pose proof (lookup_lt_Some _ _ _ Hi). unfold zlen. lia.
Qed.
Lemma chars_live s p l : chars s p l → live s p (zlen l).
Proof. intros H a Ha. eexists. by apply chars_lookup. Qed.

Lemma cstring_nil s p : cstring s p [] ↔ s !! p = Some 0.
Proof. unfold cstring. cbn [app]. rewrite chars_single. split; [tauto|]. intros H. by split. Qed.
Lemma cstring_cons s p b l : cstring s p (b :: l) ↔ s !! p = Some b ∧ is_char b ∧ cstring s (p + 1) l.
Proof. unfold cstring. cbn [app]. rewrite chars_cons, Forall_cons. tauto. Qed.
Lemma cstring_app s p l l' : cstring s p (l ++ l') ↔ chars s p l ∧ Forall is_char l ∧ cstring s (p + zlen l) l'.
Proof. unfold cstring. rewrite <-app_assoc, chars_app, Forall_app. tauto. Qed.
Lemma cstring_ext s s' p l : (∀ a, p ≤ a < p + zlen l + 1 → s' !! a = s !! a) → cstring s p l → cstring s' p l.
Proof.
  intros He [H Hl]. split; [|done]. eapply chars_ext; [|exact H]. intros a Ha. apply He.
  rewrite zlen_app in Ha. change (zlen [0]) with 1 in Ha. lia.
Qed.
Lemma cstring_live s p l : cstring s p l → live s p (zlen l + 1).
Proof. intros [H _]. apply chars_live in H. rewrite zlen_app in H. exact H. Qed.

Lemma live_size_nat s p n : live s p n → 0 ≤ n → (Z.to_nat n ≤ size s)%nat.
Proof. intros Hl Hn. pose proof (live_size s p n Hn Hl). lia. Qed.
Lemma cstring_size s p l : cstring s p l → (length l < size s)%nat.
Proof. intros H%cstring_live%live_size_nat; unfold zlen in *; lia. Qed.

Lemma lookup_written s p l a : written s p l !! a = if decide (p ≤ a < p + zlen l) then l !! Z.to_nat (a - p) else s !! a.
Proof.
  revert s p. induction l as [|b l IH]; intros s p; cbn [written].
  - change (zlen []) with 0. case_decide; [lia|done].
  - pose proof (zlen_nonneg l). rewrite IH, zlen_cons, lookup_insert. repeat case_decide; try (lia || done).
    + replace (Z.to_nat (a - p)) with (Datatypes.S (Z.to_nat (a - (p + 1)))) by lia. done.
    + subst. rewrite Z.sub_diag. done.
Qed.
Lemma written_out s p l a : ¬ (p ≤ a < p + zlen l) → written s p l !! a = s !! a.
Proof. intros Ha. rewrite lookup_written. by case_decide. Qed.
Lemma written_chars s p l : chars (written s p l) p l.
Proof.
  intros i b Hi. pose proof (lookup_lt_Some _ _ _ Hi). rewrite lookup_written. case_decide; [|unfold zlen in *; lia].
  rewrite <-Hi. f_equal. lia.
Qed.
Lemma written_app s p l l' : written s p (l ++ l') = written (written s p l) (p + zlen l) l'.
Proof.
  revert s p. induction l as [|b l IH]; intros s p; cbn [written app]; [by rewrite Z.add_0_r|].
  rewrite IH, zlen_cons. f_equal. lia.
Qed.
Lemma written_live s p l q n : live s q n → live (written s p l) q n.
Proof.
  intros Hl a Ha. rewrite lookup_written. case_decide; [|by apply Hl].
  apply lookup_lt_is_Some_2. unfold zlen in *. lia.
Qed.
Lemma written_cstring s p l q k : disjoint_from p (zlen l) q (zlen k + 1) → cstring s q k → cstring (written s p l) q k.
Proof.
  intros Ha. apply cstring_ext. intros a Hr. apply written_out. unfold disjoint_from, zlen in *. lia.
Qed.
Lemma written_cstring_here s p l : Forall is_char l → cstring (written s p (l ++ [0])) p l.
Proof. intros Hl. split; [apply written_chars|done]. Qed.

(** One character read, for the proofs that follow a string. *)
Ltac rd_char H := apply wpp_bind; eapply wpp_rd; [exact H|]; cbv beta zeta.

(** *** Scans *)

Lemma skip_while_fuel f l c s (Q : Z → mem → Prop) : ∀ n p,
  chars s p (l ++ [c]) → Forall (λ b, f b = true) l → f c = false → (length l < n)%nat → Q (p + zlen l) s →
  wpp (ploop n (λ text, c ← rd text; mret (if f c then inl (text + 1) else inr text)) p) s Q.
Proof.
  induction l as [|b l IH]; intros [|n] p Hs Hl Hc Hn HQ; try (simpl in Hn; lia); apply ploop_step.
  - apply chars_single in Hs. rd_char Hs. rewrite Hc. apply wpp_ret. by rewrite Z.add_0_r in HQ.
  - apply chars_cons in Hs as [H0 Hs]. apply Forall_cons in Hl as [Hb Hl]. rd_char H0. rewrite Hb. apply wpp_ret.
    apply IH; [done..|simpl in Hn; lia|]. rewrite zlen_cons in HQ. replace (p + 1 + zlen l) with (p + (zlen l + 1)) by lia. done.
Qed.
Lemma skip_while_ok f p l c s (Q : Z → mem → Prop) :
  chars s p (l ++ [c]) → Forall (λ b, f b = true) l → f c = false → Q (p + zlen l) s → wpp (skip_while f p) s Q.
Proof.
  intros Hs Hl Hc HQ. apply (skip_while_fuel f l c); [done..| |done].
  apply chars_live, live_size_nat in Hs; [|apply zlen_nonneg]. rewrite zlen_app in Hs. change (zlen [c]) with 1 in Hs.
  unfold text_fuel, zlen in *. lia.
Qed.
Lemma is_char_not_zero l : Forall is_char l → Forall (λ c, negb (c =? 0) = true) l.
Proof. intros H. eapply Forall_impl; [exact H|]. intros c Hc. cbv beta. unfold is_char in Hc. zify. lia. Qed.
Lemma text_tail_ok p l s (Q : Z → mem → Prop) : cstring s p l → Q (p + zlen l) s → wpp (text_tail p) s Q.
Proof. intros [Hs Hl] HQ. by apply (skip_while_ok _ p l 0 s Q Hs (is_char_not_zero l Hl)). Qed.
Lemma text_len_ok p l s (Q : Z → mem → Prop) : cstring s p l → Q (zlen l) s → wpp (text_len p) s Q.
Proof. intros Hs HQ. apply wpp_bind. eapply text_tail_ok; [exact Hs|]. apply wpp_ret. by replace (p + zlen l - p) with (zlen l) by lia. Qed.

(** *** Copies *)

Lemma text_copy_fuel l : ∀ n dest src s (Q : Z → mem → Prop),
  cstring s src l → live s dest (zlen l + 1) → disjoint_from dest (zlen l + 1) src (zlen l + 1) → (length l < n)%nat →
  Q (dest + zlen l) (written s dest (l ++ [0])) →
  wpp (ploop n (λ '(dest, src), c ← rd src; wr dest c;;
    mret (if c =? 0 then inr dest else inl (dest + 1, src + 1))) (dest, src)) s Q.
Proof.
  induction l as [|b l IH]; intros [|n] dest src s Q Hs Hd Ha Hn HQ; try (simpl in Hn; lia); apply ploop_step.
  - apply cstring_nil in Hs. rd_char Hs. apply wpp_bind, wpp_wr; [apply Hd; change (zlen []) with 0; lia|].
    apply wpp_ret. cbv beta iota. by rewrite Z.add_0_r in HQ.
  - apply cstring_cons in Hs as (H0 & Hb & Hs). rewrite zlen_cons in *. rd_char H0.
    pose proof (zlen_nonneg l). apply wpp_bind, wpp_wr; [apply Hd; lia|].
    apply wpp_ret. cbv beta iota. unfold is_char in Hb. rewrite (proj2 (Z.eqb_neq b 0)) by lia.
    assert (u8 b = b) as Eb by (apply wrap_small; lia). rewrite Eb.
    apply IH; [|intros a Hr; rewrite lookup_insert; case_decide; [by eexists|apply Hd; lia]| |simpl in Hn; lia|].
    + eapply cstring_ext; [|exact Hs]. intros a Hr. apply lookup_insert_ne. unfold disjoint_from in Ha. lia.
    + unfold disjoint_from in *. lia.
    + replace (dest + 1 + zlen l) with (dest + (zlen l + 1)) by lia. exact HQ.
Qed.
Lemma text_copy_ok dest src l s (Q : Z → mem → Prop) :
  cstring s src l → live s dest (zlen l + 1) → disjoint_from dest (zlen l + 1) src (zlen l + 1) →
  Q (dest + zlen l) (written s dest (l ++ [0])) → wpp (text_copy dest src) s Q.
Proof. intros Hs Hd Ha HQ. apply (text_copy_fuel l); [done..| |done]. apply cstring_size in Hs. unfold text_fuel. lia. Qed.

Lemma append_chars_fuel l : ∀ n dest src s (Q : Z → mem → Prop),
  cstring s src l → live s dest (zlen l) → disjoint_from dest (zlen l) src (zlen l + 1) → (length l < n)%nat →
  Q (dest + zlen l) (written s dest l) →
  wpp (ploop n (λ '(dest, p), c ← rd p;
    if c =? 0 then mret (inr dest) else wr dest c;; mret (inl (dest + 1, p + 1))) (dest, src)) s Q.
Proof.
  induction l as [|b l IH]; intros [|n] dest src s Q Hs Hd Ha Hn HQ; try (simpl in Hn; lia); apply ploop_step.
  - apply cstring_nil in Hs. rd_char Hs. apply wpp_ret. by rewrite Z.add_0_r in HQ.
  - apply cstring_cons in Hs as (H0 & Hb & Hs). rewrite zlen_cons in *. rd_char H0.
    pose proof (zlen_nonneg l). unfold is_char in Hb. rewrite (proj2 (Z.eqb_neq b 0)) by lia.
    apply wpp_bind, wpp_wr; [apply Hd; lia|]. apply wpp_ret. cbv beta iota.
    assert (u8 b = b) as Eb by (apply wrap_small; lia). rewrite Eb.
    apply IH; [|intros a Hr; rewrite lookup_insert; case_decide; [by eexists|apply Hd; lia]| |simpl in Hn; lia|].
    + eapply cstring_ext; [|exact Hs]. intros a Hr. apply lookup_insert_ne. unfold disjoint_from in Ha. lia.
    + unfold disjoint_from in *. lia.
    + replace (dest + 1 + zlen l) with (dest + (zlen l + 1)) by lia. exact HQ.
Qed.
Lemma append_chars_ok dest src l s (Q : Z → mem → Prop) :
  cstring s src l → live s dest (zlen l) → disjoint_from dest (zlen l) src (zlen l + 1) →
  Q (dest + zlen l) (written s dest l) → wpp (append_chars dest src) s Q.
Proof. intros Hs Hd Ha HQ. apply (append_chars_fuel l); [done..| |done]. apply cstring_size in Hs. unfold text_fuel. lia. Qed.

(** *** Comparisons *)

Lemma common_prefix (l1 l2 : list Z) : ∃ k r1 r2, l1 = k ++ r1 ∧ l2 = k ++ r2 ∧ (r1 = [] ∨ r2 = [] ∨ hd 0 r1 ≠ hd 0 r2).
Proof.
  revert l2. induction l1 as [|a l1 IH]; intros [|b l2]; try (exists []; do 2 eexists; split_and!; [done..|by (left + (right; left))]).
  destruct (decide (a = b)) as [<-|Hn]; [|exists [], (a :: l1), (b :: l2); split_and!; [done..|by right; right]].
  destruct (IH l2) as (k & r1 & r2 & -> & -> & H). by exists (a :: k), r1, r2.
Qed.
Lemma common_suffix (l1 l2 : list Z) : ∃ k r1 r2, l1 = r1 ++ k ∧ l2 = r2 ++ k ∧ (r1 = [] ∨ r2 = [] ∨ last r1 ≠ last r2).
Proof.
  destruct (common_prefix (reverse l1) (reverse l2)) as (k & r1 & r2 & E1 & E2 & H).
  exists (reverse k), (reverse r1), (reverse r2).
  split_and!; [by rewrite <-reverse_app, <-E1, reverse_involutive|by rewrite <-reverse_app, <-E2, reverse_involutive|].
  rewrite <-!head_reverse, !reverse_involutive. destruct r1 as [|a r1], r2 as [|b r2]; simpl in *; auto.
  right. right. destruct H as [H|[H|H]]; congruence.
Qed.

(** What stands at the end of a string: its next character or the terminator. *)
Lemma cstring_hd s p r : cstring s p r → s !! p = Some (hd 0 r) ∧ 0 ≤ hd 0 r < 256 ∧ (hd 0 r = 0 ↔ r = []).
Proof.
  destruct r as [|b r]; [intros H%cstring_nil|intros (H & Hb & _)%cstring_cons]; simpl.
  - split_and!; [done|lia..|done].
  - unfold is_char in Hb. split_and!; [done|lia..|]. split; [lia|done].
Qed.
Lemma hd_differ s p q r1 r2 : cstring s p r1 → cstring s q r2 →
  r1 = [] ∨ r2 = [] ∨ hd 0 r1 ≠ hd 0 r2 → hd 0 r1 = hd 0 r2 ↔ r1 = [] ∧ r2 = [].
Proof.
  intros (_ & _ & H1)%cstring_hd (_ & _ & H2)%cstring_hd H. split; [|by intros [-> ->]].
  intros E. destruct H as [->|[->|H]]; [|..|done]; simpl in *; [split; [done|apply H2; congruence]|split; [apply H1; congruence|done]].
Qed.

(** A loop that goes on as long as it sees the same character in both. *)
Lemma walk_common {R} (body : Z * Z → prog mem (Z * Z + R)) (s : mem) (Q : R → mem → Prop) (bound : Z) k :
  (∀ p q a, p < bound → is_char a → s !! p = Some a → s !! q = Some a →
     wpp (body (p, q)) s (λ r s', r = inl (p + 1, q + 1) ∧ s' = s)) →
  ∀ n p q, chars s p k → chars s q k → Forall is_char k → (length k < n)%nat → p + zlen k ≤ bound →
  wpp (ploop (n - length k) body (p + zlen k, q + zlen k)) s Q → wpp (ploop n body (p, q)) s Q.
Proof.
  intros Hb. induction k as [|a k IH]; intros n p q Hp Hq Hk Hn Hp2 HQ.
  - change (zlen []) with 0 in HQ. by rewrite !Z.add_0_r, Nat.sub_0_r in HQ.
  - apply chars_cons in Hp as [H1 Hp]. apply chars_cons in Hq as [H2 Hq]. apply Forall_cons in Hk as [Ha Hk].
    rewrite zlen_cons in HQ, Hp2. pose proof (zlen_nonneg k).
    destruct n as [|n]; [simpl in Hn; lia|]. apply ploop_step. eapply wpp_mono; [by apply (Hb p q a); [lia|..]|].
    intros r s' [-> ->]. apply IH; [done..|simpl in Hn; lia|lia|]. replace (p + 1 + zlen k) with (p + (zlen k + 1)) by lia.
    replace (q + 1 + zlen k) with (q + (zlen k + 1)) by lia. exact HQ.
Qed.

(** The order [text_cmp] sorts by: the first different characters, as [char]s,
    the end counting as 0. *)
Fixpoint text_ltb (l1 l2 : list Z) : bool :=
  match l1, l2 with
  | a :: l1, b :: l2 => if a =? b then text_ltb l1 l2 else schar a <? schar b
  | _, _ => schar (hd 0 l1) <? schar (hd 0 l2)
  end.
Lemma text_ltb_app k r1 r2 : text_ltb (k ++ r1) (k ++ r2) = text_ltb r1 r2.
Proof. induction k as [|a k IH]; [done|]. simpl. by rewrite Z.eqb_refl. Qed.
Lemma text_ltb_hd r1 r2 : r1 = [] ∨ r2 = [] ∨ hd 0 r1 ≠ hd 0 r2 → text_ltb r1 r2 = (schar (hd 0 r1) <? schar (hd 0 r2)).
Proof.
  intros H. destruct r1 as [|a r1], r2 as [|b r2]; try done. simpl in *.
  destruct H as [H|[H|H]]; [done..|]. by rewrite (proj2 (Z.eqb_neq a b)).
Qed.

Lemma same_text (l1 l2 k : list Z) r1 r2 : l1 = k ++ r1 → l2 = k ++ r2 → l1 = l2 ↔ r1 = r2.
Proof. intros -> ->. split; [apply app_inv_head|by intros ->]. Qed.
Lemma prefix_at (l1 l2 k : list Z) r1 r2 : l1 = k ++ r1 → l2 = k ++ r2 → (l1 `prefix_of` l2 ↔ r1 `prefix_of` r2) ∧ (l2 `prefix_of` l1 ↔ r2 `prefix_of` r1).
Proof. intros -> ->. split; (split; [apply prefix_app_inv|apply prefix_app]). Qed.
Lemma prefix_hd (r1 r2 : list Z) : (r1 = [] ∨ r2 = [] ∨ hd 0 r1 ≠ hd 0 r2) → r1 `prefix_of` r2 ↔ r1 = [].
Proof.
  intros H. split; [|intros ->; apply prefix_nil]. intros [x E]. destruct r1 as [|a r1]; [done|]. rewrite E in H.
  destruct H as [H|[H|H]]; done.
Qed.
Lemma prefixes_at (l1 l2 k r1 r2 : list Z) : l1 = k ++ r1 → l2 = k ++ r2 → (r1 = [] ∨ r2 = [] ∨ hd 0 r1 ≠ hd 0 r2) →
  (l1 `prefix_of` l2 ↔ r1 = []) ∧ (l2 `prefix_of` l1 ↔ r2 = []).
Proof.
  intros E1 E2 H. destruct (prefix_at l1 l2 k r1 r2 E1 E2) as [-> ->]. rewrite (prefix_hd r1 r2) by done.
  rewrite (prefix_hd r2 r1) by (destruct H as [H|[H|H]]; auto). done.
Qed.
Lemma suffixes_at (l1 l2 k r1 r2 : list Z) : l1 = r1 ++ k → l2 = r2 ++ k → (r1 = [] ∨ r2 = [] ∨ last r1 ≠ last r2) →
  l1 `suffix_of` l2 ↔ r1 = [].
Proof.
  intros -> -> H. split; [|intros ->; by exists r2]. intros [x E]. rewrite app_assoc in E. apply app_inv_tail in E as ->.
  destruct r1 as [|a r1 _] using rev_ind; [done|]. destruct H as [H|[H|H]]; [done| |].
  - by destruct x, r1.
  - rewrite app_assoc, !last_snoc in H. done.
Qed.
Lemma same_end (l1 l2 k r1 r2 : list Z) : l1 = r1 ++ k → l2 = r2 ++ k → l1 = l2 ↔ r1 = r2.
Proof. intros -> ->. split; [apply app_inv_tail|by intros ->]. Qed.

Section compare.
Context (s : mem) (text1 text2 : Z) (l1 l2 : list Z).
Hypothesis H1 : cstring s text1 l1.
Hypothesis H2 : cstring s text2 l2.

(** Both strings at their first difference. *)
Lemma first_difference : ∃ k r1 r2, l1 = k ++ r1 ∧ l2 = k ++ r2 ∧ (r1 = [] ∨ r2 = [] ∨ hd 0 r1 ≠ hd 0 r2) ∧
  chars s text1 k ∧ chars s text2 k ∧ Forall is_char k ∧ (length k < size s)%nat ∧
  cstring s (text1 + zlen k) r1 ∧ cstring s (text2 + zlen k) r2.
Proof using H1 H2.
  destruct (common_prefix l1 l2) as (k & r1 & r2 & E1 & E2 & H). exists k, r1, r2.
  pose proof (cstring_size _ _ _ H1) as Hn. rewrite E1, length_app in Hn.
  pose proof H1 as H1'. rewrite E1 in H1'. apply cstring_app in H1' as (? & ? & ?).
  pose proof H2 as H2'. rewrite E2 in H2'. apply cstring_app in H2' as (? & ? & ?).
  split_and!; (done || lia).
Qed.

(** Walk to the first difference, then take one more round. *)
Lemma walk_to_difference {R} (body : Z * Z → prog mem (Z * Z + R)) (Q : R → mem → Prop) :
  (∀ p q a, is_char a → s !! p = Some a → s !! q = Some a →
     wpp (body (p, q)) s (λ r s', r = inl (p + 1, q + 1) ∧ s' = s)) →
  (∀ k r1 r2, l1 = k ++ r1 → l2 = k ++ r2 → (r1 = [] ∨ r2 = [] ∨ hd 0 r1 ≠ hd 0 r2) →
     cstring s (text1 + zlen k) r1 → cstring s (text2 + zlen k) r2 →
     wpp (body (text1 + zlen k, text2 + zlen k)) s (λ r s', match r with inl _ => False | inr y => Q y s' end)) →
  wpp (tloop body (text1, text2)) s Q.
Proof using H1 H2.
  intros Hb He. destruct first_difference as (k & r1 & r2 & E1 & E2 & Hd & Hc1 & Hc2 & Hk & Hn & Hs1 & Hs2).
  apply (walk_common body s Q (text1 + zlen k) k (λ p q a _, Hb p q a) (text_fuel s) text1 text2 Hc1 Hc2 Hk); [unfold text_fuel; lia|lia|].
  destruct (text_fuel s - length k)%nat eqn:E; [unfold text_fuel in E; lia|]. apply ploop_step.
  eapply wpp_mono; [by apply (He k r1 r2)|]. intros [x|y] s' H; [done|exact H].
Qed.


Ltac at_difference :=
  intros k r1 r2 E1 E2 Hd Hs1 Hs2;
  destruct (cstring_hd _ _ _ Hs1) as (A1 & B1 & Z1); destruct (cstring_hd _ _ _ Hs2) as (A2 & B2 & Z2);
  pose proof (hd_differ _ _ _ _ _ Hs1 Hs2 Hd) as HD.
Ltac at_common :=
  let p := fresh "p" in let q := fresh "q" in let a := fresh "a" in let Ha := fresh "Ha" in
  intros p q a Ha Hp Hq; cbv beta iota; unfold is_char in Ha.

Lemma text_cmp_ok :
  wpp (text_cmp text1 text2) s (λ d s', s' = s ∧ (d = 0 ↔ l1 = l2) ∧ (d <? 0) = text_ltb l1 l2).
Proof using H1 H2.
  apply walk_to_difference.
  - at_common. rd_char Hp. rd_char Hq. apply wpp_ret. rewrite (proj2 (Z.eqb_neq a 0)), Z.eqb_refl by lia. done.
  - at_difference. rd_char A1. rd_char A2. apply wpp_ret.
    assert (negb (hd 0 r1 =? 0) && (hd 0 r1 =? hd 0 r2) = false) as ->.
    { destruct (Z.eqb_spec (hd 0 r1) 0), (Z.eqb_spec (hd 0 r1) (hd 0 r2)); try done. tauto. }
    cbn. split_and!; [done| |].
    + rewrite (same_text l1 l2 k r1 r2) by done. split.
      * intros E. assert (hd 0 r1 = hd 0 r2) as H by (apply schar_inj; [done..|lia]). apply HD in H. by destruct H as [-> ->].
      * intros ->. lia.
    + rewrite E1, E2, text_ltb_app, (text_ltb_hd r1 r2) by done. destruct (Z.ltb_spec (schar (hd 0 r1) - schar (hd 0 r2)) 0), (Z.ltb_spec (schar (hd 0 r1)) (schar (hd 0 r2))); (done || lia).
Qed.


Lemma text_hcmp_ok :
  wpp (text_hcmp text1 text2) s (λ d s', s' = s ∧ (d = 0 ↔ l1 `prefix_of` l2 ∨ l2 `prefix_of` l1)).
Proof using H1 H2.
  apply walk_to_difference.
  - at_common. rd_char Hp. rd_char Hq. apply wpp_ret. rewrite (proj2 (Z.eqb_neq a 0)), Z.eqb_refl by lia. done.
  - at_difference. rd_char A1. rd_char A2. apply wpp_ret.
    destruct (prefixes_at l1 l2 k r1 r2 E1 E2 Hd) as [P1 P2].
    destruct (Z.eqb_spec (hd 0 r1) 0), (Z.eqb_spec (hd 0 r2) 0), (Z.eqb_spec (hd 0 r1) (hd 0 r2)); try tauto; cbn; split; try done; try tauto.
    split; [intros E; assert (hd 0 r1 = hd 0 r2) by (apply schar_inj; [done..|lia])|]; tauto.
Qed.
Lemma text_lhcmp_ok : wpp (text_lhcmp text1 text2) s (λ d s', s' = s ∧ (d = 0 ↔ l1 `prefix_of` l2)).
Proof using H1 H2.
  apply walk_to_difference.
  - at_common. rd_char Hp. rewrite (proj2 (Z.eqb_neq a 0)) by lia. rd_char Hq. apply wpp_ret. by rewrite Z.eqb_refl.
  - at_difference. destruct (prefixes_at l1 l2 k r1 r2 E1 E2 Hd) as [P1 _].
    rd_char A1. destruct (Z.eqb_spec (hd 0 r1) 0); [apply wpp_ret; tauto|]. rd_char A2. apply wpp_ret.
    destruct (Z.eqb_spec (hd 0 r1) (hd 0 r2)); [tauto|]. cbn. split; [done|].
    split; [intros E; assert (hd 0 r1 = hd 0 r2) by (apply schar_inj; [done..|lia])|]; tauto.
Qed.
Lemma text_rhcmp_ok : wpp (text_rhcmp text1 text2) s (λ d s', s' = s ∧ (d = 0 ↔ l2 `prefix_of` l1)).
Proof using H1 H2.
  apply walk_to_difference.
  - at_common. rd_char Hq. rewrite (proj2 (Z.eqb_neq a 0)) by lia. rd_char Hp. apply wpp_ret. by rewrite Z.eqb_refl.
  - at_difference. destruct (prefixes_at l1 l2 k r1 r2 E1 E2 Hd) as [_ P2].
    rd_char A2. destruct (Z.eqb_spec (hd 0 r2) 0); [apply wpp_ret; tauto|]. rd_char A1. apply wpp_ret.
    destruct (Z.eqb_spec (hd 0 r1) (hd 0 r2)); [tauto|]. cbn. split; [done|].
    split; [intros E; assert (hd 0 r1 = hd 0 r2) by (apply schar_inj; [done..|lia])|]; tauto.
Qed.

Lemma text_ncmp_ok size : 0 ≤ size →
  wpp (text_ncmp text1 text2 size) s (λ d s', s' = s ∧ (d = 0 ↔ take (Z.to_nat size) l1 = take (Z.to_nat size) l2)).
Proof using H1 H2.
  intros Hsz. unfold text_ncmp. destruct (Z.eqb_spec size 0) as [->|Hn0]; [by apply wpp_ret|].
  destruct first_difference as (k & r1 & r2 & E1 & E2 & Hd & Hc1 & Hc2 & Hk & Hn & Hs1 & Hs2).
  set (body := λ '(text1, text2), _).
  assert (∀ p q a, p < text1 + size - 1 → is_char a → s !! p = Some a → s !! q = Some a →
     wpp (body (p, q)) s (λ r s', r = inl (p + 1, q + 1) ∧ s' = s)) as Hb.
  { intros p q a Hlt Ha Hp Hq. unfold body. rd_char Hp. rd_char Hq. apply wpp_ret. unfold is_char in Ha.
    by rewrite (proj2 (Z.eqb_neq a 0)), (proj2 (Z.ltb_lt _ _)), Z.eqb_refl by lia. }
  destruct (decide (zlen k ≤ size - 1)) as [Hl|Hl].
  - apply (walk_common body s _ (text1 + size - 1) k Hb (text_fuel s) text1 text2 Hc1 Hc2 Hk); [unfold text_fuel; lia|lia|].
    destruct (text_fuel s - length k)%nat eqn:E; [unfold text_fuel in E; lia|]. apply ploop_step.
    destruct (cstring_hd _ _ _ Hs1) as (A1 & B1 & Z1), (cstring_hd _ _ _ Hs2) as (A2 & B2 & Z2).
    pose proof (hd_differ _ _ _ _ _ Hs1 Hs2 Hd) as HD. unfold body. rd_char A1. rd_char A2. apply wpp_ret.
    assert (negb (hd 0 r1 =? 0) && (text1 + zlen k <? text1 + size - 1) && (hd 0 r1 =? hd 0 r2) = false) as ->.
    { destruct (Z.eqb_spec (hd 0 r1) 0), (Z.eqb_spec (hd 0 r1) (hd 0 r2)); rewrite ?andb_false_r; try done. tauto. }
    cbn. split; [done|]. rewrite E1, E2, !take_app, !(take_ge k) by (unfold zlen in Hl; lia). rewrite (inj_iff (app k)).
    transitivity (hd 0 r1 = hd 0 r2).
    { split; [intros E'; apply schar_inj; [done..|lia]|intros ->; lia]. }
    rewrite HD. destruct (Z.to_nat size - length k)%nat eqn:E'; [unfold zlen in Hl; lia|].
    destruct r1 as [|a r1], r2 as [|b r2]; try (split; [naive_solver|done]); try done.
    simpl. destruct Hd as [?|[?|Hd]]; [done..|]. split; [naive_solver|]. intros [= ]. done.
  - set (k1 := take (Z.to_nat (size - 1)) k). set (k2 := drop (Z.to_nat (size - 1)) k).
    assert (k = k1 ++ k2) as Ek by (symmetry; apply take_drop). unfold zlen in Hl.
    assert (length k1 = Z.to_nat (size - 1)) as Hk1 by (apply length_take_le; lia).
    assert (zlen k1 = size - 1) as Hz by (unfold zlen; lia).
    destruct k2 as [|b k2]; [apply (f_equal length) in Ek; rewrite length_app, Hk1 in Ek; simpl in Ek; lia|].
    rewrite Ek in Hc1, Hc2, Hk. apply chars_app in Hc1 as [Hc1 [Hb1 _]%chars_cons]. apply chars_app in Hc2 as [Hc2 [Hb2 _]%chars_cons].
    apply Forall_app in Hk as [Hk [Hbc _]%Forall_cons].
    apply (walk_common body s _ (text1 + size - 1) k1 Hb (text_fuel s) text1 text2 Hc1 Hc2 Hk); [unfold text_fuel; lia|lia|].
    destruct (text_fuel s - length k1)%nat eqn:E; [unfold text_fuel in E; lia|]. apply ploop_step.
    unfold body. rd_char Hb1. rd_char Hb2. apply wpp_ret.
    rewrite (proj2 (Z.ltb_ge (text1 + zlen k1) (text1 + size - 1))), andb_false_r by lia. cbn. split; [done|].
    split; [intros _|intros _; lia]. rewrite E1, E2, !take_app_le; [done|lia..].
Qed.

(** Back over the characters both end with. *)
Lemma back_common (body : Z * Z → prog mem (Z * Z + Z * Z)) (Q : Z * Z → mem → Prop) k :
  (∀ p q a, text1 ≤ p → text2 ≤ q → s !! p = Some a → s !! q = Some a →
     wpp (body (p, q)) s (λ r s', r = inl (p - 1, q - 1) ∧ s' = s)) →
  ∀ n p q, chars s p k → chars s q k → text1 ≤ p → text2 ≤ q → (length k < n)%nat →
  wpp (ploop (n - length k) body (p - 1, q - 1)) s Q → wpp (ploop n body (p + zlen k - 1, q + zlen k - 1)) s Q.
Proof using Type.
  intros Hb. induction k as [|a k IH] using rev_ind; intros n p q Hp Hq H1' H2' Hn HQ.
  - change (zlen []) with 0. by rewrite !Z.add_0_r, Nat.sub_0_r in *.
  - apply chars_app in Hp as [Hp Ha%chars_single]. apply chars_app in Hq as [Hq Hb'%chars_single].
    rewrite length_app in Hn, HQ. simpl in Hn, HQ. pose proof (zlen_nonneg k). destruct n as [|n]; [lia|]. apply ploop_step.
    rewrite zlen_app. change (zlen [a]) with 1. replace (p + (zlen k + 1) - 1) with (p + zlen k) by lia.
    replace (q + (zlen k + 1) - 1) with (q + zlen k) by lia.
    eapply wpp_mono; [by apply (Hb _ _ a); [lia|lia|..]|]. intros r s' [-> ->]. apply IH; [done..|lia|].
    replace (n - length k)%nat with (Datatypes.S n - (length k + 1))%nat by lia. done.
Qed.

Lemma tails_back_ok (Q : Z * Z → mem → Prop) :
  (∀ k r1 r2, l1 = r1 ++ k → l2 = r2 ++ k → (r1 = [] ∨ r2 = [] ∨ last r1 ≠ last r2) →
     Q (text1 + zlen r1 - 1, text2 + zlen r2 - 1) s) →
  wpp (tails_back text1 text2) s Q.
Proof using H1 H2.
  intros HQ. unfold tails_back. apply wpp_bind. eapply text_tail_ok; [exact H1|]. apply wpp_bind. eapply text_tail_ok; [exact H2|].
  destruct (common_suffix l1 l2) as (k & r1 & r2 & E1 & E2 & Hd). specialize (HQ k r1 r2 E1 E2 Hd).
  pose proof H1 as [Hc1 _]. pose proof H2 as [Hc2 _]. rewrite E1, <-app_assoc in Hc1. rewrite E2, <-app_assoc in Hc2.
  apply chars_app in Hc1 as [Hr1 Hk1]. apply chars_app in Hc2 as [Hr2 Hk2].
  set (body := λ '(t1, t2), _). pose proof (zlen_nonneg r1). pose proof (zlen_nonneg r2).
  assert (∀ p q a, text1 ≤ p → text2 ≤ q → s !! p = Some a → s !! q = Some a →
     wpp (body (p, q)) s (λ r s', r = inl (p - 1, q - 1) ∧ s' = s)) as Hb.
  { intros p q a Hp Hq Ha1 Ha2. unfold body. rewrite (proj2 (Z.leb_le text1 p)), (proj2 (Z.leb_le text2 q)) by done. cbn [andb].
    rd_char Ha1. rd_char Ha2. apply wpp_ret. by rewrite Z.eqb_refl. }
  replace (text1 + zlen l1) with (text1 + zlen r1 + zlen (k ++ [0]) - 1) by (rewrite E1, !zlen_app; change (zlen [0]) with 1; lia).
  replace (text2 + zlen l2) with (text2 + zlen r2 + zlen (k ++ [0]) - 1) by (rewrite E2, !zlen_app; change (zlen [0]) with 1; lia).
  apply back_common; [done..|lia|lia|unfold bytes_fuel, zlen in *; lia|].
  destruct (bytes_fuel _ - _)%nat eqn:E; [unfold bytes_fuel, zlen in *; lia|]. apply ploop_step. unfold body.
  destruct (decide (r1 = [])) as [->|N1]; [change (zlen []) with 0; rewrite (proj2 (Z.leb_gt text1 _)) by lia; apply wpp_ret; exact HQ|].
  destruct (decide (r2 = [])) as [->|N2].
  { change (zlen []) with 0. rewrite (proj2 (Z.leb_gt text2 _)), andb_false_r by lia. apply wpp_ret. exact HQ. }
  destruct r1 as [|a1 r1 _] using rev_ind; [done|]. destruct r2 as [|a2 r2 _] using rev_ind; [done|].
  rewrite !last_snoc in Hd. apply chars_app in Hr1 as [_ Ha1%chars_single]. apply chars_app in Hr2 as [_ Ha2%chars_single].
  rewrite !zlen_app in *. change (zlen [a1]) with 1 in *. change (zlen [a2]) with 1 in *.
  rewrite !(Z.add_assoc _ _ 1), !Z.add_simpl_r in HQ |- *.
  pose proof (zlen_nonneg r1). pose proof (zlen_nonneg r2).
  rewrite (proj2 (Z.leb_le text1 _)), (proj2 (Z.leb_le text2 _)) by lia. cbn [andb].
  rd_char Ha1. rd_char Ha2. apply wpp_ret. destruct (Z.eqb_spec a1 a2) as [->|]; [|exact HQ].
  destruct Hd as [Hd|[Hd|Hd]]; [by destruct r1|by destruct r2|done].
Qed.

(** The three results that are made of it. *)
Lemma char_diff_last k r1 r2 : l1 = r1 ++ k → l2 = r2 ++ k → r1 ≠ [] → r2 ≠ [] → last r1 ≠ last r2 →
  wpp (char_diff (text1 + zlen r1 - 1) (text2 + zlen r2 - 1)) s (λ d s', s' = s ∧ d ≠ 0).
Proof using H1 H2.
  intros E1 E2 N1 N2 Hd. destruct r1 as [|a r1 _] using rev_ind; [done|]. destruct r2 as [|b r2 _] using rev_ind; [done|].
  rewrite !last_snoc in Hd. pose proof H1 as H1'. pose proof H2 as H2'. rewrite E1, <-app_assoc in H1'. rewrite E2, <-app_assoc in H2'.
  apply cstring_app in H1' as (_ & _ & (Ha & Ha' & _)%cstring_cons). apply cstring_app in H2' as (_ & _ & (Hb & Hb' & _)%cstring_cons).
  rewrite !zlen_app. change (zlen [a]) with 1. change (zlen [b]) with 1. rewrite !(Z.add_assoc _ _ 1), !Z.add_simpl_r.
  unfold char_diff. rd_char Ha. rd_char Hb. apply wpp_ret. split; [done|]. unfold is_char in *. intros E.
  assert (a = b) as -> by (apply schar_inj; lia). done.
Qed.
Lemma tail_tests {A} (r : list A) t : (t + zlen r - 1 <? t) = bool_decide (r = []).
Proof using Type.
  pose proof (zlen_nonneg r). destruct r as [|a r]; [rewrite (proj2 (Z.ltb_lt _ t)) by (change (zlen []) with 0; lia); done|].
  rewrite (proj2 (Z.ltb_ge _ t)); [done|]. rewrite zlen_cons. pose proof (zlen_nonneg r). lia.
Qed.
Lemma end_cmps_ok :
  wpp (text_tcmp text1 text2) s (λ d s', s' = s ∧ (d = 0 ↔ l1 = l2)) ∧
  wpp (text_ltcmp text1 text2) s (λ d s', s' = s ∧ (d = 0 ↔ l1 `suffix_of` l2)) ∧
  wpp (text_rtcmp text1 text2) s (λ d s', s' = s ∧ (d = 0 ↔ l2 `suffix_of` l1)).
Proof using H1 H2.
  split_and!; apply wpp_bind, tails_back_ok; intros k r1 r2 E1 E2 Hd; rewrite !tail_tests;
    [pose proof (same_end l1 l2 k r1 r2 E1 E2) as HE|pose proof (suffixes_at l1 l2 k r1 r2 E1 E2 Hd) as HE|
     assert (l2 `suffix_of` l1 ↔ r2 = []) as HE by (apply (suffixes_at l2 l1 k r2 r1 E2 E1); destruct Hd as [?|[?|?]]; auto)];
    (destruct (bool_decide_reflect (r1 = [])) as [->|N1], (bool_decide_reflect (r2 = [])) as [->|N2];
      [apply wpp_ret; naive_solver..|]);
    (eapply wpp_mono; [apply (char_diff_last k r1 r2); [done..|by destruct Hd as [?|[?|?]]]|]); cbv beta;
    intros d s' [-> Hn]; (split; [done|]); naive_solver.
Qed.
End compare.

(** On two strings [l1] and [l2] of the store each comparison of text.c
    returns, changes nothing, and answers 0 exactly when it should: [text_cmp]
    and [text_tcmp] when the strings are equal, [text_ncmp] when they agree up
    to [size], [text_lhcmp] and [text_rhcmp] when the one is a prefix of the
    other, [text_hcmp] when either is, [text_ltcmp] and [text_rtcmp] when the one
    is a suffix of the other.  The sign of [text_cmp] is the lexicographic order
    of the strings of signed characters. *)
Theorem text_comparisons_decide s text1 text2 l1 l2 size :
  cstring s text1 l1 → cstring s text2 l2 → 0 ≤ size →
  let says (f : prog mem Z) (P : Prop) := ∃ d, f s = Ok (d, s) ∧ (d = 0 ↔ P) in
  says (text_cmp text1 text2) (l1 = l2) ∧
  (∃ d, text_cmp text1 text2 s = Ok (d, s) ∧ (d <? 0) = text_ltb l1 l2) ∧
  says (text_ncmp text1 text2 size) (take (Z.to_nat size) l1 = take (Z.to_nat size) l2) ∧
  says (text_hcmp text1 text2) (l1 `prefix_of` l2 ∨ l2 `prefix_of` l1) ∧
  says (text_lhcmp text1 text2) (l1 `prefix_of` l2) ∧ says (text_rhcmp text1 text2) (l2 `prefix_of` l1) ∧
  says (text_tcmp text1 text2) (l1 = l2) ∧
  says (text_ltcmp text1 text2) (l1 `suffix_of` l2) ∧ says (text_rtcmp text1 text2) (l2 `suffix_of` l1).
Proof.
  intros H1 H2 Hs says.
  assert (∀ f P, wpp f s (λ d s', s' = s ∧ (d = 0 ↔ P)) → says f P) as Hf.
  { intros f P (d & s' & E & -> & H)%wpp_ok. by exists d. }
  destruct (end_cmps_ok s text1 text2 l1 l2 H1 H2) as (T & LT & RT).
  pose proof (text_cmp_ok s text1 text2 l1 l2 H1 H2) as HC. apply wpp_ok in HC as (d & s' & EC & -> & HC0 & HC1).
  split_and!; try (apply Hf).
  - eapply wpp_mono; [by apply text_cmp_ok|]. naive_solver.
  - by exists d.
  - by apply text_ncmp_ok.
  - by apply text_hcmp_ok.
  - by apply text_lhcmp_ok.
  - by apply text_rhcmp_ok.
  - exact T.
  - exact LT.
  - exact RT.
Qed.

(** A store with two strings, for the examples. *)
Definition two_texts (p : Z) (l : list Z) (q : Z) (k : list Z) : mem := written (written ∅ p (l ++ [0])) q (k ++ [0]).
Lemma two_texts_ok p l q k : Forall is_char l → Forall is_char k → disjoint_from q (zlen k + 1) p (zlen l + 1) →
  cstring (two_texts p l q k) p l ∧ cstring (two_texts p l q k) q k.
Proof.
  intros Hl Hk Ha. split; [|by apply written_cstring_here].
  apply written_cstring; [|by apply written_cstring_here]. rewrite zlen_app. exact Ha.
Qed.
Lemma is_chars_ok l : forallb (λ b, (0 <? b) && (b <? 256)) l = true → Forall is_char l.
Proof. intros H. apply Forall_forall. intros x Hx. rewrite forallb_forall in H. specialize (H x (proj1 (list_elem_of_In _ _) Hx)). unfold is_char. lia. Qed.
Ltac on_texts := repeat first [apply is_chars_ok; reflexivity|done|unfold disjoint_from, zlen; cbn; lia].

(** "ab" at 10 and "abc" at 20. *)
Lemma text_comparisons_decide_witness :
  let s := two_texts 10 [97; 98] 20 [97; 98; 99] in
  cstring s 10 [97; 98] ∧ cstring s 20 [97; 98; 99] ∧ ∃ d, text_lhcmp 10 20 s = Ok (d, s) ∧ d = 0.
Proof.
  intros s. destruct (two_texts_ok 10 [97; 98] 20 [97; 98; 99]) as [H1 H2]; [on_texts..|]. split; [exact H1|]. split; [exact H2|].
  pose proof (text_comparisons_decide s 10 20 [97; 98] [97; 98; 99] 2 H1 H2 ltac:(lia)) as H. cbv beta zeta in H.
  destruct H as (_ & _ & _ & _ & (d & E & Hd) & _). exists d. split; [exact E|]. apply Hd. by exists [99].
Defined.

(** ** Fields *)

(** The pieces of a text between separators, and back. *)
Fixpoint fields (sep : Z) (l : list Z) : list (list Z) :=
  match l with
  | [] => [[]]
  | c :: l => if c =? sep then [] :: fields sep l else (c :: hd [] (fields sep l)) :: tail (fields sep l)
  end.
Fixpoint join (sep : Z) (fs : list (list Z)) : list Z :=
  match fs with [] => [] | [f] => f | f :: fs => f ++ sep :: join sep fs end.
(** The fields [text_split_by_char] counts: an empty last one is dropped. *)
Definition kept (fs : list (list Z)) : list (list Z) :=
  match last fs with Some [] => removelast fs | _ => fs end.

Lemma fields_cons sep l : ∃ f fs, fields sep l = f :: fs.
Proof. destruct l as [|c l]; simpl; [by eexists _, _|]. case_match; by eexists _, _. Qed.
Lemma join_cons sep f g fs : join sep (f :: g :: fs) = f ++ sep :: join sep (g :: fs).
Proof. done. Qed.
Lemma join_fields sep l : join sep (fields sep l) = l.
Proof.
  induction l as [|c l IH]; [done|]. simpl. destruct (fields_cons sep l) as (f & fs & E). rewrite E in *.
  destruct (Z.eqb_spec c sep) as [->|]; [by rewrite join_cons, IH|]. simpl hd. simpl tail.
  rewrite <-IH. by destruct fs.
Qed.
Lemma join_kept sep l : l = join sep (kept (fields sep l)) ∨ l = join sep (kept (fields sep l)) ++ [sep].
Proof.
  unfold kept. destruct (last (fields sep l)) as [[|b f]|] eqn:E; [|by left; rewrite join_fields..].
  apply last_Some in E as [fs E]. rewrite E, removelast_last.
  assert (l = join sep (fs ++ [[]])) as -> by (rewrite <-E; symmetry; apply join_fields). clear E. destruct fs as [|f fs]; [by left|]. right. revert f. induction fs as [|g fs IH]; intros f; [done|].
  cbn [app] in *. rewrite !join_cons, IH. by rewrite <-app_assoc.
Qed.

(** The entries of [texts] from [index] on point at [fs], inside [lo, hi). *)
Definition point_at (s : mem) (texts : list Z) (index : Z) (fs : list (list Z)) (lo hi : Z) : Prop :=
  ∀ i f, fs !! i = Some f → let p := get texts (index + Z.of_nat i) in cstring s p f ∧ lo ≤ p ∧ p + zlen f < hi.

Lemma kept_cons f g fs : kept (f :: g :: fs) = f :: kept (g :: fs).
Proof. unfold kept. change (last (f :: g :: fs)) with (last (g :: fs)). destruct (last (g :: fs)) as [[|]|] eqn:E; try done. Qed.
Lemma kept_single f : zlen (kept [f]) = if 0 <? zlen f then 1 else 0.
Proof. by destruct f. Qed.

Section split_by_char.
Context (sep size : Z).
Hypothesis Hsep : is_char sep.
Definition split_round : Z * Z * list Z → prog mem (Z * Z * list Z + Z * list Z) :=
  λ '(text, index, texts), c ← rd text;
    if c =? 0 then v ← lift (load texts index); mret (inr (if v <? text then index + 1 else index, texts))
    else if c =? sep then
      wr text 0;;
      if index + 1 <? size then
        texts ← lift (store texts (index + 1) (text + 1)); mret (inl (text + 1, index + 1, texts))
      else mret (inr (size, texts))
    else mret (inl (text + 1, index, texts)).

(** What splitting the text from [text] to [hi] leaves, when the field that
    ends there started at [lo]. *)
Definition split_into (s : mem) (texts : list Z) (index : Z) (fs : list (list Z)) (lo text hi : Z) (s' : mem) (texts' : list Z) : Prop :=
  zlen texts' = zlen texts ∧ (∀ j, 0 ≤ j < index → get texts' j = get texts j) ∧
  (∀ a, ¬ (text ≤ a < hi) → s' !! a = s !! a) ∧ point_at s' texts' index fs lo (hi + 1).

Lemma split_into_end s texts index cur text : chars s (text - zlen cur) cur → Forall is_char cur → s !! text = Some 0 →
  get texts index = text - zlen cur → split_into s texts index [cur] (text - zlen cur) text text s texts.
Proof using Type.
  intros Hcur Hcc H0 Hg. split_and!; [done..|]. intros [|i] f Hf; simpl in Hf; [|done]. injection Hf as <-. cbv zeta.
  rewrite Z.add_0_r, Hg. split_and!; [|lia..]. split; [|done].
  apply chars_app. split; [done|]. apply chars_single. by replace (text - zlen cur + zlen cur) with text by lia.
Qed.

(** A field that ends at a separator, and what follows. *)
Lemma split_into_field s texts index cur fs text hi s' texts' :
  chars s (text - zlen cur) cur → Forall is_char cur → get texts index = text - zlen cur → 0 ≤ index → index + 1 < zlen texts →
  text + 1 ≤ hi →
  split_into (<[text:=0]> s) (upd texts (index + 1) (text + 1)) (index + 1) fs (text + 1) (text + 1) hi s' texts' →
  split_into s texts index (cur :: fs) (text - zlen cur) text hi s' texts'.
Proof using Type.
  intros Hcur Hcc Hg H0 Hi Hh (T1 & T2 & T3 & T4). pose proof (zlen_nonneg cur). rewrite zlen_upd in T1.
  assert (get texts' index = text - zlen cur) as Hg' by (rewrite T2, get_upd_ne by lia; done).
  split_and!; [done|intros j Hj; rewrite T2, get_upd_ne by lia; done|intros a Ha; rewrite T3, lookup_insert_ne by lia; done|].
  intros [|i] g Hg1; cbv zeta; simpl in Hg1.
  - injection Hg1 as <-. rewrite Z.add_0_r, Hg'. split_and!; [|lia..]. split; [|done].
    apply chars_app. split; [eapply chars_ext; [|exact Hcur]; intros a Ha; rewrite T3, lookup_insert_ne by lia; done|].
    apply chars_single. replace (text - zlen cur + zlen cur) with text by lia. rewrite T3, lookup_insert_eq by lia. done.
  - specialize (T4 i g Hg1). cbv zeta in T4. replace (index + 1 + Z.of_nat i) with (index + Z.of_nat (Datatypes.S i)) in T4 by lia.
    destruct T4 as (P1 & P2 & P3). split_and!; [done|lia..].
Qed.

Lemma split_fuel l : ∀ n cur text index texts s (Q : Z * list Z → mem → Prop),
  let fs := (cur ++ hd [] (fields sep l)) :: tail (fields sep l) in
  chars s (text - zlen cur) cur → Forall is_char cur → cstring s text l → get texts index = text - zlen cur →
  0 ≤ index → index + zlen fs ≤ size → size ≤ zlen texts → (length l < n)%nat →
  (∀ s' texts', split_into s texts index fs (text - zlen cur) text (text + zlen l) s' texts' → Q (index + zlen (kept fs), texts') s') →
  wpp (ploop n split_round (text, index, texts)) s Q.
Proof using Hsep.
  induction l as [|c l IH]; intros [|n] cur text index texts s Q fs Hcur Hcc Hl Hg H0 Hi Hsz Hn HQ; try (simpl in Hn; lia);
    apply ploop_step; pose proof (zlen_nonneg cur) as Hz.
  - apply cstring_nil in Hl. unfold split_round. rd_char Hl. unfold fs in *. cbn [fields hd tail] in *. rewrite app_nil_r in *.
    change (zlen [cur]) with 1 in Hi. change (zlen (@nil Z)) with 0 in HQ. rewrite Z.add_0_r in HQ.
    apply wpp_bind. eapply wpp_lift; [apply load_in; lia|]. apply wpp_ret. cbv beta iota. rewrite Hg.
    assert ((if text - zlen cur <? text then index + 1 else index) = index + zlen (kept [cur])) as ->.
    { rewrite kept_single. destruct (Z.ltb_spec (text - zlen cur) text), (Z.ltb_spec 0 (zlen cur)); lia. }
    by apply HQ, split_into_end.
  - apply cstring_cons in Hl as (Hc & Hc' & Hl). unfold split_round. rd_char Hc. unfold is_char in Hc'.
    rewrite (proj2 (Z.eqb_neq c 0)) by lia. destruct (fields_cons sep l) as (f & fs' & E). unfold fs in *. cbn [fields] in *.
    specialize (IH n). rewrite E in *. pose proof (zlen_nonneg fs') as Hf'. pose proof (zlen_nonneg l) as Hl0. simpl in Hn.
    rewrite (zlen_cons c l) in HQ. destruct (Z.eqb_spec c sep) as [->|Hne]; cbn [hd tail] in *.
    + rewrite app_nil_r in *. rewrite !zlen_cons in Hi. apply wpp_bind, wpp_wr; [by eexists|].
      rewrite (proj2 (Z.ltb_lt (index + 1) size)) by lia. apply wpp_bind. eapply wpp_lift; [apply store_in; lia|]. apply wpp_ret.
      change (u8 0) with 0. cbv beta iota.
      apply (IH [] (text + 1) (index + 1)); cbn [app]; change (zlen (@nil Z)) with 0; rewrite ?Z.sub_0_r, ?zlen_upd, ?zlen_cons; try (done || lia).
      * eapply cstring_ext; [|exact Hl]. intros a Ha. apply lookup_insert_ne. lia.
      * rewrite get_upd_eq by lia. done.
      * intros s' texts' T. rewrite kept_cons, (zlen_cons cur) in HQ.
        replace (index + 1 + zlen (kept (f :: fs'))) with (index + (zlen (kept (f :: fs')) + 1)) by lia.
        apply HQ. replace (text + (zlen l + 1)) with (text + 1 + zlen l) by lia. by apply split_into_field; [..|lia| |]; try lia.
    + apply wpp_ret. cbv beta iota.
      assert (zlen (cur ++ [c]) = zlen cur + 1) as Ez by (rewrite zlen_app; done).
      apply (IH (cur ++ [c]) (text + 1) index texts s); rewrite ?Ez, <-?(app_assoc cur [c]); cbn [app]; try (done || lia).
      * apply chars_app. split; [by replace (text + 1 - (zlen cur + 1)) with (text - zlen cur) by lia|]. apply chars_single.
        by replace (text + 1 - (zlen cur + 1) + zlen cur) with text by lia.
      * apply Forall_app. split; [done|]. apply Forall_cons. split; [unfold is_char; lia|done].
      * intros s' texts' (T1 & T2 & T3 & T4). apply HQ. split_and!; [done|done|intros a Ha; apply T3; lia|].
        intros i g Hg1. specialize (T4 i g Hg1). cbv zeta in *. destruct T4 as (P1 & P2 & P3). split_and!; [done|lia..].
Qed.
End split_by_char.

Lemma written_last s p l b c : <[p + zlen l := c]> (written s p (l ++ [b])) = written s p (l ++ [c]).
Proof. rewrite !written_app. cbn [written]. by rewrite insert_insert_eq. Qed.

Section join_by_char.
Context (sep : Z).
Hypothesis Hsep : is_char sep.
(** What the loop has written after some fields. *)
Definition ended (fs : list (list Z)) : list Z := concat ((λ f, f ++ [sep]) <$> fs).
Lemma ended_join fs : fs ≠ [] → ended fs = join sep fs ++ [sep].
Proof using Type.
  induction fs as [|f fs IH]; [done|]. intros _. destruct fs as [|g fs]; [unfold ended; simpl; by rewrite app_nil_r|].
  rewrite join_cons. change (ended (f :: g :: fs)) with ((f ++ [sep]) ++ ended (g :: fs)). rewrite IH by done.
  by rewrite <-!app_assoc.
Qed.
Lemma ended_snoc fs f : ended (fs ++ [f]) = ended fs ++ f ++ [sep].
Proof using Type. unfold ended. rewrite fmap_app, concat_app. simpl. by rewrite app_nil_r. Qed.
Lemma ended_length fs gs : zlen (ended (fs ++ gs)) = zlen (ended fs) + zlen (ended gs).
Proof using Type. unfold ended. by rewrite fmap_app, concat_app, zlen_app. Qed.

Lemma text_join_by_char_ok texts fs lo hi buff size2 s (Q : Z → mem → Prop) :
  fs ≠ [] → point_at s texts 0 fs lo hi → zlen fs ≤ zlen texts →
  live s buff (zlen (join sep fs) + 1) → disjoint_from buff (zlen (join sep fs) + 1) lo (hi - lo) → zlen (join sep fs) < size2 →
  Q (buff + zlen (join sep fs)) (written s buff (join sep fs ++ [0])) →
  wpp (text_join_by_char texts (zlen fs) sep buff size2) s Q.
Proof using Hsep.
  intros Hne Hp Ht Hlive Hap Hsz HQ. pose proof (ended_join fs Hne) as HE. apply (f_equal zlen) in HE as HL.
  rewrite zlen_app in HL. change (zlen [sep]) with 1 in HL. unfold text_join_by_char. apply wpp_bind.
  apply (wpp_count (λ k x s', x = (k, buff + zlen (ended (take (Z.to_nat k) fs))) ∧
    s' = written s buff (ended (take (Z.to_nat k) fs))) (zlen fs)); [| | |apply zlen_nonneg|unfold bytes_fuel, zlen; lia].
  - intros k x s' Hk [-> ->]. destruct (lookup_lt_is_Some_2 fs (Z.to_nat k)) as [f Hf]; [unfold zlen in Hk; lia|].
    pose proof (take_drop_middle fs _ f Hf) as Em. set (fs1 := take (Z.to_nat k) fs) in *. set (fs2 := drop _ fs) in *.
    assert (zlen (ended fs) = zlen (ended fs1) + (zlen f + 1) + zlen (ended fs2)) as EL.
    { rewrite <-Em. rewrite ended_length. change (f :: fs2) with ([f] ++ fs2). rewrite ended_length.
      unfold ended at 2. simpl. rewrite app_nil_r, zlen_app. change (zlen [sep]) with 1. lia. }
    pose proof (zlen_nonneg (ended fs1)). pose proof (zlen_nonneg (ended fs2)). pose proof (zlen_nonneg f).
    destruct (Hp _ _ Hf) as (Hc & Hlo & Hhi). rewrite Z.add_0_l, Z2Nat.id in Hc, Hlo, Hhi by lia.
    split; [rewrite !(proj2 (Z.ltb_lt _ _)) by lia; done|]. apply wpp_bind. eapply wpp_lift; [apply load_in; lia|].
    apply wpp_bind, (text_copy_ok _ _ f).
    + apply written_cstring; [unfold disjoint_from in *; lia|done].
    + apply written_live. eapply live_le; [exact Hlive|lia..].
    + unfold disjoint_from in *. lia.
    + rewrite <-written_app. apply wpp_bind, wpp_wr.
      { apply (written_live s buff _ buff (zlen (join sep fs) + 1)); [done|lia]. }
      apply wpp_ret. unfold is_char in Hsep. rewrite (wrap_small 8 sep) by lia.
      replace (Z.to_nat (k + 1)) with (Datatypes.S (Z.to_nat k)) by lia. rewrite (take_S_r fs _ f) by done.
      fold fs1. rewrite ended_snoc, (app_assoc (ended fs1) f [0]), (app_assoc (ended fs1) f [sep]).
      replace (buff + zlen (ended fs1) + zlen f) with (buff + zlen (ended fs1 ++ f)) by (rewrite zlen_app; lia).
      rewrite written_last, !zlen_app. change (zlen [sep]) with 1. split; [f_equal; lia|done].
  - intros x s' [-> ->]. rewrite (proj2 (Z.ltb_ge (zlen fs) (zlen fs))), andb_false_r by lia. split; [done|].
    rewrite take_ge by (unfold zlen; lia). rewrite (proj2 (Z.eqb_neq (zlen fs) 0)) by (destruct fs; [done|rewrite zlen_cons; pose proof (zlen_nonneg fs); lia]).
    rewrite HL. replace (buff + (zlen (join sep fs) + 1) - 1) with (buff + zlen (join sep fs)) by lia.
    apply wpp_bind, wpp_wr; [apply (written_live s buff _ buff (zlen (join sep fs) + 1)); [done|pose proof (zlen_nonneg (join sep fs)); lia]|].
    apply wpp_ret. change (u8 0) with 0. rewrite ended_join by done. rewrite written_last. exact HQ.
  - split; [|done]. change (zlen (ended (take (Z.to_nat 0) fs))) with 0. by rewrite Z.add_0_r.
Qed.
End join_by_char.

Lemma kept_prefix fs : kept fs `prefix_of` fs.
Proof.
  unfold kept. destruct (last fs) as [[|]|] eqn:E; [|done..]. apply last_Some in E as [fs' ->].
  rewrite removelast_last. by exists [[]].
Qed.
Lemma point_at_prefix s texts fs fs' lo hi : fs' `prefix_of` fs → point_at s texts 0 fs lo hi → point_at s texts 0 fs' lo hi.
Proof. intros Hp H i f Hf. apply H. by eapply prefix_lookup_Some. Qed.
Lemma text_join_nothing texts sep buff size2 s : is_Some (s !! buff) →
  text_join_by_char texts 0 sep buff size2 s = Ok (buff, written s buff [0]).
Proof.
  intros [b Hb]. destruct (proj1 (wpp_ok (text_join_by_char texts 0 sep buff size2) s (λ r s', r = buff ∧ s' = written s buff [0])))
    as (r & s' & E & -> & ->); [|done].
  unfold text_join_by_char. apply wpp_bind.
  apply (wpp_count (λ k x s', x = (k, buff) ∧ s' = s) 0); [lia| |done|done|unfold bytes_fuel; lia].
  intros x s' [-> ->]. rewrite andb_false_r. split; [done|]. apply wpp_bind, wpp_wr; [by eexists|]. by apply wpp_ret.
Qed.

(** C25: Splitting a string and joining the pieces gives it back.
    [text_split_by_char], with room for every field, answers the pieces between
    the separators: it returns how many there are, an empty last one not
    counted, each entry of [texts] is a string between the ends of the text, and
    no byte outside it has changed.  [text_join_by_char] of these pieces writes the text into a buffer apart from
    it, less a separator at its end, and answers where it ends. *)
Theorem text_split_join_round_trip s text l sep texts size buff size2 :
  cstring s text l → is_char sep → zlen (fields sep l) ≤ size ≤ zlen texts →
  live s buff (zlen l + 1) → disjoint_from buff (zlen l + 1) text (zlen l + 1) → zlen l < size2 →
  let pieces := kept (fields sep l) in
  ∃ texts' s1 s2 l', text_split_by_char text sep texts size s = Ok ((zlen pieces, texts'), s1) ∧
    (∀ i f, pieces !! i = Some f → let p := get texts' (Z.of_nat i) in cstring s1 p f ∧ text ≤ p ∧ p + zlen f ≤ text + zlen l) ∧
    (∀ a, ¬ (text ≤ a < text + zlen l) → s1 !! a = s !! a) ∧
    text_join_by_char texts' (zlen pieces) sep buff size2 s1 = Ok (buff + zlen l', s2) ∧ cstring s2 buff l' ∧
    (l = l' ∨ l = l' ++ [sep]).
Proof.
  intros Hl Hsep Hsz Hb Ha H2 pieces. pose proof (zlen_nonneg l) as Hl0. destruct (fields_cons sep l) as (f0 & fs0 & Ef).
  assert (0 < zlen (fields sep l)) as Hf by (rewrite Ef, zlen_cons; pose proof (zlen_nonneg fs0); lia).
  destruct (proj1 (wpp_ok (text_split_by_char text sep texts size) s (λ r s1, r.1 = zlen pieces ∧
    split_into s (upd texts 0 text) 0 (fields sep l) text text (text + zlen l) s1 r.2))) as ([n texts'] & s1 & E1 & En & T1 & _ & T3 & T4).
  { unfold text_split_by_char. rewrite (proj2 (Z.leb_gt size 0)) by lia. apply wpp_bind. eapply wpp_lift; [apply store_in; lia|].
    apply (split_fuel sep size Hsep l _ [] text 0 (upd texts 0 text) s); change (zlen (@nil Z)) with 0; rewrite ?Z.sub_0_r, ?zlen_upd;
      rewrite ?Ef; cbn [app hd tail]; rewrite <-?Ef; try (done || lia).
    - rewrite get_upd_eq by lia. done.
    - apply cstring_size in Hl. unfold text_fuel. lia. }
  cbn [fst snd] in *. subst n. rewrite zlen_upd in T1. pose proof (point_at_prefix s1 texts' _ _ _ _ (kept_prefix _) T4) as T5. fold pieces in T5.
  assert (live s1 buff (zlen l + 1)) as Hb1.
  { intros a Hr. rewrite T3; [by apply Hb|]. unfold disjoint_from in Ha. lia. }
  assert (Forall is_char l) as Hcl by apply Hl. pose proof (join_kept sep l) as Hj. fold pieces in Hj.
  set (l' := join sep pieces) in *. assert (Forall is_char l' ∧ zlen l' ≤ zlen l) as [Hcl' Hll].
  { destruct Hj as [E|E]; rewrite E in Hcl; rewrite E; [by split|]. apply Forall_app in Hcl as [? _].
    rewrite zlen_app. change (zlen [sep]) with 1. split; [done|lia]. }
  exists texts', s1, (written s1 buff (l' ++ [0])), l'. split_and!; [done| |exact T3| |by apply written_cstring_here|done].
  - intros i f Hi. specialize (T5 i f Hi). cbv zeta in T5 |- *. rewrite Z.add_0_l in T5. destruct T5 as (P1 & P2 & P3). split_and!; [done|lia..].
  - destruct (decide (pieces = [])) as [E|Hne].
    + unfold l'. rewrite E. change (zlen (@nil (list Z))) with 0. rewrite text_join_nothing by (apply Hb1; lia). by rewrite Z.add_0_r.
    + destruct (proj1 (wpp_ok (text_join_by_char texts' (zlen pieces) sep buff size2) s1
        (λ r s2, r = buff + zlen l' ∧ s2 = written s1 buff (l' ++ [0])))) as (r & s2 & E & -> & ->); [|done].
      pose proof (kept_prefix (fields sep l)) as Hk%prefix_length. fold pieces in Hk.
      apply (text_join_by_char_ok sep Hsep texts' pieces text (text + zlen l + 1)); fold l'; try (done || lia).
      * unfold zlen in *. lia.
      * eapply live_le; [exact Hb1|lia..].
      * unfold disjoint_from in *. lia.
Qed.

(** "a:b:" at 10, room for four bytes and a terminator at 20. *)
Lemma text_split_join_round_trip_witness :
  let s := two_texts 10 [97; 58; 98; 58] 20 [1; 1; 1; 1] in
  cstring s 10 [97; 58; 98; 58] ∧
  ∃ texts' s1 s2 l', text_split_by_char 10 58 [0; 0; 0] 3 s = Ok ((2, texts'), s1) ∧
    (∀ i f, [[97]; [98]] !! i = Some f → let p := get texts' (Z.of_nat i) in cstring s1 p f ∧ 10 ≤ p ∧ p + zlen f ≤ 14) ∧
    (∀ a, ¬ (10 ≤ a < 14) → s1 !! a = s !! a) ∧
    text_join_by_char texts' 2 58 20 10 s1 = Ok (20 + zlen l', s2) ∧ cstring s2 20 l' ∧
    ([97; 58; 98; 58] = l' ∨ [97; 58; 98; 58] = l' ++ [58]).
Proof.
  intros s. destruct (two_texts_ok 10 [97; 58; 98; 58] 20 [1; 1; 1; 1]) as [H1 H2]; [on_texts..|]. split; [exact H1|].
  apply (text_split_join_round_trip s 10 [97; 58; 98; 58] 58 [0; 0; 0] 3 20 10 H1).
  - unfold is_char. lia.
  - unfold zlen. cbn. lia.
  - exact (cstring_live _ _ _ H2).
  - unfold disjoint_from, zlen. cbn. lia.
  - unfold zlen. cbn. lia.
Defined.

(** ** Replacing *)

(** The reference: the leftmost matches, one after the other. *)
Fixpoint replaced (fuel : nat) (sub new t : list Z) : list Z :=
  match fuel with
  | O => t
  | Datatypes.S fuel =>
    match find_from t sub (zlen sub) 0 (zlen t) with
    | Some q => take (Z.to_nat q) t ++ new ++ replaced fuel sub new (drop (Z.to_nat (q + zlen sub)) t)
    | None => t
    end
  end.

Lemma rd_list_ok l : ∀ p s (Q : list Z → mem → Prop), chars s p l → Q l s → wpp (rd_list p (length l)) s Q.
Proof.
  induction l as [|b l IH]; intros p s Q Hl HQ; cbn [rd_list length]; [by apply wpp_ret|].
  apply chars_cons in Hl as [Hb Hl]. rd_char Hb. apply wpp_bind, IH; [done|]. by apply wpp_ret.
Qed.
Lemma wr_list_ok l : ∀ p s (Q : unit → mem → Prop), live s p (zlen l) → Forall byte_ok l → Q tt (written s p l) → wpp (wr_list p l) s Q.
Proof.
  induction l as [|b l IH]; intros p s Q Hp Hl HQ; cbn [wr_list]; [by apply wpp_ret|]. pose proof (zlen_nonneg l).
  rewrite zlen_cons in Hp. apply Forall_cons in Hl as [Hb Hl]. apply wpp_bind, wpp_wr; [apply Hp; lia|]. rewrite (u8_id b Hb).
  apply IH; [|done..]. intros a Ha. rewrite lookup_insert. case_decide; [by eexists|]. apply Hp. lia.
Qed.
Lemma kmp_steps_of_ok garbage p sub s (Q : list Z → mem → Prop) :
  chars s p sub → 0 < zlen sub < 2 ^ 31 →
  (∀ steps, zlen steps = zlen sub → steps_ok sub steps (zlen sub) → Q steps s) → wpp (kmp_steps_of garbage p (zlen sub)) s Q.
Proof.
  intros Hp Hn HQ. unfold kmp_steps_of. apply wpp_bind. replace (Z.to_nat (zlen sub)) with (length sub) by (unfold zlen; lia).
  apply rd_list_ok; [done|].
  destruct (proj1 (wp_ok (mem_build_kmp_array sub (int_array garbage (zlen sub)) (zlen sub)) (λ t, zlen t = zlen sub ∧ steps_ok sub t (zlen sub))))
    as (t & E & H1 & H2); [|by eapply wpp_lift; [exact E|]; apply HQ].
  apply mem_build_kmp_array_ok; [lia|lia|apply zlen_int_array; lia|done].
Qed.
Lemma kmp_find_at_ok text text_end t p sub steps s (Q : option Z → mem → Prop) :
  text_end = text + zlen t → chars s text t → chars s p sub → 0 < zlen sub < 2 ^ 31 → zlen steps = zlen sub → steps_ok sub steps (zlen sub) →
  Q (Z.add text <$> find_from t sub (zlen sub) 0 (zlen t)) s → wpp (kmp_find_at text text_end p (zlen sub) steps) s Q.
Proof.
  intros -> Ht Hp Hn Hz Hok HQ. unfold kmp_find_at. replace (text + zlen t - text) with (zlen t) by lia. pose proof (zlen_nonneg t).
  apply wpp_bind. replace (Z.to_nat (zlen t)) with (length t) by (unfold zlen; lia). apply rd_list_ok; [done|].
  apply wpp_bind. replace (Z.to_nat (zlen sub)) with (length sub) by (unfold zlen; lia). apply rd_list_ok; [done|].
  apply wpp_bind. eapply wpp_lift; [apply mem_kmp_find_base_ok; try (done || lia)|]. by apply wpp_ret.
Qed.

Lemma mem_copy_chars dest src l s (Q : Z → mem → Prop) :
  wf s → chars s src l → live s dest (zlen l) → up_ok dest src (zlen l) → Q (dest + zlen l) (written s dest l) →
  wpp (mem_copy dest src (zlen l)) s Q.
Proof.
  intros Hs Hc Hd Ho HQ. apply mem_copy_ok; [apply zlen_nonneg|done|by apply chars_live|done|done|].
  intros s' Hs'. assert (s' = written s dest l) as ->; [|done]. apply map_eq. intros a. rewrite Hs', lookup_written.
  case_decide; [|done]. rewrite (chars_lookup s src l) by (done || lia). replace (src + (a - dest) - src) with (a - dest) by lia.
  symmetry. apply list_lookup_lookup_total_lt. unfold zlen in *. lia.
Qed.
Lemma written_over s p a c l : l ≠ [] → written (written s p (a ++ [c])) (p + zlen a) l = written s p (a ++ l).
Proof. intros Hl. destruct l as [|b l]; [done|]. rewrite !written_app. cbn [written]. by rewrite insert_insert_eq. Qed.
Lemma written_wf s p l : wf s → Forall byte_ok l → wf (written s p l).
Proof.
  intros Hs Hl a b. rewrite lookup_written. case_decide; [|apply Hs]. intros Hab. by eapply (proj1 (Forall_lookup _ _) Hl).
Qed.
Lemma is_char_byte l : Forall is_char l → Forall byte_ok l.
Proof. intros H. eapply Forall_impl; [exact H|]. unfold is_char, byte_ok. intros; cbv beta in *; lia. Qed.
Lemma find_from_range t sub q : find_from t sub (zlen sub) 0 (zlen t) = Some q → 0 ≤ q ∧ q + zlen sub ≤ zlen t.
Proof. intros E. pose proof (find_from_first t sub (zlen sub) 0 (zlen t)) as H. rewrite E in H. destruct H as (H1 & H2 & _). lia. Qed.

Section replace.
Context (src dest : Z) (sub new : list Z) (steps : list Z) (old_end : Z).
Hypothesis Hsub : 0 < zlen sub < 2 ^ 31.
Hypothesis Hz : zlen steps = zlen sub.
Hypothesis Hok : steps_ok sub steps (zlen sub).
Hypothesis Hnew : Forall is_char new.
Definition replace_round : Z * Z → prog mem (Z * Z + Z) := λ '(text_old, text_new),
  if text_old <? old_end then
    r ← kmp_find_at text_old old_end src (zlen sub) steps;
    match r with
    | None => text_new ← mem_copy text_new text_old (old_end - text_old); mret (inr text_new)
    | Some p =>
      text_new ← mem_copy text_new text_old (p - text_old);
      text_new ← text_copy text_new dest;
      mret (inl (p + zlen sub, text_new))
    end
  else mret (inr text_new).

Lemma replace_fuel k : ∀ n t old buff s (Q : Z → mem → Prop),
  let r := replaced k sub new t in
  (length t ≤ k)%nat → (length t < n)%nat → old + zlen t = old_end → wf s → Forall is_char t →
  chars s old t → chars s src sub → cstring s dest new → live s buff (zlen r + 1) →
  disjoint_from buff (zlen r + 1) old (zlen t) → disjoint_from buff (zlen r + 1) src (zlen sub) → disjoint_from buff (zlen r + 1) dest (zlen new + 1) →
  (∀ s', <[buff + zlen r := 0]> s' = written s buff (r ++ [0]) → is_Some (s' !! (buff + zlen r)) → Q (buff + zlen r) s') →
  wpp (ploop n replace_round (old, buff)) s Q.
Proof using Hsub Hz Hok Hnew.
  induction k as [|k IH]; intros n t old buff s Q r Hk Hn He Hs Htc Ht Hsrc Hdst Hb Ha1 Ha2 Ha3 HQ;
    (destruct n as [|n]; [lia|]); apply ploop_step; unfold replace_round at 1; pose proof (zlen_nonneg t) as Ht0; pose proof (zlen_nonneg r) as Hr0.
  { destruct t; [|simpl in Hk; lia]. unfold r in *. simpl in *. change (zlen (@nil Z)) with 0 in *. rewrite (proj2 (Z.ltb_ge old old_end)) by lia.
    apply wpp_ret. rewrite Z.add_0_r in HQ. apply HQ; [done|apply Hb; lia]. }
  destruct (Z.ltb_spec old old_end) as [Hlt|Hge].
  2: { destruct t as [|c t]; [|rewrite zlen_cons in He; pose proof (zlen_nonneg t); lia].
    assert (r = []) as Er. { unfold r. simpl. destruct (find_from _ _ _ _ _) as [q|] eqn:E; [|done]. apply find_from_range in E. change (zlen (@nil Z)) with 0 in E. lia. }
    rewrite Er in *. apply wpp_ret. change (zlen (@nil Z)) with 0 in *. rewrite Z.add_0_r in HQ. apply HQ; [done|apply Hb; lia]. }
  apply wpp_bind, (kmp_find_at_ok old old_end t src sub steps s); [done..|].
  unfold r in *. cbn [replaced] in *. destruct (find_from t sub (zlen sub) 0 (zlen t)) as [q|] eqn:E; cbn [fmap option_fmap option_map].
  - apply find_from_range in E as [Hq Hqe]. set (t1 := take (Z.to_nat q) t) in *. set (t2 := drop (Z.to_nat (q + zlen sub)) t) in *.
    set (r2 := replaced k sub new t2) in *. assert (zlen t1 = q) as Ht1 by (unfold zlen, t1 in *; rewrite length_take; lia).
    assert (zlen t2 = zlen t - q - zlen sub) as Ht2 by (unfold t2, zlen in *; rewrite length_drop; lia).
    assert (t = t1 ++ take (Z.to_nat (zlen sub)) (drop (Z.to_nat q) t) ++ t2) as Et.
    { unfold t1, t2. replace (Z.to_nat (q + zlen sub)) with (Z.to_nat q + Z.to_nat (zlen sub))%nat by lia.
      by rewrite <-drop_drop, take_drop, take_drop. }
    pose proof (zlen_nonneg new). pose proof (zlen_nonneg r2). rewrite !zlen_app in *. rewrite Ht1 in *.
    pose proof Ht as Htt. rewrite Et in Htt. apply chars_app in Htt as [Hc1 [_ Hc2]%chars_app].
    rewrite Et in Htc. apply Forall_app in Htc as [Htc1 [_ Htc2]%Forall_app].
    replace (old + q - old) with (zlen t1) by lia. unfold disjoint_from in *. apply wpp_bind, mem_copy_chars; [done|done| |unfold up_ok; lia|].
    { eapply live_le; [exact Hb|lia..]. }
    apply wpp_bind, (text_copy_ok _ _ new).
    + apply written_cstring; [unfold disjoint_from; lia|done].
    + apply written_live. eapply live_le; [exact Hb|lia..].
    + unfold disjoint_from. lia.
    + rewrite <-written_app, app_assoc, Ht1. apply wpp_ret. cbv beta iota. set (a := t1 ++ new).
      assert (zlen a = q + zlen new) as Hza by (unfold a; rewrite zlen_app; lia).
      replace (buff + q + zlen new) with (buff + zlen a) by lia.
      assert (∀ x, ¬ (buff ≤ x < buff + zlen a + 1) → written s buff (a ++ [0]) !! x = s !! x) as Hout.
      { intros x Hx. apply written_out. rewrite zlen_app. change (zlen [0]) with 1. lia. }
      apply (IH n t2); fold r2; try (unfold disjoint_from; lia).
      * unfold zlen in *. lia.
      * unfold zlen in *. lia.
      * apply written_wf; [done|]. apply Forall_app. split; [|by apply Forall_cons; split; [unfold byte_ok; lia|]].
        apply is_char_byte, Forall_app. done.
      * done.
      * replace (old + q + zlen sub) with (old + zlen t1 + zlen (take (Z.to_nat (zlen sub)) (drop (Z.to_nat q) t))).
        2: { unfold zlen in *. rewrite length_take, length_drop. lia. }
        eapply chars_ext; [|exact Hc2]. intros x Hx. apply Hout. unfold zlen in *. rewrite length_take, length_drop in Hx. lia.
      * eapply chars_ext; [|exact Hsrc]. intros x Hx. apply Hout. lia.
      * eapply cstring_ext; [|exact Hdst]. intros x Hx. apply Hout. lia.
      * apply written_live. eapply live_le; [exact Hb|lia..].
      * intros s' Hw Hl. replace (buff + zlen a + zlen r2) with (buff + (q + (zlen new + zlen r2))) in * by lia.
        apply HQ; [|done]. rewrite Hw, written_over by (by destruct r2). unfold a. by rewrite <-!app_assoc.
  - replace (old_end - old) with (zlen t) by lia. unfold disjoint_from in *. apply wpp_bind, mem_copy_chars; [done|done| |unfold up_ok; lia|].
    { eapply live_le; [exact Hb|lia..]. }
    apply wpp_ret. apply HQ; [by rewrite written_app|]. apply (written_live s buff t buff (zlen t + 1)); [done|lia].
Qed.
End replace.

(** C26: [text_replace_text_base] writes, into room for the result that does not
    overlap its arguments, the text with the leftmost occurrences of the pattern
    (of one to 2^31 - 1 characters) replaced, those found by trying every place in turn; it ends it with a zero,
    answers where, and changes nothing else. *)
Theorem text_replace_is_naive_replacement garbage s text_old text_new src dest t sub new :
  wf s → cstring s text_old t → chars s src sub → 0 < zlen sub < 2 ^ 31 → cstring s dest new →
  let r := replaced (length t) sub new t in
  live s text_new (zlen r + 1) → disjoint_from text_new (zlen r + 1) text_old (zlen t + 1) →
  disjoint_from text_new (zlen r + 1) src (zlen sub) → disjoint_from text_new (zlen r + 1) dest (zlen new + 1) →
  text_replace_text_base garbage text_old text_new src (zlen sub) dest s =
    Ok (text_new + zlen r, written s text_new (r ++ [0])).
Proof.
  intros Hs Ht Hsrc Hn Hdst r Hb Ha1 Ha2 Ha3.
  destruct (proj1 (wpp_ok (text_replace_text_base garbage text_old text_new src (zlen sub) dest) s
    (λ x s', x = text_new + zlen r ∧ s' = written s text_new (r ++ [0])))) as (x & s' & E & -> & ->); [|done].
  unfold text_replace_text_base. apply wpp_bind, kmp_steps_of_ok; [done|done|]. intros steps Hz Hok.
  apply wpp_bind, (text_len_ok _ t); [done|]. apply wpp_bind. replace (text_old + zlen t - text_old) with (zlen t) by lia.
  apply (replace_fuel src dest sub new steps (text_old + zlen t) Hn Hz Hok (proj2 Hdst) (length t) _ t); fold r; try done.
  - unfold bytes_fuel, zlen. lia.
  - apply Ht.
  - apply (proj1 (chars_app _ _ _ _) (proj1 Ht)).
  - unfold disjoint_from in *. lia.
  - intros s' Hw Hl. apply wpp_bind, wpp_wr; [done|]. by apply wpp_ret.
Qed.

(** "aXb" at 10, "X" at 20, "yy" at 30, room at 40. *)
Lemma text_replace_is_naive_replacement_witness :
  let s := written (written (two_texts 10 [97; 88; 98] 20 [88]) 30 [121; 121; 0]) 40 [1; 1; 1; 1; 1] in
  cstring s 10 [97; 88; 98] ∧
  text_replace_text_base (λ _, 0) 10 40 20 1 30 s = Ok (44, written s 40 [97; 121; 121; 98; 0]).
Proof.
  intros s. destruct (two_texts_ok 10 [97; 88; 98] 20 [88]) as [H1 H2]; [on_texts..|].
  assert (cstring s 10 [97; 88; 98]) as H1' by (apply written_cstring, written_cstring; [on_texts..|exact H1]). split; [exact H1'|].
  apply (text_replace_is_naive_replacement (λ _, 0) s 10 40 20 30 [97; 88; 98] [88] [121; 121]).
  - repeat (apply written_wf; [|repeat constructor; cbn; lia]). apply wf_empty.
  - exact H1'.
  - assert (cstring s 20 [88]) as H by (apply written_cstring, written_cstring; [on_texts..|exact H2]).
    exact (proj1 (proj1 (chars_app _ _ [88] [0]) (proj1 H))).
  - unfold zlen. cbn. lia.
  - apply written_cstring; [on_texts|]. apply (written_cstring_here _ 30 [121; 121]). on_texts.
  - exact (chars_live _ _ _ (written_chars _ 40 [1; 1; 1; 1; 1])).
  - on_texts.
  - on_texts.
  - on_texts.
Defined.

(** ** Where the code does something else *)

(** The bytes from [p] on, after a computation. *)
Definition text_at (p : Z) (n : nat) {A} (r : cres (A * mem)) : option (list (option Z)) :=
  match r with Ok (_, s) => Some ((λ i, s !! (p + Z.of_nat i)) <$> seq 0 n) | _ => None end.

(** "az" becomes "Zs", not "AZ". *)
Example uppercase_adds_the_wrong_letter :
  text_at 10 3 (text2uppercase 10 (written ∅ 10 [97; 122; 0])) = Some [Some 90; Some 115; Some 0].
Proof. by vm_compute. Qed.
(** The copy of "A" is not ended: the byte after it stays as it was. *)
Example lowercase_copy_has_no_end :
  text_at 20 2 (text_copy_lowercase 20 10 (two_texts 10 [65] 20 [120; 120])) = Some [Some 97; Some 120].
Proof. by vm_compute. Qed.
(** "a" and "a " are equal; the other way round the comparison leaves the
    string, whose terminator it takes for a space. *)
Example nocase_takes_the_end_for_a_space :
  let s := two_texts 10 [97] 20 [97; 32] in
  text_cmp_nocase 10 20 s = Ok (0, s) ∧ text_cmp_nocase 20 10 s = Undef.
Proof. split; by vm_compute. Qed.
(** Equal strings compare as different, different ones as equal. *)
Example ncmp_nocase_is_upside_down :
  let s := two_texts 10 [97; 98] 20 [120; 121] in
  text_ncmp_nocase 10 10 2 s = Ok (1, s) ∧ text_ncmp_nocase 10 20 2 s = Ok (0, s).
Proof. split; by vm_compute. Qed.
(** "1" and "1.1": each is before the other. *)
Example versions_before_each_other :
  let s := two_texts 10 [49] 20 [49; 46; 49] in
  text_version_cmp 10 20 46 s = Ok (-1, s) ∧ text_version_cmp 20 10 46 s = Ok (-1, s).
Proof. split; by vm_compute. Qed.
(** "a" cut at ":": the first call answers "a", every later one the empty end. *)
Example tok_never_answers_null :
  let s := two_texts 10 [97] 20 [58] in
  text_tok 0 10 20 s = Ok ((10, 11), s) ∧ text_tok 11 0 20 s = Ok ((11, 11), s).
Proof. split; by vm_compute. Qed.
(** "a:b" cut at ":" into cells of 2 bytes: the first piece is not ended. *)
Example split_pieces_have_no_end :
  text_at 30 4 (text_split_by_text (λ _, 0) 10 20 30 2 2 (written (two_texts 10 [97; 58; 98] 20 [58]) 30 [120; 120; 120; 120])) =
  Some [Some 97; Some 120; Some 98; Some 0].
Proof. by vm_compute. Qed.

(** The test of the loop of [text_cat4] is on the array, so that it only ends by
    reading past it. *)
Lemma text_cat4_never_returns dest srcs s r : text_cat4 dest (Some srcs) s ≠ Ok r.
Proof.
  unfold text_cat4. generalize 0 as i. generalize (S (length srcs)) as n. intros n. revert dest s.
  induction n as [|n IH]; intros dest s i; unfold ploop; [done|]. rewrite loop_S. unfold mbind at 1. unfold cres_bind.
  unfold lift, mbind, prog_bind, cres_bind, mret, prog_ret, cres_ret. destruct (load srcs i) as [p| |]; try done.
  destruct (append_chars dest p s) as [[dest' s']| |]; try done. apply IH.
Qed.
