(* ===== verification/CString.v ===== *)
(** CString: the growing strings [cavan_string_t] of src/lib/text.c and
    src/include/cavan/text.h.

    The heap is the byte store with the blocks [malloc] has given out; which
    address it answers is a parameter of the model, NULL included.  A freed
    block is gone, so that using it is undefined, and so is freeing what is no
    block.  A string whose [allocated] is 0 borrows its text. *)
From S2P Require Import Prelude Memory Bignum MemOps TextNum Ctype Text.

(** ** The heap *)

Record heap := mk_heap { h_mem : mem; h_blocks : gmap Z Z }.
Definition on_mem {A} (m : prog mem A) : prog heap A := λ h,
  '(a, s) ← m (h_mem h); mret (a, mk_heap s (h_blocks h)).
Definition free (p : Z) : prog heap unit := λ h,
  if p =? 0 then Ok (tt, h)
  else match h_blocks h !! p with
       | Some n => Ok (tt, mk_heap (filter (λ x, ¬ (p ≤ x.1 < p + n)) (h_mem h)) (delete p (h_blocks h)))
       | None => Undef
       end.
(** Undefined when the ranges overlap or are not live. *)
Definition memcpy_bytes (dest src n : Z) : prog mem unit :=
  if (n <? 0) || ((0 <? n) && (src <? dest + n) && (dest <? src + n)) then undefined
  else l ← rd_list src (Z.to_nat n); wr_list dest l.

Record cavan_string := mk_string { cs_text : Z; cs_length : Z; cs_allocated : Z }.
(** The sum of two [int]s. *)
Definition int_add (a b : Z) : cres Z :=
  if (- 2 ^ 31 <=? a + b) && (a + b <? 2 ^ 31) then Ok (a + b) else Undef.

Section strings.
(** The address [malloc] answers, what it finds there, and the literal "". *)
Context (pick : heap → Z → option Z) (junk : Z → Z) (empty : Z).

Definition malloc (n : Z) : prog heap Z := λ h,
  match pick h n with
  | Some p => Ok (p, mk_heap (place (h_mem h) p n junk) (<[p := n]> (h_blocks h)))
  | None => Ok (0, h)
  end.

(** ** Operations *)

(** [None]: the fields are left as they were. *)
Definition cavan_string_init (text length : Z) : prog heap (Z * option cavan_string) :=
  if text =? 0 then
    if 0 <? length then
      p ← malloc length;
      if p =? 0 then mret (- ENOMEM, None)
      else on_mem (wr p 0);; mret (0, Some (mk_string p 0 length))
    else mret (0, Some (mk_string empty 0 length))
  else mret (0, Some (mk_string text length 0)).
Definition cavan_string_deinit (str : cavan_string) : prog heap cavan_string :=
  if 0 <? cs_allocated str then free (cs_text str);; mret (mk_string empty 0 0) else mret str.
Definition cavan_string_alloc (str : cavan_string) (size : Z) (force : bool) : prog heap (Z * cavan_string) :=
  '(ret, str) ← (if force || (cs_allocated str <=? size) then
      total ← lift (int_add size 1);
      (if 0 <? cs_allocated str then free (cs_text str) else mret tt);;
      p ← malloc total;
      if p =? 0 then mret (- ENOMEM, mk_string 0 (cs_length str) (cs_allocated str))
      else mret (0, mk_string p (cs_length str) total)
    else mret (0, str));
  if ret <? 0 then mret (ret, str)
  else on_mem (wr (cs_text str + size) 0);; mret (0, mk_string (cs_text str) size (cs_allocated str)).

(** Doubling past the largest [int] is undefined. *)
Definition grow_size (length : Z) : cres Z :=
  loop 32 (λ size, if size <=? length then size' ← int_add size size; mret (inl size') else mret (inr size)) 32.
Definition cavan_string_extand (str : cavan_string) (length : Z) : prog heap (bool * cavan_string) :=
  if length <? cs_allocated str then mret (true, str)
  else
    size ← lift (grow_size length);
    mem ← malloc size;
    if mem =? 0 then mret (false, str)
    else
      (if 0 <? cs_length str then on_mem (memcpy_bytes mem (cs_text str) (cs_length str)) else mret tt);;
      on_mem (wr (mem + cs_length str) 0);;
      (if 0 <? cs_allocated str then free (cs_text str) else mret tt);;
      mret (true, mk_string mem (cs_length str) size).
Definition cavan_string_append (str : cavan_string) (text size : Z) : prog heap (Z * cavan_string) :=
  used ← lift (int_add (cs_length str) size);
  '(ok, str) ← cavan_string_extand str used;
  if negb ok then mret (- ENOMEM, str)
  else
    on_mem (memcpy_bytes (cs_text str + cs_length str) text size);;
    on_mem (wr (cs_text str + used) 0);;
    mret (size, mk_string (cs_text str) used (cs_allocated str)).
(** The literals "\n" and "\r\n" are at [lf] and [crlf]. *)
Definition cavan_string_append_line_end_unix (lf : Z) (str : cavan_string) : prog heap (Z * cavan_string) :=
  cavan_string_append str lf 1.
Definition cavan_string_append_line_end_dos (crlf : Z) (str : cavan_string) : prog heap (Z * cavan_string) :=
  cavan_string_append str crlf 2.
Definition cavan_string_append_line_unix (lf : Z) (str : cavan_string) (line size : Z) : prog heap (Z * cavan_string) :=
  '(ret, str) ← cavan_string_append str line size;
  if ret <? 0 then mret (ret, str) else cavan_string_append_line_end_unix lf str.
Definition cavan_string_append_line_dos (crlf : Z) (str : cavan_string) (line size : Z) : prog heap (Z * cavan_string) :=
  '(ret, str) ← cavan_string_append str line size;
  if ret <? 0 then mret (ret, str) else cavan_string_append_line_end_dos crlf str.
Definition cavan_string_assign (str : cavan_string) (text size : Z) : prog heap (Z * cavan_string) :=
  cavan_string_append (mk_string (cs_text str) 0 (cs_allocated str)) text size.
Definition cavan_string_clear (str : cavan_string) (depth : bool) : prog heap cavan_string :=
  if 0 <? cs_allocated str then
    if depth then free (cs_text str);; mret (mk_string empty 0 0)
    else on_mem (wr (cs_text str) 0);; mret (mk_string (cs_text str) 0 (cs_allocated str))
  else mret (mk_string empty 0 (cs_allocated str)).
End strings.

(** ** Comparisons and trimming *)

Definition cavan_string_cmp2 (text1 len1 text2 : Z) : prog mem Z :=
  let text1_end := text1 + len1 in
  ploop (bytes_fuel len1) (λ '(text1, text2),
    if text1 <? text1_end then
      a ← rd text1; b ← rd text2;
      mret (if negb (a =? b) then inr (schar a - schar b) else inl (text1 + 1, text2 + 1))
    else b ← rd text2; mret (inr (if b =? 0 then 0 else -1))) (text1, text2).
Definition cavan_string_casecmp2 (text1 len1 text2 : Z) : prog mem Z :=
  let text1_end := text1 + len1 in
  ploop (bytes_fuel len1) (λ '(text1, text2),
    if text1 <? text1_end then
      a ← rd text1; b ← rd text2;
      mret (if negb (Z.lor a 0x20 =? Z.lor b 0x20) then inr (schar a - schar b) else inl (text1 + 1, text2 + 1))
    else b ← rd text2; mret (inr (if b =? 0 then 0 else -1))) (text1, text2).
Definition cavan_string_startswith (text1 len1 text2 len2 : Z) : prog mem bool :=
  let text1_end := text1 + len1 in
  let text2_end := text2 + len2 in
  ploop (bytes_fuel len1) (λ '(text1, text2),
    if text1 <? text1_end then
      if text2 <? text2_end then
        a ← rd text1; b ← rd text2;
        mret (if negb (a =? b) then inr false else inl (text1 + 1, text2 + 1))
      else mret (inr true)
    else mret (inr (negb (text2 <? text2_end)))) (text1, text2).
Definition cavan_string_startswith2 (text1 len1 text2 : Z) : prog mem bool :=
  let text1_end := text1 + len1 in
  ploop (bytes_fuel len1) (λ '(text1, text2),
    if text1 <? text1_end then
      a ← rd text1; b ← rd text2;
      mret (if negb (a =? b) then inr (b =? 0) else inl (text1 + 1, text2 + 1))
    else b ← rd text2; mret (inr (b =? 0))) (text1, text2).
Definition cavan_string_trim_start (text length : Z) : prog mem Z := skip_within cavan_isspace_lf text (text + length).
(** [while (text_end > text && f(text_end[-1])) text_end--;] *)
Definition trim_tail (text text_end : Z) : prog mem Z :=
  ploop (bytes_fuel (text_end - text)) (λ text_end,
    if text <? text_end then
      c ← rd (text_end - 1); mret (if negb (cavan_isspace_lf c) then inr text_end else inl (text_end - 1))
    else mret (inr text_end)) text_end.
Definition cavan_string_trim_end (text length : Z) : prog mem Z :=
  text_end ← trim_tail text (text + length); mret (text_end - text).
Definition cavan_string_trim (text length : Z) : prog mem (Z * Z) :=
  let text_end := text + length in
  text ← skip_within cavan_isspace_lf text text_end;
  text_end ← trim_tail text text_end;
  mret (text, text_end - text).

(** ** The heap operations *)

Lemma wpp_on_mem {A} (m : prog mem A) h (Q : A → heap → Prop) :
  wpp m (h_mem h) (λ a s, Q a (mk_heap s (h_blocks h))) → wpp (on_mem m) h Q.
Proof. unfold wpp, on_mem. intros H. apply wp_bind. eapply wp_mono; [exact H|]. by intros [a s]. Qed.
Lemma memcpy_bytes_ok dest src l s (Q : unit → mem → Prop) :
  chars s src l → Forall byte_ok l → live s dest (zlen l) → disjoint_from dest (zlen l) src (zlen l) → Q tt (written s dest l) →
  wpp (memcpy_bytes dest src (zlen l)) s Q.
Proof.
  intros Hc Hl Hd Ha HQ. unfold memcpy_bytes, disjoint_from in *. pose proof (zlen_nonneg l).
  assert ((zlen l <? 0) || ((0 <? zlen l) && (src <? dest + zlen l) && (dest <? src + zlen l)) = false) as ->.
  { destruct (Z.ltb_spec (zlen l) 0), (Z.ltb_spec 0 (zlen l)), (Z.ltb_spec src (dest + zlen l)), (Z.ltb_spec dest (src + zlen l)); try done; lia. }
  apply wpp_bind. replace (Z.to_nat (zlen l)) with (length l) by (unfold zlen; lia). apply rd_list_ok; [done|]. by apply wr_list_ok.
Qed.
Lemma free_ok p n h (Q : unit → heap → Prop) :
  0 < p → h_blocks h !! p = Some n →
  (∀ h', h_blocks h' = delete p (h_blocks h) → (∀ a, h_mem h' !! a = if decide (p ≤ a < p + n) then None else h_mem h !! a) → Q tt h') →
  wpp (free p) h Q.
Proof.
  intros Hp Hn HQ. unfold wpp, free. rewrite (proj2 (Z.eqb_neq p 0)), Hn by lia. apply wp_ret, HQ; [done|]. intros a. simpl.
  rewrite map_lookup_filter. destruct (h_mem h !! a) as [b|]; simpl; [|by case_decide].
  repeat case_guard || case_decide; try done; simpl in *; lia.
Qed.
Lemma grow_size_ok length (Q : Z → Prop) : 0 ≤ length < 2 ^ 30 → (∀ size, length < size < 2 ^ 31 → Q size) → wp (grow_size length) Q.
Proof.
  intros Hl HQ. unfold grow_size.
  apply (wp_loop_n (λ n size, ∃ k, 0 ≤ k ≤ 25 ∧ n = Z.to_nat (25 - k) ∧ size = 32 * 2 ^ k) Q) with (n := 25%nat); [|by exists 0|lia].
  intros n size (k & Hk & -> & ->). pose proof (Z.pow_pos_nonneg 2 k ltac:(lia) ltac:(lia)). pose proof (Z.pow_le_mono_r 2 k 25).
  destruct (Z.leb_spec (32 * 2 ^ k) length) as [Hle|Hlt]; [|apply wp_ret, HQ; lia].
  assert (k < 25) as Hk' by (destruct (Z.lt_ge_cases k 25); [done|]; pose proof (Z.pow_le_mono_r 2 25 k); lia).
  pose proof (Z.pow_le_mono_r 2 k 24). apply wp_bind. unfold int_add. rewrite (proj2 (Z.leb_le _ _)), (proj2 (Z.ltb_lt _ _)) by lia.
  apply wp_ret, wp_ret. exists (Z.to_nat (25 - (k + 1))). split; [lia|].
  exists (k + 1). split_and!; [lia|lia|done|]. rewrite Z.pow_add_r by lia. lia.
Qed.

(** ** What a string holds *)

(** The cells of the block the string owns. *)
Definition owned (str : cavan_string) (a : Z) : Prop :=
  0 < cs_allocated str ∧ cs_text str ≤ a < cs_text str + cs_allocated str.
Definition owns (h : heap) (str : cavan_string) (n : Z) : Prop :=
  h_blocks h !! cs_text str = Some (cs_allocated str) ∧ 0 < cs_text str ∧ n < cs_allocated str ∧
  live (h_mem h) (cs_text str) (cs_allocated str).
(** The text of [str] is [l]. *)
Record carries (h : heap) (str : cavan_string) (l : list Z) : Prop := {
  hold_length : cs_length str = zlen l;
  hold_bytes : Forall byte_ok l;
  hold_wf : wf (h_mem h);
  hold_text : chars (h_mem h) (cs_text str) l;
  hold_owns : 0 ≤ cs_allocated str ∧ (0 < cs_allocated str → owns h str (zlen l));
}.
(** A text the string owns is ended by a zero. *)
Definition zero_ended (h : heap) (str : cavan_string) (l : list Z) : Prop :=
  0 < cs_allocated str → h_mem h !! (cs_text str + zlen l) = Some 0.
(** What is outside the string stays, and stays outside. *)
Definition frame (h : heap) (str : cavan_string) (h' : heap) (str' : cavan_string) : Prop :=
  ∀ a b, h_mem h !! a = Some b → ¬ owned str a → h_mem h' !! a = Some b ∧ ¬ owned str' a.
(** Bytes that are not the string's. *)
Definition foreign (h : heap) (str : cavan_string) (p : Z) (k : list Z) : Prop :=
  chars (h_mem h) p k ∧ Forall byte_ok k ∧ ∀ a, p ≤ a < p + zlen k → ¬ owned str a.

Lemma frame_refl h str : frame h str h str.
Proof. done. Qed.
Lemma frame_trans h1 str1 h2 str2 h3 str3 : frame h1 str1 h2 str2 → frame h2 str2 h3 str3 → frame h1 str1 h3 str3.
Proof. intros H1 H2 a b Ha Ho. destruct (H1 a b Ha Ho). by apply H2. Qed.
Lemma frame_foreign h str h' str' p k : frame h str h' str' → foreign h str p k → foreign h' str' p k.
Proof.
  intros Hf (Hc & Hk & Ho). split_and!; [|done|].
  - intros i b Hi. pose proof (lookup_lt_Some _ _ _ Hi). apply (Hf _ b); [by apply Hc|]. apply Ho. unfold zlen. lia.
  - intros a Ha. apply (Hf a (get k (a - p))); [by apply chars_lookup|by apply Ho].
Qed.

Section laws.
Context (pick : heap → Z → option Z) (junk : Z → Z) (empty : Z).
(** [malloc] answers NULL or a block of fresh memory. *)
Definition fresh_blocks : Prop := ∀ h n p, pick h n = Some p →
  0 < p ∧ h_blocks h !! p = None ∧ ∀ a, p ≤ a < p + n → h_mem h !! a = None.
Hypothesis Hpick : fresh_blocks.

Lemma malloc_ok n h (Q : Z → heap → Prop) :
  Q 0 h →
  (∀ p h', 0 < p → h_blocks h !! p = None → h_blocks h' = <[p := n]> (h_blocks h) →
     (∀ a, p ≤ a < p + n → h_mem h !! a = None) → (∀ a, ¬ (p ≤ a < p + n) → h_mem h' !! a = h_mem h !! a) →
     live (h_mem h') p n → (wf (h_mem h) → wf (h_mem h')) → Q p h') →
  wpp (malloc pick junk n) h Q.
Proof using Hpick.
  intros H0 HQ. unfold wpp, malloc. destruct (pick h n) as [p|] eqn:E; [|by apply wp_ret]. apply wp_ret.
  destruct (Hpick h n p E) as (Hp & Hb & Hm). apply HQ; try done; simpl.
  - intros a Ha. rewrite lookup_place. by case_decide.
  - apply place_live; lia.
  - apply place_wf.
Qed.

(** A range of live cells does not meet a fresh block. *)
Lemma fresh_apart h q m l p n : chars (h_mem h) p l → zlen l = n → 0 < m → 0 < n →
  (∀ a, q ≤ a < q + m → h_mem h !! a = None) → disjoint_from q m p n.
Proof using Type.
  intros Hc Hl Hm Hn Hf. unfold disjoint_from. destruct (decide (q + m ≤ p)); [by left|]. destruct (decide (p + n ≤ q)); [by right|].
  exfalso. pose proof (chars_lookup _ p l (Z.max p q) Hc ltac:(lia)) as H. rewrite Hf in H by lia. done.
Qed.

Lemma cavan_string_extand_ok h str l length (Q : bool * cavan_string → heap → Prop) :
  carries h str l → zlen l ≤ length < 2 ^ 30 →
  Q (false, str) h →
  (∀ str' h', carries h' str' l → frame h str h' str' → length < cs_allocated str' → Q (true, str') h') →
  wpp (cavan_string_extand pick junk str length) h Q.
Proof using Hpick.
  intros [Hlen Hby Hwf Htext [Hpos Hown]] Hl HQ0 HQ. unfold cavan_string_extand. pose proof (zlen_nonneg l).
  destruct (Z.ltb_spec length (cs_allocated str)) as [Hlt|Hge]; [by apply wpp_ret, HQ|].
  apply wpp_bind. destruct (proj1 (wp_ok (grow_size length) (λ size, length < size < 2 ^ 31))) as (size & E & Hsize); [by apply grow_size_ok; [lia|]|].
  eapply wpp_lift; [exact E|]. apply wpp_bind, malloc_ok; [by apply wpp_ret|].
  intros p h1 Hp Hnb Hb1 Hfresh Hsame Hlive Hwf1. rewrite (proj2 (Z.eqb_neq p 0)) by lia.
  assert (chars (h_mem h1) (cs_text str) l) as Htext1.
  { intros i b Hi. rewrite Hsame; [by apply Htext|]. intros Ha. apply Hfresh in Ha. rewrite (Htext i b Hi) in Ha. done. }
  apply wpp_bind. rewrite Hlen.
  assert (∀ Q' : unit → heap → Prop, Q' tt (mk_heap (written (h_mem h1) p l) (h_blocks h1)) →
    wpp (if 0 <? zlen l then on_mem (memcpy_bytes p (cs_text str) (zlen l)) else mret tt) h1 Q') as Hcopy.
  { intros Q' HQ'. destruct (Z.ltb_spec 0 (zlen l)) as [H0|H0].
    - apply wpp_on_mem, memcpy_bytes_ok; [done|done|eapply live_le; [exact Hlive|lia..]| |done].
      pose proof (fresh_apart h p size l (cs_text str) (zlen l) Htext eq_refl ltac:(lia) ltac:(lia) Hfresh). unfold disjoint_from in *. lia.
    - destruct l as [|b l]; [|rewrite zlen_cons in *; pose proof (zlen_nonneg l); lia]. apply wpp_ret. by destruct h1. }
  apply Hcopy. apply wpp_bind, wpp_on_mem, wpp_wr; [apply (written_live _ _ _ p size); [done|lia]|]. simpl. change (u8 0) with 0.
  set (s2 := <[p + zlen l:=0]> _). apply wpp_bind.
  assert (∀ a, ¬ (p ≤ a < p + size) → s2 !! a = h_mem h !! a) as Hout.
  { intros a Ha. unfold s2. rewrite lookup_insert_ne by lia. rewrite written_out by lia. by apply Hsame. }
  assert (chars s2 p l) as Hc2.
  { eapply chars_ext; [|apply (written_chars (h_mem h1) p l)]. intros a Ha. unfold s2. by rewrite lookup_insert_ne by lia. }
  assert (live s2 p size) as Hl2.
  { intros a Ha. unfold s2. rewrite lookup_insert. case_decide; [by eexists|]. apply (written_live _ _ _ p size Hlive a Ha). }
  assert (wf s2) as Hw2 by (apply (wf_insert _ _ 0), written_wf; auto).
  assert (∀ a, h_mem h !! a ≠ None → ¬ (p ≤ a < p + size)) as Hnew by (intros a Ha Hr; by apply Ha, Hfresh).
  destruct (Z.ltb_spec 0 (cs_allocated str)) as [Ha|Ha].
  - destruct (Hown Ha) as (O1 & O2 & O3 & O4).
    assert (disjoint_from p size (cs_text str) (cs_allocated str)) as Hap.
    { unfold disjoint_from. destruct (decide (p + size ≤ cs_text str)); [by left|]. destruct (decide (cs_text str + cs_allocated str ≤ p)); [by right|].
      exfalso. destruct (O4 (Z.max p (cs_text str)) ltac:(lia)) as [b Hb']. rewrite Hfresh in Hb' by lia. done. }
    unfold disjoint_from in Hap.
    assert (p ≠ cs_text str) as Hne by (intros ->; congruence).
    apply (free_ok _ (cs_allocated str)); [done|simpl; by rewrite Hb1, lookup_insert_ne|]. intros h' Hb' Hm'. cbn [h_mem] in Hm'. apply wpp_ret, HQ; [|..|simpl; lia].
    + assert (∀ a, p ≤ a < p + size → h_mem h' !! a = s2 !! a) as Hin by (intros a Hr; rewrite Hm', decide_False by lia; done).
      split; simpl; [done|done| | |].
      * intros a b. rewrite Hm'. case_decide; [done|apply Hw2].
      * eapply chars_ext; [|exact Hc2]. intros a Hr. apply Hin. lia.
      * split; [lia|]. intros _. unfold owns. simpl. split_and!; [|lia|lia|].
        -- rewrite Hb', lookup_delete_ne by done. simpl. by rewrite Hb1, lookup_insert_eq.
        -- intros a Hr. rewrite Hin by done. by apply Hl2.
    + intros a b Hab Hno. specialize (Hnew a ltac:(congruence)). unfold owned in *. simpl. split; [|lia].
      rewrite Hm', decide_False by lia. by rewrite Hout.
  - apply wpp_ret, wpp_ret, HQ; [|..|simpl; lia].
    + split; simpl; [done..|]. split; [lia|]. intros _. unfold owns. simpl. split_and!; [by rewrite Hb1, lookup_insert_eq|lia|lia|done].
    + intros a b Hab Hno. specialize (Hnew a ltac:(congruence)). unfold owned. simpl. split; [|lia]. by rewrite Hout.
Qed.

(** A text written behind the one a string owns, and its end. *)
Lemma holds_append h str l k :
  carries h str l → Forall byte_ok k → zlen l + zlen k < cs_allocated str →
  let h' := mk_heap (<[cs_text str + (zlen l + zlen k) := 0]> (written (h_mem h) (cs_text str + zlen l) k)) (h_blocks h) in
  let str' := mk_string (cs_text str) (zlen l + zlen k) (cs_allocated str) in
  carries h' str' (l ++ k) ∧ frame h str h' str' ∧ zero_ended h' str' (l ++ k).
Proof using Type.
  intros [Hlen Hby Hwf Htext [Hpos Hown]] Hk Ha h' str'. pose proof (zlen_nonneg l). pose proof (zlen_nonneg k).
  destruct (Hown ltac:(lia)) as (O1 & O2 & O3 & O4).
  assert (∀ a, ¬ (cs_text str + zlen l ≤ a ≤ cs_text str + (zlen l + zlen k)) → h_mem h' !! a = h_mem h !! a) as Hout.
  { intros a Hr. simpl. rewrite lookup_insert_ne by lia. rewrite written_out by lia. done. }
  split_and!.
  - split; simpl; [by rewrite zlen_app|by apply Forall_app|by apply (wf_insert _ _ 0), written_wf| |].
    + apply chars_app. split; [eapply chars_ext; [|exact Htext]; intros a Hr; apply Hout; lia|].
      eapply chars_ext; [|apply (written_chars (h_mem h) _ k)]. intros a Hr. by rewrite lookup_insert_ne by lia.
    + split; [done|]. intros _. unfold owns. simpl. rewrite zlen_app. split_and!; [done|done|done|].
      intros a Hr. rewrite lookup_insert. case_decide; [by eexists|]. by apply (written_live _ _ _ _ _ O4).
  - intros a b Hab Hno. unfold owned in *. simpl. split; [|done].
    destruct (decide (cs_text str + zlen l ≤ a ≤ cs_text str + (zlen l + zlen k))); [exfalso; apply Hno; lia|].
    rewrite lookup_insert_ne by lia. rewrite written_out by lia. done.
  - intros _. simpl. by rewrite zlen_app, lookup_insert_eq.
Qed.

Lemma cavan_string_append_ok h str l p k (Q : Z * cavan_string → heap → Prop) :
  carries h str l → foreign h str p k → zlen l + zlen k < 2 ^ 30 →
  (Q (- ENOMEM, str) h) →
  (∀ str' h', carries h' str' (l ++ k) → frame h str h' str' → zero_ended h' str' (l ++ k) → Q (zlen k, str') h') →
  wpp (cavan_string_append pick junk str p (zlen k)) h Q.
Proof using Hpick.
  intros Hh Hf Hn HQ0 HQ. unfold cavan_string_append. pose proof (zlen_nonneg l). pose proof (zlen_nonneg k).
  rewrite (hold_length _ _ _ Hh). apply wpp_bind. eapply wpp_lift.
  { unfold int_add. rewrite (proj2 (Z.leb_le _ _)), (proj2 (Z.ltb_lt _ _)) by lia. done. }
  apply wpp_bind, (cavan_string_extand_ok h str l); [done|lia|by apply wpp_ret|].
  intros str1 h1 H1 F1 Ha. cbn [negb]. pose proof (frame_foreign _ _ _ _ _ _ F1 Hf) as (Hc & Hk & Ho).
  destruct (hold_owns _ _ _ H1) as [_ O]. destruct (O ltac:(lia)) as (O1 & O2 & O3 & O4).
  rewrite (hold_length _ _ _ H1). apply wpp_bind, wpp_on_mem, memcpy_bytes_ok; [done|done| | |].
  - eapply live_le; [exact O4|lia..].
  - unfold disjoint_from. destruct (decide (cs_text str1 + zlen l + zlen k ≤ p)); [by left|]. destruct (decide (p + zlen k ≤ cs_text str1 + zlen l)); [by right|].
    exfalso. apply (Ho (Z.max p (cs_text str1 + zlen l))); [lia|]. unfold owned. lia.
  - destruct (holds_append h1 str1 l k H1 Hk Ha) as (H2 & F2 & E2).
    apply wpp_bind, wpp_on_mem, wpp_wr; [apply (written_live _ _ _ (cs_text str1) (cs_allocated str1)); [done|lia]|]. simpl. change (u8 0) with 0.
    apply wpp_ret, HQ; [exact H2|by eapply frame_trans; [exact F1|]|exact E2].
Qed.

Lemma cavan_string_clear_ok h str l depth (Q : cavan_string → heap → Prop) :
  carries h str l → (∀ str' h', carries h' str' [] → frame h str h' str' → zero_ended h' str' [] → Q str' h') →
  wpp (cavan_string_clear empty str depth) h Q.
Proof using Type.
  intros Hh HQ. pose proof Hh as [Hlen Hby Hwf Htext [Hpos Hown]]. unfold cavan_string_clear. pose proof (zlen_nonneg l).
  destruct (Z.ltb_spec 0 (cs_allocated str)) as [Ha|Ha].
  - destruct (Hown Ha) as (O1 & O2 & O3 & O4). destruct depth.
    + apply wpp_bind, (free_ok _ (cs_allocated str)); [done|done|]. intros h' Hb' Hm'. apply wpp_ret, HQ.
      * split; simpl; [done|done| |by intros i b|].
        -- intros a b. rewrite Hm'. case_decide; [done|apply Hwf].
        -- split; [lia|]. lia.
      * intros a b Hab Hno. unfold owned in *. simpl. split; [|lia]. rewrite Hm', decide_False by lia. done.
      * intros He. simpl in He. lia.
    + apply wpp_bind, wpp_on_mem, wpp_wr; [apply O4; lia|]. simpl. change (u8 0) with 0. apply wpp_ret, HQ.
      * split; simpl; [done|done|by apply (wf_insert _ _ 0)|by intros i b|]. split; [done|]. intros _. unfold owns. simpl.
        change (zlen []) with 0. split_and!; [done|done|lia|].
        intros a Hr. rewrite lookup_insert. case_decide; [by eexists|]. by apply O4.
      * intros a b Hab Hno. unfold owned in *. simpl. split; [|done]. by rewrite lookup_insert_ne by lia.
      * intros _. simpl. change (zlen []) with 0. by rewrite Z.add_0_r, lookup_insert_eq.
  - apply wpp_ret, HQ; [split; simpl; [done|done|done|by intros i b|split; [done|lia]]| |].
    { intros a b Hab Hno. unfold owned. simpl. split; [done|lia]. }
    intros He. simpl in He. lia.
Qed.
End laws.

(** ** Sequences of operations *)

(** An operation with the bytes of its argument. *)
Inductive cs_cmd :=
| Append (p : Z) (k : list Z)
| AppendLineUnix (p : Z) (k : list Z)
| AppendLineDos (p : Z) (k : list Z)
| Assign (p : Z) (k : list Z)
| Clear (depth : bool).
Definition cmd_arg (c : cs_cmd) : Z * list Z :=
  match c with Append p k | AppendLineUnix p k | AppendLineDos p k | Assign p k => (p, k) | Clear _ => (0, []) end.

(** What an operation may answer and leave: it does what its name says, or
    memory is short. *)
Definition cs_behaves (c : cs_cmd) (l : list Z) (r : Z) (l' : list Z) : Prop :=
  match c with
  | Append _ k => (r = zlen k ∧ l' = l ++ k) ∨ (r = - ENOMEM ∧ l' = l)
  | AppendLineUnix _ k => (r = 1 ∧ l' = l ++ k ++ [10]) ∨ (r = - ENOMEM ∧ (l' = l ∨ l' = l ++ k))
  | AppendLineDos _ k => (r = 2 ∧ l' = l ++ k ++ [13; 10]) ∨ (r = - ENOMEM ∧ (l' = l ∨ l' = l ++ k))
  | Assign _ k => (r = zlen k ∧ l' = k) ∨ (r = - ENOMEM ∧ l' = [])
  | Clear _ => r = 0 ∧ l' = []
  end.
Fixpoint cs_runs (cmds : list cs_cmd) (l : list Z) (rs : list Z) (l' : list Z) : Prop :=
  match cmds, rs with
  | [], [] => l' = l
  | c :: cmds, r :: rs => ∃ l1, cs_behaves c l r l1 ∧ cs_runs cmds l1 rs l'
  | _, _ => False
  end.
Fixpoint cmds_size (cmds : list cs_cmd) : Z :=
  match cmds with [] => 0 | c :: cmds => zlen (cmd_arg c).2 + 2 + cmds_size cmds end.
Lemma cmds_size_nonneg cmds : 0 ≤ cmds_size cmds.
Proof. induction cmds as [|c cmds IH]; cbn [cmds_size]; [lia|]. pose proof (zlen_nonneg (cmd_arg c).2). lia. Qed.

Section run.
Context (pick : heap → Z → option Z) (junk : Z → Z) (empty lf crlf : Z).
Definition cs_run1 (c : cs_cmd) (str : cavan_string) : prog heap (Z * cavan_string) :=
  match c with
  | Append p k => cavan_string_append pick junk str p (zlen k)
  | AppendLineUnix p k => cavan_string_append_line_unix pick junk lf str p (zlen k)
  | AppendLineDos p k => cavan_string_append_line_dos pick junk crlf str p (zlen k)
  | Assign p k => cavan_string_assign pick junk str p (zlen k)
  | Clear depth => str ← cavan_string_clear empty str depth; mret (0, str)
  end.
Fixpoint cs_run (cmds : list cs_cmd) (str : cavan_string) : prog heap (list Z * cavan_string) :=
  match cmds with
  | [] => mret ([], str)
  | c :: cmds => '(r, str) ← cs_run1 c str; '(rs, str) ← cs_run cmds str; mret (r :: rs, str)
  end.

Hypothesis Hpick : fresh_blocks pick.

Lemma append_line_ok h str l p k q e (Q : Z * cavan_string → heap → Prop) :
  carries h str l → foreign h str p k → foreign h str q e → zlen l + zlen k + zlen e < 2 ^ 30 →
  (∀ str' h' l', carries h' str' l' → frame h str h' str' → l' = l ∨ l' = l ++ k → Q (- ENOMEM, str') h') →
  (∀ str' h', carries h' str' (l ++ k ++ e) → frame h str h' str' → zero_ended h' str' (l ++ k ++ e) → Q (zlen e, str') h') →
  wpp ('(ret, str) ← cavan_string_append pick junk str p (zlen k);
       if ret <? 0 then mret (ret, str) else cavan_string_append pick junk str q (zlen e)) h Q.
Proof using Hpick.
  intros Hh Hk He Hn HQ0 HQ. pose proof (zlen_nonneg k). pose proof (zlen_nonneg e).
  apply wpp_bind, (cavan_string_append_ok pick junk Hpick h str l); [done|done|lia| |].
  - cbn. apply wpp_ret. apply (HQ0 str h l); [done|apply frame_refl|by left].
  - intros str1 h1 H1 F1 E1. rewrite (proj2 (Z.ltb_ge (zlen k) 0)) by lia.
    apply (cavan_string_append_ok pick junk Hpick h1 str1 (l ++ k)); [done|by eapply frame_foreign|rewrite zlen_app; lia| |].
    + apply (HQ0 str1 h1 (l ++ k)); [done|done|by right].
    + intros str2 h2 H2 F2 E2. rewrite <-app_assoc in *. apply HQ; [done|by eapply frame_trans|done].
Qed.

Lemma carries_cut h str l : carries h str l → carries h (mk_string (cs_text str) 0 (cs_allocated str)) [].
Proof using Type.
  intros [Hlen Hby Hwf Htext [Hpos Hown]]. split; simpl; [done|done|done|by intros i b|]. split; [done|]. intros Ha.
  destruct (Hown Ha) as (O1 & O2 & O3 & O4). unfold owns. simpl. change (zlen []) with 0. done.
Qed.

Lemma cs_run1_ok c h str l (Q : Z * cavan_string → heap → Prop) :
  carries h str l → foreign h str (cmd_arg c).1 (cmd_arg c).2 → foreign h str lf [10] → foreign h str crlf [13; 10] →
  zlen l + zlen (cmd_arg c).2 + 2 < 2 ^ 30 →
  (∀ r str' h' l', cs_behaves c l r l' → carries h' str' l' → frame h str h' str' →
     zlen l' ≤ zlen l + zlen (cmd_arg c).2 + 2 → (0 ≤ r → zero_ended h' str' l') → Q (r, str') h') →
  wpp (cs_run1 c str) h Q.
Proof using Hpick.
  intros Hh Ha H1 H2 Hn HQ. pose proof (zlen_nonneg l).
  destruct c as [p k|p k|p k|p k|depth]; cbn [cs_run1 cmd_arg fst snd] in *.
  - pose proof (zlen_nonneg k). apply (cavan_string_append_ok pick junk Hpick h str l); [done|done|lia| |].
    + apply (HQ _ _ _ l); [by right|done|apply frame_refl|lia|done].
    + intros str' h' H' F E. apply (HQ _ _ _ (l ++ k)); [by left|done|done|rewrite zlen_app; lia|done].
  - pose proof (zlen_nonneg k). apply (append_line_ok h str l p k lf [10]); [done|done|done|change (zlen [10]) with 1; lia| |].
    + intros str' h' l' H' F E. apply (HQ _ _ _ l'); [by right|done|done|destruct E as [->| ->]; rewrite ?zlen_app; lia|done].
    + intros str' h' H' F E. apply (HQ _ _ _ (l ++ k ++ [10])); [by left|done|done|rewrite !zlen_app; change (zlen [10]) with 1; lia|done].
  - pose proof (zlen_nonneg k). apply (append_line_ok h str l p k crlf [13; 10]); [done|done|done|change (zlen [13; 10]) with 2; lia| |].
    + intros str' h' l' H' F E. apply (HQ _ _ _ l'); [by right|done|done|destruct E as [->| ->]; rewrite ?zlen_app; lia|done].
    + intros str' h' H' F E. apply (HQ _ _ _ (l ++ k ++ [13; 10])); [by left|done|done|rewrite !zlen_app; change (zlen [13; 10]) with 2; lia|done].
  - pose proof (zlen_nonneg k). pose proof (carries_cut h str l Hh) as Hcut.
    apply (cavan_string_append_ok pick junk Hpick h _ []); [done|done|change (zlen []) with 0; lia| |].
    + apply (HQ _ _ _ []); [by right|done|done|change (zlen []) with 0; lia|done].
    + intros str' h' H' F E. apply (HQ _ _ _ k); [by left|done|done|lia|done].
  - apply wpp_bind, (cavan_string_clear_ok empty h str l); [done|]. intros str' h' H' F E. apply wpp_ret.
    apply (HQ _ _ _ []); [done|done|done|change (zlen []) with 0; lia|done].
Qed.

(** C20: A growing string behaves as the text it stands for, whatever [malloc]
    answers.  A sequence of appends, of lines with their ends, of assignments and
    clearings, with arguments outside the string's block and less than 2^30 bytes
    in all with the text there was, always returns; every
    operation either answers what was asked of it and leaves the text its name
    promises, or reports that memory is short and leaves the text it found (or
    what it had written of it); memory outside the string is not touched, and when
    no operation failed the text is ended by a zero. *)
Theorem cavan_string_is_a_text cmds h str l :
  carries h str l → Forall (λ c, foreign h str (cmd_arg c).1 (cmd_arg c).2) cmds →
  foreign h str lf [10] → foreign h str crlf [13; 10] → zlen l + cmds_size cmds < 2 ^ 30 →
  ∃ rs str' h' l', cs_run cmds str h = Ok ((rs, str'), h') ∧ cs_runs cmds l rs l' ∧ carries h' str' l' ∧
    frame h str h' str' ∧ (zero_ended h str l → Forall (λ r, 0 ≤ r) rs → zero_ended h' str' l').
Proof using Hpick.
  revert h str l. induction cmds as [|c cmds IH]; intros h str l Hh Ha H1 H2 Hn.
  { exists [], str, h, l. split_and!; [done|done|done|apply frame_refl|done]. }
  apply Forall_cons in Ha as [Hc Ha]. cbn [cmds_size] in Hn. pose proof (cmds_size_nonneg cmds). pose proof (zlen_nonneg (cmd_arg c).2).
  destruct (proj1 (wpp_ok (cs_run1 c str) h (λ x h1, ∃ l1, cs_behaves c l x.1 l1 ∧ carries h1 x.2 l1 ∧ frame h str h1 x.2 ∧
    zlen l1 ≤ zlen l + zlen (cmd_arg c).2 + 2 ∧ (0 ≤ x.1 → zero_ended h1 x.2 l1)))) as ([r str1] & h1 & E1 & l1 & B1 & L1 & F1 & N1 & D1).
  { apply (cs_run1_ok c h str l); [done|done|done|done|lia|]. intros r str' h' l' ?????. by exists l'. }
  cbn [fst snd] in *. destruct (IH h1 str1 l1) as (rs & str2 & h2 & l2 & E2 & B2 & L2 & F2 & D2);
    [done| |by eapply frame_foreign|by eapply frame_foreign|lia|].
  { eapply Forall_impl; [exact Ha|]. intros c' Hc'. by eapply frame_foreign. }
  exists (r :: rs), str2, h2, l2. split_and!; [|by exists l1|done|by eapply frame_trans|].
  - cbn [cs_run]. unfold mbind, prog_bind in *. rewrite E1. cbn beta iota. by rewrite E2.
  - intros _ [Hr Hrs]%Forall_cons. by apply D2; [apply D1|].
Qed.
End run.

(** Blocks behind everything there is, while the heap is small. *)
Definition next_block (h : heap) (n : Z) : option Z :=
  let p := 1 + map_fold (λ a _ m, Z.max a m) 0 (h_mem h) + map_fold (λ a _ m, Z.max a m) 0 (h_blocks h) in
  if p <? 1000 then Some p else None.
Lemma max_key {A} (m : gmap Z A) : 0 ≤ map_fold (λ a _ k, Z.max a k) 0 m ∧ ∀ a b, m !! a = Some b → a ≤ map_fold (λ a _ k, Z.max a k) 0 m.
Proof.
  apply (map_fold_weak_ind (λ r (m : gmap Z A), 0 ≤ r ∧ ∀ a b, m !! a = Some b → a ≤ r)); [split; [done|]; intros a b H; by rewrite lookup_empty in H|].
  intros i x m' r Hi [H0 Hr]. split; [lia|]. intros a b. rewrite lookup_insert. case_decide; [lia|]. intros Ha%Hr. lia.
Qed.
Lemma next_block_fresh : fresh_blocks next_block.
Proof.
  intros h n p. unfold next_block. destruct (max_key (h_mem h)) as [A1 A2], (max_key (h_blocks h)) as [B1 B2]. cbv zeta.
  case_match; [|done]. intros [= <-]. split_and!; [lia| |].
  - apply eq_None_not_Some. intros [b Hb%B2]. lia.
  - intros a Ha. apply eq_None_not_Some. intros [b Hb%A2]. lia.
Qed.

(** An empty string that owns nothing; "hi" at 10, "\n" at 20, "\r\n" at 30. *)
Lemma cavan_string_is_a_text_witness :
  let h := mk_heap (written (two_texts 10 [104; 105] 20 [10]) 30 [13; 10; 0]) ∅ in
  let str := mk_string 40 0 0 in
  ∃ rs str' h' l', cs_run next_block (λ _, 0) 40 20 30 [Append 10 [104; 105]; AppendLineUnix 10 [104; 105]] str h = Ok ((rs, str'), h') ∧
    cs_runs [Append 10 [104; 105]; AppendLineUnix 10 [104; 105]] [] rs l' ∧ carries h' str' l' ∧
    frame h str h' str' ∧ (zero_ended h str [] → Forall (λ r, 0 ≤ r) rs → zero_ended h' str' l').
Proof.
  intros h str. destruct (two_texts_ok 10 [104; 105] 20 [10]) as [H1 H2]; [on_texts..|].
  assert (∀ p k, cstring (h_mem h) p k → foreign h str p k) as Hf.
  { intros p k Hc. split_and!; [by apply (proj1 (chars_app _ _ k [0]) (proj1 Hc))|apply is_char_byte, Hc|]. intros a _ [Ha _]. simpl in Ha. lia. }
  assert (foreign h str 10 [104; 105]) as F1 by (apply Hf, written_cstring; [on_texts|exact H1]).
  assert (foreign h str 20 [10]) as F2 by (apply Hf, written_cstring; [on_texts|exact H2]).
  assert (foreign h str 30 [13; 10]) as F3 by (apply Hf, (written_cstring_here _ 30 [13; 10]); on_texts).
  apply (cavan_string_is_a_text next_block (λ _, 0) 40 20 30 next_block_fresh); [|by apply Forall_cons; split; [|apply Forall_cons]|done|done|by vm_compute].
  split; [done|done| |by intros i b|split; [done|simpl; lia]].
  do 3 (apply written_wf; [|repeat constructor; cbn; lia]). apply wf_empty.
Defined.

(** ** Where the code does something else *)

(** [malloc] fails in [cavan_string_alloc]: [allocated] still says 32 bytes, and
    the next append writes through NULL. *)
Example failed_alloc_keeps_the_size :
  let h := mk_heap (written (place ∅ 50 32 (λ _, 0)) 10 [104; 0]) {[ 50 := 32 ]} in
  match cavan_string_alloc (λ _ _, None) (λ _, 0) (mk_string 50 0 32) 40 false h with
  | Ok ((r, str), h) => r = - ENOMEM ∧ str = mk_string 0 0 32 ∧ cavan_string_append next_block (λ _, 0) str 10 1 h = Undef
  | _ => False
  end.
Proof. vm_compute. split_and!; reflexivity. Qed.

(** A string appended to itself: the block is freed before it is copied. *)
Example append_to_itself :
  let l := repeat 97 20 in
  let h := mk_heap (place (written ∅ 10 l) 50 32 (λ a, if a <? 70 then 97 else 0)) {[ 50 := 32 ]} in
  cavan_string_append next_block (λ _, 0) (mk_string 50 20 32) 50 20 h = Undef.
Proof. by vm_compute. Qed.

(** ** Trimming and prefixes *)

Lemma skip_within_fuel f s l : ∀ n p (Q : Z → mem → Prop),
  chars s p l → (length l < n)%nat →
  (∀ pre rest, l = pre ++ rest → Forall (λ b, f b = true) pre → (∀ b, head rest = Some b → f b = false) → Q (p + zlen pre) s) →
  wpp (ploop n (λ text, if text <? p + zlen l then c ← rd text; mret (if f c then inl (text + 1) else inr text)
    else mret (inr text)) p) s Q.
Proof.
  induction l as [|b l IH]; intros [|n] p Q Hc Hn HQ; try (simpl in Hn; lia); apply ploop_step.
  - change (zlen []) with 0. rewrite (proj2 (Z.ltb_ge p (p + 0))) by lia. apply wpp_ret. specialize (HQ [] [] eq_refl). rewrite Z.add_0_r in HQ. by apply HQ.
  - apply chars_cons in Hc as [H0 Hc]. pose proof (zlen_nonneg l). rewrite zlen_cons. rewrite (proj2 (Z.ltb_lt p _)) by lia. rd_char H0.
    apply wpp_ret. destruct (f b) eqn:E.
    + replace (p + (zlen l + 1)) with (p + 1 + zlen l) by lia. apply IH; [done|simpl in Hn; lia|].
      intros pre rest -> Hp Hr. replace (p + 1 + zlen pre) with (p + zlen (b :: pre)) by (rewrite zlen_cons; lia).
      apply (HQ (b :: pre) rest); [done|by apply Forall_cons|done].
    + specialize (HQ [] (b :: l) eq_refl). change (zlen []) with 0 in HQ. rewrite Z.add_0_r in HQ. apply HQ; [done|]. by intros ? [= <-].
Qed.
Lemma skip_within_ok f s p e l (Q : Z → mem → Prop) :
  chars s p l → e = p + zlen l →
  (∀ pre rest, l = pre ++ rest → Forall (λ b, f b = true) pre → (∀ b, head rest = Some b → f b = false) → Q (p + zlen pre) s) →
  wpp (skip_within f p e) s Q.
Proof. intros Hc -> HQ. apply (skip_within_fuel f s l); [done|unfold bytes_fuel, zlen; lia|done]. Qed.

Lemma trim_tail_fuel s text l : ∀ n (Q : Z → mem → Prop),
  chars s text l → (length l < n)%nat →
  (∀ rest post, l = rest ++ post → Forall (λ b, cavan_isspace_lf b = true) post → (∀ b, last rest = Some b → cavan_isspace_lf b = false) →
    Q (text + zlen rest) s) →
  wpp (ploop n (λ text_end,
    if text <? text_end then
      c ← rd (text_end - 1); mret (if negb (cavan_isspace_lf c) then inr text_end else inl (text_end - 1))
    else mret (inr text_end)) (text + zlen l)) s Q.
Proof.
  induction l as [|b l IH] using rev_ind; intros [|n] Q Hc Hn HQ; try (rewrite ?length_app in Hn; simpl in Hn; lia); apply ploop_step.
  - change (zlen []) with 0 in *. rewrite Z.add_0_r. rewrite (proj2 (Z.ltb_ge text text)) by lia. apply wpp_ret.
    specialize (HQ [] [] eq_refl). change (zlen []) with 0 in HQ. rewrite Z.add_0_r in HQ. by apply HQ.
  - apply chars_app in Hc as [Hc H0%chars_single]. pose proof (zlen_nonneg l). rewrite zlen_app in *. change (zlen [b]) with 1.
    rewrite (proj2 (Z.ltb_lt text _)) by lia. rewrite Z.add_assoc, Z.add_simpl_r. rd_char H0. apply wpp_ret. destruct (cavan_isspace_lf b) eqn:E; cbn [negb].
    + apply IH; [done|rewrite length_app in Hn; simpl in Hn; lia|]. intros rest post -> Hp Hr. apply (HQ rest (post ++ [b])); [by rewrite <-app_assoc|apply Forall_app; split; [done|by apply Forall_cons]|done].
    + replace (text + zlen l + 1) with (text + zlen (l ++ [b])) by (rewrite zlen_app; change (zlen [b]) with 1; lia).
      apply (HQ (l ++ [b]) []); [by rewrite app_nil_r|done|]. intros c. rewrite last_snoc. by intros [= <-].
Qed.

(** Trimming.  [cavan_string_trim] answers where the text without the white
    space at its ends is and how long it is: what it leaves out is all white
    space, what it answers is empty or starts and ends with something else.
    [cavan_string_trim_start] and [cavan_string_trim_end] do so at one end. *)
Theorem cavan_string_trim_trims s text l :
  chars s text l →
  let space b := cavan_isspace_lf b = true in
  (∃ pre mid post, l = pre ++ mid ++ post ∧ Forall space pre ∧ Forall space post ∧
     (∀ b, head mid = Some b → ¬ space b) ∧ (∀ b, last mid = Some b → ¬ space b) ∧
     cavan_string_trim text (zlen l) s = Ok ((text + zlen pre, zlen mid), s) ∧ chars s (text + zlen pre) mid) ∧
  (∃ pre rest, l = pre ++ rest ∧ Forall space pre ∧ (∀ b, head rest = Some b → ¬ space b) ∧
     cavan_string_trim_start text (zlen l) s = Ok (text + zlen pre, s)) ∧
  (∃ rest post, l = rest ++ post ∧ Forall space post ∧ (∀ b, last rest = Some b → ¬ space b) ∧
     cavan_string_trim_end text (zlen l) s = Ok (zlen rest, s)).
Proof.
  intros Hc space. split_and!.
  - destruct (proj1 (wpp_ok (cavan_string_trim text (zlen l)) s (λ r s', s' = s ∧ ∃ pre mid post, l = pre ++ mid ++ post ∧ Forall space pre ∧ Forall space post ∧
     (∀ b, head mid = Some b → ¬ space b) ∧ (∀ b, last mid = Some b → ¬ space b) ∧ r = (text + zlen pre, zlen mid)))) as (r & s' & E & -> & pre & mid & post & -> & H1 & H2 & H3 & H4 & ->).
    + apply wpp_bind, (skip_within_ok _ s text _ l); [done|done|]. intros pre rest -> Hp Hh. apply wpp_bind.
      apply chars_app in Hc as [_ Hr]. replace (text + zlen (pre ++ rest)) with (text + zlen pre + zlen rest) by (rewrite zlen_app; lia).
      apply (trim_tail_fuel s _ rest); [done|unfold bytes_fuel, zlen; lia|]. intros mid post -> Hpost Hl. apply wpp_ret. split; [done|].
      exists pre, mid, post. unfold space. split_and!; [done|done|done| |intros b Hb; by rewrite Hl|f_equal; lia].
      intros b Hb. rewrite Hh; [done|]. by destruct mid.
    + exists pre, mid, post. apply chars_app in Hc as [_ [Hm _]%chars_app]. split_and!; done.
  - destruct (proj1 (wpp_ok (cavan_string_trim_start text (zlen l)) s (λ r s', s' = s ∧ ∃ pre rest, l = pre ++ rest ∧ Forall space pre ∧
      (∀ b, head rest = Some b → ¬ space b) ∧ r = text + zlen pre))) as (r & s' & E & -> & pre & rest & H1 & H2 & H3 & ->).
    + apply (skip_within_ok _ s text _ l); [done|done|]. intros pre rest -> Hp Hh. split; [done|]. exists pre, rest. unfold space.
      split_and!; [done|done| |done]. intros b Hb. by rewrite Hh.
    + by exists pre, rest.
  - destruct (proj1 (wpp_ok (cavan_string_trim_end text (zlen l)) s (λ r s', s' = s ∧ ∃ rest post, l = rest ++ post ∧ Forall space post ∧
      (∀ b, last rest = Some b → ¬ space b) ∧ r = zlen rest))) as (r & s' & E & -> & rest & post & H1 & H2 & H3 & ->).
    + apply wpp_bind, (trim_tail_fuel s text l); [done|unfold bytes_fuel, zlen; lia|]. intros rest post -> Hp Hh. apply wpp_ret. split; [done|].
      exists rest, post. unfold space. split_and!; [done|done| |lia]. intros b Hb. by rewrite Hh.
    + by exists rest, post.
Qed.

(** " a " at 10. *)
Lemma cavan_string_trim_trims_witness :
  let s := written ∅ 10 [32; 97; 32] in chars s 10 [32; 97; 32] ∧
  ∃ pre rest, [32; 97; 32] = pre ++ rest ∧ Forall (λ b, cavan_isspace_lf b = true) pre ∧
    (∀ b, head rest = Some b → ¬ cavan_isspace_lf b = true) ∧ cavan_string_trim_start 10 3 s = Ok (10 + zlen pre, s).
Proof.
  intros s. assert (chars s 10 [32; 97; 32]) as H by apply written_chars. split; [exact H|].
  apply (cavan_string_trim_trims s 10 [32; 97; 32] H).
Defined.
