(* ===== verification/Calculator.v ===== *)
(** Calculator: the evaluation of formulas in src/lib/calculator.c.

    A [double] is what the class [DoubleOps] says; its instance [binary64] is
    the arithmetic of IEEE 754.  The operand and operator stacks are those of
    Stack.v; what [malloc] answers for their buffers is a parameter.  The
    messages the code prints are left out. *)
From Stdlib Require Import SpecFloat.
From S2P Require Import Prelude Memory Bignum MemOps TextNum Ctype Text Stack.


(** ** Floating-point numbers *)

Class DoubleOps (F : Type) := {
  d_int : Z → F;
  d_add : F → F → F;
  d_sub : F → F → F;
  d_mul : F → F → F;
  d_div : F → F → F;
  d_opp : F → F;
}.
(** The next digit of a number that is still 0. *)
Class DoubleLaws (F : Type) `{DoubleOps F} := {
  d_zero_digit base : 2 ≤ base ≤ 36 → d_add (d_mul (d_int 0) (d_int base)) (d_int 0) = d_int 0;
}.

(** [text_end = 0]: the text ends at its terminator.  The result comes with
    [*last]. *)
Definition text2double_unsigned {F} `{DoubleOps F} (text text_end base : Z) : prog mem (F * Z) :=
  text_end ← (if text_end =? 0 then n ← text_len text; mret (text + n) else mret text_end);
  if text_end <=? text then mret (d_int 0, text)
  else
    '(value, text) ← prefix2base text text_end base;
    let base := if 1 <? value then value else base in
    '(result, text, more) ← ploop (bytes_fuel (text_end - text)) (λ '(result, text),
      if text <? text_end then
        c ← rd text;
        if c =? 46 then mret (inr (result, text + 1, true))
        else
          let value := char2value c in
          mret (if (value <? 0) || (base <=? value) then inr (result, text, false)
                else inl (d_add (d_mul result (d_int base)) (d_int value), text + 1))
      else mret (inr (result, text, true))) (d_int 0, text);
    if negb more then mret (result, text)
    else
      ploop (bytes_fuel (text_end - text)) (λ '(result, weight, text),
        if text <? text_end then
          c ← rd text;
          let value := char2value c in
          mret (if (value <? 0) || (base <=? value) then inr (result, text)
                else inl (d_add result (d_mul (d_int value) weight), d_div weight (d_int base), text + 1))
        else mret (inr (result, text))) (result, d_div (d_int 1) (d_int base), text).
(** The digits after the sign are not what is read: the sign still is there. *)
Definition text2double {F} `{DoubleOps F} (text text_end base : Z) : prog mem (F * Z) :=
  if text =? 0 then mret (d_int 0, 0)
  else
    c ← rd text;
    '(v, last) ← text2double_unsigned text text_end base;
    mret (if c =? 45 then d_opp v else v, last).

(** ** Brackets *)

Definition right_bracket (c : Z) : option Z :=
  if c =? 40 then Some 41 else if c =? 91 then Some 93 else if c =? 123 then Some 125 else None.
(** NULL when there is none. *)
Definition get_bracket_pair (formula formula_end : Z) : prog mem Z :=
  left_bracket ← rd formula;
  match right_bracket left_bracket with
  | None => mret 0
  | Some right_bracket =>
    ploop (bytes_fuel (formula_end - formula)) (λ '(formula, counter),
      if formula <? formula_end then
        c ← rd formula;
        mret (if c =? left_bracket then inl (formula + 1, counter + 1)
              else if c =? right_bracket then
                if counter <=? 1 then inr formula else inl (formula + 1, counter - 1)
              else inl (formula + 1, counter))
      else mret (inr 0)) (formula + 1, 1)
  end.

Section stacks.
(** What [malloc] answers for a buffer of so many elements. *)
Context {F : Type} `{Inhabited F} `{DoubleOps F}.
Context (letters : Z → option (list Z)) (doubles : Z → option (list F)).

(** The bracket a closing one has to match. *)
Definition left_bracket (c : Z) : option Z :=
  if c =? 41 then Some 40 else if c =? 93 then Some 91 else if c =? 125 then Some 123 else None.
Definition check_bracket_match_pair (formula formula_end : Z) : prog mem Z :=
  let '(ret, stack) := letter_stack_init (letters 10) (mk_typed_stack [] 0 0) 10 in
  if ret <? 0 then mret ret
  else
    '(ret, stack) ← ploop (bytes_fuel (formula_end - formula)) (λ '(formula, stack),
      if formula <? formula_end then
        c ← rd formula;
        match right_bracket c, left_bracket c with
        | Some _, _ =>
          '(ret, stack) ← lift (letter_stack_push stack c);
          mret (if ret <? 0 then inr (ret, stack) else inl (formula + 1, stack))
        | _, Some opening =>
          '(ret, tmp, stack) ← lift (letter_stack_pop stack);
          mret (if (ret <? 0) || negb (bool_decide (tmp = Some opening)) then inr (- EFAULT, stack) else inl (formula + 1, stack))
        | None, None => mret (inl (formula + 1, stack))
        end
      else mret (inr (0, stack))) (formula, stack);
    mret (if ret <? 0 then ret else if letter_stack_is_empty stack then 0 else - EFAULT).

(** ** Evaluation *)

Definition get_operator_priority (op : Z) : Z :=
  if (op =? 43) || (op =? 45) then 0 else if (op =? 42) || (op =? 47) || (op =? 37) then 1 else 0.

Definition simple_operation2 (stack : typed_stack F) (op : Z) : cres (Z * typed_stack F) :=
  '(ret, operand2, stack) ← typed_stack_pop stack;
  match operand2 with
  | None => mret (ret, stack)
  | Some operand2 =>
    '(ret, operand1, stack) ← typed_stack_pop stack;
    match operand1 with
    | None => mret (ret, stack)
    | Some operand1 =>
      if op =? 43 then typed_stack_push stack (d_add operand1 operand2)
      else if op =? 45 then typed_stack_push stack (d_sub operand1 operand2)
      else if op =? 42 then typed_stack_push stack (d_mul operand1 operand2)
      else if op =? 47 then typed_stack_push stack (d_div operand1 operand2)
      else mret (- EINVAL, stack)
    end
  end.

(** [while (get_top >= 0 && priority(top) >= priority) { operation; pop; }] *)
Definition reduce_above (priority : Z) (ops : typed_stack Z) (data : typed_stack F) : cres (Z * typed_stack Z * typed_stack F) :=
  loop (S (Z.to_nat (ts_top ops))) (λ '(ops, data),
    '(ret, top) ← letter_stack_get_top ops;
    match top with
    | Some op =>
      if priority <=? get_operator_priority op then
        '(ret, data) ← simple_operation2 data op;
        if ret <? 0 then mret (inr (ret, ops, data))
        else '(_, _, ops) ← letter_stack_pop ops; mret (inl (ops, data))
      else mret (inr (0, ops, data))
    | None => mret (inr (0, ops, data))
    end) (ops, data).
(** [while (pop >= 0) operation;] *)
Definition reduce_all (ops : typed_stack Z) (data : typed_stack F) : cres (Z * typed_stack F) :=
  loop (S (Z.to_nat (ts_top ops))) (λ '(ops, data),
    '(ret, top, ops) ← letter_stack_pop ops;
    match top with
    | Some op =>
      '(ret, data) ← simple_operation2 data op;
      if ret <? 0 then mret (inr (ret, data)) else mret (inl (ops, data))
    | None => mret (inr (0, data))
    end) (ops, data).
(** After the last character. *)
Definition finish (ops : typed_stack Z) (data : typed_stack F) : cres (Z * option F) :=
  '(ret, data) ← reduce_all ops data;
  if ret <? 0 then mret (ret, None)
  else
    '(ret, result, data) ← typed_stack_pop data;
    match result with
    | None => mret (ret, None)
    | Some _ => mret (if typed_stack_is_empty data then 0 else - EFAULT, result)
    end.

(** One round of the loop: the next state, the code of an error, or [inr 0] at
    a zero character.  [rec] evaluates what a bracket holds. *)
Definition calc_round (rec : Z → Z → prog mem (Z * option F)) (formula_end : Z) (x : Z * typed_stack Z * typed_stack F) :
    prog mem ((Z * typed_stack Z * typed_stack F) + Z * typed_stack Z * typed_stack F) :=
  let '(formula, ops, data) := x in
  if formula <? formula_end then
    c ← rd formula;
    if (c =? 40) || (c =? 91) || (c =? 123) then
      formula_last ← get_bracket_pair formula formula_end;
      if formula_last =? 0 then mret (inr (- EINVAL, ops, data))
      else
        '(ret, result) ← rec (formula + 1) formula_last;
        if ret <? 0 then mret (inr (ret, ops, data))
        else
          match result with
          | None => undefined
          | Some result =>
            '(ret, data) ← lift (typed_stack_push data result);
            mret (if ret <? 0 then inr (ret, ops, data) else inl (formula_last + 1, ops, data))
          end
    else if between 48 57 c then
      '(result, formula) ← text2double_unsigned formula formula_end 10;
      '(ret, data) ← lift (typed_stack_push data result);
      mret (if ret <? 0 then inr (ret, ops, data) else inl (formula, ops, data))
    else if (c =? 43) || (c =? 45) || (c =? 42) || (c =? 47) || (c =? 37) then
      '(ret, ops, data) ← lift (reduce_above (get_operator_priority c) ops data);
      if ret <? 0 then mret (inr (ret, ops, data))
      else
        '(ret, ops) ← lift (letter_stack_push ops c);
        mret (if ret <? 0 then inr (ret, ops, data) else inl (formula + 1, ops, data))
    else if (c =? 32) || (c =? 9) || (c =? 13) || (c =? 10) then mret (inl (formula + 1, ops, data))
    else if c =? 0 then mret (inr (0, ops, data))
    else mret (inr (- EINVAL, ops, data))
  else mret (inr (0, ops, data)).

(** [fuel]: how deep brackets may be nested. *)
Fixpoint simple_calculation_base (fuel : nat) (formula formula_end : Z) : prog mem (Z * option F) :=
  match fuel with
  | O => λ _, NoFuel
  | S fuel =>
    let '(ret, ops) := letter_stack_init (letters 100) (mk_typed_stack [] 0 0) 100 in
    if ret <? 0 then mret (ret, None)
    else
      let '(ret, data) := typed_stack_init (doubles 100) (mk_typed_stack [] 0 0) 100 in
      if ret <? 0 then mret (ret, None)
      else
        c ← rd formula;
        '(ret, data) ← (if (c =? 43) || (c =? 45) then lift (typed_stack_push data (d_int 0)) else mret (0, data));
        if ret <? 0 then mret (ret, None)
        else
          '(ret, ops, data) ← ploop (bytes_fuel (formula_end - formula))
            (calc_round (simple_calculation_base fuel) formula_end) (formula, ops, data);
          if ret <? 0 then mret (ret, None) else lift (finish ops data)
  end.

Definition simple_calculation (formula : Z) : prog mem (Z * option F) :=
  n ← text_len formula;
  let formula_end := formula + n in
  ret ← check_bracket_match_pair formula formula_end;
  if ret <? 0 then mret (ret, None)
  else
    '(ret, result) ← simple_calculation_base (bytes_fuel n) formula formula_end;
    if ret <? 0 then mret (ret, None) else mret (0, result).
End stacks.

(** IEEE 754 binary64, rounding to nearest. *)
#[export] Instance binary64 : DoubleOps spec_float := {
  d_int z := binary_normalize 53 1024 z 0 false;
  d_add := SFadd 53 1024;
  d_sub := SFsub 53 1024;
  d_mul := SFmul 53 1024;
  d_div := SFdiv 53 1024;
  d_opp := SFopp;
}.
#[export] Instance spec_float_inhabited : Inhabited spec_float := populate S754_nan.
#[export] Instance binary64_laws : DoubleLaws spec_float.
Proof.
  split. intros base Hb. pose proof (check_below_ok 37 (λ b, match d_add (d_mul (d_int 0) (d_int b)) (d_int 0), (d_int 0 : spec_float) with
    | S754_zero a, S754_zero b => eqb a b | _, _ => false end) base) as H. cbv beta in H.
  specialize (H ltac:(vm_compute; reflexivity) ltac:(lia)).
  destruct (d_add _ _); try done. change (d_int 0) with (S754_zero false) in *. f_equal. by apply eqb_prop.
Qed.

(** ** Formulas *)

(** A formula with the blanks behind its numbers, closing brackets and
    operators.  [Zero] is the operand that is missing before a sign. *)
Inductive exp :=
| Number (ds : list Z) (fr : option (list Z)) (bl : list Z)
| Group (b : Z) (e : exp) (bl : list Z)
| Zero
| Bin (op : Z) (bl : list Z) (l r : exp).

Definition closing (b : Z) : Z := default 0 (right_bracket b).
Definition number_text (ds : list Z) (fr : option (list Z)) : list Z :=
  ds ++ match fr with Some fs => 46 :: fs | None => [] end.
Fixpoint render (e : exp) : list Z :=
  match e with
  | Number ds fr bl => number_text ds fr ++ bl
  | Group b e bl => b :: render e ++ closing b :: bl
  | Zero => []
  | Bin op bl l r => render l ++ op :: bl ++ render r
  end.

Definition is_digit (c : Z) : Prop := 48 ≤ c ≤ 57.
Definition is_blank (c : Z) : Prop := c = 32 ∨ c = 9 ∨ c = 13 ∨ c = 10.
Definition is_sign (c : Z) : Prop := c = 43 ∨ c = 45.
Definition is_op (c : Z) : Prop := is_sign c ∨ c = 42 ∨ c = 47.
(** How tightly a formula binds. *)
Definition level (e : exp) : Z := match e with Bin op _ _ _ => get_operator_priority op | _ => 2 end.
(** A formula the grammar of arithmetic builds: the operands of an operator bind
    as tightly as it does on the left, tighter on the right.  [first]: it stands
    at the start of a formula or bracket, where a sign may lack its operand. *)
Fixpoint formula_ok (first : bool) (e : exp) : Prop :=
  match e with
  | Number ds fr bl => ds ≠ [] ∧ Forall is_digit ds ∧ Forall is_digit (default [] fr) ∧ Forall is_blank bl
  | Group b e bl => right_bracket b ≠ None ∧ formula_ok true e ∧ Forall is_blank bl
  | Zero => False
  | Bin op bl l r => is_op op ∧ Forall is_blank bl ∧
      match l with Zero => first = true ∧ is_sign op | _ => formula_ok first l end ∧ formula_ok false r ∧
      get_operator_priority op ≤ level l ∧ get_operator_priority op < level r
  end.
(** Does it start with a sign that lacks its operand? *)
Fixpoint signed (e : exp) : bool :=
  match e with Bin _ _ Zero _ => true | Bin _ _ l _ => signed l | _ => false end.
Fixpoint depth (e : exp) : nat :=
  match e with Number _ _ _ | Zero => 0 | Group _ e _ => S (depth e) | Bin _ _ l r => Nat.max (depth l) (depth r) end.
(** The rounds of the evaluation. *)
Fixpoint rounds (e : exp) : nat :=
  match e with
  | Number _ _ bl | Group _ _ bl => S (length bl)
  | Zero => 0
  | Bin _ bl l r => rounds l + S (length bl + rounds r)
  end.

Section eval.
Context {F : Type} `{DoubleOps F}.
Definition int_value (ds : list Z) : F := fold_left (λ r c, d_add (d_mul r (d_int 10)) (d_int (c - 48))) ds (d_int 0).
Fixpoint frac_value (r w : F) (fs : list Z) : F :=
  match fs with [] => r | c :: fs => frac_value (d_add r (d_mul (d_int (c - 48)) w)) (d_div w (d_int 10)) fs end.
Definition number_value (ds : list Z) (fr : option (list Z)) : F :=
  match fr with None => int_value ds | Some fs => frac_value (int_value ds) (d_div (d_int 1) (d_int 10)) fs end.
Definition apply_op (op : Z) (a b : F) : F :=
  if op =? 43 then d_add a b else if op =? 45 then d_sub a b else if op =? 42 then d_mul a b else d_div a b.
Fixpoint eval (e : exp) : F :=
  match e with
  | Number ds fr _ => number_value ds fr
  | Group _ e _ => eval e
  | Zero => d_int 0
  | Bin op _ l r => apply_op op (eval l) (eval r)
  end.
End eval.

(** *** Numbers *)

(** A character that ends a number. *)
Definition stops (c : Z) : Prop := char2value c < 0 ∧ c ≠ 46.
(** The end of a number: the end of the formula or such a character. *)
Definition follow (s : mem) (p formula_end : Z) : Prop :=
  p = formula_end ∨ (p < formula_end ∧ ∃ c, s !! p = Some c ∧ stops c).

Lemma char2value_digit c : is_digit c → char2value c = c - 48.
Proof. intros Hc. unfold is_digit in Hc. unfold char2value. rewrite !(proj2 (Z.leb_le _ _)) by lia. done. Qed.
Lemma digit_test c : is_digit c → (char2value c <? 0) || (10 <=? char2value c) = false.
Proof. intros Hc. rewrite char2value_digit by done. unfold is_digit in Hc. rewrite (proj2 (Z.ltb_ge _ _)), (proj2 (Z.leb_gt _ _)) by lia. done. Qed.
Lemma stop_test c : stops c → (char2value c <? 0) || (10 <=? char2value c) = true ∧ (c =? 46) = false.
Proof. intros [Hc Hd]. rewrite (proj2 (Z.ltb_lt _ _)), (proj2 (Z.eqb_neq _ _)) by done. done. Qed.

Section numbers.
Context {F : Type} `{HD : DoubleOps F} `{!DoubleLaws F}.
Context (s : mem) (fe : Z).

Lemma frac_loop_ok fs : ∀ n p r w (Q : F * Z → mem → Prop),
  Forall is_digit fs → chars s p fs → p + zlen fs ≤ fe → follow s (p + zlen fs) fe → (length fs < n)%nat →
  Q (frac_value r w fs, p + zlen fs) s →
  wpp (ploop n (λ '(result, weight, text),
    if text <? fe then
      c ← rd text;
      let value := char2value c in
      mret (if (value <? 0) || (10 <=? value) then inr (result, text)
            else inl (d_add result (d_mul (d_int value) weight), d_div weight (d_int 10), text + 1))
    else mret (inr (result, text))) (r, w, p)) s Q.
Proof using Type.
  induction fs as [|c fs IH]; intros [|n] p r w Q Hd Hc Hle Hf Hn HQ; try (simpl in Hn; lia); apply ploop_step.
  - change (zlen []) with 0 in *. rewrite Z.add_0_r in *. destruct Hf as [->|(Hlt & c & Hs & Hst)].
    + rewrite (proj2 (Z.ltb_ge fe fe)) by lia. by apply wpp_ret.
    + rewrite (proj2 (Z.ltb_lt p fe)) by lia. rd_char Hs. destruct (stop_test c Hst) as [-> _]. by apply wpp_ret.
  - apply Forall_cons in Hd as [Hdc Hd]. apply chars_cons in Hc as [H0 Hc]. rewrite zlen_cons in *. pose proof (zlen_nonneg fs).
    rewrite (proj2 (Z.ltb_lt p fe)) by lia. rd_char H0. rewrite digit_test, char2value_digit by done. apply wpp_ret.
    replace (p + (zlen fs + 1)) with (p + 1 + zlen fs) in * by lia. apply IH; [done|done|lia|done|simpl in Hn; lia|done].
Qed.

Definition int_round : F * Z → prog mem (F * Z + F * Z * bool) := λ '(result, text),
  if text <? fe then
    c ← rd text;
    if c =? 46 then mret (inr (result, text + 1, true))
    else
      let value := char2value c in
      mret (if (value <? 0) || (10 <=? value) then inr (result, text, false)
            else inl (d_add (d_mul result (d_int 10)) (d_int value), text + 1))
  else mret (inr (result, text, true)).
Lemma int_loop_ok ds m : ∀ p r (Q : F * Z * bool → mem → Prop),
  Forall is_digit ds → chars s p ds → p + zlen ds ≤ fe →
  wpp (ploop m int_round (fold_left (λ r c, d_add (d_mul r (d_int 10)) (d_int (c - 48))) ds r, p + zlen ds)) s Q →
  wpp (ploop (length ds + m) int_round (r, p)) s Q.
Proof using Type.
  induction ds as [|c ds IH]; intros p r Q Hd Hc Hle HQ.
  - change (zlen []) with 0 in HQ. by rewrite Z.add_0_r in HQ.
  - apply Forall_cons in Hd as [Hdc Hd]. apply chars_cons in Hc as [H0 Hc]. rewrite zlen_cons in *. pose proof (zlen_nonneg ds).
    apply ploop_step. unfold int_round at 1. rewrite (proj2 (Z.ltb_lt p fe)) by lia. rd_char H0. unfold is_digit in Hdc.
    rewrite (proj2 (Z.eqb_neq c 46)) by lia. rewrite digit_test, char2value_digit by done. apply wpp_ret.
    replace (p + (zlen ds + 1)) with (p + 1 + zlen ds) in * by lia. by apply IH; [..|lia|].
Qed.

(** The prefix of a decimal number: none, but that the 0 of "0." is taken. *)
Lemma sign_prefix_ok p ds fr (Q : Z * Z → mem → Prop) :
  0 < p → ds ≠ [] → Forall is_digit ds → chars s p (number_text ds fr) → p + zlen (number_text ds fr) ≤ fe →
  follow s (p + zlen (number_text ds fr)) fe →
  Q (10, p) s → (∀ fs, ds = [48] → fr = Some fs → Q (10, p + 1) s) → wpp (prefix2base p fe 10) s Q.
Proof using Type.
  intros Hp Hne Hd Hc Hle Hf HQ HQ0. destruct ds as [|c ds]; [done|]. unfold number_text in *. cbn [app] in *.
  apply Forall_cons in Hd as [Hdc Hd]. apply chars_cons in Hc as [H0 Hc]. rewrite zlen_cons in *. set (rest := ds ++ _) in *.
  pose proof (zlen_nonneg rest). unfold prefix2base. rewrite (proj2 (Z.eqb_neq fe 0)) by lia. cbn [negb andb].
  destruct (Z.leb_spec fe (p + 1)) as [Hs|Hs]; [apply wpp_bind, wpp_ret; cbn; by apply wpp_ret|].
  apply wpp_bind. eapply wpp_rd; [exact H0|]. destruct (Z.eqb_spec c 48) as [->|Hc0]; cbn [negb]; [|by apply wpp_ret].
  assert (∃ c1, s !! (p + 1) = Some c1 ∧ (c1 = 46 → ds = [] ∧ ∃ fs, fr = Some fs) ∧ (is_digit c1 ∨ c1 = 46 ∨ stops c1)) as (c1 & H1 & Hdot & Hk).
  { unfold rest in *. destruct ds as [|d ds]; [destruct fr as [fs|]|]; cbn [app] in *.
    - apply chars_cons in Hc as [H1 _]. exists 46. naive_solver.
    - change (zlen []) with 0 in *. destruct Hf as [Hf|(_ & c1 & H1 & Hst)]; [lia|]. exists c1. replace (p + 1) with (p + (0 + 1)) by lia.
      split_and!; [done|intros ->; by destruct Hst|by right; right].
    - apply chars_cons in Hc as [H1 _]. apply Forall_cons in Hd as [Hd1 _]. exists d. split_and!; [done| |by left]. intros ->. unfold is_digit in Hd1. lia. }
  assert (between 65 90 c1 = false ∧ between 97 122 c1 = false) as [U L].
  { unfold between. destruct Hk as [Hk|[->|[Hk _]]]; [unfold is_digit in Hk; lia|by split|]. unfold char2value in Hk.
    destruct (Z.leb_spec 48 c1), (Z.leb_spec c1 57), (Z.leb_spec 97 c1), (Z.leb_spec c1 122), (Z.leb_spec 65 c1), (Z.leb_spec c1 90); cbn [andb] in *; lia. }
  unfold between in U, L. cbv zeta. rd_char H1.
  assert (∀ x, between 65 90 x || between 97 122 x = true → (c1 =? x) = false) as Hx.
  { intros x Hx. apply Z.eqb_neq. intros ->. unfold between in Hx. by rewrite U, L in Hx. }
  rewrite (Hx 98), (Hx 66), (Hx 100), (Hx 68), (Hx 120), (Hx 88), (Hx 111), (Hx 79) by done. cbn [orb]. destruct (Z.eqb_spec c1 46) as [E|_].
  { apply wpp_ret. destruct (Hdot E) as [-> [fs ->]]. by apply (HQ0 fs). }
  change (8 <? 10) with true. change (0 <? 10) with true. cbv iota. destruct ((48 <=? c1) && (c1 <=? 55)); [by apply wpp_ret|].
  destruct (c1 =? 0); by apply wpp_ret.
Qed.

Lemma number_ok p ds fr (Q : F * Z → mem → Prop) :
  0 < p → ds ≠ [] → Forall is_digit ds → Forall is_digit (default [] fr) → chars s p (number_text ds fr) →
  p + zlen (number_text ds fr) ≤ fe → follow s (p + zlen (number_text ds fr)) fe →
  Q (number_value ds fr, p + zlen (number_text ds fr)) s → wpp (text2double_unsigned p fe 10) s Q.
Proof using HD DoubleLaws0.
  intros Hp Hne Hd Hfr Hc Hle Hf HQ. pose proof Hc as Hc'. unfold number_text in Hc'. apply chars_app in Hc' as [Hcd Hcf].
  assert (zlen (number_text ds fr) = zlen ds + zlen (match fr with Some fs => 46 :: fs | None => [] end)) as Hlen by apply zlen_app.
  set (rest := match fr with Some fs => 46 :: fs | None => [] end) in *. pose proof (zlen_nonneg rest).
  assert (0 < zlen ds) as Hds by (destruct ds; [done|]; rewrite zlen_cons; pose proof (zlen_nonneg ds); lia).
  (* What is read behind the digits. *)
  assert (∀ m (Q' : F * Z * bool → mem → Prop), (0 < m)%nat →
    (∀ x more, (fr = None → more = false ∨ x = fe) → (∀ fs, fr = Some fs → more = true) →
       x = p + zlen ds + (if fr then 1 else 0) → Q' (int_value ds, x, more) s) →
    wpp (ploop m int_round (int_value ds, p + zlen ds)) s Q') as Hend.
  { intros [|m] Q' Hm HQ'; [lia|]. apply ploop_step. unfold int_round at 1. destruct fr as [fs|].
    - unfold rest in *. rewrite zlen_cons in *. apply chars_cons in Hcf as [Hdot _]. pose proof (zlen_nonneg fs).
      rewrite (proj2 (Z.ltb_lt _ fe)) by lia. rd_char Hdot. apply wpp_ret. by apply HQ'.
    - unfold rest in *. change (zlen []) with 0 in *. rewrite Hlen, Z.add_0_r in *. destruct Hf as [Hf|(Hlt & c & Hs & Hst)].
      + rewrite (proj2 (Z.ltb_ge _ fe)) by lia. apply wpp_ret, HQ'; [by right|done|lia].
      + rewrite (proj2 (Z.ltb_lt _ fe)) by lia. rd_char Hs. destruct (stop_test c Hst) as [T1 ->]. rewrite T1. apply wpp_ret, HQ'; [by left|done|lia]. }
  unfold text2double_unsigned. rewrite (proj2 (Z.eqb_neq fe 0)) by lia. apply wpp_bind, wpp_ret. rewrite (proj2 (Z.leb_gt fe p)) by lia.
  assert (∀ x more, (fr = None → more = false ∨ x = fe) → (∀ fs, fr = Some fs → more = true) → x = p + zlen ds + (if fr then 1 else 0) →
    wpp (if negb more then mret (int_value ds, x) else
      ploop (bytes_fuel (fe - x)) (λ '(result, weight, text),
        if text <? fe then
          c ← rd text;
          let value := char2value c in
          mret (if (value <? 0) || (10 <=? value) then inr (result, text)
                else inl (d_add result (d_mul (d_int value) weight), d_div weight (d_int 10), text + 1))
        else mret (inr (result, text))) (int_value ds, d_div (d_int 1) (d_int 10), x)) s Q) as Hfin.
  { intros x more H1 H2 ->. destruct fr as [fs|].
    - rewrite (H2 fs eq_refl). cbn [negb]. unfold rest in *. rewrite zlen_cons in *. apply chars_cons in Hcf as [_ Hcf].
      rewrite Hlen in *. replace (p + (zlen ds + (zlen fs + 1))) with (p + zlen ds + 1 + zlen fs) in * by lia.
      apply (frac_loop_ok fs); [done|done|done|done|unfold bytes_fuel, zlen in *; lia|]. exact HQ.
    - unfold rest in *. change (zlen []) with 0 in *. rewrite Hlen in *. rewrite !Z.add_0_r in *. destruct more; cbn [negb]; [|by apply wpp_ret].
      destruct (H1 eq_refl) as [?|E]; [done|]. apply ploop_step. rewrite (proj2 (Z.ltb_ge _ fe)) by lia. by apply wpp_ret. }
  apply wpp_bind, (sign_prefix_ok p ds fr); try done; cbv beta iota; change (1 <? 10) with true; cbv beta iota zeta; fold int_round.
  - apply wpp_bind.
    replace (bytes_fuel (fe - p)) with (length ds + (bytes_fuel (fe - p) - length ds))%nat by (unfold bytes_fuel, zlen in *; lia).
    apply int_loop_ok; [done|done|lia|]. apply Hend; [unfold bytes_fuel, zlen in *; lia|]. intros x more H1 H2 H3. by apply Hfin.
  - intros fs -> ->. apply wpp_bind. change (zlen [48]) with 1 in *.
    assert (int_value [48] = d_int 0) as E by (apply (d_zero_digit 10); lia). rewrite <-E. apply Hend; [unfold bytes_fuel; lia|].
    intros x more H1 H2 H3. by apply Hfin.
Qed.
End numbers.

(** *** Brackets *)

Lemma right_bracket_spec b r : right_bracket b = Some r ↔ (b = 40 ∧ r = 41) ∨ (b = 91 ∧ r = 93) ∨ (b = 123 ∧ r = 125).
Proof. unfold right_bracket. destruct (Z.eqb_spec b 40), (Z.eqb_spec b 91), (Z.eqb_spec b 123); naive_solver lia. Qed.
Lemma bracket_cases b : right_bracket b ≠ None → right_bracket b = Some (closing b).
Proof. unfold closing. by destruct (right_bracket b). Qed.
(** Neither opens nor closes anything. *)
Definition plain (c : Z) : Prop := c ≠ 40 ∧ c ≠ 41 ∧ c ≠ 91 ∧ c ≠ 93 ∧ c ≠ 123 ∧ c ≠ 125.
Lemma number_plain ds fr : Forall is_digit ds → Forall is_digit (default [] fr) → Forall plain (number_text ds fr).
Proof.
  intros Hd Hf. assert (∀ l, Forall is_digit l → Forall plain l) as H.
  { intros l Hl. eapply Forall_impl; [exact Hl|]. unfold is_digit, plain. intros c Hc. lia. }
  apply Forall_app. split; [by apply H|]. destruct fr as [fs|]; [|done]. apply Forall_cons. split; [unfold plain; lia|]. by apply H.
Qed.
Lemma blanks_plain bl : Forall is_blank bl → Forall plain bl.
Proof. intros H. eapply Forall_impl; [exact H|]. unfold is_blank, plain. intros c Hc. lia. Qed.

Section pairs.
Context (s : mem) (fe lb rb : Z).
Hypothesis Hb : right_bracket lb = Some rb.
Definition pair_round : Z * Z → prog mem (Z * Z + Z) := λ '(formula, counter),
  if formula <? fe then
    c ← rd formula;
    mret (if c =? lb then inl (formula + 1, counter + 1)
          else if c =? rb then
            if counter <=? 1 then inr formula else inl (formula + 1, counter - 1)
          else inl (formula + 1, counter))
  else mret (inr 0).

(** Over [l] and on with [c] brackets open. *)
Definition passes (l : list Z) : Prop := ∀ m c p (Q : Z → mem → Prop),
  1 ≤ c → chars s p l → p + zlen l ≤ fe →
  wpp (ploop m pair_round (p + zlen l, c)) s Q → wpp (ploop (length l + m) pair_round (p, c)) s Q.
Lemma passes_app l l' : passes l → passes l' → passes (l ++ l').
Proof using Type.
  intros H1 H2 m c p Q Hc Hl Hfe HQ. apply chars_app in Hl as [Hl Hl']. rewrite zlen_app in *. pose proof (zlen_nonneg l').
  rewrite length_app, <-Nat.add_assoc. apply H1; [done|done|lia|]. apply H2; [done|done|lia|].
  by replace (p + zlen l + zlen l') with (p + (zlen l + zlen l')) by lia.
Qed.
Lemma passes_other c l : c ≠ lb → c ≠ rb → passes l → passes (c :: l).
Proof using Type.
  intros N1 N2 H m d p Q Hd [H0 Hl]%chars_cons Hfe HQ. rewrite zlen_cons in *. pose proof (zlen_nonneg l).
  apply ploop_step. unfold pair_round at 1. rewrite (proj2 (Z.ltb_lt p fe)) by lia. rd_char H0.
  rewrite (proj2 (Z.eqb_neq c lb)), (proj2 (Z.eqb_neq c rb)) by done. apply wpp_ret.
  replace (p + (zlen l + 1)) with (p + 1 + zlen l) in * by lia. by apply H; [|done|lia|].
Qed.
Lemma passes_nil : passes [].
Proof using Type. intros m c p Q _ _ _ HQ. change (zlen []) with 0 in HQ. by rewrite Z.add_0_r in HQ. Qed.
Lemma passes_plain l : Forall plain l → passes l.
Proof using Hb.
  apply right_bracket_spec in Hb. induction 1 as [|c l Hc _ IH]; [apply passes_nil|]. unfold plain in Hc. apply passes_other; [lia|lia|done].
Qed.
(** A pair of the same brackets around what passes. *)
Lemma passes_pair l l' : passes l → passes l' → passes (lb :: l ++ rb :: l').
Proof using Hb.
  intros H1 H2 m c p Q Hc [H0 [Hl [Hr Hl']%chars_cons]%chars_app]%chars_cons Hfe HQ.
  rewrite zlen_cons, zlen_app, zlen_cons in *. pose proof (zlen_nonneg l). pose proof (zlen_nonneg l').
  assert (length (lb :: l ++ rb :: l') + m = S (length l + S (length l' + m)))%nat as -> by (cbn; rewrite length_app; cbn; lia).
  apply ploop_step. unfold pair_round at 1. rewrite (proj2 (Z.ltb_lt p fe)) by lia. rd_char H0. rewrite Z.eqb_refl. apply wpp_ret.
  apply H1; [lia|done|lia|].
  apply ploop_step. unfold pair_round at 1. rewrite (proj2 (Z.ltb_lt _ fe)) by lia. rd_char Hr.
  apply right_bracket_spec in Hb. rewrite (proj2 (Z.eqb_neq rb lb)), Z.eqb_refl, (proj2 (Z.leb_gt _ 1)) by lia. apply wpp_ret.
  replace (c + 1 - 1) with c by lia. apply H2; [done|done|lia|]. by replace (p + 1 + zlen l + 1 + zlen l') with (p + (zlen l + (zlen l' + 1) + 1)) by lia.
Qed.

Lemma formula_passes e : ∀ first, formula_ok first e → passes (render e).
Proof using Hb.
  induction e as [ds fr bl|b e IH bl| |op bl l IHl r IHr]; intros first Hok; cbn [render formula_ok] in *.
  - destruct Hok as (_ & H1 & H2 & H3). apply passes_plain, Forall_app. split; [by apply number_plain|by apply blanks_plain].
  - destruct Hok as (H1 & H2 & H3). apply bracket_cases in H1. pose proof (passes_plain bl (blanks_plain bl H3)) as Hbl. specialize (IH _ H2).
    apply right_bracket_spec in H1. pose proof Hb as Hb'. apply right_bracket_spec in Hb'.
    destruct (decide (b = lb)) as [->|Hne].
    + replace (closing lb) with rb by lia. by apply passes_pair.
    + apply passes_other; [lia|lia|]. apply passes_app; [done|]. apply passes_other; [lia|lia|done].
  - apply passes_nil.
  - destruct Hok as (H1 & H2 & H3 & H4 & _). unfold is_op, is_sign in H1. pose proof Hb as Hb'. apply right_bracket_spec in Hb'.
    assert (passes (render l)) as Hl by (destruct l; [by eapply IHl|by eapply IHl|apply passes_nil|by eapply IHl]).
    apply passes_app; [done|]. apply passes_other; [lia|lia|]. apply passes_app; [|by eapply IHr]. by apply passes_plain, blanks_plain.
Qed.
End pairs.

Lemma get_bracket_pair_ok s p fe b e first bl (Q : Z → mem → Prop) :
  right_bracket b ≠ None → formula_ok first e → chars s p (b :: render e ++ closing b :: bl) →
  p + 1 + zlen (render e) + 1 ≤ fe → Q (p + 1 + zlen (render e)) s → wpp (get_bracket_pair p fe) s Q.
Proof.
  intros H1 H2 [H0 [Hl [Hr _]%chars_cons]%chars_app]%chars_cons Hfe HQ. apply bracket_cases in H1. pose proof (zlen_nonneg (render e)).
  unfold get_bracket_pair. rd_char H0. rewrite H1. fold (pair_round fe b (closing b)).
  replace (bytes_fuel (fe - p)) with (length (render e) + (bytes_fuel (fe - p) - length (render e)))%nat by (unfold bytes_fuel, zlen in *; lia).
  apply (formula_passes s fe b (closing b) H1 e first H2); [lia|done|lia|].
  destruct (bytes_fuel _ - _)%nat eqn:E; [unfold bytes_fuel, zlen in *; lia|]. apply ploop_step. unfold pair_round at 1.
  rewrite (proj2 (Z.ltb_lt _ fe)) by lia. rd_char Hr. apply right_bracket_spec in H1. rewrite (proj2 (Z.eqb_neq (closing b) b)), Z.eqb_refl by lia.
  change (1 <=? 1) with true. by apply wpp_ret.
Qed.

(** *** Operators *)

Section reduce.
Context {F : Type} `{HI : Inhabited F} `{HD : DoubleOps F}.

(** Applying the pending operators, the last one first, to the values leaves [v]. *)
Fixpoint reduces (pend : list Z) (vals : list F) (v : F) : Prop :=
  match pend with
  | [] => vals = [v]
  | op :: pend => ∃ b a rest, vals = b :: a :: rest ∧ reduces pend (apply_op op a b :: rest) v
  end.
Lemma reduces_app pend1 pend2 vals1 vals2 v1 v :
  reduces pend1 vals1 v1 → reduces pend2 (v1 :: vals2) v → reduces (pend1 ++ pend2) (vals1 ++ vals2) v.
Proof using Type.
  revert vals1. induction pend1 as [|op pend1 IH]; intros vals1 H1 H2; cbn [reduces app] in *; [by subst|].
  destruct H1 as (b & a & rest & -> & H1). exists b, a, (rest ++ vals2). split; [done|]. by apply (IH (_ :: rest)).
Qed.

Lemma simple_operation2_ok data op a b rest :
  ts_rep data 100 (b :: a :: rest) → is_op op →
  wp (simple_operation2 data op) (λ r, r.1 = 0 ∧ ts_rep r.2 100 (apply_op op a b :: rest)).
Proof using Type.
  intros H Hop. pose proof (ts_rep_cap _ _ _ H) as Hcap. rewrite !zlen_cons in Hcap. pose proof (zlen_nonneg rest). unfold simple_operation2.
  apply wp_bind. destruct (typed_stack_pop_ok _ _ _ _ H) as [Hp _]. eapply wp_mono; [exact Hp|]. intros [r1 d1] [E1 H1]. cbn [fst snd] in *. subst r1.
  cbv beta iota. apply wp_bind. destruct (typed_stack_pop_ok _ _ _ _ H1) as [Hq _]. eapply wp_mono; [exact Hq|]. intros [r2 d2] [E2 H2]. cbn [fst snd] in *. subst r2.
  cbv beta iota. unfold is_op, is_sign in Hop. unfold apply_op.
  destruct (Z.eqb_spec op 43), (Z.eqb_spec op 45), (Z.eqb_spec op 42), (Z.eqb_spec op 47); try (apply typed_stack_push_ok; [done|lia]).
  all: exfalso; lia.
Qed.

Lemma ts_top_length {A} `{Inhabited A} (st : typed_stack A) cap l : ts_rep st cap l → ts_top st = zlen l.
Proof using Type. intros [_ Hr]. pose proof (ri_top _ _ _ _ _ Hr). lia. Qed.
Lemma ts_empty {A} `{Inhabited A} (st : typed_stack A) cap : ts_rep st cap [] →
  typed_stack_get_top st = Ok (- ENOMEM, None) ∧ typed_stack_pop st = Ok (- ENOMEM, None, st) ∧ typed_stack_is_empty st = true.
Proof using Type.
  intros Hr%ts_top_length. change (zlen []) with 0 in Hr. unfold typed_stack_get_top, typed_stack_pop, typed_stack_is_empty.
  by rewrite (proj2 (Z.leb_le (ts_top st) 0)) by lia.
Qed.

(** The operators above a lower one are applied. *)
Lemma reduce_above_ok priority pend : ∀ n ops data lops ldata vals v,
  ts_rep ops 100 (pend ++ lops) → ts_rep data 100 (vals ++ ldata) → reduces pend vals v →
  Forall (λ op, is_op op ∧ priority ≤ get_operator_priority op) pend →
  (∀ op, head lops = Some op → get_operator_priority op < priority) → (length pend < n)%nat →
  wp (loop n (λ '(ops, data),
    '(ret, top) ← letter_stack_get_top ops;
    match top with
    | Some op =>
      if priority <=? get_operator_priority op then
        '(ret, data) ← simple_operation2 data op;
        if ret <? 0 then mret (inr (ret, ops, data))
        else '(_, _, ops) ← letter_stack_pop ops; mret (inl (ops, data))
      else mret (inr (0, ops, data))
    | None => mret (inr (0, ops, data))
    end) (ops, data)) (λ r, ∃ ops' data', r = (0, ops', data') ∧ ts_rep ops' 100 lops ∧ ts_rep data' 100 (v :: ldata)).
Proof using Type.
  induction pend as [|op pend IH]; intros [|n] ops data lops ldata vals v Hops Hdata Hr Hp Hl Hn; try (simpl in Hn; lia);
    rewrite loop_S; apply wp_bind; unfold letter_stack_get_top, letter_stack_pop.
  - cbn [app reduces] in *. subst vals. destruct lops as [|op lops].
    + destruct (ts_empty _ _ Hops) as [-> _]. apply wp_ret. by exists ops, data.
    + destruct (typed_stack_pop_ok _ _ _ _ Hops) as [_ ->]. cbn. rewrite (proj2 (Z.leb_gt priority _)) by (by apply Hl). apply wp_ret. by exists ops, data.
  - cbn [app reduces] in *. apply Forall_cons in Hp as [[Hop Hpr] Hp]. destruct Hr as (b & a & rest & -> & Hr).
    destruct (typed_stack_pop_ok _ _ _ _ Hops) as [Hpop ->]. cbn [mbind cres_bind]. rewrite (proj2 (Z.leb_le priority _)) by done.
    apply wp_bind. eapply wp_mono; [by apply (simple_operation2_ok data op a b (rest ++ ldata))|].
    intros [ret data1] [E H1]. cbn [fst snd] in *. subst ret. cbn. apply wp_bind. eapply wp_mono; [exact Hpop|]. intros [r1 ops1] [E1 H2]. cbn [fst snd] in *. subst r1. apply wp_ret.
    apply (IH n ops1 data1 lops ldata (apply_op op a b :: rest) v); [done|exact H1|exact Hr|done|done|simpl in Hn; lia].
Qed.
(** At the end all are, and one value is left. *)
Lemma finish_ok pend ops data vals v :
  ts_rep ops 100 pend → ts_rep data 100 vals → reduces pend vals v → Forall is_op pend → finish ops data = Ok (0, Some v).
Proof using Type.
  intros Hops Hdata Hr Hp.
  destruct (proj1 (wp_ok (reduce_all ops data) (λ r, ∃ data', r = (0, data') ∧ ts_rep data' 100 [v]))) as (r & E & data1 & -> & H1).
  { unfold reduce_all. rewrite (ts_top_length _ _ _ Hops). unfold zlen. rewrite Nat2Z.id.
    clear -Hops Hdata Hr Hp. revert ops data vals Hops Hdata Hr.
    induction Hp as [|op pend Hop Hp IH]; intros ops data vals Hops Hdata Hr; rewrite loop_S; apply wp_bind; unfold letter_stack_pop.
    - destruct (ts_empty _ _ Hops) as (_ & -> & _). cbn [reduces] in Hr. subst vals. apply wp_ret. by exists data.
    - destruct Hr as (b & a & rest & -> & Hr). destruct (typed_stack_pop_ok _ _ _ _ Hops) as [Hpop _].
      apply wp_bind. eapply wp_mono; [exact Hpop|]. intros [r1 ops1] [E1 H2]. cbn [fst snd] in *. subst r1. cbv beta iota.
      apply wp_bind. eapply wp_mono; [by apply (simple_operation2_ok data op a b rest)|].
      intros [ret data1] [E H1]. cbn [fst snd] in *. subst ret. cbn. by eapply IH. }
  unfold finish. rewrite E. cbn. destruct (typed_stack_pop_ok _ _ _ _ H1) as [Hpop _]. apply wp_ok in Hpop as ([r1 data2] & E2 & E3 & H2).
  cbn [fst snd] in *. subst r1. rewrite E2. cbn. destruct (ts_empty _ _ H2) as (_ & _ & ->). done.
Qed.
End reduce.

(** *** The evaluation of a formula *)

Lemma op_stops c : is_op c → stops c.
Proof. unfold is_op, is_sign, stops. intros [[->| ->]|[->| ->]]; (split; [by vm_compute|lia]). Qed.
Lemma blank_stops c : is_blank c → stops c.
Proof. unfold is_blank, stops. intros [->|[->|[->| ->]]]; (split; [by vm_compute|lia]). Qed.
Lemma closing_stops b : right_bracket b ≠ None → stops (closing b).
Proof. intros H%bracket_cases%right_bracket_spec. unfold stops. destruct H as [[_ ->]|[[_ ->]|[_ ->]]]; (split; [by vm_compute|lia]). Qed.
Lemma op_priority op : is_op op → 0 ≤ get_operator_priority op ≤ 1.
Proof. unfold is_op, is_sign. intros [[->| ->]|[->| ->]]; vm_compute; split; congruence. Qed.
Lemma level_range e first : formula_ok first e → 0 ≤ level e ≤ 2.
Proof. destruct e; simpl; try lia. intros [H%op_priority _]. lia. Qed.
Lemma not_first_signed e : formula_ok false e → signed e = false.
Proof. induction e as [| | |op bl l IHl r IHr]; simpl; try done. intros (_ & _ & Hl & _). destruct l; try done; naive_solver. Qed.
Lemma rounds_length e : ∀ first, formula_ok first e → (rounds e ≤ length (render e))%nat.
Proof.
  induction e as [ds fr bl|b e IH bl| |op bl l IHl r IHr]; intros first Hok; cbn [rounds render formula_ok] in *.
  - destruct Hok as (Hne & _). unfold number_text. rewrite !length_app. destruct ds; [done|]. simpl. lia.
  - simpl. rewrite length_app. simpl. lia.
  - done.
  - destruct Hok as (_ & _ & Hl & Hr & _). rewrite length_app. simpl. rewrite length_app. specialize (IHr _ Hr).
    assert (rounds l ≤ length (render l))%nat by (destruct l; [by eapply IHl|by eapply IHl|done|by eapply IHl]). lia.
Qed.

Section run.
Context {F : Type} `{HI : Inhabited F} `{HD : DoubleOps F} `{!DoubleLaws F}.
Context (s : mem) (fe : Z) (rec : Z → Z → prog mem (Z * option F)) (dmax : nat).
Hypothesis Hrec : ∀ e p, formula_ok true e → (depth e < dmax)%nat → 0 < p → chars s p (render e) →
  rec p (p + zlen (render e)) s = Ok ((0, Some (eval e)), s).
Notation round := (calc_round rec fe).

Lemma run_blanks bl m : ∀ p ops data (Q : Z * typed_stack Z * typed_stack F → mem → Prop),
  Forall is_blank bl → chars s p bl → p + zlen bl ≤ fe →
  wpp (ploop m round (p + zlen bl, ops, data)) s Q → wpp (ploop (length bl + m) round (p, ops, data)) s Q.
Proof using Type.
  induction bl as [|c bl IH]; intros p ops data Q Hb Hc Hle HQ; [change (zlen []) with 0 in HQ; by rewrite Z.add_0_r in HQ|].
  apply Forall_cons in Hb as [Hbc Hb]. apply chars_cons in Hc as [H0 Hc]. rewrite zlen_cons in *. pose proof (zlen_nonneg bl).
  apply ploop_step. unfold calc_round at 1. rewrite (proj2 (Z.ltb_lt p fe)) by lia. rd_char H0.
  assert (wpp (mret (inl (p + 1, ops, data)) : prog mem (Z * typed_stack Z * typed_stack F + _)) s (λ r s', match r with
    inl x' => wpp (ploop (length bl + m) round x') s' Q | inr y => Q y s' end)) as Hgo.
  { apply wpp_ret. replace (p + (zlen bl + 1)) with (p + 1 + zlen bl) in * by lia. by apply IH; [..|lia|]. }
  unfold is_blank in Hbc. destruct Hbc as [->|[->|[->| ->]]]; exact Hgo.
Qed.

Lemma run_number ds fr bl m p ops data ldata (Q : Z * typed_stack Z * typed_stack F → mem → Prop) :
  formula_ok false (Number ds fr bl) → 0 < p → chars s p (number_text ds fr ++ bl) → p + zlen (number_text ds fr ++ bl) ≤ fe →
  follow s (p + zlen (number_text ds fr ++ bl)) fe → ts_rep data 100 ldata → zlen ldata ≤ 2 →
  (∀ data', ts_rep data' 100 (number_value ds fr :: ldata) → wpp (ploop m round (p + zlen (number_text ds fr ++ bl), ops, data')) s Q) →
  wpp (ploop (S (length bl) + m) round (p, ops, data)) s Q.
Proof using DoubleLaws0.
  intros (Hne & Hd & Hf & Hb) Hp [Hc Hcb]%chars_app Hle Hfol Hdata Hl HQ. rewrite zlen_app in *. rewrite Z.add_assoc in HQ, Hfol, Hle.
  pose proof (zlen_nonneg bl). apply ploop_step. unfold calc_round at 1.
  destruct ds as [|c ds'] eqn:Eds; [done|]. rewrite <-Eds in *. assert (s !! p = Some c) as H0.
  { unfold number_text in Hc. rewrite Eds in Hc. cbn [app] in Hc. by apply chars_cons in Hc as [? _]. }
  assert (0 < zlen (number_text ds fr)) as Hpos by (unfold number_text; rewrite zlen_app, Eds, zlen_cons; pose proof (zlen_nonneg ds'); pose proof (zlen_nonneg (match fr with Some fs => 46 :: fs | None => [] end)); lia).
  assert (is_digit c) as Hdc by (rewrite Eds in Hd; by apply Forall_cons in Hd as [? _]). unfold is_digit in Hdc.
  rewrite (proj2 (Z.ltb_lt p fe)) by lia. rd_char H0. rewrite !(proj2 (Z.eqb_neq c _)) by lia. cbn [orb]. unfold between.
  rewrite !(proj2 (Z.leb_le _ _)) by lia. cbn [andb]. apply wpp_bind, (number_ok s fe p ds fr); try done; [lia| |].
  { destruct bl as [|x bl]; [change (zlen []) with 0 in Hfol; by rewrite Z.add_0_r in Hfol|]. right. rewrite zlen_cons in Hle. pose proof (zlen_nonneg bl). split; [lia|].
    apply chars_cons in Hcb as [Hx _]. apply Forall_cons in Hb as [Hbx _]. exists x. split; [done|by apply blank_stops]. }
  cbv beta iota. apply wpp_bind. destruct (proj1 (wp_ok _ _) (typed_stack_push_ok _ _ _ (number_value ds fr) Hdata ltac:(lia))) as ([r d] & E & E1 & H2).
  cbn [fst snd] in *. subst r. eapply wpp_lift; [exact E|]. cbn. apply wpp_ret. apply run_blanks; [done|done|lia|]. by apply HQ.
Qed.

Lemma run_group b e bl m p ops data ldata (Q : Z * typed_stack Z * typed_stack F → mem → Prop) :
  formula_ok false (Group b e bl) → (depth (Group b e bl) ≤ dmax)%nat → 0 < p → chars s p (render (Group b e bl)) →
  p + zlen (render (Group b e bl)) ≤ fe → ts_rep data 100 ldata → zlen ldata ≤ 2 →
  (∀ data', ts_rep data' 100 (eval e :: ldata) → wpp (ploop m round (p + zlen (render (Group b e bl)), ops, data')) s Q) →
  wpp (ploop (S (length bl) + m) round (p, ops, data)) s Q.
Proof using Hrec.
  intros (Hb & Hok & Hbl) Hdep Hp Hc Hle Hdata Hl HQ. cbn [render depth] in *. pose proof Hc as Hc0.
  apply chars_cons in Hc0 as [H0 [Hce [_ Hcb]%chars_cons]%chars_app]. rewrite !zlen_cons, zlen_app, zlen_cons in *.
  pose proof (zlen_nonneg bl). pose proof (zlen_nonneg (render e)). apply ploop_step. unfold calc_round at 1.
  rewrite (proj2 (Z.ltb_lt p fe)) by lia. rd_char H0.
  assert ((b =? 40) || (b =? 91) || (b =? 123) = true) as ->.
  { apply bracket_cases, right_bracket_spec in Hb. destruct (Z.eqb_spec b 40), (Z.eqb_spec b 91), (Z.eqb_spec b 123); try done; lia. }
  apply wpp_bind, (get_bracket_pair_ok s p fe b e true bl); [done|done|done|lia|]. rewrite (proj2 (Z.eqb_neq _ 0)) by lia.
  apply wpp_bind. eapply wpp_eq; [apply Hrec; (done || lia)|]. cbn. apply wpp_bind.
  destruct (proj1 (wp_ok _ _) (typed_stack_push_ok _ _ _ (eval e) Hdata ltac:(lia))) as ([r d] & E & E1 & H2).
  cbn [fst snd] in *. subst r. eapply wpp_lift; [exact E|]. cbn. apply wpp_ret. apply run_blanks; [done|done|lia|].
  replace (p + 1 + zlen (render e) + 1 + zlen bl) with (p + (zlen (render e) + (zlen bl + 1) + 1)) by lia. by apply HQ.
Qed.

(** An operator: what binds as tightly before it is applied. *)
Lemma run_op op bl m p ops data lops ldata pend vals v (Q : Z * typed_stack Z * typed_stack F → mem → Prop) :
  is_op op → Forall is_blank bl → chars s p (op :: bl) → p + zlen (op :: bl) ≤ fe →
  ts_rep ops 100 (pend ++ lops) → ts_rep data 100 (vals ++ ldata) → reduces pend vals v →
  Forall (λ o, is_op o ∧ get_operator_priority op ≤ get_operator_priority o) pend →
  (∀ o, head lops = Some o → get_operator_priority o < get_operator_priority op) → zlen lops ≤ 2 →
  (∀ ops' data', ts_rep ops' 100 (op :: lops) → ts_rep data' 100 (v :: ldata) →
     wpp (ploop m round (p + zlen (op :: bl), ops', data')) s Q) →
  wpp (ploop (S (length bl + m)) round (p, ops, data)) s Q.
Proof using Type.
  intros Hop Hb [H0 Hc]%chars_cons Hle Hops Hdata Hr Hp Hl Hcap HQ. rewrite zlen_cons in *. pose proof (zlen_nonneg bl).
  apply ploop_step. unfold calc_round at 1. rewrite (proj2 (Z.ltb_lt p fe)) by lia. rd_char H0.
  assert (wpp ('(ret, ops, data) ← lift (reduce_above (get_operator_priority op) ops data);
      if ret <? 0 then mret (inr (ret, ops, data))
      else
        '(ret, ops) ← lift (letter_stack_push ops op);
        mret (if ret <? 0 then inr (ret, ops, data) else inl (p + 1, ops, data))) s (λ r s', match r with
    inl x' => wpp (ploop (length bl + m) round x') s' Q | inr y => Q y s' end)) as Hgo.
  { apply wpp_bind. pose proof (reduce_above_ok (get_operator_priority op) pend (S (Z.to_nat (ts_top ops))) ops data lops ldata vals v Hops Hdata Hr Hp Hl) as Hred.
    rewrite (ts_top_length _ _ _ Hops) in Hred. specialize (Hred ltac:(unfold zlen; rewrite length_app; lia)).
    apply wp_ok in Hred as (x & E & ops1 & data1 & -> & O1 & D1). eapply wpp_lift; [unfold reduce_above; rewrite (ts_top_length _ _ _ Hops); exact E|].
    cbn. apply wpp_bind. unfold letter_stack_push.
    destruct (proj1 (wp_ok _ _) (typed_stack_push_ok _ _ _ op O1 ltac:(lia))) as ([r o] & E2 & E1 & H2). cbn [fst snd] in *. subst r.
    eapply wpp_lift; [exact E2|]. cbn. apply wpp_ret. apply run_blanks; [done|done|lia|].
    replace (p + 1 + zlen bl) with (p + (zlen bl + 1)) by lia. by apply HQ. }
  unfold is_op, is_sign in Hop. destruct Hop as [[->| ->]|[->| ->]]; exact Hgo.
Qed.

(** What the values hold before a formula: 0 when it starts with a sign. *)
Definition start (e : exp) (ldata : list F) : list F := if signed e then d_int 0 :: ldata else ldata.
(** What the rounds over a formula leave for the next one. *)
Definition runs_to (e : exp) (m : nat) (p : Z) (lops : list Z) (ldata : list F) (Q : Z * typed_stack Z * typed_stack F → mem → Prop) : Prop :=
  ∀ ops' data' pend vals, ts_rep ops' 100 (pend ++ lops) → ts_rep data' 100 (vals ++ ldata) → reduces pend vals (eval e) →
    Forall (λ o, is_op o ∧ level e ≤ get_operator_priority o) pend → zlen pend + level e ≤ 2 →
    wpp (ploop m round (p, ops', data')) s Q.

Lemma run_exp e : ∀ first m p ops data lops ldata (Q : Z * typed_stack Z * typed_stack F → mem → Prop),
  formula_ok first e → (depth e ≤ dmax)%nat → 0 < p → chars s p (render e) → p + zlen (render e) ≤ fe →
  follow s (p + zlen (render e)) fe → ts_rep ops 100 lops → ts_rep data 100 (start e ldata) →
  zlen lops ≤ level e → zlen ldata ≤ zlen lops → (∀ o, head lops = Some o → get_operator_priority o < level e) →
  runs_to e m (p + zlen (render e)) lops ldata Q → wpp (ploop (rounds e + m) round (p, ops, data)) s Q.
Proof using Hrec DoubleLaws0.
  induction e as [ds fr bl|b e IH bl| |op bl l IHl r IHr]; intros first m p ops data lops ldata Q Hok Hdep Hp Hc Hle Hf Hops Hdata Hl1 Hl2 Hl3 HQ.
  - cbn [level] in *. apply (run_number ds fr bl m p ops data ldata); [exact Hok|done..|lia|]. intros data' H'. by apply (HQ ops data' [] [number_value ds fr]).
  - cbn [level] in *. apply (run_group b e bl m p ops data ldata); [exact Hok|done..|lia|]. intros data' H'. by apply (HQ ops data' [] [eval e]).
  - done.
  - pose proof Hok as (Hop & Hbl & Hfl & Hfr & Hpl & Hpr). cbn [level depth render rounds eval] in *. pose proof (op_priority op Hop) as Hprio.
    pose proof (level_range r false Hfr) as Hlr.
    apply chars_app in Hc as [Hcl Hcr0]. pose proof Hcr0 as Hcr. change (op :: bl ++ render r) with ((op :: bl) ++ render r) in Hcr.
    apply chars_app in Hcr as [Hcop Hcr].
    assert (zlen (render l ++ op :: bl ++ render r) = zlen (render l) + zlen (op :: bl) + zlen (render r)) as Hz.
    { change (op :: bl ++ render r) with ((op :: bl) ++ render r). rewrite !zlen_app. lia. }
    rewrite Hz in *. pose proof (zlen_nonneg (render l)). pose proof (zlen_nonneg (render r)). pose proof (zlen_nonneg (op :: bl)).
    assert (0 < zlen (op :: bl)) as Hop0 by (rewrite zlen_cons; pose proof (zlen_nonneg bl); lia).
    (* From the operator on, whatever the left side left. *)
    assert (∀ ops1 data1 pend vals, ts_rep ops1 100 (pend ++ lops) → ts_rep data1 100 (vals ++ ldata) → reduces pend vals (eval l) →
      Forall (λ o, is_op o ∧ get_operator_priority op ≤ get_operator_priority o) pend →
      wpp (ploop (S (length bl + (rounds r + m))) round (p + zlen (render l), ops1, data1)) s Q) as Hright.
    { intros ops1 data1 pend vals O1 D1 R1 P1. eapply run_op; [exact Hop|exact Hbl|exact Hcop|lia|exact O1|exact D1|exact R1|exact P1|exact Hl3|lia|].
      intros ops2 data2 O2 D2. apply (IHr false m _ ops2 data2 (op :: lops) (eval l :: ldata)); try done; try lia.
      - by replace (p + zlen (render l) + zlen (op :: bl) + zlen (render r)) with (p + (zlen (render l) + zlen (op :: bl) + zlen (render r))) by lia.
      - unfold start. by rewrite (not_first_signed r Hfr).
      - rewrite zlen_cons. lia.
      - rewrite !zlen_cons. lia.
      - intros o [= <-]. done.
      - intros ops3 data3 pend3 vals3 O3 D3 R3 P3 L3.
        replace (p + zlen (render l) + zlen (op :: bl) + zlen (render r)) with (p + (zlen (render l) + zlen (op :: bl) + zlen (render r))) by lia.
        apply (HQ ops3 data3 (pend3 ++ [op]) (vals3 ++ [eval l])).
        + by rewrite <-app_assoc.
        + by rewrite <-app_assoc.
        + eapply reduces_app; [exact R3|]. exists (eval r), (eval l), []. done.
        + cbn [level]. apply Forall_app. split; [|apply Forall_cons; split; [split; [done|lia]|done]].
          eapply Forall_impl; [exact P3|]. intros o [? ?]. split; [done|lia].
        + cbn [level]. rewrite zlen_app. change (zlen [op]) with 1. lia. }
    rewrite <-Nat.add_assoc. cbn [Nat.add]. rewrite <-Nat.add_assoc. unfold start in Hdata. cbn [signed] in Hdata.
    assert (l = Zero ∨ (l ≠ Zero ∧ formula_ok first l ∧ signed (Bin op bl l r) = signed l)) as [->|(Hne & Hokl & Hsg)].
    { destruct l; [right|right|by left|right]; done. }
    + cbn [rounds render eval Nat.add] in *. change (zlen (@nil Z)) with 0 in Hright. rewrite Z.add_0_r in Hright.
      by apply (Hright ops data [] [d_int 0]).
    + cbn [signed] in Hsg. rewrite Hsg in Hdata. apply (IHl first _ p ops data lops ldata); try done; try lia.
      * right. split; [lia|]. exists op. split; [by apply chars_cons in Hcr0 as [? _]|by apply op_stops].
      * intros o Ho. specialize (Hl3 o Ho). lia.
      * intros ops1 data1 pend vals O1 D1 R1 P1 _. apply (Hright ops1 data1 pend vals); try done.
        eapply Forall_impl; [exact P1|]. intros o [? ?]. split; [done|lia].
Qed.
End run.

(** The first character is a sign just when an operand lacks before it. *)
Lemma render_head e first : formula_ok first e → ∃ c l, render e = c :: l ∧ ((c =? 43) || (c =? 45) = signed e).
Proof.
  revert first. induction e as [ds fr bl|b e IH bl| |op bl l IHl r IHr]; intros first Hok; cbn [render formula_ok signed] in *.
  - destruct Hok as (Hne & Hd & _). destruct ds as [|c ds]; [done|]. apply Forall_cons in Hd as [Hc _]. unfold is_digit in Hc.
    unfold number_text. cbn [app]. do 2 eexists. split; [done|]. by rewrite !(proj2 (Z.eqb_neq c _)) by lia.
  - destruct Hok as (Hb & _). apply bracket_cases, right_bracket_spec in Hb. do 2 eexists. split; [done|]. by rewrite !(proj2 (Z.eqb_neq b _)) by lia.
  - done.
  - destruct Hok as (Hop & _ & Hl & _).
    assert (l = Zero ∨ (l ≠ Zero ∧ formula_ok first l)) as [->|[Hne Hokl]] by (destruct l; [right|right|by left|right]; done).
    + do 2 eexists. split; [done|]. destruct Hl as [_ Hs]. unfold is_sign in Hs. destruct Hs as [->| ->]; done.
    + destruct (IHl first Hokl) as (c & k & E & Hc). rewrite E. exists c, (k ++ op :: bl ++ render r). split; [done|]. rewrite Hc. by destruct l.
Qed.

(** *** Nesting *)

(** Text in which the brackets come in pairs, at most [d] deep. *)
Inductive nested : nat → list Z → Prop :=
| nested_nil d : nested d []
| nested_plain d c l : plain c → nested d l → nested d (c :: l)
| nested_pair d b l l' : right_bracket b ≠ None → nested d l → nested (S d) l' → nested (S d) (b :: l ++ closing b :: l').
(** The same behind the open brackets [st]. *)
Fixpoint closes (st : list Z) (d : nat) (l : list Z) : Prop :=
  match st with
  | [] => nested d l
  | b :: st => ∃ l0 l1, l = l0 ++ closing b :: l1 ∧ nested d l0 ∧ closes st (S d) l1
  end.
(** The check on lists. *)
Fixpoint check_list (cap : Z) (st l : list Z) : Z :=
  match l with
  | [] => if st then 0 else - EFAULT
  | c :: l =>
    match right_bracket c, left_bracket c with
    | Some _, _ => if zlen st <? cap then check_list cap (c :: st) l else - ENOMEM
    | _, Some o => match st with b :: st => if b =? o then check_list cap st l else - EFAULT | [] => - EFAULT end
    | None, None => check_list cap st l
    end
  end.

Lemma left_bracket_spec c b : left_bracket c = Some b ↔ right_bracket b = Some c.
Proof.
  rewrite right_bracket_spec. unfold left_bracket. destruct (Z.eqb_spec c 41), (Z.eqb_spec c 93), (Z.eqb_spec c 125); naive_solver lia.
Qed.
Lemma plain_spec c : plain c ↔ right_bracket c = None ∧ left_bracket c = None.
Proof.
  unfold plain, right_bracket, left_bracket.
  destruct (Z.eqb_spec c 40), (Z.eqb_spec c 91), (Z.eqb_spec c 123), (Z.eqb_spec c 41), (Z.eqb_spec c 93), (Z.eqb_spec c 125); naive_solver lia.
Qed.
Lemma closing_spec b : right_bracket b ≠ None → right_bracket (closing b) = None ∧ left_bracket (closing b) = Some b.
Proof. intros H%bracket_cases. split; [|by apply left_bracket_spec]. apply right_bracket_spec in H. destruct H as [[_ ->]|[[_ ->]|[_ ->]]]; done. Qed.

Lemma closes_plain st d c l : plain c → closes st d l → closes st d (c :: l).
Proof.
  intros Hc. destruct st as [|b st]; [by apply nested_plain|]. intros (l0 & l1 & -> & H0 & H1). exists (c :: l0), l1.
  split_and!; [done|by apply nested_plain|done].
Qed.
Lemma closes_pair st d c l0 l1 : right_bracket c ≠ None → nested d l0 → closes st (S d) l1 → closes st (S d) (c :: l0 ++ closing c :: l1).
Proof.
  intros Hc H0. destruct st as [|b st]; [by apply nested_pair|]. intros (k0 & k1 & -> & K0 & K1). exists (c :: l0 ++ closing c :: k0), k1.
  split_and!; [by simpl; rewrite <-app_assoc|by apply nested_pair|done].
Qed.
Lemma check_list_sound cap l : ∀ st d, Z.of_nat d + zlen st = cap → check_list cap st l = 0 → closes st d l.
Proof.
  induction l as [|c l IH]; intros st d Hd Hc; cbn [check_list] in Hc; [by destruct st; [apply nested_nil|]|].
  destruct (right_bracket c) as [r|] eqn:Er; [|destruct (left_bracket c) as [o|] eqn:El].
  - destruct (Z.ltb_spec (zlen st) cap); [|done]. destruct d as [|d]; [lia|]. destruct (IH (c :: st) d) as (l0 & l1 & -> & H0 & H1); [rewrite zlen_cons; lia|done|].
    apply closes_pair; [congruence|done|done].
  - destruct st as [|b st]; [done|]. destruct (Z.eqb_spec b o) as [->|]; [|done]. rewrite zlen_cons in Hd. exists [], l.
    apply left_bracket_spec in El. unfold closing. rewrite El. split_and!; [done|apply nested_nil|apply IH; [lia|done]].
  - apply closes_plain; [by apply plain_spec|]. by apply IH.
Qed.
Lemma check_list_nested cap d l : nested d l → ∀ st rest, Z.of_nat d + zlen st ≤ cap → check_list cap st (l ++ rest) = check_list cap st rest.
Proof.
  induction 1 as [d|d c l Hc _ IH|d b l l' Hb _ IH1 _ IH2]; intros st rest Hd; [done|..]; cbn [app check_list].
  - apply plain_spec in Hc as [-> ->]. by apply IH.
  - rewrite (bracket_cases b Hb). pose proof (zlen_nonneg st). rewrite (proj2 (Z.ltb_lt _ _)) by lia. rewrite <-app_assoc, IH1 by (rewrite zlen_cons; lia).
    cbn [app check_list]. destruct (closing_spec b Hb) as [-> ->]. rewrite Z.eqb_refl. by apply IH2.
Qed.
Lemma check_list_code cap st l : check_list cap st l ≤ 0.
Proof.
  revert st. induction l as [|c l IH]; intros st; cbn [check_list]; [destruct st; unfold EFAULT; lia|].
  unfold EFAULT, ENOMEM in *. repeat case_match; try lia; apply IH.
Qed.
Lemma formula_nested e : ∀ first d rest, formula_ok first e → (depth e ≤ d)%nat → nested d rest → nested d (render e ++ rest).
Proof.
  assert (∀ d l rest, Forall plain l → nested d rest → nested d (l ++ rest)) as Hpl.
  { intros d l rest Hl Hr. induction Hl; [done|]. by apply nested_plain. }
  induction e as [ds fr bl|b e IH bl| |op bl l IHl r IHr]; intros first d rest Hok Hd Hr; cbn [render formula_ok depth] in *.
  - destruct Hok as (_ & H1 & H2 & H3). apply Hpl; [|done]. apply Forall_app. split; [by apply number_plain|by apply blanks_plain].
  - destruct Hok as (H1 & H2 & H3). destruct d as [|d]; [lia|]. simpl. rewrite <-app_assoc. cbn [app].
    apply nested_pair; [done| |by apply Hpl; [apply blanks_plain|]]. rewrite <-(app_nil_r (render e)). eapply IH; [done|lia|apply nested_nil].
  - done.
  - destruct Hok as (H1 & H2 & H3 & H4 & _). rewrite <-app_assoc. cbn [app]. rewrite <-app_assoc.
    assert (nested d (op :: bl ++ render r ++ rest)) as Hr'.
    { apply nested_plain; [unfold is_op, is_sign, plain in *; lia|]. apply Hpl; [by apply blanks_plain|]. eapply IHr; [done|lia|done]. }
    destruct l; [by eapply IHl; [|lia|]|by eapply IHl; [|lia|]|done|by eapply IHl; [|lia|]].
Qed.

Section calc.
Context {F : Type} `{HI : Inhabited F} `{HD : DoubleOps F} `{!DoubleLaws F}.
Context (letters : Z → option (list Z)) (doubles : Z → option (list F)).
(** [malloc] answers blocks of the size that was asked for. *)
Definition blocks_given : Prop := ∀ n, 0 < n →
  (∃ b, letters n = Some b ∧ zlen b = n) ∧ (∃ b, doubles n = Some b ∧ zlen b = n).
Hypothesis Hmem : blocks_given.

Lemma fresh_stack {A} `{Inhabited A} (b : list A) n : zlen b = n → 0 ≤ n → ts_rep (mk_typed_stack b 0 n) n [].
Proof using Type. intros Hb Hn. split; [done|]. split; simpl; [done|done|done|intros i Hi; change (zlen []) with 0 in Hi; lia]. Qed.

Lemma simple_calculation_base_ok n : ∀ s e p,
  formula_ok true e → (depth e < n)%nat → 0 < p → chars s p (render e) →
  simple_calculation_base letters doubles n p (p + zlen (render e)) s = Ok ((0, Some (eval e)), s).
Proof using Hmem DoubleLaws0.
  induction n as [|n IH]; intros s e p Hok Hd Hp Hc; [lia|].
  destruct (proj1 (wpp_ok (simple_calculation_base letters doubles (S n) p (p + zlen (render e))) s
    (λ r s', s' = s ∧ r = (0, Some (eval e))))) as (r & s' & E & -> & ->); [|done].
  destruct (Hmem 100 ltac:(lia)) as [(lb & El & Hlb) (db & Ed & Hdb)].
  destruct (render_head e true Hok) as (c & l & Er & Hs). assert (s !! p = Some c) as H0 by (rewrite Er in Hc; by apply chars_cons in Hc as [? _]).
  cbn [simple_calculation_base]. rewrite El, Ed. cbn. rd_char H0. rewrite Hs.
  pose proof (fresh_stack lb 100 Hlb ltac:(lia)) as O0. pose proof (fresh_stack db 100 Hdb ltac:(lia)) as D0.
  apply wpp_bind. assert (∃ data, (if signed e then lift (typed_stack_push (mk_typed_stack db 0 100) (d_int 0)) else mret (0, mk_typed_stack db 0 100)) s = Ok ((0, data), s) ∧
    ts_rep data 100 (start e [])) as (data & Ex & D1).
  { unfold start. destruct (signed e); [|by eexists].
    destruct (proj1 (wp_ok _ _) (typed_stack_push_ok _ _ _ (d_int 0) D0 ltac:(change (zlen []) with 0; lia))) as ([r d] & E1 & E2 & H2).
    cbn [fst snd] in *. subst r. exists d. split; [|done]. unfold lift. by rewrite E1. }
  eapply wpp_eq; [exact Ex|]. cbn. apply wpp_bind. pose proof (level_range e true Hok).
  pose proof (rounds_length e true Hok) as Hr.
  replace (bytes_fuel (p + zlen (render e) - p)) with (rounds e + (bytes_fuel (p + zlen (render e) - p) - rounds e))%nat by (unfold bytes_fuel, zlen; lia).
  apply (run_exp s (p + zlen (render e)) (simple_calculation_base letters doubles n) n) with (first := true) (lops := []) (ldata := []); try done; try lia.
  - intros e' p' He Hd' Hp' Hc'. by apply IH.
  - by left.
  - change (zlen []) with 0. lia.
  - intros ops' data' pend vals O2 D2 R2 P2 _. rewrite !app_nil_r in *.
    destruct (bytes_fuel _ - _)%nat eqn:En; [unfold bytes_fuel, zlen in *; lia|]. apply ploop_step. unfold calc_round at 1.
    rewrite (proj2 (Z.ltb_ge _ (p + zlen (render e)))) by lia. apply wpp_ret. cbn.
    eapply wpp_lift; [eapply finish_ok; [exact O2|exact D2|exact R2|]|done]. eapply Forall_impl; [exact P2|]. naive_solver.
Qed.

Lemma depth_length e : (depth e ≤ length (render e))%nat.
Proof using Type.
  induction e as [ds fr bl|b e IH bl| |op bl l IHl r IHr]; cbn [depth render]; simpl; rewrite ?length_app; simpl; rewrite ?length_app; lia.
Qed.

Lemma check_fuel s fe l : ∀ n p (stack : typed_stack Z) st (Q : Z * typed_stack Z → mem → Prop),
  chars s p l → fe = p + zlen l → ts_rep stack 10 st → (length l < n)%nat →
  (∀ ret stack', (check_list 10 st l = if ret <? 0 then ret else if letter_stack_is_empty stack' then 0 else - EFAULT) → Q (ret, stack') s) →
  wpp (ploop n (λ '(formula, stack),
      if formula <? fe then
        c ← rd formula;
        match right_bracket c, left_bracket c with
        | Some _, _ =>
          '(ret, stack) ← lift (letter_stack_push stack c);
          mret (if ret <? 0 then inr (ret, stack) else inl (formula + 1, stack))
        | _, Some opening =>
          '(ret, tmp, stack) ← lift (letter_stack_pop stack);
          mret (if (ret <? 0) || negb (bool_decide (tmp = Some opening)) then inr (- EFAULT, stack) else inl (formula + 1, stack))
        | None, None => mret (inl (formula + 1, stack))
        end
      else mret (inr (0, stack))) (p, stack)) s Q.
Proof using Type.
  induction l as [|c l IH]; intros [|n] p stack st Q Hc He Hst Hn HQ; try (simpl in Hn; lia); apply ploop_step.
  - change (zlen []) with 0 in He. rewrite (proj2 (Z.ltb_ge p fe)) by lia. apply wpp_ret, HQ. cbn [check_list]. change (0 <? 0) with false. cbv iota. unfold letter_stack_is_empty.
    destruct st as [|b st]; [by destruct (ts_empty _ _ Hst) as (_ & _ & ->)|]. unfold typed_stack_is_empty.
    rewrite (ts_top_length _ _ _ Hst), zlen_cons. pose proof (zlen_nonneg st). by rewrite (proj2 (Z.leb_gt _ 0)) by lia.
  - apply chars_cons in Hc as [H0 Hc]. rewrite zlen_cons in He. pose proof (zlen_nonneg l). rewrite (proj2 (Z.ltb_lt p fe)) by lia. rd_char H0.
    cbn [check_list] in HQ. simpl in Hn. destruct (right_bracket c) as [r|] eqn:Er; [|destruct (left_bracket c) as [o|] eqn:El].
    + apply wpp_bind. unfold letter_stack_push. pose proof (ts_rep_cap _ _ _ Hst). destruct (Z.ltb_spec (zlen st) 10).
      * destruct (proj1 (wp_ok _ _) (typed_stack_push_ok _ _ _ c Hst ltac:(lia))) as ([x d] & E & E1 & HS). cbn [fst snd] in *. subst x.
        eapply wpp_lift; [exact E|]. cbn. apply wpp_ret. by apply (IH n (p + 1) d (c :: st)); [|lia| |lia|].
      * eapply wpp_lift; [unfold typed_stack_push, typed_stack_is_full; rewrite (ts_top_length _ _ _ Hst), (proj1 Hst), (proj2 (Z.leb_le _ _)) by lia; done|].
        cbn. apply wpp_ret, HQ. done.
    + apply wpp_bind. unfold letter_stack_pop. destruct st as [|b st].
      * destruct (ts_empty _ _ Hst) as (_ & E & _). eapply wpp_lift; [exact E|]. cbn. apply wpp_ret, HQ. done.
      * destruct (typed_stack_pop_ok _ _ _ _ Hst) as [Hpop _]. apply wp_ok in Hpop as ([x d] & E & E1 & H2). cbn [fst snd] in *. subst x.
        eapply wpp_lift; [exact E|]. cbn [orb]. apply wpp_ret. destruct (Z.eqb_spec b o) as [->|Hne].
        -- rewrite bool_decide_true by done. cbn. by apply (IH n (p + 1) d st); [|lia| |lia|].
        -- rewrite bool_decide_false by congruence. cbn. apply HQ. done.
    + apply wpp_ret. by apply (IH n (p + 1) stack st); [|lia| |lia|].
Qed.
Lemma check_bracket_match_pair_ok s p l : chars s p l →
  check_bracket_match_pair letters p (p + zlen l) s = Ok (check_list 10 [] l, s).
Proof using Hmem.
  intros Hc. destruct (proj1 (wpp_ok (check_bracket_match_pair letters p (p + zlen l)) s (λ r s', s' = s ∧ r = check_list 10 [] l)))
    as (r & s' & E & -> & ->); [|done].
  unfold check_bracket_match_pair. destruct (Hmem 10 ltac:(lia)) as [(b & Eb & Hb) _]. rewrite Eb. cbn. apply wpp_bind.
  apply (check_fuel s _ l _ _ _ []); [done|done|by apply fresh_stack|unfold bytes_fuel, zlen; lia|]. intros ret st ->. by apply wpp_ret.
Qed.

(** C34: The check of brackets accepts a text, with 0, exactly when its brackets
    come in pairs of the same kind that are nested at most ten deep, whatever else
    the text is made of; every other text is refused with a negative code. *)
Theorem check_bracket_match_pair_decides s p l : chars s p l →
  ∃ r, check_bracket_match_pair letters p (p + zlen l) s = Ok (r, s) ∧ r ≤ 0 ∧ (r = 0 ↔ nested 10 l).
Proof using Hmem.
  intros Hc. exists (check_list 10 [] l). split_and!; [by apply check_bracket_match_pair_ok|apply check_list_code|]. split.
  - by apply (check_list_sound 10 l [] 10).
  - intros Hn. rewrite <-(app_nil_r l). by rewrite (check_list_nested 10 10 l Hn).
Qed.

(** C19: [simple_calculation] evaluates formulas.  For every formula of the grammar
    of arithmetic, brackets of three kinds nested at most ten deep, numbers with
    fractions, blanks, a sign without operand at the start of the text or of a
    bracket, and of any length, it answers 0 and the value: what the operators
    give when [*] and [/] bind tighter than [+] and [-] and operators of the same
    strength are applied from the left.  The stacks of 100 elements never fill. *)
Theorem simple_calculation_evaluates s p e :
  0 < p → formula_ok true e → (depth e ≤ 10)%nat → cstring s p (render e) →
  simple_calculation letters doubles p s = Ok ((0, Some (eval e)), s).
Proof using Hmem DoubleLaws0.
  intros Hp Hok Hd Hs. destruct (proj1 (wpp_ok (simple_calculation letters doubles p) s (λ r s', s' = s ∧ r = (0, Some (eval e)))))
    as (r & s' & E & -> & ->); [|done].
  apply wpp_bind, (text_len_ok p (render e)); [done|]. pose proof (proj1 (chars_app _ _ _ _) (proj1 Hs)) as [Hc _].
  apply wpp_bind. eapply wpp_eq; [by apply check_bracket_match_pair_ok|].
  rewrite <-(app_nil_r (render e)), (check_list_nested 10 10), (app_nil_r (render e)); [|by rewrite <-(app_nil_r (render e)); eapply formula_nested; [|lia|apply nested_nil]|done].
  change (check_list 10 [] []) with 0. change (0 <? 0) with false. cbv iota. pose proof (depth_length e). apply wpp_bind. eapply wpp_eq; [apply simple_calculation_base_ok; [done|unfold bytes_fuel, zlen; lia|done|done]|].
  by apply wpp_ret.
Qed.
End calc.

(** [malloc] gives what is asked for. *)
Definition all_letters (n : Z) : option (list Z) := Some (repeat 0 (Z.to_nat n)).
Definition all_doubles (n : Z) : option (list spec_float) := Some (repeat S754_nan (Z.to_nat n)).
Lemma all_blocks_given : blocks_given all_letters all_doubles.
Proof. intros n Hn. split; (eexists; split; [done|]; unfold zlen; rewrite repeat_length; lia). Qed.

(** "-(2)+1.5" at 10. *)
Definition minus_two_and_a_half : exp :=
  Bin 43 [] (Bin 45 [] Zero (Group 40 (Number [50] None []) [])) (Number [49] (Some [53]) []).
Lemma simple_calculation_evaluates_witness :
  let s := written ∅ 10 (render minus_two_and_a_half ++ [0]) in
  cstring s 10 (render minus_two_and_a_half) ∧
  simple_calculation all_letters all_doubles 10 s = Ok ((0, Some (eval minus_two_and_a_half)), s).
Proof.
  intros s. assert (cstring s 10 (render minus_two_and_a_half)) as H by (apply written_cstring_here; on_texts). split; [exact H|].
  apply (simple_calculation_evaluates all_letters all_doubles all_blocks_given s 10 minus_two_and_a_half); [lia| |cbn; lia|exact H].
  cbn. unfold is_op, is_sign, is_digit. split_and!; repeat first [done|lia|apply Forall_cons; split|apply Forall_nil; done|split_and!|by left|left; lia].
Defined.

(** "()" at 10. *)
Lemma check_bracket_match_pair_decides_witness :
  let s := written ∅ 10 [40; 41; 0] in
  chars s 10 [40; 41] ∧ ∃ r, check_bracket_match_pair all_letters 10 12 s = Ok (r, s) ∧ r ≤ 0 ∧ (r = 0 ↔ nested 10 [40; 41]).
Proof.
  intros s. assert (chars s 10 [40; 41]) as H by exact (proj1 (proj1 (chars_app s 10 [40; 41] [0]) (written_chars ∅ 10 [40; 41; 0]))).
  split; [exact H|]. apply (check_bracket_match_pair_decides all_letters all_doubles all_blocks_given s 10 [40; 41] H).
Defined.

(** ** Where the code does something else *)

(** "7%2": the operator is read and never applied. *)
Example remainder_is_refused :
  simple_calculation all_letters all_doubles 10 (written ∅ 10 [55; 37; 50; 0]) = Ok ((- EINVAL, None), written ∅ 10 [55; 37; 50; 0]).
Proof. by vm_compute. Qed.
(** "1 2+" is accepted, with the value of "1+2". *)
Example postfix_is_accepted :
  let s := written ∅ 10 [49; 32; 50; 43; 0] in
  simple_calculation all_letters all_doubles 10 s = Ok ((0, Some (eval (Bin 43 [] (Number [49] None []) (Number [50] None [])))), s).
Proof. by vm_compute. Qed.
(** "-5" read as a number is minus zero. *)
Example negative_numbers_are_zero :
  let s := written ∅ 10 [45; 53; 0] in text2double 10 0 10 s = Ok ((S754_zero true, 10), s).
Proof. by vm_compute. Qed.
