(* ===== verification/Path.v ===== *)
(** Path: file names, src/lib/path.c.

    Names are strings of the byte store of Memory; the literals the code
    compares with, the static buffers and what [getcwd] answers are parameters.
    Not modelled: the functions that ask for directories of the system
    (temporary ones, [chdir]). *)
From S2P Require Import Prelude Memory Bignum MemOps TextNum Ctype Text.

Definition SLASH : Z := 47.
Definition DOT : Z := 46.

(** ** Dots, last and first components *)

Definition cavan_path_is_dot_name (filename : Z) : prog mem bool :=
  c ← rd filename;
  if negb (c =? DOT) then mret false
  else
    c ← rd (filename + 1);
    if c =? 0 then mret true
    else if c =? DOT then d ← rd (filename + 2); mret (d =? 0) else mret false.
Definition cavan_path_not_dot_name (filename : Z) : prog mem bool :=
  c ← rd filename;
  if negb (c =? DOT) then mret true
  else
    c ← rd (filename + 1);
    if c =? 0 then mret false
    else if negb (c =? DOT) then mret true else d ← rd (filename + 2); mret (negb (d =? 0)).

Definition cavan_path_basename_simple (pathname : Z) : prog mem Z :=
  tloop (λ '(pathname, basename), c ← rd pathname;
    if c =? 0 then mret (inr basename)
    else if c =? SLASH then
      let pathname := pathname + 1 in
      c ← rd pathname;
      mret (if c =? 0 then inr basename
            else if c =? SLASH then inl (pathname + 1, basename)
            else inl (pathname, pathname))
    else mret (inl (pathname + 1, basename))) (pathname, pathname).

(** The loop over the slashes at the end does not test for the start. *)
Definition cavan_path_basename (buff path : Z) : prog mem Z :=
  last ← text_tail path;
  last ← tloop (λ last, c ← rd last; mret (if c =? SLASH then inl (last - 1) else inr last)) (last - 1);
  first ← ploop (bytes_fuel (last - path + 1)) (λ first,
    if path <=? first then c ← rd first; mret (if c =? SLASH then inr first else inl (first - 1))
    else mret (inr first)) last;
  '(_, buff) ← while (bytes_fuel (last - first)) (λ '(first, _), first <=? last)
    (λ '(first, buff), c ← rd first; wr buff c;; mret (first + 1, buff + 1)) (first + 1, buff);
  wr buff 0;;
  mret buff.

Definition cavan_path_dirname_base (buff path : Z) : prog mem Z :=
  last ← text_tail path;
  last ← ploop (bytes_fuel (last - path)) (λ last,
    let last := last - 1 in
    if path <? last then c ← rd last; mret (if c =? SLASH then inl last else inr last)
    else mret (inr last)) last;
  last ← ploop (bytes_fuel (last - path)) (λ last,
    if path <? last then c ← rd last; mret (if negb (c =? SLASH) then inl (last - 1) else inr (last - 1))
    else mret (inr last)) last;
  last ← ploop (bytes_fuel (last - path)) (λ last,
    if path <? last then c ← rd last; mret (if c =? SLASH then inl (last - 1) else inr last)
    else mret (inr last)) last;
  dot ← (if path =? last then c ← rd path; mret (negb (c =? SLASH)) else mret false);
  if dot : bool then wr buff DOT;; wr (buff + 1) 0;; mret (buff + 1)
  else
    '(_, buff) ← while (bytes_fuel (last - path + 1)) (λ '(path, _), path <=? last)
      (λ '(path, buff), c ← rd path; wr buff c;; mret (path + 1, buff + 1)) (path, buff);
    wr buff 0;;
    mret buff.
Definition cavan_path_dirname (static_buff path : Z) : prog mem Z :=
  cavan_path_dirname_base static_buff path;; mret static_buff.

(** ** Joining *)

Definition path_copy_round (buff_end : Z) (isdir : bool) (x : Z * Z) : prog mem (Z * Z + Z) :=
  let '(buff, pathname) := x in
  if buff <? buff_end then
    c ← rd pathname;
    if c =? 0 then
      buff ← (if isdir then wr buff SLASH;; mret (buff + 1) else mret buff);
      wr buff 0;;
      mret (inr buff)
    else if c =? SLASH then
      pathname ← text_skip_char pathname SLASH;
      c ← rd pathname;
      if c =? 0 then
        if isdir then
          wr buff SLASH;;
          (if buff + 1 <? buff_end then wr (buff + 1) 0 else mret tt);;
          mret (inr (buff + 1))
        else wr buff 0;; mret (inr buff)
      else wr buff SLASH;; mret (inl (buff + 1, pathname))
    else wr buff c;; mret (inl (buff + 1, pathname + 1))
  else mret (inr buff).
Definition cavan_path_copy (buff size pathname : Z) (isdir : bool) : prog mem Z :=
  ploop (bytes_fuel size) (path_copy_round (buff + size) isdir) (buff, pathname).

Definition path_join_round (buff_end : Z) (paths : list Z) (count : Z) (x : Z * Z * Z) : prog mem (Z * Z * Z + Z * Z) :=
  let '(buff, i, pathname) := x in
  if buff <? buff_end then
    p ← lift (load paths i);
    pathname ← text_skip_char p SLASH;
    let i := i + 1 in
    if i <? count then
      buff ← cavan_path_copy buff (buff_end - buff) pathname true;
      mret (inl (buff, i, pathname))
    else mret (inr (buff, pathname))
  else mret (inr (buff, pathname)).
(** The literal "/" is at [slash]. *)
Definition cavan_path_join (slash buff size : Z) (paths : list Z) (count : Z) (isdir : bool) : prog mem Z :=
  if 0 <? count then
    let buff_end := buff + size in
    pathname ← lift (load paths 0);
    '(buff, pathname) ← (if 1 <? count then
        buff ← cavan_path_copy buff size pathname true;
        ploop (bytes_fuel count) (path_join_round buff_end paths count) (buff, 1, pathname)
      else mret (buff, pathname));
    cavan_path_copy buff (buff_end - buff) pathname isdir
  else text_ncopy buff slash size.
(** The variable arguments [ap] up to the first NULL, 20 at most. *)
Definition cavan_path_join2 (slash buff size : Z) (isdir : bool) (ap : list Z) : prog mem Z :=
  count ← lift (loop 21 (λ count,
    if count <? 20 then pathname ← load ap count; mret (if pathname =? 0 then inr count else inl (count + 1))
    else mret (inr count)) 0);
  cavan_path_join slash buff size (slice ap 0 count) count isdir.
Definition cavan_path_cat (slash buff size dirname basename : Z) (isdir : bool) : prog mem Z :=
  let dirname := if dirname =? 0 then slash else dirname in
  if negb (basename =? 0) then cavan_path_join slash buff size [dirname; basename] 2 isdir
  else cavan_path_copy buff size dirname true.

(** ** Names without dots *)

Section prettify.
(** What [getcwd] answers for a buffer of so many bytes and what the local
    array holds at first; the literals ".." and ".". *)
Context (cwd : Z → option (list Z)) (garbage : Z → Z) (dotdot dot : Z).

(** NULL when the directory does not fit. *)
Definition getcwd (buff size : Z) : prog mem Z :=
  match cwd size with
  | Some l => wr_list buff (l ++ [0]);; mret buff
  | None => mret 0
  end.

(** Back to the slash before the last component. *)
Definition up_one (dest_bak dest_path : Z) : prog mem Z :=
  ploop (bytes_fuel (dest_path - dest_bak)) (λ dest_path,
    if dest_bak <? dest_path then
      let dest_path := dest_path - 1 in
      c ← rd dest_path; mret (if c =? SLASH then inr dest_path else inl dest_path)
    else mret (inr dest_path)) dest_path.
(** [while (src_path < src_temp) *dest_path++ = *src_path++;] *)
Definition copy_until (src_temp src_path dest_path : Z) : prog mem (Z * Z) :=
  while (bytes_fuel (src_temp - src_path)) (λ '(src_path, _), src_path <? src_temp)
    (λ '(src_path, dest_path), c ← rd src_path; wr dest_path c;; mret (src_path + 1, dest_path + 1)) (src_path, dest_path).
(** The name between [src_path] and [src_temp] is added, dropped, or takes the
    last one away. *)
Definition enter_name (dest_bak src_temp src_path dest_path : Z) : prog mem Z :=
  d ← text_cmp src_path dotdot;
  if d =? 0 then up_one dest_bak dest_path
  else
    c ← rd src_path;
    d ← (if c =? 0 then mret 0 else text_cmp src_path dot);
    if d =? 0 then mret dest_path
    else
      wr dest_path SLASH;;
      '(_, dest_path) ← copy_until src_temp src_path (dest_path + 1);
      mret dest_path.
Definition prettify_round (dest_bak src_end : Z) (x : Z * Z) : prog mem (Z * Z + Z) :=
  let '(src_path, dest_path) := x in
  if src_path <? src_end then
    src_path ← skip_while (λ c, c =? SLASH) src_path;
    src_temp ← skip_while (λ c, negb (c =? 0) && negb (c =? SLASH)) src_path;
    wr src_temp 0;;
    dest_path ← enter_name dest_bak src_temp src_path dest_path;
    mret (inl (src_temp + 1, dest_path))
  else mret (inr dest_path).
Definition cavan_path_prettify_base (src_path dest_path size : Z) : prog mem Z :=
  with_block garbage 1024 (λ temp_path,
    src_end ← text_copy temp_path src_path;
    let src_path := temp_path in
    let dest_bak := dest_path in
    c ← rd src_path;
    start ← (if negb (c =? SLASH) then
        p ← getcwd dest_path size;
        if p =? 0 then mret None else dest_path ← text_tail dest_path; mret (Some dest_path)
      else mret (Some dest_path));
    match start with
    | None => mret 0
    | Some dest_path =>
      dest_path ← ploop (bytes_fuel (src_end - src_path)) (prettify_round dest_bak src_end) (src_path, dest_path);
      dest_path ← (if dest_path <=? dest_bak then wr dest_bak SLASH;; mret (dest_bak + 1) else mret dest_path);
      wr dest_path 0;;
      mret dest_bak
    end).
Definition cavan_path_prettify (static_buff src_path : Z) : prog mem Z :=
  cavan_path_prettify_base src_path static_buff 1024;; mret static_buff.
Definition cavan_path_to_abs_base (rel_path abs_path size : Z) : prog mem Z :=
  cavan_path_prettify_base rel_path abs_path size;; mret abs_path.
Definition cavan_path_to_abs (static_buff rel_path : Z) : prog mem Z :=
  cavan_path_to_abs_base rel_path static_buff 1024;; mret static_buff.
End prettify.

(** ** Components *)

Definition no_slash (f : list Z) : Prop := Forall (λ c, is_char c ∧ c ≠ SLASH) f.
(** A name that stands for itself. *)
Definition component (f : list Z) : Prop := f ≠ [] ∧ f ≠ [DOT] ∧ f ≠ [DOT; DOT] ∧ no_slash f.
(** One more name after the directory [st], the root first. *)
Definition enter (st : list (list Z)) (f : list Z) : list (list Z) :=
  if decide (f = [] ∨ f = [DOT]) then st else if decide (f = [DOT; DOT]) then removelast st else st ++ [f].
(** Where the name [l] leads from [st]. *)
Definition resolve (st : list (list Z)) (l : list Z) : list (list Z) := foldl enter st (fields SLASH l).
Definition names_text (st : list (list Z)) : list Z := concat ((λ f, SLASH :: f) <$> st).
Definition path_text (st : list (list Z)) : list Z := match st with [] => [SLASH] | _ => names_text st end.

Lemma names_text_snoc st f : names_text (st ++ [f]) = names_text st ++ SLASH :: f.
Proof. unfold names_text. rewrite fmap_app, concat_app. cbn. by rewrite app_nil_r. Qed.
Lemma names_text_cons f st : names_text (f :: st) = SLASH :: f ++ names_text st.
Proof. done. Qed.
Lemma no_slash_chars f : no_slash f → Forall is_char f.
Proof. intros H. eapply Forall_impl; [exact H|]. by intros c [? _]. Qed.
Lemma names_text_chars st : Forall no_slash st → Forall is_char (names_text st).
Proof.
  induction 1 as [|f st Hf _ IH]; [constructor|]. rewrite names_text_cons. apply Forall_cons. split; [unfold is_char, SLASH; lia|].
  apply Forall_app. split; [by apply no_slash_chars|done].
Qed.
Lemma path_text_chars st : Forall no_slash st → Forall is_char (path_text st).
Proof.
  intros H. destruct st; [repeat constructor; unfold SLASH; lia|]. by apply names_text_chars.
Qed.

Lemma fields_slash l : fields SLASH (SLASH :: l) = [] :: fields SLASH l.
Proof. done. Qed.
Lemma fields_name f l : no_slash f → fields SLASH (f ++ SLASH :: l) = f :: fields SLASH l.
Proof.
  induction 1 as [|c f [_ Hc] _ IH]; [done|]. cbn [app fields]. rewrite (proj2 (Z.eqb_neq c SLASH) Hc), IH. done.
Qed.
Lemma fields_last f : no_slash f → fields SLASH f = [f].
Proof. induction 1 as [|c f [_ Hc] _ IH]; [done|]. cbn [fields]. rewrite (proj2 (Z.eqb_neq c SLASH) Hc), IH. done. Qed.
Lemma enter_empty st : enter st [] = st.
Proof. unfold enter. rewrite decide_True; auto. Qed.
Lemma resolve_slash st l : resolve st (SLASH :: l) = resolve st l.
Proof. unfold resolve. rewrite fields_slash. cbn [foldl]. by rewrite enter_empty. Qed.
Lemma resolve_slashes st n l : resolve st (replicate n SLASH ++ l) = resolve st l.
Proof. induction n as [|n IH]; [done|]. cbn [replicate app]. by rewrite resolve_slash. Qed.
Lemma resolve_name st f l : no_slash f → resolve st (f ++ SLASH :: l) = resolve (enter st f) l.
Proof. intros Hf. unfold resolve. by rewrite fields_name. Qed.
Lemma resolve_last st f : no_slash f → resolve st f = enter st f.
Proof. intros Hf. unfold resolve. by rewrite fields_last. Qed.

Lemma enter_component st f : component f → enter st f = st ++ [f].
Proof. intros (? & ? & ? & _). unfold enter. rewrite !decide_False by naive_solver. done. Qed.
Lemma removelast_Forall {A} (P : A → Prop) (l : list A) : Forall P l → Forall P (removelast l).
Proof.
  intros H. destruct l as [|x l _] using rev_ind; [done|]. rewrite removelast_last. by apply Forall_app in H as [H _].
Qed.
Lemma enter_components st f : no_slash f → Forall component st → Forall component (enter st f).
Proof.
  intros Hf Hst. unfold enter. repeat case_decide; [done|by apply removelast_Forall|].
  apply Forall_app. split; [done|]. apply Forall_singleton. split_and!; naive_solver.
Qed.
Lemma names_components st : Forall component st → ∀ st0, resolve st0 (names_text st) = st0 ++ st.
Proof.
  intros H. induction H as [|f st Hf Hst IH]; intros st0; [unfold names_text, resolve; cbn; by rewrite enter_empty, app_nil_r|].
  rewrite names_text_cons, resolve_slash. destruct Hst as [|g st Hg Hst].
  - unfold names_text. cbn. rewrite app_nil_r, resolve_last by apply Hf. by apply enter_component.
  - rewrite names_text_cons, resolve_name, <-(resolve_slash _ (g ++ names_text st)), <-names_text_cons, IH, enter_component, <-app_assoc by (done || apply Hf). done.
Qed.

(** The first name of a path: the slashes before it, and what follows it. *)
Lemma first_name l : Forall is_char l → ∃ n f r, l = replicate n SLASH ++ f ++ r ∧ no_slash f ∧
  (r = [] ∨ f ≠ [] ∧ ∃ r', r = SLASH :: r').
Proof.
  induction l as [|c l IH]; intros Hl; [exists 0%nat, [], []; split_and!; [done|constructor|by left]|].
  apply Forall_cons in Hl as [Hc Hl]. destruct (IH Hl) as (n & f & r & -> & Hf & Hr). destruct (decide (c = SLASH)) as [->|Hn].
  - by exists (S n), f, r.
  - exists 0%nat. destruct n as [|n].
    + exists (c :: f), r. split_and!; [done|by constructor|]. destruct Hr as [->|[_ Hr]]; [by left|by right].
    + exists [c], (replicate (S n) SLASH ++ f ++ r). split_and!; [done|by apply Forall_singleton|].
      right. split; [done|]. by eexists.
Qed.
Lemma resolve_components st l : Forall is_char l → Forall component st → Forall component (resolve st l).
Proof.
  intros Hl. remember (length l) as n eqn:En. assert (length l ≤ n)%nat as Hle by lia. clear En. revert l st Hl Hle.
  induction n as [|n IH]; intros l st Hl Hle Hst.
  - destruct l; [|simpl in Hle; lia]. unfold resolve. cbn. by rewrite enter_empty.
  - destruct (first_name l Hl) as (k & f & r & -> & Hf & [->|[Hne [r' ->]]]); rewrite resolve_slashes.
    + rewrite app_nil_r, resolve_last by done. by apply enter_components.
    + rewrite resolve_name by done. rewrite !length_app in Hle. cbn [length] in Hle. apply IH; [|lia|by apply enter_components].
      apply Forall_app in Hl as [_ Hl]. apply Forall_app in Hl as [_ Hl]. by apply Forall_cons in Hl as [_ Hl].
Qed.

(** ** Loops over the store *)

(** [*dest++ = *src++] as long as [cond] says so, which is for [f]. *)
Lemma copy_chars_ok (cond : Z * Z → bool) fuel f src dest s (Q : Z * Z → mem → Prop) :
  (∀ k q, 0 ≤ k < zlen f → cond (src + k, q) = true) → (∀ q, cond (src + zlen f, q) = false) → zlen f < Z.of_nat fuel →
  chars s src f → Forall byte_ok f → live s dest (zlen f) → disjoint_from dest (zlen f) src (zlen f) →
  Q (src + zlen f, dest + zlen f) (written s dest f) →
  wpp (while fuel cond (λ '(src, dest), c ← rd src; wr dest c;; mret (src + 1, dest + 1)) (src, dest)) s Q.
Proof.
  intros Ht Hf Hfuel Hc Hb Hl Hd HQ. pose proof (zlen_nonneg f).
  apply (wpp_count (λ k x s', x = (src + k, dest + k) ∧ s' = written s dest (take (Z.to_nat k) f)) (zlen f)); [| |by rewrite !Z.add_0_r|done|done].
  - intros k x s' Hk [-> ->]. split; [by apply Ht|].
    destruct (lookup_lt_is_Some_2 f (Z.to_nat k)) as [c Hfc]; [unfold zlen in *; lia|].
    assert (zlen (take (Z.to_nat k) f) = k) as Ek by (unfold zlen in *; rewrite length_take; lia).
    apply wpp_bind, (wpp_rd _ _ _ c).
    { rewrite written_out by (rewrite Ek; unfold disjoint_from in Hd; lia). rewrite <-(Hc _ _ Hfc). f_equal. lia. }
    apply wpp_bind, wpp_wr; [apply written_live with (n := zlen f) (q := dest); [done|lia]|]. apply wpp_ret. split; [f_equal; lia|].
    replace (Z.to_nat (k + 1)) with (S (Z.to_nat k)) by lia. rewrite (take_S_r f _ c Hfc), written_app, Ek. cbn [written].
    rewrite u8_id; [done|]. by eapply (proj1 (Forall_lookup _ _) Hb).
  - intros x s' [-> ->]. split; [apply Hf|]. by rewrite take_ge by (unfold zlen in *; lia).
Qed.
Lemma copy_until_ok f src dest s (Q : Z * Z → mem → Prop) :
  chars s src f → Forall byte_ok f → live s dest (zlen f) → disjoint_from dest (zlen f) src (zlen f) →
  Q (src + zlen f, dest + zlen f) (written s dest f) → wpp (copy_until (src + zlen f) src dest) s Q.
Proof.
  intros Hc Hb Hl Hd HQ. apply copy_chars_ok with (f := f); [intros k q Hk|intros q| |done..].
  - apply Z.ltb_lt. lia.
  - apply Z.ltb_ge. lia.
  - unfold bytes_fuel, zlen. lia.
Qed.

Lemma up_over bak a s (Q : Z → mem → Prop) f : ∀ n,
  chars s bak (a ++ SLASH :: f) → no_slash f → (length f < n)%nat → Q (bak + zlen a) s →
  wpp (ploop n (λ dest_path, if bak <? dest_path then
      let dest_path := dest_path - 1 in
      c ← rd dest_path; mret (if c =? SLASH then inr dest_path else inl dest_path)
    else mret (inr dest_path)) (bak + zlen a + 1 + zlen f)) s Q.
Proof.
  pose proof (zlen_nonneg a). induction f as [|c f IH] using rev_ind; intros [|n] Hc Hf Hn HQ; try (simpl in Hn; lia); apply ploop_step.
  - change (zlen []) with 0. rewrite (proj2 (Z.ltb_lt _ _)) by lia. cbv zeta. apply chars_app in Hc as [_ Hc]. apply chars_single in Hc.
    replace (bak + zlen a + 1 + 0 - 1) with (bak + zlen a) by lia. rd_char Hc. by apply wpp_ret.
  - apply Forall_app in Hf as [Hf [_ Hne]%Forall_singleton]. rewrite app_comm_cons, app_assoc in Hc. apply chars_app in Hc as [Hc Hl].
    rewrite zlen_app, zlen_cons in Hl. apply chars_single in Hl. rewrite zlen_app. change (zlen [c]) with 1. pose proof (zlen_nonneg f).
    rewrite (proj2 (Z.ltb_lt _ _)) by lia. cbv zeta. replace (bak + zlen a + 1 + (zlen f + 1) - 1) with (bak + (zlen a + (zlen f + 1))) by lia.
    rd_char Hl. apply wpp_ret. rewrite (proj2 (Z.eqb_neq _ _) Hne).
    replace (bak + (zlen a + (zlen f + 1))) with (bak + zlen a + 1 + zlen f) by lia. rewrite length_app in Hn. simpl in Hn. apply IH; (done || lia).
Qed.
Lemma up_one_ok bak st s (Q : Z → mem → Prop) :
  chars s bak (names_text st) → Forall no_slash st → Q (bak + zlen (names_text (removelast st))) s → wpp (up_one bak (bak + zlen (names_text st))) s Q.
Proof.
  intros Hc Hst HQ. destruct st as [|f st _] using rev_ind.
  - change (zlen (names_text [])) with 0 in *. unfold up_one. apply ploop_step. rewrite (proj2 (Z.ltb_ge _ _)) by lia. apply wpp_ret. exact HQ.
  - rewrite removelast_last in HQ. rewrite names_text_snoc in *. apply Forall_app in Hst as [_ Hf]. apply Forall_cons in Hf as [Hf _].
    unfold up_one. rewrite zlen_app, zlen_cons. replace (bak + (zlen (names_text st) + (zlen f + 1))) with (bak + zlen (names_text st) + 1 + zlen f) by lia.
    apply up_over; [done..| |done]. pose proof (zlen_nonneg (names_text st)). unfold bytes_fuel, zlen in *. lia.
Qed.

(** ** One name *)

Section names.
Context (dotdot dot dest cap src_end : Z) (s0 : mem).
Hypothesis Hdotdot : cstring s0 dotdot [DOT; DOT].
Hypothesis Hdot : cstring s0 dot [DOT].
Hypothesis Hafar : disjoint_from dest cap dotdot 3.
Hypothesis Hbfar : disjoint_from dest cap dot 2.

(** The store of a round: the names so far at [dest], the rest of the path in
    the array [temp, src_end], the rest as it was. *)
Record rounds_at (temp src : Z) (st : list (list Z)) (l : list Z) (s : mem) : Prop := {
  ra_dest : chars s dest (names_text st);
  ra_src : chars s src (l ++ [0]);
  ra_live : live s dest cap;
  ra_frame : ∀ a, ¬ (dest ≤ a < dest + cap) → ¬ (temp ≤ a ≤ src_end) → s !! a = s0 !! a;
  ra_room : zlen (names_text st) + zlen l + 2 ≤ cap;
  ra_at : temp ≤ src;
  ra_end : src + zlen l = src_end;
}.
Context (temp : Z).
Hypothesis Htemp : disjoint_from dest cap temp (src_end - temp + 1).
Hypothesis Hafar' : disjoint_from temp (src_end - temp + 1) dotdot 3.
Hypothesis Hbfar' : disjoint_from temp (src_end - temp + 1) dot 2.

Lemma removelast_shorter st : zlen (names_text (removelast st)) ≤ zlen (names_text st).
Proof using Type.
  destruct st as [|f st _] using rev_ind; [done|]. rewrite removelast_last, names_text_snoc, zlen_app.
  pose proof (zlen_nonneg (SLASH :: f)). lia.
Qed.
Lemma removelast_chars st s p : chars s p (names_text st) → chars s p (names_text (removelast st)).
Proof using Type.
  destruct st as [|f st _] using rev_ind; [done|]. rewrite removelast_last, names_text_snoc. by intros [H _]%chars_app.
Qed.

(** Entering the name [f] at [src], which a zero byte ends now. *)
Lemma enter_name_ok st f src s (Q : Z → mem → Prop) :
  chars s dest (names_text st) → Forall no_slash st → cstring s src f → no_slash f → live s dest cap →
  zlen (names_text st) + zlen f + 1 ≤ cap → disjoint_from dest cap src (zlen f) →
  cstring s dotdot [DOT; DOT] → cstring s dot [DOT] →
  (∀ s', chars s' dest (names_text (enter st f)) → live s' dest cap → (∀ a, ¬ (dest ≤ a < dest + cap) → s' !! a = s !! a) →
     Q (dest + zlen (names_text (enter st f))) s') →
  wpp (enter_name dotdot dot dest (src + zlen f) src (dest + zlen (names_text st))) s Q.
Proof using Type.
  intros Hc Hst Hs Hf Hl Hroom Hd Ha Hb HQ. unfold enter_name. apply wpp_bind. eapply wpp_mono; [by eapply text_cmp_ok|].
  intros d s' (-> & Ed & _). pose proof (zlen_nonneg (names_text st)). pose proof (zlen_nonneg f).
  destruct (Z.eqb_spec d 0) as [E|E].
  { apply Ed in E as ->. apply up_one_ok; [done..|].
    replace (enter st [DOT; DOT]) with (removelast st) in HQ by (unfold enter; rewrite decide_False, decide_True by naive_solver; done).
    apply HQ; [by apply removelast_chars|done..]. }
  destruct (cstring_hd _ _ _ Hs) as (Hh & _ & Hz). rd_char Hh. apply wpp_bind.
  assert (wpp (if hd 0 f =? 0 then mret 0 else text_cmp src dot) s (λ d s', s' = s ∧ (d = 0 ↔ f = [] ∨ f = [DOT]))) as H1.
  { destruct (Z.eqb_spec (hd 0 f) 0) as [E0|E0].
    - apply wpp_ret. split; [done|]. split; [intros _; left; by apply Hz|done].
    - eapply wpp_mono; [by eapply text_cmp_ok|]. intros d1 s1 (-> & E1 & _). split; [done|]. rewrite E1. naive_solver. }
  eapply wpp_mono; [exact H1|]. intros d1 s1 [-> Ed1]. clear H1. destruct (Z.eqb_spec d1 0) as [E1|E1].
  { apply wpp_ret. replace (enter st f) with st in HQ by (unfold enter; rewrite decide_True by tauto; done). by apply HQ. }
  assert (component f) as Hcf by (split_and!; [tauto..|done]). rewrite (enter_component st f Hcf), names_text_snoc in HQ.
  apply wpp_bind, wpp_wr; [apply Hl; lia|]. change (u8 SLASH) with SLASH.
  set (s1 := <[dest + zlen (names_text st) := SLASH]> s). assert (s1 = written s (dest + zlen (names_text st)) [SLASH]) as Es1 by done.
  apply wpp_bind. apply copy_until_ok.
  - rewrite Es1. destruct Hs as [Hs _]. apply chars_app in Hs as [Hs _]. eapply chars_ext; [|exact Hs]. intros a Har. apply written_out.
    change (zlen [SLASH]) with 1. unfold disjoint_from in Hd. lia.
  - by apply is_char_byte, no_slash_chars.
  - rewrite Es1. apply written_live. eapply live_le; [exact Hl|lia..].
  - unfold disjoint_from in *. lia.
  - apply wpp_ret. rewrite Es1. replace (dest + zlen (names_text st) + 1) with (dest + zlen (names_text st) + zlen [SLASH]) by done.
    rewrite <-written_app. cbn [app]. replace (dest + zlen (names_text st) + zlen [SLASH] + zlen f) with (dest + zlen (names_text st ++ SLASH :: f))
      by (rewrite zlen_app, zlen_cons; change (zlen [SLASH]) with 1; lia).
    apply HQ.
    + apply chars_app. split; [|apply written_chars]. eapply chars_ext; [|exact Hc]. intros a Har. apply written_out. rewrite zlen_cons. lia.
    + by apply written_live.
    + intros a Har. apply written_out. rewrite zlen_cons. lia.
Qed.
Lemma enter_longer st f : zlen (names_text (enter st f)) ≤ zlen (names_text st) + zlen f + 1.
Proof using Type.
  pose proof (zlen_nonneg f). pose proof (removelast_shorter st). unfold enter. repeat case_decide; [lia|lia|].
  rewrite names_text_snoc, zlen_app, zlen_cons. lia.
Qed.

Lemma prettify_round_ok src st n f r s (Q : Z * Z + Z → mem → Prop) :
  let l := replicate n SLASH ++ f ++ r in
  rounds_at temp src st l s → l ≠ [] → Forall is_char l → Forall no_slash st → no_slash f → r = [] ∨ f ≠ [] ∧ (∃ r', r = SLASH :: r') →
  (∀ s', let src' := src + Z.of_nat n + zlen f + 1 in
     match r with
     | [] => src' = src_end + 1 ∧ chars s' dest (names_text (enter st f)) ∧ live s' dest cap ∧
             (∀ a, ¬ (dest ≤ a < dest + cap) → ¬ (temp ≤ a ≤ src_end) → s' !! a = s0 !! a)
     | _ :: r' => rounds_at temp src' (enter st f) r' s'
     end → Q (inl (src', dest + zlen (names_text (enter st f)))) s') →
  wpp (prettify_round dotdot dot dest src_end (src, dest + zlen (names_text st))) s Q.
Proof using Hdotdot Hdot Hafar Hbfar Htemp Hafar' Hbfar'.
  intros l [Rd Rs Rl Rf Rr Ra Re] Hne Hl Hst Hf Hr HQ. unfold prettify_round, l in *. clear l.
  rewrite !zlen_app in *. assert (zlen (replicate n SLASH) = Z.of_nat n) as En by (unfold zlen; by rewrite length_replicate). rewrite En in *.
  pose proof (zlen_nonneg f). pose proof (zlen_nonneg r).
  assert (0 < Z.of_nat n + (zlen f + zlen r)) as Hpos.
  { rewrite <-En, <-!zlen_app. destruct (replicate n SLASH ++ f ++ r) as [|c l]; [done|]. rewrite zlen_cons. pose proof (zlen_nonneg l). lia. }
  rewrite (proj2 (Z.ltb_lt _ _)) by lia.
  assert (∃ c t, f ++ r ++ [0] = c :: t ∧ (c =? SLASH) = false) as (c & t & Et & Hc).
  { destruct f as [|c f]; [destruct Hr as [->|[? _]]; [by eexists _, _|done]|].
    apply Forall_cons in Hf as [[_ Hc] _]. exists c, (f ++ r ++ [0]). split; [done|]. by apply Z.eqb_neq. }
  rewrite <-!app_assoc in Rs. pose proof Rs as Rs'. rewrite Et in Rs'.
  replace (replicate n SLASH ++ c :: t) with ((replicate n SLASH ++ [c]) ++ t) in Rs' by (by rewrite <-app_assoc). apply chars_app in Rs' as [Rs' _].
  apply wpp_bind, (skip_while_ok _ _ (replicate n SLASH) c); [done|by apply Forall_replicate|done|]. rewrite En.
  apply chars_app in Rs as [_ Rs]. rewrite En in Rs.
  assert (∃ d u, r ++ [0] = d :: u ∧ (negb (d =? 0) && negb (d =? SLASH)) = false) as (d & u & Eu & Hd).
  { destruct Hr as [->|[_ [r' ->]]]; [by eexists _, _|]. by eexists _, _. }
  clear Rs'. pose proof Rs as Rs'. rewrite Eu in Rs'. replace (f ++ d :: u) with ((f ++ [d]) ++ u) in Rs' by (by rewrite <-app_assoc). apply chars_app in Rs' as [Rs' _].
  apply wpp_bind, (skip_while_ok _ _ f d); [done| |done|].
  { eapply Forall_impl; [exact Hf|]. intros b [Hb Hb']. cbv beta. unfold is_char in Hb. rewrite (proj2 (Z.eqb_neq b 0)), (proj2 (Z.eqb_neq b SLASH)) by (done || lia). done. }
  set (p := src + Z.of_nat n). apply wpp_bind, wpp_wr.
  { apply chars_app in Rs' as [_ Rs']. apply chars_single in Rs'. by eexists. }
  change (u8 0) with 0. set (s1 := <[p + zlen f := 0]> s).
  assert (s1 = written s (p + zlen f) [0]) as Es1 by done.
  assert (∀ a, a ≠ p + zlen f → s1 !! a = s !! a) as Hs1 by (intros a Ha; by apply lookup_insert_ne).
  assert (∀ a, ¬ (dest ≤ a < dest + cap) → ¬ (temp ≤ a ≤ src_end) → s1 !! a = s0 !! a) as Hf1.
  { intros a Ha Hb. rewrite Hs1 by lia. by apply Rf. }
  apply wpp_bind. apply chars_app in Rs as [Rs Rr']. unfold disjoint_from in Hafar, Hbfar, Htemp, Hafar', Hbfar'.
  apply (enter_name_ok st f p s1).
  - eapply chars_ext; [|exact Rd]. intros a Ha. apply Hs1. lia.
  - done.
  - split; [|by apply no_slash_chars]. apply chars_app. split; [eapply chars_ext; [|exact Rs]; intros a Ha; apply Hs1; lia|].
    apply chars_single. apply lookup_insert_eq.
  - done.
  - rewrite Es1. by apply written_live.
  - lia.
  - unfold disjoint_from. lia.
  - eapply cstring_ext; [|exact Hdotdot]. change (zlen [DOT; DOT]) with 2. intros a Ha. apply Hf1; lia.
  - eapply cstring_ext; [|exact Hdot]. change (zlen [DOT]) with 1. intros a Ha. apply Hf1; lia.
  - intros s' H1 H2 H3. apply wpp_ret. apply HQ. cbv zeta. fold p. destruct Hr as [->|[Hfn [r' ->]]].
    + split_and!; [change (zlen []) with 0 in *; lia|done..|]. intros a Ha Hb. rewrite H3 by done. by apply Hf1.
    + rewrite zlen_cons in *. split; [done| |done| | |lia|lia].
      * cbn [app] in Rr'. apply chars_cons in Rr' as [_ Rr']. fold p in Rr'. eapply chars_ext; [|exact Rr']. intros a Ha.
        rewrite zlen_app in Ha. change (zlen [0]) with 1 in Ha. rewrite H3 by lia. apply Hs1. lia.
      * intros a Ha Hb. rewrite H3 by done. by apply Hf1.
      * pose proof (enter_longer st f). lia.
Qed.

Lemma enter_no_slash st f : no_slash f → Forall no_slash st → Forall no_slash (enter st f).
Proof using Type.
  intros Hf Hst. unfold enter. repeat case_decide; [done|by apply removelast_Forall|]. apply Forall_app. split; [done|]. by apply Forall_cons.
Qed.
Lemma prettify_rounds_ok n : ∀ fuel src st l s (Q : Z → mem → Prop),
  (length l ≤ n)%nat → (length l < fuel)%nat → rounds_at temp src st l s → Forall is_char l → Forall no_slash st →
  (∀ s', chars s' dest (names_text (resolve st l)) → live s' dest cap → zlen (names_text (resolve st l)) + 1 ≤ cap →
     Forall no_slash (resolve st l) →
     (∀ a, ¬ (dest ≤ a < dest + cap) → ¬ (temp ≤ a ≤ src_end) → s' !! a = s0 !! a) → Q (dest + zlen (names_text (resolve st l))) s') →
  wpp (ploop fuel (prettify_round dotdot dot dest src_end) (src, dest + zlen (names_text st))) s Q.
Proof using Hdotdot Hdot Hafar Hbfar Htemp Hafar' Hbfar'.
  induction n as [|n IH]; intros [|fuel] src st l s Q Hn Hfu R Hl Hst HQ; try lia.
  all: destruct (decide (l = [])) as [->|Hne].
  1,3: apply ploop_step; unfold prettify_round; destruct R as [Rd Rs Rl Rf Rr Ra Re]; change (zlen []) with 0 in *;
    rewrite (proj2 (Z.ltb_ge _ _)) by lia; apply wpp_ret; revert HQ; unfold resolve; cbn [fields foldl]; rewrite enter_empty;
    intros HQ; by apply HQ; [..|lia| |].
  { destruct l; [done|simpl in Hn; lia]. }
  destruct (first_name l Hl) as (k & f & r & -> & Hf & Hr). apply ploop_step.
  pose proof R as [_ _ _ _ Rr _ _]. rewrite !zlen_app in Rr. pose proof (zlen_nonneg (replicate k SLASH)). pose proof (enter_longer st f).
  apply (prettify_round_ok src st k f r s); [done..|]. intros s' src' H'. rewrite resolve_slashes in HQ. destruct Hr as [->|[Hfn [r' ->]]].
  - cbv zeta iota in H'. destruct H' as (E & H1 & H2 & H3). rewrite app_nil_r in *. rewrite E. destruct fuel as [|fuel].
    + destruct (replicate k SLASH ++ f) eqn:E'; [done|]. simpl in Hfu. lia.
    + apply ploop_step. unfold prettify_round. rewrite (proj2 (Z.ltb_ge _ _)) by lia. apply wpp_ret.
      rewrite resolve_last in HQ by done. change (zlen []) with 0 in *. apply HQ; [done|done|lia|by apply enter_no_slash|done].
  - rewrite resolve_name in HQ by done. rewrite !length_app in Hn, Hfu. cbn [length] in Hn, Hfu. apply (IH _ _ _ r'); [lia|lia|done| |by apply enter_no_slash|done].
    apply Forall_app in Hl as [_ Hl]. apply Forall_app in Hl as [_ Hl]. by apply Forall_cons in Hl as [_ Hl].
Qed.
End names.

(** ** Joined names *)

(** One slash for several, and none at the end. *)
Fixpoint squeeze (l : list Z) : list Z :=
  match l with
  | [] => []
  | c :: l => if c =? SLASH then match l with [] => [] | d :: _ => if d =? SLASH then squeeze l else SLASH :: squeeze l end
              else c :: squeeze l
  end.
Definition dir_end (isdir : bool) : list Z := if isdir then [SLASH] else [].
Fixpoint unrooted (l : list Z) : list Z :=
  match l with c :: l' => if c =? SLASH then unrooted l' else l | [] => [] end.
(** The text of [paths] joined, [p] the one that is next. *)
Fixpoint joined (isdir : bool) (p : list Z) (paths : list (list Z)) : list Z :=
  match paths with
  | [] => squeeze p ++ dir_end isdir
  | q :: paths => squeeze p ++ SLASH :: joined isdir (unrooted q) paths
  end.

Lemma unrooted_spec l : ∃ n, l = replicate n SLASH ++ unrooted l ∧ hd 0 (unrooted l) ≠ SLASH.
Proof.
  induction l as [|c l (n & E & H)]; [by exists 0%nat|]. cbn [unrooted]. destruct (Z.eqb_spec c SLASH) as [->|Hc]; [|by exists 0%nat].
  exists (S n). split; [|done]. cbn [replicate app]. by rewrite <-E.
Qed.
Lemma squeeze_slashes n l : squeeze (replicate (S n) SLASH ++ l) = squeeze (SLASH :: l).
Proof. induction n as [|n IH]; [done|]. rewrite <-IH. done. Qed.
Lemma squeeze_slash l : l ≠ [] → hd 0 l ≠ SLASH → squeeze (SLASH :: l) = SLASH :: squeeze l.
Proof. destruct l as [|d l]; [done|]. intros _ Hd. cbn [squeeze]. by rewrite (proj2 (Z.eqb_neq d SLASH)). Qed.
Lemma squeeze_char c l : c ≠ SLASH → squeeze (c :: l) = c :: squeeze l.
Proof. intros Hc. cbn [squeeze]. by rewrite (proj2 (Z.eqb_neq c SLASH)). Qed.
Lemma squeeze_chars l : Forall is_char l → Forall is_char (squeeze l).
Proof.
  induction 1 as [|c l Hc Hl IH]; [constructor|]. cbn [squeeze]. destruct (Z.eqb_spec c SLASH) as [->|]; [|by constructor].
  destruct l as [|d l]; [constructor|]. destruct (Z.eqb_spec d SLASH); [done|by constructor].
Qed.
Lemma unrooted_chars l : Forall is_char l → Forall is_char (unrooted l).
Proof. intros H. destruct (unrooted_spec l) as (n & E & _). rewrite E in H. by apply Forall_app in H as [_ H]. Qed.
Lemma joined_chars isdir ps : ∀ p, Forall is_char p → Forall (Forall is_char) ps → Forall is_char (joined isdir p ps).
Proof.
  assert (is_char SLASH) as Hs by (unfold is_char, SLASH; lia).
  induction ps as [|q ps IH]; intros p Hp Hps; cbn [joined]; apply Forall_app; (split; [by apply squeeze_chars|]).
  - destruct isdir; [by apply Forall_singleton|constructor].
  - apply Forall_cons in Hps as [Hq Hps]. constructor; [done|]. apply IH; [by apply unrooted_chars|done].
Qed.

(** *** Walking along them *)

Lemma resolve_nil st : resolve st [] = st.
Proof. unfold resolve. cbn. apply enter_empty. Qed.
Lemma resolve_app st a b : Forall is_char a → resolve st (a ++ SLASH :: b) = resolve (resolve st a) b.
Proof.
  remember (length a) as n eqn:En. assert (length a ≤ n)%nat as Hle by lia. clear En. revert a st Hle.
  induction n as [|n IH]; intros a st Hle Ha.
  - destruct a; [|simpl in Hle; lia]. cbn [app]. by rewrite resolve_slash, resolve_nil.
  - destruct (first_name a Ha) as (k & f & r & -> & Hf & [->|[Hne [r' ->]]]); rewrite <-!app_assoc, !resolve_slashes.
    + cbn [app]. rewrite app_nil_r, resolve_name, (resolve_last st f) by done. done.
    + cbn [app]. rewrite (resolve_name st f (r' ++ SLASH :: b)), (resolve_name st f r') by done. rewrite !length_app in Hle. cbn [length] in Hle. apply IH; [lia|].
      apply Forall_app in Ha as [_ Ha]. apply Forall_app in Ha as [_ Ha]. by apply Forall_cons in Ha as [_ Ha].
Qed.
Lemma resolve_dir st l isdir : Forall is_char l → resolve st (l ++ dir_end isdir) = resolve st l.
Proof. intros Hl. destruct isdir; cbn [dir_end]; [by rewrite resolve_app, resolve_nil|by rewrite app_nil_r]. Qed.
Lemma squeeze_name f r : no_slash f → squeeze (f ++ r) = f ++ squeeze r.
Proof. induction 1 as [|c f [_ Hc] _ IH]; [done|]. cbn [app]. by rewrite squeeze_char, IH. Qed.
Lemma resolve_squeeze l st : Forall is_char l → resolve st (squeeze l) = resolve st l.
Proof.
  remember (length l) as n eqn:En. assert (length l ≤ n)%nat as Hle by lia. clear En. revert l st Hle.
  induction n as [|n IH]; intros l st Hle Hl.
  - by destruct l; [|simpl in Hle; lia].
  - destruct (first_name l Hl) as (k & f & r & E & Hf & Hr).
    assert (resolve st (squeeze l) = resolve st (squeeze (f ++ r))) as ->.
    { rewrite E. destruct k as [|k]; [done|]. rewrite squeeze_slashes. destruct f as [|c f].
      - destruct Hr as [->|[? _]]; done.
      - rewrite squeeze_slash, resolve_slash; [done|done|]. by apply Forall_cons in Hf as [[_ Hc] _]. }
    rewrite E, resolve_slashes, squeeze_name by done. destruct Hr as [->|[Hne [r' ->]]]; [by rewrite !app_nil_r|].
    rewrite E in Hl, Hle. rewrite !length_app in Hle. cbn [length] in Hle.
    apply Forall_app in Hl as [_ Hl]. apply Forall_app in Hl as [_ Hl]. pose proof Hl as [_ Hl']%Forall_cons.
    rewrite (resolve_name _ _ r') by done. destruct (unrooted_spec r') as (j & Ej & Hj).
    set (u := unrooted r') in *. clearbody u. subst r'. apply Forall_app in Hl' as [_ Hu]. rewrite length_app in Hle. destruct (decide (u = [])) as [->|E0].
    + rewrite app_nil_r. replace (SLASH :: replicate j SLASH) with (replicate (S j) SLASH ++ []) by (by rewrite app_nil_r).
      rewrite squeeze_slashes. cbn [squeeze]. rewrite app_nil_r, resolve_last by done.
      by rewrite <-(app_nil_r (replicate j SLASH)), resolve_slashes, resolve_nil.
    + change (SLASH :: replicate j SLASH ++ u) with (replicate (S j) SLASH ++ u).
      rewrite squeeze_slashes, squeeze_slash, resolve_name, resolve_slashes by done. apply IH; [lia|done].
Qed.
Lemma resolve_unrooted st l : resolve st (unrooted l) = resolve st l.
Proof. destruct (unrooted_spec l) as (n & E & _). by rewrite E at 2; rewrite resolve_slashes. Qed.
Lemma resolve_joined isdir ps : ∀ p st, Forall is_char p → Forall (Forall is_char) ps →
  resolve st (joined isdir p ps) = foldl resolve st (p :: ps).
Proof.
  induction ps as [|q ps IH]; intros p st Hp Hps; cbn [joined foldl]; pose proof (squeeze_chars p Hp).
  - by rewrite resolve_dir, resolve_squeeze.
  - apply Forall_cons in Hps as [Hq Hps]. rewrite resolve_app, resolve_squeeze, IH by (done || by apply unrooted_chars).
    cbn [foldl]. by rewrite resolve_unrooted.
Qed.

(** *** Copying and joining *)

Lemma wpp_wr_live p v s (Q : unit → mem → Prop) : (∀ a, a = p → is_Some (s !! a)) → Q tt (written s p [u8 v]) → wpp (wr p v) s Q.
Proof. intros Hl HQ. by apply wpp_wr; [apply Hl|]. Qed.
(** The end of a copy: the slash of a directory and the terminator. *)
Lemma dir_end_written s p isdir : written s p (dir_end isdir ++ [0]) =
  if isdir then <[p + 1 := 0]> (<[p := SLASH]> s) else <[p := 0]> s.
Proof. by destruct isdir. Qed.

Lemma path_copy_fuel buff_end isdir n : ∀ l buff path s (Q : Z → mem → Prop),
  let t := squeeze l ++ dir_end isdir in
  (length (squeeze l) < n)%nat → cstring s path l → live s buff (zlen t + 1) → disjoint_from buff (zlen t + 1) path (zlen l + 1) →
  buff + zlen t + 1 ≤ buff_end → Q (buff + zlen t) (written s buff (t ++ [0])) →
  wpp (ploop n (path_copy_round buff_end isdir) (buff, path)) s Q.
Proof.
  induction n as [|n IH]; intros l buff path s Q t Hn Hs Hl Hd Hb HQ; [lia|]. apply ploop_step. unfold path_copy_round at 1.
  pose proof (zlen_nonneg t). rewrite (proj2 (Z.ltb_lt _ _)) by lia. unfold disjoint_from in Hd.
  assert (∀ c t', t = c :: t' → is_char c → ∀ p' l', cstring s p' l' → path ≤ p' → p' + zlen l' ≤ path + zlen l → t' = squeeze l' ++ dir_end isdir →
    (length (squeeze l') < n)%nat → wpp (wr buff c;; mret (inl (buff + 1, p'))) s (λ r s', match r with inl x' => wpp (ploop n (path_copy_round buff_end isdir) x') s' Q | inr y => Q y s' end)) as Hgo.
  { intros c t' Et Hc p' l' Hs' Hp1 Hp2 Et' Hn'. unfold is_char in Hc. rewrite Et, zlen_cons in *. pose proof (zlen_nonneg t').
    apply wpp_bind, wpp_wr; [apply Hl; lia|]. rewrite u8_id by (unfold byte_ok; lia). apply wpp_ret. rewrite Et' in *. apply (IH l').
    - done.
    - eapply cstring_ext; [|exact Hs']. intros a Ha. apply lookup_insert_ne. lia.
    - intros a Ha. rewrite lookup_insert. case_decide; [by eexists|]. apply Hl. lia.
    - unfold disjoint_from. lia.
    - lia.
    - replace (buff + 1 + zlen (squeeze l' ++ dir_end isdir)) with (buff + (zlen (squeeze l' ++ dir_end isdir) + 1)) by lia. exact HQ. }
  destruct l as [|c l].
  { apply cstring_nil in Hs. rd_char Hs. change (0 =? 0) with true. cbv iota. unfold t in *. cbn [squeeze app] in *. rewrite dir_end_written in HQ.
    destruct isdir; cbn [dir_end] in *.
    - change (zlen [SLASH]) with 1 in *. apply wpp_bind, wpp_bind, wpp_wr; [apply Hl; lia|]. apply wpp_ret.
      apply wpp_bind, wpp_wr; [rewrite lookup_insert; case_decide; [by eexists|apply Hl; lia]|]. by apply wpp_ret.
    - change (zlen []) with 0 in *. rewrite Z.add_0_r in HQ. apply wpp_bind, wpp_ret, wpp_bind, wpp_wr; [apply Hl; lia|]. by apply wpp_ret. }
  pose proof Hs as (H0 & Hc & Hs')%cstring_cons. rd_char H0. rewrite zlen_cons in *. pose proof (zlen_nonneg l).
  assert (c =? 0 = false) as -> by (apply Z.eqb_neq; unfold is_char in Hc; lia). destruct (Z.eqb_spec c SLASH) as [->|Hne].
  2: { apply (Hgo c (squeeze l ++ dir_end isdir)) with (l' := l); [unfold t; by rewrite squeeze_char|done|done|lia|lia|done|].
       rewrite squeeze_char in Hn by done. simpl in Hn. lia. }
  destruct (unrooted_spec l) as (k & E & Hu). set (u := unrooted l) in *. clearbody u. subst l.
  change (SLASH :: replicate k SLASH ++ u) with (replicate (S k) SLASH ++ u) in *. apply cstring_app in Hs as (Hk & _ & Hs).
  assert (zlen (replicate (S k) SLASH) = Z.of_nat k + 1) as Ek by (unfold zlen; rewrite length_replicate; lia). rewrite Ek in Hs.
  pose proof (cstring_hd _ _ _ Hs) as (Hh & Hr & Hz). set (p' := path + (Z.of_nat k + 1)) in *.
  apply wpp_bind, (skip_while_ok _ _ (replicate (S k) SLASH) (hd 0 u)).
  { apply chars_app. split; [done|]. rewrite Ek. by apply chars_single. }
  { by apply Forall_replicate. }
  { by apply Z.eqb_neq. }
  rewrite Ek. fold p'. rd_char Hh. unfold t in *. rewrite squeeze_slashes in *. rewrite zlen_app in *.
  assert (zlen (replicate k SLASH) = Z.of_nat k) as Ek' by (unfold zlen; by rewrite length_replicate). rewrite Ek' in *. destruct (Z.eqb_spec (hd 0 u) 0) as [E0|E0].
  - apply Hz in E0 as ->. change (squeeze [SLASH]) with (@nil Z) in *. cbn [app] in *. rewrite dir_end_written in HQ. destruct isdir; cbn [dir_end] in *.
    + change (zlen []) with 0 in *. change (zlen [SLASH]) with 1 in *. apply wpp_bind, wpp_wr; [apply Hl; lia|]. rewrite (proj2 (Z.ltb_lt _ _)) by lia.
      apply wpp_bind, wpp_wr; [rewrite lookup_insert; case_decide; [by eexists|apply Hl; lia]|]. by apply wpp_ret.
    + change (zlen []) with 0 in *. rewrite Z.add_0_r in HQ. apply wpp_bind, wpp_wr; [apply Hl; lia|]. by apply wpp_ret.
  - assert (u ≠ []) as Hune by (intros ->; done). rewrite squeeze_slash in * by done.
    apply (Hgo SLASH (squeeze u ++ dir_end isdir)) with (l' := u); [done|unfold is_char, SLASH; lia|done|unfold p'; lia|unfold p'; lia|done|].
    simpl in Hn. lia.
Qed.
Lemma cavan_path_copy_ok isdir buff size path l s (Q : Z → mem → Prop) :
  let t := squeeze l ++ dir_end isdir in
  cstring s path l → live s buff (zlen t + 1) → disjoint_from buff (zlen t + 1) path (zlen l + 1) → zlen t < size →
  Q (buff + zlen t) (written s buff (t ++ [0])) → wpp (cavan_path_copy buff size path isdir) s Q.
Proof.
  intros t Hs Hl Hd Hsz HQ. apply (path_copy_fuel _ _ _ l); [|done..|fold t; lia|done].
  unfold t in Hsz. rewrite zlen_app in Hsz. pose proof (zlen_nonneg (dir_end isdir)). unfold bytes_fuel, zlen in *. lia.
Qed.

Lemma skip_slashes_ok q l s (Q : Z → mem → Prop) :
  cstring s q l → (∀ p, cstring s p (unrooted l) → q ≤ p → p + zlen (unrooted l) = q + zlen l → Q p s) → wpp (text_skip_char q SLASH) s Q.
Proof.
  intros Hs HQ. destruct (unrooted_spec l) as (n & E & Hu). set (u := unrooted l) in *. clearbody u. subst l.
  apply cstring_app in Hs as (Hk & _ & Hs). pose proof (cstring_hd _ _ _ Hs) as (Hh & _).
  apply (skip_while_ok _ _ (replicate n SLASH) (hd 0 u)).
  - apply chars_app. split; [done|by apply chars_single].
  - by apply Forall_replicate.
  - by apply Z.eqb_neq.
  - pose proof (zlen_nonneg (replicate n SLASH)). apply HQ; [done|lia|rewrite zlen_app; lia].
Qed.

Lemma load_some (m : list Z) i a : 0 ≤ i → m !! Z.to_nat i = Some a → load m i = Ok a.
Proof.
  intros Hi Ha. pose proof (lookup_lt_Some _ _ _ Ha). rewrite load_in by (unfold zlen; lia). unfold get. by rewrite (list_lookup_total_correct _ _ _ Ha).
Qed.
(** The texts of the names, which are not where they are copied to. *)
Definition texts_at (s : mem) (buff n : Z) : list Z → list (list Z) → Prop :=
  Forall2 (λ p l, cstring s p l ∧ disjoint_from buff n p (zlen l + 1)).
Lemma texts_at_written s buff n ps ls k m t : texts_at s buff n ps ls → zlen t = k → 1 ≤ k → 0 ≤ m → k - 1 + m ≤ n → k ≤ n → 0 < m →
  texts_at (written s buff t) (buff + (k - 1)) m ps ls.
Proof.
  intros H Ht Hk Hm H1 H2 H3. eapply Forall2_impl; [exact H|]. intros p l [Hs Hd]. unfold disjoint_from in *. pose proof (zlen_nonneg l). split; [|lia].
  apply written_cstring; [unfold disjoint_from; lia|done].
Qed.

Section join.
Context (paths : list Z) (isdir : bool) (buff_end : Z).

Lemma joined_cons p q ls : joined isdir p (q :: ls) = squeeze p ++ SLASH :: joined isdir (unrooted q) ls.
Proof using Type. done. Qed.

Lemma join_rounds_ok ls : ∀ n q qs lq i buff p0 s (Q : Z → mem → Prop),
  let t := joined isdir (unrooted lq) ls in
  drop (Z.to_nat i) paths = q :: qs → 0 ≤ i → (length ls < n)%nat → texts_at s buff (zlen t + 1) (q :: qs) (lq :: ls) →
  live s buff (zlen t + 1) → buff + zlen t + 1 ≤ buff_end → Q (buff + zlen t) (written s buff (t ++ [0])) →
  wpp (ploop n (path_join_round buff_end paths (zlen paths)) (buff, i, p0)) s (λ x s', wpp (cavan_path_copy x.1 (buff_end - x.1) x.2 isdir) s' Q).
Proof using Type.
  induction ls as [|lr ls IH]; intros [|n] q qs lq i buff p0 s Q t Hp Hi Hn Ht Hl Hb HQ; try (simpl in Hn; lia); apply ploop_step; unfold path_join_round at 1.
  all: pose proof (zlen_nonneg t); rewrite (proj2 (Z.ltb_lt buff _)) by lia.
  all: assert (paths !! Z.to_nat i = Some q) as Hq by (rewrite <-(Nat.add_0_r (Z.to_nat i)), <-lookup_drop, Hp; done).
  all: assert (length paths = Z.to_nat i + S (length qs))%nat as Hlen by (pose proof (lookup_lt_Some _ _ _ Hq); pose proof (f_equal length Hp) as E; rewrite length_drop in E; simpl in E; lia).
  all: apply wpp_bind, (wpp_lift _ _ _ q); [by apply load_some|].
  all: apply Forall2_cons in Ht as [[Hs Hd] Ht]; apply wpp_bind, (skip_slashes_ok q lq); [done|]; intros p Hsp Hp1 Hp2.
  all: unfold disjoint_from in Hd; pose proof (zlen_nonneg (unrooted lq)).
  - apply Forall2_nil_inv_r in Ht as ->. cbv zeta. rewrite (proj2 (Z.ltb_ge _ _)) by (unfold zlen; simpl in Hlen; lia). apply wpp_ret. cbn [fst snd].
    apply (cavan_path_copy_ok isdir _ _ _ (unrooted lq)); [done|exact Hl| | |exact HQ];
      change (squeeze (unrooted lq) ++ dir_end isdir) with t; [unfold disjoint_from|]; lia.
  - destruct qs as [|r qs]; [by apply Forall2_nil_inv_l in Ht|]. cbv zeta. rewrite (proj2 (Z.ltb_lt _ _)) by (unfold zlen; simpl in Hlen; lia).
    unfold t in *. clear t. rewrite joined_cons in *. set (t := joined isdir (unrooted lr) ls) in *. pose proof (zlen_nonneg t).
    rewrite zlen_app, zlen_cons in *. pose proof (zlen_nonneg (squeeze (unrooted lq))).
    assert (zlen (squeeze (unrooted lq) ++ dir_end true) = zlen (squeeze (unrooted lq)) + 1) as Ez by (by rewrite zlen_app).
    apply wpp_bind, (cavan_path_copy_ok true _ _ _ (unrooted lq)); [done| | | |].
    + eapply live_le; [exact Hl|lia..].
    + unfold disjoint_from. lia.
    + lia.
    + apply wpp_ret. rewrite Ez. apply (IH _ r qs lr).
      * replace (Z.to_nat (i + 1)) with (Z.to_nat i + 1)%nat by lia. by rewrite <-drop_drop, Hp.
      * lia.
      * simpl in Hn. lia.
      * replace (buff + (zlen (squeeze (unrooted lq)) + 1)) with (buff + (zlen (squeeze (unrooted lq)) + 2 - 1)) by lia.
        eapply texts_at_written; [exact Ht|rewrite zlen_app, Ez; change (zlen [0]) with 1; lia|fold t; lia..].
      * fold t. apply written_live. eapply live_le; [exact Hl|lia..].
      * fold t. lia.
      * fold t. rewrite <-Ez at 2. rewrite written_over by (by destruct t). rewrite <-!app_assoc. cbn [dir_end app].
        replace (buff + (zlen (squeeze (unrooted lq)) + 1) + zlen t) with (buff + (zlen (squeeze (unrooted lq)) + (zlen t + 1))) by lia.
        rewrite <-app_assoc in HQ. exact HQ.
Qed.
End join.

Lemma cavan_path_join_ok slash buff size paths l ls isdir s (Q : Z → mem → Prop) :
  let t := joined isdir l ls in
  texts_at s buff (zlen t + 1) paths (l :: ls) → live s buff (zlen t + 1) → zlen t < size →
  Q (buff + zlen t) (written s buff (t ++ [0])) → wpp (cavan_path_join slash buff size paths (zlen paths) isdir) s Q.
Proof.
  intros t Ht Hl Hsz HQ. unfold cavan_path_join. pose proof Ht as Ht'. apply Forall2_cons_inv_r in Ht' as (p & ps & [Hs Hd] & Hps & ->).
  pose proof (Forall2_length _ _ _ Hps) as Hlen. rewrite (proj2 (Z.ltb_lt 0 _)) by (unfold zlen; simpl; lia). cbv zeta.
  apply wpp_bind, (wpp_lift _ _ _ p); [by apply load_some|]. apply wpp_bind. destruct ls as [|l2 ls].
  - apply Forall2_nil_inv_r in Hps as ->. apply wpp_ret. cbv beta iota. apply (cavan_path_copy_ok isdir _ _ _ l); [done|exact Hl|exact Hd|unfold t in Hsz; cbn [joined] in Hsz; lia|exact HQ].
  - destruct ps as [|p2 ps]; [by apply Forall2_nil_inv_l in Hps|]. rewrite (proj2 (Z.ltb_lt _ _)) by (unfold zlen; simpl; lia).
    unfold t in *. clear t. rewrite joined_cons in *. set (t := joined isdir (unrooted l2) ls) in *. pose proof (zlen_nonneg t).
    assert (zlen (squeeze l ++ SLASH :: t) = zlen (squeeze l) + (zlen t + 1)) as Et by (by rewrite zlen_app, zlen_cons).
    rewrite Et in *. clear Et. pose proof (zlen_nonneg (squeeze l)). unfold disjoint_from in Hd.
    assert (zlen (squeeze l ++ dir_end true) = zlen (squeeze l) + 1) as Ez by (by rewrite zlen_app).
    apply wpp_bind, (cavan_path_copy_ok true _ _ _ l); [done| | | |].
    + eapply live_le; [exact Hl|lia..].
    + unfold disjoint_from. lia.
    + lia.
    + rewrite Ez. eapply wpp_mono; [apply (join_rounds_ok (p :: p2 :: ps) isdir (buff + size) ls _ p2 ps l2) with (Q := Q)|intros [b q] s'; cbn [fst snd]; tauto].
      * done.
      * lia.
      * unfold bytes_fuel, zlen. simpl in *. lia.
      * replace (buff + (zlen (squeeze l) + 1)) with (buff + (zlen (squeeze l) + 2 - 1)) by lia.
        eapply texts_at_written; [exact Hps|rewrite zlen_app, Ez; change (zlen [0]) with 1; lia|fold t; lia..].
      * fold t. apply written_live. eapply live_le; [exact Hl|lia..].
      * fold t. lia.
      * fold t. rewrite <-Ez at 2. rewrite written_over by (by destruct t). rewrite <-!app_assoc. cbn [dir_end app].
        replace (buff + (zlen (squeeze l) + 1) + zlen t) with (buff + (zlen (squeeze l) + (zlen t + 1))) by lia.
        rewrite <-app_assoc in HQ. exact HQ.
Qed.

(** ** The two parts of a name *)

(** A loop that goes down [n] bytes and leaves at [stop]. *)
Lemma walk_back {R} (body : Z → prog mem (Z + R)) stop n fuel s (Q : R → mem → Prop) :
  (∀ k, 0 < k ≤ n → wpp (body (stop + k)) s (λ r s', r = inl (stop + k - 1) ∧ s' = s)) →
  wpp (body stop) s (λ r s', match r with inl _ => False | inr y => Q y s' end) → 0 ≤ n → (Z.to_nat n < fuel)%nat →
  wpp (ploop fuel body (stop + n)) s Q.
Proof.
  intros Hb He Hn Hf. apply (wpp_ploop (λ k x s', s' = s ∧ x = stop + Z.of_nat k ∧ Z.of_nat k ≤ n)) with (n := Z.to_nat n); [|split_and!; (done || lia)|done].
  clear Hf. intros k x s' (-> & -> & Hk). destruct k as [|k].
  - rewrite Z.add_0_r. eapply wpp_mono; [exact He|]. by intros [x|y] s'.
  - eapply wpp_mono; [apply Hb; lia|]. intros r s' [-> ->]. exists k. split_and!; (done || lia).
Qed.

Section two_parts.
Context (path : Z) (a f : list Z) (m n : nat) (s : mem).
Let l := a ++ replicate (S m) SLASH ++ f ++ replicate n SLASH.
Hypothesis Hs : cstring s path l.
Hypothesis Ha2 : 2 ≤ zlen a.
Hypothesis Ha : last a ≠ Some SLASH.
Hypothesis Hf : no_slash f.
Hypothesis Hfn : f ≠ [].

Lemma parts_at : chars s path a ∧ chars s (path + zlen a) (replicate (S m) SLASH) ∧ chars s (path + zlen a + Z.of_nat m + 1) f ∧
  chars s (path + zlen a + Z.of_nat m + 1 + zlen f) (replicate n SLASH) ∧ zlen l = zlen a + Z.of_nat m + 1 + zlen f + Z.of_nat n.
Proof using Hs.
  destruct Hs as [Hc _]. apply chars_app in Hc as [Hc _]. unfold l in *. rewrite !zlen_app.
  assert (∀ k, zlen (replicate k SLASH) = Z.of_nat k) as E by (intros k; unfold zlen; by rewrite length_replicate). rewrite !E.
  apply chars_app in Hc as [H1 Hc]. apply chars_app in Hc as [H2 Hc]. apply chars_app in Hc as [H3 H4]. rewrite E in *.
  replace (path + zlen a + Z.of_nat m + 1) with (path + zlen a + Z.of_nat (S m)) by lia. split_and!; [done..|lia].
Qed.
Lemma replicate_at k p q : chars s p (replicate k SLASH) → p ≤ q < p + Z.of_nat k → s !! q = Some SLASH.
Proof using Type.
  intros H Hq. rewrite <-(H (Z.to_nat (q - p)) SLASH) by (apply lookup_replicate; split; [done|lia]). f_equal. lia.
Qed.
Lemma name_at q : path + zlen a + Z.of_nat m + 1 ≤ q < path + zlen a + Z.of_nat m + 1 + zlen f → ∃ c, s !! q = Some c ∧ c ≠ SLASH.
Proof using Hs Hf.
  intros Hq. destruct parts_at as (_ & _ & H & _). set (p := path + zlen a + Z.of_nat m + 1) in *.
  destruct (lookup_lt_is_Some_2 f (Z.to_nat (q - p))) as [c Hc]; [unfold zlen in *; lia|]. exists c. split.
  - rewrite <-(H _ _ Hc). f_equal. lia.
  - by apply (proj1 (Forall_lookup _ _) Hf _ _ Hc).
Qed.
Lemma dir_end_at : ∃ c, s !! (path + zlen a - 1) = Some c ∧ c ≠ SLASH.
Proof using Hs Ha2 Ha.
  destruct parts_at as (H & _). destruct (last a) as [c|] eqn:E; [|by apply last_None in E; rewrite E in Ha2].
  exists c. split; [|congruence]. rewrite last_lookup in E. rewrite <-(H _ _ E). f_equal. unfold zlen in *. lia.
Qed.

Lemma cavan_path_basename_ok buff (Q : Z → mem → Prop) :
  live s buff (zlen f + 1) → disjoint_from buff (zlen f + 1) path (zlen l + 1) →
  Q (buff + zlen f) (written s buff (f ++ [0])) → wpp (cavan_path_basename buff path) s Q.
Proof using Hs Ha2 Ha Hf Hfn.
  intros Hl Hd HQ. unfold cavan_path_basename. destruct parts_at as (P1 & P2 & P3 & P4 & El). pose proof (cstring_size _ _ _ Hs) as Hsz.
  set (p := path + zlen a + Z.of_nat m + 1) in *. apply wpp_bind. eapply text_tail_ok; [exact Hs|]. pose proof (zlen_nonneg f).
  assert (0 < zlen f) by (destruct f; [done|rewrite zlen_cons; pose proof (zlen_nonneg l0); lia]).
  replace (path + zlen l - 1) with (p + zlen f - 1 + Z.of_nat n) by (unfold p; lia). apply wpp_bind. unfold disjoint_from in Hd.
  apply (walk_back _ (p + zlen f - 1)); [| |lia|unfold text_fuel, zlen in *; lia].
  { intros k Hk. assert (s !! (p + zlen f - 1 + k) = Some SLASH) as E by (apply (replicate_at n (p + zlen f)); [done|lia]). rd_char E. by apply wpp_ret. }
  destruct (name_at (p + zlen f - 1)) as (c & E & Hc); [fold p; lia|]. rd_char E. rewrite (proj2 (Z.eqb_neq _ _) Hc). apply wpp_ret. clear c E Hc.
  apply wpp_bind. replace (p + zlen f - 1) with (p - 1 + zlen f) by lia. apply (walk_back _ (p - 1)); [| |lia|unfold bytes_fuel, p; lia].
  { intros k Hk. rewrite (proj2 (Z.leb_le _ _)) by (unfold p; lia). destruct (name_at (p - 1 + k)) as (c & E & Hc); [fold p; lia|]. rd_char E.
    rewrite (proj2 (Z.eqb_neq _ _) Hc). by apply wpp_ret. }
  rewrite (proj2 (Z.leb_le _ _)) by (unfold p; lia). assert (s !! (p - 1) = Some SLASH) as E by (apply (replicate_at (S m) (path + zlen a)); [done|unfold p; lia]).
  rd_char E. apply wpp_ret. apply wpp_bind.
  apply copy_chars_ok with (f := f); rewrite ?Z.sub_add.
  - intros k q Hk. apply Z.leb_le. lia.
  - intros q. apply Z.leb_gt. lia.
  - unfold bytes_fuel, zlen in *. lia.
  - done.
  - by apply is_char_byte, no_slash_chars.
  - eapply live_le; [exact Hl|lia..].
  - unfold disjoint_from, p. lia.
  - apply wpp_bind, wpp_wr; [apply written_live with (n := 1) (q := buff + zlen f); [eapply live_le; [exact Hl|lia..]|lia]|].
    apply wpp_ret. by rewrite written_app in HQ.
Qed.

Lemma cavan_path_dirname_base_ok buff (Q : Z → mem → Prop) :
  live s buff (zlen a + 1) → disjoint_from buff (zlen a + 1) path (zlen l + 1) →
  Q (buff + zlen a) (written s buff (a ++ [0])) → wpp (cavan_path_dirname_base buff path) s Q.
Proof using Hs Ha2 Ha Hf Hfn.
  intros Hl Hd HQ. unfold cavan_path_dirname_base. destruct parts_at as (P1 & P2 & P3 & P4 & El).
  set (p := path + zlen a + Z.of_nat m + 1) in *. apply wpp_bind. eapply text_tail_ok; [exact Hs|]. pose proof (zlen_nonneg f). cbv zeta.
  assert (0 < zlen f) by (destruct f; [done|rewrite zlen_cons; pose proof (zlen_nonneg l0); lia]).
  replace (path + zlen l) with (p + zlen f + Z.of_nat n) by (unfold p; lia). apply wpp_bind. unfold disjoint_from in Hd.
  apply (walk_back _ (p + zlen f)); [| |lia|unfold bytes_fuel, p; lia].
  { intros k Hk. rewrite (proj2 (Z.ltb_lt _ _)) by (unfold p; lia).
    assert (s !! (p + zlen f + k - 1) = Some SLASH) as E by (apply (replicate_at n (p + zlen f)); [done|lia]). rd_char E. by apply wpp_ret. }
  rewrite (proj2 (Z.ltb_lt _ _)) by (unfold p; lia). destruct (name_at (p + zlen f - 1)) as (c & E & Hc); [fold p; lia|]. rd_char E.
  rewrite (proj2 (Z.eqb_neq _ _) Hc). apply wpp_ret. clear c E Hc. apply wpp_bind.
  replace (p + zlen f - 1) with (p - 1 + zlen f) by lia. apply (walk_back _ (p - 1)); [| |lia|unfold bytes_fuel, p; lia].
  { intros k Hk. rewrite (proj2 (Z.ltb_lt _ _)) by (unfold p; lia). destruct (name_at (p - 1 + k)) as (c & E & Hc); [fold p; lia|]. rd_char E.
    rewrite (proj2 (Z.eqb_neq _ _) Hc). by apply wpp_ret. }
  rewrite (proj2 (Z.ltb_lt _ _)) by (unfold p; lia). assert (s !! (p - 1) = Some SLASH) as E by (apply (replicate_at (S m) (path + zlen a)); [done|unfold p; lia]).
  rd_char E. apply wpp_ret. clear E. apply wpp_bind.
  replace (p - 1 - 1) with (path + zlen a - 1 + Z.of_nat m) by (unfold p; lia). apply (walk_back _ (path + zlen a - 1)); [| |lia|unfold bytes_fuel; lia].
  { intros k Hk. rewrite (proj2 (Z.ltb_lt _ _)) by lia.
    assert (s !! (path + zlen a - 1 + k) = Some SLASH) as E by (apply (replicate_at (S m) (path + zlen a)); [done|lia]). rd_char E. by apply wpp_ret. }
  rewrite (proj2 (Z.ltb_lt _ _)) by lia. destruct dir_end_at as (c & E & Hc). rd_char E. rewrite (proj2 (Z.eqb_neq _ _) Hc). apply wpp_ret.
  rewrite (proj2 (Z.eqb_neq _ _)) by lia. apply wpp_bind, wpp_ret, wpp_bind. apply copy_chars_ok with (f := a).
  - intros k q Hk. apply Z.leb_le. lia.
  - intros q. apply Z.leb_gt. lia.
  - unfold bytes_fuel, zlen in *. lia.
  - done.
  - destruct Hs as [_ Hc']. by apply is_char_byte, (Forall_app _ _ _) in Hc' as [Hc' _].
  - eapply live_le; [exact Hl|lia..].
  - unfold disjoint_from. lia.
  - apply wpp_bind, wpp_wr; [apply written_live with (n := 1) (q := buff + zlen a); [eapply live_le; [exact Hl|lia..]|lia]|].
    apply wpp_ret. by rewrite written_app in HQ.
Qed.
End two_parts.

(** ** Properties *)

Lemma names_text_head st : st ≠ [] → hd 0 (names_text st) = SLASH.
Proof. by destruct st. Qed.
Lemma resolve_path_text st : Forall component st → resolve [] (path_text st) = st.
Proof.
  intros H. destruct st as [|f st]; [unfold path_text, resolve; cbn; by rewrite !enter_empty|].
  by apply (names_components (f :: st) H []).
Qed.

(** Where a path that starts with [l] starts from. *)
Definition starts_from (cwd : Z → option (list Z)) (size : Z) (l : list Z) (st : list (list Z)) : Prop :=
  (hd 0 l = SLASH ∧ st = []) ∨ (hd 0 l ≠ SLASH ∧ st ≠ [] ∧ cwd size = Some (names_text st)).

Lemma starting_point_ok cwd size l st dest cap s (Q : option Z → mem → Prop) :
  starts_from cwd size l st → Forall no_slash st → live s dest cap → zlen (names_text st) + 1 ≤ cap → 0 < dest →
  (∀ s', chars s' dest (names_text st) → live s' dest cap → (∀ a, ¬ (dest ≤ a < dest + cap) → s' !! a = s !! a) →
     Q (Some (dest + zlen (names_text st))) s') →
  wpp (if negb (hd 0 l =? SLASH) then
         p ← getcwd cwd dest size;
         if p =? 0 then mret None else dest_path ← text_tail dest; mret (Some dest_path)
       else mret (Some dest)) s Q.
Proof.
  intros [[-> ->]|(Hne & _ & Hcwd)] Hst Hl Hr Hd HQ.
  - change (negb (SLASH =? SLASH)) with false. apply wpp_ret. change (zlen (names_text [])) with 0 in HQ. rewrite Z.add_0_r in HQ.
    apply HQ; [intros i b Hi; done|done|done].
  - rewrite (proj2 (Z.eqb_neq _ _) Hne). cbn [negb]. unfold getcwd. rewrite Hcwd. apply wpp_bind, wpp_bind.
    pose proof (names_text_chars st Hst) as Hc. apply wr_list_ok.
    + rewrite zlen_app. change (zlen [0]) with 1. eapply live_le; [exact Hl|lia..].
    + apply Forall_app. split; [by apply is_char_byte|]. apply Forall_singleton. unfold byte_ok. lia.
    + apply wpp_ret. rewrite (proj2 (Z.eqb_neq dest 0)) by lia.
      assert (cstring (written s dest (names_text st ++ [0])) dest (names_text st)) as Hs by by apply written_cstring_here.
      apply wpp_bind. eapply text_tail_ok; [exact Hs|]. apply wpp_ret. apply HQ.
      * destruct Hs as [Hs _]. by apply chars_app in Hs as [Hs _].
      * by apply written_live.
      * intros a Ha. apply written_out. rewrite zlen_app. change (zlen [0]) with 1. lia.
Qed.

(** The root is written out, and the terminator. *)
Lemma end_path_ok st dest cap s (Q : Z → mem → Prop) :
  chars s dest (names_text st) → live s dest cap → zlen (names_text st) + 1 ≤ cap → 2 ≤ cap → Q dest (written s dest (path_text st ++ [0])) →
  wpp (dest_path ← (if dest + zlen (names_text st) <=? dest then wr dest SLASH;; mret (dest + 1) else mret (dest + zlen (names_text st)));
       wr dest_path 0;; mret dest) s Q.
Proof.
  intros Hc Hl Hr H2 HQ. pose proof (zlen_nonneg (names_text st)). apply wpp_bind. destruct st as [|f st].
  - change (zlen (names_text [])) with 0. rewrite (proj2 (Z.leb_le _ _)) by lia. apply wpp_bind, wpp_wr; [apply Hl; lia|]. apply wpp_ret.
    apply wpp_bind, wpp_wr; [rewrite lookup_insert; case_decide; [by eexists|apply Hl; lia]|]. by apply wpp_ret.
  - rewrite (proj2 (Z.leb_gt _ _)) by (rewrite names_text_cons, zlen_cons; pose proof (zlen_nonneg (f ++ names_text st)); lia).
    apply wpp_ret. apply wpp_bind, wpp_wr; [apply Hl; lia|]. apply wpp_ret.
    rewrite written_app in HQ. unfold path_text in HQ. cbn [written] in HQ. change (u8 0) with 0.
    replace (written s dest (names_text (f :: st))) with s in HQ; [done|]. apply map_eq. intros a. rewrite lookup_written. case_decide; [|done].
    rewrite (chars_lookup s dest (names_text (f :: st))) by done. symmetry. apply list_lookup_lookup_total_lt. unfold zlen in *. lia.
Qed.
Lemma path_text_room st cap : zlen (names_text st) + 1 ≤ cap → 2 ≤ cap → zlen (path_text st) + 1 ≤ cap.
Proof. destruct st; [by intros _|done]. Qed.

(** C21: for a name shorter than 1024 characters (the code copies it
    into that many bytes without a check, path.c:304), from the root or
    relative to a current directory that is not the root (at the root the code
    answers "//a" for "a", path.c:340; [relative_to_the_root] runs it) and that
    [getcwd] gives in [size] bytes as a path of proper components,
    [cavan_path_prettify_base] leaves at [dest_path] the name its argument
    stands for, without empty components, ".", or ".." and from the root: it
    follows the components one after the other from the root, or from the
    current directory, and never leaves the root.  A name of such components is
    not changed when it is treated again.  The name may be treated in place, and
    nothing but the room at [dest_path] is changed; the room must hold the
    current directory, the name and two more bytes, and lie apart from the
    constants "." and ".." of the code. *)
Theorem cavan_path_prettify_base_normalises cwd garbage dotdot dot src dest size cap l st s :
  wf s → cstring s src l → zlen l < 1024 → 0 < dest → live s dest cap →
  starts_from cwd size l st → Forall component st → zlen (names_text st) + zlen l + 2 ≤ cap →
  cstring s dotdot [DOT; DOT] → cstring s dot [DOT] → disjoint_from dest cap dotdot 3 → disjoint_from dest cap dot 2 →
  let names := resolve st l in
  ∃ s', cavan_path_prettify_base cwd garbage dotdot dot src dest size s = Ok (dest, s') ∧
    cstring s' dest (path_text names) ∧ Forall component names ∧ resolve [] (path_text names) = names ∧
    (∀ a, ¬ (dest ≤ a < dest + cap) → s' !! a = s !! a).
Proof.
  intros Hw Hs Hl1024 Hd Hl Hst Hcomp Hroom Hdd Hdot Ha Hb names. pose proof Hs as [_ Hchars].
  assert (Forall component names) as Hnames by by apply resolve_components.
  assert (Forall no_slash st) as Hns by (eapply Forall_impl; [exact Hcomp|]; by intros f (_ & _ & _ & Hf)).
  pose proof (zlen_nonneg l) as Hln. pose proof (zlen_nonneg (names_text st)) as Hrn.
  apply wpp_result. eapply (wpp_mono _ _ (λ r s', r = dest ∧ cstring s' dest (path_text names) ∧ ∀ a, ¬ (dest ≤ a < dest + cap) → s' !! a = s !! a));
    [|intros r s' (H1 & H2 & H3); split_and!; [done..|by apply resolve_path_text|done]].
  apply wpp_with_block; [done|]. intros b s1 (Hb0 & Hw1 & Hlb & Hnone & Hsame).
  assert (∀ p n a, live s p n → p ≤ a < p + n → a < b) as Hlow.
  { intros p n a Hp Hpa. destruct (Z.lt_ge_cases a b); [done|]. destruct (Hp a Hpa) as [c Hc]. rewrite Hnone in Hc by done. done. }
  pose proof (cstring_live _ _ _ Hs) as Ls. pose proof (cstring_live _ _ _ Hdd) as Ldd. pose proof (cstring_live _ _ _ Hdot) as Ldot.
  change (zlen [DOT; DOT]) with 2 in Ldd. change (zlen [DOT]) with 1 in Ldot.
  pose proof (Hlow _ _ (src + zlen l) Ls ltac:(lia)). pose proof (Hlow _ _ (dotdot + 2) Ldd ltac:(lia)).
  pose proof (Hlow _ _ (dot + 1) Ldot ltac:(lia)). pose proof (Hlow _ _ (dest + cap - 1) Hl ltac:(lia)).
  assert (∀ p n, live s p n → live s1 p n) as Hlive.
  { intros p n Hp a Hpa. rewrite Hsame; [by apply Hp|]. pose proof (Hlow p n a Hp Hpa). lia. }
  assert (cstring s1 src l) as Hs1 by (eapply cstring_ext; [|exact Hs]; intros a Hra; apply Hsame; lia).
  apply wpp_bind, (text_copy_ok _ _ l); [done|eapply live_le; [exact Hlb|lia..]|unfold disjoint_from; lia|].
  set (s2 := written s1 b (l ++ [0])).
  assert (cstring s2 b l) as Hs2 by by apply written_cstring_here.
  assert (∀ a, ¬ (b ≤ a ≤ b + zlen l) → s2 !! a = s1 !! a) as Hout.
  { intros a Hra. apply written_out. rewrite zlen_app. change (zlen [0]) with 1. lia. }
  pose proof (cstring_hd _ _ _ Hs2) as (Hhd & _ & _). rd_char Hhd.
  apply wpp_bind. apply (starting_point_ok cwd size l st dest cap); [done|done| |lia|done|].
  { apply written_live. by apply Hlive. }
  intros s3 C3 L3 F3. cbv beta iota.
  apply wpp_bind.
  apply (prettify_rounds_ok dotdot dot dest cap (b + zlen l) s3) with (temp := b) (n := length l) (l := l).
  - eapply cstring_ext; [|exact Hdd]. change (zlen [DOT; DOT]) with 2. intros a Hra. unfold disjoint_from in Ha. rewrite F3, Hout, Hsame by lia. done.
  - eapply cstring_ext; [|exact Hdot]. change (zlen [DOT]) with 1. intros a Hra. unfold disjoint_from in Hb. rewrite F3, Hout, Hsame by lia. done.
  - done.
  - done.
  - unfold disjoint_from. lia.
  - unfold disjoint_from. lia.
  - unfold disjoint_from. lia.
  - done.
  - unfold bytes_fuel, zlen. lia.
  - split; [done| |done|done|lia|lia|lia]. destruct Hs2 as [Hs2 _]. eapply chars_ext; [|exact Hs2]. intros a Hra.
    rewrite zlen_app in Hra. change (zlen [0]) with 1 in Hra. apply F3. lia.
  - done.
  - done.
  - intros s4 C4 L4 R4 N4 F4. fold names in C4, R4, N4 |- *. pose proof (zlen_nonneg (names_text names)).
    assert (∀ a, ¬ (dest ≤ a < dest + cap) → ¬ (b ≤ a < b + 1024) → s4 !! a = s !! a) as F.
    { intros a Ha1 Ha2. rewrite F4, F3, Hout, Hsame by lia. done. }
    apply (end_path_ok names dest cap); [done..|lia|]. intros s7 H7. pose proof (path_text_room names cap R4 ltac:(lia)).
    split_and!; [done| |].
    + eapply cstring_ext; [|apply (written_cstring_here s4 dest (path_text names)), path_text_chars, N4].
      intros a Hra. rewrite H7, decide_False by lia. done.
    + intros a Hra. rewrite H7. case_decide; [by rewrite Hnone by lia|]. rewrite written_out; [by apply F|].
      rewrite zlen_app. change (zlen [0]) with 1. lia.
Qed.

(** The strings "..", "." and a path, and room for the answer. *)
Definition path_store (l : list Z) : mem :=
  written (written (written (written ∅ 1 ([DOT; DOT] ++ [0])) 5 ([DOT] ++ [0])) 10 (l ++ [0])) 1000 (replicate 40 255).
Lemma path_store_ok l : Forall is_char l → zlen l < 900 →
  wf (path_store l) ∧ cstring (path_store l) 10 l ∧ cstring (path_store l) 1 [DOT; DOT] ∧ cstring (path_store l) 5 [DOT] ∧ live (path_store l) 1000 40.
Proof.
  intros Hl Hn. pose proof (zlen_nonneg l). unfold path_store. split_and!.
  - repeat apply written_wf; [intros a b; by rewrite lookup_empty|..].
    1,2: by repeat constructor.
    + apply Forall_app. split; [by apply is_char_byte|by repeat constructor].
    + apply Forall_replicate. done.
  - apply written_cstring; [unfold disjoint_from; lia|]. by apply written_cstring_here.
  - do 3 (apply written_cstring; [unfold disjoint_from; change (zlen [DOT; DOT]) with 2; lia|]). apply written_cstring_here. by repeat constructor.
  - do 2 (apply written_cstring; [unfold disjoint_from; change (zlen [DOT]) with 1; lia|]). apply written_cstring_here. by repeat constructor.
  - change 40 with (zlen (replicate 40 255)). apply chars_live, written_chars.
Qed.

(** "/a/./bc//../d" is "/a/d". *)
Lemma cavan_path_prettify_base_normalises_witness :
  ∃ s', cavan_path_prettify_base (λ _, None) (λ _, 0) 1 5 10 1000 40 (path_store [47; 97; 47; 46; 47; 98; 99; 47; 47; 46; 46; 47; 100]) = Ok (1000, s') ∧
    cstring s' 1000 [47; 97; 47; 100].
Proof.
  set (l := [47; 97; 47; 46; 47; 98; 99; 47; 47; 46; 46; 47; 100]).
  destruct (path_store_ok l) as (Hw & Hs & Ha & Hb & Hl); [by apply is_chars_ok|done|].
  destruct (cavan_path_prettify_base_normalises (λ _, None) (λ _, 0) 1 5 10 1000 40 40 l [] (path_store l)) as (s' & E & H & _);
    [exact Hw|exact Hs|done|done|exact Hl|by left|by constructor|by vm_compute|exact Ha|exact Hb|by right; vm_compute|by right; vm_compute|].
  exists s'. by split.
Defined.

(** [cavan_path_join] writes the joined text, one slash between two names
    whatever slashes they have, and walking along it is walking along the names
    one after the other.  Nothing but the room of the text is changed. *)
Theorem cavan_path_join_walks slash buff size paths l ls isdir s st :
  let t := joined isdir l ls in
  texts_at s buff (zlen t + 1) paths (l :: ls) → live s buff (zlen t + 1) → zlen t < size →
  ∃ s', cavan_path_join slash buff size paths (zlen paths) isdir s = Ok (buff + zlen t, s') ∧
    cstring s' buff t ∧ resolve st t = foldl resolve st (l :: ls) ∧ (∀ a, ¬ (buff ≤ a ≤ buff + zlen t) → s' !! a = s !! a).
Proof.
  intros t Ht Hl Hsz. assert (Forall (Forall is_char) (l :: ls)) as Hc.
  { clear -Ht. induction Ht as [|p l' ps ls' [[_ H] _] _ IH]; by constructor. }
  apply Forall_cons in Hc as [Hc Hcs]. eapply wpp_result, cavan_path_join_ok; [exact Ht|exact Hl|exact Hsz|]. split; [done|].
  split_and!; [by apply written_cstring_here, joined_chars|by apply resolve_joined|].
  intros a Ha. apply written_out. rewrite zlen_app. change (zlen [0]) with 1. fold t. lia.
Qed.
(** "/a/" and "//b" make "/a/b". *)
Lemma cavan_path_join_walks_witness :
  ∃ s', cavan_path_join 0 1000 40 [10; 30] 2 false (written (path_store [47; 97; 47]) 30 ([47; 47; 98] ++ [0])) = Ok (1004, s') ∧ cstring s' 1000 [47; 97; 47; 98].
Proof.
  set (s := written _ _ _).
  destruct (cavan_path_join_walks 0 1000 40 [10; 30] [47; 97; 47] [[47; 47; 98]] false s []) as (s' & E & H & _).
  - destruct (path_store_ok [47; 97; 47]) as (_ & Hs & _); [by apply is_chars_ok|done|]. apply Forall2_cons; split; [|apply Forall2_cons; split; [|by constructor]].
    + split; [|right; vm_compute; discriminate]. apply written_cstring; [right; vm_compute; discriminate|exact Hs].
    + split; [|right; vm_compute; discriminate]. apply written_cstring_here. by apply is_chars_ok.
  - destruct (path_store_ok [47; 97; 47]) as (_ & _ & _ & _ & Hl); [by apply is_chars_ok|done|]. apply written_live. by eapply live_le; [exact Hl|vm_compute..].
  - done.
  - exists s'. by split.
Defined.

(** Of a path that is a directory of at least two characters, slashes, a
    name, and perhaps slashes again, [cavan_path_dirname_base] writes the
    directory and [cavan_path_basename] the name; the path leads where the name
    leads from the directory. *)
Theorem dirname_basename_split path a f m n buff s st :
  let l := a ++ replicate (S m) SLASH ++ f ++ replicate n SLASH in
  cstring s path l → 2 ≤ zlen a → last a ≠ Some SLASH → no_slash f → f ≠ [] →
  live s buff (zlen l + 1) → disjoint_from buff (zlen l + 1) path (zlen l + 1) →
  (∃ s', cavan_path_dirname_base buff path s = Ok (buff + zlen a, s') ∧ cstring s' buff a) ∧
  (∃ s', cavan_path_basename buff path s = Ok (buff + zlen f, s') ∧ cstring s' buff f) ∧
  resolve st l = enter (resolve st a) f.
Proof.
  intros l Hs Ha2 Ha Hf Hfn Hl Hd. destruct (parts_at path a f m n s Hs) as (_ & _ & _ & _ & El). fold l in El.
  pose proof Hs as [_ [Hac _]%Forall_app]. pose proof (zlen_nonneg f). unfold disjoint_from in Hd. split_and!.
  - eapply wpp_result, (cavan_path_dirname_base_ok path a f m n s); [done..| | |].
    + eapply live_le; [exact Hl|lia..].
    + fold l. unfold disjoint_from. lia.
    + split; [done|]. by apply written_cstring_here.
  - eapply wpp_result, (cavan_path_basename_ok path a f m n s); [done..| | |].
    + eapply live_le; [exact Hl|lia..].
    + fold l. unfold disjoint_from. lia.
    + split; [done|]. by apply written_cstring_here, no_slash_chars.
  - unfold l. cbn [replicate app]. rewrite (resolve_app st a (replicate m SLASH ++ f ++ replicate n SLASH) Hac), resolve_slashes.
    destruct n as [|n]; [by rewrite app_nil_r, resolve_last|]. cbn [replicate]. rewrite resolve_name by done.
    by rewrite <-(app_nil_r (replicate n SLASH)), resolve_slashes, resolve_nil.
Qed.
(** "ab//cd/". *)
Lemma dirname_basename_split_witness :
  ∃ s', cavan_path_basename 1000 10 (path_store [97; 98; 47; 47; 99; 100; 47]) = Ok (1002, s') ∧ cstring s' 1000 [99; 100].
Proof.
  destruct (path_store_ok [97; 98; 47; 47; 99; 100; 47]) as (_ & Hs & _ & _ & Hl); [by apply is_chars_ok|done|].
  destruct (dirname_basename_split 10 [97; 98] [99; 100] 1 1 1000 (path_store [97; 98; 47; 47; 99; 100; 47]) []) as (_ & H & _);
    [exact Hs|done|done|by repeat constructor|done|by eapply live_le; [exact Hl|vm_compute..]|by right; vm_compute|exact H].
Defined.

(** ** Where the code does something else *)

(** A directory of one letter is lost: the one of "a/b" is ".". *)
Example dirname_of_one_letter :
  text_at 1000 2 (cavan_path_dirname_base 1000 10 (path_store [97; 47; 98])) = Some [Some 46; Some 0].
Proof. reflexivity. Qed.
(** The base name of "/" and of "" reads the bytes before the text. *)
Example basename_of_the_root :
  cavan_path_basename 1000 10 (path_store [47]) = Undef ∧ cavan_path_basename 1000 10 (path_store []) = Undef.
Proof. split; reflexivity. Qed.
(** Two slashes hide the name from [cavan_path_basename_simple]: of "a//b" it is
    the whole text. *)
Example basename_behind_two_slashes : (λ x, x.1) <$> cavan_path_basename_simple 10 (path_store [97; 47; 47; 98]) = Ok 10.
Proof. reflexivity. Qed.
(** Copying "ab" as a directory into three bytes writes a fourth one. *)
Example copy_past_the_end :
  text_at 1000 4 (cavan_path_copy 1000 3 10 true (path_store [97; 98])) = Some [Some 97; Some 98; Some 47; Some 0].
Proof. reflexivity. Qed.
(** In the root directory the name "a" becomes "//a". *)
Example relative_to_the_root :
  text_at 1000 4 (cavan_path_prettify_base (λ _, Some [47]) (λ _, 0) 1 5 10 1000 40 (path_store [97])) = Some [Some 47; Some 47; Some 97; Some 0].
Proof. vm_compute. reflexivity. Qed.
(** The size of the buffer is only told to [getcwd]: 2 is not enough for "/ab",
    which is written all the same. *)
Example prettify_ignores_the_size :
  text_at 1000 4 (cavan_path_prettify_base (λ _, None) (λ _, 0) 1 5 10 1000 2 (path_store [47; 97; 98])) = Some [Some 47; Some 97; Some 98; Some 0].
Proof. vm_compute. reflexivity. Qed.
