(* ===== verification/Ecc.v ===== *)
(** Ecc: the error correcting code of src/lib/ecc.c for blocks of 256 bytes.

    The table has six parities of the bits of a byte and, as bit 6, the parity
    of all; a block's code are those of the exclusive or of its bytes. *)
From S2P Require Import Prelude.

(** ** Definitions *)

Definition cavan_ecc_table : list Z :=
  [0; 85; 86; 3; 89; 12; 15; 90; 90; 15; 12; 89; 3; 86; 85; 0; 101; 48; 51; 102; 60; 105; 106; 63; 63; 106; 105; 60; 102; 51; 48; 101;
   102; 51; 48; 101; 63; 106; 105; 60; 60; 105; 106; 63; 101; 48; 51; 102; 3; 86; 85; 0; 90; 15; 12; 89; 89; 12; 15; 90; 0; 85; 86; 3;
   105; 60; 63; 106; 48; 101; 102; 51; 51; 102; 101; 48; 106; 63; 60; 105; 12; 89; 90; 15; 85; 0; 3; 86; 86; 3; 0; 85; 15; 90; 89; 12;
   15; 90; 89; 12; 86; 3; 0; 85; 85; 0; 3; 86; 12; 89; 90; 15; 106; 63; 60; 105; 51; 102; 101; 48; 48; 101; 102; 51; 105; 60; 63; 106;
   106; 63; 60; 105; 51; 102; 101; 48; 48; 101; 102; 51; 105; 60; 63; 106; 15; 90; 89; 12; 86; 3; 0; 85; 85; 0; 3; 86; 12; 89; 90; 15;
   12; 89; 90; 15; 85; 0; 3; 86; 86; 3; 0; 85; 15; 90; 89; 12; 105; 60; 63; 106; 48; 101; 102; 51; 51; 102; 101; 48; 106; 63; 60; 105;
   3; 86; 85; 0; 90; 15; 12; 89; 89; 12; 15; 90; 0; 85; 86; 3; 102; 51; 48; 101; 63; 106; 105; 60; 60; 105; 106; 63; 101; 48; 51; 102;
   101; 48; 51; 102; 60; 105; 106; 63; 63; 106; 105; 60; 102; 51; 48; 101; 0; 85; 86; 3; 89; 12; 15; 90; 90; 15; 12; 89; 3; 86; 85; 0].

Definition cavan_ecc_polarity_row (data : Z) : cres Z :=
  count ← loop 9 (λ '(shift, count),
    if shift =? 0 then mret (inr count)
    else mret (inl (u8 (Z.shiftl shift 1), if Z.land data shift =? 0 then count else count + 1))) (1, 0);
  mret (Z.land count 1).
Definition cp_table : list Z := [0x55; 0xaa; 0x33; 0xCC; 0x0F; 0xF0].
Definition cavan_ecc_polarity_column (data : Z) : cres Z :=
  loop 7 (λ '(i, cp),
    if i <? zlen cp_table then
      mask ← load cp_table i;
      p ← cavan_ecc_polarity_row (Z.land data mask);
      mret (inl (i + 1, if p =? 0 then cp else u8 (Z.lor cp (Z.shiftl 1 i))))
    else mret (inr cp)) (0, 0).
Definition cavan_ecc_build_ecc_table (table : list Z) (count : Z) : cres (list Z) :=
  loop (S (Z.to_nat count)) (λ '(i, table),
    if i <? count then
      ecc ← cavan_ecc_polarity_column (u8 i);
      p ← cavan_ecc_polarity_row (u8 i);
      table ← store table i (if p =? 0 then ecc else u8 (Z.lor ecc (Z.shiftl 1 6)));
      mret (inl (i + 1, table))
    else mret (inr table)) (0, table).

(** The parities of the 256 bytes are kept, and not used. *)
Definition cavan_ecc_check_row (garbage buff : list Z) : cres Z :=
  _ ← loop 257 (λ '(i, ecc_rows),
    if i <? 256 then
      b ← load buff i;
      ecc ← load cavan_ecc_table b;
      ecc_rows ← store ecc_rows i (Z.land ecc (Z.shiftl 1 6));
      mret (inl (i + 1, ecc_rows))
    else mret (inr ecc_rows)) (0, garbage);
  mret 0.
Definition cavan_ecc_check_column (buff : list Z) : cres Z :=
  ecc ← load buff 0;
  ecc ← loop 257 (λ '(i, ecc),
    if i <? 256 then b ← load buff i; mret (inl (i + 1, Z.lxor ecc b)) else mret (inr ecc)) (1, ecc);
  v ← load cavan_ecc_table ecc;
  mret (Z.land v 0x3F).
(** [garbage] is what the local array of the rows holds at first. *)
Definition cavan_ecc_check (garbage buff : list Z) (size : Z) : cres Z :=
  if negb (size =? 256) then mret 0
  else
    row ← cavan_ecc_check_row garbage buff;
    column ← cavan_ecc_check_column buff;
    mret (Z.lor (Z.lor row (Z.shiftl column (16 + 2))) (Z.shiftl 0x03 16)).

(** ** The table *)

(** The code of a column of bits with this sum. *)
Definition column_code (data : Z) : Z := Z.land (cavan_ecc_table⟦data⟧) 0x3F.
(** The bit an error is in: the parities of the odd bits, pairs and nibbles. *)
Definition error_bit (syndrome : Z) : Z :=
  Z.b2z (Z.testbit syndrome 1) + 2 * Z.b2z (Z.testbit syndrome 3) + 4 * Z.b2z (Z.testbit syndrome 5).

Definition is_byte_of (b : Z) : Prop := 0 ≤ b < 256.

Lemma table_entry i : 0 ≤ i < 256 →
  (ecc ← cavan_ecc_polarity_column (u8 i); p ← cavan_ecc_polarity_row (u8 i);
   mret (if p =? 0 then ecc else u8 (Z.lor ecc (Z.shiftl 1 6)))) = Ok (cavan_ecc_table⟦i⟧).
Proof.
  intros Hi. apply (check_below_ok 256 (λ i, bool_decide ((ecc ← cavan_ecc_polarity_column (u8 i); p ← cavan_ecc_polarity_row (u8 i);
   mret (if p =? 0 then ecc else u8 (Z.lor ecc (Z.shiftl 1 6)))) = Ok (cavan_ecc_table⟦i⟧)))) in Hi; [|by vm_compute].
  by apply bool_decide_eq_true in Hi.
Qed.
Lemma table_load b : is_byte_of b → load cavan_ecc_table b = Ok (cavan_ecc_table⟦b⟧).
Proof. intros Hb. apply load_in. exact Hb. Qed.
(** The codes are linear: the code of a sum is the sum of the codes. *)
Lemma column_code_lxor x y : is_byte_of x → is_byte_of y → column_code (Z.lxor x y) = Z.lxor (column_code x) (column_code y).
Proof.
  intros Hx Hy. apply (check_below_ok 256 (λ x, check_below 256 (λ y, column_code (Z.lxor x y) =? Z.lxor (column_code x) (column_code y)))) in Hx; [|by vm_compute].
  apply (check_below_ok _ _ _ Hx) in Hy. by apply Z.eqb_eq in Hy.
Qed.
Lemma error_bit_code k : 0 ≤ k < 8 → error_bit (column_code (2 ^ k)) = k.
Proof. intros Hk. apply (check_below_ok 8 (λ k, error_bit (column_code (2 ^ k)) =? k)) in Hk; [|by vm_compute]. by apply Z.eqb_eq. Qed.
Lemma column_code_range b : is_byte_of b → 0 ≤ column_code b < 64.
Proof.
  intros Hb. apply (check_below_ok 256 (λ b, (0 <=? column_code b) && (column_code b <? 64))) in Hb; [|by vm_compute]. lia.
Qed.

(** ** The code of a block *)

Definition column_sum (buff : list Z) : Z := foldr Z.lxor 0 buff.
Lemma column_sum_byte buff : Forall is_byte_of buff → is_byte_of (column_sum buff).
Proof. induction 1 as [|b l Hb _ IH]; [unfold is_byte_of; simpl; lia|]. by apply (lxor_range 8). Qed.
Lemma column_sum_app l k : column_sum (l ++ k) = Z.lxor (column_sum l) (column_sum k).
Proof. induction l as [|b l IH]; [done|]. simpl. rewrite IH. by rewrite Z.lxor_assoc. Qed.
Lemma column_sum_insert buff i v : 0 ≤ i < zlen buff → column_sum (upd buff i (Z.lxor (buff⟦i⟧) v)) = Z.lxor (column_sum buff) v.
Proof.
  intros Hi. unfold upd, get. destruct (lookup_lt_is_Some_2 buff (Z.to_nat i)) as [b Hb]; [unfold zlen in Hi; lia|].
  rewrite (list_lookup_total_correct _ _ _ Hb). rewrite <-(take_drop_middle _ _ _ Hb) at 2. rewrite insert_take_drop by (by eapply lookup_lt_Some).
  rewrite !column_sum_app. cbn [column_sum foldr]. rewrite !Z.lxor_assoc. do 2 f_equal. apply Z.lxor_comm.
Qed.

Section block.
Context (garbage buff : list Z).
Hypothesis Hbuff : zlen buff = 256.
Hypothesis Hbytes : Forall is_byte_of buff.

Lemma buff_byte i : 0 ≤ i < 256 → is_byte_of (buff⟦i⟧).
Proof using Hbuff Hbytes. intros Hi. apply (Forall_lookup_total_1 _ _ _ Hbytes). unfold zlen in Hbuff. lia. Qed.

Lemma check_row_ok (Q : Z → Prop) : zlen garbage = 256 → Q 0 → wp (cavan_ecc_check_row garbage buff) Q.
Proof using Hbuff Hbytes.
  intros Hg HQ. apply wp_bind, (wp_loop (λ '(i, r), 0 ≤ i ≤ 256 ∧ zlen r = 256) _ (λ x, Z.to_nat (256 - x.1))); [|done|simpl; lia].
  intros [i r] [Hi Hr]. destruct (Z.ltb_spec i 256); [|by apply wp_ret].
  pose proof (buff_byte i ltac:(lia)) as Hb. apply wp_bind, wp_load; [lia|]. apply wp_bind. eapply wp_eq; [by apply table_load|].
  apply wp_bind, wp_store; [lia|]. apply wp_ret. cbn [fst]. rewrite zlen_upd. split; [lia|lia].
Qed.
Lemma check_column_ok (Q : Z → Prop) : Q (column_code (column_sum buff)) → wp (cavan_ecc_check_column buff) Q.
Proof using Hbuff Hbytes.
  intros HQ. apply wp_bind, wp_load; [lia|].
  apply wp_bind, (wp_loop (λ '(i, ecc), 1 ≤ i ≤ 256 ∧ ecc = column_sum (take (Z.to_nat i) buff)) _ (λ x, Z.to_nat (256 - x.1))); [| |simpl; lia].
  - intros [i ecc] [Hi ->]. destruct (Z.ltb_spec i 256).
    + apply wp_bind, wp_load; [lia|]. apply wp_ret. cbn [fst]. split; [|lia]. split; [lia|].
      replace (Z.to_nat (i + 1)) with (S (Z.to_nat i)) by lia. unfold get.
      rewrite (take_S_r buff _ (buff !!! Z.to_nat i)), column_sum_app by (apply list_lookup_lookup_total_lt; unfold zlen in *; lia). simpl. by rewrite Z.lxor_0_r.
    + apply wp_ret. rewrite take_ge by (unfold zlen in *; lia). apply wp_bind. eapply wp_eq; [by apply table_load, column_sum_byte|]. by apply wp_ret.
  - split; [lia|]. destruct buff as [|b l]; [done|]. change (b = Z.lxor b 0). by rewrite Z.lxor_0_r.
Qed.
Lemma ecc_check_ok : zlen garbage = 256 →
  cavan_ecc_check garbage buff 256 = Ok (Z.lor (Z.shiftl (column_code (column_sum buff)) 18) (Z.shiftl 3 16)).
Proof using Hbuff Hbytes.
  intros Hg. destruct (proj1 (wp_ok (cavan_ecc_check garbage buff 256) (λ r, r = Z.lor (Z.shiftl (column_code (column_sum buff)) 18) (Z.shiftl 3 16)))) as (r & -> & ->); [|done].
  apply wp_bind, check_row_ok; [done|]. apply wp_bind, check_column_ok. by apply wp_ret.
Qed.
End block.

Lemma upd_bytes buff i k : Forall is_byte_of buff → 0 ≤ i < zlen buff → 0 ≤ k < 8 → Forall is_byte_of (upd buff i (Z.lxor (buff⟦i⟧) (2 ^ k))).
Proof.
  intros Hb Hi Hk. apply Forall_insert; [done|]. apply (lxor_range 8); [lia|apply (Forall_lookup_total_1 _ _ _ Hb); unfold zlen in *; lia|].
  pose proof (Z.pow_lt_mono_r 2 k 8 ltac:(lia) ltac:(lia) ltac:(lia)). pose proof (Z.pow_pos_nonneg 2 k ltac:(lia) ltac:(lia)). lia.
Qed.

(** ** Properties *)

(** [cavan_ecc_build_ecc_table] computes the table of the file, whatever the
    array held. *)
Theorem ecc_table_is_built table : zlen table = 256 → cavan_ecc_build_ecc_table table 256 = Ok cavan_ecc_table.
Proof.
  intros Ht. unfold cavan_ecc_build_ecc_table. change (S (Z.to_nat 256)) with 257%nat.
  match goal with |- ?l = _ => destruct (proj1 (wp_ok l (λ r, r = cavan_ecc_table))) as (r & -> & ->); [|done] end.
  apply (wp_loop (λ '(i, t), 0 ≤ i ≤ 256 ∧ t = take (Z.to_nat i) cavan_ecc_table ++ drop (Z.to_nat i) table) _ (λ x, Z.to_nat (256 - x.1))); [|split; [lia|done]|simpl; lia].
  intros [i t] [Hi ->]. destruct (Z.ltb_spec i 256); [|apply wp_ret; rewrite take_ge, drop_ge, app_nil_r by (unfold zlen in Ht; simpl; lia); done].
  pose proof (table_entry i ltac:(lia)) as E. destruct (cavan_ecc_polarity_column (u8 i)) as [ecc| |]; [|done..]. apply wp_bind. apply wp_ret.
  destruct (cavan_ecc_polarity_row (u8 i)) as [p| |]; [|done..]. apply wp_bind, wp_ret. injection E as E. rewrite E.
  assert (length cavan_ecc_table = 256%nat) as Hl by done. unfold zlen in Ht.
  apply wp_bind, wp_store; [unfold zlen; rewrite length_app, length_take, length_drop; lia|]. apply wp_ret. cbn [fst]. split; [|lia]. split; [lia|].
  unfold upd. replace (Z.to_nat (i + 1)) with (S (Z.to_nat i)) by lia. unfold get.
  rewrite (take_S_r cavan_ecc_table _ (cavan_ecc_table !!! Z.to_nat i)) by (apply list_lookup_lookup_total_lt; lia).
  rewrite insert_app_r_alt by (rewrite length_take; lia). rewrite length_take, Nat.min_l, Nat.sub_diag by lia. rewrite <-app_assoc. f_equal.
  destruct (lookup_lt_is_Some_2 table (Z.to_nat i)) as [c Hc]; [lia|]. by rewrite (drop_S _ _ _ Hc).
Qed.
Lemma ecc_table_is_built_witness : cavan_ecc_build_ecc_table (replicate 256 7) 256 = Ok cavan_ecc_table.
Proof. apply (ecc_table_is_built (replicate 256 7)). reflexivity. Defined.

(** C36: when one bit of a block of 256 bytes is turned over, the code of
    [cavan_ecc_check] changes, and the change tells which bit of its byte it
    was (but not which byte). *)
Theorem cavan_ecc_check_locates_the_bit garbage buff i k :
  zlen garbage = 256 → zlen buff = 256 → Forall is_byte_of buff → 0 ≤ i < 256 → 0 ≤ k < 8 →
  ∃ c c', cavan_ecc_check garbage buff 256 = Ok c ∧
    cavan_ecc_check garbage (upd buff i (Z.lxor (buff⟦i⟧) (2 ^ k))) 256 = Ok c' ∧
    c ≠ c' ∧ error_bit (Z.shiftr (Z.lxor c c') 18) = k.
Proof.
  intros Hg Hn Hb Hi Hk. eexists _, _. split; [by apply ecc_check_ok|]. split; [apply ecc_check_ok; [by rewrite zlen_upd|by apply upd_bytes; [|lia|]|done]|].
  rewrite column_sum_insert by lia. pose proof (column_sum_byte buff Hb) as Hs.
  assert (is_byte_of (2 ^ k)) as Hp.
  { pose proof (Z.pow_lt_mono_r 2 k 8 ltac:(lia) ltac:(lia) ltac:(lia)). pose proof (Z.pow_pos_nonneg 2 k ltac:(lia) ltac:(lia)). split; [lia|]. change 256 with (2 ^ 8). lia. }
  rewrite column_code_lxor by done. set (x := column_code (column_sum buff)). set (y := column_code (2 ^ k)).
  assert (Z.shiftr (Z.lxor (Z.lor (Z.shiftl x 18) (Z.shiftl 3 16)) (Z.lor (Z.shiftl (Z.lxor x y) 18) (Z.shiftl 3 16))) 18 = y) as E.
  { rewrite Z.shiftr_lxor, !Z.shiftr_lor, !Z.shiftr_shiftl_l by lia. change (18 - 18) with 0. rewrite !Z.shiftl_0_r.
    change (Z.shiftr (Z.shiftl 3 16) 18) with 0. rewrite !Z.lor_0_r, <-Z.lxor_assoc, Z.lxor_nilpotent. apply Z.lxor_0_l. }
  rewrite E. split; [|by apply error_bit_code]. intros Ec. rewrite Ec, Z.lxor_nilpotent, Z.shiftr_0_l in E.
  apply (check_below_ok 8 (λ k, negb (column_code (2 ^ k) =? 0))) in Hk; [|by vm_compute]. fold y in Hk. by rewrite <-E in Hk.
Qed.
Lemma cavan_ecc_check_locates_the_bit_witness :
  ∃ c c', cavan_ecc_check (replicate 256 1) (replicate 256 0) 256 = Ok c ∧
    cavan_ecc_check (replicate 256 1) (upd (replicate 256 0) 17 (Z.lxor ((replicate 256 0)⟦17⟧) (2 ^ 5))) 256 = Ok c' ∧
    c ≠ c' ∧ error_bit (Z.shiftr (Z.lxor c c') 18) = 5.
Proof. apply (cavan_ecc_check_locates_the_bit (replicate 256 1) (replicate 256 0) 17 5); [done|done|by apply Forall_replicate|lia|lia]. Defined.

(** The parities of the rows are computed and left out of the code, so an error
    in two bytes at the same bit is not seen. *)
Example two_errors_in_a_column :
  cavan_ecc_check (replicate 256 1) (upd (upd (replicate 256 0) 3 4) 9 4) 256 = cavan_ecc_check (replicate 256 1) (replicate 256 0) 256.
Proof. vm_compute. reflexivity. Qed.
