(* ===== verification/Regex.v ===== *)
(** Regex: the regular expressions of src/lib/regex.c.

    A pattern is compiled into an array of commands and an array of characters,
    and a backtracking matcher runs the commands on a text.  Characters are kept
    as bytes.  A pattern is an array that ends with its terminator; a text is an
    array and its length, as the matcher is given it. *)
From S2P Require Import Prelude Ctype.

(** ** Compiled expressions *)

Definition CAVAN_RE_CMD_MAX : Z := 200.
Definition CAVAN_RE_DATA_MAX : Z := 4096.

Inductive cavan_regex_code_t :=
| CAVAN_RE_NOOP | CAVAN_RE_START | CAVAN_RE_END | CAVAN_RE_HEAD | CAVAN_RE_TAIL | CAVAN_RE_TXT | CAVAN_RE_ANY | CAVAN_RE_DOT
| CAVAN_RE_TIMES | CAVAN_RE_SPACE | CAVAN_RE_NOT_SPACE | CAVAN_RE_DIGIT | CAVAN_RE_NOT_DIGIT | CAVAN_RE_WORD | CAVAN_RE_NOT_WORD
| CAVAN_RE_ARRAY | CAVAN_RE_NOT_ARRAY.
#[export] Instance code_eq_dec : EqDecision cavan_regex_code_t.
Proof. solve_decision. Defined.

(** The numbers of the enumeration that classes inside an array are written
    with. *)
Definition RE_SPACE : Z := 9.
Definition RE_NOT_SPACE : Z := 10.
Definition RE_DIGIT : Z := 11.
Definition RE_NOT_DIGIT : Z := 12.
Definition RE_WORD : Z := 13.
Definition RE_NOT_WORD : Z := 14.

Record cavan_regex_command_t := mk_command { code : cavan_regex_code_t; cdata : Z; clength : Z }.
Record cavan_regex_t := mk_regex { commands : list cavan_regex_command_t; chars : list Z }.
#[export] Instance command_inhabited : Inhabited cavan_regex_command_t := populate (mk_command CAVAN_RE_NOOP 0 0).

Definition set_code (c : cavan_regex_code_t) (x : cavan_regex_command_t) := mk_command c (cdata x) (clength x).
Definition set_cdata (d : Z) (x : cavan_regex_command_t) := mk_command (code x) d (clength x).
Definition set_clength (n : Z) (x : cavan_regex_command_t) := mk_command (code x) (cdata x) n.
(** An assignment to fields of command [i], and to [data[i]]. *)
Definition edit (f : cavan_regex_command_t → cavan_regex_command_t) (r : cavan_regex_t) (i : Z) : cres cavan_regex_t :=
  x ← load (commands r) i; l ← store (commands r) i (f x); mret (mk_regex l (chars r)).
Definition put_char (r : cavan_regex_t) (i c : Z) : cres cavan_regex_t :=
  l ← store (chars r) i c; mret (mk_regex (commands r) l).

(** ** The compiler *)

Definition cavan_regex_build_times (r : cavan_regex_t) (command offset min max : Z) : cres (Z * cavan_regex_t) :=
  x ← load (commands r) command;
  '(command, r) ← (if bool_decide (code x = CAVAN_RE_TXT) && (1 <? clength x) then
      let next := command + 2 in let prev := command in let command := command + 1 in
      r ← edit (set_clength (u16 (clength x - 1))) r prev;
      prev ← load (commands r) prev;
      r ← edit (set_cdata (u16 (cdata prev + clength prev)) ∘ set_code CAVAN_RE_TXT ∘ set_clength 1) r next;
      mret (command, r)
    else r ← edit (λ _, x) r (command + 1); mret (command, r));
  r ← edit (set_clength 2 ∘ set_cdata offset ∘ set_code CAVAN_RE_TIMES) r command;
  r ← put_char r offset min;
  r ← put_char r (offset + 1) max;
  r ← edit (set_code CAVAN_RE_NOOP) r (command + 2);
  mret (command + 2, r).

Definition cavan_regex_add_char (r : cavan_regex_t) (command offset c : Z) : cres (Z * cavan_regex_t) :=
  x ← load (commands r) command;
  '(command, r) ← (if bool_decide (code x = CAVAN_RE_TXT) then mret (command, r)
    else r ← edit (set_clength 0 ∘ set_cdata offset ∘ set_code CAVAN_RE_TXT) r (command + 1); mret (command + 1, r));
  x ← load (commands r) command;
  r ← edit (set_clength (u16 (clength x + 1))) r command;
  r ← put_char r offset c;
  mret (command, r).

(** [\s] and the like inside brackets. *)
Definition array_escape (c : Z) : Z :=
  if c =? 116 then 9 else if c =? 110 then 10 else if c =? 114 then 13 else if c =? 102 then 12
  else if c =? 115 then Z.lor (Z.shiftl 1 7) RE_SPACE else if c =? 83 then Z.lor (Z.shiftl 1 7) RE_NOT_SPACE
  else if c =? 100 then Z.lor (Z.shiftl 1 7) RE_DIGIT else if c =? 68 then Z.lor (Z.shiftl 1 7) RE_NOT_DIGIT
  else if c =? 119 then Z.lor (Z.shiftl 1 7) RE_WORD else if c =? 87 then Z.lor (Z.shiftl 1 7) RE_NOT_WORD
  else c.
(** The characters from [c] up to [end], which is left out. *)
Definition range_loop (e : Z) (c data : Z) (r : cavan_regex_t) : cres (Z * cavan_regex_t) :=
  loop 256 (λ '(c, data, r),
    if schar c <? schar e then r ← put_char r data c; mret (inl (u8 (c + 1), u16 (data + 1), r))
    else mret (inr (data, r))) (c, data, r).
Definition array_round (pattern : list Z) (command : Z) : Z * Z * cavan_regex_t → cres (Z * Z * cavan_regex_t + option (Z * Z * cavan_regex_t)) :=
  λ '(p, data, r),
  let p := p + 1 in
  c ← load pattern p;
  if c =? 0 then mret (inr None)
  else if c =? 93 then mret (inr (Some (p, data, r)))
  else if c =? 94 then
    r ← edit (set_code CAVAN_RE_NOT_ARRAY) r command;
    x ← load (commands r) command;
    mret (inl (p, cdata x, r))
  else if c =? 45 then
    let p := p + 1 in
    e ← load pattern p;
    first ← load pattern (p - 2);
    '(data, r) ← range_loop e (u8 (first + 1)) data r;
    mret (inl (p, data, r))
  else if c =? 92 then
    let p := p + 1 in
    c ← load pattern p;
    r ← put_char r data (array_escape c);
    mret (inl (p, u16 (data + 1), r))
  else r ← put_char r data c; mret (inl (p, u16 (data + 1), r)).

(** What a round of the compiler keeps: the positions in the pattern, in the
    commands and in the characters, and the arrays. *)
Definition single_command (c : cavan_regex_code_t) (p command data : Z) (r : cavan_regex_t) : cres (Z * Z * Z * cavan_regex_t + Z * cavan_regex_t) :=
  r ← edit (set_code c) r (command + 1); mret (inl (p + 1, command + 1, data, r)).
Definition times_command (min max p command data : Z) (r : cavan_regex_t) : cres (Z * Z * Z * cavan_regex_t + Z * cavan_regex_t) :=
  '(command, r) ← cavan_regex_build_times r command data min max; mret (inl (p + 1, command, u16 (data + 2), r)).
Definition char_command (c p command data : Z) (r : cavan_regex_t) : cres (Z * Z * Z * cavan_regex_t + Z * cavan_regex_t) :=
  '(command, r) ← cavan_regex_add_char r command data c; mret (inl (p + 1, command, u16 (data + 1), r)).
Definition array_command (pattern : list Z) (p command data : Z) (r : cavan_regex_t) : cres (Z * Z * Z * cavan_regex_t + Z * cavan_regex_t) :=
  let command := command + 1 in
  r ← edit (set_cdata data ∘ set_code CAVAN_RE_ARRAY) r command;
  res ← loop (S (length pattern)) (array_round pattern command) (p, data, r);
  match res with
  | None => mret (inr (- EINVAL, r))
  | Some (p, data, r) =>
    x ← load (commands r) command;
    r ← edit (set_clength (u16 (data - cdata x))) r command;
    mret (inl (p + 1, command, data, r))
  end.
Definition escape_command (pattern : list Z) (p command data : Z) (r : cavan_regex_t) : cres (Z * Z * Z * cavan_regex_t + Z * cavan_regex_t) :=
  let p := p + 1 in
  c ← load pattern p;
  if c =? 116 then char_command 9 p command data r
  else if c =? 110 then char_command 10 p command data r
  else if c =? 114 then char_command 13 p command data r
  else if c =? 102 then char_command 12 p command data r
  else if c =? 43 then times_command 1 0xFF p command data r
  else if c =? 115 then single_command CAVAN_RE_SPACE p command data r
  else if c =? 83 then single_command CAVAN_RE_NOT_SPACE p command data r
  else if c =? 100 then single_command CAVAN_RE_DIGIT p command data r
  else if c =? 68 then single_command CAVAN_RE_NOT_DIGIT p command data r
  else if c =? 119 then single_command CAVAN_RE_WORD p command data r
  else if c =? 87 then single_command CAVAN_RE_NOT_WORD p command data r
  else char_command c p command data r.
Definition compile_round (pattern : list Z) : Z * Z * Z * cavan_regex_t → cres (Z * Z * Z * cavan_regex_t + Z * cavan_regex_t) :=
  λ '(p, command, data, r),
  c ← load pattern p;
  if c =? 0 then r ← edit (set_code CAVAN_RE_END) r (command + 1); mret (inr (0, r))
  else if c =? 46 then single_command CAVAN_RE_ANY p command data r
  else if c =? 94 then single_command CAVAN_RE_HEAD p command data r
  else if c =? 36 then single_command CAVAN_RE_TAIL p command data r
  else if c =? 42 then times_command 0 0xFF p command data r
  else if c =? 63 then times_command 0 1 p command data r
  else if c =? 40 then mret (inl (p + 1, command, data, r))
  else if c =? 91 then array_command pattern p command data r
  else if c =? 92 then escape_command pattern p command data r
  else char_command c p command data r.
(** [r] is what the caller's arrays hold at first. *)
Definition cavan_regex_compile (r : cavan_regex_t) (pattern : list Z) : cres (Z * cavan_regex_t) :=
  r ← edit (set_code CAVAN_RE_NOOP) r 0;
  loop (S (length pattern)) (compile_round pattern) (0, 0, 0, r).

(** ** The matcher *)

(** [strncmp(a + i, b + j, n) == 0]. *)
Fixpoint strncmp_eq (n : nat) (a : list Z) (i : Z) (b : list Z) (j : Z) : cres bool :=
  match n with
  | O => mret true
  | S n =>
    x ← load a i; y ← load b j;
    if negb (x =? y) then mret false else if x =? 0 then mret true else strncmp_eq n a (i + 1) b (j + 1)
  end.

Definition array_test (c node : Z) : bool :=
  if negb (Z.land node (Z.shiftl 1 7) =? 0) then
    let k := Z.land node 0x7F in
    if k =? RE_SPACE then cavan_isspace c
    else if k =? RE_NOT_SPACE then negb (cavan_isspace c)
    else if k =? RE_DIGIT then cavan_isdigit c
    else if k =? RE_NOT_DIGIT then negb (cavan_isdigit c)
    else if k =? RE_WORD then cavan_isletter c
    else if k =? RE_NOT_WORD then negb (cavan_isletter c)
    else false
  else c =? node.
Definition cavan_regex_match_array (data : list Z) (c array length : Z) : cres bool :=
  loop (S (Z.to_nat length)) (λ a,
    if a <? array + length then
      node ← load data a;
      mret (if array_test c node then inr true else inl (a + 1))
    else mret (inr false)) array.

(** [base cmd count text]: the matcher, which the repetition calls for one
    command and for the rest of the expression. *)
Definition cavan_regex_match_times (base : Z → Z → Z → cres (option Z)) (r : cavan_regex_t) (cmd text : Z) : cres (option Z) :=
  x ← load (commands r) cmd;
  max ← load (chars r) (cdata x + 1);
  min ← load (chars r) (cdata x);
  first ← loop 257 (λ '(text, times),
    if times <? min then
      res ← base (cmd + 1) 1 text;
      mret (match res with Some text => inl (text, u8 (times + 1)) | None => inr None end)
    else mret (inr (Some (text, times)))) (text, 0);
  match first with
  | None => mret None
  | Some (text, times) =>
    matched ← loop 257 (λ '(text, matched, times),
      if times <? max then
        res ← base (cmd + 1) 1 text;
        match res with
        | None => mret (inr matched)
        | Some res =>
          rest ← base (cmd + 2) CAVAN_RE_CMD_MAX res;
          mret (inl (res, if rest is Some _ then res else matched, u8 (times + 1)))
        end
      else mret (inr matched)) (text, text, times);
    mret (Some matched)
  end.

(** One command on a text that has a character left: the next command and the
    rest of the text, or the answer.  [str] is the text, [text] a position. *)
Definition match_round (times : Z → Z → cres (option Z)) (r : cavan_regex_t) (str : list Z) (cmd_end text_bak text_end : Z) :
    Z * Z → cres (Z * Z + (option Z + Z * Z)) := λ '(cmd, text),
  let fails := mret (inr (inl None)) in
  let goes (text : Z) := mret (inl (cmd + 1, text)) in
  let takes (b : Z → bool) := (c ← load str text; if b c : bool then goes (text + 1) else fails) in
  if (cmd <? cmd_end) && (text <? text_end) then
    x ← load (commands r) cmd;
    match code x with
    | CAVAN_RE_NOOP => goes text
    | CAVAN_RE_END => mret (inr (inl (Some text)))
    | CAVAN_RE_HEAD => if negb (text =? text_bak) then fails else goes text
    | CAVAN_RE_TAIL => if text <? text_end then fails else goes text
    | CAVAN_RE_ANY => if text <? text_end then goes (text + 1) else fails
    | CAVAN_RE_TIMES =>
      res ← times cmd text;
      match res with None => fails | Some text => mret (inl (cmd + 1 + 1, text)) end
    | CAVAN_RE_TXT =>
      if text_end - text <? clength x then fails
      else
        same ← strncmp_eq (Z.to_nat (clength x)) str text (chars r) (cdata x);
        if same : bool then goes (text + clength x) else fails
    | CAVAN_RE_SPACE => takes cavan_isspace
    | CAVAN_RE_NOT_SPACE => takes (negb ∘ cavan_isspace)
    | CAVAN_RE_DIGIT => takes cavan_isdigit
    | CAVAN_RE_NOT_DIGIT => takes (negb ∘ cavan_isdigit)
    | CAVAN_RE_WORD => takes cavan_isletter
    | CAVAN_RE_NOT_WORD => takes (negb ∘ cavan_isletter)
    | CAVAN_RE_ARRAY =>
      c ← load str text;
      has ← cavan_regex_match_array (chars r) c (cdata x) (clength x);
      if has : bool then goes (text + 1) else fails
    | CAVAN_RE_NOT_ARRAY =>
      c ← load str text;
      has ← cavan_regex_match_array (chars r) c (cdata x) (clength x);
      if has : bool then fails else goes (text + 1)
    | CAVAN_RE_START | CAVAN_RE_DOT => fails
    end
  else mret (inr (inr (cmd, text))).
(** The commands that are left at the end of the text. *)
Definition finish_round (r : cavan_regex_t) (cmd_end text : Z) (cmd : Z) : cres (Z + option Z) :=
  if cmd <? cmd_end then
    x ← load (commands r) cmd;
    mret (match code x with
          | CAVAN_RE_NOOP => inl (cmd + 1)
          | CAVAN_RE_TAIL | CAVAN_RE_END => inr (Some text)
          | _ => inr None
          end)
  else mret (inr (Some text)).
(** [fuel] bounds the depth of the calls: each starts at a later command. *)
Fixpoint cavan_regex_match_base (fuel : nat) (r : cavan_regex_t) (str : list Z) (text_end cmd count text : Z) : cres (option Z) :=
  match fuel with
  | O => NoFuel
  | S fuel =>
    let cmd_end := cmd + count in
    let times := cavan_regex_match_times (cavan_regex_match_base fuel r str text_end) r in
    res ← loop (S (Z.to_nat count)) (match_round times r str cmd_end text text_end) (cmd, text);
    match res with
    | inl answer => mret answer
    | inr (cmd, text) => loop (S (Z.to_nat count)) (finish_round r cmd_end text) cmd
    end
  end.
Definition cavan_regex_match (r : cavan_regex_t) (str : list Z) (length : Z) : cres bool :=
  res ← cavan_regex_match_base (S (Z.to_nat CAVAN_RE_CMD_MAX)) r str length 0 CAVAN_RE_CMD_MAX 0;
  mret (if res is Some _ then true else false).

(** ** Patterns *)

(** Inside brackets: a character, the characters from one up to but without
    another, or a class. *)
Inductive class := Space | NotSpace | Digit | NotDigit | Word | NotWord.
Inductive element := Char (c : Z) | Range (a b : Z) | Class (k : class).
(** What takes one character. *)
Inductive atom := Is (c : Z) | Any | Of (k : class) | In (es : list element) | NotIn (es : list element).
Inductive quantifier := Once | Star | Plus | Opt.
#[export] Instance quantifier_eq_dec : EqDecision quantifier.
Proof. solve_decision. Defined.
Record pattern := mk_pattern { head : bool; items : list (atom * quantifier); tail : bool }.

Definition in_class (k : class) (c : Z) : bool :=
  match k with
  | Space => cavan_isspace c | NotSpace => negb (cavan_isspace c)
  | Digit => cavan_isdigit c | NotDigit => negb (cavan_isdigit c)
  | Word => cavan_isletter c | NotWord => negb (cavan_isletter c)
  end.
Definition in_element (c : Z) (e : element) : bool :=
  match e with Char x => c =? x | Range a b => (a <=? c) && ((c <? b) || (c =? a)) | Class k => in_class k c end.
Definition takes (a : atom) (c : Z) : bool :=
  match a with
  | Is x => c =? x | Any => true | Of k => in_class k c
  | In es => existsb (in_element c) es | NotIn es => negb (existsb (in_element c) es)
  end.
Definition least (q : quantifier) : Z := match q with Once | Plus => 1 | Star | Opt => 0 end.
Definition most (q : quantifier) : Z := match q with Once | Opt => 1 | Star | Plus => 255 end.

(** The texts that items spell, one after the other; and a text that a pattern
    matches: one that begins so, or is so. *)
Fixpoint spells (l : list (atom * quantifier)) (w : list Z) : Prop :=
  match l with
  | [] => w = []
  | (a, q) :: l => ∃ w1 w2, w = w1 ++ w2 ∧ least q ≤ zlen w1 ≤ most q ∧ Forall (λ c, takes a c = true) w1 ∧ spells l w2
  end.
Definition matches_text (p : pattern) (u : list Z) : Prop :=
  ∃ w rest, u = w ++ rest ∧ spells (items p) w ∧ (tail p = true → rest = []).

(** How a pattern is written. *)
Definition class_char (k : class) : Z :=
  match k with Space => 115 | NotSpace => 83 | Digit => 100 | NotDigit => 68 | Word => 119 | NotWord => 87 end.
Definition special (c : Z) : bool := existsb (Z.eqb c) [46; 94; 36; 42; 63; 40; 91; 92].
Definition write_char (c : Z) : list Z := if special c then [92; c] else [c].
Definition write_element_char (c : Z) : list Z := if existsb (Z.eqb c) [93; 94; 45; 92] then [92; c] else [c].
Definition write_element (e : element) : list Z :=
  match e with Char c => write_element_char c | Range a b => write_element_char a ++ [45; b] | Class k => [92; class_char k] end.
Definition write_elements (es : list element) : list Z := es ≫= write_element.
Definition write_atom (a : atom) : list Z :=
  match a with
  | Is c => write_char c | Any => [46] | Of k => [92; class_char k]
  | In es => 91 :: write_elements es ++ [93] | NotIn es => 91 :: 94 :: write_elements es ++ [93]
  end.
Definition write_quantifier (q : quantifier) : list Z := match q with Once => [] | Star => [42] | Plus => [92; 43] | Opt => [63] end.
Definition write_item (i : atom * quantifier) : list Z := write_atom i.1 ++ write_quantifier i.2.
Definition write_items (l : list (atom * quantifier)) : list Z := l ≫= write_item.
Definition write_pattern (p : pattern) : list Z :=
  (if head p then [94] else []) ++ write_items (items p) ++ (if tail p then [36] else []) ++ [0].

(** What the model asks of a pattern: characters that are not 0, those inside
    brackets in ASCII, and arrays that are large enough. *)
Definition element_ok (e : element) : Prop :=
  match e with Char c => 0 < c < 128 | Range a b => 0 < a < 127 ∧ 0 < b < 128 | Class _ => True end.
Definition atom_ok (a : atom) : Prop :=
  match a with Is c => 0 < c < 256 | In es | NotIn es => Forall element_ok es | _ => True end.
Definition class_number (k : class) : Z :=
  match k with Space => RE_SPACE | NotSpace => RE_NOT_SPACE | Digit => RE_DIGIT | NotDigit => RE_NOT_DIGIT | Word => RE_WORD | NotWord => RE_NOT_WORD end.
Definition element_bytes (e : element) : list Z :=
  match e with Char c => [c] | Range a b => a :: seqZ (a + 1) (b - (a + 1)) | Class k => [128 + class_number k] end.
Definition set_bytes (es : list element) : list Z := es ≫= element_bytes.
Definition atom_bytes (a : atom) : list Z := match a with Is c => [c] | In es | NotIn es => set_bytes es | _ => [] end.
Definition item_bytes (i : atom * quantifier) : Z := zlen (atom_bytes i.1) + match i.2 with Once => 0 | _ => 2 end.
Definition item_cells (i : atom * quantifier) : Z := match i.2 with Once => 1 | _ => 3 end.
Definition total {A} (f : A → Z) (l : list A) : Z := foldr (λ x n, f x + n) 0 l.
Definition pattern_ok (p : pattern) : Prop :=
  Forall (λ i, atom_ok i.1) (items p) ∧
  total item_cells (items p) + 4 ≤ CAVAN_RE_CMD_MAX ∧ total item_bytes (items p) ≤ CAVAN_RE_DATA_MAX.
(** The last item takes a character. *)
Definition ends_firmly (p : pattern) : Prop := ∃ l a q, items p = l ++ [(a, q)] ∧ least q = 1.

(** ** Commands as a language *)

Inductive op := Noop | Head | Tail | End | Txt (l : list Z) | One (a : atom) | Times (q : quantifier) (a : atom).

Definition op_width (o : op) : Z := match o with Times _ _ => 2 | _ => 1 end.
Definition width (l : list op) : Z := total op_width l.
Definition class_code (k : class) : cavan_regex_code_t :=
  match k with Space => CAVAN_RE_SPACE | NotSpace => CAVAN_RE_NOT_SPACE | Digit => CAVAN_RE_DIGIT | NotDigit => CAVAN_RE_NOT_DIGIT | Word => CAVAN_RE_WORD | NotWord => CAVAN_RE_NOT_WORD end.

(** Command [i] has this code and these characters, all below [d]. *)
Record chars_cell (r : cavan_regex_t) (d i : Z) (k : cavan_regex_code_t) (w : list Z) : Prop := {
  cc_code : code ((commands r)⟦i⟧) = k;
  cc_length : clength ((commands r)⟦i⟧) = zlen w;
  cc_data : 0 ≤ cdata ((commands r)⟦i⟧);
  cc_below : cdata ((commands r)⟦i⟧) + zlen w ≤ d;
  cc_chars : ∀ j, 0 ≤ j < zlen w → (chars r)⟦cdata ((commands r)⟦i⟧) + j⟧ = w⟦j⟧ }.
Definition atom_cell (r : cavan_regex_t) (d i : Z) (a : atom) : Prop :=
  match a with
  | Is c => chars_cell r d i CAVAN_RE_TXT [c]
  | Any => code ((commands r)⟦i⟧) = CAVAN_RE_ANY
  | Of k => code ((commands r)⟦i⟧) = class_code k
  | In es => chars_cell r d i CAVAN_RE_ARRAY (set_bytes es)
  | NotIn es => chars_cell r d i CAVAN_RE_NOT_ARRAY (set_bytes es)
  end.
Record times_cell (r : cavan_regex_t) (d i : Z) (q : quantifier) : Prop := {
  tc_code : code ((commands r)⟦i⟧) = CAVAN_RE_TIMES;
  tc_data : 0 ≤ cdata ((commands r)⟦i⟧);
  tc_below : cdata ((commands r)⟦i⟧) + 2 ≤ d;
  tc_min : (chars r)⟦cdata ((commands r)⟦i⟧)⟧ = least q;
  tc_max : (chars r)⟦cdata ((commands r)⟦i⟧) + 1⟧ = most q }.
Definition is_one_char (a : atom) : bool := if a is Is _ then true else false.
Definition op_cells (r : cavan_regex_t) (d i : Z) (o : op) : Prop :=
  match o with
  | Noop => code ((commands r)⟦i⟧) = CAVAN_RE_NOOP
  | Head => code ((commands r)⟦i⟧) = CAVAN_RE_HEAD
  | Tail => code ((commands r)⟦i⟧) = CAVAN_RE_TAIL
  | End => code ((commands r)⟦i⟧) = CAVAN_RE_END
  | Txt w => chars_cell r d i CAVAN_RE_TXT w ∧ w ≠ [] ∧ Forall (λ c, c ≠ 0) w
  | One a => atom_cell r d i a ∧ atom_ok a ∧ is_one_char a = false
  | Times q a => times_cell r d i q ∧ atom_cell r d (i + 1) a ∧ atom_ok a
  end.
(** The commands from the first on; the last one written is at the head. *)
Fixpoint coded (r : cavan_regex_t) (d : Z) (l : list op) : Prop :=
  match l with [] => True | o :: l => op_cells r d (width l) o ∧ coded r d l end.

(** What the compiler does to them. *)
Definition push_char (c : Z) (l : list op) : list op :=
  match l with Txt w :: l => Txt (w ++ [c]) :: l | _ => Txt [c] :: l end.
Definition push_atom (a : atom) (l : list op) : list op := match a with Is c => push_char c l | _ => One a :: l end.
Definition quantified (q : quantifier) (a : atom) (l : list op) : list op :=
  match q with
  | Once => push_atom a l
  | _ => Noop :: Times q a :: l
  end.
Definition op_items (o : op) : list (atom * quantifier) :=
  match o with Txt w => (λ c, (Is c, Once)) <$> w | One a => [(a, Once)] | Times q a => [(a, q)] | _ => [] end.
Fixpoint items_of (l : list op) : list (atom * quantifier) := match l with [] => [] | o :: l => items_of l ++ op_items o end.

(** The arrays have not changed in the first [n] commands and [d] characters. *)
Record kept_below (n d : Z) (r r' : cavan_regex_t) : Prop := {
  k_commands : ∀ i, 0 ≤ i < n → (commands r')⟦i⟧ = (commands r)⟦i⟧;
  k_chars : ∀ i, 0 ≤ i < d → (chars r')⟦i⟧ = (chars r)⟦i⟧ }.
Record sized (r : cavan_regex_t) : Prop := { s_commands : zlen (commands r) = CAVAN_RE_CMD_MAX; s_chars : zlen (chars r) = CAVAN_RE_DATA_MAX }.

Lemma op_width_pos o : 1 ≤ op_width o ≤ 2.
Proof. destruct o; simpl; lia. Qed.
Lemma width_nonneg l : 0 ≤ width l.
Proof. induction l as [|o l IH]; [done|]. unfold width in *. simpl. pose proof (op_width_pos o). lia. Qed.
Lemma width_cons o l : width (o :: l) = op_width o + width l.
Proof. done. Qed.
Lemma width_app l k : width (l ++ k) = width l + width k.
Proof. induction l as [|o l IH]; [done|]. rewrite <-app_comm_cons, !width_cons. lia. Qed.

(** A command that is copied stays what it was. *)
Section copy.
Context (d d' i j : Z) (r r' : cavan_regex_t).
Hypothesis Hc : (commands r')⟦j⟧ = (commands r)⟦i⟧.
Hypothesis Hk : ∀ k, 0 ≤ k < d → (chars r')⟦k⟧ = (chars r)⟦k⟧.
Hypothesis Hd : d ≤ d'.
Lemma chars_cell_copied k w : chars_cell r d i k w → chars_cell r' d' j k w.
Proof using Hc Hk Hd. intros [H1 H2 H3 H4 H5]. rewrite <-Hc in *. split; try done; [lia|]. intros x Hx. rewrite Hk by lia. by apply H5. Qed.
Lemma atom_cell_copied a : atom_cell r d i a → atom_cell r' d' j a.
Proof using Hc Hk Hd. destruct a; simpl; try by apply chars_cell_copied. all: by rewrite Hc. Qed.
Lemma times_cell_copied q : times_cell r d i q → times_cell r' d' j q.
Proof using Hc Hk Hd. intros [H1 H2 H3 H4 H5]. rewrite <-Hc in *. split; [done|done|lia|..]; by rewrite Hk by lia. Qed.
End copy.

Section frame.
Context (n d d' : Z) (r r' : cavan_regex_t) (Hk : kept_below n d r r') (Hd : d ≤ d').
Lemma op_cells_kept i o : 0 ≤ i → i + op_width o ≤ n → op_cells r d i o → op_cells r' d' i o.
Proof using Hk Hd.
  intros Hi Hn. destruct Hk as [Hk1 Hk2]. assert (0 ≤ i < n) as Hi' by (pose proof (op_width_pos o); lia). destruct o; simpl in *; try by rewrite (Hk1 i Hi').
  - intros [H1 H2]. split; [by apply (chars_cell_copied d d' i i r); [apply Hk1| | |]|done].
  - intros [H1 H2]. split; [by apply (atom_cell_copied d d' i i r); [apply Hk1| | |]|done].
  - intros (H1 & H2 & H3). split; [by apply (times_cell_copied d d' i i r); [apply Hk1| | |]|].
    split; [|done]. apply (atom_cell_copied d d' (i + 1) (i + 1) r); [apply Hk1; lia|done..].
Qed.
Lemma coded_kept l : width l ≤ n → coded r d l → coded r' d' l.
Proof using Hk Hd.
  induction l as [|o l IH]; [done|]. rewrite width_cons. intros Hw [Ho Hl]. pose proof (width_nonneg l). pose proof (op_width_pos o). split; [|apply IH; [lia|done]].
  apply op_cells_kept; [done|lia|done].
Qed.
End frame.

(** ** Assignments *)

Lemma wp_edit f r i (Q : cavan_regex_t → Prop) : sized r → 0 ≤ i < CAVAN_RE_CMD_MAX →
  (∀ r', sized r' → (commands r')⟦i⟧ = f ((commands r)⟦i⟧) → (∀ j, 0 ≤ j → j ≠ i → (commands r')⟦j⟧ = (commands r)⟦j⟧) → chars r' = chars r → Q r') →
  wp (edit f r i) Q.
Proof.
  intros [Hs Hc] Hi HQ. apply wp_bind, wp_load; [by rewrite Hs|]. apply wp_bind, wp_store; [by rewrite Hs|]. apply wp_ret. apply HQ; simpl; [|..|done].
  - split; simpl; [by rewrite zlen_upd|done].
  - apply get_upd_eq; lia.
  - intros j Hj Hne. apply get_upd_ne; lia.
Qed.
Lemma wp_put r i c (Q : cavan_regex_t → Prop) : sized r → 0 ≤ i < CAVAN_RE_DATA_MAX →
  (∀ r', sized r' → (chars r')⟦i⟧ = c → (∀ j, 0 ≤ j → j ≠ i → (chars r')⟦j⟧ = (chars r)⟦j⟧) → commands r' = commands r → Q r') →
  wp (put_char r i c) Q.
Proof.
  intros [Hs Hc] Hi HQ. apply wp_bind, wp_store; [by rewrite Hc|]. apply wp_ret. apply HQ; simpl; [|..|done].
  - split; simpl; [done|by rewrite zlen_upd].
  - apply get_upd_eq; lia.
  - intros j Hj Hne. apply get_upd_ne; lia.
Qed.

(** ** What the compiler has written *)

(** After a round: the commands [l] up to [command], the characters below
    [data]; a run of characters can go on. *)
Record compiled (r : cavan_regex_t) (command data : Z) (l : list op) : Prop := {
  co_sized : sized r;
  co_data : 0 ≤ data ≤ CAVAN_RE_DATA_MAX;
  co_width : width l = command + 1;
  co_coded : coded r data l;
  co_last : match l with
            | [] | Times _ _ :: _ => False
            | Txt w :: _ => cdata ((commands r)⟦command⟧) + zlen w = data
            | _ => True
            end }.

Definition is_text (o : op) : bool := if o is Txt _ then true else false.

Lemma data_u16 d : 0 ≤ d ≤ CAVAN_RE_DATA_MAX → u16 d = d.
Proof. intros Hd. apply wrap_small. unfold CAVAN_RE_DATA_MAX in Hd. lia. Qed.

Section compiled.
Context (r : cavan_regex_t) (command data : Z).

Lemma last_is_text l : compiled r command data l → bool_decide (code ((commands r)⟦command⟧) = CAVAN_RE_TXT) = match l with o :: _ => is_text o | [] => false end.
Proof.
  intros [_ _ Hw Hc Hl]. destruct l as [|o l]; [done|]. destruct Hc as [Ho _]. rewrite width_cons in Hw.
  destruct o; try done; simpl in Ho, Hw; replace (width l) with command in Ho by lia; try by rewrite Ho.
  - destruct Ho as [[-> _ _ _ _] _]. done.
  - destruct Ho as (Ho & _ & Ha). destruct a; [done|by rewrite Ho|rewrite Ho; by destruct k|destruct Ho as [-> _ _ _ _]; done..].
Qed.

Lemma single_ok c o p l : compiled r command data l → command + 1 < CAVAN_RE_CMD_MAX → 
  op_width o = 1 → (∀ r d i, code ((commands r)⟦i⟧) = c → op_cells r d i o) → match o with Txt _ | Times _ _ => False | _ => True end →
  wp (single_command c p command data r) (λ res, ∃ r', res = inl (p + 1, command + 1, data, r') ∧ compiled r' (command + 1) data (o :: l)).
Proof.
  intros [Hs Hd Hw Hc Hl] Hcmd Ho Hcell Ht. pose proof (width_nonneg l). apply wp_bind, wp_edit; [done|lia|]. intros r' Hs' Hi Hj Hch. apply wp_ret.
  exists r'. split; [done|]. split; [done|done|rewrite width_cons; lia| |by destruct o].
  split; [apply Hcell; by rewrite Hw, Hi|]. apply (coded_kept (width l) data data r r'); [|lia|lia|done].
  split; [|by rewrite Hch]. intros k Hk. apply Hj; lia.
Qed.

(** A character after a run of them, and after anything else. *)
Lemma char_extends c p w l : compiled r command data (Txt w :: l) → command + 1 < CAVAN_RE_CMD_MAX → data + 1 ≤ CAVAN_RE_DATA_MAX → 0 < c →
  wp (char_command c p command data r) (λ res, ∃ r', res = inl (p + 1, command, data + 1, r') ∧ compiled r' command (data + 1) (Txt (w ++ [c]) :: l)).
Proof.
  intros Hco Hcmd Hroom Hc0. pose proof (last_is_text _ Hco) as Hlast. destruct Hco as [Hs Hd Hw Hc Hl].
  rewrite width_cons in Hw. simpl in Hw. pose proof (width_nonneg l). assert (width l = command) as Hwl by lia.
  assert (zlen (commands r) = CAVAN_RE_CMD_MAX) as Hs1 by apply Hs.
  unfold char_command, cavan_regex_add_char. apply wp_bind, wp_bind, wp_load; [lia|]. rewrite Hlast. apply wp_bind, wp_ret, wp_bind, wp_load; [lia|].
  destruct Hc as [([H1 H2 H3 H4 H5] & Hne & Hnz) Hc]. rewrite Hwl in *.
  apply wp_bind, wp_edit; [done|lia|]. intros r1 Hr1 Hi Hj Hch. apply wp_bind, wp_put; [done|lia|]. intros r2 Hr2 Hp Hpj Hcm. apply wp_ret, wp_ret.
  exists r2. split; [by rewrite data_u16 by lia|].
  assert ((commands r2)⟦command⟧ = set_clength (zlen w + 1) ((commands r)⟦command⟧)) as E.
  { rewrite Hcm, Hi. unfold set_clength. f_equal. rewrite H2. apply data_u16. pose proof (zlen_nonneg w). lia. }
  split; [done|lia|rewrite width_cons; simpl; lia| |rewrite E, zlen_app; change (zlen [c]) with 1; simpl; lia].
  split; [|apply (coded_kept command data (data + 1) r r2); [split; intros k Hk; [rewrite Hcm; apply Hj; lia|rewrite Hpj by lia; by rewrite Hch]|lia|lia|done]].
  simpl. rewrite Hwl. split; [|split; [by destruct w|apply Forall_app; split; [done|apply Forall_singleton; lia]]].
  split; rewrite E; simpl; [done|by rewrite zlen_app|done|rewrite zlen_app; change (zlen [c]) with 1; lia|].
  intros j Hjw. rewrite zlen_app in Hjw. change (zlen [c]) with 1 in Hjw. destruct (decide (j = zlen w)) as [->|].
  - rewrite Hl, Hp, get_app_r by lia. by rewrite Z.sub_diag.
  - rewrite Hpj, Hch, get_app_l by lia. apply H5. lia.
Qed.
Lemma char_starts c p o l : compiled r command data (o :: l) → is_text o = false → command + 1 < CAVAN_RE_CMD_MAX → data + 1 ≤ CAVAN_RE_DATA_MAX → 0 < c →
  wp (char_command c p command data r) (λ res, ∃ r', res = inl (p + 1, command + 1, data + 1, r') ∧ compiled r' (command + 1) (data + 1) (Txt [c] :: o :: l)).
Proof.
  intros Hco Ho Hcmd Hroom Hc0. pose proof (last_is_text _ Hco) as Hlast. simpl in Hlast.
  destruct Hco as [Hs Hd Hw Hc Hl]. assert (0 ≤ command) by (rewrite width_cons in Hw; pose proof (width_nonneg l); pose proof (op_width_pos o); lia).
  assert (zlen (commands r) = CAVAN_RE_CMD_MAX) as Hs1 by apply Hs.
  unfold char_command, cavan_regex_add_char. apply wp_bind, wp_bind, wp_load; [lia|]. rewrite Hlast, Ho. apply wp_bind, wp_bind, wp_edit; [done|lia|]. intros r0 Hr0 Hi0 Hj0 Hch0. apply wp_ret.
  apply wp_bind, wp_load; [destruct Hr0; lia|]. apply wp_bind, wp_edit; [done|lia|]. intros r1 Hr1 Hi Hj Hch. apply wp_bind, wp_put; [done|lia|]. intros r2 Hr2 Hp Hpj Hcm. apply wp_ret, wp_ret.
  exists r2. split; [by rewrite data_u16 by lia|].
  assert ((commands r2)⟦command + 1⟧ = mk_command CAVAN_RE_TXT data 1) as E by (rewrite Hcm, Hi, Hi0; done).
  split; [done|lia|rewrite (width_cons (Txt [c])), Hw; simpl; lia| |by rewrite E].
  split; [|apply (coded_kept (command + 1) data (data + 1) r r2); [|lia|lia|done]].
  - rewrite Hw. simpl. split; [|split; [done|apply Forall_singleton; lia]].
    split; rewrite E; simpl; [done|done|lia|change (zlen [c]) with 1; lia|]. intros j Hjw. change (zlen [c]) with 1 in Hjw. replace j with 0 by lia. by rewrite Z.add_0_r, Hp.
  - split; intros k Hk; [rewrite Hcm, Hj, Hj0 by lia; done|rewrite Hpj, Hch, Hch0 by lia; done].
Qed.
Lemma char_ok c p l : compiled r command data l → command + 1 < CAVAN_RE_CMD_MAX → data + 1 ≤ CAVAN_RE_DATA_MAX → 0 < c →
  wp (char_command c p command data r) (λ res, ∃ command' r', res = inl (p + 1, command', data + 1, r') ∧ compiled r' command' (data + 1) (push_char c l)).
Proof.
  intros Hco Hcmd Hroom Hc0. destruct l as [|o l]; [by destruct (co_last _ _ _ _ Hco)|]. destruct (is_text o) eqn:Ho.
  - destruct o as [| | | |w| |]; try done. eapply wp_mono; [by apply char_extends|]. intros res (r' & -> & H). by exists command, r'.
  - eapply wp_mono; [by apply char_starts|]. intros res (r' & -> & H). exists (command + 1), r'. split; [done|]. by destruct o.
Qed.
End compiled.

(** ** Repetitions *)

Lemma write_times_ok r c d min max (Q : Z * cavan_regex_t → Prop) : sized r → 0 ≤ c → c + 2 < CAVAN_RE_CMD_MAX → 0 ≤ d → d + 2 ≤ CAVAN_RE_DATA_MAX →
  (∀ r', sized r' → (commands r')⟦c⟧ = mk_command CAVAN_RE_TIMES d 2 → code ((commands r')⟦c + 2⟧) = CAVAN_RE_NOOP →
    (∀ j, 0 ≤ j → j ≠ c → j ≠ c + 2 → (commands r')⟦j⟧ = (commands r)⟦j⟧) →
    (chars r')⟦d⟧ = min → (chars r')⟦d + 1⟧ = max → (∀ j, 0 ≤ j < d → (chars r')⟦j⟧ = (chars r)⟦j⟧) → Q (c + 2, r')) →
  wp (r ← edit (set_clength 2 ∘ set_cdata d ∘ set_code CAVAN_RE_TIMES) r c;
      r ← put_char r d min; r ← put_char r (d + 1) max;
      r ← edit (set_code CAVAN_RE_NOOP) r (c + 2); mret (c + 2, r)) Q.
Proof.
  intros Hs Hc Hcr Hd Hdr HQ. apply wp_bind, wp_edit; [done|lia|]. intros r1 S1 E1 K1 C1. apply wp_bind, wp_put; [done|lia|]. intros r2 S2 E2 K2 C2.
  apply wp_bind, wp_put; [done|lia|]. intros r3 S3 E3 K3 C3. apply wp_bind, wp_edit; [done|lia|]. intros r4 S4 E4 K4 C4. apply wp_ret. apply HQ.
  - done.
  - rewrite K4, C3, C2, E1 by lia. done.
  - by rewrite E4.
  - intros j Hj Hjc Hjn. by rewrite K4, C3, C2, K1 by lia.
  - by rewrite C4, K3, E2 by lia.
  - by rewrite C4, E3.
  - intros j Hj. by rewrite C4, K3, K2, C1 by lia.
Qed.

Section repeat.
Context (r : cavan_regex_t) (command data : Z) (q : quantifier).
Hypothesis Hroom : data + 2 ≤ CAVAN_RE_DATA_MAX.

(** The item before is a command of its own. *)
Lemma times_one p a o l : compiled r command data (o :: l) → command + 2 < CAVAN_RE_CMD_MAX → op_width o = 1 → atom_cell r data command a → atom_ok a →
  (∀ w, o = Txt w → zlen w = 1) →
  wp (times_command (least q) (most q) p command data r) (λ res, ∃ r', res = inl (p + 1, command + 2, data + 2, r') ∧ compiled r' (command + 2) (data + 2) (Noop :: Times q a :: l)).
Proof using Hroom.
  intros Hco Hcmd Ho Ha Hok Hw1. pose proof (last_is_text _ _ _ _ Hco) as Hlast. simpl in Hlast. destruct Hco as [Hs Hd Hw Hc Hl]. rewrite width_cons, Ho in Hw. pose proof (width_nonneg l).
  assert (zlen (commands r) = CAVAN_RE_CMD_MAX) as Hs1 by apply Hs. assert (width l = command) as Hwl by lia.
  unfold times_command, cavan_regex_build_times. apply wp_bind, wp_bind, wp_load; [lia|]. rewrite Hlast. apply wp_bind.
  assert (is_text o && (1 <? clength (commands r)⟦command⟧) = false) as ->.
  { destruct o as [| | | |w| |]; try done. destruct Hc as [[[_ Hlen _ _ _] _] _]. rewrite Hwl in Hlen. rewrite Hlen, (Hw1 w eq_refl). done. }
  apply wp_bind, wp_edit; [done|lia|]. intros r1 S1 E1 K1 C1. apply wp_ret. apply write_times_ok; [done|lia..|]. intros r2 S2 E2 N2 K2 Mi Ma C2. apply wp_ret.
  exists r2. split; [by rewrite data_u16 by lia|]. split; [done|lia|rewrite !width_cons; simpl; lia| |done].
  split; [|split; [|apply (coded_kept command data (data + 2) r r2); [|lia|lia|by destruct Hc]]].
  - rewrite width_cons, Hwl. simpl. by replace (2 + command) with (command + 2) by lia.
  - rewrite Hwl. split; [|split; [|done]].
    + split; rewrite E2; simpl; [done|lia|lia|done|done].
    + apply (atom_cell_copied data (data + 2) command _ r); [by rewrite K2, E1 by lia|intros k Hk; by rewrite C2, C1 by lia|lia|done].
  - split; intros k Hk; [by rewrite K2, K1 by lia|by rewrite C2, C1 by lia].
Qed.
(** The item before is the last character of a longer run: the run is cut. *)
Lemma times_cut p c w l : compiled r command data (Txt (w ++ [c]) :: l) → w ≠ [] → command + 3 < CAVAN_RE_CMD_MAX → 0 < c < 256 →
  wp (times_command (least q) (most q) p command data r) (λ res, ∃ r', res = inl (p + 1, command + 3, data + 2, r') ∧ compiled r' (command + 3) (data + 2) (Noop :: Times q (Is c) :: Txt w :: l)).
Proof using Hroom.
  intros Hco Hne Hcmd Hc0. pose proof (last_is_text _ _ _ _ Hco) as Hlast. simpl in Hlast. destruct Hco as [Hs Hd Hw Hc Hl]. rewrite width_cons in Hw. simpl in Hw. pose proof (width_nonneg l).
  assert (zlen (commands r) = CAVAN_RE_CMD_MAX) as Hs1 by apply Hs. assert (width l = command) as Hwl by lia.
  destruct Hc as [([H1 H2 H3 H4 H5] & _ & Hnz) Hc]. rewrite Hwl in *. rewrite zlen_app in *. change (zlen [c]) with 1 in *. assert (1 ≤ zlen w) as Hwl1 by (destruct w; [done|rewrite zlen_cons; pose proof (zlen_nonneg w); lia]).
  unfold times_command, cavan_regex_build_times. apply wp_bind, wp_bind, wp_load; [lia|]. rewrite Hlast, H2, (proj2 (Z.ltb_lt 1 _)) by lia. apply wp_bind. simpl andb. cbv iota beta.
  apply wp_bind, wp_edit; [done|lia|]. intros r1 S1 E1 K1 C1. apply wp_bind, wp_load; [destruct S1; lia|]. apply wp_bind, wp_edit; [done|lia|]. intros r2 S2 E2 K2 C2. apply wp_ret.
  rewrite Z.add_simpl_r, data_u16 in E1 by (unfold CAVAN_RE_DATA_MAX in *; lia).
  assert ((commands r2)⟦command + 2⟧ = mk_command CAVAN_RE_TXT (cdata (commands r)⟦command⟧ + zlen w) 1) as E2'.
  { rewrite E2, E1. simpl. unfold set_cdata, set_code, set_clength, compose. simpl. by rewrite data_u16 by lia. }
  apply write_times_ok; [done|lia..|]. intros r3 S3 E3 N3 K3 Mi Ma C3. replace (command + 1 + 2) with (command + 3) in * by lia. apply wp_ret.
  exists r3. split; [by rewrite data_u16 by lia|]. split; [done|lia|rewrite !width_cons; simpl; lia| |done].
  split; [|split; [|split; [|apply (coded_kept command data (data + 2) r r3); [|lia|lia|done]]]].
  - rewrite !width_cons, Hwl. simpl. by replace (2 + (1 + command)) with (command + 3) by lia.
  - rewrite width_cons, Hwl. simpl. replace (1 + command) with (command + 1) by lia. split; [|split; [|lia]].
    + split; rewrite E3; simpl; [done|lia|lia|done|done].
    + replace (command + 1 + 1) with (command + 2) by lia. split; rewrite K3, E2' by lia; simpl; [done|done|lia|change (zlen [c]) with 1; lia|].
      change (zlen [c]) with 1. intros j Hj. replace j with 0 by lia. rewrite C3, C2, C1, Z.add_0_r, H5, get_app_r, Z.sub_diag by lia. done.
  - rewrite Hwl. simpl. apply Forall_app in Hnz as [Hnz _]. split; [|done]. split; rewrite K3, K2, E1 by lia; simpl; [done|done|done|lia|].
    intros j Hj. rewrite C3, C2, C1, H5, get_app_l by lia. done.
  - split; intros k Hk; [by rewrite K3, K2, K1 by lia|by rewrite C3, C2, C1 by lia].
Qed.
End repeat.

(** ** Brackets *)

(** The pattern has the characters [w] from position [p] on. *)
Definition from (pat : list Z) (p : Z) (w : list Z) : Prop := 0 ≤ p ∧ drop (Z.to_nat p) pat = w.
Lemma from_load pat p c w : from pat p (c :: w) → load pat p = Ok c ∧ from pat (p + 1) w.
Proof.
  intros [Hp Hd]. assert (pat !! Z.to_nat p = Some c) as Hc by (rewrite <-(Nat.add_0_r (Z.to_nat p)), <-lookup_drop, Hd; done).
  split.
  - rewrite load_in by (apply lookup_lt_Some in Hc; unfold zlen; lia). unfold get. by rewrite (list_lookup_total_correct _ _ _ Hc).
  - split; [lia|]. replace (Z.to_nat (p + 1)) with (Z.to_nat p + 1)%nat by lia. by rewrite <-drop_drop, Hd.
Qed.
Lemma from_app pat p v w : from pat p (v ++ w) → from pat (p + zlen v) w.
Proof.
  intros [Hp Hd]. unfold zlen. split; [lia|]. replace (Z.to_nat (p + Z.of_nat (length v))) with (Z.to_nat p + length v)%nat by lia.
  rewrite <-drop_drop, Hd. by rewrite drop_app_length.
Qed.

(** The bytes [w] are added to the characters at [d], and nothing else. *)
Record wrote (r r' : cavan_regex_t) (d : Z) (w : list Z) : Prop := {
  wr_sized : sized r';
  wr_commands : commands r' = commands r;
  wr_chars : ∀ j, 0 ≤ j < zlen w → (chars r')⟦d + j⟧ = w⟦j⟧;
  wr_kept : ∀ j, 0 ≤ j < d → (chars r')⟦j⟧ = (chars r)⟦j⟧ }.
Lemma wrote_app r1 r2 r3 d v w : 0 ≤ d → wrote r1 r2 d v → wrote r2 r3 (d + zlen v) w → wrote r1 r3 d (v ++ w).
Proof.
  intros Hd [S1 M1 C1 K1] [S2 M2 C2 K2]. pose proof (zlen_nonneg v). split; [done|by rewrite M2| |intros j Hj; by rewrite K2, K1 by lia].
  intros j Hj. rewrite zlen_app in Hj. destruct (decide (j < zlen v)).
  - rewrite K2, get_app_l by lia. apply C1. lia.
  - rewrite get_app_r by lia. rewrite <-C2 by lia. f_equal. lia.
Qed.
Lemma wp_wrote r d c (Q : cavan_regex_t → Prop) : sized r → 0 ≤ d < CAVAN_RE_DATA_MAX → (∀ r', wrote r r' d [c] → Q r') → wp (put_char r d c) Q.
Proof.
  intros Hs Hd HQ. apply wp_put; [done..|]. intros r' S E K C. apply HQ. split; [done|done| |intros j Hj; apply K; lia].
  change (zlen [c]) with 1. intros j Hj. replace j with 0 by lia. by rewrite Z.add_0_r, E.
Qed.

Lemma schar_small c : 0 ≤ c < 128 → schar c = c.
Proof. intros Hc. unfold schar, swrap. cbv zeta. rewrite wrap_small by lia. change (2 ^ (8 - 1)) with 128. destruct (Z.ltb_spec c 128); lia. Qed.
Lemma range_ok b r d : 0 < b < 128 → sized r → ∀ a, 0 < a < 128 → 0 ≤ d → d + zlen (seqZ a (b - a)) ≤ CAVAN_RE_DATA_MAX →
  wp (range_loop b a d r) (λ '(d', r'), d' = d + zlen (seqZ a (b - a)) ∧ wrote r r' d (seqZ a (b - a))).
Proof.
  intros Hb Hs a Ha Hd Hroom. unfold range_loop.
  apply (wp_loop (λ '(c, d', r'), ∃ w, 0 < c ≤ 128 ∧ (a ≤ b → c ≤ b) ∧ (b < a → c = a) ∧ seqZ a (b - a) = w ++ seqZ c (b - c) ∧ d' = d + zlen w ∧ wrote r r' d w) _ (λ x, Z.to_nat (b - x.1.1))).
  - intros [[c d'] r'] (w & Hc & Hcb & Hca & Hw & -> & Hwr). rewrite (schar_small b) by lia. rewrite Hw, zlen_app in Hroom. pose proof (zlen_nonneg w).
    assert (c < 128) as Hc128 by (destruct (Z.le_gt_cases a b); [lia|rewrite Hca; lia]).
    rewrite (schar_small c) by lia. destruct (Z.ltb_spec c b).
    + assert (seqZ c (b - c) = c :: seqZ (c + 1) (b - (c + 1))) as E by (rewrite seqZ_cons by lia; f_equal; f_equal; lia).
      rewrite E in Hroom, Hw. rewrite zlen_cons in Hroom. pose proof (zlen_nonneg (seqZ (c + 1) (b - (c + 1)))).
      apply wp_bind, wp_wrote; [apply Hwr|lia|]. intros r2 Hr2. apply wp_ret. cbn [fst].
      rewrite (wrap_small 8 (c + 1)) by lia. rewrite data_u16 by lia. split; [|lia].
      exists (w ++ [c]). split; [lia|]. split; [lia|]. split; [lia|]. split; [by rewrite <-app_assoc|].
      split; [rewrite zlen_app; change (zlen [c]) with 1; lia|]. by apply (wrote_app r r').
    + apply wp_ret. rewrite Hw, (seqZ_nil c) by lia. by rewrite app_nil_r.
  - exists []. split; [lia|]. split; [lia|]. split; [done|]. split; [done|]. split; [change (zlen []) with 0; lia|]. split; [done|done| |done]. change (zlen []) with 0. lia.
  - simpl. lia.
Qed.

Section brackets.
Context (pat : list Z) (command : Z).

(** An element of the brackets: its characters are read and its bytes written. *)
Lemma plain_round p d r c w : sized r → 0 ≤ d < CAVAN_RE_DATA_MAX → from pat (p + 1) (c :: w) → existsb (Z.eqb c) [0; 93; 94; 45; 92] = false →
  wp (array_round pat command (p, d, r)) (λ res, ∃ r', res = inl (p + 1, d + 1, r') ∧ wrote r r' d [c]).
Proof.
  intros Hs Hd Hf Hc. apply from_load in Hf as [Hl _]. simpl in Hc. rewrite !orb_false_iff in Hc. destruct Hc as (H0 & H1 & H2 & H3 & H4 & _).
  unfold array_round. rewrite Hl. apply wp_bind, wp_ret. rewrite H0, H1, H2, H3, H4. apply wp_bind, wp_wrote; [done|lia|]. intros r' Hr'. apply wp_ret.
  exists r'. split; [|done]. rewrite data_u16 by lia. done.
Qed.
Lemma escape_round p d r c w : sized r → 0 ≤ d < CAVAN_RE_DATA_MAX → from pat (p + 1) (92 :: c :: w) →
  wp (array_round pat command (p, d, r)) (λ res, ∃ r', res = inl (p + 2, d + 1, r') ∧ wrote r r' d [array_escape c]).
Proof.
  intros Hs Hd Hf. apply from_load in Hf as [Hl [Hl2 _]%from_load].
  unfold array_round. rewrite Hl. apply wp_bind, wp_ret. simpl Z.eqb. cbv iota. rewrite Hl2. apply wp_bind, wp_ret. apply wp_bind, wp_wrote; [done|lia|]. intros r' Hr'. apply wp_ret.
  exists r'. split; [|done]. rewrite data_u16 by lia. by replace (p + 1 + 1) with (p + 2) by lia.
Qed.
Lemma range_round p d r a b w : sized r → 0 ≤ d → from pat p (a :: 45 :: b :: w) → 0 < a < 127 → 0 < b < 128 → d + zlen (seqZ (a + 1) (b - (a + 1))) ≤ CAVAN_RE_DATA_MAX →
  wp (array_round pat command (p, d, r)) (λ res, ∃ r', res = inl (p + 2, d + zlen (seqZ (a + 1) (b - (a + 1))), r') ∧ wrote r r' d (seqZ (a + 1) (b - (a + 1)))).
Proof.
  intros Hs Hd Hf Ha Hb Hroom. apply from_load in Hf as [Hl0 [Hl [Hl2 _]%from_load]%from_load].
  unfold array_round. rewrite Hl. apply wp_bind, wp_ret. simpl Z.eqb. cbv iota. rewrite Hl2. apply wp_bind, wp_ret. replace (p + 1 + 1 - 2) with p by lia. rewrite Hl0. apply wp_bind, wp_ret.
  rewrite wrap_small by lia. apply wp_bind. eapply wp_mono; [apply range_ok; [done|done|lia|done|done]|]. intros [d' r'] [-> Hr']. apply wp_ret. exists r'. split; [|done]. by replace (p + 1 + 1) with (p + 2) by lia.
Qed.

(** The rounds that read [s] and write [w], whatever follows them. *)
Definition adds (s w : list Z) : Prop := ∀ rest n p d r Q,
  sized r → 0 ≤ d → d + zlen w ≤ CAVAN_RE_DATA_MAX → from pat (p + 1) (s ++ rest) → (length (s ++ rest) < n)%nat →
  (∀ n' r', (length rest < n')%nat → wrote r r' d w → from pat (p + zlen s + 1) rest → wp (loop n' (array_round pat command) (p + zlen s, d + zlen w, r')) Q) →
  wp (loop n (array_round pat command) (p, d, r)) Q.
Lemma adds_nil : adds [] [].
Proof.
  intros rest n p d r Q Hs Hd _ Hf Hn Hk. change (zlen []) with 0 in Hk. rewrite !Z.add_0_r in Hk. apply Hk; [done| |done]. split; [done|done| |done]. change (zlen []) with 0. lia.
Qed.
Lemma adds_app s1 w1 s2 w2 : adds s1 w1 → adds s2 w2 → adds (s1 ++ s2) (w1 ++ w2).
Proof.
  intros H1 H2 rest n p d r Q Hs Hd Hroom Hf Hn Hk. rewrite <-app_assoc in Hf, Hn. rewrite zlen_app in Hroom. pose proof (zlen_nonneg w1). pose proof (zlen_nonneg w2).
  apply (H1 (s2 ++ rest) n p d r Q); [done|done|lia|done|done|]. intros n1 r1 Hn1 Hr1 Hf1. apply (H2 rest n1); [apply Hr1|lia|lia|done|done|].
  intros n2 r2 Hn2 Hr2 Hf2. rewrite !zlen_app in Hk. replace (p + zlen s1 + zlen s2) with (p + (zlen s1 + zlen s2)) in * by lia.
  replace (d + zlen w1 + zlen w2) with (d + (zlen w1 + zlen w2)) by lia. apply Hk; [done| |done]. by apply (wrote_app r r1).
Qed.
Lemma adds_elements es : Forall (λ e, adds (write_element e) (element_bytes e)) es → adds (write_elements es) (set_bytes es).
Proof. induction 1 as [|e es He _ IH]; [apply adds_nil|]. by apply adds_app. Qed.

Lemma adds_round s w : (∀ rest p d r, sized r → 0 ≤ d → d + zlen w ≤ CAVAN_RE_DATA_MAX → from pat (p + 1) (s ++ rest) →
    wp (array_round pat command (p, d, r)) (λ res, ∃ r', res = inl (p + zlen s, d + zlen w, r') ∧ wrote r r' d w)) →
  s ≠ [] → adds s w.
Proof.
  intros Hr Hs0 rest n p d r Q Hs Hd Hroom Hf Hn Hk. destruct n as [|n]; [lia|]. rewrite loop_S. apply wp_bind. eapply wp_mono; [by apply (Hr rest)|].
  intros res (r' & -> & Hw). apply Hk; [|done|].
  - rewrite length_app in Hn. destruct s; [done|]. simpl in Hn. lia.
  - apply from_app in Hf. by replace (p + zlen s + 1) with (p + 1 + zlen s) by lia.
Qed.
Lemma adds_escape c : adds [92; c] [array_escape c].
Proof. apply adds_round; [|done]. intros rest p d r Hs Hd Hroom Hf. change (zlen [92; c]) with 2. change (zlen [_]) with 1 in *. apply (escape_round p d r c rest); [done|lia|done]. Qed.
Lemma adds_char c : 0 < c < 128 → adds (write_element_char c) [c].
Proof.
  intros Hc. unfold write_element_char. destruct (existsb (Z.eqb c) [93; 94; 45; 92]) eqn:E.
  - assert (array_escape c = c) as H.
    { simpl in E. rewrite !orb_true_iff, !Z.eqb_eq in E. by destruct E as [-> | [-> | [-> | [-> | ?]]]]. }
    pose proof (adds_escape c) as Ha. by rewrite H in Ha.
  - apply adds_round; [|done]. intros rest p d r Hs Hd Hroom Hf. change (zlen [c]) with 1 in *. apply (plain_round p d r c rest); [done|lia|done|].
    simpl in *. rewrite E. destruct c; try done; lia.
Qed.
Lemma adds_element e : element_ok e → adds (write_element e) (element_bytes e).
Proof.
  destruct e as [c|a b|k]; simpl.
  - intros Hc. by apply adds_char.
  - intros [Ha Hb] rest n p d r Q Hs Hd Hroom Hf Hn Hk. rewrite <-app_assoc in Hf, Hn. change (a :: ?l) with ([a] ++ l) in Hk, Hroom. rewrite zlen_app in Hroom. change (zlen [a]) with 1 in Hroom.
    pose proof (zlen_nonneg (seqZ (a + 1) (b - (a + 1)))).
    apply (adds_char a ltac:(lia) ([45; b] ++ rest) n p d r Q); [done|done|change (zlen [a]) with 1; lia|done|done|]. intros n1 r1 Hn1 Hr1 Hf1.
    set (q := p + zlen (write_element_char a)) in *. change (zlen [a]) with 1 in *. destruct n1 as [|n1]; [simpl in Hn1; lia|]. rewrite loop_S. apply wp_bind.
    assert (from pat q (a :: 45 :: b :: rest)) as Hq.
    { split; [destruct Hf as [Hp _]; unfold q, write_element_char in *; destruct (existsb _ _); unfold zlen; simpl; lia|].
      destruct Hf as [Hp Hf]. destruct Hf1 as [Hp1 Hf1]. unfold q, write_element_char in *. destruct (existsb _ _).
      - change (zlen [92; a]) with 2 in *. replace (Z.to_nat (p + 2)) with (Z.to_nat (p + 1) + 1)%nat by lia. by rewrite <-drop_drop, Hf.
      - change (zlen [a]) with 1 in *. exact Hf. }
    eapply wp_mono; [apply (range_round q _ r1 a b rest); [apply Hr1|lia|done|done|done|lia]|]. intros res (r2 & -> & Hr2).
    rewrite zlen_app in Hk. change (zlen [45; b]) with 2 in Hk. replace (p + (zlen (write_element_char a) + 2)) with (q + 2) in Hk by lia. rewrite zlen_app in Hk. change (zlen [a]) with 1 in Hk.
    rewrite <-Z.add_assoc. apply Hk; [simpl in Hn1; lia|by apply (wrote_app r r1); [|done|]|].
    apply (from_app _ _ [45; b]) in Hf1. change (zlen [45; b]) with 2 in Hf1. by replace (q + 2 + 1) with (q + 1 + 2) by lia.
  - intros _. replace (128 + class_number k) with (array_escape (class_char k)); [apply adds_escape|by destruct k].
Qed.
End brackets.

Lemma from_length pat p w : from pat p w → (length w ≤ length pat)%nat.
Proof. intros [_ <-]. rewrite length_drop. lia. Qed.

Definition negation (neg : bool) : list Z := if neg then [94] else [].
Definition set_atom (neg : bool) (es : list element) : atom := if neg then NotIn es else In es.
Lemma negation_ok pat command neg s n p d r Q : sized r → 0 ≤ command < CAVAN_RE_CMD_MAX → cdata (commands r)⟦command⟧ = d → from pat (p + 1) (negation neg ++ s) → (length (negation neg ++ s) < n)%nat →
  code (commands r)⟦command⟧ = CAVAN_RE_ARRAY →
  (∀ n' r', (length s < n')%nat → sized r' → chars r' = chars r → (commands r')⟦command⟧ = set_code (if neg then CAVAN_RE_NOT_ARRAY else CAVAN_RE_ARRAY) ((commands r)⟦command⟧) →
    (∀ j, 0 ≤ j → j ≠ command → (commands r')⟦j⟧ = (commands r)⟦j⟧) → from pat (p + zlen (negation neg) + 1) s →
    wp (loop n' (array_round pat command) (p + zlen (negation neg), d, r')) Q) →
  wp (loop n (array_round pat command) (p, d, r)) Q.
Proof.
  intros Hs Hc Hd Hf Hn Hcode Hk. destruct neg; simpl in *.
  - destruct n as [|n]; [lia|]. rewrite loop_S. apply wp_bind. apply from_load in Hf as [Hl Hf]. unfold array_round at 1. rewrite Hl. apply wp_bind, wp_ret. simpl Z.eqb. cbv iota.
    apply wp_bind, wp_edit; [done|lia|]. intros r' S E K C. apply wp_bind, wp_load; [destruct S; lia|]. apply wp_ret. rewrite E. simpl. rewrite Hd. apply Hk; [lia|done..|].
    by change (zlen [94]) with 1.
  - change (zlen []) with 0 in Hk. rewrite Z.add_0_r in Hk. apply Hk; [done..| |done|done]. by destruct (commands r)⟦command⟧; simpl in *; subst.
Qed.

Lemma array_ok pat p command data r l neg es rest : compiled r command data l → command + 1 < CAVAN_RE_CMD_MAX → data + zlen (set_bytes es) ≤ CAVAN_RE_DATA_MAX →
  Forall element_ok es → from pat p (91 :: negation neg ++ write_elements es ++ 93 :: rest) →
  wp (array_command pat p command data r) (λ res, ∃ p' r', res = inl (p', command + 1, data + zlen (set_bytes es), r') ∧ from pat p' rest ∧
    compiled r' (command + 1) (data + zlen (set_bytes es)) (One (set_atom neg es) :: l)).
Proof.
  intros [Hs Hd Hw Hc Hl] Hcmd Hroom Hes Hf. pose proof (width_nonneg l). pose proof (zlen_nonneg (set_bytes es)). unfold array_command.
  apply from_length in Hf as Hlen. apply from_load in Hf as [_ Hf].
  apply wp_bind, wp_edit; [done|lia|]. intros r0 S0 E0 K0 C0. apply wp_bind.
  apply (negation_ok pat (command + 1) neg (write_elements es ++ 93 :: rest)); [done|lia|by rewrite E0|done|simpl in Hlen; lia|by rewrite E0|]. intros n1 r1 Hn1 S1 C1 E1 K1 Hf1.
  apply (adds_elements pat (command + 1) es ltac:(by eapply Forall_impl; [|intros e; apply adds_element]) (93 :: rest)); [done|lia|lia|done|done|]. intros n2 r2 Hn2 [S2 M2 C2 K2] Hf2.
  destruct n2 as [|n2]; [lia|]. rewrite loop_S. apply wp_bind. apply from_load in Hf2 as [Hl2 Hf2]. unfold array_round at 1. rewrite Hl2. apply wp_bind, wp_ret. simpl Z.eqb. cbv iota. apply wp_ret.
  assert ((commands r2)⟦command + 1⟧ = mk_command (if neg then CAVAN_RE_NOT_ARRAY else CAVAN_RE_ARRAY) data (clength (commands r)⟦command + 1⟧)) as E2 by (rewrite M2, E1, E0; done).
  apply wp_bind, wp_load; [destruct S2; lia|]. rewrite E2. simpl cdata. rewrite Z.add_simpl_l, data_u16 by lia. apply wp_bind, wp_edit; [done|lia|]. intros r3 S3 E3 K3 C3. apply wp_ret.
  rewrite E2 in E3. eexists _, r3. split; [done|]. split; [done|]. split; [done|lia|rewrite width_cons; simpl; lia| |done].
  split; [|apply (coded_kept (command + 1) data _ r r3); [|lia|lia|done]].
  - rewrite Hw. assert (chars_cell r3 (data + zlen (set_bytes es)) (command + 1) (if neg then CAVAN_RE_NOT_ARRAY else CAVAN_RE_ARRAY) (set_bytes es)) as Hcell.
    { split; rewrite E3; simpl; [done|done|lia|lia|]. intros j Hj. rewrite C3. by apply C2. }
    unfold set_atom. destruct neg; done.
  - split; intros k Hk; [by rewrite K3, M2, K1, K0 by lia|by rewrite C3, K2, C1, C0 by lia].
Qed.

(** ** The rounds of the compiler *)

Section rounds.
Context (pat : list Z).

Lemma of_ok k p command data r l : compiled r command data l → command + 1 < CAVAN_RE_CMD_MAX →
  wp (single_command (class_code k) p command data r) (λ res, ∃ r', res = inl (p + 1, command + 1, data, r') ∧ compiled r' (command + 1) data (One (Of k) :: l)).
Proof. intros Hco Hcmd. by apply single_ok. Qed.

Lemma atom_round p command data r l a rest : compiled r command data l → command + 1 < CAVAN_RE_CMD_MAX → data + zlen (atom_bytes a) ≤ CAVAN_RE_DATA_MAX → atom_ok a →
  from pat p (write_atom a ++ rest) →
  wp (compile_round pat (p, command, data, r)) (λ res, ∃ p' command' r', res = inl (p', command', data + zlen (atom_bytes a), r') ∧ from pat p' rest ∧
    compiled r' command' (data + zlen (atom_bytes a)) (push_atom a l)).
Proof.
  intros Hco Hcmd Hroom Ha Hf. unfold compile_round. destruct a as [c| |k|es|es]; simpl write_atom in Hf.
  - change (zlen (atom_bytes (Is c))) with 1 in *. simpl in Ha. unfold write_char in Hf. destruct (special c) eqn:Hsp.
    + apply from_load in Hf as [Hl [Hl2 Hf]%from_load]. rewrite Hl. apply wp_bind, wp_ret. simpl Z.eqb. cbv iota. unfold escape_command. rewrite Hl2. apply wp_bind, wp_ret.
      unfold special in Hsp. simpl in Hsp. rewrite !orb_true_iff, !Z.eqb_eq in Hsp.
      assert (existsb (Z.eqb c) [116; 110; 114; 102; 43; 115; 83; 100; 68; 119; 87] = false) as Hne by (by destruct Hsp as [-> | [-> | [-> | [-> | [-> | [-> | [-> | [-> | ?]]]]]]]]).
      simpl in Hne. rewrite !orb_false_iff in Hne. destruct Hne as (N1 & N2 & N3 & N4 & N5 & N6 & N7 & N8 & N9 & N10 & N11 & _). rewrite N1, N2, N3, N4, N5, N6, N7, N8, N9, N10, N11.
      eapply wp_mono; [by apply (char_ok r command data c (p + 1) l); [|lia|lia|lia]|]. intros res (cmd' & r' & -> & H'). by exists (p + 1 + 1), cmd', r'.
    + apply from_load in Hf as [Hl Hf]. rewrite Hl. apply wp_bind, wp_ret. unfold special in Hsp. simpl in Hsp. rewrite !orb_false_iff in Hsp.
      destruct Hsp as (N1 & N2 & N3 & N4 & N5 & N6 & N7 & N8 & _). rewrite (proj2 (Z.eqb_neq c 0)), N1, N2, N3, N4, N5, N6, N7, N8 by lia.
      eapply wp_mono; [by apply (char_ok r command data c p l); [|lia|lia|lia]|]. intros res (cmd' & r' & -> & H'). by exists (p + 1), cmd', r'.
  - change (zlen (atom_bytes Any)) with 0. rewrite Z.add_0_r. apply from_load in Hf as [Hl Hf]. rewrite Hl. apply wp_bind, wp_ret. simpl Z.eqb. cbv iota.
    eapply wp_mono; [by apply (single_ok r command data CAVAN_RE_ANY (One Any) p l)|]. intros res (r' & -> & H'). by exists (p + 1), (command + 1), r'.
  - change (zlen (atom_bytes (Of k))) with 0. rewrite Z.add_0_r. apply from_load in Hf as [Hl [Hl2 Hf]%from_load]. rewrite Hl. apply wp_bind, wp_ret. simpl Z.eqb. cbv iota. unfold escape_command. rewrite Hl2. apply wp_bind, wp_ret.
    pose proof (of_ok k (p + 1) command data r l Hco Hcmd) as H. eapply wp_mono; [destruct k; exact H|]. intros res (r' & -> & H'). by exists (p + 1 + 1), (command + 1), r'.
  - simpl app in Hf. rewrite <-app_assoc in Hf. apply from_load in Hf as Hf1. rewrite (proj1 Hf1). apply wp_bind, wp_ret. simpl Z.eqb. cbv iota.
    eapply wp_mono; [by apply (array_ok pat p command data r l false es rest)|]. intros res (p' & r' & -> & Hf' & H'). by exists p', (command + 1), r'.
  - simpl app in Hf. rewrite <-app_assoc in Hf. apply from_load in Hf as Hf1. rewrite (proj1 Hf1). apply wp_bind, wp_ret. simpl Z.eqb. cbv iota.
    eapply wp_mono; [by apply (array_ok pat p command data r l true es rest)|]. intros res (p' & r' & -> & Hf' & H'). by exists p', (command + 1), r'.
Qed.

Lemma times_ok p command data r r0 command0 data0 l a q : compiled r0 command0 data0 l → compiled r command data (push_atom a l) → data + 2 ≤ CAVAN_RE_DATA_MAX → width l + 3 ≤ CAVAN_RE_CMD_MAX → atom_ok a →
  wp (times_command (least q) (most q) p command data r) (λ res, ∃ command' r', res = inl (p + 1, command', data + 2, r') ∧ compiled r' command' (data + 2) (Noop :: Times q a :: l)).
Proof.
  intros H0 Hco Hroom Hcmd Ha.
  assert (∀ o, push_atom a l = o :: l → op_width o = 1 → (op_cells r data (width l) o → atom_cell r data (width l) a) → (∀ w, o = Txt w → zlen w = 1) →
    wp (times_command (least q) (most q) p command data r) (λ res, ∃ command' r', res = inl (p + 1, command', data + 2, r') ∧ compiled r' command' (data + 2) (Noop :: Times q a :: l))) as Hone.
  { intros o Ho Hw Hcell Hw1. rewrite Ho in Hco. pose proof (co_width _ _ _ _ Hco) as Hwd. rewrite width_cons, Hw in Hwd. pose proof (co_coded _ _ _ _ Hco) as [Hc _]. apply Hcell in Hc. replace (width l) with command in Hc by lia.
    eapply wp_mono; [by apply (times_one r command data q Hroom p a o l); [|lia|..]|]. intros res (r' & -> & H'). by exists (command + 2), r'. }
  destruct a as [c| |k|es|es]; simpl in Hco, Hone; [|by eapply Hone; [done|done|by intros []|done]..].
  destruct l as [|o l]; [by destruct (co_last _ _ _ _ H0)|]. destruct (is_text o) eqn:Ho.
  - destruct o as [| | | |w| |]; try done. simpl in Hco. pose proof (co_width _ _ _ _ Hco) as Hwd. rewrite width_cons in Hwd, Hcmd. simpl in Hwd, Hcmd.
    pose proof (co_coded _ _ _ _ H0) as [(_ & Hne & _) _]. eapply wp_mono; [by apply (times_cut r command data q Hroom p c w l); [|done|lia|]|]. intros res (r' & -> & H'). by exists (command + 3), r'.
  - apply (Hone (Txt [c])); [by destruct o|done|by intros (? & _)|]. intros w [= <-]. done.
Qed.

Lemma quantifier_round p command data r r0 command0 data0 l a q rest : q ≠ Once → compiled r0 command0 data0 l → compiled r command data (push_atom a l) → data + 2 ≤ CAVAN_RE_DATA_MAX →
  width l + 3 ≤ CAVAN_RE_CMD_MAX → atom_ok a → from pat p (write_quantifier q ++ rest) →
  wp (compile_round pat (p, command, data, r)) (λ res, ∃ p' command' r', res = inl (p', command', data + 2, r') ∧ from pat p' rest ∧ compiled r' command' (data + 2) (Noop :: Times q a :: l)).
Proof.
  intros Hq H0 Hco Hroom Hcmd Ha Hf. pose proof (λ p, times_ok p command data r r0 command0 data0 l a q H0 Hco Hroom Hcmd Ha) as Ht. unfold compile_round.
  destruct q; [done|apply from_load in Hf as [Hl Hf]|apply from_load in Hf as [Hl [Hl2 Hf]%from_load]|apply from_load in Hf as [Hl Hf]]; rewrite Hl; apply wp_bind, wp_ret; simpl Z.eqb; cbv iota.
  - eapply wp_mono; [apply Ht|]. intros res (c' & r' & -> & H'). by exists (p + 1), c', r'.
  - unfold escape_command. rewrite Hl2. apply wp_bind, wp_ret. simpl Z.eqb. cbv iota. eapply wp_mono; [apply Ht|]. intros res (c' & r' & -> & H'). by exists (p + 1 + 1), c', r'.
  - eapply wp_mono; [apply Ht|]. intros res (c' & r' & -> & H'). by exists (p + 1), c', r'.
Qed.
End rounds.

Lemma width_push c l : width (push_char c l) ≤ width l + 1.
Proof. destruct l as [|o l]; [done|]. destruct o; rewrite ?width_cons; simpl; rewrite ?width_cons; simpl; lia. Qed.
Lemma width_quantified q a l : width (quantified q a l) ≤ width l + item_cells (a, q).
Proof.
  destruct q; simpl; rewrite ?width_cons; simpl; unfold item_cells; simpl; try lia. destruct a; simpl; rewrite ?width_cons; simpl; try lia. apply width_push.
Qed.

Section items.
Context (pat : list Z).
Definition compile_loop (n : nat) := loop n (compile_round pat).

Lemma item_ok n p command data r l it rest (Q : Z * cavan_regex_t → Prop) : compiled r command data l → width l + item_cells it ≤ CAVAN_RE_CMD_MAX - 1 → data + item_bytes it ≤ CAVAN_RE_DATA_MAX → atom_ok it.1 →
  from pat p (write_item it ++ rest) → (length (write_item it ++ rest) < n)%nat →
  (∀ n' p' command' r', (length rest < n')%nat → from pat p' rest → compiled r' command' (data + item_bytes it) (quantified it.2 it.1 l) → wp (compile_loop n' (p', command', data + item_bytes it, r')) Q) →
  wp (compile_loop n (p, command, data, r)) Q.
Proof.
  destruct it as [a q]. unfold item_bytes, item_cells, write_item. simpl. intros Hco Hcells Hbytes Ha Hf Hn Hk. rewrite <-app_assoc in Hf, Hn.
  assert (1 ≤ length (write_atom a))%nat as Hlen by (destruct a; simpl; try lia; unfold write_char; destruct (special c); simpl; lia).
  rewrite length_app in Hn. destruct n as [|n]; [lia|]. unfold compile_loop. rewrite loop_S. apply wp_bind. pose proof (zlen_nonneg (atom_bytes a)). pose proof (co_width _ _ _ _ Hco) as Hw.
  eapply wp_mono; [apply (atom_round pat p command data r l a (write_quantifier q ++ rest) Hco); [destruct q; lia|destruct q; lia|done|done]|].
  intros res (p1 & c1 & r1 & -> & Hf1 & H1). destruct (decide (q = Once)) as [->|Hq].
  - simpl in *. rewrite Z.add_0_r in Hk. apply Hk; [lia|done|done].
  - assert (match q with Once => 0 | _ => 2 end = 2) as E by (by destruct q). assert (match q with Once => 1 | _ => 3 end = 3) as E3 by (by destruct q). rewrite E, E3 in *.
    assert (1 ≤ length (write_quantifier q))%nat as Hlq by (destruct q; [done|simpl; lia..]). rewrite length_app in Hn. destruct n as [|n]; [lia|]. rewrite loop_S. apply wp_bind.
    eapply wp_mono; [apply (quantifier_round pat p1 c1 _ r1 r command data l a q rest Hq Hco H1); [lia|lia|done|done]|].
    intros res (p2 & c2 & r2 & -> & Hf2 & H2). rewrite <-Z.add_assoc. apply Hk; [lia|done|]. replace (quantified q a l) with (Noop :: Times q a :: l) by (by destruct q). by rewrite Z.add_assoc.
Qed.
Definition compile_items (its : list (atom * quantifier)) (l : list op) : list op := foldl (λ l it, quantified it.2 it.1 l) l its.
Lemma items_ok its : ∀ n p command data r l rest (Q : Z * cavan_regex_t → Prop), compiled r command data l → width l + total item_cells its ≤ CAVAN_RE_CMD_MAX - 1 → data + total item_bytes its ≤ CAVAN_RE_DATA_MAX →
  Forall (λ it, atom_ok it.1) its → from pat p (write_items its ++ rest) → (length (write_items its ++ rest) < n)%nat →
  (∀ n' p' command' data' r', (length rest < n')%nat → from pat p' rest → compiled r' command' data' (compile_items its l) → wp (compile_loop n' (p', command', data', r')) Q) →
  wp (compile_loop n (p, command, data, r)) Q.
Proof.
  induction its as [|it its IH]; intros n p command data r l rest Q Hco Hcells Hbytes Hok Hf Hn Hk; [by apply Hk|].
  simpl in Hcells, Hbytes. apply Forall_cons in Hok as [Hit Hok]. unfold write_items in Hf, Hn. simpl in Hf, Hn. rewrite <-app_assoc in Hf, Hn. fold (write_items its) in Hf, Hn.
  assert (∀ its, 0 ≤ total item_cells its ∧ 0 ≤ total item_bytes its) as Hpos.
  { clear. induction its as [|[a q] its [IH1 IH2]]; [done|]. simpl. unfold item_cells at 1, item_bytes at 1. simpl. pose proof (zlen_nonneg (atom_bytes a)). destruct q; lia. }
  specialize (Hpos its). apply (item_ok n p command data r l it (write_items its ++ rest)); [done|lia|lia|done|done|done|].
  intros n1 p1 c1 r1 Hn1 Hf1 H1. destruct it as [a q]. pose proof (width_quantified q a l).
  apply (IH n1 p1 c1 _ r1 (quantified q a l) rest); [done|simpl in *; lia|lia|done|done|done|]. exact Hk.
Qed.
End items.

(** ** The compiled commands *)

(** The same commands in the order in which the matcher meets them. *)
Fixpoint codes (r : cavan_regex_t) (d i : Z) (l : list op) : Prop :=
  match l with [] => True | o :: l => op_cells r d i o ∧ codes r d (i + op_width o) l end.
Lemma codes_app r d l k : ∀ i, codes r d i (l ++ k) ↔ codes r d i l ∧ codes r d (i + width l) k.
Proof.
  induction l as [|o l IH]; intros i; cbn [codes app]; [change (width []) with 0; rewrite Z.add_0_r; naive_solver|]. rewrite IH, (width_cons o l), Z.add_assoc. naive_solver.
Qed.
Lemma width_rev l : width (rev l) = width l.
Proof. induction l as [|o l IH]; [done|]. simpl rev. rewrite width_app, IH, !width_cons. change (width []) with 0. lia. Qed.
Lemma coded_codes r d l : coded r d l → codes r d 0 (rev l).
Proof.
  induction l as [|o l IH]; [done|]. intros [Ho Hl]. simpl rev. apply codes_app. split; [by apply IH|]. rewrite width_rev. by split.
Qed.

Definition plain_op (o : op) : Prop := match o with Noop | Txt _ | One _ | Times _ _ => True | _ => False end.
Definition is_noop (o : op) : bool := if o is Noop then true else false.
Definition base_ops (head : bool) : list op := (if head then [Head] else []) ++ [Noop].
(** Plain commands were added for the items [its]. *)
Definition added (h : bool) (l : list op) (its : list (atom * quantifier)) : Prop :=
  ∃ k, l = k ++ base_ops h ∧ Forall plain_op k ∧ items_of l = its.
Lemma added_push h l its c : added h l its → added h (push_char c l) (its ++ [(Is c, Once)]).
Proof.
  intros (k & -> & Hk & Hi). destruct k as [|o k].
  - exists [Txt [c]]. rewrite <-Hi. destruct h; (split; [done|]; split; [by repeat constructor|done]).
  - destruct (is_text o) eqn:Ho.
    + destruct o as [| | | |w| |]; try done. exists (Txt (w ++ [c]) :: k). split; [done|]. apply Forall_cons in Hk as [_ Hk]. split; [by constructor|].
      rewrite <-Hi. simpl. by rewrite fmap_app, app_assoc.
    + exists (Txt [c] :: o :: k). split; [by destruct o|]. split; [by constructor|]. rewrite <-Hi. by destruct o.
Qed.
Lemma added_quantified h l its a q : added h l its → added h (quantified q a l) (its ++ [(a, q)]).
Proof.
  intros Ha. assert (∀ k', quantified q a l = k' ++ l → Forall plain_op k' → k' ≠ [] → items_of (k' ++ l) = its ++ [(a, q)] → added h (quantified q a l) (its ++ [(a, q)])) as Hgo.
  { intros k' -> Hp _ Hi. destruct Ha as (k & -> & Hk & _). exists (k' ++ k). rewrite app_assoc. split; [done|]. split; [by apply Forall_app|]. by rewrite <-app_assoc. }
  pose proof Ha as (k & El & Hk & Hi). destruct q; simpl.
  - destruct a; simpl; [by apply added_push|..]; (eapply (Hgo [One _]); [done|by repeat constructor|done|simpl; by rewrite Hi]).
  - apply (Hgo [Noop; Times Star a]); [done|by repeat constructor|done|simpl; by rewrite Hi, app_nil_r].
  - apply (Hgo [Noop; Times Plus a]); [done|by repeat constructor|done|simpl; by rewrite Hi, app_nil_r].
  - apply (Hgo [Noop; Times Opt a]); [done|by repeat constructor|done|simpl; by rewrite Hi, app_nil_r].
Qed.
Lemma added_items h its : ∀ l its0, added h l its0 → added h (compile_items its l) (its0 ++ its).
Proof.
  induction its as [|[a q] its IH]; intros l its0 Hl; [by rewrite app_nil_r|]. simpl. replace (its0 ++ (a, q) :: its) with ((its0 ++ [(a, q)]) ++ its) by (by rewrite <-app_assoc).
  by apply IH, added_quantified.
Qed.

(** What the commands of a pattern are. *)
Definition program (p : pattern) (k : list op) : list op :=
  rev (base_ops (head p)) ++ k ++ (if tail p then [Tail] else []) ++ [End].
Fixpoint op_list_items (l : list op) : list (atom * quantifier) := match l with [] => [] | o :: l => op_items o ++ op_list_items l end.
Lemma op_list_items_app l k : op_list_items (l ++ k) = op_list_items l ++ op_list_items k.
Proof. induction l as [|o l IH]; [done|]. simpl. by rewrite IH, app_assoc. Qed.
Lemma items_of_rev l : items_of l = op_list_items (rev l).
Proof. induction l as [|o l IH]; [done|]. simpl. by rewrite op_list_items_app, IH; simpl; rewrite app_nil_r. Qed.

Record compiles (r : cavan_regex_t) (d : Z) (p : pattern) (k : list op) : Prop := {
  cp_sized : sized r;
  cp_data : 0 ≤ d ≤ CAVAN_RE_DATA_MAX;
  cp_codes : codes r d 0 (program p k);
  cp_width : width (program p k) ≤ CAVAN_RE_CMD_MAX;
  cp_plain : Forall plain_op k;
  cp_items : op_list_items k = items p }.

Lemma head_ok pat (h : bool) n r rest (Q : Z * cavan_regex_t → Prop) : compiled r 0 0 [Noop] →
  from pat 0 ((if h then [94] else []) ++ rest) → (length ((if h then [94%Z] else []) ++ rest) < n)%nat →
  (∀ n' p' command' r', (length rest < n')%nat → from pat p' rest → compiled r' command' 0 (base_ops h) → wp (compile_loop pat n' (p', command', 0, r')) Q) →
  wp (compile_loop pat n (0, 0, 0, r)) Q.
Proof.
  intros Hco Hf Hn Hk. destruct h; simpl in Hf, Hn; [|by apply Hk]. apply from_load in Hf as [Hl Hf]. destruct n as [|n]; [lia|]. unfold compile_loop. rewrite loop_S. apply wp_bind.
  unfold compile_round at 1. rewrite Hl. apply wp_bind, wp_ret. simpl Z.eqb. cbv iota.
  eapply wp_mono; [by apply (single_ok r 0 0 CAVAN_RE_HEAD Head 0 [Noop])|]. intros res (r' & -> & H'). apply Hk; [lia|done|done].
Qed.
Lemma end_ok pat (t : bool) n p command data r l : compiled r command data l → command + 2 < CAVAN_RE_CMD_MAX →
  from pat p ((if t then [36] else []) ++ [0]) → (length ((if t then [36%Z] else []) ++ [0%Z]) < n)%nat →
  wp (compile_loop pat n (p, command, data, r)) (λ res, ∃ r', res = (0, r') ∧ sized r' ∧ coded r' data (End :: (if t then [Tail] else []) ++ l)).
Proof.
  assert (∀ n p command r l, compiled r command data l → command + 1 < CAVAN_RE_CMD_MAX → from pat p [0] → (1 < n)%nat →
    wp (compile_loop pat n (p, command, data, r)) (λ res, ∃ r', res = (0, r') ∧ sized r' ∧ coded r' data (End :: l))) as Hend.
  { clear. intros n p command r l [Hs Hd Hw Hc Hl] Hcmd Hf Hn. destruct n as [|n]; [lia|]. unfold compile_loop. rewrite loop_S. apply wp_bind. apply from_load in Hf as [Hload _].
    pose proof (width_nonneg l). unfold compile_round at 1. rewrite Hload. apply wp_bind, wp_ret. simpl Z.eqb. cbv iota. apply wp_bind, wp_edit; [done|lia|]. intros r' S E K C. apply wp_ret.
    exists r'. split; [done|]. split; [done|]. split; [simpl; by rewrite Hw, E|]. apply (coded_kept (command + 1) data data r r'); [|lia|lia|done]. split; [intros i Hi; apply K; lia|by rewrite C]. }
  intros Hco Hcmd Hf Hn. pose proof (co_width _ _ _ _ Hco) as Hw. pose proof (width_nonneg l). destruct t; simpl in Hf, Hn; [|apply Hend; [done|lia|done|lia]].
  apply from_load in Hf as [Hload Hf]. destruct n as [|n]; [lia|]. unfold compile_loop. rewrite loop_S. apply wp_bind. unfold compile_round at 1. rewrite Hload. apply wp_bind, wp_ret. simpl Z.eqb. cbv iota.
  eapply wp_mono; [by apply (single_ok r command data CAVAN_RE_TAIL Tail p l); [|lia|..]|]. intros res (r' & -> & H'). apply (Hend n (p + 1) (command + 1) r' (Tail :: l)); [done|lia|done|lia].
Qed.

Lemma compile_ok p r : pattern_ok p → sized r → ∃ r' d k, cavan_regex_compile r (write_pattern p) = Ok (0, r') ∧ compiles r' d p k.
Proof.
  intros (Hok & Hcells & Hbytes) Hs. destruct (proj1 (wp_ok (cavan_regex_compile r (write_pattern p)) (λ res, ∃ r' d k, res = (0, r') ∧ compiles r' d p k))) as (res & -> & r' & d & k & -> & H); [|by exists r', d, k].
  unfold cavan_regex_compile. apply wp_bind, wp_edit; [done|done|]. intros r1 S1 E1 _ _.
  assert (compiled r1 0 0 [Noop]) as H1.
  { split; [done|done|done| |done]. split; [|done]. simpl. by rewrite E1. }
  assert (from (write_pattern p) 0 (write_pattern p)) as Hf by done. assert (length (write_pattern p) < S (length (write_pattern p)))%nat as Hn by lia. revert Hf Hn. generalize (S (length (write_pattern p))). intros n Hf Hn.
  unfold write_pattern at 2 in Hf. unfold write_pattern in Hn. apply (head_ok (write_pattern p) (head p) n r1 _ _ H1 Hf Hn). clear n Hf Hn H1. intros n p1 c1 r2 Hn Hf H2.
  assert (width (base_ops (head p)) ≤ 2) as Hwb by (by destruct (head p)).
  eapply (items_ok (write_pattern p) (items p) n p1 c1 0 r2 (base_ops (head p))); [done|lia|lia|done|done|done|]. clear n Hn Hf H2. intros n p2 c2 d2 r3 Hn Hf H3.
  assert (added (head p) (compile_items (items p) (base_ops (head p))) (items p)) as (k & Ek & Hk & Hi).
  { apply (added_items (head p) (items p) _ []). exists []. split; [done|]. split; [done|]. by destruct (head p). }
  assert (∀ its l, width (compile_items its l) ≤ width l + total item_cells its) as Hwi.
  { clear. induction its as [|[a q] its IH]; intros l; simpl; [lia|]. pose proof (IH (quantified q a l)). pose proof (width_quantified q a l). simpl in *. lia. }
  pose proof (Hwi (items p) (base_ops (head p))) as Hwk. pose proof (co_width _ _ _ _ H3) as Hw3. pose proof (co_data _ _ _ _ H3) as Hd3.
  eapply wp_mono; [apply (end_ok (write_pattern p) (tail p) n p2 c2 d2 r3 _ H3); [lia|done|done]|].
  intros res (r4 & -> & S4 & Hc4). exists r4, d2, (rev k). split; [done|]. rewrite Ek in Hc4, Hwk.
  assert (rev (End :: (if tail p then [Tail] else []) ++ k ++ base_ops (head p)) = program p (rev k)) as Erev.
  { unfold program. simpl. rewrite !rev_app_distr, <-!app_assoc. by destruct (tail p). }
  apply coded_codes in Hc4. rewrite Erev in Hc4. split; [done|done|done| | |].
  - rewrite <-Erev, width_rev, width_cons, width_app. destruct (tail p); change (width [Tail]) with 1; change (width []) with 0; simpl op_width; lia.
  - by apply Forall_rev.
  - rewrite <-Hi, Ek, items_of_rev, rev_app_distr, op_list_items_app. by destruct (head p).
Qed.

(** ** What the matcher accepts *)

(** That the commands [l] accept a text that begins with [u]; but for [Noop],
    [Tail] and [End] they need a character that is left. *)
Fixpoint accepts (l : list op) (u : list Z) : Prop :=
  match l with
  | [] => False
  | End :: _ => True
  | Tail :: _ => u = []
  | Noop :: l => accepts l u
  | Head :: l => u ≠ [] ∧ accepts l u
  | Txt w :: l => u ≠ [] ∧ ∃ u', u = w ++ u' ∧ accepts l u'
  | One a :: l => ∃ c u', u = c :: u' ∧ takes a c = true ∧ accepts l u'
  | Times q a :: l => u ≠ [] ∧ ∃ w u', u = w ++ u' ∧ least q ≤ zlen w ≤ most q ∧ Forall (λ c, takes a c = true) w ∧ accepts l u'
  end.

Lemma existsb_set_bytes c es : Forall element_ok es → existsb (array_test c) (set_bytes es) = existsb (in_element c) es.
Proof.
  assert (∀ x, 0 ≤ x < 128 → array_test c x = (c =? x)) as Hplain.
  { intros x Hx. unfold array_test. assert (Z.land x (Z.shiftl 1 7) = 0) as ->; [|done].
    apply (check_below_ok 128 (λ x, Z.land x (Z.shiftl 1 7) =? 0)) in Hx; [|by vm_compute]. by apply Z.eqb_eq. }
  induction 1 as [|e es He _ IH]; [done|]. change (set_bytes (e :: es)) with (element_bytes e ++ set_bytes es). rewrite existsb_app, IH. cbn [existsb]. f_equal. clear IH. destruct e as [x|a b|k]; simpl in *.
  - by rewrite Hplain, orb_false_r by lia.
  - destruct He as [Ha Hb]. rewrite Hplain by lia. apply eq_true_iff_eq. rewrite orb_true_iff, andb_true_iff, orb_true_iff, existsb_exists.
    rewrite Z.eqb_eq, Z.leb_le, Z.ltb_lt. split.
    + intros [->|(x & Hx & Et)]; [split; [lia|by right]|]. apply list_elem_of_In, elem_of_seqZ in Hx. rewrite Hplain in Et by lia. apply Z.eqb_eq in Et. lia.
    + intros [Hac [Hcb| ->]]; [|by left]. destruct (decide (c = a)) as [->|]; [by left|]. right. exists c. split; [apply list_elem_of_In, elem_of_seqZ; lia|]. rewrite Hplain by lia. apply Z.eqb_refl.
  - rewrite orb_false_r. by destruct k.
Qed.

Section matcher.
Context (r : cavan_regex_t) (d : Z) (str : list Z) (text_end : Z).
Hypothesis Hs : sized r.
Hypothesis Hd : d ≤ CAVAN_RE_DATA_MAX.
Hypothesis Hend : 0 ≤ text_end ≤ zlen str.

(** What is left of the text at a position. *)
Definition left_at (t : Z) : list Z := drop (Z.to_nat t) (take (Z.to_nat text_end) str).
Lemma left_cons t : 0 ≤ t < text_end → left_at t = str⟦t⟧ :: left_at (t + 1).
Proof using Hend.
  intros Ht. unfold left_at. replace (Z.to_nat (t + 1)) with (S (Z.to_nat t)) by lia. apply drop_S. unfold get.
  rewrite lookup_take_lt by lia. apply list_lookup_lookup_total_lt. unfold zlen in Hend. lia.
Qed.
Lemma left_nil t : text_end ≤ t → left_at t = [].
Proof. intros Ht. unfold left_at. apply drop_ge. rewrite length_take. lia. Qed.
Lemma left_drop t n : 0 ≤ t → 0 ≤ n → left_at (t + n) = drop (Z.to_nat n) (left_at t).
Proof. intros Ht Hn. unfold left_at. rewrite drop_drop. f_equal. lia. Qed.
Lemma left_zlen t : 0 ≤ t ≤ text_end → zlen (left_at t) = text_end - t.
Proof using Hend. intros Ht. unfold left_at, zlen in *. rewrite length_drop, length_take. lia. Qed.
Lemma left_app t w u : 0 ≤ t ≤ text_end → left_at t = w ++ u → t + zlen w ≤ text_end ∧ u = left_at (t + zlen w).
Proof using Hend.
  intros Ht E. pose proof (left_zlen t Ht) as Hl. rewrite E, zlen_app in Hl. pose proof (zlen_nonneg u). pose proof (zlen_nonneg w). split; [lia|].
  rewrite left_drop, E by lia. unfold zlen. by rewrite Nat2Z.id, drop_app_length.
Qed.

(** The comparisons. *)
Lemma strncmp_ok w : ∀ a b, 0 ≤ a → 0 ≤ b → a + zlen w ≤ text_end → b + zlen w ≤ CAVAN_RE_DATA_MAX → Forall (λ c, c ≠ 0) w →
  (∀ j, 0 ≤ j < zlen w → (chars r)⟦b + j⟧ = w⟦j⟧) →
  ∃ same, strncmp_eq (length w) str a (chars r) b = Ok same ∧ (same = true ↔ left_at a = w ++ left_at (a + zlen w)).
Proof using Hs Hend.
  induction w as [|c w IH]; intros a b Ha Hb Hra Hrb Hw Hj.
  - exists true. split; [done|]. change (zlen []) with 0. by rewrite Z.add_0_r.
  - rewrite zlen_cons in *. pose proof (zlen_nonneg w). apply Forall_cons in Hw as [Hc Hw]. simpl. rewrite (load_in str a) by lia. cbn [mbind cres_bind].
    rewrite (load_in (chars r) b) by (destruct Hs; lia). cbn [mbind cres_bind]. pose proof (Hj 0 ltac:(lia)) as H0. rewrite Z.add_0_r, get_cons_0 in H0. rewrite H0. rewrite left_cons by lia.
    destruct (Z.eqb_spec (str⟦a⟧) c) as [->|Hne]; simpl.
    + rewrite (proj2 (Z.eqb_neq c 0)) by done. destruct (IH (a + 1) (b + 1)) as (same & E & Hsame); [lia|lia|lia|lia|done| |].
      * intros j Hjw. replace (b + 1 + j) with (b + (j + 1)) by lia. rewrite Hj by lia. rewrite get_cons_pos by lia. f_equal. lia.
      * exists same. split; [done|]. rewrite Hsame. replace (a + 1 + zlen w) with (a + (zlen w + 1)) by lia. split; [by intros ->|by intros [= ->]].
    + exists false. split; [done|]. split; [done|]. by intros [= ?].
Qed.
Lemma array_match_ok c a w : 0 ≤ a → a + zlen w ≤ CAVAN_RE_DATA_MAX → (∀ j, 0 ≤ j < zlen w → (chars r)⟦a + j⟧ = w⟦j⟧) →
  cavan_regex_match_array (chars r) c a (zlen w) = Ok (existsb (array_test c) w).
Proof using Hs.
  intros Ha Hroom Hj. unfold cavan_regex_match_array.
  assert (∀ v u n b, w = u ++ v → b = a + zlen u → (length v < n)%nat →
    loop n (λ a', if a' <? a + zlen w then node ← load (chars r) a'; mret (if array_test c node then inr true else inl (a' + 1)) else mret (inr false)) b = Ok (existsb (array_test c) v)) as Hgo.
  { induction v as [|x v IH]; intros u n b Ew -> Hn; (destruct n as [|n]; [simpl in Hn; lia|]); rewrite loop_S; apply (f_equal zlen) in Ew as Hz; rewrite zlen_app in Hz.
    - change (zlen []) with 0 in Hz. rewrite (proj2 (Z.ltb_ge _ _)) by lia. done.
    - rewrite zlen_cons in Hz. pose proof (zlen_nonneg v). pose proof (zlen_nonneg u). rewrite (proj2 (Z.ltb_lt _ _)) by lia.
      rewrite (load_in (chars r)) by (destruct Hs; lia). cbn [mbind cres_bind mret cres_ret]. rewrite Hj by lia. rewrite Ew at 1.
      rewrite get_app_r, Z.sub_diag, get_cons_0 by lia. cbn [existsb]. destruct (array_test c x); [done|]. simpl in Hn.
      apply (IH (u ++ [x])); [by rewrite <-app_assoc|rewrite zlen_app; change (zlen [x]) with 1; lia|lia]. }
  apply (Hgo w []); [done|change (zlen []) with 0; lia|unfold zlen; lia].
Qed.

(** ** The rounds of the matcher *)

Lemma atom_code i a : atom_cell r d i a → code (commands r)⟦i⟧ ∉ [CAVAN_RE_NOOP; CAVAN_RE_TAIL; CAVAN_RE_END].
Proof. destruct a; simpl; [intros [-> _ _ _ _]|intros ->|intros ->|intros [-> _ _ _ _]..]; try destruct k; rewrite !not_elem_of_cons; split_and!; try done; apply not_elem_of_nil. Qed.

Section round.
Context (times : Z → Z → cres (option Z)) (cmd_end bak i t : Z).
Hypothesis Hi : 0 ≤ i < CAVAN_RE_CMD_MAX.
Hypothesis Hie : i < cmd_end.
Hypothesis Ht : 0 ≤ t < text_end.
Let round := match_round times r str cmd_end bak text_end (i, t).

(** The round of a command, by its code. *)
Lemma round_code : round = (
    let x := (commands r)⟦i⟧ in
    let fails : cres (Z * Z + (option Z + Z * Z)) := mret (inr (inl None)) in
    let goes (text : Z) : cres (Z * Z + (option Z + Z * Z)) := mret (inl (i + 1, text)) in
    let takes (b : Z → bool) := if b (str⟦t⟧) : bool then goes (t + 1) else fails in
    match code x with
    | CAVAN_RE_NOOP => goes t
    | CAVAN_RE_END => mret (inr (inl (Some t)))
    | CAVAN_RE_HEAD => if negb (t =? bak) then fails else goes t
    | CAVAN_RE_TAIL => fails
    | CAVAN_RE_ANY => goes (t + 1)
    | CAVAN_RE_TIMES => res ← times i t; match res with None => fails | Some text => mret (inl (i + 1 + 1, text)) end
    | CAVAN_RE_TXT =>
      if text_end - t <? clength x then fails
      else same ← strncmp_eq (Z.to_nat (clength x)) str t (chars r) (cdata x); if same : bool then goes (t + clength x) else fails
    | CAVAN_RE_SPACE => takes cavan_isspace
    | CAVAN_RE_NOT_SPACE => takes (negb ∘ cavan_isspace)
    | CAVAN_RE_DIGIT => takes cavan_isdigit
    | CAVAN_RE_NOT_DIGIT => takes (negb ∘ cavan_isdigit)
    | CAVAN_RE_WORD => takes cavan_isletter
    | CAVAN_RE_NOT_WORD => takes (negb ∘ cavan_isletter)
    | CAVAN_RE_ARRAY => has ← cavan_regex_match_array (chars r) (str⟦t⟧) (cdata x) (clength x); if has : bool then goes (t + 1) else fails
    | CAVAN_RE_NOT_ARRAY => has ← cavan_regex_match_array (chars r) (str⟦t⟧) (cdata x) (clength x); if has : bool then fails else goes (t + 1)
    | CAVAN_RE_START | CAVAN_RE_DOT => fails
    end).
Proof using All.
  unfold round, match_round. rewrite (proj2 (Z.ltb_lt i cmd_end)), (proj2 (Z.ltb_lt t text_end)) by lia. cbn [andb]. rewrite (load_in (commands r)) by (destruct Hs; lia).
  rewrite (load_in str) by lia. cbn [mbind cres_bind]. done.
Qed.
Lemma round_text w : chars_cell r d i CAVAN_RE_TXT w → Forall (λ c, c ≠ 0) w →
  ∃ same : bool, round = Ok (if same then inl (i + 1, t + zlen w) else inr (inl None)) ∧ (same = true ↔ t + zlen w ≤ text_end ∧ left_at t = w ++ left_at (t + zlen w)).
Proof using All.
  intros [H1 H2 H3 H4 H5] Hw. rewrite round_code. cbv zeta. rewrite H1, H2. pose proof (zlen_nonneg w). destruct (Z.ltb_spec (text_end - t) (zlen w)).
  - exists false. split; [done|]. split; [done|lia].
  - destruct (strncmp_ok w t (cdata (commands r)⟦i⟧)) as (same & E & Hsame); [lia|lia|lia|lia|done|done|]. replace (Z.to_nat (zlen w)) with (length w) by (unfold zlen; lia). rewrite E. exists same. split; [by destruct same|].
    rewrite Hsame. split; [intros ->; split; [lia|done]|by intros [_ ?]].
Qed.
Lemma round_atom a : atom_cell r d i a → atom_ok a → round = Ok (if takes a (str⟦t⟧) then inl (i + 1, t + 1) else inr (inl None)).
Proof using All.
  intros Ha Hok. destruct a as [c| |k|es|es]; simpl in *.
  - destruct (round_text [c] Ha) as (same & -> & Hsame); [apply Forall_singleton; lia|]. change (zlen [c]) with 1 in *. rewrite left_cons in Hsame by lia. destruct (Z.eqb_spec (str⟦t⟧) c) as [Ec|Hne].
    + rewrite Ec in Hsame. destruct same; [done|]. discriminate (proj2 Hsame ltac:(split; [lia|done])).
    + destruct same; [|done]. destruct (proj1 Hsame) as [_ [= ?]]; done.
  - rewrite round_code. cbv zeta. by rewrite Ha.
  - rewrite round_code. cbv zeta. rewrite Ha. destruct k; simpl; by destruct (_ (str⟦t⟧)).
  - destruct Ha as [H1 H2 H3 H4 H5]. rewrite round_code. cbv zeta. rewrite H1, H2, array_match_ok, existsb_set_bytes by (done || lia). cbn [mbind cres_bind]. by destruct (existsb _ _).
  - destruct Ha as [H1 H2 H3 H4 H5]. rewrite round_code. cbv zeta. rewrite H1, H2, array_match_ok, existsb_set_bytes by (done || lia). cbn [mbind cres_bind]. by destruct (existsb _ _).
Qed.
End round.

(** The matcher at a command. *)
Definition from_command (fuel n m : nat) (cmd_end bak i t : Z) : cres (option Z) :=
  res ← loop n (match_round (cavan_regex_match_times (cavan_regex_match_base fuel r str text_end) r) r str cmd_end bak text_end) (i, t);
  match res with inl answer => mret answer | inr (cmd, text) => loop m (finish_round r cmd_end text) cmd end.
Lemma match_base_S fuel i count t :
  cavan_regex_match_base (S fuel) r str text_end i count t = from_command fuel (S (Z.to_nat count)) (S (Z.to_nat count)) (i + count) t i t.
Proof. done. Qed.
Lemma round_stops times cmd_end bak i t : cmd_end ≤ i ∨ text_end ≤ t → match_round times r str cmd_end bak text_end (i, t) = Ok (inr (inr (i, t))).
Proof. intros Ht. unfold match_round. assert ((i <? cmd_end) && (t <? text_end) = false) as -> by (apply andb_false_iff; rewrite !Z.ltb_ge; lia). done. Qed.
Lemma finish_S m cmd_end t i (Q : option Z → Prop) :
  wp (finish_round r cmd_end t i) (λ res, match res with inl i => wp (loop m (finish_round r cmd_end t) i) Q | inr o => Q o end) → wp (loop (S m) (finish_round r cmd_end t) i) Q.
Proof. intros H. rewrite loop_S. apply wp_bind. eapply wp_mono; [exact H|]. by intros [i'|o]. Qed.
Lemma from_command_end fuel n m cmd_end bak i t : text_end ≤ t → from_command fuel (S n) m cmd_end bak i t = loop m (finish_round r cmd_end t) i.
Proof. intros Ht. unfold from_command. rewrite loop_S, round_stops by lia. done. Qed.
Lemma from_command_past fuel n m cmd_end bak t i (Q : option Z → Prop) : cmd_end ≤ i → Q (Some t) → wp (from_command fuel (S n) (S m) cmd_end bak i t) Q.
Proof.
  intros Hi HQ. unfold from_command. rewrite loop_S, round_stops by lia. cbn [mbind cres_bind]. apply finish_S. unfold finish_round.
  by rewrite (proj2 (Z.ltb_ge i cmd_end)) by done.
Qed.
Lemma from_command_S fuel n m cmd_end bak i t (Q : option Z → Prop) :
  wp (match_round (cavan_regex_match_times (cavan_regex_match_base fuel r str text_end) r) r str cmd_end bak text_end (i, t)) (λ res, match res with
    | inl (i, t) => wp (from_command fuel n m cmd_end bak i t) Q | inr (inl a) => Q a | inr (inr (c, t)) => wp (loop m (finish_round r cmd_end t) c) Q end) →
  wp (from_command fuel (S n) m cmd_end bak i t) Q.
Proof.
  intros H. unfold from_command. rewrite loop_S. apply wp_bind, wp_bind. eapply wp_mono; [exact H|]. intros [[i' t']|[a|[c t']]] Hr; [|by apply wp_ret|by apply wp_ret].
  unfold from_command in Hr. destruct (loop n _ (i', t')); done.
Qed.

Lemma base_one fuel a i t : atom_cell r d i a → atom_ok a → 0 ≤ i < CAVAN_RE_CMD_MAX → 0 ≤ t →
  cavan_regex_match_base (S fuel) r str text_end i 1 t = Ok (if (t <? text_end) && takes a (str⟦t⟧) then Some (t + 1) else None).
Proof using Hs Hd Hend.
  intros Ha Hok Hi Ht. rewrite match_base_S. change (S (Z.to_nat 1)) with 2%nat.
  match goal with |- ?l = ?x => destruct (proj1 (wp_ok l (λ o, Ok o = x))) as (o & -> & E); [|done] end. destruct (Z.ltb_spec t text_end); cbn [andb].
  - apply from_command_S. rewrite (round_atom _ (i + 1) t i t Hi ltac:(lia) ltac:(lia) a Ha Hok). destruct (takes a (str⟦t⟧)); [|done]. apply wp_ret. by apply from_command_past; [lia|].
  - rewrite from_command_end by lia. apply finish_S. unfold finish_round. rewrite (proj2 (Z.ltb_lt i (i + 1))) by lia. rewrite (load_in (commands r)) by (destruct Hs; lia). apply wp_ret.
    apply atom_code in Ha. rewrite !not_elem_of_cons in Ha. destruct (code _); naive_solver.
Qed.

(** ** Repetitions *)

(** From [t] to [m] every character is taken, and their number is allowed. *)
Definition run_to (a : atom) (t m : Z) : Prop := t ≤ m ≤ text_end ∧ ∀ j, t ≤ j < m → takes a (str⟦j⟧) = true.
Definition can_reach (q : quantifier) (a : atom) (t m : Z) : Prop := run_to a t m ∧ least q ≤ m - t ≤ most q.

Section times.
Context (base : Z → Z → Z → cres (option Z)) (i : Z) (q : quantifier) (a : atom) (R : Z → Prop).
Hypothesis Hi : 0 ≤ i < CAVAN_RE_CMD_MAX.
Hypothesis Hcell : times_cell r d i q.
Hypothesis Hone : ∀ t, 0 ≤ t ≤ text_end → base (i + 1) 1 t = Ok (if (t <? text_end) && takes a (str⟦t⟧) then Some (t + 1) else None).
Hypothesis Hrest : ∀ t, 0 ≤ t ≤ text_end → wp (base (i + 2) CAVAN_RE_CMD_MAX t) (λ o, is_Some o ↔ R t).

Lemma quantifier_bounds : 0 ≤ least q ≤ 1 ∧ 1 ≤ most q ≤ 255.
Proof. destruct q; simpl; lia. Qed.
(** The character that stops a run is beyond what can be reached. *)
Lemma stops_here t m k : run_to a t k → (k <? text_end) && takes a (str⟦k⟧) = false → run_to a t m → m ≤ k.
Proof.
  intros [Hk _] Hstop [Hm Ht]. destruct (Z.le_gt_cases m k); [done|]. rewrite (proj2 (Z.ltb_lt k text_end)), Ht in Hstop by lia. done.
Qed.
Lemma one_more t k : run_to a t k → (k <? text_end) && takes a (str⟦k⟧) = true → run_to a t (k + 1).
Proof.
  intros [Hk Ht] Hstep. apply andb_true_iff in Hstep as [Hlt Htk]. apply Z.ltb_lt in Hlt. split; [lia|]. intros j Hj. destruct (decide (j = k)) as [->|]; [done|apply Ht; lia].
Qed.

Lemma times_matches t : 0 ≤ t ≤ text_end →
  wp (cavan_regex_match_times base r i t) (λ o, match o with
    | Some m => can_reach q a t m ∧ (R m ↔ ∃ k, can_reach q a t k ∧ R k)
    | None => ¬ ∃ k, can_reach q a t k end).
Proof using Hs Hd Hi Hcell Hone Hrest.
  intros Ht. destruct Hcell as [H1 H2 H3 H4 H5]. pose proof quantifier_bounds as [Hlq Hmq]. unfold cavan_regex_match_times.
  apply wp_bind, wp_load; [destruct Hs; lia|]. apply wp_bind, wp_load; [destruct Hs; lia|]. apply wp_bind, wp_load; [destruct Hs; lia|]. rewrite H4, H5. apply wp_bind.
  apply (wp_loop (λ '(k, times), k = t + times ∧ 0 ≤ times ≤ least q ∧ run_to a t k) _ (λ x, Z.to_nat (least q - x.2))); [| |simpl; lia].
  - intros [k times] (-> & Hn & Hrun). destruct (Z.ltb_spec times (least q)).
    + apply wp_bind. rewrite Hone by (destruct Hrun; lia). apply wp_ret. apply wp_ret. destruct (_ && _) eqn:E; cbn [snd].
      * apply (one_more t) in E; [|done]. rewrite wrap_small by lia. split; [|lia]. split; [lia|]. split; [lia|done].
      * intros (m & Hm & Hmn). apply (stops_here t m) in E; [lia|done|done].
    + apply wp_ret. assert (times = least q) as -> by lia.
      apply wp_bind, (wp_loop (λ '(k, m, times), k = t + times ∧ least q ≤ times ≤ most q ∧ run_to a t k ∧ t + least q ≤ m ≤ k ∧ ∀ x, t + least q ≤ x ≤ k → R x → R m) _ (λ x, Z.to_nat (most q - x.2))); [| |simpl; lia].
      * intros [[k m] times] (-> & Hn' & Hrun' & Hm & HR).
        assert ((∀ x, run_to a t x → x - t ≤ most q → x ≤ t + times) → can_reach q a t m ∧ (R m ↔ ∃ x, can_reach q a t x ∧ R x)) as Hleave.
        { intros Hmax. assert (can_reach q a t m) as Hc by (split; [split; [destruct Hrun'; lia|intros j Hj; apply Hrun'; lia]|lia]). split; [done|].
          split; [intros ?; by exists m|]. intros (x & [Hx Hxn] & HRx). apply (HR x); [|done]. specialize (Hmax x Hx ltac:(lia)). lia. }
        destruct (Z.ltb_spec times (most q)); [|apply wp_ret; apply wp_ret, Hleave; lia].
        apply wp_bind. rewrite Hone by (destruct Hrun'; lia). apply wp_ret. destruct (_ && _) eqn:E; [|apply wp_ret, wp_ret, Hleave; intros x Hx _; by apply (stops_here t x) in E].
        apply (one_more t) in E; [|done]. apply wp_bind. eapply wp_mono; [apply Hrest; destruct E; lia|]. intros o Ho. apply wp_ret. cbn [snd]. rewrite wrap_small by lia. split; [|lia].
        split; [lia|]. split; [lia|]. split; [done|]. destruct o as [x|].
        -- split; [lia|]. intros ? _ _. apply Ho. eauto.
        -- split; [lia|]. intros x Hx HRx. destruct (decide (x = t + times + 1)) as [->|]; [by apply Ho in HRx as [? ?]|]. apply (HR x); [lia|done].
      * split; [done|]. split; [lia|]. split; [done|]. split; [lia|]. intros x Hx HRx. by replace (t + least q) with x by lia.
  - split; [lia|]. split; [lia|]. split; [lia|]. lia.
Qed.
End times.

(** What a repetition can reach is what [accepts] asks for. *)
Lemma reach_split q a t l : 0 ≤ t ≤ text_end →
  (∃ w u, left_at t = w ++ u ∧ least q ≤ zlen w ≤ most q ∧ Forall (λ c, takes a c = true) w ∧ accepts l u) ↔ ∃ m, can_reach q a t m ∧ accepts l (left_at m).
Proof using Hend.
  intros Ht. split.
  - intros (w & u & E & Hn & Hw & Hl). destruct (left_app t w u Ht E) as [Hm ->]. exists (t + zlen w). split; [|done]. pose proof (zlen_nonneg w). split; [|lia]. split; [lia|].
    intros j Hj. rewrite Forall_lookup in Hw. assert (left_at t !! Z.to_nat (j - t) = Some (str⟦j⟧)) as Hlk.
    { pose proof (left_cons j ltac:(lia)) as Ej. replace j with (t + (j - t)) in Ej at 1 by lia. rewrite left_drop in Ej by lia.
      rewrite <-(Nat.add_0_r (Z.to_nat (j - t))), <-lookup_drop, Ej. done. }
    rewrite E, lookup_app_l in Hlk by (unfold zlen in Hj; lia). by apply Hw in Hlk.
  - intros (m & [[Hm Htk] Hn] & Hl). exists (take (Z.to_nat (m - t)) (left_at t)), (left_at m). pose proof (left_zlen t Ht) as Hz. split.
    + replace m with (t + (m - t)) at 2 by lia. rewrite left_drop by lia. by rewrite take_drop.
    + split; [|split; [|done]].
      * unfold zlen in *. rewrite length_take. lia.
      * apply Forall_lookup. intros k c Hc. apply lookup_take_Some in Hc as [Hc Hk]. assert (left_at (t + Z.of_nat k) = str⟦t + Z.of_nat k⟧ :: left_at (t + Z.of_nat k + 1)) as Ek by (apply left_cons; lia).
        rewrite left_drop, Nat2Z.id in Ek by lia. apply drop_S in Hc as Hc'. rewrite Ek in Hc'. injection Hc' as <- _. apply Htk. lia.
Qed.

(** ** The matcher decides [accepts] *)

Fixpoint ends (l : list op) : Prop := match l with [] => False | End :: _ => True | _ :: l => ends l end.
Lemma ends_width l : ends l → 1 ≤ width l.
Proof. destruct l as [|o l]; [done|]. intros _. rewrite width_cons. pose proof (op_width_pos o). pose proof (width_nonneg l). lia. Qed.

Lemma finish_commands_ok l t cmd_end : ∀ m i, codes r d i l → ends l → 0 ≤ i → i + width l ≤ CAVAN_RE_CMD_MAX → i + width l ≤ cmd_end → width l < Z.of_nat m →
  wp (loop m (finish_round r cmd_end t) i) (λ o, is_Some o ↔ accepts l []).
Proof using Hs Hend.
  induction l as [|o l IH]; intros m i; [done|]. rewrite width_cons. intros [Ho Hl] He Hi Hr Hce Hm. pose proof (op_width_pos o). pose proof (width_nonneg l).
  destruct m as [|m]; [lia|]. apply finish_S. unfold finish_round. rewrite (proj2 (Z.ltb_lt i cmd_end)) by lia. apply wp_bind, wp_load; [destruct Hs; lia|]. apply wp_ret.
  assert (∀ P, is_Some (@None Z) ↔ ([] : list Z) ≠ [] ∧ P) as Hnone by (intros P; split; [by intros []|by intros []]).
  destruct o as [| | | |w|a|q a].
  - simpl in Ho. rewrite Ho. apply IH; [done|done|lia|simpl in *; lia..].
  - simpl in Ho. rewrite Ho. apply Hnone.
  - simpl in Ho. rewrite Ho. split; [done|eauto].
  - simpl in Ho. rewrite Ho. split; [done|eauto].
  - destruct Ho as [[-> _ _ _ _] _]. apply Hnone.
  - destruct Ho as (Ha & _). apply atom_code in Ha. rewrite !not_elem_of_cons in Ha. assert (is_Some (@None Z) ↔ accepts (One a :: l) []) as Hn.
    { split; [by intros []|]. by intros (c & u & ? & _). }
    destruct (code _); naive_solver.
  - destruct Ho as ([-> _ _ _ _] & _). apply Hnone.
Qed.

Lemma commands_ok l cmd_end bak : Forall (λ o, o ≠ Head) l → ∀ fuel n m i t, codes r d i l → ends l → 0 ≤ i → i + width l ≤ CAVAN_RE_CMD_MAX → i + width l ≤ cmd_end →
  width l ≤ Z.of_nat fuel → width l < Z.of_nat n → width l < Z.of_nat m → 0 ≤ t ≤ text_end →
  wp (from_command fuel n m cmd_end bak i t) (λ o, is_Some o ↔ accepts l (left_at t)).
Proof using Hs Hd Hend.
  revert cmd_end bak. induction l as [|o l IH]; intros cmd_end bak Hh fuel n m i t Hcodes He Hi Hr Hce Hf Hn Hm Ht; [done|].
  apply Forall_cons in Hh as [Ho Hh]. pose proof (op_width_pos o). pose proof (width_nonneg l). pose proof (width_cons o l). destruct n as [|n]; [lia|].
  destruct (Z.ltb_spec t text_end) as [Hlt|Hge].
  2:{ rewrite from_command_end, left_nil by lia. by apply finish_commands_ok. }
  rewrite width_cons in Hr, Hce, Hf, Hn, Hm. destruct Hcodes as [Hc Hl]. assert (left_at t ≠ []) as Hne by (by rewrite left_cons by lia).
  apply from_command_S. assert (0 ≤ i < CAVAN_RE_CMD_MAX) as Hi' by lia.
  set (times := cavan_regex_match_times (cavan_regex_match_base fuel r str text_end) r). pose proof (round_code times cmd_end bak i t Hi' ltac:(lia) ltac:(lia)) as Hround. cbv zeta in Hround.
  destruct o as [| | | |w|a|q a]; [| |..|].
  - simpl in Hc. rewrite Hround, Hc. apply wp_ret. simpl in Hl. apply IH; [done|done|done|lia|simpl in *; lia..].
  - done.
  - simpl in Hc. rewrite Hround, Hc. apply wp_ret. simpl. split; [by intros []|done].
  - simpl in Hc. rewrite Hround, Hc. apply wp_ret. simpl. split; [done|eauto].
  - destruct Hc as (Hc & _ & Hnz). destruct (round_text times cmd_end bak i t Hi' ltac:(lia) ltac:(lia) w Hc Hnz) as (same & -> & Hsame). destruct same; apply wp_ret.
    + destruct Hsame as [Hsame _]. specialize (Hsame eq_refl) as [Hw E]. pose proof (zlen_nonneg w). eapply wp_mono; [apply IH; [done|done|done|lia|simpl in *; lia..]|].
      intros o ->. simpl. split; [intros Ha; split; [done|]; by exists (left_at (t + zlen w))|].
      intros (_ & u & Eu & Ha). rewrite E in Eu. by apply app_inv_head in Eu as <-.
    + split; [by intros []|]. simpl. intros (_ & u & Eu & _). destruct (left_app t w u ltac:(lia) Eu) as [Hw ->]. discriminate (proj2 Hsame (conj Hw Eu)).
  - destruct Hc as (Ha & Hok & _). rewrite (round_atom times cmd_end bak i t Hi' ltac:(lia) ltac:(lia) a Ha Hok). simpl accepts. rewrite left_cons by lia.
    destruct (takes a (str⟦t⟧)) eqn:Et; apply wp_ret.
    + eapply wp_mono; [apply IH; [done|done|done|lia|simpl in *; lia..]|]. intros o ->. split; [intros ?; by exists (str⟦t⟧), (left_at (t + 1))|]. by intros (c & u & [= <- <-] & _ & ?).
    + split; [by intros []|]. intros (c & u & [= <- _] & Hc & _). by rewrite Et in Hc.
  - destruct Hc as (Hc & Ha & Hok). simpl in Hl, Hr, Hce, Hf, Hn, Hm. rewrite Hround, (tc_code _ _ _ _ Hc). apply wp_bind. destruct fuel as [|fuel]; [lia|].
    assert (∀ t', 0 ≤ t' ≤ text_end → wp (cavan_regex_match_base (S fuel) r str text_end (i + 2) CAVAN_RE_CMD_MAX t') (λ o, is_Some o ↔ accepts l (left_at t'))) as Hrest.
    { intros t' Ht'. rewrite match_base_S. apply IH; [done|done|done|lia|lia|lia|lia|unfold CAVAN_RE_CMD_MAX in *; lia..|done]. }
    eapply wp_mono; [apply (times_matches _ i q a (λ t, accepts l (left_at t)) Hi' Hc)|].
    + intros t' Ht'. apply base_one; [done|done|lia|lia].
    + exact Hrest.
    + lia.
    + simpl accepts. intros o Ho'. pose proof (reach_split q a t l ltac:(lia)) as Hsplit. destruct o as [k|].
      * destruct Ho' as [Hk HR]. apply wp_ret. replace (i + 1 + 1) with (i + 2) by lia. destruct Hk as [[Hk _] _]. eapply wp_mono; [apply IH; [done|done|done|lia|lia..]|].
        intros o ->. rewrite HR, <-Hsplit. naive_solver.
      * apply wp_ret. split; [by intros []|]. intros (_ & (k & Hk & _)%Hsplit). destruct Ho'. by exists k.
Qed.

(** A whole expression: the matcher starts at its first command. *)
Lemma match_ok p k : compiles r d p k → Forall (λ o, o ≠ Head) (k ++ (if tail p then [Tail] else []) ++ [End]) →
  wp (cavan_regex_match r str text_end) (λ b, b = true ↔ accepts (program p k) (left_at 0)).
Proof using Hs Hd Hend.
  intros [_ _ Hcodes Hw _ _] Hh. unfold cavan_regex_match. rewrite match_base_S.
  assert (ends (k ++ (if tail p then [Tail] else []) ++ [End])) as He.
  { clear. induction k as [|o k IH]; [by destruct (tail p)|]. by destruct o. }
  apply wp_bind. eapply (wp_mono _ (λ o, is_Some o ↔ accepts (program p k) (left_at 0))); [|intros o Ho; apply wp_ret; rewrite <-Ho; destruct o; split; [eauto|done|done|by intros []]].
  set (l := k ++ (if tail p then [Tail] else []) ++ [End]) in *. change (program p k) with (rev (base_ops (head p)) ++ l) in *. pose proof (width_nonneg l).
  destruct (head p); simpl in Hcodes; simpl app in *.
  - destruct (Z.ltb_spec 0 text_end).
    + destruct Hcodes as (C0 & C1 & Hl). rewrite !width_cons in Hw. simpl in Hw. set (f := Z.to_nat CAVAN_RE_CMD_MAX). assert (f = 200%nat) as Ef by done.
      apply from_command_S. rewrite round_code by (unfold CAVAN_RE_CMD_MAX; lia). cbv zeta. rewrite C0. apply wp_ret. rewrite Ef. change (200)%nat with (S 199). apply from_command_S.
      rewrite round_code by (unfold CAVAN_RE_CMD_MAX; lia). cbv zeta. rewrite C1. apply wp_ret. eapply wp_mono; [apply (commands_ok l); [done|done|done|lia|unfold CAVAN_RE_CMD_MAX in *; lia..|lia]|].
      intros o ->. simpl. rewrite (left_cons 0) by lia. naive_solver.
    + rewrite from_command_end, left_nil by lia. change (0 + CAVAN_RE_CMD_MAX) with CAVAN_RE_CMD_MAX. apply finish_commands_ok; [done|done|lia|done|done|lia].
  - change (Noop :: l) with ([Noop] ++ l). apply commands_ok; [by constructor|done|done|unfold CAVAN_RE_CMD_MAX in *; simpl app; lia..].
Qed.
End matcher.

(** ** Languages *)

Lemma spells_app l1 l2 w : spells (l1 ++ l2) w ↔ ∃ w1 w2, w = w1 ++ w2 ∧ spells l1 w1 ∧ spells l2 w2.
Proof.
  revert w. induction l1 as [|[a q] l1 IH]; intros w; simpl.
  { split; [intros Hw; by exists [], w|]. by intros (w1 & w2 & -> & -> & Hw). }
  split.
  - intros (v1 & v2 & -> & Hn & Hv & (w1 & w2 & -> & H1 & H2)%IH). exists (v1 ++ w1), w2. rewrite <-app_assoc. eauto 10.
  - intros (w1 & w2 & -> & (v1 & v2 & -> & Hn & Hv & H1) & H2). exists v1, (v2 ++ w2). rewrite <-app_assoc. split_and!; [done|lia|lia|done|]. apply IH. eauto.
Qed.
Lemma spells_one a q w : spells [(a, q)] w ↔ least q ≤ zlen w ≤ most q ∧ Forall (λ c, takes a c = true) w.
Proof.
  simpl. split.
  - intros (w1 & w2 & -> & Hn & Hw & ->). by rewrite app_nil_r.
  - intros [Hn Hw]. exists w, []. by rewrite app_nil_r.
Qed.
Lemma spells_chars w u : spells ((λ c, (Is c, Once)) <$> w) u ↔ u = w.
Proof.
  revert u. induction w as [|c w IH]; intros u; [done|]. rewrite fmap_cons. change (?x :: ?l) with ([x] ++ l) at 1. rewrite spells_app. setoid_rewrite IH. setoid_rewrite spells_one. simpl. split.
  - intros (w1 & w2 & -> & [Hn Hw] & ->). destruct w1 as [|x [|y w1]]; [change (zlen []) with 0 in Hn; simpl in Hn; lia| |rewrite !zlen_cons in Hn; pose proof (zlen_nonneg w1); lia].
    apply Forall_singleton, Z.eqb_eq in Hw as ->. done.
  - intros ->. exists [c], w. split; [done|]. split; [|done]. split; [done|]. apply Forall_singleton, Z.eqb_refl.
Qed.
Lemma accepts_plain o l u : plain_op o → o ≠ Noop → accepts (o :: l) u ↔ u ≠ [] ∧ ∃ w u', u = w ++ u' ∧ spells (op_items o) w ∧ accepts l u'.
Proof.
  intros Ho Hn. destruct o as [| | | |v|a|q a]; try done; cbn [accepts op_items].
  - setoid_rewrite spells_chars. naive_solver.
  - setoid_rewrite spells_one. split.
    + intros (c & u' & -> & Hc & Hl). split; [done|]. exists [c], u'. split_and!; [done|done|done|by apply Forall_singleton|done].
    + intros (_ & w & u' & -> & [Hw Hf] & Hl). simpl in Hw. destruct w as [|x [|y w]]; [change (zlen []) with 0 in Hw; lia| |rewrite !zlen_cons in Hw; pose proof (zlen_nonneg w); lia].
      apply Forall_cons in Hf as [Hx _]. by exists x, u'.
  - setoid_rewrite spells_one. naive_solver.
Qed.

(** The last item needs a character. *)
Definition firm (its : list (atom * quantifier)) : Prop := match last its with Some (_, q) => least q = 1 | None => True end.
Lemma firm_app l k : firm (l ++ k) → k ≠ [] → firm k.
Proof. unfold firm. intros H Hk. rewrite last_app in H. destruct (last k) eqn:E; [done|]. by apply last_None in E. Qed.
Lemma firm_spells its w : firm its → its ≠ [] → spells its w → w ≠ [].
Proof.
  intros Hf Hne Hs ->. destruct its as [|x its _] using rev_ind; [done|]. unfold firm in Hf. rewrite last_snoc in Hf. destruct x as [a q].
  apply spells_app in Hs as (w1 & w2 & E & _ & [Hn _]%spells_one). symmetry in E. apply app_eq_nil in E as [_ ->]. change (zlen []) with 0 in Hn. lia.
Qed.

Lemma accepts_spells k : Forall plain_op k → ∀ l u, accepts (k ++ l) u → ∃ w rest, u = w ++ rest ∧ spells (op_list_items k) w ∧ accepts l rest.
Proof.
  induction 1 as [|o k Ho Hk IH]; intros l u; [by exists [], u|]. destruct (decide (is_noop o = true)) as [E|E].
  - destruct o; try done. apply IH.
  - rewrite <-app_comm_cons, accepts_plain by (done || (intros ->; done)). intros (_ & w & u' & -> & Hw & (w2 & rest & -> & Hw2 & Hl)%IH). exists (w ++ w2), rest. rewrite app_assoc.
    split; [done|]. split; [|done]. simpl. apply spells_app. by exists w, w2.
Qed.
Lemma spells_accepts k : Forall plain_op k → Forall (λ o, o ≠ Txt []) k → firm (op_list_items k) → ∀ l w rest, spells (op_list_items k) w → accepts l rest → accepts (k ++ l) (w ++ rest).
Proof.
  induction 1 as [|o k Ho Hk IH]; intros Htxt Hf l w rest Hw Hl; [by rewrite Hw|]. apply Forall_cons in Htxt as [Ho' Htxt]. simpl in Hf, Hw.
  destruct (decide (is_noop o = true)) as [E|E]; [destruct o; try done; by apply IH|].
  assert (op_items o ≠ []) as Hi by (destruct o as [| | | |[|c v]| |]; done).
  rewrite <-app_comm_cons, accepts_plain by (done || (intros ->; done)). apply spells_app in Hw as Hw'. destruct Hw' as (w1 & w2 & -> & H1 & H2). split.
  - intros E0. apply app_eq_nil in E0 as [E0 _]. by apply (firm_spells (op_items o ++ op_list_items k) (w1 ++ w2)); [|by destruct (op_items o)| |].
  - exists w1, (w2 ++ rest). rewrite app_assoc. split; [done|]. split; [done|]. apply IH; [done| |done|done].
    destruct (op_list_items k) eqn:Ek; [done|]. by apply (firm_app (op_items o)) in Hf.
Qed.

(** ** Properties *)

(** C24: a [pattern_ok] expression compiles, and matching it with a text
    returns; if the answer is yes then the text begins with a word of the
    expression (is one, under [$]); and it is yes for every such text when the
    last item of the expression takes a character.  [pattern_ok] asks that the
    expression fits the tables of the code, which nothing checks while it is
    compiled (regex.c:186): one command for an item, three for one with a
    quantifier and four more are at most 200, and the characters of all items,
    those a range stands for and two for a quantifier, at most 4096; that the
    characters between brackets are ASCII (a class is coded there as a number
    from 128 on, regex.c:390), the start of a range below 127; and that none is
    0.  The language is the one the code has: [Star] and [Plus] go up to 255, and
    a range leaves out its end unless it is its start (regex.c:210). *)
Theorem cavan_regex_matches_its_language p r0 str n : pattern_ok p → sized r0 → 0 ≤ n ≤ zlen str →
  ∃ r b, cavan_regex_compile r0 (write_pattern p) = Ok (0, r) ∧ cavan_regex_match r str n = Ok b ∧
    (b = true → matches_text p (take (Z.to_nat n) str)) ∧
    (ends_firmly p → matches_text p (take (Z.to_nat n) str) → b = true).
Proof.
  intros Hp Hs Hn. destruct (compile_ok p r0 Hp Hs) as (r & d & k & Hc & Hk). exists r.
  assert (Forall (λ o, o ≠ Head) (k ++ (if tail p then [Tail] else []) ++ [End])) as Hh.
  { apply Forall_app. split; [eapply Forall_impl; [apply Hk|by intros [] ? [=]]|]. destruct (tail p); by repeat constructor. }
  destruct (proj1 (wp_ok _ _) (match_ok r d str n (cp_sized _ _ _ _ Hk) (proj2 (cp_data _ _ _ _ Hk)) Hn p k Hk Hh)) as (b & Hb & Hacc). exists b. split; [done|]. split; [done|].
  change (left_at str n 0) with (take (Z.to_nat n) str) in Hacc. set (u := take (Z.to_nat n) str) in *. rewrite Hacc.
  assert (∀ u, accepts ((if tail p then [Tail] else []) ++ [End]) u ↔ (tail p = true → u = [])) as Htail by (intros v; destruct (tail p); simpl; naive_solver).
  pose proof (cp_plain _ _ _ _ Hk) as Hplain. pose proof (cp_items _ _ _ _ Hk) as Hits. unfold program. split.
  - intros Ha. assert (accepts (k ++ (if tail p then [Tail] else []) ++ [End]) u) as Ha' by (destruct (head p); simpl in Ha; tauto).
    apply accepts_spells in Ha' as (w & rest & Eu & Hw & Hl); [|done]. exists w, rest. rewrite <-Hits. split; [done|]. split; [done|]. by apply Htail.
  - intros (its & a & q & Eits & Hq) (w & rest & Eu & Hw & Hl). rewrite <-Hits in Hw, Eits. apply Htail in Hl.
    assert (Forall (λ o, o ≠ Txt []) k) as Htxt.
    { pose proof (cp_codes _ _ _ _ Hk) as Hcd. unfold program in Hcd. apply codes_app in Hcd as [_ [Hcd _]%codes_app]. revert Hcd. generalize (0 + width (rev (base_ops (head p)))). clear. 
      induction k as [|o k IH]; intros i Hcd; [done|]. destruct Hcd as [Ho Hl]. constructor; [|by eapply IH]. intros ->. by destruct Ho as (_ & ? & _). }
    assert (firm (op_list_items k)) as Hf by (unfold firm; by rewrite Eits, last_snoc).
    pose proof (spells_accepts k Hplain Htxt Hf _ w rest Hw Hl) as Ha. rewrite <-Eu in Ha.
    assert (u ≠ []) as Hu. { intros E0. rewrite E0 in Eu. symmetry in Eu. apply app_eq_nil in Eu as [Ew _]. apply (firm_spells _ w Hf); [rewrite Eits; by destruct its|done|done]. }
    destruct (head p); simpl; tauto.
Qed.
Definition any_regex : cavan_regex_t := mk_regex (replicate 200 (mk_command CAVAN_RE_DOT 7 7)) (replicate 4096 1).
Lemma cavan_regex_matches_its_language_witness :
  let p := mk_pattern true [(Is 97, Once); (In [Range 98 101; Char 95], Plus); (NotIn [Class Space], Star); (Of Digit, Once)] true in
  let str := [97; 98; 95; 120; 55] in
  ∃ r b, cavan_regex_compile any_regex (write_pattern p) = Ok (0, r) ∧ cavan_regex_match r str 5 = Ok b ∧
    (b = true → matches_text p (take (Z.to_nat 5) str)) ∧
    (ends_firmly p → matches_text p (take (Z.to_nat 5) str) → b = true).
Proof.
  intros p str. apply (cavan_regex_matches_its_language p any_regex str 5).
  - split; [|split; [vm_compute; discriminate|vm_compute; discriminate]]. repeat constructor; simpl; lia.
  - split; reflexivity.
  - split; [lia|vm_compute; discriminate].
Defined.

(** ** Runs *)

(** Compile a pattern and match a text. *)
Definition run_regex (pattern text : list Z) : cres (Z + bool) :=
  '(e, r) ← cavan_regex_compile any_regex (pattern ++ [0]);
  if e =? 0 then b ← cavan_regex_match r text (zlen text); mret (inr b) else mret (inl e).

(** [^a*b\d$] and ["aab7"]; a bracket that is not closed. *)
Example run_star : run_regex [94; 97; 42; 98; 92; 100; 36] [97; 97; 98; 55] = Ok (inr true) ∧ run_regex [94; 97; 42; 98; 92; 100; 36] [97; 97; 98; 120] = Ok (inr false).
Proof. vm_compute. done. Qed.
Example open_bracket : run_regex [91; 97; 98] [97] = Ok (inl (- EINVAL)).
Proof. vm_compute. done. Qed.
(** [[a-z]] is not the class of ["z"]. *)
Example range_end_left_out : run_regex [91; 97; 45; 122; 93] [121] = Ok (inr true) ∧ run_regex [91; 97; 45; 122; 93] [122] = Ok (inr false).
Proof. vm_compute. done. Qed.
(** [ab*] does not match ["a"], nor [a*] the empty text: a repetition that is
    met at the end of the text fails. *)
Example star_at_the_end : run_regex [97; 98; 42] [97] = Ok (inr false) ∧ run_regex [97; 42] [] = Ok (inr false) ∧ run_regex [97; 98; 42] [97; 98] = Ok (inr true).
Proof. vm_compute. done. Qed.
(** [a*b] does not match 256 times ["a"] and a ["b"]. *)
Example star_stops_at_255 : run_regex [97; 42; 98] (replicate 255 97 ++ [98]) = Ok (inr true) ∧ run_regex [97; 42; 98] (replicate 256 97 ++ [98]) = Ok (inr false).
Proof. vm_compute. done. Qed.
(** [a$b] matches ["a"]: nothing after [$] is looked at. *)
Example tail_in_the_middle : run_regex [97; 36; 98] [97] = Ok (inr true).
Proof. vm_compute. done. Qed.
(** [^] does not match the empty text. *)
Example head_of_nothing : run_regex [94] [] = Ok (inr false) ∧ run_regex [94; 36] [] = Ok (inr false).
Proof. vm_compute. done. Qed.
(** A character that is not ASCII is lost inside brackets. *)
Example bracket_of_bytes : run_regex [91; 195; 93] [195] = Ok (inr false) ∧ run_regex [195] [195] = Ok (inr true).
Proof. vm_compute. done. Qed.
(** No bound is kept: 200 commands overrun the array, a backslash at the end of
    the pattern reads past its terminator. *)
Example commands_overrun : run_regex (replicate 199 46) [] = Undef.
Proof. vm_compute. done. Qed.
Example backslash_at_the_end : run_regex [97; 92] [97] = Undef.
Proof. vm_compute. done. Qed.
