(* ===== verification/Thread.v ===== *)
(** Thread: the worker threads of src/lib/thread.c.

    A thread runs its handler again and again; it can be suspended and resumed,
    it sleeps or waits for an event inside its handler, and it can be stopped.
    [thread->lock] is held but while the thread waits or runs its handler, so
    the code between is one step.  The calls of pthreads do not fail. *)
From stdpp Require Import relations.
From S2P Require Import Prelude.

Inductive cavan_thread_state_t :=
| CAVAN_THREAD_STATE_NONE | CAVAN_THREAD_STATE_IDLE | CAVAN_THREAD_STATE_RUNNING | CAVAN_THREAD_STATE_SLEEP
| CAVAN_THREAD_STATE_SUSPEND | CAVAN_THREAD_STATE_WAIT_EVENT | CAVAN_THREAD_STATE_STOPPPING | CAVAN_THREAD_STATE_STOPPED.
#[export] Instance thread_state_eq_dec : EqDecision cavan_thread_state_t.
Proof. solve_decision. Defined.

(** [signalled]: [thread->cond] was signalled since the thread waits on it;
    [events]: what the pipe of events holds. *)
Record cavan_thread_t := mk_thread {
  pending : bool;
  state : cavan_thread_state_t;
  signalled : bool;
  events : Z }.
Definition set_state (x : cavan_thread_state_t) (t : cavan_thread_t) : cavan_thread_t := mk_thread (pending t) x (signalled t) (events t).
Definition set_pending (b : bool) (t : cavan_thread_t) : cavan_thread_t := mk_thread b (state t) (signalled t) (events t).
Definition set_signalled (b : bool) (t : cavan_thread_t) : cavan_thread_t := mk_thread (pending t) (state t) b (events t).

Definition pthread_cond_signal (t : cavan_thread_t) : cavan_thread_t := set_signalled true t.
Definition cavan_thread_send_event (t : cavan_thread_t) : cavan_thread_t := mk_thread (pending t) (state t) (signalled t) (events t + 1).
Definition cavan_thread_wake_handler_none (t : cavan_thread_t) : cavan_thread_t := t.
Definition cavan_thread_wake_handler_send_event (t : cavan_thread_t) : cavan_thread_t := cavan_thread_send_event t.

(** ** What other threads call *)

Section calls.
(** [wake_handker]: the wake handler of the thread. *)
Context (wake_handker : cavan_thread_t → cavan_thread_t).

Definition cavan_thread_resume (t : cavan_thread_t) : cavan_thread_t :=
  let t := set_pending true t in
  match state t with
  | CAVAN_THREAD_STATE_WAIT_EVENT => wake_handker (pthread_cond_signal (set_state CAVAN_THREAD_STATE_RUNNING (cavan_thread_send_event t)))
  | CAVAN_THREAD_STATE_SUSPEND | CAVAN_THREAD_STATE_SLEEP => wake_handker (pthread_cond_signal (set_state CAVAN_THREAD_STATE_RUNNING t))
  | CAVAN_THREAD_STATE_RUNNING => wake_handker t
  | _ => t
  end.
Definition cavan_thread_suspend (t : cavan_thread_t) : cavan_thread_t :=
  match state t with
  | CAVAN_THREAD_STATE_WAIT_EVENT | CAVAN_THREAD_STATE_RUNNING | CAVAN_THREAD_STATE_SLEEP => set_state CAVAN_THREAD_STATE_SUSPEND t
  | _ => t
  end.
(** A round of [cavan_thread_stop], and whether it is the last one. *)
Definition stop_round (t : cavan_thread_t) : cavan_thread_t * bool :=
  match state t with
  | CAVAN_THREAD_STATE_STOPPPING => (wake_handker (pthread_cond_signal t), false)
  | CAVAN_THREAD_STATE_WAIT_EVENT => (wake_handker (pthread_cond_signal (set_state CAVAN_THREAD_STATE_STOPPPING (cavan_thread_send_event t))), false)
  | CAVAN_THREAD_STATE_SLEEP | CAVAN_THREAD_STATE_SUSPEND | CAVAN_THREAD_STATE_RUNNING =>
    (wake_handker (pthread_cond_signal (set_state CAVAN_THREAD_STATE_STOPPPING t)), false)
  | _ => (set_state CAVAN_THREAD_STATE_STOPPED t, true)
  end.
(** After the rounds: the thread is killed unless it has stopped. *)
Definition stop_end (t : cavan_thread_t) : cavan_thread_t * bool :=
  (set_state CAVAN_THREAD_STATE_STOPPED t, negb (bool_decide (state t = CAVAN_THREAD_STATE_STOPPED))).
(** [created]: what [cavan_pthread_create] answers. *)
Definition cavan_thread_start (created : Z) (t : cavan_thread_t) : Z * cavan_thread_t :=
  if bool_decide (state t = CAVAN_THREAD_STATE_NONE) then
    if created <? 0 then (created, t) else (created, set_state CAVAN_THREAD_STATE_IDLE t)
  else (0, t).
End calls.

(** What the initialisers of an init answer. *)
Record init_answers := mk_init_answers { mutex_init : Z; cond_init : Z; pipe2 : Z; epoll_create : Z; epoll_ctl : Z }.
Definition cavan_thread_epoll_add (ctl : Z) : Z := if ctl <? 0 then ctl else 0.
(** [handler]: there is one.  The pipe of events is a new one. *)
Definition cavan_thread_init (handler : bool) (a : init_answers) (t : cavan_thread_t) : Z * cavan_thread_t :=
  if negb handler then (- EINVAL, t)
  else if mutex_init a <? 0 then (mutex_init a, t)
  else if cond_init a <? 0 then (cond_init a, t)
  else if pipe2 a <? 0 then (pipe2 a, t)
  else if epoll_create a <? 0 then (epoll_create a, t)
  else let ret := cavan_thread_epoll_add (epoll_ctl a) in
    if ret <? 0 then (ret, t) else (0, mk_thread (pending t) CAVAN_THREAD_STATE_NONE false 0).
Definition CAVAN_THREADF_PIPE_WAKEUP : Z := 1.
(** The wake handler after the init: the caller's, or one that [flags] choose. *)
Definition init_wake_handker (wake_handker : option (cavan_thread_t → cavan_thread_t)) (flags : Z) : cavan_thread_t → cavan_thread_t :=
  match wake_handker with
  | Some f => f
  | None => if negb (Z.land flags CAVAN_THREADF_PIPE_WAKEUP =? 0) then cavan_thread_wake_handler_send_event else cavan_thread_wake_handler_none
  end.
Definition cavan_thread_run (handler : bool) (a : init_answers) (created : Z) (t : cavan_thread_t) : Z * cavan_thread_t :=
  let '(ret, t) := cavan_thread_init handler a t in
  if ret <? 0 then (ret, t)
  else let '(ret, t) := cavan_thread_start created t in if ret <? 0 then (ret, t) else (0, t).

(** ** What the thread does *)

(** The parts of [cavan_thread_sleep_until] before and after it waits; with
    [false] it returns without waiting. *)
Definition sleep_enter (t : cavan_thread_t) : cavan_thread_t * bool :=
  if pending t then (set_pending false t, false)
  else (set_signalled false (set_state CAVAN_THREAD_STATE_SLEEP t), true).
Definition sleep_leave (t : cavan_thread_t) : cavan_thread_t :=
  if bool_decide (state t = CAVAN_THREAD_STATE_SLEEP) then set_state CAVAN_THREAD_STATE_RUNNING t else t.
(** Those of [cavan_thread_wait_event]. *)
Definition wait_event_enter (t : cavan_thread_t) : cavan_thread_t * bool :=
  if pending t then (t, false) else (set_state CAVAN_THREAD_STATE_WAIT_EVENT t, true).
Definition wait_event_leave (t : cavan_thread_t) : cavan_thread_t :=
  if bool_decide (state t = CAVAN_THREAD_STATE_WAIT_EVENT) then set_state CAVAN_THREAD_STATE_RUNNING t else t.

(** The pipe does not block: without an event the read fails. *)
Definition cavan_thread_recv_event (t : cavan_thread_t) : cavan_thread_t * Z :=
  if 0 <? events t then (mk_thread (pending t) (state t) (signalled t) (events t - 1), 4) else (t, -1).

(** [answer]: what [epoll_wait] answers. *)
Definition cavan_thread_epoll_wait (answer : Z) : Z := if answer <? 0 then answer else 0.
(** The answers of its rounds, and which of their events are of the pipe; with
    none left it still waits. *)
Fixpoint cavan_thread_epoll_wait_event (rounds : list (Z * list bool)) : option Z :=
  match rounds with
  | [] => None
  | (answer, ours) :: rounds =>
    let ret := cavan_thread_epoll_wait answer in
    if ret <=? 0 then Some ret else if existsb id (take (Z.to_nat ret) ours) then Some 1 else cavan_thread_epoll_wait_event rounds
  end.
Definition cavan_thread_recv_event_timeout (rounds : list (Z * list bool)) (t : cavan_thread_t) : option (cavan_thread_t * Z) :=
  ret ← cavan_thread_epoll_wait_event rounds;
  Some (if ret <? 0 then (t, ret) else if ret <? 1 then (t, 0) else cavan_thread_recv_event t).

(** How [cavan_thread_main_loop] goes on: it calls the handler, waits on the
    condition or exits. *)
Inductive next := Calls | Waits | Exits.
Definition main_exit (t : cavan_thread_t) : cavan_thread_t * next := (set_state CAVAN_THREAD_STATE_STOPPED t, Exits).
Definition main_switch (t : cavan_thread_t) : cavan_thread_t * next :=
  match state t with
  | CAVAN_THREAD_STATE_SLEEP | CAVAN_THREAD_STATE_WAIT_EVENT => (set_state CAVAN_THREAD_STATE_RUNNING t, Calls)
  | CAVAN_THREAD_STATE_RUNNING => (t, Calls)
  | CAVAN_THREAD_STATE_SUSPEND =>
    if pending t then (set_pending false (set_state CAVAN_THREAD_STATE_RUNNING t), Calls)
    else (set_signalled false t, Waits)
  | _ => main_exit t
  end.
(** From the start of the thread, from the return of the handler, and from a
    wake-up. *)
Definition main_enter (t : cavan_thread_t) : cavan_thread_t * next :=
  main_switch (set_state CAVAN_THREAD_STATE_RUNNING (set_pending false t)).
Definition main_returned (ret : Z) (t : cavan_thread_t) : cavan_thread_t * next :=
  if ret <? 0 then main_exit t
  else if bool_decide (state t = CAVAN_THREAD_STATE_RUNNING) then (t, Calls) else main_switch t.
Definition main_woken (t : cavan_thread_t) : cavan_thread_t * next :=
  if bool_decide (state t = CAVAN_THREAD_STATE_SUSPEND) then (set_signalled false t, Waits)
  else main_switch (set_pending false t).

(** ** The thread among others *)

(** Where the thread is: created and not running yet, in its handler, asleep or
    waiting for an event inside it, waiting because it is suspended, gone. *)
Inductive whereabouts := Created | Handling | Sleeping | WaitingEvent | Suspended | Gone.
Definition goes (n : next) : whereabouts := match n with Calls => Handling | Waits => Suspended | Exits => Gone end.
(** [owed]: the thread was resumed, and since then its handler was not called
    and no wait inside it has ended. *)
Record world := mk_world { thread : cavan_thread_t; at_place : whereabouts; owed : bool }.

(** Other threads resume, suspend and stop it; its handler suspends it, sleeps,
    waits for an event, takes one or returns; it wakes up, signalled or not. *)
Inductive thread_event := Resume | Suspend | Stop | SuspendSelf | Sleep | WaitEvent | TakeEvent | Wake | Return (ret : Z) | Run.
#[export] Instance thread_event_eq_dec : EqDecision thread_event.
Proof. solve_decision. Defined.

Definition continue (w : world) (r : cavan_thread_t * next) : world :=
  mk_world r.1 (goes r.2) (match r.2 with Calls => false | _ => owed w end).
Definition thread_step (wake_handker : cavan_thread_t → cavan_thread_t) (w : world) (e : thread_event) : option world :=
  let t := thread w in
  match e, at_place w with
  | Resume, _ => Some (mk_world (cavan_thread_resume wake_handker t) (at_place w) true)
  | Suspend, _ => Some (mk_world (cavan_thread_suspend t) (at_place w) (owed w))
  | Stop, _ => Some (mk_world (stop_round wake_handker t).1 (at_place w) (owed w))
  | Run, Created => Some (continue w (main_enter t))
  | SuspendSelf, Handling => Some (mk_world (cavan_thread_suspend t) Handling (owed w))
  | Sleep, Handling =>
    let r := sleep_enter t in
    Some (mk_world r.1 (if r.2 then Sleeping else Handling) (if r.2 then owed w else false))
  | WaitEvent, Handling =>
    let r := wait_event_enter t in
    Some (mk_world r.1 (if r.2 then WaitingEvent else Handling) (if r.2 then owed w else false))
  | TakeEvent, Handling => Some (mk_world (cavan_thread_recv_event t).1 Handling (owed w))
  | Return ret, Handling => Some (continue w (main_returned ret t))
  | Wake, Sleeping => Some (mk_world (sleep_leave t) Handling false)
  | Wake, WaitingEvent => Some (mk_world (wait_event_leave t) Handling false)
  | Wake, Suspended => Some (continue w (main_woken t))
  | _, _ => None
  end.
Fixpoint run_thread (wake_handker : cavan_thread_t → cavan_thread_t) (w : world) (es : list thread_event) : option world :=
  match es with [] => Some w | e :: es => w ← thread_step wake_handker w e; run_thread wake_handker w es end.
Definition started_thread : world := mk_world (mk_thread false CAVAN_THREAD_STATE_IDLE false 0) Created false.

(** The thread waits and nothing has been done to wake it. *)
Definition blocked (w : world) : Prop :=
  match at_place w with
  | Sleeping | Suspended => signalled (thread w) = false
  | WaitingEvent => events (thread w) = 0
  | _ => False
  end.
Definition stopping (t : cavan_thread_t) : Prop := state t = CAVAN_THREAD_STATE_STOPPPING ∨ state t = CAVAN_THREAD_STATE_STOPPED.

(** What the thread does next. *)
Definition own_step (p : whereabouts) : option thread_event :=
  match p with Created => Some Run | Handling => Some (Return 0) | Sleeping | WaitingEvent | Suspended => Some Wake | Gone => None end.

(** ** Wake handlers *)

(** A wake handler leaves the thread alone, but for the events it sends. *)
Class WakeHandler (wake_handker : cavan_thread_t → cavan_thread_t) : Prop := {
  wake_pending t : pending (wake_handker t) = pending t;
  wake_state t : state (wake_handker t) = state t;
  wake_signalled t : signalled (wake_handker t) = signalled t;
  wake_events t : events t ≤ events (wake_handker t) }.
#[export] Instance wake_none : WakeHandler cavan_thread_wake_handler_none.
Proof. by split. Qed.
#[export] Instance wake_send_event : WakeHandler cavan_thread_wake_handler_send_event.
Proof. split; [done..|]. intros t. simpl. lia. Qed.

(** ** No wake-up is lost *)

Section wakeups.
Context (wake_handker : cavan_thread_t → cavan_thread_t) `{!WakeHandler wake_handker}.

(** At every place, what the thread owes it can still see. *)
Definition begun (t : cavan_thread_t) : Prop := state t ≠ CAVAN_THREAD_STATE_NONE ∧ state t ≠ CAVAN_THREAD_STATE_IDLE.
Definition place_ok (w : world) : Prop :=
  let t := thread w in
  0 ≤ events t ∧
  match at_place w with
  | Created => True
  | Handling => begun t ∧ (owed w = true → pending t = true)
  | Sleeping => begun t ∧ (signalled t = true ∨ owed w = false ∧ state t = CAVAN_THREAD_STATE_SLEEP)
  | WaitingEvent => begun t ∧ (0 < events t ∨ owed w = false ∧ state t = CAVAN_THREAD_STATE_WAIT_EVENT)
  | Suspended => begun t ∧ (signalled t = true ∧ state t ≠ CAVAN_THREAD_STATE_SUSPEND ∨ owed w = false ∧ state t = CAVAN_THREAD_STATE_SUSPEND)
  | Gone => state t = CAVAN_THREAD_STATE_STOPPED
  end.

Lemma resume_facts t : let t' := cavan_thread_resume wake_handker t in
  events t ≤ events t' ∧ pending t' = true ∧
  match state t with
  | CAVAN_THREAD_STATE_WAIT_EVENT => state t' = CAVAN_THREAD_STATE_RUNNING ∧ signalled t' = true ∧ events t < events t'
  | CAVAN_THREAD_STATE_SUSPEND | CAVAN_THREAD_STATE_SLEEP => state t' = CAVAN_THREAD_STATE_RUNNING ∧ signalled t' = true
  | x => state t' = x ∧ signalled t' = signalled t
  end.
Proof using All.
  unfold cavan_thread_resume. simpl. destruct (state t) eqn:E; simpl; rewrite ?wake_pending, ?wake_state, ?wake_signalled; simpl; rewrite ?E;
  match goal with |- context [events (wake_handker ?x)] => pose proof (wake_events x) as Hw; simpl in Hw | _ => idtac end; split_and!; done || lia.
Qed.
Lemma stop_facts t : let t' := (stop_round wake_handker t).1 in
  events t ≤ events t' ∧ pending t' = pending t ∧
  match state t with
  | CAVAN_THREAD_STATE_WAIT_EVENT => state t' = CAVAN_THREAD_STATE_STOPPPING ∧ signalled t' = true ∧ events t < events t'
  | CAVAN_THREAD_STATE_SUSPEND | CAVAN_THREAD_STATE_SLEEP | CAVAN_THREAD_STATE_RUNNING | CAVAN_THREAD_STATE_STOPPPING =>
    state t' = CAVAN_THREAD_STATE_STOPPPING ∧ signalled t' = true
  | _ => state t' = CAVAN_THREAD_STATE_STOPPED ∧ signalled t' = signalled t
  end.
Proof using All.
  unfold stop_round. destruct (state t) eqn:E; simpl; rewrite ?wake_pending, ?wake_state, ?wake_signalled; simpl; rewrite ?E;
  match goal with |- context [events (wake_handker ?x)] => pose proof (wake_events x) as Hw; simpl in Hw | _ => idtac end; split_and!; done || lia.
Qed.

Lemma resume_keeps t p o : place_ok (mk_world t p o) → place_ok (mk_world (cavan_thread_resume wake_handker t) p true).
Proof using All.
  unfold place_ok, begun. simpl. pose proof (resume_facts t) as (He & Hp & Hs). intros [H0 H]. split; [lia|].
  destruct p, (state t) eqn:Est; intuition (try congruence; try lia).
Qed.
Lemma stop_keeps t p o : place_ok (mk_world t p o) → place_ok (mk_world (stop_round wake_handker t).1 p o).
Proof using All.
  unfold place_ok, begun. simpl. pose proof (stop_facts t) as (He & Hp & Hs). intros [H0 H]. split; [lia|].
  destruct p, (state t) eqn:Est; intuition (try congruence; try lia).
Qed.
End wakeups.

(** The thread's own steps. *)
Lemma main_switch_ok t o : 0 ≤ events t → (state t = CAVAN_THREAD_STATE_SUSPEND → o = true → pending t = true) →
  place_ok (continue (mk_world t Handling o) (main_switch t)).
Proof.
  intros H0 Ho. unfold main_switch, place_ok, begun, continue. destruct (state t) eqn:E; simpl; try done; try (rewrite ?E; naive_solver).
  destruct (pending t) eqn:Ep; simpl; [naive_solver|]. rewrite E. destruct o; naive_solver.
Qed.
Lemma own_keeps w e w' wake_handker : place_ok w → thread_step wake_handker w e = Some w' → e ∉ [Resume; Stop; Suspend] → place_ok w'.
Proof.
  destruct w as [t p o]. intros [H0 H] Hstep He. rewrite !not_elem_of_cons in He. destruct e; try naive_solver; destruct p; simpl in Hstep; try done; injection Hstep as <-.
  - unfold place_ok, begun, cavan_thread_suspend in *. simpl in *. destruct (state t) eqn:E; simpl; rewrite ?E; naive_solver.
  - unfold sleep_enter, place_ok, begun in *. simpl in *. destruct (pending t) eqn:E; simpl; [naive_solver|]. destruct o; naive_solver.
  - unfold wait_event_enter, place_ok, begun in *. simpl in *. destruct (pending t) eqn:E; simpl; [naive_solver|]. destruct o; naive_solver.
  - unfold cavan_thread_recv_event, place_ok, begun in *. simpl in *. destruct (Z.ltb_spec 0 (events t)); simpl; intuition (try congruence; try lia).
  - unfold sleep_leave, place_ok, begun in *. simpl in *. case_bool_decide; simpl; naive_solver.
  - unfold wait_event_leave, place_ok, begun in *. simpl in *. case_bool_decide; simpl; naive_solver.
  - unfold main_woken. simpl in H. destruct H as [Hb H]. case_bool_decide as E.
    + unfold continue, place_ok. simpl. split; [done|]. split; [done|]. right. naive_solver.
    + apply (main_switch_ok (set_pending false t) o); [done|]. simpl. naive_solver.
  - unfold main_returned. destruct (ret <? 0); [done|]. simpl in H. case_bool_decide as E.
    + unfold continue, place_ok, begun. simpl. rewrite E. naive_solver.
    + apply (main_switch_ok t o); [done|]. naive_solver.
  - unfold main_enter. simpl. by apply (main_switch_ok _ o).
Qed.

Lemma run_keeps wake_handker `{!WakeHandler wake_handker} es : ∀ w w', place_ok w → Suspend ∉ es → run_thread wake_handker w es = Some w' → place_ok w'.
Proof.
  induction es as [|e es IH]; intros w w' Hw Hes Hrun; [by injection Hrun as <-|]. apply not_elem_of_cons in Hes as [He Hes]. simpl in Hrun.
  destruct (thread_step wake_handker w e) as [w1|] eqn:E; [|done]. apply (IH w1); [|done|done]. destruct (decide (e ∈ [Resume; Stop; Suspend])) as [Hin|]; [|by eapply own_keeps].
  destruct w as [t p o]. rewrite !elem_of_cons in Hin. destruct Hin as [-> | [-> | [-> | Hin]]]; [| |done|by apply elem_of_nil in Hin].
  - injection E as <-. by apply (resume_keeps _ t p o).
  - injection E as <-. by apply stop_keeps.
Qed.

(** ** Properties *)

(** C23: a resume is not lost.  After any steps of the thread and of others, as
    long as the handler was not called since the last [cavan_thread_resume] (and
    no wait inside it ended) and nobody stops the thread, it is not blocked, and
    its very next step calls the handler or ends the wait; if only its own
    handler suspends it. *)
Theorem resume_is_not_lost wake_handker `{!WakeHandler wake_handker} es w :
  run_thread wake_handker started_thread es = Some w → Suspend ∉ es → owed w = true → ¬ stopping (thread w) →
  ¬ blocked w ∧ ∃ e w', own_step (at_place w) = Some e ∧ thread_step wake_handker w e = Some w' ∧ at_place w' = Handling ∧ owed w' = false.
Proof.
  intros Hrun Hes Ho Hstop. apply run_keeps in Hrun as [H0 H]; [|done|done|done]. destruct w as [t p o]. simpl in *. subst o. unfold stopping in Hstop. split.
  - unfold blocked. simpl. destruct p; intuition (try congruence; try lia).
  - unfold begun in H. destruct p; simpl.
    + eexists _, _. split; [done|]. split; [done|]. done.
    + eexists _, _. split; [done|]. split; [done|]. unfold main_returned, main_switch. simpl. destruct H as [Hb H]. rewrite (H eq_refl). case_bool_decide; [done|]. destruct (state t); naive_solver.
    + eexists _, _. split; [done|]. split; [done|]. done.
    + eexists _, _. split; [done|]. split; [done|]. done.
    + eexists _, _. split; [done|]. split; [done|]. unfold main_woken, main_switch. simpl. case_bool_decide; [naive_solver|]. destruct (state t); naive_solver.
    + naive_solver.
Qed.
Lemma resume_is_not_lost_witness :
  let es := [Run; SuspendSelf; Return 0; Wake; Resume] in
  let w := mk_world (mk_thread true CAVAN_THREAD_STATE_RUNNING true 0) Suspended true in
  ¬ blocked w ∧ ∃ e w', own_step (at_place w) = Some e ∧ thread_step cavan_thread_wake_handler_none w e = Some w' ∧ at_place w' = Handling ∧ owed w' = false.
Proof.
  intros es w. apply (resume_is_not_lost cavan_thread_wake_handler_none es w); [reflexivity|unfold es; set_solver|reflexivity|]. intros [H|H]; discriminate H.
Defined.

(** ** Runs *)

Abbreviation run0 := (run_thread cavan_thread_wake_handler_none started_thread).

(** Another thread that suspends it between a resume and its wake-up undoes the
    resume, though [pending] is set. *)
Example suspend_undoes_a_resume :
  run0 [Run; SuspendSelf; Return 0; Resume; Suspend; Wake] = Some (mk_world (mk_thread true CAVAN_THREAD_STATE_SUSPEND false 0) Suspended true).
Proof. reflexivity. Qed.
(** Before the handler was resumed the same calls let it run. *)
Example suspend_after_a_resume : option_map at_place (run0 [Run; Resume; Suspend; Return 0]) = Some Handling.
Proof. reflexivity. Qed.
(** A thread that is stopped before it runs is not stopped. *)
Example stop_before_it_runs : run0 [Stop; Run] = Some (mk_world (mk_thread false CAVAN_THREAD_STATE_RUNNING false 0) Handling false) ∧
  (stop_round cavan_thread_wake_handler_none (thread started_thread)).2 = true.
Proof. split; reflexivity. Qed.
(** After a resume [cavan_thread_wait_event] does not wait any more. *)
Example wait_event_keeps_pending : run0 [Run; Resume; WaitEvent; WaitEvent; Return 0; WaitEvent] = Some (mk_world (mk_thread true CAVAN_THREAD_STATE_RUNNING false 0) Handling false).
Proof. reflexivity. Qed.
(** A handler that goes to sleep when it is asked to stop forgets it. *)
Example sleep_forgets_a_stop : option_map (state ∘ thread) (run0 [Run; Stop; Sleep]) = Some CAVAN_THREAD_STATE_SLEEP.
Proof. reflexivity. Qed.
(** [cavan_thread_epoll_wait] answers 0 for every number of events: nobody who
    waits for an event with a timeout sees one. *)
Lemma epoll_wait_event_sees_nothing answer ours rounds : cavan_thread_epoll_wait_event ((answer, ours) :: rounds) = Some (Z.min answer 0).
Proof. simpl. unfold cavan_thread_epoll_wait. destruct (Z.ltb_spec answer 0); simpl; [|f_equal; lia]. rewrite (proj2 (Z.leb_le _ _)) by lia. f_equal. lia. Qed.
Lemma recv_event_timeout_receives_nothing answer ours rounds t : cavan_thread_recv_event_timeout ((answer, ours) :: rounds) t = Some (t, Z.min answer 0).
Proof.
  unfold cavan_thread_recv_event_timeout. rewrite epoll_wait_event_sees_nothing. simpl. destruct (Z.ltb_spec (Z.min answer 0) 0); [done|].
  rewrite (proj2 (Z.ltb_lt _ _)) by lia. repeat f_equal. lia.
Qed.
