(* ===== verification/Timer.v ===== *)
(** Timer: the timer service of src/lib/timer.c, and its arithmetic of times.

    A service keeps its timers in a double link ordered by their times
    (LinkedList) and serves them from a thread (Thread).  [service->lock] is
    held but while the thread sleeps or runs the handler of a timer, so the
    calls and the parts of the service's handler between are programs over the
    store of the list.  The clock is an argument. *)
From stdpp Require Import sorting.
From S2P Require Import Prelude LinkedList Numbers Thread.

(** ** Times *)

Record timespec := mk_timespec { tv_sec : Z; tv_nsec : Z }.
#[export] Instance timespec_eq_dec : EqDecision timespec.
Proof. solve_decision. Defined.
#[export] Instance timespec_inhabited : Inhabited timespec := populate (mk_timespec 0 0).

(** A value of a signed 64-bit type: overflow is undefined. *)
Definition in_s64 (z : Z) : cres Z := if (- 2 ^ 63 <=? z) && (z <? 2 ^ 63) then Ok z else Undef.

Definition cavan_timespec_cmp (t1 t2 : timespec) : Z :=
  if tv_sec t2 <? tv_sec t1 then 1
  else if tv_sec t1 <? tv_sec t2 then -1
  else if tv_nsec t2 <? tv_nsec t1 then 1
  else if tv_nsec t1 <? tv_nsec t2 then -1
  else 0.
Definition cavan_timespec_sub_ms (t1 t2 : timespec) : cres Z :=
  s ← in_s64 (tv_sec t1 - tv_sec t2); n ← in_s64 (tv_nsec t1 - tv_nsec t2);
  s ← in_s64 (s * 1000); in_s64 (s + Z.quot n 1000000).
Definition cavan_timespec_sub_us (t1 t2 : timespec) : cres Z :=
  s ← in_s64 (tv_sec t1 - tv_sec t2); n ← in_s64 (tv_nsec t1 - tv_nsec t2);
  s ← in_s64 (s * 1000000); in_s64 (s + Z.quot n 1000).
Definition cavan_timespec_sub_ns (t1 t2 : timespec) : cres Z :=
  s ← in_s64 (tv_sec t1 - tv_sec t2); n ← in_s64 (tv_nsec t1 - tv_nsec t2);
  s ← in_s64 (s * 1000000000); in_s64 (s + n).

(** The operands meet in [unsigned long]; [msec] of the first is 32 bits wide. *)
Definition add_seconds (t : timespec) (n : Z) : Z := swrap 64 (tv_sec t + n).
Definition cavan_timespec_add_ms (t : timespec) (msec : Z) : timespec :=
  let msec := u32 (msec + u64 (tv_nsec t) / 1000000) in
  mk_timespec (add_seconds t (msec / 1000)) (msec mod 1000 * 1000000).
Definition cavan_timespec_add_us (t : timespec) (usec : Z) : timespec :=
  let usec := u64 (usec + u64 (tv_nsec t) / 1000) in
  mk_timespec (add_seconds t (usec / 1000000)) (usec mod 1000000 * 1000).
Definition cavan_timespec_add_ns (t : timespec) (nsec : Z) : timespec :=
  let nsec := u64 (nsec + u64 (tv_nsec t)) in
  mk_timespec (add_seconds t (nsec / 1000000000)) (nsec mod 1000000000).
Definition cavan_timer_timespec_add_ms (t : timespec) (msec : Z) : timespec :=
  let msec := u64 (msec + u64 (tv_nsec t) / 1000000) in
  mk_timespec (add_seconds t (msec / 1000)) (msec mod 1000 * 1000000).
Definition cavan_timespec_nseconds (t : timespec) : Z := u64 (u64 (tv_sec t) * 1000000000 + u64 (tv_nsec t)).
Definition cavan_timespec_useconds (t : timespec) : Z := u64 (u64 (tv_sec t) * 1000000 + u64 (tv_nsec t) / 1000).
Definition cavan_timespec_mseconds (t : timespec) : Z := u64 (u64 (tv_sec t) * 1000 + u64 (tv_nsec t) / 1000000).

(** [clock]: what [clock_gettime] answers and the time it gives. *)
Definition cavan_timer_set_timespec_ms (clock : Z * timespec) (msec : Z) : Z * timespec :=
  if clock.1 <? 0 then clock else (0, cavan_timer_timespec_add_ms clock.2 msec).
Definition cavan_timer_set_timespec_ss (clock : Z * timespec) (sec : Z) : Z * timespec :=
  if clock.1 <? 0 then clock else (0, mk_timespec (tv_sec clock.2 + sec) (tv_nsec clock.2)).
Definition cavan_real_timespec_diff_ms (now t : timespec) : cres Z := cavan_timespec_sub_ms t now.

(** ** The service *)

(** [times]: the times of the timers that exist, by the address of the timer. *)
Record cavan_timer_service := mk_service {
  times : gmap Z timespec;
  run_count : Z;
  timer_waiting : Z;
  timer_running : Z;
  timer_last_run : Z;
  service_lock : bool;
  service_thread : cavan_thread_t }.
Definition set_times (m : gmap Z timespec) (v : cavan_timer_service) : cavan_timer_service :=
  mk_service m (run_count v) (timer_waiting v) (timer_running v) (timer_last_run v) (service_lock v) (service_thread v).
Definition set_waiting (t : Z) (v : cavan_timer_service) : cavan_timer_service :=
  mk_service (times v) (run_count v) t (timer_running v) (timer_last_run v) (service_lock v) (service_thread v).
Definition set_running (t : Z) (v : cavan_timer_service) : cavan_timer_service :=
  mk_service (times v) (run_count v) (timer_waiting v) t (timer_last_run v) (service_lock v) (service_thread v).
Definition set_last_run (t : Z) (v : cavan_timer_service) : cavan_timer_service :=
  mk_service (times v) (run_count v) (timer_waiting v) (timer_running v) t (service_lock v) (service_thread v).
Definition set_run_count (n : Z) (v : cavan_timer_service) : cavan_timer_service :=
  mk_service (times v) n (timer_waiting v) (timer_running v) (timer_last_run v) (service_lock v) (service_thread v).
Definition set_service_lock (b : bool) (v : cavan_timer_service) : cavan_timer_service :=
  mk_service (times v) (run_count v) (timer_waiting v) (timer_running v) (timer_last_run v) b (service_thread v).
Definition set_thread (t : cavan_thread_t) (v : cavan_timer_service) : cavan_timer_service :=
  mk_service (times v) (run_count v) (timer_waiting v) (timer_running v) (timer_last_run v) (service_lock v) t.

Abbreviation store := (lstate double_link_node cavan_timer_service).
Abbreviation prog := (prog store).

Definition set_user (v : cavan_timer_service) (s : store) : store := mk_lstate (ls_heap s) (ls_locked s) v.
(** An assignment to fields of the service. *)
Definition assign (f : cavan_timer_service → cavan_timer_service) : prog unit := λ s, Ok (tt, set_user (f (ls_user s)) s).
Definition time_of (timer : Z) : prog timespec := λ s,
  match times (ls_user s) !! timer with Some t => Ok (t, s) | None => Undef end.
Definition set_time (timer : Z) (t : timespec) : prog unit := λ s,
  match times (ls_user s) !! timer with
  | Some _ => Ok (tt, set_user (set_times (<[timer := t]> (times (ls_user s))) (ls_user s)) s)
  | None => Undef
  end.
Definition lock_service : prog unit := λ s,
  if service_lock (ls_user s) then Undef else Ok (tt, set_user (set_service_lock true (ls_user s)) s).
Definition unlock_service : prog unit := λ s,
  if service_lock (ls_user s) then Ok (tt, set_user (set_service_lock false (ls_user s)) s) else Undef.
(** A call of Thread on the thread of the service. *)
Definition on_thread (f : cavan_thread_t → cavan_thread_t) : prog unit := assign (λ v, set_thread (f (service_thread v)) v).
Definition resume_service : prog unit := on_thread (cavan_thread_resume cavan_thread_wake_handler_none).

Definition cavan_timer_init (link : double_link) (timer : Z) : prog unit := double_link_node_init (double_link_get_to_node link timer).
(** [data] points to the time of a timer. *)
Definition cavan_timer_match_later (link : double_link) (data node : Z) : prog bool :=
  t ← time_of (double_link_get_container link node); time ← time_of data; mret (0 <? cavan_timespec_cmp t time).
Definition cavan_timer_insert_base (link : double_link) (now : timespec) (timer timeout : Z) : prog Z :=
  set_time timer (cavan_timer_set_timespec_ms (0, now) timeout).2;;
  double_link_cond_insert_append link (double_link_get_to_node link timer) (cavan_timer_match_later link timer);;
  resume_service;;
  mret 0.
(** [handler]: the handler of the timer. *)
Definition cavan_timer_insert (link : double_link) (now : timespec) (handler timer timeout : Z) : prog Z :=
  if handler =? 0 then mret (- EINVAL)
  else
    lock_service;;
    double_link_remove link (double_link_get_to_node link timer);;
    cavan_timer_insert_base link now timer timeout;;
    unlock_service;;
    mret 0.
Definition cavan_timer_remove (link : double_link) (timer : Z) : prog unit :=
  lock_service;;
  double_link_remove link (double_link_get_to_node link timer);;
  resume_service;;
  unlock_service.

(** The handler of the thread, up to where it lets go of the lock: it goes to
    sleep, runs a timer, or has suspended itself. *)
Inductive duty := SleepsFor (delay : Z) | Runs (timer : Z) | Idles.
Definition service_look (link : double_link) (now : timespec) : prog duty :=
  lock_service;;
  node ← double_link_get_first_node link;
  if negb (node =? 0) then
    let timer := double_link_get_container link node in
    time ← time_of timer;
    diff ← lift (cavan_real_timespec_diff_ms now time);
    let delay := swrap 32 diff in
    if 0 <? delay then assign (set_waiting timer);; unlock_service;; mret (SleepsFor delay)
    else double_link_remove link node;; assign (set_running timer);; unlock_service;; mret (Runs timer)
  else on_thread cavan_thread_suspend;; unlock_service;; mret Idles.
(** After the sleep, and after the handler of the timer, which answered [delay]. *)
Definition service_awake : prog unit := lock_service;; assign (set_waiting 0);; unlock_service.
Definition service_back (link : double_link) (now : timespec) (timer delay : Z) : prog unit :=
  lock_service;;
  assign (λ v, set_run_count (u32 (run_count v + 1)) v);;
  assign (set_running 0);;
  assign (set_last_run timer);;
  (if 0 <? delay then cavan_timer_insert_base link now timer delay else mret 0);;
  unlock_service.
(** [msleep] and [handler] are what happens while the lock is free: the
    environment's, as the sleep and the callback are. *)
Definition cavan_timer_service_handler (link : double_link) (now back : timespec) (msleep : Z → prog unit) (handler : Z → prog Z) : prog Z :=
  d ← service_look link now;
  match d with
  | SleepsFor delay => msleep delay;; service_awake;; mret 0
  | Runs timer => delay ← handler timer; service_back link back timer delay;; mret 0
  | Idles => mret 0
  end.

(** The first arguments are what the initialisers and [pthread_create] answer. *)
Definition cavan_timer_service_start (mutex : Z) (thread_init : init_answers) (link_init created : Z) (link : double_link) (offset : Z) : prog (Z * double_link) :=
  if mutex <? 0 then mret (mutex, link)
  else
    assign (set_service_lock false);;
    r ← reads (λ s, cavan_thread_init true thread_init (service_thread (ls_user s)));
    on_thread (λ _, r.2);;
    if r.1 <? 0 then mret (r.1, link)
    else
      assign (λ v, set_run_count (u32 (run_count v + 1)) v);;
      assign (set_waiting 0);; assign (set_running 0);; assign (set_last_run 0);;
      '(ret, link) ← double_link_init link_init link offset;
      if ret <? 0 then mret (ret, link)
      else
        v ← reads (λ s, cavan_thread_start created (service_thread (ls_user s)));
        on_thread (λ _, v.2);;
        if v.1 <? 0 then double_link_deinit link;; mret (v.1, link) else mret (0, link).

(** ** The service among its users *)

(** Where the thread of the service is: about to look at the queue, to sleep,
    asleep, about to go on after it, in the handler of a timer, at the end of
    its handler, suspended, gone. *)
Inductive service_place := ToLook | ToSleep (delay : Z) | Asleep | ToAwake | InHandler (timer : Z) | Returning | Parked | Exited.
(** Any thread, and the handler of a timer too, inserts and removes timers; the
    others are steps of the service's own thread.  [WakeUp] and [Unpark] come
    with a signal or without. *)
Inductive service_event :=
| Insert (now : timespec) (timer timeout : Z) | RemoveTimer (timer : Z)
| Look (now : timespec) | EnterSleep | WakeUp | Awaken | Back (now : timespec) (delay : Z) | ReturnToMain | Unpark.

Definition after_look (d : duty) : service_place :=
  match d with SleepsFor delay => ToSleep delay | Runs timer => InHandler timer | Idles => Returning end.
Definition place_of (n : next) : service_place := match n with Calls => ToLook | Waits => Parked | Exits => Exited end.
Definition with_thread (f : cavan_thread_t → cavan_thread_t * service_place) (s : store) : store * service_place :=
  let r := f (service_thread (ls_user s)) in (set_user (set_thread r.1 (ls_user s)) s, r.2).
Definition service_step (link : double_link) (w : store * service_place) (e : service_event) : cres (store * service_place) :=
  let s := w.1 in
  match e, w.2 with
  | Insert now timer timeout, p => '(_, s) ← cavan_timer_insert link now 1 timer timeout s; mret (s, p)
  | RemoveTimer timer, p => '(_, s) ← cavan_timer_remove link timer s; mret (s, p)
  | Look now, ToLook =>
    '(d, s) ← service_look link now s;
    mret (s, after_look d)
  | EnterSleep, ToSleep _ => mret (with_thread (λ t, let r := sleep_enter t in (r.1, if r.2 then Asleep else ToAwake)) s)
  | WakeUp, Asleep => mret (with_thread (λ t, (sleep_leave t, ToAwake)) s)
  | Awaken, ToAwake => '(_, s) ← service_awake s; mret (s, Returning)
  | Back now delay, InHandler timer => '(_, s) ← service_back link now timer delay s; mret (s, Returning)
  | ReturnToMain, Returning => mret (with_thread (λ t, let r := main_returned 0 t in (r.1, place_of r.2)) s)
  | Unpark, Parked => mret (with_thread (λ t, let r := main_woken t in (r.1, place_of r.2)) s)
  | _, _ => Undef
  end.
Fixpoint service_run (link : double_link) (w : store * service_place) (es : list service_event) : cres (store * service_place) :=
  match es with [] => mret w | e :: es => w ← service_step link w e; service_run link w es end.

(** ** The service as a queue of timers *)

Record queue_state := mk_queue_state { q_service : cavan_timer_service; q_queue : list Z; q_place : service_place }.

(** Before the first timer that is due later. *)
Fixpoint enqueue (later : Z → bool) (timer : Z) (q : list Z) : list Z :=
  match q with [] => [timer] | x :: q => if later x then timer :: x :: q else x :: enqueue later timer q end.
Definition time_in (v : cavan_timer_service) (t : Z) : timespec := times v !!! t.
Definition is_later (v : cavan_timer_service) (timer x : Z) : bool := 0 <? cavan_timespec_cmp (time_in v x) (time_in v timer).
Definition resumed (v : cavan_timer_service) : cavan_timer_service :=
  set_thread (cavan_thread_resume cavan_thread_wake_handler_none (service_thread v)) v.
Definition q_insert (now : timespec) (timer timeout : Z) (v : cavan_timer_service) (q : list Z) : cavan_timer_service * list Z :=
  let v := set_times (<[timer := cavan_timer_timespec_add_ms now timeout]> (times v)) v in
  (resumed v, enqueue (is_later v timer) timer q).
(** How many milliseconds are left; the service keeps them in an [int]. *)
Definition ms_until (now t : timespec) : Z := (tv_sec t - tv_sec now) * 1000 + Z.quot (tv_nsec t - tv_nsec now) 1000000.
Definition q_look (now : timespec) (v : cavan_timer_service) (q : list Z) : queue_state :=
  match q with
  | [] => mk_queue_state (set_thread (cavan_thread_suspend (service_thread v)) v) [] Returning
  | t :: rest =>
    let delay := swrap 32 (ms_until now (time_in v t)) in
    if 0 <? delay then mk_queue_state (set_waiting t v) q (ToSleep delay) else mk_queue_state (set_running t v) rest (InHandler t)
  end.
Definition q_back (now : timespec) (timer delay : Z) (v : cavan_timer_service) (q : list Z) : cavan_timer_service * list Z :=
  let v := set_last_run timer (set_running 0 (set_run_count (u32 (run_count v + 1)) v)) in
  if 0 <? delay then q_insert now timer delay v q else (v, q).

(** The clock reads a time of these 30000 years; a timer is not inserted while
    its handler runs. *)
Definition sane (t : timespec) : bool := (0 <=? tv_sec t) && (tv_sec t <? 2 ^ 40) && (0 <=? tv_nsec t) && (tv_nsec t <? 1000000000).
Definition running (p : service_place) (timer : Z) : bool := match p with InHandler t => t =? timer | _ => false end.
Definition q_thread (w : queue_state) (f : cavan_thread_t → cavan_thread_t * service_place) : queue_state :=
  let r := f (service_thread (q_service w)) in mk_queue_state (set_thread r.1 (q_service w)) (q_queue w) r.2.
Definition q_step (w : queue_state) (e : service_event) : option queue_state :=
  let v := q_service w in let q := q_queue w in
  match e, q_place w with
  | Insert now timer timeout, p =>
    if bool_decide (is_Some (times v !! timer)) && sane now && negb (running p timer) && (0 <=? timeout) && (timeout <? 2 ^ 32) then
      let r := q_insert now timer timeout v (without timer q) in Some (mk_queue_state r.1 r.2 p)
    else None
  | RemoveTimer timer, p => if bool_decide (is_Some (times v !! timer)) then Some (mk_queue_state (resumed v) (without timer q) p) else None
  | Look now, ToLook => if sane now then Some (q_look now v q) else None
  | EnterSleep, ToSleep _ => Some (q_thread w (λ t, let r := sleep_enter t in (r.1, if r.2 then Asleep else ToAwake)))
  | WakeUp, Asleep => Some (q_thread w (λ t, (sleep_leave t, ToAwake)))
  | Awaken, ToAwake => Some (mk_queue_state (set_waiting 0 v) q Returning)
  | Back now delay, InHandler timer =>
    if sane now && (delay <? 2 ^ 31) then let r := q_back now timer delay v q in Some (mk_queue_state r.1 r.2 Returning) else None
  | ReturnToMain, Returning => Some (q_thread w (λ t, let r := main_returned 0 t in (r.1, place_of r.2)))
  | Unpark, Parked => Some (q_thread w (λ t, let r := main_woken t in (r.1, place_of r.2)))
  | _, _ => None
  end.
Fixpoint q_run (w : queue_state) (es : list service_event) : option queue_state :=
  match es with [] => Some w | e :: es => w ← q_step w e; q_run w es end.

(** ** What an operation leaves alone *)

(** If the program returns, then [Q]; a program does only one thing, so what is
    shown so can be joined to what [wpp] shows. *)
Definition whenever {S A} (m : Prelude.prog S A) (s : S) (Q : A → S → Prop) : Prop := ∀ a s', m s = Ok (a, s') → Q a s'.
Lemma wpp_whenever {S A} (m : Prelude.prog S A) s P Q : wpp m s P → whenever m s Q → wpp m s (λ a s', P a s' ∧ Q a s').
Proof. intros (a & s' & E & HP)%wpp_ok HQ. apply wpp_ok. exists a, s'. split; [done|]. split; [done|by apply HQ]. Qed.
Lemma whenever_bind {S A B} (m : Prelude.prog S A) (k : A → Prelude.prog S B) s Q : whenever m s (λ a s', whenever (k a) s' Q) → whenever (m ≫= k) s Q.
Proof.
  intros H b s2 E. unfold mbind, prog_bind in E. destruct (m s) as [[a s1]| |] eqn:Em; [|done..]. by apply (H a s1).
Qed.
Lemma whenever_mono {S A} (m : Prelude.prog S A) s (P Q : A → S → Prop) : whenever m s P → (∀ a s', P a s' → Q a s') → whenever m s Q.
Proof. intros H HPQ a s' E. by apply HPQ, H. Qed.
Lemma whenever_ret {S A} (a : A) (s : S) (Q : A → S → Prop) : Q a s → whenever (mret a) s Q.
Proof. intros HQ b s' [= <- <-]. done. Qed.

Section frame.
Context {U : Type}.
Abbreviation lstate := (lstate double_link_node U).
Implicit Types (s : lstate) (x p n : Z).

(** Node [x] and the user's data are as before. *)
Definition same_node x s s' : Prop := ls_heap s' !! x = ls_heap s !! x.
Lemma same_trans x s1 s2 s3 : same_node x s1 s2 → same_node x s2 s3 → same_node x s1 s3.
Proof. unfold same_node. congruence. Qed.

Lemma whenever_get_next p s (Q : Z → lstate → Prop) : (∀ q, dn_next <$> ls_heap s !! p = Some q → Q q s) → whenever (d_get_next p) s Q.
Proof.
  intros H. apply whenever_bind. intros n s' E. unfold node_at in E. destruct (ls_heap s !! p) as [m|] eqn:Em; [|done]. injection E as -> ->. apply whenever_ret, H. done.
Qed.
Lemma whenever_get_prev p s (Q : Z → lstate → Prop) : (∀ q, dn_prev <$> ls_heap s !! p = Some q → Q q s) → whenever (d_get_prev p) s Q.
Proof.
  intros H. apply whenever_bind. intros n s' E. unfold node_at in E. destruct (ls_heap s !! p) as [m|] eqn:Em; [|done]. injection E as -> ->. apply whenever_ret, H. done.
Qed.
Lemma whenever_node_set x p f s s0 : same_node x s0 s → x ≠ p → whenever (node_set p f) s (λ _ s', same_node x s0 s').
Proof.
  intros Hs Hx a s' E. unfold node_set in E. destruct (ls_heap s !! p) as [m|]; [|done]. injection E as _ <-. eapply same_trans; [done|]. unfold same_node. simpl. by apply lookup_alter_ne.
Qed.
(** Linking [n] between [p] and [q], and unlinking it, writes these three. *)
Lemma insert_base_frame x p q n s s0 : same_node x s0 s → x ≠ p → x ≠ q → x ≠ n → whenever (double_link_insert_base p q n) s (λ _ s', same_node x s0 s').
Proof.
  intros Hs Hp Hq Hn. unfold double_link_insert_base, d_set_next, d_set_prev.
  apply whenever_bind. eapply whenever_mono; [by apply whenever_node_set|]. intros [] s1 H1.
  apply whenever_bind. eapply whenever_mono; [by apply whenever_node_set|]. intros [] s2 H2.
  apply whenever_bind. eapply whenever_mono; [by apply whenever_node_set|]. intros [] s3 H3. by apply whenever_node_set.
Qed.
Lemma insert_before_frame x y n s : x ≠ y → x ≠ n → (∀ p, dn_prev <$> ls_heap s !! y = Some p → x ≠ p) →
  whenever (prev ← d_get_prev y; double_link_insert_base prev y n) s (λ _ s', same_node x s s').
Proof. intros Hy Hn Hp. apply whenever_bind, whenever_get_prev. intros p E. by apply insert_base_frame; [|apply Hp|..]. Qed.
Lemma find_base_frame link (matcher : Z → Prelude.prog lstate bool) s :
  (∀ x s, whenever (matcher x) s (λ _ s', s' = s)) → whenever (double_link_find_base link matcher) s (λ _ s', s' = s).
Proof.
  intros Hm. apply whenever_bind, whenever_get_next. intros node _. apply whenever_bind. intros fuel s' [= <- <-]. apply whenever_bind.
  assert (∀ fuel node, whenever (for_nodes fuel d_get_next (dl_head link) (λ node, b ← matcher node; mret (if b : bool then Some node else None)) node) s (λ _ s', s' = s)) as Hfor.
  { clear -Hm. intros fuel. induction fuel as [|fuel IH]; intros node; [done|]. simpl. destruct (node =? dl_head link); [by apply whenever_ret|]. apply whenever_bind, whenever_bind.
    eapply whenever_mono; [apply Hm|]. intros b s' ->. apply whenever_ret. destruct b; [by apply whenever_ret|]. apply whenever_bind, whenever_get_next. intros q _. apply IH. }
  eapply whenever_mono; [apply Hfor|]. intros r s' ->. by apply whenever_ret.
Qed.
(** A node that is in no list leads to itself. *)
Definition alone s x : Prop := dn_next <$> ls_heap s !! x = Some x ∧ dn_prev <$> ls_heap s !! x = Some x.
Lemma same_alone x s s' : same_node x s s' → alone s x → alone s' x.
Proof. unfold same_node, alone. by intros ->. Qed.

(** The neighbours in a ring are in it. *)
Lemma ring_neighbours D c lk u s y q : d_state D c lk u s → y ∈ c → dn_prev <$> ls_heap s !! y = Some q ∨ dn_next <$> ls_heap s !! y = Some q → q ∈ c.
Proof.
  intros [_ _ Hr _ _] (c1 & c2 & ->)%list_elem_of_split Hq. destruct Hq as [Hq|Hq].
  - destruct (exists_last (l := y :: c2 ++ c1)) as (c & p & E); [done|]. apply d_ring_rotate in Hr. simpl in Hr. rewrite E in Hr.
    pose proof (d_ring_next _ c p [] Hr) as [_ Hp]. rewrite app_nil_l in Hp. replace (hd p c) with y in Hp by (destruct c; simpl in *; congruence). rewrite Hp in Hq. injection Hq as <-.
    assert (p ∈ y :: c2 ++ c1) by (rewrite E; set_solver). set_solver.
  - apply d_ring_next in Hr as [Hn _]. rewrite Hn in Hq. injection Hq as <-. destruct c2 as [|z c2]; simpl; [destruct c1; simpl; set_solver|set_solver].
Qed.
Lemma whenever_set p f s (Q : unit → lstate → Prop) : Q tt (set_heap s (alter f p (ls_heap s))) → whenever (node_set p f) s Q.
Proof. intros HQ a s' E. unfold node_set in E. destruct (ls_heap s !! p); [|done]. by injection E as <- <-. Qed.
Lemma remove_base_frame x n s D c lk u : d_state D c lk u s → n ∈ c → x ∉ c → whenever (double_link_remove_base n) s (λ _ s', same_node x s s').
Proof.
  intros Hs Hn Hx. assert (x ≠ n) as Hxn by set_solver. apply whenever_bind. eapply (whenever_mono _ _ (λ _ s', same_node x s s')).
  - apply whenever_bind, whenever_get_prev. intros p Hp. apply whenever_bind, whenever_get_next. intros q Hq.
    assert (p ∈ c) as Hpc by (apply (ring_neighbours D c lk u s n p); auto). assert (q ∈ c) as Hqc by (apply (ring_neighbours D c lk u s n q); auto).
    apply whenever_bind, whenever_set, whenever_bind, whenever_get_next. intros q' Hq'. apply whenever_bind, whenever_get_prev. intros p' _.
    assert (q' = q) as ->.
    { simpl in Hq'. destruct (decide (n = p)) as [->|Hne].
      - rewrite lookup_alter_eq in Hq'. destruct (ls_heap s !! p); [|done]. by injection Hq'.
      - rewrite lookup_alter_ne in Hq' by done. rewrite Hq in Hq'. by injection Hq'. }
    apply whenever_node_set; [|set_solver]. unfold same_node. simpl. apply lookup_alter_ne. set_solver.
  - intros [] s1 H1. apply whenever_bind. eapply whenever_mono; [by apply whenever_node_set|]. intros [] s2 H2. by apply whenever_node_set.
Qed.

(** Unlinking a node that is alone leaves it alone. *)
Lemma remove_alone n s D c lk u (Q : unit → lstate → Prop) : d_state D c lk u s → n ∈ D → n ∉ c → alone s n →
  (∀ s', d_state D c lk u s' → alone s' n → (∀ x, x ≠ n → same_node x s s') → Q tt s') → wpp (double_link_remove_base n) s Q.
Proof.
  intros Hs Hn Hnc [Hnx Hpv] HQ. pose proof Hs as [Hd H0 Hr Hl Hu]. assert (n ∈ dom (ls_heap s)) as [m Hm]%elem_of_dom by (by rewrite Hd).
  rewrite Hm in Hnx, Hpv. simpl in Hnx, Hpv. destruct m as [pv nx]. simpl in *. injection Hnx as ->. injection Hpv as ->.
  assert (double_link_remove_base n s = Ok (tt, set_heap s (ls_heap s))) as E.
  { unfold double_link_remove_base, double_link_remove_only, d_get_prev, d_get_next, d_set_next, d_set_prev, mbind, prog_bind, node_at, node_set, mret, prog_ret.
    simpl. repeat (rewrite ?Hm, ?lookup_alter_eq; simpl). repeat (rewrite alter_id by (intros ? Hx; rewrite Hm in Hx; by injection Hx as <-)). done. }
  apply (wpp_eq _ _ tt (set_heap s (ls_heap s)) Q E). assert (set_heap s (ls_heap s) = s) as -> by (by destruct s). apply HQ; [done|unfold alone; by rewrite Hm|done].
Qed.
End frame.

(** Insertion before the first timer that is due later. *)
Lemma enqueue_split (later : Z → bool) (t : Z) (q : list Z) :
  (Forall (λ x, later x = false) q ∧ enqueue later t q = q ++ [t]) ∨
  (∃ q1 x q2, q = q1 ++ x :: q2 ∧ Forall (λ x, later x = false) q1 ∧ later x = true ∧ enqueue later t q = q1 ++ t :: x :: q2).
Proof.
  induction q as [|y q IH]; [by left|]. simpl. destruct (later y) eqn:E; [right; by exists [], y, q|].
  destruct IH as [[Hf ->]|(q1 & x & q2 & -> & Hf & Hx & ->)]; [left; split; [by constructor|done]|]. right. exists (y :: q1), x, q2. split; [done|]. split; [by constructor|done].
Qed.
Lemma enqueue_in (later : Z → bool) (t : Z) (q : list Z) x : x ∈ enqueue later t q ↔ x = t ∨ x ∈ q.
Proof. destruct (enqueue_split later t q) as [[_ ->]|(q1 & y & q2 & -> & _ & _ & ->)]; set_solver. Qed.

(** ** The queue in the store *)

Section service.
Context (link : double_link) (T : gset Z).
Abbreviation head := (dl_head link).
Abbreviation node := (double_link_get_to_node link).
Hypothesis Hhead : head ≠ 0.
Hypothesis Hnull : ∀ t, t ∈ T → node t ≠ 0.
Hypothesis Hnode : ∀ t, t ∈ T → node t ≠ head.

Implicit Types (t x : Z) (q : list Z) (v : cavan_timer_service) (s : store) (lk : bool).
Definition nodes : gset Z := {[ head ]} ∪ set_map node T.
(** The list has the nodes of the timers [q], the other timers are alone. *)
Record in_store (lk : bool) (q : list Z) (v : cavan_timer_service) (s : store) : Prop := {
  h_state : d_state nodes (head :: (node <$> q)) lk v s;
  h_alone : ∀ t, t ∈ T → t ∉ q → alone s (node t);
  h_times : dom (times v) = T;
  h_queue : ∀ t, t ∈ q → t ∈ T }.

Lemma node_inj t t' : node t = node t' → t = t'.
Proof. unfold double_link_get_to_node. lia. Qed.
Lemma container_node t : double_link_get_container link (node t) = t.
Proof. unfold double_link_get_container, double_link_get_to_node. lia. Qed.
Lemma node_in t : t ∈ T → node t ∈ nodes.
Proof. intros Ht. apply elem_of_union_r, elem_of_map. by exists t. Qed.
Lemma node_elem t q : node t ∈ node <$> q ↔ t ∈ q.
Proof. rewrite list_elem_of_fmap. split; [by intros (x & ->%node_inj & ?)|eauto]. Qed.
Lemma node_not_in t q : t ∈ T → t ∉ q → node t ∉ head :: (node <$> q).
Proof using All. intros Ht Hq. rewrite not_elem_of_cons, node_elem. split; [by apply Hnode|done]. Qed.
Lemma holds_nodup lk q v s : in_store lk q v s → NoDup q.
Proof. intros [Hs _ _ _]. apply d_state_nodup, NoDup_cons in Hs as [_ Hn]. by eapply NoDup_fmap_1. Qed.
Lemma without_nodes t q : node <$> without t q = without (node t) (node <$> q).
Proof.
  unfold without. induction q as [|x q IH]; [done|]. rewrite fmap_cons, !filter_cons. destruct (decide (x ≠ t)) as [Hx|Hx], (decide (node x ≠ node t)) as [Hx'|Hx'].
  - by rewrite fmap_cons, IH.
  - destruct Hx'. intros E%node_inj. done.
  - destruct Hx. intros ->. by destruct Hx'.
  - done.
Qed.
Lemma in_without t x q : x ∈ without t q ↔ x ∈ q ∧ x ≠ t.
Proof. unfold without. rewrite list_elem_of_filter. tauto. Qed.

(** Locks and data. *)
Lemma holds_locked lk lk' q v s : in_store lk q v s → in_store lk' q v (set_locked s lk').
Proof. intros [[H1 H2 H3 H4 H5] Ha Ht Hq]. by split. Qed.
Lemma holds_user lk q v v' s : in_store lk q v s → dom (times v') = T → in_store lk q v' (set_user v' s).
Proof. intros [[H1 H2 H3 H4 H5] Ha Ht Hq] Ht'. by split. Qed.
Lemma link_lock q v s (Q : unit → store → Prop) : in_store false q v s → (∀ s', in_store true q v s' → Q tt s') → wpp pthread_mutex_lock s Q.
Proof. intros Hs HQ. pose proof (ds_locked _ _ _ _ _ (h_state _ _ _ _ Hs)) as Hl. unfold wpp, pthread_mutex_lock. rewrite Hl. apply HQ. by eapply holds_locked. Qed.
Lemma link_unlock q v s (Q : unit → store → Prop) : in_store true q v s → (∀ s', in_store false q v s' → Q tt s') → wpp pthread_mutex_unlock s Q.
Proof. intros Hs HQ. pose proof (ds_locked _ _ _ _ _ (h_state _ _ _ _ Hs)) as Hl. unfold wpp, pthread_mutex_unlock. rewrite Hl. apply HQ. by eapply holds_locked. Qed.
Lemma wpp_assign f lk q v s (Q : unit → store → Prop) : in_store lk q v s → dom (times (f v)) = T → (∀ s', in_store lk q (f v) s' → Q tt s') → wpp (assign f) s Q.
Proof. intros Hs Hf HQ. pose proof (ds_user _ _ _ _ _ (h_state _ _ _ _ Hs)) as Hu. apply HQ. rewrite Hu. by eapply holds_user. Qed.
Lemma wpp_lock_service lk q v s (Q : unit → store → Prop) : in_store lk q v s → service_lock v = false → (∀ s', in_store lk q (set_service_lock true v) s' → Q tt s') → wpp lock_service s Q.
Proof. intros Hs Hl HQ. pose proof (ds_user _ _ _ _ _ (h_state _ _ _ _ Hs)) as Hu. unfold wpp, lock_service. rewrite Hu, Hl. apply HQ. eapply holds_user; [done|apply Hs]. Qed.
Lemma wpp_unlock_service lk q v s (Q : unit → store → Prop) : in_store lk q v s → service_lock v = true → (∀ s', in_store lk q (set_service_lock false v) s' → Q tt s') → wpp unlock_service s Q.
Proof. intros Hs Hl HQ. pose proof (ds_user _ _ _ _ _ (h_state _ _ _ _ Hs)) as Hu. unfold wpp, unlock_service. rewrite Hu, Hl. apply HQ. eapply holds_user; [done|apply Hs]. Qed.
Lemma wpp_time_of t lk q v s (Q : timespec → store → Prop) : in_store lk q v s → t ∈ T → Q (time_in v t) s → wpp (time_of t) s Q.
Proof.
  intros [Hs _ Ht _] HtT HQ. pose proof (ds_user _ _ _ _ _ Hs) as Hu. rewrite <-Ht in HtT. apply elem_of_dom in HtT as [x Hx]. unfold wpp, time_of. rewrite Hu, Hx.
  unfold time_in in HQ. by rewrite (lookup_total_correct _ _ _ Hx) in HQ.
Qed.
Lemma wpp_set_time t (x : timespec) lk q v s (Q : unit → store → Prop) : in_store lk q v s → t ∈ T → (∀ s', in_store lk q (set_times (<[t := x]> (times v)) v) s' → Q tt s') → wpp (set_time t x) s Q.
Proof.
  intros Hs HtT HQ. pose proof (ds_user _ _ _ _ _ (h_state _ _ _ _ Hs)) as Hu. pose proof (h_times _ _ _ _ Hs) as Ht. pose proof HtT as HtT'. rewrite <-Ht in HtT'. apply elem_of_dom in HtT' as [y Hy].
  unfold wpp, set_time. rewrite Hu, Hy. apply HQ. eapply holds_user; [done|]. simpl. rewrite dom_insert_L. set_solver.
Qed.

(** Removal, of a timer that is in the queue or not. *)
Lemma remove_base_ok q v s t : in_store true q v s → t ∈ T → wpp (double_link_remove_base (node t)) s (λ _ s', in_store true (without t q) v s').
Proof using All.
  intros Hs Ht. pose proof Hs as [Hst Ha Htm Hq]. destruct (decide (t ∈ q)) as [Hin|Hout].
  - pose proof (holds_nodup _ _ _ _ Hs) as Hnd.
    assert (wpp (double_link_remove_base (node t)) s (λ _ s', d_state nodes (head :: (node <$> without t q)) true v s' ∧ alone s' (node t))) as Hw.
    { rewrite without_nodes. apply (wpp_mono _ _ (λ _ s', d_state nodes (head :: without (node t) (node <$> q)) true v s' ∧ (alone s' (node t) ∨ ls_heap s' !! node t = None))); [apply wpp_whenever|].
      - eapply (d_remove_base nodes head v); [exact Hst|by apply node_elem|done].
      - unfold double_link_remove_base. apply whenever_bind. intros [] s1 _. unfold d_set_prev, d_set_next. apply whenever_bind, whenever_set, whenever_set.
        unfold alone. simpl. rewrite lookup_alter_eq. destruct (ls_heap s1 !! node t) eqn:E; rewrite lookup_alter_eq, E; [by left|by right].
      - intros [] s' [Hs' [Hal|Hno]]; [done|]. pose proof (node_in t Ht) as Hin'. destruct Hs' as [Hd _ _ _ _]. rewrite <-Hd, elem_of_dom, Hno in Hin'. by destruct Hin'. }
    eapply (wpp_mono _ _ (λ _ s', (d_state nodes (head :: (node <$> without t q)) true v s' ∧ alone s' (node t)) ∧ ∀ x, x ∉ head :: (node <$> q) → same_node x s s')).
    + apply wpp_whenever; [done|]. intros [] s' E x Hx. by eapply (remove_base_frame x (node t) s nodes); [exact Hst|right; by apply node_elem|done|].
    + intros [] s' [[Hs' Hal] Hsame]. split; [done| |done|intros x [? _]%in_without; by apply Hq].
      intros x Hx Hxq. destruct (decide (x = t)) as [->|Hne]; [done|]. rewrite in_without in Hxq. assert (x ∉ q) as Hxq' by tauto.
      eapply same_alone; [by apply Hsame, node_not_in|by apply Ha].
  - rewrite without_notin by done. eapply remove_alone; [done|by apply node_in|by apply node_not_in|by apply Ha|]. intros s' Hs' Hal Hsame. split; [done| |done|done].
    intros x Hx Hxq. destruct (decide (x = t)) as [->|Hne]; [done|]. eapply same_alone; [apply Hsame; by intros ?%node_inj|by apply Ha].
Qed.
Lemma remove_ok q v s t (Q : unit → store → Prop) : in_store false q v s → t ∈ T → (∀ s', in_store false (without t q) v s' → Q tt s') → wpp (double_link_remove link (node t)) s Q.
Proof using All.
  intros Hs Ht HQ. apply wpp_bind. eapply link_lock; [done|]. intros s1 Hs1. apply wpp_bind. eapply wpp_mono; [by apply remove_base_ok|]. intros [] s2 Hs2. by eapply link_unlock.
Qed.

Lemma first_match_nodes f later q : (∀ x, x ∈ q → f (node x) = later x) → (∀ x, x ∈ q → x ∈ T) →
  (Forall (λ x, later x = false) q → first_match f (node <$> q) = 0) ∧
  (∀ q1 x q2, q = q1 ++ x :: q2 → Forall (λ x, later x = false) q1 → later x = true → first_match f (node <$> q) = node x).
Proof.
  intros Hf HT. assert (∀ q1 q2, (∀ x, x ∈ q1 → f (node x) = later x) → Forall (λ x, later x = false) q1 → first_match f (node <$> (q1 ++ q2)) = first_match f (node <$> q2)) as Happ.
  { intros q1 q2 Hq1 Hall. rewrite fmap_app. apply first_match_app. apply Forall_fmap, Forall_forall. intros x Hx. simpl. rewrite Hq1 by done. by eapply Forall_forall in Hall. }
  split.
  - intros Hall. by rewrite <-(app_nil_r q), (Happ q []) by done.
  - intros q1 x q2 -> Hall Hx. rewrite Happ by (done || (intros ??; apply Hf; set_solver)). simpl. rewrite Hf by set_solver. by rewrite Hx.
Qed.
Lemma time_of_eq t s : t ∈ dom (times (ls_user s)) → time_of t s = Ok (time_in (ls_user s) t, s).
Proof. intros [x Hx]%elem_of_dom. unfold time_of, time_in. by rewrite Hx, (lookup_total_correct _ _ _ Hx). Qed.
Lemma match_later_ok t x s : x ∈ dom (times (ls_user s)) → t ∈ dom (times (ls_user s)) →
  cavan_timer_match_later link t (node x) s = Ok (is_later (ls_user s) t x, s).
Proof.
  intros Hx Ht. unfold cavan_timer_match_later. rewrite container_node. unfold mbind, prog_bind. rewrite time_of_eq by done. rewrite time_of_eq by done. done.
Qed.
Lemma match_later_pure t y s : whenever (cavan_timer_match_later link t y) s (λ _ s', s' = s).
Proof.
  apply whenever_bind. intros a s1 E. unfold time_of in E. destruct (times (ls_user s) !! _); [|done]. injection E as <- <-.
  apply whenever_bind. intros b s2 E. unfold time_of in E. destruct (times (ls_user s) !! _); [|done]. injection E as <- <-. by apply whenever_ret.
Qed.

Lemma insert_before_ok q q' v s t y : in_store true q v s → t ∈ T → t ∉ q → y ∈ head :: (node <$> q) → before y (node t) (node <$> q) = node <$> q' → (∀ x, x ∈ q' ↔ x = t ∨ x ∈ q) →
  wpp (prev ← d_get_prev y; double_link_insert_base prev y (node t)) s (λ _ s', in_store true q' v s').
Proof using All.
  intros Hs Ht Htq Hy Hbefore Hq'. pose proof Hs as [Hst Ha Htm Hq].
  eapply (wpp_mono _ _ (λ _ s', d_state nodes (head :: (node <$> q')) true v s' ∧ ∀ x, x ∉ node t :: head :: (node <$> q) → same_node x s s')).
  - apply wpp_whenever; [|intros [] s' E x Hx].
    + rewrite <-Hbefore. eapply (d_insert_before nodes head v); [exact Hst|done|by apply node_in|by apply node_not_in|done].
    + eapply (insert_before_frame x y (node t) s); [set_solver|set_solver| |done]. intros p Hp ->.
      assert (p ∈ head :: (node <$> q)) by (eapply ring_neighbours; [exact Hst|done|by left]). set_solver.
  - intros [] s' [Hs' Hsame]. split; [done| |done|].
    + intros x Hx Hxq. rewrite Hq' in Hxq. eapply same_alone; [apply Hsame; rewrite not_elem_of_cons; split; [intros ?%node_inj; tauto|apply node_not_in; tauto]|apply Ha; tauto].
    + intros x [->|Hx]%Hq'; [done|by apply Hq].
Qed.
Lemma cond_insert_ok q v s t (Q : unit → store → Prop) : in_store false q v s → t ∈ T → t ∉ q → (∀ s', in_store false (enqueue (is_later v t) t q) v s' → Q tt s') →
  wpp (double_link_cond_insert_append link (node t) (cavan_timer_match_later link t)) s Q.
Proof using All.
  intros Hs Ht Htq HQ. apply wpp_bind. eapply link_lock; [done|]. intros s1 Hs1. pose proof Hs1 as [Hst Ha Htm Hq]. apply wpp_bind, wpp_bind.
  set (f := λ y, is_later v t (double_link_get_container link y)).
  eapply (wpp_mono _ _ (λ r s', (r = first_match f (node <$> q) ∧ d_state nodes (head :: (node <$> q)) true v s') ∧ s' = s1)).
  { apply wpp_whenever; [|apply find_base_frame; intros x s'; apply match_later_pure]. apply (d_find_base nodes head v link _ _ _ f); [done|done|].
    intros y s' Hy Hs'. apply list_elem_of_fmap in Hy as (x & -> & Hx). pose proof (ds_user _ _ _ _ _ Hs') as Hu. unfold wpp. rewrite match_later_ok by (rewrite Hu, Htm; auto). simpl. rewrite Hu. unfold f. by rewrite container_node. }
  intros r s2 [[-> _] ->]. destruct (first_match_nodes f (is_later v t) q) as [Hnone Hsome]; [intros x _; unfold f; by rewrite container_node|done|].
  pose proof (holds_nodup _ _ _ _ Hs) as Hnd.
  assert (wpp (if negb (first_match f (node <$> q) =? 0) then prev ← d_get_prev (first_match f (node <$> q)); double_link_insert_base prev (first_match f (node <$> q)) (node t)
    else double_link_insert_base2 head (node t)) s1 (λ _ s', in_store true (enqueue (is_later v t) t q) v s')) as Hins.
  { destruct (enqueue_split (is_later v t) t q) as [[Hall E]|(q1 & x & q2 & Eq & Hall & Hx & E)].
    - rewrite (Hnone Hall), Z.eqb_refl. simpl. apply (insert_before_ok q); [done|done|done|left|rewrite E, fmap_app|apply enqueue_in].
      apply before_notin. intros (x & Ex & Hx)%list_elem_of_fmap. symmetry in Ex. by apply (Hnode x (Hq x Hx)) in Ex.
    - rewrite (Hsome q1 x q2 Eq Hall Hx). assert (x ∈ q) as Hxq by (rewrite Eq; set_solver). rewrite (proj2 (Z.eqb_neq _ _)) by (by apply Hnull, Hq). simpl.
      apply (insert_before_ok q); [done|done|done|right; by apply node_elem|rewrite E, Eq, !fmap_app, !fmap_cons|apply enqueue_in].
      apply before_split. rewrite node_elem. intros Hx1. rewrite Eq in Hnd. apply NoDup_app in Hnd as (_ & Hnd & _). apply (Hnd x Hx1). set_solver. }
  eapply wpp_mono; [exact Hins|]. intros [] s3 Hs3. by eapply link_unlock.
Qed.

(** The operations of the service. *)
Lemma lock_id v : service_lock v = false → set_service_lock false v = v.
Proof. destruct v. simpl. by intros ->. Qed.
Lemma insert_base_ok q v s now t timeout : in_store false q v s → t ∈ T → t ∉ q →
  wpp (cavan_timer_insert_base link now t timeout) s (λ r s', r = 0 ∧ in_store false (q_insert now t timeout v q).2 (q_insert now t timeout v q).1 s').
Proof using All.
  intros Hs Ht Htq. apply wpp_bind. eapply wpp_set_time; [done|done|]. intros s1 Hs1. apply wpp_bind. eapply cond_insert_ok; [done|done|done|]. intros s2 Hs2.
  apply wpp_bind. eapply wpp_assign; [done|apply Hs2|]. intros s3 Hs3. by apply wpp_ret.
Qed.
Lemma insert_ok q v s now t timeout : in_store false q v s → service_lock v = false → t ∈ T →
  wpp (cavan_timer_insert link now 1 t timeout) s (λ r s', r = 0 ∧ in_store false (q_insert now t timeout v (without t q)).2 (q_insert now t timeout v (without t q)).1 s').
Proof using All.
  intros Hs Hl Ht. unfold cavan_timer_insert. simpl. apply wpp_bind. eapply wpp_lock_service; [done|done|]. intros s1 Hs1. apply wpp_bind. eapply remove_ok; [done|done|]. intros s2 Hs2.
  apply wpp_bind. eapply wpp_mono; [apply insert_base_ok; [done|done|rewrite in_without; tauto]|]. intros r s3 [-> Hs3]. apply wpp_bind. eapply wpp_unlock_service; [done|done|]. intros s4 Hs4. apply wpp_ret. split; [done|].
  simpl in Hs4. destruct v. simpl in *. by subst.
Qed.
Lemma timer_remove_ok q v s t : in_store false q v s → service_lock v = false → t ∈ T → wpp (cavan_timer_remove link t) s (λ _ s', in_store false (without t q) (resumed v) s').
Proof using All.
  intros Hs Hl Ht. apply wpp_bind. eapply wpp_lock_service; [done|done|]. intros s1 Hs1. apply wpp_bind. eapply remove_ok; [done|done|]. intros s2 Hs2.
  apply wpp_bind. eapply wpp_assign; [done|apply Hs2|]. intros s3 Hs3. eapply wpp_unlock_service; [done|done|]. intros s4 Hs4. destruct v. simpl in *. by subst.
Qed.
Lemma awake_ok q v s : in_store false q v s → service_lock v = false → wpp service_awake s (λ _ s', in_store false q (set_waiting 0 v) s').
Proof using All.
  intros Hs Hl. apply wpp_bind. eapply wpp_lock_service; [done|done|]. intros s1 Hs1. apply wpp_bind. eapply wpp_assign; [done|apply Hs1|]. intros s3 Hs3.
  eapply wpp_unlock_service; [done|done|]. intros s4 Hs4. destruct v. simpl in *. by subst.
Qed.
Lemma back_ok q v s now t delay : in_store false q v s → service_lock v = false → t ∈ T → t ∉ q →
  wpp (service_back link now t delay) s (λ _ s', in_store false (q_back now t delay v q).2 (q_back now t delay v q).1 s').
Proof using All.
  intros Hs Hl Ht Htq. apply wpp_bind. eapply wpp_lock_service; [done|done|]. intros s1 Hs1. do 3 (apply wpp_bind; eapply wpp_assign; [done|apply Hs1|]; clear s1 Hs1; intros s1 Hs1).
  apply wpp_bind. unfold q_back. destruct (0 <? delay).
  - eapply wpp_mono; [by apply insert_base_ok|]. intros r s2 [-> Hs2]. eapply wpp_unlock_service; [done|done|]. intros s3 Hs3. destruct v. simpl in *. by subst.
  - apply wpp_ret. eapply wpp_unlock_service; [done|done|]. intros s3 Hs3. destruct v. simpl in *. by subst.
Qed.
Lemma get_first_ok q v s (Q : Z → store → Prop) : in_store false q v s → (∀ s', in_store false q v s' → Q (match q with [] => 0 | t :: _ => node t end) s') → wpp (double_link_get_first_node link) s Q.
Proof using All.
  intros Hs HQ. apply wpp_bind. eapply link_lock; [done|]. intros s1 Hs1. apply wpp_bind. apply (d_next nodes [] head (node <$> q) true v); [apply Hs1|]. rewrite app_nil_r.
  apply wpp_bind. eapply link_unlock; [done|]. intros s2 Hs2. apply wpp_ret. destruct q as [|t q]; simpl; [rewrite Z.eqb_refl; by apply HQ|].
  rewrite (proj2 (Z.eqb_neq (node t) head)); [by apply HQ|]. apply Hnode, Hs. left.
Qed.
Lemma in_s64_ok z : - 2 ^ 63 ≤ z < 2 ^ 63 → in_s64 z = Ok z.
Proof. intros Hz. unfold in_s64. by rewrite (proj2 (Z.leb_le _ _)), (proj2 (Z.ltb_lt _ _)) by lia. Qed.
End service.

(** ** Times that stay in range *)

Definition in_range (n : Z) (t : timespec) : Prop := 0 ≤ tv_sec t < n ∧ 0 ≤ tv_nsec t < 1000000000.
Lemma sane_range t : sane t = true → in_range (2 ^ 40) t.
Proof. unfold sane, in_range. lia. Qed.
Lemma diff_ok now t : in_range (2 ^ 41) now → in_range (2 ^ 41) t → cavan_real_timespec_diff_ms now t = Ok (ms_until now t).
Proof.
  intros [Hn1 Hn2] [Ht1 Ht2]. unfold cavan_real_timespec_diff_ms, cavan_timespec_sub_ms, ms_until.
  assert (-1000 ≤ Z.quot (tv_nsec t - tv_nsec now) 1000000 ≤ 1000) as Hq by dlia.
  rewrite !in_s64_ok by lia. cbn [mbind cres_bind]. rewrite in_s64_ok by lia. cbn [mbind cres_bind]. by rewrite in_s64_ok by lia.
Qed.
Lemma add_ms_range now msec : in_range (2 ^ 40) now → 0 ≤ msec < 2 ^ 32 →
  let ms := msec + tv_nsec now / 1000000 in cavan_timer_timespec_add_ms now msec = mk_timespec (tv_sec now + ms / 1000) (ms mod 1000 * 1000000).
Proof.
  intros [Hs Hn] Hm ms. assert (0 ≤ tv_nsec now / 1000000 < 1000) as Hq by dlia. unfold cavan_timer_timespec_add_ms, add_seconds. cbv zeta. rewrite (wrap_small 64 (tv_nsec now)) by lia. fold ms.
  assert (0 ≤ ms < 2 ^ 32 + 1000) as Hms by lia. rewrite (wrap_small 64 ms) by lia. f_equal. assert (0 ≤ ms / 1000 < 2 ^ 32) as Hd by dlia.
  unfold swrap. cbv zeta. rewrite wrap_small by lia. by rewrite (proj2 (Z.ltb_lt _ _)) by lia.
Qed.
Lemma add_ms_sane now msec : in_range (2 ^ 40) now → 0 ≤ msec < 2 ^ 32 → in_range (2 ^ 41) (cavan_timer_timespec_add_ms now msec).
Proof.
  intros Hn Hm. rewrite add_ms_range by done. destruct Hn as [Hs Hn]. unfold in_range. cbn [tv_sec tv_nsec]. assert (0 ≤ tv_nsec now / 1000000 < 1000) as Hq by dlia.
  set (ms := msec + tv_nsec now / 1000000) in *. assert (0 ≤ ms < 2 ^ 32 + 1000) by lia. split; dlia.
Qed.

(** ** The order of the queue *)

Definition time_le (a b : timespec) : Prop := cavan_timespec_cmp a b ≤ 0.
Lemma time_le_lex a b : time_le a b ↔ tv_sec a < tv_sec b ∨ tv_sec a = tv_sec b ∧ tv_nsec a ≤ tv_nsec b.
Proof. unfold time_le, cavan_timespec_cmp. repeat case_match; lia. Qed.
Lemma is_later_lex v t x : is_later v t x = true ↔ ¬ time_le (time_in v x) (time_in v t).
Proof. unfold is_later, time_le. rewrite Z.ltb_lt. lia. Qed.
Definition by_time (v : cavan_timer_service) (q : list Z) : Prop := StronglySorted (λ x y, time_le (time_in v x) (time_in v y)) q.

Lemma enqueue_sorted v t q : by_time v q → by_time v (enqueue (is_later v t) t q).
Proof.
  intros Hq. destruct (enqueue_split (is_later v t) t q) as [[Hf ->]|(q1 & x & q2 & -> & Hf & Hx & ->)].
  - apply StronglySorted_app; split_and!; [|done|repeat constructor]. intros y z Hy ->%list_elem_of_singleton.
    eapply Forall_forall in Hf; [|exact Hy]. simpl in Hf. destruct (is_later v t y) eqn:E; [done|]. unfold is_later in E. apply Z.ltb_ge in E. exact E.
  - apply StronglySorted_app in Hq as (H12 & H1 & H2). apply is_later_lex in Hx. rewrite time_le_lex in Hx. apply StronglySorted_app; split_and!; [|done|].
    + intros y z Hy [->|Hz]%elem_of_cons; [|by apply H12]. eapply Forall_forall in Hf; [|exact Hy]. simpl in Hf. unfold is_later in Hf. by apply Z.ltb_ge in Hf.
    + constructor; [done|]. apply StronglySorted_inv in H2 as [_ H2]. constructor; [rewrite time_le_lex; lia|].
      eapply Forall_impl; [exact H2|]. intros y Hy. simpl in Hy. rewrite time_le_lex in *. lia.
Qed.
Lemma by_time_ext v v' q : (∀ x, x ∈ q → time_in v' x = time_in v x) → by_time v q → by_time v' q.
Proof.
  unfold by_time. intros He Hq. induction Hq as [|x q Hq IH Hf]; [constructor|]. constructor; [apply IH; set_solver|].
  apply Forall_forall. intros y Hy. eapply Forall_forall in Hf; [|exact Hy]. simpl in Hf. by rewrite !He by set_solver.
Qed.
Lemma by_time_without v t q : by_time v q → by_time v (without t q).
Proof. unfold by_time, without. intros Hq. induction Hq as [|x q Hq IH Hf]; [constructor|]. rewrite filter_cons. case_decide; [|done]. constructor; [done|].
  apply Forall_forall. intros y [_ Hy]%list_elem_of_filter. by eapply Forall_forall in Hf. Qed.
Lemma insert_time now t timeout v x : x ≠ t → time_in (set_times (<[t := cavan_timer_timespec_add_ms now timeout]> (times v)) v) x = time_in v x.
Proof. intros Hx. unfold time_in. simpl. by rewrite lookup_total_insert_ne. Qed.

(** ** What holds between the steps *)

(** The thread and what it saw of the queue. *)
Definition watchful (T : gset Z) (a : queue_state) : Prop :=
  let v := q_service a in let q := q_queue a in let t := service_thread v in
  match q_place a with
  | ToLook | ToAwake => state t = CAVAN_THREAD_STATE_RUNNING
  | InHandler x => state t = CAVAN_THREAD_STATE_RUNNING ∧ x ∈ T ∧ x ∉ q
  | ToSleep _ => state t = CAVAN_THREAD_STATE_RUNNING ∧ (pending t = false → head q = Some (timer_waiting v))
  | Asleep => state t = CAVAN_THREAD_STATE_SLEEP ∧ pending t = false ∧ head q = Some (timer_waiting v) ∨ state t = CAVAN_THREAD_STATE_RUNNING ∧ signalled t = true
  | Returning => state t = CAVAN_THREAD_STATE_RUNNING ∨ state t = CAVAN_THREAD_STATE_SUSPEND ∧ (pending t = false → q = [])
  | Parked => state t = CAVAN_THREAD_STATE_SUSPEND ∧ pending t = false ∧ q = [] ∨ state t = CAVAN_THREAD_STATE_RUNNING ∧ signalled t = true
  | Exited => False
  end.
Record queue_ok (T : gset Z) (a : queue_state) : Prop := {
  qo_lock : service_lock (q_service a) = false;
  qo_range : ∀ t, t ∈ q_queue a → in_range (2 ^ 41) (time_in (q_service a) t);
  qo_sorted : by_time (q_service a) (q_queue a);
  qo_watch : watchful T a }.

Section steps.
Context (link : double_link) (T : gset Z).
Abbreviation node := (double_link_get_to_node link).
Hypothesis Hhead : dl_head link ≠ 0.
Hypothesis Hnull : ∀ t, t ∈ T → node t ≠ 0.
Hypothesis Hnode : ∀ t, t ∈ T → node t ≠ dl_head link.
Abbreviation in_store := (in_store link T).

Lemma look_ok v q s now : in_store false q v s → service_lock v = false → in_range (2 ^ 40) now → (∀ t, t ∈ q → in_range (2 ^ 41) (time_in v t)) →
  wpp (service_look link now) s (λ d s', after_look d = q_place (q_look now v q) ∧ in_store false (q_queue (q_look now v q)) (q_service (q_look now v q)) s').
Proof using All.
  intros Hs Hl Hnow Hr. apply wpp_bind. eapply wpp_lock_service; [done|done|]. intros s1 Hs1. apply wpp_bind. eapply get_first_ok; [done..|]. intros s2 Hs2. destruct q as [|t q].
  - simpl. apply wpp_bind. eapply wpp_assign; [done|apply Hs2|]. intros s3 Hs3. apply wpp_bind. eapply wpp_unlock_service; [done|done|]. intros s4 Hs4. apply wpp_ret. split; [done|].
    destruct v. simpl in *. by subst.
  - assert (t ∈ T) as Ht by (apply Hs; left). rewrite (proj2 (Z.eqb_neq _ _)) by (by apply Hnull). cbn [negb]. rewrite container_node. apply wpp_bind. eapply wpp_time_of; [done|done|].
    apply wpp_bind. eapply wpp_lift; [apply diff_ok; [destruct Hnow; split; lia|apply Hr; left]|]. cbv zeta. simpl q_look. change (time_in (set_service_lock true v) t) with (time_in v t).
    destruct (0 <? swrap 32 (ms_until now (time_in v t))).
    + apply wpp_bind. eapply wpp_assign; [done|apply Hs2|]. intros s3 Hs3. apply wpp_bind. eapply wpp_unlock_service; [done|done|]. intros s4 Hs4. apply wpp_ret. split; [done|].
      destruct v. simpl in *. by subst.
    + apply wpp_bind. eapply remove_ok; [done..|]. intros s3 Hs3. apply wpp_bind. eapply wpp_assign; [done|apply Hs3|]. intros s4 Hs4. apply wpp_bind. eapply wpp_unlock_service; [done|done|]. intros s5 Hs5. apply wpp_ret.
      split; [done|]. pose proof (holds_nodup _ _ _ _ _ _ Hs) as [Htq Hnd]%NoDup_cons. unfold without in Hs5. rewrite filter_cons_False in Hs5 by tauto. fold (without t q) in Hs5. rewrite without_notin in Hs5 by done.
      destruct v. simpl in *. by subst.
Qed.

(** Resuming the thread keeps the watch, whatever becomes of the queue. *)
Lemma watchful_resumed v q q' p : watchful T (mk_queue_state v q p) → (∀ t, running p t = true → t ∉ q') → watchful T (mk_queue_state (resumed v) q' p).
Proof.
  assert (∀ t, state t = CAVAN_THREAD_STATE_RUNNING → state (cavan_thread_resume cavan_thread_wake_handler_none t) = CAVAN_THREAD_STATE_RUNNING) as Hrun by (intros t E; unfold cavan_thread_resume; simpl; by rewrite E).
  assert (∀ t, pending (cavan_thread_resume cavan_thread_wake_handler_none t) = true) as Hpend by (intros t; unfold cavan_thread_resume; simpl; by destruct (state t)).
  assert (∀ t, state t = CAVAN_THREAD_STATE_SLEEP ∨ state t = CAVAN_THREAD_STATE_SUSPEND ∨ state t = CAVAN_THREAD_STATE_RUNNING ∧ signalled t = true →
    state (cavan_thread_resume cavan_thread_wake_handler_none t) = CAVAN_THREAD_STATE_RUNNING ∧ signalled (cavan_thread_resume cavan_thread_wake_handler_none t) = true) as Hsig.
  { intros t [E|[E|[E Hs]]]; unfold cavan_thread_resume; simpl; by rewrite E. }
  unfold watchful, resumed. simpl. intros H Hp. destruct p; simpl in *.
  - by apply Hrun.
  - split; [by apply Hrun; destruct H|]. intros Hf. by rewrite Hpend in Hf.
  - right. apply Hsig. tauto.
  - by apply Hrun.
  - destruct H as (E & HT & _). split; [by apply Hrun|]. split; [done|]. apply Hp, Z.eqb_refl.
  - left. destruct H as [E|[E _]]; [by apply Hrun|by apply Hsig; auto].
  - right. apply Hsig. tauto.
  - done.
Qed.
Lemma q_insert_ok now t timeout v q0 q p : queue_ok T (mk_queue_state v q0 p) → (∀ x, x ∈ q → x ∈ q0) → by_time v q → in_range (2 ^ 40) now → 0 ≤ timeout < 2 ^ 32 → t ∉ q → running p t = false →
  queue_ok T (mk_queue_state (q_insert now t timeout v q).1 (q_insert now t timeout v q).2 p).
Proof.
  intros [Hl Hr _ Hw] Hsub Hs Hnow Htm Htq Hp. simpl in *. set (v' := set_times _ v). assert (∀ x, x ∈ q → time_in v' x = time_in v x) as Hsame by (intros x Hx; apply insert_time; congruence).
  split; simpl.
  - done.
  - intros x [->|Hx]%enqueue_in.
    + unfold time_in. simpl. rewrite lookup_total_insert_eq. by apply add_ms_sane.
    + change (in_range (2 ^ 41) (time_in v' x)). rewrite Hsame by done. by apply Hr, Hsub.
  - change (by_time v' (enqueue (is_later v' t) t q)). apply enqueue_sorted. by eapply by_time_ext.
  - apply (watchful_resumed v' q0); [exact Hw|]. intros x Hx Hin%enqueue_in. destruct Hin as [->|Hin]; [congruence|]. destruct p; simpl in *; try done. apply Z.eqb_eq in Hx as ->. destruct Hw as (_ & _ & Hx). by apply Hx, Hsub.
Qed.

Lemma thread_step_ok a f s : queue_ok T a → in_store false (q_queue a) (q_service a) s → watchful T (q_thread a f) →
  ∃ s', with_thread f s = (s', q_place (q_thread a f)) ∧ in_store false (q_queue (q_thread a f)) (q_service (q_thread a f)) s' ∧ queue_ok T (q_thread a f).
Proof using All.
  intros [Hl Hr Hs Hw] Hh Hw'. unfold with_thread. rewrite (ds_user _ _ _ _ _ (h_state _ _ _ _ _ _ Hh)). eexists. split; [done|]. split; [|by split].
  eapply holds_user; [done|apply Hh].
Qed.
(** What [q_look] decides. *)
Lemma q_look_ok now v q : queue_ok T (mk_queue_state v q ToLook) → (∀ t, t ∈ q → t ∈ T) → NoDup q → queue_ok T (q_look now v q).
Proof.
  intros [Hl Hr Hs Hw] HT Hnd. unfold watchful in Hw. simpl in *. destruct q as [|t q]; simpl.
  - split; [done|set_solver|done|]. unfold watchful, cavan_thread_suspend. simpl. rewrite Hw. simpl. right. by split.
  - apply NoDup_cons in Hnd as [Htq _]. destruct (0 <? swrap 32 (ms_until now (time_in v t))); simpl.
    + by split; [| | |split].
    + split; [done|intros x Hx; apply Hr; by right| |].
      * by apply StronglySorted_inv in Hs as [Hs _].
      * split; [done|]. split; [apply HT; left|done].
Qed.
Lemma q_back_ok now t delay v q : queue_ok T (mk_queue_state v q (InHandler t)) → in_range (2 ^ 40) now → delay < 2 ^ 31 →
  queue_ok T (mk_queue_state (q_back now t delay v q).1 (q_back now t delay v q).2 Returning).
Proof.
  intros [Hl Hr Hs Hw] Hnow Hd. destruct Hw as (Hrun & HT & Htq). unfold q_back. simpl in *.
  set (v' := set_last_run t (set_running 0 (set_run_count (u32 (run_count v + 1)) v))).
  assert (queue_ok T (mk_queue_state v' q Returning)) as Hok by (split; [done|done|done|by left]).
  destruct (Z.ltb_spec 0 delay); [|done]. apply (q_insert_ok _ _ _ _ q); [done|done|done|done|lia|done|done].
Qed.
Lemma awake_watch v q : queue_ok T (mk_queue_state v q ToAwake) → queue_ok T (mk_queue_state (set_waiting 0 v) q Returning).
Proof. intros [Hl Hr Hs Hw]. split; [done|done|done|by left]. Qed.

(** Every step of the service is one of the queue. *)
Lemma service_step_ok a a' e s : queue_ok T a → in_store false (q_queue a) (q_service a) s → q_step a e = Some a' →
  ∃ s', service_step link (s, q_place a) e = Ok (s', q_place a') ∧ in_store false (q_queue a') (q_service a') s' ∧ queue_ok T a'.
Proof using All.
  destruct a as [v q p]. intros Hok Hh Hstep. pose proof Hok as [Hl Hr Hsort Hw]. simpl in *. pose proof (holds_nodup _ _ _ _ _ _ Hh) as Hnd. pose proof (h_queue _ _ _ _ _ _ Hh) as HT. pose proof (h_times _ _ _ _ _ _ Hh) as Hdom.
  destruct e as [now t timeout|t|now| | | |now delay| |]; simpl in Hstep.
  - case_bool_decide as Ht; [|done]. destruct (sane now) eqn:Hnow; [|done]. destruct (running p t) eqn:Hp; [done|]. simpl in Hstep. destruct (Z.leb_spec 0 timeout); [|done]. destruct (Z.ltb_spec timeout (2 ^ 32)); [|done]. injection Hstep as <-.
    rewrite <-elem_of_dom, Hdom in Ht. destruct (proj1 (wpp_ok _ _ _) (insert_ok link T Hhead Hnull Hnode q v s now t timeout Hh Hl Ht)) as (r & s' & E & -> & Hs'). exists s'. simpl. rewrite E. split; [done|]. split; [done|].
    apply (q_insert_ok _ _ _ _ q); [done|by intros x [Hx _]%in_without|by apply by_time_without|by apply sane_range|lia|rewrite in_without; tauto|done].
  - case_bool_decide as Ht; [|done]. injection Hstep as <-. rewrite <-elem_of_dom, Hdom in Ht. destruct (proj1 (wpp_ok _ _ _) (timer_remove_ok link T Hhead Hnull Hnode q v s t Hh Hl Ht)) as ([] & s' & E & Hs'). exists s'. simpl. rewrite E.
    split; [done|]. split; [done|]. split; simpl; [done|intros x [Hx _]%in_without; by apply Hr|by apply by_time_without|]. apply (watchful_resumed v q); [exact Hw|].
    intros x Hx [Hin _]%in_without. destruct p; simpl in *; try done. apply Z.eqb_eq in Hx as ->. by destruct Hw as (_ & _ & ?).
  - destruct p; try done. destruct (sane now) eqn:Hnow; [|done]. injection Hstep as <-. apply sane_range in Hnow.
    destruct (proj1 (wpp_ok _ _ _) (look_ok v q s now Hh Hl Hnow Hr)) as (d & s' & E & Hd & Hs'). exists s'. unfold service_step. cbn [fst snd]. rewrite E. cbn [mbind cres_bind mret cres_ret]. rewrite Hd. split; [done|]. split; [done|]. by apply q_look_ok.
  - destruct p; try done. injection Hstep as <-. unfold watchful in Hw. simpl in Hw. destruct Hw as [Hrun Hw].
    destruct (thread_step_ok (mk_queue_state v q (ToSleep delay)) (λ t, let r := sleep_enter t in (r.1, if r.2 then Asleep else ToAwake)) s Hok Hh) as (s' & E & Hs' & Hok'); [|exists s'; split; [exact (f_equal Ok E)|split; [exact Hs'|exact Hok']]].
    unfold watchful, sleep_enter. simpl. destruct (pending (service_thread v)) eqn:Ep; simpl; [done|]. left. rewrite Ep. by split_and!; [| |apply Hw].
  - destruct p; try done. injection Hstep as <-. unfold watchful in Hw. simpl in Hw.
    destruct (thread_step_ok (mk_queue_state v q Asleep) (λ t, (sleep_leave t, ToAwake)) s Hok Hh) as (s' & E & Hs' & Hok'); [|exists s'; split; [exact (f_equal Ok E)|split; [exact Hs'|exact Hok']]].
    unfold watchful, sleep_leave. simpl. destruct Hw as [(-> & _)|(E & _)]; [done|]. rewrite E. done.
  - destruct p; try done. injection Hstep as <-. destruct (proj1 (wpp_ok _ _ _) (awake_ok link T Hhead Hnull Hnode q v s Hh Hl)) as ([] & s' & E & Hs'). exists s'. unfold service_step. cbn [fst snd]. rewrite E. split; [done|]. split; [done|]. by apply awake_watch.
  - destruct p; try done. destruct (sane now) eqn:Hnow; [|done]. simpl in Hstep. destruct (Z.ltb_spec delay (2 ^ 31)); [|done]. injection Hstep as <-. apply sane_range in Hnow. unfold watchful in Hw. simpl in Hw. destruct Hw as (Hrun & Ht & Htq).
    destruct (proj1 (wpp_ok _ _ _) (back_ok link T Hhead Hnull Hnode q v s now timer delay Hh Hl Ht Htq)) as ([] & s' & E & Hs'). exists s'. unfold service_step. cbn [fst snd]. rewrite E. split; [done|]. split; [done|]. by apply q_back_ok.
  - destruct p; try done. injection Hstep as <-. unfold watchful in Hw. simpl in Hw.
    destruct (thread_step_ok (mk_queue_state v q Returning) (λ t, let r := main_returned 0 t in (r.1, place_of r.2)) s Hok Hh) as (s' & E & Hs' & Hok'); [|exists s'; split; [exact (f_equal Ok E)|split; [exact Hs'|exact Hok']]].
    unfold watchful, main_returned, main_switch. simpl. destruct Hw as [E|[E Hp]]; rewrite E; simpl; [by rewrite E|]. destruct (pending (service_thread v)) eqn:Ep; simpl; [done|]. left. rewrite E, Ep. by split_and!; [| |apply Hp].
  - destruct p; try done. injection Hstep as <-. unfold watchful in Hw. simpl in Hw.
    destruct (thread_step_ok (mk_queue_state v q Parked) (λ t, let r := main_woken t in (r.1, place_of r.2)) s Hok Hh) as (s' & E & Hs' & Hok'); [|exists s'; split; [exact (f_equal Ok E)|split; [exact Hs'|exact Hok']]].
    unfold watchful, main_woken, main_switch. simpl. destruct Hw as [(E & Ep & Hq)|[E Hsig]]; rewrite E; simpl; [left; by rewrite E, Ep|]. rewrite E. done.
Qed.
Lemma service_run_ok es : ∀ a a' s, queue_ok T a → in_store false (q_queue a) (q_service a) s → q_run a es = Some a' →
  ∃ s', service_run link (s, q_place a) es = Ok (s', q_place a') ∧ in_store false (q_queue a') (q_service a') s' ∧ queue_ok T a'.
Proof using All.
  induction es as [|e es IH]; intros a a' s Hok Hh Hrun; simpl in Hrun; [injection Hrun as <-; by exists s|].
  destruct (q_step a e) as [a1|] eqn:E1; [|done]. destruct (service_step_ok a a1 e s Hok Hh E1) as (s1 & E & Hs1 & Hok1).
  destruct (IH a1 a' s1 Hok1 Hs1 Hrun) as (s' & E' & Hs' & Hok'). exists s'. simpl. by rewrite E.
Qed.
End steps.

(** ** The flasher *)

(** The nodes of [flasher->head] in their order; a handler sees its node only. *)
Record cavan_flasher_node := mk_flasher_node { fn_delay : Z; fn_count : Z; fn_count_max : Z; fn_bright : bool; fn_enable : bool }.
Record cavan_flasher := mk_flasher { fl_thread : cavan_thread_t; fl_delay : Z; fl_nodes : list cavan_flasher_node }.

Definition flasher_delay_round (fuel : nat) (delay : Z) (node : cavan_flasher_node) : cres Z :=
  if negb (fn_enable node) then Ok delay
  else if 0 <? delay then v ← math_get_greatest_common_divisor_single fuel delay (fn_delay node); Ok (u32 v) else Ok (fn_delay node).
Fixpoint flasher_delay (fuel : nat) (delay : Z) (nodes : list cavan_flasher_node) : cres Z :=
  match nodes with [] => Ok delay | node :: nodes => delay ← flasher_delay_round fuel delay node; flasher_delay fuel delay nodes end.
Definition flasher_rescale (delay : Z) (node : cavan_flasher_node) : cavan_flasher_node :=
  if negb (fn_enable node) then node
  else
    let max := fn_count_max node in let count_max := fn_delay node / delay in
    mk_flasher_node (fn_delay node) (if 0 <? max then u32 (fn_count node * count_max) / max else 0) count_max (fn_bright node) (fn_enable node).
Definition cavan_flasher_update_delay (fuel : nat) (f : cavan_flasher) : cres cavan_flasher :=
  delay ← flasher_delay fuel 0 (fl_nodes f);
  let nodes := if 0 <? delay then flasher_rescale delay <$> fl_nodes f else fl_nodes f in
  Ok (mk_flasher (cavan_thread_resume cavan_thread_wake_handler_none (fl_thread f)) delay nodes).
Definition cavan_flasher_add_node (fuel : nat) (node : cavan_flasher_node) (f : cavan_flasher) : cres cavan_flasher :=
  cavan_flasher_update_delay fuel (mk_flasher (fl_thread f) (fl_delay f) (fl_nodes f ++ [mk_flasher_node (fn_delay node) 0 0 false (fn_enable node)])).
(** A node in a round of the thread, and whether its handler is called. *)
Definition flasher_tick (node : cavan_flasher_node) : cavan_flasher_node * bool :=
  if negb (fn_enable node) then (node, false)
  else if 1 <? fn_count node then (mk_flasher_node (fn_delay node) (fn_count node - 1) (fn_count_max node) (fn_bright node) (fn_enable node), false)
  else (mk_flasher_node (fn_delay node) (fn_count_max node) (fn_count_max node) (negb (fn_bright node)) (fn_enable node), true).
(** [slept]: what the sleep answers; 0 is a signal.  The sleep and the lock of
    the nodes are the environment's. *)
Definition cavan_flasher_thread_handler (slept : Z) (f : cavan_flasher) : cavan_flasher :=
  if 0 <? fl_delay f then
    if slept =? 0 then f else mk_flasher (fl_thread f) (fl_delay f) (fst ∘ flasher_tick <$> fl_nodes f)
  else mk_flasher (cavan_thread_suspend (fl_thread f)) (fl_delay f) (fl_nodes f).
Definition cavan_flasher_run (a : init_answers) (created : Z) (t : cavan_thread_t) : Z * cavan_flasher :=
  let '(ret, t) := cavan_thread_run true a created t in (ret, mk_flasher t 0 []).

(** The delay of the flasher divides that of every node that is enabled, so
    [count_max] rounds take exactly the delay of the node. *)
Definition ticking (nodes : list cavan_flasher_node) : Prop := Forall (λ n, fn_enable n = true → 0 < fn_delay n < 2 ^ 32) nodes.
Lemma flasher_delay_ok fuel nodes : (Z.to_nat (2 ^ 33) < fuel)%nat → ticking nodes → ∀ delay, 0 ≤ delay < 2 ^ 32 →
  ∃ d, flasher_delay fuel delay nodes = Ok d ∧ 0 ≤ d < 2 ^ 32 ∧ (0 < delay → (d | delay)) ∧ Forall (λ n, fn_enable n = true → 0 < d ∧ (d | fn_delay n)) nodes ∧ (0 < delay → 0 < d).
Proof.
  intros Hf. induction 1 as [|n nodes Hn _ IH]; intros delay Hd; [exists delay; split_and!; lia || done || by intros|]. simpl. unfold flasher_delay_round at 1.
  destruct (fn_enable n) eqn:En; simpl; [specialize (Hn eq_refl)|].
  - destruct (Z.ltb_spec 0 delay) as [Hp|Hp].
    + rewrite gcd_single_ok by lia. simpl. pose proof (Z.gcd_nonneg delay (fn_delay n)). assert (Z.gcd delay (fn_delay n) ≠ 0) by (intros E%Z.gcd_eq_0_l; lia).
      pose proof (Z.gcd_divide_l delay (fn_delay n)) as Hl. pose proof (Z.gcd_divide_r delay (fn_delay n)) as Hr. pose proof (Z.divide_pos_le _ _ Hp Hl).
      rewrite wrap_small by lia. destruct (IH (Z.gcd delay (fn_delay n))) as (d & -> & Q1 & Q2 & Q3 & Q4); [lia|]. exists d. split_and!; [done|lia|lia| | |].
      * intros _. etrans; [apply Q2; lia|done].
      * constructor; [|done]. intros _. split; [apply Q4; lia|]. etrans; [apply Q2; lia|done].
      * intros _. apply Q4. lia.
    + simpl. destruct (IH (fn_delay n)) as (d & -> & Q1 & Q2 & Q3 & Q4); [lia|]. exists d. split_and!; [done|lia|lia|lia| |lia]. constructor; [|done]. intros _. split; [apply Q4; lia|apply Q2; lia].
  - simpl. destruct (IH delay Hd) as (d & -> & Q1 & Q2 & Q3 & Q4). exists d. split_and!; [done|lia|lia|done| |done]. constructor; [congruence|done].
Qed.
Lemma flasher_counts_divide fuel f : (Z.to_nat (2 ^ 33) < fuel)%nat → ticking (fl_nodes f) →
  ∃ f', cavan_flasher_update_delay fuel f = Ok f' ∧ Forall (λ n, fn_enable n = true → fn_count_max n * fl_delay f' = fn_delay n) (fl_nodes f').
Proof.
  intros Hf Ht. destruct (flasher_delay_ok fuel _ Hf Ht 0) as (d & E & Hd & _ & Hall & _); [lia|]. unfold cavan_flasher_update_delay. rewrite E. eexists. split; [done|]. simpl.
  destruct (Z.ltb_spec 0 d) as [Hp|Hp].
  - apply Forall_fmap. eapply Forall_impl; [exact Hall|]. intros n Hn. unfold flasher_rescale. simpl. destruct (fn_enable n) eqn:En; simpl; [|congruence]. intros _.
    destruct (Hn En) as [_ [k Hk]]. rewrite Hk, Z.div_mul by lia. done.
  - eapply Forall_impl; [exact Hall|]. intros n Hn En. destruct (Hn En). lia.
Qed.
(** From one call of its handler to the next there are [count_max] rounds. *)
Lemma flasher_blinks n k : fn_enable n = true → Z.of_nat k < fn_count n →
  Nat.iter k (fst ∘ flasher_tick) n = mk_flasher_node (fn_delay n) (fn_count n - Z.of_nat k) (fn_count_max n) (fn_bright n) true.
Proof.
  intros En. induction k as [|k IH]; intros Hk; [destruct n as [a b c d e]; simpl in *; by rewrite En, Z.sub_0_r|]. rewrite Nat.iter_succ, IH by lia. unfold flasher_tick. simpl.
  rewrite (proj2 (Z.ltb_lt _ _)) by lia. simpl. f_equal. lia.
Qed.
Lemma flasher_period n : fn_enable n = true → 1 ≤ fn_count n → fn_count_max n = fn_count n →
  Nat.iter (Z.to_nat (fn_count_max n)) (fst ∘ flasher_tick) n = mk_flasher_node (fn_delay n) (fn_count_max n) (fn_count_max n) (negb (fn_bright n)) true.
Proof.
  intros En Hc Hm. replace (Z.to_nat (fn_count_max n)) with (S (Z.to_nat (fn_count_max n - 1))) by lia. rewrite Nat.iter_succ, flasher_blinks by (done || lia). simpl.
  unfold flasher_tick. simpl. rewrite (proj2 (Z.ltb_ge _ _)) by lia. done.
Qed.
(** A node without a delay beside another one hangs the computation. *)
Example flasher_hangs fuel : (1 < fuel)%nat → flasher_delay fuel 0 [mk_flasher_node 100 0 0 false true; mk_flasher_node 0 0 0 false true] = NoFuel.
Proof. intros Hf. simpl. unfold flasher_delay_round. simpl. rewrite gcd_single_stuck by lia. done. Qed.

(** ** The life of a service *)

Definition no_errors : init_answers := mk_init_answers 0 0 0 3 0.
(** The service starts, its thread runs, and then the events happen. *)
Definition service_life (link : double_link) (es : list service_event) (s : store) : cres (store * service_place) :=
  '(r, s) ← cavan_timer_service_start 0 no_errors 0 0 link (dl_offset link) s;
  service_run r.2 (with_thread (λ t, let r := main_enter t in (r.1, place_of r.2)) s) es.
Definition q_start (v : cavan_timer_service) : queue_state :=
  mk_queue_state (mk_service (times v) (u32 (run_count v + 1)) 0 0 0 false (mk_thread false CAVAN_THREAD_STATE_RUNNING false 0)) [] ToLook.
(** When its thread waits and was not signalled, it knows the first timer, or
    there is none. *)
Definition knows_the_first (a : queue_state) : Prop :=
  let t := service_thread (q_service a) in
  match q_place a with
  | ToSleep _ => pending t = false → head (q_queue a) = Some (timer_waiting (q_service a))
  | Asleep => signalled t = false → head (q_queue a) = Some (timer_waiting (q_service a))
  | Parked => signalled t = false → q_queue a = []
  | Exited => False
  | _ => True
  end.
Lemma watchful_knows T a : watchful T a → knows_the_first a.
Proof. unfold watchful, knows_the_first. destruct (q_place a); intuition congruence. Qed.

Section start.
Context (link : double_link) (T : gset Z).
Abbreviation node := (double_link_get_to_node link).
Hypothesis Hhead : dl_head link ≠ 0.
Hypothesis Hnull : ∀ t, t ∈ T → node t ≠ 0.
Hypothesis Hnode : ∀ t, t ∈ T → node t ≠ dl_head link.

Lemma wpp_assigned f s (Q : unit → store → Prop) : Q tt (set_user (f (ls_user s)) s) → wpp (assign f) s Q.
Proof. done. Qed.
Lemma nodes_not_null : 0 ∉ nodes link T.
Proof using All. unfold nodes. intros [H%elem_of_singleton|(t & E & Ht)%elem_of_map]%elem_of_union; [done|]. by apply (Hnull t). Qed.
Lemma init_frame x r (s : store) : x ≠ dl_head link → whenever (double_link_init r link (dl_offset link)) s (λ _ s', same_node x s s').
Proof.
  intros Hx. apply whenever_bind, whenever_bind. eapply whenever_mono; [apply (whenever_node_set x _ _ s s); done|]. intros [] s1 H1.
  eapply whenever_mono; [by apply (whenever_node_set x _ _ s1 s)|]. intros [] s2 H2. apply whenever_bind. intros r' s3 E. injection E as _ <-. by apply whenever_ret.
Qed.
Lemma init_ok (s : store) : dom (ls_heap s) = nodes link T → (∀ t, t ∈ T → alone s (node t)) → dom (times (ls_user s)) = T →
  wpp (double_link_init 0 link (dl_offset link)) s (λ r s', r = (0, link) ∧ in_store link T false [] (ls_user s) s').
Proof using All.
  intros Hd Ha Ht. eapply wpp_mono; [apply (wpp_whenever _ _ (λ r s', r = (0, mk_double_link (dl_offset link) (dl_head link)) ∧ d_state (nodes link T) [dl_head link] false (ls_user s) s') (λ _ s', ∀ x, x ≠ dl_head link → same_node x s s'))|].
  - apply (double_init_rep _ link (ls_user s) (dl_offset link) s); [done|apply nodes_not_null|unfold nodes; set_solver|done].
  - intros r s' E x Hx. by apply (init_frame x 0 s Hx r s').
  - intros r s' [[-> Hs'] Hsame]. split; [by destruct link|]. split; [done| |done|by intros t ?%elem_of_nil].
    intros t Htt _. eapply same_alone; [by apply Hsame, Hnode|by apply Ha].
Qed.
Lemma start_ok s : dom (ls_heap s) = nodes link T → (∀ t, t ∈ T → alone s (node t)) → dom (times (ls_user s)) = T →
  wpp (cavan_timer_service_start 0 no_errors 0 0 link (dl_offset link)) s (λ r s', r = (0, link) ∧
    in_store link T false [] (set_thread (mk_thread (pending (service_thread (ls_user s))) CAVAN_THREAD_STATE_IDLE false 0) (q_service (q_start (ls_user s)))) s').
Proof using All.
  intros Hd Ha Ht. unfold cavan_timer_service_start. simpl. apply wpp_bind, wpp_assigned, wpp_bind, wpp_reads. simpl. do 5 (apply wpp_bind, wpp_assigned). apply wpp_bind. eapply wpp_mono; [by apply init_ok|].
  intros r s1 [-> Hs1]. simpl. apply wpp_bind, wpp_reads. rewrite (ds_user _ _ _ _ _ (h_state _ _ _ _ _ _ Hs1)). simpl.
  apply wpp_bind. eapply wpp_assign; [exact Hs1|done|]. intros s2 Hs2. apply wpp_ret. by split.
Qed.

Lemma start_queue_ok v : queue_ok T (q_start v).
Proof. split; [done|by intros t ?%elem_of_nil|constructor|done]. Qed.
Lemma life_ok es a s : dom (ls_heap s) = nodes link T → (∀ t, t ∈ T → alone s (node t)) → dom (times (ls_user s)) = T → q_run (q_start (ls_user s)) es = Some a →
  ∃ s', service_life link es s = Ok (s', q_place a) ∧ in_store link T false (q_queue a) (q_service a) s' ∧ queue_ok T a.
Proof using All.
  intros Hd Ha Ht Hrun. destruct (proj1 (wpp_ok _ _ _) (start_ok s Hd Ha Ht)) as (r & s1 & E & -> & Hs1). unfold service_life. rewrite E. cbn [mbind cres_bind fst snd].
  unfold with_thread. rewrite (ds_user _ _ _ _ _ (h_state _ _ _ _ _ _ Hs1)). simpl.
  eapply (service_run_ok link T Hhead Hnull Hnode es (q_start (ls_user s)) a); [apply start_queue_ok| |done]. eapply holds_user; [exact Hs1|done].
Qed.
End start.

(** ** Properties *)

(** C22: the timer service is a queue of timers ordered by their times, and its
    thread never sleeps past the first one.  Let threads insert and remove
    timers (also from the handlers of other timers) while the thread of the
    service looks at its list, sleeps, runs handlers, inserts again the timers
    that ask for it and suspends itself when there is none, in any order.  Then
    no step fails, the list in memory holds the timers of the queue of the
    specification, sorted by their times, every other timer is unlinked, and
    when the thread waits without a signal under way it waits for the first
    timer of the queue, or the queue is empty. *)
Theorem timer_service_refines_a_queue link T es a s :
  let node := double_link_get_to_node link in
  dl_head link ≠ 0 → (∀ t, t ∈ T → node t ≠ 0 ∧ node t ≠ dl_head link) →
  dom (ls_heap s) = nodes link T → (∀ t, t ∈ T → alone s (node t)) → dom (times (ls_user s)) = T →
  q_run (q_start (ls_user s)) es = Some a →
  ∃ s', service_life link es s = Ok (s', q_place a) ∧ in_store link T false (q_queue a) (q_service a) s' ∧
    by_time (q_service a) (q_queue a) ∧ knows_the_first a.
Proof.
  intros node Hhead Hnode Hd Ha Ht Hrun. destruct (life_ok link T Hhead (λ t H, proj1 (Hnode t H)) (λ t H, proj2 (Hnode t H)) es a s Hd Ha Ht Hrun) as (s' & E & Hs' & [_ _ Hsort Hw]).
  exists s'. split_and!; [done|done|done|by eapply watchful_knows].
Qed.

(** Two timers, at 16 and 64, of a list whose head node is at 1000. *)
Definition demo_link : double_link := mk_double_link 8 1000.
Definition demo_store : store :=
  mk_lstate (list_to_map [(1000, mk_double_link_node 0 0); (24, mk_double_link_node 24 24); (72, mk_double_link_node 72 72)]) false
    (mk_service (list_to_map [(16, mk_timespec 0 0); (64, mk_timespec 0 0)]) 0 7 7 7 true (mk_thread true CAVAN_THREAD_STATE_STOPPED false 0)).
Definition at_ms (ms : Z) : timespec := mk_timespec (ms / 1000) (ms mod 1000 * 1000000).
(** The thread sleeps for the first timer, the second comes before it, wakes
    the thread and runs; it asks to run again 700 ms later. *)
Definition demo_events : list service_event :=
  [Insert (at_ms 5000) 16 500; Look (at_ms 5000); EnterSleep; Awaken; ReturnToMain; Look (at_ms 5001); EnterSleep; Insert (at_ms 5100) 64 100; WakeUp; Awaken; ReturnToMain;
   Look (at_ms 5200); Back (at_ms 5200) 700; ReturnToMain; Look (at_ms 5201); EnterSleep; Awaken; ReturnToMain; Look (at_ms 5202); EnterSleep].

Lemma timer_service_refines_a_queue_witness :
  let a := mk_queue_state (mk_service (list_to_map [(16, mk_timespec 5 500000000); (64, mk_timespec 5 900000000)]) 2 16 0 64 false
    (mk_thread false CAVAN_THREAD_STATE_SLEEP false 0)) [16; 64] Asleep in
  ∃ s', service_life demo_link demo_events demo_store = Ok (s', Asleep) ∧ in_store demo_link {[16; 64]} false [16; 64] (q_service a) s' ∧
    by_time (q_service a) [16; 64] ∧ knows_the_first a.
Proof.
  intros a. apply (timer_service_refines_a_queue demo_link {[16; 64]} demo_events a demo_store).
  - done.
  - intros t Ht. assert (t = 16 ∨ t = 64) as [-> | ->] by set_solver; done.
  - vm_compute. reflexivity.
  - intros t Ht. assert (t = 16 ∨ t = 64) as [-> | ->] by set_solver; split; reflexivity.
  - vm_compute. reflexivity.
  - vm_compute. reflexivity.
Defined.

(** ** Runs *)

(** A timer that its own handler inserts and that asks to run again is linked
    twice: when it is taken out the list still leads to it, and the next
    insertion walks round it for ever. *)
Example timer_linked_twice :
  service_life demo_link [Insert (at_ms 0) 16 0; Look (at_ms 5000); Insert (at_ms 5000) 16 1000; Back (at_ms 5000) 500; ReturnToMain; Look (at_ms 7000);
    Insert (at_ms 7000) 64 100] demo_store = NoFuel.
Proof. vm_compute. reflexivity. Qed.
(** A timer 25 days ahead runs at once: the milliseconds left are kept in an
    [int]. *)
Example far_timer_runs_at_once :
  q_place <$> q_run (q_start (ls_user demo_store)) [Insert (at_ms 0) 16 (25 * 86400000); Look (at_ms 0)] = Some (InHandler 16).
Proof. vm_compute. reflexivity. Qed.
(** And it runs early, by up to a millisecond when the timeout is computed and
    by up to one more when it is compared. *)
Example timer_runs_early :
  q_place <$> q_run (q_start (ls_user demo_store)) [Insert (mk_timespec 7 1999999) 16 3; Look (mk_timespec 7 3000001)] = Some (InHandler 16).
Proof. vm_compute. reflexivity. Qed.
(** Each start of the service counts as a run. *)
Example start_counts_as_a_run : run_count (q_service (q_start (ls_user demo_store))) = 1.
Proof. reflexivity. Qed.
