(* ===== verification/Huffman.v ===== *)
(** Huffman: the Huffman tree of src/lib/codec.c and its codes.

    A node is its index in the array [nodes] or [tree_nodes] it lies in.  The
    arrays are on the stack of the caller: what they hold at first is arbitrary,
    and so is the argument for it. *)
From stdpp Require Import sorting.
From S2P Require Import Prelude Sort.

(** ** The tree *)

Definition CAVAN_HUFFMAN_SYMBOLS : Z := 256.
Definition CAVAN_HUFFMAN_TREE_SIZE : Z := CAVAN_HUFFMAN_SYMBOLS * 2.
Definition NULL : Z := -1.

Record cavan_huffman_node := mk_huffman_node { hn_value : Z; hn_code : Z; hn_length : Z; hn_count : Z }.
Record cavan_huffman_tree_node := mk_huffman_tree_node { ht_count : Z; ht_node : Z; ht_left : Z; ht_right : Z }.
#[export] Instance huffman_node_inhabited : Inhabited cavan_huffman_node := populate (mk_huffman_node 0 0 0 0).
#[export] Instance huffman_tree_node_inhabited : Inhabited cavan_huffman_tree_node := populate (mk_huffman_tree_node 0 0 0 0).

Abbreviation nodes_t := (list cavan_huffman_node).
Abbreviation tree_t := (list cavan_huffman_tree_node).

(** An assignment to fields of an element. *)
Definition modify {A} `{Inhabited A} (m : list A) (i : Z) (f : A → A) : cres (list A) := x ← load m i; store m i (f x).

Definition cavan_huffman_freq_table_init (nodes : nodes_t) : cres nodes_t :=
  loop (S (Z.to_nat CAVAN_HUFFMAN_SYMBOLS)) (λ '(i, nodes),
    if i <? CAVAN_HUFFMAN_SYMBOLS then
      nodes ← modify nodes i (λ n, mk_huffman_node (u8 i) (hn_code n) (hn_length n) 0); mret (inl (i + 1, nodes))
    else mret (inr nodes)) (0, nodes).
Definition count_byte (nodes : nodes_t) (b : Z) : cres nodes_t :=
  modify nodes b (λ n, mk_huffman_node (hn_value n) (hn_code n) (hn_length n) (u64 (hn_count n + 1))).
Definition cavan_huffman_build_freq_table (mem : list Z) (nodes : nodes_t) : cres nodes_t :=
  loop (S (length mem)) (λ '(mem, nodes),
    match mem with b :: mem => nodes ← count_byte nodes b; mret (inl (mem, nodes)) | [] => mret (inr nodes) end) (mem, nodes).

Section tree_sort.
(** [p->node->count]. *)
Context (count_of : Z → cres Z).

Definition tree_scan_down (m : list Z) (middle start endp : Z) : cres (Z + Z) :=
  p ← load m endp; v ← count_of p; c ← count_of middle;
  if (c <? v) && (start <? endp) then mret (inl (endp - 1)) else mret (inr endp).
Definition tree_scan_up (m : list Z) (middle endp start : Z) : cres (Z + Z) :=
  p ← load m start; v ← count_of p; c ← count_of middle;
  if (v <? c) && (start <? endp) then mret (inl (start + 1)) else mret (inr start).
Definition tree_partition_round (middle : Z) (st : list Z * Z * Z) : cres ((list Z * Z * Z) + (list Z * Z * Z)) :=
  let '(m, start, endp) := st in
  endp ← loop (array_fuel m) (tree_scan_down m middle start) endp;
  if start <? endp then
    v ← load m endp; m ← store m start v;
    let start := start + 1 in
    start ← loop (array_fuel m) (tree_scan_up m middle endp) start;
    if start <? endp then
      v ← load m start; m ← store m endp v;
      mret (inl (m, start, endp - 1))
    else mret (inr (m, start, endp))
  else mret (inr (m, start, endp)).
Fixpoint cavan_huffman_tree_sort (fuel : nat) (m : list Z) (start endp : Z) : cres (list Z) :=
  match fuel with
  | O => NoFuel
  | S n =>
    middle ← load m start;
    let start_bak := start in let end_bak := endp in
    '(m, start, endp) ← loop (array_fuel m) (tree_partition_round middle) (m, start, endp);
    m ← store m start middle;
    m ← (if 1 <? start - start_bak then cavan_huffman_tree_sort n m start_bak (start - 1) else mret m);
    if 1 <? end_bak - endp then cavan_huffman_tree_sort n m (endp + 1) end_bak else mret m
  end.
End tree_sort.

Definition node_count (nodes : nodes_t) (tree_nodes : tree_t) (p : Z) : cres Z :=
  t ← load tree_nodes p; n ← load nodes (ht_node t); mret (hn_count n).

(** The loops of [cavan_huffman_build_tree]. *)
Definition init_tree_round : Z * tree_t * list Z → cres (Z * tree_t * list Z + tree_t * list Z) := λ '(i, tree_nodes, tree_pnodes),
  if i <? CAVAN_HUFFMAN_SYMBOLS then
    tree_nodes ← modify tree_nodes i (λ t, mk_huffman_tree_node (ht_count t) i (ht_left t) (ht_right t));
    tree_pnodes ← store tree_pnodes i i;
    mret (inl (i + 1, tree_nodes, tree_pnodes))
  else mret (inr (tree_nodes, tree_pnodes)).
Definition skip_round (nodes : nodes_t) (tree_nodes : tree_t) (tree_pnodes : list Z) (index : Z) : cres (Z + Z) :=
  if index <? CAVAN_HUFFMAN_SYMBOLS then
    p ← load tree_pnodes index; c ← node_count nodes tree_nodes p;
    mret (if c =? 0 then inl (index + 1) else inr index)
  else mret (inr index).
Definition leaf_round (nodes : nodes_t) (tree_pnodes : list Z) : Z * tree_t → cres (Z * tree_t + tree_t) := λ '(i, tree_nodes),
  if i <? CAVAN_HUFFMAN_SYMBOLS then
    p ← load tree_pnodes i; c ← node_count nodes tree_nodes p;
    tree_nodes ← modify tree_nodes p (λ t, mk_huffman_tree_node c (ht_node t) NULL NULL);
    mret (inl (i + 1, tree_nodes))
  else mret (inr tree_nodes).
Definition shift_up_round (tree_nodes : tree_t) (count : Z) : Z * list Z → cres (Z * list Z + Z * list Z) := λ '(i, tree_pnodes),
  p ← load tree_pnodes i; t ← load tree_nodes p;
  if count <? ht_count t then tree_pnodes ← store tree_pnodes (i + 1) p; mret (inl (i - 1, tree_pnodes))
  else mret (inr (i, tree_pnodes)).
Definition merge_round : tree_t * list Z * Z * Z * Z → cres (tree_t * list Z * Z * Z * Z + tree_t * Z) :=
  λ '(tree_nodes, tree_pnodes, index, root, root_node),
  if index <? root then
    left ← load tree_pnodes (index - 1); right ← load tree_pnodes index;
    l ← load tree_nodes left; r ← load tree_nodes right;
    let count := u64 (ht_count l + ht_count r) in
    tree_nodes ← modify tree_nodes root (λ t, mk_huffman_tree_node count (ht_node t) left right);
    '(i, tree_pnodes) ← loop (array_fuel tree_pnodes) (shift_up_round tree_nodes count) (root - 1, tree_pnodes);
    tree_pnodes ← store tree_pnodes (i + 1) root;
    mret (inl (tree_nodes, tree_pnodes, index + 2, root + 1, root))
  else mret (inr (tree_nodes, root_node)).
(** Answers the tree's nodes and the root; [tree_pnodes] is what the array of
    pointers holds before. *)
Definition cavan_huffman_build_tree (tree_pnodes : list Z) (tree_nodes : tree_t) (nodes : nodes_t) : cres (tree_t * Z) :=
  '(tree_nodes, tree_pnodes) ← loop (S (Z.to_nat CAVAN_HUFFMAN_SYMBOLS)) init_tree_round (0, tree_nodes, tree_pnodes);
  tree_pnodes ← cavan_huffman_tree_sort (node_count nodes tree_nodes) (array_fuel tree_pnodes) tree_pnodes 0 (CAVAN_HUFFMAN_SYMBOLS - 1);
  index ← loop (S (Z.to_nat CAVAN_HUFFMAN_SYMBOLS)) (skip_round nodes tree_nodes tree_pnodes) 0;
  tree_nodes ← loop (S (Z.to_nat CAVAN_HUFFMAN_SYMBOLS)) (leaf_round nodes tree_pnodes) (index, tree_nodes);
  root_node ← load tree_pnodes index;
  loop (S (Z.to_nat CAVAN_HUFFMAN_SYMBOLS)) merge_round (tree_nodes, tree_pnodes, index + 1, CAVAN_HUFFMAN_SYMBOLS, root_node).

(** ** The codes *)

Definition BIT64 (i : Z) : cres Z := if (0 <=? i) && (i <? 64) then Ok (Z.shiftl 1 i) else Undef.
(** The code with its first bit lowest. *)
Definition turn_code (code length : Z) : cres Z :=
  loop (S (Z.to_nat length)) (λ '(i, code_new),
    if i <? length then
      b ← BIT64 i;
      code_new ← (if negb (Z.land code b =? 0) then c ← BIT64 (length - i - 1); mret (Z.lor code_new c) else mret code_new);
      mret (inl (i + 1, code_new))
    else mret (inr code_new)) (0, 0).
Fixpoint cavan_huffman_tree_set_code (fuel : nat) (tree_nodes : tree_t) (root code length : Z) (nodes : nodes_t) : cres nodes_t :=
  match fuel with
  | O => NoFuel
  | S n =>
    t ← load tree_nodes root;
    if negb (ht_left t =? NULL) then
      nodes ← cavan_huffman_tree_set_code n tree_nodes (ht_left t) (u64 (Z.shiftl code 1)) (u8 (length + 1)) nodes;
      cavan_huffman_tree_set_code n tree_nodes (ht_right t) (u64 (Z.lor (Z.shiftl code 1) 1)) (u8 (length + 1)) nodes
    else
      code_new ← turn_code code length;
      modify nodes (ht_node t) (λ n, mk_huffman_node (hn_value n) code_new length (hn_count n))
  end.

(** ** What they are *)

(** [count]: how often a symbol occurs. *)
Inductive code_tree := Leaf (symbol : Z) (count : Z) | Fork (l r : code_tree).
Fixpoint weight (t : code_tree) : Z := match t with Leaf _ c => c | Fork l r => weight l + weight r end.
Fixpoint code_depth (t : code_tree) : nat := match t with Leaf _ _ => 0 | Fork l r => S (code_depth l `max` code_depth r) end.
Fixpoint symbols (t : code_tree) : list Z := match t with Leaf s _ => [s] | Fork l r => symbols l ++ symbols r end.

(** After the last one that is not heavier. *)
Fixpoint insert_behind {A} (heavier : A → bool) (x : A) (l : list A) : list A :=
  match l with [] => [x] | y :: rest => if forallb heavier l then x :: l else y :: insert_behind heavier x rest end.
Definition insert_tree (t : code_tree) (ts : list code_tree) : list code_tree := insert_behind (λ y, weight t <? weight y) t ts.
(** The two first trees become one until there is only one. *)
Fixpoint merge_trees (fuel : nat) (ts : list code_tree) : option code_tree :=
  match fuel, ts with
  | S n, a :: b :: ts => merge_trees n (insert_tree (Fork a b) ts)
  | S _, [t] => Some t
  | _, _ => None
  end.
(** The order in which the sort puts the symbols, by the counts alone. *)
Definition symbol_count (count : Z → Z) (s : Z) : cres Z := if inb (seqZ 0 256) s then Ok (count s) else Undef.
Definition by_count (count : Z → Z) : list Z :=
  match cavan_huffman_tree_sort (symbol_count count) 257 (seqZ 0 256) 0 255 with Ok l => l | _ => [] end.
Definition leaves (count : Z → Z) : list code_tree := (λ s, Leaf s (count s)) <$> filter (λ s, count s ≠ 0) (by_count count).
Definition huffman_tree (count : Z → Z) : option code_tree := merge_trees 257 (leaves count).

(** The path to a symbol; its code has the first bit lowest. *)
Fixpoint path (t : code_tree) (s : Z) : option (list bool) :=
  match t with
  | Leaf x _ => if decide (x = s) then Some [] else None
  | Fork l r => match path l s with Some p => Some (false :: p) | None => cons true <$> path r s end
  end.
Fixpoint bits_value (bs : list bool) : Z := match bs with [] => 0 | b :: bs => Z.b2z b + 2 * bits_value bs end.

(** The counts a table holds. *)
Record counts (nodes : nodes_t) (count : Z → Z) : Prop := {
  cn_length : zlen nodes = CAVAN_HUFFMAN_SYMBOLS;
  cn_value s : 0 ≤ s < CAVAN_HUFFMAN_SYMBOLS → hn_value (get nodes s) = s;
  cn_count s : 0 ≤ s < CAVAN_HUFFMAN_SYMBOLS → hn_count (get nodes s) = count s }.
(** Node [p] is the tree [t], made of nodes before [bound]. *)
Fixpoint represents (tree_nodes : tree_t) (bound p : Z) (t : code_tree) : Prop :=
  0 ≤ p < bound ∧ ht_count (get tree_nodes p) = weight t ∧
  match t with
  | Leaf s _ => ht_left (get tree_nodes p) = NULL ∧ ht_right (get tree_nodes p) = NULL ∧ ht_node (get tree_nodes p) = s ∧ p = s
  | Fork l r => represents tree_nodes bound (ht_left (get tree_nodes p)) l ∧ represents tree_nodes bound (ht_right (get tree_nodes p)) r
  end.

(** ** Runs that agree *)

(** If the first returns, so does the second, with a related result. *)
Definition follows {A B} (R : A → B → Prop) (x : cres A) (y : cres B) : Prop := ∀ a, x = Ok a → ∃ b, y = Ok b ∧ R a b.
Definition sum_related {A B C D} (R : A → B → Prop) (R' : C → D → Prop) (x : A + C) (y : B + D) : Prop :=
  match x, y with inl a, inl b => R a b | inr c, inr d => R' c d | _, _ => False end.
Lemma follows_ret {A B} (R : A → B → Prop) a b : R a b → follows R (mret a) (mret b).
Proof. intros H c [= <-]. by exists b. Qed.
Lemma follows_bind {A B C D} (R : A → B → Prop) (R' : C → D → Prop) x y (k : A → cres C) (k' : B → cres D) :
  follows R x y → (∀ a b, R a b → follows R' (k a) (k' b)) → follows R' (x ≫= k) (y ≫= k').
Proof.
  intros H Hk c E. destruct x as [a| |]; [|done..]. destruct (H a eq_refl) as (b & -> & Hab). by apply (Hk a b).
Qed.
Lemma follows_loop {A B C D} (R : A → B → Prop) (R' : C → D → Prop) f g :
  (∀ a b, R a b → follows (sum_related R R') (f a) (g b)) → ∀ n n' a b, (n ≤ n')%nat → R a b → follows R' (loop n f a) (loop n' g b).
Proof.
  intros Hfg n. induction n as [|n IH]; intros n' a b Hn Hab; [done|]. destruct n' as [|n']; [lia|]. rewrite !loop_S.
  eapply follows_bind; [by apply Hfg|]. intros [a'|c] [b'|d] H; try done; [apply IH; [lia|done]|]. by apply (follows_ret R').
Qed.
Lemma follows_eq {A} (x y : cres A) a : follows eq x y → x = Ok a → y = Ok a.
Proof. intros H E. destruct (H a E) as (b & -> & ->). done. Qed.
Lemma follows_refl {A} (x : cres A) : follows eq x x.
Proof. intros a E. by exists a. Qed.

(** A longer array. *)
Definition extended {A} (g : list A) (m m' : list A) : Prop := m' = m ++ g.
Lemma follows_load {A} `{Inhabited A} (g m : list A) i : follows eq (load m i) (load (m ++ g) i).
Proof.
  intros v. unfold load. destruct (inb m i) eqn:E; [|done]. intros [= <-]. apply inb_spec in E. exists (get (m ++ g) i). split; [|by rewrite get_app_l].
  rewrite (proj2 (inb_spec _ _)); [done|]. rewrite zlen_app. pose proof (zlen_nonneg g). lia.
Qed.
Lemma follows_store {A} `{Inhabited A} (g m : list A) i v : follows (extended g) (store m i v) (store (m ++ g) i v).
Proof.
  intros m'. unfold store. destruct (inb m i) eqn:E; [|done]. intros [= <-]. apply inb_spec in E. exists (upd (m ++ g) i v). split.
  - rewrite (proj2 (inb_spec _ _)); [done|]. rewrite zlen_app. pose proof (zlen_nonneg g). lia.
  - unfold extended, upd. unfold zlen in E. rewrite insert_app_l by lia. done.
Qed.

Section sort_follows.
Context (key key' : Z → cres Z) (g : list Z).
Hypothesis Hkey : ∀ p, follows eq (key p) (key' p).

Ltac follow :=
  repeat match goal with
  | |- follows _ (_ ≫= _) (_ ≫= _) => eapply follows_bind; [first [apply follows_load | apply follows_store | apply Hkey]|intros ? ? <- || intros ? ? ->]
  | |- follows _ (if ?c then _ else _) (if ?c then _ else _) => destruct c
  | |- follows _ (mret _) (mret _) => apply follows_ret
  end.
Lemma scan_down_follows m middle start endp : follows (sum_related eq eq) (tree_scan_down key m middle start endp) (tree_scan_down key' (m ++ g) middle start endp).
Proof using Hkey. unfold tree_scan_down. by follow. Qed.
Lemma scan_up_follows m middle endp start : follows (sum_related eq eq) (tree_scan_up key m middle endp start) (tree_scan_up key' (m ++ g) middle endp start).
Proof using Hkey. unfold tree_scan_up. by follow. Qed.

Definition same_part (a b : list Z * Z * Z) : Prop := b = (a.1.1 ++ g, a.1.2, a.2).
Lemma fuel_extended m : (array_fuel m ≤ array_fuel (m ++ g))%nat.
Proof. unfold array_fuel. rewrite length_app. lia. Qed.
Lemma partition_follows middle a b : same_part a b → follows (sum_related same_part same_part) (tree_partition_round key middle a) (tree_partition_round key' middle b).
Proof using Hkey.
  destruct a as [[m s] e]. intros ->. unfold tree_partition_round. simpl.
  eapply follows_bind; [eapply (follows_loop eq eq); [intros ? ? <-; apply scan_down_follows|apply fuel_extended|done]|]. intros e1 ? <-. destruct (s <? e1); [|by apply follows_ret].
  follow. eapply follows_bind; [eapply (follows_loop eq eq); [intros ? ? <-; apply scan_up_follows|apply fuel_extended|done]|]. intros s1 ? <-. destruct (s1 <? e1); [|by apply follows_ret].
  by follow.
Qed.
Lemma sort_follows n : ∀ n' m s e, (n ≤ n')%nat → follows (extended g) (cavan_huffman_tree_sort key n m s e) (cavan_huffman_tree_sort key' n' (m ++ g) s e).
Proof using Hkey.
  induction n as [|n IH]; intros n' m s e Hn; [done|]. destruct n' as [|n']; [lia|]. simpl. follow.
  eapply follows_bind; [eapply (follows_loop same_part same_part); [apply partition_follows|apply fuel_extended|done]|]. intros [[m1 p] p'] ? ->. simpl. follow.
  eapply (follows_bind (extended g)); [destruct (1 <? p - s); [apply IH; lia|by apply follows_ret]|]. intros m3 ? ->. destruct (1 <? e - p'); [apply IH; lia|by apply follows_ret].
Qed.
End sort_follows.

(** ** The sort sorts *)

Section sorts.
Context (key_of : Z → cres Z) (key : Z → Z) (P : Z → Prop).
Hypothesis Hkey : ∀ p, P p → key_of p = Ok (key p).
Abbreviation sort := (cavan_huffman_tree_sort key_of).
Abbreviation partition := (tree_partition_round key_of).

Lemma all_get (m : list Z) i : Forall P m → 0 ≤ i < zlen m → P m⟦i⟧.
Proof using. intros Hm Hi. unfold get, zlen in *. eapply Forall_lookup_1; [exact Hm|]. apply list_lookup_lookup_total_lt. lia. Qed.
Lemma all_upd (m : list Z) i v : Forall P m → P v → Forall P m⟦i := v⟧.
Proof using. intros Hm Hv. by apply Forall_insert. Qed.
Lemma wp_key p (Q : Z → Prop) : P p → Q (key p) → wp (key_of p) Q.
Proof using Hkey. intros Hp HQ. by rewrite Hkey. Qed.

Record tree_part_inv (m0 : list Z) (s0 e0 middle : Z) (st : list Z * Z * Z) : Prop := {
  ti_all : Forall P st.1.1 ∧ P middle;
  ti_bounds : s0 ≤ st.1.2 ∧ st.1.2 ≤ st.2 ∧ st.2 ≤ e0;
  ti_re : rearranged m0 (st.1.1⟦st.1.2 := middle⟧) s0 e0;
  ti_low : ∀ i, s0 ≤ i < st.1.2 → key (st.1.1⟦i⟧) ≤ key middle;
  ti_high : ∀ i, st.2 < i ≤ e0 → key middle ≤ key (st.1.1⟦i⟧) }.
Definition sorted_by (m : list Z) (lo hi : Z) : Prop := ∀ i j, lo ≤ i → i ≤ j → j ≤ hi → key m⟦i⟧ ≤ key m⟦j⟧.

Lemma ti_zlen m0 s0 e0 middle st : tree_part_inv m0 s0 e0 middle st → zlen st.1.1 = zlen m0.
Proof. intros [_ _ Hr _ _]. apply re_zlen in Hr. by rewrite zlen_upd in Hr. Qed.
Lemma tree_scan_down_ok m middle s e : Forall P m → P middle → 0 ≤ s ≤ e → e < zlen m →
  wp (loop (array_fuel m) (tree_scan_down key_of m middle s) e) (λ e', s ≤ e' ≤ e ∧ (∀ i, e' < i ≤ e → key middle ≤ key m⟦i⟧) ∧ (s < e' → key m⟦e'⟧ ≤ key middle)).
Proof.
  intros HP Hm Hs He. apply (wp_loop (λ e', s ≤ e' ≤ e ∧ ∀ i, e' < i ≤ e → key middle ≤ key m⟦i⟧) _ (λ e', Z.to_nat (e' - s))); [|split; lia|apply array_fuel_lt; lia].
  intros e' [He' Hhi]. unfold tree_scan_down. wp_go. apply wp_key; [apply all_get; [done|lia]|]. wp_go. apply wp_key; [done|]. destruct (Z.ltb_spec (key middle) (key m⟦e'⟧)), (Z.ltb_spec s e'); simpl; try (repeat split; lia || done).
  repeat split; try lia. intros i Hi. destruct (decide (i = e')) as [->|]; [lia|apply Hhi; lia].
Qed.
Lemma tree_scan_up_ok m middle s e : Forall P m → P middle → 0 ≤ s ≤ e → e < zlen m →
  wp (loop (array_fuel m) (tree_scan_up key_of m middle e) s) (λ s', s ≤ s' ≤ e ∧ (∀ i, s ≤ i < s' → key m⟦i⟧ ≤ key middle) ∧ (s' < e → key middle ≤ key m⟦s'⟧)).
Proof.
  intros HP Hm Hs He. apply (wp_loop (λ s', s ≤ s' ≤ e ∧ ∀ i, s ≤ i < s' → key m⟦i⟧ ≤ key middle) _ (λ s', Z.to_nat (e - s'))); [|split; lia|apply array_fuel_lt; lia].
  intros s' [Hs' Hlo]. unfold tree_scan_up. wp_go. apply wp_key; [apply all_get; [done|lia]|]. wp_go. apply wp_key; [done|]. destruct (Z.ltb_spec (key m⟦s'⟧) (key middle)), (Z.ltb_spec s' e); simpl; try (repeat split; lia || done).
  repeat split; try lia. intros i Hi. destruct (decide (i = s')) as [->|]; [lia|apply Hlo; lia].
Qed.
Lemma tree_partition_round_ok m0 s0 e0 middle st : 0 ≤ s0 → e0 < zlen m0 → tree_part_inv m0 s0 e0 middle st →
  wp (partition middle st) (λ r, match r with
    | inl st' => tree_part_inv m0 s0 e0 middle st' ∧ (Z.to_nat (st'.2 - st'.1.2 + 1) < Z.to_nat (st.2 - st.1.2 + 1))%nat
    | inr st' => tree_part_inv m0 s0 e0 middle st' ∧ st'.1.2 = st'.2 end).
Proof.
  intros Hs0 He0 Hinv. pose proof (ti_zlen _ _ _ _ _ Hinv) as Hl. destruct st as [[m s] e]. destruct Hinv as [[HP HPm] Hb Hre Hlo Hhi]. simpl in *.
  apply wp_bind. eapply wp_mono; [apply tree_scan_down_ok; done || lia|]. intros e1 (He1 & Hhi1 & Hle1). zcase.
  2:{ wp_go. assert (s = e1) as -> by lia. split; [|done]. split; simpl; auto; [lia|]. intros i Hi. destruct (decide (i ≤ e)); [apply Hhi1|apply Hhi]; lia. }
  wp_go. assert (Forall P m⟦s := m⟦e1⟧⟧) as HP1 by (apply all_upd; [done|apply all_get; [done|lia]]).
  eapply wp_mono; [apply tree_scan_up_ok; [done|done|idx|idx]|]. intros s2 (Hs2 & Hlo2 & Hge2). set (m1 := m⟦s := m⟦e1⟧⟧) in *.
  assert (zlen m1 = zlen m0) as Hl1 by (unfold m1; idx).
  assert (rearranged m0 m1⟦e1 := middle⟧ s0 e0) as Hre1 by (apply rearranged_hole; auto; lia).
  assert (∀ i, s0 ≤ i < s2 → key m1⟦i⟧ ≤ key middle) as Hlo1.
  { intros i Hi. destruct (Z.lt_trichotomy i s) as [?|[->|?]]; [unfold m1; rewrite get_upd_ne by lia; apply Hlo; lia|unfold m1; rewrite get_upd_eq by lia; apply Hle1; lia|apply Hlo2; lia]. }
  assert (∀ i, e1 < i ≤ e0 → key middle ≤ key m1⟦i⟧) as Hhi2.
  { intros i Hi. unfold m1. rewrite get_upd_ne by lia. destruct (decide (i ≤ e)); [apply Hhi1|apply Hhi]; lia. }
  zcase.
  - wp_go. split; [|simpl; lia]. split; simpl; [split; [apply all_upd; [done|apply all_get; [done|lia]]|done]|lia|apply rearranged_hole; auto; lia|intros i Hi; rewrite get_upd_ne by lia; apply Hlo1; lia|].
    intros i Hi. destruct (decide (i = e1)) as [->|]; [rewrite get_upd_eq by lia; apply Hge2; lia|rewrite get_upd_ne by lia; apply Hhi2; lia].
  - wp_go. assert (s2 = e1) as -> by lia. split; [|done]. split; simpl; auto. lia.
Qed.
Lemma tree_partition_ok m s e : Forall P m → 0 ≤ s ≤ e → e < zlen m →
  wp (loop (array_fuel m) (partition m⟦s⟧) (m, s, e)) (λ st, tree_part_inv m s e m⟦s⟧ st ∧ st.1.2 = st.2).
Proof.
  intros HP Hs He. apply (wp_loop (tree_part_inv m s e m⟦s⟧) _ (λ st, Z.to_nat (st.2 - st.1.2 + 1))).
  - intros st Hst. by apply tree_partition_round_ok; [lia..|].
  - split; simpl; [split; [done|apply all_get; [done|lia]]|lia| |lia..]. rewrite upd_get by lia. apply rearranged_refl.
  - simpl. apply array_fuel_lt. lia.
Qed.

(** A call on one side of the pivot, made only for two elements or more. *)
Lemma tree_sub_sort n m s e (c : bool) :
  (∀ m s e, Forall P m → 0 ≤ s ≤ e → e < zlen m → (Z.to_nat (e - s) < n)%nat → wp (sort n m s e) (λ m', rearranged m m' s e ∧ sorted_by m' s e)) →
  Forall P m → 0 ≤ s → e < zlen m → (c = false → e ≤ s) → (c = true → s ≤ e ∧ (Z.to_nat (e - s) < n)%nat) →
  wp (if c then sort n m s e else mret m) (λ m', rearranged m m' s e ∧ sorted_by m' s e).
Proof.
  intros IH HP Hs He. destruct c; intros Hf Ht; [destruct (Ht eq_refl); apply IH; done || lia|]. split; [apply rearranged_refl|]. intros i j ???. specialize (Hf eq_refl). replace j with i by lia. done.
Qed.
Lemma tree_sort_ok n : ∀ m s e, Forall P m → 0 ≤ s ≤ e → e < zlen m → (Z.to_nat (e - s) < n)%nat → wp (sort n m s e) (λ m', rearranged m m' s e ∧ sorted_by m' s e).
Proof.
  induction n as [|n IH]; intros m s e HP Hs He Hn; [lia|]. simpl. wp_go. eapply wp_mono; [by apply tree_partition_ok|].
  intros [[m1 p] p'] [Hinv Hp]. pose proof (ti_zlen _ _ _ _ _ Hinv) as Hl. destruct Hinv as [[HP1 HPx] Hb Hre Hlo Hhi]. simpl in *. subst p'.
  set (x := m⟦s⟧) in *. wp_go. set (m2 := m1⟦p := x⟧) in *.
  assert (zlen m2 = zlen m) as Hl2 by (unfold m2; idx). assert (Forall P m2) as HP2 by (by apply all_upd). assert (m2⟦p⟧ = x) as Hx by (unfold m2; rewrite get_upd_eq; lia).
  eapply wp_mono; [apply (tree_sub_sort n m2 s (p - 1)); auto; lia|]. intros m3 [Hr3 Hs3]. pose proof (re_zlen _ _ _ _ Hr3) as Hl3. assert (Forall P m3) as HP3 by (by rewrite (re_perm _ _ _ _ Hr3)).
  eapply wp_mono; [apply (tree_sub_sort n m3 (p + 1) e); auto; lia|]. intros m4 [Hr4 Hs4]. split.
  - eapply rearranged_trans; [apply Hre|]. eapply rearranged_trans; eapply rearranged_mono; [apply Hr3| | |apply Hr4| |]; lia.
  - assert (∀ i, s ≤ i < p → key m4⟦i⟧ ≤ key x) as Hlow.
    { intros i Hi. rewrite (re_outside _ _ _ _ Hr4) by lia. apply (rearranged_forall (λ z, key z ≤ key x) m2 m3 s (p - 1)); [done|lia..| |lia]. intros k Hk. unfold m2. rewrite get_upd_ne by lia. apply Hlo. lia. }
    assert (∀ i, p < i ≤ e → key x ≤ key m4⟦i⟧) as Hhigh.
    { intros i Hi. apply (rearranged_forall (λ z, key x ≤ key z) m3 m4 (p + 1) e); [done|lia..| |lia]. intros k Hk. rewrite (re_outside _ _ _ _ Hr3) by lia. unfold m2. rewrite get_upd_ne by lia. apply Hhi. lia. }
    assert (m4⟦p⟧ = x) as Hx4 by (rewrite (re_outside _ _ _ _ Hr4), (re_outside _ _ _ _ Hr3); auto; lia).
    intros i j ???. destruct (Z.lt_trichotomy i p) as [?|[->|?]], (Z.lt_trichotomy j p) as [?|[->|?]]; try lia; rewrite ?Hx4.
    + rewrite !(re_outside _ _ _ _ Hr4) by lia. apply Hs3; lia.
    + apply Hlow; lia.
    + trans (key x); [apply Hlow|apply Hhigh]; lia.
    + apply Hhigh; lia.
    + apply Hs4; lia.
Qed.
End sorts.

Definition ascending (key : Z → Z) (l : list Z) : Prop := StronglySorted (λ a b, key a ≤ key b) l.
Lemma ascending_range key l : sorted_by key l 0 (zlen l - 1) → ascending key l.
Proof.
  induction l as [|x l IH]; intros Hs; [constructor|]. rewrite zlen_cons in Hs. pose proof (zlen_nonneg l). constructor.
  - apply IH. intros i j ???. specialize (Hs (i + 1) (j + 1)). rewrite !get_cons_pos in Hs by lia. replace (i + 1 - 1) with i in Hs by lia. replace (j + 1 - 1) with j in Hs by lia. apply Hs; lia.
  - apply Forall_forall. intros y (k & Hk)%list_elem_of_lookup. pose proof (lookup_lt_Some _ _ _ Hk). specialize (Hs 0 (Z.of_nat k + 1)). rewrite get_cons_0, get_cons_pos in Hs by lia.
    replace (Z.of_nat k + 1 - 1) with (Z.of_nat k) in Hs by lia. unfold get in Hs. rewrite Nat2Z.id, (list_lookup_total_correct _ _ _ Hk) in Hs. unfold zlen in *. apply Hs; lia.
Qed.
Lemma symbol_count_in count s : 0 ≤ s < 256 → symbol_count count s = Ok (count s).
Proof. intros Hs. unfold symbol_count. by rewrite (proj2 (inb_spec _ _)). Qed.
Lemma by_count_ok count : cavan_huffman_tree_sort (symbol_count count) 257 (seqZ 0 256) 0 255 = Ok (by_count count) ∧ by_count count ≡ₚ seqZ 0 256 ∧ ascending count (by_count count).
Proof.
  assert (Forall (λ s, 0 ≤ s < 256) (seqZ 0 256)) as Hall by (apply Forall_forall; intros s Hs%elem_of_seqZ; lia).
  destruct (proj1 (wp_ok _ _) (tree_sort_ok (symbol_count count) count _ (symbol_count_in count) 257 (seqZ 0 256) 0 255 Hall ltac:(lia) eq_refl ltac:(lia))) as (l & E & Hr & Hs).
  unfold by_count. rewrite E. split; [done|]. pose proof (re_zlen _ _ _ _ Hr) as Hl. split; [apply Hr|]. apply ascending_range. by rewrite Hl.
Qed.
(** The sort of [cavan_huffman_build_tree] depends on the counts only. *)
Lemma sort_by_count count key' fuel g : (∀ p, 0 ≤ p < 256 → key' p = Ok (count p)) → (257 ≤ fuel)%nat →
  cavan_huffman_tree_sort key' fuel (seqZ 0 256 ++ g) 0 255 = Ok (by_count count ++ g).
Proof.
  intros Hk Hf. destruct (by_count_ok count) as [E _]. assert (∀ p, follows eq (symbol_count count p) (key' p)) as Hkey.
  { intros p a. unfold symbol_count. destruct (inb (seqZ 0 256) p) eqn:Ep; [|done]. apply inb_spec in Ep. intros [= <-]. exists (count p). split; [by apply Hk|done]. }
  destruct (sort_follows (symbol_count count) key' g Hkey 257 fuel (seqZ 0 256) 0 255 Hf _ E) as (l & El & ->). exact El.
Qed.

(** ** The forest in the arrays *)

Lemma modify_in {A} `{Inhabited A} (m : list A) i f : 0 ≤ i < zlen m → modify m i f = Ok (upd m i (f (get m i))).
Proof. intros Hi. unfold modify. rewrite load_in by done. simpl. by rewrite store_in. Qed.

Lemma insert_after_snoc {A} (h : A → bool) x l p : insert_behind h x (l ++ [p]) = if h p then insert_behind h x l ++ [p] else l ++ [p; x].
Proof.
  induction l as [|y l IH]; simpl; [rewrite andb_true_r; by destruct (h p)|]. rewrite forallb_app. simpl. rewrite andb_true_r, IH. destruct (h p); [rewrite andb_true_r|by rewrite !andb_false_r].
  by destruct (h y && forallb h l).
Qed.
Lemma insert_after_in {A} (h : A → bool) x l : insert_behind h x l ≡ₚ x :: l.
Proof. induction l as [|y l IH]; [done|]. simpl. destruct (h y && _); [done|]. rewrite IH. constructor. Qed.
Lemma insert_after_rel {A B} (R : A → B → Prop) (h : A → bool) (h' : B → bool) x x' l l' :
  (∀ a b, R a b → h a = h' b) → R x x' → Forall2 R l l' → Forall2 R (insert_behind h x l) (insert_behind h' x' l').
Proof.
  intros Hh Hx Hl. assert (forallb h l = forallb h' l') as E by (induction Hl as [|a b l l' Hab _ IH]; [done|simpl; by rewrite (Hh a b Hab), IH]).
  revert E. induction Hl as [|a b l l' Hab Hl IH]; intros E; [by repeat constructor|]. simpl. rewrite (Hh a b Hab).
  assert (forallb h l = forallb h' l') as E' by (clear -Hh Hl; induction Hl as [|a b l l' Hab _ IH]; [done|simpl; by rewrite (Hh a b Hab), IH]). rewrite E'.
  destruct (h' b && _); [by repeat constructor|]. constructor; [done|by apply IH].
Qed.

Lemma represents_mono tn b b' p t : b ≤ b' → represents tn b p t → represents tn b' p t.
Proof. intros Hb. revert p. induction t as [s c|l IHl r IHr]; intros p (Hp & Hc & H); (split; [lia|]); split; [done|done|done|]. destruct H as [Hl Hr]. split; [by apply IHl|by apply IHr]. Qed.
(** A write to a later node leaves it alone. *)
Lemma represents_upd tn b p t i x : b ≤ i → represents tn b p t → represents (upd tn i x) b p t.
Proof.
  intros Hi. revert p. induction t as [s c|l IHl r IHr]; intros p H; simpl in *; destruct H as (Hp & Hc & H); rewrite get_upd_ne by lia; (split; [done|]); (split; [done|]); [done|].
  destruct H as [Hl Hr]. split; [by apply IHl|by apply IHr].
Qed.
Lemma represents_range tn b p t : represents tn b p t → 0 ≤ p < b.
Proof. destruct t; by intros [? _]. Qed.
Lemma represents_count tn b p t : represents tn b p t → ht_count (get tn p) = weight t.
Proof. destruct t; by intros (_ & ? & _). Qed.

(** Moving the heavier pointers up and writing the new one. *)
Lemma shift_up_ok tn count r b : 0 ≤ b < zlen tn → ht_count (get tn b) ≤ count → ∀ ps pre x post n, Forall (λ p, 0 ≤ p < zlen tn) ps → (length ps < n)%nat →
  wp (loop n (shift_up_round tn count) (zlen pre + zlen ps, pre ++ b :: ps ++ x :: post)) (λ '(i, pn),
    store pn (i + 1) r = Ok (pre ++ b :: insert_behind (λ p, count <? ht_count (get tn p)) r ps ++ post)).
Proof.
  intros Hb Hbc ps. induction ps as [|p ps IH] using rev_ind; intros pre x post n Hall Hn; (destruct n as [|n]; [lia|]); rewrite loop_S.
  - change (zlen []) with 0. rewrite Z.add_0_r. cbn [app]. unfold shift_up_round. pose proof (zlen_nonneg pre). pose proof (zlen_nonneg post). apply wp_bind, wp_bind, wp_load; [rewrite zlen_app, !zlen_cons; lia|].
    rewrite get_app_r, Z.sub_diag, get_cons_0 by lia. apply wp_bind, wp_load; [done|]. rewrite (proj2 (Z.ltb_ge _ _)) by lia. simpl.
    rewrite store_in by (rewrite zlen_app, !zlen_cons; lia). f_equal. unfold upd, zlen. replace (Z.to_nat (Z.of_nat (length pre) + 1)) with (length pre + 1)%nat by lia.
    rewrite insert_app_r. done.
  - apply Forall_app in Hall as [Hall Hp]. apply Forall_cons in Hp as [Hp _]. rewrite length_app in Hn. simpl in Hn. pose proof (zlen_nonneg pre). pose proof (zlen_nonneg post). pose proof (zlen_nonneg ps).
    rewrite zlen_app. change (zlen [p]) with 1. unfold shift_up_round at 1. apply wp_bind, wp_bind.
    assert (pre ++ b :: (ps ++ [p]) ++ x :: post = (pre ++ b :: ps) ++ p :: x :: post) as Epn by (by rewrite <-!app_assoc).
    assert (zlen (pre ++ b :: ps) = zlen pre + zlen ps + 1) as El by (rewrite zlen_app, zlen_cons; lia).
    rewrite Epn. apply wp_load; [rewrite zlen_app, El, !zlen_cons; lia|].
    rewrite get_app_r by lia. rewrite El. replace (zlen pre + (zlen ps + 1) - (zlen pre + zlen ps + 1)) with 0 by lia. rewrite get_cons_0. apply wp_bind, wp_load; [done|].
    rewrite insert_after_snoc. destruct (Z.ltb_spec count (ht_count (get tn p))) as [Hh|Hh].
    + apply wp_bind, wp_store; [rewrite zlen_app, El, !zlen_cons; lia|]. simpl. 
      assert (upd ((pre ++ b :: ps) ++ p :: x :: post) (zlen pre + (zlen ps + 1) + 1) p = pre ++ b :: ps ++ p :: p :: post) as ->.
      { unfold upd. replace (Z.to_nat (zlen pre + (zlen ps + 1) + 1)) with (length (pre ++ b :: ps) + 1)%nat by (unfold zlen in *; lia). rewrite insert_app_r. simpl. by rewrite <-app_assoc. }
      replace (zlen pre + (zlen ps + 1) - 1) with (zlen pre + zlen ps) by lia. eapply wp_mono; [apply (IH pre p (p :: post)); [done|lia]|]. intros [i pn] E. rewrite E. by rewrite <-app_assoc.
    + simpl. rewrite store_in by (rewrite zlen_app, El, !zlen_cons; lia). f_equal. unfold upd. replace (Z.to_nat (zlen pre + (zlen ps + 1) + 1)) with (length (pre ++ b :: ps) + 1)%nat by (unfold zlen in *; lia).
      rewrite insert_app_r. simpl. by rewrite <-!app_assoc.
Qed.

Definition total_weight (ts : list code_tree) : Z := foldr (λ t n, weight t + n) 0 ts.
Definition heavy_enough (t : code_tree) : Prop := 0 ≤ weight t.
Lemma total_perm ts ts' : ts ≡ₚ ts' → total_weight ts = total_weight ts'.
Proof. induction 1; simpl; lia. Qed.

(** The loop of the merges, over the forest [ts]. *)
Definition merging (target : option code_tree) (st : tree_t * list Z * Z * Z * Z) : Prop :=
  let '(tn, pn, index, root, root_node) := st in
  ∃ pre ps post ts k, pn = pre ++ ps ++ post ∧ zlen pre = index - 1 ∧ zlen pn = CAVAN_HUFFMAN_TREE_SIZE ∧ zlen tn = CAVAN_HUFFMAN_TREE_SIZE ∧
    root = index - 1 + zlen ps ∧ 256 ≤ root ∧ root + zlen ps ≤ CAVAN_HUFFMAN_TREE_SIZE ∧ Forall2 (represents tn root) ps ts ∧ ts ≠ [] ∧
    Forall heavy_enough ts ∧ total_weight ts < 2 ^ 64 ∧ (zlen ps = 1 → [root_node] = ps) ∧ (length ts ≤ k)%nat ∧ merge_trees k ts = target.

Lemma merge_round_ok target st : merging target st → wp (merge_round st) (λ r, match r with
  | inl st' => merging target st' ∧ (Z.to_nat (st'.1.2 - st'.1.1.2) < Z.to_nat (st.1.2 - st.1.1.2))%nat
  | inr (tn, root) => ∃ t, target = Some t ∧ zlen tn = CAVAN_HUFFMAN_TREE_SIZE ∧ represents tn CAVAN_HUFFMAN_TREE_SIZE root t end).
Proof.
  destruct st as [[[[tn pn] index] root] root_node]. intros (pre & ps & post & ts & k & Epn & Hpre & Hpn & Htn & Hroot & H256 & Hroom & Hps & Hne & Hpos & Hw & Hone & Hk & Ht).
  pose proof (Forall2_length _ _ _ Hps) as Hlen. unfold CAVAN_HUFFMAN_TREE_SIZE, CAVAN_HUFFMAN_SYMBOLS in *. unfold merge_round. destruct (Z.ltb_spec index root) as [Hlt|Hge].
  - destruct Hps as [|pa a ps ts Ha Hps]; [done|]. destruct Hps as [|pb b ps ts Hb Hps]; [change (zlen [pa]) with 1 in Hroot; lia|].
    rewrite !zlen_cons in *. pose proof (zlen_nonneg pre). pose proof (zlen_nonneg ps). pose proof (zlen_nonneg post).
    assert (Hpn' : zlen pn = zlen pre + (zlen ps + 2) + zlen post) by (rewrite Epn, !zlen_app, !zlen_cons; lia).
    apply wp_bind, wp_load; [lia|]. apply wp_bind, wp_load; [lia|].
    assert (get pn (index - 1) = pa) as -> by (rewrite Epn, get_app_r by lia; rewrite Hpre, Z.sub_diag; by rewrite get_app_l by (rewrite !zlen_cons; lia)).
    assert (get pn index = pb) as -> by (rewrite Epn, get_app_r by lia; rewrite Hpre, get_app_l by (rewrite !zlen_cons; lia); rewrite get_cons_pos by lia; replace (index - (index - 1) - 1) with 0 by lia; done).
    pose proof (represents_range _ _ _ _ Ha). pose proof (represents_range _ _ _ _ Hb). apply wp_bind, wp_load; [lia|]. apply wp_bind, wp_load; [lia|]. cbv zeta.
    rewrite (represents_count _ _ _ _ Ha), (represents_count _ _ _ _ Hb). apply Forall_cons in Hpos as [Hpa Hpos]. apply Forall_cons in Hpos as [Hpb Hpos]. unfold heavy_enough in Hpa, Hpb.
    assert (0 ≤ total_weight ts) as Htot by (clear -Hpos; induction Hpos as [|t ts Ht _ IH]; simpl; [lia|unfold heavy_enough in Ht; lia]). simpl in Hw. rewrite wrap_small by lia.
    rewrite modify_in by lia. apply wp_bind. apply wp_ret. set (node := mk_huffman_tree_node _ _ _ _). set (tn' := upd tn root node).
    assert (zlen tn' = 512) as Htn' by (unfold tn'; by rewrite zlen_upd).
    assert (∀ p t, represents tn root p t → represents tn' (root + 1) p t) as Hkeep by (intros p t Hp; apply (represents_mono _ root); [lia|apply represents_upd; [lia|done]]).
    assert (represents tn' (root + 1) root (Fork a b)) as Hnew.
    { assert (get tn' root = node) as Eg by (unfold tn'; by rewrite get_upd_eq by lia). simpl. rewrite Eg. simpl. split; [lia|]. split; [done|]. split; by apply Hkeep. }
    destruct post as [|x post]; [change (zlen []) with 0 in *; lia|]. rewrite zlen_cons in *.
    assert (Forall2 (represents tn' (root + 1)) ps ts) as Hps' by (eapply Forall2_impl; [exact Hps|auto]).
    apply wp_bind. replace (root - 1) with (zlen (pre ++ [pa]) + zlen ps) by (rewrite zlen_app; change (zlen [pa]) with 1; lia).
    replace pn with ((pre ++ [pa]) ++ pb :: ps ++ x :: post) by (rewrite Epn, <-app_assoc; done).
    eapply wp_mono; [apply (shift_up_ok tn' _ root pb); [lia| | |]|].
    + rewrite (represents_count _ _ _ _ (Hkeep _ _ Hb)). lia.
    + apply Forall_forall. intros p Hp. apply list_elem_of_lookup in Hp as [j Hj]. destruct (Forall2_lookup_l _ _ _ _ _ Hps' Hj) as (t & _ & Ht'). apply represents_range in Ht'. lia.
    + unfold array_fuel. rewrite !length_app. simpl. rewrite length_app. lia.
    + intros [i pn'] E. rewrite E. apply wp_bind, wp_ret, wp_ret. split; [|simpl; lia].
      set (h := λ p, _) in *. exists ((pre ++ [pa]) ++ [pb]), (insert_behind h root ps), post, (insert_tree (Fork a b) ts), (k - 1)%nat.
      assert (zlen (insert_behind h root ps) = zlen ps + 1) as Hil by (unfold zlen; rewrite (insert_after_in h root ps); simpl; lia).
      split; [by rewrite <-!app_assoc|]. split; [rewrite !zlen_app; change (zlen [pa]) with 1; change (zlen [pb]) with 1; lia|].
      unfold CAVAN_HUFFMAN_TREE_SIZE, CAVAN_HUFFMAN_SYMBOLS. split; [rewrite !zlen_app, !zlen_cons, !zlen_app, Hil; change (zlen []) with 0; lia|]. split; [done|]. split; [lia|]. split; [lia|]. split; [lia|].
      split; [|split; [|split; [|split; [|split; [|split]]]]].
      * apply insert_after_rel; [|done|done]. intros p t Hp. unfold h. by rewrite (represents_count _ _ _ _ Hp).
      * intros E0. pose proof (insert_after_in (λ y, weight (Fork a b) <? weight y) (Fork a b) ts) as Hp. unfold insert_tree in E0. rewrite E0 in Hp. by apply Permutation_nil_cons in Hp.
      * unfold insert_tree. rewrite insert_after_in. constructor; [unfold heavy_enough; simpl; lia|done].
      * rewrite (total_perm _ (Fork a b :: ts)) by apply insert_after_in. simpl. lia.
      * intros Eone. rewrite Hil in Eone. destruct ps; [done|rewrite zlen_cons in Eone; pose proof (zlen_nonneg ps); lia].
      * unfold insert_tree. rewrite insert_after_in. simpl in *. lia.
      * destruct k as [|k]; [simpl in Hk; lia|]. simpl in Ht. replace (S k - 1)%nat with k by lia. done.
  - destruct Hps as [|pa a ps ts Ha Hps]; [done|]. rewrite zlen_cons in *. pose proof (zlen_nonneg ps). destruct Hps as [|pb b ps ts Hb Hps]; [|rewrite zlen_cons in *; pose proof (zlen_nonneg ps); lia].
    assert (root_node = pa) as -> by (specialize (Hone eq_refl); congruence). apply wp_ret. exists a. destruct k as [|k]; [simpl in Hk; lia|]. split; [by rewrite <-Ht|]. split; [done|]. eapply represents_mono; [|exact Ha]. change (zlen []) with 0 in *. lia.
Qed.

(** The loops before the merges. *)
Lemma init_tree_ok tn pn : zlen tn = CAVAN_HUFFMAN_TREE_SIZE → zlen pn = CAVAN_HUFFMAN_TREE_SIZE →
  wp (loop (S (Z.to_nat CAVAN_HUFFMAN_SYMBOLS)) init_tree_round (0, tn, pn)) (λ '(tn', pn'),
    zlen tn' = CAVAN_HUFFMAN_TREE_SIZE ∧ (∀ i, 0 ≤ i < 256 → ht_node (get tn' i) = i) ∧ ∃ g, length g = 256%nat ∧ pn' = seqZ 0 256 ++ g).
Proof.
  unfold CAVAN_HUFFMAN_TREE_SIZE, CAVAN_HUFFMAN_SYMBOLS. intros Htn Hpn.
  apply (wp_loop (λ '(i, tn, pn), 0 ≤ i ≤ 256 ∧ zlen tn = 512 ∧ zlen pn = 512 ∧ ∀ j, 0 ≤ j < i → ht_node (get tn j) = j ∧ get pn j = j) _ (λ '(i, _, _), Z.to_nat (256 - i))); [|by split_and!; try done; lia|simpl; lia].
  clear tn pn Htn Hpn. intros [[i tn] pn] (Hi & Htn & Hpn & Hj). unfold init_tree_round, CAVAN_HUFFMAN_SYMBOLS. destruct (Z.ltb_spec i 256).
  - rewrite modify_in by lia. apply wp_bind, wp_ret, wp_bind. rewrite store_in by lia. apply wp_ret, wp_ret. split; [|lia]. split; [lia|]. rewrite !zlen_upd. split; [done|]. split; [done|]. intros j Hj'.
    rewrite !get_upd by lia. case_decide as E; [by subst|]. apply Hj. lia.
  - apply wp_ret. assert (i = 256) as -> by lia. split; [done|]. split; [intros j Hj'; by apply Hj|]. exists (drop 256 pn). unfold zlen in Hpn. split; [rewrite length_drop; lia|].
    rewrite <-(take_drop 256 pn) at 1. f_equal. apply list_eq. intros j. destruct (decide (j < 256)%nat) as [Hj'|Hj'].
    + rewrite lookup_take_lt, lookup_seqZ_lt by lia. destruct (Hj (Z.of_nat j) ltac:(lia)) as [_ Hg]. unfold get in Hg. rewrite Nat2Z.id in Hg. rewrite list_lookup_lookup_total_lt by lia. rewrite Hg. f_equal; lia.
    + rewrite !lookup_ge_None_2; [done|rewrite length_seqZ; lia|rewrite length_take; lia].
Qed.

Lemma node_count_in nodes count tn p : counts nodes count → 256 ≤ zlen tn → (∀ i, 0 ≤ i < 256 → ht_node (get tn i) = i) → 0 ≤ p < 256 → node_count nodes tn p = Ok (count p).
Proof.
  intros [Hl _ Hc] Htn Hn Hp. unfold CAVAN_HUFFMAN_SYMBOLS in *. unfold node_count. rewrite load_in by lia. simpl. rewrite Hn by done. rewrite load_in by lia. simpl. by rewrite Hc.
Qed.

Lemma filter_all {A} (P : A → Prop) `{∀ x, Decision (P x)} (l : list A) : Forall P l → filter P l = l.
Proof. induction 1 as [|x l Hx _ IH]; [done|]. by rewrite filter_cons_True, IH. Qed.
(** The symbols that occur are the last ones of the order. *)
Lemma nonzero_suffix (count : Z → Z) l : Forall (λ s, 0 ≤ count s) l → ascending count l →
  ∃ l0, l = l0 ++ filter (λ s, count s ≠ 0) l ∧ Forall (λ s, count s = 0) l0.
Proof.
  intros Hl Hs. induction Hs as [|x l Hs IH Hx]; [by exists []|]. apply Forall_cons in Hl as [Hx0 Hl]. rewrite filter_cons. case_decide as E.
  - exists []. split; [|done]. simpl. f_equal. symmetry. apply filter_all. eapply Forall_impl; [exact Hx|]. intros y Hy. cbv beta in *. lia.
  - destruct (IH Hl) as (l0 & El & H0). exists (x :: l0). simpl. split; [by f_equal|]. constructor; [cbv beta in *; lia|done].
Qed.
Lemma skip_ok nodes count tn l0 l1 g : counts nodes count → 256 ≤ zlen tn → (∀ i, 0 ≤ i < 256 → ht_node (get tn i) = i) → zlen l0 + zlen l1 = 256 →
  Forall (λ s, 0 ≤ s < 256) (l0 ++ l1) → Forall (λ s, count s = 0) l0 → Forall (λ s, count s ≠ 0) l1 →
  wp (loop (S (Z.to_nat CAVAN_HUFFMAN_SYMBOLS)) (skip_round nodes tn (l0 ++ l1 ++ g)) 0) (λ i, i = zlen l0).
Proof.
  intros Hc Htn Hn Hl Hr H0 H1. pose proof (zlen_nonneg l0). pose proof (zlen_nonneg l1). pose proof (zlen_nonneg g).
  apply (wp_loop (λ i, 0 ≤ i ≤ zlen l0) _ (λ i, Z.to_nat (256 - i))); [|lia|unfold CAVAN_HUFFMAN_SYMBOLS; lia]. intros i Hi. unfold skip_round, CAVAN_HUFFMAN_SYMBOLS.
  destruct (Z.ltb_spec i 256) as [Hlt|Hge]; [|apply wp_ret; lia]. apply wp_bind, wp_load; [rewrite !zlen_app; lia|].
  assert (0 ≤ get (l0 ++ l1 ++ g) i < 256) as Hp by (rewrite app_assoc, get_app_l by (rewrite zlen_app; lia); apply (all_get (λ s, 0 ≤ s < 256)); [done|rewrite zlen_app; lia]).
  rewrite (node_count_in nodes count) by done. apply wp_bind, wp_ret, wp_ret. destruct (Z.eqb_spec (count (get (l0 ++ l1 ++ g) i)) 0) as [E|E].
  - split; [|lia]. split; [lia|]. destruct (decide (i = zlen l0)) as [->|]; [|lia]. exfalso. rewrite get_app_r, Z.sub_diag in E by lia.
    rewrite get_app_l in E by lia. revert E. apply (all_get (λ s, count s ≠ 0) l1 0); [done|lia].
  - destruct (decide (i = zlen l0)) as [->|]; [done|]. exfalso. apply E. rewrite get_app_l by lia. apply (all_get (λ s, count s = 0)); [done|lia].
Qed.
Lemma leaves_ok nodes count tn l0 l1 g : counts nodes count → zlen tn = CAVAN_HUFFMAN_TREE_SIZE → (∀ i, 0 ≤ i < 256 → ht_node (get tn i) = i) → zlen l0 + zlen l1 = 256 →
  Forall (λ s, 0 ≤ s < 256) l1 →
  wp (loop (S (Z.to_nat CAVAN_HUFFMAN_SYMBOLS)) (leaf_round nodes (l0 ++ l1 ++ g)) (zlen l0, tn)) (λ tn',
    zlen tn' = CAVAN_HUFFMAN_TREE_SIZE ∧ Forall2 (represents tn' 256) l1 ((λ s, Leaf s (count s)) <$> l1)).
Proof.
  unfold CAVAN_HUFFMAN_TREE_SIZE, CAVAN_HUFFMAN_SYMBOLS. intros Hc Htn Hn Hl Hr. pose proof (zlen_nonneg l0). pose proof (zlen_nonneg l1). pose proof (zlen_nonneg g).
  apply (wp_loop (λ '(i, tn), zlen l0 ≤ i ≤ 256 ∧ zlen tn = 512 ∧ (∀ i, 0 ≤ i < 256 → ht_node (get tn i) = i) ∧ ∀ j, 0 ≤ j < i - zlen l0 → represents tn 256 (get l1 j) (Leaf (get l1 j) (count (get l1 j)))) _ (λ '(i, _), Z.to_nat (256 - i)));
    [|split; [lia|]; split; [done|]; split; [done|]; intros; lia|lia].
  clear tn Htn Hn. intros [i tn] (Hi & Htn & Hn & Hj). unfold leaf_round, CAVAN_HUFFMAN_SYMBOLS. destruct (Z.ltb_spec i 256) as [Hlt|Hge].
  - apply wp_bind, wp_load; [rewrite !zlen_app; lia|]. rewrite get_app_r, get_app_l by lia. set (p := get l1 (i - zlen l0)).
    assert (0 ≤ p < 256) as Hp by (apply (all_get (λ s, 0 ≤ s < 256)); [done|lia]). rewrite (node_count_in nodes count) by (done || lia). apply wp_bind, wp_ret. rewrite modify_in by lia. apply wp_bind, wp_ret, wp_ret.
    split; [|lia]. split; [lia|]. rewrite zlen_upd. split; [done|]. split.
    + intros j Hj'. rewrite get_upd by lia. case_decide as E; [|by apply Hn]. simpl. subst j. by apply Hn.
    + intros j Hj'. assert (0 ≤ get l1 j < 256) as Hq by (apply (all_get (λ s, 0 ≤ s < 256)); [done|lia]). simpl. rewrite !get_upd by lia. case_decide as E.
      * simpl. rewrite <-E. split_and!; try done; try lia. by apply Hn.
      * apply Hj. assert (j ≠ i - zlen l0) by (intros ->; done). lia.
  - apply wp_ret. assert (i = 256) as -> by lia. split; [done|]. apply Forall2_fmap_r, Forall_Forall2_diag, Forall_forall. intros p (j & Hp)%list_elem_of_lookup. pose proof (lookup_lt_Some _ _ _ Hp) as Hlt.
    specialize (Hj (Z.of_nat j) ltac:(unfold zlen in *; lia)). unfold get in Hj at 1 2 3. rewrite Nat2Z.id, (list_lookup_total_correct _ _ _ Hp) in Hj. exact Hj.
Qed.

(** ** What the tree holds *)

Definition total_count (count : Z → Z) : Z := foldr (λ s n, count s + n) 0 (seqZ 0 256).
Definition occurring (count : Z → Z) : list Z := filter (λ s, count s ≠ 0) (seqZ 0 256).
Lemma leaves_perm count : leaves count ≡ₚ (λ s, Leaf s (count s)) <$> occurring count.
Proof. unfold leaves, occurring. destruct (by_count_ok count) as (_ & Hp & _). by rewrite Hp. Qed.
Lemma leaves_weight count : total_weight (leaves count) = total_count count.
Proof.
  rewrite (total_perm _ _ (leaves_perm count)). unfold occurring, total_count. induction (seqZ 0 256) as [|s l IH]; [done|]. rewrite filter_cons. case_decide as E; [rewrite fmap_cons|]; cbn [total_weight foldr weight]; cbv beta in *; fold (total_weight ((λ s, Leaf s (count s)) <$> filter (λ s, count s ≠ 0) l)); lia.
Qed.
Lemma leaves_heavy count : (∀ s, 0 ≤ s < 256 → 0 ≤ count s) → Forall heavy_enough (leaves count).
Proof. intros H. rewrite leaves_perm. apply Forall_fmap, Forall_forall. intros s [_ Hs]%list_elem_of_filter. apply H. apply elem_of_seqZ in Hs. lia. Qed.

(** The order is that of the symbols that do not occur and of the leaves. *)
Lemma by_count_split count : (∀ s, 0 ≤ s < 256 → 0 ≤ count s) → occurring count ≠ [] → ∃ l0 l1, by_count count = l0 ++ l1 ∧ leaves count = (λ s, Leaf s (count s)) <$> l1 ∧
  Forall (λ s, 0 ≤ s < 256) (l0 ++ l1) ∧ Forall (λ s, count s = 0) l0 ∧ Forall (λ s, count s ≠ 0) l1 ∧ zlen l0 + zlen l1 = 256 ∧ 0 < zlen l1.
Proof.
  intros H0 Hne. unfold leaves. destruct (by_count_ok count) as (_ & Hp & Hs). revert Hp Hs. generalize (by_count count). intros l Hp Hs.
  assert (Forall (λ s, 0 ≤ s < 256) l) as Hl by (rewrite Hp; apply Forall_forall; intros s Hs'%elem_of_seqZ; lia).
  destruct (nonzero_suffix count l) as (l0 & El & Hl0); [eapply Forall_impl; [exact Hl|done]|done|]. exists l0, (filter (λ s, count s ≠ 0) l).
  assert (filter (λ s, count s ≠ 0) l ≡ₚ occurring count) as Hf by (unfold occurring; by rewrite Hp). split; [done|]. split; [done|]. split; [by rewrite <-El|]. split; [done|].
  split; [apply Forall_forall; by intros s [? _]%list_elem_of_filter|]. split; [rewrite <-zlen_app, <-El; unfold zlen; by rewrite Hp, length_seqZ|].
  unfold zlen. rewrite Hf. destruct (occurring count); [done|simpl; lia].
Qed.
#[local] Opaque by_count.

(** ** The tree that is built *)
Lemma build_tree_ok nodes count tn pn : counts nodes count → (∀ s, 0 ≤ s < 256 → 0 ≤ count s) → total_count count < 2 ^ 64 → occurring count ≠ [] →
  zlen tn = CAVAN_HUFFMAN_TREE_SIZE → zlen pn = CAVAN_HUFFMAN_TREE_SIZE →
  wp (cavan_huffman_build_tree pn tn nodes) (λ '(tn', root), ∃ t, huffman_tree count = Some t ∧ zlen tn' = CAVAN_HUFFMAN_TREE_SIZE ∧ represents tn' CAVAN_HUFFMAN_TREE_SIZE root t).
Proof.
  intros Hc H0 Hw Hne Htn Hpn. apply wp_bind. eapply wp_mono; [by apply init_tree_ok|]. intros [tn1 pn1] (Htn1 & Hn1 & g & Hg & ->).
  assert (∀ p, 0 ≤ p < 256 → node_count nodes tn1 p = Ok (count p)) as Hk by (intros p Hp; apply node_count_in; [done|rewrite Htn1; done|done|done]).
  apply wp_bind. change (CAVAN_HUFFMAN_SYMBOLS - 1) with 255. rewrite (sort_by_count count) by (done || (unfold array_fuel; rewrite length_app, length_seqZ; lia)). apply wp_ret.
  destruct (by_count_split count H0 Hne) as (l0 & l1 & -> & El1 & Hl & Hl0 & Hl1 & Hlen & Hpos). rewrite <-app_assoc. apply wp_bind.
  eapply wp_mono; [apply (skip_ok nodes count); try done; by rewrite Htn1|]. intros i ->. apply Forall_app in Hl as [_ Hl]. apply wp_bind. eapply wp_mono; [by apply (leaves_ok nodes count)|]. intros tn2 [Htn2 Hps].
  pose proof (zlen_nonneg l0). pose proof (zlen_nonneg g).
  apply wp_bind, wp_load; [rewrite !zlen_app; lia|]. rewrite get_app_r, Z.sub_diag by lia. rewrite get_app_l by lia.
  assert (zlen g = 256) as Hg' by (unfold zlen; lia).
  apply (wp_loop (merging (huffman_tree count)) _ (λ st, Z.to_nat (st.1.2 - st.1.1.2))).
  - intros st Hst. eapply wp_mono; [by apply merge_round_ok|]. by intros [st'|[tn' root]].
  - exists l0, l1, g, ((λ s, Leaf s (count s)) <$> l1), 257%nat. unfold CAVAN_HUFFMAN_TREE_SIZE, CAVAN_HUFFMAN_SYMBOLS in *. rewrite !zlen_app.
    pose proof (leaves_weight count). pose proof (leaves_heavy count H0). rewrite El1 in *.
    split; [done|]. split; [lia|]. split; [lia|]. split; [done|]. split; [lia|]. split; [lia|]. split; [lia|]. split; [done|]. split; [|split; [done|split; [lia|split; [|split]]]].
    + intros E%(f_equal length). rewrite length_fmap in E. unfold zlen in Hpos. simpl in E. lia.
    + intros E. destruct l1 as [|x [|y l1]]; [done|done|]. rewrite !zlen_cons in E. pose proof (zlen_nonneg l1). lia.
    + rewrite length_fmap. unfold zlen in *. lia.
    + unfold huffman_tree. by rewrite El1.
  - simpl. unfold CAVAN_HUFFMAN_SYMBOLS. lia.
Qed.

(** ** What the merges keep *)

Lemma merge_trees_keep (R : list code_tree → Prop) : (∀ a b ts, R (a :: b :: ts) → R (insert_tree (Fork a b) ts)) → ∀ k ts t, R ts → merge_trees k ts = Some t → R [t].
Proof.
  intros HR k. induction k as [|k IH]; intros ts t Hts E; [done|]. destruct ts as [|a [|b ts]]; simpl in E; [done|by injection E as ->|]. by apply (IH _ t (HR _ _ _ Hts)).
Qed.
Lemma huffman_symbols count t : huffman_tree count = Some t → symbols t ≡ₚ occurring count.
Proof.
  intros E. apply (merge_trees_keep (λ ts, mjoin (symbols <$> ts) ≡ₚ occurring count)) in E; [simpl in E; by rewrite app_nil_r in E| |].
  - intros a b ts Hts. unfold insert_tree. rewrite insert_after_in. simpl in *. by rewrite <-app_assoc.
  - rewrite leaves_perm, <-list_fmap_compose. induction (occurring count) as [|s l IH]; [done|]. simpl. by constructor.
Qed.
Lemma huffman_weight count t : huffman_tree count = Some t → weight t = total_count count.
Proof.
  intros E. apply (merge_trees_keep (λ ts, total_weight ts = total_count count)) in E; [simpl in E; lia| |apply leaves_weight].
  intros a b ts <-. rewrite (total_perm _ (Fork a b :: ts)) by apply insert_after_in. simpl. lia.
Qed.
Lemma huffman_nodup count t : huffman_tree count = Some t → NoDup (symbols t) ∧ Forall (λ s, 0 ≤ s < 256) (symbols t).
Proof.
  intros E. rewrite (huffman_symbols count t E). unfold occurring. split; [apply NoDup_filter, NoDup_seqZ|]. apply Forall_forall. intros s [_ Hs%elem_of_seqZ]%list_elem_of_filter. lia.
Qed.

(** *** The depth of the tree *)

Definition heavy_child (t : code_tree) : Z := match t with Leaf _ _ => 0 | Fork l r => weight l `max` weight r end.
(** No subtree is lighter than a child of its sibling. *)
Fixpoint balanced (t : code_tree) : Prop :=
  0 < weight t ∧ match t with Leaf _ _ => True | Fork l r => balanced l ∧ balanced r ∧ heavy_child l ≤ weight r ∧ heavy_child r ≤ weight l end.
Lemma balanced_pos t : balanced t → 0 < weight t.
Proof. destruct t; by intros [? _]. Qed.
Fixpoint fibonacci (n : nat) : Z := match n with O => 1 | S m => fibonacci m + match m with O => 1 | S k => fibonacci k end end.
Lemma fibonacci_pos n : 0 < fibonacci n ∧ fibonacci n ≤ fibonacci (S n).
Proof. induction n as [|n IH]; [simpl; lia|]. change (fibonacci (S (S n))) with (fibonacci (S n) + fibonacci n). lia. Qed.
Lemma fibonacci_le m n : (m ≤ n)%nat → fibonacci m ≤ fibonacci n.
Proof. induction 1 as [|n _ IH]; [done|]. pose proof (fibonacci_pos n). lia. Qed.
Lemma fibonacci_iter n : Nat.iter n (λ '(a, b), (b, a + b)) (1, 2) = (fibonacci n, fibonacci (S n)).
Proof. induction n as [|n IH]; [done|]. rewrite Nat.iter_succ, IH. change (fibonacci (S (S n))) with (fibonacci (S n) + fibonacci n). f_equal. lia. Qed.
Lemma fibonacci_fast n : fibonacci n = (Nat.iter n (λ '(a, b), (b, a + b)) (1, 2)).1.
Proof. by rewrite fibonacci_iter. Qed.
Lemma fibonacci_65 : 2 ^ 45 < fibonacci 65.
Proof. rewrite fibonacci_fast. vm_compute. reflexivity. Qed.
(** The deeper child and its sibling. *)
Lemma balanced_child l r d : fibonacci d ≤ weight l → 0 < weight r → heavy_child l ≤ weight r → match d with O => True | S k => fibonacci k ≤ heavy_child l end → fibonacci (S d) ≤ weight l + weight r.
Proof. intros Hl Hp Hr Hd. destruct d as [|d]; [simpl in *; lia|]. change (fibonacci (S (S d))) with (fibonacci (S d) + fibonacci d). lia. Qed.
Lemma balanced_weight t : balanced t → fibonacci (code_depth t) ≤ weight t ∧ match code_depth t with O => True | S k => fibonacci k ≤ heavy_child t end.
Proof.
  induction t as [s c|l IHl r IHr]; cbn [balanced code_depth weight heavy_child]; [intros [? _]; simpl; split; [lia|done]|]. intros (_ & Hl & Hr & Hlr & Hrl). destruct (IHl Hl) as [Wl Cl], (IHr Hr) as [Wr Cr].
  pose proof (balanced_pos l Hl) as Pl. pose proof (balanced_pos r Hr) as Pr.
  destruct (Nat.max_spec (code_depth l) (code_depth r)) as [[? ->]|[? ->]].
  - pose proof (balanced_child r l (code_depth r) Wr Pl Hrl Cr). split; [lia|]. lia.
  - pose proof (balanced_child l r (code_depth l) Wl Pr Hlr Cl). split; [lia|]. lia.
Qed.

Definition light_first (ts : list code_tree) : Prop := StronglySorted (λ a b, weight a ≤ weight b) ts.
Lemma insert_tree_sorted t ts : light_first ts → light_first (insert_tree t ts).
Proof.
  unfold insert_tree. intros Hs. induction Hs as [|x ts Hs IH Hx]; [repeat constructor|]. cbn [insert_behind]. destruct (forallb _ _) eqn:E.
  - rewrite forallb_forall in E. constructor; [by constructor|]. apply Forall_forall. intros y Hy%list_elem_of_In. apply E in Hy. apply Z.ltb_lt in Hy. lia.
  - assert (weight x ≤ weight t) as Hxt.
    { destruct (Z.le_gt_cases (weight x) (weight t)); [done|]. exfalso. apply not_true_iff_false in E. apply E, forallb_forall. intros y Hy%list_elem_of_In. apply Z.ltb_lt.
      apply elem_of_cons in Hy as [->|Hy]; [lia|]. eapply Forall_forall in Hx; [|exact Hy]. simpl in Hx. lia. }
    constructor; [exact IH|]. rewrite insert_after_in. by constructor.
Qed.
Definition huffman_forest (ts : list code_tree) : Prop :=
  light_first ts ∧ Forall balanced ts ∧ ∀ t u, t ∈ ts → u ∈ ts → heavy_child t ≤ weight u.
Lemma merge_forest a b ts : huffman_forest (a :: b :: ts) → huffman_forest (insert_tree (Fork a b) ts).
Proof.
  intros (Hs & Hb & Hh). apply StronglySorted_inv in Hs as [Hs Ha]. apply StronglySorted_inv in Hs as [Hs Hb']. apply Forall_cons in Ha as [Hab Ha]. apply Forall_cons in Hb as [Ba Hb]. apply Forall_cons in Hb as [Bb Hb].
  pose proof (balanced_pos a Ba). pose proof (balanced_pos b Bb). split; [by apply insert_tree_sorted|]. split.
  - unfold insert_tree. rewrite insert_after_in. constructor; [|done]. simpl. split; [lia|]. split; [done|]. split; [done|]. split; apply Hh; set_solver.
  - intros t u Ht Hu. unfold insert_tree in *. rewrite insert_after_in in Ht, Hu. rewrite Forall_forall in Ha, Hb'. apply elem_of_cons in Ht as [->|Ht], Hu as [->|Hu].
    + simpl. lia.
    + simpl. specialize (Ha u Hu). specialize (Hb' u Hu). simpl in *. lia.
    + simpl. specialize (Hh t a ltac:(set_solver) ltac:(set_solver)). lia.
    + apply Hh; set_solver.
Qed.
Lemma leaves_sorted (count : Z → Z) : light_first (leaves count).
Proof.
  unfold leaves. destruct (by_count_ok count) as (_ & _ & Hs). revert Hs. generalize (by_count count). intros l Hs. induction Hs as [|x l Hs IH Hx]; [constructor|].
  rewrite filter_cons. case_decide; [|done]. constructor; [done|]. apply Forall_fmap, Forall_forall. intros y [_ Hy]%list_elem_of_filter. by eapply Forall_forall in Hx.
Qed.
(** Codes fit in 64 bits as long as the file is shorter than 2^45 bytes. *)
Lemma huffman_depth count t : (∀ s, 0 ≤ s < 256 → 0 ≤ count s) → total_count count < 2 ^ 45 → huffman_tree count = Some t → (code_depth t ≤ 64)%nat.
Proof.
  intros H0 Ht E. rewrite <-(huffman_weight _ _ E) in Ht. apply (merge_trees_keep huffman_forest) in E; [|apply merge_forest|].
  - destruct E as (_ & Hb & _). apply Forall_cons in Hb as [Hb _]. destruct (balanced_weight t Hb) as [Hw _]. destruct (decide (code_depth t ≤ 64)%nat); [done|]. exfalso.
    pose proof (fibonacci_le 65 (code_depth t) ltac:(lia)). pose proof fibonacci_65. lia.
  - split; [apply leaves_sorted|]. rewrite leaves_perm. assert (∀ t, t ∈ (λ s, Leaf s (count s)) <$> occurring count → 0 < weight t ∧ heavy_child t = 0 ∧ balanced t) as Hl.
    { intros u (s & -> & [Hs Hin%elem_of_seqZ]%list_elem_of_filter)%list_elem_of_fmap. specialize (H0 s ltac:(lia)). simpl. split_and!; [lia|done|lia|done]. }
    split; [apply Forall_forall; intros u Hu; by apply Hl|]. intros u v. rewrite leaves_perm. intros Hu Hv. destruct (Hl u Hu) as (_ & -> & _), (Hl v Hv) as (? & _). lia.
Qed.

(** ** The codes that are set *)

Lemma bits_value_range bs : 0 ≤ bits_value bs < 2 ^ Z.of_nat (length bs).
Proof. induction bs as [|b bs IH]; [done|]. cbn [bits_value length]. rewrite Nat2Z.inj_succ, Z.pow_succ_r by lia. destruct b; simpl; lia. Qed.
Lemma bits_value_app a b : bits_value (a ++ b) = bits_value a + 2 ^ Z.of_nat (length a) * bits_value b.
Proof. induction a as [|x a IH]; [simpl; lia|]. cbn [app bits_value length]. rewrite IH, Nat2Z.inj_succ, Z.pow_succ_r by lia. lia. Qed.
Lemma bits_value_testbit bs i : Z.testbit (bits_value bs) (Z.of_nat i) = default false (bs !! i).
Proof.
  revert i. induction bs as [|b bs IH]; intros i; [by rewrite Z.bits_0|]. cbn [bits_value]. rewrite Z.add_comm. destruct i as [|i]; [by destruct b; [rewrite Z.testbit_odd_0|rewrite Z.add_0_r, Z.testbit_even_0]|].
  rewrite Nat2Z.inj_succ. simpl lookup. rewrite <-IH. destruct b; [rewrite Z.testbit_odd_succ by lia|rewrite Z.add_0_r, Z.testbit_even_succ by lia]; done.
Qed.
Lemma land_bit x i : 0 ≤ i → (Z.land x (Z.shiftl 1 i) =? 0) = negb (Z.testbit x i).
Proof.
  intros Hi. rewrite Z.shiftl_1_l. destruct (Z.testbit x i) eqn:E; simpl.
  - apply Z.eqb_neq. intros E0. apply (f_equal (λ z, Z.testbit z i)) in E0. rewrite Z.land_spec, E, Z.pow2_bits_true, Z.bits_0 in E0 by lia. done.
  - apply Z.eqb_eq. apply Z.bits_inj'. intros j Hj. rewrite Z.land_spec, Z.bits_0. destruct (decide (j = i)) as [->|]; [by rewrite E|]. by rewrite Z.pow2_bits_false, andb_false_r by lia.
Qed.

Lemma BIT64_in i : 0 ≤ i < 64 → BIT64 i = Ok (Z.shiftl 1 i).
Proof. intros Hi. unfold BIT64. by rewrite (proj2 (Z.leb_le 0 i)), (proj2 (Z.ltb_lt i 64)) by lia. Qed.
Lemma turn_step bs i b : bs !! (length bs - S i)%nat = Some b → (i < length bs)%nat →
  2 ^ Z.of_nat (length bs - S i) * bits_value (drop (length bs - S i) bs) = 2 ^ Z.of_nat (length bs - S i) * Z.b2z b + 2 ^ Z.of_nat (length bs - i) * bits_value (drop (length bs - i) bs).
Proof.
  intros Hb Hi. rewrite (drop_S bs b _ Hb). replace (length bs - i)%nat with (S (length bs - S i)) by lia. cbn [bits_value]. rewrite Nat2Z.inj_succ, Z.pow_succ_r by lia. lia.
Qed.
Lemma turn_code_ok bs : (length bs ≤ 64)%nat → turn_code (bits_value (reverse bs)) (zlen bs) = Ok (bits_value bs).
Proof.
  intros Hl. assert (wp (turn_code (bits_value (reverse bs)) (zlen bs)) (λ v, v = bits_value bs)) as (v & -> & ->)%wp_ok; [|done]. unfold turn_code, zlen.
  apply (wp_loop_n (λ n '(i, v), ∃ k, i = Z.of_nat k ∧ (k ≤ length bs)%nat ∧ n = (length bs - k)%nat ∧ v = 2 ^ Z.of_nat (length bs - k) * bits_value (drop (length bs - k) bs)) _ _) with (n := length bs);
    [|exists 0%nat; rewrite Nat.sub_0_r, drop_ge by lia; simpl; split_and!; lia|lia].
  intros n [i v] (k & -> & Hk & -> & ->). destruct (Z.ltb_spec (Z.of_nat k) (Z.of_nat (length bs))) as [Hlt|Hge].
  - rewrite (BIT64_in (Z.of_nat k)) by lia. apply wp_bind, wp_ret. cbv beta. rewrite land_bit, negb_involutive, bits_value_testbit, reverse_lookup by lia.
    destruct (lookup_lt_is_Some_2 bs (length bs - S k)) as [b Hb]; [lia|]. rewrite Hb. pose proof (turn_step bs k b Hb ltac:(lia)) as Hstep. pose proof (bits_value_range (drop (length bs - k) bs)).
    assert (wp (if b then c ← BIT64 (Z.of_nat (length bs) - Z.of_nat k - 1); mret (Z.lor (2 ^ Z.of_nat (length bs - k) * bits_value (drop (length bs - k) bs)) c)
      else mret (2 ^ Z.of_nat (length bs - k) * bits_value (drop (length bs - k) bs))) (λ v, v = 2 ^ Z.of_nat (length bs - S k) * bits_value (drop (length bs - S k) bs))) as Hw.
    { rewrite Hstep. destruct b; [|apply wp_ret; simpl; lia]. rewrite BIT64_in by lia. apply wp_bind, wp_ret, wp_ret.
      replace (Z.of_nat (length bs) - Z.of_nat k - 1) with (Z.of_nat (length bs - S k)) by lia. rewrite Z.lor_comm, Z.shiftl_1_l, (Z.mul_comm (2 ^ Z.of_nat (length bs - k))), <-Z.shiftl_mul_pow2 by lia. rewrite lor_shiftl_add; [rewrite Z.shiftl_mul_pow2 by lia; cbn [Z.b2z]; lia|lia|]. split; [lia|]. apply Z.pow_lt_mono_r; lia. }
    apply wp_bind. eapply wp_mono; [exact Hw|]. intros v ->. apply wp_ret. exists (length bs - S k)%nat. split; [lia|]. exists (S k). split_and!; [lia|lia|done|done].
  - apply wp_ret. replace (length bs - k)%nat with 0%nat by lia. rewrite drop_0. simpl. lia.
Qed.

(** The fields of a table of codes. *)
Record codes_set (nodes nodes' : nodes_t) (t : code_tree) (pre : list bool) : Prop := {
  cd_length : zlen nodes' = zlen nodes;
  cd_codes s p : path t s = Some p → hn_code (get nodes' s) = bits_value (pre ++ p) ∧ hn_length (get nodes' s) = zlen (pre ++ p);
  cd_others s : 0 ≤ s → path t s = None → get nodes' s = get nodes s;
  cd_same s : 0 ≤ s → hn_value (get nodes' s) = hn_value (get nodes s) ∧ hn_count (get nodes' s) = hn_count (get nodes s) }.
Lemma path_symbols t s : is_Some (path t s) ↔ s ∈ symbols t.
Proof.
  induction t as [x c|l IHl r IHr]; simpl.
  - rewrite list_elem_of_singleton. case_decide; split; naive_solver.
  - rewrite elem_of_app, <-IHl, <-IHr. destruct (path l s), (path r s); simpl; split; naive_solver.
Qed.
Lemma path_none t s : path t s = None ↔ s ∉ symbols t.
Proof. rewrite <-path_symbols. destruct (path t s); split; naive_solver. Qed.
Lemma set_code_ok tn bound t : bound ≤ zlen tn → NoDup (symbols t) → ∀ fuel p pre nodes, represents tn bound p t → Forall (λ s, 0 ≤ s < zlen nodes) (symbols t) →
  (code_depth t < fuel)%nat → (length pre + code_depth t ≤ 64)%nat →
  wp (cavan_huffman_tree_set_code fuel tn p (bits_value (reverse pre)) (zlen pre) nodes) (λ nodes', codes_set nodes nodes' t pre).
Proof.
  intros Hb. induction t as [s c|l IHl r IHr]; intros Hnd fuel p pre nodes Hp Hr Hf Hd; (destruct fuel as [|fuel]; [simpl in Hf; lia|]); simpl in Hp, Hr, Hf, Hd; simpl; destruct Hp as (Hp & _ & Hn); (apply wp_bind, wp_load; [lia|]).
  - destruct Hn as (-> & _ & Hs & ->). simpl. rewrite turn_code_ok by lia. apply wp_bind, wp_ret. apply Forall_cons in Hr as [Hr _]. rewrite Hs, modify_in by done. apply wp_ret. split.
    + by rewrite zlen_upd.
    + intros x q. simpl. case_decide; [|done]. subst x. intros [= <-]. rewrite get_upd_eq by done. by rewrite app_nil_r.
    + intros x Hx. simpl. case_decide; [done|]. intros _. by rewrite get_upd_ne by lia.
    + intros x Hx. rewrite get_upd by lia. by case_decide as E; [subst|].
  - destruct Hn as [Hl Hr']. pose proof (represents_range _ _ _ _ Hl). unfold NULL. rewrite (proj2 (Z.eqb_neq _ _)) by lia. simpl. apply NoDup_app in Hnd as (Hndl & Hdis & Hndr). apply Forall_app in Hr as [Hrl Hrr].
    pose proof (bits_value_range (reverse pre)) as Hv. rewrite length_reverse in Hv. assert (2 ^ Z.of_nat (length pre) ≤ 2 ^ 63) as H63 by (apply Z.pow_le_mono_r; lia).
    assert (∀ b, reverse (pre ++ [b]) = b :: reverse pre) as Hrev by (intros b; by rewrite reverse_snoc). assert (∀ b, zlen (pre ++ [b]) = u8 (zlen pre + 1)) as Hz.
    { intros b. rewrite zlen_app. change (zlen [b]) with 1. rewrite wrap_small; [done|]. pose proof (zlen_nonneg pre). unfold zlen in *. lia. }
    assert (u64 (Z.shiftl (bits_value (reverse pre)) 1) = bits_value (reverse (pre ++ [false]))) as ->.
    { rewrite Hrev, Z.shiftl_mul_pow2 by lia. cbn [bits_value Z.b2z]. rewrite wrap_small by lia. lia. }
    assert (u64 (Z.lor (Z.shiftl (bits_value (reverse pre)) 1) 1) = bits_value (reverse (pre ++ [true]))) as ->.
    { rewrite Hrev, Z.lor_comm, lor_shiftl_add by lia. cbn [bits_value Z.b2z]. rewrite wrap_small by lia. lia. }
    rewrite <-(Hz false). apply wp_bind. eapply wp_mono; [apply (IHl Hndl); [done|done|lia|rewrite length_app; simpl; lia]|]. intros nodes1 [A1 B1 C1 D1].
    rewrite (Hz false), <-(Hz true). eapply wp_mono; [apply (IHr Hndr); [done|by rewrite A1|lia|rewrite length_app; simpl; lia]|]. intros nodes2 [A2 B2 C2 D2]. split.
    + by rewrite A2.
    + intros s q. simpl. destruct (path l s) as [q'|] eqn:El.
      * intros [= <-]. assert (s ∈ symbols l) as Hin by (apply path_symbols; by eexists). assert (path r s = None) as Er by (apply path_none; by apply Hdis).
        assert (0 ≤ s) by (rewrite Forall_forall in Hrl; by apply Hrl). rewrite (C2 s) by done. destruct (B1 s q' El) as [-> ->]. by rewrite <-app_assoc.
      * destruct (path r s) as [q'|] eqn:Er; [|done]. simpl. intros [= <-]. destruct (B2 s q' Er) as [-> ->]. by rewrite <-app_assoc.
    + intros s Hs. simpl. destruct (path l s) eqn:El; [done|]. destruct (path r s) eqn:Er; [done|]. intros _. by rewrite C2, C1.
    + intros s Hs. destruct (D2 s Hs) as [-> ->]. by apply D1.
Qed.

(** ** The counts of a file *)

Definition occurrences (data : list Z) (s : Z) : Z := foldr (λ b n, if b =? s then n + 1 else n) 0 data.
Definition bytes_only (data : list Z) : Prop := Forall (λ b, 0 ≤ b < 256) data.

Lemma freq_table_init_ok nodes : zlen nodes = CAVAN_HUFFMAN_SYMBOLS → wp (cavan_huffman_freq_table_init nodes) (λ nodes', counts nodes' (λ _, 0)).
Proof.
  unfold CAVAN_HUFFMAN_SYMBOLS. intros Hn. unfold cavan_huffman_freq_table_init.
  apply (wp_loop (λ '(i, nodes), 0 ≤ i ≤ 256 ∧ zlen nodes = 256 ∧ ∀ s, 0 ≤ s < i → hn_value (get nodes s) = s ∧ hn_count (get nodes s) = 0) _ (λ '(i, _), Z.to_nat (256 - i)));
    [|split; [lia|]; split; [done|]; intros; lia|unfold CAVAN_HUFFMAN_SYMBOLS; lia].
  clear nodes Hn. intros [i nodes] (Hi & Hn & Hs). unfold CAVAN_HUFFMAN_SYMBOLS. destruct (Z.ltb_spec i 256).
  - rewrite modify_in by lia. apply wp_bind, wp_ret, wp_ret. split; [|lia]. split; [lia|]. rewrite zlen_upd. split; [done|]. intros s Hs'. rewrite get_upd by lia.
    case_decide as E; [subst; simpl; by rewrite wrap_small by lia|apply Hs; lia].
  - apply wp_ret. assert (i = 256) as -> by lia. split; [done|intros s Hs'; by apply Hs|intros s Hs'; by apply Hs].
Qed.
Lemma build_freq_table_ok mem : ∀ nodes count, counts nodes count → bytes_only mem → (∀ s, 0 ≤ s < 256 → 0 ≤ count s ∧ count s + zlen mem < 2 ^ 64) →
  wp (cavan_huffman_build_freq_table mem nodes) (λ nodes', counts nodes' (λ s, count s + occurrences mem s)).
Proof.
  unfold cavan_huffman_build_freq_table. assert (∀ fuel nodes count, (length mem < fuel)%nat → counts nodes count → bytes_only mem → (∀ s, 0 ≤ s < 256 → 0 ≤ count s ∧ count s + zlen mem < 2 ^ 64) →
    wp (loop fuel (λ '(mem, nodes), match mem with b :: mem => nodes ← count_byte nodes b; mret (inl (mem, nodes)) | [] => mret (inr nodes) end) (mem, nodes)) (λ nodes', counts nodes' (λ s, count s + occurrences mem s)));
    [|eauto]. induction mem as [|b mem IH]; intros fuel nodes count Hf Hc Hb Hs; (destruct fuel as [|fuel]; [simpl in Hf; lia|]); rewrite loop_S.
  - simpl. destruct Hc as [A B C]. split; [done|done|]. intros s Hs'. rewrite C by done. lia.
  - apply Forall_cons in Hb as [Hb Hmem]. destruct Hc as [A B C]. unfold CAVAN_HUFFMAN_SYMBOLS in *. pose proof (zlen_nonneg mem). rewrite zlen_cons in Hs. simpl in Hf. unfold count_byte. rewrite modify_in by lia. simpl.
    eapply wp_mono; [apply (IH _ _ (λ s, count s + (if b =? s then 1 else 0))); [lia| |done|]|].
    + split; unfold CAVAN_HUFFMAN_SYMBOLS; [by rewrite zlen_upd| |]; intros s Hs'; rewrite get_upd by lia; (case_decide as E; [subst b; simpl|]).
      * by apply B.
      * by apply B.
      * rewrite C, Z.eqb_refl by done. rewrite wrap_small; [done|]. specialize (Hs s Hs'). lia.
      * rewrite C by done. rewrite (proj2 (Z.eqb_neq b s)) by done. lia.
    + intros s Hs'. specialize (Hs s Hs'). destruct (b =? s); lia.
    + intros nodes' [A' B' C']. split; [done|done|]. intros s Hs'. rewrite C' by done. simpl. destruct (b =? s); lia.
Qed.

Lemma occurrences_app a b s : occurrences (a ++ b) s = occurrences a s + occurrences b s.
Proof. induction a as [|x a IH]; [done|]. simpl. rewrite IH. destruct (x =? s); lia. Qed.
Lemma occurrences_range data s : 0 ≤ occurrences data s ≤ zlen data.
Proof. induction data as [|b data IH]; [done|]. rewrite zlen_cons. simpl. destruct (b =? s); lia. Qed.
Lemma occurrences_in data s : s ∈ data ↔ occurrences data s ≠ 0.
Proof.
  induction data as [|b data IH]; [split; [by intros ?%elem_of_nil|done]|]. rewrite elem_of_cons, IH. simpl. pose proof (occurrences_range data s). destruct (Z.eqb_spec b s); [subst; split; [lia|by left]|].
  split; [intros [->|]; done|by right].
Qed.
Lemma occurring_in data s : bytes_only data → s ∈ occurring (occurrences data) ↔ s ∈ data.
Proof.
  intros Hb. unfold occurring. rewrite list_elem_of_filter, elem_of_seqZ, <-occurrences_in. split; [tauto|]. intros Hs. split; [done|]. unfold bytes_only in Hb. rewrite Forall_forall in Hb. specialize (Hb s Hs). lia.
Qed.
Lemma total_point (f : Z → Z) b l : NoDup l → foldr (λ s n, (if b =? s then f s + 1 else f s) + n) 0 l = foldr (λ s n, f s + n) 0 l + (if decide (b ∈ l) then 1 else 0).
Proof.
  induction 1 as [|x l Hx _ IH]; [cbn [foldr]; by rewrite decide_False by apply not_elem_of_nil|]. cbn [foldr]. rewrite IH. destruct (Z.eqb_spec b x) as [->|Hne].
  - rewrite decide_False by done. rewrite decide_True by (by left). lia.
  - case_decide as E; [rewrite decide_True by (by right); lia|rewrite decide_False by (rewrite elem_of_cons; tauto); lia].
Qed.
Lemma total_occurrences data : bytes_only data → total_count (occurrences data) = zlen data.
Proof.
  unfold total_count. induction 1 as [|b data Hb _ IH].
  - change (zlen []) with 0. induction (seqZ 0 256) as [|s l IH]; [done|]. simpl in *. lia.
  - rewrite zlen_cons, <-IH. etrans; [exact (total_point (occurrences data) b (seqZ 0 256) (NoDup_seqZ _ _))|]. rewrite decide_True by (apply elem_of_seqZ; lia). lia.
Qed.
