(* ===== verification/HuffmanFile.v ===== *)
(** HuffmanFile: packing and unpacking files with the Huffman tree of
    src/lib/codec.c.

    The bits of the codes fill bytes from the lowest bit on.  What the arrays on
    the stack hold at first is an argument. *)
From S2P Require Import Prelude Sort File Huffman.

(** [lseek(fd, 0, SEEK_SET)]. *)
Class Seeks (W : Type) `{System W} := { sys_lseek : Z → prog W Z }.
Class SeekLaws (W : Type) `{Seeks W} := {
  lseek_law w fd p i : reading w fd = Some (p, i) → wpp (sys_lseek fd) w (λ r w',
    others_same w w' None fd ∧ (r = 0 ∧ reading w' fd = Some (p, 0) ∨ r < 0 ∧ reading w' fd = Some (p, i))) }.

(** ** The code *)

(** The arrays of an encoder or a decoder. *)
Record workspace := mk_workspace { ws_nodes : nodes_t; ws_tree_nodes : tree_t; ws_pnodes : list Z; ws_save : list Z }.
Definition SAVE_SIZE : Z := 9.

Section files.
Context {W : Type} `{Seeks W}.

(** More than the reads until the end of a file. *)
Definition reads_left (fd : Z) (w : W) : nat := match reading w fd with Some (p, _) => S (length (file w p)) | None => 1 end.

Definition cavan_huffman_build_freq_table_fd (fd : Z) (nodes : nodes_t) : prog W (Z * nodes_t) :=
  fuel ← reads (reads_left fd);
  ploop fuel (λ nodes,
    '(rdlen, b) ← (λ w, Ok (sys_read fd 1024 w) : cres (Z * list Z * W));
    if rdlen <=? 0 then mret (inr (rdlen, nodes))
    else nodes ← lift (cavan_huffman_build_freq_table b nodes); mret (inl nodes)) nodes.
Definition cavan_huffman_build_freq_table_file (pathname : Z) (nodes : nodes_t) : prog W (Z * nodes_t) :=
  fd ← sys_open_read pathname;
  if fd <? 0 then mret (fd, nodes)
  else r ← cavan_huffman_build_freq_table_fd fd nodes; sys_close fd;; mret r.

Definition save_node (node : cavan_huffman_node) : list Z := hn_value node :: le_bytes 8 (hn_count node).
Definition save_round (nodes : nodes_t) : Z * Z * list Z → cres (Z * Z * list Z + Z * list Z) := λ '(i, count, save_nodes),
  if i <? CAVAN_HUFFMAN_SYMBOLS then
    node ← load nodes i;
    if 0 <? hn_count node then mret (inl (i + 1, count + 1, save_nodes ++ save_node node)) else mret (inl (i + 1, count, save_nodes))
  else mret (inr (count, save_nodes)).
Definition cavan_huffman_write_freq_table (fd : Z) (nodes : nodes_t) : prog W Z :=
  '(count, save_nodes) ← lift (loop (S (Z.to_nat CAVAN_HUFFMAN_SYMBOLS)) (save_round nodes) (0, 0, []));
  ret ← ffile_write fd (le_bytes 2 count);
  if ret <? 0 then mret ret else ffile_write fd save_nodes.
Definition load_round (save_nodes : list Z) (count : Z) : Z * nodes_t → cres (Z * nodes_t + nodes_t) := λ '(i, nodes),
  if i <? count then
    v ← load save_nodes (SAVE_SIZE * i);
    c ← window save_nodes (SAVE_SIZE * i + 1) 8;
    nodes ← modify nodes v (λ n, mk_huffman_node (hn_value n) (hn_code n) (hn_length n) (le_word c));
    mret (inl (i + 1, nodes))
  else mret (inr nodes).
(** [save]: what the array [save_nodes] holds at first. *)
Definition cavan_huffman_read_freq_table (save : list Z) (fd : Z) (nodes : nodes_t) : prog W (Z * nodes_t) :=
  '(ret, b) ← ffile_read fd 2;
  if ret <? 0 then mret (ret, nodes)
  else
    let count := le_word b in
    '(ret, b) ← ffile_read fd (SAVE_SIZE * count);
    if ret <? 0 then mret (ret, nodes)
    else
      save_nodes ← lift (memcpy save 0 b 0 ret);
      nodes ← lift (loop (S (Z.to_nat count)) (load_round save_nodes count) (0, nodes));
      mret (0, nodes).

(** The bits of a code, behind the [offset] bits of [value]; or an error. *)
Definition put_code_round (fd : Z) : Z * Z * Z * Z → prog W (Z * Z * Z * Z + (Z + Z * Z)) := λ '(value, offset, code, length),
  let remain := 8 - offset in
  let value := u8 (Z.lor value (u64 (Z.shiftl code offset))) in
  if length <? remain then mret (inr (inr (value, offset + length)))
  else
    ret ← ffile_write fd [value];
    if ret <? 0 then mret (inr (inl ret))
    else if length =? remain then mret (inr (inr (0, 0)))
    else mret (inl (0, 0, Z.shiftr code remain, length - remain)).
Definition put_code (fd value offset code length : Z) : prog W (Z + Z * Z) :=
  ploop (S (Z.to_nat length)) (put_code_round fd) (value, offset, code, length).
Definition encode_buff (fd : Z) (nodes : nodes_t) (buff : list Z) (value offset : Z) : prog W (Z + Z * Z) :=
  ploop (S (length buff)) (λ '(mem, value, offset),
    match mem with
    | [] => mret (inr (inr (value, offset)))
    | b :: mem =>
      node ← lift (load nodes b);
      r ← put_code fd value offset (hn_code node) (hn_length node);
      match r with inl ret => mret (inr (inl ret)) | inr (value, offset) => mret (inl (mem, value, offset)) end
    end) (buff, value, offset).
Definition encode_data (fd_src fd_dest : Z) (nodes : nodes_t) : prog W (Z + Z * Z) :=
  fuel ← reads (reads_left fd_src);
  ploop fuel (λ '(value, offset),
    '(rdlen, b) ← ffile_read fd_src 1024;
    if rdlen <=? 0 then mret (inr (if rdlen =? 0 then inr (value, offset) else inl rdlen))
    else
      r ← encode_buff fd_dest nodes b value offset;
      match r with inl ret => mret (inr (inl ret)) | inr st => mret (inl st) end) (0, 0).
Definition cavan_huffman_encode (ws : workspace) (fd_src fd_dest : Z) : prog W Z :=
  ret ← sys_lseek fd_src;
  if negb (ret =? 0) then mret (- EINVAL)
  else
    nodes ← lift (cavan_huffman_freq_table_init (ws_nodes ws));
    '(ret, nodes) ← cavan_huffman_build_freq_table_fd fd_src nodes;
    if ret <? 0 then mret ret
    else
      '(tree_nodes, root) ← lift (cavan_huffman_build_tree (ws_pnodes ws) (ws_tree_nodes ws) nodes);
      t ← lift (load tree_nodes root);
      nodes ← lift (cavan_huffman_tree_set_code (S (length tree_nodes)) tree_nodes root 0 (if (ht_left t =? NULL) && (ht_right t =? NULL) then 1 else 0) nodes);
      ret ← sys_lseek fd_src;
      if negb (ret =? 0) then mret (- EINVAL)
      else
        ret ← cavan_huffman_write_freq_table fd_dest nodes;
        if ret <? 0 then mret ret
        else
          r ← encode_data fd_src fd_dest nodes;
          match r with
          | inl ret => mret ret
          | inr (value, offset) =>
            if negb (offset =? 0) then ret ← ffile_write fd_dest [value]; if ret <? 0 then mret ret else mret 0 else mret 0
          end.
Definition cavan_huffman_encode_file (ws : workspace) (src_file dest_file : Z) : prog W Z :=
  fd_src ← sys_open_read src_file;
  if fd_src <? 0 then mret fd_src
  else
    fd_dest ← sys_open_write dest_file;
    ret ← (if fd_dest <? 0 then mret fd_dest else ret ← cavan_huffman_encode ws fd_src fd_dest; sys_close fd_dest;; mret ret);
    sys_close fd_src;;
    mret ret.

(** Down the tree by the bits of a byte. *)
Definition decode_round (fd : Z) (tree_nodes : tree_t) (nodes : nodes_t) (top value : Z) : Z * Z → prog W (Z * Z + (Z + Z)) := λ '(offset, root),
  if offset <? 8 then
    t ← lift (load tree_nodes root);
    let node := if negb (Z.land value (Z.shiftl 1 offset) =? 0) then ht_right t else ht_left t in
    n ← lift (load tree_nodes node);
    if negb (ht_left n =? NULL) then mret (inl (offset + 1, node))
    else
      x ← lift (load nodes (ht_node n));
      ret ← ffile_write fd [hn_value x];
      if ret <? 0 then mret (inr (inl ret)) else mret (inl (offset + 1, top))
  else mret (inr (inr root)).
Definition decode_buff (fd : Z) (tree_nodes : tree_t) (nodes : nodes_t) (top : Z) (buff : list Z) (root : Z) : prog W (Z + Z) :=
  ploop (S (length buff)) (λ '(mem, root),
    match mem with
    | [] => mret (inr (inr root))
    | value :: mem =>
      r ← ploop 9 (decode_round fd tree_nodes nodes top value) (0, root);
      match r with inl ret => mret (inr (inl ret)) | inr root => mret (inl (mem, root)) end
    end) (buff, root).
Definition decode_data (fd_src fd_dest : Z) (tree_nodes : tree_t) (nodes : nodes_t) (top : Z) : prog W Z :=
  fuel ← reads (reads_left fd_src);
  ploop fuel (λ root,
    '(rdlen, b) ← ffile_read fd_src 1024;
    if rdlen <=? 0 then mret (inr (if rdlen =? 0 then 0 else rdlen))
    else
      r ← decode_buff fd_dest tree_nodes nodes top b root;
      match r with inl ret => mret (inr ret) | inr root => mret (inl root) end) top.
Definition cavan_huffman_decode (ws : workspace) (fd_src fd_dest : Z) : prog W Z :=
  ret ← sys_lseek fd_src;
  if negb (ret =? 0) then mret (- EINVAL)
  else
    nodes ← lift (cavan_huffman_freq_table_init (ws_nodes ws));
    '(ret, nodes) ← cavan_huffman_read_freq_table (ws_save ws) fd_src nodes;
    if ret <? 0 then mret ret
    else
      '(tree_nodes, root) ← lift (cavan_huffman_build_tree (ws_pnodes ws) (ws_tree_nodes ws) nodes);
      decode_data fd_src fd_dest tree_nodes nodes root.
Definition cavan_huffman_decode_file (ws : workspace) (src_file dest_file : Z) : prog W Z :=
  fd_src ← sys_open_read src_file;
  if fd_src <? 0 then mret fd_src
  else
    fd_dest ← sys_open_write dest_file;
    ret ← (if fd_dest <? 0 then mret fd_dest else ret ← cavan_huffman_decode ws fd_src fd_dest; sys_close fd_dest;; mret ret);
    sys_close fd_src;;
    mret ret.
End files.

(** ** What they compute *)

(** The bits of a byte, the lowest first. *)
Definition byte_bits (b : Z) : list bool := Z.testbit b <$> seqZ 0 8.
Definition bits_of (bytes : list Z) : list bool := mjoin (byte_bits <$> bytes).
Definition code_bits (t : code_tree) (data : list Z) : list bool := mjoin ((λ s, default [] (path t s)) <$> data).
(** Down the tree, and up again at a leaf. *)
Definition walk_bit (t cur : code_tree) (b : bool) : list Z * code_tree :=
  match cur with
  | Leaf _ _ => ([], cur)
  | Fork l r => match (if b then r else l) with Leaf s _ => ([s], t) | n => ([], n) end
  end.
Fixpoint walk (t cur : code_tree) (bs : list bool) : list Z * code_tree :=
  match bs with
  | [] => ([], cur)
  | b :: bs => let '(o, cur) := walk_bit t cur b in let '(out, cur) := walk t cur bs in (o ++ out, cur)
  end.
(** The first leaf, whose code is all zeros. *)
Fixpoint first_symbol (t : code_tree) : Z := match t with Leaf s _ => s | Fork l _ => first_symbol l end.
Fixpoint first_depth (t : code_tree) : nat := match t with Leaf _ _ => 0 | Fork l _ => S (first_depth l) end.
(** The zero bits that fill the last byte. *)
Definition padding (n : nat) : nat := Z.to_nat ((- Z.of_nat n) mod 8).
(** What the zero bits are read as. *)
Definition padding_symbols (data : list Z) : list Z :=
  match huffman_tree (occurrences data) with
  | Some t => repeat (first_symbol t) (padding (length (code_bits t data)) / first_depth t)
  | None => []
  end.
Definition table (data : list Z) : list Z :=
  let symbols := occurring (occurrences data) in
  le_bytes 2 (zlen symbols) ++ mjoin ((λ s, s :: le_bytes 8 (occurrences data s)) <$> symbols).

(** ** Bits *)

Lemma length_byte_bits b : length (byte_bits b) = 8%nat.
Proof. done. Qed.
Lemma byte_bits_lookup b i : (i < 8)%nat → byte_bits b !! i = Some (Z.testbit b (Z.of_nat i)).
Proof. intros Hi. unfold byte_bits. rewrite list_lookup_fmap, lookup_seqZ_lt by lia. done. Qed.
Lemma byte_bits_value l : (length l ≤ 8)%nat → byte_bits (bits_value l) = l ++ replicate (8 - length l) false.
Proof.
  intros Hl. apply list_eq. intros i. destruct (decide (i < 8)%nat) as [Hi|Hi].
  - rewrite byte_bits_lookup, bits_value_testbit by done. destruct (decide (i < length l)%nat) as [Hi'|Hi'].
    + rewrite lookup_app_l by done. by destruct (lookup_lt_is_Some_2 l i Hi') as [b ->].
    + rewrite lookup_app_r by lia. rewrite (lookup_ge_None_2 l) by lia. rewrite lookup_replicate_2 by lia. done.
  - rewrite !lookup_ge_None_2; [done|rewrite length_app, length_replicate; lia|rewrite length_byte_bits; lia].
Qed.
Lemma bits_value_take k l : wrap (Z.of_nat k) (bits_value l) = bits_value (take k l).
Proof.
  apply Z.bits_inj'. intros i Hi. rewrite testbit_wrap by lia. replace i with (Z.of_nat (Z.to_nat i)) by lia. rewrite !bits_value_testbit.
  destruct (Z.ltb_spec (Z.of_nat (Z.to_nat i)) (Z.of_nat k)); simpl; [by rewrite lookup_take_lt by lia|by rewrite lookup_take_ge by lia].
Qed.
Lemma bits_value_drop k l : Z.shiftr (bits_value l) (Z.of_nat k) = bits_value (drop k l).
Proof.
  apply Z.bits_inj'. intros i Hi. rewrite Z.shiftr_spec by lia. replace i with (Z.of_nat (Z.to_nat i)) by lia. rewrite <-Nat2Z.inj_add, !bits_value_testbit, lookup_drop. do 2 f_equal. lia.
Qed.
(** Bits put behind others, in a byte. *)
Lemma put_bits pre l : (length pre < 8)%nat → u8 (Z.lor (bits_value pre) (u64 (Z.shiftl (bits_value l) (zlen pre)))) = bits_value (take 8 (pre ++ l)).
Proof.
  intros Hp. change 8%nat with (Z.to_nat 8). rewrite <-bits_value_take. change (Z.of_nat (Z.to_nat 8)) with 8. rewrite bits_value_app. pose proof (bits_value_range pre). rewrite <-lor_shiftl_add by lia.
  apply Z.bits_inj'. intros i Hi. rewrite !testbit_wrap, !Z.lor_spec, testbit_wrap by lia. fold (zlen pre). destruct (Z.ltb_spec i 8); simpl; [|done]. by rewrite (proj2 (Z.ltb_lt i 64)) by lia.
Qed.
Lemma bits_of_app a b : bits_of (a ++ b) = bits_of a ++ bits_of b.
Proof. unfold bits_of. by rewrite fmap_app, join_app. Qed.
Lemma bits_of_one b : bits_of [b] = byte_bits b.
Proof. exact (app_nil_r (byte_bits b)). Qed.
Lemma length_bits_of l : length (bits_of l) = (8 * length l)%nat.
Proof. induction l as [|b l IH]; [done|]. unfold bits_of in *. rewrite fmap_cons. change (mjoin (byte_bits b :: (byte_bits <$> l))) with (byte_bits b ++ mjoin (byte_bits <$> l)). rewrite length_app, length_byte_bits, IH. simpl. lia. Qed.

(** ** Walks *)

Lemma walk_app t cur a b : walk t cur (a ++ b) = let '(o, c) := walk t cur a in let '(o', c') := walk t c b in (o ++ o', c').
Proof.
  revert cur. induction a as [|x a IH]; intros cur; simpl; [by destruct (walk t cur b)|]. destruct (walk_bit t cur x) as [o c]. rewrite IH. destruct (walk t c a) as [o1 c1]. destruct (walk t c1 b) as [o2 c2]. by rewrite app_assoc.
Qed.
Lemma walk_path t cur s p : path cur s = Some p → p ≠ [] → walk t cur p = ([s], t).
Proof.
  revert p. induction cur as [x c|l IHl r IHr]; intros p Hp Hne; simpl in Hp; [case_decide; [by injection Hp as <-|done]|].
  destruct (path l s) as [q|] eqn:El.
  - injection Hp as <-. simpl. destruct l as [x c|l1 l2]; [simpl in El; case_decide; [|done]; injection El as <-; by subst|]. rewrite (IHl q); [done|done|]. intros ->. simpl in El. destruct (path l1 s); [done|]. by destruct (path l2 s).
  - destruct (path r s) as [q|] eqn:Er; [|done]. injection Hp as <-. simpl. destruct r as [x c|r1 r2]; [simpl in Er; case_decide; [|done]; injection Er as <-; by subst|]. rewrite (IHr q); [done|done|]. intros ->. simpl in Er. destruct (path r1 s); [done|]. by destruct (path r2 s).
Qed.
Lemma fork_path l r s p : path (Fork l r) s = Some p → p ≠ [].
Proof. simpl. destruct (path l s); [by intros [= <-]|]. destruct (path r s); [by intros [= <-]|done]. Qed.
Lemma walk_codes l r data : Forall (λ s, s ∈ symbols (Fork l r)) data → walk (Fork l r) (Fork l r) (code_bits (Fork l r) data) = (data, Fork l r).
Proof.
  induction 1 as [|s data Hs _ IH]; [done|]. unfold code_bits in *. rewrite fmap_cons. apply path_symbols in Hs as [p Hp]. rewrite Hp. cbn [default]. match goal with |- context [mjoin (?a :: ?b)] => change (mjoin (a :: b)) with (a ++ mjoin b) end. rewrite walk_app.
  rewrite (walk_path _ _ s p Hp) by (by eapply fork_path). by rewrite IH.
Qed.
Lemma first_path t : path t (first_symbol t) = Some (replicate (first_depth t) false).
Proof. induction t as [s c|l IHl r _]; simpl; [by rewrite decide_True|]. by rewrite IHl. Qed.
Lemma walk_short t cur k : (k < first_depth cur)%nat → (walk t cur (replicate k false)).1 = [].
Proof.
  revert cur. induction k as [|k IH]; intros cur Hk; [done|]. destruct cur as [s c|l r]; simpl in Hk; [lia|]. simpl. destruct l as [s c|l1 l2]; [simpl in Hk; lia|].
  specialize (IH (Fork l1 l2)). destruct (walk t (Fork l1 l2) (replicate k false)) as [o c]. simpl in *. apply IH. lia.
Qed.
Lemma walk_zeros l r k : (walk (Fork l r) (Fork l r) (replicate k false)).1 = repeat (first_symbol (Fork l r)) (k / first_depth (Fork l r)).
Proof.
  set (t := Fork l r). assert (0 < first_depth t)%nat as Hd by (simpl; lia). induction k as [k IH] using lt_wf_ind. destruct (decide (k < first_depth t)%nat) as [Hk|Hk].
  - rewrite (walk_short t t k Hk). by rewrite Nat.div_small.
  - assert (k / first_depth t = S ((k - first_depth t) / first_depth t))%nat as -> by (rewrite <-Nat.add_1_l, <-Nat.div_add_l by lia; f_equal; lia).
    specialize (IH (k - first_depth t)%nat ltac:(lia)). replace k with (first_depth t + (k - first_depth t))%nat at 1 by lia.
    rewrite replicate_add, walk_app, (walk_path t t (first_symbol t)); [|apply first_path|by eapply fork_path, first_path].
    destruct (walk t t (replicate (k - first_depth t) false)) as [o c]. simpl in IH |- *. by rewrite IH.
Qed.

(** ** Packing *)

Section packing.
Context {W : Type} `{SystemLaws W}.
Context (src dest fd_src fd_dest : Z) (data head : list Z).
Hypothesis Hfiles : src ≠ dest.

(** The files of the run, with [bytes] written behind the head. *)
Record copying (i : Z) (bytes : list Z) (w : W) : Prop := {
  cp_src : file w src = data;
  cp_reading : reading w fd_src = Some (src, i);
  cp_writing : writing w fd_dest = Some dest;
  cp_dest : file w dest = head ++ bytes }.
Lemma copying_write i bytes b w (Q : Z → W → Prop) : copying i bytes w →
  (∀ r w', r < 0 → Q r w') → (∀ w', copying i (bytes ++ b) w' → Q (zlen b) w') → wpp (ffile_write fd_dest b) w Q.
Proof using All.
  intros [Hs Hr Hw Hd] Hneg HQ. eapply wpp_mono; [by apply (ffile_write_ok w fd_dest dest)|]. intros r w' [[-> [A B C D]]|[Hr' _]]; [|by apply Hneg].
  apply HQ. split; [by rewrite B|by rewrite C|by rewrite D|by rewrite A, Hd, app_assoc].
Qed.
Lemma copying_read i bytes n w (Q : Z * list Z → W → Prop) : fd_src ≠ fd_dest → copying i bytes w → 0 ≤ i ≤ zlen data → 0 ≤ n →
  (∀ r b w', r < 0 → Q (r, b) w') → (∀ w', let r := Z.min n (zlen data - i) in copying (i + r) bytes w' → Q (r, slice data i r) w') → wpp (ffile_read fd_src n) w Q.
Proof using All.
  intros Hfd [Hs Hr Hw Hd] Hi Hn Hneg HQ. eapply wpp_mono; [apply (ffile_read_ok w fd_src n src i Hr); [by rewrite Hs|done]|]. intros [r b] w' [[A B C] [(Hr' & _)|(-> & -> & Hr')]]; [by apply Hneg|].
  rewrite Hs in *. apply HQ. split; [by rewrite A|done|by rewrite C|by rewrite A].
Qed.

(** The bits so far are in the file and in the byte that is being filled. *)
Definition packing (i : Z) (bits : list bool) (value offset : Z) (w : W) : Prop :=
  ∃ bytes pre, copying i bytes w ∧ bits = bits_of bytes ++ pre ∧ (length pre < 8)%nat ∧ value = bits_value pre ∧ offset = zlen pre.

Lemma put_code_ok i bits value offset cb w : packing i bits value offset w → (length cb ≤ 64)%nat →
  wpp (put_code fd_dest value offset (bits_value cb) (zlen cb)) w (λ r w', match r with inl e => e < 0 | inr (v, o) => packing i (bits ++ cb) v o w' end).
Proof using All.
  intros Hp Hcb. apply (wpp_ploop (λ n '(v, o, c, l) w, ∃ bits' cb', bits ++ cb = bits' ++ cb' ∧ c = bits_value cb' ∧ l = zlen cb' ∧ n = length cb' ∧ (n ≤ 64)%nat ∧ packing i bits' v o w)) with (n := length cb);
    [|exists bits, cb; by split_and!|unfold zlen; lia].
  clear value offset w Hp. intros n [[[v o] c] l] w (bits' & cb' & Eb & -> & -> & -> & Hn & bytes & pre & Hc & -> & Hpre & -> & ->). unfold put_code_round. rewrite put_bits by done.
  destruct (Z.ltb_spec (zlen cb') (8 - zlen pre)) as [Hlt|Hge].
  - apply wpp_ret. exists bytes, (pre ++ cb'). split; [done|]. split; [by rewrite Eb, app_assoc|]. unfold zlen in *. rewrite length_app. split; [lia|]. rewrite take_ge by (rewrite length_app; lia). split; [done|lia].
  - apply wpp_bind. eapply copying_write; [exact Hc| |]. { intros r w' Hr. rewrite (proj2 (Z.ltb_lt r 0)) by done. by apply wpp_ret. }
    intros w' Hc'. change (zlen [_]) with 1. simpl (1 <? 0). cbv iota. set (k := (8 - length pre)%nat). assert (length cb' ≥ k)%nat as Hk by (unfold zlen, k in *; lia).
    assert (pre ++ cb' = (pre ++ take k cb') ++ drop k cb') as Esplit by (by rewrite <-app_assoc, take_drop).
    assert (length (pre ++ take k cb') = 8%nat) as El by (rewrite length_app, length_take; unfold k in *; lia).
    assert (take 8 (pre ++ cb') = pre ++ take k cb') as Etake by (by rewrite Esplit, <-El, take_app_length).
    assert (bits_of (bytes ++ [bits_value (take 8 (pre ++ cb'))]) = bits_of bytes ++ pre ++ take k cb') as Ebits by (by rewrite bits_of_app, bits_of_one, Etake, byte_bits_value, El, app_nil_r by lia).
    destruct (Z.eqb_spec (zlen cb') (8 - zlen pre)) as [E|E]; apply wpp_ret.
    + eexists _, []. split; [exact Hc'|]. rewrite Ebits, Eb. rewrite (take_ge cb') by (unfold zlen, k in *; lia). rewrite app_nil_r, app_assoc. split_and!; done || (simpl; lia).
    + exists (length (drop k cb')). rewrite length_drop. unfold zlen, k in *. split; [lia|]. exists (bits_of (bytes ++ [bits_value (take 8 (pre ++ cb'))])), (drop k cb'). split; [|split; [|split; [|split; [|split]]]].
      * by rewrite Ebits, Eb, <-!app_assoc, take_drop.
      * replace (8 - Z.of_nat (length pre)) with (Z.of_nat k) by (unfold k; lia). apply bits_value_drop.
      * rewrite length_drop. lia.
      * by rewrite length_drop.
      * lia.
      * eexists _, []. split; [exact Hc'|]. rewrite Ebits, app_nil_r. split_and!; done || (simpl; lia).
Qed.

Context (nodes : nodes_t) (t : code_tree).
Definition has_code (s : Z) : Prop :=
  0 ≤ s < zlen nodes ∧ ∃ p, path t s = Some p ∧ (length p ≤ 64)%nat ∧ hn_code (get nodes s) = bits_value p ∧ hn_length (get nodes s) = zlen p.
Lemma encode_buff_ok i buff : ∀ bits value offset w, packing i bits value offset w → Forall has_code buff →
  wpp (encode_buff fd_dest nodes buff value offset) w (λ r w', match r with inl e => e < 0 | inr (v, o) => packing i (bits ++ code_bits t buff) v o w' end).
Proof using All.
  intros bits value offset w Hp Hall.
  apply (wpp_ploop (λ n '(mem, v, o) w, ∃ done, buff = done ++ mem ∧ n = length mem ∧ packing i (bits ++ code_bits t done) v o w)) with (n := length buff);
    [|exists []; split; [done|]; split; [done|]; unfold code_bits; simpl; by rewrite app_nil_r|lia].
  clear value offset w Hp. intros n [[mem v] o] w (sofar & -> & -> & Hp). destruct mem as [|b mem]; [apply wpp_ret; by rewrite app_nil_r|].
  apply Forall_app in Hall as [_ Hall]. apply Forall_cons in Hall as [(Hb & p & Hpath & Hl & Ec & El) _]. apply wpp_bind. eapply wpp_lift; [by apply load_in|]. rewrite Ec, El.
  apply wpp_bind. eapply wpp_mono; [by apply put_code_ok|]. intros [e|[v' o']] w' Hr; apply wpp_ret; [done|]. exists (length mem). split; [simpl; lia|]. exists (sofar ++ [b]).
  split; [by rewrite <-app_assoc|]. split; [done|]. unfold code_bits in *. rewrite fmap_app, join_app. cbn [fmap list_fmap]. rewrite Hpath. replace (mjoin [default [] (Some p)]) with p by (symmetry; apply app_nil_r). by rewrite app_assoc.
Qed.
Lemma code_bits_app a b : code_bits t (a ++ b) = code_bits t a ++ code_bits t b.
Proof. unfold code_bits. by rewrite fmap_app, join_app. Qed.
Lemma encode_data_ok w : fd_src ≠ fd_dest → packing 0 [] 0 0 w → Forall has_code data →
  wpp (encode_data fd_src fd_dest nodes) w (λ r w', match r with inl e => e < 0 | inr (v, o) => packing (zlen data) (code_bits t data) v o w' end).
Proof using All.
  intros Hfd Hp Hall. pose proof (zlen_nonneg data) as Hnn. assert (reads_left fd_src w = S (length data)) as Ef by (destruct Hp as (? & ? & [Hs Hr _ _] & _); unfold reads_left; by rewrite Hr, Hs).
  apply wpp_bind, wpp_reads. rewrite Ef.
  apply (wpp_ploop (λ n '(v, o) w, ∃ i, 0 ≤ i ≤ zlen data ∧ Z.of_nat n = zlen data - i ∧ packing i (code_bits t (slice data 0 i)) v o w)) with (n := length data);
    [|exists 0; split; [lia|]; split; [unfold zlen; lia|exact Hp]|lia].
  clear w Hp Ef. intros n [v o] w (i & Hi & Hn & bytes & pre & Hc & Eb & Hpre & Ev & Eo). apply wpp_bind. eapply copying_read; [done|exact Hc|done|lia| |].
  { intros r b w' Hr. rewrite (proj2 (Z.leb_le r 0)), (proj2 (Z.eqb_neq r 0)) by lia. by apply wpp_ret. }
  intros w' r Hc'. destruct (Z.leb_spec r 0) as [Hle|Hgt].
  - assert (i = zlen data) as -> by lia. assert (r = 0) as Er by lia. rewrite Er in *. simpl. apply wpp_ret. rewrite Z.add_0_r in Hc'. rewrite slice_all in Eb by done. by exists bytes, pre.
  - apply wpp_bind. eapply wpp_mono; [apply (encode_buff_ok (i + r) (slice data i r) (code_bits t (slice data 0 i)) v o w')|].
    + exists bytes, pre. split_and!; done.
    + unfold slice. by apply Forall_take, Forall_drop.
    + intros [e|[v' o']] w2 Hr; apply wpp_ret; [done|]. exists (Z.to_nat (zlen data - (i + r))). split; [lia|]. exists (i + r). split; [lia|]. split; [lia|].
      rewrite <-code_bits_app in Hr. rewrite slice_app by lia. exact Hr.
Qed.
End packing.

(** ** A packed file *)

Definition packed_file (t : code_tree) (data f : list Z) : Prop :=
  ∃ bytes, f = table data ++ bytes ∧ bits_of bytes = code_bits t data ++ replicate (padding (length (code_bits t data))) false.

Lemma seqZ_snoc n : 0 ≤ n → seqZ 0 (n + 1) = seqZ 0 n ++ [n].
Proof. intros Hn. rewrite seqZ_app by lia. done. Qed.
Lemma save_ok nodes data : counts nodes (occurrences data) →
  wp (loop (S (Z.to_nat CAVAN_HUFFMAN_SYMBOLS)) (save_round nodes) (0, 0, [])) (λ r, le_bytes 2 r.1 ++ r.2 = table data).
Proof.
  intros [Hl Hv Hc]. unfold CAVAN_HUFFMAN_SYMBOLS in *. set (P := λ s, occurrences data s ≠ 0). set (f := λ s, s :: le_bytes 8 (occurrences data s)).
  apply (wp_loop (λ '(i, c, save), 0 ≤ i ≤ 256 ∧ c = zlen (filter P (seqZ 0 i)) ∧ save = mjoin (f <$> filter P (seqZ 0 i))) _ (λ '(i, _, _), Z.to_nat (256 - i))); [|by split_and!|simpl; lia].
  intros [[i c] save] (Hi & -> & ->). unfold save_round, CAVAN_HUFFMAN_SYMBOLS. destruct (Z.ltb_spec i 256).
  - apply wp_bind, wp_load; [lia|]. pose proof (occurrences_range data i). rewrite Hc by lia. assert (filter P (seqZ 0 (i + 1)) = filter P (seqZ 0 i) ++ (if 0 <? occurrences data i then [i] else [])) as E.
    { rewrite seqZ_snoc, filter_app, filter_cons by lia. f_equal. unfold P. destruct (Z.ltb_spec 0 (occurrences data i)); case_decide; done || lia. }
    destruct (Z.ltb_spec 0 (occurrences data i)); apply wp_ret; (split; [|lia]); (split; [lia|]); rewrite E.
    + rewrite zlen_app, fmap_app, join_app. split; [done|]. f_equal. unfold save_node. rewrite Hv, Hc by lia. symmetry. apply app_nil_r.
    + by rewrite app_nil_r.
  - assert (i = 256) as -> by lia. apply wp_ret. done.
Qed.

Section encode.
Context {W : Type} `{SystemLaws W} `{!Seeks W} `{!SeekLaws W}.
Context (src dest fd_src fd_dest : Z) (data : list Z).
Hypothesis Hfiles : src ≠ dest.
Hypothesis Hfds : fd_src ≠ fd_dest.
Abbreviation copying := (copying src dest fd_src fd_dest data).

Lemma copying_seek head i bytes w (Q : Z → W → Prop) : copying head i bytes w →
  (∀ r w', r ≠ 0 → Q r w') → (∀ w', copying head 0 bytes w' → Q 0 w') → wpp (sys_lseek fd_src) w Q.
Proof using All.
  intros [Hs Hr Hw Hd] Hneg HQ. eapply wpp_mono; [apply (lseek_law w fd_src src i Hr)|]. intros r w' [[A B C] [[-> Hr']|[Hr' _]]]; [|apply Hneg; lia].
  apply HQ. split; [by rewrite A|done|by rewrite C|by rewrite A].
Qed.
Lemma freq_fd_ok head bytes nodes w (Q : Z * nodes_t → W → Prop) : bytes_only data → zlen data < 2 ^ 64 → copying head 0 bytes w → counts nodes (λ _, 0) →
  (∀ r nodes' w', r < 0 → Q (r, nodes') w') → (∀ nodes' w', counts nodes' (occurrences data) → copying head (zlen data) bytes w' → Q (0, nodes') w') →
  wpp (cavan_huffman_build_freq_table_fd fd_src nodes) w Q.
Proof using All.
  intros Hb Hl Hc Hn Hneg HQ. pose proof (zlen_nonneg data) as Hnn. assert (reads_left fd_src w = S (length data)) as Ef by (destruct Hc as [Hs Hr _ _]; unfold reads_left; by rewrite Hr, Hs).
  apply wpp_bind, wpp_reads. rewrite Ef.
  apply (wpp_ploop (λ n nodes w, ∃ i, 0 ≤ i ≤ zlen data ∧ Z.of_nat n = zlen data - i ∧ copying head i bytes w ∧ counts nodes (occurrences (slice data 0 i)))) with (n := length data);
    [|exists 0; split; [lia|]; split; [unfold zlen; lia|]; done|lia].
  clear nodes w Hc Hn Ef. intros n nodes w (i & Hi & Hn & [Hs Hr Hw Hd] & Hcn). apply wpp_bind. destruct (sys_read fd_src 1024 w) as [[r b] w'] eqn:E.
  apply (wpp_eq _ _ (r, b) w'); [by rewrite E|]. destruct (read_law w fd_src 1024 src i r b w' Hr ltac:(by rewrite Hs) ltac:(lia) E) as [[A B C] [(Hneg' & _)|(-> & -> & Hr')]].
  { rewrite (proj2 (Z.leb_le r 0)) by lia. apply wpp_ret. by apply Hneg. }
  rewrite Hs in *. set (r := 1024 `min` _) in *. assert (copying head (i + r) bytes w') as Hc' by (split; [by rewrite A|done|by rewrite C|by rewrite A]).
  destruct (Z.leb_spec r 0) as [Hle|Hgt].
  - assert (i = zlen data) as -> by lia. assert (r = 0) as Er by lia. rewrite Er in *. rewrite Z.add_0_r in Hc'. apply wpp_ret. rewrite slice_all in Hcn by done. by apply HQ.
  - assert (bytes_only (slice data i r)) as Hbs by (unfold slice; by apply Forall_take, Forall_drop). pose proof (zlen_slice data i r ltac:(lia) ltac:(lia) ltac:(lia)) as Hsl.
    pose proof (zlen_slice data 0 i ltac:(lia) ltac:(lia) ltac:(lia)) as Hsi.
    destruct (proj1 (wp_ok _ _) (build_freq_table_ok (slice data i r) nodes (occurrences (slice data 0 i)) Hcn Hbs ltac:(intros s _; pose proof (occurrences_range (slice data 0 i) s); lia))) as (nodes' & En & [A' B' C']).
    apply wpp_bind. eapply wpp_lift; [exact En|]. apply wpp_ret. exists (Z.to_nat (zlen data - (i + r))). split; [lia|]. exists (i + r). split; [lia|]. split; [lia|]. split; [done|].
    split; [done|done|]. intros s Hs'. rewrite C', slice_app, occurrences_app by (done || lia). done.
Qed.
Lemma write_table_ok i nodes w (Q : Z → W → Prop) : copying [] i [] w → counts nodes (occurrences data) →
  (∀ r w', r < 0 → Q r w') → (∀ r w', 0 ≤ r → copying (table data) i [] w' → Q r w') → wpp (cavan_huffman_write_freq_table fd_dest nodes) w Q.
Proof using All.
  intros Hc Hn Hneg HQ. destruct (proj1 (wp_ok _ _) (save_ok nodes data Hn)) as ([count save] & E & Et). simpl in Et. apply wpp_bind. eapply wpp_lift; [exact E|].
  apply wpp_bind. eapply (copying_write src dest fd_src fd_dest data []); [done|exact Hc| |]. { intros r w' Hr. rewrite (proj2 (Z.ltb_lt r 0)) by done. apply wpp_ret. by apply Hneg. }
  intros w1 Hc1. change (zlen (le_bytes 2 count)) with 2. simpl (2 <? 0). cbv iota. eapply (copying_write src dest fd_src fd_dest data []); [done|exact Hc1|done|].
  intros w2 [A B C D]. apply HQ; [apply zlen_nonneg|]. split; [done|done|done|]. rewrite D, app_nil_r. simpl. done.
Qed.

Lemma padded bytes pre : (length pre < 8)%nat → pre ≠ [] → byte_bits (bits_value pre) = pre ++ replicate (padding (length (bits_of bytes ++ pre))) false.
Proof using.
  intros Hp Hne. rewrite byte_bits_value by lia. do 2 f_equal. unfold padding. rewrite length_app, length_bits_of. assert (length pre ≠ 0)%nat by (by destruct pre).
  replace (- Z.of_nat (8 * length bytes + length pre)) with (8 - Z.of_nat (length pre) + (- Z.of_nat (length bytes) - 1) * 8) by lia. rewrite Z.mod_add, Z.mod_small by lia. lia.
Qed.
Lemma padded_full bytes : padding (length (bits_of bytes)) = 0%nat.
Proof using. unfold padding. rewrite length_bits_of. replace (- Z.of_nat (8 * length bytes)) with (0 + (- Z.of_nat (length bytes)) * 8) by lia. by rewrite Z.mod_add by lia. Qed.
(** The last byte. *)
Lemma packing_end i t v o w (Q : Z → W → Prop) : packing src dest fd_src fd_dest data (table data) i (code_bits t data) v o w →
  (∀ r w', r < 0 → Q r w') → (∀ w', file w' src = data → packed_file t data (file w' dest) → Q 0 w') →
  wpp (if negb (o =? 0) then ret ← ffile_write fd_dest [v]; if ret <? 0 then mret ret else mret 0 else mret 0) w Q.
Proof using All.
  intros (bytes & pre & Hc & Eb & Hp & -> & ->) Hneg HQ. destruct (Z.eqb_spec (zlen pre) 0) as [E|E]; simpl.
  - apply wpp_ret. assert (pre = []) as -> by (destruct pre; [done|rewrite zlen_cons in E; pose proof (zlen_nonneg pre); lia]). rewrite app_nil_r in Eb. apply HQ; [apply Hc|]. exists bytes. split; [apply Hc|].
    rewrite Eb, padded_full. by rewrite app_nil_r.
  - apply wpp_bind. eapply (copying_write src dest fd_src fd_dest data (table data)); [done|exact Hc| |]. { intros r w' Hr. rewrite (proj2 (Z.ltb_lt r 0)) by done. apply wpp_ret. by apply Hneg. }
    intros w' Hc'. change (zlen [_]) with 1. simpl (1 <? 0). cbv iota. apply wpp_ret. apply HQ; [apply Hc'|]. eexists. split; [apply Hc'|]. rewrite bits_of_app, bits_of_one, Eb, <-app_assoc. f_equal. apply padded; [done|by intros ->].
Qed.
End encode.

(** ** The packer *)

Definition workspace_ok (ws : workspace) : Prop :=
  zlen (ws_nodes ws) = CAVAN_HUFFMAN_SYMBOLS ∧ zlen (ws_tree_nodes ws) = CAVAN_HUFFMAN_TREE_SIZE ∧ zlen (ws_pnodes ws) = CAVAN_HUFFMAN_TREE_SIZE ∧ zlen (ws_save ws) = SAVE_SIZE * CAVAN_HUFFMAN_SYMBOLS.
(** Data the coder is made for: two bytes that differ, and codes of 64 bits. *)
Definition packable (data : list Z) : Prop := bytes_only data ∧ zlen data < 2 ^ 45 ∧ ∃ a b, a ∈ data ∧ b ∈ data ∧ a ≠ b.

Lemma path_depth t s p : path t s = Some p → (length p ≤ code_depth t)%nat.
Proof.
  revert p. induction t as [x c|l IHl r IHr]; intros p; simpl; [case_decide; [by intros [= <-]|done]|]. destruct (path l s) as [q|]; [intros [= <-]; specialize (IHl q eq_refl); simpl; lia|].
  destruct (path r s) as [q|]; [|done]. intros [= <-]. specialize (IHr q eq_refl). simpl. lia.
Qed.
Lemma packable_tree data : packable data → occurring (occurrences data) ≠ [] ∧ ∀ t, huffman_tree (occurrences data) = Some t →
  (∃ l r, t = Fork l r) ∧ (code_depth t ≤ 64)%nat ∧ Forall (λ s, s ∈ symbols t) data ∧ NoDup (symbols t) ∧ Forall (λ s, 0 ≤ s < 256) (symbols t).
Proof.
  intros (Hb & Hl & a & b & Ha & Hb' & Hab). pose proof (proj2 (occurring_in data a Hb) Ha) as Ha'. split; [intros E; rewrite E in Ha'; by apply elem_of_nil in Ha'|]. intros t E.
  assert (∀ s, s ∈ symbols t ↔ s ∈ data) as Hs by (intros s; rewrite (huffman_symbols _ _ E); by apply occurring_in).
  split; [|split; [|split; [|by apply (huffman_nodup _ _ E)]]].
  - destruct t as [x c|l r]; [|by eauto]. apply Hs, list_elem_of_singleton in Ha as ->. apply Hs, list_elem_of_singleton in Hb' as ->. done.
  - apply (huffman_depth (occurrences data)); [intros s _; apply occurrences_range|by rewrite total_occurrences|done].
  - apply Forall_forall. intros s. by rewrite Hs.
Qed.
(** The tree of the counts of the data, in the arrays. *)
Lemma packable_build data pn tn nodes : packable data → counts nodes (occurrences data) → zlen tn = CAVAN_HUFFMAN_TREE_SIZE → zlen pn = CAVAN_HUFFMAN_TREE_SIZE →
  ∃ tn' root t, cavan_huffman_build_tree pn tn nodes = Ok (tn', root) ∧ huffman_tree (occurrences data) = Some t ∧ zlen tn' = CAVAN_HUFFMAN_TREE_SIZE ∧ represents tn' CAVAN_HUFFMAN_TREE_SIZE root t.
Proof.
  intros Hd Hn Htn Hpn. destruct (packable_tree data Hd) as [Hne _]. destruct Hd as (Hb & Hl & _).
  destruct (proj1 (wp_ok _ _) (build_tree_ok nodes (occurrences data) tn pn Hn ltac:(intros s _; apply occurrences_range) ltac:(rewrite total_occurrences by done; lia) Hne Htn Hpn)) as ([tn' root] & E & t & Et & Htn' & Hr).
  by exists tn', root, t.
Qed.

Section encode_file.
Context {W : Type} `{SystemLaws W} `{!Seeks W} `{!SeekLaws W}.

Lemma encode_ok ws src dest fd_src fd_dest data w : workspace_ok ws → packable data → src ≠ dest → fd_src ≠ fd_dest → copying src dest fd_src fd_dest data [] 0 [] w →
  wpp (cavan_huffman_encode ws fd_src fd_dest) w (λ r w', r < 0 ∨ r = 0 ∧ ∃ t, huffman_tree (occurrences data) = Some t ∧ packed_file t data (file w' dest)).
Proof using All.
  intros (Hwn & Hwt & Hwp & _) Hd Hf Hfd Hc. pose proof Hd as (Hb & Hl & _). assert (∀ r w', r < 0 → wpp (mret r : prog W Z) w' (λ r w', r < 0 ∨ r = 0 ∧ ∃ t, huffman_tree (occurrences data) = Some t ∧ packed_file t data (file w' dest))) as Hfail by (intros; apply wpp_ret; by left).
  apply wpp_bind. eapply (copying_seek src dest fd_src fd_dest data); [done|done|exact Hc| |]. { intros r w' Hr. rewrite (proj2 (Z.eqb_neq r 0)) by done. by apply Hfail. }
  intros w1 Hc1. simpl. destruct (proj1 (wp_ok _ _) (freq_table_init_ok (ws_nodes ws) Hwn)) as (nodes0 & E0 & Hn0). apply wpp_bind. eapply wpp_lift; [exact E0|].
  apply wpp_bind. eapply (freq_fd_ok src dest fd_src fd_dest data); [done|done|done|lia|exact Hc1|done| |]. { intros r nodes' w' Hr. rewrite (proj2 (Z.ltb_lt r 0)) by done. by apply Hfail. }
  intros nodes w2 Hn Hc2. simpl. destruct (packable_build data (ws_pnodes ws) (ws_tree_nodes ws) nodes Hd Hn Hwt Hwp) as (tn & root & t & Et & Ht & Htn & Hr).
  destruct (packable_tree data Hd) as [_ Hpt]. destruct (Hpt t Ht) as ((l & r & ->) & Hdepth & Hsym & Hnd & Hrange). set (t := Fork l r) in *. clear Hpt.
  apply wpp_bind. eapply wpp_lift; [exact Et|]. pose proof (represents_range _ _ _ _ Hr) as Hroot. apply wpp_bind. eapply wpp_lift; [apply load_in; by rewrite Htn|].
  assert (ht_left (get tn root) ≠ NULL) as Hleft by (destruct Hr as (_ & _ & Hr & _); apply represents_range in Hr; unfold NULL; lia). rewrite (proj2 (Z.eqb_neq _ _)) by done. simpl.
  assert (Forall (λ s, 0 ≤ s < zlen nodes) (symbols t)) as Hrange' by (rewrite (cn_length _ _ Hn); done).
  assert (code_depth t < S (length tn))%nat as Hfuel by (unfold zlen, CAVAN_HUFFMAN_TREE_SIZE, CAVAN_HUFFMAN_SYMBOLS in Htn; lia).
  destruct (proj1 (wp_ok _ _) (set_code_ok tn CAVAN_HUFFMAN_TREE_SIZE t ltac:(by rewrite Htn) Hnd (S (length tn)) root [] nodes Hr Hrange' Hfuel Hdepth)) as (nodes' & Es & [A B C D]).
  apply wpp_bind. eapply wpp_lift; [exact Es|]. apply wpp_bind. eapply (copying_seek src dest fd_src fd_dest data); [done|done|exact Hc2| |]. { intros r0 w' Hr0. rewrite (proj2 (Z.eqb_neq r0 0)) by done. by apply Hfail. }
  intros w3 Hc3. simpl. assert (counts nodes' (occurrences data)) as Hn'.
  { destruct Hn as [N1 N2 N3]. split; [by rewrite A|intros s Hs; destruct (D s ltac:(lia)) as [-> _]; by apply N2|intros s Hs; destruct (D s ltac:(lia)) as [_ ->]; by apply N3]. }
  apply wpp_bind. eapply (write_table_ok src dest fd_src fd_dest data); [done|done|exact Hc3|done| |]. { intros r0 w' Hr0. rewrite (proj2 (Z.ltb_lt r0 0)) by done. by apply Hfail. }
  intros r0 w4 Hr0 Hc4. rewrite (proj2 (Z.ltb_ge r0 0)) by done. apply wpp_bind. eapply wpp_mono; [apply (encode_data_ok src dest fd_src fd_dest data (table data) Hf nodes' t w4 Hfd)|].
  - exists [], []. split; [exact Hc4|]. split_and!; done || (simpl; lia).
  - rewrite Forall_forall in Hsym, Hrange'. apply Forall_forall. intros s Hs. split; [rewrite A; by apply Hrange', Hsym|]. destruct (proj2 (path_symbols t s) (Hsym s Hs)) as [p Hp]. exists p. split; [done|].
    split; [pose proof (path_depth t s p Hp); lia|]. by apply B.
  - intros [e|[v o]] w5 Hp; [by apply Hfail|]. eapply (packing_end src dest fd_src fd_dest data); [done|done|exact Hp| |].
    + intros r1 w' Hr1. by left.
    + intros w' _ Hpk. right. split; [done|]. by exists t.
Qed.
Lemma encode_file_ok ws p q data w : workspace_ok ws → packable data → p ≠ q → file w p = data →
  wpp (cavan_huffman_encode_file ws p q) w (λ r w', r < 0 ∨ r = 0 ∧ ∃ t, huffman_tree (occurrences data) = Some t ∧ packed_file t data (file w' q)).
Proof using All.
  intros Hws Hd Hpq Hfp. apply wpp_bind. eapply wpp_mono; [apply open_read_law|]. intros fd1 w1 Hfd1. destruct (Z.ltb_spec fd1 0); [apply wpp_ret; by left|]. destruct Hfd1 as [[? _]|(_ & _ & _ & Ho1 & Hr1)]; [lia|].
  apply wpp_bind. eapply wpp_mono; [apply open_write_law|]. intros fd2 w2 Hfd2.
  pose (Q := λ (r : Z) (f : list Z), r < 0 ∨ r = 0 ∧ ∃ t, huffman_tree (occurrences data) = Some t ∧ packed_file t data f).
  apply (wpp_then_close fd1 q _ _ Q). destruct (Z.ltb_spec fd2 0); [apply wpp_ret; by left|]. destruct Hfd2 as [[? _]|(_ & Hn2 & _ & Ho2 & Hempty & Hw2)]; [lia|].
  assert (fd1 ≠ fd2) as Hfds by congruence. apply (wpp_then_close fd2 q _ _ Q). apply (encode_ok ws p q fd1 fd2 data w2); [done|done|done|done|].
  split; [rewrite (same_files _ _ _ _ Ho2) by congruence; by rewrite (same_files _ _ _ _ Ho1)|by rewrite (same_reading _ _ _ _ Ho2)|done|done].
Qed.
End encode_file.

(** ** Unpacking *)

Lemma length_entries {A} (f : A → list Z) n l : (∀ x, length (f x) = n) → length (mjoin (f <$> l)) = (n * length l)%nat.
Proof. intros Hf. induction l as [|x l IH]; [simpl; lia|]. rewrite fmap_cons. change (mjoin (f x :: (f <$> l))) with (f x ++ mjoin (f <$> l)). rewrite length_app, Hf, IH. simpl. lia. Qed.
Lemma split_entries {A} (f : A → list Z) n l i x : (∀ x, length (f x) = n) → l !! i = Some x →
  ∃ a b, mjoin (f <$> l) = a ++ f x ++ b ∧ length a = (n * i)%nat.
Proof.
  intros Hf Hx. exists (mjoin (f <$> take i l)), (mjoin (f <$> drop (S i) l)). split.
  - rewrite <-(take_drop_middle l i x Hx) at 1. rewrite fmap_app, join_app. done.
  - rewrite (length_entries f n) by done. rewrite length_take. apply lookup_lt_Some in Hx. lia.
Qed.
Lemma load_entry (save : list Z) (f : Z → list Z) l i x (rest : list Z) : (∀ x, ∃ c, f x = x :: c ∧ length c = 8%nat) → l !! i = Some x → save = mjoin (f <$> l) ++ rest →
  load save (SAVE_SIZE * Z.of_nat i) = Ok x ∧ window save (SAVE_SIZE * Z.of_nat i + 1) 8 = Ok (tail (f x)).
Proof.
  intros Hf Hx ->. destruct (split_entries f 9 l i x) as (a & b & -> & Ha); [intros y; destruct (Hf y) as (c & -> & Hc); simpl; lia|done|].
  destruct (Hf x) as (c & -> & Hc). unfold SAVE_SIZE. rewrite <-!app_assoc. simpl. pose proof (zlen_nonneg b). pose proof (zlen_nonneg rest). assert (zlen a = 9 * Z.of_nat i) as Ha' by (unfold zlen; lia).
  assert (zlen c = 8) as Hc' by (unfold zlen; lia). split.
  - rewrite load_in by (rewrite zlen_app, zlen_cons, !zlen_app; lia). f_equal. rewrite get_app_r by lia. rewrite Ha', Z.sub_diag. done.
  - rewrite window_in by (rewrite ?zlen_app, ?zlen_cons, ?zlen_app; lia). f_equal. unfold slice. rewrite <-Ha'. replace (Z.to_nat (zlen a + 1)) with (length (a ++ [x])) by (rewrite length_app; unfold zlen; simpl; lia).
    replace (a ++ x :: c ++ b ++ rest) with ((a ++ [x]) ++ c ++ b ++ rest) by (by rewrite <-app_assoc). rewrite drop_app_length. replace (Z.to_nat 8) with (length c) by (by rewrite Hc). by rewrite take_app_length.
Qed.

Definition partial (data : list Z) (l : list Z) (s : Z) : Z := if decide (s ∈ l) then occurrences data s else 0.
Lemma load_table_ok data save rest nodes : bytes_only data → zlen data < 2 ^ 64 → let l := occurring (occurrences data) in
  save = mjoin ((λ s, s :: le_bytes 8 (occurrences data s)) <$> l) ++ rest → counts nodes (λ _, 0) →
  wp (loop (S (Z.to_nat (zlen l))) (load_round save (zlen l)) (0, nodes)) (λ nodes', counts nodes' (occurrences data)).
Proof.
  intros Hb Hl l Es Hn.
  apply (wp_loop_n (λ n '(i, nodes), ∃ k, i = Z.of_nat k ∧ (k ≤ length l)%nat ∧ n = (length l - k)%nat ∧ counts nodes (partial data (take k l)))) with (n := length l);
    [|exists 0%nat; split_and!; [done|lia|lia|]; destruct Hn as [A B C]; split; [done|done|]; intros s Hs; rewrite C by done; unfold partial; by rewrite decide_False by apply not_elem_of_nil|unfold zlen; lia].
  clear nodes Hn. intros n [i nodes] (k & -> & Hk & -> & [A B C]). unfold load_round. unfold zlen at 1. destruct (Z.ltb_spec (Z.of_nat k) (Z.of_nat (length l))) as [Hlt|Hge].
  - destruct (lookup_lt_is_Some_2 l k) as [x Hx]; [lia|]. destruct (load_entry save (λ s, s :: le_bytes 8 (occurrences data s)) l k x rest) as [E1 E2]; [intros y; by exists (le_bytes 8 (occurrences data y))|done|done|].
    rewrite E1, E2. apply wp_bind, wp_ret, wp_bind, wp_ret. assert (x ∈ l) as Hin by (apply list_elem_of_lookup; eauto). assert (0 ≤ x < 256) as Hxr.
    { unfold l, occurring in Hin. apply list_elem_of_filter in Hin as [_ Hin%elem_of_seqZ]. lia. }
    unfold CAVAN_HUFFMAN_SYMBOLS in *. rewrite modify_in by lia. apply wp_bind, wp_ret, wp_ret. exists (length l - S k)%nat. split; [lia|]. exists (S k). split; [lia|]. split; [lia|]. split; [done|].
    pose proof (occurrences_range data x). split; unfold CAVAN_HUFFMAN_SYMBOLS; [by rewrite zlen_upd| |]; intros s Hs; rewrite get_upd by lia; case_decide as E; [subst; by apply B|by apply B| |].
    + subst s. cbn [tail hn_count]. rewrite le_word_bytes by lia. unfold partial. rewrite decide_True; [done|]. rewrite (take_S_r l k x) by done. set_solver.
    + rewrite C by done. unfold partial. rewrite (take_S_r l k x) by done. destruct (decide (s ∈ take k l)) as [Hi|Hi]; [rewrite decide_True by set_solver; done|rewrite decide_False by set_solver; done].
  - apply wp_ret. rewrite take_ge in C by lia. split; [done|done|]. intros s Hs. rewrite C by done. unfold partial. case_decide as E; [done|]. unfold l in E. rewrite occurring_in, occurrences_in in E by done. lia.
Qed.

Section decode.
Context {W : Type} `{SystemLaws W} `{!Seeks W} `{!SeekLaws W}.
Context (src dest fd_src fd_dest : Z) (f : list Z).
Hypothesis Hfiles : src ≠ dest.
Hypothesis Hfds : fd_src ≠ fd_dest.
Abbreviation copying := (copying src dest fd_src fd_dest f []).
Context (tn : tree_t) (nodes : nodes_t) (count : Z → Z) (t : code_tree) (top : Z).
Hypothesis Hnodes : counts nodes count.
Hypothesis Htn : zlen tn = CAVAN_HUFFMAN_TREE_SIZE.
Hypothesis Htop : represents tn CAVAN_HUFFMAN_TREE_SIZE top t.

(** Node [p] is the fork [cur] of the tree. *)
Definition at_fork (p : Z) (cur : code_tree) : Prop :=
  represents tn CAVAN_HUFFMAN_TREE_SIZE p cur ∧ Forall (λ s, 0 ≤ s < 256) (symbols cur) ∧ ∃ l r, cur = Fork l r.
Hypothesis Hfork : at_fork top t.

Lemma decode_bit_ok i out p cur value k w : at_fork p cur → copying i out w → (k < 8)%nat →
  wpp (decode_round fd_dest tn nodes top value (Z.of_nat k, p)) w (λ r w', match r with
    | inl (o, p') => o = Z.of_nat (S k) ∧ let '(x, cur') := walk_bit t cur (Z.testbit value (Z.of_nat k)) in at_fork p' cur' ∧ copying i (out ++ x) w'
    | inr (inl e) => e < 0 | inr (inr _) => False end).
Proof using All.
  intros (Hp & Hs & l & r & ->) Hc Hk. pose proof (represents_range _ _ _ _ Hp) as Hrange. unfold decode_round. rewrite (proj2 (Z.ltb_lt _ 8)) by lia. apply wpp_bind. eapply wpp_lift; [apply load_in; by rewrite Htn|].
  rewrite land_bit, negb_involutive by lia. destruct Hp as (_ & _ & Hl & Hr). simpl in Hs. apply Forall_app in Hs as [Hsl Hsr]. set (b := Z.testbit value (Z.of_nat k)).
  set (n := if b then r else l). assert (represents tn CAVAN_HUFFMAN_TREE_SIZE (if b then ht_right (get tn p) else ht_left (get tn p)) n) as Hn by (unfold n; by destruct b).
  assert (Forall (λ s, 0 ≤ s < 256) (symbols n)) as Hsn by (unfold n; by destruct b). set (node := if b then _ else _) in *. cbv zeta. pose proof (represents_range _ _ _ _ Hn) as Hnr.
  apply wpp_bind. eapply wpp_lift; [apply load_in; by rewrite Htn|]. simpl. fold n. destruct n as [s c|l' r'] eqn:En.
  - destruct Hn as (_ & _ & -> & _ & -> & ->). simpl. apply Forall_cons in Hsn as [Hs _]. destruct Hnodes as [A B _]. unfold CAVAN_HUFFMAN_SYMBOLS in *. apply wpp_bind. eapply wpp_lift; [apply load_in; lia|]. rewrite B by done.
    apply wpp_bind. eapply (copying_write src dest fd_src fd_dest f []); [done|exact Hc| |]. { intros e w' He. rewrite (proj2 (Z.ltb_lt e 0)) by done. by apply wpp_ret. }
    intros w' Hc'. change (zlen [_]) with 1. simpl (1 <? 0). cbv iota. apply wpp_ret. split; [lia|]. simpl. change (if b then r else l) with n. rewrite En. split; [done|done].
  - destruct Hn as (Hn0 & Hn1 & Hn2 & Hn3). pose proof (represents_range _ _ _ _ Hn2). unfold NULL. rewrite (proj2 (Z.eqb_neq _ _)) by lia. simpl. apply wpp_ret. split; [lia|]. simpl. change (if b then r else l) with n. rewrite En. split; [|by rewrite app_nil_r].
    split; [exact (conj Hn0 (conj Hn1 (conj Hn2 Hn3)))|]. split; [done|]. by exists l', r'.
Qed.
Lemma walk_snoc cur bs b : walk t cur (bs ++ [b]) = let '(o, c) := walk t cur bs in let '(o', c') := walk_bit t c b in (o ++ o', c').
Proof using. rewrite walk_app. destruct (walk t cur bs) as [o c]. simpl. destruct (walk_bit t c b) as [o' c']. by rewrite app_nil_r. Qed.
Lemma decode_byte_ok i out p cur value w : at_fork p cur → copying i out w →
  wpp (ploop 9 (decode_round fd_dest tn nodes top value) (0, p)) w (λ r w', match r with
    | inl e => e < 0 | inr p' => let '(x, cur') := walk t cur (byte_bits value) in at_fork p' cur' ∧ copying i (out ++ x) w' end).
Proof using All.
  intros Hp Hc. apply (wpp_ploop (λ n '(o, p) w, ∃ k, o = Z.of_nat k ∧ (k ≤ 8)%nat ∧ n = (8 - k)%nat ∧ let '(x, cur') := walk t cur (take k (byte_bits value)) in at_fork p cur' ∧ copying i (out ++ x) w)) with (n := 8%nat);
    [|exists 0%nat; split_and!; [done|lia|done|]; simpl; rewrite app_nil_r; by split|lia].
  clear p w Hp Hc. intros n [o p] w (k & -> & Hk & -> & Hw). destruct (walk t cur (take k (byte_bits value))) as [x cur'] eqn:Ew. destruct Hw as [Hp Hc].
  destruct (decide (k = 8%nat)) as [->|Hk8].
  - unfold decode_round. change (Z.of_nat 8 <? 8) with false. cbv iota. apply wpp_ret. rewrite take_ge in Ew by done. rewrite Ew. by split.
  - eapply wpp_mono; [apply (decode_bit_ok i (out ++ x) p cur' value k); [done|done|lia]|]. intros [[o' p']|[e|?]] w'; [|done|done]. intros [-> Hb].
    exists (7 - k)%nat. split; [lia|]. exists (S k). split; [done|]. split; [lia|]. split; [lia|]. rewrite (take_S_r _ k (Z.testbit value (Z.of_nat k))) by (apply byte_bits_lookup; lia). rewrite walk_snoc, Ew.
    destruct (walk_bit t cur' _) as [y cur'']. by rewrite app_assoc.
Qed.
Lemma decode_buff_ok i buff : ∀ out p cur w, at_fork p cur → copying i out w →
  wpp (decode_buff fd_dest tn nodes top buff p) w (λ r w', match r with
    | inl e => e < 0 | inr p' => let '(x, cur') := walk t cur (bits_of buff) in at_fork p' cur' ∧ copying i (out ++ x) w' end).
Proof using All.
  intros out p cur w Hp Hc.
  apply (wpp_ploop (λ n '(mem, p) w, ∃ sofar, buff = sofar ++ mem ∧ n = length mem ∧ let '(x, cur') := walk t cur (bits_of sofar) in at_fork p cur' ∧ copying i (out ++ x) w)) with (n := length buff);
    [|exists []; split; [done|]; split; [done|]; simpl; rewrite app_nil_r; by split|lia].
  clear p w Hp Hc. intros n [mem p] w (sofar & -> & -> & Hw). destruct (walk t cur (bits_of sofar)) as [x cur'] eqn:Ew. destruct Hw as [Hp Hc]. destruct mem as [|value mem].
  - apply wpp_ret. rewrite app_nil_r, Ew. by split.
  - apply wpp_bind. eapply wpp_mono; [by apply decode_byte_ok|]. intros [e|p'] w' Hr; apply wpp_ret; [done|]. exists (length mem). split; [simpl; lia|]. exists (sofar ++ [value]). split; [by rewrite <-app_assoc|]. split; [done|].
    rewrite bits_of_app, bits_of_one, walk_app, Ew. destruct (walk t cur' (byte_bits value)) as [y cur'']. by rewrite app_assoc.
Qed.
Lemma decode_data_ok h w : 0 ≤ h ≤ zlen f → copying h [] w →
  wpp (decode_data fd_src fd_dest tn nodes top) w (λ r w', r < 0 ∨ r = 0 ∧ file w' dest = (walk t t (bits_of (drop (Z.to_nat h) f))).1).
Proof using All.
  intros Hh Hc. assert (reads_left fd_src w = S (length f)) as Ef by (destruct Hc as [Hs Hr _ _]; unfold reads_left; by rewrite Hr, Hs). apply wpp_bind, wpp_reads. rewrite Ef.
  apply (wpp_ploop (λ n p w, ∃ i, h ≤ i ≤ zlen f ∧ Z.of_nat n = zlen f - i ∧ let '(x, cur) := walk t t (bits_of (slice f h (i - h))) in at_fork p cur ∧ copying i x w)) with (n := Z.to_nat (zlen f - h));
    [|exists h; split; [lia|]; split; [lia|]; rewrite Z.sub_diag; by split|unfold zlen; lia].
  clear w Hc Ef. intros n p w (i & Hi & Hn & Hw). destruct (walk t t (bits_of (slice f h (i - h)))) as [x cur] eqn:Ew. destruct Hw as [Hp Hc].
  apply wpp_bind. eapply (copying_read src dest fd_src fd_dest f []); [done|done|exact Hc|lia|lia| |]. { intros r b w' Hr. rewrite (proj2 (Z.leb_le r 0)), (proj2 (Z.eqb_neq r 0)) by lia. apply wpp_ret. by left. }
  intros w' r Hc'. destruct (Z.leb_spec r 0) as [Hle|Hgt].
  - assert (i = zlen f) as -> by lia. assert (r = 0) as -> by lia. simpl. apply wpp_ret. right. split; [done|]. assert (slice f h (zlen f - h) = drop (Z.to_nat h) f) as E.
    { unfold slice. apply take_ge. rewrite length_drop. unfold zlen. lia. } rewrite E in Ew. rewrite Ew. apply Hc'.
  - apply wpp_bind. eapply wpp_mono; [by apply (decode_buff_ok (i + r) (slice f i r) x p cur)|]. intros [e|p'] w2 Hr; apply wpp_ret; [by left|].
    exists (Z.to_nat (zlen f - (i + r))). split; [lia|]. exists (i + r). split; [lia|]. split; [lia|]. replace (i + r - h) with ((i - h) + r) by lia. rewrite slice_app, bits_of_app, walk_app, Ew by lia.
    replace (h + (i - h)) with i by lia. destruct (walk t cur (bits_of (slice f i r))) as [y cur']. exact Hr.
Qed.
End decode.

Section decode_file.
Context {W : Type} `{SystemLaws W} `{!Seeks W} `{!SeekLaws W}.

Lemma symbols_few count : zlen (occurring count) ≤ 256.
Proof using. unfold occurring, zlen. pose proof (length_filter (λ s, count s ≠ 0) (seqZ 0 256)) as Hl. rewrite length_seqZ in Hl. lia. Qed.
Lemma read_table_ok src dest fd_src fd_dest data bytes save nodes w (Q : Z * nodes_t → W → Prop) : src ≠ dest → fd_src ≠ fd_dest → bytes_only data → zlen data < 2 ^ 64 → zlen save = SAVE_SIZE * CAVAN_HUFFMAN_SYMBOLS →
  counts nodes (λ _, 0) → let f := table data ++ bytes in copying src dest fd_src fd_dest f [] 0 [] w →
  (∀ r nodes' w', r < 0 → Q (r, nodes') w') → (∀ nodes' w', counts nodes' (occurrences data) → copying src dest fd_src fd_dest f [] (zlen (table data)) [] w' → Q (0, nodes') w') →
  wpp (cavan_huffman_read_freq_table save fd_src nodes) w Q.
Proof using All.
  intros Hf Hfd Hb Hl Hsave Hn f Hc Hneg HQ. set (syms := occurring (occurrences data)). set (entries := mjoin ((λ s, s :: le_bytes 8 (occurrences data s)) <$> syms)).
  assert (table data = le_bytes 2 (zlen syms) ++ entries) as Et by done. assert (zlen entries = 9 * zlen syms) as He.
  { unfold zlen, entries. rewrite (length_entries _ 9) by done. lia. }
  pose proof (symbols_few (occurrences data)) as Hfew. fold syms in Hfew. pose proof (zlen_nonneg syms). pose proof (zlen_nonneg bytes). unfold SAVE_SIZE, CAVAN_HUFFMAN_SYMBOLS in *.
  assert (zlen f = 2 + 9 * zlen syms + zlen bytes) as Hlf by (unfold f; rewrite zlen_app, Et, zlen_app, He; change (zlen (le_bytes 2 _)) with 2; lia).
  assert (zlen (table data) = 2 + 9 * zlen syms) as Hlt by (rewrite Et, zlen_app, He; change (zlen (le_bytes 2 _)) with 2; lia).
  apply wpp_bind. eapply (copying_read src dest fd_src fd_dest f []); [done|done|exact Hc|lia|lia| |]. { intros r b w' Hr. rewrite (proj2 (Z.ltb_lt r 0)) by done. apply wpp_ret. by apply Hneg. }
  intros w1. rewrite Z.min_l by lia. intros r Hc1. subst r. change (2 <? 0) with false. cbv iota zeta. change SAVE_SIZE with 9.
  assert (slice f 0 2 = le_bytes 2 (zlen syms)) as -> by (unfold f; rewrite Et, <-app_assoc; done). rewrite le_word_bytes by (simpl; lia).
  apply wpp_bind. eapply (copying_read src dest fd_src fd_dest f []); [done|done|exact Hc1|lia|lia| |]. { intros r b w' Hr. rewrite (proj2 (Z.ltb_lt r 0)) by done. apply wpp_ret. by apply Hneg. }
  intros w2. rewrite Z.min_l by lia. intros r Hc2. subst r. rewrite (proj2 (Z.ltb_ge _ 0)) by lia.
  assert (slice f (0 + 2) (9 * zlen syms) = entries) as ->.
  { unfold f. rewrite Et, <-app_assoc. unfold slice. change (Z.to_nat (0 + 2)) with (length (le_bytes 2 (zlen syms))). rewrite drop_app_length. replace (Z.to_nat (9 * zlen syms)) with (length entries) by (unfold zlen in *; lia). apply take_app_length. }
  apply wpp_bind. eapply wpp_lift; [apply memcpy_in; lia|]. unfold blit. simpl (take (Z.to_nat 0) save). rewrite app_nil_l, slice_all by done.
  destruct (proj1 (wp_ok _ _) (load_table_ok data (entries ++ drop (Z.to_nat (0 + 9 * zlen syms)) save) _ nodes Hb Hl eq_refl Hn)) as (nodes' & En & Hn'). apply wpp_bind. eapply wpp_lift; [exact En|]. apply wpp_ret. apply HQ; [done|]. rewrite Hlt. exact Hc2.
Qed.
Lemma decode_ok ws src dest fd_src fd_dest data t w : workspace_ok ws → packable data → src ≠ dest → fd_src ≠ fd_dest → huffman_tree (occurrences data) = Some t → packed_file t data (file w src) →
  copying src dest fd_src fd_dest (file w src) [] 0 [] w →
  wpp (cavan_huffman_decode ws fd_src fd_dest) w (λ r w', r < 0 ∨ r = 0 ∧ file w' dest = data ++ padding_symbols data).
Proof using All.
  intros (Hwn & Hwt & Hwp & Hws) Hd Hf Hfd Ht (bytes & Ef & Hbits) Hc. rewrite Ef in Hc. pose proof Hd as (Hb & Hl & _).
  apply wpp_bind. eapply (copying_seek src dest fd_src fd_dest _ Hf Hfd []); [exact Hc| |]. { intros r w' Hr. rewrite (proj2 (Z.eqb_neq r 0)) by done. apply wpp_ret. by left. }
  intros w1 Hc1. simpl. destruct (proj1 (wp_ok _ _) (freq_table_init_ok (ws_nodes ws) Hwn)) as (nodes0 & E0 & Hn0). apply wpp_bind. eapply wpp_lift; [exact E0|].
  apply wpp_bind. eapply (read_table_ok src dest fd_src fd_dest data bytes); [done|done|done|lia|done|done|exact Hc1| |]. { intros r nodes' w' Hr. rewrite (proj2 (Z.ltb_lt r 0)) by done. apply wpp_ret. by left. }
  intros nodes w2 Hn Hc2. simpl. destruct (packable_build data (ws_pnodes ws) (ws_tree_nodes ws) nodes Hd Hn Hwt Hwp) as (tn & root & t' & Eb & Ht' & Htn & Hr). rewrite Ht in Ht'. injection Ht' as <-.
  destruct (packable_tree data Hd) as [_ Hpt]. destruct (Hpt t Ht) as ((l & r & ->) & _ & Hsym & _ & Hrange). clear Hpt.
  apply wpp_bind. eapply wpp_lift; [exact Eb|].
  assert (at_fork tn root (Fork l r)) as Hfork by (split; [done|]; split; [done|]; by exists l, r).
  eapply wpp_mono; [eapply (decode_data_ok src dest fd_src fd_dest _ Hf Hfd tn nodes (occurrences data) (Fork l r) root Hn Htn Hr Hfork (zlen (table data))); [|exact Hc2]|].
  - rewrite zlen_app. pose proof (zlen_nonneg bytes). pose proof (zlen_nonneg (table data)). lia.
  - intros x w' [?|[-> E]]; [by left|]. right. split; [done|]. rewrite E. replace (Z.to_nat (zlen (table data))) with (length (table data)) by (unfold zlen; lia). rewrite drop_app_length, Hbits, walk_app, walk_codes by done.
    pose proof (walk_zeros l r (padding (length (code_bits (Fork l r) data)))) as Hz. destruct (walk _ _ (replicate _ _)) as [o c]. simpl in Hz. simpl. subst o. unfold padding_symbols. by rewrite Ht.
Qed.
Lemma decode_file_ok ws p q data t w : workspace_ok ws → packable data → p ≠ q → huffman_tree (occurrences data) = Some t → packed_file t data (file w p) →
  wpp (cavan_huffman_decode_file ws p q) w (λ r w', r < 0 ∨ r = 0 ∧ file w' q = data ++ padding_symbols data).
Proof using All.
  intros Hws Hd Hpq Ht Hp. apply wpp_bind. eapply wpp_mono; [apply open_read_law|]. intros fd1 w1 Hfd1. destruct (Z.ltb_spec fd1 0); [apply wpp_ret; by left|]. destruct Hfd1 as [[? _]|(_ & _ & _ & Ho1 & Hr1)]; [lia|].
  apply wpp_bind. eapply wpp_mono; [apply open_write_law|]. intros fd2 w2 Hfd2.
  pose (Q := λ (r : Z) (f : list Z), r < 0 ∨ r = 0 ∧ f = data ++ padding_symbols data).
  apply (wpp_then_close fd1 q _ _ Q). destruct (Z.ltb_spec fd2 0); [apply wpp_ret; by left|]. destruct Hfd2 as [[? _]|(_ & Hn2 & _ & Ho2 & Hempty & Hw2)]; [lia|].
  assert (fd1 ≠ fd2) as Hfds by congruence. assert (file w2 p = file w p) as Efp by (rewrite (same_files _ _ _ _ Ho2) by congruence; by rewrite (same_files _ _ _ _ Ho1)).
  apply (wpp_then_close fd2 q _ _ Q). apply (decode_ok ws p q fd1 fd2 data t w2); [done|done|done|done|done|by rewrite Efp|].
  split; [done|by rewrite (same_reading _ _ _ _ Ho2)|done|done].
Qed.

(** ** Properties *)

(** C27: unpacking what was packed gives the data back, and after it a few
    symbols that the filling of the last byte is read as: when
    [cavan_huffman_encode_file] reports success and then
    [cavan_huffman_decode_file], the second file is the data followed by the
    symbol whose code is all zeros, as many times as its code fits into the zero
    bits of the last byte; nothing follows when it does not fit.  For every
    system that keeps files as POSIX says, whatever the arrays on the stack hold
    at first.  A file is not packed or unpacked into itself.  The data has two bytes that differ (a tree of one leaf has no
    child to go to) and is shorter than 2^45 bytes (so that no code is longer
    than 64 bits). *)
Theorem cavan_huffman_round_trip ws ws' p q r data w : workspace_ok ws → workspace_ok ws' → packable data → p ≠ q → q ≠ r → file w p = data →
  wpp (e ← cavan_huffman_encode_file ws p q; if e <? 0 then mret None else d ← cavan_huffman_decode_file ws' q r; mret (Some d)) w
    (λ d w', match d with Some d => d < 0 ∨ d = 0 ∧ file w' r = data ++ padding_symbols data | None => True end).
Proof using All.
  intros Hws Hws' Hd Hpq Hqr Hf. apply wpp_bind. eapply wpp_mono; [by apply (encode_file_ok ws p q data)|]. intros e w1 He. destruct (Z.ltb_spec e 0); [by apply wpp_ret|]. destruct He as [|(_ & t & Ht & Hp)]; [lia|].
  apply wpp_bind. eapply wpp_mono; [by apply (decode_file_ok ws' q r data t)|]. intros d w2 Hd2. by apply wpp_ret.
Qed.
End decode_file.

(** ** A system *)

#[export] Instance disk_seeks : Seeks disk := {
  sys_lseek fd w :=
    match descriptor_at w fd with
    | Reading p _ => Ok (0, {| files := files w; opened := set_descriptor w fd (Reading p 0); calls := calls w |})
    | _ => Ok (-1, w)
    end }.
#[export] Instance disk_seek_laws : SeekLaws disk.
Proof.
  split. intros w fd p i. unfold wpp. cbn. destruct (descriptor_at w fd) as [|p' i'|] eqn:Ed; try done. intros [= -> ->]. cbn. split.
  - split; intros; cbn; try done; by rewrite descriptor_at_set.
  - left. by rewrite descriptor_at_set_eq by (by rewrite Ed).
Qed.
Definition stack_of (junk : Z) : workspace :=
  mk_workspace (repeat (mk_huffman_node junk junk junk junk) 256) (repeat (mk_huffman_tree_node junk junk junk junk) 512) (repeat junk 512) (repeat junk 2304).
Lemma stack_of_ok junk : workspace_ok (stack_of junk).
Proof. unfold workspace_ok, stack_of, zlen. cbn [ws_nodes ws_tree_nodes ws_pnodes ws_save]. rewrite !repeat_length. done. Qed.

Lemma cavan_huffman_round_trip_witness :
  let data := [97; 98; 97; 99; 97; 97] in let w := {| files := {[1 := data]}; opened := []; calls := 1 |} in
  wpp (e ← cavan_huffman_encode_file (stack_of 7) 1 2; if e <? 0 then mret None else d ← cavan_huffman_decode_file (stack_of (-9)) 2 3; mret (Some d)) w
    (λ d w', match d with Some d => d < 0 ∨ d = 0 ∧ file w' 3 = data ++ padding_symbols data | None => True end).
Proof.
  intros data w. apply (cavan_huffman_round_trip (stack_of 7) (stack_of (-9)) 1 2 3 data w); [apply stack_of_ok|apply stack_of_ok| |lia|lia|reflexivity].
  split; [apply (bool_decide_eq_true_1 _); vm_compute; reflexivity|]. split; [vm_compute; reflexivity|]. exists 97, 98. split; [apply (bool_decide_eq_true_1 _); vm_compute; reflexivity|]. split; [apply (bool_decide_eq_true_1 _); vm_compute; reflexivity|lia].
Defined.

(** ** Runs *)

(** What packing and unpacking a file answer, and the file that is made. *)
Definition packed_and_back (junk : Z) (data : list Z) : cres (option Z * list Z) :=
  '(d, w) ← (e ← cavan_huffman_encode_file (stack_of junk) 1 2; if e <? 0 then mret None else d ← cavan_huffman_decode_file (stack_of junk) 2 3; mret (Some d))
    {| files := {[1 := data]}; opened := []; calls := 1 |};
  mret (d, disk_file w 3).
(** Two bytes become eight: the length of the data is not kept. *)
Example two_bytes_become_eight : packed_and_back 7 [97; 98] = Ok (Some 0, [97; 98; 98; 98; 98; 98; 98; 98]).
Proof. vm_compute. reflexivity. Qed.
(** A tree of one leaf is left through NULL. *)
Example one_symbol_crashes : packed_and_back 7 [97; 97] = Undef.
Proof. vm_compute. reflexivity. Qed.
(** Without a symbol the root is what the array of pointers happens to hold. *)
Example empty_file_crashes : packed_and_back (-7) [] = Undef.
Proof. vm_compute. reflexivity. Qed.
