(* ===== verification/HuffmanOptimal.v ===== *)
(** HuffmanOptimal: the tree of src/lib/codec.c is one of the best.

    The codes of a tree spell the data in as many bits as the weights of its
    forks add up to; the two lightest leaves may be taken for siblings at the
    greatest depth, and so merging the two lightest trees loses nothing. *)
From S2P Require Import Prelude Huffman HuffmanFile.

#[local] Opaque by_count.

(** ** The leaves of a tree *)

(** The counts of the leaves and their depths, from left to right. *)
Fixpoint leaf_counts (t : code_tree) : list Z := match t with Leaf _ c => [c] | Fork l r => leaf_counts l ++ leaf_counts r end.
Fixpoint leaf_depths (t : code_tree) : list nat := match t with Leaf _ _ => [0%nat] | Fork l r => S <$> (leaf_depths l ++ leaf_depths r) end.
(** The bits that all the codes take. *)
Fixpoint cost (t : code_tree) : Z := match t with Leaf _ _ => 0 | Fork l r => cost l + cost r + weight l + weight r end.
Definition weigh (cs : list Z) (ds : list nat) : Z := foldr (λ x n, x.1 * Z.of_nat x.2 + n) 0 (zip cs ds).

Lemma length_leaves t : length (leaf_counts t) = length (leaf_depths t).
Proof. induction t as [s c|l IHl r IHr]; simpl; [done|]. rewrite length_fmap, !length_app. lia. Qed.
Lemma weigh_cons x cs d ds : weigh (x :: cs) (d :: ds) = x * Z.of_nat d + weigh cs ds.
Proof. done. Qed.
Lemma weigh_app a b ds es : length a = length ds → weigh (a ++ b) (ds ++ es) = weigh a ds + weigh b es.
Proof.
  unfold weigh. revert ds. induction a as [|x a IH]; intros [|d ds] Hl; simpl in *; try lia. rewrite IH by lia. lia.
Qed.
Lemma weigh_deeper cs ds : length cs = length ds → weigh cs (S <$> ds) = weigh cs ds + foldr Z.add 0 cs.
Proof. unfold weigh. revert ds. induction cs as [|c cs IH]; intros [|d ds] Hl; simpl in *; try lia. rewrite IH by lia. lia. Qed.
Lemma sum_app (a b : list Z) : foldr Z.add 0 (a ++ b) = foldr Z.add 0 a + foldr Z.add 0 b.
Proof. induction a as [|x a IH]; simpl; lia. Qed.
Lemma sum_perm (a b : list Z) : a ≡ₚ b → foldr Z.add 0 a = foldr Z.add 0 b.
Proof. induction 1; simpl; lia. Qed.
Lemma leaf_counts_pos t : (0 < length (leaf_counts t))%nat.
Proof. induction t; simpl; [lia|]. rewrite length_app. lia. Qed.
Lemma weight_counts t : weight t = foldr Z.add 0 (leaf_counts t).
Proof. induction t as [s c|l IHl r IHr]; simpl; [lia|]. by rewrite IHl, IHr, sum_app. Qed.
Lemma cost_weigh t : cost t = weigh (leaf_counts t) (leaf_depths t).
Proof.
  induction t as [s c|l IHl r IHr]; [unfold weigh; simpl; lia|]. cbn [cost leaf_counts leaf_depths]. pose proof (length_leaves l). pose proof (length_leaves r).
  rewrite weigh_deeper by (rewrite !length_app; lia). rewrite weigh_app by done. rewrite IHl, IHr, (weight_counts l), (weight_counts r), sum_app. lia.
Qed.
(** Other counts at the same places. *)
Lemma relabel t cs : length cs = length (leaf_depths t) → ∃ t', leaf_counts t' = cs ∧ leaf_depths t' = leaf_depths t.
Proof.
  revert cs. induction t as [s c|l IHl r IHr]; intros cs Hl; simpl in Hl.
  - destruct cs as [|x [|y cs]]; try done. by exists (Leaf s x).
  - rewrite length_fmap, length_app in Hl. destruct (IHl (take (length (leaf_depths l)) cs)) as (l' & El & Dl); [rewrite length_take; lia|].
    destruct (IHr (drop (length (leaf_depths l)) cs)) as (r' & Er & Dr); [rewrite length_drop; lia|]. exists (Fork l' r'). simpl. by rewrite El, Er, Dl, Dr, take_drop.
Qed.

Lemma leaf_depths_le t : Forall (λ d, (d ≤ code_depth t)%nat) (leaf_depths t).
Proof.
  induction t as [s c|l IHl r IHr]; simpl; [by constructor|]. apply Forall_fmap, Forall_app. split; eapply Forall_impl; [exact IHl| |exact IHr|]; intros d Hd; simpl in *; lia.
Qed.
(** Two siblings at the greatest depth, and the tree without them. *)
Lemma deepest_pair l r : ∃ a b m t', leaf_depths (Fork l r) = a ++ S m :: S m :: b ∧ code_depth (Fork l r) = S m ∧ leaf_depths t' = a ++ m :: b.
Proof.
  assert (∀ t, (∃ l r, t = Fork l r) → ∃ a b m t', leaf_depths t = a ++ S m :: S m :: b ∧ code_depth t = S m ∧ leaf_depths t' = a ++ m :: b) as H; [|apply H; eauto].
  clear l r. intros t. induction t as [s c|l IHl r IHr]; intros (l0 & r0 & E); [done|]. clear l0 r0 E. destruct (decide (code_depth r ≤ code_depth l)%nat) as [Hd|Hd].
  - destruct l as [s c|l1 l2].
    + destruct r as [s' c'|r1 r2]; [|simpl in Hd; lia]. exists [], [], 0%nat, (Leaf s c). by split_and!.
    + destruct IHl as (a & b & m & t' & El & Em & Et); [by eauto|]. exists (S <$> a), ((S <$> b) ++ (S <$> leaf_depths r)), (S m), (Fork t' r).
      cbn [leaf_depths] in El |- *. cbn [code_depth] in *. rewrite El, Et. rewrite !fmap_app, !fmap_cons, <-!app_assoc. split; [done|]. split; [lia|done].
  - destruct r as [s c|r1 r2]; [simpl in Hd; lia|]. destruct IHr as (a & b & m & t' & El & Em & Et); [by eauto|]. exists ((S <$> leaf_depths l) ++ (S <$> a)), (S <$> b), (S m), (Fork l t').
    cbn [leaf_depths] in El |- *. cbn [code_depth] in *. rewrite El, Et. rewrite !fmap_app, !fmap_cons, <-!app_assoc. split; [done|]. split; [lia|done].
Qed.

(** ** The exchange *)

(** A lightest count moves to depth [m], where [x] was. *)
Lemma pull_lightest x a m (cs R : list Z) (ds : list nat) : length cs = length ds → Forall (λ d, (d ≤ m)%nat) ds → x :: cs ≡ₚ a :: R → a ≤ x →
  ∃ cs', length cs' = length ds ∧ cs' ≡ₚ R ∧ a * Z.of_nat m + weigh cs' ds ≤ x * Z.of_nat m + weigh cs ds.
Proof.
  intros Hl Hd Hp Hax. destruct (decide (a = x)) as [->|Hne]; [exists cs; split_and!; [done|by apply Permutation_cons_inv in Hp|lia]|].
  assert (a ∈ cs) as Hin by (assert (a ∈ x :: cs) as H by (rewrite Hp; left); apply elem_of_cons in H as [?|?]; done).
  apply list_elem_of_split in Hin as (c1 & c2 & ->). assert (∃ d1 d d2, ds = d1 ++ d :: d2 ∧ length c1 = length d1) as (d1 & d & d2 & -> & Hl1).
  { rewrite length_app in Hl. simpl in Hl. exists (take (length c1) ds). destruct (drop (length c1) ds) as [|d d2] eqn:E; [apply (f_equal length) in E; rewrite length_drop in E; simpl in E; lia|].
    exists d, d2. rewrite <-E, take_drop, length_take. split; [done|lia]. }
  exists (c1 ++ x :: c2). rewrite !length_app in *. simpl in *. split; [lia|]. split.
  - apply (Permutation_cons_inv (a := a)). rewrite <-Hp. rewrite <-!Permutation_middle. apply Permutation_swap.
  - rewrite !weigh_app by done. apply Forall_app in Hd as [_ Hd]. apply Forall_cons in Hd as [Hd _]. unfold weigh. simpl. nia.
Qed.
Lemma lightest_pair l r a b R : leaf_counts (Fork l r) ≡ₚ a :: b :: R → a ≤ b → Forall (λ x, b ≤ x) R →
  ∃ t', leaf_counts t' ≡ₚ (a + b) :: R ∧ cost t' + (a + b) ≤ cost (Fork l r).
Proof.
  intros Hp Hab HR. set (t := Fork l r) in *. destruct (deepest_pair l r) as (d1 & d2 & m & t' & Ed & Em & Et). fold t in Ed, Em. clearbody t. rewrite cost_weigh, Ed. pose proof (length_leaves t) as Hl. rewrite Ed, length_app in Hl. simpl in Hl.
  pose proof (leaf_depths_le t) as Hd. rewrite Ed, Em in Hd. apply Forall_app in Hd as [Hd1 Hd2]. apply Forall_cons in Hd2 as [_ Hd2]. apply Forall_cons in Hd2 as [_ Hd2].
  assert (∃ c1 x y c2, leaf_counts t = c1 ++ x :: y :: c2 ∧ length c1 = length d1 ∧ length c2 = length d2) as (c1 & x & y & c2 & Ec & Hc1 & Hc2).
  { exists (take (length d1) (leaf_counts t)). destruct (drop (length d1) (leaf_counts t)) as [|x [|y c2]] eqn:E; [apply (f_equal length) in E; rewrite length_drop in E; simpl in E; lia..|].
    exists x, y, c2. rewrite <-E at 1. rewrite take_drop, length_take. apply (f_equal length) in E. rewrite length_drop in E. simpl in E. split; [done|lia]. }
  rewrite Ec in Hp |- *. rewrite weigh_app by done.
  assert (x :: y :: c1 ++ c2 ≡ₚ a :: b :: R) as Hp' by (rewrite <-Hp; by rewrite <-!Permutation_middle).
  assert (∀ z, z ∈ x :: y :: c1 ++ c2 → a ≤ z) as Hmin by (intros z; rewrite Hp', !elem_of_cons; intros [-> | [-> | Hz]]; [lia|lia|rewrite Forall_forall in HR; specialize (HR z Hz); lia]).
  destruct (pull_lightest x a (S m) (y :: c1 ++ c2) (b :: R) (S m :: d1 ++ d2)) as (cs & Hlc & Hcs & Hle); [simpl; rewrite !length_app; lia|constructor; [lia|by apply Forall_app]|done|apply Hmin; left|].
  destruct cs as [|y' cs]; [done|]. assert (b ≤ y') as Hby by (assert (y' ∈ b :: R) as Hin by (rewrite <-Hcs; left); apply elem_of_cons in Hin as [->|Hin]; [lia|rewrite Forall_forall in HR; by apply HR]).
  destruct (pull_lightest y' b (S m) cs R (d1 ++ d2)) as (cs' & Hlc' & Hcs' & Hle'); [simpl in Hlc; lia|by apply Forall_app|done|done|].
  rewrite length_app in Hlc'. destruct (relabel t' (take (length d1) cs' ++ (a + b) :: drop (length d1) cs')) as (t2 & E2 & D2); [rewrite Et, !length_app; simpl; rewrite length_take, length_drop; lia|].
  exists t2. rewrite E2. split; [rewrite <-Permutation_middle, take_drop; by constructor|]. rewrite cost_weigh, E2, D2, Et.
  rewrite !weigh_cons in *. rewrite <-(take_drop (length d1) cs') in Hle'. rewrite !weigh_app in * by (rewrite ?length_take; lia). rewrite !weigh_cons in *. lia.
Qed.
(** The merges of a forest lose nothing against any tree with its weights for leaves. *)
Lemma merge_trees_best k : ∀ ts t u, light_first ts → merge_trees k ts = Some t → leaf_counts u ≡ₚ weight <$> ts → cost t ≤ cost u + foldr Z.add 0 (cost <$> ts).
Proof.
  induction k as [|k IH]; intros ts t u Hs E Hu; [done|]. destruct ts as [|a [|b ts]]; simpl in E; [done| |].
  - injection E as ->. simpl in Hu |- *. apply Permutation_length in Hu as Hl. simpl in Hl. destruct u as [s c|l r]; [simpl; lia|]. pose proof (leaf_counts_pos l). pose proof (leaf_counts_pos r). simpl in Hl. rewrite length_app in Hl. lia.
  - destruct u as [s c|l r]; [apply Permutation_length in Hu; done|]. assert (weight a ≤ weight b ∧ Forall (λ x, weight b ≤ x) (weight <$> ts)) as [Hab HR].
    { unfold light_first in Hs. apply StronglySorted_inv in Hs as [Hs Ha]. apply StronglySorted_inv in Hs as [_ Hb]. apply Forall_cons in Ha as [Ha _]. split; [done|by apply Forall_fmap]. }
    destruct (lightest_pair l r _ _ _ Hu Hab HR) as (u' & Hu' & Hc). assert (insert_tree (Fork a b) ts ≡ₚ Fork a b :: ts) as Hi by apply insert_after_in.
    assert (cost t ≤ cost u' + foldr Z.add 0 (cost <$> insert_tree (Fork a b) ts)) as Ht.
    { apply (IH _ t u'); [apply insert_tree_sorted; unfold light_first in Hs; apply StronglySorted_inv in Hs as [Hs _]; by apply StronglySorted_inv in Hs as [Hs _]|done|by rewrite Hu', Hi]. }
    rewrite (sum_perm _ (cost <$> Fork a b :: ts)) in Ht by (by rewrite Hi). simpl in *. lia.
Qed.

(** ** The length of the codes *)

(** The tree with counts for its symbols. *)
Fixpoint recount (count : Z → Z) (t : code_tree) : code_tree := match t with Leaf s _ => Leaf s (count s) | Fork l r => Fork (recount count l) (recount count r) end.
Lemma recount_counts count t : leaf_counts (recount count t) = count <$> symbols t.
Proof. induction t as [s c|l IHl r IHr]; simpl; [done|]. by rewrite IHl, IHr, fmap_app. Qed.
Lemma weight_occurs b data t : NoDup (symbols t) → weight (recount (occurrences (b :: data)) t) = weight (recount (occurrences data) t) + (if decide (b ∈ symbols t) then 1 else 0).
Proof.
  induction t as [s c|l IHl r IHr]; cbn [recount weight symbols].
  - intros _. simpl. destruct (Z.eqb_spec b s) as [->|]; [rewrite decide_True by (by apply list_elem_of_singleton)|rewrite decide_False by (by rewrite list_elem_of_singleton)]; lia.
  - intros (Hl & Hd & Hr)%NoDup_app. rewrite IHl, IHr by done. destruct (decide (b ∈ symbols l)) as [Hb|Hb].
    + rewrite (decide_False (P := b ∈ symbols r)) by (by apply Hd). rewrite decide_True by (apply elem_of_app; by left). lia.
    + destruct (decide (b ∈ symbols r)); [rewrite decide_True by (apply elem_of_app; by right)|rewrite decide_False by (rewrite elem_of_app; tauto)]; lia.
Qed.
Lemma cost_occurs b data t : NoDup (symbols t) → cost (recount (occurrences (b :: data)) t) = cost (recount (occurrences data) t) + zlen (default [] (path t b)).
Proof.
  induction t as [s c|l IHl r IHr]; cbn [recount cost symbols].
  - intros _. simpl. by case_decide.
  - intros (Hl & Hd & Hr)%NoDup_app. rewrite IHl, IHr, !weight_occurs by done. cbn [path]. destruct (path l b) as [p|] eqn:Ep.
    + assert (b ∈ symbols l) as Hb by (apply path_symbols; by eexists). assert (path r b = None) as -> by (apply path_none; by apply Hd).
      rewrite decide_True by done. rewrite decide_False by (by apply Hd). unfold zlen. simpl. lia.
    + rewrite decide_False by (by apply path_none). destruct (path r b) as [p|] eqn:Er; simpl.
      * rewrite decide_True by (apply path_symbols; by eexists). unfold zlen. simpl. lia.
      * rewrite decide_False by (by apply path_none). change (zlen []) with 0. lia.
Qed.
Lemma code_bits_cost t data : NoDup (symbols t) → zlen (code_bits t data) = cost (recount (occurrences data) t).
Proof.
  intros Hnd. induction data as [|b data IH].
  - unfold code_bits. simpl. assert (weight (recount (λ _, 0) t) = 0 ∧ cost (recount (λ _, 0) t) = 0) as [_ H]; [|exact (eq_sym H)]. clear. induction t as [s c|l [Hl Hl'] r [Hr Hr']]; simpl; lia.
  - rewrite cost_occurs, <-IH by done. change (code_bits t (b :: data)) with (default [] (path t b) ++ code_bits t data). rewrite zlen_app. lia.
Qed.
Lemma huffman_recount count t : huffman_tree count = Some t → recount count t = t.
Proof.
  intros E. apply (merge_trees_keep (Forall (λ t, recount count t = t))) in E; [by apply Forall_cons in E as [E _]| |].
  - intros a b ts Hts. unfold insert_tree. rewrite insert_after_in. apply Forall_cons in Hts as [Ha Hts]. apply Forall_cons in Hts as [Hb Hts]. constructor; [|done]. simpl. by rewrite Ha, Hb.
  - unfold leaves. by apply Forall_fmap, Forall_forall.
Qed.
(** No tree with the same symbols spells the data in fewer bits. *)
Lemma huffman_tree_best data t u : huffman_tree (occurrences data) = Some t → symbols u ≡ₚ symbols t → zlen (code_bits t data) ≤ zlen (code_bits u data).
Proof.
  intros E Hu. destruct (huffman_nodup _ _ E) as [Hnd _]. rewrite !code_bits_cost by (by rewrite ?Hu). rewrite huffman_recount by done.
  rewrite (merge_trees_best _ _ _ (recount (occurrences data) u) (leaves_sorted (occurrences data)) E).
  - assert (foldr Z.add 0 (cost <$> leaves (occurrences data)) = 0) as ->; [|lia]. unfold leaves. generalize (filter (λ s, occurrences data s ≠ 0) (by_count (occurrences data))). intros l. induction l as [|s l IH]; simpl; [done|exact IH].
  - rewrite recount_counts, Hu, (huffman_symbols _ _ E), leaves_perm, <-list_fmap_compose. done.
Qed.

(** ** The table of codes *)

Definition coded_length (nodes : nodes_t) (data : list Z) : Z := foldr (λ b n, hn_length (get nodes b) + n) 0 data.
Lemma coded_length_bits nodes t data : (∀ s p, path t s = Some p → hn_length (get nodes s) = zlen p) → Forall (λ b, b ∈ symbols t) data → coded_length nodes data = zlen (code_bits t data).
Proof.
  intros Hl. induction 1 as [|b data Hb _ IH]; [done|]. apply path_symbols in Hb as [p Hp]. simpl. rewrite IH, (Hl b p Hp).
  change (code_bits t (b :: data)) with (default [] (path t b) ++ code_bits t data). by rewrite zlen_app, Hp.
Qed.
(** C28: for data of at least two different bytes the table that is counted, the tree that is built from it and the codes that are set along its paths exist, whatever the arrays on the stack hold before:
    the codes are the paths to the bytes of the data in one tree, and no tree with these bytes for its leaves spells the data in fewer bits. *)
Theorem cavan_huffman_codes_are_shortest nodes tn pn data : packable data →
  zlen nodes = CAVAN_HUFFMAN_SYMBOLS → zlen tn = CAVAN_HUFFMAN_TREE_SIZE → zlen pn = CAVAN_HUFFMAN_TREE_SIZE →
  wp (nodes ← cavan_huffman_freq_table_init nodes; nodes ← cavan_huffman_build_freq_table data nodes; '(tn, root) ← cavan_huffman_build_tree pn tn nodes;
      cavan_huffman_tree_set_code (S (length tn)) tn root 0 0 nodes)
    (λ nodes', ∃ t, NoDup (symbols t) ∧ (∀ s, s ∈ symbols t ↔ s ∈ data) ∧
      (∀ s p, path t s = Some p → hn_code (get nodes' s) = bits_value p ∧ hn_length (get nodes' s) = zlen p) ∧
      ∀ u, symbols u ≡ₚ symbols t → coded_length nodes' data ≤ zlen (code_bits u data)).
Proof.
  intros Hd Hn Htn Hpn. destruct (packable_tree data Hd) as [_ Hpt]. pose proof Hd as (Hb & Hl & _).
  apply wp_bind. eapply wp_mono; [by apply freq_table_init_ok|]. intros nodes0 Hn0. apply wp_bind. eapply wp_mono; [apply (build_freq_table_ok data nodes0 (λ _, 0) Hn0 Hb); lia|].
  intros nodes1 Hn1. simpl in Hn1. assert (counts nodes1 (occurrences data)) as Hn2 by (destruct Hn1; by split).
  destruct (packable_build data pn tn nodes1 Hd Hn2 Htn Hpn) as (tn' & root & t & -> & Ht & Htn' & Hr). apply wp_bind, wp_ret. simpl.
  destruct (Hpt t Ht) as (_ & Hdepth & Hsym & Hnd & Hrange).
  eapply wp_mono; [apply (set_code_ok tn' CAVAN_HUFFMAN_TREE_SIZE t ltac:(by rewrite Htn') Hnd (S (length tn')) root []); [done|by rewrite (cn_length _ _ Hn2)|unfold zlen, CAVAN_HUFFMAN_TREE_SIZE, CAVAN_HUFFMAN_SYMBOLS in Htn'; lia|done]|].
  intros nodes' [_ Hcodes _ _]. exists t. split; [done|]. split; [|split; [exact Hcodes|]].
  - intros s. rewrite (huffman_symbols _ _ Ht). by apply occurring_in.
  - intros u Hu. rewrite (coded_length_bits nodes' t data) by (done || (intros; by apply Hcodes)). by apply huffman_tree_best.
Qed.
Lemma cavan_huffman_codes_are_shortest_witness :
  let nodes := repeat (mk_huffman_node 7 7 7 7) 256 in let tn := repeat (mk_huffman_tree_node 7 7 7 7) 512 in let data := [97; 98; 97; 99; 97; 97] in
  wp (nodes ← cavan_huffman_freq_table_init nodes; nodes ← cavan_huffman_build_freq_table data nodes; '(tn, root) ← cavan_huffman_build_tree (repeat 7 512) tn nodes;
      cavan_huffman_tree_set_code (S (length tn)) tn root 0 0 nodes)
    (λ nodes', ∃ t, NoDup (symbols t) ∧ (∀ s, s ∈ symbols t ↔ s ∈ data) ∧
      (∀ s p, path t s = Some p → hn_code (get nodes' s) = bits_value p ∧ hn_length (get nodes' s) = zlen p) ∧
      ∀ u, symbols u ≡ₚ symbols t → coded_length nodes' data ≤ zlen (code_bits u data)).
Proof.
  intros nodes tn data. apply (cavan_huffman_codes_are_shortest nodes tn (repeat 7 512) data); [|unfold zlen, nodes; by rewrite repeat_length|unfold zlen, tn; by rewrite repeat_length|unfold zlen; by rewrite repeat_length].
  split; [apply (bool_decide_eq_true_1 _); vm_compute; reflexivity|]. split; [vm_compute; reflexivity|]. exists 97, 98. split; [apply (bool_decide_eq_true_1 _); vm_compute; reflexivity|]. split; [apply (bool_decide_eq_true_1 _); vm_compute; reflexivity|lia].
Defined.
(** Six bytes with the codes 0, 10 and 11 take eight bits. *)
Example six_bytes_take_eight_bits :
  (nodes ← cavan_huffman_freq_table_init (repeat (mk_huffman_node 7 7 7 7) 256); nodes ← cavan_huffman_build_freq_table [97; 98; 97; 99; 97; 97] nodes;
   '(tn, root) ← cavan_huffman_build_tree (repeat 7 512) (repeat (mk_huffman_tree_node 7 7 7 7) 512) nodes;
   nodes ← cavan_huffman_tree_set_code (S (length tn)) tn root 0 0 nodes; mret (coded_length nodes [97; 98; 97; 99; 97; 97])) = Ok 8.
Proof. vm_compute. reflexivity. Qed.
